(* ===== verification/_CoqProject ===== *)
-Q . S2P
Prelude.v
Bytes.v
Codec.v
StreamReader.v
QuicWire.v
Errors.v
SessionRegistry.v
SessionOwners.v
RevisionStore.v
AuthorityStore.v
IrohWire.v
IrohRelay.v
PairingVerifier.v
IrohConnection.v
SessionStreams.v
Enrollment.v
Paths.v
Material.v
Socket.v
ProtectedStore.v
Allowlist.v
Issuance.v
JsonFrames.v
FieldCodec.v
BootstrapWire.v
EnrollmentV3Wire.v
EnrollmentWire.v
WireProtocols.v
Herdr.v
BootstrapState.v
BootstrapRuntime.v
BootstrapAuthority.v
UpdateArchive.v
Config.v
Bridge.v
QrmStreams.v
Pki.v
Tasks.v
Services.v
ServerWorld.v
Hdb1Server.v
Hde3Server.v
QrmConnection.v
QrmSafety.v
QrmAdmission.v
QrmStartup.v
QrmServer.v
EnrollmentAuthority.v
Updater.v
UpdateSafety.v
Supervision.v
Cli.v
