(* ===== verification/Prelude.v ===== *)
(** * herdogrelay: verification library

    The relay daemon herdogrelay (src/src) lets a remote Core reach Herdr workspaces through a
    device: it admits and pairs peers, hands out short-lived session authorities, forwards the
    bytes of a session to a Unix socket, enrolls Core and its Apps, and updates itself.  This
    library models the daemon as written, function by function, and proves what each part
    promises to the others.

    ** Reading the library

    A Rust function [T::f] is the definition [T_f] or [f]; a struct is a record, an enum an
    inductive type with the same constructors.  A fallible function gives an [outcome] (below):
    [Ok], [Err], or [Panic], so that the absence of panics is proved and not assumed.  A function
    that changes state is a [stateful] function on an explicit state; a loop over a random source
    or over time consumes an explicit list of draws.  Integers are [Z] with their width stated
    ([is_u8], ..., [u64_checked_add]); byte strings and text are lists of bytes.  Code of other
    crates (serde_json, base64, SHA-256, x509, tar and gzip, iroh, quinn) is a parameter, and what
    is relied on is a hypothesis that names the documented behaviour.  What the operating system,
    Herdr, the clock and the scheduler decide is an argument of an operation: [MaterialIo],
    [StoreIo], [IoFaults], [BootstrapIo], [UpdateIo] say which system calls of one operation
    fail.  Operations under one lock are atomic; async functions that talk to the outside
    between two uses of a lock are tasks with one constructor per await point, and the steps of
    all tasks interleave in every order.

    ** Foundations
    - Prelude.v (outcomes, the state monad with its [wp] rules, list and integer lemmas), Bytes.v
      (bytes, slices and UTF-8), Codec.v (the interface [LawfulCodec]), StreamReader.v (reading
      frames from a stream), Errors.v (error.rs), Paths.v, Material.v (material.rs),
      ProtectedStore.v (a value kept in a protected file), RevisionStore.v (the interface of a
      compare-and-commit record store).

    ** Wire formats
    - QuicWire.v (quic_wire.rs: HDQM control frames, HDQS bindings), IrohWire.v (iroh_endpoint.rs:
      HDP1), JsonFrames.v and FieldCodec.v (the shared layout of the JSON protocols and their text
      fields), BootstrapWire.v (HDB1), EnrollmentV3Wire.v (HDE3), EnrollmentWire.v (HDE1 and
      reconciliation), WireProtocols.v (the four together).  Shown: every codec is inverse on
      valid values, accepts only the canonical encoding and never panics; the readers return
      exactly the frames written; the formats do not overlap.

    ** Admission and sessions
    - SessionRegistry.v (session_registry.rs): prepared and active session authorities.
    - AuthorityStore.v (authority_store.rs) implements the interface of RevisionStore.v under
      any failing system calls; IrohRelay.v (the relay state of iroh_endpoint.rs) is proved
      against the interface: admission, pairing, revocation, restart.
    - PairingVerifier.v (the six-digit verification), IrohConnection.v (the pairing loop of a
      connection), SessionStreams.v (its session phase, with all interleavings of control
      frames, stream tasks and bridges).

    - Socket.v (socket.rs: the same private socket before and after the connection), Bridge.v
      (bridge.rs: the forwarding task as a function of its events), SessionOwners.v (one owner
      for every bound session, the discipline both servers share).

    ** The QUIC server (quic_server.rs)
    - QrmStartup.v (bind, build_server_config), QrmServer.v (serve_until: the accept loop, its
      tasks and semaphores), QrmAdmission.v (from the TLS handshake to the hello, and the
      readers of control frames), QrmConnection.v (the control loop: one event at a time, cut
      at its uses of locks), QrmStreams.v (the session streams of a connection), QrmSafety.v
      (what the loop and the streams promise in every interleaving: sessions and tasks fit
      together, closed sessions stop, revoked peers are cut off, a drain admits nothing).
    - Tasks.v (handlers as tasks, systems and schedules), ServerWorld.v (the stores the
      enrollment connections share, and the log of what was done with them), Hdb1Server.v and
      Hde3Server.v (the two enrollment handlers), Services.v (the interfaces of the four
      components they use, with their laws, and the instances that discharge the laws),
      EnrollmentAuthority.v (whatever the schedule: nothing is issued, entered or activated
      without the approval it needs; every connection ends).

    ** Enrollment and bootstrap
    - Enrollment.v (enrollment.rs), Allowlist.v (allowlist.rs), Issuance.v (issuance.rs): who may
      connect, and what became of each enrollment, in memory and on file.  Pki.v (pki.rs): what
      a certificate is issued for.
    - Herdr.v, BootstrapState.v, BootstrapRuntime.v, BootstrapAuthority.v (bootstrap_runtime.rs):
      the hidden workspaces, the state file, the calls, and what they guarantee over a whole run.

    ** Configuration, commands and updates
    - Config.v (config.rs): what an accepted configuration guarantees to its users.
    - Cli.v (bin/herdogrelay.rs): the arguments and the commands run, update and revoke;
      Supervision.v (supervision.rs): the service templates and their escaping.
    - UpdateArchive.v, Updater.v, UpdateSafety.v (updater.rs and the update command):
      the archive, the pipeline, the replacement of the executable and its rollback.

    ** Bounds and fuel
    - A bootstrap connection ends within two of its turns and an enrollment connection within
      seven: one per use of a shared store on the longest path.  A session task that was told to
      stop can leave its await point, remove its control and close its session: three turns, or
      four when it is not at an await point that selects on its receiver.  A task whose session
      is gone and that forwards nothing has at most five turns left.
    - The control reader of QrmAdmission.v has one unit of fuel per byte and one more: a frame
      takes at least one byte, and the end of the stream is the last turn.
    - The calls of the bootstrap runtime take their random draws from a list; 259 distinct draws
      and one accepted sample suffice, since never more than 258 identifiers are in use.
    - Handles have 16 bits, so a QRM connection that opens more than 65535 sessions gives one
      out again; [qs_reused] of QrmStreams.v records the handles given out while a task of an
      earlier session with that handle still ran, and the stopping of tasks is stated for the
      others.

    ** Conditions the code does not establish
    Some guarantees fail without a condition that the code does not check; the theorem states
    it, and a lemma shows the failure: two Apps with one fingerprint
    ([shared_fingerprint_survives_revocation]), an allowlist entry under another name
    ([misfiled_entry_survives_revocation]), a failed look-up when the allowlist is opened
    ([stat_failure_resets_allowlist]), an issuance record without its configuration generation
    ([legacy_record_issued_unloadable]), a bootstrap state over 64 KiB
    ([oversized_state_unreadable]), an executable named [*.previous]
    ([backup_of_previous_is_lost]), an accepting response that is not written ([pc_lost] of
    SessionStreams.v).

    ** Not modelled
    - bootstrap.rs, bootstrap_session.rs, enrollment_v3_session.rs and the *_test_support.rs
      files are compiled only for tests (lib.rs); so are the functions under cfg(test) in the
      other files.
    - The transports: QUIC and TLS (quinn, rustls), iroh's endpoint and router, curl, tar and
      gzip, X.509 and TOML parsing are parameters.  That a verified TLS chain is valid, that
      a stream delivers bytes in order, and that a hash or a signature cannot be forged is
      not stated; theorems say what the code checks.
    - Display and Debug texts, log lines, and the wait for a signal.
    - Time passes by the clock values of the events; no bound on real time is derived from them.
*)
From stdpp Require Export base list gmap option sorting.
From Stdlib Require Export ZArith Lia.

#[global] Open Scope Z_scope.

(** ** Outcomes of fallible code

    A Rust expression of type [Result<A, E>] ends in one of three ways: [Ok a],
    [Err e], or a panic (an index or a slice out of range, an [unwrap] of an
    error).  The third way is kept in the model, so that "never panics" is a
    theorem and not an assumption. *)
Inductive outcome (E A : Type) : Type :=
| Ok (a : A)
| Err (e : E)
| Panic.

Arguments Ok {E A} a.
Arguments Err {E A} e.
Arguments Panic {E A}.

#[export] Instance outcome_ret {E} : MRet (outcome E) := λ A a, Ok a.
#[export] Instance outcome_bind {E} : MBind (outcome E) := λ A B f m,
  match m with
  | Ok a => f a
  | Err e => Err e
  | Panic => Panic
  end.
#[export] Instance outcome_fmap {E} : FMap (outcome E) := λ A B f m,
  match m with
  | Ok a => Ok (f a)
  | Err e => Err e
  | Panic => Panic
  end.

(** [Result::map_err]. *)
Definition map_err {E F A} (f : E → F) (m : outcome E A) : outcome F A :=
  match m with
  | Ok a => Ok a
  | Err e => Err (f e)
  | Panic => Panic
  end.

(** [Option::ok_or]. *)
Definition ok_or {E A} (o : option A) (e : E) : outcome E A :=
  match o with
  | Some a => Ok a
  | None => Err e
  end.

(** An outcome that is not a panic. *)
Definition returns {E A} (m : outcome E A) : Prop := m ≠ Panic.

(** [Result::is_ok] and [Result::is_err]. *)
Definition is_ok {E A} (m : outcome E A) : bool :=
  match m with Ok _ => true | _ => false end.
Definition is_err {E A} (m : outcome E A) : bool :=
  match m with Err _ => true | _ => false end.

(** ** Stateful fallible code

    A [&mut self] method returning a [Result] is a function from the state to the
    new state and the outcome: a state change made before an early return stays. *)
Definition stateful (S E A : Type) : Type := S → S * outcome E A.

Definition st_ret {S E A} (a : A) : stateful S E A := λ s, (s, Ok a).
Definition st_err {S E A} (e : E) : stateful S E A := λ s, (s, Err e).
Definition st_get {S E} : stateful S E S := λ s, (s, Ok s).
Definition st_put {S E} (s : S) : stateful S E unit := λ _, (s, Ok tt).
Definition st_modify {S E} (f : S → S) : stateful S E unit := λ s, (f s, Ok tt).
Definition st_lift {S E A} (m : outcome E A) : stateful S E A := λ s, (s, m).
Definition st_bind {S E A B} (m : stateful S E A) (f : A → stateful S E B) : stateful S E B :=
  λ s, match m s with
       | (s', Ok a) => f a s'
       | (s', Err e) => (s', Err e)
       | (s', Panic) => (s', Panic)
       end.

Declare Scope relay_scope.
Delimit Scope relay_scope with relay.

Notation "'let!' x ':=' m 'in' k" := (st_bind m (λ x, k))
  (at level 10, x name, m at level 100, k at level 200) : relay_scope.
Notation "'do!' m ; k" := (st_bind m (λ _, k))
  (at level 10, m at level 100, k at level 200) : relay_scope.

(** ** Machine-width integers *)
Definition u8_max : Z := 255.
Definition u16_max : Z := 65535.
Definition u32_max : Z := 4294967295.
Definition u64_max : Z := 18446744073709551615.
Definition i64_max : Z := 9223372036854775807.

Definition is_u8 (z : Z) : Prop := 0 ≤ z ≤ u8_max.
Definition is_u16 (z : Z) : Prop := 0 ≤ z ≤ u16_max.
Definition is_u32 (z : Z) : Prop := 0 ≤ z ≤ u32_max.
Definition is_u64 (z : Z) : Prop := 0 ≤ z ≤ u64_max.

(** [u64::checked_add], [u64::saturating_sub], [u8::saturating_add] and
    [u16::wrapping_add]. *)
Definition u64_checked_add (a b : Z) : option Z :=
  if a + b <=? u64_max then Some (a + b) else None.
Definition u64_saturating_sub (a b : Z) : Z := Z.max 0 (a - b).
Definition u8_saturating_add (a b : Z) : Z := Z.min u8_max (a + b).
Definition u16_wrapping_add (a b : Z) : Z := (a + b) mod 65536.

(** [usize] lengths, as integers. *)
Definition len {A} (l : list A) : Z := Z.of_nat (length l).

(** ** Ordered maps

    A [BTreeMap] is a finite map; where the code iterates, the order of the keys
    is part of the behaviour.  [btree_entries rank m] lists the entries by
    increasing [rank] of the key. *)
Definition btree_le {K A} (rank : K → Z) (x y : K * A) : Prop := rank x.1 ≤ rank y.1.

#[export] Instance btree_le_dec {K A} (rank : K → Z) (x y : K * A) :
  Decision (btree_le rank x y).
Proof. unfold btree_le. apply _. Defined.

Definition btree_entries {K A} `{Countable K} (rank : K → Z) (m : gmap K A) : list (K * A) :=
  merge_sort (btree_le rank) (map_to_list m).

(** [BTreeMap::len]. *)
Definition map_len {K A} `{Countable K} (m : gmap K A) : Z := Z.of_nat (size m).

(** [values().any(f)], [values().find(f)] and [iter().find_map(..)] of a map. *)
Definition map_any {K A} `{Countable K} (f : A → bool) (m : gmap K A) : bool :=
  existsb (λ kv, f kv.2) (map_to_list m).
Definition btree_find_key {K A} `{Countable K} (rank : K → Z) (f : A → bool) (m : gmap K A)
  : option K :=
  fst <$> List.find (λ kv, f kv.2) (btree_entries rank m).

(** ** Automation *)
Create HintDb relay discriminated.

(** Case analysis on the innermost scrutinee of a match, in the goal or in [H]. *)
Ltac cases_in H :=
  match type of H with
  | context [match ?x with _ => _ end] =>
      lazymatch x with
      | context [match _ with _ => _ end] => fail
      | _ => destruct x eqn:?
      end
  end.
Ltac cases_goal :=
  match goal with
  | |- context [match ?x with _ => _ end] =>
      lazymatch x with
      | context [match _ with _ => _ end] => fail
      | _ => destruct x eqn:?
      end
  end.

(** Turn boolean facts of the context into propositions. *)
Ltac bool_facts :=
  repeat match goal with
  | H : _ && _ = true |- _ => apply andb_true_iff in H as [? ?]
  | H : _ || _ = false |- _ => apply orb_false_iff in H as [? ?]
  | H : negb _ = true |- _ => apply negb_true_iff in H
  | H : negb _ = false |- _ => apply negb_false_iff in H
  | H : (_ =? _)%Z = true |- _ => apply Z.eqb_eq in H
  | H : (_ =? _)%Z = false |- _ => apply Z.eqb_neq in H
  | H : (_ <=? _)%Z = true |- _ => apply Z.leb_le in H
  | H : (_ <=? _)%Z = false |- _ => apply Z.leb_gt in H
  | H : (_ <? _)%Z = true |- _ => apply Z.ltb_lt in H
  | H : (_ <? _)%Z = false |- _ => apply Z.ltb_ge in H
  | H : bool_decide (_ ≠ _) = false |- _ => apply bool_decide_eq_false, dec_stable in H
  | H : bool_decide _ = true |- _ => apply bool_decide_eq_true in H
  | H : bool_decide _ = false |- _ => apply bool_decide_eq_false in H
  end.

(** ** Lemmas on outcomes *)
Lemma bind_Ok {E A B} (m : outcome E A) (f : A → outcome E B) b :
  m ≫= f = Ok b ↔ ∃ a, m = Ok a ∧ f a = Ok b.
Proof. destruct m; simpl; naive_solver. Qed.

Lemma Ok_inj {E A} (a b : A) : (Ok a : outcome E A) = Ok b → a = b.
Proof. by intros [= ->]. Qed.

Lemma bind_returns {E A B} (m : outcome E A) (f : A → outcome E B) :
  returns m → (∀ a, m = Ok a → returns (f a)) → returns (m ≫= f).
Proof. unfold returns. destruct m; simpl; naive_solver. Qed.

Lemma map_err_Ok {E F A} (g : E → F) (m : outcome E A) a :
  map_err g m = Ok a ↔ m = Ok a.
Proof. destruct m; simpl; naive_solver. Qed.

Lemma map_err_returns {E F A} (g : E → F) (m : outcome E A) :
  returns m → returns (map_err g m).
Proof. unfold returns. destruct m; simpl; naive_solver. Qed.

Lemma ok_or_Ok {E A} (o : option A) (e : E) a : ok_or o e = Ok a ↔ o = Some a.
Proof. destruct o; simpl; naive_solver. Qed.

Lemma ok_or_returns {E A} (o : option A) (e : E) : returns (ok_or o e).
Proof. unfold returns. destruct o; simpl; naive_solver. Qed.

Lemma Ok_returns {E A} (a : A) : returns (Ok a : outcome E A).
Proof. discriminate. Qed.

Lemma Err_returns {E A} (e : E) : returns (Err e : outcome E A).
Proof. discriminate. Qed.

#[export] Hint Resolve Ok_returns Err_returns ok_or_returns map_err_returns bind_returns : relay.

(** A state-passing run, by the outcome it ends in. *)
Lemma run_outcome {A B} (p : A * B) b : p.2 = b → p = (p.1, b).
Proof. intros <-. apply surjective_pairing. Qed.

(** ** Weakest preconditions of state-passing code *)
Section Wp.
Context {S E : Type}.

Definition wp {A} (m : stateful S E A) (Q : outcome E A → S → Prop) (s : S) : Prop :=
  let '(s', r) := m s in Q r s'.

Lemma wp_bind {A B} (m : stateful S E A) f (Q : outcome E B → S → Prop) s :
  wp m (λ r s', match r with Ok a => wp (f a) Q s' | Err e => Q (Err e) s' | Panic => Q Panic s' end) s →
  wp (st_bind m f) Q s.
Proof. unfold wp, st_bind. by destruct (m s) as [s' [a|e|]]. Qed.

Lemma wp_ret {A} (a : A) (Q : outcome E A → S → Prop) s : Q (Ok a) s → wp (st_ret a) Q s.
Proof. done. Qed.
Lemma wp_err {A} e (Q : outcome E A → S → Prop) s : Q (Err e) s → wp (st_err e) Q s.
Proof. done. Qed.
Lemma wp_cases {A} (m : outcome E A) (Q : outcome E A → S → Prop) s :
  (∀ a, m = Ok a → Q (Ok a) s) → (∀ e, m = Err e → Q (Err e) s) → (m = Panic → Q Panic s) → wp (st_lift m) Q s.
Proof. intros Ho He Hp. unfold wp, st_lift. destruct m; auto. Qed.
Lemma wp_conseq {A} (m : stateful S E A) (Q Q' : outcome E A → S → Prop) s :
  wp m Q s → (∀ r s', Q r s' → Q' r s') → wp m Q' s.
Proof. unfold wp. destruct (m s). auto. Qed.
Lemma wp_and {A} (m : stateful S E A) (Q Q' : outcome E A → S → Prop) s :
  wp m Q s → wp m Q' s → wp m (λ r s', Q r s' ∧ Q' r s') s.
Proof. unfold wp. destruct (m s). auto. Qed.
Lemma wp_run {A} (m : stateful S E A) (Q : outcome E A → S → Prop) s s' r : m s = (s', r) → wp m Q s → Q r s'.
Proof. unfold wp. by intros ->. Qed.
End Wp.

(** ** Lemmas on integers *)
Lemma u64_checked_add_Some a b c :
  u64_checked_add a b = Some c ↔ c = a + b ∧ a + b ≤ u64_max.
Proof.
  unfold u64_checked_add. destruct (a + b <=? u64_max) eqn:Hle; bool_facts; naive_solver lia.
Qed.

Lemma u64_checked_add_None a b : u64_checked_add a b = None ↔ u64_max < a + b.
Proof.
  unfold u64_checked_add. destruct (a + b <=? u64_max) eqn:Hle; bool_facts; naive_solver lia.
Qed.

Lemma len_nonneg {A} (l : list A) : 0 ≤ len l.
Proof. unfold len. lia. Qed.

Lemma len_nil_iff {A} (l : list A) : len l = 0 ↔ l = [].
Proof. unfold len. destruct l; simpl; split; intros; try done; lia. Qed.

(** ** Lemmas on maps *)
Lemma elem_of_btree_entries {K A} `{Countable K} (rank : K → Z) (m : gmap K A) k a :
  (k, a) ∈ btree_entries rank m ↔ m !! k = Some a.
Proof.
  unfold btree_entries. rewrite merge_sort_Permutation. apply elem_of_map_to_list.
Qed.

Lemma btree_entries_NoDup {K A} `{Countable K} (rank : K → Z) (m : gmap K A) :
  NoDup (btree_entries rank m).*1.
Proof. unfold btree_entries. rewrite merge_sort_Permutation. apply NoDup_fst_map_to_list. Qed.

Lemma btree_entries_sorted {K A} `{Countable K} (rank : K → Z) (m : gmap K A) :
  StronglySorted (btree_le rank) (btree_entries rank m).
Proof.
  unfold btree_entries. apply StronglySorted_merge_sort.
  - unfold btree_le. intros x y z. lia.
  - unfold Total, btree_le. intros x y. lia.
Qed.

Lemma map_len_nonneg {K A} `{Countable K} (m : gmap K A) : 0 ≤ map_len m.
Proof. unfold map_len. lia. Qed.

Lemma map_len_insert_le {K A} `{Countable K} (m : gmap K A) k x :
  map_len (<[k := x]> m) ≤ map_len m + 1.
Proof.
  unfold map_len. destruct (m !! k) as [y|] eqn:Hk.
  - rewrite map_size_insert_Some by eauto. lia.
  - rewrite map_size_insert_None by done. lia.
Qed.

Lemma map_len_insert_new {K A} `{Countable K} (m : gmap K A) k x :
  m !! k = None → map_len (<[k := x]> m) = map_len m + 1.
Proof. intros. unfold map_len. rewrite map_size_insert_None by done. lia. Qed.

Lemma map_len_insert_eq {K A} `{Countable K} (m : gmap K A) k x :
  is_Some (m !! k) → map_len (<[k := x]> m) = map_len m.
Proof. intros Hk. unfold map_len. by rewrite map_size_insert_Some. Qed.

Lemma map_len_delete_Some {K A} `{Countable K} (m : gmap K A) k :
  is_Some (m !! k) → map_len (delete k m) = map_len m - 1.
Proof.
  intros [x Hk]. unfold map_len. rewrite map_size_delete_Some by eauto.
  assert (size m ≠ 0%nat) by (intros Hz%map_size_empty_inv; subst; done). lia.
Qed.

Lemma map_len_delete_le {K A} `{Countable K} (m : gmap K A) k :
  map_len (delete k m) ≤ map_len m.
Proof.
  destruct (m !! k) eqn:Hk; [rewrite map_len_delete_Some by eauto; lia|].
  rewrite delete_id by done. lia.
Qed.

Lemma map_len_mono {K A} `{Countable K} (m1 m2 : gmap K A) : m1 ⊆ m2 → map_len m1 ≤ map_len m2.
Proof. intros Hs. unfold map_len. apply map_subseteq_size in Hs. lia. Qed.

Lemma map_any_true {K A} `{Countable K} (f : A → bool) (m : gmap K A) :
  map_any f m = true ↔ ∃ k a, m !! k = Some a ∧ f a = true.
Proof.
  unfold map_any. rewrite existsb_exists. split.
  - intros ([k a] & Hin & Hf). exists k, a.
    apply list_elem_of_In, elem_of_map_to_list in Hin. done.
  - intros (k & a & Hl & Hf). exists (k, a).
    rewrite <-list_elem_of_In, elem_of_map_to_list. done.
Qed.

Lemma map_any_false {K A} `{Countable K} (f : A → bool) (m : gmap K A) :
  map_any f m = false ↔ ∀ k a, m !! k = Some a → f a = false.
Proof.
  rewrite <-not_true_iff_false, map_any_true. split.
  - intros Hn k a Hl. destruct (f a) eqn:Hf; [|done]. destruct Hn. eauto.
  - intros Hall (k & a & Hl & Hf). rewrite (Hall _ _ Hl) in Hf. done.
Qed.

Lemma btree_find_key_Some {K A} `{Countable K} (rank : K → Z) (f : A → bool) (m : gmap K A) k :
  btree_find_key rank f m = Some k → ∃ a, m !! k = Some a ∧ f a = true.
Proof.
  unfold btree_find_key. rewrite fmap_Some. intros ([k' a] & Hf & ->).
  apply find_some in Hf as [Hin Hf]. exists a. simpl in *.
  apply list_elem_of_In, elem_of_btree_entries in Hin. done.
Qed.

Lemma btree_find_key_None {K A} `{Countable K} (rank : K → Z) (f : A → bool) (m : gmap K A) :
  btree_find_key rank f m = None → ∀ k a, m !! k = Some a → f a = false.
Proof.
  unfold btree_find_key. rewrite fmap_None. intros Hf k a Hl.
  apply (find_none _ _ Hf (k, a)). by rewrite <-list_elem_of_In, elem_of_btree_entries.
Qed.
