(* ===== verification/Bytes.v ===== *)
(** * Bytes, fixed-width integers on the wire, slices and UTF-8

    What the codecs under src/src use of the Rust standard library: [u8] values,
    [to_be_bytes]/[from_be_bytes], indexing and slicing (with their panics),
    [std::str::from_utf8], [str::chars] and the ASCII and Unicode character
    classes the validators call. *)
From Stdlib Require Export Init.Byte.
From Stdlib Require Import Strings.Byte Strings.String.
Export String.StringSyntax.
From S2P Require Export Prelude.

#[export] Instance byte_eq_dec : EqDecision byte := Byte.byte_eq_dec.

#[export] Program Instance byte_countable : Countable byte :=
  inj_countable Byte.to_N Byte.of_N _.
Next Obligation. intros b. apply Byte.of_to_N. Qed.

(** A string slice is the list of its UTF-8 bytes; a literal is written in ASCII. *)
Definition str_lit (s : string) : list byte := list_byte_of_string s.
Arguments str_lit s%_string.

(** The numeric value of a byte, and [z as u8]. *)
Definition byte_val (b : byte) : Z := Z.of_N (Byte.to_N b).
Definition byte_of_Z (z : Z) : byte :=
  match Byte.of_N (Z.to_N (z mod 256)) with
  | Some b => b
  | None => x00
  end.

(** [uN::to_be_bytes] for an integer of [n] bytes, and [uN::from_be_bytes]. *)
Fixpoint be_bytes (n : nat) (z : Z) : list byte :=
  match n with
  | O => []
  | S n' => be_bytes n' (z / 256) ++ [byte_of_Z z]
  end.

Definition be_val (bs : list byte) : Z :=
  fold_left (λ acc b, acc * 256 + byte_val b) bs 0.

(** [\[0; n\]], the all-zero array. *)
Definition zeros (n : nat) : list byte := replicate n x00.

(** [bytes\[i\]], [bytes\[i..j\]] and [bytes\[i..\]]; out of range they panic. *)
Definition index {E} (bs : list byte) (i : nat) : outcome E byte :=
  match bs !! i with
  | Some b => Ok b
  | None => Panic
  end.
Definition slice {E} (bs : list byte) (i j : nat) : outcome E (list byte) :=
  if bool_decide (i ≤ j ≤ length bs)%nat then Ok (take (j - i) (drop i bs)) else Panic.
Definition slice_from {E} (bs : list byte) (i : nat) : outcome E (list byte) :=
  slice bs i (length bs).

(** [slice.try_into().unwrap()] and [array.copy_from_slice(slice)] at width [n]. *)
Definition to_array {E} (n : nat) (bs : list byte) : outcome E (list byte) :=
  if bool_decide (length bs = n) then Ok bs else Panic.

(** [let mut a = \[0; n\]; a.copy_from_slice(&bytes\[i..j\])] and
    [uN::from_be_bytes(bytes\[i..j\].try_into().unwrap())]. *)
Definition get_array {E} (n : nat) (bs : list byte) (i j : nat) : outcome E (list byte) :=
  s ← slice bs i j; to_array n s.
Definition get_u32 {E} (bs : list byte) (i j : nat) : outcome E Z :=
  be_val <$> get_array 4 bs i j.
Definition get_u64 {E} (bs : list byte) (i j : nat) : outcome E Z :=
  be_val <$> get_array 8 bs i j.

(** [u16::from_be_bytes(\[bytes\[i\], bytes\[i + 1\]\])] and the same at four bytes. *)
Definition index_u16 {E} (bs : list byte) (i : nat) : outcome E Z :=
  b0 ← index bs i; b1 ← index bs (i + 1); Ok (be_val [b0; b1]).
Definition index_u32 {E} (bs : list byte) (i : nat) : outcome E Z :=
  b0 ← index bs i; b1 ← index bs (i + 1); b2 ← index bs (i + 2); b3 ← index bs (i + 3);
  Ok (be_val [b0; b1; b2; b3]).

(** The constant-time comparisons of the code: the differences of the bytes are
    accumulated with [|=], without an early return. *)
Definition accumulated_difference (left right : list byte) : Z :=
  foldl (λ difference lr, Z.lor difference (Z.lxor (byte_val lr.1) (byte_val lr.2)))
    0 (zip left right).

(** ** UTF-8 *)

(** A continuation byte is [0b10xxxxxx]. *)
Definition is_cont (b : byte) : bool := (128 <=? byte_val b) && (byte_val b <? 192).

(** The bounds of the second byte of a multi-byte sequence (no overlong form, no
    surrogate, nothing above U+10FFFF). *)
Definition second_ok (lead second : byte) : bool :=
  let l := byte_val lead in
  let s := byte_val second in
  if l =? 224 then (160 <=? s) && (s <? 192)
  else if l =? 237 then (128 <=? s) && (s <? 160)
  else if l =? 240 then (144 <=? s) && (s <? 192)
  else if l =? 244 then (128 <=? s) && (s <? 144)
  else is_cont second.

(** [str::from_utf8] followed by [chars]: the scalar values of a byte string. *)
Fixpoint utf8_chars (bs : list byte) : option (list Z) :=
  match bs with
  | [] => Some []
  | b :: t =>
      let v := byte_val b in
      if v <? 128 then cs ← utf8_chars t; Some (v :: cs)
      else if (194 <=? v) && (v <? 224) then
        match t with
        | b1 :: t1 =>
            if is_cont b1 then
              cs ← utf8_chars t1; Some ((v - 192) * 64 + (byte_val b1 - 128) :: cs)
            else None
        | _ => None
        end
      else if (224 <=? v) && (v <? 240) then
        match t with
        | b1 :: b2 :: t2 =>
            if second_ok b b1 && is_cont b2 then
              cs ← utf8_chars t2;
              Some ((v - 224) * 4096 + (byte_val b1 - 128) * 64 + (byte_val b2 - 128) :: cs)
            else None
        | _ => None
        end
      else if (240 <=? v) && (v <? 245) then
        match t with
        | b1 :: b2 :: b3 :: t3 =>
            if second_ok b b1 && is_cont b2 && is_cont b3 then
              cs ← utf8_chars t3;
              Some ((v - 240) * 262144 + (byte_val b1 - 128) * 4096
                    + (byte_val b2 - 128) * 64 + (byte_val b3 - 128) :: cs)
            else None
        | _ => None
        end
      else None
  end.

(** [std::str::from_utf8]: the same bytes, when they are well formed. *)
Definition from_utf8 (bs : list byte) : option (list byte) :=
  match utf8_chars bs with
  | Some _ => Some bs
  | None => None
  end.

(** [u8::is_ascii_alphanumeric], [u8::is_ascii_digit] and the other byte classes. *)
Definition is_ascii_digit (b : byte) : bool := (48 <=? byte_val b) && (byte_val b <=? 57).
Definition is_ascii_lowercase (b : byte) : bool := (97 <=? byte_val b) && (byte_val b <=? 122).
Definition is_ascii_uppercase (b : byte) : bool := (65 <=? byte_val b) && (byte_val b <=? 90).
Definition is_ascii_alphanumeric (b : byte) : bool :=
  is_ascii_digit b || is_ascii_lowercase b || is_ascii_uppercase b.

(** [char::is_control] (category Cc) and [char::is_whitespace] (White_Space). *)
Definition is_control (c : Z) : bool := (c <=? 31) || ((127 <=? c) && (c <=? 159)).
Definition is_whitespace (c : Z) : bool :=
  ((9 <=? c) && (c <=? 13)) || (c =? 32) || (c =? 133) || (c =? 160) || (c =? 5760)
  || ((8192 <=? c) && (c <=? 8202)) || (c =? 8232) || (c =? 8233) || (c =? 8239)
  || (c =? 8287) || (c =? 12288).

(** [s.chars().any(p)] for a string given by its bytes. *)
Definition any_char (p : Z → bool) (s : list byte) : bool :=
  match utf8_chars s with
  | Some cs => existsb p cs
  | None => false
  end.

(** The decimal digits of an unsigned 64-bit number ([format!] of an integer). *)
Fixpoint decimal_digits (fuel : nat) (z : Z) : list byte :=
  match fuel with
  | O => []
  | S fuel' =>
      (if z <? 10 then [] else decimal_digits fuel' (z / 10)) ++ [byte_of_Z (48 + z mod 10)]
  end.
Definition decimal (z : Z) : list byte := decimal_digits 20 z.

(** A byte string that a Rust [str] can hold. *)
Definition is_str (s : list byte) : Prop := is_Some (utf8_chars s).

(** ** Byte values *)
Lemma byte_val_range b : 0 ≤ byte_val b < 256.
Proof.
  unfold byte_val. pose proof (Byte.to_N_bounded b). lia.
Qed.

Lemma byte_of_val b : byte_of_Z (byte_val b) = b.
Proof. destruct b; reflexivity. Qed.

Lemma val_of_byte z : byte_val (byte_of_Z z) = z mod 256.
Proof.
  unfold byte_val, byte_of_Z.
  pose proof (Z.mod_pos_bound z 256 ltac:(lia)) as Hb.
  destruct (Byte.of_N (Z.to_N (z mod 256))) as [b|] eqn:Hof.
  - apply Byte.to_of_N in Hof. rewrite Hof. lia.
  - apply Byte.of_N_None_iff in Hof. lia.
Qed.

Lemma val_of_byte_small z : 0 ≤ z < 256 → byte_val (byte_of_Z z) = z.
Proof. intros. rewrite val_of_byte. apply Z.mod_small. lia. Qed.

Lemma byte_val_inj a b : byte_val a = byte_val b → a = b.
Proof. intros H. rewrite <-(byte_of_val a), <-(byte_of_val b). by f_equal. Qed.

(** ** Constant-time comparison *)
Lemma foldl_lor_acc (l : list (byte * byte)) d :
  0 ≤ d →
  foldl (λ difference lr, Z.lor difference (Z.lxor (byte_val lr.1) (byte_val lr.2))) d l = 0
  ↔ d = 0 ∧ Forall (λ lr, lr.1 = lr.2) l.
Proof.
  revert d. induction l as [|[a b] l IH]; intros d Hd; simpl.
  - split; [intros ->; auto | tauto].
  - pose proof (byte_val_range a). pose proof (byte_val_range b).
    assert (0 ≤ Z.lxor (byte_val a) (byte_val b)) by (apply Z.lxor_nonneg; lia).
    rewrite IH by (apply Z.lor_nonneg; lia).
    rewrite Z.lor_eq_0_iff, Z.lxor_eq_0_iff, Forall_cons. simpl.
    split; [intros [[-> ?%byte_val_inj] ?]; auto | intros (-> & -> & ?); auto].
Qed.

Lemma accumulated_difference_zero left right :
  length left = length right → accumulated_difference left right = 0 ↔ left = right.
Proof.
  intros Hl. unfold accumulated_difference. rewrite foldl_lor_acc by lia. split.
  - intros [_ Hall]. revert right Hl Hall.
    induction left as [|a left IH]; intros [|b right] Hl Hall; try discriminate; [done|].
    simpl in Hall. apply Forall_cons in Hall as [Hab Hall]. simpl in Hab. subst b.
    f_equal. apply IH; [|done]. simpl in Hl. lia.
  - intros ->. split; [done|]. clear Hl. induction right; simpl; auto.
Qed.

(** ** Big-endian integers *)
Lemma length_be_bytes n z : length (be_bytes n z) = n.
Proof.
  revert z; induction n as [|n IH]; intros z; simpl; [done|].
  rewrite length_app, IH. simpl. lia.
Qed.

Lemma be_val_app a b : be_val (a ++ b) = be_val a * 256 ^ len b + be_val b.
Proof.
  unfold be_val, len. rewrite fold_left_app. generalize (fold_left (λ acc b, acc * 256 + byte_val b) a 0).
  induction b as [|x b IH] using rev_ind; intros z; simpl; [lia|].
  rewrite !fold_left_app, IH, length_app, Nat2Z.inj_add, Z.pow_add_r by lia.
  simpl. lia.
Qed.

Lemma be_val_singleton b : be_val [b] = byte_val b.
Proof. reflexivity. Qed.

Lemma be_val_be_bytes n z : be_val (be_bytes n z) = z mod 256 ^ Z.of_nat n.
Proof.
  revert z; induction n as [|n IH]; intros z; simpl be_bytes.
  - rewrite Z.mod_1_r. reflexivity.
  - rewrite be_val_app, be_val_singleton, IH, val_of_byte.
    change (256 ^ len [byte_of_Z z]) with 256.
    rewrite Nat2Z.inj_succ, Z.pow_succ_r, Z.rem_mul_r by lia. lia.
Qed.

Lemma be_val_range bs : 0 ≤ be_val bs < 256 ^ len bs.
Proof.
  induction bs as [|x bs IH] using rev_ind; [unfold be_val, len; simpl; lia|].
  rewrite be_val_app, be_val_singleton. unfold len in *.
  rewrite length_app, Nat2Z.inj_add, Z.pow_add_r by lia. simpl.
  pose proof (byte_val_range x). nia.
Qed.

Lemma be_bytes_be_val n bs : length bs = n → be_bytes n (be_val bs) = bs.
Proof.
  revert bs; induction n as [|n IH]; intros bs Hl.
  - by destruct bs.
  - destruct bs as [|x bs _] using rev_ind; [done|].
    rewrite length_app in Hl. simpl in *.
    rewrite be_val_app, be_val_singleton. unfold len; simpl. change (256 ^ 1) with 256.
    pose proof (byte_val_range x).
    rewrite Z.div_add_l, (Z.div_small (byte_val x)), Z.add_0_r by lia.
    rewrite IH by lia. f_equal. f_equal. apply byte_val_inj.
    rewrite val_of_byte, Z.add_comm, Z.mod_add, Z.mod_small by lia. done.
Qed.

Lemma be_val_inj a b : length a = length b → be_val a = be_val b → a = b.
Proof.
  intros Hl Hv. rewrite <-(be_bytes_be_val (length a) a), <-(be_bytes_be_val (length a) b) by done.
  by f_equal.
Qed.

Lemma be_val_u16 z : is_u16 z → be_val (be_bytes 2 z) = z.
Proof. unfold is_u16, u16_max. intros. rewrite be_val_be_bytes. apply Z.mod_small. simpl. lia. Qed.
Lemma be_val_u32 z : is_u32 z → be_val (be_bytes 4 z) = z.
Proof. unfold is_u32, u32_max. intros. rewrite be_val_be_bytes. apply Z.mod_small. simpl. lia. Qed.
Lemma be_val_u64 z : is_u64 z → be_val (be_bytes 8 z) = z.
Proof. unfold is_u64, u64_max. intros. rewrite be_val_be_bytes. apply Z.mod_small. simpl. lia. Qed.

Lemma be_val_is_u16 bs : length bs = 2%nat → is_u16 (be_val bs).
Proof. intros Hl. pose proof (be_val_range bs). unfold len in *. rewrite Hl in *. unfold is_u16, u16_max. simpl in *. lia. Qed.
Lemma be_val_is_u32 bs : length bs = 4%nat → is_u32 (be_val bs).
Proof. intros Hl. pose proof (be_val_range bs). unfold len in *. rewrite Hl in *. unfold is_u32, u32_max. simpl in *. lia. Qed.
Lemma be_val_is_u64 bs : length bs = 8%nat → is_u64 (be_val bs).
Proof. intros Hl. pose proof (be_val_range bs). unfold len in *. rewrite Hl in *. unfold is_u64, u64_max. simpl in *. lia. Qed.

Lemma length_zeros n : length (zeros n) = n.
Proof. apply length_replicate. Qed.

#[export] Hint Resolve be_val_is_u16 be_val_is_u32 be_val_is_u64 byte_val_range : relay.
#[export] Hint Rewrite length_be_bytes length_zeros @length_app @length_nil @length_cons
  @length_take @length_drop : lens.

(** Solve an (in)equation between lengths.  A file with named widths redefines
    [unfold_widths] to unfold them. *)
Ltac unfold_widths := idtac.
Ltac len_solve :=
  unfold_widths; unfold len in *; autorewrite with lens in *; simpl in *; lia.

(** ** Slices *)
Lemma slice_Ok {E} bs i j s :
  slice (E := E) bs i j = Ok s ↔ (i ≤ j ≤ length bs)%nat ∧ s = take (j - i) (drop i bs).
Proof. unfold slice. case_bool_decide; naive_solver. Qed.

Lemma slice_returns {E} bs i j : (i ≤ j ≤ length bs)%nat → returns (slice (E := E) bs i j).
Proof. intros. unfold slice. rewrite bool_decide_true by done. apply Ok_returns. Qed.

Lemma slice_length {E} bs i j s : slice (E := E) bs i j = Ok s → length s = (j - i)%nat.
Proof. rewrite slice_Ok. intros [? ->]. len_solve. Qed.

Lemma slice_app_r {E} (a r : list byte) i j :
  (length a ≤ i ≤ j)%nat →
  slice (E := E) (a ++ r) i j = slice r (i - length a) (j - length a).
Proof.
  intros Hij. unfold slice. rewrite length_app, drop_app_ge by lia.
  replace (j - length a - (i - length a))%nat with (j - i)%nat by lia.
  repeat case_bool_decide; try done; lia.
Qed.

Lemma slice_app_l {E} (a r : list byte) i j :
  i = 0%nat → j = length a → slice (E := E) (a ++ r) i j = Ok a.
Proof. intros -> ->. apply slice_Ok. rewrite length_app, Nat.sub_0_r, drop_0, take_app_length. split; [lia|done]. Qed.

Lemma slice_all {E} (a : list byte) i j :
  i = 0%nat → j = length a → slice (E := E) a i j = Ok a.
Proof. intros -> ->. apply slice_Ok. rewrite Nat.sub_0_r, drop_0, take_ge by lia. split; [lia|done]. Qed.

Lemma slice_join {E F} bs i j k a b :
  slice (E := E) bs i j = Ok a → slice (E := F) bs j k = Ok b →
  slice (E := E) bs i k = Ok (a ++ b).
Proof.
  rewrite !slice_Ok. intros [? ->] [? ->]. split; [lia|].
  replace (k - i)%nat with ((j - i) + (k - j))%nat by lia.
  rewrite <-take_take_drop, drop_drop. f_equal. f_equal. f_equal. lia.
Qed.

Lemma slice_full {E} bs j s : slice (E := E) bs 0 j = Ok s → j = length bs → s = bs.
Proof. rewrite slice_Ok. intros [? ->] ->. rewrite Nat.sub_0_r, drop_0. by apply take_ge. Qed.

Lemma slice_retype {E F} bs i j a : slice (E := E) bs i j = Ok a → slice (E := F) bs i j = Ok a.
Proof. rewrite !slice_Ok. done. Qed.

(** A slice of a slice. *)
Lemma slice_slice {E} bs i j r a b x :
  slice (E := E) bs i j = Ok r → slice (E := E) r a b = Ok x →
  slice (E := E) bs (i + a) (i + b) = Ok x.
Proof.
  rewrite !slice_Ok. intros [? ->] [Hab ->]. rewrite length_take, length_drop in Hab.
  split; [lia|]. rewrite skipn_firstn_comm, drop_drop, take_take.
  f_equal. lia.
Qed.

(** ** Indexing *)
Lemma index_returns {E} bs i : (i < length bs)%nat → returns (index (E := E) bs i).
Proof. intros Hi. unfold index. destruct (lookup_lt_is_Some_2 bs i Hi) as [b ->]. apply Ok_returns. Qed.

Lemma index_app_r {E} (a r : list byte) i :
  (length a ≤ i)%nat → index (E := E) (a ++ r) i = index r (i - length a).
Proof. intros. unfold index. by rewrite lookup_app_r by lia. Qed.

Lemma index_app_l {E} (a r : list byte) i :
  (i < length a)%nat → index (E := E) (a ++ r) i = index a i.
Proof. intros. unfold index. by rewrite lookup_app_l by lia. Qed.

Lemma index_slice {E} bs i b : index (E := E) bs i = Ok b ↔ slice (E := E) bs i (i + 1) = Ok [b].
Proof.
  rewrite slice_Ok. unfold index.
  replace (i + 1 - i)%nat with 1%nat by lia.
  destruct (bs !! i) as [c|] eqn:Hl.
  - rewrite (drop_S bs c i Hl). simpl. rewrite take_0. apply lookup_lt_Some in Hl.
    split; [intros [= ->]|intros [? [= ->]]]; (split || idtac); (lia || done).
  - apply lookup_ge_None in Hl. split; [done|]. intros [? ?]. lia.
Qed.

(** ** Fixed-width readers *)
Lemma get_array_Ok {E} n bs i j a :
  get_array (E := E) n bs i j = Ok a ↔ slice (E := E) bs i j = Ok a ∧ length a = n.
Proof.
  unfold get_array, to_array. rewrite bind_Ok. split.
  - intros (s & Hs & Ha). case_bool_decide; naive_solver.
  - intros [Hs Hl]. exists a. split; [done|]. by rewrite bool_decide_true.
Qed.

Lemma get_array_returns {E} n bs i j :
  (i ≤ j ≤ length bs)%nat → (j - i)%nat = n → returns (get_array (E := E) n bs i j).
Proof.
  intros Hij Hn. apply bind_returns; [by apply slice_returns|].
  intros a Ha%slice_length. unfold to_array. rewrite bool_decide_true by congruence.
  apply Ok_returns.
Qed.

Lemma get_array_slice {E} n bs i j a :
  slice (E := E) bs i j = Ok a → length a = n → get_array (E := E) n bs i j = Ok a.
Proof. intros. by apply get_array_Ok. Qed.

Lemma fmap_Ok {E A B} (f : A → B) (m : outcome E A) b :
  f <$> m = Ok b ↔ ∃ a, m = Ok a ∧ b = f a.
Proof. destruct m; simpl; naive_solver. Qed.

Lemma fmap_returns {E A B} (f : A → B) (m : outcome E A) : returns m → returns (f <$> m).
Proof. unfold returns. destruct m; simpl; naive_solver. Qed.

Lemma get_u32_Ok {E} bs i j v :
  get_u32 (E := E) bs i j = Ok v ↔ is_u32 v ∧ slice (E := E) bs i j = Ok (be_bytes 4 v).
Proof.
  unfold get_u32. rewrite fmap_Ok. setoid_rewrite get_array_Ok. split.
  - intros (a & [Hs Hl] & ->). split; [auto with relay|]. by rewrite be_bytes_be_val.
  - intros [Hv Hs]. eexists. split; [split; [done|apply length_be_bytes]|]. by rewrite be_val_u32.
Qed.

Lemma get_u64_Ok {E} bs i j v :
  get_u64 (E := E) bs i j = Ok v ↔ is_u64 v ∧ slice (E := E) bs i j = Ok (be_bytes 8 v).
Proof.
  unfold get_u64. rewrite fmap_Ok. setoid_rewrite get_array_Ok. split.
  - intros (a & [Hs Hl] & ->). split; [auto with relay|]. by rewrite be_bytes_be_val.
  - intros [Hv Hs]. eexists. split; [split; [done|apply length_be_bytes]|]. by rewrite be_val_u64.
Qed.

Lemma index_slices2 {E} bs i b0 b1 :
  index (E := E) bs i = Ok b0 ∧ index (E := E) bs (i + 1) = Ok b1 ↔
  slice (E := E) bs i (i + 2) = Ok [b0; b1].
Proof.
  rewrite !index_slice. split.
  - intros [H0 H1]. replace (i + 2)%nat with (i + 1 + 1)%nat by lia.
    apply (slice_join _ _ _ _ _ _ H0 H1).
  - rewrite !slice_Ok. intros [Hl Hs].
    replace (i + 2 - i)%nat with 2%nat in Hs by lia.
    destruct (drop i bs) as [|c0 [|c1 r]] eqn:Hd; simpl in Hs; simplify_eq.
    replace (i + 1 + 1 - (i + 1))%nat with 1%nat by lia.
    replace (i + 1 - i)%nat with 1%nat by lia.
    replace (drop (i + 1) bs) with (drop 1 (drop i bs)) by (by rewrite drop_drop).
    rewrite Hd. simpl. rewrite !take_0. split; (split; [lia|done]).
Qed.

Lemma index_u16_Ok {E} bs i v :
  index_u16 (E := E) bs i = Ok v ↔ is_u16 v ∧ slice (E := E) bs i (i + 2) = Ok (be_bytes 2 v).
Proof.
  unfold index_u16. rewrite bind_Ok. setoid_rewrite bind_Ok. split.
  - intros (b0 & H0 & b1 & H1 & [= <-]). split; [by apply be_val_is_u16|].
    rewrite be_bytes_be_val by done. apply index_slices2. done.
  - intros [Hv Hs]. pose proof (length_be_bytes 2 v) as Hl.
    destruct (be_bytes 2 v) as [|b0 [|b1 [|? ?]]] eqn:Hb; try done.
    apply index_slices2 in Hs as [H0 H1].
    exists b0. split; [done|]. exists b1. split; [done|].
    rewrite <-Hb, be_val_u16 by done. done.
Qed.

Lemma index_u32_Ok {E} bs i v :
  index_u32 (E := E) bs i = Ok v ↔ is_u32 v ∧ slice (E := E) bs i (i + 4) = Ok (be_bytes 4 v).
Proof.
  unfold index_u32. rewrite bind_Ok. repeat setoid_rewrite bind_Ok.
  assert (Hsplit : ∀ b0 b1 b2 b3 : byte,
    slice (E := E) bs i (i + 4) = Ok [b0; b1; b2; b3] ↔
    slice (E := E) bs i (i + 2) = Ok [b0; b1] ∧ slice (E := E) bs (i + 2) (i + 2 + 2) = Ok [b2; b3]).
  { intros. split.
    - rewrite !slice_Ok. intros [Hl Hs].
      replace (i + 4 - i)%nat with 4%nat in Hs by lia.
      destruct (drop i bs) as [|c0 [|c1 [|c2 [|c3 r]]]] eqn:Hd; simpl in Hs; simplify_eq.
      replace (i + 2 - i)%nat with 2%nat by lia.
      replace (i + 2 + 2 - (i + 2))%nat with 2%nat by lia.
      replace (drop (i + 2) bs) with (drop 2 (drop i bs)) by (by rewrite drop_drop).
      rewrite Hd. simpl. rewrite !take_0. split; (split; [lia|done]).
    - intros [H0 H1]. replace (i + 4)%nat with (i + 2 + 2)%nat by lia.
      apply (slice_join _ _ _ _ _ _ H0 H1). }
  split.
  - intros (b0 & H0 & b1 & H1 & b2 & H2 & b3 & H3 & [= <-]).
    split; [by apply be_val_is_u32|]. rewrite be_bytes_be_val by done.
    apply Hsplit. split; apply index_slices2; [done|].
    replace (i + 2 + 1)%nat with (i + 3)%nat by lia. done.
  - intros [Hv Hs]. pose proof (length_be_bytes 4 v) as Hl.
    destruct (be_bytes 4 v) as [|b0 [|b1 [|b2 [|b3 [|? ?]]]]] eqn:Hb; try done.
    apply Hsplit in Hs as [[H0 H1]%index_slices2 [H2 H3]%index_slices2].
    replace (i + 2 + 1)%nat with (i + 3)%nat in H3 by lia.
    exists b0; split; [done|]. exists b1; split; [done|].
    exists b2; split; [done|]. exists b3; split; [done|].
    rewrite <-Hb, be_val_u32 by done. done.
Qed.

Lemma get_u32_returns {E} bs i j :
  (i ≤ j ≤ length bs)%nat → (j - i)%nat = 4%nat → returns (get_u32 (E := E) bs i j).
Proof. intros. apply fmap_returns. by apply get_array_returns. Qed.

Lemma get_u64_returns {E} bs i j :
  (i ≤ j ≤ length bs)%nat → (j - i)%nat = 8%nat → returns (get_u64 (E := E) bs i j).
Proof. intros. apply fmap_returns. by apply get_array_returns. Qed.

Lemma index_u16_returns {E} bs i : (i + 1 < length bs)%nat → returns (index_u16 (E := E) bs i).
Proof.
  intros. apply bind_returns; [apply index_returns; lia|]. intros b0 _.
  apply bind_returns; [apply index_returns; lia|]. intros b1 _. apply Ok_returns.
Qed.

Lemma index_u32_returns {E} bs i : (i + 3 < length bs)%nat → returns (index_u32 (E := E) bs i).
Proof.
  intros. unfold index_u32.
  repeat (apply bind_returns; [apply index_returns; lia|]; intros ? _). apply Ok_returns.
Qed.

(** ** UTF-8 *)
Lemma utf8_chars_ascii s :
  Forall (λ b, byte_val b < 128) s → utf8_chars s = Some (map byte_val s).
Proof.
  induction 1 as [|b s Hb _ IH]; simpl; [done|].
  rewrite (proj2 (Z.ltb_lt _ _) Hb), IH. done.
Qed.

Lemma from_utf8_ascii s : Forall (λ b, byte_val b < 128) s → from_utf8 s = Some s.
Proof. intros Hs. unfold from_utf8. by rewrite utf8_chars_ascii. Qed.

Lemma from_utf8_Some s s' : from_utf8 s = Some s' → s' = s ∧ is_str s.
Proof. unfold from_utf8, is_str. destruct (utf8_chars s); naive_solver. Qed.

Lemma is_ascii_alphanumeric_ascii b : is_ascii_alphanumeric b = true → byte_val b < 128.
Proof.
  unfold is_ascii_alphanumeric, is_ascii_digit, is_ascii_lowercase, is_ascii_uppercase. lia.
Qed.
