(* ===== verification/Codec.v ===== *)
(** * Wire codecs: the interface between the frame formats and their users

    A frame format under src/src is a pair of an [encode] and a [decode] function
    and the set of values the format can carry.  [WireCodec] names the three,
    [LawfulCodec] is what a format promises to the code that sends and receives
    it: a value of the format is encoded and decoded back, an accepted byte
    string is the one canonical encoding of a valid value, and decoding an
    arbitrary byte string never panics. *)
From S2P Require Export Bytes.

Class WireCodec (E A : Type) : Type := {
  wire_valid : A → Prop;
  wire_encode : A → outcome E (list byte);
  wire_decode : list byte → outcome E A;
}.

Class LawfulCodec (E A : Type) `{WireCodec E A} : Prop := {
  law_roundtrip : ∀ a, wire_valid a → ∃ bs, wire_encode a = Ok bs ∧ wire_decode bs = Ok a;
  law_canonical : ∀ bs a, wire_decode bs = Ok a → wire_valid a ∧ wire_encode a = Ok bs;
  law_returns : ∀ bs, returns (wire_decode bs);
}.

(** The same laws for three functions given by name. *)
Definition lawful_codec {E A} (valid : A → Prop) (encode : A → outcome E (list byte))
    (decode : list byte → outcome E A) : Prop :=
  (∀ a, valid a → ∃ bs, encode a = Ok bs ∧ decode bs = Ok a)
  ∧ (∀ bs a, decode bs = Ok a → valid a ∧ encode a = Ok bs)
  ∧ (∀ bs, returns (decode bs)).

Section Laws.
Context {E A : Type} `{LawfulCodec E A}.

(** Two frames that decode to the same value are the same frame. *)
Lemma wire_decode_inj bs1 bs2 a :
  wire_decode bs1 = Ok a → wire_decode bs2 = Ok a → bs1 = bs2.
Proof.
  intros H1%law_canonical H2%law_canonical. destruct H1 as [_ H1], H2 as [_ H2]. congruence.
Qed.

(** Two valid values with the same encoding are the same value. *)
Lemma wire_encode_inj a1 a2 bs :
  wire_valid a1 → wire_valid a2 → wire_encode a1 = Ok bs → wire_encode a2 = Ok bs → a1 = a2.
Proof.
  intros (b1 & E1 & D1)%law_roundtrip (b2 & E2 & D2)%law_roundtrip. congruence.
Qed.

(** Decoding decides validity: it succeeds exactly on the encodings of valid values. *)
Lemma wire_decode_iff bs a :
  wire_decode bs = Ok a ↔ wire_valid a ∧ wire_encode a = Ok bs.
Proof.
  split; [apply law_canonical|]. intros [(b & E1 & D1)%law_roundtrip E2]. congruence.
Qed.

Lemma lawful_codec_of_class : lawful_codec (E := E) (A := A) wire_valid wire_encode wire_decode.
Proof. split; [apply law_roundtrip|split; [apply law_canonical|apply law_returns]]. Qed.
End Laws.

(** ** Automation for decoders *)
Create HintDb wire discriminated.

Lemma bind_step {E A B} (m : outcome E A) (f : A → outcome E B) a r :
  m = Ok a → f a = r → m ≫= f = r.
Proof. intros -> <-. done. Qed.

Lemma if_false_step {A} (c : bool) (x y r : A) : c = false → y = r → (if c then x else y) = r.
Proof. intros -> <-. done. Qed.

Lemma if_true_step {A} (c : bool) (x y r : A) : c = true → x = r → (if c then x else y) = r.
Proof. intros -> <-. done. Qed.

Lemma returns_if {E A} (c : bool) (x y : outcome E A) :
  (c = true → returns x) → (c = false → returns y) → returns (if c then x else y).
Proof. destruct c; auto. Qed.

(** Evaluate [slice (p1 ++ p2 ++ ...) i j] when the bounds fall on the parts. *)
Ltac slice_solve :=
  repeat (rewrite slice_app_r by len_solve);
  first [ apply slice_app_l; [len_solve|len_solve] | apply slice_all; [len_solve|len_solve] ].

(** Prove [returns] of a decoder: every read is in range because of the length tests before it. *)
Ltac no_panic_step :=
  match goal with
  | |- returns (Ok _) => apply Ok_returns
  | |- returns (Err _) => apply Err_returns
  | |- returns (if _ then _ else _) =>
      let H := fresh "Hif" in apply returns_if; intros H; bool_facts
  | |- returns (let '(_, _) := ?p in _) => destruct p; cbn beta iota zeta
  | |- returns (_ ≫= _) =>
      let a := fresh "a" in let H := fresh "Ha" in
      apply bind_returns; [| intros a H]
  | |- returns (slice _ _ _) => apply slice_returns; len_solve
  | |- returns (slice_from _ _) => apply slice_returns; len_solve
  | |- returns (index _ _) => apply index_returns; len_solve
  | |- returns (get_array _ _ _ _) => apply get_array_returns; len_solve
  | |- returns (get_u32 _ _ _) => apply get_u32_returns; len_solve
  | |- returns (get_u64 _ _ _) => apply get_u64_returns; len_solve
  | |- returns (index_u16 _ _) => apply index_u16_returns; len_solve
  | |- returns (index_u32 _ _) => apply index_u32_returns; len_solve
  | |- returns (ok_or _ _) => apply ok_or_returns
  | |- returns (map_err _ _) => apply map_err_returns
  | |- returns _ => solve [eauto with relay]
  end.
Ltac no_panic := repeat no_panic_step.

(** Decide the boolean tests of a decoder run on a concrete frame shape. *)
Ltac test_false :=
  first
  [ reflexivity
  | apply orb_false_iff; split; test_false
  | apply negb_false_iff, Z.eqb_eq; first [reflexivity | len_solve]
  | apply Z.ltb_ge; len_solve
  | apply Z.eqb_neq; len_solve
  | apply bool_decide_eq_false; first [tauto | congruence] ].

(** The width of a field: a hypothesis, or arithmetic. *)
Ltac width_solve := try first [ assumption | reflexivity | len_solve ].

(** One read or test of a decoder run on an encoded value. *)
Ltac read_step :=
  lazymatch goal with
  | |- (if _ then Err _ else _) = _ => apply if_false_step; [test_false|]
  | |- _ ≫= _ = _ => eapply bind_step; [read_solve|]; cbn beta iota zeta
  end
with read_solve :=
  lazymatch goal with
  | |- slice _ _ _ = _ => slice_solve
  | |- slice_from _ _ = _ => unfold slice_from; slice_solve
  | |- index _ _ = _ => apply index_slice; slice_solve
  | |- index_u16 _ _ = _ => apply index_u16_Ok; split; [|slice_solve]; width_solve
  | |- index_u32 _ _ = _ => apply index_u32_Ok; split; [|slice_solve]; width_solve
  | |- get_u64 _ _ _ = _ => apply get_u64_Ok; split; [|slice_solve]; width_solve
  | |- get_u32 _ _ _ = _ => apply get_u32_Ok; split; [|slice_solve]; width_solve
  | |- get_array _ _ _ _ = _ => apply get_array_Ok; split; [slice_solve|]; width_solve
  | |- _ => solve [eauto with wire]
  end.

(** Invert a successful decoder: one hypothesis per read and per test. *)
Ltac decode_inv H :=
  lazymatch type of H with
  | _ ≫= _ = Ok _ =>
      let a := fresh "v" in let Ha := fresh "Hr" in
      apply bind_Ok in H as (a & Ha & H); decode_inv H
  | (if ?c then _ else _) = Ok _ =>
      let Hc := fresh "Hc" in
      destruct c eqn:Hc; [first [discriminate H | decode_inv H] | first [discriminate H | decode_inv H]]
  | (let '(_, _) := ?p in _) = Ok _ =>
      let a := fresh "v" in let b := fresh "v" in
      destruct p as [a b]; cbn beta iota zeta in H; decode_inv H
  | _ => idtac
  end.

(** Read every field off as a slice, with its width. *)
Ltac reads_to_slices :=
  repeat match goal with
  | H : index _ _ = Ok _ |- _ => apply index_slice in H
  | H : index_u16 _ _ = Ok _ |- _ => apply index_u16_Ok in H as [? H]
  | H : index_u32 _ _ = Ok _ |- _ => apply index_u32_Ok in H as [? H]
  | H : get_u32 _ _ _ = Ok _ |- _ => apply get_u32_Ok in H as [? H]
  | H : get_u64 _ _ _ = Ok _ |- _ => apply get_u64_Ok in H as [? H]
  | H : get_array _ _ _ _ = Ok _ |- _ => apply get_array_Ok in H as [H ?]
  | H : slice_from _ _ = Ok _ |- _ => unfold slice_from in H
  end.

(** Glue the adjacent slices of [bs] into [bs] itself: the frame is the concatenation
    of its fields. *)
Ltac join_slices bs :=
  let H := fresh "Hjoin" in
  assert (H : slice (E := unit) bs (length bs) (length bs) = Ok [])
    by (apply slice_Ok; split; [lia | by rewrite Nat.sub_diag]);
  repeat match goal with
  | H2 : @slice unit bs ?j (length bs) = Ok ?b, H1 : slice bs ?i ?k = Ok ?a |- _ =>
      let Heq := fresh "Heq" in
      let Hnew := fresh "Hjoin" in
      assert (Heq : k = j) by len_solve;
      try rewrite Heq in H1;
      pose proof (slice_length _ _ _ _ H1);
      pose proof (slice_join _ _ _ _ _ _ (slice_retype (F := unit) _ _ _ _ H1) H2) as Hnew;
      clear H1 H2 Heq
  end;
  match goal with
  | H2 : @slice unit bs _ (length bs) = Ok _ |- _ =>
      apply slice_full in H2; [rewrite ?app_nil_r in H2 | reflexivity]
  end.

(** Re-encode a decoded value: the tests of the encoder hold, the fields are the slices. *)
Ltac encode_step :=
  lazymatch goal with
  | |- (if _ then Err _ else _) = _ => apply if_false_step; [test_false|]
  end.
