(* ===== verification/StreamReader.v ===== *)
(** * Reading frames from a stream

    A stream is the list of the bytes the peer will send before it closes.  The readers of
    the frame formats all read a fixed header, which fixes the length of the rest, and then
    decode the two parts; [two_part_frame_reader] is the promise they all keep. *)
From S2P Require Export Codec.

(** [AsyncReadExt::read_exact] at [n] bytes: at the end of the stream what is left is
    consumed and the read fails. *)
Definition read_exact {E} (n : nat) (e : E) : stateful (list byte) E (list byte) := λ stream,
  if bool_decide (n ≤ length stream)%nat then (drop n stream, Ok (take n stream))
  else ([], Err e).

(** A reader that reads frame after frame until the stream or the reader ends. *)
Fixpoint read_frames {E A} (fuel : nat) (read : stateful (list byte) E A) (stream : list byte)
  : list A :=
  match fuel with
  | O => []
  | S fuel' =>
      match read stream with
      | (rest, Ok a) => a :: read_frames fuel' read rest
      | _ => []
      end
  end.

(** What a reader promises for a frame format: a frame in front of a stream is read and
    nothing after it is touched; what is read is a frame of the format; no read panics or
    consumes more than [bound] bytes. *)
Definition frame_reader {E F A} (valid : A → Prop) (encode : A → outcome F (list byte))
    (read : stateful (list byte) E A) (bound : nat) : Prop :=
  (∀ a, valid a → ∃ bs, encode a = Ok bs ∧ ∀ rest, read (bs ++ rest) = (rest, Ok a))
  ∧ (∀ stream rest a, read stream = (rest, Ok a) →
       valid a ∧ ∃ bs, encode a = Ok bs ∧ stream = bs ++ rest)
  ∧ (∀ stream, returns (read stream).2)
  ∧ (∀ stream, (length stream ≤ length (read stream).1 + bound)%nat).

(** * Facts *)

(** ** The shape the readers share

    A fixed header, which fixes the length of the rest. *)
Definition two_part_read {E A} (h : nat) (e1 e2 : E) (size : list byte → outcome E nat)
    (decode : list byte → outcome E A) : stateful (list byte) E A :=
  (let! header := read_exact h e1 in
   let! n := st_lift (size header) in
   let! tail := read_exact n e2 in
   st_lift (decode (header ++ tail)))%relay.

Section TwoPart.
Context {E F A : Type} {WC : WireCodec F A} {LC : LawfulCodec F A}.
Context (h bound : nat) (e1 e2 : E) (size : list byte → outcome E nat) (g : F → E).
Context (size_encoded : ∀ a bs, wire_valid a → wire_encode a = Ok bs →
  (h ≤ length bs)%nat ∧ size (take h bs) = Ok (length bs - h)%nat).
Context (size_bound : ∀ header n, length header = h → size header = Ok n → (h + n ≤ bound)%nat).
Context (size_returns : ∀ header, length header = h → returns (size header)).
Context (header_bound : (h ≤ bound)%nat).

Local Abbreviation read := (two_part_read h e1 e2 size (λ bs, map_err g (wire_decode bs))).

Lemma read_exact_cases {E'} n (e : E') stream :
  (n ≤ length stream)%nat ∧ read_exact n e stream = (drop n stream, Ok (take n stream))
  ∨ (length stream < n)%nat ∧ read_exact n e stream = ([], Err e).
Proof. unfold read_exact. case_bool_decide; [left|right]; (split; [lia|done]). Qed.

Lemma two_part_frame_reader : frame_reader wire_valid wire_encode read bound.
Proof.
  assert (Hcases : ∀ stream, (∃ e, read stream = ([], Err e) ∧ (length stream ≤ bound)%nat)
    ∨ (∃ e, read stream = (drop h stream, Err e))
    ∨ ∃ n, size (take h stream) = Ok n ∧ (h + n ≤ length stream)%nat ∧ (h + n ≤ bound)%nat
        ∧ read stream = (drop (h + n) stream, map_err g (wire_decode (take (h + n) stream)))).
  { intros stream. unfold two_part_read, st_bind, st_lift.
    destruct (read_exact_cases h e1 stream) as [[Hl ->]|[Hl ->]];
      [|left; eexists; split; [done|lia]].
    assert (Hh : length (take h stream) = h) by (rewrite length_take; lia).
    pose proof (size_returns _ Hh). destruct (size (take h stream)) as [n|e|] eqn:Hs; [| |done].
    - pose proof (size_bound _ _ Hh Hs).
      destruct (read_exact_cases n e2 (drop h stream)) as [[Hn ->]|[Hn ->]];
        rewrite length_drop in Hn; [|left; eexists; split; [done|lia]].
      right; right. exists n. split; [done|]. split; [lia|]. split; [lia|].
      by rewrite drop_drop, take_take_drop.
    - right; left. by eexists. }
  split; [|split; [|split]].
  - intros a (bs & He & Hd)%law_roundtrip. exists bs. split; [done|]. intros rest.
    apply law_canonical in Hd as [Hv _].
    destruct (size_encoded _ _ Hv He) as [Hl Hs].
    apply law_roundtrip in Hv as (bs' & He' & Hd). assert (bs' = bs) as -> by congruence.
    destruct (read_exact_cases h e1 (bs ++ rest)) as [[_ Hr]|[Hlt _]];
      [|rewrite length_app in Hlt; lia].
    unfold two_part_read, st_bind, st_lift. rewrite Hr, take_app_le, drop_app_le, Hs by done.
    destruct (read_exact_cases (length bs - h) e2 (drop h bs ++ rest)) as [[_ ->]|[Hlt _]];
      [|rewrite length_app, length_drop in Hlt; lia].
    rewrite take_app_length', drop_app_length' by (rewrite length_drop; lia).
    rewrite take_drop. f_equal. apply map_err_Ok. exact Hd.
  - intros stream rest a Hr.
    destruct (Hcases stream) as [(e & Hx & _)|[(e & Hx)|(n & _ & Hl & _ & Hx)]];
      rewrite Hx in Hr; simplify_eq.
    apply map_err_Ok, law_canonical in H0 as [Hv He]. split; [done|].
    eexists. split; [exact He|]. by rewrite take_drop.
  - intros stream. destruct (Hcases stream) as [(e & -> & _)|[(e & ->)|(n & _ & _ & _ & ->)]];
      [done..|]. apply map_err_returns, law_returns.
  - intros stream. destruct (Hcases stream) as [(e & -> & ?)|[(e & ->)|(n & _ & _ & ? & ->)]];
      simpl; rewrite ?length_drop; lia.
Qed.
End TwoPart.

Lemma frame_reader_ext {E F A} (valid : A → Prop) (encode : A → outcome F (list byte))
    (read1 read2 : stateful (list byte) E A) bound :
  (∀ stream, read1 stream = read2 stream) →
  frame_reader valid encode read1 bound → frame_reader valid encode read2 bound.
Proof.
  intros Heq (H1 & H2 & H3 & H4). split; [|split; [|split]]; intros; rewrite <-?Heq in *; eauto.
  destruct (H1 a) as (bs & He & Hr); [done|]. exists bs. split; [done|]. intros. by rewrite <-Heq.
Qed.

Lemma frame_reader_sequence {E F A} (valid : A → Prop) (encode : A → outcome F (list byte))
    (read : stateful (list byte) E A) bound fs :
  frame_reader valid encode read bound → Forall valid fs →
  ∃ bss, Forall2 (λ f bs, encode f = Ok bs) fs bss
    ∧ ∀ rest, read_frames (length fs) read (concat bss ++ rest) = fs.
Proof.
  intros (H1 & _). induction 1 as [|f fs Hv _ (bss & Hbss & IH)]; [by exists []|].
  destruct (H1 f Hv) as (bs & He & Hr). exists (bs :: bss). split; [by constructor|].
  intros rest. simpl. by rewrite <-app_assoc, Hr, IH.
Qed.

Lemma map_err_id {E A} (m : outcome E A) : map_err id m = m.
Proof. by destruct m. Qed.


Lemma frame_reader_encode {E F A} (valid : A → Prop) (encode1 encode2 : A → outcome F (list byte))
    (read : stateful (list byte) E A) bound :
  (∀ a, encode1 a = encode2 a) → frame_reader valid encode1 read bound → frame_reader valid encode2 read bound.
Proof.
  intros Heq (H1 & H2 & H3 & H4). split; [|split; [|split]]; try done.
  - intros a Hv. rewrite <-Heq. by apply H1.
  - intros stream rest a Hr. rewrite <-Heq. by apply H2.
Qed.

Lemma lawful_codec_encode {E A} (valid : A → Prop) (encode1 encode2 : A → outcome E (list byte)) decode :
  (∀ a, encode1 a = encode2 a) → lawful_codec valid encode1 decode → lawful_codec valid encode2 decode.
Proof.
  intros Heq (H1 & H2 & H3). split; [|split]; try done.
  - intros a Hv. rewrite <-Heq. by apply H1.
  - intros bs a Hd. rewrite <-Heq. by apply H2.
Qed.
