(* ===== verification/QuicWire.v ===== *)
(** * The HDQM/HDQS frame codecs (src/src/quic_wire.rs)

    Control frames (HDQM), the session payloads they carry, the binding preface
    of a session stream and its fixed response (HDQS).  A Rust function
    [T::f] is the definition [T_f]; fixed arrays are byte lists whose length is
    part of the [T_valid] predicate; the [Debug] and [Display] impls are not
    modelled. *)
From S2P Require Export Codec.

(** ** Constants *)
Definition HDQM_MAGIC : list byte := [x48; x44; x51; x4d].
Definition HDQS_MAGIC : list byte := [x48; x44; x51; x53].
Definition QRM_PROTOCOL_VERSION : Z := 1.
Definition HDQM_HEADER_BYTES : Z := 27.
Definition QRM_MAX_CONTROL_FRAME_BYTES : Z := 65536.
Definition QRM_MAX_CONTROL_PAYLOAD_BYTES : Z := QRM_MAX_CONTROL_FRAME_BYTES - HDQM_HEADER_BYTES.
Definition QRM_MAX_SESSION_NAME_BYTES : Z := 64.
Definition QRM_AUTHORITY_BYTES : nat := 32.
Definition HDQS_RESPONSE_BYTES : nat := 20.
Definition QRM_DEVICE_HELLO_ACK_BYTES : Z := 56.

Inductive QuicProtocolError : Type :=
| FrameTooShort
| InvalidMagic
| UnsupportedVersion
| UnknownKind
| PayloadTooLarge
| LengthMismatch
| InvalidField
| InvalidSession
| InvalidStatus.

#[export] Instance QuicProtocolError_eq_dec : EqDecision QuicProtocolError.
Proof. solve_decision. Defined.

Abbreviation qresult := (outcome QuicProtocolError).

(** ** Control kinds *)
Inductive HdqmKind : Type :=
| DeviceHello
| DeviceHelloAckKind
| SessionPrepare
| SessionPrepareAckKind
| SessionOpen
| SessionOpened
| SessionClose
| SessionClosed
| Heartbeat
| GoAway
| ErrorResponse
| RelayUpdate
| RelayUpdateAccepted
| RelayUpdateRejected
| RelayUpdateStatus.

#[export] Instance HdqmKind_eq_dec : EqDecision HdqmKind.
Proof. solve_decision. Defined.

(** [kind as u8]. *)
Definition HdqmKind_as_u8 (kind : HdqmKind) : Z :=
  match kind with
  | DeviceHello => 1
  | DeviceHelloAckKind => 2
  | SessionPrepare => 3
  | SessionPrepareAckKind => 4
  | SessionOpen => 5
  | SessionOpened => 6
  | SessionClose => 7
  | SessionClosed => 8
  | Heartbeat => 9
  | GoAway => 10
  | ErrorResponse => 11
  | RelayUpdate => 12
  | RelayUpdateAccepted => 13
  | RelayUpdateRejected => 14
  | RelayUpdateStatus => 15
  end.

Definition HdqmKind_try_from (value : Z) : qresult HdqmKind :=
  match value with
  | 1 => Ok DeviceHello
  | 2 => Ok DeviceHelloAckKind
  | 3 => Ok SessionPrepare
  | 4 => Ok SessionPrepareAckKind
  | 5 => Ok SessionOpen
  | 6 => Ok SessionOpened
  | 7 => Ok SessionClose
  | 8 => Ok SessionClosed
  | 9 => Ok Heartbeat
  | 10 => Ok GoAway
  | 11 => Ok ErrorResponse
  | 12 => Ok RelayUpdate
  | 13 => Ok RelayUpdateAccepted
  | 14 => Ok RelayUpdateRejected
  | 15 => Ok RelayUpdateStatus
  | _ => Err UnknownKind
  end.

(** ** Control frames *)
Record HdqmFrame : Type := {
  hf_kind : HdqmKind;
  hf_request_id : list byte;
  hf_payload : list byte;
}.

#[export] Instance HdqmFrame_eq_dec : EqDecision HdqmFrame.
Proof. solve_decision. Defined.

Definition HdqmFrame_encode (f : HdqmFrame) : qresult (list byte) :=
  if QRM_MAX_CONTROL_PAYLOAD_BYTES <? len (hf_payload f) then Err PayloadTooLarge else
  Ok (HDQM_MAGIC ++ be_bytes 2 QRM_PROTOCOL_VERSION
      ++ [byte_of_Z (HdqmKind_as_u8 (hf_kind f))]
      ++ hf_request_id f
      ++ be_bytes 4 (len (hf_payload f))
      ++ hf_payload f).

Definition HdqmFrame_decode (bytes : list byte) : qresult HdqmFrame :=
  if len bytes <? HDQM_HEADER_BYTES then Err FrameTooShort else
  magic ← slice bytes 0 4;
  if bool_decide (magic ≠ HDQM_MAGIC) then Err InvalidMagic else
  version ← index_u16 bytes 4;
  if negb (version =? QRM_PROTOCOL_VERSION) then Err UnsupportedVersion else
  tag ← index bytes 6;
  kind ← HdqmKind_try_from (byte_val tag);
  request_id ← get_array 16 bytes 7 23;
  payload_len ← index_u32 bytes 23;
  if QRM_MAX_CONTROL_PAYLOAD_BYTES <? payload_len then Err PayloadTooLarge else
  if negb (len bytes =? HDQM_HEADER_BYTES + payload_len) then Err LengthMismatch else
  payload ← slice_from bytes 27;
  Ok {| hf_kind := kind; hf_request_id := request_id; hf_payload := payload |}.

Definition HdqmFrame_valid (f : HdqmFrame) : Prop :=
  length (hf_request_id f) = 16%nat ∧ len (hf_payload f) ≤ QRM_MAX_CONTROL_PAYLOAD_BYTES.

(** ** Session names

    The newtype [SessionName(String)] is the byte string it wraps; its private
    field is only built by [SessionName_new]. *)
Abbreviation SessionName := (list byte) (only parsing).

(** The byte class of a session name. *)
Definition session_byte_ok (b : byte) : bool :=
  is_ascii_alphanumeric b || bool_decide (b = x2e) || bool_decide (b = x5f)
  || bool_decide (b = x2d).

Definition SessionName_new (value : list byte) : qresult SessionName :=
  let value := if bool_decide (value = []) then str_lit "default" else value in
  if (QRM_MAX_SESSION_NAME_BYTES <? len value)
     || bool_decide (value = str_lit ".")
     || bool_decide (value = str_lit "..")
     || existsb (λ b, negb (session_byte_ok b)) value
  then Err InvalidSession else Ok value.

(** The names [SessionName_new] builds. *)
Definition SessionName_valid (s : SessionName) : Prop :=
  s ≠ [] ∧ SessionName_new s = Ok s.

Definition encode_session_name (session : SessionName) (append : list byte → list byte)
  : qresult (list byte) :=
  let name := session in
  if bool_decide (name = []) || (QRM_MAX_SESSION_NAME_BYTES <? len name)
  then Err InvalidSession else
  Ok (append ([byte_of_Z (len name)] ++ name)).

Definition decode_session_name (bytes : list byte) : qresult (SessionName * nat) :=
  first ← ok_or (bytes !! 0%nat) FrameTooShort;
  let name_len := byte_val first in
  if (name_len =? 0) || (QRM_MAX_SESSION_NAME_BYTES <? name_len) || (len bytes <? 1 + name_len)
  then Err InvalidSession else
  raw ← slice bytes 1 (1 + Z.to_nat name_len);
  text ← ok_or (from_utf8 raw) InvalidSession;
  session ← SessionName_new text;
  Ok (session, (1 + Z.to_nat name_len)%nat).

(** ** Device hello acknowledgement *)
Record DeviceHelloAck : Type := {
  dha_relay_identity : list byte;
  dha_ca_generation : Z;
  dha_relay_generation : Z;
  dha_connection_epoch : Z;
}.

Definition DeviceHelloAck_encode (a : DeviceHelloAck) : qresult (list byte) :=
  Ok (dha_relay_identity a ++ be_bytes 8 (dha_ca_generation a)
      ++ be_bytes 8 (dha_relay_generation a) ++ be_bytes 8 (dha_connection_epoch a)).

Definition DeviceHelloAck_decode (bytes : list byte) : qresult DeviceHelloAck :=
  if negb (len bytes =? QRM_DEVICE_HELLO_ACK_BYTES) then Err LengthMismatch else
  identity ← get_array QRM_AUTHORITY_BYTES bytes 0 32;
  ca_generation ← get_u64 bytes 32 40;
  relay_generation ← get_u64 bytes 40 48;
  connection_epoch ← get_u64 bytes 48 56;
  if (ca_generation =? 0) || (relay_generation =? 0) || (connection_epoch =? 0)
     || bool_decide (identity = zeros QRM_AUTHORITY_BYTES)
  then Err InvalidField else
  Ok {| dha_relay_identity := identity; dha_ca_generation := ca_generation;
        dha_relay_generation := relay_generation; dha_connection_epoch := connection_epoch |}.

Definition DeviceHelloAck_valid (a : DeviceHelloAck) : Prop :=
  length (dha_relay_identity a) = 32%nat ∧ dha_relay_identity a ≠ zeros 32
  ∧ is_u64 (dha_ca_generation a) ∧ dha_ca_generation a ≠ 0
  ∧ is_u64 (dha_relay_generation a) ∧ dha_relay_generation a ≠ 0
  ∧ is_u64 (dha_connection_epoch a) ∧ dha_connection_epoch a ≠ 0.

(** ** Session prepare *)
Record SessionPrepareRequest : Type := {
  spr_session : SessionName;
  spr_expected_fingerprint : list byte;
  spr_configuration_generation : Z;
}.

Definition SessionPrepareRequest_encode (r : SessionPrepareRequest) : qresult (list byte) :=
  encode_session_name (spr_session r) (λ output,
    output ++ spr_expected_fingerprint r ++ be_bytes 8 (spr_configuration_generation r)).

Definition SessionPrepareRequest_decode (bytes : list byte) : qresult SessionPrepareRequest :=
  '(session, offset) ← decode_session_name bytes;
  if negb (len bytes =? Z.of_nat (offset + QRM_AUTHORITY_BYTES + 8)) then Err LengthMismatch else
  fingerprint ← get_array QRM_AUTHORITY_BYTES bytes offset (offset + QRM_AUTHORITY_BYTES);
  generation ← get_u64 bytes (offset + QRM_AUTHORITY_BYTES) (length bytes);
  Ok {| spr_session := session; spr_expected_fingerprint := fingerprint;
        spr_configuration_generation := generation |}.

Definition SessionPrepareRequest_valid (r : SessionPrepareRequest) : Prop :=
  SessionName_valid (spr_session r) ∧ length (spr_expected_fingerprint r) = 32%nat
  ∧ is_u64 (spr_configuration_generation r).

Record SessionPrepareAck : Type := {
  spa_session : SessionName;
  spa_fingerprint : list byte;
  spa_configuration_generation : Z;
  spa_relay_generation : Z;
  spa_connection_epoch : Z;
  spa_token : list byte;
  spa_token_ttl_secs : Z;
}.

Definition SessionPrepareAck_encode (a : SessionPrepareAck) : qresult (list byte) :=
  encode_session_name (spa_session a) (λ output,
    output ++ spa_fingerprint a ++ be_bytes 8 (spa_configuration_generation a)
    ++ be_bytes 8 (spa_relay_generation a) ++ be_bytes 8 (spa_connection_epoch a)
    ++ spa_token a ++ be_bytes 4 (spa_token_ttl_secs a)).

Definition SessionPrepareAck_decode (bytes : list byte) : qresult SessionPrepareAck :=
  '(session, offset) ← decode_session_name bytes;
  let expected := (offset + QRM_AUTHORITY_BYTES + 8 + 8 + 8 + QRM_AUTHORITY_BYTES + 4)%nat in
  if negb (len bytes =? Z.of_nat expected) then Err LengthMismatch else
  fingerprint ← get_array QRM_AUTHORITY_BYTES bytes offset (offset + QRM_AUTHORITY_BYTES);
  let config_start := (offset + QRM_AUTHORITY_BYTES)%nat in
  let relay_start := (config_start + 8)%nat in
  let epoch_start := (relay_start + 8)%nat in
  let token_start := (epoch_start + 8)%nat in
  token ← get_array QRM_AUTHORITY_BYTES bytes token_start (token_start + QRM_AUTHORITY_BYTES);
  configuration_generation ← get_u64 bytes config_start relay_start;
  relay_generation ← get_u64 bytes relay_start epoch_start;
  connection_epoch ← get_u64 bytes epoch_start token_start;
  token_ttl_secs ← get_u32 bytes (token_start + QRM_AUTHORITY_BYTES) (length bytes);
  Ok {| spa_session := session; spa_fingerprint := fingerprint;
        spa_configuration_generation := configuration_generation;
        spa_relay_generation := relay_generation; spa_connection_epoch := connection_epoch;
        spa_token := token; spa_token_ttl_secs := token_ttl_secs |}.

Definition SessionPrepareAck_valid (a : SessionPrepareAck) : Prop :=
  SessionName_valid (spa_session a) ∧ length (spa_fingerprint a) = 32%nat
  ∧ is_u64 (spa_configuration_generation a) ∧ is_u64 (spa_relay_generation a)
  ∧ is_u64 (spa_connection_epoch a) ∧ length (spa_token a) = 32%nat
  ∧ is_u32 (spa_token_ttl_secs a).

(** ** Session open *)
Record SessionOpenRequest : Type := {
  sor_session : SessionName;
  sor_fingerprint : list byte;
  sor_configuration_generation : Z;
  sor_relay_generation : Z;
  sor_connection_epoch : Z;
  sor_token : list byte;
}.

Definition SessionOpenRequest_encode (r : SessionOpenRequest) : qresult (list byte) :=
  encode_session_name (sor_session r) (λ output,
    output ++ sor_fingerprint r ++ be_bytes 8 (sor_configuration_generation r)
    ++ be_bytes 8 (sor_relay_generation r) ++ be_bytes 8 (sor_connection_epoch r)
    ++ sor_token r).

Definition SessionOpenRequest_decode (bytes : list byte) : qresult SessionOpenRequest :=
  '(session, offset) ← decode_session_name bytes;
  let expected := (offset + QRM_AUTHORITY_BYTES + 8 + 8 + 8 + QRM_AUTHORITY_BYTES)%nat in
  if negb (len bytes =? Z.of_nat expected) then Err LengthMismatch else
  let config_offset := (offset + QRM_AUTHORITY_BYTES)%nat in
  let token_start := (config_offset + 24)%nat in
  fingerprint ← get_array QRM_AUTHORITY_BYTES bytes offset config_offset;
  token ← get_array QRM_AUTHORITY_BYTES bytes token_start (length bytes);
  configuration_generation ← get_u64 bytes config_offset (config_offset + 8);
  relay_generation ← get_u64 bytes (config_offset + 8) (config_offset + 16);
  connection_epoch ← get_u64 bytes (config_offset + 16) token_start;
  Ok {| sor_session := session; sor_fingerprint := fingerprint;
        sor_configuration_generation := configuration_generation;
        sor_relay_generation := relay_generation; sor_connection_epoch := connection_epoch;
        sor_token := token |}.

Definition SessionOpenRequest_valid (r : SessionOpenRequest) : Prop :=
  SessionName_valid (sor_session r) ∧ length (sor_fingerprint r) = 32%nat
  ∧ is_u64 (sor_configuration_generation r) ∧ is_u64 (sor_relay_generation r)
  ∧ is_u64 (sor_connection_epoch r) ∧ length (sor_token r) = 32%nat.

Record SessionOpenAck : Type := {
  soa_session_handle : Z;
  soa_session : SessionName;
  soa_fingerprint : list byte;
  soa_configuration_generation : Z;
  soa_relay_generation : Z;
  soa_connection_epoch : Z;
  soa_token : list byte;
}.

Definition SessionOpenAck_encode (a : SessionOpenAck) : qresult (list byte) :=
  if soa_session_handle a =? 0 then Err InvalidField else
  name ← encode_session_name (soa_session a) (λ output, output);
  Ok (be_bytes 2 (soa_session_handle a) ++ name ++ soa_fingerprint a
      ++ be_bytes 8 (soa_configuration_generation a) ++ be_bytes 8 (soa_relay_generation a)
      ++ be_bytes 8 (soa_connection_epoch a) ++ soa_token a).

Definition SessionOpenAck_decode (bytes : list byte) : qresult SessionOpenAck :=
  if len bytes <? 3 then Err FrameTooShort else
  session_handle ← index_u16 bytes 0;
  if session_handle =? 0 then Err InvalidField else
  rest ← slice_from bytes 2;
  '(session, name_offset) ← decode_session_name rest;
  let offset := (2 + name_offset)%nat in
  let expected := (offset + QRM_AUTHORITY_BYTES + 8 + 8 + 8 + QRM_AUTHORITY_BYTES)%nat in
  if negb (len bytes =? Z.of_nat expected) then Err LengthMismatch else
  fingerprint ← get_array QRM_AUTHORITY_BYTES bytes offset (offset + QRM_AUTHORITY_BYTES);
  let config_start := (offset + QRM_AUTHORITY_BYTES)%nat in
  let token_start := (config_start + 24)%nat in
  token ← get_array QRM_AUTHORITY_BYTES bytes token_start (length bytes);
  configuration_generation ← get_u64 bytes config_start (config_start + 8);
  relay_generation ← get_u64 bytes (config_start + 8) (config_start + 16);
  connection_epoch ← get_u64 bytes (config_start + 16) token_start;
  Ok {| soa_session := session; soa_session_handle := session_handle;
        soa_fingerprint := fingerprint;
        soa_configuration_generation := configuration_generation;
        soa_relay_generation := relay_generation; soa_connection_epoch := connection_epoch;
        soa_token := token |}.

Definition SessionOpenAck_valid (a : SessionOpenAck) : Prop :=
  is_u16 (soa_session_handle a) ∧ soa_session_handle a ≠ 0
  ∧ SessionName_valid (soa_session a) ∧ length (soa_fingerprint a) = 32%nat
  ∧ is_u64 (soa_configuration_generation a) ∧ is_u64 (soa_relay_generation a)
  ∧ is_u64 (soa_connection_epoch a) ∧ length (soa_token a) = 32%nat.

(** ** Session stream binding *)
Record HdqsBinding : Type := {
  hb_session_handle : Z;
  hb_configuration_generation : Z;
  hb_relay_generation : Z;
  hb_connection_epoch : Z;
  hb_session : SessionName;
  hb_fingerprint : list byte;
  hb_token : list byte;
}.

Definition HdqsBinding_encode (b : HdqsBinding) : qresult (list byte) :=
  if (hb_session_handle b =? 0) || bool_decide (hb_session b = []) then Err InvalidField else
  let name := hb_session b in
  if QRM_MAX_SESSION_NAME_BYTES <? len name then Err InvalidSession else
  Ok (HDQS_MAGIC ++ be_bytes 2 QRM_PROTOCOL_VERSION ++ be_bytes 2 (hb_session_handle b)
      ++ be_bytes 8 (hb_configuration_generation b) ++ be_bytes 8 (hb_relay_generation b)
      ++ be_bytes 8 (hb_connection_epoch b) ++ [byte_of_Z (len name)] ++ name
      ++ hb_fingerprint b ++ hb_token b).

Definition HdqsBinding_decode (bytes : list byte) : qresult HdqsBinding :=
  if len bytes <? 97 then Err FrameTooShort else
  magic ← slice bytes 0 4;
  if bool_decide (magic ≠ HDQS_MAGIC) then Err InvalidMagic else
  version ← index_u16 bytes 4;
  if negb (version =? QRM_PROTOCOL_VERSION) then Err UnsupportedVersion else
  handle ← index_u16 bytes 6;
  b32 ← index bytes 32;
  let name_len := byte_val b32 in
  if (handle =? 0) || (name_len =? 0) || (QRM_MAX_SESSION_NAME_BYTES <? name_len)
  then Err InvalidField else
  let expected := 33 + name_len + 64 in
  if negb (len bytes =? expected) then Err LengthMismatch else
  raw ← slice bytes 33 (33 + Z.to_nat name_len);
  text ← ok_or (from_utf8 raw) InvalidSession;
  session ← SessionName_new text;
  let fingerprint_start := (33 + Z.to_nat name_len)%nat in
  let token_start := (fingerprint_start + 32)%nat in
  fingerprint ← get_array 32 bytes fingerprint_start token_start;
  token ← get_array 32 bytes token_start (length bytes);
  configuration_generation ← get_u64 bytes 8 16;
  relay_generation ← get_u64 bytes 16 24;
  connection_epoch ← get_u64 bytes 24 32;
  Ok {| hb_session_handle := handle; hb_configuration_generation := configuration_generation;
        hb_relay_generation := relay_generation; hb_connection_epoch := connection_epoch;
        hb_session := session; hb_fingerprint := fingerprint; hb_token := token |}.

Definition HdqsBinding_valid (b : HdqsBinding) : Prop :=
  is_u16 (hb_session_handle b) ∧ hb_session_handle b ≠ 0
  ∧ is_u64 (hb_configuration_generation b) ∧ is_u64 (hb_relay_generation b)
  ∧ is_u64 (hb_connection_epoch b) ∧ SessionName_valid (hb_session b)
  ∧ length (hb_fingerprint b) = 32%nat ∧ length (hb_token b) = 32%nat.

(** ** Stream responses *)
Inductive HdqsKind : Type :=
| Accepted
| Rejected.

#[export] Instance HdqsKind_eq_dec : EqDecision HdqsKind.
Proof. solve_decision. Defined.

Definition HdqsKind_as_u8 (k : HdqsKind) : Z :=
  match k with Accepted => 2 | Rejected => 3 end.

Definition HdqsKind_try_from (value : Z) : qresult HdqsKind :=
  match value with
  | 2 => Ok Accepted
  | 3 => Ok Rejected
  | _ => Err InvalidStatus
  end.

Inductive HdqsReason : Type :=
| ReasonNone
| InvalidFrame
| SessionNotFound
| FingerprintMismatch
| TokenMismatch
| GenerationMismatch
| SocketUnavailable
| CapacityExhausted
| ConnectionClosing
| SessionAlreadyOpen.

#[export] Instance HdqsReason_eq_dec : EqDecision HdqsReason.
Proof. solve_decision. Defined.

Definition HdqsReason_as_u8 (r : HdqsReason) : Z :=
  match r with
  | ReasonNone => 0
  | InvalidFrame => 1
  | SessionNotFound => 2
  | FingerprintMismatch => 3
  | TokenMismatch => 4
  | GenerationMismatch => 5
  | SocketUnavailable => 6
  | CapacityExhausted => 7
  | ConnectionClosing => 8
  | SessionAlreadyOpen => 9
  end.

Definition HdqsReason_try_from (value : Z) : qresult HdqsReason :=
  match value with
  | 0 => Ok ReasonNone
  | 1 => Ok InvalidFrame
  | 2 => Ok SessionNotFound
  | 3 => Ok FingerprintMismatch
  | 4 => Ok TokenMismatch
  | 5 => Ok GenerationMismatch
  | 6 => Ok SocketUnavailable
  | 7 => Ok CapacityExhausted
  | 8 => Ok ConnectionClosing
  | 9 => Ok SessionAlreadyOpen
  | _ => Err InvalidStatus
  end.

Record HdqsResponse : Type := {
  hr_kind : HdqsKind;
  hr_status : HdqsKind;
  hr_session_handle : Z;
  hr_reason : HdqsReason;
  hr_connection_epoch : Z;
}.

Definition HdqsResponse_accepted (handle epoch : Z) : HdqsResponse :=
  {| hr_kind := Accepted; hr_status := Accepted; hr_session_handle := handle;
     hr_reason := ReasonNone; hr_connection_epoch := epoch |}.

Definition HdqsResponse_rejected (reason : HdqsReason) (epoch : Z) : HdqsResponse :=
  {| hr_kind := Rejected; hr_status := Rejected; hr_session_handle := 0;
     hr_reason := reason; hr_connection_epoch := epoch |}.

Definition HdqsResponse_encode (r : HdqsResponse) : qresult (list byte) :=
  if bool_decide (hr_kind r ≠ hr_status r)
     || (bool_decide (hr_kind r = Accepted)
         && ((hr_session_handle r =? 0) || bool_decide (hr_reason r ≠ ReasonNone)))
     || (bool_decide (hr_kind r = Rejected) && negb (hr_session_handle r =? 0))
  then Err InvalidStatus else
  Ok (HDQS_MAGIC ++ be_bytes 2 QRM_PROTOCOL_VERSION
      ++ [byte_of_Z (HdqsKind_as_u8 (hr_kind r))] ++ [byte_of_Z (HdqsKind_as_u8 (hr_status r))]
      ++ be_bytes 2 (hr_session_handle r) ++ [byte_of_Z (HdqsReason_as_u8 (hr_reason r))]
      ++ [x00] ++ be_bytes 8 (hr_connection_epoch r)).

Definition HdqsResponse_decode (bytes : list byte) : qresult HdqsResponse :=
  if negb (len bytes =? Z.of_nat HDQS_RESPONSE_BYTES) then Err LengthMismatch else
  magic ← slice bytes 0 4;
  if bool_decide (magic ≠ HDQS_MAGIC) then Err InvalidMagic else
  version ← index_u16 bytes 4;
  if negb (version =? QRM_PROTOCOL_VERSION) then Err UnsupportedVersion else
  reserved ← index bytes 11;
  if negb (byte_val reserved =? 0) then Err InvalidStatus else
  b6 ← index bytes 6;
  kind ← HdqsKind_try_from (byte_val b6);
  b7 ← index bytes 7;
  status ← HdqsKind_try_from (byte_val b7);
  session_handle ← index_u16 bytes 8;
  b10 ← index bytes 10;
  reason ← HdqsReason_try_from (byte_val b10);
  connection_epoch ← get_u64 bytes 12 20;
  let response := {| hr_kind := kind; hr_status := status; hr_session_handle := session_handle;
                     hr_reason := reason; hr_connection_epoch := connection_epoch |} in
  (λ _, response) <$> HdqsResponse_encode response.

Definition HdqsResponse_valid (r : HdqsResponse) : Prop :=
  is_u16 (hr_session_handle r) ∧ is_u64 (hr_connection_epoch r)
  ∧ (r = HdqsResponse_accepted (hr_session_handle r) (hr_connection_epoch r)
       ∧ hr_session_handle r ≠ 0
     ∨ r = HdqsResponse_rejected (hr_reason r) (hr_connection_epoch r)).

(** * Facts *)
Ltac unfold_widths ::=
  unfold QRM_MAX_CONTROL_PAYLOAD_BYTES, QRM_MAX_CONTROL_FRAME_BYTES, HDQM_HEADER_BYTES,
    QRM_MAX_SESSION_NAME_BYTES, QRM_AUTHORITY_BYTES, HDQS_RESPONSE_BYTES,
    QRM_DEVICE_HELLO_ACK_BYTES, QRM_PROTOCOL_VERSION, is_u16, is_u32, is_u64, u16_max, u32_max, u64_max in *.

(** ** Enumerations *)
(** The match of a [try_from] on the integers below 16: its success names the value. *)
Ltac try_from_inv z H :=
  destruct z as [|p|p]; try discriminate H;
  repeat (destruct p as [p|p|]; try discriminate H).

Lemma HdqmKind_try_from_Ok z k : HdqmKind_try_from z = Ok k → z = HdqmKind_as_u8 k.
Proof. intros H. try_from_inv z H; injection H as <-; done. Qed.

Lemma HdqmKind_try_from_returns z : returns (HdqmKind_try_from z).
Proof. unfold returns. intros H. try_from_inv z H. Qed.

Lemma HdqsKind_try_from_Ok z k : HdqsKind_try_from z = Ok k → z = HdqsKind_as_u8 k.
Proof. intros H. try_from_inv z H; injection H as <-; done. Qed.

Lemma HdqsKind_try_from_returns z : returns (HdqsKind_try_from z).
Proof. unfold returns. intros H. try_from_inv z H. Qed.

Lemma HdqsReason_try_from_Ok z r : HdqsReason_try_from z = Ok r → z = HdqsReason_as_u8 r.
Proof. intros H. try_from_inv z H; injection H as <-; done. Qed.

Lemma HdqsReason_try_from_returns z : returns (HdqsReason_try_from z).
Proof. unfold returns. intros H. try_from_inv z H. Qed.

Lemma HdqmKind_try_from_byte k :
  HdqmKind_try_from (byte_val (byte_of_Z (HdqmKind_as_u8 k))) = Ok k.
Proof. by destruct k. Qed.
Lemma HdqsKind_try_from_byte k :
  HdqsKind_try_from (byte_val (byte_of_Z (HdqsKind_as_u8 k))) = Ok k.
Proof. by destruct k. Qed.
Lemma HdqsReason_try_from_byte r :
  HdqsReason_try_from (byte_val (byte_of_Z (HdqsReason_as_u8 r))) = Ok r.
Proof. by destruct r. Qed.

#[export] Hint Resolve HdqmKind_try_from_byte HdqsKind_try_from_byte
  HdqsReason_try_from_byte : wire.

#[export] Hint Resolve HdqmKind_try_from_returns HdqsKind_try_from_returns
  HdqsReason_try_from_returns : relay.

Lemma byte_as_u8 b z : byte_val b = z → b = byte_of_Z z.
Proof. intros <-. by rewrite byte_of_val. Qed.

(** ** Control frames *)
Lemma HdqmFrame_roundtrip f :
  HdqmFrame_valid f → ∃ bs, HdqmFrame_encode f = Ok bs ∧ HdqmFrame_decode bs = Ok f.
Proof.
  intros [Hid Hp]. unfold HdqmFrame_encode.
  rewrite (proj2 (Z.ltb_ge _ _) Hp). eexists. split; [done|]. unfold HdqmFrame_decode.
  repeat read_step. by destruct f.
Qed.

Lemma HdqmFrame_canonical bs f :
  HdqmFrame_decode bs = Ok f → HdqmFrame_valid f ∧ HdqmFrame_encode f = Ok bs.
Proof.
  unfold HdqmFrame_decode. intros H. decode_inv H. bool_facts. injection H as <-.
  reads_to_slices. join_slices bs. subst.
  unfold HdqmFrame_valid, HdqmFrame_encode. simpl hf_request_id. simpl hf_payload. simpl hf_kind.
  assert (Hlen : len v5 = v4) by len_solve. 
  split; [len_solve|]. encode_step.
  rewrite Hlen, <-(byte_as_u8 _ _ (HdqmKind_try_from_Ok _ _ Hr2)). done.
Qed.

Lemma HdqmFrame_decode_returns bs : returns (HdqmFrame_decode bs).
Proof. unfold HdqmFrame_decode. no_panic. Qed.

(** ** Session names *)
Lemma session_byte_ok_ascii b : session_byte_ok b = true → byte_val b < 128.
Proof.
  unfold session_byte_ok. rewrite !orb_true_iff, !bool_decide_eq_true.
  intros [[[?%is_ascii_alphanumeric_ascii | ->] | ->] | ->]; by try done.
Qed.

Lemma SessionName_new_Ok v s :
  SessionName_new v = Ok s →
  s = (if bool_decide (v = []) then str_lit "default" else v)
  ∧ len s ≤ 64 ∧ s ≠ str_lit "." ∧ s ≠ str_lit ".."
  ∧ Forall (λ b, session_byte_ok b = true) s.
Proof.
  unfold SessionName_new. set (w := if bool_decide (v = []) then _ else _).
  destruct (_ || _) eqn:Ht; [done|]. intros [= <-]. bool_facts.
  split; [done|]. split; [len_solve|]. split; [done|]. split; [done|].
  apply Forall_forall. intros b Hb. 
  destruct (session_byte_ok b) eqn:Hok; [done|].
  match goal with He : existsb _ _ = false |- _ =>
    rewrite <-not_true_iff_false in He; destruct He end.
  apply existsb_exists. exists b. rewrite <-list_elem_of_In, Hok. done.
Qed.

Lemma SessionName_new_valid v s : SessionName_new v = Ok s → SessionName_valid s.
Proof.
  intros Hn. assert (Hne : s ≠ []).
  { apply SessionName_new_Ok in Hn as [-> _]. case_bool_decide; done. }
  split; [done|]. unfold SessionName_new in *.
  assert (s = if bool_decide (v = []) then str_lit "default" else v) as Hs.
  { destruct (_ || _) in Hn; by simplify_eq. }
  rewrite <-Hs in Hn. rewrite (bool_decide_eq_false_2 (s = [])) by done. done.
Qed.

Lemma SessionName_valid_facts s :
  SessionName_valid s → s ≠ [] ∧ 1 ≤ len s ≤ 64 ∧ from_utf8 s = Some s ∧ SessionName_new s = Ok s.
Proof.
  intros [Hne Hn]. pose proof (SessionName_new_Ok _ _ Hn) as (_ & Hl & _ & _ & Hall).
  split; [done|]. split; [|split; [|done]].
  - destruct s; [done|]. len_solve.
  - apply from_utf8_ascii. eapply Forall_impl; [done|]. apply session_byte_ok_ascii.
Qed.

Lemma SessionName_new_returns v : returns (SessionName_new v).
Proof. unfold SessionName_new. cbn zeta. no_panic. Qed.

#[export] Hint Resolve SessionName_new_returns : relay.

Lemma encode_session_name_valid s append :
  SessionName_valid s →
  encode_session_name s append = Ok (append ([byte_of_Z (len s)] ++ s)).
Proof.
  intros (Hne & Hl & _ & _)%SessionName_valid_facts. unfold encode_session_name.
  encode_step. done.
Qed.

Lemma decode_session_name_valid s tail :
  SessionName_valid s →
  decode_session_name ([byte_of_Z (len s)] ++ s ++ tail) = Ok (s, (1 + length s)%nat).
Proof.
  intros (Hne & Hl & Hu & Hn)%SessionName_valid_facts. unfold decode_session_name.
  eapply bind_step; [reflexivity|]. cbn beta zeta.
  rewrite val_of_byte_small by lia.
  read_step.
  eapply bind_step; [slice_solve|]. cbn beta.
  rewrite Hu. simpl. rewrite Hn. simpl. repeat f_equal. unfold len. lia.
Qed.

Lemma decode_session_name_Ok bs s off :
  decode_session_name bs = Ok (s, off) →
  SessionName_valid s ∧ off = (1 + length s)%nat
  ∧ slice (E := QuicProtocolError) bs 0 off = Ok ([byte_of_Z (len s)] ++ s).
Proof.
  unfold decode_session_name. intros H. decode_inv H. bool_facts. simplify_eq.
  apply ok_or_Ok in Hr, Hr1. apply from_utf8_Some in Hr1 as [-> _].
  pose proof (SessionName_new_Ok _ _ Hr2) as [Hs _].
  pose proof (SessionName_new_valid _ _ Hr2) as Hv.
  pose proof (slice_length _ _ _ _ Hr0) as Hlen. pose proof (byte_val_range v).
  rewrite bool_decide_eq_false_2 in Hs by (intros ->; simpl in Hlen; lia). subst v0.
  assert (Hb : byte_val v = len s) by (unfold len; lia).
  split; [done|]. split; [unfold len in Hb; lia|].
  rewrite (byte_as_u8 _ _ Hb) in Hr.
  assert (Hi : slice (E := QuicProtocolError) bs 0 (0 + 1) = Ok [byte_of_Z (len s)]).
  { apply index_slice. unfold index. by rewrite Hr. }
  apply (slice_join _ _ _ _ _ _ Hi Hr0).
Qed.

Lemma decode_session_name_returns bs : returns (decode_session_name bs).
Proof.
  unfold decode_session_name. no_panic. pose proof (byte_val_range a). apply slice_returns. len_solve.
Qed.

#[export] Hint Resolve decode_session_name_returns : relay.

(** ** Session payloads *)
Lemma DeviceHelloAck_roundtrip a :
  DeviceHelloAck_valid a →
  ∃ bs, DeviceHelloAck_encode a = Ok bs ∧ DeviceHelloAck_decode bs = Ok a.
Proof.
  intros (Hi & Hnz & Hc & Hc0 & Hr & Hr0 & He & He0).
  eexists. split; [done|]. unfold DeviceHelloAck_decode. repeat read_step. by destruct a.
Qed.

Lemma DeviceHelloAck_canonical bs a :
  DeviceHelloAck_decode bs = Ok a → DeviceHelloAck_valid a ∧ DeviceHelloAck_encode a = Ok bs.
Proof.
  unfold DeviceHelloAck_decode. intros H. decode_inv H. bool_facts. injection H as <-.
  reads_to_slices. join_slices bs. subst. split; [|done]. done.
Qed.

Lemma DeviceHelloAck_decode_returns bs : returns (DeviceHelloAck_decode bs).
Proof. unfold DeviceHelloAck_decode. no_panic. Qed.

(** A payload that starts with a session name. *)
Ltac named_roundtrip Hs :=
  rewrite (encode_session_name_valid _ _ Hs); eexists; (split; [reflexivity|]);
  rewrite <-app_assoc; (eapply bind_step; [apply (decode_session_name_valid _ _ Hs)|]);
  cbn beta iota zeta; repeat read_step.

Ltac named_canonical bs :=
  bool_facts; simplify_eq; reads_to_slices;
  match goal with
  | H : decode_session_name _ = Ok _ |- _ => apply decode_session_name_Ok in H as (? & ? & ?)
  end; subst; join_slices bs; subst.

Lemma SessionPrepareRequest_roundtrip r :
  SessionPrepareRequest_valid r →
  ∃ bs, SessionPrepareRequest_encode r = Ok bs ∧ SessionPrepareRequest_decode bs = Ok r.
Proof.
  intros (Hs & Hf & Hg). unfold SessionPrepareRequest_encode, SessionPrepareRequest_decode.
  named_roundtrip Hs. by destruct r.
Qed.

Lemma SessionPrepareRequest_canonical bs r :
  SessionPrepareRequest_decode bs = Ok r →
  SessionPrepareRequest_valid r ∧ SessionPrepareRequest_encode r = Ok bs.
Proof.
  unfold SessionPrepareRequest_decode. intros H. 
  decode_inv H. named_canonical bs. unfold SessionPrepareRequest_encode.
  rewrite encode_session_name_valid by done. split; [done|]. by rewrite <-app_assoc.
Qed.

Lemma SessionPrepareRequest_decode_returns bs : returns (SessionPrepareRequest_decode bs).
Proof.
  unfold SessionPrepareRequest_decode. no_panic.
Qed.

Lemma SessionPrepareAck_roundtrip a :
  SessionPrepareAck_valid a →
  ∃ bs, SessionPrepareAck_encode a = Ok bs ∧ SessionPrepareAck_decode bs = Ok a.
Proof.
  intros (Hs & Hf & Hc & Hr & He & Ht & Hl).
  unfold SessionPrepareAck_encode, SessionPrepareAck_decode. named_roundtrip Hs. by destruct a.
Qed.

Lemma SessionPrepareAck_canonical bs a :
  SessionPrepareAck_decode bs = Ok a →
  SessionPrepareAck_valid a ∧ SessionPrepareAck_encode a = Ok bs.
Proof.
  unfold SessionPrepareAck_decode. intros H. cbn zeta in H.
  decode_inv H. named_canonical bs. unfold SessionPrepareAck_encode.
  rewrite encode_session_name_valid by done. split; [done|]. by rewrite <-app_assoc.
Qed.

Lemma SessionPrepareAck_decode_returns bs : returns (SessionPrepareAck_decode bs).
Proof. unfold SessionPrepareAck_decode. no_panic. Qed.

Lemma SessionOpenRequest_roundtrip r :
  SessionOpenRequest_valid r →
  ∃ bs, SessionOpenRequest_encode r = Ok bs ∧ SessionOpenRequest_decode bs = Ok r.
Proof.
  intros (Hs & Hf & Hc & Hr & He & Ht).
  unfold SessionOpenRequest_encode, SessionOpenRequest_decode. named_roundtrip Hs. by destruct r.
Qed.

Lemma SessionOpenRequest_canonical bs r :
  SessionOpenRequest_decode bs = Ok r →
  SessionOpenRequest_valid r ∧ SessionOpenRequest_encode r = Ok bs.
Proof.
  unfold SessionOpenRequest_decode. intros H. cbn zeta in H.
  decode_inv H. named_canonical bs. unfold SessionOpenRequest_encode.
  rewrite encode_session_name_valid by done. split; [done|]. by rewrite <-app_assoc.
Qed.

Lemma SessionOpenRequest_decode_returns bs : returns (SessionOpenRequest_decode bs).
Proof. unfold SessionOpenRequest_decode. no_panic. Qed.

Lemma SessionOpenAck_roundtrip a :
  SessionOpenAck_valid a →
  ∃ bs, SessionOpenAck_encode a = Ok bs ∧ SessionOpenAck_decode bs = Ok a.
Proof.
  intros (Hh & Hh0 & Hs & Hf & Hc & Hr & He & Ht). unfold SessionOpenAck_encode.
  rewrite (proj2 (Z.eqb_neq _ _) Hh0), (encode_session_name_valid _ _ Hs). cbn [mbind outcome_bind].
  eexists. split; [reflexivity|]. unfold SessionOpenAck_decode. rewrite <-app_assoc.
  repeat read_step.
  eapply bind_step; [apply (decode_session_name_valid _ _ Hs)|]. cbn beta iota zeta.
  repeat read_step. by destruct a.
Qed.

Lemma SessionOpenAck_canonical bs a :
  SessionOpenAck_decode bs = Ok a →
  SessionOpenAck_valid a ∧ SessionOpenAck_encode a = Ok bs.
Proof.
  unfold SessionOpenAck_decode. intros H. cbn zeta in H. decode_inv H.
  bool_facts; simplify_eq; reads_to_slices.
  match goal with
  | H : decode_session_name _ = Ok _, Hr : slice _ 2 _ = Ok _ |- _ =>
      apply decode_session_name_Ok in H as (? & ? & H);
      pose proof (slice_slice _ _ _ _ _ _ _ Hr H); clear Hr
  end. subst. join_slices bs. subst. unfold SessionOpenAck_encode.
  split; [done|]. encode_step. rewrite encode_session_name_valid by done.
  cbn [mbind outcome_bind]. by rewrite <-app_assoc.
Qed.

Lemma SessionOpenAck_decode_returns bs : returns (SessionOpenAck_decode bs).
Proof. unfold SessionOpenAck_decode. no_panic. Qed.

(** ** Stream binding and response *)
Lemma HdqsBinding_roundtrip b :
  HdqsBinding_valid b → ∃ bs, HdqsBinding_encode b = Ok bs ∧ HdqsBinding_decode bs = Ok b.
Proof.
  intros (Hh & Hh0 & Hc & Hr & He & Hs & Hf & Ht).
  pose proof (SessionName_valid_facts _ Hs) as (Hne & Hl & Hu & Hn).
  unfold HdqsBinding_encode. cbn zeta.
  eexists. split; [repeat encode_step; reflexivity|]. unfold HdqsBinding_decode. cbn zeta.
  repeat read_step.
  rewrite val_of_byte_small by lia. repeat read_step.
  rewrite Hu. cbn [ok_or mbind outcome_bind]. rewrite Hn. cbn [mbind outcome_bind].
  repeat read_step. by destruct b.
Qed.

Lemma HdqsBinding_canonical bs b :
  HdqsBinding_decode bs = Ok b → HdqsBinding_valid b ∧ HdqsBinding_encode b = Ok bs.
Proof.
  unfold HdqsBinding_decode. intros H. cbn zeta in H. decode_inv H. bool_facts. simplify_eq.
  match goal with H : ok_or (from_utf8 _) _ = Ok _ |- _ =>
    apply ok_or_Ok, from_utf8_Some in H as [-> _] end.
  match goal with H : SessionName_new _ = Ok ?s |- _ =>
    pose proof (SessionName_new_Ok _ _ H) as [Hs _];
    pose proof (SessionName_new_valid _ _ H) as Hv end.
  match goal with H : slice _ 33 _ = Ok ?s |- _ =>
    pose proof (slice_length _ _ _ _ H) as Hname end.
  match goal with H : index _ 32 = Ok ?b32 |- _ => pose proof (byte_val_range b32) end.
  rewrite bool_decide_eq_false_2 in Hs by (intros ->; simpl in Hname; lia). subst.
  pose proof (SessionName_valid_facts _ Hv) as (Hne & Hl & _ & _).
  reads_to_slices. join_slices bs. subst. split; [done|].
  unfold HdqsBinding_encode. cbn zeta. repeat encode_step.
  match goal with H : 0 ≤ byte_val ?b < 256 |- _ =>
    assert (Hb : b = byte_of_Z (len v3)) by (apply byte_as_u8; unfold len; lia); rewrite Hb
  end. done.
Qed.

Lemma HdqsBinding_decode_returns bs : returns (HdqsBinding_decode bs).
Proof.
  unfold HdqsBinding_decode. no_panic.
  all: match goal with H : index _ 32 = Ok ?b32 |- _ => pose proof (byte_val_range b32) end.
  all: first [apply slice_returns | apply get_array_returns]; len_solve.
Qed.

Lemma HdqsResponse_encode_valid r :
  HdqsResponse_valid r → is_ok (HdqsResponse_encode r) = true.
Proof.
  destruct r as [k s h rr e]. intros (_ & _ & [[Hr Hh] | Hr]); injection Hr; intros; subst;
    simpl in *; unfold HdqsResponse_encode; simpl; [|done].
  by rewrite (proj2 (Z.eqb_neq _ _) Hh).
Qed.

Lemma HdqsResponse_encode_Ok r bs :
  HdqsResponse_encode r = Ok bs → is_u16 (hr_session_handle r) → is_u64 (hr_connection_epoch r) →
  HdqsResponse_valid r.
Proof.
  unfold HdqsResponse_encode, HdqsResponse_valid. intros H Hh He.
  split; [done|]. split; [done|]. destruct (_ || _) eqn:Ht; [done|].
  destruct r as [k s h r e]; simpl in *. bool_facts. subst s.
  destruct k; simpl in *; bool_facts; subst; [left; split; [done|]|right]; done.
Qed.

Lemma HdqsResponse_roundtrip r :
  HdqsResponse_valid r → ∃ bs, HdqsResponse_encode r = Ok bs ∧ HdqsResponse_decode bs = Ok r.
Proof.
  intros Hv. pose proof (HdqsResponse_encode_valid _ Hv) as Hok.
  destruct (HdqsResponse_encode r) as [bs| |] eqn:He; try done. exists bs. split; [done|].
  pose proof He as He'. unfold HdqsResponse_encode in He'. destruct (_ || _); [done|].
  apply Ok_inj in He' as <-. destruct Hv as (Hh & Hep & _).
  unfold HdqsResponse_decode. cbn zeta. repeat read_step.
  destruct r as [k s h rr e]. cbn [hr_kind hr_status hr_session_handle hr_reason hr_connection_epoch] in *.
  by rewrite He.
Qed.

Lemma HdqsResponse_canonical bs r :
  HdqsResponse_decode bs = Ok r → HdqsResponse_valid r ∧ HdqsResponse_encode r = Ok bs.
Proof.
  unfold HdqsResponse_decode. intros H. cbn zeta in H. decode_inv H.
  apply fmap_Ok in H as (bs' & He & ->). bool_facts.
  reads_to_slices. join_slices bs. subst.
  pose proof (HdqsResponse_encode_Ok _ _ He) as Hv. split; [by apply Hv|].
  repeat match goal with
  | H : HdqsKind_try_from _ = Ok _ |- _ => apply HdqsKind_try_from_Ok, byte_as_u8 in H; subst
  | H : HdqsReason_try_from _ = Ok _ |- _ => apply HdqsReason_try_from_Ok, byte_as_u8 in H; subst
  | H : byte_val _ = 0 |- _ => apply byte_as_u8 in H; subst
  end.
  rewrite He. unfold HdqsResponse_encode in He. destruct (_ || _); [done|].
  by apply Ok_inj in He as <-.
Qed.

Lemma HdqsResponse_decode_returns bs : returns (HdqsResponse_decode bs).
Proof.
  unfold HdqsResponse_decode. no_panic.
  apply fmap_returns. unfold HdqsResponse_encode. no_panic.
Qed.

(** ** The codecs as instances of the interface *)
#[export] Instance HdqmFrame_codec : WireCodec QuicProtocolError HdqmFrame :=
  {| wire_valid := HdqmFrame_valid; wire_encode := HdqmFrame_encode;
     wire_decode := HdqmFrame_decode |}.
#[export] Instance HdqmFrame_lawful : LawfulCodec QuicProtocolError HdqmFrame.
Proof. split; [apply HdqmFrame_roundtrip|apply HdqmFrame_canonical|apply HdqmFrame_decode_returns]. Qed.

#[export] Instance DeviceHelloAck_codec : WireCodec QuicProtocolError DeviceHelloAck :=
  {| wire_valid := DeviceHelloAck_valid; wire_encode := DeviceHelloAck_encode;
     wire_decode := DeviceHelloAck_decode |}.
#[export] Instance DeviceHelloAck_lawful : LawfulCodec QuicProtocolError DeviceHelloAck.
Proof. split; [apply DeviceHelloAck_roundtrip|apply DeviceHelloAck_canonical|apply DeviceHelloAck_decode_returns]. Qed.

#[export] Instance SessionPrepareRequest_codec : WireCodec QuicProtocolError SessionPrepareRequest :=
  {| wire_valid := SessionPrepareRequest_valid; wire_encode := SessionPrepareRequest_encode;
     wire_decode := SessionPrepareRequest_decode |}.
#[export] Instance SessionPrepareRequest_lawful :
  LawfulCodec QuicProtocolError SessionPrepareRequest.
Proof. split; [apply SessionPrepareRequest_roundtrip|apply SessionPrepareRequest_canonical|apply SessionPrepareRequest_decode_returns]. Qed.

#[export] Instance SessionPrepareAck_codec : WireCodec QuicProtocolError SessionPrepareAck :=
  {| wire_valid := SessionPrepareAck_valid; wire_encode := SessionPrepareAck_encode;
     wire_decode := SessionPrepareAck_decode |}.
#[export] Instance SessionPrepareAck_lawful : LawfulCodec QuicProtocolError SessionPrepareAck.
Proof. split; [apply SessionPrepareAck_roundtrip|apply SessionPrepareAck_canonical|apply SessionPrepareAck_decode_returns]. Qed.

#[export] Instance SessionOpenRequest_codec : WireCodec QuicProtocolError SessionOpenRequest :=
  {| wire_valid := SessionOpenRequest_valid; wire_encode := SessionOpenRequest_encode;
     wire_decode := SessionOpenRequest_decode |}.
#[export] Instance SessionOpenRequest_lawful : LawfulCodec QuicProtocolError SessionOpenRequest.
Proof. split; [apply SessionOpenRequest_roundtrip|apply SessionOpenRequest_canonical|apply SessionOpenRequest_decode_returns]. Qed.

#[export] Instance SessionOpenAck_codec : WireCodec QuicProtocolError SessionOpenAck :=
  {| wire_valid := SessionOpenAck_valid; wire_encode := SessionOpenAck_encode;
     wire_decode := SessionOpenAck_decode |}.
#[export] Instance SessionOpenAck_lawful : LawfulCodec QuicProtocolError SessionOpenAck.
Proof. split; [apply SessionOpenAck_roundtrip|apply SessionOpenAck_canonical|apply SessionOpenAck_decode_returns]. Qed.

#[export] Instance HdqsBinding_codec : WireCodec QuicProtocolError HdqsBinding :=
  {| wire_valid := HdqsBinding_valid; wire_encode := HdqsBinding_encode;
     wire_decode := HdqsBinding_decode |}.
#[export] Instance HdqsBinding_lawful : LawfulCodec QuicProtocolError HdqsBinding.
Proof. split; [apply HdqsBinding_roundtrip|apply HdqsBinding_canonical|apply HdqsBinding_decode_returns]. Qed.

#[export] Instance HdqsResponse_codec : WireCodec QuicProtocolError HdqsResponse :=
  {| wire_valid := HdqsResponse_valid; wire_encode := HdqsResponse_encode;
     wire_decode := HdqsResponse_decode |}.
#[export] Instance HdqsResponse_lawful : LawfulCodec QuicProtocolError HdqsResponse.
Proof. split; [apply HdqsResponse_roundtrip|apply HdqsResponse_canonical|apply HdqsResponse_decode_returns]. Qed.

(** * Properties *)

(** C1. The codecs of the control and session streams are lawful: the HDQM control frame
    with a 16-byte request id and a payload of at most 65509 bytes, the five session payloads
    (hello acknowledgement, prepare, prepare acknowledgement, open, open acknowledgement),
    the HDQS binding preface and the 20-byte HDQS response.  Every valid value is encoded and
    decoded back; an accepted byte string is the one canonical encoding of a valid value (so
    a response is accepted only when kind and status agree, an acceptance has a non-zero
    handle and no reason, and a rejection has handle zero); no byte string makes a decoder
    panic. *)
Theorem qrm_codecs_lawful :
  lawful_codec HdqmFrame_valid HdqmFrame_encode HdqmFrame_decode
  ∧ lawful_codec DeviceHelloAck_valid DeviceHelloAck_encode DeviceHelloAck_decode
  ∧ lawful_codec SessionPrepareRequest_valid SessionPrepareRequest_encode
      SessionPrepareRequest_decode
  ∧ lawful_codec SessionPrepareAck_valid SessionPrepareAck_encode SessionPrepareAck_decode
  ∧ lawful_codec SessionOpenRequest_valid SessionOpenRequest_encode SessionOpenRequest_decode
  ∧ lawful_codec SessionOpenAck_valid SessionOpenAck_encode SessionOpenAck_decode
  ∧ lawful_codec HdqsBinding_valid HdqsBinding_encode HdqsBinding_decode
  ∧ lawful_codec HdqsResponse_valid HdqsResponse_encode HdqsResponse_decode.
Proof.
  split_and!;
    [ exact (lawful_codec_of_class (H := HdqmFrame_codec))
    | exact (lawful_codec_of_class (H := DeviceHelloAck_codec))
    | exact (lawful_codec_of_class (H := SessionPrepareRequest_codec))
    | exact (lawful_codec_of_class (H := SessionPrepareAck_codec))
    | exact (lawful_codec_of_class (H := SessionOpenRequest_codec))
    | exact (lawful_codec_of_class (H := SessionOpenAck_codec))
    | exact (lawful_codec_of_class (H := HdqsBinding_codec))
    | exact (lawful_codec_of_class (H := HdqsResponse_codec)) ].
Qed.

(** A session name built by [SessionName::new] is safe as one path component: it has
    between 1 and 64 bytes, is neither [.] nor [..], contains no slash, no NUL and no
    non-ASCII byte; the empty input is the name [default]; building a name from its own
    text gives it back. *)
Lemma session_name_safe v s :
  SessionName_new v = Ok s →
  1 ≤ len s ≤ 64 ∧ s ≠ str_lit "." ∧ s ≠ str_lit ".."
  ∧ (∀ b, b ∈ s → byte_val b < 128 ∧ b ≠ x2f ∧ b ≠ x00)
  ∧ (v = [] → s = str_lit "default") ∧ SessionName_new s = Ok s.
Proof.
  intros H. pose proof (SessionName_new_Ok _ _ H) as (Hs & _ & Hd & Hdd & Hall).
  pose proof (SessionName_valid_facts _ (SessionName_new_valid _ _ H)) as (_ & Hl & _ & Hn).
  do 3 (split; [done|]). split; [|split; [|done]].
  - intros b Hb. rewrite Forall_forall in Hall. specialize (Hall b Hb).
    split; [by apply session_byte_ok_ascii|]. split; intros ->; done.
  - intros ->. by rewrite Hs.
Qed.

