(* ===== verification/Errors.v ===== *)
(** * Redacted Relay errors (src/src/error.rs)

    The error enum shared by the components.  A [&'static str] label is a [string];
    the [io::ErrorKind] an I/O failure carries is named by a [string] as well. *)
From Stdlib Require Strings.String.
Export String.StringSyntax.
From S2P Require Export Prelude.

Abbreviation string := String.string.
Bind Scope string_scope with String.string.

Inductive RelayError : Type :=
| InvalidConfiguration (field reason : string)
| ConfigurationRead
| ConfigurationSyntax
| Io (operation kind : string)
| SocketIdentity (operation reason : string)
| ListenerStartup (reason : string)
| IrohEndpoint (reason : string)
| TlsConfiguration (reason : string)
| QuicHandshake (reason : string)
| QuicAuthentication
| QuicProtocol (reason : string)
| Update (operation reason : string)
| SessionAuthority
| UpstreamUnavailable
| BridgeIdleTimeout
| ResourceLimit.

#[export] Instance RelayError_eq_dec : EqDecision RelayError.
Proof. solve_decision. Defined.

Abbreviation relay_result := (outcome RelayError).
