(* ===== verification/SessionRegistry.v ===== *)
(** * The per-connection session authority registry (src/src/session_registry.rs)

    Prepared authorities are keyed by their opaque token, active ones by their
    connection-local handle.  An [Instant] is an integer number of nanoseconds on
    the monotonic clock; every method that reads the clock takes the instant as an
    argument, as the [_at] variants of the code do. *)
From S2P Require Export Errors QuicWire.

Definition MAX_SESSION_STREAMS : Z := 64.
Definition SESSION_TOKEN_TTL_SECS : Z := 90.

(** [now + Duration::from_secs(secs)]. *)
Definition instant_plus_secs (now secs : Z) : Z := now + secs * 1000000000.

Record PreparedSession : Type := {
  ps_session : SessionName;
  ps_fingerprint : list byte;
  ps_configuration_generation : Z;
  ps_relay_generation : Z;
  ps_connection_epoch : Z;
  ps_token : list byte;
  ps_token_ttl_secs : Z;
  ps_expires_at : Z;
}.

#[export] Instance PreparedSession_eq_dec : EqDecision PreparedSession.
Proof. solve_decision. Defined.

Record ActiveSession : Type := {
  as_handle : Z;
  as_prepared : PreparedSession;
  as_expires_at : Z;
  as_bound : bool;
}.

#[export] Instance ActiveSession_eq_dec : EqDecision ActiveSession.
Proof. solve_decision. Defined.

Record SessionRegistry : Type := {
  sr_relay_generation : Z;
  sr_connection_epoch : Z;
  sr_max_sessions : Z;
  sr_next_handle : Z;
  sr_prepared : gmap (list byte) PreparedSession;
  sr_active : gmap Z ActiveSession;
}.

Definition set_prepared (p : gmap (list byte) PreparedSession) (r : SessionRegistry) :=
  {| sr_relay_generation := sr_relay_generation r; sr_connection_epoch := sr_connection_epoch r;
     sr_max_sessions := sr_max_sessions r; sr_next_handle := sr_next_handle r;
     sr_prepared := p; sr_active := sr_active r |}.
Definition set_active (a : gmap Z ActiveSession) (r : SessionRegistry) :=
  {| sr_relay_generation := sr_relay_generation r; sr_connection_epoch := sr_connection_epoch r;
     sr_max_sessions := sr_max_sessions r; sr_next_handle := sr_next_handle r;
     sr_prepared := sr_prepared r; sr_active := a |}.
Definition set_next_handle (n : Z) (r : SessionRegistry) :=
  {| sr_relay_generation := sr_relay_generation r; sr_connection_epoch := sr_connection_epoch r;
     sr_max_sessions := sr_max_sessions r; sr_next_handle := n;
     sr_prepared := sr_prepared r; sr_active := sr_active r |}.

(** ** Operations *)
Definition SessionRegistry_new (relay_generation connection_epoch max_sessions : Z)
  : relay_result SessionRegistry :=
  if (relay_generation =? 0) || (connection_epoch =? 0) || (max_sessions =? 0)
     || (MAX_SESSION_STREAMS <? max_sessions)
  then Err (InvalidConfiguration "limits.max_sessions_per_connection"
              "QRM session registry bounds are invalid")
  else
  Ok {| sr_relay_generation := relay_generation; sr_connection_epoch := connection_epoch;
        sr_max_sessions := max_sessions; sr_next_handle := 1;
        sr_prepared := ∅; sr_active := ∅ |}.

Definition prepare_at (r : SessionRegistry) (now : Z) (session fingerprint : list byte)
    (configuration_generation : Z) (token : list byte)
  : SessionRegistry * relay_result PreparedSession :=
  if sr_max_sessions r <=? map_len (sr_active r) + map_len (sr_prepared r)
  then (r, Err ResourceLimit) else
  if (configuration_generation =? 0) || bool_decide (token = zeros QRM_AUTHORITY_BYTES)
  then (r, Err SessionAuthority) else
  match map_err (λ _, SessionAuthority) (SessionName_new session) with
  | Err e => (r, Err e)
  | Panic => (r, Panic)
  | Ok session =>
      if QRM_MAX_SESSION_NAME_BYTES <? len session then (r, Err SessionAuthority) else
      let prepared :=
        {| ps_session := session; ps_fingerprint := fingerprint;
           ps_configuration_generation := configuration_generation;
           ps_relay_generation := sr_relay_generation r;
           ps_connection_epoch := sr_connection_epoch r;
           ps_token := token; ps_token_ttl_secs := SESSION_TOKEN_TTL_SECS;
           ps_expires_at := instant_plus_secs now SESSION_TOKEN_TTL_SECS |} in
      (set_prepared (<[token := prepared]> (sr_prepared r)) r, Ok prepared)
  end.

(** [for _ in 0..=u16::MAX]. *)
Definition handle_attempts : nat := Z.to_nat 65536.

(** The next candidate: [next_handle.wrapping_add(1).max(1)]. *)
Definition handle_succ (h : Z) : Z := Z.max (u16_wrapping_add h 1) 1.

Fixpoint allocate_loop (attempts : nat) (next : Z) (active : gmap Z ActiveSession)
  : Z * option Z :=
  match attempts with
  | O => (next, None)
  | S attempts' =>
      let handle := next in
      let next := handle_succ next in
      if negb (handle =? 0) && negb (bool_decide (is_Some (active !! handle)))
      then (next, Some handle)
      else allocate_loop attempts' next active
  end.

Definition allocate_handle (r : SessionRegistry) : SessionRegistry * option Z :=
  let '(next, handle) := allocate_loop handle_attempts (sr_next_handle r) (sr_active r) in
  (set_next_handle next r, handle).

(** The authority fields that a binding must repeat exactly (all but the token). *)
Definition authority_differs (p : PreparedSession) (session fingerprint : list byte)
    (configuration_generation relay_generation connection_epoch : Z) : bool :=
  bool_decide (ps_session p ≠ session)
  || bool_decide (ps_fingerprint p ≠ fingerprint)
  || negb (ps_configuration_generation p =? configuration_generation)
  || negb (ps_relay_generation p =? relay_generation)
  || negb (ps_connection_epoch p =? connection_epoch).

Definition binding_differs (p : PreparedSession) (b : HdqsBinding) : bool :=
  authority_differs p (hb_session b) (hb_fingerprint b) (hb_configuration_generation b)
    (hb_relay_generation b) (hb_connection_epoch b).

Definition open_at (r : SessionRegistry) (now : Z) (binding : HdqsBinding)
  : SessionRegistry * (HdqsResponse * option ActiveSession) :=
  let reject reason := (HdqsResponse_rejected reason (sr_connection_epoch r), None) in
  match sr_prepared r !! hb_token binding with
  | None => (r, reject TokenMismatch)
  | Some prepared =>
      let r := set_prepared (delete (hb_token binding) (sr_prepared r)) r in
      if ps_expires_at prepared <=? now then (r, reject TokenMismatch) else
      if map_any (λ a, bool_decide (ps_session (as_prepared a) = hb_session binding)) (sr_active r)
      then (r, reject SessionAlreadyOpen) else
      if binding_differs prepared binding then (r, reject GenerationMismatch) else
      match allocate_handle r with
      | (r, None) => (r, reject CapacityExhausted)
      | (r, Some handle) =>
          let active :=
            {| as_handle := handle; as_prepared := prepared;
               as_expires_at := instant_plus_secs now (ps_token_ttl_secs prepared);
               as_bound := false |} in
          (set_active (<[handle := active]> (sr_active r)) r,
           (HdqsResponse_accepted handle (sr_connection_epoch r), Some active))
      end
  end.

Definition open_request (r : SessionRegistry) (now : Z) (request : SessionOpenRequest)
  : SessionRegistry * (HdqsResponse * option ActiveSession) :=
  match sr_prepared r !! sor_token request with
  | None => (r, (HdqsResponse_rejected TokenMismatch (sr_connection_epoch r), None))
  | Some prepared =>
      if authority_differs prepared (sor_session request) (sor_fingerprint request)
           (sor_configuration_generation request) (sor_relay_generation request)
           (sor_connection_epoch request)
      then (set_prepared (delete (sor_token request) (sr_prepared r)) r,
            (HdqsResponse_rejected GenerationMismatch (sr_connection_epoch r), None))
      else
      open_at r now
        {| hb_session_handle := 1;
           hb_configuration_generation := ps_configuration_generation prepared;
           hb_relay_generation := ps_relay_generation prepared;
           hb_connection_epoch := ps_connection_epoch prepared;
           hb_session := ps_session prepared;
           hb_fingerprint := ps_fingerprint prepared;
           hb_token := ps_token prepared |}
  end.

Definition mark_bound (a : ActiveSession) : ActiveSession :=
  {| as_handle := as_handle a; as_prepared := as_prepared a;
     as_expires_at := as_expires_at a; as_bound := true |}.

Definition accept_active (r : SessionRegistry) (now : Z) (binding : HdqsBinding)
  : SessionRegistry * HdqsResponse :=
  match sr_active r !! hb_session_handle binding with
  | None => (r, HdqsResponse_rejected SessionNotFound (sr_connection_epoch r))
  | Some active =>
      if as_bound active
      then (r, HdqsResponse_rejected SessionAlreadyOpen (sr_connection_epoch r)) else
      if binding_differs (as_prepared active) binding
         || bool_decide (ps_token (as_prepared active) ≠ hb_token binding)
         || (as_expires_at active <=? now)
      then (r, HdqsResponse_rejected GenerationMismatch (sr_connection_epoch r)) else
      (set_active (<[hb_session_handle binding := mark_bound active]> (sr_active r)) r,
       HdqsResponse_accepted (as_handle active) (sr_connection_epoch r))
  end.

Definition close_exact (r : SessionRegistry) (binding : HdqsBinding) : SessionRegistry * bool :=
  match sr_active r !! hb_session_handle binding with
  | None => (r, false)
  | Some active =>
      if binding_differs (as_prepared active) binding
         || bool_decide (ps_token (as_prepared active) ≠ hb_token binding)
      then (r, false) else
      (set_active (delete (hb_session_handle binding) (sr_active r)) r, true)
  end.

Definition close (r : SessionRegistry) (handle : Z) : SessionRegistry * bool :=
  (set_active (delete handle (sr_active r)) r, bool_decide (is_Some (sr_active r !! handle))).

Definition active_bound_exact (r : SessionRegistry) (now : Z) (binding : HdqsBinding) : bool :=
  match sr_active r !! hb_session_handle binding with
  | None => false
  | Some active =>
      as_bound active && negb (binding_differs (as_prepared active) binding)
      && bool_decide (ps_token (as_prepared active) = hb_token binding)
      && (now <? as_expires_at active)
  end.

Definition close_unbound_if_exact (r : SessionRegistry) (binding : HdqsBinding)
  : SessionRegistry * bool :=
  match sr_active r !! hb_session_handle binding with
  | None => (r, false)
  | Some active =>
      if as_bound active
         || binding_differs (as_prepared active) binding
         || bool_decide (ps_token (as_prepared active) ≠ hb_token binding)
      then (r, false) else
      (set_active (delete (hb_session_handle binding) (sr_active r)) r, true)
  end.

Definition invalidate_connection (r : SessionRegistry) : SessionRegistry :=
  set_active ∅ (set_prepared ∅ r).

Definition reap_expired_prepared (r : SessionRegistry) (now : Z) : SessionRegistry * Z :=
  let kept := filter (λ kp, now < ps_expires_at kp.2) (sr_prepared r) in
  (set_prepared kept r, map_len (sr_prepared r) - map_len kept).

(** The handles of the expired active sessions, in the order of the map. *)
Definition expired_handles (active : gmap Z ActiveSession) (now : Z) : list Z :=
  omap (λ ha, if as_expires_at ha.2 <=? now then Some ha.1 else None) (btree_entries id active).

Definition reap_expired_handles (r : SessionRegistry) (now : Z) : SessionRegistry * list Z :=
  let r := (reap_expired_prepared r now).1 in
  let handles := expired_handles (sr_active r) now in
  (set_active (foldl (λ m h, delete h m) (sr_active r) handles) r, handles).

Definition active_is_valid_at (r : SessionRegistry) (handle : Z) (token : list byte) (now : Z)
  : bool :=
  match sr_active r !! handle with
  | None => false
  | Some active => bool_decide (ps_token (as_prepared active) = token) && (now <? as_expires_at active)
  end.

Definition extend_lease (now : Z) (a : ActiveSession) : ActiveSession :=
  {| as_handle := as_handle a; as_prepared := as_prepared a;
     as_expires_at := instant_plus_secs now (ps_token_ttl_secs (as_prepared a));
     as_bound := as_bound a |}.

Definition renew (r : SessionRegistry) (handle : Z) (token : list byte) (now : Z)
  : SessionRegistry * bool :=
  match sr_active r !! handle with
  | None => (r, false)
  | Some active =>
      if bool_decide (ps_token (as_prepared active) ≠ token) || (as_expires_at active <=? now)
      then (r, false) else
      (set_active (<[handle := extend_lease now active]> (sr_active r)) r, true)
  end.

Definition renew_batch (r : SessionRegistry) (entries : list (Z * list byte)) (now : Z)
  : SessionRegistry * bool :=
  if existsb (λ e, match sr_active r !! e.1 with
                   | None => true
                   | Some active => bool_decide (ps_token (as_prepared active) ≠ e.2)
                                    || (as_expires_at active <=? now)
                   end) entries
  then (r, false)
  else (foldl (λ r e, (renew r e.1 e.2 now).1) r entries, true).

Definition active_count (r : SessionRegistry) : Z := map_len (sr_active r).

Definition active (r : SessionRegistry) (handle : Z) : option ActiveSession :=
  sr_active r !! handle.

(** ** Operations as values

    One call of a method that changes the registry, with its arguments. *)
Inductive registry_op : Type :=
| OpPrepare (now : Z) (session fingerprint : list byte) (configuration_generation : Z)
    (token : list byte)
| OpOpen (now : Z) (binding : HdqsBinding)
| OpOpenRequest (now : Z) (request : SessionOpenRequest)
| OpAccept (now : Z) (binding : HdqsBinding)
| OpCloseExact (binding : HdqsBinding)
| OpClose (handle : Z)
| OpCloseUnbound (binding : HdqsBinding)
| OpInvalidate
| OpReapPrepared (now : Z)
| OpReap (now : Z)
| OpRenew (handle : Z) (token : list byte) (now : Z)
| OpRenewBatch (entries : list (Z * list byte)) (now : Z).

Definition run_op (r : SessionRegistry) (op : registry_op) : SessionRegistry :=
  match op with
  | OpPrepare now session fingerprint generation token =>
      (prepare_at r now session fingerprint generation token).1
  | OpOpen now binding => (open_at r now binding).1
  | OpOpenRequest now request => (open_request r now request).1
  | OpAccept now binding => (accept_active r now binding).1
  | OpCloseExact binding => (close_exact r binding).1
  | OpClose handle => (close r handle).1
  | OpCloseUnbound binding => (close_unbound_if_exact r binding).1
  | OpInvalidate => invalidate_connection r
  | OpReapPrepared now => (reap_expired_prepared r now).1
  | OpReap now => (reap_expired_handles r now).1
  | OpRenew handle token now => (renew r handle token now).1
  | OpRenewBatch entries now => (renew_batch r entries now).1
  end.

Definition run_ops (r : SessionRegistry) (ops : list registry_op) : SessionRegistry :=
  foldl run_op r ops.

(** ** Well-formed registries *)

(** What every prepared or active authority of a registry of the given relay
    generation and connection epoch satisfies. *)
Record authority_wf (relay_generation connection_epoch : Z) (p : PreparedSession) : Prop := {
  auth_session : SessionName_valid (ps_session p);
  auth_relay : ps_relay_generation p = relay_generation;
  auth_epoch : ps_connection_epoch p = connection_epoch;
  auth_configuration : ps_configuration_generation p ≠ 0;
  auth_token : ps_token p ≠ zeros 32;
  auth_ttl : ps_token_ttl_secs p = SESSION_TOKEN_TTL_SECS;
}.

Record registry_wf (r : SessionRegistry) : Prop := {
  wf_relay : sr_relay_generation r ≠ 0;
  wf_epoch : sr_connection_epoch r ≠ 0;
  wf_max : 1 ≤ sr_max_sessions r ≤ MAX_SESSION_STREAMS;
  wf_next : 1 ≤ sr_next_handle r ≤ u16_max;
  wf_capacity : map_len (sr_active r) + map_len (sr_prepared r) ≤ sr_max_sessions r;
  wf_prepared : ∀ t p, sr_prepared r !! t = Some p →
    ps_token p = t ∧ authority_wf (sr_relay_generation r) (sr_connection_epoch r) p;
  wf_active : ∀ h a, sr_active r !! h = Some a →
    as_handle a = h ∧ 1 ≤ h ≤ u16_max
    ∧ authority_wf (sr_relay_generation r) (sr_connection_epoch r) (as_prepared a);
  wf_sessions : ∀ h1 h2 a1 a2, sr_active r !! h1 = Some a1 → sr_active r !! h2 = Some a2 →
    ps_session (as_prepared a1) = ps_session (as_prepared a2) → h1 = h2;
}.

(** When a binding may be opened: its token names a live prepared authority whose
    fields it repeats exactly, and its session is not open yet. *)
Definition admissible (r : SessionRegistry) (now : Z) (b : HdqsBinding) : Prop :=
  ∃ p, sr_prepared r !! hb_token b = Some p ∧ now < ps_expires_at p
    ∧ (∀ h a, sr_active r !! h = Some a → ps_session (as_prepared a) ≠ hb_session b)
    ∧ ps_session p = hb_session b ∧ ps_fingerprint p = hb_fingerprint b
    ∧ ps_configuration_generation p = hb_configuration_generation b
    ∧ ps_relay_generation p = hb_relay_generation b
    ∧ ps_connection_epoch p = hb_connection_epoch b.

(** * Facts *)
#[global] Opaque handle_attempts.

Lemma binding_differs_false p b :
  binding_differs p b = false ↔
  ps_session p = hb_session b ∧ ps_fingerprint p = hb_fingerprint b
  ∧ ps_configuration_generation p = hb_configuration_generation b
  ∧ ps_relay_generation p = hb_relay_generation b
  ∧ ps_connection_epoch p = hb_connection_epoch b.
Proof.
  unfold binding_differs, authority_differs. rewrite !orb_false_iff, !bool_decide_eq_false.
  rewrite !negb_false_iff, !Z.eqb_eq. split.
  - intros [[[[?%dec_stable ?%dec_stable] ?] ?] ?]. done.
  - intros (? & ? & ? & ? & ?). tauto.
Qed.

(** ** Handles *)
Lemma handle_succ_mod h : 1 ≤ h ≤ u16_max → handle_succ h = h mod 65535 + 1.
Proof.
  unfold handle_succ, u16_wrapping_add, u16_max. intros Hh.
  destruct (decide (h = 65535)) as [->|]; [reflexivity|].
  rewrite !Z.mod_small by lia. lia.
Qed.

(** The [i]-th candidate after [n]. *)
Lemma allocate_loop_spec attempts n active :
  1 ≤ n ≤ u16_max →
  let '(n', o) := allocate_loop attempts n active in
  1 ≤ n' ≤ u16_max
  ∧ match o with
    | Some h => 1 ≤ h ≤ u16_max ∧ active !! h = None
    | None => ∀ i, 0 ≤ i < Z.of_nat attempts → is_Some (active !! ((n - 1 + i) mod 65535 + 1))
    end.
Proof.
  revert n. induction attempts as [|k IH]; intros n Hn; cbn [allocate_loop].
  { split; [done|]. intros i Hi. lia. }
  assert (Hs : 1 ≤ handle_succ n ≤ u16_max).
  { rewrite handle_succ_mod by done. pose proof (Z.mod_pos_bound n 65535 ltac:(lia)). unfold u16_max. lia. }
  rewrite (proj2 (Z.eqb_neq n 0)) by lia. simpl.
  case_bool_decide as Hact; simpl.
  - specialize (IH _ Hs). destruct (allocate_loop k (handle_succ n) active) as [n' [h|]]; [done|].
    destruct IH as [Hn' IH]. split; [done|]. intros i Hi.
    destruct (decide (i = 0)) as [->|Hne].
    { replace ((n - 1 + 0) mod 65535 + 1) with n; [done|].
      unfold u16_max in Hn. rewrite Z.mod_small; lia. }
    specialize (IH (i - 1)). rewrite handle_succ_mod in IH by done.
    replace (n mod 65535 + 1 - 1 + (i - 1)) with (n mod 65535 + (i - 1)) in IH by lia.
    rewrite Z.add_mod_idemp_l in IH by lia.
    replace (n + (i - 1)) with (n - 1 + i) in IH by lia. apply IH. lia.
  - split; [done|]. split; [done|]. by apply eq_None_not_Some.
Qed.

Lemma candidates_NoDup n k :
  k ≤ 65535 → NoDup ((λ i, (n - 1 + i) mod 65535 + 1) <$> seqZ 0 k).
Proof.
  intros Hk. apply NoDup_fmap_2_strong; [|apply NoDup_seqZ].
  intros x y Hx%elem_of_seqZ Hy%elem_of_seqZ Heq.
  assert ((n - 1 + x) mod 65535 = (n - 1 + y) mod 65535) as Hm by lia.
  apply (f_equal (λ z, (z - (n - 1)) mod 65535)) in Hm.
  rewrite !Zminus_mod_idemp_l in Hm.
  replace (n - 1 + x - (n - 1)) with x in Hm by lia.
  replace (n - 1 + y - (n - 1)) with y in Hm by lia.
  rewrite !Z.mod_small in Hm by lia. done.
Qed.

(** Some handle is free as long as fewer than 65535 are in use. *)
Lemma allocate_handle_total r :
  1 ≤ sr_next_handle r ≤ u16_max → map_len (sr_active r) < 65535 →
  ∃ n h, allocate_handle r = (set_next_handle n r, Some h)
    ∧ 1 ≤ n ≤ u16_max ∧ 1 ≤ h ≤ u16_max ∧ sr_active r !! h = None.
Proof.
  intros Hn Hsize. unfold allocate_handle.
  pose proof (allocate_loop_spec handle_attempts _ (sr_active r) Hn) as Hspec.
  destruct (allocate_loop _ _ _) as [n [h|]] eqn:Hloop.
  { exists n, h. naive_solver. }
  exfalso. destruct Hspec as [_ Hall].
  set (f := λ i, (sr_next_handle r - 1 + i) mod 65535 + 1) in *.
  pose proof (candidates_NoDup (sr_next_handle r) 65535 ltac:(lia)) as Hnd. fold f in Hnd.
  assert (Hsub : (list_to_set (f <$> seqZ 0 65535) : gset Z) ⊆ dom (sr_active r)).
  { intros h. rewrite elem_of_list_to_set, list_elem_of_fmap.
    intros (i & -> & Hi%elem_of_seqZ). apply elem_of_dom, Hall.
    change (Z.of_nat handle_attempts) with 65536. lia. }
  apply subseteq_size in Hsub. rewrite size_list_to_set in Hsub by done.
  rewrite length_fmap, length_seqZ, size_dom in Hsub. unfold map_len in Hsize. lia.
Qed.

(** ** The invariant is preserved *)
Lemma SessionRegistry_new_wf g e m r :
  0 ≤ m → SessionRegistry_new g e m = Ok r → registry_wf r.
Proof.
  unfold SessionRegistry_new. intros Hm H. destruct (_ || _) eqn:Ht; [done|].
  bool_facts. apply Ok_inj in H as <-. unfold MAX_SESSION_STREAMS in *.
  constructor; simpl; unfold u16_max, MAX_SESSION_STREAMS, map_len;
    rewrite ?map_size_empty; try done; lia.
Qed.

(** Removing authorities. *)
Lemma wf_shrink r p a :
  registry_wf r → p ⊆ sr_prepared r → a ⊆ sr_active r → registry_wf (set_active a (set_prepared p r)).
Proof.
  intros [] Hp Ha. pose proof (map_len_mono _ _ Hp). pose proof (map_len_mono _ _ Ha).
  constructor; simpl; try done; try lia.
  - intros t q Hq. eapply lookup_weaken in Hq; [|done]. by apply wf_prepared0 in Hq.
  - intros h b Hb. eapply lookup_weaken in Hb; [|done]. by apply wf_active0 in Hb.
  - intros h1 h2 a1 a2 H1 H2. eapply lookup_weaken in H1, H2; [|done..]. by apply wf_sessions0.
Qed.

Lemma wf_shrink_active r a : registry_wf r → a ⊆ sr_active r → registry_wf (set_active a r).
Proof. intros. by apply (wf_shrink r (sr_prepared r) a). Qed.

Lemma wf_shrink_prepared r p : registry_wf r → p ⊆ sr_prepared r → registry_wf (set_prepared p r).
Proof. intros. by apply (wf_shrink r p (sr_active r)). Qed.

(** Updating the lease or the bound flag of one active session. *)
Lemma wf_touch r h a a' :
  registry_wf r → sr_active r !! h = Some a →
  as_handle a' = as_handle a → as_prepared a' = as_prepared a →
  registry_wf (set_active (<[h := a']> (sr_active r)) r).
Proof.
  intros [] Ha Hh Hp. constructor; simpl; try done.
  - rewrite map_len_insert_eq by eauto. done.
  - intros h' b. rewrite lookup_insert. case_decide as Heq; [|apply wf_active0].
    intros [= <-]. subst h'. rewrite Hh, Hp. by apply wf_active0.
  - assert (Hs : ∀ h' b, <[h := a']> (sr_active r) !! h' = Some b →
      ∃ c, sr_active r !! h' = Some c ∧ as_prepared b = as_prepared c).
    { intros h' b. rewrite lookup_insert. case_decide; [|eauto]. intros [= <-]. subst. eauto. }
    intros h1 h2 a1 a2 (c1 & H1 & ->)%Hs (c2 & H2 & ->)%Hs. by apply wf_sessions0.
Qed.

Lemma prepare_at_wf r now s f g t : registry_wf r → registry_wf (prepare_at r now s f g t).1.
Proof.
  intros Hwf. unfold prepare_at.
  destruct (_ <=? _) eqn:Hcap; [done|]. destruct (_ || _) eqn:Hz; [done|].
  destruct (map_err _ _) as [name| |] eqn:Hname; [|done..].
  destruct (_ <? len name); [done|]. bool_facts. apply map_err_Ok, SessionName_new_valid in Hname.
  destruct Hwf. constructor; simpl; try done.
  - etrans; [apply Z.add_le_mono_l, map_len_insert_le|lia].
  - intros t' p. rewrite lookup_insert. case_decide; [|apply wf_prepared0].
    intros [= <-]. subst. split; [done|]. by constructor.
Qed.

(** A successful opening, with everything it needed. *)
Lemma open_at_accepts r now b r' resp a :
  registry_wf r → open_at r now b = (r', (resp, Some a)) →
  ∃ p n h, sr_prepared r !! hb_token b = Some p ∧ now < ps_expires_at p
    ∧ (∀ h a, sr_active r !! h = Some a → ps_session (as_prepared a) ≠ hb_session b)
    ∧ binding_differs p b = false
    ∧ 1 ≤ n ≤ u16_max ∧ 1 ≤ h ≤ u16_max ∧ sr_active r !! h = None
    ∧ a = {| as_handle := h; as_prepared := p;
             as_expires_at := instant_plus_secs now (ps_token_ttl_secs p); as_bound := false |}
    ∧ resp = HdqsResponse_accepted h (sr_connection_epoch r)
    ∧ r' = set_active (<[h := a]> (sr_active r))
             (set_next_handle n (set_prepared (delete (hb_token b) (sr_prepared r)) r)).
Proof.
  intros Hwf. unfold open_at. destruct (sr_prepared r !! hb_token b) as [p|] eqn:Hp; [|done].
  destruct (ps_expires_at p <=? now) eqn:He; [done|].
  destruct (map_any _ _) eqn:Hany; [done|].
  destruct (binding_differs p b) eqn:Hd; [done|].
  set (r0 := set_prepared _ r).
  destruct (allocate_handle_total r0) as (n & h & Ha & Hn & Hh & Hf).
  { apply Hwf. }
  { pose proof (wf_capacity _ Hwf). pose proof (wf_max _ Hwf).
    pose proof (map_len_nonneg (sr_prepared r)). unfold MAX_SESSION_STREAMS in *. simpl. lia. }
  rewrite Ha. intros [= <- <- <-]. bool_facts. exists p, n, h. split_and!; try done; try lia.
  intros h' a' Ha'. rewrite map_any_false in Hany. specialize (Hany _ _ Ha'). by bool_facts.
Qed.

(** A refused opening consumes the token and names the reason. *)
Lemma open_at_refuses r now b r' resp :
  registry_wf r → open_at r now b = (r', (resp, None)) →
  r' = set_prepared (delete (hb_token b) (sr_prepared r)) r
  ∧ ¬ admissible r now b
  ∧ ∃ reason, resp = HdqsResponse_rejected reason (sr_connection_epoch r)
    ∧ (reason = TokenMismatch ∨ reason = SessionAlreadyOpen ∨ reason = GenerationMismatch).
Proof.
  intros Hwf. unfold open_at, admissible.
  destruct (sr_prepared r !! hb_token b) as [p|] eqn:Hp.
  2:{ intros [= <- <-]. split.
      - rewrite delete_id by done. by destruct r.
      - split; [naive_solver|]. eauto. }
  destruct (ps_expires_at p <=? now) eqn:He; bool_facts.
  { intros [= <- <-]. split; [done|]. split; [|by eauto].
    intros (q & [= <-] & Hlt & _). lia. }
  destruct (map_any _ _) eqn:Hany.
  { intros [= <- <-]. split; [done|]. split; [|by eauto].
    apply map_any_true in Hany as (h & a & Ha & Hs). bool_facts. naive_solver. }
  destruct (binding_differs p b) eqn:Hd.
  { intros [= <- <-]. split; [done|]. split; [|by eauto].
    intros (q & [= <-] & _ & _ & Hq). apply binding_differs_false in Hq. congruence. }
  set (r0 := set_prepared _ r).
  destruct (allocate_handle_total r0) as (n & h & Ha & _).
  { apply Hwf. }
  { pose proof (wf_capacity _ Hwf). pose proof (wf_max _ Hwf).
    pose proof (map_len_nonneg (sr_prepared r)). unfold MAX_SESSION_STREAMS in *. simpl. lia. }
  by rewrite Ha.
Qed.

Lemma open_at_wf r now b : registry_wf r → registry_wf (open_at r now b).1.
Proof.
  intros Hwf. destruct (open_at r now b) as [r' [resp [a|]]] eqn:Ho; simpl.
  - apply open_at_accepts in Ho
      as (p & n & h & Hp & _ & Hs & Hd & Hn & Hh & Hf & -> & _ & ->); [|done].
    apply binding_differs_false in Hd as (Hsess & _).
    destruct (wf_prepared _ Hwf _ _ Hp) as [Ht Hauth]. destruct Hwf. constructor; simpl; try done.
    + rewrite map_len_delete_Some by eauto.
      etrans; [apply Z.add_le_mono_r, map_len_insert_le|lia].
    + intros t q [_ Hq]%lookup_delete_Some. by apply wf_prepared0.
    + intros h' b'. rewrite lookup_insert. case_decide; [|apply wf_active0].
      intros [= <-]. subst. split; [done|]. done.
    + intros h1 h2 a1 a2. rewrite !lookup_insert.
      repeat case_decide; intros; simplify_eq; simpl in *; try done; subst.
      * exfalso. eapply Hs; [done|]. congruence.
      * exfalso. eapply Hs; [done|]. congruence.
      * by eapply wf_sessions0.
  - apply open_at_refuses in Ho as (-> & _); [|done].
    apply wf_shrink_prepared; [done|]. apply delete_subseteq.
Qed.

Lemma open_request_wf r now q : registry_wf r → registry_wf (open_request r now q).1.
Proof.
  intros Hwf. unfold open_request. destruct (_ !! _); [|done].
  destruct (authority_differs _ _ _ _ _ _); [|by apply open_at_wf].
  apply wf_shrink_prepared; [done|]. apply delete_subseteq.
Qed.

Lemma accept_active_wf r now b : registry_wf r → registry_wf (accept_active r now b).1.
Proof.
  intros Hwf. unfold accept_active. destruct (_ !! _) eqn:Ha; [|done].
  destruct (as_bound _); [done|]. destruct (_ || _); [done|]. by eapply wf_touch.
Qed.

Lemma renew_wf r h t now : registry_wf r → registry_wf (renew r h t now).1.
Proof.
  intros Hwf. unfold renew. destruct (_ !! _) eqn:Ha; [|done].
  destruct (_ || _); [done|]. by eapply wf_touch.
Qed.

Lemma renew_batch_wf r es now : registry_wf r → registry_wf (renew_batch r es now).1.
Proof.
  intros Hwf. unfold renew_batch. destruct (existsb _ _); [done|]. simpl.
  revert r Hwf. induction es as [|e es IH]; intros r Hwf; simpl; [done|]. by apply IH, renew_wf.
Qed.

Lemma foldl_delete_subseteq (hs : list Z) (m : gmap Z ActiveSession) :
  foldl (λ m h, delete h m) m hs ⊆ m.
Proof.
  revert m. induction hs as [|h hs IH]; intros m; simpl; [done|].
  etrans; [apply IH|apply delete_subseteq].
Qed.

Lemma run_op_wf r op : registry_wf r → registry_wf (run_op r op).
Proof.
  intros Hwf. destruct op; simpl.
  - by apply prepare_at_wf.
  - by apply open_at_wf.
  - by apply open_request_wf.
  - by apply accept_active_wf.
  - unfold close_exact. destruct (_ !! _); [|done]. destruct (_ || _); [done|].
    apply wf_shrink_active; [done|]. apply delete_subseteq.
  - apply wf_shrink_active; [done|]. apply delete_subseteq.
  - unfold close_unbound_if_exact. destruct (_ !! _); [|done]. destruct (_ || _); [done|].
    apply wf_shrink_active; [done|]. apply delete_subseteq.
  - apply wf_shrink; [done|apply map_empty_subseteq..].
  - apply wf_shrink_prepared; [done|]. apply map_filter_subseteq.
  - apply (wf_shrink r); [done|apply map_filter_subseteq|apply foldl_delete_subseteq].
  - by apply renew_wf.
  - by apply renew_batch_wf.
Qed.

Lemma run_ops_wf r ops : registry_wf r → registry_wf (run_ops r ops).
Proof.
  revert r. induction ops as [|op ops IH]; intros r Hwf; simpl; [done|]. by apply IH, run_op_wf.
Qed.

(** ** Tokens *)

(** The token a successful preparation inserts. *)
Definition op_prepares (op : registry_op) : option (list byte) :=
  match op with
  | OpPrepare _ _ _ _ token => Some token
  | _ => None
  end.

Lemma open_at_prepared r now b :
  sr_prepared (open_at r now b).1 = delete (hb_token b) (sr_prepared r).
Proof.
  unfold open_at. destruct (_ !! _) eqn:Hp; [|by rewrite delete_id].
  destruct (_ <=? _); [done|]. destruct (map_any _ _); [done|].
  destruct (binding_differs _ _); [done|].
  unfold allocate_handle. destruct (allocate_loop _ _ _) as [n [h|]]; done.
Qed.

Lemma renew_prepared r h t now : sr_prepared (renew r h t now).1 = sr_prepared r.
Proof. unfold renew. destruct (_ !! _); [|done]. by destruct (_ || _). Qed.

(** No operation but a preparation of [t] makes [t] a prepared token again. *)
Lemma run_op_prepared_None r op t :
  sr_prepared r !! t = None → op_prepares op ≠ Some t → sr_prepared (run_op r op) !! t = None.
Proof.
  intros Ht Hop. destruct op; simpl in *.
  - unfold prepare_at. repeat case_match; try done. simpl. rewrite lookup_insert_ne; congruence.
  - rewrite open_at_prepared. apply lookup_delete_None; by right.
  - unfold open_request. destruct (sr_prepared r !! sor_token request); [|done]. destruct (authority_differs _ _ _ _ _ _); simpl.
    + apply lookup_delete_None; by right.
    + rewrite open_at_prepared. apply lookup_delete_None; by right.
  - unfold accept_active. repeat case_match; done.
  - unfold close_exact. repeat case_match; done.
  - done.
  - unfold close_unbound_if_exact. repeat case_match; done.
  - apply lookup_empty.
  - apply map_lookup_filter_None. by left.
  - apply map_lookup_filter_None. by left.
  - by rewrite renew_prepared.
  - unfold renew_batch. destruct (existsb _ _); [done|]. simpl.
    revert r Ht. induction entries as [|e es IH]; intros r Ht; simpl; [done|].
    apply IH. by rewrite renew_prepared.
Qed.

Lemma run_ops_prepared_None r ops t :
  sr_prepared r !! t = None → Forall (λ op, op_prepares op ≠ Some t) ops →
  sr_prepared (run_ops r ops) !! t = None.
Proof.
  intros Ht Hall. revert r Ht. induction Hall as [|op ops Hop _ IH]; intros r Ht; simpl; [done|].
  by apply IH, run_op_prepared_None.
Qed.

(** ** Leases *)
Lemma active_is_valid_at_true r h t now :
  active_is_valid_at r h t now = true ↔
  ∃ a, sr_active r !! h = Some a ∧ ps_token (as_prepared a) = t ∧ now < as_expires_at a.
Proof.
  unfold active_is_valid_at. destruct (sr_active r !! h) as [a|]; [|naive_solver].
  rewrite andb_true_iff, bool_decide_eq_true, Z.ltb_lt. naive_solver.
Qed.

Lemma renew_valid r h t now :
  active_is_valid_at r h t now = true →
  (renew r h t now).2 = true
  ∧ (∀ h', sr_active (renew r h t now).1 !! h' =
       if decide (h = h') then extend_lease now <$> sr_active r !! h' else sr_active r !! h').
Proof.
  intros (a & Ha & Ht & Hn)%active_is_valid_at_true. unfold renew. rewrite Ha.
  rewrite bool_decide_eq_false_2 by tauto. rewrite (proj2 (Z.leb_gt _ _) Hn). simpl.
  split; [done|]. intros h'. rewrite lookup_insert. case_decide; [|done]. subst. by rewrite Ha.
Qed.

(** The lease a renewal grants is live again at the same instant. *)
Lemma extend_lease_valid r h now a :
  registry_wf r → sr_active r !! h = Some a → now < as_expires_at (extend_lease now a).
Proof.
  intros Hwf Ha. destruct (wf_active _ Hwf _ _ Ha) as (_ & _ & Hauth). simpl.
  unfold instant_plus_secs. rewrite (auth_ttl _ _ _ Hauth). unfold SESSION_TOKEN_TTL_SECS. lia.
Qed.

Lemma renew_batch_check r es now :
  existsb (λ e, match sr_active r !! e.1 with
                | None => true
                | Some active => bool_decide (ps_token (as_prepared active) ≠ e.2)
                                 || (as_expires_at active <=? now)
                end) es = negb (forallb (λ e, active_is_valid_at r e.1 e.2 now) es).
Proof.
  induction es as [|[h t] es IH]; simpl; [done|]. rewrite IH, negb_andb. f_equal.
  unfold active_is_valid_at. destruct (sr_active r !! h) as [a|]; [|done].
  rewrite negb_andb, Z.ltb_antisym, negb_involutive. f_equal.
  destruct (decide (ps_token (as_prepared a) = t)).
  - rewrite bool_decide_eq_false_2, bool_decide_eq_true_2 by tauto. done.
  - rewrite bool_decide_eq_true_2, bool_decide_eq_false_2 by tauto. done.
Qed.

Lemma extend_lease_idemp now a : extend_lease now (extend_lease now a) = extend_lease now a.
Proof. done. Qed.

(** Renewing a whole batch of valid entries extends exactly their leases. *)
Lemma renew_all r es now :
  registry_wf r → Forall (λ e, active_is_valid_at r e.1 e.2 now = true) es →
  ∀ h, sr_active (foldl (λ r e, (renew r e.1 e.2 now).1) r es) !! h =
    if decide (h ∈ es.*1) then extend_lease now <$> sr_active r !! h else sr_active r !! h.
Proof.
  intros Hwf Hall. revert r Hwf Hall. induction es as [|[h0 t0] es IH]; intros r Hwf Hall h; simpl.
  { destruct (decide (h ∈ ([] : list Z))) as [Hin|]; [by apply not_elem_of_nil in Hin|done]. }
  apply Forall_cons in Hall as [H0 Hall]. simpl in H0.
  destruct (renew_valid _ _ _ _ H0) as [_ Hl].
  rewrite IH; [|by apply renew_wf|].
  - rewrite Hl. repeat case_decide; rewrite ?elem_of_cons in *; try done; try naive_solver.
    by destruct (sr_active r !! h).
  - apply Forall_forall. intros [h1 t1] Hin. rewrite Forall_forall in Hall. specialize (Hall _ Hin).
    simpl in *. apply active_is_valid_at_true in Hall as (a & Ha & Ht & Hn).
    apply active_is_valid_at_true. rewrite Hl. case_decide; [|eauto].
    rewrite Ha. simpl. exists (extend_lease now a). split; [done|]. split; [done|].
    by eapply extend_lease_valid.
Qed.

(** ** Expiry *)
Lemma elem_of_expired_handles m now h :
  h ∈ expired_handles m now ↔ ∃ a, m !! h = Some a ∧ as_expires_at a ≤ now.
Proof.
  unfold expired_handles. rewrite list_elem_of_omap. split.
  - intros ([k a] & Hin%elem_of_btree_entries & Hs). simpl in Hs.
    destruct (as_expires_at a <=? now) eqn:He; [|done]. bool_facts. naive_solver.
  - intros (a & Ha & He). exists (h, a). split; [by apply elem_of_btree_entries|].
    simpl. by rewrite (proj2 (Z.leb_le _ _) He).
Qed.

Lemma foldl_delete_lookup (hs : list Z) (m : gmap Z ActiveSession) h :
  foldl (λ m h, delete h m) m hs !! h = if decide (h ∈ hs) then None else m !! h.
Proof.
  revert m. induction hs as [|k hs IH]; intros m; simpl; [done|].
  rewrite IH. destruct (decide (h = k)) as [->|].
  - rewrite lookup_delete_eq. repeat case_decide; rewrite ?elem_of_cons in *; naive_solver.
  - rewrite lookup_delete_ne by done. repeat case_decide; rewrite ?elem_of_cons in *; naive_solver.
Qed.

Lemma omap_sorted (l : list (Z * ActiveSession)) now :
  StronglySorted (btree_le id) l →
  StronglySorted Z.le (omap (λ ha, if as_expires_at ha.2 <=? now then Some ha.1 else None) l).
Proof.
  induction 1 as [|[h a] l _ IH Hall]; csimpl; [constructor|].
  destruct (as_expires_at a <=? now); csimpl; [|done]. constructor; [done|].
  apply Forall_forall. intros k ([k' b] & Hin & Hk)%list_elem_of_omap. simpl in Hk.
  destruct (_ <=? _); simplify_eq. rewrite Forall_forall in Hall. apply (Hall _ Hin).
Qed.

(** The token an opening attempt presents. *)
Definition op_opens (op : registry_op) : option (list byte) :=
  match op with
  | OpOpen _ binding => Some (hb_token binding)
  | OpOpenRequest _ request => Some (sor_token request)
  | _ => None
  end.

(** The active session a binding names exactly, token included. *)
Definition names_exactly (b : HdqsBinding) (a : ActiveSession) : Prop :=
  binding_differs (as_prepared a) b = false ∧ ps_token (as_prepared a) = hb_token b.

Lemma open_consumes r op t :
  registry_wf r → op_opens op = Some t → sr_prepared (run_op r op) !! t = None.
Proof.
  intros Hwf Hop. destruct op; simplify_eq/=.
  - rewrite open_at_prepared. apply lookup_delete_eq.
  - unfold open_request. destruct (sr_prepared r !! sor_token request) as [p|] eqn:Hp; [|done].
    destruct (authority_differs _ _ _ _ _ _); simpl; [apply lookup_delete_eq|].
    rewrite open_at_prepared. simpl. destruct (wf_prepared _ Hwf _ _ Hp) as [-> _].
    apply lookup_delete_eq.
Qed.

Lemma exact_check_false b a :
  binding_differs (as_prepared a) b
    || bool_decide (ps_token (as_prepared a) ≠ hb_token b) = false ↔ names_exactly b a.
Proof.
  unfold names_exactly. rewrite orb_false_iff, bool_decide_eq_false. split; [|tauto].
  intros [? ?%dec_stable]. done.
Qed.

(** * Properties *)

(** C2. The registry invariant.  Whatever operations run on a registry created for one
    connection, the prepared and active authorities together never exceed the configured
    maximum (at most 64), every authority carries the registry's own generation and epoch
    and a valid session name, handles are non-zero 16-bit numbers, and no two active
    sessions have the same name. *)
Theorem registry_invariant g e m r ops :
  0 ≤ m → SessionRegistry_new g e m = Ok r → registry_wf (run_ops r ops).
Proof. intros Hm Hnew. eapply run_ops_wf, SessionRegistry_new_wf; done. Qed.

Lemma registry_invariant_witness :
  ∃ r, SessionRegistry_new 1 2 3 = Ok r
    ∧ registry_wf (run_ops r [OpPrepare 0 (str_lit "work") (replicate 32 x03) 4 (replicate 32 x05)]).
Proof.
  eexists. split; [reflexivity|].
  apply (registry_invariant 1 2 3); [lia|reflexivity].
Defined.

(** Opening a session.  On a well-formed registry a binding is accepted exactly when
    it is admissible: its token names an unexpired prepared authority, it repeats every
    field of that authority, and no active session has its name.  The accepted session
    gets a fresh non-zero handle and a lease of 90 seconds; a refusal leaves the active
    sessions alone.  Either way the token is consumed, and running out of handles never
    happens. *)
Lemma open_at_functional r now b :
  registry_wf r →
  match open_at r now b with
  | (r', (resp, Some a)) =>
      admissible r now b
      ∧ sr_prepared r !! hb_token b = Some (as_prepared a)
      ∧ sr_active r !! as_handle a = None ∧ 1 ≤ as_handle a ≤ u16_max
      ∧ as_bound a = false ∧ as_expires_at a = instant_plus_secs now 90
      ∧ resp = HdqsResponse_accepted (as_handle a) (sr_connection_epoch r)
      ∧ sr_active r' = <[as_handle a := a]> (sr_active r)
      ∧ sr_prepared r' = delete (hb_token b) (sr_prepared r)
  | (r', (resp, None)) =>
      ¬ admissible r now b
      ∧ r' = set_prepared (delete (hb_token b) (sr_prepared r)) r
      ∧ ∃ reason, resp = HdqsResponse_rejected reason (sr_connection_epoch r)
        ∧ (reason = TokenMismatch ∨ reason = SessionAlreadyOpen ∨ reason = GenerationMismatch)
  end.
Proof.
  intros Hwf. destruct (open_at r now b) as [r' [resp [a|]]] eqn:Ho.
  - apply open_at_accepts in Ho
      as (p & n & h & Hp & Hlt & Hs & Hd & Hn & Hh & Hf & -> & -> & ->); [|done].
    apply binding_differs_false in Hd. destruct (wf_prepared _ Hwf _ _ Hp) as [_ Hauth].
    simpl. rewrite (auth_ttl _ _ _ Hauth). split_and!; try done; try lia. by exists p.
  - apply open_at_refuses in Ho as (-> & Hadm & Hr); done.
Qed.

Definition demo_registry : SessionRegistry :=
  {| sr_relay_generation := 1; sr_connection_epoch := 2; sr_max_sessions := 3;
     sr_next_handle := 1; sr_prepared := ∅; sr_active := ∅ |}.

Lemma demo_registry_wf : registry_wf demo_registry.
Proof. apply (SessionRegistry_new_wf 1 2 3); [lia|reflexivity]. Qed.

Definition demo_binding : HdqsBinding :=
  {| hb_session_handle := 1; hb_configuration_generation := 4; hb_relay_generation := 1;
     hb_connection_epoch := 2; hb_session := str_lit "work";
     hb_fingerprint := replicate 32 x03; hb_token := replicate 32 x05 |}.

Definition demo_prepare : registry_op :=
  OpPrepare 0 (str_lit "work") (replicate 32 x03) 4 (replicate 32 x05).

Lemma open_at_functional_witness :
  (open_at (run_op demo_registry demo_prepare) 0 demo_binding).2.1 = HdqsResponse_accepted 1 2
  ∧ admissible (run_op demo_registry demo_prepare) 0 demo_binding.
Proof.
  split; [vm_compute; reflexivity|].
  pose proof (open_at_functional (run_op demo_registry demo_prepare) 0 demo_binding
    (run_op_wf _ _ demo_registry_wf)) as H.
  destruct (open_at _ _ _) as [r' [resp [a|]]] eqn:Ho; [apply H|].
  exfalso. vm_compute in Ho. discriminate Ho.
Defined.

(** A session token is single use.  After any opening attempt with a token, accepted
    or refused, and any further operations that do not prepare that same token again,
    every opening with the token is refused as a token mismatch. *)
Lemma session_token_single_use r op t ops now b :
  registry_wf r → op_opens op = Some t → Forall (λ op, op_prepares op ≠ Some t) ops →
  hb_token b = t →
  let r' := run_ops (run_op r op) ops in
  (open_at r' now b).2 = (HdqsResponse_rejected TokenMismatch (sr_connection_epoch r'), None).
Proof.
  intros Hwf Hop Hops <-. cbn zeta. unfold open_at.
  by rewrite (run_ops_prepared_None _ _ _ (open_consumes _ _ _ Hwf Hop) Hops).
Qed.

(** A session stream is bound at most once.  [accept_active] accepts exactly when the
    named handle is active, unbound, unexpired, and the binding repeats its authority and
    token; it then changes only the bound flag of that handle, and every later binding of
    the handle is refused as already open. *)
Lemma stream_bound_once r now b :
  let '(r', resp) := accept_active r now b in
  (hr_kind resp = Accepted ↔
     ∃ a, sr_active r !! hb_session_handle b = Some a ∧ as_bound a = false
       ∧ names_exactly b a ∧ now < as_expires_at a)
  ∧ (hr_kind resp = Accepted →
       sr_prepared r' = sr_prepared r
       ∧ (∀ h, h ≠ hb_session_handle b → sr_active r' !! h = sr_active r !! h)
       ∧ ∀ now' b', hb_session_handle b' = hb_session_handle b →
           accept_active r' now' b'
           = (r', HdqsResponse_rejected SessionAlreadyOpen (sr_connection_epoch r)))
  ∧ (hr_kind resp = Rejected → r' = r).
Proof.
  unfold accept_active at 1.
  destruct (sr_active r !! hb_session_handle b) as [a|] eqn:Ha; [|simpl; naive_solver].
  destruct (as_bound a) eqn:Hb; [simpl; naive_solver congruence|].
  destruct (_ || (_ <=? _)) eqn:Hd; simpl.
  - split; [|done]. split; [done|]. intros (a' & [= <-] & _ & Hx%exact_check_false & Hlt).
    rewrite Hx, (proj2 (Z.leb_gt _ _) Hlt) in Hd. done.
  - apply orb_false_iff in Hd as [Hx%exact_check_false Hlt]. bool_facts.
    split; [split; [intros _; by exists a|done]|]. split; [|done]. intros _.
    split; [done|]. split; [intros h Hh; by rewrite lookup_insert_ne by done|].
    intros now' b' Hh. unfold accept_active. simpl. by rewrite Hh, lookup_insert_eq.
Qed.

(** A heartbeat batch is renewed atomically.  If one entry does not name an active
    session with its token and an unexpired lease, nothing changes; otherwise the lease of
    exactly the named handles is extended to 90 seconds from now. *)
Lemma renew_batch_atomic r es now :
  registry_wf r →
  let '(r', renewed) := renew_batch r es now in
  renewed = forallb (λ e, active_is_valid_at r e.1 e.2 now) es
  ∧ (renewed = false → r' = r)
  ∧ (renewed = true → ∀ h,
       active r' h = if decide (h ∈ es.*1) then extend_lease now <$> active r h else active r h).
Proof.
  intros Hwf. unfold renew_batch. rewrite renew_batch_check.
  destruct (forallb _ es) eqn:Hall; simpl; [|done]. split; [done|]. split; [done|].
  intros _ h. apply renew_all; [done|]. apply Forall_forall. intros e He.
  rewrite forallb_forall in Hall. by apply Hall, list_elem_of_In.
Qed.

(** Closing is isolated and expiry is exact.  The two exact closing operations remove
    the session their binding names exactly (the second only when it is not bound) and
    nothing else; the expiry sweep returns, in increasing order, exactly the handles whose
    lease has ended, and keeps exactly the unexpired authorities. *)
Lemma close_and_reap_exact r b now :
  (let '(r', closed) := close_exact r b in
   (closed = true ↔ ∃ a, sr_active r !! hb_session_handle b = Some a ∧ names_exactly b a)
   ∧ sr_active r' = (if closed then delete (hb_session_handle b) (sr_active r) else sr_active r))
  ∧ (let '(r', closed) := close_unbound_if_exact r b in
     (closed = true ↔
        ∃ a, sr_active r !! hb_session_handle b = Some a ∧ as_bound a = false ∧ names_exactly b a)
     ∧ sr_active r' = (if closed then delete (hb_session_handle b) (sr_active r) else sr_active r))
  ∧ (let '(r', handles) := reap_expired_handles r now in
     StronglySorted Z.le handles
     ∧ (∀ h, h ∈ handles ↔ ∃ a, sr_active r !! h = Some a ∧ as_expires_at a ≤ now)
     ∧ (∀ h a, sr_active r' !! h = Some a ↔ sr_active r !! h = Some a ∧ now < as_expires_at a)
     ∧ (∀ t p, sr_prepared r' !! t = Some p ↔ sr_prepared r !! t = Some p ∧ now < ps_expires_at p)).
Proof.
  split; [|split].
  - unfold close_exact. destruct (sr_active r !! hb_session_handle b) as [a|] eqn:Ha; [|naive_solver].
    destruct (_ || _) eqn:Hd; simpl.
    + split; [|done]. split; [done|]. intros (a' & [= <-] & Hx%exact_check_false). congruence.
    + apply exact_check_false in Hd. naive_solver.
  - unfold close_unbound_if_exact.
    destruct (sr_active r !! hb_session_handle b) as [a|] eqn:Ha; [|naive_solver].
    rewrite <-orb_assoc. destruct (as_bound a || _) eqn:Hd; simpl.
    + split; [|done]. split; [done|]. intros (a' & [= <-] & Hb & Hx%exact_check_false).
      rewrite Hb, Hx in Hd. done.
    + apply orb_false_iff in Hd as [Hb Hd%exact_check_false]. naive_solver.
  - unfold reap_expired_handles. simpl. split; [|split; [|split]].
    + apply omap_sorted, btree_entries_sorted.
    + apply elem_of_expired_handles.
    + intros h a. rewrite foldl_delete_lookup. case_decide as Hin.
      * apply elem_of_expired_handles in Hin as (a' & Ha' & He). split; [done|].
        intros [Ha Hlt]. simplify_eq. lia.
      * split; [|tauto]. intros Ha. split; [done|].
        destruct (decide (now < as_expires_at a)); [done|]. destruct Hin.
        apply elem_of_expired_handles. exists a. split; [done|lia].
    + intros t p. rewrite map_lookup_filter_Some. done.
Qed.

(** C3. A prepared authority is used once.  After any opening attempt with a token, accepted
    or refused, and any further operations that do not prepare that same token again, every
    opening with the token is refused as a token mismatch.  A session stream is bound at
    most once: [accept_active] accepts exactly when the named handle is active, unbound,
    unexpired and the binding repeats its authority and token; it then changes only the
    bound flag of that handle, and every later binding of it is refused as already open. *)
Theorem session_authority_single_use r op t ops now b :
  registry_wf r → op_opens op = Some t → Forall (λ op, op_prepares op ≠ Some t) ops →
  (hb_token b = t →
   let r' := run_ops (run_op r op) ops in
   (open_at r' now b).2 = (HdqsResponse_rejected TokenMismatch (sr_connection_epoch r'), None))
  ∧ (let '(r', resp) := accept_active r now b in
     (hr_kind resp = Accepted ↔
        ∃ a, sr_active r !! hb_session_handle b = Some a ∧ as_bound a = false
          ∧ names_exactly b a ∧ now < as_expires_at a)
     ∧ (hr_kind resp = Accepted →
          sr_prepared r' = sr_prepared r
          ∧ (∀ h, h ≠ hb_session_handle b → sr_active r' !! h = sr_active r !! h)
          ∧ ∀ now' b', hb_session_handle b' = hb_session_handle b →
              accept_active r' now' b'
              = (r', HdqsResponse_rejected SessionAlreadyOpen (sr_connection_epoch r)))
     ∧ (hr_kind resp = Rejected → r' = r)).
Proof.
  intros Hwf Hop Hops. split; [by apply session_token_single_use|apply stream_bound_once].
Qed.

Lemma session_authority_single_use_witness :
  (open_at (run_ops (run_op (run_op demo_registry demo_prepare) (OpOpen 0 demo_binding)) [OpClose 1])
     1 demo_binding).2 = (HdqsResponse_rejected TokenMismatch 2, None).
Proof.
  apply (session_authority_single_use (run_op demo_registry demo_prepare) (OpOpen 0 demo_binding)
    (replicate 32 x05) [OpClose 1]).
  - apply run_op_wf, demo_registry_wf.
  - reflexivity.
  - repeat constructor; discriminate.
  - reflexivity.
Defined.

(** Leases and closings are exact.  A heartbeat batch is renewed atomically: if one
    entry does not name an active session with its token and an unexpired lease, nothing
    changes; otherwise the lease of exactly the named handles is extended to 90 seconds from
    now.  The two exact closing operations remove the session their binding names exactly
    (the second only when it is not bound) and nothing else; the expiry sweep returns, in
    increasing order, exactly the handles whose lease has ended, and keeps exactly the
    unexpired authorities. *)
Lemma leases_and_closings_exact r es b now :
  registry_wf r →
  (let '(r', renewed) := renew_batch r es now in
   renewed = forallb (λ e, active_is_valid_at r e.1 e.2 now) es
   ∧ (renewed = false → r' = r)
   ∧ (renewed = true → ∀ h,
        active r' h = if decide (h ∈ es.*1) then extend_lease now <$> active r h else active r h))
  ∧ (let '(r', closed) := close_exact r b in
     (closed = true ↔ ∃ a, sr_active r !! hb_session_handle b = Some a ∧ names_exactly b a)
     ∧ sr_active r' = (if closed then delete (hb_session_handle b) (sr_active r) else sr_active r))
  ∧ (let '(r', closed) := close_unbound_if_exact r b in
     (closed = true ↔
        ∃ a, sr_active r !! hb_session_handle b = Some a ∧ as_bound a = false ∧ names_exactly b a)
     ∧ sr_active r' = (if closed then delete (hb_session_handle b) (sr_active r) else sr_active r))
  ∧ (let '(r', handles) := reap_expired_handles r now in
     StronglySorted Z.le handles
     ∧ (∀ h, h ∈ handles ↔ ∃ a, sr_active r !! h = Some a ∧ as_expires_at a ≤ now)
     ∧ (∀ h a, sr_active r' !! h = Some a ↔ sr_active r !! h = Some a ∧ now < as_expires_at a)
     ∧ (∀ t p, sr_prepared r' !! t = Some p ↔ sr_prepared r !! t = Some p ∧ now < ps_expires_at p)).
Proof. intros Hwf. split; [by apply renew_batch_atomic|apply close_and_reap_exact]. Qed.

Lemma leases_and_closings_exact_witness :
  let r := run_ops demo_registry [demo_prepare; OpOpen 0 demo_binding] in
  (renew_batch r [(1, replicate 32 x05)] 5).2
  = forallb (λ e, active_is_valid_at r e.1 e.2 5) [(1, replicate 32 x05)].
Proof.
  intros r. pose proof (leases_and_closings_exact r [(1, replicate 32 x05)] demo_binding 5) as H.
  destruct (renew_batch r _ 5) as [r' ok]. apply H. apply run_ops_wf, demo_registry_wf.
Defined.
