(* ===== verification/SessionOwners.v ===== *)
(** * Sessions and their owners

    The server and the iroh endpoint share one discipline: a session of the registry is bound
    by one stream task, its owner, which names it exactly and closes it when it ends.
    [sessions_owned] says that the sessions of a registry and the owners fit together; both
    [SessionStreams] and [QrmStreams] keep it. *)
From S2P Require Export SessionRegistry.

(** [owners]: the binding each task serves; [tokens]: the tokens drawn so far; [lost]: the
    bindings whose owner ended without closing them. *)
Record sessions_owned (r : SessionRegistry) (owners : gmap nat HdqsBinding) (tokens : list (list byte))
    (lost : list HdqsBinding) : Prop := {
  so_registry : registry_wf r;
  so_drawn : ∀ t, is_Some (sr_prepared r !! t) → t ∈ tokens;
  so_active_drawn : ∀ h a, sr_active r !! h = Some a → ps_token (as_prepared a) ∈ tokens;
  so_owner_drawn : ∀ id b, owners !! id = Some b → hb_token b ∈ tokens;
  so_consumed : ∀ h a, sr_active r !! h = Some a → sr_prepared r !! ps_token (as_prepared a) = None;
  so_owner_consumed : ∀ id b, owners !! id = Some b → sr_prepared r !! hb_token b = None;
  so_active_tokens : ∀ h1 h2 a1 a2, sr_active r !! h1 = Some a1 → sr_active r !! h2 = Some a2 →
    ps_token (as_prepared a1) = ps_token (as_prepared a2) → h1 = h2;
  so_link : ∀ id b h a, owners !! id = Some b → sr_active r !! h = Some a →
    ps_token (as_prepared a) = hb_token b → as_bound a = true;
  so_once : ∀ id1 id2 b1 b2, owners !! id1 = Some b1 → owners !! id2 = Some b2 →
    hb_token b1 = hb_token b2 → id1 = id2;
  so_served : ∀ h a, sr_active r !! h = Some a → as_bound a = true →
    ∃ b, hb_session_handle b = h ∧ names_exactly b a ∧ (b ∈ lost ∨ ∃ id, owners !! id = Some b);
}.

(** The owners among the tasks of a connection. *)
Definition owners_of {T} (serving : T → option HdqsBinding) (tasks : gmap nat T) : gmap nat HdqsBinding :=
  omap serving tasks.

(** What no call on a registry changes. *)
Definition registry_identity (r : SessionRegistry) : Z * Z * Z :=
  (sr_relay_generation r, sr_connection_epoch r, sr_max_sessions r).

(** * Facts *)

(** ** Owners among tasks *)
Section Owners.
Context {T : Type} (serving : T → option HdqsBinding).

Lemma owners_of_Some tasks id b :
  owners_of serving tasks !! id = Some b ↔ ∃ t, tasks !! id = Some t ∧ serving t = Some b.
Proof. unfold owners_of. rewrite lookup_omap. destruct (tasks !! id); naive_solver. Qed.

Lemma owners_of_delete tasks id : owners_of serving (delete id tasks) = delete id (owners_of serving tasks).
Proof. apply omap_delete. Qed.

Lemma owners_of_insert tasks id t b :
  serving t = Some b → owners_of serving (<[id := t]> tasks) = <[id := b]> (owners_of serving tasks).
Proof. intros. by apply omap_insert_Some. Qed.

Lemma owners_of_idle tasks id t :
  serving t = None → owners_of serving (<[id := t]> tasks) = delete id (owners_of serving tasks).
Proof. intros. by apply omap_insert_None. Qed.

(** A task that goes on serves what it served. *)
Lemma owners_of_keep tasks id t0 t :
  tasks !! id = Some t0 → serving t = serving t0 →
  owners_of serving (<[id := t]> tasks) = owners_of serving tasks.
Proof.
  intros Hid Hs. apply map_eq. intros i. unfold owners_of. rewrite !lookup_omap.
  destruct (decide (i = id)) as [->|]; [rewrite lookup_insert_eq, Hid; simpl; congruence|].
  by rewrite lookup_insert_ne.
Qed.

Lemma owners_of_lazy tasks id t0 :
  tasks !! id = Some t0 → serving t0 = None → delete id (owners_of serving tasks) = owners_of serving tasks.
Proof.
  intros Hid Hs. apply delete_id, eq_None_not_Some. intros [b (t & ? & ?)%owners_of_Some]. congruence.
Qed.
End Owners.

(** ** The calls on the registry *)
Lemma close_exact_spec r b :
  sr_prepared (close_exact r b).1 = sr_prepared r
  ∧ sr_max_sessions (close_exact r b).1 = sr_max_sessions r
  ∧ ∀ h a, sr_active (close_exact r b).1 !! h = Some a ↔
      sr_active r !! h = Some a ∧ (h = hb_session_handle b → ¬ names_exactly b a).
Proof.
  unfold close_exact. destruct (sr_active r !! hb_session_handle b) as [a0|] eqn:Ha0.
  2:{ simpl. split_and!; try done. intros h a. split; [|tauto]. intros Ha. split; [done|]. intros ->. congruence. }
  destruct (_ || _) eqn:Hd; simpl.
  - split_and!; try done. intros h a. split; [|tauto]. intros Ha. split; [done|]. intros -> Hn.
    apply exact_check_false in Hn. simpl in Ha. rewrite Ha0 in Ha. injection Ha as <-. congruence.
  - apply exact_check_false in Hd. split_and!; try done. intros h a. rewrite lookup_delete_Some. split.
    + intros [Hne Ha]. split; [done|]. intros ->. done.
    + intros [Ha Hn]. split; [|done]. intros <-. rewrite Ha0 in Ha. injection Ha as <-. by apply Hn.
Qed.

Lemma accept_active_cases r now b r' resp :
  accept_active r now b = (r', resp) →
  (hr_kind resp = Rejected ∧ r' = r)
  ∨ (∃ a, sr_active r !! hb_session_handle b = Some a ∧ as_bound a = false ∧ names_exactly b a
      ∧ now < as_expires_at a ∧ resp = HdqsResponse_accepted (as_handle a) (sr_connection_epoch r)
      ∧ r' = set_active (<[hb_session_handle b := mark_bound a]> (sr_active r)) r).
Proof.
  unfold accept_active. destruct (sr_active r !! hb_session_handle b) as [a|]; [|intros [= <- <-]; by left].
  destruct (as_bound a) eqn:Hb; [intros [= <- <-]; by left|].
  destruct (_ || (_ <=? _)) eqn:Hd; intros [= <- <-]; [by left|right].
  apply orb_false_iff in Hd as [Hx%exact_check_false Hlt]. bool_facts. by exists a.
Qed.

Lemma prepare_at_Ok r now s f g t r' p :
  prepare_at r now s f g t = (r', Ok p) →
  g ≠ 0 ∧ t ≠ zeros 32 ∧ SessionName_new s = Ok (ps_session p)
  ∧ p = {| ps_session := ps_session p; ps_fingerprint := f; ps_configuration_generation := g;
           ps_relay_generation := sr_relay_generation r; ps_connection_epoch := sr_connection_epoch r;
           ps_token := t; ps_token_ttl_secs := SESSION_TOKEN_TTL_SECS;
           ps_expires_at := instant_plus_secs now SESSION_TOKEN_TTL_SECS |}
  ∧ r' = set_prepared (<[t := p]> (sr_prepared r)) r.
Proof.
  unfold prepare_at. destruct (_ <=? _); [done|]. destruct (_ || _) eqn:Hz; [done|].
  destruct (map_err _ _) as [name| |] eqn:Hname; [|done..]. apply map_err_Ok in Hname.
  destruct (_ <? len name); [done|]. intros [= <- <-]. bool_facts. by split_and!.
Qed.

Lemma authority_differs_false p s f g rg e :
  authority_differs p s f g rg e = false →
  ps_session p = s ∧ ps_fingerprint p = f ∧ ps_configuration_generation p = g
  ∧ ps_relay_generation p = rg ∧ ps_connection_epoch p = e.
Proof. intros H. by apply (binding_differs_false p (Build_HdqsBinding 1 g rg e s f [])). Qed.

(** Opening on a well-formed registry either moves one prepared authority to a new
    handle, or only loses prepared authorities. *)
Lemma open_request_cases r now q r' resp o :
  registry_wf r → open_request r now q = (r', (resp, o)) →
  match o with
  | Some a => sr_prepared r !! sor_token q = Some (as_prepared a)
      ∧ authority_differs (as_prepared a) (sor_session q) (sor_fingerprint q)
          (sor_configuration_generation q) (sor_relay_generation q) (sor_connection_epoch q) = false
      ∧ ps_token (as_prepared a) = sor_token q ∧ now < ps_expires_at (as_prepared a)
      ∧ 1 ≤ as_handle a ≤ u16_max ∧ sr_active r !! as_handle a = None ∧ as_bound a = false
      ∧ as_expires_at a = instant_plus_secs now (ps_token_ttl_secs (as_prepared a))
      ∧ sr_active r' = <[as_handle a := a]> (sr_active r)
      ∧ sr_prepared r' = delete (sor_token q) (sr_prepared r)
  | None => sr_active r' = sr_active r ∧ sr_prepared r' = delete (sor_token q) (sr_prepared r)
      ∧ ∃ reason, resp = HdqsResponse_rejected reason (sr_connection_epoch r)
  end.
Proof.
  intros Hwf. unfold open_request. destruct (sr_prepared r !! sor_token q) as [p|] eqn:Hp.
  2:{ intros [= <- <- <-]. rewrite delete_id by done. eauto. }
  destruct (authority_differs _ _ _ _ _ _) eqn:Hd; [intros [= <- <- <-]; simpl; eauto|].
  destruct (wf_prepared _ Hwf _ _ Hp) as [Ht _]. intros Ho. destruct o as [a|].
  - apply open_at_accepts in Ho as (p' & n & h & Hp' & Hlt & _ & _ & _ & Hh & Hf & -> & _ & ->); [|done].
    simpl in *. rewrite Ht, Hp in Hp'. injection Hp' as <-. rewrite ?Ht. split_and!; try done; lia.
  - apply open_at_refuses in Ho as (-> & _ & reason & -> & _); [|done]. simpl. rewrite Ht. eauto.
Qed.

Lemma open_request_max r now q : sr_max_sessions (open_request r now q).1 = sr_max_sessions r.
Proof.
  unfold open_request. destruct (_ !! _); [|done]. destruct (authority_differs _ _ _ _ _ _); [done|].
  unfold open_at. simpl. destruct (_ !! _); [|done]. destruct (_ <=? _); [done|].
  destruct (map_any _ _); [done|]. destruct (binding_differs _ _); [done|].
  unfold allocate_handle. by destruct (allocate_loop _ _ _) as [n [h|]].
Qed.


(** ** What keeps the sessions owned *)

Lemma sessions_owned_new relay_generation connection_epoch max_sessions r :
  0 ≤ max_sessions → SessionRegistry_new relay_generation connection_epoch max_sessions = Ok r →
  sessions_owned r ∅ [] [] ∧ sr_max_sessions r = max_sessions ∧ sr_prepared r = ∅ ∧ sr_active r = ∅.
Proof.
  intros Hm Hr. pose proof (SessionRegistry_new_wf _ _ _ _ Hm Hr) as Hwf.
  assert (sr_prepared r = ∅ ∧ sr_active r = ∅ ∧ sr_max_sessions r = max_sessions) as (Hp & Ha & Hmax).
  { revert Hr. unfold SessionRegistry_new. destruct (_ || _); [done|]. by intros [= <-]. }
  split; [|done]. split; rewrite ?Hp, ?Ha; try done; try (intros; by rewrite lookup_empty in *).
Qed.

(** Changes that add neither sessions nor owners. *)
Lemma sessions_owned_shrink r owners tokens lost r' owners' lost' :
  sessions_owned r owners tokens lost → registry_wf r' →
  owners' ⊆ owners →
  (∀ t, is_Some (sr_prepared r' !! t) → is_Some (sr_prepared r !! t)) →
  (∀ h a, sr_active r' !! h = Some a → sr_active r !! h = Some a) →
  (∀ h a b, sr_active r' !! h = Some a → hb_session_handle b = h → names_exactly b a →
    b ∈ lost ∨ (∃ id, owners !! id = Some b) → b ∈ lost' ∨ ∃ id, owners' !! id = Some b) →
  sessions_owned r' owners' tokens lost'.
Proof.
  intros [] Hreg Ho Hp Ha Hserved.
  assert (Hown : ∀ id b, owners' !! id = Some b → owners !! id = Some b) by (intros; by eapply lookup_weaken).
  assert (Hnone : ∀ t, sr_prepared r !! t = None → sr_prepared r' !! t = None).
  { intros t Hn. apply eq_None_not_Some. intros Hs%Hp. by apply eq_None_not_Some in Hn. }
  split; try done; eauto.
  intros h a H Hb. destruct (so_served0 _ _ (Ha _ _ H) Hb) as (b & Hh & Hx & Hor). exists b. eauto.
Qed.

(** Changes of the registry alone. *)
Lemma sessions_owned_less r owners tokens lost r' :
  sessions_owned r owners tokens lost → registry_wf r' →
  (∀ t, is_Some (sr_prepared r' !! t) → is_Some (sr_prepared r !! t)) →
  (∀ h a, sr_active r' !! h = Some a → sr_active r !! h = Some a) →
  sessions_owned r' owners tokens lost.
Proof. intros. by eapply sessions_owned_shrink. Qed.

(** One drawn token becomes a prepared authority. *)
Lemma sessions_owned_prepare r owners tokens lost r' token p :
  sessions_owned r owners tokens lost →
  (∀ t, is_Some (sr_prepared r' !! t) → is_Some (sr_prepared r !! t)) → sr_active r' = sr_active r →
  token ∉ tokens → registry_wf (set_prepared (<[token := p]> (sr_prepared r')) r') →
  sessions_owned (set_prepared (<[token := p]> (sr_prepared r')) r') owners (token :: tokens) lost.
Proof.
  intros Hso Hp Ha Hfresh Hreg. pose proof Hso as [].
  assert (Hnone : ∀ t, t ∈ tokens → sr_prepared r !! t = None → <[token := p]> (sr_prepared r') !! t = None).
  { intros t Ht Hn. rewrite lookup_insert_ne by (intros ->; done).
    apply eq_None_not_Some. intros Hs%Hp. by apply eq_None_not_Some in Hn. }
  split; simpl; rewrite ?Ha; try done.
  - intros t [q Hq]. apply lookup_insert_Some in Hq as [[<- _]|[_ Hq]]; [by left|]. right. apply so_drawn0, Hp. eauto.
  - intros h a H. right. eauto.
  - intros id b H. right. eauto.
  - intros h a H. apply Hnone; eauto.
  - intros id b H. apply Hnone; eauto.
Qed.

(** A token that is drawn and not used. *)
Lemma sessions_owned_draw r owners tokens lost token :
  sessions_owned r owners tokens lost → sessions_owned r owners (token :: tokens) lost.
Proof. intros []. split; try done; intros; right; eauto. Qed.

(** A prepared authority becomes an active one. *)
Lemma sessions_owned_open r owners tokens lost r' a :
  sessions_owned r owners tokens lost → registry_wf r' →
  sr_prepared r !! ps_token (as_prepared a) = Some (as_prepared a) →
  sr_active r !! as_handle a = None → as_bound a = false →
  sr_active r' = <[as_handle a := a]> (sr_active r) →
  sr_prepared r' = delete (ps_token (as_prepared a)) (sr_prepared r) →
  sessions_owned r' owners tokens lost.
Proof.
  intros Hso Hr Hpa Hnew Hub Ha Hp. pose proof Hso as []. set (t0 := ps_token (as_prepared a)) in *.
  assert (Hnone : ∀ t, sr_prepared r !! t = None → sr_prepared r' !! t = None).
  { intros t Ht. rewrite Hp. apply lookup_delete_None. by right. }
  assert (Hact : ∀ h a', sr_active r !! h = Some a' → ps_token (as_prepared a') ≠ t0).
  { intros h a' H Ht. apply so_consumed0 in H. congruence. }
  split; try done.
  - intros t [q Hq]. rewrite Hp in Hq. apply lookup_delete_Some in Hq as [_ Hq]. eauto.
  - intros h a'. rewrite Ha. intros [[_ <-]|[_ H]]%lookup_insert_Some; [apply so_drawn0; eauto|eauto].
  - intros h a'. rewrite Ha. intros [[_ <-]|[_ H]]%lookup_insert_Some; [|eauto].
    rewrite Hp. apply lookup_delete_eq.
  - intros id b H. eauto.
  - intros h1 h2 a1 a2. rewrite Ha.
    intros [[<- <-]|[_ H1]]%lookup_insert_Some [[<- <-]|[_ H2]]%lookup_insert_Some Ht; [done|..|eauto].
    + by destruct (Hact _ _ H2).
    + by destruct (Hact _ _ H1).
  - intros id b h a' Hid. rewrite Ha. intros [[_ <-]|[_ H]]%lookup_insert_Some Ht; [|eauto].
    pose proof (so_owner_consumed0 _ _ Hid). unfold t0 in *. congruence.
  - intros h a'. rewrite Ha. intros [[_ <-]|[_ H]]%lookup_insert_Some Hb; [congruence|eauto].
Qed.

(** An unbound session gets its owner. *)
Lemma sessions_owned_accept r owners tokens lost id b a :
  sessions_owned r owners tokens lost →
  sr_active r !! hb_session_handle b = Some a → as_bound a = false → names_exactly b a →
  owners !! id = None →
  registry_wf (set_active (<[hb_session_handle b := mark_bound a]> (sr_active r)) r) →
  sessions_owned (set_active (<[hb_session_handle b := mark_bound a]> (sr_active r)) r)
    (<[id := b]> owners) tokens lost.
Proof.
  intros Hso Ha Hub Hx Hid0 Hreg. pose proof Hso as [].
  assert (Hact : ∀ h a', <[hb_session_handle b := mark_bound a]> (sr_active r) !! h = Some a' →
    ∃ a0, sr_active r !! h = Some a0 ∧ as_prepared a' = as_prepared a0
      ∧ (h = hb_session_handle b ∧ a0 = a ∧ a' = mark_bound a ∨ h ≠ hb_session_handle b ∧ a' = a0)).
  { intros h a' [[<- <-]|[Hne H]]%lookup_insert_Some; [exists a|exists a'].
    - split_and!; [done..|]. by left.
    - split_and!; [done..|]. right. by split. }
  assert (Htok : hb_token b = ps_token (as_prepared a)) by (symmetry; apply Hx).
  assert (Hno : ∀ id' b', owners !! id' = Some b' → hb_token b' ≠ hb_token b).
  { intros id' b' Hid' Heq. rewrite Htok in Heq. pose proof (so_link0 _ _ _ _ Hid' Ha (eq_sym Heq)). congruence. }
  split; simpl; try done.
  - intros h a' (a0 & H & -> & _)%Hact. eauto.
  - intros id' b' [[<- <-]|[_ H]]%lookup_insert_Some; [|eauto]. rewrite Htok. eauto.
  - intros h a' (a0 & H & -> & _)%Hact. eauto.
  - intros id' b' [[<- <-]|[_ H]]%lookup_insert_Some; [|eauto]. rewrite Htok. eauto.
  - intros h1 h2 a1 a2 (a3 & H1 & -> & _)%Hact (a4 & H2 & -> & _)%Hact. eauto.
  - intros id' b' h a' Hid' (a0 & H & Hp & Hor)%Hact Ht. rewrite Hp in Ht.
    apply lookup_insert_Some in Hid' as [[<- <-]|[_ Hid']].
    + destruct Hor as [(-> & -> & ->)|[Hne ->]]; [done|].
      exfalso. apply Hne. eapply so_active_tokens0; [exact H|exact Ha|congruence].
    + destruct Hor as [(-> & -> & ->)|[Hne ->]]; [|eauto]. exfalso. eapply Hno; [exact Hid'|congruence].
  - intros id1 id2 b1 b2 [[<- <-]|[N1 H1]]%lookup_insert_Some [[<- <-]|[N2 H2]]%lookup_insert_Some Heq;
      [done|exfalso; by eapply Hno|exfalso; by eapply Hno|eauto].
  - intros h a' (a0 & H & Hp & Hor)%Hact Hbd. destruct Hor as [(-> & -> & ->)|[Hne ->]].
    + exists b. split_and!; [done|apply Hx|]. right. exists id. by rewrite lookup_insert_eq.
    + destruct (so_served0 _ _ H Hbd) as (b' & ? & ? & Hor). exists b'. split_and!; [done..|].
      destruct Hor as [?|(id' & Hid')]; [by left|right]. exists id'.
      rewrite lookup_insert_ne; [done|]. intros <-. congruence.
Qed.

(** An owner ends once its session is gone. *)
Lemma sessions_owned_release r owners tokens lost r' id b :
  sessions_owned r owners tokens lost → registry_wf r' → owners !! id = Some b →
  sr_prepared r' = sr_prepared r →
  (∀ h a, sr_active r' !! h = Some a → sr_active r !! h = Some a ∧ (h = hb_session_handle b → ¬ names_exactly b a)) →
  sessions_owned r' (delete id owners) tokens lost.
Proof.
  intros Hso Hreg Hid Hp Ha. eapply sessions_owned_shrink; [exact Hso|done|apply delete_subseteq|..].
  - intros t. by rewrite Hp.
  - intros h a H. by apply Ha.
  - intros h a b' [_ Hn]%Ha Hh Hx [?|(id' & Hid')]; [by left|right]. exists id'.
    apply lookup_delete_Some. split; [|done]. intros <-.
    assert (b' = b) as -> by congruence. by apply Hn.
Qed.

(** An owner ends and leaves its session behind. *)
Lemma sessions_owned_lose r owners tokens lost id b :
  sessions_owned r owners tokens lost → owners !! id = Some b →
  sessions_owned r (delete id owners) tokens (b :: lost).
Proof.
  intros Hso Hid. eapply sessions_owned_shrink; [exact Hso|apply Hso|apply delete_subseteq|done|done|].
  intros h a b' _ _ _ [?|(id' & Hid')]; [left; by right|].
  destruct (decide (id' = id)) as [->|Hne].
  { assert (b' = b) as -> by congruence. left. by left. }
  right. exists id'. by rewrite lookup_delete_ne.
Qed.

(** Sessions whose leases change. *)
Lemma sessions_owned_leases r owners tokens lost r' :
  sessions_owned r owners tokens lost → registry_wf r' → sr_prepared r' = sr_prepared r →
  (∀ h a', sr_active r' !! h = Some a' →
     ∃ a, sr_active r !! h = Some a ∧ as_prepared a' = as_prepared a ∧ as_bound a' = as_bound a) →
  sessions_owned r' owners tokens lost.
Proof.
  intros [] Hreg Hp Ha. split; rewrite ?Hp; try done.
  - intros h a' (a & H & -> & _)%Ha. eauto.
  - intros h a' (a & H & -> & _)%Ha. eauto.
  - intros h1 h2 a1' a2' (a1 & H1 & -> & _)%Ha (a2 & H2 & -> & _)%Ha. eauto.
  - intros id b h a' Hid (a & H & -> & ->)%Ha. eauto.
  - intros h a' (a & H & He & ->)%Ha Hb. unfold names_exactly. rewrite He. eauto.
Qed.

(** ** The calls of the control loop *)
Lemma prepare_at_failed r now s f g t e : (prepare_at r now s f g t).2 = Err e → (prepare_at r now s f g t).1 = r.
Proof.
  unfold prepare_at. destruct (_ <=? _); [done|]. destruct (_ || _); [done|].
  destruct (map_err _ _); [|done..]. by destruct (_ <? len _).
Qed.

Lemma renew_batch_leases r es now :
  registry_wf r →
  (∀ h a', sr_active (renew_batch r es now).1 !! h = Some a' →
     ∃ a, sr_active r !! h = Some a ∧ as_prepared a' = as_prepared a ∧ as_bound a' = as_bound a)
  ∧ (∀ h a, sr_active r !! h = Some a →
     ∃ a', sr_active (renew_batch r es now).1 !! h = Some a' ∧ as_prepared a' = as_prepared a ∧ as_bound a' = as_bound a)
  ∧ sr_prepared (renew_batch r es now).1 = sr_prepared r.
Proof.
  intros Hwf. pose proof (renew_batch_atomic r es now Hwf) as H.
  assert (Hp : sr_prepared (renew_batch r es now).1 = sr_prepared r).
  { unfold renew_batch. destruct (existsb _ _); [done|]. simpl. clear. revert r.
    induction es as [|e es IH]; intros r; simpl; [done|]. rewrite IH. apply renew_prepared. }
  destruct (renew_batch r es now) as [r' ok]. simpl in *. destruct H as (_ & Hf & Ht). unfold active in Ht.
  destruct ok; [|rewrite (Hf eq_refl) in *; split_and!; [by eauto..|done]].
  split_and!; [..|done].
  - intros h a' Ha'. rewrite (Ht eq_refl) in Ha'. revert Ha'.
    destruct (decide _); [|by eauto]. destruct (sr_active r !! h); simpl; [|done]. intros [= <-]. by eexists.
  - intros h a Ha. rewrite (Ht eq_refl), Ha. destruct (decide _); simpl; by eexists.
Qed.

Lemma reap_expired_spec r now :
  (∀ t, is_Some (sr_prepared (reap_expired_handles r now).1 !! t) → is_Some (sr_prepared r !! t))
  ∧ (∀ h a, sr_active (reap_expired_handles r now).1 !! h = Some a → sr_active r !! h = Some a)
  ∧ (∀ h a, sr_active r !! h = Some a → h ∉ (reap_expired_handles r now).2 →
       sr_active (reap_expired_handles r now).1 !! h = Some a).
Proof.
  unfold reap_expired_handles. simpl. generalize (expired_handles (sr_active r) now) as hs.
  assert (Hf : ∀ (hs : list Z) (m : gmap Z ActiveSession) h a, foldl (λ m h, delete h m) m hs !! h = Some a → m !! h = Some a).
  { induction hs as [|x hs IH]; intros m h a H; simpl in H; [done|]. by apply IH, lookup_delete_Some in H as [_ ?]. }
  intros hs. split_and!; [|apply Hf|].
  - intros t [p Hp]. apply map_lookup_filter_Some in Hp as [Hp _]. eauto.
  - generalize (sr_active r) as m. induction hs as [|x hs IH]; intros m h a Ha Hh; simpl; [done|].
    apply IH; [|set_solver]. apply lookup_delete_Some. set_solver.
Qed.

Lemma open_at_identity r now b : registry_identity (open_at r now b).1 = registry_identity r.
Proof.
  unfold open_at. simpl. destruct (_ !! _); [|done]. destruct (_ <=? _); [done|]. destruct (map_any _ _); [done|].
  destruct (binding_differs _ _); [done|]. unfold allocate_handle. by destruct (allocate_loop _ _ _) as [n [h|]].
Qed.

Lemma renew_identity r h t now : registry_identity (renew r h t now).1 = registry_identity r.
Proof. unfold renew. destruct (_ !! _); [|done]. by destruct (_ || _). Qed.

Lemma run_op_identity r op : registry_identity (run_op r op) = registry_identity r.
Proof.
  destruct op; simpl; try done; try apply open_at_identity.
  - unfold prepare_at. destruct (_ <=? _); [done|]. destruct (_ || _); [done|].
    destruct (map_err _ _); [|done..]. by destruct (_ <? len _).
  - unfold open_request. destruct (_ !! _); [|done]. destruct (authority_differs _ _ _ _ _ _); [done|]. apply open_at_identity.
  - unfold accept_active. destruct (_ !! _) as [a|]; [|done]. destruct (as_bound a); [done|]. by destruct (_ || (_ <=? _)).
  - unfold close_exact. destruct (_ !! _); [|done]. by destruct (_ || _).
  - unfold close_unbound_if_exact. destruct (_ !! _); [|done]. by destruct (_ || _).
  - apply renew_identity.
  - unfold renew_batch. destruct (existsb _ _); [done|]. simpl. revert r.
    induction entries as [|e es IH]; intros r; simpl; [done|]. rewrite IH. apply renew_identity.
Qed.
