(* ===== verification/RevisionStore.v ===== *)
(** * The compare-and-commit record store: the interface between the file store and its users

    What the recovery code of src/src/iroh_endpoint.rs relies on: a record is read back as
    it was committed, a commit succeeds only at the expected revision and advances it by
    one, and a failed commit changes nothing unless its outcome is reported as unknown.
    [RevisionStore] names the operations, [LawfulRevisionStore] the laws; the file store
    of AuthorityStore.v implements them, and [MemoryStore] below is the specification
    itself: one register per file name. *)
From S2P Require Export Codec Errors.

Inductive AuthorityStoreError : Type :=
| Invalid
| Corrupt
| Unavailable
| PersistenceFailed
| Conflict
| Unknown.

#[export] Instance AuthorityStoreError_eq_dec : EqDecision AuthorityStoreError.
Proof. solve_decision. Defined.

Abbreviation store_result := (outcome AuthorityStoreError).

Record StoredAuthorityRecord : Type := {
  sa_revision : Z;
  sa_generation : Z;
  sa_state : list byte;
  sa_payload : list byte;
}.

#[export] Instance StoredAuthorityRecord_eq_dec : EqDecision StoredAuthorityRecord.
Proof. solve_decision. Defined.

(** The revision of what a record file holds; zero when there is no record. *)
Definition current_revision (current : option StoredAuthorityRecord) : Z :=
  match current with Some record => sa_revision record | None => 0 end.

(** A record is named by its key, its kind and its file name. *)
Record RecordName : Type := {
  rn_key : list byte;
  rn_kind : list byte;
  rn_filename : list byte;
}.

(** [F] is what the environment decides about one call (which system calls fail);
    [rs_view] is what a reader would find if nothing failed. *)
Class RevisionStore (S F : Type) : Type := {
  rs_load : F → RecordName → S → store_result (option StoredAuthorityRecord);
  rs_commit : F → RecordName → Z → list byte → list byte → Z → stateful S AuthorityStoreError Z;
  rs_view : RecordName → S → store_result (option StoredAuthorityRecord);
  rs_name_ok : list byte → Prop;
}.

(** The record was at revision [expected] and is now the committed one. *)
Definition advanced `{RevisionStore St Fl} (n : RecordName) (generation : Z)
    (state payload : list byte) (expected : Z) (s s' : St) : Prop :=
  (∃ current, rs_view n s = Ok current ∧ current_revision current = expected)
  ∧ expected + 1 ≤ u64_max
  ∧ rs_view n s' = Ok (Some {| sa_revision := expected + 1; sa_generation := generation;
                               sa_state := state; sa_payload := payload |}).

Class LawfulRevisionStore (St Fl : Type) `{RevisionStore St Fl} : Prop := {
  law_load_view : ∀ f n s o, rs_load f n s = Ok o → rs_view n s = Ok o;
  law_load_returns : ∀ f n s, returns (rs_load f n s);
  law_commit : ∀ f n generation state payload expected s s' r,
    0 ≤ expected →
    rs_commit f n generation state payload expected s = (s', r) →
    match r with
    | Ok revision => revision = expected + 1 ∧ advanced n generation state payload expected s s'
    | Err e =>
        rs_view n s' = rs_view n s
        ∨ e = Unknown ∧ advanced n generation state payload expected s s'
    | Panic => False
    end;
  law_commit_frame : ∀ f n generation state payload expected s s' r n',
    rs_commit f n generation state payload expected s = (s', r) →
    rs_name_ok (rn_filename n') → rn_filename n' ≠ rn_filename n →
    rs_view n' s' = rs_view n' s;
}.

(** ** The specification: a register per file name

    [mf_error] makes a call fail before it does anything, [mf_unsynced] reports an
    unknown outcome after the register was replaced. *)
Abbreviation MemoryStore := (gmap (list byte) StoredAuthorityRecord).

Record MemoryFaults : Type := {
  mf_error : option AuthorityStoreError;
  mf_unsynced : bool;
}.

Definition memory_ok : MemoryFaults := {| mf_error := None; mf_unsynced := false |}.

Definition memory_commit (f : MemoryFaults) (n : RecordName) (generation : Z)
    (state payload : list byte) (expected : Z) : stateful MemoryStore AuthorityStoreError Z :=
  λ s,
  match mf_error f with
  | Some e => (s, Err e)
  | None =>
      let current := current_revision (s !! rn_filename n) in
      if negb (current =? expected) then (s, Err Conflict) else
      match u64_checked_add current 1 with
      | None => (s, Err Unknown)
      | Some revision =>
          (<[rn_filename n := {| sa_revision := revision; sa_generation := generation;
                                 sa_state := state; sa_payload := payload |}]> s,
           if mf_unsynced f then Err Unknown else Ok revision)
      end
  end.

#[export] Instance memory_store : RevisionStore MemoryStore MemoryFaults := {|
  rs_load f n s := match mf_error f with Some e => Err e | None => Ok (s !! rn_filename n) end;
  rs_commit := memory_commit;
  rs_view n s := Ok (s !! rn_filename n);
  rs_name_ok _ := True;
|}.

#[export] Instance memory_store_lawful : LawfulRevisionStore MemoryStore MemoryFaults.
Proof.
  split; simpl.
  - intros f n s o. by destruct (mf_error f); intros; simplify_eq.
  - intros f n s. by destruct (mf_error f).
  - unfold memory_commit, advanced. simpl. intros f n g st p e s s' r _ H.
    destruct (mf_error f); simplify_eq; [auto|].
    destruct (negb _) eqn:Hrev; simplify_eq; [auto|]. bool_facts.
    destruct (u64_checked_add _ 1) eqn:Hadd; simplify_eq; [|auto].
    apply u64_checked_add_Some in Hadd as [-> Hmax].
    destruct (mf_unsynced f); simpl; rewrite lookup_insert_eq; eauto 10.
  - unfold memory_commit. intros f n g st p e s s' r n' H _ Hne.
    repeat (cases_in H; simplify_eq; try done). by rewrite lookup_insert_ne.
Qed.

(** ** Sequences of commits *)
Record CommitOp (Fl : Type) : Type := {
  co_faults : Fl;
  co_name : RecordName;
  co_generation : Z;
  co_state : list byte;
  co_payload : list byte;
  co_expected : Z;
}.
Arguments co_faults {Fl}. Arguments co_name {Fl}. Arguments co_generation {Fl}.
Arguments co_state {Fl}. Arguments co_payload {Fl}. Arguments co_expected {Fl}.

Section Commits.
Context {St Fl : Type} `{!RevisionStore St Fl, !LawfulRevisionStore St Fl}.

Definition run_commit (s : St) (op : CommitOp Fl) : St * store_result Z :=
  rs_commit (co_faults op) (co_name op) (co_generation op) (co_state op) (co_payload op)
    (co_expected op) s.

Definition run_commits (s : St) (ops : list (CommitOp Fl)) : St :=
  foldl (λ s op, (run_commit s op).1) s ops.

(** A writer of [n]'s file writes it under the name [n], at an unsigned revision. *)
Definition well_named (n : RecordName) (op : CommitOp Fl) : Prop :=
  0 ≤ co_expected op ∧ (rn_filename (co_name op) = rn_filename n → co_name op = n).

Definition at_least (n : RecordName) (revision : Z) (s : St) : Prop :=
  ∃ current, rs_view n s = Ok current ∧ revision ≤ current_revision current.

Lemma run_commit_at_least n revision s op :
  rs_name_ok (rn_filename n) → well_named n op →
  at_least n revision s → at_least n revision (run_commit s op).1.
Proof.
  intros Hok [He Hn] Hs. destruct (run_commit s op) as [s' r] eqn:Hr. unfold run_commit in Hr.
  destruct (decide (rn_filename (co_name op) = rn_filename n)) as [Heq|Hne].
  - rewrite (Hn Heq) in Hr. apply law_commit in Hr; [|done].
    assert (Hadv : advanced n (co_generation op) (co_state op) (co_payload op)
      (co_expected op) s s' → at_least n revision s').
    { intros ((c & Hc & Hce) & _ & Hv). eexists. split; [exact Hv|].
      destruct Hs as (c' & Hc' & Hle). simpl. assert (c' = c) as -> by congruence. lia. }
    destruct r; simpl; [by apply Hadv, Hr| |done].
    destruct Hr as [Hv|[_ Hr]]; [|by apply Hadv]. unfold at_least. by rewrite Hv.
  - unfold at_least. simpl. by rewrite (law_commit_frame _ _ _ _ _ _ _ _ _ n Hr).
Qed.

Lemma run_commits_at_least n revision s ops :
  rs_name_ok (rn_filename n) → Forall (well_named n) ops →
  at_least n revision s → at_least n revision (run_commits s ops).
Proof.
  intros Hok. revert s. induction ops as [|op ops IH]; intros s Hops Hs; simpl; [done|].
  apply Forall_cons in Hops as [Hop Hops]. apply IH; [done|]. by apply run_commit_at_least.
Qed.

(** Two commits at one revision never both succeed, whatever happens between them. *)
Lemma commit_exclusive n op1 op2 s s1 revision ops :
  rs_name_ok (rn_filename n) → Forall (well_named n) ops →
  co_name op1 = n → co_name op2 = n → 0 ≤ co_expected op1 → co_expected op2 = co_expected op1 →
  run_commit s op1 = (s1, Ok revision) →
  ∃ e, (run_commit (run_commits s1 ops) op2).2 = Err e.
Proof.
  unfold run_commit. intros Hok Hops H1 H2 He Heq Hr. rewrite H1 in Hr.
  apply law_commit in Hr as (_ & _ & _ & Hv); [|done].
  destruct (run_commits_at_least n (co_expected op1 + 1) s1 ops Hok Hops) as (c & Hc & Hle).
  { eexists. split; [exact Hv|done]. }
  rewrite H2. destruct (rs_commit _ _ _ _ _ _ (run_commits s1 ops)) as [s' [r|e|]] eqn:Hr;
    [|by exists e|].
  - apply law_commit in Hr as (_ & (c' & Hc' & Hx) & _); [|lia].
    assert (c' = c) as -> by congruence. lia.
  - apply law_commit in Hr; [done|lia].
Qed.
End Commits.
