(* ===== verification/AuthorityStore.v ===== *)
(** * Persistent authority records (src/src/authority_store.rs)

    [FileAuthorityStore]: one JSON envelope per fixed file name, read back through an
    integrity digest and replaced by compare-and-commit on a revision number.  The
    directory is a map from names to files; [IoFaults] says which system calls of one
    operation fail, so every error path of the code is an outcome of the model.  The
    JSON, base64 and SHA-256 crates are parameters.  Operations are atomic steps: the
    process-local mutex is not modelled (it is only observable when a thread panicked
    while holding it).  The last section shows that the store implements the interface
    of RevisionStore.v. *)
From S2P Require Export RevisionStore.

Definition AUTHORITY_SCHEMA_VERSION : Z := 1.
Definition DEVELOPMENT_INSECURE_STORAGE_PROFILE : list byte := str_lit "development-insecure".
Definition MAX_AUTHORITY_PAYLOAD_BYTES : Z := 1024 * 1024.
Definition MAX_AUTHORITY_RECORD_BYTES : Z := MAX_AUTHORITY_PAYLOAD_BYTES + 4096.
Definition MAX_STORAGE_KEY_BYTES : Z := 128.
Definition MAX_LABEL_BYTES : Z := 64.
Definition AUTHORITY_DIGEST_DOMAIN : list byte := str_lit "herdr-dog/authority-record/v1".

Inductive AuthorityDeleteOutcome : Type :=
| Deleted
| Missing.

Record AuthorityEnvelope : Type := {
  ae_key : list byte;
  ae_schema_version : Z;
  ae_kind : list byte;
  ae_protection : list byte;
  ae_revision : Z;
  ae_generation : Z;
  ae_state : list byte;
  ae_payload_len : Z;
  ae_integrity : list byte;
  ae_payload : list byte;
}.

#[export] Instance AuthorityEnvelope_eq_dec : EqDecision AuthorityEnvelope.
Proof. solve_decision. Defined.

(** ** Labels and file names *)
Definition is_ascii (b : byte) : bool := byte_val b <? 128.

Definition key_byte_ok (b : byte) : bool :=
  is_ascii_alphanumeric b || bool_decide (b ∈ [x2f; x3a; x2e; x5f; x2d]).

Definition label_byte_ok (b : byte) : bool :=
  is_ascii_alphanumeric b || bool_decide (b ∈ [x5f; x2d]).

Definition filename_byte_ok (b : byte) : bool :=
  is_ascii_alphanumeric b || bool_decide (b = x2d) || bool_decide (b = x5f) || bool_decide (b = x2e).

Definition label_valid (value : list byte) : bool :=
  bool_decide (value ≠ []) && (len value <=? MAX_LABEL_BYTES) && forallb is_ascii value
  && forallb label_byte_ok value.

Definition validate_labels (key kind state : list byte) : store_result unit :=
  let key_valid :=
    bool_decide (key ≠ []) && (len key <=? MAX_STORAGE_KEY_BYTES) && forallb is_ascii key
    && forallb key_byte_ok key in
  if key_valid && label_valid kind && label_valid state then Ok tt else Err Invalid.

(** [str::ends_with]. *)
Definition ends_with (suffix s : list byte) : bool :=
  bool_decide (length suffix ≤ length s ∧ drop (length s - length suffix) s = suffix)%nat.

Definition validate_filename (filename : list byte) : store_result unit :=
  if bool_decide (filename = []) || (96 <? len filename) || negb (forallb is_ascii filename)
     || negb (ends_with (str_lit ".json") filename)
     || existsb (λ b, negb (filename_byte_ok b)) filename
  then Err Invalid
  else Ok tt.

(** ** The directory *)
Inductive FileType : Type :=
| RegularFile
| OtherFile.

(** A directory entry: what [symlink_metadata] reports ([OtherFile]: a symbolic link, a
    directory, a device), its permission bits and its content. *)
Record FileEntry : Type := {
  fe_type : FileType;
  fe_mode : Z;
  fe_bytes : list byte;
}.

Inductive RootKind : Type :=
| RootDirectory
| RootSymlinkToDirectory
| RootOther.

(** The store root, when something is there: its kind, its permission bits and the files
    reachable through it. *)
Record RootEntry : Type := {
  re_kind : RootKind;
  re_mode : Z;
  re_files : gmap (list byte) FileEntry;
}.

(** The store: the root, the process id and the process-wide temporary-name counter. *)
Record FileAuthorityStore : Type := {
  fs_root : option RootEntry;
  fs_pid : Z;
  fs_counter : Z;
}.

(** What [File::sync_all] on the directory answers. *)
Inductive SyncResult : Type :=
| SyncDone
| SyncUnsupported
| SyncError.

(** The system calls of one operation that fail (with an error other than [NotFound] and
    [AlreadyExists], which the state of the directory decides). *)
Record IoFaults : Type := {
  f_root_stat : bool;
  f_lock_stat : bool;
  f_record_stat : bool;
  f_open : bool;
  f_read : bool;
  f_create_dir : bool;
  f_chmod : bool;
  f_lock_create : bool;
  f_lock_write : bool;
  f_lock_sync : bool;
  f_lock_remove : bool;
  f_tmp_create : bool;
  f_tmp_write : bool;
  f_tmp_sync : bool;
  f_tmp_remove : bool;
  f_rename : bool;
  f_dir_sync : SyncResult;
  f_record_remove : bool;
}.

Definition no_faults : IoFaults :=
  {| f_root_stat := false; f_lock_stat := false; f_record_stat := false; f_open := false;
     f_read := false; f_create_dir := false; f_chmod := false; f_lock_create := false;
     f_lock_write := false; f_lock_sync := false; f_lock_remove := false;
     f_tmp_create := false; f_tmp_write := false; f_tmp_sync := false;
     f_tmp_remove := false; f_rename := false; f_dir_sync := SyncDone;
     f_record_remove := false |}.

(** [fs::symlink_metadata] of a file of the root. *)
Definition stat (s : FileAuthorityStore) (name : list byte) : option FileEntry :=
  root ← fs_root s; re_files root !! name.

Definition set_files (f : gmap (list byte) FileEntry → gmap (list byte) FileEntry)
    (s : FileAuthorityStore) : FileAuthorityStore :=
  {| fs_root := (λ root, {| re_kind := re_kind root; re_mode := re_mode root;
                            re_files := f (re_files root) |}) <$> fs_root s;
     fs_pid := fs_pid s; fs_counter := fs_counter s |}.

Definition lock_path (filename : list byte) : list byte := filename ++ str_lit ".lock".
Definition temporary_path (filename : list byte) (pid counter : Z) : list byte :=
  str_lit "." ++ filename ++ str_lit ".tmp-" ++ decimal pid ++ str_lit "-" ++ decimal counter.

(** [create_private_new_file]: an exclusive creation with mode 0600. *)
Definition create_private_new_file (name : list byte) (s : FileAuthorityStore)
  : option FileAuthorityStore :=
  match fs_root s with
  | Some root =>
      match re_files root !! name with
      | Some _ => None
      | None =>
          Some (set_files (insert name {| fe_type := RegularFile; fe_mode := 384; fe_bytes := [] |}) s)
      end
  | None => None
  end.

(** [write_all] to a file this operation created. *)
Definition write_file (name bytes : list byte) (s : FileAuthorityStore) : FileAuthorityStore :=
  set_files (insert name {| fe_type := RegularFile; fe_mode := 384; fe_bytes := bytes |}) s.

(** [fs::rename] of an existing file. *)
Definition rename_file (from to : list byte) (s : FileAuthorityStore) : FileAuthorityStore :=
  match stat s from with
  | Some entry => set_files (λ files, delete from (<[to := entry]> files)) s
  | None => s
  end.

Definition validate_private_file (metadata : FileEntry) : store_result unit :=
  match fe_type metadata with
  | OtherFile => Err Corrupt
  | RegularFile =>
      if negb (Z.land (fe_mode metadata) 63 =? 0) then Err Corrupt else Ok tt
  end.

Definition sync_directory (io : IoFaults) : store_result unit :=
  match f_dir_sync io with
  | SyncDone | SyncUnsupported => Ok tt
  | SyncError => Err Unknown
  end.

(** [AuthorityFileLock::acquire] and its [Drop]: a lock whose content could not be
    written stays behind. *)
Definition acquire (io : IoFaults) (path : list byte)
  : stateful FileAuthorityStore AuthorityStoreError unit := λ s,
  match stat s path with
  | Some _ => (s, Err Unavailable)
  | None =>
      match (if f_lock_create io then None else create_private_new_file path s) with
      | None => (s, Err PersistenceFailed)
      | Some s1 =>
          if f_lock_write io then (s1, Err PersistenceFailed) else
          let s2 := write_file path (str_lit "lock") s1 in
          if f_lock_sync io then (s2, Err PersistenceFailed) else (s2, Ok tt)
      end
  end.

Definition release (io : IoFaults) (path : list byte) (s : FileAuthorityStore)
  : FileAuthorityStore :=
  if f_lock_remove io then s else set_files (delete path) s.

(** A body that runs while the guard is alive. *)
Definition with_file_lock {A} (io : IoFaults) (path : list byte)
    (body : stateful FileAuthorityStore AuthorityStoreError A)
  : stateful FileAuthorityStore AuthorityStoreError A :=
  st_bind (acquire io path) (λ _ s, let '(s', r) := body s in (release io path s', r)).

Definition ensure_directory (io : IoFaults)
  : stateful FileAuthorityStore AuthorityStoreError unit := λ s,
  if f_create_dir io then (s, Err Unavailable) else
  let s1 := match fs_root s with
            | None =>
                {| fs_root := Some {| re_kind := RootDirectory; re_mode := 511; re_files := ∅ |};
                   fs_pid := fs_pid s; fs_counter := fs_counter s |}
            | Some _ => s
            end in
  match fs_root s1 with
  | None => (s1, Err Unavailable)
  | Some root =>
      match re_kind root with
      | RootOther => (s1, Err Unavailable)
      | RootSymlinkToDirectory =>
          if f_root_stat io then (s1, Err Unavailable) else (s1, Err Corrupt)
      | RootDirectory =>
          if f_root_stat io then (s1, Err Unavailable) else
          if f_chmod io then (s1, Err Unavailable) else
          ({| fs_root := Some {| re_kind := RootDirectory; re_mode := 448;
                                 re_files := re_files root |};
              fs_pid := fs_pid s1; fs_counter := fs_counter s1 |}, Ok tt)
      end
  end.

(** ** Digests *)

Definition digests_equal (left right : list byte) : bool :=
  accumulated_difference left right =? 0.

(** The bytes [record_digest] feeds to the hash. *)
Definition length_prefixed (value : list byte) : list byte := be_bytes 8 (len value) ++ value.

Definition digest_input (envelope : AuthorityEnvelope) (payload : list byte) : list byte :=
  AUTHORITY_DIGEST_DOMAIN
  ++ length_prefixed (ae_key envelope) ++ length_prefixed (ae_kind envelope)
  ++ length_prefixed (ae_protection envelope) ++ length_prefixed (ae_state envelope)
  ++ be_bytes 4 (ae_schema_version envelope) ++ be_bytes 8 (ae_revision envelope)
  ++ be_bytes 8 (ae_generation envelope) ++ be_bytes 8 (len payload) ++ payload.

(** [FileAuthorityStore::open]: only an absolute path is accepted; nothing is read. *)
Definition open (root_is_absolute : bool) (s : FileAuthorityStore) : store_result FileAuthorityStore :=
  if negb root_is_absolute then Err Invalid else Ok s.

Section Store.
Context (sha256 : list byte → list byte).
Context (b64_encode : list byte → list byte) (b64_decode : list byte → option (list byte)).
Context (json_to_vec : AuthorityEnvelope → option (list byte))
  (json_from_slice : list byte → option AuthorityEnvelope).

Definition record_digest (envelope : AuthorityEnvelope) (payload : list byte) : list byte :=
  sha256 (digest_input envelope payload).

Definition decode_record (envelope : AuthorityEnvelope) (expected_key expected_kind : list byte)
  : store_result StoredAuthorityRecord :=
  if bool_decide (ae_key envelope ≠ expected_key)
     || negb (ae_schema_version envelope =? AUTHORITY_SCHEMA_VERSION)
     || bool_decide (ae_kind envelope ≠ expected_kind)
     || bool_decide (ae_protection envelope ≠ DEVELOPMENT_INSECURE_STORAGE_PROFILE)
     || (ae_revision envelope =? 0)
     || (ae_generation envelope =? 0)
     || (MAX_AUTHORITY_PAYLOAD_BYTES <? ae_payload_len envelope)
  then Err Corrupt else
  _ ← validate_labels (ae_key envelope) (ae_kind envelope) (ae_state envelope);
  payload ← ok_or (b64_decode (ae_payload envelope)) Corrupt;
  if negb (len payload =? ae_payload_len envelope) then Err Corrupt else
  if negb (digests_equal (ae_integrity envelope) (record_digest envelope payload))
  then Err Corrupt else
  Ok {| sa_revision := ae_revision envelope; sa_generation := ae_generation envelope;
        sa_state := ae_state envelope; sa_payload := payload |}.

Definition read_record (io : IoFaults) (key kind filename : list byte) (s : FileAuthorityStore)
  : store_result (option StoredAuthorityRecord) :=
  if f_record_stat io then Err Unavailable else
  match stat s filename with
  | None => Ok None
  | Some metadata =>
      if MAX_AUTHORITY_RECORD_BYTES <? len (fe_bytes metadata) then Err Corrupt else
      _ ← validate_private_file metadata;
      if f_open io then Err Unavailable else
      if f_read io then Err Unavailable else
      if MAX_AUTHORITY_RECORD_BYTES <? len (fe_bytes metadata) then Err Corrupt else
      envelope ← ok_or (json_from_slice (fe_bytes metadata)) Corrupt;
      Some <$> decode_record envelope key kind
  end.

Definition load (io : IoFaults) (key kind filename : list byte) (s : FileAuthorityStore)
  : store_result (option StoredAuthorityRecord) :=
  _ ← validate_labels key kind (str_lit "active");
  _ ← validate_filename filename;
  if f_root_stat io then Err Unavailable else
  match fs_root s with
  | None => Ok None
  | Some root =>
      match re_kind root with
      | RootSymlinkToDirectory | RootOther => Err Corrupt
      | RootDirectory =>
          if f_lock_stat io then Err Unavailable else
          match stat s (lock_path filename) with
          | Some _ => Err Unavailable
          | None => read_record io key kind filename s
          end
      end
  end.

(** [write_record], with [next_counter]: a temporary file, renamed over the record. *)
Definition write_record (io : IoFaults) (filename : list byte) (envelope : AuthorityEnvelope)
  : stateful FileAuthorityStore AuthorityStoreError unit := λ s,
  match json_to_vec envelope with
  | None => (s, Err Corrupt)
  | Some bytes =>
      if MAX_AUTHORITY_RECORD_BYTES <? len bytes then (s, Err Corrupt) else
      let temporary := temporary_path filename (fs_pid s) (fs_counter s) in
      let s1 := {| fs_root := fs_root s; fs_pid := fs_pid s;
                   fs_counter := (fs_counter s + 1) mod (u64_max + 1) |} in
      match (if f_tmp_create io then None else create_private_new_file temporary s1) with
      | None => (s1, Err PersistenceFailed)
      | Some s2 =>
          if f_tmp_write io || f_tmp_sync io then
            (if f_tmp_remove io then s2 else set_files (delete temporary) s2,
             Err PersistenceFailed)
          else
          let s3 := write_file temporary bytes s2 in
          if f_rename io then (s3, Err Unknown) else
          (rename_file temporary filename s3, sync_directory io)
      end
  end.

(** The envelope [commit] builds, before and after its digest is filled in. *)
Definition new_envelope (key kind : list byte) (revision generation : Z)
    (state payload : list byte) (payload_len : Z) (integrity : list byte) : AuthorityEnvelope :=
  {| ae_key := key; ae_schema_version := AUTHORITY_SCHEMA_VERSION; ae_kind := kind;
     ae_protection := DEVELOPMENT_INSECURE_STORAGE_PROFILE; ae_revision := revision;
     ae_generation := generation; ae_state := state; ae_payload_len := payload_len;
     ae_integrity := integrity; ae_payload := b64_encode payload |}.

(** The part of [commit] that runs under the file lock. *)
Definition commit_locked (io : IoFaults) (key kind filename : list byte) (generation : Z)
    (state payload : list byte) (expected_revision : Z)
  : stateful FileAuthorityStore AuthorityStoreError Z :=
  (let! current := (λ s, (s, read_record io key kind filename s)) in
   let current_revision := match current with Some record => sa_revision record | None => 0 end in
   if negb (current_revision =? expected_revision) then st_err Conflict else
   let! revision := st_lift (ok_or (u64_checked_add current_revision 1) Unknown) in
   let! payload_len :=
     st_lift (if len payload <=? u32_max then Ok (len payload) else Err Invalid) in
   let new := new_envelope key kind revision generation state payload payload_len in
   let envelope := new (record_digest (new (zeros 32)) payload) in
   do! write_record io filename envelope;
   st_ret revision)%relay.

Definition commit (io : IoFaults) (key kind filename : list byte) (generation : Z)
    (state payload : list byte) (expected_revision : Z)
  : stateful FileAuthorityStore AuthorityStoreError Z :=
  (do! st_lift (validate_labels key kind state);
   do! st_lift (validate_filename filename);
   do! st_lift (if (generation =? 0) || (MAX_AUTHORITY_PAYLOAD_BYTES <? len payload)
                then Err Invalid else Ok tt);
   do! ensure_directory io;
   with_file_lock io (lock_path filename)
     (commit_locked io key kind filename generation state payload expected_revision))%relay.

Definition delete_record (io : IoFaults) (key kind filename : list byte) (expected_revision : Z)
  : stateful FileAuthorityStore AuthorityStoreError AuthorityDeleteOutcome :=
  (do! st_lift (validate_labels key kind (str_lit "active"));
   do! st_lift (validate_filename filename);
   λ s,
   if f_root_stat io then (s, Err Unavailable) else
   match fs_root s with
   | None => (s, Ok Missing)
   | Some root =>
       match re_kind root with
       | RootSymlinkToDirectory | RootOther => (s, Err Corrupt)
       | RootDirectory =>
           with_file_lock io (lock_path filename)
             (let! current := (λ s, (s, read_record io key kind filename s)) in
              match current with
              | None => st_ret Missing
              | Some current =>
                  if negb (sa_revision current =? expected_revision) then st_err Conflict else
                  if f_record_remove io then st_err Unknown else
                  do! st_modify (set_files (delete filename));
                  do! st_lift (sync_directory io);
                  st_ret Deleted
              end) s
       end
   end)%relay.
End Store.

(** ** Facts about names *)
Lemma ends_with_last suffix s x :
  ends_with (suffix ++ [x]) s = true → last s = Some x.
Proof.
  unfold ends_with. rewrite bool_decide_eq_true. intros [Hle Hd].
  rewrite <-(take_drop (length s - length (suffix ++ [x])) s), Hd.
  rewrite app_assoc. apply last_snoc.
Qed.

Lemma valid_filename_last filename :
  validate_filename filename = Ok tt → last filename = Some x6e.
Proof.
  unfold validate_filename. intros H. cases_in H; [discriminate|].
  bool_facts. by apply (ends_with_last (str_lit ".jso")).
Qed.

Lemma lock_path_invalid filename : validate_filename (lock_path filename) ≠ Ok tt.
Proof.
  intros H%valid_filename_last. unfold lock_path in H.
  rewrite last_app in H. discriminate H.
Qed.

Lemma decimal_last z : ∃ d, last (decimal z) = Some d ∧ 48 ≤ byte_val d ≤ 57.
Proof.
  unfold decimal. simpl. rewrite last_snoc. eexists. split; [done|].
  pose proof (Z.mod_pos_bound z 10 ltac:(lia)). rewrite val_of_byte_small; lia.
Qed.

Lemma temporary_path_invalid filename pid counter :
  validate_filename (temporary_path filename pid counter) ≠ Ok tt.
Proof.
  intros H%valid_filename_last. unfold temporary_path in H.
  rewrite !app_assoc, last_app in H. destruct (decimal_last counter) as (d & Hd & Hr).
  rewrite Hd in H. injection H as ->. change (byte_val x6e) with 110 in Hr. lia.
Qed.

Lemma validate_labels_cases key kind state :
  validate_labels key kind state = Ok tt ∨ validate_labels key kind state = Err Invalid.
Proof. unfold validate_labels. cases_goal; auto. Qed.

Lemma validate_filename_cases filename :
  validate_filename filename = Ok tt ∨ validate_filename filename = Err Invalid.
Proof. unfold validate_filename. cases_goal; auto. Qed.

(** ** Facts about digests *)
Lemma digests_equal_spec left right :
  length left = length right → digests_equal left right = true ↔ left = right.
Proof.
  intros Hl. unfold digests_equal. by rewrite Z.eqb_eq, accumulated_difference_zero.
Qed.

(** Reading one field back from the front of a digest input. *)
Lemma length_prefixed_inj a b x y :
  len a ≤ u64_max → len b ≤ u64_max →
  length_prefixed a ++ x = length_prefixed b ++ y → a = b ∧ x = y.
Proof.
  intros Ha Hb. unfold length_prefixed. rewrite <-!app_assoc. intros H.
  apply app_inj_1 in H as [Hl H]; [|by rewrite !length_be_bytes].
  apply (f_equal be_val) in Hl.
  rewrite !be_val_u64 in Hl by (split; [apply len_nonneg|done]).
  apply app_inj_1 in H as [-> ->]; [done|]. unfold len in Hl. lia.
Qed.

Lemma be_bytes_inj n a b x y :
  0 ≤ a < 256 ^ Z.of_nat n → 0 ≤ b < 256 ^ Z.of_nat n →
  be_bytes n a ++ x = be_bytes n b ++ y → a = b ∧ x = y.
Proof.
  intros Ha Hb H. apply app_inj_1 in H as [H ->]; [|by rewrite !length_be_bytes].
  apply (f_equal be_val) in H. rewrite !be_val_be_bytes, !Z.mod_small in H by done. done.
Qed.

(** ** Facts about the directory *)
Lemma stat_set_files f s g :
  stat (set_files f s) g = (root ← fs_root s; f (re_files root) !! g).
Proof. unfold stat. simpl. by destruct (fs_root s). Qed.

Lemma stat_insert_ne name e s g :
  g ≠ name → stat (set_files (insert name e) s) g = stat s g.
Proof.
  intros Hne. rewrite stat_set_files. unfold stat. destruct (fs_root s); simpl; [|done].
  by rewrite lookup_insert_ne.
Qed.

Lemma stat_delete_ne name s g : g ≠ name → stat (set_files (delete name) s) g = stat s g.
Proof.
  intros Hne. rewrite stat_set_files. unfold stat. destruct (fs_root s); simpl; [|done].
  by rewrite lookup_delete_ne.
Qed.

Lemma stat_write_file_eq name bytes s :
  is_Some (fs_root s) →
  stat (write_file name bytes s) name
  = Some {| fe_type := RegularFile; fe_mode := 384; fe_bytes := bytes |}.
Proof.
  intros [root Hr]. unfold write_file. rewrite stat_set_files, Hr. simpl.
  by rewrite lookup_insert_eq.
Qed.

Lemma stat_rename_ne from to s g :
  g ≠ from → g ≠ to → stat (rename_file from to s) g = stat s g.
Proof.
  intros H1 H2. unfold rename_file. destruct (stat s from); [|done].
  rewrite stat_set_files. unfold stat. destruct (fs_root s); simpl; [|done].
  by rewrite lookup_delete_ne, lookup_insert_ne.
Qed.

Lemma stat_rename_eq from to s e :
  from ≠ to → stat s from = Some e → stat (rename_file from to s) to = Some e.
Proof.
  intros Hne Hs. unfold rename_file. rewrite Hs, stat_set_files.
  unfold stat in Hs. destruct (fs_root s); simpl in *; [|done].
  by rewrite lookup_delete_ne, lookup_insert_eq.
Qed.

(** What kind of thing the root is. *)
Definition root_kind (s : FileAuthorityStore) : option RootKind := re_kind <$> fs_root s.

Lemma root_kind_set_files f s : root_kind (set_files f s) = root_kind s.
Proof. unfold root_kind. simpl. by destruct (fs_root s). Qed.

Lemma root_kind_rename from to s : root_kind (rename_file from to s) = root_kind s.
Proof. unfold rename_file. destruct (stat s from); [apply root_kind_set_files|done]. Qed.

Lemma root_kind_create name s s' :
  create_private_new_file name s = Some s' → root_kind s' = root_kind s ∧ is_Some (fs_root s').
Proof.
  unfold create_private_new_file. intros H. destruct (fs_root s) as [root|] eqn:Hr; [|done].
  destruct (re_files root !! name); simplify_eq. rewrite root_kind_set_files.
  simpl. rewrite Hr. simpl. eauto.
Qed.

Lemma create_private_new_file_stat name s s' g :
  create_private_new_file name s = Some s' → g ≠ name → stat s' g = stat s g.
Proof.
  unfold create_private_new_file. intros H Hne.
  destruct (fs_root s) as [root|] eqn:Hr; [|discriminate].
  destruct (re_files root !! name); simplify_eq. by apply stat_insert_ne.
Qed.

Lemma acquire_stat io path s s' r g :
  acquire io path s = (s', r) → g ≠ path → stat s' g = stat s g.
Proof.
  unfold acquire. intros H Hne. destruct (stat s path); simplify_eq; [done|].
  destruct (f_lock_create io); simplify_eq; [done|].
  destruct (create_private_new_file path s) as [s1|] eqn:Hc; simplify_eq; [|done].
  pose proof (create_private_new_file_stat _ _ _ g Hc Hne) as Hg.
  destruct (f_lock_write io); simplify_eq; [done|].
  destruct (f_lock_sync io); simplify_eq; unfold write_file; by rewrite stat_insert_ne.
Qed.

Lemma release_stat io path s g : g ≠ path → stat (release io path s) g = stat s g.
Proof. intros. unfold release. destruct (f_lock_remove io); [done|]. by apply stat_delete_ne. Qed.

Lemma ensure_directory_stat io s s' r g : ensure_directory io s = (s', r) → stat s' g = stat s g.
Proof.
  unfold ensure_directory. intros H.
  destruct (f_create_dir io); simplify_eq; [done|].
  destruct (fs_root s) as [root|] eqn:Hr; simpl in H; [rewrite Hr in H|];
    repeat (cases_in H; simplify_eq/=); unfold stat; rewrite ?Hr; simpl; rewrite ?Hr; simpl;
    try done; by rewrite lookup_empty.
Qed.

Lemma ensure_directory_errors io s s' e : ensure_directory io s = (s', Err e) → e ≠ Unknown.
Proof.
  unfold ensure_directory. intros H. repeat (cases_in H; simplify_eq/=); done.
Qed.

Lemma ensure_directory_kind io s s' :
  ensure_directory io s = (s', Ok tt) → root_kind s' = Some RootDirectory.
Proof.
  unfold ensure_directory, root_kind. intros H. repeat (cases_in H; simplify_eq/=); done.
Qed.

Lemma ensure_directory_returns io s s' : ensure_directory io s ≠ (s', Panic).
Proof. unfold ensure_directory. intros H. repeat (cases_in H; simplify_eq/=). Qed.

Section StoreFacts.
Context (sha256 : list byte → list byte).
Context (b64_encode : list byte → list byte) (b64_decode : list byte → option (list byte)).
Context (json_to_vec : AuthorityEnvelope → option (list byte))
  (json_from_slice : list byte → option AuthorityEnvelope).

Local Abbreviation decode_record := (decode_record sha256 b64_decode).
Local Abbreviation read_record := (read_record sha256 b64_decode json_from_slice).
Local Abbreviation load := (load sha256 b64_decode json_from_slice).
Local Abbreviation commit := (commit sha256 b64_encode b64_decode json_to_vec json_from_slice).
Local Abbreviation delete_record := (delete_record sha256 b64_decode json_from_slice).
Local Abbreviation write_record := (write_record json_to_vec).

(** Reading depends on the record file only. *)
Lemma read_record_stat io key kind filename s s' :
  stat s' filename = stat s filename →
  read_record io key kind filename s' = read_record io key kind filename s.
Proof. unfold AuthorityStore.read_record. by intros ->. Qed.

(** System-call failures can only turn an answer into an error. *)
Lemma read_record_no_faults io key kind filename s o :
  read_record io key kind filename s = Ok o → read_record no_faults key kind filename s = Ok o.
Proof.
  unfold AuthorityStore.read_record. intros H. cases_in H; [discriminate|]. simpl.
  destruct (stat s filename); [|done]. cases_in H; [discriminate|].
  destruct (validate_private_file f); try discriminate. simpl in *.
  destruct (f_open io); [discriminate|]. by destruct (f_read io).
Qed.

Lemma load_reads io key kind filename s o :
  load io key kind filename s = Ok o → read_record no_faults key kind filename s = Ok o.
Proof.
  unfold AuthorityStore.load. intros H.
  apply bind_Ok in H as (? & _ & H). apply bind_Ok in H as (? & _ & H).
  cases_in H; [discriminate|].
  destruct (fs_root s) as [root|] eqn:Hr.
  - destruct (re_kind root); try discriminate.
    destruct (f_lock_stat io); [discriminate|].
    destruct (stat s (lock_path filename)); [discriminate|]. by apply read_record_no_faults in H.
  - unfold AuthorityStore.read_record, stat. by rewrite Hr.
Qed.

(** The record file holds [bytes], privately. *)
Definition holds (filename bytes : list byte) (s : FileAuthorityStore) : Prop :=
  stat s filename = Some {| fe_type := RegularFile; fe_mode := 384; fe_bytes := bytes |}.

(** The record file holds the serialised envelope. *)
Definition written (filename : list byte) (envelope : AuthorityEnvelope)
    (s : FileAuthorityStore) : Prop :=
  ∃ bytes, json_to_vec envelope = Some bytes ∧ len bytes ≤ MAX_AUTHORITY_RECORD_BYTES
    ∧ holds filename bytes s.

Lemma write_record_spec io filename envelope s s' r :
  validate_filename filename = Ok tt →
  write_record io filename envelope s = (s', r) →
  (∀ g, validate_filename g = Ok tt → g ≠ filename → stat s' g = stat s g)
  ∧ root_kind s' = root_kind s
  ∧ match r with
    | Ok _ => written filename envelope s'
    | Err e => stat s' filename = stat s filename ∨ e = Unknown ∧ written filename envelope s'
    | Panic => False
    end.
Proof.
  intros Hv H. unfold AuthorityStore.write_record in H.
  destruct (json_to_vec envelope) as [bytes|] eqn:Hj; simplify_eq; [|auto].
  destruct (_ <? _) eqn:Hlen; simplify_eq; [auto|]. bool_facts.
  set (tmp := temporary_path filename (fs_pid s) (fs_counter s)) in *.
  assert (Htmp : ∀ g, validate_filename g = Ok tt → g ≠ tmp)
    by (intros g Hg ->; by apply (temporary_path_invalid filename (fs_pid s) (fs_counter s))).
  destruct (f_tmp_create io); simplify_eq; [auto|].
  destruct (create_private_new_file tmp _) as [s2|] eqn:Hc; simplify_eq; [|auto].
  destruct (root_kind_create _ _ _ Hc) as [Hk2 Hroot].
  assert (Hs2 : ∀ g, validate_filename g = Ok tt → stat s2 g = stat s g).
  { intros g Hg. apply (create_private_new_file_stat _ _ _ g Hc). auto. }
  destruct (f_tmp_write io || f_tmp_sync io).
  { simplify_eq. destruct (f_tmp_remove io); (split; [|split; [|left]]); intros;
      rewrite ?stat_delete_ne, ?root_kind_set_files by auto; auto. }
  assert (Hs3 : ∀ g, validate_filename g = Ok tt → stat (write_file tmp bytes s2) g = stat s g).
  { intros g Hg. unfold write_file. rewrite stat_insert_ne by auto. auto. }
  destruct (f_rename io); simplify_eq.
  { split; [auto|]. split; [|auto]. unfold write_file. by rewrite root_kind_set_files. }
  split; [intros g Hg Hne; rewrite stat_rename_ne by auto; auto|].
  split; [rewrite root_kind_rename; unfold write_file; by rewrite root_kind_set_files|].
  assert (Hw : written filename envelope (rename_file tmp filename (write_file tmp bytes s2))).
  { exists bytes. split; [done|split; [done|]].
    apply stat_rename_eq; [symmetry; auto | by apply stat_write_file_eq]. }
  unfold sync_directory. destruct (f_dir_sync io); auto.
Qed.

Local Abbreviation new_envelope := (new_envelope b64_encode).
Local Abbreviation commit_locked :=
  (commit_locked sha256 b64_encode b64_decode json_to_vec json_from_slice).

(** The envelope of a successful commit at [expected_revision]. *)
Definition sealed_envelope (key kind : list byte) (generation : Z) (state payload : list byte)
    (expected_revision : Z) : AuthorityEnvelope :=
  let new := new_envelope key kind (expected_revision + 1) generation state payload (len payload) in
  new (record_digest sha256 (new (zeros 32)) payload).

Lemma read_record_returns io key kind filename s : returns (read_record io key kind filename s).
Proof.
  unfold AuthorityStore.read_record, validate_private_file.
  cases_goal; [no_panic|]. destruct (stat s filename) as [f|]; [|no_panic].
  no_panic; [by repeat cases_goal|]. apply fmap_returns. unfold AuthorityStore.decode_record.
  no_panic. destruct (validate_labels_cases (ae_key a0) (ae_kind a0) (ae_state a0)) as [->| ->]; done.
Qed.

Lemma with_file_lock_spec {A} io path body s s' (r : store_result A) :
  with_file_lock io path body s = (s', r) →
  (∃ e, r = Err e ∧ e ≠ Unknown ∧ (∀ g, g ≠ path → stat s' g = stat s g) ∧ root_kind s' = root_kind s)
  ∨ (∃ s1 s2, acquire io path s = (s1, Ok tt) ∧ body s1 = (s2, r) ∧ s' = release io path s2
       ∧ (∀ g, g ≠ path → stat s1 g = stat s g) ∧ root_kind s1 = root_kind s).
Proof.
  unfold with_file_lock, st_bind. intros H.
  destruct (acquire io path s) as [s1 r1] eqn:Ha.
  assert (Hstat : ∀ g, g ≠ path → stat s1 g = stat s g)
    by (intros g; by apply (acquire_stat _ _ _ _ _ _ Ha)).
  assert (Hk : root_kind s1 = root_kind s ∧ r1 ≠ Err Unknown ∧ r1 ≠ Panic).
  { unfold acquire in Ha. destruct (stat s path); simplify_eq; [done|].
    destruct (f_lock_create io); simplify_eq; [done|].
    destruct (create_private_new_file path s) as [s2|] eqn:Hc; simplify_eq; [|done].
    apply root_kind_create in Hc as [Hc _].
    repeat (cases_in Ha; simplify_eq); unfold write_file; rewrite ?root_kind_set_files; done. }
  destruct Hk as (Hk & Hr & Hp). destruct r1 as [[]|e|]; simplify_eq; [right|left; naive_solver].
  destruct (body s1) as [s2 r2] eqn:Hb. simplify_eq. by exists s1, s2.
Qed.

(** What [commit] checks of its arguments before it touches the directory. *)
Definition commit_arguments (key kind filename : list byte) (generation : Z)
    (state payload : list byte) : Prop :=
  validate_labels key kind state = Ok tt ∧ validate_filename filename = Ok tt
  ∧ generation ≠ 0 ∧ len payload ≤ MAX_AUTHORITY_PAYLOAD_BYTES.

(** The record was at [expected] and has been replaced by the sealed envelope. *)
Definition replaced (key kind filename : list byte) (generation : Z) (state payload : list byte)
    (expected : Z) (s s' : FileAuthorityStore) : Prop :=
  (∃ current, read_record no_faults key kind filename s = Ok current
     ∧ current_revision current = expected)
  ∧ expected + 1 ≤ u64_max
  ∧ written filename (sealed_envelope key kind generation state payload expected) s'.

Lemma commit_locked_spec io key kind filename generation state payload expected s s' r :
  validate_filename filename = Ok tt →
  commit_locked io key kind filename generation state payload expected s = (s', r) →
  (∀ g, validate_filename g = Ok tt → g ≠ filename → stat s' g = stat s g)
  ∧ root_kind s' = root_kind s
  ∧ match r with
    | Ok revision =>
        revision = expected + 1
        ∧ replaced key kind filename generation state payload expected s s'
    | Err e =>
        stat s' filename = stat s filename
        ∨ e = Unknown ∧ replaced key kind filename generation state payload expected s s'
    | Panic => False
    end.
Proof.
  intros Hv. unfold AuthorityStore.commit_locked, st_bind, st_lift, st_err, st_ret. intros H.
  pose proof (read_record_returns io key kind filename s) as Hret.
  destruct (read_record io key kind filename s) as [current|e|] eqn:Hread; [|simplify_eq; auto|done].
  clear Hret. apply read_record_no_faults in Hread. fold (current_revision current) in H.
  destruct (negb _) eqn:Hrev; [simplify_eq; auto|]. bool_facts. subst expected.
  destruct (u64_checked_add (current_revision current) 1) as [revision|] eqn:Hadd;
    [|simpl in H; simplify_eq; auto].
  apply u64_checked_add_Some in Hadd as [-> Hmax]. simpl in H.
  destruct (_ <=? u32_max); [|simplify_eq; auto].
  destruct (write_record _ _ _ s) as [s2 r2] eqn:Hw.
  destruct (write_record_spec _ _ _ _ _ _ Hv Hw) as (Hframe & Hkind & Hr).
  assert (Hrep : written filename (sealed_envelope key kind generation state payload
                   (current_revision current)) s2 →
    replaced key kind filename generation state payload (current_revision current) s s2)
    by (intros; split; eauto).
  destruct r2 as [[]|e|]; simplify_eq; [by auto| |done].
  split; [done|]. split; [done|]. destruct Hr as [Hr|[-> Hr]]; [by left|right; by auto].
Qed.

Lemma commit_spec io key kind filename generation state payload expected s s' r :
  commit io key kind filename generation state payload expected s = (s', r) →
  (∀ g, validate_filename g = Ok tt → g ≠ filename → stat s' g = stat s g)
  ∧ match r with
    | Ok revision =>
        commit_arguments key kind filename generation state payload
        ∧ revision = expected + 1
        ∧ replaced key kind filename generation state payload expected s s'
        ∧ root_kind s' = Some RootDirectory
        ∧ (f_lock_remove io = false → stat s' (lock_path filename) = None)
    | Err e =>
        stat s' filename = stat s filename
        ∨ e = Unknown ∧ commit_arguments key kind filename generation state payload
          ∧ replaced key kind filename generation state payload expected s s'
    | Panic => False
    end.
Proof.
  unfold AuthorityStore.commit, st_bind, st_lift. intros H.
  destruct (validate_labels_cases key kind state) as [Hl|Hl]; rewrite Hl in H; [|simplify_eq; auto].
  destruct (validate_filename_cases filename) as [Hf|Hf]; rewrite Hf in H; [|simplify_eq; auto].
  destruct (_ || _) eqn:Hg; [simplify_eq; auto|]. bool_facts.
  destruct (ensure_directory io s) as [s1 r1] eqn:He.
  pose proof (λ g, ensure_directory_stat _ _ _ _ g He) as Hs1.
  assert (Hnl : ∀ g, validate_filename g = Ok tt → g ≠ lock_path filename)
    by (intros g Hg' ->; by apply (lock_path_invalid filename)).
  destruct r1 as [[]|e|]; [|simplify_eq; auto|by apply ensure_directory_returns in He].
  apply with_file_lock_spec in H as [(e & -> & _ & Hs2 & _)|(s2 & s3 & Ha & Hb & -> & Hs2 & Hk2)].
  { split; [|left]; intros; rewrite Hs2 by auto; apply Hs1. }
  assert (Hs2' : ∀ g, validate_filename g = Ok tt → stat s2 g = stat s g)
    by (intros g Hg'; rewrite Hs2 by auto; apply Hs1).
  destruct (commit_locked_spec _ _ _ _ _ _ _ _ _ _ _ Hf Hb) as (Hframe & Hkind & Hr).
  assert (Hrel : ∀ g, validate_filename g = Ok tt →
                   stat (release io (lock_path filename) s3) g = stat s3 g)
    by (intros; apply release_stat; auto).
  split; [intros g Hg' Hne; rewrite Hrel, Hframe by done; auto|].
  assert (Hrep : replaced key kind filename generation state payload expected s2 s3 →
    replaced key kind filename generation state payload expected s
      (release io (lock_path filename) s3)).
  { unfold replaced, written, holds. rewrite Hrel by done. intros ((c & Hc & Hx) & ? & ?).
    split; [|done]. exists c. rewrite <-Hc. split; [|done]. symmetry. apply read_record_stat. auto. }
  assert (Hargs : commit_arguments key kind filename generation state payload) by done.
  destruct r as [revision|e|]; [|rewrite Hrel, <-(Hs2' filename) by done; naive_solver|done].
  destruct Hr as [-> Hr]. apply ensure_directory_kind in He. split_and!; auto.
  - unfold release. destruct (f_lock_remove io); rewrite ?root_kind_set_files; congruence.
  - intros Hrm. unfold release. rewrite Hrm, stat_set_files.
    destruct (fs_root s3); simpl; [apply lookup_delete_eq|done].
Qed.

(** ** The file store implements the interface *)
Hypothesis json_roundtrip : ∀ e bs, json_to_vec e = Some bs → json_from_slice bs = Some e.
Hypothesis b64_roundtrip : ∀ bs, b64_decode (b64_encode bs) = Some bs.

#[local] Instance file_store : RevisionStore FileAuthorityStore IoFaults := {|
  rs_load io n := load io (rn_key n) (rn_kind n) (rn_filename n);
  rs_commit io n := commit io (rn_key n) (rn_kind n) (rn_filename n);
  rs_view n := read_record no_faults (rn_key n) (rn_kind n) (rn_filename n);
  rs_name_ok f := validate_filename f = Ok tt;
|}.

Lemma read_sealed key kind filename generation state payload expected s :
  commit_arguments key kind filename generation state payload → 0 ≤ expected →
  written filename (sealed_envelope key kind generation state payload expected) s →
  read_record no_faults key kind filename s
  = Ok (Some {| sa_revision := expected + 1; sa_generation := generation;
                sa_state := state; sa_payload := payload |}).
Proof.
  intros (Hl & _ & Hg & Hp) He (bytes & Hj & Hlen & Hh). unfold holds in Hh.
  unfold AuthorityStore.read_record. simpl. rewrite Hh. simpl.
  rewrite (proj2 (Z.ltb_ge _ _) Hlen). simpl. rewrite (json_roundtrip _ _ Hj). simpl.
  unfold AuthorityStore.decode_record. simpl.
  rewrite !bool_decide_false by tauto. rewrite (proj2 (Z.eqb_neq (expected + 1) 0)) by lia.
  rewrite (proj2 (Z.eqb_neq generation 0)), (proj2 (Z.ltb_ge _ _) Hp) by done. simpl.
  rewrite Hl. simpl. rewrite b64_roundtrip. simpl. rewrite Z.eqb_refl. simpl.
  by rewrite (proj2 (digests_equal_spec _ _ eq_refl) eq_refl).
Qed.

Lemma replaced_advanced n generation state payload expected s s' :
  commit_arguments (rn_key n) (rn_kind n) (rn_filename n) generation state payload →
  0 ≤ expected →
  replaced (rn_key n) (rn_kind n) (rn_filename n) generation state payload expected s s' →
  advanced n generation state payload expected s s'.
Proof.
  intros Ha He (Hc & Hmax & Hw). split; [exact Hc|]. split; [done|]. by apply read_sealed.
Qed.

Lemma load_returns io key kind filename s : returns (load io key kind filename s).
Proof.
  unfold AuthorityStore.load. apply bind_returns.
  { by destruct (validate_labels_cases key kind (str_lit "active")) as [->| ->]. }
  intros _ _. apply bind_returns; [by destruct (validate_filename_cases filename) as [->| ->]|].
  intros _ _. repeat (cases_goal; try done). apply read_record_returns.
Qed.

Lemma file_store_laws : LawfulRevisionStore FileAuthorityStore IoFaults.
Proof.
  split; simpl.
  - intros f n s o. apply load_reads.
  - intros. apply load_returns.
  - intros f n g st p e s s' r He H. apply commit_spec in H as [_ H].
    destruct r as [revision|err|]; [| |done].
    + destruct H as (Ha & -> & Hr & _). split; [done|]. by apply replaced_advanced.
    + destruct H as [H|(-> & Ha & Hr)]; [left; by apply read_record_stat|].
      right. split; [done|]. by apply replaced_advanced.
  - intros f n g st p e s s' r n' H Hok Hne. apply commit_spec in H as [H _].
    apply read_record_stat. by apply H.
Qed.

Lemma read_record_None io key kind filename s :
  read_record io key kind filename s = Ok None → stat s filename = None.
Proof.
  unfold AuthorityStore.read_record. intros H. cases_in H; [discriminate|].
  destruct (stat s filename); [|done]. cases_in H; [discriminate|].
  apply bind_Ok in H as (? & _ & H). cases_in H; [discriminate|]. cases_in H; [discriminate|].
  apply bind_Ok in H as (? & _ & H).
  by apply fmap_Ok in H as (? & _ & ?).
Qed.

(** What a deletion did to the record file. *)
Definition deletion (key kind filename : list byte) (expected : Z) (s s' : FileAuthorityStore)
    (r : store_result AuthorityDeleteOutcome) : Prop :=
  match r with
  | Ok Deleted =>
      (∃ current, read_record no_faults key kind filename s = Ok (Some current)
         ∧ sa_revision current = expected)
      ∧ stat s' filename = None
  | Ok Missing => stat s' filename = stat s filename ∧ stat s filename = None
  | Err e => stat s' filename = stat s filename ∨ e = Unknown ∧ stat s' filename = None
  | Panic => False
  end.

Lemma delete_record_spec io key kind filename expected s s' r :
  delete_record io key kind filename expected s = (s', r) →
  (∀ g, validate_filename g = Ok tt → g ≠ filename → stat s' g = stat s g)
  ∧ deletion key kind filename expected s s' r.
Proof.
  unfold AuthorityStore.delete_record, st_bind at 1 2, st_lift at 1 2. intros H.
  destruct (validate_labels_cases key kind (str_lit "active")) as [Hl|Hl];
    rewrite Hl in H; [|simplify_eq; split; [|left]; auto].
  destruct (validate_filename_cases filename) as [Hf|Hf]; rewrite Hf in H;
    [|simplify_eq; split; [|left]; auto].
  destruct (f_root_stat io); [simplify_eq; split; [|left]; auto|].
  destruct (fs_root s) as [root|] eqn:Hroot; 
    [|simplify_eq; unfold deletion, stat; rewrite Hroot; auto].
  destruct (re_kind root); [|simplify_eq; split; [|left]; auto..].
  assert (Hnl : ∀ g, validate_filename g = Ok tt → g ≠ lock_path filename)
    by (intros g Hg' ->; by apply (lock_path_invalid filename)).
  apply with_file_lock_spec in H as [(e & -> & _ & Hs & _)|(s1 & s2 & _ & Hb & -> & Hs & _)].
  { split; [|left]; intros; apply Hs; auto. }
  assert (Hrel : ∀ g, validate_filename g = Ok tt →
                   stat (release io (lock_path filename) s2) g = stat s2 g)
    by (intros; apply release_stat; auto).
  cut ((∀ g, validate_filename g = Ok tt → g ≠ filename → stat s2 g = stat s g)
       ∧ deletion key kind filename expected s s2 r).
  { intros [H1 H2]. split; [intros; rewrite Hrel by done; auto|].
    unfold deletion in *. by rewrite Hrel. }
  clear Hrel. unfold deletion.
  unfold st_bind, st_err, st_ret, st_modify, st_lift in Hb.
  pose proof (read_record_returns io key kind filename s1) as Hret.
  destruct (read_record io key kind filename s1) as [[current|]|e|] eqn:Hread; [| | |done];
    [|simplify_eq; split; [auto|]|simplify_eq; auto].
  - apply read_record_no_faults in Hread. rewrite (read_record_stat _ _ _ _ s) in Hread by auto.
    destruct (negb _) eqn:Hrev; [simplify_eq; auto|]. bool_facts.
    destruct (f_record_remove io); [simplify_eq; auto|].
    assert (Hgone : stat (set_files (delete filename) s1) filename = None).
    { rewrite stat_set_files. destruct (fs_root s1); simpl; [apply lookup_delete_eq|done]. }
    unfold sync_directory in Hb. destruct (f_dir_sync io); simplify_eq;
      (split; [intros; rewrite stat_delete_ne by done; auto|eauto]).
  - apply read_record_None in Hread. rewrite <-(Hs filename) by auto. auto.
Qed.

(** Two accepted envelopes with one digest. *)
Lemma decode_record_Ok envelope key kind r :
  decode_record envelope key kind = Ok r →
  length (ae_integrity envelope) = 32%nat → (∀ x, length (sha256 x) = 32%nat) →
  ae_key envelope = key ∧ ae_kind envelope = kind
  ∧ ae_protection envelope = DEVELOPMENT_INSECURE_STORAGE_PROFILE
  ∧ ae_schema_version envelope = AUTHORITY_SCHEMA_VERSION
  ∧ sa_revision r = ae_revision envelope ∧ sa_generation r = ae_generation envelope
  ∧ sa_state r = ae_state envelope
  ∧ validate_labels key kind (sa_state r) = Ok tt
  ∧ len (sa_payload r) ≤ MAX_AUTHORITY_PAYLOAD_BYTES
  ∧ ae_integrity envelope = sha256 (digest_input envelope (sa_payload r)).
Proof.
  unfold AuthorityStore.decode_record, record_digest. intros H Hl Hsha.
  destruct (_ || _) eqn:Hc; [discriminate|]. bool_facts.
  apply bind_Ok in H as ([] & Hlabels & H). apply bind_Ok in H as (payload & Hp & H).
  destruct (negb (len payload =? _)) eqn:Hlen; [discriminate|].
  destruct (negb (digests_equal _ _)) eqn:Hd; [discriminate|]. bool_facts. simplify_eq/=.
  apply digests_equal_spec in Hd; [|by rewrite Hsha]. split_and!; try done; try lia.
Qed.
End StoreFacts.

(** Field widths of an envelope read from JSON. *)
Record envelope_widths (e : AuthorityEnvelope) : Prop := {
  ew_key : len (ae_key e) ≤ u64_max;
  ew_kind : len (ae_kind e) ≤ u64_max;
  ew_protection : len (ae_protection e) ≤ u64_max;
  ew_state : len (ae_state e) ≤ u64_max;
  ew_schema : is_u32 (ae_schema_version e);
  ew_revision : is_u64 (ae_revision e);
  ew_generation : is_u64 (ae_generation e);
  ew_integrity : length (ae_integrity e) = 32%nat;
}.

Lemma digest_input_inj e1 e2 p1 p2 :
  envelope_widths e1 → envelope_widths e2 → len p1 ≤ u64_max → len p2 ≤ u64_max →
  digest_input e1 p1 = digest_input e2 p2 →
  ae_key e1 = ae_key e2 ∧ ae_kind e1 = ae_kind e2 ∧ ae_protection e1 = ae_protection e2
  ∧ ae_state e1 = ae_state e2 ∧ ae_schema_version e1 = ae_schema_version e2
  ∧ ae_revision e1 = ae_revision e2 ∧ ae_generation e1 = ae_generation e2 ∧ p1 = p2.
Proof.
  intros [] [] H1 H2. unfold digest_input, is_u32, is_u64, u32_max, u64_max in *.
  intros H%app_inj_1; [|done]. destruct H as [_ H].
  apply length_prefixed_inj in H as [-> H]; [|done..].
  apply length_prefixed_inj in H as [-> H]; [|done..].
  apply length_prefixed_inj in H as [-> H]; [|done..].
  apply length_prefixed_inj in H as [-> H]; [|done..].
  apply be_bytes_inj in H as [-> H]; [|lia..].
  apply be_bytes_inj in H as [-> H]; [|lia..].
  apply be_bytes_inj in H as [-> H]; [|lia..].
  apply be_bytes_inj in H as [_ ->]; [done|pose proof (len_nonneg p1)|pose proof (len_nonneg p2)]; lia.
Qed.

Lemma validate_labels_active key kind state :
  validate_labels key kind state = Ok tt → validate_labels key kind (str_lit "active") = Ok tt.
Proof.
  unfold validate_labels. intros H. cases_in H; [|discriminate].
  apply andb_true_iff in Heqb as [Hkk _]. rewrite Hkk. reflexivity.
Qed.

(** ** Demonstration data for the witnesses *)
Definition demo_key : list byte := str_lit "herdr-dog/relay/demo".
Definition demo_kind : list byte := str_lit "runtime_fence".
Definition demo_filename : list byte := str_lit "demo.json".
Definition demo_sha256 (_ : list byte) : list byte := zeros 32.
Definition demo_envelope : AuthorityEnvelope :=
  sealed_envelope demo_sha256 (λ p, p) demo_key demo_kind 1 (str_lit "active") [x07] 0.
Definition demo_to_vec (e : AuthorityEnvelope) : option (list byte) :=
  if decide (e = demo_envelope) then Some [x7b; x7d] else None.
Definition demo_from_slice (bs : list byte) : option AuthorityEnvelope :=
  if decide (bs = [x7b; x7d]) then Some demo_envelope else None.
Definition demo_store : FileAuthorityStore :=
  {| fs_root := None; fs_pid := 17; fs_counter := 0 |}.
Definition demo_commit (s : FileAuthorityStore) : FileAuthorityStore * store_result Z :=
  commit demo_sha256 (λ p, p) Some demo_to_vec demo_from_slice no_faults
    demo_key demo_kind demo_filename 1 (str_lit "active") [x07] 0 s.

Lemma demo_json_roundtrip e bs : demo_to_vec e = Some bs → demo_from_slice bs = Some e.
Proof.
  unfold demo_to_vec, demo_from_slice. intros H. destruct (decide (e = demo_envelope)); [|done].
  simplify_eq. by rewrite decide_True.
Qed.

(** * Properties *)

(** C4. The file store refines the register specification.  When JSON and base64 decode
    what they encode, [FileAuthorityStore] satisfies every law of the compare-and-commit
    interface, whichever system calls fail: a load answers what a fault-free reader would
    see; a successful commit found the record at the expected revision and replaced it by
    exactly what was committed, at the next revision; a failed commit left the record
    unchanged, or reported [Unknown] after such a replacement; other records are never
    touched; and nothing panics. *)
Theorem file_store_refines_register sha256 b64_encode b64_decode json_to_vec json_from_slice :
  (∀ e bs, json_to_vec e = Some bs → json_from_slice bs = Some e) →
  (∀ bs, b64_decode (b64_encode bs) = Some bs) →
  @LawfulRevisionStore FileAuthorityStore IoFaults
    (file_store sha256 b64_encode b64_decode json_to_vec json_from_slice).
Proof. intros Hj Hb. by apply file_store_laws. Qed.

Lemma file_store_refines_register_witness :
  @LawfulRevisionStore FileAuthorityStore IoFaults
    (file_store demo_sha256 (λ p, p) Some demo_to_vec demo_from_slice)
  ∧ (demo_commit demo_store).2 = Ok 1.
Proof.
  split; [|vm_compute; reflexivity].
  apply file_store_refines_register; [apply demo_json_roundtrip | reflexivity].
Defined.

(** A committed record survives.  After a successful commit whose lock file could be
    removed, a load of the same record answers the committed generation, state and
    payload at the revision after the expected one; before it, the record was at exactly
    the expected revision. *)
Lemma commit_then_load sha256 b64_encode b64_decode json_to_vec json_from_slice
    io key kind filename generation state payload expected s s' revision :
  (∀ e bs, json_to_vec e = Some bs → json_from_slice bs = Some e) →
  (∀ bs, b64_decode (b64_encode bs) = Some bs) →
  0 ≤ expected → f_lock_remove io = false →
  commit sha256 b64_encode b64_decode json_to_vec json_from_slice io key kind filename
    generation state payload expected s = (s', Ok revision) →
  revision = expected + 1
  ∧ (∃ current, read_record sha256 b64_decode json_from_slice no_faults key kind filename s = Ok current
       ∧ current_revision current = expected)
  ∧ load sha256 b64_decode json_from_slice no_faults key kind filename s'
    = Ok (Some {| sa_revision := revision; sa_generation := generation;
                  sa_state := state; sa_payload := payload |}).
Proof.
  intros Hj Hb He Hrm (_ & Ha & -> & (Hc & _ & Hw) & Hk & Hlock)%commit_spec.
  split; [done|]. split; [exact Hc|]. destruct (Ha) as (Hl & Hf & _).
  unfold load. rewrite (validate_labels_active _ _ _ Hl). simpl. rewrite Hf. simpl.
  unfold root_kind in Hk. destruct (fs_root s') as [root|]; [|done]. simplify_eq/=.
  rewrite (Hlock Hrm), Hk. by eapply read_sealed.
Qed.

(** No lost update.  Once a commit at some expected revision has succeeded, no later
    commit of the same record at that revision succeeds, whatever commits of this and
    other records, successful or failed, happen in between. *)
Lemma stale_commit_refused sha256 b64_encode b64_decode json_to_vec json_from_slice
    n (op1 op2 : CommitOp IoFaults) s s1 revision ops :
  (∀ e bs, json_to_vec e = Some bs → json_from_slice bs = Some e) →
  (∀ bs, b64_decode (b64_encode bs) = Some bs) →
  let st := file_store sha256 b64_encode b64_decode json_to_vec json_from_slice in
  validate_filename (rn_filename n) = Ok tt → Forall (well_named n) ops →
  co_name op1 = n → co_name op2 = n → 0 ≤ co_expected op1 → co_expected op2 = co_expected op1 →
  run_commit s op1 = (s1, Ok revision) →
  ∃ e, (run_commit (run_commits s1 ops) op2).2 = Err e.
Proof.
  intros Hj Hb st Hf Hops H1 H2 He Heq Hr.
  pose proof (file_store_laws sha256 b64_encode b64_decode json_to_vec json_from_slice Hj Hb).
  by apply (commit_exclusive n op1 op2 s s1 revision ops).
Qed.

Definition demo_op : CommitOp IoFaults :=
  {| co_faults := no_faults;
     co_name := {| rn_key := demo_key; rn_kind := demo_kind; rn_filename := demo_filename |};
     co_generation := 1; co_state := str_lit "active"; co_payload := [x07]; co_expected := 0 |}.

(** Records are tamper evident.  If two envelopes carry the same digest and both are
    accepted, then they were accepted under the same key and kind as the same record, or
    two different byte strings with the same SHA-256 hash are at hand: the bytes that are
    hashed determine every field of the record. *)
Lemma record_tamper_evident sha256 b64_decode e1 e2 key1 key2 kind1 kind2 r1 r2 :
  (∀ x, length (sha256 x) = 32%nat) →
  envelope_widths e1 → envelope_widths e2 →
  decode_record sha256 b64_decode e1 key1 kind1 = Ok r1 →
  decode_record sha256 b64_decode e2 key2 kind2 = Ok r2 →
  ae_integrity e1 = ae_integrity e2 →
  (key1 = key2 ∧ kind1 = kind2 ∧ r1 = r2) ∨ (∃ x y, x ≠ y ∧ sha256 x = sha256 y).
Proof.
  intros Hsha W1 W2 D1 D2 Heq.
  apply decode_record_Ok in D1 as (K1 & N1 & _ & _ & R1 & G1 & S1 & _ & P1 & I1);
    [|apply (ew_integrity _ W1)|done].
  apply decode_record_Ok in D2 as (K2 & N2 & _ & _ & R2 & G2 & S2 & _ & P2 & I2);
    [|apply (ew_integrity _ W2)|done].
  destruct (decide (digest_input e1 (sa_payload r1) = digest_input e2 (sa_payload r2))) as [Hd|Hd].
  - left. unfold MAX_AUTHORITY_PAYLOAD_BYTES in *. unfold u64_max in *.
    apply digest_input_inj in Hd as (? & ? & _ & ? & _ & ? & ? & ?);
      [|done|done|unfold u64_max; lia..].
    split; [congruence|]. split; [congruence|]. destruct r1, r2; simpl in *. congruence.
  - right. eexists _, _. split; [exact Hd|]. congruence.
Qed.

Lemma record_tamper_evident_witness :
  (demo_key = demo_key ∧ demo_kind = demo_kind
   ∧ {| sa_revision := 1; sa_generation := 1; sa_state := str_lit "active"; sa_payload := [x07] |}
     = {| sa_revision := 1; sa_generation := 1; sa_state := str_lit "active"; sa_payload := [x07] |})
  ∨ (∃ x y, x ≠ y ∧ demo_sha256 x = demo_sha256 y).
Proof.
  apply (record_tamper_evident demo_sha256 Some demo_envelope demo_envelope).
  - reflexivity.
  - split; vm_compute; (discriminate || reflexivity || (split; discriminate)).
  - split; vm_compute; (discriminate || reflexivity || (split; discriminate)).
  - vm_compute. reflexivity.
  - vm_compute. reflexivity.
  - reflexivity.
Defined.

(** Commits are durable and exclusive.  After a successful commit whose lock file could
    be removed, a load of the same record answers the committed generation, state and payload
    at the revision after the expected one, at which the record was before.  Once a commit at
    some expected revision has succeeded, no later commit of the same record at that revision
    succeeds, whatever commits of this and other records, successful or failed, happen in
    between. *)
Lemma commits_durable_and_exclusive sha256 b64_encode b64_decode json_to_vec json_from_slice
    (op1 op2 : CommitOp IoFaults) s s1 revision ops :
  (∀ e bs, json_to_vec e = Some bs → json_from_slice bs = Some e) →
  (∀ bs, b64_decode (b64_encode bs) = Some bs) →
  let st := file_store sha256 b64_encode b64_decode json_to_vec json_from_slice in
  let n := co_name op1 in
  0 ≤ co_expected op1 → run_commit s op1 = (s1, Ok revision) →
  (f_lock_remove (co_faults op1) = false →
   revision = co_expected op1 + 1
   ∧ (∃ current, read_record sha256 b64_decode json_from_slice no_faults (rn_key n) (rn_kind n) (rn_filename n) s
                 = Ok current ∧ current_revision current = co_expected op1)
   ∧ load sha256 b64_decode json_from_slice no_faults (rn_key n) (rn_kind n) (rn_filename n) s1
     = Ok (Some {| sa_revision := revision; sa_generation := co_generation op1;
                   sa_state := co_state op1; sa_payload := co_payload op1 |}))
  ∧ (validate_filename (rn_filename n) = Ok tt → Forall (well_named n) ops →
     co_name op2 = n → co_expected op2 = co_expected op1 →
     ∃ e, (run_commit (run_commits s1 ops) op2).2 = Err e).
Proof.
  intros Hj Hb st n He Hr. split.
  - intros Hrm. destruct op1 as [f [key kind filename] ? ? ? ?]. by eapply commit_then_load.
  - intros Hf Hops H2 Heq. by apply (stale_commit_refused sha256 b64_encode b64_decode json_to_vec json_from_slice n op1 op2 s s1 revision ops).
Qed.

Lemma commits_durable_and_exclusive_witness :
  load demo_sha256 Some demo_from_slice no_faults demo_key demo_kind demo_filename
    (demo_commit demo_store).1
  = Ok (Some {| sa_revision := 1; sa_generation := 1; sa_state := str_lit "active";
                sa_payload := [x07] |})
  ∧ ∃ e, (demo_commit (demo_commit demo_store).1).2 = Err e.
Proof.
  destruct (commits_durable_and_exclusive demo_sha256 (λ p, p) Some demo_to_vec demo_from_slice
    demo_op demo_op demo_store (demo_commit demo_store).1 1 []) as [Hl Hx].
  - apply demo_json_roundtrip.
  - reflexivity.
  - simpl. lia.
  - apply run_outcome. vm_compute. reflexivity.
  - split; [apply Hl; reflexivity|]. apply Hx; [vm_compute; reflexivity|constructor|reflexivity..].
Defined.
