(* ===== verification/IrohWire.v ===== *)
(** * HDP1 control frames and the frame readers (src/src/iroh_endpoint.rs)

    The HDP1 frame codec of the pairing exchange, and the functions that read one HDP1
    frame, one HDQM frame or one HDQS binding from a byte stream.  A stream is the list
    of the bytes the peer will send before it closes; [read_exact] takes its first bytes
    or fails at the end of the stream. *)
From S2P Require Export QuicWire StreamReader.

Definition HDP1_VERSION : Z := 1.
Definition HDP1_MAX_FRAME_BYTES : Z := 64 * 1024.
Definition HDP1_HEADER_BYTES : Z := 11.
Definition HDQM_PAYLOAD_LENGTH_BYTES : Z := 4.

Inductive HdpKind : Type :=
| PairingStart
| PairingSubmit
| PairingAccepted
| PairingRejected
| ConnectionReady
| HdpGoAway.

#[export] Instance HdpKind_eq_dec : EqDecision HdpKind.
Proof. solve_decision. Defined.

Inductive HdpFrameError : Type :=
| HdpFrameTooShort
| HdpInvalidMagic
| HdpUnsupportedVersion
| HdpUnknownKind
| HdpFrameTooLarge
| HdpLengthMismatch.

#[export] Instance HdpFrameError_eq_dec : EqDecision HdpFrameError.
Proof. solve_decision. Defined.

Abbreviation hresult := (outcome HdpFrameError).

(** [kind as u8]. *)
Definition HdpKind_as_u8 (kind : HdpKind) : Z :=
  match kind with
  | PairingStart => 1
  | PairingSubmit => 2
  | PairingAccepted => 3
  | PairingRejected => 4
  | ConnectionReady => 5
  | HdpGoAway => 6
  end.

Definition HdpKind_try_from (value : Z) : hresult HdpKind :=
  match value with
  | 1 => Ok PairingStart
  | 2 => Ok PairingSubmit
  | 3 => Ok PairingAccepted
  | 4 => Ok PairingRejected
  | 5 => Ok ConnectionReady
  | 6 => Ok HdpGoAway
  | _ => Err HdpUnknownKind
  end.

Record HdpFrame : Type := {
  hp_kind : HdpKind;
  hp_payload : list byte;
}.

#[export] Instance HdpFrame_eq_dec : EqDecision HdpFrame.
Proof. solve_decision. Defined.

Definition HDP1_MAGIC : list byte := str_lit "HDP1".

(** A payload length never overflows [usize] here, so [checked_add] only fails through
    the size test that follows it. *)
Definition HdpFrame_encode (f : HdpFrame) : hresult (list byte) :=
  let total := HDP1_HEADER_BYTES + len (hp_payload f) in
  if HDP1_MAX_FRAME_BYTES <? total then Err HdpFrameTooLarge else
  Ok (HDP1_MAGIC ++ be_bytes 2 HDP1_VERSION ++ [byte_of_Z (HdpKind_as_u8 (hp_kind f))]
      ++ be_bytes 4 (len (hp_payload f)) ++ hp_payload f).

Definition HdpFrame_decode (bytes : list byte) : hresult HdpFrame :=
  if len bytes <? HDP1_HEADER_BYTES then Err HdpFrameTooShort else
  magic ← slice bytes 0 4;
  if bool_decide (magic ≠ HDP1_MAGIC) then Err HdpInvalidMagic else
  version ← index_u16 bytes 4;
  if negb (version =? HDP1_VERSION) then Err HdpUnsupportedVersion else
  tag ← index bytes 6;
  kind ← HdpKind_try_from (byte_val tag);
  payload_len ← index_u32 bytes 7;
  let total := HDP1_HEADER_BYTES + payload_len in
  if HDP1_MAX_FRAME_BYTES <? total then Err HdpFrameTooLarge else
  if negb (len bytes =? total) then Err HdpLengthMismatch else
  payload ← slice_from bytes 11;
  Ok {| hp_kind := kind; hp_payload := payload |}.

Definition HdpFrame_valid (f : HdpFrame) : Prop :=
  HDP1_HEADER_BYTES + len (hp_payload f) ≤ HDP1_MAX_FRAME_BYTES.

(** The frame [send_hdp_status] sends. *)
Definition hdp_status (kind : HdpKind) (reason : Z) : HdpFrame :=
  {| hp_kind := kind; hp_payload := if reason =? 0 then [] else [byte_of_Z reason] |}.

(** ** Reading frames from a stream *)

Definition read_hdp_frame (max_frame_bytes : Z) : stateful (list byte) HdpFrameError HdpFrame :=
  (let! header := read_exact 11 HdpFrameTooShort in
   let! payload_len := st_lift (index_u32 header 7) in
   let total := HDP1_HEADER_BYTES + payload_len in
   if (max_frame_bytes <? total) || (HDP1_MAX_FRAME_BYTES <? total)
   then st_err HdpFrameTooLarge else
   let! payload := read_exact (Z.to_nat payload_len) HdpLengthMismatch in
   st_lift (HdpFrame_decode (header ++ payload)))%relay.

Definition read_hdqm_frame (max_frame_bytes : Z) : stateful (list byte) HdpFrameError HdqmFrame :=
  (let! header := read_exact 27 HdpFrameTooShort in
   let! magic := st_lift (slice header 0 4) in
   if bool_decide (magic ≠ HDQM_MAGIC) then st_err HdpInvalidMagic else
   let payload_length_offset := HDQM_HEADER_BYTES - HDQM_PAYLOAD_LENGTH_BYTES in
   let! payload_len :=
     st_lift (be_val <$> get_array 4 header (Z.to_nat payload_length_offset) (length header)) in
   let total := HDQM_HEADER_BYTES + payload_len in
   if (max_frame_bytes <? total) || (HDP1_MAX_FRAME_BYTES <? total)
   then st_err HdpFrameTooLarge else
   let! payload := read_exact (Z.to_nat payload_len) HdpLengthMismatch in
   st_lift (map_err (λ _, HdpLengthMismatch) (HdqmFrame_decode (header ++ payload))))%relay.

(** The redacted failures of a connection handler. *)
Inductive IrohConnectionError : Type :=
| ConnectionIo
| ConnectionProtocol
| ConnectionTimeout
| ConnectionPersistence.

#[export] Instance IrohConnectionError_eq_dec : EqDecision IrohConnectionError.
Proof. solve_decision. Defined.

Definition read_hdqs_binding : stateful (list byte) IrohConnectionError HdqsBinding :=
  (let! prefix := read_exact 33 ConnectionIo in
   let! magic := st_lift (slice prefix 0 4) in
   if bool_decide (magic ≠ HDQS_MAGIC) then st_err ConnectionProtocol else
   let! b32 := st_lift (index prefix 32) in
   let name_len := byte_val b32 in
   if (name_len =? 0) || (QRM_MAX_SESSION_NAME_BYTES <? name_len) then st_err ConnectionProtocol else
   let! tail := read_exact (Z.to_nat name_len + 64) ConnectionIo in
   st_lift (map_err (λ _, ConnectionProtocol) (HdqsBinding_decode (prefix ++ tail))))%relay.

(** * Facts *)
Ltac unfold_widths ::=
  unfold QRM_MAX_CONTROL_PAYLOAD_BYTES, QRM_MAX_CONTROL_FRAME_BYTES, HDQM_HEADER_BYTES,
    QRM_MAX_SESSION_NAME_BYTES, QRM_AUTHORITY_BYTES, HDQS_RESPONSE_BYTES,
    QRM_DEVICE_HELLO_ACK_BYTES, QRM_PROTOCOL_VERSION, HDP1_VERSION, HDP1_MAX_FRAME_BYTES,
    HDP1_HEADER_BYTES, HDQM_PAYLOAD_LENGTH_BYTES, is_u16, is_u32, is_u64, u16_max, u32_max,
    u64_max in *.

Lemma HdpKind_try_from_Ok z k : HdpKind_try_from z = Ok k → z = HdpKind_as_u8 k.
Proof. intros H. try_from_inv z H; injection H as <-; done. Qed.

Lemma HdpKind_try_from_returns z : returns (HdpKind_try_from z).
Proof. unfold returns. intros H. try_from_inv z H. Qed.

Lemma HdpKind_try_from_byte k : HdpKind_try_from (byte_val (byte_of_Z (HdpKind_as_u8 k))) = Ok k.
Proof. by destruct k. Qed.

#[export] Hint Resolve HdpKind_try_from_byte : wire.
#[export] Hint Resolve HdpKind_try_from_returns : relay.

Lemma HdpFrame_roundtrip f :
  HdpFrame_valid f → ∃ bs, HdpFrame_encode f = Ok bs ∧ HdpFrame_decode bs = Ok f.
Proof.
  unfold HdpFrame_valid. intros Hp. unfold HdpFrame_encode. cbn zeta.
  rewrite (proj2 (Z.ltb_ge _ _) Hp). eexists. split; [done|]. unfold HdpFrame_decode. cbn zeta.
  repeat read_step. by destruct f.
Qed.

Lemma HdpFrame_canonical bs f :
  HdpFrame_decode bs = Ok f → HdpFrame_valid f ∧ HdpFrame_encode f = Ok bs.
Proof.
  unfold HdpFrame_decode. cbn zeta. intros H. decode_inv H. bool_facts. injection H as <-.
  reads_to_slices. join_slices bs. subst.
  unfold HdpFrame_valid, HdpFrame_encode. simpl hp_payload. simpl hp_kind. cbn zeta.
  assert (Hlen : len v4 = v3) by len_solve.
  split; [len_solve|]. encode_step.
  rewrite Hlen, <-(byte_as_u8 _ _ (HdpKind_try_from_Ok _ _ Hr2)). done.
Qed.

Lemma HdpFrame_decode_returns bs : returns (HdpFrame_decode bs).
Proof. unfold HdpFrame_decode. no_panic. Qed.

#[export] Instance HdpFrame_codec : WireCodec HdpFrameError HdpFrame :=
  {| wire_valid := HdpFrame_valid; wire_encode := HdpFrame_encode;
     wire_decode := HdpFrame_decode |}.
#[export] Instance HdpFrame_lawful : LawfulCodec HdpFrameError HdpFrame.
Proof. split; [apply HdpFrame_roundtrip|apply HdpFrame_canonical|apply HdpFrame_decode_returns]. Qed.

(** ** The size functions *)
Definition hdp_size (max_frame_bytes : Z) (header : list byte) : hresult nat :=
  payload_len ← index_u32 header 7;
  if (max_frame_bytes <? HDP1_HEADER_BYTES + payload_len)
     || (HDP1_MAX_FRAME_BYTES <? HDP1_HEADER_BYTES + payload_len)
  then Err HdpFrameTooLarge else Ok (Z.to_nat payload_len).

Definition hdqm_size (max_frame_bytes : Z) (header : list byte) : hresult nat :=
  magic ← slice header 0 4;
  if bool_decide (magic ≠ HDQM_MAGIC) then Err HdpInvalidMagic else
  payload_len ← be_val <$> get_array 4 header 23 (length header);
  if (max_frame_bytes <? HDQM_HEADER_BYTES + payload_len)
     || (HDP1_MAX_FRAME_BYTES <? HDQM_HEADER_BYTES + payload_len)
  then Err HdpFrameTooLarge else Ok (Z.to_nat payload_len).

Definition hdqs_size (prefix : list byte) : outcome IrohConnectionError nat :=
  magic ← slice prefix 0 4;
  if bool_decide (magic ≠ HDQS_MAGIC) then Err ConnectionProtocol else
  b32 ← index prefix 32;
  if (byte_val b32 =? 0) || (QRM_MAX_SESSION_NAME_BYTES <? byte_val b32)
  then Err ConnectionProtocol else Ok (Z.to_nat (byte_val b32) + 64)%nat.

Lemma two_part_read_ext {E A} h (e1 e2 : E) size (decode decode' : list byte → outcome E A) stream :
  (∀ bs, decode bs = decode' bs) →
  two_part_read h e1 e2 size decode stream = two_part_read h e1 e2 size decode' stream.
Proof.
  intros Hd. unfold two_part_read, st_bind, st_lift.
  repeat (case_match; simplify_eq; try done). by rewrite Hd.
Qed.

Ltac two_part_unfold :=
  unfold two_part_read, st_bind, st_lift, st_err;
  repeat match goal with
  | |- context [read_exact ?n ?e ?s] => destruct (read_exact n e s) as [? [?|?|]]; try reflexivity
  end.

Lemma read_hdp_frame_two_part max stream :
  two_part_read 11 HdpFrameTooShort HdpLengthMismatch (hdp_size max)
    (λ bs, map_err id (wire_decode bs)) stream = read_hdp_frame max stream.
Proof.
  unfold read_hdp_frame, hdp_size. two_part_unfold.
  destruct (index_u32 a 7) as [n|e|]; simpl; [|done..].
  destruct (_ || _); simpl; [done|]. two_part_unfold. by rewrite map_err_id.
Qed.

Lemma read_hdqm_frame_two_part max stream :
  two_part_read 27 HdpFrameTooShort HdpLengthMismatch (hdqm_size max)
    (λ bs, map_err (λ _, HdpLengthMismatch) (wire_decode bs)) stream = read_hdqm_frame max stream.
Proof.
  unfold read_hdqm_frame, hdqm_size. two_part_unfold.
  change (Z.to_nat (HDQM_HEADER_BYTES - HDQM_PAYLOAD_LENGTH_BYTES)) with 23%nat.
  destruct (slice a 0 4) as [m|e|]; simpl; [|done..]. destruct (bool_decide _); [done|].
  destruct (get_array 4 a 23 (length a)) as [n|e|]; simpl; [|done..].
  destruct (_ || _); simpl; [done|]. by two_part_unfold.
Qed.

Lemma read_hdqs_binding_two_part stream :
  two_part_read 33 ConnectionIo ConnectionIo hdqs_size
    (λ bs, map_err (λ _, ConnectionProtocol) (wire_decode bs)) stream = read_hdqs_binding stream.
Proof.
  unfold read_hdqs_binding, hdqs_size. two_part_unfold.
  destruct (slice a 0 4) as [m|e|]; simpl; [|done..]. destruct (bool_decide _); [done|].
  destruct (index a 32) as [n|e|]; simpl; [|done..].
  destruct (_ || _); simpl; [done|]. by two_part_unfold.
Qed.

Lemma take_header (h : nat) (bs header tail : list byte) :
  bs = header ++ tail → length header = h → (h ≤ length bs)%nat ∧ take h bs = header.
Proof. intros -> <-. rewrite length_app, take_app_length. split; [lia|done]. Qed.

Lemma hdp_size_encoded f bs :
  HdpFrame_valid f → HdpFrame_encode f = Ok bs →
  (11 ≤ length bs)%nat ∧ hdp_size HDP1_MAX_FRAME_BYTES (take 11 bs) = Ok (length bs - 11)%nat.
Proof.
  unfold HdpFrame_valid, HdpFrame_encode. cbn zeta. intros Hv He.
  rewrite (proj2 (Z.ltb_ge _ _) Hv) in He. apply Ok_inj in He as <-.
  destruct (take_header 11 _ (HDP1_MAGIC ++ be_bytes 2 HDP1_VERSION
    ++ [byte_of_Z (HdpKind_as_u8 (hp_kind f))] ++ be_bytes 4 (len (hp_payload f)))
    (hp_payload f) eq_refl) as [Hl Ht]; [by autorewrite with lens|].
  rewrite <-!app_assoc in Hl, Ht. split; [exact Hl|]. rewrite Ht. unfold hdp_size.
  read_step. rewrite (proj2 (Z.ltb_ge _ _) Hv). simpl orb. cbn iota.
  f_equal. autorewrite with lens. unfold len. simpl. lia.
Qed.

Lemma hdqm_size_encoded f bs :
  HdqmFrame_valid f → HdqmFrame_encode f = Ok bs →
  (27 ≤ length bs)%nat ∧ hdqm_size HDP1_MAX_FRAME_BYTES (take 27 bs) = Ok (length bs - 27)%nat.
Proof.
  unfold HdqmFrame_valid, HdqmFrame_encode. intros [Hid Hv] He.
  rewrite (proj2 (Z.ltb_ge _ _) Hv) in He. apply Ok_inj in He as <-.
  destruct (take_header 27 _ (HDQM_MAGIC ++ be_bytes 2 QRM_PROTOCOL_VERSION
    ++ [byte_of_Z (HdqmKind_as_u8 (hf_kind f))] ++ hf_request_id f
    ++ be_bytes 4 (len (hf_payload f))) (hf_payload f) eq_refl) as [Hl Ht];
    [by autorewrite with lens; rewrite Hid|].
  rewrite <-!app_assoc in Hl, Ht. split; [exact Hl|]. rewrite Ht. unfold hdqm_size.
  read_step. read_step.
  eapply bind_step; [apply fmap_Ok; eexists; split; [|reflexivity]; read_solve|]. cbn beta.
  rewrite be_val_u32 by len_solve.
  rewrite (proj2 (Z.ltb_ge _ _)) by len_solve. simpl orb. cbn iota.
  f_equal. autorewrite with lens. rewrite Hid. unfold len. simpl. lia.
Qed.

Lemma hdqs_size_encoded b bs :
  HdqsBinding_valid b → HdqsBinding_encode b = Ok bs →
  (33 ≤ length bs)%nat ∧ hdqs_size (take 33 bs) = Ok (length bs - 33)%nat.
Proof.
  intros (Hh & Hh0 & Hc & Hr & Hep & Hs & Hf & Ht).
  pose proof (SessionName_valid_facts _ Hs) as (Hne & Hl & Hu & Hn).
  unfold HdqsBinding_encode. cbn zeta.
  rewrite (proj2 (Z.eqb_neq _ 0) Hh0), (bool_decide_eq_false_2 _ Hne). simpl orb. cbn iota.
  rewrite (proj2 (Z.ltb_ge _ _)) by len_solve. intros He. apply Ok_inj in He as <-.
  destruct (take_header 33 _ (HDQS_MAGIC ++ be_bytes 2 QRM_PROTOCOL_VERSION
    ++ be_bytes 2 (hb_session_handle b) ++ be_bytes 8 (hb_configuration_generation b)
    ++ be_bytes 8 (hb_relay_generation b) ++ be_bytes 8 (hb_connection_epoch b)
    ++ [byte_of_Z (len (hb_session b))])
    (hb_session b ++ hb_fingerprint b ++ hb_token b) eq_refl) as [Hle Htk];
    [by autorewrite with lens|].
  rewrite <-!app_assoc in Hle, Htk. split; [exact Hle|]. rewrite Htk. unfold hdqs_size.
  read_step. read_step. read_step. rewrite val_of_byte_small by lia. read_step.
  f_equal. autorewrite with lens. rewrite Hf, Ht. unfold len. simpl. lia.
Qed.

Lemma hdp_size_bound header n :
  hdp_size HDP1_MAX_FRAME_BYTES header = Ok n → (11 + n ≤ Z.to_nat HDP1_MAX_FRAME_BYTES)%nat.
Proof.
  unfold hdp_size. intros (l & _ & H)%bind_Ok. destruct (_ || _) eqn:Hc; simplify_eq.
  bool_facts. unfold_widths. lia.
Qed.

Lemma hdqm_size_bound header n :
  hdqm_size HDP1_MAX_FRAME_BYTES header = Ok n → (27 + n ≤ Z.to_nat HDP1_MAX_FRAME_BYTES)%nat.
Proof.
  unfold hdqm_size. intros (m & _ & H)%bind_Ok. destruct (bool_decide _); [done|].
  apply bind_Ok in H as (l & _ & H). destruct (_ || _) eqn:Hc; simplify_eq.
  bool_facts. unfold_widths. lia.
Qed.

Lemma hdqs_size_bound prefix n : hdqs_size prefix = Ok n → (33 + n ≤ 161)%nat.
Proof.
  unfold hdqs_size. intros (m & _ & H)%bind_Ok. destruct (bool_decide _); [done|].
  apply bind_Ok in H as (b & _ & H). destruct (_ || _) eqn:Hc; simplify_eq.
  bool_facts. pose proof (byte_val_range b). unfold_widths. lia.
Qed.

Lemma hdp_reader :
  frame_reader HdpFrame_valid HdpFrame_encode (read_hdp_frame HDP1_MAX_FRAME_BYTES)
    (Z.to_nat HDP1_MAX_FRAME_BYTES).
Proof.
  eapply frame_reader_ext; [apply read_hdp_frame_two_part|].
  apply (two_part_frame_reader (WC := HdpFrame_codec)).
  - apply hdp_size_encoded.
  - intros header n _. apply hdp_size_bound.
  - intros header Hh. unfold hdp_size. no_panic.
  - unfold_widths. lia.
Qed.

Lemma hdqm_reader :
  frame_reader HdqmFrame_valid HdqmFrame_encode (read_hdqm_frame HDP1_MAX_FRAME_BYTES)
    (Z.to_nat HDP1_MAX_FRAME_BYTES).
Proof.
  eapply frame_reader_ext; [apply read_hdqm_frame_two_part|].
  apply (two_part_frame_reader (WC := HdqmFrame_codec)).
  - apply hdqm_size_encoded.
  - intros header n _. apply hdqm_size_bound.
  - intros header Hh. unfold hdqm_size. no_panic. apply fmap_returns, get_array_returns; lia.
  - unfold_widths. lia.
Qed.

Lemma hdqs_reader :
  frame_reader HdqsBinding_valid HdqsBinding_encode read_hdqs_binding 161.
Proof.
  eapply frame_reader_ext; [apply read_hdqs_binding_two_part|].
  apply (two_part_frame_reader (WC := HdqsBinding_codec)).
  - apply hdqs_size_encoded.
  - intros header n _. apply hdqs_size_bound.
  - intros header Hh. unfold hdqs_size. no_panic.
  - lia.
Qed.

(** * Properties *)

(** C5. Framing of the control and session streams.  The HDP1 codec is lawful: frames of
    at most 65536 bytes round trip, an accepted byte string is the canonical encoding of such
    a frame, and no byte string makes the decoder panic.  Each of the three stream readers
    reads exactly one frame and leaves what follows it, reads only frames of its format,
    never panics, and never takes more than 65536 bytes (161 for a session binding) from
    the stream, whatever the peer sends; so a sequence of frames written one after the
    other is read back as that sequence. *)
Theorem stream_framing :
  lawful_codec HdpFrame_valid HdpFrame_encode HdpFrame_decode ∧
  (frame_reader HdpFrame_valid HdpFrame_encode (read_hdp_frame HDP1_MAX_FRAME_BYTES)
     (Z.to_nat HDP1_MAX_FRAME_BYTES)
   ∧ frame_reader HdqmFrame_valid HdqmFrame_encode (read_hdqm_frame HDP1_MAX_FRAME_BYTES)
       (Z.to_nat HDP1_MAX_FRAME_BYTES)
   ∧ frame_reader HdqsBinding_valid HdqsBinding_encode read_hdqs_binding 161)
  ∧ (∀ fs, Forall HdpFrame_valid fs →
      ∃ bss, Forall2 (λ f bs, HdpFrame_encode f = Ok bs) fs bss
        ∧ ∀ rest, read_frames (length fs) (read_hdp_frame HDP1_MAX_FRAME_BYTES) (concat bss ++ rest) = fs)
  ∧ (∀ fs, Forall HdqmFrame_valid fs →
      ∃ bss, Forall2 (λ f bs, HdqmFrame_encode f = Ok bs) fs bss
        ∧ ∀ rest, read_frames (length fs) (read_hdqm_frame HDP1_MAX_FRAME_BYTES) (concat bss ++ rest) = fs).
Proof.
  split; [exact (lawful_codec_of_class (H := HdpFrame_codec))|].
  split; [split; [apply hdp_reader|split; [apply hdqm_reader|apply hdqs_reader]]|].
  split; intros fs; eapply frame_reader_sequence; [apply hdp_reader|apply hdqm_reader].
Qed.
