(* ===== verification/IrohRelay.v ===== *)
(** * Relay admission and pairing authority (src/src/iroh_endpoint.rs)

    The endpoint configuration, the Relay identity record, the durable pairing relations
    and the shared admission state behind the router ([IrohRelayState]).  The recovery
    store is any [RevisionStore]; what the environment decides about one operation (the
    clocks, and which store calls fail) is an argument.  iroh keys and identifiers, and
    JSON, are parameters.  An operation that holds the pairings mutex is one atomic
    step; connections are the generation numbers that name them, and closing one is
    recorded in [ir_closed]. *)
From S2P Require Export IrohWire RevisionStore SessionRegistry.

Definition MAX_IROH_CONNECTIONS : Z := 1024.
Definition MAX_PAIRING_RECORDS : Z := 64.
Definition MAX_PAIRING_ATTEMPTS : Z := 5.
Definition MAX_PAIRING_CHALLENGES_PER_WINDOW : Z := 3.
(** Durations and instants are nanoseconds. *)
Definition nanos_per_sec : Z := 1000000000.
Definition PAIRING_CHALLENGE_WINDOW : Z := 60 * nanos_per_sec.
Definition DEFAULT_CONTROL_TIMEOUT : Z := 5 * nanos_per_sec.
Definition PAIRING_CHALLENGE_TTL_SECS : Z := 300.
Definition MAX_RELAY_IDENTITY_PAYLOAD_BYTES : Z := 1024.
Definition INITIAL_IDENTITY_GENERATION : Z := 1.
Definition INITIAL_PAIRING_ATTEMPT_ID : Z := 1.
Definition INITIAL_PAIRING_GENERATION : Z := 1.
Definition INITIAL_PEER_IDENTITY_GENERATION : Z := 1.
Definition MAX_PERSISTED_PAIRING_RELATIONS : Z := MAX_PAIRING_RECORDS.

Definition relay_identity_record : RecordName :=
  {| rn_key := str_lit "herdr-dog/relay/iroh-identity"; rn_kind := str_lit "core_identity";
     rn_filename := str_lit "relay-iroh-identity.json" |}.
Definition pairing_authority_record : RecordName :=
  {| rn_key := str_lit "herdr-dog/relay/iroh-pairing-authority";
     rn_kind := str_lit "pairing_authority";
     rn_filename := str_lit "relay-iroh-pairing-authority.json" |}.
Definition runtime_fence_record : RecordName :=
  {| rn_key := str_lit "herdr-dog/relay/iroh-runtime-fence"; rn_kind := str_lit "runtime_fence";
     rn_filename := str_lit "relay-iroh-runtime-fence.json" |}.

Inductive IrohEndpointError : Type :=
| InvalidConfigurationField (field : string)
| Bind
| Shutdown
| ProviderUnavailable
| AuthorityStorage.

Abbreviation endpoint_result := (outcome IrohEndpointError).

(** ** Configuration *)
Inductive RelayMode : Type :=
| RelayDefault
| RelayCustom (urls : list (list byte))
| RelayDisabled.

Record IrohRelayConfig : Type := {
  ic_max_connections : Z;
  ic_max_sessions_per_connection : Z;
  ic_control_timeout : Z;
  ic_relay_generation : Z;
  ic_relay_mode : RelayMode;
}.

Definition IrohRelayConfig_default : IrohRelayConfig :=
  {| ic_max_connections := 64; ic_max_sessions_per_connection := MAX_SESSION_STREAMS;
     ic_control_timeout := DEFAULT_CONTROL_TIMEOUT; ic_relay_generation := 1;
     ic_relay_mode := RelayDefault |}.

Definition IrohRelayConfig_validate (c : IrohRelayConfig) : endpoint_result unit :=
  if (ic_max_connections c =? 0) || (MAX_IROH_CONNECTIONS <? ic_max_connections c)
  then Err (InvalidConfigurationField "max_connections") else
  if (ic_max_sessions_per_connection c =? 0)
     || (MAX_SESSION_STREAMS <? ic_max_sessions_per_connection c)
  then Err (InvalidConfigurationField "max_sessions_per_connection") else
  if (ic_control_timeout c =? 0) || (30 * nanos_per_sec <? ic_control_timeout c)
  then Err (InvalidConfigurationField "control_timeout") else
  if ic_relay_generation c =? 0
  then Err (InvalidConfigurationField "relay_generation") else
  Ok tt.

Definition IrohRelayConfig_new (max_connections max_sessions control_timeout : Z)
  : endpoint_result IrohRelayConfig :=
  let config :=
    {| ic_max_connections := max_connections; ic_max_sessions_per_connection := max_sessions;
       ic_control_timeout := control_timeout;
       ic_relay_generation := ic_relay_generation IrohRelayConfig_default;
       ic_relay_mode := ic_relay_mode IrohRelayConfig_default |} in
  _ ← IrohRelayConfig_validate config; Ok config.

Definition with_relay_generation (c : IrohRelayConfig) (generation : Z)
  : endpoint_result IrohRelayConfig :=
  if generation =? 0 then Err (InvalidConfigurationField "relay_generation") else
  Ok {| ic_max_connections := ic_max_connections c;
        ic_max_sessions_per_connection := ic_max_sessions_per_connection c;
        ic_control_timeout := ic_control_timeout c; ic_relay_generation := generation;
        ic_relay_mode := ic_relay_mode c |}.

(** ** Pairing records *)
Record PairingRecord : Type := {
  pr_pairing_generation : Z;
  pr_local_identity_generation : Z;
  pr_peer_identity_generation : Z;
  pr_paired : bool;
  pr_revoked : bool;
  pr_updated_at_epoch_seconds : Z;
  pr_last_attempt_id : Z;
  pr_failed_attempts : Z;
  pr_challenge_window_started : Z;
  pr_challenge_count : Z;
}.

Record PersistedPairingRelation : Type := {
  pp_peer_id : list byte;
  pp_local_identity_generation : Z;
  pp_peer_identity_generation : Z;
  pp_pairing_generation : Z;
  pp_revoked : bool;
  pp_updated_at_epoch_seconds : Z;
  pp_last_attempt_id : Z;
}.

#[export] Instance PersistedPairingRelation_eq_dec : EqDecision PersistedPairingRelation.
Proof. solve_decision. Defined.

Abbreviation pairing_map := (gmap (list byte) PairingRecord).

(** What the clocks show during one operation: [Instant::now()], and the whole seconds
    since the Unix epoch when the wall clock is not before it. *)
Record Clock : Type := {
  ck_now : Z;
  ck_epoch : option Z;
}.

Definition authority_timestamp (c : Clock) : store_result Z :=
  match ck_epoch c with
  | Some secs => Ok (Z.max secs 1)
  | None => Err Unknown
  end.

(** [ConnectionLease]: the peer and the connection generation it owns. *)
Abbreviation lease := (list byte * Z)%type.

Section Authority.
Context {St Fl : Type} `{!RevisionStore St Fl}.
Context (pairings_to_vec : list PersistedPairingRelation → option (list byte))
  (pairings_from_slice : list byte → option (list PersistedPairingRelation)).
(** [EndpointId::from_bytes(..).is_ok()]. *)
Context (endpoint_id_ok : list byte → bool).

Definition MAX_AUTHORITY_PAYLOAD : Z := 1024 * 1024.

Definition persist_relation (peer : list byte) (r : PairingRecord)
  : store_result PersistedPairingRelation :=
  if (pr_pairing_generation r =? 0) || (pr_local_identity_generation r =? 0)
     || (pr_peer_identity_generation r =? 0) || (pr_updated_at_epoch_seconds r =? 0)
     || (pr_last_attempt_id r =? 0)
  then Err Invalid
  else Ok {| pp_peer_id := peer; pp_local_identity_generation := pr_local_identity_generation r;
             pp_peer_identity_generation := pr_peer_identity_generation r;
             pp_pairing_generation := pr_pairing_generation r; pp_revoked := pr_revoked r;
             pp_updated_at_epoch_seconds := pr_updated_at_epoch_seconds r;
             pp_last_attempt_id := pr_last_attempt_id r |}.

(** The iterator of [encode_pairing_authority], with its running maximum. *)
Fixpoint persist_relations (entries : list (list byte * PairingRecord)) (aggregate : Z)
  : store_result (list PersistedPairingRelation * Z) :=
  match entries with
  | [] => Ok ([], aggregate)
  | (peer, r) :: entries =>
      if negb (pr_paired r || pr_revoked r) then persist_relations entries aggregate else
      relation ← persist_relation peer r;
      '(relations, aggregate) ←
        persist_relations entries (Z.max aggregate (pr_pairing_generation r));
      Ok (relation :: relations, aggregate)
  end.

Definition encode_pairing_authority (pairings : pairing_map) : store_result (list byte * Z) :=
  '(relations, aggregate_generation) ← persist_relations (btree_entries be_val pairings) 1;
  if MAX_PERSISTED_PAIRING_RELATIONS <? len relations then Err Invalid else
  payload ← ok_or (pairings_to_vec relations) Invalid;
  if MAX_AUTHORITY_PAYLOAD <? len payload then Err Invalid else
  Ok (payload, aggregate_generation).

Definition encode_empty_pairing_authority (generation : Z) : store_result (list byte * Z) :=
  if generation =? 0 then Err Unknown else
  payload ← ok_or (pairings_to_vec []) Invalid;
  Ok (payload, generation).

(** The loop of [restore_pairing_authority] over the decoded relations. *)
Record RestoreLoop : Type := {
  rl_pairings : pairing_map;
  rl_max_generation : Z;
  rl_max_attempt_id : Z;
  rl_stale : bool;
}.

Definition restore_record (now : Z) (r : PersistedPairingRelation) : PairingRecord :=
  {| pr_pairing_generation := pp_pairing_generation r;
     pr_local_identity_generation := pp_local_identity_generation r;
     pr_peer_identity_generation := pp_peer_identity_generation r;
     pr_paired := negb (pp_revoked r); pr_revoked := pp_revoked r;
     pr_updated_at_epoch_seconds := pp_updated_at_epoch_seconds r;
     pr_last_attempt_id := pp_last_attempt_id r; pr_failed_attempts := 0;
     pr_challenge_window_started := now; pr_challenge_count := 0 |}.

Fixpoint restore_relations (aggregate_generation expected now : Z)
    (relations : list PersistedPairingRelation) (l : RestoreLoop) : store_result RestoreLoop :=
  match relations with
  | [] => Ok l
  | r :: relations =>
      if (pp_pairing_generation r =? 0) || (aggregate_generation <? pp_pairing_generation r)
         || (pp_peer_identity_generation r =? 0) || (pp_updated_at_epoch_seconds r =? 0)
         || (pp_last_attempt_id r =? 0)
      then Err Corrupt else
      let stale := rl_stale l || negb (pp_local_identity_generation r =? expected) in
      if negb (endpoint_id_ok (pp_peer_id r)) then Err Corrupt else
      match rl_pairings l !! pp_peer_id r with
      | Some _ => Err Corrupt
      | None =>
          restore_relations aggregate_generation expected now relations
            {| rl_pairings := <[pp_peer_id r := restore_record now r]> (rl_pairings l);
               rl_max_generation := Z.max (rl_max_generation l) (pp_pairing_generation r);
               rl_max_attempt_id := Z.max (rl_max_attempt_id l) (pp_last_attempt_id r);
               rl_stale := stale |}
      end
  end.

(** The restored relations, the record's revision, the next attempt identifier and the
    aggregate generation. *)
Record Restored : Type := {
  re_pairings : pairing_map;
  re_revision : Z;
  re_next_attempt_id : Z;
  re_generation : Z;
}.

Definition restore_pairing_authority (load_faults commit_faults : Fl) (now expected : Z)
  : stateful St AuthorityStoreError Restored :=
  (if expected =? 0 then st_err Invalid else
   let! record := (λ s, (s, rs_load load_faults pairing_authority_record s)) in
   match record with
   | None =>
       st_ret {| re_pairings := ∅; re_revision := 0;
                 re_next_attempt_id := INITIAL_PAIRING_ATTEMPT_ID; re_generation := 0 |}
   | Some record =>
       let aggregate_generation := sa_generation record in
       if bool_decide (sa_state record ≠ str_lit "active") || (aggregate_generation =? 0)
       then st_err Corrupt else
       let! relations := st_lift (ok_or (pairings_from_slice (sa_payload record)) Corrupt) in
       if MAX_PERSISTED_PAIRING_RELATIONS <? len relations then st_err Corrupt else
       if bool_decide (relations = []) then
         st_ret {| re_pairings := ∅; re_revision := sa_revision record;
                   re_next_attempt_id := INITIAL_PAIRING_ATTEMPT_ID;
                   re_generation := aggregate_generation |}
       else
       let! l := st_lift (restore_relations aggregate_generation expected now relations
         {| rl_pairings := ∅; rl_max_generation := 0; rl_max_attempt_id := 0;
            rl_stale := false |}) in
       if negb (rl_max_generation l =? aggregate_generation) then st_err Corrupt else
       if rl_stale l then
         let! empty_generation := st_lift (ok_or (u64_checked_add aggregate_generation 1) Unknown) in
         let! empty := st_lift (encode_empty_pairing_authority empty_generation) in
         let! next_revision :=
           rs_commit commit_faults pairing_authority_record empty.2 (str_lit "active") empty.1
             (sa_revision record) in
         st_ret {| re_pairings := ∅; re_revision := next_revision;
                   re_next_attempt_id := INITIAL_PAIRING_ATTEMPT_ID; re_generation := empty.2 |}
       else
       let! next_attempt_id := st_lift (ok_or (u64_checked_add (rl_max_attempt_id l) 1) Unknown) in
       st_ret {| re_pairings := rl_pairings l; re_revision := sa_revision record;
                 re_next_attempt_id := next_attempt_id; re_generation := aggregate_generation |}
   end)%relay.

Definition install_runtime_fence (load_faults commit_faults : Fl)
  : stateful St IrohEndpointError Z := λ s,
  match rs_load load_faults runtime_fence_record s with
  | Ok current =>
      let checked :=
        match current with
        | Some record =>
            if bool_decide (sa_state record ≠ str_lit "active") || (sa_generation record =? 0)
               || negb (len (sa_payload record) =? 8)
               || negb (be_val (sa_payload record) =? sa_generation record)
            then Err AuthorityStorage
            else Ok (sa_revision record, sa_generation record)
        | None => Ok (0, 0)
        end in
      match checked with
      | Ok (revision, previous_epoch) =>
          match u64_checked_add previous_epoch 1 with
          | None => (s, Err AuthorityStorage)
          | Some next_epoch =>
              match rs_commit commit_faults runtime_fence_record next_epoch (str_lit "active")
                      (be_bytes 8 next_epoch) revision s with
              | (s', r) => (s', map_err (λ _, AuthorityStorage) ((λ _, next_epoch) <$> r))
              end
          end
      | Err e => (s, Err e)
      | Panic => (s, Panic)
      end
  | Err _ => (s, Err AuthorityStorage)
  | Panic => (s, Panic)
  end.

(** ** The shared admission state *)
Record IrohRelayState : Type := {
  ir_permits : Z;
  ir_max_pairing_records : Z;
  ir_pairings : pairing_map;
  ir_active : gmap (list byte) Z;
  ir_shutdown : bool;
  ir_store : option St;
  ir_local_identity_generation : Z;
  ir_next_attempt_id : Z;
  ir_revision : Z;
  ir_authority_generation : Z;
  ir_runtime_epoch : Z;
  ir_next_generation : Z;
  ir_closed : list Z;
}.

Definition set_pairings (p : pairing_map) (s : IrohRelayState) : IrohRelayState :=
  {| ir_permits := ir_permits s; ir_max_pairing_records := ir_max_pairing_records s;
     ir_pairings := p; ir_active := ir_active s; ir_shutdown := ir_shutdown s;
     ir_store := ir_store s; ir_local_identity_generation := ir_local_identity_generation s;
     ir_next_attempt_id := ir_next_attempt_id s; ir_revision := ir_revision s;
     ir_authority_generation := ir_authority_generation s;
     ir_runtime_epoch := ir_runtime_epoch s; ir_next_generation := ir_next_generation s;
     ir_closed := ir_closed s |}.
Definition set_active_map (permits : Z) (a : gmap (list byte) Z) (s : IrohRelayState) : IrohRelayState :=
  {| ir_permits := permits; ir_max_pairing_records := ir_max_pairing_records s;
     ir_pairings := ir_pairings s; ir_active := a; ir_shutdown := ir_shutdown s;
     ir_store := ir_store s; ir_local_identity_generation := ir_local_identity_generation s;
     ir_next_attempt_id := ir_next_attempt_id s; ir_revision := ir_revision s;
     ir_authority_generation := ir_authority_generation s;
     ir_runtime_epoch := ir_runtime_epoch s; ir_next_generation := ir_next_generation s;
     ir_closed := ir_closed s |}.
Definition set_attempt_id (n : Z) (s : IrohRelayState) : IrohRelayState :=
  {| ir_permits := ir_permits s; ir_max_pairing_records := ir_max_pairing_records s;
     ir_pairings := ir_pairings s; ir_active := ir_active s; ir_shutdown := ir_shutdown s;
     ir_store := ir_store s; ir_local_identity_generation := ir_local_identity_generation s;
     ir_next_attempt_id := n; ir_revision := ir_revision s;
     ir_authority_generation := ir_authority_generation s;
     ir_runtime_epoch := ir_runtime_epoch s; ir_next_generation := ir_next_generation s;
     ir_closed := ir_closed s |}.
Definition set_next_generation (n : Z) (s : IrohRelayState) : IrohRelayState :=
  {| ir_permits := ir_permits s; ir_max_pairing_records := ir_max_pairing_records s;
     ir_pairings := ir_pairings s; ir_active := ir_active s; ir_shutdown := ir_shutdown s;
     ir_store := ir_store s; ir_local_identity_generation := ir_local_identity_generation s;
     ir_next_attempt_id := ir_next_attempt_id s; ir_revision := ir_revision s;
     ir_authority_generation := ir_authority_generation s;
     ir_runtime_epoch := ir_runtime_epoch s; ir_next_generation := n;
     ir_closed := ir_closed s |}.
Definition set_authority (store : option St) (revision generation : Z) (s : IrohRelayState)
  : IrohRelayState :=
  {| ir_permits := ir_permits s; ir_max_pairing_records := ir_max_pairing_records s;
     ir_pairings := ir_pairings s; ir_active := ir_active s; ir_shutdown := ir_shutdown s;
     ir_store := store; ir_local_identity_generation := ir_local_identity_generation s;
     ir_next_attempt_id := ir_next_attempt_id s; ir_revision := revision;
     ir_authority_generation := generation;
     ir_runtime_epoch := ir_runtime_epoch s; ir_next_generation := ir_next_generation s;
     ir_closed := ir_closed s |}.
Definition begin_shutdown (s : IrohRelayState) : IrohRelayState :=
  {| ir_permits := ir_permits s; ir_max_pairing_records := ir_max_pairing_records s;
     ir_pairings := ir_pairings s; ir_active := ir_active s; ir_shutdown := true;
     ir_store := ir_store s; ir_local_identity_generation := ir_local_identity_generation s;
     ir_next_attempt_id := ir_next_attempt_id s; ir_revision := ir_revision s;
     ir_authority_generation := ir_authority_generation s;
     ir_runtime_epoch := ir_runtime_epoch s; ir_next_generation := ir_next_generation s;
     ir_closed := ir_closed s |}.
Definition close_connection (generation : Z) (s : IrohRelayState) : IrohRelayState :=
  {| ir_permits := ir_permits s; ir_max_pairing_records := ir_max_pairing_records s;
     ir_pairings := ir_pairings s; ir_active := ir_active s; ir_shutdown := ir_shutdown s;
     ir_store := ir_store s; ir_local_identity_generation := ir_local_identity_generation s;
     ir_next_attempt_id := ir_next_attempt_id s; ir_revision := ir_revision s;
     ir_authority_generation := ir_authority_generation s;
     ir_runtime_epoch := ir_runtime_epoch s; ir_next_generation := ir_next_generation s;
     ir_closed := generation :: ir_closed s |}.

Definition IrohRelayState_new (load_faults commit_faults : Fl) (now max_connections : Z)
    (authority_store : option St) (runtime_epoch local_identity_generation : Z)
  : option St * endpoint_result IrohRelayState :=
  if local_identity_generation =? 0 then (authority_store, Err AuthorityStorage) else
  let '(store, restored) :=
    match authority_store with
    | Some s =>
        let '(s', r) :=
          restore_pairing_authority load_faults commit_faults now local_identity_generation s in
        (Some s', map_err (λ _, AuthorityStorage) r)
    | None =>
        (None, Ok {| re_pairings := ∅; re_revision := 0;
                     re_next_attempt_id := INITIAL_PAIRING_ATTEMPT_ID; re_generation := 0 |})
    end in
  (store,
   restored ← restored;
   Ok {| ir_permits := max_connections;
         ir_max_pairing_records := Z.min max_connections MAX_PAIRING_RECORDS;
         ir_pairings := re_pairings restored; ir_active := ∅; ir_shutdown := false;
         ir_store := store; ir_local_identity_generation := local_identity_generation;
         ir_next_attempt_id := re_next_attempt_id restored;
         ir_revision := re_revision restored;
         ir_authority_generation := re_generation restored;
         ir_runtime_epoch := runtime_epoch; ir_next_generation := 1; ir_closed := [] |}).

(** [u64::checked_shl(32)] keeps the low 64 bits of the result. *)
Definition u64_shl32 (z : Z) : Z := Z.shiftl z 32 mod (u64_max + 1).

Definition try_admit (peer : list byte) (s : IrohRelayState) : IrohRelayState * option lease :=
  if ir_shutdown s then (s, None) else
  if ir_permits s <=? 0 then (s, None) else
  let local_generation := ir_next_generation s in
  let s1 := set_next_generation ((local_generation + 1) mod (u64_max + 1)) s in
  match u64_checked_add (u64_shl32 (ir_runtime_epoch s)) local_generation with
  | None => (s1, None)
  | Some generation =>
      match ir_active s1 !! peer with
      | Some _ => (s1, None)
      | None =>
          (set_active_map (ir_permits s1 - 1) (<[peer := generation]> (ir_active s1)) s1,
           Some (peer, generation))
      end
  end.

Definition is_paired (s : IrohRelayState) (peer : list byte) : bool :=
  match ir_pairings s !! peer with Some record => pr_paired record | None => false end.

(** [AtomicU64::fetch_update] with [checked_add(1)]. *)
Definition next_attempt (s : IrohRelayState) : IrohRelayState * option Z :=
  match u64_checked_add (ir_next_attempt_id s) 1 with
  | Some n => (set_attempt_id n s, Some (ir_next_attempt_id s))
  | None => (s, None)
  end.

Definition new_pairing_record (c : Clock) (now : Z) (s : IrohRelayState)
  : IrohRelayState * option PairingRecord :=
  match next_attempt s with
  | (s1, None) => (s1, None)
  | (s1, Some last_attempt_id) =>
      (s1, match authority_timestamp c with
           | Ok updated =>
               Some {| pr_pairing_generation := INITIAL_PAIRING_GENERATION;
                       pr_local_identity_generation := ir_local_identity_generation s;
                       pr_peer_identity_generation := INITIAL_PEER_IDENTITY_GENERATION;
                       pr_paired := false; pr_revoked := false;
                       pr_updated_at_epoch_seconds := updated;
                       pr_last_attempt_id := last_attempt_id; pr_failed_attempts := 0;
                       pr_challenge_window_started := now; pr_challenge_count := 0 |}
           | _ => None
           end)
  end.

Definition set_challenge (window count failed : Z) (r : PairingRecord) : PairingRecord :=
  {| pr_pairing_generation := pr_pairing_generation r;
     pr_local_identity_generation := pr_local_identity_generation r;
     pr_peer_identity_generation := pr_peer_identity_generation r;
     pr_paired := pr_paired r; pr_revoked := pr_revoked r;
     pr_updated_at_epoch_seconds := pr_updated_at_epoch_seconds r;
     pr_last_attempt_id := pr_last_attempt_id r; pr_failed_attempts := failed;
     pr_challenge_window_started := window; pr_challenge_count := count |}.

(** The record of a peer, created when the registry has room. *)
Definition ensure_record (c : Clock) (peer : list byte) (s : IrohRelayState)
  : IrohRelayState * option PairingRecord :=
  match ir_pairings s !! peer with
  | Some record => (s, Some record)
  | None =>
      if ir_max_pairing_records s <=? map_len (ir_pairings s) then (s, None) else
      match new_pairing_record c (ck_now c) s with
      | (s1, None) => (s1, None)
      | (s1, Some record) => (set_pairings (<[peer := record]> (ir_pairings s1)) s1, Some record)
      end
  end.

Definition reserve_pairing_challenge (c : Clock) (peer : list byte) (s : IrohRelayState)
  : IrohRelayState * bool :=
  match ensure_record c peer s with
  | (s1, None) => (s1, false)
  | (s1, Some record) =>
      if pr_paired record then (s1, false) else
      let record1 :=
        if PAIRING_CHALLENGE_WINDOW <=? Z.max 0 (ck_now c - pr_challenge_window_started record)
        then set_challenge (ck_now c) 0 (pr_failed_attempts record) record
        else record in
      if MAX_PAIRING_CHALLENGES_PER_WINDOW <=? pr_challenge_count record1
      then (set_pairings (<[peer := record1]> (ir_pairings s1)) s1, false) else
      (set_pairings (<[peer := set_challenge (pr_challenge_window_started record1)
                                 (pr_challenge_count record1 + 1) 0 record1]> (ir_pairings s1)) s1,
       true)
  end.

Definition record_pairing_failure (c : Clock) (peer : list byte) (s : IrohRelayState)
  : IrohRelayState * bool :=
  match ensure_record c peer s with
  | (s1, None) => (s1, false)
  | (s1, Some record) =>
      if MAX_PAIRING_ATTEMPTS <=? pr_failed_attempts record then (s1, false) else
      let failed := pr_failed_attempts record + 1 in
      (set_pairings (<[peer := set_challenge (pr_challenge_window_started record)
                                 (pr_challenge_count record) failed record]> (ir_pairings s1)) s1,
       failed <? MAX_PAIRING_ATTEMPTS)
  end.

Definition commit_pairings (commit_faults : Fl) (candidate : pairing_map) (s : IrohRelayState)
  : IrohRelayState * store_result Z :=
  match encode_pairing_authority candidate with
  | Err e => (s, Err e)
  | Panic => (s, Panic)
  | Ok (payload, encoded_generation) =>
      let current_generation := ir_authority_generation s in
      let generation :=
        if bool_decide (candidate = ∅)
        then Ok (Z.max current_generation INITIAL_PAIRING_GENERATION)
        else if encoded_generation <? current_generation then Err Corrupt
        else Ok encoded_generation in
      match generation with
      | Err e => (s, Err e)
      | Panic => (s, Panic)
      | Ok generation =>
          match ir_store s with
          | None => (set_authority None (ir_revision s) generation s, Ok (ir_revision s))
          | Some store =>
              let '(store', r) :=
                rs_commit commit_faults pairing_authority_record generation (str_lit "active")
                  payload (ir_revision s) store in
              match r with
              | Ok next_revision =>
                  (set_authority (Some store') (ir_revision s) generation s, Ok next_revision)
              | Err e =>
                  (set_authority (Some store') (ir_revision s) (ir_authority_generation s) s, Err e)
              | Panic => (s, Panic)
              end
          end
      end
  end.

(** [*pairings = candidate; *lock(&self.pairing_revision) = next_revision]. *)
Definition install_pairings (candidate : pairing_map) (next_revision : Z) (s : IrohRelayState)
  : IrohRelayState :=
  set_authority (ir_store s) next_revision (ir_authority_generation s) (set_pairings candidate s).

(** The record [mark_paired] starts from when the peer has none. *)
Definition blank_record (now local_identity_generation : Z) : PairingRecord :=
  {| pr_pairing_generation := 0; pr_local_identity_generation := local_identity_generation;
     pr_peer_identity_generation := INITIAL_PEER_IDENTITY_GENERATION; pr_paired := false;
     pr_revoked := false; pr_updated_at_epoch_seconds := 0; pr_last_attempt_id := 0;
     pr_failed_attempts := 0; pr_challenge_window_started := now; pr_challenge_count := 0 |}.

Definition confirmed_record (record : PairingRecord)
    (generation local_identity_generation updated last_attempt_id : Z) (paired : bool)
  : PairingRecord :=
  {| pr_pairing_generation := generation;
     pr_local_identity_generation := local_identity_generation;
     pr_peer_identity_generation :=
       Z.max (pr_peer_identity_generation record) INITIAL_PEER_IDENTITY_GENERATION;
     pr_paired := paired; pr_revoked := negb paired; pr_updated_at_epoch_seconds := updated;
     pr_last_attempt_id := last_attempt_id; pr_failed_attempts := 0;
     pr_challenge_window_started := pr_challenge_window_started record;
     pr_challenge_count := pr_challenge_count record |}.

Definition mark_paired (commit_faults : Fl) (c : Clock) (peer : list byte) (s : IrohRelayState)
  : IrohRelayState * store_result bool :=
  if bool_decide (ir_pairings s !! peer = None)
     && (ir_max_pairing_records s <=? map_len (ir_pairings s))
  then (s, Ok false) else
  let record :=
    default (blank_record (ck_now c) (ir_local_identity_generation s)) (ir_pairings s !! peer) in
  if pr_paired record then (s, Ok true) else
  let generation :=
    if pr_pairing_generation record =? 0
    then (λ g, Z.max g INITIAL_PAIRING_GENERATION)
           <$> ok_or (u64_checked_add (ir_authority_generation s) 1) Unknown
    else ok_or (u64_checked_add (pr_pairing_generation record) 1) Unknown in
  match generation, authority_timestamp c with
  | Ok generation, Ok updated =>
      match next_attempt s with
      | (s1, None) => (s1, Err Unknown)
      | (s1, Some last_attempt_id) =>
          let candidate :=
            <[peer := confirmed_record record generation (ir_local_identity_generation s)
                        updated last_attempt_id true]> (ir_pairings s) in
          match commit_pairings commit_faults candidate s1 with
          | (s2, Ok next_revision) => (install_pairings candidate next_revision s2, Ok true)
          | (s2, Err e) => (s2, Err e)
          | (s2, Panic) => (s2, Panic)
          end
      end
  | Err e, _ => (s, Err e)
  | _, Err e => (s, Err e)
  | _, _ => (s, Panic)
  end.

Definition close_active_peer (peer : list byte) (s : IrohRelayState) : IrohRelayState :=
  match ir_active s !! peer with
  | Some generation => close_connection generation s
  | None => s
  end.

(** The closure of [revoke_peer], run for a relation that is not revoked yet. *)
Definition revoke_relation (commit_faults : Fl) (c : Clock) (peer : list byte)
    (record : PairingRecord) (s : IrohRelayState) : IrohRelayState * store_result unit :=
  match ok_or (u64_checked_add (pr_pairing_generation record) 1) Unknown,
        authority_timestamp c with
  | Ok generation, Ok updated =>
      match next_attempt s with
      | (s1, None) => (s1, Err Unknown)
      | (s1, Some last_attempt_id) =>
          let candidate :=
            <[peer := confirmed_record record generation (ir_local_identity_generation s)
                        updated last_attempt_id false]> (ir_pairings s) in
          match commit_pairings commit_faults candidate s1 with
          | (s2, Ok next_revision) => (install_pairings candidate next_revision s2, Ok tt)
          | (s2, Err e) => (s2, Err e)
          | (s2, Panic) => (s2, Panic)
          end
      end
  | Err e, _ => (s, Err e)
  | _, Err e => (s, Err e)
  | _, _ => (s, Panic)
  end.

Definition set_unpaired (r : PairingRecord) : PairingRecord :=
  {| pr_pairing_generation := pr_pairing_generation r;
     pr_local_identity_generation := pr_local_identity_generation r;
     pr_peer_identity_generation := pr_peer_identity_generation r;
     pr_paired := false; pr_revoked := pr_revoked r;
     pr_updated_at_epoch_seconds := pr_updated_at_epoch_seconds r;
     pr_last_attempt_id := pr_last_attempt_id r; pr_failed_attempts := pr_failed_attempts r;
     pr_challenge_window_started := pr_challenge_window_started r;
     pr_challenge_count := pr_challenge_count r |}.

Definition revoke_peer (commit_faults : Fl) (c : Clock) (peer : list byte) (s : IrohRelayState)
  : IrohRelayState * store_result bool :=
  match ir_pairings s !! peer with
  | None => (close_active_peer peer s, Ok false)
  | Some current =>
      let was_paired := pr_paired current in
      let '(s1, update_result) :=
        if negb (pr_revoked current) then revoke_relation commit_faults c peer current s
        else (s, Ok tt) in
      match update_result with
      | Err e =>
          let s2 :=
            match ir_pairings s1 !! peer with
            | Some record => set_pairings (<[peer := set_unpaired record]> (ir_pairings s1)) s1
            | None => s1
            end in
          (close_active_peer peer s2, Err e)
      | Ok _ => (close_active_peer peer s1, Ok was_paired)
      | Panic => (s1, Panic)
      end
  end.

(** [ConnectionLease]'s [Drop]; the semaphore permit is released in any case. *)
Definition drop_lease (l : lease) (s : IrohRelayState) : IrohRelayState :=
  let '(peer, generation) := l in
  if bool_decide (ir_active s !! peer = Some generation) then
    let s1 := set_active_map (ir_permits s + 1) (delete peer (ir_active s)) s in
    match ir_pairings s1 !! peer with
    | Some record =>
        if negb (pr_paired record) && negb (pr_revoked record)
        then set_pairings (delete peer (ir_pairings s1)) s1 else s1
    | None => s1
    end
  else set_active_map (ir_permits s + 1) (ir_active s) s.

Definition active_connection_count (s : IrohRelayState) : Z := map_len (ir_active s).
Definition paired_count (s : IrohRelayState) : Z :=
  len (filter (λ kv, pr_paired kv.2 = true) (map_to_list (ir_pairings s))).

(** ** The Relay identity and the start of an endpoint *)
Context (public : list byte → list byte).
Context (identity_to_vec : list byte → list byte → option (list byte))
  (identity_from_slice : list byte → option (list byte * list byte)).

(** A [SecretKey] is its 32 bytes, [public] the bytes of its [EndpointId]; the identity
    record holds the endpoint id and the secret key. *)
Definition encode_relay_identity (secret_key : list byte) : endpoint_result (list byte) :=
  payload ← ok_or (identity_to_vec (public secret_key) secret_key) AuthorityStorage;
  if MAX_RELAY_IDENTITY_PAYLOAD_BYTES <? len payload then Err AuthorityStorage else Ok payload.

Definition decode_relay_identity (record : StoredAuthorityRecord) : endpoint_result (list byte * Z) :=
  if bool_decide (sa_state record ≠ str_lit "active") || (sa_generation record =? 0)
     || (MAX_RELAY_IDENTITY_PAYLOAD_BYTES <? len (sa_payload record))
  then Err AuthorityStorage else
  '(endpoint_id, secret_key) ← ok_or (identity_from_slice (sa_payload record)) AuthorityStorage;
  if endpoint_id_ok endpoint_id && bool_decide (public secret_key = endpoint_id)
  then Ok (secret_key, sa_generation record) else Err AuthorityStorage.

Definition load_relay_identity (load_faults : Fl) (s : St) : endpoint_result (option (list byte * Z)) :=
  record ← map_err (λ _, AuthorityStorage) (rs_load load_faults relay_identity_record s);
  match record with
  | Some record => Some <$> decode_relay_identity record
  | None => Ok None
  end.

(** The system-call outcomes of the two loads and the commit, and what other processes do
    to the store just before the commit. *)
Record IdentityEnv : Type := {
  ie_load : Fl;
  ie_commit : Fl;
  ie_reload : Fl;
  ie_before_commit : St → St;
}.

Definition load_or_create_relay_identity (env : IdentityEnv) (supplied : option (list byte))
  : stateful St IrohEndpointError (list byte * Z) := λ s,
  match load_relay_identity (ie_load env) s with
  | Ok (Some (recovered, generation)) =>
      match supplied with
      | Some candidate =>
          if bool_decide (public candidate ≠ public recovered) then (s, Err AuthorityStorage)
          else (s, Ok (recovered, generation))
      | None => (s, Ok (recovered, generation))
      end
  | Ok None =>
      match supplied with
      | None => (s, Err AuthorityStorage)
      | Some candidate =>
          match encode_relay_identity candidate with
          | Ok payload =>
              let s1 := ie_before_commit env s in
              let '(s2, commit) :=
                rs_commit (ie_commit env) relay_identity_record INITIAL_IDENTITY_GENERATION
                  (str_lit "active") payload 0 s1 in
              match commit with
              | Ok _ => (s2, Ok (candidate, INITIAL_IDENTITY_GENERATION))
              | Err Conflict =>
                  match load_relay_identity (ie_reload env) s2 with
                  | Ok (Some (recovered, generation)) =>
                      if bool_decide (public recovered ≠ public candidate)
                      then (s2, Err AuthorityStorage) else (s2, Ok (recovered, generation))
                  | Ok None => (s2, Err AuthorityStorage)
                  | Err e => (s2, Err e)
                  | Panic => (s2, Panic)
                  end
              | Err _ => (s2, Err AuthorityStorage)
              | Panic => (s2, Panic)
              end
          | Err e => (s, Err e)
          | Panic => (s, Panic)
          end
      end
  | Err e => (s, Err e)
  | Panic => (s, Panic)
  end.

Definition resolve_relay_secret_key (env : IdentityEnv) (store : option St)
    (supplied : option (list byte)) (generated : list byte)
  : option St * endpoint_result (list byte * Z) :=
  match store with
  | Some s =>
      let '(s', r) := load_or_create_relay_identity env supplied s in (Some s', r)
  | None => (None, Ok (default generated supplied, INITIAL_IDENTITY_GENERATION))
  end.

(** What the environment decides about one start. *)
Record BindEnv : Type := {
  be_identity : IdentityEnv;
  be_fence_load : Fl;
  be_fence_commit : Fl;
  be_pairing_load : Fl;
  be_pairing_commit : Fl;
  be_now : Z;
  be_generated : list byte;
}.

(** [bind], [bind_with_secret_key] and [bind_resolved] up to the point where the iroh
    endpoint is built: the key to use and the admission state, or a refusal. *)
Definition bind_authority (env : BindEnv) (config : IrohRelayConfig) (store : option St)
    (supplied : option (list byte)) : option St * endpoint_result (list byte * IrohRelayState) :=
  match IrohRelayConfig_validate config with
  | Err e => (store, Err e)
  | Panic => (store, Panic)
  | Ok _ =>
      match resolve_relay_secret_key (be_identity env) store supplied (be_generated env) with
      | (store1, Ok (secret_key, identity_generation)) =>
          let '(store2, fence) :=
            match store1 with
            | Some s =>
                let '(s', r) := install_runtime_fence (be_fence_load env) (be_fence_commit env) s in
                (Some s', r)
            | None => (None, Ok 1)
            end in
          match fence with
          | Ok runtime_epoch =>
              let '(store3, state) :=
                IrohRelayState_new (be_pairing_load env) (be_pairing_commit env) (be_now env)
                  (ic_max_connections config) store2 runtime_epoch identity_generation in
              (store3, pair secret_key <$> state)
          | Err e => (store2, Err e)
          | Panic => (store2, Panic)
          end
      | (store1, Err e) => (store1, Err e)
      | (store1, Panic) => (store1, Panic)
      end
  end.

Definition bind_with_secret_key (env : BindEnv) (config : IrohRelayConfig) (store : option St)
    (secret_key : list byte) := bind_authority env config store (Some secret_key).

Definition provision_development_identity (env : BindEnv) (config : IrohRelayConfig)
    (store : option St) : option St * endpoint_result (list byte * IrohRelayState) :=
  match store with
  | None => (None, Err (InvalidConfigurationField "development_recovery_dir"))
  | Some _ => bind_with_secret_key env config store (be_generated env)
  end.
End Authority.

(** * Facts: encoding and restoring relations *)
(** The relation a record is persisted as, and the record it is restored as. *)
Definition relation_of (entry : list byte * PairingRecord) : PersistedPairingRelation :=
  {| pp_peer_id := entry.1; pp_local_identity_generation := pr_local_identity_generation entry.2;
     pp_peer_identity_generation := pr_peer_identity_generation entry.2;
     pp_pairing_generation := pr_pairing_generation entry.2; pp_revoked := pr_revoked entry.2;
     pp_updated_at_epoch_seconds := pr_updated_at_epoch_seconds entry.2;
     pp_last_attempt_id := pr_last_attempt_id entry.2 |}.

Definition persists (r : PairingRecord) : bool := pr_paired r || pr_revoked r.

Definition persistable (r : PairingRecord) : Prop :=
  pr_pairing_generation r ≠ 0 ∧ pr_local_identity_generation r ≠ 0
  ∧ pr_peer_identity_generation r ≠ 0 ∧ pr_updated_at_epoch_seconds r ≠ 0
  ∧ pr_last_attempt_id r ≠ 0.

Definition durable_entries (entries : list (list byte * PairingRecord)) :=
  filter (λ kv, persists kv.2 = true) entries.

(** The pairing map a restart rebuilds: the paired and revoked relations, with fresh
    challenge fields. *)
Definition refresh (now : Z) (r : PairingRecord) : PairingRecord :=
  restore_record now (relation_of ([], r)).
Definition durable_pairings (now : Z) (p : pairing_map) : pairing_map :=
  omap (λ r, if persists r then Some (refresh now r) else None) p.

Lemma persist_relation_Ok peer r rel :
  persist_relation peer r = Ok rel ↔ rel = relation_of (peer, r) ∧ persistable r.
Proof.
  unfold persist_relation, persistable. destruct (_ || _) eqn:Hc.
  - split; [done|]. intros (_ & ? & ? & ? & ? & ?).
    rewrite !orb_true_iff, !Z.eqb_eq in Hc. tauto.
  - bool_facts. unfold relation_of. simpl. naive_solver.
Qed.

Lemma foldr_max_acc a b (l : list Z) : foldr Z.max (Z.max a b) l = Z.max b (foldr Z.max a l).
Proof. induction l as [|x l IH]; simpl; lia. Qed.

Lemma persist_relations_Ok entries agg rels agg' :
  persist_relations entries agg = Ok (rels, agg') →
  rels = relation_of <$> durable_entries entries
  ∧ Forall (λ kv, persistable kv.2) (durable_entries entries)
  ∧ agg' = foldr Z.max agg ((λ kv, pr_pairing_generation kv.2) <$> durable_entries entries).
Proof.
  unfold durable_entries. revert agg agg' rels.
  induction entries as [|[peer r] entries IH]; intros agg agg' rels; simpl; [by intros [= <- <-]|].
  intros H. destruct (negb _) eqn:Hp; [apply negb_true_iff in Hp|apply negb_false_iff in Hp].
  - rewrite filter_cons_False by (simpl; unfold persists; congruence). by apply IH.
  - rewrite filter_cons_True by (simpl; unfold persists; congruence).
    apply bind_Ok in H as (rel & [-> Hr]%persist_relation_Ok & H).
    apply bind_Ok in H as ([rels' a'] & (-> & Hf & ->)%IH & H). simplify_eq. simpl.
    split; [done|]. split; [by constructor|].
    apply foldr_max_acc.
Qed.

Lemma foldr_max_bounds (l : list Z) a :
  a ≤ foldr Z.max a l ∧ (∀ x, x ∈ l → x ≤ foldr Z.max a l)
  ∧ (foldr Z.max a l = a ∨ foldr Z.max a l ∈ l).
Proof.
  induction l as [|y l (IH1 & IH2 & IH3)]; simpl.
  - split; [lia|]. split; [intros ? []%elem_of_nil|auto].
  - split; [lia|]. split.
    + intros x [->|Hx]%elem_of_cons; [lia|]. specialize (IH2 x Hx). lia.
    + destruct (Z.max_spec y (foldr Z.max a l)) as [[? ->]|[? ->]].
      * destruct IH3 as [->|?]; [by left|right; by right].
      * right. by left.
Qed.

Section AuthorityFacts.
Context (endpoint_id_ok : list byte → bool).

(** What one persisted relation must satisfy to be restored. *)
Definition restorable (aggregate : Z) (r : PersistedPairingRelation) : Prop :=
  pp_pairing_generation r ≠ 0 ∧ pp_pairing_generation r ≤ aggregate
  ∧ pp_peer_identity_generation r ≠ 0 ∧ pp_updated_at_epoch_seconds r ≠ 0
  ∧ pp_last_attempt_id r ≠ 0 ∧ endpoint_id_ok (pp_peer_id r) = true.

Lemma restore_relations_Ok aggregate expected now rels l :
  Forall (restorable aggregate) rels → NoDup (pp_peer_id <$> rels) →
  (∀ r, r ∈ rels → rl_pairings l !! pp_peer_id r = None) →
  ∃ l', restore_relations endpoint_id_ok aggregate expected now rels l = Ok l'
    ∧ (∀ k, rl_pairings l' !! k
         = match List.find (λ r, bool_decide (pp_peer_id r = k)) rels with
           | Some r => Some (restore_record now r)
           | None => rl_pairings l !! k
           end)
    ∧ rl_max_generation l' = foldl Z.max (rl_max_generation l) (pp_pairing_generation <$> rels)
    ∧ rl_max_attempt_id l' = foldl Z.max (rl_max_attempt_id l) (pp_last_attempt_id <$> rels)
    ∧ rl_stale l' = rl_stale l
        || existsb (λ r, negb (pp_local_identity_generation r =? expected)) rels.
Proof.
  intros Hall. revert l. induction Hall as [|r rels (H1 & H2 & H3 & H4 & H5 & H6) _ IH];
    intros l Hnd Hfresh; simpl.
  { exists l. split_and!; try done. by rewrite orb_false_r. }
  apply NoDup_cons in Hnd as [Hni Hnd].
  rewrite !(proj2 (Z.eqb_neq _ 0)) by done. rewrite (proj2 (Z.ltb_ge _ _) H2). simpl.
  rewrite H6. simpl. rewrite (Hfresh r) by left.
  destruct (IH {| rl_pairings := <[pp_peer_id r := restore_record now r]> (rl_pairings l);
      rl_max_generation := Z.max (rl_max_generation l) (pp_pairing_generation r);
      rl_max_attempt_id := Z.max (rl_max_attempt_id l) (pp_last_attempt_id r);
      rl_stale := rl_stale l || negb (pp_local_identity_generation r =? expected) |})
    as (l' & Hl' & Hk & Hg & Ha & Hs); [done| |].
  { intros r' Hr'. simpl. rewrite lookup_insert_ne; [by apply Hfresh; right|].
    intros Heq. apply Hni. rewrite Heq. by apply list_elem_of_fmap_2. }
  exists l'. split; [done|]. simpl in *. split; [|by rewrite Hs, orb_assoc].
  intros k. rewrite Hk. case_bool_decide as Heq.
  - subst k. rewrite lookup_insert_eq.
    destruct (List.find _ rels) as [r'|] eqn:Hf; [|done].
    apply find_some in Hf as [Hin Hd]. apply bool_decide_eq_true in Hd.
    destruct Hni. rewrite <-Hd. apply list_elem_of_fmap_2. by apply list_elem_of_In.
  - destruct (List.find _ rels); [done|]. by rewrite lookup_insert_ne.
Qed.
End AuthorityFacts.

Lemma existsb_false {A} (f : A → bool) l : Forall (λ x, f x = false) l → existsb f l = false.
Proof. induction 1 as [|x l Hx _ IH]; simpl; [done|]. by rewrite Hx. Qed.

Lemma foldl_max_spec (l : list Z) a :
  foldl Z.max a l = foldr Z.max a l.
Proof.
  revert a. induction l as [|x l IH]; intros a; simpl; [done|].
  by rewrite IH, foldr_max_acc.
Qed.

Lemma foldr_max_start (l : list Z) :
  (∃ x, x ∈ l ∧ 1 ≤ x) → foldr Z.max 0 l = foldr Z.max 1 l.
Proof.
  intros (x & Hx & Hle).
  destruct (foldr_max_bounds l 0) as (H1 & H2 & H3), (foldr_max_bounds l 1) as (G1 & G2 & G3).
  specialize (H2 x Hx). destruct H3 as [H3|H3]; [lia|]. destruct G3 as [G3|G3].
  - specialize (G2 _ H3). lia.
  - specialize (G2 _ H3). pose proof (foldr_max_bounds l 0) as (_ & K & _). specialize (K _ G3). lia.
Qed.

Lemma elem_of_durable_entries p k r :
  (k, r) ∈ durable_entries (btree_entries be_val p) ↔ p !! k = Some r ∧ persists r = true.
Proof.
  unfold durable_entries. rewrite list_elem_of_filter, elem_of_btree_entries. simpl. tauto.
Qed.

Lemma durable_pairings_lookup now p k :
  durable_pairings now p !! k
  = (r ← p !! k; if persists r then Some (refresh now r) else None).
Proof. unfold durable_pairings. by rewrite lookup_omap. Qed.

Lemma find_relation p k now :
  match List.find (λ r, bool_decide (pp_peer_id r = k))
          (relation_of <$> durable_entries (btree_entries be_val p)) with
  | Some r => Some (restore_record now r)
  | None => None
  end = durable_pairings now p !! k.
Proof.
  rewrite durable_pairings_lookup. destruct (List.find _ _) as [rel|] eqn:Hf.
  - apply find_some in Hf as [Hin Hk]. apply bool_decide_eq_true in Hk.
    apply list_elem_of_In, list_elem_of_fmap in Hin as ([k' r] & -> & Hin).
    apply elem_of_durable_entries in Hin as [Hl Hp]. simpl in Hk. subst k'.
    rewrite Hl. simpl. by rewrite Hp.
  - destruct (p !! k) as [r|] eqn:Hl; [|done]. simpl.
    destruct (persists r) eqn:Hp; [|done]. exfalso.
    eapply find_none with (x := relation_of (k, r)) in Hf.
    + simpl in Hf. by apply bool_decide_eq_false in Hf.
    + apply list_elem_of_In, list_elem_of_fmap_2. by apply elem_of_durable_entries.
Qed.

Lemma durable_paired (now : Z) (p : pairing_map) k :
  (∃ r, durable_pairings now p !! k = Some r ∧ pr_paired r = true)
  ↔ ∃ r, p !! k = Some r ∧ persists r = true ∧ pr_revoked r = false.
Proof.
  rewrite durable_pairings_lookup. destruct (p !! k) as [r|]; simpl; [|naive_solver].
  destruct (persists r) eqn:Hp.
  - split.
    + intros (x & [= <-] & Hx). exists r. simpl in Hx. by destruct (pr_revoked r).
    + intros (x & [= <-] & _ & Hx). eexists. split; [done|]. simpl. by rewrite Hx.
  - split; [naive_solver|]. intros (x & [= <-] & Hx & _). congruence.
Qed.
Section RestoreFacts.
Context {St Fl : Type} {RS : RevisionStore St Fl} {LRS : LawfulRevisionStore St Fl}.
Context (pairings_to_vec : list PersistedPairingRelation → option (list byte))
  (pairings_from_slice : list byte → option (list PersistedPairingRelation)).
Context (endpoint_id_ok : list byte → bool).
Context (json_roundtrip : ∀ rs bs, pairings_to_vec rs = Some bs → pairings_from_slice bs = Some rs).

Local Abbreviation restore := 
  (restore_pairing_authority pairings_to_vec pairings_from_slice endpoint_id_ok).
Local Abbreviation encode := (encode_pairing_authority pairings_to_vec).

Lemma encode_pairing_authority_Ok p payload generation :
  encode p = Ok (payload, generation) →
  let entries := durable_entries (btree_entries be_val p) in
  pairings_to_vec (relation_of <$> entries) = Some payload
  ∧ len (relation_of <$> entries) ≤ MAX_PERSISTED_PAIRING_RELATIONS
  ∧ len payload ≤ MAX_AUTHORITY_PAYLOAD
  ∧ Forall (λ kv, persistable kv.2) entries
  ∧ generation = foldr Z.max 1 ((λ kv, pr_pairing_generation kv.2) <$> entries).
Proof.
  unfold encode_pairing_authority. intros H.
  apply bind_Ok in H as ([rels agg] & (-> & Hf & ->)%persist_relations_Ok & H).
  destruct (_ <? _) eqn:Hl; [discriminate|].
  apply bind_Ok in H as (bs & Hbs%ok_or_Ok & H).
  destruct (_ <? len bs) eqn:Hl2; [discriminate|]. bool_facts. injection H as <- <-. cbn zeta. split_and!; done.
Qed.

Lemma encode_returns p : returns (encode p).
Proof.
  unfold encode_pairing_authority. apply bind_returns.
  - generalize 1. generalize (btree_entries be_val p). intros l.
    induction l as [|[k r] l IH]; intros a; simpl; [done|].
    destruct (negb _); [apply IH|]. apply bind_returns.
    { unfold persist_relation. by destruct (_ || _). }
    intros rel _. apply bind_returns; [apply IH|]. by intros [].
  - intros [rels agg] _. no_panic.
Qed.

(** Restoring from a record that holds an encoding of [p]. *)
Lemma restore_encoded lf cf now expected p payload generation revision s o :
  encode p = Ok (payload, generation) →
  (∃ k r, p !! k = Some r ∧ persists r = true) →
  (∀ k r, p !! k = Some r → persists r = true →
     endpoint_id_ok k = true ∧ pr_local_identity_generation r = expected
     ∧ 1 ≤ pr_pairing_generation r ∧ 0 ≤ pr_last_attempt_id r < u64_max) →
  rs_view pairing_authority_record s
    = Ok (Some {| sa_revision := revision; sa_generation := generation;
                  sa_state := str_lit "active"; sa_payload := payload |}) →
  rs_load lf pairing_authority_record s = Ok o →
  ∃ next_attempt_id,
    restore lf cf now expected s
    = (s, Ok {| re_pairings := durable_pairings now p; re_revision := revision;
                re_next_attempt_id := next_attempt_id; re_generation := generation |})
    ∧ (∀ k r, p !! k = Some r → persists r = true → pr_last_attempt_id r < next_attempt_id).
Proof.
  intros (Hvec & Hcount & _ & Hpersist & ->)%encode_pairing_authority_Ok (k0 & r0 & Hk0 & Hr0)
    Hall Hview Hload.
  set (entries := durable_entries (btree_entries be_val p)) in *.
  assert (Hin0 : (k0, r0) ∈ entries) by (by apply elem_of_durable_entries).
  set (agg := foldr Z.max 1 _) in *.
  destruct (foldr_max_bounds ((λ kv, pr_pairing_generation kv.2) <$> entries) 1) as (Hagg1 & Hagg & _).
  fold agg in Hagg1, Hagg.
  rewrite (law_load_view _ _ _ _ Hload) in Hview. simplify_eq.
  destruct (restore_relations_Ok endpoint_id_ok agg expected now (relation_of <$> entries)
    {| rl_pairings := ∅; rl_max_generation := 0; rl_max_attempt_id := 0; rl_stale := false |})
    as (l & Hl & Hk & Hg & Ha & Hs).
  - apply Forall_forall. intros rel ([k r] & -> & Hin)%list_elem_of_fmap.
    rewrite Forall_forall in Hpersist. destruct (Hpersist _ Hin) as (? & ? & ? & ? & ?).
    pose proof Hin as [Hl Hp]%elem_of_durable_entries.
    destruct (Hall _ _ Hl Hp) as (? & _ & ? & ?).
    unfold restorable. simpl. split_and!; try done.
    apply Hagg, list_elem_of_fmap. by exists (k, r).
  - rewrite <-list_fmap_compose.
    eapply sublist_NoDup; [apply (btree_entries_NoDup be_val p)|].
    apply (fmap_sublist fst), sublist_filter.
  - intros r _. apply lookup_empty.
  - assert (Hstale : rl_stale l = false).
    { rewrite Hs. simpl. apply existsb_false, Forall_forall.
      intros rel ([k r] & -> & [Hl' Hp]%elem_of_durable_entries)%list_elem_of_fmap. simpl.
      destruct (Hall _ _ Hl' Hp) as (_ & -> & _). by rewrite Z.eqb_refl. }
    assert (Hne : expected ≠ 0).
    { destruct (Hall _ _ Hk0 Hr0) as (_ & <- & _).
      rewrite Forall_forall in Hpersist. by destruct (Hpersist _ Hin0) as (_ & ? & _). }
    assert (Hmax : rl_max_generation l = agg).
    { rewrite Hg. simpl. rewrite foldl_max_spec, <-list_fmap_compose. unfold agg.
      change (λ kv, pr_pairing_generation kv.2) with (pp_pairing_generation ∘ relation_of).
      apply foldr_max_start. exists (pr_pairing_generation r0). split.
      - apply list_elem_of_fmap. by exists (k0, r0).
      - by apply (Hall _ _ Hk0 Hr0). }
    assert (Hatt : ∀ k r, p !! k = Some r → persists r = true →
              pr_last_attempt_id r ≤ rl_max_attempt_id l).
    { intros k r Hl' Hp. rewrite Ha. simpl. rewrite foldl_max_spec, <-list_fmap_compose.
      apply foldr_max_bounds, list_elem_of_fmap. exists (k, r).
      split; [done|]. by apply elem_of_durable_entries. }
    assert (Hatt1 : rl_max_attempt_id l < u64_max).
    { rewrite Ha. simpl. rewrite foldl_max_spec, <-list_fmap_compose.
      destruct (foldr_max_bounds (pp_last_attempt_id ∘ relation_of <$> entries) 0)
        as (_ & _ & [->|Hx]); [done|].
      apply list_elem_of_fmap in Hx as ([k r] & -> & [Hl' Hp]%elem_of_durable_entries).
      by apply (Hall _ _ Hl' Hp). }
    exists (rl_max_attempt_id l + 1). split; [|intros k r Hl' Hp; specialize (Hatt k r Hl' Hp); lia].
    unfold restore_pairing_authority, st_bind, st_lift, st_ret.
    rewrite (proj2 (Z.eqb_neq _ 0) Hne), Hload. simpl.
    rewrite (proj2 (Z.eqb_neq agg 0)) by lia. simpl.
    rewrite (json_roundtrip _ _ Hvec). simpl.
    rewrite (proj2 (Z.ltb_ge _ _) Hcount). rewrite bool_decide_eq_false_2.
    2:{ intros Hnil. apply fmap_nil_inv in Hnil. rewrite Hnil in Hin0. by apply not_elem_of_nil in Hin0. }
    rewrite Hl, Hmax, Z.eqb_refl, Hstale. simpl.
    rewrite (proj2 (u64_checked_add_Some _ _ (rl_max_attempt_id l + 1))) by (split; [done|lia]).
    simpl. do 3 f_equal. apply map_eq. intros k. rewrite Hk. cbn [rl_pairings]. rewrite lookup_empty. apply find_relation.
Qed.
End RestoreFacts.

Ltac relay_bounds :=
  unfold MAX_PAIRING_ATTEMPTS, MAX_PAIRING_CHALLENGES_PER_WINDOW, MAX_PAIRING_RECORDS,
    INITIAL_PAIRING_GENERATION, INITIAL_PEER_IDENTITY_GENERATION, persists, persistable in *;
  simpl in *.

(** ** The admission invariant *)
Section StateFacts.
Context {St Fl : Type} {RS : RevisionStore St Fl} {LRS : LawfulRevisionStore St Fl}.
Context (pairings_to_vec : list PersistedPairingRelation → option (list byte))
  (pairings_from_slice : list byte → option (list PersistedPairingRelation)).
Context (endpoint_id_ok : list byte → bool).

Local Abbreviation state := (@IrohRelayState St).
Local Abbreviation commit_pairings := (commit_pairings pairings_to_vec).
Local Abbreviation mark_paired := (mark_paired pairings_to_vec).
Local Abbreviation revoke_relation := (revoke_relation pairings_to_vec).
Local Abbreviation revoke_peer := (revoke_peer pairings_to_vec).
Local Abbreviation encode := (encode_pairing_authority pairings_to_vec).

(** One record of the registry: counters within their limits, not both paired and
    revoked, owned by this Relay identity, with an attempt identifier already given out;
    a durable record carries no zero field and no generation above the aggregate. *)
Record record_wf (s : state) (peer : list byte) (r : PairingRecord) : Prop := {
  rw_peer : endpoint_id_ok peer = true;
  rw_exclusive : pr_paired r && pr_revoked r = false;
  rw_failed : 0 ≤ pr_failed_attempts r ≤ MAX_PAIRING_ATTEMPTS;
  rw_count : 0 ≤ pr_challenge_count r ≤ MAX_PAIRING_CHALLENGES_PER_WINDOW;
  rw_generation : 1 ≤ pr_pairing_generation r;
  rw_attempt : 1 ≤ pr_last_attempt_id r < ir_next_attempt_id s;
  rw_local : pr_local_identity_generation r = ir_local_identity_generation s;
  rw_durable : persists r = true →
    persistable r ∧ pr_pairing_generation r ≤ ir_authority_generation s;
}.

Record relay_wf (s : state) : Prop := {
  iw_records : ∀ peer r, ir_pairings s !! peer = Some r → record_wf s peer r;
  iw_size : map_len (ir_pairings s) ≤ MAX_PAIRING_RECORDS;
  iw_max : ir_max_pairing_records s ≤ MAX_PAIRING_RECORDS;
  iw_local : ir_local_identity_generation s ≠ 0;
  iw_attempt : 1 ≤ ir_next_attempt_id s ≤ u64_max;
  iw_revision : 0 ≤ ir_revision s;
  iw_authority : 0 ≤ ir_authority_generation s;
}.

Lemma record_wf_mono s s' peer r :
  record_wf s peer r → ir_next_attempt_id s ≤ ir_next_attempt_id s' →
  ir_local_identity_generation s' = ir_local_identity_generation s →
  ir_authority_generation s ≤ ir_authority_generation s' → record_wf s' peer r.
Proof.
  intros [] Hn Hl Ha. split; try done; try lia.
  intros Hp. destruct (rw_durable0 Hp). split; [done|lia].
Qed.

(** The fields a registry update leaves alone, and how the counters move. *)
Lemma relay_wf_step s s' :
  relay_wf s →
  ir_max_pairing_records s' = ir_max_pairing_records s →
  ir_local_identity_generation s' = ir_local_identity_generation s →
  ir_next_attempt_id s ≤ ir_next_attempt_id s' ≤ u64_max →
  0 ≤ ir_revision s' → ir_authority_generation s ≤ ir_authority_generation s' →
  map_len (ir_pairings s') ≤ MAX_PAIRING_RECORDS →
  (∀ peer r, ir_pairings s' !! peer = Some r →
     ir_pairings s !! peer = Some r ∨ record_wf s' peer r) →
  relay_wf s'.
Proof.
  intros Hwf Hm Hl Hn Hr Ha Hsz Hrec. pose proof Hwf as []. split; try congruence; try lia.
  intros peer r Hp. destruct (Hrec peer r Hp) as [Hold|]; [|done].
  eapply record_wf_mono; [by apply iw_records0|lia|done|lia].
Qed.

Lemma next_attempt_spec (s : state) :
  (∃ n, n = ir_next_attempt_id s ∧ n + 1 ≤ u64_max
     ∧ next_attempt s = (set_attempt_id (n + 1) s, Some n))
  ∨ next_attempt s = (s, None).
Proof.
  unfold next_attempt. destruct (u64_checked_add _ 1) eqn:Ha; [|by right].
  apply u64_checked_add_Some in Ha as [-> ?]. left. by eexists.
Qed.

Lemma authority_timestamp_Ok c t : authority_timestamp c = Ok t → 1 ≤ t.
Proof. unfold authority_timestamp. destruct (ck_epoch c); intros; simplify_eq. lia. Qed.

Lemma new_pairing_record_spec c now (s : state) peer s' o :
  relay_wf s → endpoint_id_ok peer = true →
  new_pairing_record c now s = (s', o) →
  (s' = s ∨ s' = set_attempt_id (ir_next_attempt_id s + 1) s ∧ ir_next_attempt_id s + 1 ≤ u64_max)
  ∧ ∀ r, o = Some r → record_wf s' peer r ∧ pr_paired r = false ∧ pr_revoked r = false
      ∧ pr_challenge_count r = 0 ∧ pr_failed_attempts r = 0 ∧ pr_challenge_window_started r = now
      ∧ pr_pairing_generation r = 1.
Proof.
  intros Hwf Hok. unfold new_pairing_record.
  destruct (next_attempt_spec s) as [(n & -> & Hmax & ->)| ->]; [|intros [= <- <-]; by split; [left|]].
  intros [= <- <-]. split; [auto|]. intros r Hr.
  destruct (authority_timestamp c) as [t|e|] eqn:Ht; simplify_eq.
  apply authority_timestamp_Ok in Ht. destruct Hwf.
  split; [|done]. split; relay_bounds; done || lia.
Qed.

Lemma ensure_record_spec c peer (s : state) s' o :
  relay_wf s → endpoint_id_ok peer = true → ensure_record c peer s = (s', o) →
  relay_wf s' ∧ ir_pairings s' !! peer = o
  ∧ (∀ q, q ≠ peer → ir_pairings s' !! q = ir_pairings s !! q)
  ∧ (ir_pairings s !! peer = o ∨ ir_pairings s !! peer = None ∧ ∀ r, o = Some r →
       pr_paired r = false ∧ pr_revoked r = false ∧ pr_challenge_count r = 0
       ∧ pr_failed_attempts r = 0 ∧ pr_challenge_window_started r = ck_now c
       ∧ pr_pairing_generation r = 1)
  ∧ (ir_max_pairing_records s ≤ map_len (ir_pairings s) → o = ir_pairings s !! peer)
  ∧ s' = set_attempt_id (ir_next_attempt_id s') (set_pairings (ir_pairings s') s).
Proof.
  intros Hwf Hok. unfold ensure_record.
  destruct (ir_pairings s !! peer) as [r|] eqn:Hp.
  { intros [= <- <-]. rewrite Hp. split_and!; auto. by destruct s. }
  destruct (_ <=? _) eqn:Hcap; bool_facts.
  { intros [= <- <-]. rewrite Hp. split_and!; auto. by destruct s. }
  destruct (new_pairing_record c (ck_now c) s) as [s1 o1] eqn:Hn.
  destruct (new_pairing_record_spec _ _ _ peer _ _ Hwf Hok Hn) as [Hs1 Ho1].
  assert (Hwf1 : relay_wf s1).
  { destruct Hs1 as [->|[-> ?]]; [done|]. destruct Hwf. split; simpl; try done; try lia.
    intros q r Hq. eapply record_wf_mono; [by apply iw_records0|simpl; lia|done|simpl; lia]. }
  assert (Hpairs : ir_pairings s1 = ir_pairings s) by (by destruct Hs1 as [->|[-> _]]).
  assert (Hsame : s1 = set_attempt_id (ir_next_attempt_id s1) (set_pairings (ir_pairings s1) s)).
  { destruct Hs1 as [->|[-> _]]; by destruct s. }
  destruct o1 as [r|]; intros [= <- <-].
  - destruct (Ho1 r eq_refl) as (Hrw & Hr). split; [|split; [|split; [|split; [|split]]]].
    + eapply (relay_wf_step s1); simpl; try done; try apply Hwf1; try lia.
      * split; [lia|apply Hwf1].
      * rewrite map_len_insert_new by congruence. destruct Hwf. rewrite Hpairs. lia.
      * intros q x [[<- <-]|[_ ?]]%lookup_insert_Some; [right|by left]. 
        eapply record_wf_mono; [exact Hrw|simpl; lia..|done|simpl; lia].
    + simpl. apply lookup_insert_eq.
    + intros q Hq. simpl. rewrite lookup_insert_ne by done. by rewrite Hpairs.
    + right. split; [done|]. intros ? [= <-]. exact Hr.
    + lia.
    + rewrite Hsame. by destruct s.
  - rewrite Hpairs, Hp. split_and!; auto.
    rewrite Hsame, Hpairs. by destruct s.
Qed.

(** Writing back a record that is well formed. *)
Lemma update_record_wf (s : state) peer r r0 :
  relay_wf s → ir_pairings s !! peer = Some r0 → record_wf s peer r →
  relay_wf (set_pairings (<[peer := r]> (ir_pairings s)) s).
Proof.
  intros Hwf H0 Hr. eapply (relay_wf_step s); simpl; try done; try lia; try apply Hwf.
  - split; [lia|apply Hwf].
  - rewrite map_len_insert_eq by eauto. apply Hwf.
  - intros q x [[<- <-]|[_ ?]]%lookup_insert_Some; [right|by left].
    eapply record_wf_mono; [exact Hr|simpl; lia..|done|simpl; lia].
Qed.

Lemma set_challenge_wf (s : state) peer r window count failed :
  record_wf s peer r → 0 ≤ count ≤ MAX_PAIRING_CHALLENGES_PER_WINDOW →
  0 ≤ failed ≤ MAX_PAIRING_ATTEMPTS → record_wf s peer (set_challenge window count failed r).
Proof. intros [] Hc Hf. by split. Qed.

(** What [reserve_pairing_challenge] answers, by the record the peer ends up with. *)
Lemma reserve_spec c peer (s : state) s' b :
  relay_wf s → endpoint_id_ok peer = true → reserve_pairing_challenge c peer s = (s', b) →
  relay_wf s' ∧ (∀ q, q ≠ peer → ir_pairings s' !! q = ir_pairings s !! q)
  ∧ is_paired s' peer = is_paired s peer ∧ (b = true → is_paired s peer = false)
  ∧ s' = set_attempt_id (ir_next_attempt_id s') (set_pairings (ir_pairings s') s).
Proof.
  intros Hwf Hok. unfold reserve_pairing_challenge.
  destruct (ensure_record c peer s) as [s1 o] eqn:He.
  destruct (ensure_record_spec _ _ _ _ _ Hwf Hok He) as (Hwf1 & Hp1 & Hq & Hsrc & _ & Hs1).
  assert (Hpaired : is_paired s1 peer = is_paired s peer).
  { unfold is_paired. rewrite Hp1. destruct Hsrc as [->|[-> Hf]]; [done|].
    destruct o as [r|]; [|done]. by destruct (Hf r eq_refl) as [-> _]. }
  destruct o as [r|]; [|intros [= <- <-]; by split_and!].
  destruct (pr_paired r) eqn:Hrp; [intros [= <- <-]; by split_and!|].
  assert (Hrw : record_wf s1 peer r) by (by apply iw_records).
  assert (Hnp : is_paired s1 peer = false) by (unfold is_paired; by rewrite Hp1).
  set (r1 := if PAIRING_CHALLENGE_WINDOW <=? _ then _ else _).
  assert (Hr1 : record_wf s1 peer r1 ∧ pr_paired r1 = false).
  { unfold r1. destruct (_ <=? _); [|done]. split; [|done].
    apply set_challenge_wf; [done|relay_bounds; lia|apply Hrw]. }
  destruct Hr1 as [Hr1 Hr1p].
  assert (Hfinal : ∀ r2, record_wf s1 peer r2 → pr_paired r2 = false →
    let s2 := set_pairings (<[peer := r2]> (ir_pairings s1)) s1 in
    relay_wf s2 ∧ (∀ q, q ≠ peer → ir_pairings s2 !! q = ir_pairings s !! q)
    ∧ is_paired s2 peer = is_paired s peer
    ∧ s2 = set_attempt_id (ir_next_attempt_id s2) (set_pairings (ir_pairings s2) s)).
  { intros r2 Hr2 Hr2p s2. split; [by eapply update_record_wf|]. split; [|split].
    - intros q Hne. unfold s2. simpl. rewrite lookup_insert_ne by done. by apply Hq.
    - unfold s2. rewrite <-Hpaired, Hnp. unfold is_paired. simpl. by rewrite lookup_insert_eq.
    - unfold s2. rewrite Hs1. by destruct s. }
  destruct (_ <=? pr_challenge_count r1) eqn:Hcount; intros [= <- <-].
  - destruct (Hfinal r1 Hr1 Hr1p) as (? & ? & ? & ?). by split_and!.
  - bool_facts.
    destruct (Hfinal (set_challenge (pr_challenge_window_started r1) (pr_challenge_count r1 + 1) 0 r1))
      as (? & ? & ? & ?); [|done|].
    { apply set_challenge_wf; [done| |relay_bounds; lia]. destruct Hr1. relay_bounds. lia. }
    split_and!; try done. intros _. congruence.
Qed.

Lemma failure_spec c peer (s : state) s' b :
  relay_wf s → endpoint_id_ok peer = true → record_pairing_failure c peer s = (s', b) →
  relay_wf s' ∧ (∀ q, q ≠ peer → ir_pairings s' !! q = ir_pairings s !! q)
  ∧ is_paired s' peer = is_paired s peer
  ∧ s' = set_attempt_id (ir_next_attempt_id s') (set_pairings (ir_pairings s') s)
  ∧ ∀ r, ir_pairings s !! peer = Some r →
      b = (pr_failed_attempts r + 1 <? MAX_PAIRING_ATTEMPTS)
      ∧ ir_pairings s' !! peer
        = Some (set_challenge (pr_challenge_window_started r) (pr_challenge_count r)
                  (Z.min MAX_PAIRING_ATTEMPTS (pr_failed_attempts r + 1)) r).
Proof.
  intros Hwf Hok. unfold record_pairing_failure.
  destruct (ensure_record c peer s) as [s1 o] eqn:He.
  destruct (ensure_record_spec _ _ _ _ _ Hwf Hok He) as (Hwf1 & Hp1 & Hq & Hsrc & _ & Hs1).
  assert (Hpaired : is_paired s1 peer = is_paired s peer).
  { unfold is_paired. rewrite Hp1. destruct Hsrc as [->|[-> Hf]]; [done|].
    destruct o as [r|]; [|done]. by destruct (Hf r eq_refl) as [-> _]. }
  destruct o as [r|].
  2:{ intros [= <- <-]. split_and!; try done. intros r Hr. destruct Hsrc as [?|[? _]]; congruence. }
  assert (Hrw : record_wf s1 peer r) by (by apply iw_records).
  pose proof (rw_failed _ _ _ Hrw) as Hfr.
  assert (Hold : ∀ r', ir_pairings s !! peer = Some r' → r' = r).
  { intros r' Hr'. destruct Hsrc as [?|[? _]]; congruence. }
  destruct (_ <=? pr_failed_attempts r) eqn:Hmax; intros [= <- <-]; bool_facts.
  - split_and!; try done. intros r' Hr'. rewrite (Hold r' Hr').
    split; [symmetry; apply Z.ltb_ge; relay_bounds; lia|].
    rewrite Hp1. f_equal. rewrite Z.min_l by (relay_bounds; lia).
    replace MAX_PAIRING_ATTEMPTS with (pr_failed_attempts r) by (relay_bounds; lia).
    by destruct r.
  - split; [|split; [|split; [|split]]].
    + eapply update_record_wf; [done..|]. apply set_challenge_wf; [done|apply Hrw|relay_bounds; lia].
    + intros q Hne. simpl. rewrite lookup_insert_ne by done. by apply Hq.
    + rewrite <-Hpaired. unfold is_paired. simpl. by rewrite lookup_insert_eq, Hp1.
    + rewrite Hs1. by destruct s.
    + intros r' Hr'. rewrite (Hold r' Hr'). split; [done|]. simpl. rewrite lookup_insert_eq.
      by rewrite Z.min_r by (relay_bounds; lia).
Qed.

(** ** Commits *)
Lemma commit_pairings_spec f candidate (s : state) s' r :
  candidate ≠ ∅ → 0 ≤ ir_revision s → commit_pairings f candidate s = (s', r) →
  s' = set_authority (ir_store s') (ir_revision s) (ir_authority_generation s') s
  ∧ (ir_store s = None → ir_store s' = None)
  ∧ match r with
    | Ok next_revision =>
        ∃ payload, encode candidate = Ok (payload, ir_authority_generation s')
          ∧ ir_authority_generation s ≤ ir_authority_generation s'
          ∧ match ir_store s with
            | None => next_revision = ir_revision s
            | Some st => ∃ st', ir_store s' = Some st' ∧ next_revision = ir_revision s + 1
                ∧ advanced pairing_authority_record (ir_authority_generation s') (str_lit "active")
                    payload (ir_revision s) st st'
            end
    | Err _ => ir_authority_generation s' = ir_authority_generation s
    | Panic => False
    end.
Proof.
  intros Hne Hrev. unfold IrohRelay.commit_pairings. pose proof (encode_returns pairings_to_vec candidate).
  destruct (encode candidate) as [[payload g]|e|]; [| |done].
  2:{ intros [= <- <-]. split; [by destruct s|]. done. }
  rewrite bool_decide_eq_false_2 by done.
  destruct (g <? _) eqn:Hg; [intros [= <- <-]; split; [by destruct s|done]|]. bool_facts.
  destruct (ir_store s) as [st|] eqn:Hst.
  - destruct (rs_commit _ _ _ _ _ _ st) as [st' r'] eqn:Hc.
    apply law_commit in Hc; [|done].
    destruct r' as [rev|e|]; [| |done]; intros [= <- <-]; simpl.
    + destruct Hc as [-> Hadv]. split; [done|]. split; [done|]. exists payload. eauto 10.
    + done.
  - intros [= <- <-]. simpl. split; [done|]. split; [done|]. by exists payload.
Qed.

(** A candidate that confirms one relation keeps the invariant when it is installed. *)
Lemma install_wf (s s2 : state) peer record generation updated n paired next_revision payload :
  relay_wf s → endpoint_id_ok peer = true →
  (ir_pairings s !! peer = Some record
   ∨ ir_pairings s !! peer = None ∧ map_len (ir_pairings s) < ir_max_pairing_records s
     ∧ 0 ≤ pr_challenge_count record ≤ MAX_PAIRING_CHALLENGES_PER_WINDOW) →
  1 ≤ generation → 1 ≤ updated → n = ir_next_attempt_id s → n + 1 ≤ u64_max →
  0 ≤ next_revision →
  let candidate := <[peer := confirmed_record record generation (ir_local_identity_generation s)
                      updated n paired]> (ir_pairings s) in
  s2 = set_authority (ir_store s2) (ir_revision s) (ir_authority_generation s2)
         (set_attempt_id (n + 1) s) →
  ir_authority_generation s ≤ ir_authority_generation s2 →
  encode candidate = Ok (payload, ir_authority_generation s2) →
  relay_wf (install_pairings candidate next_revision s2).
Proof.
  intros Hwf Hok Hsrc Hg Hu -> Hn Hrev candidate Hs2 Hauth Henc.
  apply encode_pairing_authority_Ok in Henc as (_ & _ & _ & _ & Hagg).
  assert (Hle : generation ≤ ir_authority_generation s2).
  { rewrite Hagg. apply foldr_max_bounds. apply list_elem_of_fmap.
    exists (peer, confirmed_record record generation (ir_local_identity_generation s) updated
      (ir_next_attempt_id s) paired). split; [done|]. apply elem_of_durable_entries.
    split; [apply lookup_insert_eq|]. unfold persists. simpl. by destruct paired. }
  pose proof Hwf as [].
  eapply (relay_wf_step s); try rewrite Hs2; simpl; try done; try lia.
  - subst candidate. destruct Hsrc as [Hr|(Hr & Hlt & _)].
    + rewrite map_len_insert_eq by eauto. lia.
    + rewrite map_len_insert_new by done. lia.
  - intros q x [[<- <-]|[_ ?]]%lookup_insert_Some; [right|by left].
    split; simpl; try done; try (relay_bounds; lia).
    + by destruct paired.
    + destruct Hsrc as [Hr|(_ & _ & ?)]; [|done]. apply iw_records0 in Hr. apply Hr.
    + intros _. split; [|done]. unfold persistable. simpl.
      split_and!; try done; relay_bounds; lia.
Qed.

(** What the store holds after a registry update was made durable. *)
Definition durably_stored (s : state) : Prop :=
  ∀ st, ir_store s = Some st →
  ∃ payload, encode (ir_pairings s) = Ok (payload, ir_authority_generation s)
    ∧ rs_view pairing_authority_record st
      = Ok (Some {| sa_revision := ir_revision s; sa_generation := ir_authority_generation s;
                    sa_state := str_lit "active"; sa_payload := payload |}).

(** The connection side of the state, untouched by the pairing operations. *)
Definition same_connections (s s' : state) : Prop :=
  ir_permits s' = ir_permits s ∧ ir_active s' = ir_active s ∧ ir_shutdown s' = ir_shutdown s
  ∧ ir_runtime_epoch s' = ir_runtime_epoch s ∧ ir_next_generation s' = ir_next_generation s
  ∧ ir_max_pairing_records s' = ir_max_pairing_records s
  ∧ ir_local_identity_generation s' = ir_local_identity_generation s
  ∧ (is_Some (ir_store s') → is_Some (ir_store s)).

(** The step [mark_paired] and [revoke_peer] share: confirm one relation, commit the
    candidate, and install it when the commit succeeded. *)
Definition confirm (f : Fl) (peer : list byte) (record : PairingRecord)
    (generation updated : Z) (paired : bool) (s : state) : state * store_result unit :=
  match next_attempt s with
  | (s1, None) => (s1, Err Unknown)
  | (s1, Some last_attempt_id) =>
      let candidate :=
        <[peer := confirmed_record record generation (ir_local_identity_generation s)
                    updated last_attempt_id paired]> (ir_pairings s) in
      match commit_pairings f candidate s1 with
      | (s2, Ok next_revision) => (install_pairings candidate next_revision s2, Ok tt)
      | (s2, Err e) => (s2, Err e)
      | (s2, Panic) => (s2, Panic)
      end
  end.

Lemma confirm_spec f peer record generation updated paired (s : state) s' r :
  relay_wf s → endpoint_id_ok peer = true →
  (ir_pairings s !! peer = Some record
   ∨ ir_pairings s !! peer = None ∧ map_len (ir_pairings s) < ir_max_pairing_records s
     ∧ 0 ≤ pr_challenge_count record ≤ MAX_PAIRING_CHALLENGES_PER_WINDOW) →
  1 ≤ generation → 1 ≤ updated →
  confirm f peer record generation updated paired s = (s', r) →
  relay_wf s' ∧ same_connections s s' ∧ ir_closed s' = ir_closed s
  ∧ match r with
    | Ok _ =>
        (∃ n, ir_pairings s' = <[peer := confirmed_record record generation
                 (ir_local_identity_generation s) updated n paired]> (ir_pairings s))
        ∧ durably_stored s'
        ∧ generation ≤ ir_authority_generation s'
    | Err _ => ir_pairings s' = ir_pairings s
    | Panic => False
    end.
Proof.
  intros Hwf Hok Hsrc Hg Hu. unfold confirm.
  destruct (next_attempt_spec s) as [(n & Hn & Hmax & ->)| ->].
  2:{ intros [= <- <-]. split_and!; try done. }
  set (candidate := <[peer := _]> (ir_pairings s)).
  destruct (commit_pairings f candidate _) as [s2 r2] eqn:Hc.
  apply commit_pairings_spec in Hc as (Hs2 & Hnone & Hr2);
    [|by apply insert_non_empty|apply Hwf].
  simpl in Hs2, Hnone, Hr2.
  assert (Hsame : same_connections s s2 ∧ ir_closed s2 = ir_closed s ∧ ir_pairings s2 = ir_pairings s).
  { rewrite Hs2. split; [|done]. unfold same_connections. simpl. split_and!; try done.
    intros Hx. destruct (ir_store s); [done|]. rewrite Hnone in Hx by done. by destruct Hx. }
  destruct Hsame as (Hsame & Hcl & Hps).
  destruct r2 as [next_revision|e|]; [| |done].
  - destruct Hr2 as (payload & Henc & Hauth & Hstore). intros [= <- <-].
    assert (Hrev : 0 ≤ next_revision).
    { destruct Hwf. destruct (ir_store s); [destruct Hstore as (? & _ & -> & _); lia|lia]. }
    split; [|split; [|split; [|split; [|split]]]].
    + by eapply install_wf.
    + exact Hsame.
    + exact Hcl.
    + by exists n.
    + intros st Hst. simpl in *. exists payload. split; [done|].
      destruct (ir_store s) as [st0|]; [|rewrite Hnone in Hst by done; done].
      destruct Hstore as (st' & Hst' & -> & _ & _ & Hview). rewrite Hst' in Hst. by simplify_eq.
    + simpl. apply encode_pairing_authority_Ok in Henc as (_ & _ & _ & _ & ->).
      apply foldr_max_bounds, list_elem_of_fmap.
      exists (peer, confirmed_record record generation (ir_local_identity_generation s) updated
        n paired). split; [done|]. apply elem_of_durable_entries.
      split; [apply lookup_insert_eq|]. unfold persists. simpl. by destruct paired.
  - intros [= <- <-]. split; [|split_and!; done].
    pose proof Hwf as []. eapply (relay_wf_step s); try done; rewrite ?Hps; try done.
    all: rewrite Hs2; simpl; try done; try lia.
    intros q x Hq. by left.
Qed.

Lemma mark_paired_confirm f c peer (s : state) :
  mark_paired f c peer s =
  (if bool_decide (ir_pairings s !! peer = None)
      && (ir_max_pairing_records s <=? map_len (ir_pairings s))
   then (s, Ok false) else
   let record :=
     default (blank_record (ck_now c) (ir_local_identity_generation s)) (ir_pairings s !! peer) in
   if pr_paired record then (s, Ok true) else
   let generation :=
     if pr_pairing_generation record =? 0
     then (λ g, Z.max g INITIAL_PAIRING_GENERATION)
            <$> ok_or (u64_checked_add (ir_authority_generation s) 1) Unknown
     else ok_or (u64_checked_add (pr_pairing_generation record) 1) Unknown in
   match generation, authority_timestamp c with
   | Ok generation, Ok updated =>
       let '(s', r) := confirm f peer record generation updated true s in
       (s', (λ _, true) <$> r)
   | Err e, _ => (s, Err e)
   | _, Err e => (s, Err e)
   | _, _ => (s, Panic)
   end).
Proof.
  unfold IrohRelay.mark_paired, confirm. repeat (case_match; simplify_eq/=; try done).
Qed.

(** [mark_paired], on every branch. *)
Lemma mark_paired_spec f c peer (s : state) s' r :
  relay_wf s → endpoint_id_ok peer = true → mark_paired f c peer s = (s', r) →
  relay_wf s' ∧ same_connections s s' ∧ ir_closed s' = ir_closed s
  ∧ match r with
    | Ok true =>
        is_paired s peer = true ∧ s' = s
        ∨ is_paired s peer = false ∧ is_paired s' peer = true ∧ durably_stored s'
          ∧ (∀ q, q ≠ peer → ir_pairings s' !! q = ir_pairings s !! q)
    | Ok false => s' = s ∧ ir_pairings s !! peer = None
        ∧ ir_max_pairing_records s ≤ map_len (ir_pairings s)
    | Err _ => ir_pairings s' = ir_pairings s ∧ is_paired s peer = false
    | Panic => False
    end.
Proof.
  intros Hwf Hok. rewrite mark_paired_confirm.
  assert (Hrefl : same_connections s s) by done.
  destruct (bool_decide _ && _) eqn:Hcap.
  { intros [= <- <-]. bool_facts. by split_and!. }
  cbn zeta. set (record := default _ _).
  assert (Hnp : is_paired s peer = pr_paired record).
  { unfold is_paired, record. by destruct (ir_pairings s !! peer). }
  rewrite Hnp. destruct (pr_paired record) eqn:Hrp.
  { intros [= <- <-]. split_and!; try done. by left. }
  assert (Hsrc : ir_pairings s !! peer = Some record
   ∨ ir_pairings s !! peer = None ∧ map_len (ir_pairings s) < ir_max_pairing_records s
     ∧ 0 ≤ pr_challenge_count record ≤ MAX_PAIRING_CHALLENGES_PER_WINDOW).
  { unfold record. destruct (ir_pairings s !! peer) eqn:Hp; [by left|right].
    rewrite bool_decide_eq_true_2 in Hcap by done. simpl in Hcap. bool_facts.
    split; [done|]. split; [done|]. relay_bounds. lia. }
  set (generation := if pr_pairing_generation record =? 0 then _ else _).
  assert (Hgen : returns generation ∧ ∀ g, generation = Ok g → 1 ≤ g).
  { unfold generation. destruct (_ =? 0) eqn:H0; bool_facts.
    - split; [apply fmap_returns, ok_or_returns|].
      intros g (x & _ & ->)%fmap_Ok. relay_bounds. lia.
    - split; [apply ok_or_returns|]. intros g [-> _]%ok_or_Ok%u64_checked_add_Some.
      destruct Hsrc as [Hp|(Hp & _)].
      + pose proof (rw_generation _ _ _ (iw_records _ Hwf _ _ Hp)). lia.
      + unfold record in H0. rewrite Hp in H0. done. }
  destruct Hgen as [Hret Hgen]. destruct generation as [g|e|]; [| |done].
  2:{ intros [= <- <-]. by split_and!. }
  pose proof (authority_timestamp_Ok c) as Htime. specialize (Hgen g eq_refl).
  unfold authority_timestamp in *. destruct (ck_epoch c) as [secs|].
  2:{ intros [= <- <-]. by split_and!. }
  specialize (Htime _ eq_refl).
  destruct (confirm _ _ _ _ _ _ s) as [s1 r1] eqn:Hc.
  apply confirm_spec in Hc as (Hwf1 & Hsame & Hcl & Hr1); try done.
  intros [= <- <-]. split; [done|]. split; [done|]. split; [done|].
  destruct r1 as [[]|e|]; simpl; [right|done|done].
  destruct Hr1 as ((n & Hps) & Hd & _). split; [done|]. split; [|split; [done|]].
  - unfold is_paired. rewrite Hps, lookup_insert_eq. done.
  - intros q Hq. by rewrite Hps, lookup_insert_ne.
Qed.

Lemma same_connections_trans (s1 s2 s3 : state) :
  same_connections s1 s2 → same_connections s2 s3 → same_connections s1 s3.
Proof.
  intros (? & ? & ? & ? & ? & ? & ? & Hs1) (? & ? & ? & ? & ? & ? & ? & Hs2).
  unfold same_connections. split_and!; try congruence. auto.
Qed.

Lemma set_unpaired_wf (s : state) peer r : record_wf s peer r → record_wf s peer (set_unpaired r).
Proof.
  intros []. split; try done. unfold persists. simpl. intros Hr. apply rw_durable0.
  unfold persists. by rewrite Hr, orb_true_r.
Qed.

(** The invariant does not look at the connections. *)
Lemma relay_wf_connections (s s' : state) :
  relay_wf s → ir_pairings s' = ir_pairings s →
  ir_max_pairing_records s' = ir_max_pairing_records s →
  ir_local_identity_generation s' = ir_local_identity_generation s →
  ir_next_attempt_id s' = ir_next_attempt_id s → ir_revision s' = ir_revision s →
  ir_authority_generation s' = ir_authority_generation s → relay_wf s'.
Proof.
  intros Hwf Hp Hm Hl Hn Hr Ha. pose proof Hwf as [].
  eapply (relay_wf_step s); try done; rewrite ?Hp, ?Hn, ?Hr, ?Ha; try done; try lia.
  intros peer r ?. by left.
Qed.

Lemma close_active_peer_spec peer (s : state) :
  (relay_wf s → relay_wf (close_active_peer peer s))
  ∧ same_connections s (close_active_peer peer s)
  ∧ ir_pairings (close_active_peer peer s) = ir_pairings s
  ∧ (durably_stored s → durably_stored (close_active_peer peer s))
  ∧ (∀ g, ir_active s !! peer = Some g → g ∈ ir_closed (close_active_peer peer s)).
Proof.
  unfold close_active_peer. destruct (ir_active s !! peer) as [g|]; [|by split_and!].
  split; [intros; by eapply relay_wf_connections|]. split; [done|]. split; [done|].
  split; [done|]. intros g' [= <-]. by left.
Qed.

Lemma revoke_relation_confirm f c peer record (s : state) :
  revoke_relation f c peer record s =
  match ok_or (u64_checked_add (pr_pairing_generation record) 1) Unknown, authority_timestamp c with
  | Ok generation, Ok updated => confirm f peer record generation updated false s
  | Err e, _ => (s, Err e)
  | _, Err e => (s, Err e)
  | _, _ => (s, Panic)
  end.
Proof. done. Qed.

Lemma revoke_relation_spec f c peer record (s : state) s' r :
  relay_wf s → ir_pairings s !! peer = Some record →
  revoke_relation f c peer record s = (s', r) →
  relay_wf s' ∧ same_connections s s' ∧ ir_closed s' = ir_closed s
  ∧ match r with
    | Ok _ =>
        (∃ record', ir_pairings s' = <[peer := record']> (ir_pairings s)
           ∧ pr_paired record' = false ∧ pr_revoked record' = true)
        ∧ durably_stored s'
    | Err _ => ir_pairings s' = ir_pairings s
    | Panic => False
    end.
Proof.
  intros Hwf Hp. rewrite revoke_relation_confirm.
  pose proof (iw_records _ Hwf _ _ Hp) as Hrw. pose proof (rw_generation _ _ _ Hrw) as Hg.
  destruct (u64_checked_add _ 1) as [g|] eqn:Hadd; [|intros [= <- <-]; by split_and!].
  apply u64_checked_add_Some in Hadd as [-> _]. simpl.
  pose proof (authority_timestamp_Ok c) as Htime. unfold authority_timestamp in *.
  destruct (ck_epoch c) as [secs|]; [|intros [= <- <-]; by split_and!].
  specialize (Htime _ eq_refl). intros Hc.
  apply confirm_spec in Hc as (Hwf1 & Hsame & Hcl & Hr1);
    [|done|by apply Hrw|by left|lia|done].
  split; [done|]. split; [done|]. split; [done|]. destruct r as [[]|e|]; [|done|done].
  destruct Hr1 as ((n & Hps) & Hd & _). split; [|done]. by eexists.
Qed.

(** [revoke_peer], on every branch: whatever happens, the peer is not paired any more and
    its connection is closed. *)
Lemma revoke_peer_spec f c peer (s : state) s' r :
  relay_wf s → revoke_peer f c peer s = (s', r) →
  relay_wf s' ∧ same_connections s s'
  ∧ is_paired s' peer = false
  ∧ (∀ q, q ≠ peer → ir_pairings s' !! q = ir_pairings s !! q)
  ∧ (∀ g, ir_active s !! peer = Some g → g ∈ ir_closed s')
  ∧ match r with
    | Ok was_paired =>
        was_paired = is_paired s peer
        ∧ (∀ record, ir_pairings s !! peer = Some record →
             (∃ record', ir_pairings s' !! peer = Some record' ∧ pr_revoked record' = true)
             ∧ (pr_revoked record = false → durably_stored s'))
    | Err _ => ∃ record, ir_pairings s !! peer = Some record ∧ pr_revoked record = false
    | Panic => False
    end.
Proof.
  intros Hwf. unfold IrohRelay.revoke_peer.
  destruct (ir_pairings s !! peer) as [record|] eqn:Hp.
  2:{ intros [= <- <-]. destruct (close_active_peer_spec peer s) as (Hw & Hs & Hps & _ & Hcl).
      split; [auto|]. split; [done|]. unfold is_paired. rewrite Hps, Hp. by split_and!. }
  pose proof (iw_records _ Hwf _ _ Hp) as Hrw.
  destruct (pr_revoked record) eqn:Hrev; simpl.
  { intros [= <- <-]. destruct (close_active_peer_spec peer s) as (Hw & Hs & Hps & _ & Hcl).
    pose proof (rw_exclusive _ _ _ Hrw) as Hx. rewrite Hrev, andb_true_r in Hx.
    split; [auto|]. split; [done|]. unfold is_paired. rewrite Hps, Hp.
    split_and!; try done. intros r [= <-]. split; [|congruence]. by exists record. }
  destruct (revoke_relation f c peer record s) as [s1 r1] eqn:Hr.
  apply revoke_relation_spec in Hr as (Hwf1 & Hsame & Hcl1 & Hr1); [|done|done].
  assert (Hact : ∀ s2 : state, ir_active s2 = ir_active s1 → ∀ g, ir_active s !! peer = Some g →
      g ∈ ir_closed (close_active_peer peer s2)).
  { intros s2 Ha g Hg. apply close_active_peer_spec. destruct Hsame as (_ & Ha' & _). congruence. }
  destruct r1 as [[]|e|]; [| |done]; intros [= <- <-].
  - destruct (close_active_peer_spec peer s1) as (Hw & Hs & Hps & Hd & _).
    destruct Hr1 as ((record' & Hps1 & Hnp & Hrv) & Hdur).
    split; [auto|]. split; [|split; [|split; [|split; [|split]]]].
    + by eapply same_connections_trans.
    + unfold is_paired. by rewrite Hps, Hps1, lookup_insert_eq.
    + intros q Hq. by rewrite Hps, Hps1, lookup_insert_ne.
    + by apply Hact.
    + unfold is_paired. by rewrite Hp.
    + intros r [= <-]. split; [|auto]. exists record'. by rewrite Hps, Hps1, lookup_insert_eq.
  - rewrite Hr1, Hp. set (s2 := set_pairings _ s1).
    assert (Hwf2 : relay_wf s2).
    { unfold s2. rewrite <-Hr1. eapply update_record_wf; [done|by rewrite Hr1|].
      apply set_unpaired_wf, (iw_records _ Hwf1). by rewrite Hr1. }
    destruct (close_active_peer_spec peer s2) as (Hw & Hs & Hps & _ & _).
    split; [auto|]. split; [|split; [|split; [|split]]].
    + eapply same_connections_trans; [exact Hsame|exact Hs].
    + unfold is_paired. rewrite Hps. simpl. by rewrite lookup_insert_eq.
    + intros q Hq. rewrite Hps. simpl. by rewrite lookup_insert_ne.
    + by apply Hact.
    + by exists record.
Qed.

(** ** Connections *)

(** The leases the handlers hold: one per active peer, one permit each, and the active
    map is exactly the leases. *)
Record connections_wf (max_connections : Z) (s : state) (leases : list lease) : Prop := {
  cw_permits : ir_permits s + len leases = max_connections;
  cw_nonneg : 0 ≤ ir_permits s;
  cw_peers : NoDup leases.*1;
  cw_active : ∀ peer g, ir_active s !! peer = Some g ↔ (peer, g) ∈ leases;
}.

Lemma try_admit_spec peer (s : state) s' o m leases :
  connections_wf m s leases → try_admit peer s = (s', o) →
  ir_pairings s' = ir_pairings s ∧ (relay_wf s → relay_wf s')
  ∧ match o with
    | Some l =>
        l.1 = peer ∧ ir_active s !! peer = None ∧ ir_shutdown s = false
        ∧ l.2 = u64_shl32 (ir_runtime_epoch s) + ir_next_generation s
        ∧ ir_next_generation s' = (ir_next_generation s + 1) mod (u64_max + 1)
        ∧ connections_wf m s' (l :: leases)
    | None => connections_wf m s' leases
    end.
Proof.
  intros [Hp Hn Hnd Ha]. unfold try_admit.
  destruct (ir_shutdown s); [intros [= <- <-]; by split_and!|].
  destruct (_ <=? 0) eqn:H0; [intros [= <- <-]; by split_and!|]. bool_facts.
  destruct (u64_checked_add _ _) as [g|] eqn:Hg.
  2:{ intros [= <- <-]. split_and!; try done. intros. by eapply relay_wf_connections. }
  apply u64_checked_add_Some in Hg as [-> _]. simpl.
  destruct (ir_active s !! peer) as [g0|] eqn:Hpeer; intros [= <- <-].
  { split_and!; try done. intros. by eapply relay_wf_connections. }
  split; [done|]. split; [intros; by eapply relay_wf_connections|].
  split_and!; try done. split; simpl.
  - unfold len in *. simpl. lia.
  - lia.
  - constructor; [|done]. intros ([q g] & Heq & Hin)%list_elem_of_fmap. simpl in Heq. subst q.
    apply Ha in Hin. congruence.
  - intros q g. rewrite elem_of_cons, <-Ha. destruct (decide (q = peer)) as [->|Hne].
    + rewrite lookup_insert_eq, Hpeer. naive_solver.
    + rewrite lookup_insert_ne by done. naive_solver.
Qed.

Definition remove_lease (l : lease) (leases : list lease) : list lease :=
  filter (λ l', l' ≠ l) leases.

Lemma remove_lease_fresh l leases : l ∉ leases → remove_lease l leases = leases.
Proof.
  unfold remove_lease. induction leases as [|x ls IH]; intros Hx; [done|].
  apply not_elem_of_cons in Hx as [Hx Hxs]. rewrite filter_cons_True by done. by rewrite IH.
Qed.

Lemma remove_lease_length l leases :
  NoDup leases.*1 → l ∈ leases → len (remove_lease l leases) = len leases - 1.
Proof.
  unfold remove_lease. induction leases as [|l' leases IH]; intros Hnd Hin; [by apply elem_of_nil in Hin|].
  rewrite fmap_cons in Hnd. apply NoDup_cons in Hnd as [Hni Hnd]. apply elem_of_cons in Hin as [<-|Hin].
  - rewrite filter_cons_False by tauto. unfold len. simpl.
    fold (remove_lease l leases). rewrite remove_lease_fresh; [lia|].
    intros Hl'. apply Hni. by apply (list_elem_of_fmap_2 fst).
  - rewrite filter_cons_True; [|intros ->; apply Hni; by apply (list_elem_of_fmap_2 fst)].
    specialize (IH Hnd Hin). unfold len in *. simpl. lia.
Qed.

Lemma drop_lease_spec l (s : state) m leases :
  connections_wf m s leases → l ∈ leases →
  connections_wf m (drop_lease l s) (remove_lease l leases)
  ∧ (relay_wf s → relay_wf (drop_lease l s))
  ∧ (∀ q r, ir_pairings (drop_lease l s) !! q = Some r ↔
       ir_pairings s !! q = Some r ∧ (q ≠ l.1 ∨ persists r = true)).
Proof.
  intros [Hp Hn Hnd Ha] Hin. destruct l as [peer g]. unfold drop_lease.
  rewrite bool_decide_eq_true_2 by (by apply Ha). set (s1 := set_active_map _ _ s).
  assert (Hconn : ∀ s2, ir_permits s2 = ir_permits s1 → ir_active s2 = ir_active s1 →
    connections_wf m s2 (remove_lease (peer, g) leases)).
  { intros s2 Hp2 Ha2. split; rewrite ?Hp2, ?Ha2; simpl.
    - rewrite remove_lease_length by done. lia.
    - lia.
    - eapply sublist_NoDup; [exact Hnd|]. apply (fmap_sublist fst), sublist_filter.
    - intros q g'. unfold remove_lease. rewrite list_elem_of_filter, lookup_delete_Some, <-Ha.
      assert (Hg : ir_active s !! peer = Some g) by (by apply Ha). split.
      + intros [Hne Hq]. split; [congruence|done].
      + intros [Hne Hq]. split; [|done]. intros <-. congruence. }
  assert (Hwf1 : relay_wf s → relay_wf s1) by (intros; by eapply relay_wf_connections).
  change (ir_pairings s1) with (ir_pairings s).
  destruct (ir_pairings s !! peer) as [r|] eqn:Hr.
  2:{ split; [by apply Hconn|]. split; [done|]. simpl. intros q x. split; [|tauto].
      intros Hq. split; [done|]. left. congruence. }
  rewrite <-negb_orb. change (pr_paired r || pr_revoked r) with (persists r).
  destruct (persists r) eqn:Hpr; simpl.
  - split; [by apply Hconn|]. split; [done|]. intros q x. split; [|tauto].
    intros Hq. split; [done|]. destruct (decide (q = peer)) as [->|]; [right; congruence|by left].
  - split; [by apply Hconn|]. split.
    + intros Hwf. pose proof Hwf as []. eapply (relay_wf_step s); simpl; try done; try lia.
      * etrans; [apply map_len_delete_le|done].
      * intros q x Hq%lookup_delete_Some. left. apply Hq.
    + intros q x. rewrite lookup_delete_Some. split.
      * intros [Hne Hq]. split; [done|]. left. congruence.
      * intros [Hq [Hne|Hx]]; [by split; [congruence|]|]. split; [|done]. congruence.
Qed.

(** ** Operation sequences *)
Inductive relay_op : Type :=
| OpAdmit (peer : list byte)
| OpDisconnect (l : lease)
| OpReserve (c : Clock) (peer : list byte)
| OpFailure (c : Clock) (peer : list byte)
| OpMark (f : Fl) (c : Clock) (peer : list byte)
| OpRevoke (f : Fl) (c : Clock) (peer : list byte)
| OpShutdown.

(** Every peer comes from an authenticated connection: its bytes are an endpoint id. *)
Definition op_peer_ok (op : relay_op) : Prop :=
  match op with
  | OpReserve _ peer | OpFailure _ peer | OpMark _ _ peer => endpoint_id_ok peer = true
  | _ => True
  end.

(** One step of the process: the admission state and the leases its handlers hold. *)
Definition relay_step (w : state * list lease) (op : relay_op) : state * list lease :=
  let '(s, leases) := w in
  match op with
  | OpAdmit peer =>
      match try_admit peer s with
      | (s', Some l) => (s', l :: leases)
      | (s', None) => (s', leases)
      end
  | OpDisconnect l =>
      if decide (l ∈ leases) then (drop_lease l s, remove_lease l leases) else (s, leases)
  | OpReserve c peer => ((reserve_pairing_challenge c peer s).1, leases)
  | OpFailure c peer => ((record_pairing_failure c peer s).1, leases)
  | OpMark f c peer => ((mark_paired f c peer s).1, leases)
  | OpRevoke f c peer => ((revoke_peer f c peer s).1, leases)
  | OpShutdown => (begin_shutdown s, leases)
  end.

Definition relay_run (w : state * list lease) (ops : list relay_op) : state * list lease :=
  foldl relay_step w ops.

Lemma connections_wf_same m (s s' : state) leases :
  ir_permits s' = ir_permits s → ir_active s' = ir_active s →
  connections_wf m s leases → connections_wf m s' leases.
Proof. intros Hp Ha []. split; rewrite ?Hp, ?Ha; done. Qed.

Lemma relay_step_wf m s leases op :
  relay_wf s → connections_wf m s leases → op_peer_ok op →
  relay_wf (relay_step (s, leases) op).1
  ∧ connections_wf m (relay_step (s, leases) op).1 (relay_step (s, leases) op).2.
Proof.
  intros Hwf Hc Hok. destruct op as [peer|l|c peer|c peer|f c peer|f c peer|]; simpl in *.
  - destruct (try_admit peer s) as [s' o] eqn:Ha.
    destruct (try_admit_spec _ _ _ _ _ _ Hc Ha) as (_ & Hw & Ho).
    destruct o as [l|]; simpl; [|by auto]. destruct Ho as (_ & _ & _ & _ & _ & Ho). auto.
  - destruct (decide (l ∈ leases)) as [Hl|]; [|done].
    destruct (drop_lease_spec _ _ _ _ Hc Hl) as (Hc' & Hw & _). auto.
  - destruct (reserve_pairing_challenge c peer s) as [s' b] eqn:Hr.
    apply reserve_spec in Hr as (Hw & _ & _ & _ & Hs); [|done..]. split; [done|].
    apply (connections_wf_same m s); [by rewrite Hs..|exact Hc].
  - destruct (record_pairing_failure c peer s) as [s' b] eqn:Hr.
    apply failure_spec in Hr as (Hw & _ & _ & Hs & _); [|done..]. split; [done|].
    apply (connections_wf_same m s); [by rewrite Hs..|exact Hc].
  - destruct (mark_paired f c peer s) as [s' b] eqn:Hr.
    apply mark_paired_spec in Hr as (Hw & (Hp & Ha & _) & _); [|done..]. split; [done|].
    by apply (connections_wf_same m s).
  - destruct (revoke_peer f c peer s) as [s' b] eqn:Hr.
    apply revoke_peer_spec in Hr as (Hw & (Hp & Ha & _) & _); [|done..]. split; [done|].
    by apply (connections_wf_same m s).
  - split; [by eapply relay_wf_connections|]. by apply (connections_wf_same m s).
Qed.

Lemma relay_run_wf m s leases ops :
  relay_wf s → connections_wf m s leases → Forall op_peer_ok ops →
  relay_wf (relay_run (s, leases) ops).1
  ∧ connections_wf m (relay_run (s, leases) ops).1 (relay_run (s, leases) ops).2.
Proof.
  revert s leases. induction ops as [|op ops IH]; intros s leases Hwf Hc Hops; [done|].
  apply Forall_cons in Hops as [Hop Hops].
  destruct (relay_step_wf m s leases op Hwf Hc Hop) as [Hwf' Hc'].
  change (relay_run (s, leases) (op :: ops)) with (relay_run (relay_step (s, leases) op) ops).
  destruct (relay_step (s, leases) op) as [s' leases'].
  by apply IH.
Qed.

(** ** Starting *)

(** JSON and the record store only produce unsigned 64-bit numbers. *)
Definition relation_widths (r : PersistedPairingRelation) : Prop :=
  is_u64 (pp_local_identity_generation r) ∧ is_u64 (pp_peer_identity_generation r)
  ∧ is_u64 (pp_pairing_generation r) ∧ is_u64 (pp_updated_at_epoch_seconds r)
  ∧ is_u64 (pp_last_attempt_id r).

Definition record_widths (st : St) : Prop :=
  ∀ n r, rs_view n st = Ok (Some r) → is_u64 (sa_revision r) ∧ is_u64 (sa_generation r).

Lemma restore_relations_inv aggregate expected now rels l l' :
  restore_relations endpoint_id_ok aggregate expected now rels l = Ok l' →
  (∀ k r, rl_pairings l' !! k = Some r →
     rl_pairings l !! k = Some r
     ∨ ∃ rel, rel ∈ rels ∧ pp_peer_id rel = k ∧ restorable endpoint_id_ok aggregate rel
         ∧ r = restore_record now rel)
  ∧ map_len (rl_pairings l') ≤ map_len (rl_pairings l) + len rels
  ∧ rl_max_attempt_id l ≤ rl_max_attempt_id l'
  ∧ (∀ rel, rel ∈ rels → pp_last_attempt_id rel ≤ rl_max_attempt_id l')
  ∧ (rl_stale l' = false → rl_stale l = false
       ∧ ∀ rel, rel ∈ rels → pp_local_identity_generation rel = expected).
Proof.
  revert l. induction rels as [|rel rels IH]; intros l; simpl.
  { intros [= <-]. split; [auto|]. split; [unfold len; simpl; lia|]. split; [lia|].
    split; [intros ? []%elem_of_nil|]. intros; split; [done|intros ? []%elem_of_nil]. }
  destruct (_ || _) eqn:Hc; [done|]. destruct (negb _) eqn:Hid; [done|].
  destruct (rl_pairings l !! pp_peer_id rel) eqn:Hl; [done|]. bool_facts.
  intros (Hk & Hlen & Hmax & Hatt & Hst)%IH. simpl in *.
  split; [|split; [|split; [|split]]].
  - intros k r Hr. destruct (Hk k r Hr) as [[[<- <-]|[_ ?]]%lookup_insert_Some|(rel' & Hin & ?)].
    + right. exists rel. split; [left|]. split; [done|]. split; [|done].
      unfold restorable. split_and!; done || lia.
    + by left.
    + right. exists rel'. split; [by right|done].
  - rewrite map_len_insert_new in Hlen by done. unfold len in *. simpl. lia.
  - lia.
  - intros rel' [->|Hin]%elem_of_cons; [lia|by apply Hatt].
  - intros Hs. destruct (Hst Hs) as [Hs1 Hs2]. apply orb_false_iff in Hs1 as [Hs1 Hs3].
    bool_facts. split; [done|]. intros rel' [->|Hin]%elem_of_cons; [done|by apply Hs2].
Qed.

Local Abbreviation restore := (restore_pairing_authority pairings_to_vec pairings_from_slice endpoint_id_ok).

(** What a successful restore hands to the admission state. *)
Definition restored_wf (expected : Z) (r : Restored) : Prop :=
  map_len (re_pairings r) ≤ MAX_PAIRING_RECORDS
  ∧ 1 ≤ re_next_attempt_id r ≤ u64_max ∧ 0 ≤ re_revision r ∧ 0 ≤ re_generation r
  ∧ ∀ k x, re_pairings r !! k = Some x →
      endpoint_id_ok k = true ∧ pr_paired x && pr_revoked x = false
      ∧ pr_failed_attempts x = 0 ∧ pr_challenge_count x = 0
      ∧ pr_local_identity_generation x = expected ∧ persistable x
      ∧ 1 ≤ pr_pairing_generation x ≤ re_generation r
      ∧ 1 ≤ pr_last_attempt_id x < re_next_attempt_id r.

Lemma restored_empty_wf expected revision generation :
  0 ≤ revision → 0 ≤ generation →
  restored_wf expected {| re_pairings := ∅; re_revision := revision;
    re_next_attempt_id := INITIAL_PAIRING_ATTEMPT_ID; re_generation := generation |}.
Proof. intros. split_and!; simpl; try done. Qed.

Lemma restore_wf lf cf now expected st st' r :
  (∀ bs rs, pairings_from_slice bs = Some rs → Forall relation_widths rs) →
  record_widths st → 0 < expected → restore lf cf now expected st = (st', Ok r) → restored_wf expected r.
Proof.
  intros Hjson Hwidths He. unfold restore_pairing_authority.
  rewrite (proj2 (Z.eqb_neq expected 0)) by lia. unfold st_bind at 1.
  destruct (rs_load lf pairing_authority_record st) as [[record|]|e|] eqn:Hload; try done.
  2:{ intros [= _ <-]. by apply restored_empty_wf. }
  destruct (Hwidths _ _ (law_load_view _ _ _ _ Hload)) as [[Hr0 _] [Hg0 Hg1]].
  destruct (_ || _); [done|]. unfold st_bind at 1, st_lift at 1.
  destruct (pairings_from_slice _) as [rels|] eqn:Hrels; [|done]. simpl.
  specialize (Hjson _ _ Hrels). destruct (_ <? _) eqn:Hcount; [done|]. bool_facts.
  destruct (bool_decide _); [intros [= _ <-]; by apply restored_empty_wf|].
  unfold st_bind at 1, st_lift at 1.
  destruct (restore_relations _ _ _ _ _ _) as [l|e|] eqn:Hl; [|done..].
  destruct (negb _); [done|]. destruct (rl_stale l) eqn:Hs.
  - unfold st_bind, st_lift, st_ret. destruct (u64_checked_add _ _) as [g|] eqn:Hg; [|done].
    apply u64_checked_add_Some in Hg as [-> _]. simpl.
    unfold encode_empty_pairing_authority. rewrite (proj2 (Z.eqb_neq _ 0)) by lia.
    destruct (pairings_to_vec []) as [bs|]; [|done]. simpl.
    destruct (rs_commit _ _ _ _ _ _ _) as [st2 r2] eqn:Hc. destruct r2 as [rev|e|]; [|done..].
    intros [= _ <-]. apply law_commit in Hc as [-> _]; [|done]. apply restored_empty_wf; lia.
  - unfold st_bind, st_lift, st_ret.
    destruct (u64_checked_add _ _) as [n|] eqn:Hn; [|done]. apply u64_checked_add_Some in Hn as [-> Hn].
    intros [= _ <-]. apply restore_relations_inv in Hl as (Hk & Hlen & Hmax & Hatt & Hst).
    simpl in *. destruct (Hst Hs) as [_ Hloc]. unfold restored_wf. simpl. split; [|split; [lia|split; [lia|split; [lia|]]]].
    + etrans; [exact Hlen|]. unfold map_len. rewrite map_size_empty.
      unfold MAX_PERSISTED_PAIRING_RELATIONS in *. lia.
    + intros k x Hx. destruct (Hk k x Hx) as [Hx'|(rel & Hin & <- & Hrest & ->)].
      { by rewrite lookup_empty in Hx'. }
      destruct Hrest as (? & ? & ? & ? & ? & ?). rewrite Forall_forall in Hjson.
      destruct (Hjson _ Hin) as (_ & _ & [? _] & _ & [? _]).
      specialize (Hloc _ Hin). specialize (Hatt _ Hin). simpl.
      split_and!; try done; try lia; [by destruct (pp_revoked rel)|].
      unfold persistable. simpl. split_and!; try done. lia.
Qed.

Lemma IrohRelayState_new_wf lf cf now m (store store' : option St) epoch local s :
  (∀ bs rs, pairings_from_slice bs = Some rs → Forall relation_widths rs) →
  (∀ st, store = Some st → record_widths st) → 0 ≤ m → 0 ≤ local →
  IrohRelayState_new pairings_to_vec pairings_from_slice endpoint_id_ok lf cf now m store epoch local
    = (store', Ok s) →
  relay_wf s ∧ connections_wf m s [].
Proof.
  intros Hjson Hw Hm Hlocal. unfold IrohRelayState_new.
  destruct (local =? 0) eqn:H0; [done|]. bool_facts.
  assert (Hgen : ∀ r st, restored_wf local r →
    Ok {| ir_permits := m; ir_max_pairing_records := Z.min m MAX_PAIRING_RECORDS;
         ir_pairings := re_pairings r; ir_active := ∅; ir_shutdown := false;
         ir_store := st; ir_local_identity_generation := local;
         ir_next_attempt_id := re_next_attempt_id r; ir_revision := re_revision r;
         ir_authority_generation := re_generation r; ir_runtime_epoch := epoch;
         ir_next_generation := 1; ir_closed := [] |} = (Ok s : endpoint_result _) →
    relay_wf s ∧ connections_wf m s []).
  { intros r st (Hsz & Hn & Hr & Hg & Hall) [= <-]. split.
    - split; simpl; try done; try lia. intros peer x Hx.
      destruct (Hall _ _ Hx) as (? & ? & Hf & Hc & ? & ? & ? & ?).
      split; simpl; rewrite ?Hf, ?Hc; try done; try (relay_bounds; lia).
    - split; simpl; [unfold len; simpl; lia|done|constructor|].
      intros peer g. rewrite lookup_empty. split; [done|intros []%elem_of_nil]. }
  destruct store as [st|].
  - destruct (restore lf cf now local st) as [st' [r|e|]] eqn:Hr; [|done..].
    intros [= _ Hs]. apply (Hgen r (Some st')); [|by rewrite Hs].
    eapply restore_wf; [done| |lia|exact Hr]. eauto.
  - intros [= _ Hs]. apply (Hgen {| re_pairings := ∅; re_revision := 0;
      re_next_attempt_id := INITIAL_PAIRING_ATTEMPT_ID; re_generation := 0 |} None);
      [by apply restored_empty_wf|]. simpl. by rewrite Hs.
Qed.

(** ** The runtime fence *)
Lemma install_runtime_fence_spec lf cf (st st' : St) epoch :
  record_widths st → install_runtime_fence lf cf st = (st', Ok epoch) →
  ∃ current previous, rs_view runtime_fence_record st = Ok current
    ∧ match current with
      | Some r => previous = sa_generation r
      | None => previous = 0
      end
    ∧ epoch = previous + 1 ∧ 1 ≤ epoch ≤ u64_max
    ∧ ∃ revision, rs_view runtime_fence_record st'
        = Ok (Some {| sa_revision := revision; sa_generation := epoch;
                      sa_state := str_lit "active"; sa_payload := be_bytes 8 epoch |}).
Proof.
  intros Hw. unfold install_runtime_fence.
  destruct (rs_load lf runtime_fence_record st) as [current|e|] eqn:Hl; [|done..].
  apply law_load_view in Hl. set (checked := match current with Some _ => _ | None => _ end).
  assert (Hchecked : ∀ revision previous, checked = Ok (revision, previous) →
    0 ≤ revision ∧ 0 ≤ previous
    ∧ match current with Some r => previous = sa_generation r | None => previous = 0 end).
  { unfold checked. intros revision previous. destruct current as [r|]; [|by intros [= <- <-]].
    destruct (Hw _ _ Hl) as [[Hr _] [Hg _]]. destruct (_ || _); [done|]. by intros [= <- <-]. }
  destruct checked as [[revision previous]|e|]; [|done..].
  destruct (Hchecked _ _ eq_refl) as (Hr & Hp & Hc).
  destruct (u64_checked_add previous 1) as [next|] eqn:Hadd; [|done].
  apply u64_checked_add_Some in Hadd as [-> Hmax].
  destruct (rs_commit _ _ _ _ _ _ st) as [st2 [rev|e|]] eqn:Hcom; [|done..].
  simpl. intros [= <- <-]. apply law_commit in Hcom as (_ & _ & _ & Hview); [|done].
  exists current, previous. split; [done|]. split; [done|]. split; [done|]. split; [lia|]. by eexists.
Qed.

(** The fence record survives commits of other records. *)
Lemma run_commits_fence ops (st : St) :
  rs_name_ok (rn_filename runtime_fence_record) →
  Forall (λ op : CommitOp Fl, rn_filename (co_name op) ≠ rn_filename runtime_fence_record) ops →
  rs_view runtime_fence_record (run_commits st ops) = rs_view runtime_fence_record st.
Proof.
  intros Hok Hops. revert st. induction Hops as [|op ops Hop Hops IH]; intros st; [done|].
  change (run_commits st (op :: ops)) with (run_commits (run_commit st op).1 ops).
  rewrite IH. destruct (run_commit st op) as [st' r] eqn:Hr. unfold run_commit in Hr.
  eapply law_commit_frame; [exact Hr|done|done].
Qed.

(** ** The Relay identity *)
Section IdentityFacts.
Context (public : list byte → list byte).
Context (identity_to_vec : list byte → list byte → option (list byte))
  (identity_from_slice : list byte → option (list byte * list byte)).
Context (identity_roundtrip : ∀ e k bs, identity_to_vec e k = Some bs → identity_from_slice bs = Some (e, k)).
Context (public_ok : ∀ k, endpoint_id_ok (public k) = true).

Local Abbreviation decode_identity := (decode_relay_identity endpoint_id_ok public identity_from_slice).
Local Abbreviation load_identity := (load_relay_identity endpoint_id_ok public identity_from_slice).
Local Abbreviation load_or_create :=
  (load_or_create_relay_identity endpoint_id_ok public identity_to_vec identity_from_slice).

Lemma decode_encoded_identity k payload revision :
  encode_relay_identity public identity_to_vec k = Ok payload →
  decode_identity {| sa_revision := revision; sa_generation := INITIAL_IDENTITY_GENERATION;
    sa_state := str_lit "active"; sa_payload := payload |} = Ok (k, INITIAL_IDENTITY_GENERATION).
Proof.
  unfold encode_relay_identity. intros (bs & Hbs%ok_or_Ok & H)%bind_Ok.
  destruct (_ <? _) eqn:Hl; [done|]. simplify_eq. unfold decode_relay_identity. simpl.
  rewrite Hl. rewrite (identity_roundtrip _ _ _ Hbs). simpl.
  rewrite public_ok. by rewrite bool_decide_eq_true_2.
Qed.

(** What the identity record decodes to, whichever fault-free load reads it. *)
Definition identity_at (st : St) (k : list byte) (g : Z) : Prop :=
  ∃ record, rs_view relay_identity_record st = Ok (Some record) ∧ decode_identity record = Ok (k, g).

Lemma load_identity_at lf st k g : load_identity lf st = Ok (Some (k, g)) → identity_at st k g.
Proof.
  unfold load_relay_identity. intros (o & Ho%map_err_Ok & H)%bind_Ok.
  apply law_load_view in Ho. destruct o as [record|]; [|done].
  apply fmap_Ok in H as ([k' g'] & Hd & [= -> ->]). by exists record.
Qed.

Lemma identity_at_load lf st k g o :
  identity_at st k g → rs_load lf relay_identity_record st = Ok o →
  load_identity lf st = Ok (Some (k, g)).
Proof.
  intros (record & Hv & Hd) Hl. unfold load_relay_identity. rewrite Hl.
  apply law_load_view in Hl. rewrite Hl in Hv. simplify_eq. simpl. by rewrite Hd.
Qed.

Lemma load_or_create_spec env supplied st st' k g :
  load_or_create env supplied st = (st', Ok (k, g)) →
  identity_at st' k g ∧ (∀ candidate, supplied = Some candidate → public k = public candidate).
Proof.
  unfold load_or_create_relay_identity.
  destruct (load_identity (ie_load env) st) as [[[recovered g0]|]|e|] eqn:Hl; [| |done..].
  - apply load_identity_at in Hl. destruct supplied as [candidate|]; [|by intros [= <- <- <-]].
    destruct (bool_decide _) eqn:Hb; [done|]. apply bool_decide_eq_false, dec_stable in Hb.
    intros [= <- <- <-]. split; [done|]. by intros ? [= <-].
  - destruct supplied as [candidate|]; [|done].
    destruct (encode_relay_identity _ _ candidate) as [payload|e|] eqn:Henc; [|done..].
    destruct (rs_commit _ _ _ _ _ _ _) as [st2 r] eqn:Hc. destruct r as [rev|e|]; [| |done].
    + intros [= <- <- <-]. apply law_commit in Hc as (_ & _ & _ & Hv); [|done].
      split; [|by intros ? [= <-]]. eexists. split; [exact Hv|]. by apply decode_encoded_identity.
    + destruct e; try done.
      destruct (load_identity (ie_reload env) st2) as [[[recovered g0]|]|e|] eqn:Hl2; try done.
      destruct (bool_decide _) eqn:Hb; [done|]. apply bool_decide_eq_false, dec_stable in Hb.
      intros [= <- <- <-]. apply load_identity_at in Hl2. split; [done|]. by intros ? [= <-].
Qed.
End IdentityFacts.

(** A restart after a durable update restores exactly the durable relations. *)
Lemma durably_stored_restart lf cf now (s : state) st o :
  (∀ rs bs, pairings_to_vec rs = Some bs → pairings_from_slice bs = Some rs) →
  relay_wf s → durably_stored s → ir_store s = Some st →
  (∃ k r, ir_pairings s !! k = Some r ∧ persists r = true) →
  rs_load lf pairing_authority_record st = Ok o →
  ∃ n, restore lf cf now (ir_local_identity_generation s) st
       = (st, Ok {| re_pairings := durable_pairings now (ir_pairings s);
                    re_revision := ir_revision s; re_next_attempt_id := n;
                    re_generation := ir_authority_generation s |}).
Proof.
  intros Hjson Hwf Hd Hst Hex Hl. destruct (Hd st Hst) as (payload & Henc & Hview).
  destruct (restore_encoded pairings_to_vec pairings_from_slice endpoint_id_ok Hjson lf cf now
    (ir_local_identity_generation s) (ir_pairings s) payload (ir_authority_generation s)
    (ir_revision s) st o Henc Hex) as (n & Hr & _); [|done|done|by exists n].
  intros k r Hk _. destruct (iw_records _ Hwf k r Hk). pose proof (iw_attempt _ Hwf).
  split_and!; try done; lia.
Qed.

End StateFacts.

(** * Properties *)

(** Demonstration data for the witnesses: a relay without a store, and one with a
    register store, for one peer. *)
Definition demo_peer : list byte := zeros 32.
Definition demo_clock : Clock := {| ck_now := 0; ck_epoch := Some 7 |}.
Definition demo_record (generation : Z) (paired : bool) (attempt : Z) : PairingRecord :=
  confirmed_record (blank_record 0 1) generation 1 7 attempt paired.
Definition demo_relations : list PersistedPairingRelation :=
  [relation_of (demo_peer, demo_record 1 true 1)].
Definition demo_tombstone : list PersistedPairingRelation :=
  [relation_of (demo_peer, demo_record 2 false 2)].
Definition demo_to_vec (rs : list PersistedPairingRelation) : option (list byte) :=
  if decide (rs = demo_relations) then Some [x31] else
  if decide (rs = demo_tombstone) then Some [x32] else None.
Definition demo_from_slice (bs : list byte) : option (list PersistedPairingRelation) :=
  if decide (bs = [x31]) then Some demo_relations else
  if decide (bs = [x32]) then Some demo_tombstone else None.

Lemma demo_roundtrip rs bs : demo_to_vec rs = Some bs → demo_from_slice bs = Some rs.
Proof.
  unfold demo_to_vec, demo_from_slice. intros H.
  destruct (decide (rs = demo_relations)); simplify_eq; [done|].
  by destruct (decide (rs = demo_tombstone)); simplify_eq.
Qed.

Lemma demo_widths bs rs : demo_from_slice bs = Some rs → Forall relation_widths rs.
Proof.
  unfold demo_from_slice. intros H. destruct (decide (bs = [x31])); simplify_eq.
  - repeat constructor; vm_compute; discriminate.
  - destruct (decide (bs = [x32])); simplify_eq. repeat constructor; vm_compute; discriminate.
Qed.

Definition demo_start (store : option MemoryStore) :=
  IrohRelayState_new (Fl := MemoryFaults) demo_to_vec demo_from_slice (λ _, true)
    memory_ok memory_ok 0 8 store 1 1.

Definition demo_state : @IrohRelayState MemoryStore :=
  {| ir_permits := 8; ir_max_pairing_records := 8; ir_pairings := ∅; ir_active := ∅;
     ir_shutdown := false; ir_store := Some ∅; ir_local_identity_generation := 1;
     ir_next_attempt_id := 1; ir_revision := 0; ir_authority_generation := 0;
     ir_runtime_epoch := 1; ir_next_generation := 1; ir_closed := [] |}.

Lemma demo_start_eq : demo_start (Some ∅) = (Some ∅, Ok demo_state).
Proof. vm_compute. reflexivity. Qed.

Lemma demo_state_wf : relay_wf (λ _, true) demo_state ∧ connections_wf 8 demo_state [].
Proof.
  apply (IrohRelayState_new_wf (Fl := MemoryFaults) demo_to_vec demo_from_slice (λ _, true)
    memory_ok memory_ok 0 8 (Some ∅) (Some ∅) 1 1 demo_state);
    [apply demo_widths| |lia|lia|exact demo_start_eq].
  intros st [= <-] n r. simpl. rewrite lookup_empty. discriminate.
Qed.

(** C6. The admission invariant.  Whatever sequence of admissions, disconnections,
    challenges, failures, pairings, revocations and shutdown runs after a start: no more
    than 64 pairing records; in each record at most 5 failed attempts and 3 challenges,
    never both paired and revoked, a durable record without zero fields and not above the
    aggregate generation; every permit is free or held by exactly one live lease; and the
    active connections are exactly the live leases, at most one per peer. *)
Theorem relay_admission_invariant {St Fl : Type} `{!RevisionStore St Fl, !LawfulRevisionStore St Fl}
    to_vec from_slice endpoint_id_ok (lf cf : Fl) now m (store store' : option St) epoch local s ops :
  (∀ bs rs, from_slice bs = Some rs → Forall relation_widths rs) →
  (∀ st, store = Some st → record_widths st) → 0 ≤ m → 0 ≤ local →
  IrohRelayState_new to_vec from_slice endpoint_id_ok lf cf now m store epoch local = (store', Ok s) →
  Forall (op_peer_ok endpoint_id_ok) ops →
  let '(s', leases) := relay_run to_vec (s, []) ops in
  relay_wf endpoint_id_ok s' ∧ connections_wf m s' leases.
Proof.
  intros Hjson Hw Hm Hl Hnew Hops.
  destruct (IrohRelayState_new_wf _ _ _ _ _ _ _ _ _ _ _ _ Hjson Hw Hm Hl Hnew) as [Hwf Hc].
  pose proof (relay_run_wf to_vec from_slice endpoint_id_ok m s [] ops Hwf Hc Hops) as [H1 H2].
  by destruct (relay_run to_vec (s, []) ops) as [s' leases].
Qed.

Definition demo_ops : list (@relay_op MemoryFaults) :=
  [OpAdmit demo_peer; OpReserve demo_clock demo_peer; OpFailure demo_clock demo_peer;
   OpMark memory_ok demo_clock demo_peer].

Lemma relay_admission_invariant_witness :
  let '(s', leases) := relay_run demo_to_vec (demo_state, []) demo_ops in
  relay_wf (λ _, true) s' ∧ connections_wf 8 s' leases.
Proof.
  apply (relay_admission_invariant demo_to_vec demo_from_slice (λ _, true) memory_ok memory_ok 0 8
    (Some ∅) (Some ∅) 1 1 demo_state demo_ops).
  - apply demo_widths.
  - intros st [= <-] n r. simpl. rewrite lookup_empty. discriminate.
  - lia.
  - lia.
  - exact demo_start_eq.
  - repeat constructor.
Defined.

(** Pairing survives a restart.  When [mark_paired] newly pairs a peer, every later
    start that can read the record, under the same Relay identity, restores exactly the
    paired and revoked relations of the registry, with fresh challenge counters, the same
    revision and the same aggregate generation, and writes nothing; in particular the new
    peer is paired there and the others are paired there exactly when they are now. *)
Lemma pairing_survives_restart {St Fl : Type} `{!RevisionStore St Fl, !LawfulRevisionStore St Fl}
    to_vec from_slice endpoint_id_ok (f lf cf : Fl) c now peer (s s' : @IrohRelayState St) st o :
  (∀ rs bs, to_vec rs = Some bs → from_slice bs = Some rs) →
  relay_wf endpoint_id_ok s → endpoint_id_ok peer = true →
  is_paired s peer = false → mark_paired to_vec f c peer s = (s', Ok true) →
  ir_store s' = Some st → rs_load lf pairing_authority_record st = Ok o →
  (∃ n, restore_pairing_authority to_vec from_slice endpoint_id_ok lf cf now
          (ir_local_identity_generation s) st
        = (st, Ok {| re_pairings := durable_pairings now (ir_pairings s');
                     re_revision := ir_revision s'; re_next_attempt_id := n;
                     re_generation := ir_authority_generation s' |}))
  ∧ (∃ r, durable_pairings now (ir_pairings s') !! peer = Some r ∧ pr_paired r = true)
  ∧ (∀ q, q ≠ peer → ir_pairings s' !! q = ir_pairings s !! q).
Proof.
  intros Hjson Hwf Hok Hnp Hm Hst Hl.
  destruct (mark_paired_spec to_vec endpoint_id_ok f c peer s s' (Ok true) Hwf Hok Hm)
    as (Hwf' & Hsame & _ & [[Hp _]|(_ & Hp & Hd & Hq)]); [congruence|].
  unfold is_paired in Hp. destruct (ir_pairings s' !! peer) as [r|] eqn:Hr; [|done].
  assert (Hpr : persists r = true) by (unfold persists; by rewrite Hp).
  split; [|split; [|done]].
  - destruct Hsame as (_ & _ & _ & _ & _ & _ & <- & _).
    eapply durably_stored_restart; eauto.
  - apply (proj2 (durable_paired now (ir_pairings s') peer)). exists r. split; [done|]. split; [done|].
    pose proof (rw_exclusive _ _ _ _ (iw_records _ _ Hwf' _ _ Hr)) as Hx. by rewrite Hp in Hx.
Qed.

Definition demo_marked := (mark_paired demo_to_vec memory_ok demo_clock demo_peer demo_state).1.

Lemma pairing_survives_restart_witness :
  ∃ n, restore_pairing_authority (Fl := MemoryFaults) demo_to_vec demo_from_slice (λ _, true)
         memory_ok memory_ok 9 1 (default ∅ (ir_store demo_marked))
       = (default ∅ (ir_store demo_marked),
          Ok {| re_pairings := durable_pairings 9 (ir_pairings demo_marked);
                re_revision := 1; re_next_attempt_id := n; re_generation := 1 |}).
Proof.
  eapply (pairing_survives_restart demo_to_vec demo_from_slice (λ _, true) memory_ok memory_ok
    memory_ok demo_clock 9 demo_peer demo_state demo_marked
    (default ∅ (ir_store demo_marked))).
  - apply demo_roundtrip.
  - apply demo_state_wf.
  - reflexivity.
  - reflexivity.
  - apply run_outcome. vm_compute. reflexivity.
  - reflexivity.
  - reflexivity.
Defined.

(** C7. Revocation fails closed.  Whatever the store answers, after [revoke_peer] the
    peer is not paired and its active connection has been closed, and no other peer is
    affected.  When it answers [Ok], the flag says whether the peer was paired, a known
    peer is left as a revoked tombstone, and a restart under the same identity restores
    the peer unpaired. *)
Theorem revocation_fails_closed {St Fl : Type} `{!RevisionStore St Fl, !LawfulRevisionStore St Fl}
    to_vec from_slice endpoint_id_ok (f : Fl) c peer (s s' : @IrohRelayState St) r :
  (∀ rs bs, to_vec rs = Some bs → from_slice bs = Some rs) →
  relay_wf endpoint_id_ok s → revoke_peer to_vec f c peer s = (s', r) →
  is_paired s' peer = false
  ∧ (∀ g, ir_active s !! peer = Some g → g ∈ ir_closed s')
  ∧ (∀ q, q ≠ peer → ir_pairings s' !! q = ir_pairings s !! q)
  ∧ r ≠ Panic
  ∧ ∀ was_paired, r = Ok was_paired →
      was_paired = is_paired s peer
      ∧ ∀ record, ir_pairings s !! peer = Some record →
          (∃ record', ir_pairings s' !! peer = Some record' ∧ pr_revoked record' = true)
          ∧ (pr_revoked record = false → ∀ st lf cf now o, ir_store s' = Some st →
               rs_load lf pairing_authority_record st = Ok o →
               ∃ restored, restore_pairing_authority to_vec from_slice endpoint_id_ok lf cf now
                   (ir_local_identity_generation s) st = (st, Ok restored)
                 ∧ ∃ record', re_pairings restored !! peer = Some record'
                     ∧ pr_paired record' = false ∧ pr_revoked record' = true).
Proof.
  intros Hjson Hwf Hr.
  destruct (revoke_peer_spec to_vec endpoint_id_ok f c peer s s' r Hwf Hr)
    as (Hwf' & Hsame & Hnp & Hq & Hcl & Hres).
  split; [done|]. split; [done|]. split; [done|]. split; [by intros ->|].
  intros b ->. destruct Hres as [-> Hres]. split; [done|]. intros record Hrec.
  destruct (Hres record Hrec) as ((record' & Hr' & Hrev) & Hd). split; [by exists record'|].
  intros Hnr st lf cf now o Hst Hl.
  assert (Hpr : persists record' = true) by (unfold persists; by rewrite Hrev, orb_true_r).
  destruct (durably_stored_restart to_vec from_slice endpoint_id_ok lf cf now s' st o Hjson Hwf'
    (Hd Hnr) Hst) as (n & Hn); [by eauto|done|].
  destruct Hsame as (_ & _ & _ & _ & _ & _ & Hloc & _). rewrite Hloc in Hn.
  eexists. split; [exact Hn|]. exists (refresh now record'). simpl.
  rewrite durable_pairings_lookup, Hr'. simpl. rewrite Hpr, Hrev. done.
Qed.

Lemma revocation_fails_closed_witness :
  is_paired demo_marked demo_peer = true
  ∧ is_paired (revoke_peer demo_to_vec memory_ok demo_clock demo_peer demo_marked).1 demo_peer = false.
Proof.
  split; [vm_compute; reflexivity|].
  eapply (revocation_fails_closed demo_to_vec demo_from_slice (λ _, true) memory_ok demo_clock
    demo_peer demo_marked).
  - apply demo_roundtrip.
  - pose proof (relay_run_wf demo_to_vec demo_from_slice (λ _, true) 8 demo_state []
      [OpMark memory_ok demo_clock demo_peer]) as H.
    apply H; [apply demo_state_wf|apply demo_state_wf|repeat constructor].
  - apply surjective_pairing.
Defined.

(** ** Challenge and failure budgets *)
Fixpoint reserve_run {St} (peer : list byte) (clocks : list Clock) (s : @IrohRelayState St)
  : @IrohRelayState St * list bool :=
  match clocks with
  | [] => (s, [])
  | c :: clocks =>
      let '(s1, b) := reserve_pairing_challenge c peer s in
      let '(s2, bs) := reserve_run peer clocks s1 in
      (s2, b :: bs)
  end.

Fixpoint failure_run {St} (peer : list byte) (clocks : list Clock) (s : @IrohRelayState St)
  : @IrohRelayState St * list bool :=
  match clocks with
  | [] => (s, [])
  | c :: clocks =>
      let '(s1, b) := record_pairing_failure c peer s in
      let '(s2, bs) := failure_run peer clocks s1 in
      (s2, b :: bs)
  end.

Definition granted (bs : list bool) : Z := len (filter (λ b, b = true) bs).

Lemma granted_cons b bs : granted (b :: bs) = (if b then 1 else 0) + granted bs.
Proof. unfold granted, len. destruct b; [rewrite filter_cons_True|rewrite filter_cons_False]; simpl; done || lia. Qed.

Lemma reserve_known {St} c peer (s : @IrohRelayState St) r :
  ir_pairings s !! peer = Some r → pr_paired r = false →
  ck_now c < pr_challenge_window_started r + PAIRING_CHALLENGE_WINDOW →
  reserve_pairing_challenge c peer s =
  (if MAX_PAIRING_CHALLENGES_PER_WINDOW <=? pr_challenge_count r
   then (set_pairings (<[peer := r]> (ir_pairings s)) s, false)
   else (set_pairings (<[peer := set_challenge (pr_challenge_window_started r)
          (pr_challenge_count r + 1) 0 r]> (ir_pairings s)) s, true)).
Proof.
  intros Hr Hp Hc. unfold reserve_pairing_challenge, ensure_record. rewrite Hr, Hp.
  assert (Hw : (PAIRING_CHALLENGE_WINDOW <=? Z.max 0 (ck_now c - pr_challenge_window_started r)) = false).
  { apply Z.leb_gt. unfold PAIRING_CHALLENGE_WINDOW, nanos_per_sec in *. lia. }
  rewrite Hw. by destruct (_ <=? pr_challenge_count r).
Qed.

Lemma reserve_run_bound {St} peer clocks (s : @IrohRelayState St) r :
  ir_pairings s !! peer = Some r → pr_paired r = false →
  0 ≤ pr_challenge_count r ≤ MAX_PAIRING_CHALLENGES_PER_WINDOW →
  Forall (λ c, ck_now c < pr_challenge_window_started r + PAIRING_CHALLENGE_WINDOW) clocks →
  granted (reserve_run peer clocks s).2 = Z.min (len clocks) (MAX_PAIRING_CHALLENGES_PER_WINDOW - pr_challenge_count r).
Proof.
  revert s r. induction clocks as [|c clocks IH]; intros s r Hr Hp Hcount Hall.
  { unfold granted, len. simpl. lia. }
  apply Forall_cons in Hall as [Hc Hall]. simpl.
  rewrite (reserve_known _ _ _ _ Hr Hp Hc).
  destruct (_ <=? pr_challenge_count r) eqn:Hmax; bool_facts.
  - specialize (IH (set_pairings (<[peer := r]> (ir_pairings s)) s) r).
    destruct (reserve_run peer clocks _) as [s2 bs]. simpl in IH.
    rewrite lookup_insert_eq in IH. specialize (IH eq_refl Hp Hcount Hall).
    cbn [snd] in *. rewrite granted_cons, IH. unfold len. simpl length. lia.
  - set (r1 := set_challenge _ _ _ r).
    specialize (IH (set_pairings (<[peer := r1]> (ir_pairings s)) s) r1).
    destruct (reserve_run peer clocks _) as [s2 bs]. simpl in IH.
    rewrite lookup_insert_eq in IH.
    assert (Hc1 : 0 ≤ pr_challenge_count r + 1 ≤ MAX_PAIRING_CHALLENGES_PER_WINDOW) by lia.
    specialize (IH eq_refl Hp Hc1 Hall).
    cbn [snd] in *. rewrite granted_cons, IH. unfold len, r1. simpl. lia.
Qed.

Lemma failure_run_spec {St} endpoint_id_ok peer clocks (s : @IrohRelayState St) r :
  relay_wf endpoint_id_ok s → endpoint_id_ok peer = true →
  ir_pairings s !! peer = Some r →
  (failure_run peer clocks s).2
  = (λ i, pr_failed_attempts r + 1 + Z.of_nat i <? MAX_PAIRING_ATTEMPTS) <$> seq 0 (length clocks).
Proof.
  revert s r. induction clocks as [|c clocks IH]; intros s r Hwf Hok Hr; [done|]. simpl.
  destruct (record_pairing_failure c peer s) as [s1 b] eqn:Hf.
  apply failure_spec with (endpoint_id_ok := endpoint_id_ok) in Hf as (Hwf1 & _ & _ & _ & Hs); [|done..].
  destruct (Hs r Hr) as [-> Hr1]. specialize (IH s1 _ Hwf1 Hok Hr1).
  destruct (failure_run peer clocks s1) as [s2 bs]. simpl in *. rewrite IH. f_equal.
  - f_equal. lia.
  - rewrite <-fmap_S_seq, <-list_fmap_compose. apply list_fmap_ext. intros i x _. simpl.
    pose proof (rw_failed _ _ _ _ (iw_records _ _ Hwf _ _ Hr)). relay_bounds.
    apply Bool.eq_iff_eq_true. rewrite !Z.ltb_lt. lia.
Qed.

(** Pairing budgets.  While a peer's record lives, challenges asked within one
    60-second window are granted until three have been counted, however many are asked;
    and of the failures recorded for a challenge the first four leave the peer another
    try, the fifth and all later ones do not. *)
Lemma pairing_budgets {St : Type} endpoint_id_ok peer (s : @IrohRelayState St) r clocks fclocks :
  relay_wf endpoint_id_ok s → endpoint_id_ok peer = true →
  ir_pairings s !! peer = Some r → pr_paired r = false →
  Forall (λ c, ck_now c < pr_challenge_window_started r + PAIRING_CHALLENGE_WINDOW) clocks →
  granted (reserve_run peer clocks s).2
  = Z.min (len clocks) (MAX_PAIRING_CHALLENGES_PER_WINDOW - pr_challenge_count r)
  ∧ (failure_run peer fclocks s).2
    = (λ i, pr_failed_attempts r + 1 + Z.of_nat i <? MAX_PAIRING_ATTEMPTS) <$> seq 0 (length fclocks).
Proof.
  intros Hwf Hok Hr Hp Hall. split.
  - eapply reserve_run_bound; try done. apply (rw_count _ _ _ _ (iw_records _ _ Hwf _ _ Hr)).
  - by eapply failure_run_spec.
Qed.

Definition demo_challenged := (reserve_pairing_challenge demo_clock demo_peer demo_state).1.

Lemma pairing_budgets_witness :
  granted (reserve_run demo_peer (replicate 5 demo_clock) demo_challenged).2 = 2
  ∧ (failure_run demo_peer (replicate 6 demo_clock) demo_challenged).2
    = [true; true; true; true; false; false].
Proof.
  destruct (pairing_budgets (λ _, true) demo_peer demo_challenged
    (default (blank_record 0 0) (ir_pairings demo_challenged !! demo_peer))
    (replicate 5 demo_clock) (replicate 6 demo_clock)) as [H1 H2].
  - pose proof (relay_run_wf demo_to_vec demo_from_slice (λ _, true) 8 demo_state []
      [OpReserve (Fl := MemoryFaults) demo_clock demo_peer]) as H.
    apply H; [apply demo_state_wf|apply demo_state_wf|repeat constructor].
  - reflexivity.
  - vm_compute. reflexivity.
  - vm_compute. reflexivity.
  - repeat constructor.
  - rewrite H1, H2. vm_compute. split; reflexivity.
Defined.

(** Connection epochs are never reused.  Two starts on one store, with any commits of
    other records in between, get consecutive fence epochs; as long as epochs and
    connection counters stay below 2^32, every connection generation of the later process
    is larger than every one of the earlier process and fits 64 bits. *)
Lemma fence_epochs_increase {St Fl : Type} `{!RevisionStore St Fl, !LawfulRevisionStore St Fl}
    (lf1 cf1 lf2 cf2 : Fl) st st1 st2 e1 e2 ops :
  rs_name_ok (rn_filename runtime_fence_record) →
  record_widths st → record_widths (run_commits st1 ops) →
  install_runtime_fence lf1 cf1 st = (st1, Ok e1) →
  Forall (λ op : CommitOp Fl, rn_filename (co_name op) ≠ rn_filename runtime_fence_record) ops →
  install_runtime_fence lf2 cf2 (run_commits st1 ops) = (st2, Ok e2) →
  e2 = e1 + 1
  ∧ (e2 < 2 ^ 32 → ∀ l1 l2, 0 ≤ l1 < 2 ^ 32 → 0 ≤ l2 < 2 ^ 32 →
      u64_shl32 e1 + l1 < u64_shl32 e2 + l2 ≤ u64_max).
Proof.
  intros Hok Hw Hw1 H1 Hops H2.
  apply install_runtime_fence_spec in H1 as (c1 & p1 & _ & _ & _ & [He1 _] & rev & Hv1); [|done].
  apply install_runtime_fence_spec in H2 as (c2 & p2 & Hv2 & Hp2 & -> & _); [|done].
  rewrite run_commits_fence in Hv2 by done. rewrite Hv1 in Hv2. simplify_eq. simpl.
  split; [done|]. intros Hmax l1 l2 Hl1 Hl2. unfold u64_shl32, u64_max.
  rewrite !Z.shiftl_mul_pow2 by lia. rewrite !Z.mod_small by lia. lia.
Qed.

(** The Relay identity is stable.  Once a start has resolved an identity from a
    store, every later start on that store that can read the record resolves the same key
    and generation without writing, when it supplies no key or one with the same public
    key, and is refused otherwise; a supplied key is only ever resolved to its own public
    key; and without a record and without a supplied key no identity is created. *)
Lemma identity_stable {St Fl : Type} `{!RevisionStore St Fl, !LawfulRevisionStore St Fl}
    endpoint_id_ok public identity_to_vec identity_from_slice
    (env : @IdentityEnv St Fl) supplied st st' k g :
  (∀ e k bs, identity_to_vec e k = Some bs → identity_from_slice bs = Some (e, k)) →
  (∀ k, endpoint_id_ok (public k) = true) →
  load_or_create_relay_identity endpoint_id_ok public identity_to_vec identity_from_slice
    env supplied st = (st', Ok (k, g)) →
  (∀ candidate, supplied = Some candidate → public k = public candidate)
  ∧ ∀ (env' : @IdentityEnv St Fl) supplied' o,
      rs_load (ie_load env') relay_identity_record st' = Ok o →
      load_or_create_relay_identity endpoint_id_ok public identity_to_vec identity_from_slice
        env' supplied' st'
      = (st', match supplied' with
              | Some candidate =>
                  if bool_decide (public candidate ≠ public k) then Err AuthorityStorage
                  else Ok (k, g)
              | None => Ok (k, g)
              end).
Proof.
  intros Hrt Hpub H.
  apply load_or_create_spec in H as [Hat Hsup]; [|done|done]. split; [done|].
  intros env' supplied' o Ho. unfold load_or_create_relay_identity.
  rewrite (identity_at_load _ _ _ _ _ _ _ _ Hat Ho).
  destruct supplied' as [candidate|]; [|done]. by case_bool_decide.
Qed.

Definition demo_identity_to_vec (e k : list byte) : option (list byte) :=
  if decide (e = k) then Some k else None.
Definition demo_identity_from_slice (bs : list byte) : option (list byte * list byte) := Some (bs, bs).
Definition demo_identity_env : @IdentityEnv MemoryStore MemoryFaults :=
  {| ie_load := memory_ok; ie_commit := memory_ok; ie_reload := memory_ok; ie_before_commit := id |}.
Definition demo_resolve (supplied : option (list byte)) (st : MemoryStore) :=
  load_or_create_relay_identity (λ _, true) id demo_identity_to_vec demo_identity_from_slice
    demo_identity_env supplied st.

(** Restarts keep the identity and advance the fence.  Successive starts on one store,
    whatever other records are committed in between, get consecutive runtime epochs, and up
    to 2^32 of them give connection generations above all earlier ones.  Once a start has
    resolved an identity from a store, every later start on that store that can read the
    record resolves the same key and generation without writing, when it supplies no key or
    one with the same public key, and is refused otherwise; a supplied key is only ever
    resolved to its own public key. *)
Lemma restarts_fenced_and_identified {St Fl : Type} `{!RevisionStore St Fl, !LawfulRevisionStore St Fl} :
  (∀ (lf1 cf1 lf2 cf2 : Fl) (st st1 st2 : St) e1 e2 ops,
     rs_name_ok (rn_filename runtime_fence_record) →
     record_widths st → record_widths (run_commits st1 ops) →
     install_runtime_fence lf1 cf1 st = (st1, Ok e1) →
     Forall (λ op : CommitOp Fl, rn_filename (co_name op) ≠ rn_filename runtime_fence_record) ops →
     install_runtime_fence lf2 cf2 (run_commits st1 ops) = (st2, Ok e2) →
     e2 = e1 + 1
     ∧ (e2 < 2 ^ 32 → ∀ l1 l2, 0 ≤ l1 < 2 ^ 32 → 0 ≤ l2 < 2 ^ 32 →
         u64_shl32 e1 + l1 < u64_shl32 e2 + l2 ≤ u64_max))
  ∧ (∀ endpoint_id_ok public identity_to_vec identity_from_slice
       (env : @IdentityEnv St Fl) supplied st st' k g,
     (∀ e k bs, identity_to_vec e k = Some bs → identity_from_slice bs = Some (e, k)) →
     (∀ k, endpoint_id_ok (public k) = true) →
     load_or_create_relay_identity endpoint_id_ok public identity_to_vec identity_from_slice
       env supplied st = (st', Ok (k, g)) →
     (∀ candidate, supplied = Some candidate → public k = public candidate)
     ∧ ∀ (env' : @IdentityEnv St Fl) supplied' o,
         rs_load (ie_load env') relay_identity_record st' = Ok o →
         load_or_create_relay_identity endpoint_id_ok public identity_to_vec identity_from_slice
           env' supplied' st'
         = (st', match supplied' with
                 | Some candidate =>
                     if bool_decide (public candidate ≠ public k) then Err AuthorityStorage
                     else Ok (k, g)
                 | None => Ok (k, g)
                 end)).
Proof.
  split.
  - intros lf1 cf1 lf2 cf2 st st1 st2 e1 e2 ops.
    exact (fence_epochs_increase lf1 cf1 lf2 cf2 st st1 st2 e1 e2 ops).
  - intros endpoint_id_ok public tv fs env supplied st st' k g.
    exact (identity_stable endpoint_id_ok public tv fs env supplied st st' k g).
Qed.

Lemma restarts_fenced_and_identified_witness :
  ((install_runtime_fence (St := MemoryStore) memory_ok memory_ok
     (install_runtime_fence memory_ok memory_ok ∅).1).2 = Ok 2 ∧ 2 = 1 + 1)
  ∧ demo_resolve (Some demo_peer) ∅ = ((demo_resolve (Some demo_peer) ∅).1, Ok (demo_peer, 1))
  ∧ demo_resolve None (demo_resolve (Some demo_peer) ∅).1
    = ((demo_resolve (Some demo_peer) ∅).1, Ok (demo_peer, 1)).
Proof.
  destruct (restarts_fenced_and_identified (St := MemoryStore) (Fl := MemoryFaults)) as [Hfence Hid].
  assert (H : demo_resolve (Some demo_peer) ∅ = ((demo_resolve (Some demo_peer) ∅).1, Ok (demo_peer, 1)))
    by (apply run_outcome; vm_compute; reflexivity).
  split; [split; [vm_compute; reflexivity|]|split; [exact H|]].
  - apply (Hfence memory_ok memory_ok memory_ok memory_ok ∅
      (install_runtime_fence memory_ok memory_ok ∅).1
      (install_runtime_fence memory_ok memory_ok (install_runtime_fence memory_ok memory_ok ∅).1).1
      1 2 []).
    + exact I.
    + intros n r. simpl. rewrite lookup_empty. discriminate.
    + intros n r. change (run_commits (install_runtime_fence memory_ok memory_ok (∅ : MemoryStore)).1 [])
        with (<[rn_filename runtime_fence_record := {| sa_revision := 1; sa_generation := 1;
          sa_state := str_lit "active"; sa_payload := be_bytes 8 1 |}]> (∅ : MemoryStore)).
      simpl. destruct (decide (rn_filename n = rn_filename runtime_fence_record)) as [->|Hne].
      * rewrite lookup_insert_eq. intros [= <-]. split; vm_compute; split; discriminate.
      * rewrite lookup_insert_ne by done. rewrite lookup_empty. discriminate.
    + apply run_outcome. vm_compute. reflexivity.
    + constructor.
    + apply run_outcome. vm_compute. reflexivity.
  - eapply (Hid (λ _, true) id demo_identity_to_vec demo_identity_from_slice
      demo_identity_env (Some demo_peer) ∅ (demo_resolve (Some demo_peer) ∅).1 demo_peer 1).
    + unfold demo_identity_to_vec. intros e k bs Hk. destruct (decide (e = k)); simplify_eq. reflexivity.
    + reflexivity.
    + exact H.
    + reflexivity.
Defined.

(** * Observations *)

(** A peer whose challenge budget is used up gets a fresh one by reconnecting: dropping
    the lease removes the unpaired record with its counters, whatever the window. *)
Lemma reconnect_resets_budget {St : Type} endpoint_id_ok peer g c (s : @IrohRelayState St) m leases r :
  relay_wf endpoint_id_ok s → connections_wf m s leases → (peer, g) ∈ leases →
  ir_pairings s !! peer = Some r → persists r = false →
  ck_epoch c ≠ None → ir_next_attempt_id s + 1 ≤ u64_max →
  map_len (ir_pairings s) ≤ ir_max_pairing_records s →
  (reserve_pairing_challenge c peer (drop_lease (peer, g) s)).2 = true.
Proof.
  intros Hwf Hc Hin Hr Hpr Hck Hn Hsz.
  assert (Ha : ir_active s !! peer = Some g) by (by apply (cw_active _ _ _ Hc)).
  unfold drop_lease. rewrite bool_decide_eq_true_2 by done. simpl. rewrite Hr.
  unfold persists in Hpr. apply orb_false_iff in Hpr as [-> ->]. simpl.
  unfold reserve_pairing_challenge, ensure_record. simpl. rewrite lookup_delete_eq.
  rewrite (proj2 (Z.leb_gt _ _)) by (rewrite map_len_delete_Some by eauto; lia).
  unfold new_pairing_record, next_attempt. simpl.
  rewrite (proj2 (u64_checked_add_Some _ _ _) (conj eq_refl Hn)).
  unfold authority_timestamp. destruct (ck_epoch c); [|done]. simpl.
  by rewrite Z.sub_diag.
Qed.

(** After the relations of an older Relay identity were replaced by an empty set at
    generation three or more, a new peer cannot be paired: its challenge creates a record
    at generation one, which [mark_paired] raises to two, below the aggregate. *)
Lemma pairing_blocked_after_identity_change {St Fl : Type} `{!RevisionStore St Fl}
    to_vec (f : Fl) c c' peer (s s1 : @IrohRelayState St) :
  ir_pairings s = ∅ → 2 < ir_authority_generation s →
  reserve_pairing_challenge c peer s = (s1, true) →
  ∃ e, (mark_paired to_vec f c' peer s1).2 = Err e.
Proof.
  intros Hempty Hgen. unfold reserve_pairing_challenge, ensure_record.
  rewrite Hempty, lookup_empty. destruct (_ <=? _); [done|].
  unfold new_pairing_record. destruct (next_attempt_spec s) as [(n & -> & Hmax & ->)| ->]; [|done].
  destruct (authority_timestamp c) as [t|e|]; [|done..]. simpl. rewrite Z.sub_diag. simpl.
  intros [= <-]. unfold mark_paired. simpl. rewrite Hempty, !lookup_insert_eq. simpl.
  unfold authority_timestamp. destruct (ck_epoch c') as [secs|]; [|by eexists].
  match goal with |- context [next_attempt ?x] => destruct (next_attempt_spec x) as [(m & Hm & Hm' & ->)| ->] end;
    [|by eexists].
  match goal with |- context [commit_pairings _ _ ?cand ?x] => set (candidate := cand) end.
  unfold commit_pairings. destruct (encode_pairing_authority to_vec candidate) as [[payload g]|e|] eqn:He;
    [|by eexists|by apply encode_returns in He].
  rewrite bool_decide_eq_false_2 by apply insert_non_empty.
  apply encode_pairing_authority_Ok in He as (_ & _ & _ & _ & Hg).
  assert (Hle : g ≤ 2).
  { rewrite Hg. destruct (foldr_max_bounds ((λ kv, pr_pairing_generation kv.2) <$>
      durable_entries (btree_entries be_val candidate)) 1) as (_ & _ & [->|Hx]); [done|].
    apply list_elem_of_fmap in Hx as ([k r] & -> & [Hk _]%elem_of_durable_entries).
    unfold candidate in Hk. rewrite !insert_insert_eq in Hk.
    apply lookup_insert_Some in Hk as [[_ <-]|[_ Hk]]; [done|by rewrite lookup_empty in Hk]. }
  simpl. rewrite (proj2 (Z.ltb_lt _ _)) by lia. by eexists.
Qed.

(** [checked_shl] only checks the shift amount: an epoch of 2^32 or more loses its high
    bits instead of being refused. *)
Lemma epoch_shift_wraps : u64_shl32 (2 ^ 32 + 1) = u64_shl32 1.
Proof. reflexivity. Qed.
