(* ===== verification/PairingVerifier.v ===== *)
(** * The workspace pairing verifier (src/src/iroh_endpoint.rs, HerdrWorkspacePairingVerifier)

    [begin_attempt], [verify_attempt] and [cancel_attempt] are async functions that share
    one locked map and talk to Herdr between two uses of the lock.  Each is modelled as a
    task: one constructor of [Task] per await point it can be suspended at, one rule of
    [step] per stretch of code between two await points, so tasks of all peers interleave
    in every order, and a task can be dropped at an await point (its caller bounds it by
    the control timeout).  Herdr is the set of the hidden workspaces that are open; it
    never gives out a workspace identifier twice, and any request to it may fail.
    Instants are nanoseconds. *)
From S2P Require Export IrohRelay.

(** [constant_time_equal] and [random_code] of src/src/bootstrap_runtime.rs. *)
Definition constant_time_equal (left right : list byte) : bool :=
  accumulated_difference left right =? 0.

Definition CODE_RANGE : Z := 900000.
Definition acceptance_limit : Z := u32_max - u32_max mod CODE_RANGE.

(** The first sample below the limit, from the random source. *)
Fixpoint accepted_sample (samples : list Z) : option Z :=
  match samples with
  | [] => None
  | value :: samples =>
      if value <? acceptance_limit then Some value else accepted_sample samples
  end.

Definition code_of_sample (sample : Z) : Z := 100000 + sample mod CODE_RANGE.

(** [format!("{value:06}")] of a number below a million. *)
Definition six_digits (value : Z) : list byte :=
  (λ k, byte_of_Z (48 + value / 10 ^ k mod 10)) <$> [5; 4; 3; 2; 1; 0].

Definition random_code (samples : list Z) : option (list byte) :=
  six_digits ∘ code_of_sample <$> accepted_sample samples.

Record PendingPairing : Type := {
  pe_code : list byte;
  pe_workspace_id : list byte;
  pe_expires_at : Z;
}.

(** A suspended call; [checked_at] only remembers the instant at which [expired] was
    decided. *)
Inductive Task : Type :=
| BeginCreating (peer code : list byte)
| BeginInserting (peer : list byte) (pending : PendingPairing)
| BeginClosing (peer workspace_id : list byte)
| VerifyClosing (peer code : list byte) (pending : PendingPairing) (checked_at : Z) (expired : bool)
| VerifyRemoving (peer code : list byte) (pending : PendingPairing) (checked_at : Z) (expired : bool)
| CancelClosing (peer : list byte) (pending : PendingPairing)
| CancelRemoving (peer : list byte) (pending : PendingPairing).

(** What a finished call answered. *)
Inductive Answer : Type :=
| BeginAnswer (peer : list byte) (accepted : bool)
| VerifyAnswer (peer code : list byte) (against : option (PendingPairing * Z)) (accepted : bool)
| CancelAnswer (peer : list byte).

(** [v_used]: the workspace identifiers given out so far; [v_abandoned]: open workspaces
    nobody will close, because a call was dropped or a best-effort close failed. *)
Record VerifierState : Type := {
  v_attempts : gmap (list byte) PendingPairing;
  v_tasks : list Task;
  v_open : gset (list byte);
  v_used : gset (list byte);
  v_abandoned : gset (list byte);
  v_answers : list Answer;
}.

Definition verifier_init : VerifierState :=
  {| v_attempts := ∅; v_tasks := []; v_open := ∅; v_used := ∅; v_abandoned := ∅; v_answers := [] |}.

Definition set_attempts (a : gmap (list byte) PendingPairing) (v : VerifierState) : VerifierState :=
  {| v_attempts := a; v_tasks := v_tasks v; v_open := v_open v; v_used := v_used v;
     v_abandoned := v_abandoned v; v_answers := v_answers v |}.
Definition set_tasks (t : list Task) (v : VerifierState) : VerifierState :=
  {| v_attempts := v_attempts v; v_tasks := t; v_open := v_open v; v_used := v_used v;
     v_abandoned := v_abandoned v; v_answers := v_answers v |}.
Definition open_workspace (w : list byte) (v : VerifierState) : VerifierState :=
  {| v_attempts := v_attempts v; v_tasks := v_tasks v; v_open := {[w]} ∪ v_open v;
     v_used := {[w]} ∪ v_used v; v_abandoned := v_abandoned v; v_answers := v_answers v |}.
Definition close_workspace (w : list byte) (v : VerifierState) : VerifierState :=
  {| v_attempts := v_attempts v; v_tasks := v_tasks v; v_open := v_open v ∖ {[w]};
     v_used := v_used v; v_abandoned := v_abandoned v; v_answers := v_answers v |}.
Definition abandon (w : list byte) (v : VerifierState) : VerifierState :=
  {| v_attempts := v_attempts v; v_tasks := v_tasks v; v_open := v_open v; v_used := v_used v;
     v_abandoned := {[w]} ∪ v_abandoned v; v_answers := v_answers v |}.
Definition answer (a : Answer) (v : VerifierState) : VerifierState :=
  {| v_attempts := v_attempts v; v_tasks := v_tasks v; v_open := v_open v; v_used := v_used v;
     v_abandoned := v_abandoned v; v_answers := a :: v_answers v |}.

(** The capacity test of [begin_attempt], made before the creation and again before the
    insertion. *)
Definition attempts_full (v : VerifierState) (peer : list byte) : bool :=
  (MAX_PAIRING_RECORDS <=? map_len (v_attempts v)) || bool_decide (is_Some (v_attempts v !! peer)).

(** [begin_attempt] up to its first await on Herdr; [ready] says that the clock, the
    random source and the title formatting gave a code and a title. *)
Definition begin_start (peer code : list byte) (ready : bool) (v : VerifierState) : VerifierState :=
  if attempts_full v peer || negb ready then answer (BeginAnswer peer false) v
  else set_tasks (BeginCreating peer code :: v_tasks v) v.

(** [begin_attempt] after Herdr created and verified [w]. *)
Definition begin_created (peer code w : list byte) (now : Z) (v : VerifierState) : VerifierState :=
  let v1 := open_workspace w v in
  set_tasks (BeginInserting peer {| pe_code := code; pe_workspace_id := w;
               pe_expires_at := now + PAIRING_CHALLENGE_TTL_SECS * nanos_per_sec |} :: v_tasks v1) v1.

(** [begin_attempt] with the lock taken again. *)
Definition begin_insert (peer : list byte) (pending : PendingPairing) (v : VerifierState)
  : VerifierState :=
  if attempts_full v peer
  then set_tasks (BeginClosing peer (pe_workspace_id pending) :: v_tasks v) v
  else answer (BeginAnswer peer true) (set_attempts (<[peer := pending]> (v_attempts v)) v).

(** [verify_attempt] up to its await on Herdr. *)
Definition verify_start (peer code : list byte) (now : Z) (v : VerifierState) : VerifierState :=
  match v_attempts v !! peer with
  | None => answer (VerifyAnswer peer code None false) v
  | Some candidate =>
      if pe_expires_at candidate <=? now
      then set_tasks (VerifyClosing peer code candidate now true :: v_tasks v) v
      else if constant_time_equal (pe_code candidate) code
      then set_tasks (VerifyClosing peer code candidate now false :: v_tasks v) v
      else answer (VerifyAnswer peer code (Some (candidate, now)) false) v
  end.

(** The last stretch of [verify_attempt] and [cancel_attempt]: forget the attempt unless
    it is another one by now. *)
Definition remove_exact (peer : list byte) (pending : PendingPairing) (v : VerifierState)
  : VerifierState :=
  match v_attempts v !! peer with
  | Some current =>
      if bool_decide (pe_workspace_id current = pe_workspace_id pending)
      then set_attempts (delete peer (v_attempts v)) v else v
  | None => v
  end.

Definition cancel_start (peer : list byte) (v : VerifierState) : VerifierState :=
  match v_attempts v !! peer with
  | None => answer (CancelAnswer peer) v
  | Some pending => set_tasks (CancelClosing peer pending :: v_tasks v) v
  end.

(** One task continues: [resume v t v'] runs task [t] (already taken out of [v]) from its
    await point to the next one, or to its end. *)
Inductive resume (v : VerifierState) : Task → VerifierState → Prop :=
| resume_created peer code w now :
    w ∉ v_used v → resume v (BeginCreating peer code) (begin_created peer code w now v)
| resume_created_late peer code w :
    (* the expiry instant is not representable *)
    w ∉ v_used v →
    resume v (BeginCreating peer code)
      (set_tasks (BeginClosing peer w :: v_tasks v) (open_workspace w v))
| resume_create_failed peer code :
    resume v (BeginCreating peer code) (answer (BeginAnswer peer false) v)
| resume_create_unverified peer code w :
    (* created, not verified, and the best-effort close inside failed *)
    w ∉ v_used v →
    resume v (BeginCreating peer code)
      (answer (BeginAnswer peer false) (abandon w (open_workspace w v)))
| resume_insert peer pending :
    resume v (BeginInserting peer pending) (begin_insert peer pending v)
| resume_begin_closed peer w :
    resume v (BeginClosing peer w) (answer (BeginAnswer peer false) (close_workspace w v))
| resume_begin_close_failed peer w :
    resume v (BeginClosing peer w) (answer (BeginAnswer peer false) (abandon w v))
| resume_verify_closed peer code pending at_ expired :
    resume v (VerifyClosing peer code pending at_ expired)
      (let v1 := close_workspace (pe_workspace_id pending) v in
       set_tasks (VerifyRemoving peer code pending at_ expired :: v_tasks v1) v1)
| resume_verify_close_failed peer code pending at_ expired :
    resume v (VerifyClosing peer code pending at_ expired)
      (answer (VerifyAnswer peer code (Some (pending, at_)) false) v)
| resume_verify_remove peer code pending at_ expired :
    resume v (VerifyRemoving peer code pending at_ expired)
      (answer (VerifyAnswer peer code (Some (pending, at_)) (negb expired)) (remove_exact peer pending v))
| resume_cancel_closed peer pending :
    resume v (CancelClosing peer pending)
      (let v1 := close_workspace (pe_workspace_id pending) v in
       set_tasks (CancelRemoving peer pending :: v_tasks v1) v1)
| resume_cancel_close_failed peer pending :
    resume v (CancelClosing peer pending) (answer (CancelAnswer peer) v)
| resume_cancel_remove peer pending :
    resume v (CancelRemoving peer pending) (answer (CancelAnswer peer) (remove_exact peer pending v)).

(** A dropped task leaves behind the workspace only it knew. *)
Inductive dropped (v : VerifierState) : Task → VerifierState → Prop :=
| dropped_creating peer code : dropped v (BeginCreating peer code) v
| dropped_created peer code w :
    (* Herdr had created the workspace when the call was dropped *)
    w ∉ v_used v → dropped v (BeginCreating peer code) (abandon w (open_workspace w v))
| dropped_inserting peer pending :
    dropped v (BeginInserting peer pending) (abandon (pe_workspace_id pending) v)
| dropped_closing peer w : dropped v (BeginClosing peer w) (abandon w v)
| dropped_closing_done peer w : dropped v (BeginClosing peer w) (close_workspace w v)
| dropped_verify peer code pending at_ expired : dropped v (VerifyClosing peer code pending at_ expired) v
| dropped_verify_done peer code pending at_ expired :
    dropped v (VerifyClosing peer code pending at_ expired) (close_workspace (pe_workspace_id pending) v)
| dropped_removing peer code pending at_ expired : dropped v (VerifyRemoving peer code pending at_ expired) v
| dropped_cancel peer pending : dropped v (CancelClosing peer pending) v
| dropped_cancel_done peer pending :
    dropped v (CancelClosing peer pending) (close_workspace (pe_workspace_id pending) v)
| dropped_cancel_removing peer pending : dropped v (CancelRemoving peer pending) v.

Inductive step : VerifierState → VerifierState → Prop :=
| step_begin v peer samples code ready :
    random_code samples = Some code → step v (begin_start peer code ready v)
| step_verify v peer code now : length code = 6%nat → step v (verify_start peer code now v)
| step_cancel v peer : step v (cancel_start peer v)
| step_resume v v' l1 t l2 :
    v_tasks v = l1 ++ t :: l2 → resume (set_tasks (l1 ++ l2) v) t v' → step v v'
| step_drop v v' l1 t l2 :
    v_tasks v = l1 ++ t :: l2 → dropped (set_tasks (l1 ++ l2) v) t v' → step v v'.

Definition reachable (v : VerifierState) : Prop := rtc step verifier_init v.

(** * Facts *)

(** ** Codes *)
Lemma accepted_sample_lt samples value : accepted_sample samples = Some value → value < acceptance_limit.
Proof.
  induction samples as [|x samples IH]; simpl; [done|].
  destruct (x <? acceptance_limit) eqn:Hx; [intros; simplify_eq; by bool_facts|done].
Qed.

Lemma random_code_length samples code : random_code samples = Some code → length code = 6%nat.
Proof.
  unfold random_code. destruct (accepted_sample samples); simpl; [|done]. by intros [= <-].
Qed.

(** ** Workspaces with an owner *)

(** The workspace only a task knows about. *)
Definition held_by (t : Task) : list (list byte) :=
  match t with
  | BeginInserting _ p => [pe_workspace_id p]
  | BeginClosing _ w => [w]
  | _ => []
  end.

(** The workspaces recorded in the map or owned by a task. *)
Definition holders (v : VerifierState) : list (list byte) :=
  ((λ kv, pe_workspace_id kv.2) <$> map_to_list (v_attempts v)) ++ (v_tasks v ≫= held_by).

Definition verified (code : list byte) (p : PendingPairing) (at_ : Z) (expired : bool) : Prop :=
  expired = (pe_expires_at p <=? at_) ∧ (expired = false → pe_code p = code).

Section Invariant.
(** [held]: workspaces taken out of the state between two of its parts. *)
Context (held : list (list byte)).

(** Whoever still holds the workspace of [p], it is the attempt of [peer]. *)
Definition located (v : VerifierState) (peer : list byte) (p : PendingPairing) : Prop :=
  pe_workspace_id p ∈ v_used v
  ∧ (pe_workspace_id p ∈ held ++ holders v →
       ∃ p', v_attempts v !! peer = Some p' ∧ pe_workspace_id p' = pe_workspace_id p).

Definition task_ok (v : VerifierState) (t : Task) : Prop :=
  match t with
  | BeginCreating _ code => length code = 6%nat
  | BeginInserting _ p => length (pe_code p) = 6%nat
  | BeginClosing _ w => True
  | VerifyClosing peer code p at_ expired => verified code p at_ expired ∧ located v peer p
  | VerifyRemoving peer code p at_ expired =>
      verified code p at_ expired ∧ located v peer p ∧ pe_workspace_id p ∉ v_open v
  | CancelClosing peer p => located v peer p
  | CancelRemoving peer p => located v peer p ∧ pe_workspace_id p ∉ v_open v
  end.

(** An accepting answer: the code is the attempt's, the attempt had not expired, and its
    workspace is closed and forgotten. *)
Definition answer_ok (v : VerifierState) (a : Answer) : Prop :=
  match a with
  | VerifyAnswer peer code (Some (p, at_)) true =>
      pe_code p = code ∧ at_ < pe_expires_at p ∧ pe_workspace_id p ∈ v_used v
      ∧ pe_workspace_id p ∉ v_open v ∧ pe_workspace_id p ∉ held ++ holders v
  | VerifyAnswer _ _ None accepted => accepted = false
  | _ => True
  end.

Record verifier_inv (v : VerifierState) : Prop := {
  vi_size : map_len (v_attempts v) ≤ MAX_PAIRING_RECORDS;
  vi_codes : ∀ peer p, v_attempts v !! peer = Some p → length (pe_code p) = 6%nat;
  vi_open : v_open v ⊆ v_used v;
  vi_used : ∀ w, w ∈ held ++ holders v → w ∈ v_used v;
  vi_nodup : NoDup (held ++ holders v);
  vi_accounted : ∀ w, w ∈ v_open v → w ∈ held ++ holders v ∨ w ∈ v_abandoned v;
  vi_tasks : Forall (task_ok v) (v_tasks v);
  vi_answers : Forall (answer_ok v) (v_answers v);
}.
End Invariant.

(** The conditions on a task or an answer only ask for three things of the state, and
    stay true when workspaces close or stop being held. *)
Lemma located_mono h h' v v' peer p :
  located h v peer p → v_used v ⊆ v_used v' →
  (pe_workspace_id p ∈ v_used v → pe_workspace_id p ∈ h' ++ holders v' →
     pe_workspace_id p ∈ h ++ holders v ∧ v_attempts v' !! peer = v_attempts v !! peer) →
  located h' v' peer p.
Proof.
  intros [Hu Hl] Hsub Hh. split; [set_solver|]. intros Hin.
  destruct (Hh Hu Hin) as [Hin' ->]. by apply Hl.
Qed.

Lemma task_ok_mono h h' v v' t :
  task_ok h v t → v_used v ⊆ v_used v' →
  (∀ w, w ∈ v_used v → w ∈ v_open v' → w ∈ v_open v) →
  (∀ peer p, located h v peer p → located h' v' peer p) →
  task_ok h' v' t.
Proof.
  intros Ht Hu Ho Hl.
  assert (Hop : ∀ w, w ∈ v_used v → w ∉ v_open v → w ∉ v_open v') by (intros ? ? ? ?; eauto).
  destruct t; simpl in *; try done.
  - destruct Ht; auto.
  - destruct Ht as (? & Hloc & ?). split_and!; auto. apply Hop; [apply Hloc|done].
  - auto.
  - destruct Ht as (Hloc & ?). split; auto. apply Hop; [apply Hloc|done].
Qed.

Lemma answer_ok_mono h h' v v' a :
  answer_ok h v a → v_used v ⊆ v_used v' →
  (∀ w, w ∈ v_used v → w ∈ v_open v' → w ∈ v_open v) →
  (∀ w, w ∈ v_used v → w ∈ h' ++ holders v' → w ∈ h ++ holders v) →
  answer_ok h' v' a.
Proof.
  intros Ha Hu Ho Hh. destruct a as [|peer code [[p at_]|] []|]; simpl in *; try done.
  destruct Ha as (? & ? & Hused & Hno & Hnh). split_and!; try done; eauto.
Qed.

(** ** Primitive state changes *)

(** Changes that leave the attempts and the tasks alone. *)
Lemma inv_relabel h h' v v' :
  verifier_inv h v → v_attempts v' = v_attempts v → v_tasks v' = v_tasks v →
  v_answers v' = v_answers v → v_used v ⊆ v_used v' →
  v_open v' ⊆ v_used v' → (∀ w, w ∈ v_used v → w ∈ v_open v' → w ∈ v_open v) →
  (∀ w, w ∈ v_used v → w ∈ h' → w ∈ h) → (∀ w, w ∈ h' → w ∈ v_used v') →
  NoDup (h' ++ holders v) →
  (∀ w, w ∈ v_open v' → w ∈ h' ++ holders v ∨ w ∈ v_abandoned v') →
  verifier_inv h' v'.
Proof.
  intros [] Ha Ht Hans Hu Hou Ho Hh Hhu Hnd Hacc.
  assert (Hhold : holders v' = holders v) by (unfold holders; by rewrite Ha, Ht).
  assert (Hin : ∀ w, w ∈ v_used v → w ∈ h' ++ holders v → w ∈ h ++ holders v).
  { intros w Hw [?|?]%elem_of_app; apply elem_of_app; auto. }
  split; rewrite ?Ha, ?Ht, ?Hhold; try done.
  - intros w [?|?]%elem_of_app; [auto|]. apply Hu, vi_used0, elem_of_app; auto.
  - eapply Forall_impl; [exact vi_tasks0|]. intros t Htok.
    eapply task_ok_mono; [exact Htok|done|done|]. intros peer p Hl.
    eapply located_mono; [exact Hl|done|]. rewrite Hhold, Ha. auto.
  - rewrite Hans. eapply Forall_impl; [exact vi_answers0|]. intros a Haok.
    eapply answer_ok_mono; [exact Haok|done|done|]. by rewrite Hhold.
Qed.

Lemma inv_open h v w : w ∉ v_used v → verifier_inv h v → verifier_inv (w :: h) (open_workspace w v).
Proof.
  intros Hw Hinv. pose proof Hinv as [].
  eapply (inv_relabel h (w :: h) v); try done; simpl.
  - set_solver.
  - set_solver.
  - set_solver.
  - set_solver.
  - intros x [->|Hx]%elem_of_cons; [set_solver|]. apply elem_of_union_r, vi_used0, elem_of_app. by left.
  - apply NoDup_cons. split; [|done]. intros Hx. by apply Hw, vi_used0.
  - set_solver.
Qed.

Lemma inv_close h v w : verifier_inv h v → verifier_inv h (close_workspace w v).
Proof.
  intros Hinv. pose proof Hinv as []. eapply (inv_relabel h h v); try done; simpl; try set_solver.
Qed.

Lemma inv_abandon h v w : verifier_inv (w :: h) v → verifier_inv h (abandon w v).
Proof.
  intros Hinv. pose proof Hinv as []. eapply (inv_relabel (w :: h) h v); try done; simpl.
  - set_solver.
  - intros x Hx. apply vi_used0, elem_of_app. left. by right.
  - by apply NoDup_cons in vi_nodup0 as [_ ?].
  - set_solver.
Qed.

Lemma inv_forget h v w : verifier_inv (w :: h) v → w ∉ v_open v → verifier_inv h v.
Proof.
  intros Hinv Hw. pose proof Hinv as []. eapply (inv_relabel (w :: h) h v); try done; simpl.
  - set_solver.
  - intros x Hx. apply vi_used0, elem_of_app. left. by right.
  - by apply NoDup_cons in vi_nodup0 as [_ ?].
  - intros x Hx. destruct (vi_accounted0 x Hx) as [[->|?]%elem_of_cons|?]; [done|auto..].
Qed.

(** Changes of the tasks and the holders that keep their workspaces together. *)
Lemma inv_reorder h h' v v' :
  verifier_inv h v → h' ++ holders v' ≡ₚ h ++ holders v →
  v_attempts v' = v_attempts v → v_open v' = v_open v → v_used v' = v_used v →
  v_abandoned v' = v_abandoned v → v_answers v' = v_answers v →
  Forall (λ t, t ∈ v_tasks v ∨ task_ok h v t) (v_tasks v') → verifier_inv h' v'.
Proof.
  intros [] Hp Ha Ho Hu Hab Hans Ht.
  assert (Hin : ∀ w, w ∈ h' ++ holders v' ↔ w ∈ h ++ holders v) by (intros w; by rewrite Hp).
  split; rewrite ?Ha, ?Ho, ?Hu, ?Hab; try done.
  - intros w. rewrite Hin. apply vi_used0.
  - by rewrite Hp.
  - intros w. rewrite Hin. apply vi_accounted0.
  - rewrite Forall_forall in Ht, vi_tasks0. apply Forall_forall. intros t Hin'.
    assert (Htok : task_ok h v t) by (destruct (Ht t Hin'); auto).
    eapply task_ok_mono; [exact Htok|by rewrite Hu|by rewrite Ho|].
    intros peer p Hl. eapply located_mono; [exact Hl|by rewrite Hu|].
    intros _. rewrite Hin, Ha. auto.
  - rewrite Hans. eapply Forall_impl; [exact vi_answers0|]. intros a Haok.
    eapply answer_ok_mono; [exact Haok|by rewrite Hu|by rewrite Ho|]. intros w _. by rewrite Hin.
Qed.

Lemma holders_cons t v :
  holders (set_tasks (t :: v_tasks v) v) ≡ₚ held_by t ++ holders v.
Proof. unfold holders. simpl. solve_Permutation. Qed.

Lemma holders_split l1 t l2 v :
  v_tasks v = l1 ++ t :: l2 → holders v ≡ₚ held_by t ++ holders (set_tasks (l1 ++ l2) v).
Proof.
  intros Ht. unfold holders. rewrite Ht. simpl. rewrite !bind_app. simpl. solve_Permutation.
Qed.

Lemma inv_take v l1 t l2 :
  verifier_inv [] v → v_tasks v = l1 ++ t :: l2 →
  verifier_inv (held_by t) (set_tasks (l1 ++ l2) v) ∧ task_ok (held_by t) (set_tasks (l1 ++ l2) v) t.
Proof.
  intros Hinv Ht. pose proof (holders_split _ _ _ _ Ht) as Hp. split.
  - apply (inv_reorder [] _ v); try done.
    apply Forall_forall. intros t' Hin. left. rewrite Ht. simpl in Hin. set_solver.
  - pose proof (vi_tasks _ _ Hinv) as Hall. rewrite Forall_forall in Hall.
    eapply task_ok_mono; [apply Hall; rewrite Ht; set_solver|done|done|].
    intros peer p Hl. eapply located_mono; [exact Hl|done|].
    intros _ Hin. split; [|done]. simpl. by rewrite Hp.
Qed.

Lemma inv_push v t :
  verifier_inv (held_by t) v → task_ok (held_by t) v t →
  verifier_inv [] (set_tasks (t :: v_tasks v) v).
Proof.
  intros Hinv Htok. apply (inv_reorder (held_by t) _ v); try done.
  - simpl. by rewrite holders_cons.
  - constructor; [by right|]. apply Forall_forall. auto.
Qed.

Lemma inv_answer v a : verifier_inv [] v → answer_ok [] v a → verifier_inv [] (answer a v).
Proof.
  intros [] Ha. split; try done. simpl. constructor; [done|].
  eapply Forall_impl; [exact vi_answers0|]. done.
Qed.

(** ** The map of attempts *)
Lemma holders_insert v peer p :
  v_attempts v !! peer = None →
  holders (set_attempts (<[peer := p]> (v_attempts v)) v) ≡ₚ pe_workspace_id p :: holders v.
Proof. intros Hn. unfold holders. simpl. by rewrite map_to_list_insert. Qed.

Lemma holders_delete v peer p :
  v_attempts v !! peer = Some p →
  holders v ≡ₚ pe_workspace_id p :: holders (set_attempts (delete peer (v_attempts v)) v).
Proof.
  intros Hp. unfold holders. simpl. rewrite <-(map_to_list_delete (v_attempts v) peer p Hp). done.
Qed.

Lemma inv_insert v peer p :
  verifier_inv [pe_workspace_id p] v → attempts_full v peer = false → length (pe_code p) = 6%nat →
  verifier_inv [] (set_attempts (<[peer := p]> (v_attempts v)) v).
Proof.
  intros [] Hfull Hlen. unfold attempts_full in Hfull.
  apply orb_false_iff in Hfull as [Hsize Hnone]. apply Z.leb_gt in Hsize.
  apply bool_decide_eq_false, eq_None_not_Some in Hnone.
  pose proof (holders_insert v peer p Hnone) as Hp.
  set (v' := set_attempts _ v) in *.
  assert (Hin : ∀ w, w ∈ [] ++ holders v' ↔ w ∈ [pe_workspace_id p] ++ holders v)
    by (intros w; simpl; by rewrite Hp).
  assert (Hloc : ∀ q p', located [pe_workspace_id p] v q p' → located [] v' q p').
  { intros q p' [Hu Hl]. split; [done|]. intros Hw%Hin. destruct (Hl Hw) as (p2 & Hq & Hw2).
    exists p2. split; [|done]. simpl. rewrite lookup_insert_ne; [done|congruence]. }
  split; try done; simpl.
  - rewrite map_len_insert_new; [lia|done].
  - intros q p' [[-> ->]|[? ?]]%lookup_insert_Some; eauto.
  - intros w ?%Hin. auto.
  - by rewrite Hp.
  - intros w Hw. rewrite (Hin w). auto.
  - eapply Forall_impl; [exact vi_tasks0|]. intros t Ht. eapply task_ok_mono; eauto.
  - eapply Forall_impl; [exact vi_answers0|]. intros a Ha. eapply answer_ok_mono; eauto.
    intros w _. by rewrite (Hin w).
Qed.

Lemma inv_remove v peer p :
  verifier_inv [] v → located [] v peer p → pe_workspace_id p ∉ v_open v →
  verifier_inv [] (remove_exact peer p v) ∧ pe_workspace_id p ∉ holders (remove_exact peer p v).
Proof.
  intros Hinv [Hu Hl] Hclosed. unfold remove_exact.
  destruct (v_attempts v !! peer) as [cur|] eqn:Hcur;
    [|split; [done|]; intros Hin; destruct (Hl Hin) as (? & ? & ?); congruence].
  case_bool_decide as Hw;
    [|split; [done|]; intros Hin; destruct (Hl Hin) as (? & ? & ?); congruence].
  destruct Hinv. pose proof (holders_delete v peer cur Hcur) as Hp.
  set (v' := set_attempts _ v) in *. rewrite Hw in Hp.
  simpl in vi_nodup0. rewrite Hp in vi_nodup0. apply NoDup_cons in vi_nodup0 as [Hnot Hnd].
  assert (Hin : ∀ w, w ∈ [] ++ holders v' → w ∈ [] ++ holders v).
  { intros w Hw'. simpl. rewrite Hp. by right. }
  assert (Hloc : ∀ q p', located [] v q p' → located [] v' q p').
  { intros q p' [Hu' Hl']. split; [done|]. intros Hw'. destruct (Hl' (Hin _ Hw')) as (p2 & Hq & Hw2).
    exists p2. split; [|done]. simpl. rewrite lookup_delete_ne; [done|].
    intros <-. apply Hnot. simpl in Hw'. congruence. }
  split; [|done]. split; try done; simpl.
  - etrans; [apply map_len_delete_le|done].
  - intros q p' [? ?]%lookup_delete_Some. eauto.
  - intros w ?. by apply vi_used0, Hin.
  - intros w Hwo. destruct (vi_accounted0 w Hwo) as [Hh|?]; [|by right].
    simpl in Hh. rewrite Hp in Hh. apply elem_of_cons in Hh as [->|?]; [done|by left].
  - eapply Forall_impl; [exact vi_tasks0|]. intros t Ht. eapply task_ok_mono; eauto.
  - eapply Forall_impl; [exact vi_answers0|]. intros a Ha. eapply answer_ok_mono; eauto.
Qed.

(** ** Steps *)
Lemma located_close h v w peer p : located h v peer p → located h (close_workspace w v) peer p.
Proof. done. Qed.

Lemma located_lookup v peer p : verifier_inv [] v → v_attempts v !! peer = Some p → located [] v peer p.
Proof.
  intros [] Hp. split; [|by eauto]. apply vi_used0. simpl.
  rewrite (holders_delete v peer p Hp). by left.
Qed.

Lemma verified_at p code (at_ : Z) :
  (pe_expires_at p <=? at_) = false → pe_code p = code → verified code p at_ false.
Proof. unfold verified. auto. Qed.

Lemma constant_time_equal_true left right :
  length left = length right → constant_time_equal left right = true → left = right.
Proof. intros Hl. unfold constant_time_equal. intros H%Z.eqb_eq. by apply accumulated_difference_zero. Qed.

Lemma begin_insert_inv v peer p :
  verifier_inv [pe_workspace_id p] v → length (pe_code p) = 6%nat → verifier_inv [] (begin_insert peer p v).
Proof.
  intros Hinv Hlen. unfold begin_insert. destruct (attempts_full v peer) eqn:Hfull.
  - by apply (inv_push v (BeginClosing peer (pe_workspace_id p))).
  - apply inv_answer; [by apply inv_insert|done].
Qed.

Lemma remove_answer_inv v peer p a :
  verifier_inv [] v → located [] v peer p → pe_workspace_id p ∉ v_open v →
  (∀ v', v_open v' = v_open v → v_used v' = v_used v → pe_workspace_id p ∉ holders v' → answer_ok [] v' a) →
  verifier_inv [] (answer a (remove_exact peer p v)).
Proof.
  intros Hinv Hloc Hcl Ha. destruct (inv_remove v peer p Hinv Hloc Hcl) as [Hinv' Hnot].
  apply inv_answer; [done|]. apply Ha; [..|done]; unfold remove_exact;
    destruct (v_attempts v !! peer); try done; by case_bool_decide.
Qed.

Lemma resume_inv v t v' :
  verifier_inv (held_by t) v → task_ok (held_by t) v t → resume v t v' → verifier_inv [] v'.
Proof.
  intros Hinv Ht Hr. destruct Hr as [peer code w now Hw|peer code w Hw| |peer code w Hw|peer p|peer w
    |peer w|peer code p at_ e|peer code p at_ e|peer code p at_ e|peer p|peer p|peer p]; simpl in Hinv, Ht.
  - by apply (inv_push (open_workspace w v) (BeginInserting peer _)); [apply inv_open|].
  - by apply (inv_push (open_workspace w v) (BeginClosing peer w)); [apply inv_open|].
  - by apply inv_answer.
  - apply inv_answer; [|done]. by apply inv_abandon, inv_open.
  - by apply begin_insert_inv.
  - apply inv_answer; [|done]. apply (inv_forget [] _ w); [by apply inv_close|]. simpl. set_solver.
  - apply inv_answer; [|done]. by apply inv_abandon.
  - destruct Ht as [Hv Hl].
    apply (inv_push (close_workspace _ v) (VerifyRemoving peer code p at_ e)); [by apply inv_close|].
    simpl. split_and!; [done|done|set_solver].
  - by apply inv_answer.
  - destruct Ht as (Hv & Hl & Hc). apply remove_answer_inv; [done..|].
    intros v' Ho Hu Hnot. simpl. destruct e; simpl; [done|]. destruct Hv as [He Hcode].
    split_and!; [by apply Hcode|by apply Z.leb_gt|rewrite Hu; apply Hl|by rewrite Ho|done].
  - apply (inv_push (close_workspace _ v) (CancelRemoving peer p)); [by apply inv_close|].
    simpl. split; [done|set_solver].
  - by apply inv_answer.
  - destruct Ht. by apply remove_answer_inv.
Qed.

Lemma dropped_inv v t v' :
  verifier_inv (held_by t) v → dropped v t v' → verifier_inv [] v'.
Proof.
  intros Hinv Hd. destruct Hd; simpl in Hinv; try done.
  - by apply inv_abandon, inv_open.
  - by apply inv_abandon.
  - by apply inv_abandon.
  - eapply inv_forget; [by apply inv_close|]. simpl. set_solver.
  - by apply inv_close.
  - by apply inv_close.
Qed.

Lemma step_inv v v' : verifier_inv [] v → step v v' → verifier_inv [] v'.
Proof.
  intros Hinv Hs. destruct Hs as [v peer samples code ready Hcode|v peer code now Hlen|v peer
    |v v' l1 t l2 Ht Hr|v v' l1 t l2 Ht Hd].
  - unfold begin_start. destruct (_ || _); [by apply inv_answer|].
    apply (inv_push v (BeginCreating peer code)); [done|]. by eapply random_code_length.
  - unfold verify_start. destruct (v_attempts v !! peer) as [p|] eqn:Hp; [|by apply inv_answer].
    pose proof (located_lookup v peer p Hinv Hp) as Hl.
    destruct (pe_expires_at p <=? now) eqn:He.
    { apply (inv_push v (VerifyClosing peer code p now true)); [done|]. by split. }
    destruct (constant_time_equal (pe_code p) code) eqn:Hc; [|by apply inv_answer].
    apply (inv_push v (VerifyClosing peer code p now false)); [done|]. split; [|done].
    apply verified_at; [done|]. apply constant_time_equal_true; [|done].
    rewrite Hlen. by eapply vi_codes.
  - unfold cancel_start. destruct (v_attempts v !! peer) as [p|] eqn:Hp; [|by apply inv_answer].
    apply (inv_push v (CancelClosing peer p)); [done|]. by apply located_lookup.
  - destruct (inv_take v l1 t l2 Hinv Ht) as [? ?]. by eapply resume_inv.
  - destruct (inv_take v l1 t l2 Hinv Ht) as [? ?]. by eapply dropped_inv.
Qed.

Lemma init_inv : verifier_inv [] verifier_init.
Proof.
  split; try done; simpl; try set_solver; by constructor.
Qed.

Lemma reachable_inv v : reachable v → verifier_inv [] v.
Proof.
  unfold reachable. intros H. pattern v. eapply (rtc_ind_r _ verifier_init); [apply init_inv| |exact H].
  intros x y _ Hxy Hx. by eapply step_inv.
Qed.

(** ** A pairing, from the first request to the accepted code *)
Definition sample_peer : list byte := replicate 64 (byte_of_Z 97).
Definition sample_workspace : list byte := str_lit "workspace-1".
Definition sample_pending : PendingPairing :=
  {| pe_code := str_lit "100000"; pe_workspace_id := sample_workspace;
     pe_expires_at := 0 + PAIRING_CHALLENGE_TTL_SECS * nanos_per_sec |}.

Lemma sample_code : random_code [0] = Some (str_lit "100000").
Proof. vm_compute. reflexivity. Qed.

Lemma attempts_full_empty v peer : v_attempts v = ∅ → attempts_full v peer = false.
Proof.
  intros Hv. unfold attempts_full. rewrite Hv. apply orb_false_iff. split.
  - unfold map_len. by rewrite map_size_empty.
  - apply bool_decide_eq_false. rewrite lookup_empty. apply is_Some_None.
Qed.

Lemma reachable_step v v' : reachable v → step v v' → reachable v'.
Proof. intros. by eapply rtc_r. Qed.

Lemma begun_reachable :
  reachable (set_tasks [BeginCreating sample_peer (str_lit "100000")] verifier_init).
Proof.
  eapply reachable_step; [apply rtc_refl|].
  pose proof (step_begin verifier_init sample_peer [0] _ true sample_code) as Hs.
  unfold begin_start in Hs. by rewrite attempts_full_empty in Hs.
Qed.

Definition paired_workspace : VerifierState :=
  answer (BeginAnswer sample_peer true)
    (set_attempts {[sample_peer := sample_pending]}
       (open_workspace sample_workspace verifier_init)).

Lemma paired_workspace_reachable : reachable paired_workspace.
Proof.
  eapply reachable_step; [eapply reachable_step; [apply begun_reachable|]|].
  - apply (step_resume _ _ [] (BeginCreating sample_peer (str_lit "100000")) []); [done|].
    apply (resume_created _ _ _ sample_workspace 0). simpl. set_solver.
  - apply (step_resume _ _ [] (BeginInserting sample_peer sample_pending) []); [done|].
    assert (Heq : ∀ v, attempts_full v sample_peer = false → v_attempts v = ∅ →
      answer (BeginAnswer sample_peer true) (set_attempts {[sample_peer := sample_pending]} v)
      = begin_insert sample_peer sample_pending v).
    { intros v Hf He. unfold begin_insert. by rewrite Hf, He. }
    unfold paired_workspace.
    change (open_workspace sample_workspace verifier_init) with
      (set_tasks ([] ++ []) (begin_created sample_peer (str_lit "100000") sample_workspace 0
         (set_tasks ([] ++ []) (set_tasks [BeginCreating sample_peer (str_lit "100000")] verifier_init)))).
    rewrite Heq; [apply resume_insert|by apply attempts_full_empty|done].
Qed.

Definition accepted_answer : Answer :=
  VerifyAnswer sample_peer (str_lit "100000") (Some (sample_pending, 5)) true.

Lemma accepted_run : ∃ v, reachable v ∧ accepted_answer ∈ v_answers v.
Proof.
  assert (Hl : v_attempts paired_workspace !! sample_peer = Some sample_pending) by apply lookup_insert_eq.
  set (t e := VerifyClosing sample_peer (str_lit "100000") sample_pending 5 e).
  assert (H1 : reachable (set_tasks [t false] paired_workspace)).
  { eapply reachable_step; [apply paired_workspace_reachable|].
    pose proof (step_verify paired_workspace sample_peer (str_lit "100000") 5 eq_refl) as Hs.
    unfold verify_start in Hs. by rewrite Hl in Hs. }
  eexists. split.
  - eapply reachable_step; [eapply reachable_step; [exact H1|]|].
    + apply (step_resume _ _ [] (t false) []); [done|]. apply resume_verify_closed.
    + eapply (step_resume _ _ [] (VerifyRemoving _ _ _ 5 false) []); [done|]. apply resume_verify_remove.
  - simpl. left.
Qed.

(** A begin call that its caller drops after Herdr created the workspace leaves it open,
    recorded nowhere and owned by no call. *)
Lemma dropped_begin_leaks_workspace :
  ∃ v, reachable v ∧ sample_workspace ∈ v_open v ∧ v_tasks v = []
       ∧ ∀ peer p, v_attempts v !! peer = Some p → pe_workspace_id p ≠ sample_workspace.
Proof.
  eexists. split.
  - eapply reachable_step; [apply begun_reachable|].
    apply (step_drop _ _ [] (BeginCreating sample_peer (str_lit "100000")) []); [done|].
    apply (dropped_created _ _ _ sample_workspace). simpl. set_solver.
  - simpl. split_and!; [set_solver|done|]. intros peer p Hp. by rewrite lookup_empty in Hp.
Qed.

Lemma sample_uniform_aux value x :
  100000 ≤ value < 100000 + CODE_RANGE → 0 ≤ x →
  x < acceptance_limit ∧ code_of_sample x = value
  ↔ ∃ k, 0 ≤ k < acceptance_limit / CODE_RANGE ∧ x = value - 100000 + k * CODE_RANGE.
Proof.
  change (acceptance_limit / CODE_RANGE) with 4772. change acceptance_limit with (4772 * CODE_RANGE).
  unfold code_of_sample, CODE_RANGE. intros Hv Hx. split.
  - intros [Hlt Hc]. exists (x / 900000). Z.to_euclidean_division_equations; lia.
  - intros (k & Hk & ->). Z.to_euclidean_division_equations; lia.
Qed.

Lemma six_digits_value value :
  0 ≤ value < 1000000 →
  foldl (λ n b, n * 10 + (byte_val b - 48)) 0 (six_digits value) = value
  ∧ Forall (λ b, 48 ≤ byte_val b ≤ 57) (six_digits value).
Proof.
  intros Hv. unfold six_digits. simpl.
  change (10 ^ 5) with 100000. change (10 ^ 4) with 10000. change (10 ^ 3) with 1000.
  change (10 ^ 2) with 100. change (10 ^ 1) with 10. change (10 ^ 0) with 1.
  rewrite !val_of_byte_small by (Z.to_euclidean_division_equations; lia).
  split; [Z.to_euclidean_division_equations; lia|].
  repeat constructor; rewrite val_of_byte_small; Z.to_euclidean_division_equations; lia.
Qed.

(** * Properties *)

(** C8. In whatever order the begin, verify and cancel calls of all peers interleave,
    are dropped by their callers or see Herdr fail, at most [MAX_PAIRING_RECORDS]
    attempts are recorded, every recorded code has six characters, no workspace has two
    owners, and every hidden workspace that is open is recorded in exactly one attempt or
    owned by one running call, unless a call was dropped or a best-effort close failed on
    it. *)
Theorem verifier_accounts_for_workspaces v :
  reachable v →
  map_len (v_attempts v) ≤ MAX_PAIRING_RECORDS
  ∧ (∀ peer p, v_attempts v !! peer = Some p → length (pe_code p) = 6%nat)
  ∧ NoDup (holders v)
  ∧ (∀ w, w ∈ v_open v →
       (∃ peer p, v_attempts v !! peer = Some p ∧ pe_workspace_id p = w)
       ∨ (∃ t, t ∈ v_tasks v ∧ w ∈ held_by t) ∨ w ∈ v_abandoned v).
Proof.
  intros []%reachable_inv. split_and!; try done.
  intros w Hw. destruct (vi_accounted0 w Hw) as [Hh|?]; [|by right; right].
  simpl in Hh. unfold holders in Hh. apply elem_of_app in Hh as [Hh|Hh].
  - left. apply list_elem_of_fmap in Hh as ([peer p] & -> & Hp%elem_of_map_to_list). by exists peer, p.
  - right. left. apply list_elem_of_bind in Hh as (t & ? & ?). eauto.
Qed.

Lemma verifier_accounts_for_workspaces_witness :
  reachable paired_workspace ∧ sample_workspace ∈ v_open paired_workspace
  ∧ map_len (v_attempts paired_workspace) ≤ MAX_PAIRING_RECORDS.
Proof.
  split_and!; [exact paired_workspace_reachable|simpl; set_solver|].
  apply (verifier_accounts_for_workspaces paired_workspace), paired_workspace_reachable.
Defined.

(** C9. Every accepting answer [verify_attempt] ever gave was for the code of the
    attempt recorded for that peer, at an instant before the attempt expired, and the
    attempt's workspace was closed before the answer: it is open no more and no attempt
    or running call has it. *)
Theorem verify_sound v peer code against :
  reachable v → VerifyAnswer peer code against true ∈ v_answers v →
  ∃ p at_, against = Some (p, at_) ∧ pe_code p = code ∧ at_ < pe_expires_at p
    ∧ pe_workspace_id p ∉ v_open v
    ∧ (∀ peer' p', v_attempts v !! peer' = Some p' → pe_workspace_id p' ≠ pe_workspace_id p)
    ∧ ∀ t, t ∈ v_tasks v → pe_workspace_id p ∉ held_by t.
Proof.
  intros []%reachable_inv Hin. rewrite Forall_forall in vi_answers0.
  specialize (vi_answers0 _ Hin). simpl in vi_answers0.
  destruct against as [[p at_]|]; [|done]. destruct vi_answers0 as (? & ? & _ & ? & Hnot).
  exists p, at_. split_and!; try done.
  - intros peer' p' Hp' Hw. apply Hnot. rewrite <-Hw. simpl. rewrite (holders_delete v peer' p' Hp'). by left.
  - intros t Ht Hw. apply Hnot. simpl. unfold holders. apply elem_of_app. right.
    apply list_elem_of_bind. eauto.
Qed.

Lemma verify_sound_witness :
  ∃ v, reachable v ∧ accepted_answer ∈ v_answers v ∧ sample_workspace ∉ v_open v.
Proof.
  destruct accepted_run as (v & Hr & Ha). exists v. split_and!; [done..|].
  destruct (verify_sound v _ _ _ Hr Ha) as (p & at_ & [= <- <-] & _ & _ & Hno & _). exact Hno.
Defined.

(** A generated code is the six-digit decimal form of a number from 100000 to
    999999, and every such number is the code of equally many of the accepted samples of
    the random source. *)
Lemma random_code_uniform samples code :
  random_code samples = Some code →
  ∃ value, 100000 ≤ value < 1000000 ∧ code = six_digits value
    ∧ foldl (λ n b, n * 10 + (byte_val b - 48)) 0 code = value
    ∧ Forall (λ b, 48 ≤ byte_val b ≤ 57) code
    ∧ ∀ other x, 100000 ≤ other < 1000000 → 0 ≤ x →
        x < acceptance_limit ∧ code_of_sample x = other
        ↔ ∃ k, 0 ≤ k < acceptance_limit / CODE_RANGE ∧ x = other - 100000 + k * CODE_RANGE.
Proof.
  unfold random_code. destruct (accepted_sample samples) as [x|]; [|done]. simpl. intros [= <-].
  exists (code_of_sample x). assert (100000 ≤ code_of_sample x < 1000000) by (unfold code_of_sample, CODE_RANGE; Z.to_euclidean_division_equations; lia).
  destruct (six_digits_value (code_of_sample x)) as [Hv Hd]; [lia|].
  split_and!; try lia; try done. intros other y Ho Hy. apply sample_uniform_aux; unfold CODE_RANGE; lia.
Qed.

Lemma random_code_uniform_witness :
  random_code [u32_max; 899999] = Some (str_lit "999999")
  ∧ Forall (λ b, 48 ≤ byte_val b ≤ 57) (str_lit "999999").
Proof.
  assert (H : random_code [u32_max; 899999] = Some (str_lit "999999")) by (vm_compute; reflexivity).
  split; [exact H|]. destruct (random_code_uniform _ _ H) as (_ & _ & _ & _ & Hd & _). exact Hd.
Defined.
