(* ===== verification/IrohConnection.v ===== *)
(** * One admitted connection (src/src/iroh_endpoint.rs, run_connection_inner,
    handle_hdqm_frame, run_session_stream)

    First the pairing loop on the control stream: one iteration per frame, on the shared
    admission state as the iteration finds it when it takes the lock.  Then the session
    phase: the control frames and the session streams of the connection interleave, each
    stream a task with one constructor per await point.  A peer that stops taking bytes
    makes the next write fail: a stream accepts a given number of frames.  Instants are
    nanoseconds. *)
From S2P Require Export PairingVerifier.

Section Pairing.
Context {St Fl : Type} `{!RevisionStore St Fl}.
Context (pairings_to_vec : list PersistedPairingRelation → option (list byte)).
Local Abbreviation state := (@IrohRelayState St).
Local Open Scope relay_scope.

(** The locals of the loop; [pl_writable] frames can still be written, [pl_codes] are the
    codes given to the verifier so far. *)
Record PairingLoop : Type := {
  pl_relay : state;
  pl_paired : bool;
  pl_started : bool;
  pl_deadline : option Z;
  pl_writable : nat;
  pl_sent : list HdpFrame;
  pl_codes : list (list byte);
}.

Definition pl_set_relay (s : state) (p : PairingLoop) : PairingLoop :=
  {| pl_relay := s; pl_paired := pl_paired p; pl_started := pl_started p;
     pl_deadline := pl_deadline p; pl_writable := pl_writable p; pl_sent := pl_sent p;
     pl_codes := pl_codes p |}.
Definition pl_set_flags (paired started : bool) (deadline : option Z) (p : PairingLoop) : PairingLoop :=
  {| pl_relay := pl_relay p; pl_paired := paired; pl_started := started;
     pl_deadline := deadline; pl_writable := pl_writable p; pl_sent := pl_sent p;
     pl_codes := pl_codes p |}.
Definition pl_set_sent (writable : nat) (sent : list HdpFrame) (p : PairingLoop) : PairingLoop :=
  {| pl_relay := pl_relay p; pl_paired := pl_paired p; pl_started := pl_started p;
     pl_deadline := pl_deadline p; pl_writable := writable; pl_sent := sent;
     pl_codes := pl_codes p |}.
Definition pl_add_code (code : list byte) (p : PairingLoop) : PairingLoop :=
  {| pl_relay := pl_relay p; pl_paired := pl_paired p; pl_started := pl_started p;
     pl_deadline := pl_deadline p; pl_writable := pl_writable p; pl_sent := pl_sent p;
     pl_codes := pl_codes p ++ [code] |}.

(** What the verifier and the clock answer during one iteration: [en_begin] and
    [en_verify] already are [false] when the control timeout expired; [en_deadline] is
    [Instant::now().checked_add(..)]. *)
Record PairingEnv : Type := {
  en_begin : bool;
  en_verify : list byte → bool;
  en_deadline : option Z;
  en_clock : Clock;
  en_faults : Fl;
}.

(** How an iteration ends: [continue], fall through to the test of [paired], or return
    after an optional close of the connection. *)
Inductive Iteration : Type :=
| Again
| Checked
| Returned (close : option (list byte)).

Abbreviation looping := (stateful PairingLoop IrohConnectionError).

Definition send_hdp_frame (frame : HdpFrame) : looping unit := λ p,
  match HdpFrame_encode frame with
  | Ok _ =>
      match pl_writable p with
      | O => (p, Err ConnectionIo)
      | S n => (pl_set_sent n (pl_sent p ++ [frame]) p, Ok tt)
      end
  | _ => (p, Err ConnectionProtocol)
  end.

Definition send_hdp_status (kind : HdpKind) (reason : Z) : looping unit :=
  send_hdp_frame (hdp_status kind reason).

(** [let _ = timeout(.., send_hdp_status(..))]. *)
Definition send_goaway : looping unit := λ p, ((send_hdp_status HdpGoAway 0 p).1, Ok tt).

(** One short-lived use of the shared state. *)
Definition on_relay {A} (f : state → state * A) : looping A := λ p,
  let '(s, a) := f (pl_relay p) in (pl_set_relay s p, Ok a).

Definition six_ascii_digits (payload : list byte) : bool :=
  (len payload =? 6) && forallb (λ b, (48 <=? byte_val b) && (byte_val b <=? 57)) payload.

Definition pairing_start (env : PairingEnv) (peer payload : list byte) : looping Iteration :=
  let! p := st_get in
  if pl_started p || negb (bool_decide (payload = [])) then
    do! send_hdp_status PairingRejected 5; st_ret Again
  else if pl_paired p then
    do! st_modify (pl_set_flags (pl_paired p) true (pl_deadline p));
    do! send_hdp_status PairingAccepted 0;
    do! send_hdp_status ConnectionReady 0;
    st_ret Checked
  else
    let! reserved := on_relay (reserve_pairing_challenge (en_clock env) peer) in
    if negb reserved then do! send_hdp_status PairingRejected 3; st_ret Checked
    else if en_begin env then
      match en_deadline env with
      | None => do! send_hdp_status PairingRejected 3; st_ret Again
      | Some deadline =>
          do! st_modify (pl_set_flags (pl_paired p) true (Some deadline));
          do! send_hdp_status PairingRejected 1;
          st_ret Checked
      end
    else do! send_hdp_status PairingRejected 3; st_ret Checked.

Definition pairing_submit (env : PairingEnv) (peer payload : list byte) : looping Iteration :=
  let! p := st_get in
  if negb (pl_started p) then do! send_hdp_status PairingRejected 5; st_ret Again
  else if negb (six_ascii_digits payload) then
    let! may_continue := on_relay (record_pairing_failure (en_clock env) peer) in
    do! send_hdp_status PairingRejected (if may_continue then 2 else 4);
    st_ret (if may_continue then Again else Returned (Some (str_lit "pairing budget exhausted")))
  else
    do! st_modify (pl_add_code payload);
    if en_verify env payload then
      let! marked := on_relay (mark_paired pairings_to_vec (en_faults env) (en_clock env) peer) in
      match marked with
      | Ok true =>
          do! st_modify (pl_set_flags true (pl_started p) (pl_deadline p));
          do! send_hdp_status PairingAccepted 0;
          do! send_hdp_status ConnectionReady 0;
          st_ret Checked
      | Ok false =>
          do! send_hdp_status PairingRejected 4;
          st_ret (Returned (Some (str_lit "pairing capacity")))
      | Err _ =>
          do! send_hdp_status PairingRejected 4;
          st_err ConnectionPersistence
      | Panic => st_lift Panic
      end
    else
      let! may_continue := on_relay (record_pairing_failure (en_clock env) peer) in
      if may_continue then do! send_hdp_status PairingRejected 3; st_ret Checked
      else do! send_hdp_status PairingRejected 4;
           st_ret (Returned (Some (str_lit "pairing budget exhausted"))).

Definition pairing_frame (env : PairingEnv) (peer : list byte) (frame : HdpFrame) : looping Iteration :=
  match hp_kind frame with
  | PairingStart => pairing_start env peer (hp_payload frame)
  | PairingSubmit => pairing_submit env peer (hp_payload frame)
  | HdpGoAway => st_ret (Returned None)
  | PairingAccepted | PairingRejected | ConnectionReady =>
      do! send_hdp_status PairingRejected 5; st_ret Again
  end.

(** The frame read wins over the timer when both are ready. *)
Definition read_timeout (control_timeout now : Z) (deadline : option Z) : Z :=
  match deadline with
  | Some deadline => Z.max 0 (deadline - now)
  | None => control_timeout
  end.

(** What one iteration waits for: the shutdown signal, or the next frame, [elapsed]
    after the iteration began at [now]. *)
Inductive PairingEvent : Type :=
| ShutDown
| FrameRead (now elapsed : Z) (frame : outcome HdpFrameError HdpFrame).

(** How the pairing loop ends, or that it goes on. *)
Inductive LoopEnd : Type :=
| Waiting
| Established
| Ended (close : option (list byte)).

Definition pairing_iteration (control_timeout : Z) (env : PairingEnv) (peer : list byte)
    (event : PairingEvent) : looping LoopEnd :=
  match event with
  | ShutDown => do! send_goaway; st_ret (Ended None)
  | FrameRead now elapsed frame =>
      let! p := st_get in
      if read_timeout control_timeout now (pl_deadline p) <? elapsed then st_err ConnectionTimeout else
      let! frame := st_lift (map_err (λ _, ConnectionProtocol) frame) in
      let! iteration := pairing_frame env peer frame in
      match iteration with
      | Again => st_ret Waiting
      | Returned close => st_ret (Ended close)
      | Checked =>
          let! p := st_get in
          st_ret (if pl_paired p then Established else Waiting)
      end
  end.

(** The inputs of an iteration; before it, the other connections left the shared state as
    [in_relay]. *)
Record PairingInput : Type := {
  in_relay : state;
  in_env : PairingEnv;
  in_event : PairingEvent;
}.

Fixpoint pairing_loop (control_timeout : Z) (peer : list byte) (inputs : list PairingInput)
  : looping LoopEnd :=
  match inputs with
  | [] => st_ret Waiting
  | input :: inputs =>
      do! st_modify (pl_set_relay (in_relay input));
      let! end_ := pairing_iteration control_timeout (in_env input) peer (in_event input) in
      match end_ with
      | Waiting => pairing_loop control_timeout peer inputs
      | _ => st_ret end_
      end
  end.

Definition pairing_begin (s : state) (peer : list byte) (writable : nat) : PairingLoop :=
  {| pl_relay := s; pl_paired := is_paired s peer; pl_started := false; pl_deadline := None;
     pl_writable := writable; pl_sent := []; pl_codes := [] |}.
End Pairing.

(** * Facts *)

Lemma st_bind_inv {S E A B} (m : stateful S E A) (f : A → stateful S E B) s s' r :
  st_bind m f s = (s', r) →
  (∃ a s1, m s = (s1, Ok a) ∧ f a s1 = (s', r))
  ∨ (∃ e, m s = (s', Err e) ∧ r = Err e) ∨ (m s = (s', Panic) ∧ r = Panic).
Proof.
  unfold st_bind. destruct (m s) as [s1 [a|e|]]; intros H; simplify_eq; [left|right; left|right; right]; eauto.
Qed.

(** ** The pairing loop *)
Section PairingFacts.
Context {St Fl : Type} {RS : RevisionStore St Fl}.
Context (pairings_to_vec : list PersistedPairingRelation → option (list byte)).
Local Abbreviation state := (@IrohRelayState St).
Local Abbreviation frame_step := (pairing_frame (Fl:=Fl) pairings_to_vec).

Implicit Types (p : @PairingLoop St) (env : @PairingEnv Fl).

Lemma send_status_spec kind reason p p' r :
  send_hdp_status kind reason p = (p', r) →
  pl_relay p' = pl_relay p ∧ pl_paired p' = pl_paired p ∧ pl_started p' = pl_started p
  ∧ pl_codes p' = pl_codes p
  ∧ (∀ u, r = Ok u → pl_sent p' = pl_sent p ++ [hdp_status kind reason]).
Proof.
  unfold send_hdp_status, send_hdp_frame. destruct (HdpFrame_encode _), (pl_writable p); intros [= <- <-]; done.
Qed.

(** Evaluate the head of a run until its outcome is known. *)
Ltac run_step :=
  match goal with
  | H : st_bind _ _ _ = (_, _) |- _ =>
      apply st_bind_inv in H as [(?&?&?&H)|[(?&?&?)|(?&?)]]; simplify_eq
  | H : send_hdp_status _ _ _ = (_, _) |- _ =>
      apply send_status_spec in H as (?&?&?&?&?)
  | H : st_ret _ _ = (_, _) |- _ => unfold st_ret in H; simplify_eq
  | H : st_get _ = (_, _) |- _ => unfold st_get in H; simplify_eq
  | H : st_err _ _ = (_, _) |- _ => unfold st_err in H; simplify_eq
  | H : st_lift _ _ = (_, _) |- _ => unfold st_lift in H; simplify_eq
  | H : st_modify _ _ = (_, _) |- _ => unfold st_modify in H; simplify_eq
  | H : on_relay _ _ = (_, _) |- _ =>
      unfold on_relay in H; destruct_run H
  end
with destruct_run H :=
  match type of H with (let '(_, _) := ?x in _) = _ => destruct x as [? ?] eqn:?; simplify_eq end.
Ltac run_frame H :=
  unfold pairing_frame, pairing_start, pairing_submit in H;
  repeat first [run_step | cases_in H]; simplify_eq/=;
  repeat match goal with E : ∀ u, Ok ?x = Ok u → _ |- _ => specialize (E x eq_refl) end.

Lemma frame_gate env peer frame p p' it :
  (pl_started p = true → pl_paired p = false) →
  frame_step env peer frame p = (p', Ok it) →
  (it ≠ Checked ∨ pl_paired p' = false →
     pl_paired p' = pl_paired p ∧ (pl_started p' = true → pl_paired p' = false))
  ∧ (it = Checked → pl_paired p' = true →
     pl_started p' = true
     ∧ (∃ sent, pl_sent p' = sent ++ [hdp_status PairingAccepted 0; hdp_status ConnectionReady 0])
     ∧ (pl_paired p = true
        ∨ hp_kind frame = PairingSubmit ∧ six_ascii_digits (hp_payload frame) = true
          ∧ en_verify env (hp_payload frame) = true
          ∧ mark_paired pairings_to_vec (en_faults env) (en_clock env) peer (pl_relay p)
            = (pl_relay p', Ok true))).
Proof.
  intros Hpre. intros H.
  destruct (pl_started p) eqn:Hs, (pl_paired p) eqn:Hp; try (by discriminate (Hpre eq_refl)); clear Hpre;
    run_frame H.
  all: (split; [intros Hor; try (destruct Hor; congruence); split; congruence|]).
  all: intros Hc Hpaired; try discriminate; simpl in *; bool_facts; try congruence;
    try match type of Hc with (if ?b then _ else _) = _ => by destruct b end.
  all: split_and!; [congruence| |try (by left); right; split_and!; congruence].
  all: lazymatch goal with
       | E2 : pl_sent ?p = pl_sent ?q ++ _, E1 : pl_sent ?q = ?l ++ _ |- ∃ _, pl_sent ?p = _ =>
           exists l; by rewrite E2, E1, <-app_assoc
       end.
Qed.

(** The failed codes counted against the peer. *)
Definition failures (s : state) (peer : list byte) : Z :=
  match ir_pairings s !! peer with Some r => pr_failed_attempts r | None => 0 end.

Lemma ensure_record_failures c peer (s s' : state) o :
  ensure_record c peer s = (s', o) →
  match o with
  | Some r => ir_pairings s' !! peer = Some r ∧ pr_failed_attempts r = failures s peer
  | None => True
  end.
Proof.
  unfold ensure_record, failures. destruct (ir_pairings s !! peer) as [r|] eqn:Hr.
  { by intros [= <- <-]. }
  destruct (_ <=? _); [by intros [= <- <-]|]. unfold new_pairing_record.
  destruct (next_attempt s) as [s1 [a|]]; [|by intros [= <- <-]].
  destruct (authority_timestamp c); intros [= <- <-]; try done.
  simpl. by rewrite lookup_insert_eq.
Qed.

Lemma reserve_failures c peer (s s' : state) :
  reserve_pairing_challenge c peer s = (s', true) → failures s' peer = 0.
Proof.
  unfold reserve_pairing_challenge. destruct (ensure_record c peer s) as [s1 [r|]]; [|done].
  destruct (pr_paired r); [done|]. set (r1 := if _ <=? _ then _ else _).
  destruct (_ <=? _); [done|]. intros [= <-]. unfold failures. simpl. by rewrite lookup_insert_eq.
Qed.

Lemma failure_failures c peer (s s' : state) :
  record_pairing_failure c peer s = (s', true) →
  failures s' peer = failures s peer + 1 ∧ failures s' peer < MAX_PAIRING_ATTEMPTS.
Proof.
  unfold record_pairing_failure. destruct (ensure_record c peer s) as [s1 o] eqn:He.
  pose proof (ensure_record_failures _ _ _ _ _ He) as Ho.
  destruct o as [r|]; [|done]. destruct Ho as [Hl Hf].
  destruct (_ <=? _); [done|]. intros [= <- Hlt]. bool_facts.
  unfold failures at 1 3. simpl. rewrite lookup_insert_eq. simpl. lia.
Qed.

(** What the loop keeps about the codes it gave to the verifier. *)
Definition budget_inv (peer : list byte) (p : @PairingLoop St) : Prop :=
  len (pl_codes p) < MAX_PAIRING_ATTEMPTS
  ∧ (pl_started p = false → pl_codes p = [])
  ∧ (pl_started p = true → len (pl_codes p) ≤ failures (pl_relay p) peer)
  ∧ Forall (λ code, six_ascii_digits code = true) (pl_codes p).

Lemma frame_codes env peer frame p p' r :
  frame_step env peer frame p = (p', r) →
  pl_codes p' = pl_codes p
  ∨ pl_codes p' = pl_codes p ++ [hp_payload frame] ∧ six_ascii_digits (hp_payload frame) = true
    ∧ pl_started p = true.
Proof.
  intros H. run_frame H.
  all: bool_facts; first [left; congruence | right; split_and!; congruence].
Qed.

Lemma frame_budget env peer frame p p' it :
  (pl_started p = true → pl_paired p = false) → budget_inv peer p →
  frame_step env peer frame p = (p', Ok it) → it = Again ∨ it = Checked ∧ pl_paired p' = false →
  (pl_codes p' = pl_codes p ∧ pl_started p' = pl_started p
     ∧ (pl_started p = true → failures (pl_relay p) peer ≤ failures (pl_relay p') peer))
  ∨ (pl_started p = false ∧ pl_codes p' = pl_codes p ∧ failures (pl_relay p') peer = 0)
  ∨ (pl_started p = true ∧ pl_started p' = true
     ∧ failures (pl_relay p') peer = failures (pl_relay p) peer + 1
     ∧ failures (pl_relay p') peer < MAX_PAIRING_ATTEMPTS).
Proof.
  intros Hpre (Hlt & Hns & Hs & Hsix) H Hit. run_frame H. 
  all: simpl in *; bool_facts.
  all: try (by destruct Hit as [?|[? ?]]).
  all: try (by destruct Hit as [?|[? ?]]; congruence).
  all: try (left; split_and!; [congruence|congruence|intros ?; try congruence];
    match goal with E : pl_relay _ = pl_relay _ |- _ => rewrite E; lia end).
  all: repeat match goal with
       | E : reserve_pairing_challenge _ _ _ = (_, ?b), Hb : ?b = true |- _ =>
           rewrite Hb in E; apply reserve_failures in E
       | E : record_pairing_failure _ _ _ = (_, true) |- _ => apply failure_failures in E as [? ?]
       | E : record_pairing_failure _ _ _ = (_, ?b) |- _ =>
           destruct b; [apply failure_failures in E as [? ?]|by destruct Hit as [?|[? ?]]]
       end.
  all: try (left; split_and!; congruence).
  all: try (right; left; split_and!; congruence).
  all: try (right; right; split_and!; congruence).
Qed.

Lemma budget_step env peer frame p p' it :
  (pl_started p = true → pl_paired p = false) → budget_inv peer p →
  frame_step env peer frame p = (p', Ok it) → it = Again ∨ it = Checked ∧ pl_paired p' = false →
  budget_inv peer p'.
Proof.
  intros Hpre Hinv H Hit. pose proof (frame_budget _ _ _ _ _ _ Hpre Hinv H Hit) as Hb.
  apply frame_codes in H. destruct Hinv as (Hlt & Hns & Hs & Hsix).
  destruct Hb as [(Hc & Hst & Hf)|[(Hst & Hc & Hf)|(Hst & Hst' & Hf & Hlt')]]; unfold budget_inv.
  - rewrite Hc, Hst. split_and!; try done. intros Ht. specialize (Hf Ht). specialize (Hs Ht). lia.
  - rewrite Hc, Hf, (Hns Hst). by split_and!.
  - specialize (Hs Hst). unfold len in *.
    destruct H as [->|(-> & Hp6 & _)]; rewrite ?length_app; simpl.
    + split_and!; [done|congruence|lia|done].
    + split_and!; [lia|congruence|lia|by apply Forall_app_2; [|constructor]].
Qed.
End PairingFacts.

Section LoopFacts.
Context {St Fl : Type} {RS : RevisionStore St Fl}.
Context (pairings_to_vec : list PersistedPairingRelation → option (list byte)).
Context (control_timeout : Z).
Local Abbreviation state := (@IrohRelayState St).
Local Abbreviation frame_step := (pairing_frame (Fl:=Fl) pairings_to_vec).
Local Abbreviation iteration_step := (pairing_iteration (Fl:=Fl) pairings_to_vec control_timeout).
Local Abbreviation loop := (pairing_loop (Fl:=Fl) pairings_to_vec control_timeout).
Implicit Types (p : @PairingLoop St) (env : @PairingEnv Fl) (input : @PairingInput St Fl).

(** An iteration is a pass through the frame handler, or it ends the loop and gives no
    code to the verifier. *)
Lemma iteration_inv env peer event p p' r :
  iteration_step env peer event p = (p', r) →
  (pl_codes p' = pl_codes p ∧ r ≠ Ok Waiting ∧ r ≠ Ok Established)
  ∨ ∃ now elapsed frame it, event = FrameRead now elapsed (Ok frame)
      ∧ frame_step env peer frame p = (p', it)
      ∧ (r = Ok Waiting → it = Ok Again ∨ it = Ok Checked ∧ pl_paired p' = false)
      ∧ (r = Ok Established → it = Ok Checked ∧ pl_paired p' = true).
Proof.
  intros H. destruct event as [|now elapsed frame]; simpl in H.
  - left. unfold send_goaway, st_bind, st_ret in H. simplify_eq.
    destruct (send_hdp_status HdpGoAway 0 p) as [p1 r1] eqn:Hs. by apply send_status_spec in Hs as (_ & _ & _ & ? & _).
  - unfold st_bind, st_get, st_lift, st_ret, st_err in H.
    destruct (_ <? _); [simplify_eq; by left|].
    destruct frame as [frame|e|]; simpl in H; [|simplify_eq; by left..].
    right. exists now, elapsed, frame. destruct (frame_step env peer frame p) as [p1 it] eqn:Hf.
    exists it. destruct it as [[| |close]|e|]; simplify_eq/=; split_and!; try done; try (by left).
    all: destruct (pl_paired p') eqn:?; try done; by right.
Qed.

(** No handler of another connection lowers the failure count of the peer while this
    one waits. *)
Fixpoint undisturbed (peer : list byte) (p : @PairingLoop St) (inputs : list (@PairingInput St Fl)) : Prop :=
  match inputs with
  | [] => True
  | input :: inputs =>
      failures (pl_relay p) peer ≤ failures (in_relay input) peer
      ∧ undisturbed peer
          (iteration_step (in_env input) peer (in_event input) (pl_set_relay (in_relay input) p)).1 inputs
  end.

Lemma budget_set_relay peer (s : state) p :
  failures (pl_relay p) peer ≤ failures s peer → budget_inv peer p → budget_inv peer (pl_set_relay s p).
Proof. intros Hf (? & ? & Hs & ?). split_and!; try done. intros Ht. specialize (Hs Ht). simpl. lia. Qed.

Lemma loop_cons peer input inputs p :
  loop peer (input :: inputs) p
  = match iteration_step (in_env input) peer (in_event input) (pl_set_relay (in_relay input) p) with
    | (p1, Ok Waiting) => loop peer inputs p1
    | (p1, r) => (p1, r)
    end.
Proof.
  simpl. unfold st_bind, st_modify, st_ret.
  destruct (pairing_iteration _ _ _ _ _ _) as [p1 [[]|e|]]; done.
Qed.

Lemma frame_started env peer frame p p' it :
  (pl_started p = true → pl_paired p = false) → frame_step env peer frame p = (p', Ok it) →
  it = Again ∨ it = Checked ∧ pl_paired p' = false →
  pl_paired p' = pl_paired p ∧ (pl_started p' = true → pl_paired p' = false).
Proof.
  intros Hpre H Hit. apply (frame_gate _ _ _ _ _ _ _ Hpre) in H as [H _]. apply H.
  destruct Hit as [->|[-> ?]]; [by left|by right].
Qed.

Lemma loop_budget peer inputs p p' r :
  (pl_started p = true → pl_paired p = false) → budget_inv peer p → undisturbed peer p inputs →
  loop peer inputs p = (p', r) →
  len (pl_codes p') ≤ MAX_PAIRING_ATTEMPTS
  ∧ Forall (λ code, six_ascii_digits code = true) (pl_codes p').
Proof.
  revert p. induction inputs as [|input inputs IH]; intros p Hpre Hinv Hun.
  { simpl. intros [= <- <-]. destruct Hinv as (? & _ & _ & ?). split; [lia|done]. }
  destruct Hun as [Hf Hun]. rewrite loop_cons. apply (budget_set_relay _ _ _ Hf) in Hinv.
  destruct (pairing_iteration _ _ _ _ _ _) as [p1 r1] eqn:Hit. simpl in Hun.
  apply iteration_inv in Hit as [(Hc & Hw & _)|(now & el & frame & it & _ & Hfr & Hw & _)].
  - intros H. assert (p' = p1) as ->
      by (destruct r1 as [[]|e|]; simplify_eq; done).
    rewrite Hc. destruct Hinv as (? & _ & _ & ?). split; [lia|done].
  - assert (Hend : len (pl_codes p1) ≤ MAX_PAIRING_ATTEMPTS
      ∧ Forall (λ code, six_ascii_digits code = true) (pl_codes p1)).
    { destruct Hinv as (Hlt & _ & _ & H6). apply frame_codes in Hfr as [->|(-> & Hp6 & _)];
        simpl in *; [split; [lia|done]|].
      split; [unfold len in *; rewrite length_app; simpl; lia|by apply Forall_app_2; [|constructor]]. }
    destruct r1 as [[]|e|]; try (by intros [= <- <-]).
    destruct it as [it|e|]; [|by destruct (Hw eq_refl) as [?|[? _]]..].
    assert (Hw' : it = Again ∨ it = Checked ∧ pl_paired p1 = false)
      by (destruct (Hw eq_refl) as [[=]|[[=] ?]]; auto).
    set (q := pl_set_relay (in_relay input) p) in *. change (pl_started q = true → pl_paired q = false) in Hpre.
    apply IH; [apply (frame_started _ _ _ _ _ _ Hpre Hfr Hw')|by eapply (budget_step pairings_to_vec)|done].
Qed.

(** This input carries the code that paired the peer. *)
Definition pairing_input (peer : list byte) (p' : @PairingLoop St) input : Prop :=
  ∃ now elapsed frame, in_event input = FrameRead now elapsed (Ok frame)
    ∧ hp_kind frame = PairingSubmit ∧ six_ascii_digits (hp_payload frame) = true
    ∧ en_verify (in_env input) (hp_payload frame) = true
    ∧ mark_paired pairings_to_vec (en_faults (in_env input)) (en_clock (in_env input)) peer
        (in_relay input) = (pl_relay p', Ok true).

Lemma loop_gate peer inputs p p' :
  (pl_started p = true → pl_paired p = false) → loop peer inputs p = (p', Ok Established) →
  pl_started p' = true
  ∧ (∃ sent, pl_sent p' = sent ++ [hdp_status PairingAccepted 0; hdp_status ConnectionReady 0])
  ∧ (pl_paired p = true ∨ ∃ input, input ∈ inputs ∧ pairing_input peer p' input).
Proof.
  revert p. induction inputs as [|input inputs IH]; intros p Hpre; [by simpl|].
  rewrite loop_cons. set (q := pl_set_relay (in_relay input) p) in *.
  change (pl_started q = true → pl_paired q = false) in Hpre.
  destruct (pairing_iteration _ _ _ _ _ _) as [p1 r1] eqn:Hit.
  apply iteration_inv in Hit as [(_ & Hw & He)|(now & el & frame & it & Hev & Hfr & Hw & He)];
    destruct r1 as [[]|e|]; try done.
  - destruct it as [it|e|]; [|by destruct (Hw eq_refl) as [?|[? _]]..].
    assert (Hw' : it = Again ∨ it = Checked ∧ pl_paired p1 = false)
      by (destruct (Hw eq_refl) as [[=]|[[=] ?]]; auto).
    destruct (frame_started _ _ _ _ _ _ Hpre Hfr Hw') as [Hp1 Hpre1]. intros H.
    destruct (IH _ Hpre1 H) as (? & ? & Hor). split_and!; [done..|]. rewrite Hp1 in Hor.
    destruct Hor as [?|(i & ? & ?)]; [by left|right]. exists i. split; [by right|done].
  - intros [= <-]. destruct (He eq_refl) as [-> Hp1].
    destruct (frame_gate _ _ _ _ _ _ _ Hpre Hfr) as [_ H].
    destruct (H eq_refl Hp1) as (? & ? & Hor). split_and!; [done..|].
    destruct Hor as [?|(? & ? & ? & ?)]; [by left|right]. exists input. split; [by left|].
    by exists now, el, frame.
Qed.

Lemma mark_paired_true (f : Fl) c peer (s s' : state) :
  mark_paired pairings_to_vec f c peer s = (s', Ok true) → is_paired s' peer = true.
Proof.
  unfold mark_paired. destruct (_ && _); [done|].
  destruct (pr_paired _) eqn:Hp.
  { intros [= <-]. unfold is_paired. by destruct (ir_pairings s !! peer). }
  destruct (if _ =? 0 then _ else _) as [g|?|]; [|by destruct (authority_timestamp c)..].
  destruct (authority_timestamp c) as [u|?|]; [|done..].
  destruct (next_attempt s) as [s1 [a|]]; [|done].
  destruct (commit_pairings _ _ _ _) as [s2 [n|?|]]; [|done..].
  intros [= <-]. unfold is_paired. simpl. by rewrite lookup_insert_eq.
Qed.

Lemma pairing_begin_started (s : state) peer n :
  pl_started (pairing_begin s peer n) = true → pl_paired (pairing_begin s peer n) = false.
Proof. done. Qed.

Lemma pairing_begin_budget (s : state) peer n : budget_inv peer (pairing_begin s peer n).
Proof. by split_and!. Qed.
End LoopFacts.

(** * Properties *)

Definition demo_env (accept : bool) : @PairingEnv MemoryFaults :=
  {| en_begin := true; en_verify := λ _, accept; en_deadline := Some 300;
     en_clock := demo_clock; en_faults := memory_ok |}.
Definition demo_input (accept : bool) (s : @IrohRelayState MemoryStore) (kind : HdpKind)
    (payload : list byte) : @PairingInput MemoryStore MemoryFaults :=
  {| in_relay := s; in_env := demo_env accept;
     in_event := FrameRead 0 1 (Ok {| hp_kind := kind; hp_payload := payload |}) |}.
Definition demo_submits (accept : bool) : list (@PairingInput MemoryStore MemoryFaults) :=
  [demo_input accept demo_state PairingStart []; demo_input accept demo_state PairingSubmit (str_lit "123456")].
Definition demo_loop (accept : bool) :=
  pairing_loop (Fl := MemoryFaults) demo_to_vec 5 demo_peer (demo_submits accept)
    (pairing_begin demo_state demo_peer 10).

(** A connection enters the session phase only for a paired peer: it was paired when
    the loop began, or one of the frames was a submission of six digits that the verifier
    accepted and that [mark_paired] then recorded, and the peer is paired in the state the
    loop leaves.  Either way the peer had started a pairing exchange and the last two
    frames it got are PairingAccepted and ConnectionReady. *)
Lemma pairing_gate {St Fl : Type} `{!RevisionStore St Fl} pairings_to_vec control_timeout
    (s : @IrohRelayState St) peer writable (inputs : list (@PairingInput St Fl)) p' :
  pairing_loop pairings_to_vec control_timeout peer inputs (pairing_begin s peer writable)
    = (p', Ok Established) →
  pl_started p' = true
  ∧ (∃ sent, pl_sent p' = sent ++ [hdp_status PairingAccepted 0; hdp_status ConnectionReady 0])
  ∧ (is_paired s peer = true
     ∨ is_paired (pl_relay p') peer = true
       ∧ ∃ input now elapsed code, input ∈ inputs
         ∧ in_event input = FrameRead now elapsed (Ok {| hp_kind := PairingSubmit; hp_payload := code |})
         ∧ six_ascii_digits code = true ∧ en_verify (in_env input) code = true
         ∧ mark_paired pairings_to_vec (en_faults (in_env input)) (en_clock (in_env input)) peer
             (in_relay input) = (pl_relay p', Ok true)).
Proof.
  intros H. apply loop_gate in H as (? & ? & Hor); [|apply pairing_begin_started]. split_and!; [done..|].
  destruct Hor as [?|(i & Hi & now & el & [k code] & Hev & Hk & H6 & Hv & Hm)]; [by left|right].
  simpl in Hk. subst k. split; [by eapply mark_paired_true|]. by exists i, now, el, code.
Qed.

(** As long as no other handler lowers the failure count of its peer, one connection
    gives the verifier at most [MAX_PAIRING_ATTEMPTS] codes, each of six ASCII digits,
    whatever frames arrive, whatever the verifier answers and however the loop ends. *)
Lemma pairing_attempts_bounded {St Fl : Type} `{!RevisionStore St Fl} pairings_to_vec control_timeout
    (s : @IrohRelayState St) peer writable (inputs : list (@PairingInput St Fl)) p' r :
  undisturbed pairings_to_vec control_timeout peer (pairing_begin s peer writable) inputs →
  pairing_loop pairings_to_vec control_timeout peer inputs (pairing_begin s peer writable) = (p', r) →
  len (pl_codes p') ≤ MAX_PAIRING_ATTEMPTS
  ∧ Forall (λ code, six_ascii_digits code = true) (pl_codes p').
Proof.
  intros Hun H. eapply loop_budget; [apply pairing_begin_started|apply pairing_begin_budget|exact Hun|exact H].
Qed.

(** C10. A connection enters the session phase only for a paired peer: it was paired when
    the loop began, or one of the frames was a submission of six digits that the verifier
    accepted and that [mark_paired] then recorded, and the peer is paired in the state the
    loop leaves; either way the peer had started a pairing exchange and the last two frames
    it got are PairingAccepted and ConnectionReady.  As long as no other handler lowers the
    failure count of its peer, one connection gives the verifier at most
    [MAX_PAIRING_ATTEMPTS] codes, each of six ASCII digits, however the loop ends. *)
Theorem pairing_gated_and_bounded {St Fl : Type} `{!RevisionStore St Fl} pairings_to_vec control_timeout
    (s : @IrohRelayState St) peer writable (inputs : list (@PairingInput St Fl)) p' r :
  pairing_loop pairings_to_vec control_timeout peer inputs (pairing_begin s peer writable) = (p', r) →
  (r = Ok Established →
   pl_started p' = true
   ∧ (∃ sent, pl_sent p' = sent ++ [hdp_status PairingAccepted 0; hdp_status ConnectionReady 0])
   ∧ (is_paired s peer = true
      ∨ is_paired (pl_relay p') peer = true
        ∧ ∃ input now elapsed code, input ∈ inputs
          ∧ in_event input = FrameRead now elapsed (Ok {| hp_kind := PairingSubmit; hp_payload := code |})
          ∧ six_ascii_digits code = true ∧ en_verify (in_env input) code = true
          ∧ mark_paired pairings_to_vec (en_faults (in_env input)) (en_clock (in_env input)) peer
              (in_relay input) = (pl_relay p', Ok true)))
  ∧ (undisturbed pairings_to_vec control_timeout peer (pairing_begin s peer writable) inputs →
     len (pl_codes p') ≤ MAX_PAIRING_ATTEMPTS
     ∧ Forall (λ code, six_ascii_digits code = true) (pl_codes p')).
Proof.
  intros H. split.
  - intros ->. by eapply pairing_gate.
  - intros Hun. by eapply pairing_attempts_bounded.
Qed.

Lemma pairing_gated_and_bounded_witness :
  (demo_loop true = ((demo_loop true).1, Ok Established) ∧ is_paired (pl_relay (demo_loop true).1) demo_peer = true)
  ∧ (pl_codes (demo_loop false).1 = [str_lit "123456"] ∧ len (pl_codes (demo_loop false).1) ≤ MAX_PAIRING_ATTEMPTS).
Proof.
  assert (H : demo_loop true = ((demo_loop true).1, Ok Established))
    by (apply run_outcome; vm_compute; reflexivity).
  split; [split; [exact H|]|split; [vm_compute; reflexivity|]].
  - destruct (pairing_gated_and_bounded demo_to_vec 5 demo_state demo_peer 10 (demo_submits true) _ _ H) as [Hg _].
    destruct (Hg eq_refl) as (_ & _ & [Hp|[Hp _]]); [by vm_compute in Hp|exact Hp].
  - apply (pairing_gated_and_bounded demo_to_vec 5 demo_state demo_peer 10 (demo_submits false)
             (demo_loop false).1 (demo_loop false).2).
    + apply surjective_pairing.
    + repeat split; vm_compute; discriminate.
Defined.
