(* ===== verification/SessionStreams.v ===== *)
(** * The session phase of a connection (src/src/iroh_endpoint.rs, run_paired_connection,
    handle_hdqm_frame, run_session_stream)

    The control loop, the stream tasks and the bridges of one connection share the session
    registry and the map of cancel senders; each runs from one await point to the next
    without interruption, and the stretches interleave in every order.  A stream task is a
    constructor of [StreamTask] per await point.  A bridge is told to stop when its sender
    leaves the map: sending and dropping both resolve the receiver. *)
From S2P Require Export IrohConnection SessionOwners.

Inductive StreamTask : Type :=
| StreamReading
| StreamConnecting (binding : HdqsBinding) (accepted : HdqsResponse)
| StreamBridging (binding : HdqsBinding).

(** [pc_max]: the slots of [session_slots]; [pc_controls]: the task whose receiver a
    handle's sender resolves; [pc_writable]: control frames the peer still takes;
    [pc_replies]: the responses handed to the writers of the streams.
    [pc_tokens] and [pc_lost] only record the tokens drawn so far and the bindings whose
    accepting response could not be written. *)
Record PairedConnection : Type := {
  pc_registry : SessionRegistry;
  pc_max : Z;
  pc_controls : gmap Z nat;
  pc_tasks : gmap nat StreamTask;
  pc_next : nat;
  pc_writable : nat;
  pc_sent : list HdqmFrame;
  pc_replies : list (nat * HdqsResponse);
  pc_tokens : list (list byte);
  pc_lost : list HdqsBinding;
}.

Definition pc_set_registry (r : SessionRegistry) (c : PairedConnection) : PairedConnection :=
  {| pc_registry := r; pc_max := pc_max c; pc_controls := pc_controls c; pc_tasks := pc_tasks c;
     pc_next := pc_next c; pc_writable := pc_writable c; pc_sent := pc_sent c;
     pc_replies := pc_replies c; pc_tokens := pc_tokens c; pc_lost := pc_lost c |}.
Definition pc_set_controls (m : gmap Z nat) (c : PairedConnection) : PairedConnection :=
  {| pc_registry := pc_registry c; pc_max := pc_max c; pc_controls := m; pc_tasks := pc_tasks c;
     pc_next := pc_next c; pc_writable := pc_writable c; pc_sent := pc_sent c;
     pc_replies := pc_replies c; pc_tokens := pc_tokens c; pc_lost := pc_lost c |}.
Definition pc_set_tasks (t : gmap nat StreamTask) (c : PairedConnection) : PairedConnection :=
  {| pc_registry := pc_registry c; pc_max := pc_max c; pc_controls := pc_controls c; pc_tasks := t;
     pc_next := pc_next c; pc_writable := pc_writable c; pc_sent := pc_sent c;
     pc_replies := pc_replies c; pc_tokens := pc_tokens c; pc_lost := pc_lost c |}.
Definition pc_spawn (t : StreamTask) (c : PairedConnection) : PairedConnection :=
  {| pc_registry := pc_registry c; pc_max := pc_max c; pc_controls := pc_controls c;
     pc_tasks := <[pc_next c := t]> (pc_tasks c); pc_next := S (pc_next c);
     pc_writable := pc_writable c; pc_sent := pc_sent c; pc_replies := pc_replies c;
     pc_tokens := pc_tokens c; pc_lost := pc_lost c |}.
Definition pc_send (writable : nat) (frame : HdqmFrame) (c : PairedConnection) : PairedConnection :=
  {| pc_registry := pc_registry c; pc_max := pc_max c; pc_controls := pc_controls c;
     pc_tasks := pc_tasks c; pc_next := pc_next c; pc_writable := writable;
     pc_sent := pc_sent c ++ [frame]; pc_replies := pc_replies c;
     pc_tokens := pc_tokens c; pc_lost := pc_lost c |}.
Definition pc_reply (id : nat) (response : HdqsResponse) (c : PairedConnection) : PairedConnection :=
  {| pc_registry := pc_registry c; pc_max := pc_max c; pc_controls := pc_controls c;
     pc_tasks := pc_tasks c; pc_next := pc_next c; pc_writable := pc_writable c;
     pc_sent := pc_sent c; pc_replies := pc_replies c ++ [(id, response)];
     pc_tokens := pc_tokens c; pc_lost := pc_lost c |}.
Definition pc_draw (token : list byte) (c : PairedConnection) : PairedConnection :=
  {| pc_registry := pc_registry c; pc_max := pc_max c; pc_controls := pc_controls c;
     pc_tasks := pc_tasks c; pc_next := pc_next c; pc_writable := pc_writable c;
     pc_sent := pc_sent c; pc_replies := pc_replies c;
     pc_tokens := token :: pc_tokens c; pc_lost := pc_lost c |}.
Definition pc_lose (binding : HdqsBinding) (c : PairedConnection) : PairedConnection :=
  {| pc_registry := pc_registry c; pc_max := pc_max c; pc_controls := pc_controls c;
     pc_tasks := pc_tasks c; pc_next := pc_next c; pc_writable := pc_writable c;
     pc_sent := pc_sent c; pc_replies := pc_replies c;
     pc_tokens := pc_tokens c; pc_lost := binding :: pc_lost c |}.
Definition pc_end (id : nat) (c : PairedConnection) : PairedConnection :=
  pc_set_tasks (delete id (pc_tasks c)) c.

(** The registry and the maps of [run_paired_connection] before its loop. *)
Definition paired_connection (config : IrohRelayConfig) (connection_generation : Z) (writable : nat)
    : outcome IrohConnectionError PairedConnection :=
  (λ registry, {| pc_registry := registry; pc_max := ic_max_sessions_per_connection config;
                  pc_controls := ∅; pc_tasks := ∅; pc_next := 0%nat; pc_writable := writable;
                  pc_sent := []; pc_replies := []; pc_tokens := []; pc_lost := [] |})
    <$> map_err (λ _, ConnectionProtocol)
          (SessionRegistry_new (ic_relay_generation config) connection_generation
             (ic_max_sessions_per_connection config)).

Section Handlers.
Local Open Scope relay_scope.
Abbreviation controlling := (stateful PairedConnection IrohConnectionError).

Definition send_hdqm_frame (frame : HdqmFrame) : controlling unit := λ c,
  match HdqmFrame_encode frame with
  | Ok bytes =>
      if HDP1_MAX_FRAME_BYTES <? len bytes then (c, Err ConnectionProtocol) else
      match pc_writable c with
      | O => (c, Err ConnectionIo)
      | S n => (pc_send n frame c, Ok tt)
      end
  | Err _ => (c, Err ConnectionProtocol)
  | Panic => (c, Panic)
  end.

Definition on_registry {A} (f : SessionRegistry → SessionRegistry * A) : controlling A := λ c,
  let '(r, a) := f (pc_registry c) in (pc_set_registry r c, Ok a).

Definition or_protocol {E A} (m : outcome E A) : controlling A :=
  st_lift (map_err (λ _, ConnectionProtocol) m).

(** What the random source and the clock give while one frame is handled. *)
Record HdqmEnv : Type := {
  he_fingerprint : list byte;
  he_token : list byte;
  he_reap_now : Z;
  he_now : Z;
}.

Definition reply_frame (kind : HdqmKind) (request payload : list byte) : HdqmFrame :=
  {| hf_kind := kind; hf_request_id := request; hf_payload := payload |}.

Definition handle_prepare (env : HdqmEnv) (frame : HdqmFrame) : controlling bool :=
  let! request := or_protocol (SessionPrepareRequest_decode (hf_payload frame)) in
  let fingerprint :=
    if bool_decide (spr_expected_fingerprint request = zeros 32)
    then he_fingerprint env else spr_expected_fingerprint request in
  do! st_modify (pc_draw (he_token env));
  do! st_modify (λ c, pc_set_registry (reap_expired_prepared (pc_registry c) (he_reap_now env)).1 c);
  let! prepared := on_registry (λ r,
    prepare_at r (he_now env) (spr_session request) fingerprint
      (spr_configuration_generation request) (he_token env)) in
  let! prepared := or_protocol prepared in
  let! payload := or_protocol (SessionPrepareAck_encode
    {| spa_session := ps_session prepared; spa_fingerprint := ps_fingerprint prepared;
       spa_configuration_generation := ps_configuration_generation prepared;
       spa_relay_generation := ps_relay_generation prepared;
       spa_connection_epoch := ps_connection_epoch prepared;
       spa_token := ps_token prepared; spa_token_ttl_secs := ps_token_ttl_secs prepared |}) in
  do! send_hdqm_frame (reply_frame SessionPrepareAckKind (hf_request_id frame) payload);
  st_ret false.

Definition open_ack (active : ActiveSession) : SessionOpenAck :=
  let prepared := as_prepared active in
  {| soa_session_handle := as_handle active; soa_session := ps_session prepared;
     soa_fingerprint := ps_fingerprint prepared;
     soa_configuration_generation := ps_configuration_generation prepared;
     soa_relay_generation := ps_relay_generation prepared;
     soa_connection_epoch := ps_connection_epoch prepared; soa_token := ps_token prepared |}.

Definition handle_open (env : HdqmEnv) (frame : HdqmFrame) : controlling bool :=
  let! request := or_protocol (SessionOpenRequest_decode (hf_payload frame)) in
  let! opened := on_registry (λ r, open_request r (he_now env) request) in
  match opened with
  | (response, None) =>
      let! payload := or_protocol (HdqsResponse_encode response) in
      do! send_hdqm_frame (reply_frame ErrorResponse (hf_request_id frame) payload);
      st_ret false
  | (_, Some active) =>
      let! payload := or_protocol (SessionOpenAck_encode (open_ack active)) in
      do! send_hdqm_frame (reply_frame SessionOpened (hf_request_id frame) payload);
      st_ret false
  end.

Definition handle_close (frame : HdqmFrame) : controlling bool :=
  if negb (len (hf_payload frame) =? 2) then st_err ConnectionProtocol else
  let! handle := st_lift (index_u16 (hf_payload frame) 0) in
  let! _ := on_registry (λ r, close r handle) in
  do! st_modify (λ c, pc_set_controls (delete handle (pc_controls c)) c);
  do! send_hdqm_frame (reply_frame SessionClosed (hf_request_id frame) []);
  st_ret false.

(** [true]: the control loop stops. *)
Definition handle_hdqm_frame (env : HdqmEnv) (frame : HdqmFrame) : controlling bool :=
  match hf_kind frame with
  | SessionPrepare => handle_prepare env frame
  | SessionOpen => handle_open env frame
  | SessionClose => handle_close frame
  | Heartbeat => do! send_hdqm_frame (reply_frame Heartbeat (hf_request_id frame) []); st_ret false
  | GoAway => st_ret true
  | _ => do! send_hdqm_frame (reply_frame ErrorResponse (hf_request_id frame) []); st_ret false
  end.
End Handlers.

(** ** Streams *)

(** A session stream arrives: a task when a slot is free, a rejection otherwise. *)
Definition accept_stream (c : PairedConnection) : PairedConnection :=
  if map_len (pc_tasks c) <? pc_max c then pc_spawn StreamReading c
  else pc_reply (pc_next c)
         (HdqsResponse_rejected CapacityExhausted (sr_connection_epoch (pc_registry c))) c.

(** [run_session_stream] after the binding is read. *)
Definition stream_bind (id : nat) (binding : HdqsBinding) (now : Z) (c : PairedConnection) : PairedConnection :=
  let '(registry, accepted) := accept_active (pc_registry c) now binding in
  let c := pc_set_registry registry c in
  if bool_decide (hr_kind accepted = Accepted)
  then pc_set_tasks (<[id := StreamConnecting binding accepted]> (pc_tasks c)) c
  else pc_reply id accepted (pc_end id c).

Definition close_binding (binding : HdqsBinding) (c : PairedConnection) : PairedConnection :=
  pc_set_registry (close_exact (pc_registry c) binding).1 c.

(** There is no connector, or the socket is not valid or not there. *)
Definition stream_unavailable (id : nat) (binding : HdqsBinding) (c : PairedConnection) : PairedConnection :=
  let c := close_binding binding c in
  pc_reply id (HdqsResponse_rejected SocketUnavailable (sr_connection_epoch (pc_registry c))) (pc_end id c).

(** The socket is connected; [written]: the stream takes the accepting response. *)
Definition stream_connected (id : nat) (binding : HdqsBinding) (accepted : HdqsResponse) (written : bool)
    (c : PairedConnection) : PairedConnection :=
  let handle := hb_session_handle binding in
  let previous := pc_controls c !! handle in
  let c := pc_set_controls (<[handle := id]> (pc_controls c)) c in
  match previous with
  | Some _ => pc_end id (close_binding binding c)
  | None =>
      if written
      then pc_reply id accepted (pc_set_tasks (<[id := StreamBridging binding]> (pc_tasks c)) c)
      else pc_lose binding (pc_end id c)
  end.

(** The bridge ended or its receiver resolved. *)
Definition stream_finished (id : nat) (binding : HdqsBinding) (c : PairedConnection) : PairedConnection :=
  let c := close_binding binding c in
  pc_end id (pc_set_controls (delete (hb_session_handle binding) (pc_controls c)) c).

(** The end of [run_paired_connection]. *)
Definition tear_down (c : PairedConnection) : PairedConnection :=
  pc_set_registry (invalidate_connection (pc_registry c)) (pc_set_tasks ∅ (pc_set_controls ∅ c)).

(** The bridge of task [id] has been told to stop. *)
Definition told_to_stop (c : PairedConnection) (id : nat) (binding : HdqsBinding) : Prop :=
  pc_controls c !! hb_session_handle binding ≠ Some id.

(** A token is drawn from 32 random bytes: it never is one drawn before. *)
Inductive session_step : PairedConnection → PairedConnection → Prop :=
| step_control c env frame c' :
    (hf_kind frame = SessionPrepare → he_token env ∉ pc_tokens c) →
    handle_hdqm_frame env frame c = (c', Ok false) → session_step c c'
| step_incoming c : session_step c (accept_stream c)
| step_bind c id binding now :
    pc_tasks c !! id = Some StreamReading → HdqsBinding_valid binding →
    session_step c (stream_bind id binding now c)
| step_unread c id : pc_tasks c !! id = Some StreamReading → session_step c (pc_end id c)
| step_unavailable c id binding accepted :
    pc_tasks c !! id = Some (StreamConnecting binding accepted) →
    session_step c (stream_unavailable id binding c)
| step_connected c id binding accepted written :
    pc_tasks c !! id = Some (StreamConnecting binding accepted) →
    session_step c (stream_connected id binding accepted written c)
| step_finished c id binding :
    pc_tasks c !! id = Some (StreamBridging binding) → session_step c (stream_finished id binding c).

(** * Facts *)

(** A task that stands for a bound session. *)
Definition serving (t : StreamTask) : option HdqsBinding :=
  match t with
  | StreamReading => None
  | StreamConnecting binding _ | StreamBridging binding => Some binding
  end.

(** The sessions of the tasks and of the registry fit together. *)
Record streams_wf (c : PairedConnection) : Prop := {
  sw_sessions : sessions_owned (pc_registry c) (owners_of serving (pc_tasks c)) (pc_tokens c) (pc_lost c);
  sw_slots : map_len (pc_tasks c) ≤ pc_max c;
  sw_max : sr_max_sessions (pc_registry c) = pc_max c;
  sw_fresh : ∀ id t, pc_tasks c !! id = Some t → (id < pc_next c)%nat;
}.

Lemma map_len_delete_bound {K A} `{Countable K} (m : gmap K A) k n :
  map_len m ≤ n → map_len (delete k m) ≤ n.
Proof. intros. etrans; [apply map_len_delete_le|done]. Qed.

(** Changes of the control map and of what was sent are not visible. *)
Lemma streams_wf_same c c' :
  streams_wf c → pc_registry c' = pc_registry c → pc_max c' = pc_max c → pc_tasks c' = pc_tasks c →
  pc_next c' = pc_next c → pc_tokens c' = pc_tokens c → pc_lost c' = pc_lost c → streams_wf c'.
Proof. intros [] Hr Hm Ht Hn Htok Hl. split; rewrite ?Hr, ?Hm, ?Ht, ?Hn, ?Htok, ?Hl; done. Qed.

(** A task ends. *)
Lemma streams_wf_end c id r lost :
  streams_wf c → sr_max_sessions r = sr_max_sessions (pc_registry c) →
  sessions_owned r (delete id (owners_of serving (pc_tasks c))) (pc_tokens c) lost →
  ∀ c', pc_registry c' = r → pc_max c' = pc_max c → pc_tasks c' = delete id (pc_tasks c) →
    pc_next c' = pc_next c → pc_tokens c' = pc_tokens c → pc_lost c' = lost → streams_wf c'.
Proof.
  intros [] Hr Hso c' <- Hm Ht Hn Htok <-.
  split; rewrite ?Hm, ?Ht, ?Hn, ?Htok, ?owners_of_delete; [done|by apply map_len_delete_bound|congruence|].
  intros id' t [_ H]%lookup_delete_Some. by eapply sw_fresh0.
Qed.

(** A task goes on. *)
Lemma streams_wf_go_on c id t0 t r :
  streams_wf c → pc_tasks c !! id = Some t0 → sr_max_sessions r = sr_max_sessions (pc_registry c) →
  sessions_owned r (owners_of serving (<[id := t]> (pc_tasks c))) (pc_tokens c) (pc_lost c) →
  ∀ c', pc_registry c' = r → pc_max c' = pc_max c → pc_tasks c' = <[id := t]> (pc_tasks c) →
    pc_next c' = pc_next c → pc_tokens c' = pc_tokens c → pc_lost c' = pc_lost c → streams_wf c'.
Proof.
  intros [] Hid Hr Hso c' <- Hm Ht Hn Htok Hl.
  split; rewrite ?Hm, ?Ht, ?Hn, ?Htok, ?Hl; [done|by rewrite map_len_insert_eq by eauto|congruence|].
  intros id' t' [[<- _]|[_ H]]%lookup_insert_Some; by eapply sw_fresh0.
Qed.

(** A task ends after closing what it served. *)
Lemma streams_wf_close c id b t :
  streams_wf c → pc_tasks c !! id = Some t → serving t = Some b →
  streams_wf (pc_end id (close_binding b c)).
Proof.
  intros Hwf Hid Hb. destruct (close_exact_spec (pc_registry c) b) as (Hp & Hm & Ha).
  eapply (streams_wf_end c id); [done|exact Hm| |done..].
  apply (sessions_owned_release (pc_registry c) _ _ _ _ id b); [apply Hwf| |apply owners_of_Some; eauto|done|apply Ha].
  apply (run_op_wf _ (OpCloseExact b)), Hwf.
Qed.

Lemma stream_unavailable_wf c id b acc :
  streams_wf c → pc_tasks c !! id = Some (StreamConnecting b acc) → streams_wf (stream_unavailable id b c).
Proof.
  intros Hwf Hid. eapply streams_wf_same; [eapply (streams_wf_close c id b); [done|exact Hid|done]|done..].
Qed.

Lemma stream_finished_wf c id b :
  streams_wf c → pc_tasks c !! id = Some (StreamBridging b) → streams_wf (stream_finished id b c).
Proof.
  intros Hwf Hid. eapply streams_wf_same; [eapply (streams_wf_close c id b); [done|exact Hid|done]|done..].
Qed.

Lemma stream_connected_wf c id b acc w :
  streams_wf c → pc_tasks c !! id = Some (StreamConnecting b acc) → streams_wf (stream_connected id b acc w c).
Proof.
  intros Hwf Hid. unfold stream_connected. destruct (pc_controls c !! _).
  { eapply streams_wf_same; [eapply (streams_wf_close c id b); [done|exact Hid|done]|done..]. }
  destruct w.
  - eapply (streams_wf_go_on c id); [done|exact Hid|done| |done..].
    erewrite owners_of_keep; [apply Hwf|exact Hid|done].
  - eapply (streams_wf_end c id); [done|done| |done..].
    apply sessions_owned_lose; [apply Hwf|apply owners_of_Some; eauto].
Qed.

Lemma accept_stream_wf c : streams_wf c → streams_wf (accept_stream c).
Proof.
  intros Hwf. unfold accept_stream. destruct (_ <? _) eqn:Hlt; [|by eapply streams_wf_same].
  bool_facts. pose proof Hwf as [].
  assert (Hfresh : pc_tasks c !! pc_next c = None).
  { destruct (pc_tasks c !! pc_next c) eqn:H; [|done]. apply sw_fresh0 in H. lia. }
  split; simpl; [|rewrite map_len_insert_new by done; lia|done|].
  - rewrite owners_of_idle, delete_id; [done| |done].
    apply eq_None_not_Some. intros [b (t & ? & ?)%owners_of_Some]. congruence.
  - intros id t [[<- _]|[_ H]]%lookup_insert_Some; [lia|]. apply sw_fresh0 in H. lia.
Qed.

Lemma pc_end_reading_wf c id : streams_wf c → pc_tasks c !! id = Some StreamReading → streams_wf (pc_end id c).
Proof.
  intros Hwf Hid. eapply (streams_wf_end c id); [done|done| |done..].
  erewrite owners_of_lazy; [apply Hwf|exact Hid|done].
Qed.

(** ** Binding a stream *)
Lemma streams_wf_bind c id b now :
  streams_wf c → pc_tasks c !! id = Some StreamReading → streams_wf (stream_bind id b now c).
Proof.
  intros Hwf Hid. unfold stream_bind.
  pose proof (run_op_wf _ (OpAccept now b) (so_registry _ _ _ _ (sw_sessions _ Hwf))) as Hreg. simpl in Hreg.
  destruct (accept_active (pc_registry c) now b) as [r' resp] eqn:Hacc.
  apply accept_active_cases in Hacc as [[Hk ->]|(a & Ha & Hub & Hx & _ & -> & ->)].
  { rewrite Hk. simpl. eapply streams_wf_same; [by apply (pc_end_reading_wf c id)|done..]. }
  simpl in *. eapply (streams_wf_go_on c id); [done|exact Hid| | |done..]; [done|].
  erewrite owners_of_insert by done. apply sessions_owned_accept; try done; [apply Hwf|].
  apply eq_None_not_Some. intros [b' (t & ? & ?)%owners_of_Some]. by simplify_eq.
Qed.

(** ** Control frames *)
Lemma send_hdqm_spec frame c c' r :
  send_hdqm_frame frame c = (c', r) →
  (∃ n, r = Ok tt ∧ c' = pc_send n frame c) ∨ (∃ e, r = Err e) ∧ c' = c.
Proof.
  unfold send_hdqm_frame, HdqmFrame_encode. destruct (_ <? _); [intros [= <- <-]; right; eauto|].
  destruct (_ <? _); [intros [= <- <-]; right; eauto|].
  destruct (pc_writable c); intros [= <- <-]; [right|left]; eauto.
Qed.

Lemma send_hdqm_Ok frame c c' u : send_hdqm_frame frame c = (c', Ok u) → ∃ n, c' = pc_send n frame c.
Proof. intros [(n & _ & ->)|[[e ?] _]]%send_hdqm_spec; [by exists n|done]. Qed.

Lemma or_protocol_Ok {E A} (m : outcome E A) c c' a : or_protocol m c = (c', Ok a) → c' = c ∧ m = Ok a.
Proof. unfold or_protocol, st_lift. destruct m; simpl; intros; by simplify_eq. Qed.

Lemma on_registry_Ok {A} (f : SessionRegistry → SessionRegistry * A) c c' a :
  on_registry f c = (c', Ok a) →
  f (pc_registry c) = (pc_registry c', a) ∧ c' = pc_set_registry (pc_registry c') c.
Proof. unfold on_registry. destruct (f (pc_registry c)) as [r b]. intros; by simplify_eq. Qed.

(** Invert a successful run of a control handler. *)
Ltac run_control :=
  repeat match goal with
  | H : st_bind _ _ _ = (_, Ok _) |- _ =>
      apply st_bind_inv in H as [(?&?&?&H)|[(?&?&?)|(?&?)]]; [|by simplify_eq..]
  | H : or_protocol _ _ = (_, Ok _) |- _ => apply or_protocol_Ok in H as [-> H]
  | H : on_registry _ _ = (_, Ok _) |- _ => apply on_registry_Ok in H as [H ?]
  | H : send_hdqm_frame _ _ = (_, Ok _) |- _ => apply send_hdqm_Ok in H as [? ->]
  | H : st_ret _ _ = (_, Ok _) |- _ => unfold st_ret in H; injection H as <- <-
  | H : st_modify _ _ = (_, Ok _) |- _ => unfold st_modify in H; injection H as <- <-
  end.

Lemma handle_prepare_Ok env frame c c' b :
  handle_prepare env frame c = (c', Ok b) →
  ∃ request p payload n, b = false
    ∧ SessionPrepareRequest_decode (hf_payload frame) = Ok request
    ∧ let r := (reap_expired_prepared (pc_registry c) (he_reap_now env)).1 in
      let fingerprint :=
        if bool_decide (spr_expected_fingerprint request = zeros 32)
        then he_fingerprint env else spr_expected_fingerprint request in
      prepare_at r (he_now env) (spr_session request) fingerprint
        (spr_configuration_generation request) (he_token env)
      = (set_prepared (<[he_token env := p]> (sr_prepared r)) r, Ok p)
    ∧ SessionPrepareAck_encode
        {| spa_session := ps_session p; spa_fingerprint := ps_fingerprint p;
           spa_configuration_generation := ps_configuration_generation p;
           spa_relay_generation := ps_relay_generation p;
           spa_connection_epoch := ps_connection_epoch p; spa_token := ps_token p;
           spa_token_ttl_secs := ps_token_ttl_secs p |} = Ok payload
    ∧ c' = pc_send n (reply_frame SessionPrepareAckKind (hf_request_id frame) payload)
             (pc_set_registry (set_prepared (<[he_token env := p]> (sr_prepared r)) r)
                (pc_draw (he_token env) c)).
Proof.
  intros H. unfold handle_prepare in H. run_control. simpl in *.
  match goal with H : prepare_at _ _ _ _ _ _ = (_, ?o), H2 : ?o = Ok ?p |- _ =>
    subst o; rename H into Hprep, p into p0 end.
  do 4 eexists. split; [done|]. split; [eassumption|]. cbn zeta.
  pose proof Hprep as Hr. apply prepare_at_Ok in Hr as (_ & _ & _ & _ & Hr).
  split; [by rewrite Hprep, Hr|]. split; [eassumption|].
  match goal with H : ?x = pc_set_registry (pc_registry ?x) _ |- _ => rewrite Hr in H; subst x end.
  reflexivity.
Qed.

Lemma handle_open_Ok env frame c c' b :
  handle_open env frame c = (c', Ok b) →
  ∃ request r' response o payload n, b = false
    ∧ SessionOpenRequest_decode (hf_payload frame) = Ok request
    ∧ open_request (pc_registry c) (he_now env) request = (r', (response, o))
    ∧ match o with
      | Some a => SessionOpenAck_encode (open_ack a) = Ok payload
          ∧ c' = pc_send n (reply_frame SessionOpened (hf_request_id frame) payload) (pc_set_registry r' c)
      | None => HdqsResponse_encode response = Ok payload
          ∧ c' = pc_send n (reply_frame ErrorResponse (hf_request_id frame) payload) (pc_set_registry r' c)
      end.
Proof.
  intros H. unfold handle_open in H.
  apply st_bind_inv in H as [(request&?&Hd&H)|[(?&?&?)|(?&?)]]; [|by simplify_eq..].
  apply or_protocol_Ok in Hd as [-> Hd].
  apply st_bind_inv in H as [([response o]&c1&Ho&H)|[(?&?&?)|(?&?)]]; [|by simplify_eq..].
  apply on_registry_Ok in Ho as [Ho Hc1].
  destruct o as [a|]; run_control; do 6 eexists; (split; [done|]); (split; [exact Hd|]);
    (split; [exact Ho|]); (split; [eassumption|]); rewrite Hc1; reflexivity.
Qed.

Lemma handle_close_Ok frame c c' b :
  handle_close frame c = (c', Ok b) →
  ∃ handle n, b = false ∧ len (hf_payload frame) = 2 ∧ index_u16 (E := IrohConnectionError) (hf_payload frame) 0 = Ok handle
    ∧ c' = pc_send n (reply_frame SessionClosed (hf_request_id frame) [])
             (pc_set_controls (delete handle (pc_controls c))
                (pc_set_registry (close (pc_registry c) handle).1 c)).
Proof.
  unfold handle_close. destruct (_ =? 2) eqn:Hlen; simpl; [|done]. intros H. bool_facts.
  apply st_bind_inv in H as [(handle&c1&Hi&H)|[(?&?&?)|(?&?)]]; [|by simplify_eq..].
  unfold st_lift in Hi. injection Hi as <- Hi.
  run_control. do 2 eexists. split; [done|]. split; [done|]. split; [exact Hi|].

  match goal with Hc : close _ _ = (_, _), Hx : ?x = pc_set_registry (pc_registry ?x) _ |- _ =>
    unfold close in Hc; injection Hc as HR _; rewrite <-HR in Hx; subst x end.
  reflexivity.
Qed.

(** A frame that was handled: the tasks are as they were. *)
Lemma streams_wf_handled c r tokens :
  streams_wf c → sr_max_sessions r = sr_max_sessions (pc_registry c) →
  sessions_owned r (owners_of serving (pc_tasks c)) tokens (pc_lost c) →
  ∀ c', pc_registry c' = r → pc_max c' = pc_max c → pc_tasks c' = pc_tasks c → pc_next c' = pc_next c →
    pc_tokens c' = tokens → pc_lost c' = pc_lost c → streams_wf c'.
Proof. intros [] Hr Hso c' <- Hm Ht Hn <- Hl. split; rewrite ?Hm, ?Ht, ?Hn, ?Hl; try done. congruence. Qed.

Lemma handle_hdqm_frame_wf env frame c c' b :
  (hf_kind frame = SessionPrepare → he_token env ∉ pc_tokens c) →
  streams_wf c → handle_hdqm_frame env frame c = (c', Ok b) → streams_wf c'.
Proof.
  intros Hfresh Hwf H. pose proof (so_registry _ _ _ _ (sw_sessions _ Hwf)) as Hreg. unfold handle_hdqm_frame in H.
  assert (Hplain : ∀ n f, streams_wf (pc_send n f c)) by (intros; by eapply streams_wf_same).
  destruct (hf_kind frame) eqn:Hk; try (run_control; apply Hplain).
  - apply handle_prepare_Ok in H as (q & p & payload & n & _ & _ & Hp & _ & ->). cbn zeta in Hp.
    set (r := (reap_expired_prepared _ _).1) in *.
    assert (Hr : registry_wf r) by apply (run_op_wf _ (OpReapPrepared (he_reap_now env)) Hreg).
    eapply (streams_wf_handled c); [done| | |done..]; [done|].
    apply (sessions_owned_prepare (pc_registry c)); [apply Hwf| |done|by apply Hfresh|].
    + intros t [x Hx]. simpl in Hx. apply map_lookup_filter_Some in Hx as [Hx _]. eauto.
    + match type of Hp with ?m = _ => assert (Hw : registry_wf m.1) by (by apply prepare_at_wf) end.
      by rewrite Hp in Hw.
  - apply handle_open_Ok in H as (q & r' & resp & o & payload & n & _ & _ & Ho & Hc).
    pose proof (open_request_wf _ (he_now env) q Hreg) as Hr. pose proof (open_request_max (pc_registry c) (he_now env) q) as Hm.
    rewrite Ho in Hr, Hm. simpl in Hr, Hm. apply open_request_cases in Ho; [|done].
    destruct o as [a|]; destruct Hc as [_ ->]; eapply (streams_wf_handled c); try done.
    + destruct Ho as (Hp & _ & Ht & _ & _ & Hnew & Hub & _ & Ha & Hp').
      rewrite <-Ht in Hp, Hp'. eapply sessions_owned_open; [apply Hwf|done..].
    + destruct Ho as (Ha & Hp & _). eapply sessions_owned_less; [apply Hwf|done|..].
      * intros t. rewrite Hp. intros [x Hx]. apply lookup_delete_Some in Hx as [_ ?]. eauto.
      * intros h a. by rewrite Ha.
  - apply handle_close_Ok in H as (h & n & _ & _ & _ & ->).
    eapply (streams_wf_handled c); [done| | |done..]; [done|].
    eapply sessions_owned_less; [apply Hwf|apply (run_op_wf _ (OpClose h) Hreg)|done|].
    intros h' a. simpl. intros [_ ?]%lookup_delete_Some. done.
  - unfold st_ret in H. by injection H as <- _.
Qed.

Lemma session_step_wf c c' : streams_wf c → session_step c c' → streams_wf c'.
Proof.
  intros Hwf Hs. destruct Hs as [c env frame c' Hf H|c|c id b now Hid Hv|c id Hid|c id b acc Hid|c id b acc w Hid|c id b Hid].
  - by eapply handle_hdqm_frame_wf.
  - by apply accept_stream_wf.
  - by apply streams_wf_bind.
  - by apply pc_end_reading_wf.
  - by eapply stream_unavailable_wf.
  - by eapply stream_connected_wf.
  - by eapply stream_finished_wf.
Qed.

Lemma paired_connection_wf config generation n c :
  0 ≤ ic_max_sessions_per_connection config →
  paired_connection config generation n = Ok c → streams_wf c.
Proof.
  unfold paired_connection. intros Hm.
  destruct (SessionRegistry_new _ _ _) as [r|e|] eqn:Hr; [|done..]. intros [= <-].
  apply sessions_owned_new in Hr as (Hso & Hmax & _); [|done]. pose proof (wf_max _ (so_registry _ _ _ _ Hso)).
  split; simpl; [by unfold owners_of; rewrite omap_empty|unfold map_len; rewrite map_size_empty; lia|done|].
  intros id t. by rewrite lookup_empty.
Qed.

Lemma sessions_reachable_wf config generation n c c' :
  0 ≤ ic_max_sessions_per_connection config → paired_connection config generation n = Ok c →
  rtc session_step c c' → streams_wf c'.
Proof.
  intros Hm Hc Hrun. apply (paired_connection_wf _ _ _ _ Hm) in Hc.
  induction Hrun as [|x y z Hxy _ IH]; [done|]. apply IH. by eapply session_step_wf.
Qed.

(** A binding is recorded as lost only by the task that served it, when it could not write
    its accepting response after it had connected the socket. *)
Definition response_unwritten (c c' : PairedConnection) (b : HdqsBinding) : Prop :=
  ∃ c1 id accepted, rtc session_step c c1
    ∧ pc_tasks c1 !! id = Some (StreamConnecting b accepted)
    ∧ pc_controls c1 !! hb_session_handle b = None
    ∧ rtc session_step (stream_connected id b accepted false c1) c'.

Lemma stream_bind_lost id b now c : pc_lost (stream_bind id b now c) = pc_lost c.
Proof. unfold stream_bind. destruct (accept_active _ _ _) as [r [? ?]]. by case_match. Qed.

Lemma handle_hdqm_frame_lost env frame c c' b :
  handle_hdqm_frame env frame c = (c', Ok b) → pc_lost c' = pc_lost c.
Proof.
  intros H. unfold handle_hdqm_frame in H. destruct (hf_kind frame); try (run_control; done).
  - apply handle_prepare_Ok in H as (q & p & payload & n & _ & _ & _ & _ & ->). done.
  - apply handle_open_Ok in H as (q & r' & resp & [a|] & payload & n & _ & _ & _ & [_ ->]); done.
  - by apply handle_close_Ok in H as (h & n & _ & _ & _ & ->).
Qed.

Lemma session_step_lost c c' b :
  session_step c c' → b ∈ pc_lost c' → b ∈ pc_lost c ∨ response_unwritten c c' b.
Proof.
  intros Hs. destruct Hs as [c env frame c' Hf H|c|c id b' now Hid Hv|c id Hid|c id b' acc Hid|c id b' acc w Hid|c id b' Hid]; intros Hb.
  - left. by rewrite (handle_hdqm_frame_lost _ _ _ _ _ H) in Hb.
  - left. unfold accept_stream in Hb. by destruct (_ <? _).
  - left. by rewrite stream_bind_lost in Hb.
  - by left.
  - by left.
  - unfold stream_connected in Hb. destruct (pc_controls c !! _) eqn:Hc; [by left|].
    destruct w; [by left|]. simpl in Hb. apply elem_of_cons in Hb as [->|Hb]; [|by left].
    right. exists c, id, acc. by split_and!.
  - by left.
Qed.

Lemma lost_unwritten c c' b :
  rtc session_step c c' → b ∈ pc_lost c' → b ∈ pc_lost c ∨ response_unwritten c c' b.
Proof.
  induction 1 as [c|c c1 c' Hs Hrun IH]; [by left|]. intros [Hb|(d & id & acc & ? & ? & ? & ?)]%IH.
  - apply (session_step_lost _ _ _ Hs) in Hb as [Hb|(d & id & acc & ? & ? & ? & ?)]; [by left|right].
    exists d, id, acc. split_and!; [done..|]. by etrans.
  - right. exists d, id, acc. split_and!; [|done..]. by eapply rtc_l.
Qed.

Lemma paired_connection_lost config generation n c :
  paired_connection config generation n = Ok c → pc_lost c = [].
Proof. unfold paired_connection. by destruct (SessionRegistry_new _ _ _) as [r|e|]; [intros [= <-]|..]. Qed.

(** ** What the peer reads in the replies *)
Lemma encode_decode {E A} (valid : A → Prop) (encode : A → outcome E (list byte))
    (decode : list byte → outcome E A) :
  (∀ a, valid a → ∃ bs, encode a = Ok bs ∧ decode bs = Ok a) →
  ∀ a bs, valid a → encode a = Ok bs → decode bs = Ok a.
Proof. intros Hlaw a bs (b & Hb & Hd)%Hlaw Hbs. congruence. Qed.

(** The reply to one control frame, as the peer decodes it, and what it did to the
    registry. *)
Definition control_effect (env : HdqmEnv) (frame : HdqmFrame) (c c' : PairedConnection) (reply : HdqmFrame) : Prop :=
  let r := pc_registry c in
  let r' := pc_registry c' in
  match hf_kind frame with
  | SessionPrepare => ∃ request session,
      SessionPrepareRequest_decode (hf_payload frame) = Ok request
      ∧ SessionName_new (spr_session request) = Ok session
      ∧ hf_kind reply = SessionPrepareAckKind
      ∧ SessionPrepareAck_decode (hf_payload reply)
        = Ok {| spa_session := session;
                spa_fingerprint := if bool_decide (spr_expected_fingerprint request = zeros 32)
                                   then he_fingerprint env else spr_expected_fingerprint request;
                spa_configuration_generation := spr_configuration_generation request;
                spa_relay_generation := sr_relay_generation r;
                spa_connection_epoch := sr_connection_epoch r;
                spa_token := he_token env; spa_token_ttl_secs := SESSION_TOKEN_TTL_SECS |}
      ∧ (∃ p, sr_prepared r' !! he_token env = Some p ∧ ps_session p = session
           ∧ ps_expires_at p = instant_plus_secs (he_now env) SESSION_TOKEN_TTL_SECS)
      ∧ sr_active r' = sr_active r ∧ pc_controls c' = pc_controls c
  | SessionOpen => ∃ request,
      SessionOpenRequest_decode (hf_payload frame) = Ok request
      ∧ sr_prepared r' = delete (sor_token request) (sr_prepared r) ∧ pc_controls c' = pc_controls c
      ∧ ((∃ handle p, hf_kind reply = SessionOpened
            ∧ SessionOpenAck_decode (hf_payload reply)
              = Ok {| soa_session_handle := handle; soa_session := sor_session request;
                      soa_fingerprint := sor_fingerprint request;
                      soa_configuration_generation := sor_configuration_generation request;
                      soa_relay_generation := sor_relay_generation request;
                      soa_connection_epoch := sor_connection_epoch request;
                      soa_token := sor_token request |}
            ∧ sr_prepared r !! sor_token request = Some p ∧ he_now env < ps_expires_at p
            ∧ sr_active r !! handle = None
            ∧ sr_active r' = <[handle := {| as_handle := handle; as_prepared := p;
                as_expires_at := instant_plus_secs (he_now env) (ps_token_ttl_secs p);
                as_bound := false |}]> (sr_active r))
         ∨ (∃ reason, hf_kind reply = ErrorResponse
            ∧ HdqsResponse_decode (hf_payload reply) = Ok (HdqsResponse_rejected reason (sr_connection_epoch r))
            ∧ sr_active r' = sr_active r))
  | SessionClose => ∃ handle,
      hf_payload frame = be_bytes 2 handle ∧ hf_kind reply = SessionClosed ∧ hf_payload reply = []
      ∧ sr_active r' = delete handle (sr_active r) ∧ sr_prepared r' = sr_prepared r
      ∧ pc_controls c' = delete handle (pc_controls c)
  | Heartbeat => hf_kind reply = Heartbeat ∧ hf_payload reply = [] ∧ r' = r ∧ pc_controls c' = pc_controls c
  | _ => hf_kind reply = ErrorResponse ∧ hf_payload reply = [] ∧ r' = r ∧ pc_controls c' = pc_controls c
  end.

Lemma prepare_effect env frame c c' b :
  hf_kind frame = SessionPrepare →
  is_u64 (sr_relay_generation (pc_registry c)) → is_u64 (sr_connection_epoch (pc_registry c)) →
  length (he_fingerprint env) = 32%nat → length (he_token env) = 32%nat →
  handle_prepare env frame c = (c', Ok b) →
  b = false ∧ ∃ reply, pc_sent c' = pc_sent c ++ [reply] ∧ hf_request_id reply = hf_request_id frame
    ∧ control_effect env frame c c' reply.
Proof.
  intros Hk Hg He Hf Ht H.
  apply handle_prepare_Ok in H as (q & p & payload & n & -> & Hd & Hp & Hpl & ->). split; [done|].
  eexists. split; [done|]. split; [done|]. unfold control_effect. rewrite Hk. cbn zeta in Hp.
  apply prepare_at_Ok in Hp as (_ & _ & Hname & Hpe & _).
  pose proof (SessionPrepareRequest_canonical _ _ Hd) as [(_ & Hfq & Hgq) _].
  exists q, (ps_session p). split; [done|]. split; [done|]. split; [done|].
  assert (Hfp : length (if bool_decide (spr_expected_fingerprint q = zeros 32)
      then he_fingerprint env else spr_expected_fingerprint q) = 32%nat) by (by case_bool_decide).
  set (fp := if bool_decide _ then _ else _) in *.
  split.
  { apply (encode_decode _ _ _ SessionPrepareAck_roundtrip).
    - split_and!; simpl; try done. by eapply SessionName_new_valid.
    - rewrite Hpe in Hpl. exact Hpl. }
  split_and!; [|done..]. exists p. split_and!; [apply lookup_insert_eq|done|]. by rewrite Hpe.
Qed.

Lemma open_effect env frame c c' b :
  hf_kind frame = SessionOpen → registry_wf (pc_registry c) →
  is_u64 (sr_connection_epoch (pc_registry c)) →
  handle_open env frame c = (c', Ok b) →
  b = false ∧ ∃ reply, pc_sent c' = pc_sent c ++ [reply] ∧ hf_request_id reply = hf_request_id frame
    ∧ control_effect env frame c c' reply.
Proof.
  intros Hk Hwf He H.
  apply handle_open_Ok in H as (q & r' & resp & o & payload & n & -> & Hd & Ho & Hc). split; [done|].
  pose proof (SessionOpenRequest_canonical _ _ Hd) as [(Hs & Hfp & Hg & Hrg & Hep & Htok) _].
  apply open_request_cases in Ho; [|done]. unfold control_effect. rewrite Hk.
  destruct o as [a|]; destruct Hc as [Hpl ->].
  - destruct Ho as (Hp & Hauth & Ht & Hlt & Hh & Hnew & Hub & Hexp & Ha & Hp').
    apply authority_differs_false in Hauth as (Hs' & Hf' & Hg' & Hr' & He').
    eexists. split; [done|]. split; [done|]. exists q. split; [done|]. split; [done|]. split; [done|].
    left. exists (as_handle a), (as_prepared a). split; [done|]. split.
    { apply (encode_decode _ _ _ SessionOpenAck_roundtrip).
      - split_and!; simpl; try done; unfold is_u16, u16_max in *; lia.
      - unfold open_ack in Hpl. by rewrite Hs', Hf', Hg', Hr', He', Ht in Hpl. }
    split_and!; try done. simpl. rewrite Ha, <-Hexp, <-Hub. by destruct a.
  - destruct Ho as (Ha & Hp & reason & ->).
    eexists. split; [done|]. split; [done|]. exists q. split; [done|]. split; [done|]. split; [done|].
    right. exists reason. split; [done|]. split; [|done]. apply (encode_decode _ _ _ HdqsResponse_roundtrip); [|done].
    split_and!; try done. by right.
Qed.

Lemma close_effect env frame c c' b :
  hf_kind frame = SessionClose → handle_close frame c = (c', Ok b) →
  b = false ∧ ∃ reply, pc_sent c' = pc_sent c ++ [reply] ∧ hf_request_id reply = hf_request_id frame
    ∧ control_effect env frame c c' reply.
Proof.
  intros Hk H. apply handle_close_Ok in H as (h & n & -> & Hlen & Hi & ->). split; [done|].
  eexists. split; [done|]. split; [done|]. unfold control_effect. rewrite Hk. exists h.
  split; [|done]. destruct (hf_payload frame) as [|x [|y [|z l]]]; try (by unfold len in Hlen; simpl in Hlen; lia).

  unfold index_u16 in Hi. simpl in Hi. injection Hi as <-. symmetry. by apply be_bytes_be_val.
Qed.

Lemma plain_effect env frame c c' b k :
  k = Heartbeat ∧ hf_kind frame = Heartbeat
  ∨ k = ErrorResponse ∧ hf_kind frame ∉ [SessionPrepare; SessionOpen; SessionClose; Heartbeat; GoAway] →
  st_bind (send_hdqm_frame (reply_frame k (hf_request_id frame) [])) (λ _, st_ret false) c = (c', Ok b) →
  b = false ∧ ∃ reply, pc_sent c' = pc_sent c ++ [reply] ∧ hf_request_id reply = hf_request_id frame
    ∧ control_effect env frame c c' reply.
Proof.
  intros Hk H. run_control. split; [done|]. eexists. split; [done|]. split; [done|]. unfold control_effect.
  destruct Hk as [[-> ->]|[-> Hk]]; [done|]. destruct (hf_kind frame); try done; exfalso; apply Hk; set_solver.
Qed.


(** ** A session, from its preparation to its bridge *)
Definition session_env (token : byte) (now : Z) : HdqmEnv :=
  {| he_fingerprint := replicate 32 x03; he_token := replicate 32 token; he_reap_now := now; he_now := now |}.
Definition demo_frame (kind : HdqmKind) (payload : list byte) : HdqmFrame :=
  {| hf_kind := kind; hf_request_id := replicate 16 x07; hf_payload := payload |}.
Definition encoded {E} (m : outcome E (list byte)) : list byte :=
  match m with Ok bs => bs | _ => [] end.

Definition demo_prepare_frame : HdqmFrame :=
  demo_frame SessionPrepare (encoded (SessionPrepareRequest_encode
    {| spr_session := str_lit "work"; spr_expected_fingerprint := zeros 32; spr_configuration_generation := 4 |})).
Definition demo_open_frame : HdqmFrame :=
  demo_frame SessionOpen (encoded (SessionOpenRequest_encode
    {| sor_session := str_lit "work"; sor_fingerprint := replicate 32 x03;
       sor_configuration_generation := 4; sor_relay_generation := 1; sor_connection_epoch := 2;
       sor_token := replicate 32 x05 |})).
Definition demo_close_frame : HdqmFrame := demo_frame SessionClose [x00; x01].

Definition demo_connection : PairedConnection :=
  {| pc_registry := demo_registry; pc_max := 3; pc_controls := ∅; pc_tasks := ∅; pc_next := 0%nat;
     pc_writable := 9; pc_sent := []; pc_replies := []; pc_tokens := []; pc_lost := [] |}.
Definition demo_config : IrohRelayConfig :=
  {| ic_max_connections := 4; ic_max_sessions_per_connection := 3; ic_control_timeout := 5;
     ic_relay_generation := 1; ic_relay_mode := RelayDisabled |}.

Lemma demo_connection_eq : paired_connection demo_config 2 9 = Ok demo_connection.
Proof. reflexivity. Qed.

Definition control (env : HdqmEnv) (frame : HdqmFrame) (c : PairedConnection) : PairedConnection :=
  (handle_hdqm_frame env frame c).1.

Lemma step_of_control env frame c :
  (hf_kind frame = SessionPrepare → he_token env ∉ pc_tokens c) →
  (handle_hdqm_frame env frame c).2 = Ok false → session_step c (control env frame c).
Proof. intros Hf H. eapply step_control; [exact Hf|]. by apply run_outcome. Qed.

(** The session is prepared, opened, and its stream is connecting its socket. *)
Definition demo_prepared := control (session_env x05 0) demo_prepare_frame demo_connection.
Definition demo_opened := control (session_env x05 1) demo_open_frame demo_prepared.
Definition demo_bound := stream_bind 0 demo_binding 2 (accept_stream demo_opened).

Lemma demo_bound_reachable : rtc session_step demo_connection demo_bound.
Proof.
  eapply rtc_l; [apply (step_of_control (session_env x05 0) demo_prepare_frame)|].
  { intros _. simpl. set_solver. }
  { vm_compute. reflexivity. }
  eapply rtc_l; [apply (step_of_control (session_env x05 1) demo_open_frame)|].
  { discriminate. }
  { vm_compute. reflexivity. }
  eapply rtc_l; [apply step_incoming|]. apply rtc_once, step_bind.
  - vm_compute. reflexivity.
  - by split_and!.
Qed.

(** A SessionClose that is handled while the stream connects its socket does not stop the
    bridge: the peer reads SessionClosed, the session is gone from the registry, and the
    bridge starts afterwards and is not told to stop. *)
Definition demo_closed := control (session_env x05 3) demo_close_frame demo_bound.
Definition demo_bridging := stream_connected 0 demo_binding (HdqsResponse_accepted 1 2) true demo_closed.

Lemma close_while_connecting_keeps_bridge :
  rtc session_step demo_connection demo_bridging
  ∧ last (pc_sent demo_bridging) = Some (demo_frame SessionClosed [])
  ∧ pc_tasks demo_bridging !! 0%nat = Some (StreamBridging demo_binding)
  ∧ ¬ told_to_stop demo_bridging 0 demo_binding
  ∧ active (pc_registry demo_bridging) 1 = None.
Proof.
  split.
  { etrans; [apply demo_bound_reachable|].
    eapply rtc_l; [apply (step_of_control (session_env x05 3) demo_close_frame)|].
    - discriminate.
    - vm_compute. reflexivity.
    - apply rtc_once, step_connected. vm_compute. reflexivity. }
  split_and!; [vm_compute; reflexivity..| |vm_compute; reflexivity].
  unfold told_to_stop. intros H. apply H. vm_compute. reflexivity.
Qed.

(** An opened session whose lease ran out before its stream arrived still holds its name:
    nothing in the session phase reaps active sessions, and opening the name again is
    refused whatever the time. *)
Lemma expired_session_blocks_name r now q h a p :
  registry_wf r → sr_prepared r !! sor_token q = Some p → now < ps_expires_at p →
  authority_differs p (sor_session q) (sor_fingerprint q) (sor_configuration_generation q)
    (sor_relay_generation q) (sor_connection_epoch q) = false →
  sr_active r !! h = Some a → ps_session (as_prepared a) = sor_session q → as_expires_at a ≤ now →
  (open_request r now q).2 = (HdqsResponse_rejected SessionAlreadyOpen (sr_connection_epoch r), None).
Proof.
  intros Hwf Hp Hlt Hd Ha Hs _. unfold open_request. rewrite Hp, Hd. unfold open_at. simpl.
  destruct (wf_prepared _ Hwf _ _ Hp) as [Ht _]. rewrite Ht, Hp, (proj2 (Z.leb_gt _ _) Hlt).
  assert (map_any (λ x, bool_decide (ps_session (as_prepared x) = ps_session p)) (sr_active r) = true) as ->; [|done].
  apply map_any_true. exists h, a. split; [done|]. apply bool_decide_eq_true.
  apply authority_differs_false in Hd. destruct Hd. congruence.
Qed.

(** * Properties *)

(** C11. In whatever order control frames, stream arrivals, socket failures, connections
    and ends interleave after a session phase starts: no more stream tasks than slots and
    no more sessions than the configured maximum (at most 64); no session token is ever
    served by two streams; and every session bound to a stream is served by exactly one
    task, whose binding names it exactly.  The one exception: a session whose task had
    connected the socket and could not write the accepting response: that task ended
    without closing the session, which may be left bound with no task. *)
Theorem session_streams_invariant config generation n c c' :
  0 ≤ ic_max_sessions_per_connection config → paired_connection config generation n = Ok c →
  rtc session_step c c' →
  map_len (pc_tasks c') ≤ pc_max c'
  ∧ map_len (sr_active (pc_registry c')) + map_len (sr_prepared (pc_registry c')) ≤ pc_max c' ≤ MAX_SESSION_STREAMS
  ∧ (∀ id1 id2 t1 t2 b1 b2, pc_tasks c' !! id1 = Some t1 → pc_tasks c' !! id2 = Some t2 →
       serving t1 = Some b1 → serving t2 = Some b2 → hb_token b1 = hb_token b2 → id1 = id2)
  ∧ (∀ h a, sr_active (pc_registry c') !! h = Some a → as_bound a = true →
       ∃ b, hb_session_handle b = h ∧ names_exactly b a
         ∧ ((∃ id t, pc_tasks c' !! id = Some t ∧ serving t = Some b)
            ∨ b ∈ pc_lost c' ∧ response_unwritten c c' b)).
Proof.
  intros Hm Hc Hrun. destruct (sessions_reachable_wf _ _ _ _ _ Hm Hc Hrun) as [Hso Hslots Hmax _].
  pose proof (wf_capacity _ (so_registry _ _ _ _ Hso)). pose proof (wf_max _ (so_registry _ _ _ _ Hso)).
  rewrite Hmax in *. split_and!; try done; try lia.
  - intros id1 id2 t1 t2 b1 b2 H1 H2 S1 S2. apply (so_once _ _ _ _ Hso); apply owners_of_Some; eauto.
  - intros h a Ha Hb. destruct (so_served _ _ _ _ Hso _ _ Ha Hb) as (b & ? & ? & Hor). exists b. split_and!; [done..|].
    destruct Hor as [Hl|(id & (t & ? & ?)%owners_of_Some)]; [right|left; eauto].
    split; [done|]. apply (lost_unwritten _ _ _ Hrun) in Hl as [Hl|Hl]; [|done].
    rewrite (paired_connection_lost _ _ _ _ Hc) in Hl. by apply elem_of_nil in Hl.
Qed.

Lemma session_streams_invariant_witness :
  rtc session_step demo_connection demo_bound
  ∧ ∃ b, hb_session_handle b = 1 ∧ hb_token b = replicate 32 x05
      ∧ ∃ id t, pc_tasks demo_bound !! id = Some t ∧ serving t = Some b.
Proof.
  split; [exact demo_bound_reachable|].
  destruct (session_streams_invariant demo_config 2 9 demo_connection demo_bound ltac:(discriminate)
    demo_connection_eq demo_bound_reachable) as (_ & _ & _ & Hserved).
  assert (Ha : ∃ a, sr_active (pc_registry demo_bound) !! 1 = Some a ∧ as_bound a = true
    ∧ ps_token (as_prepared a) = replicate 32 x05)
    by (eexists; split; [vm_compute; reflexivity|split; reflexivity]).
  destruct Ha as (a & Ha & Hb & Ht). destruct (Hserved 1 a Ha Hb) as (b & Hh & [_ Hx] & Hor).
  exists b. split; [exact Hh|]. split; [congruence|]. destruct Hor as [Hs|[Hl _]]; [exact Hs|].
  exfalso. vm_compute in Hl. inversion Hl.
Defined.

(** Handling a control frame of the session phase without an error.  GoAway ends the
    loop and changes nothing; every other frame is answered with exactly one frame that
    repeats its request identifier.  A prepare is answered with an acknowledgement that the
    peer decodes to the requested session and generation, this relay's generation, this
    connection's epoch, the drawn token and a lease of 90 seconds; an open with the
    authority of the request under a fresh handle, or with a decodable rejection, the
    token being consumed either way; a close removes the handle and its cancel sender; a
    heartbeat is echoed; anything else is an error response.  Nothing else changes. *)
Lemma control_frames_functional env frame c c' stop :
  registry_wf (pc_registry c) →
  is_u64 (sr_relay_generation (pc_registry c)) → is_u64 (sr_connection_epoch (pc_registry c)) →
  length (he_fingerprint env) = 32%nat → length (he_token env) = 32%nat →
  handle_hdqm_frame env frame c = (c', Ok stop) →
  if stop then hf_kind frame = GoAway ∧ c' = c
  else ∃ reply, pc_sent c' = pc_sent c ++ [reply] ∧ hf_request_id reply = hf_request_id frame
         ∧ control_effect env frame c c' reply.
Proof.
  intros Hwf Hg He Hf Ht H. unfold handle_hdqm_frame in H.
  destruct (hf_kind frame) eqn:Hk;
    lazymatch type of Hk with
    | _ = SessionPrepare => apply prepare_effect in H as [-> Hr]; done
    | _ = SessionOpen => apply open_effect in H as [-> Hr]; done
    | _ = SessionClose => apply (close_effect env) in H as [-> Hr]; done
    | _ = Heartbeat => apply (plain_effect env) in H as [-> Hr]; [done|by left]
    | _ = GoAway => unfold st_ret in H; by injection H as <- <-
    | _ => apply (plain_effect env) in H as [-> Hr]; [done|right; split; [done|rewrite Hk; set_solver]]
    end.
Qed.

Lemma control_frames_functional_witness :
  (handle_hdqm_frame (session_env x05 0) demo_prepare_frame demo_connection).2 = Ok false
  ∧ ∃ reply, pc_sent demo_prepared = [reply] ∧ hf_kind reply = SessionPrepareAckKind.
Proof.
  assert (H : (handle_hdqm_frame (session_env x05 0) demo_prepare_frame demo_connection).2 = Ok false)
    by (vm_compute; reflexivity).
  split; [exact H|]. apply run_outcome in H.
  pose proof (control_frames_functional (session_env x05 0) demo_prepare_frame demo_connection _ _ demo_registry_wf ltac:(split; discriminate)
    ltac:(split; discriminate) eq_refl eq_refl H) as (reply & Hs & _ & Heff).
  exists reply. split; [exact Hs|]. destruct Heff as (q & s & _ & _ & Hk & _). exact Hk.
Defined.
