(* ===== verification/Enrollment.v ===== *)
(** * App enrollment and the allowlist (src/src/enrollment.rs)

    The bounded identities, the allowlist registry that decides which certificate may
    enter, the one-time enrollment exchange with its metadata-only certificate authority,
    and the update lock.  SHA-256 is a parameter.  Clock readings in seconds are
    arguments. *)
From S2P Require Export Bytes.

Definition MAX_APP_ID_BYTES : Z := 128.
Definition MAX_CSR_BYTES : Z := 64 * 1024.
Definition AUTHORITY_BYTES : nat := 32.
Definition AUTHORIZATION_ID_BYTES : nat := 16.
Definition ENROLLMENT_TTL_SECS : Z := 5 * 60.
Definition CERTIFICATE_VALIDITY_SECS : Z := 90 * 24 * 60 * 60.

Inductive EnrollmentError : Type :=
| InvalidAppId
| InvalidChallenge
| ChallengeExpired
| InvalidCsr
| CsrMismatch
| AuthorizationMismatch
| AuthorizationUsed
| InvalidGeneration
| InvalidMetadata
| DuplicateEnrollment
| AllowlistPersistence
| AllowlistNotFound
| AlreadyRevoked
| UpdateUnauthorized
| UpdateBusy
| UpdateFailed.

#[export] Instance EnrollmentError_eq_dec : EqDecision EnrollmentError.
Proof. solve_decision. Defined.

Abbreviation eresult := (outcome EnrollmentError).

(** ** Identities *)

(** What both identity parsers refuse. *)
Definition identity_refused (value : list byte) : bool :=
  bool_decide (value = []) || (MAX_APP_ID_BYTES <? len value)
  || any_char (λ c, is_whitespace c || is_control c) value.

Definition AppId_new (value : list byte) : eresult (list byte) :=
  if identity_refused value then Err InvalidAppId else Ok value.

Definition bounded_identity (value : list byte) : eresult (list byte) :=
  if identity_refused value then Err InvalidMetadata else Ok value.

Definition Fingerprint_from_bytes (bytes : list byte) : eresult (list byte) :=
  if bool_decide (bytes = zeros AUTHORITY_BYTES) then Err InvalidMetadata else Ok bytes.
Definition EnrollmentChallenge_from_bytes (bytes : list byte) : eresult (list byte) :=
  if bool_decide (bytes = zeros AUTHORITY_BYTES) then Err InvalidChallenge else Ok bytes.
Definition CsrDigest_from_bytes (bytes : list byte) : eresult (list byte) :=
  if bool_decide (bytes = zeros AUTHORITY_BYTES) then Err InvalidCsr else Ok bytes.

Record CsrMetadata : Type := {
  csr_app_id : list byte;
  csr_digest : list byte;
  csr_byte_len : Z;
}.

Definition CsrMetadata_from_digest (app_id digest : list byte) (byte_len : Z) : eresult CsrMetadata :=
  if (byte_len =? 0) || (MAX_CSR_BYTES <? byte_len) then Err InvalidCsr else
  Ok {| csr_app_id := app_id; csr_digest := digest; csr_byte_len := byte_len |}.

Record CoreAuthorization : Type := {
  ca_core_identity : list byte;
  ca_authorization_id : list byte;
  ca_pairing_id : list byte;
  ca_target_id : list byte;
  ca_app_id : list byte;
  ca_challenge : list byte;
  ca_csr_digest : list byte;
  ca_code_proof : list byte;
  ca_configuration_generation : Z;
  ca_expires_at_epoch_seconds : Z;
}.

Definition CoreAuthorization_new (core_identity authorization_id pairing_id target_id app_id challenge
    digest code_proof : list byte) (configuration_generation expires_at_epoch_seconds : Z)
  : eresult CoreAuthorization :=
  pairing_id ← bounded_identity pairing_id;
  target_id ← bounded_identity target_id;
  if bool_decide (authorization_id = zeros AUTHORIZATION_ID_BYTES)
     || (configuration_generation =? 0) || (expires_at_epoch_seconds =? 0)
  then Err InvalidMetadata else
  Ok {| ca_core_identity := core_identity; ca_authorization_id := authorization_id;
        ca_pairing_id := pairing_id; ca_target_id := target_id; ca_app_id := app_id;
        ca_challenge := challenge; ca_csr_digest := digest; ca_code_proof := code_proof;
        ca_configuration_generation := configuration_generation;
        ca_expires_at_epoch_seconds := expires_at_epoch_seconds |}.

Record EnrollmentSubmission : Type := {
  es_authorization : CoreAuthorization;
  es_csr : CsrMetadata;
}.

Definition EnrollmentSubmission_new (authorization : CoreAuthorization) (csr : CsrMetadata)
  : eresult EnrollmentSubmission :=
  if bool_decide (ca_app_id authorization ≠ csr_app_id csr)
     || bool_decide (ca_csr_digest authorization ≠ csr_digest csr)
  then Err CsrMismatch else Ok {| es_authorization := authorization; es_csr := csr |}.

Record CertificateMetadata : Type := {
  cm_app_id : list byte;
  cm_fingerprint : list byte;
  cm_serial : Z;
  cm_allowlist_generation : Z;
  cm_not_before_epoch_seconds : Z;
  cm_not_after_epoch_seconds : Z;
}.

Definition CertificateMetadata_new (app_id fingerprint : list byte)
    (serial allowlist_generation not_before not_after : Z) : eresult CertificateMetadata :=
  if (serial =? 0) || (allowlist_generation =? 0) || (not_before =? 0) || (not_after <=? not_before)
  then Err InvalidMetadata else
  Ok {| cm_app_id := app_id; cm_fingerprint := fingerprint; cm_serial := serial;
        cm_allowlist_generation := allowlist_generation;
        cm_not_before_epoch_seconds := not_before; cm_not_after_epoch_seconds := not_after |}.

(** ** The allowlist registry *)
Inductive AllowlistRole : Type := RelayUpdateAdmin.
Inductive AllowlistState : Type := Pending | Active | Revoked.

#[export] Instance AllowlistRole_eq_dec : EqDecision AllowlistRole.
Proof. solve_decision. Defined.
#[export] Instance AllowlistState_eq_dec : EqDecision AllowlistState.
Proof. solve_decision. Defined.

Record AllowlistEntry : Type := {
  ae_app_id : list byte;
  ae_fingerprint : list byte;
  ae_role : AllowlistRole;
  ae_state : AllowlistState;
  ae_generation : Z;
  ae_not_after_epoch_seconds : Z;
}.

Definition set_state (state : AllowlistState) (e : AllowlistEntry) : AllowlistEntry :=
  {| ae_app_id := ae_app_id e; ae_fingerprint := ae_fingerprint e; ae_role := ae_role e;
     ae_state := state; ae_generation := ae_generation e;
     ae_not_after_epoch_seconds := ae_not_after_epoch_seconds e |}.
Definition set_generation (generation : Z) (e : AllowlistEntry) : AllowlistEntry :=
  {| ae_app_id := ae_app_id e; ae_fingerprint := ae_fingerprint e; ae_role := ae_role e;
     ae_state := ae_state e; ae_generation := generation;
     ae_not_after_epoch_seconds := ae_not_after_epoch_seconds e |}.

Record AllowlistRegistry : Type := {
  ar_generation : Z;
  ar_entries : gmap (list byte) AllowlistEntry;
}.

Definition AllowlistRegistry_new : AllowlistRegistry := {| ar_generation := 1; ar_entries := ∅ |}.

Abbreviation allowing := (stateful AllowlistRegistry EnrollmentError).

Definition enroll_with_state (certificate : CertificateMetadata) (state : AllowlistState)
  : allowing AllowlistEntry := λ r,
  if bool_decide (is_Some (ar_entries r !! cm_app_id certificate))
     || map_any (λ e, bool_decide (ae_fingerprint e = cm_fingerprint certificate)
                      && bool_decide (ae_state e = Active)) (ar_entries r)
  then (r, Err DuplicateEnrollment) else
  match u64_checked_add (ar_generation r) 1 with
  | None => (r, Err AllowlistPersistence)
  | Some generation =>
      let entry := {| ae_app_id := cm_app_id certificate; ae_fingerprint := cm_fingerprint certificate;
                      ae_role := RelayUpdateAdmin; ae_state := state; ae_generation := generation;
                      ae_not_after_epoch_seconds := cm_not_after_epoch_seconds certificate |} in
      ({| ar_generation := generation; ar_entries := <[ae_app_id entry := entry]> (ar_entries r) |}, Ok entry)
  end.

Definition enroll_pending (certificate : CertificateMetadata) : allowing AllowlistEntry :=
  enroll_with_state certificate Pending.
Definition enroll (certificate : CertificateMetadata) : allowing AllowlistEntry :=
  enroll_with_state certificate Active.

Definition activate (app_id fingerprint : list byte) : allowing AllowlistEntry := λ r,
  match ar_entries r !! app_id with
  | None => (r, Err AllowlistNotFound)
  | Some entry =>
      if bool_decide (ae_state entry ≠ Pending) || bool_decide (ae_fingerprint entry ≠ fingerprint)
      then (r, Err UpdateUnauthorized) else
      ({| ar_generation := ar_generation r;
          ar_entries := <[app_id := set_state Active entry]> (ar_entries r) |},
       Ok (set_state Active entry))
  end.

(** One pass of the loop of [revoke] over the values. *)
Definition revoke_value (app_id : list byte) (generation : Z) (value : AllowlistEntry) : AllowlistEntry :=
  let value := set_generation generation value in
  if bool_decide (ae_app_id value = app_id) then set_state Revoked value else value.

Definition revoke (app_id : list byte) : allowing Z := λ r,
  match ar_entries r !! app_id with
  | None => (r, Err AllowlistNotFound)
  | Some entry =>
      if bool_decide (ae_state entry = Revoked) then (r, Err AlreadyRevoked) else
      match u64_checked_add (ar_generation r) 1 with
      | None => (r, Err AllowlistPersistence)
      | Some generation =>
          ({| ar_generation := generation; ar_entries := revoke_value app_id generation <$> ar_entries r |},
           Ok generation)
      end
  end.

Definition allows_qrm_at (r : AllowlistRegistry) (fingerprint : list byte) (now : Z) : bool :=
  map_any (λ e, bool_decide (ae_fingerprint e = fingerprint) && bool_decide (ae_state e = Active)
                && (now <? ae_not_after_epoch_seconds e)) (ar_entries r).

Definition authorize_update_at (r : AllowlistRegistry) (fingerprint : list byte) (now : Z) : eresult unit :=
  if map_any (λ e, bool_decide (ae_fingerprint e = fingerprint) && bool_decide (ae_state e = Active)
                   && bool_decide (ae_role e = RelayUpdateAdmin)
                   && (now <? ae_not_after_epoch_seconds e)) (ar_entries r)
  then Ok tt else Err UpdateUnauthorized.

(** [current_epoch_seconds]: a clock before the epoch reads as the far future. *)
Definition current_epoch_seconds (clock : option Z) : Z := default u64_max clock.

Definition allows_qrm (r : AllowlistRegistry) (fingerprint : list byte) (clock : option Z) : bool :=
  allows_qrm_at r fingerprint (current_epoch_seconds clock).
Definition authorize_update (r : AllowlistRegistry) (fingerprint : list byte) (clock : option Z) : eresult unit :=
  authorize_update_at r fingerprint (current_epoch_seconds clock).

Definition entry (r : AllowlistRegistry) (app_id : list byte) : option AllowlistEntry :=
  ar_entries r !! app_id.

Definition validate_persisted (r : AllowlistRegistry) : eresult unit :=
  if (ar_generation r =? 0)
     || map_any (λ e, (ae_generation e =? 0) || (ae_not_after_epoch_seconds e =? 0)) (ar_entries r)
  then Err AllowlistPersistence else Ok tt.

(** ** The one-time enrollment exchange *)
Section Exchange.
Context (sha256 : list byte → list byte).

Definition CsrMetadata_from_bytes (app_id bytes : list byte) : eresult CsrMetadata :=
  if bool_decide (bytes = []) || (MAX_CSR_BYTES <? len bytes) then Err InvalidCsr else
  digest ← CsrDigest_from_bytes (sha256 bytes);
  CsrMetadata_from_digest app_id digest (len bytes).

Record FakeCertificateAuthority : Type := {
  fa_root_generation : Z;
  fa_intermediate_seed : list byte;
  fa_next_serial : Z;
}.

Definition FakeCertificateAuthority_new (root_generation : Z) (intermediate_seed : list byte)
  : eresult FakeCertificateAuthority :=
  if (root_generation =? 0) || bool_decide (intermediate_seed = zeros AUTHORITY_BYTES)
  then Err InvalidMetadata else
  Ok {| fa_root_generation := root_generation; fa_intermediate_seed := intermediate_seed; fa_next_serial := 1 |}.

Definition certificate_preimage (a : FakeCertificateAuthority) (serial : Z) (csr : CsrMetadata) : list byte :=
  str_lit "herdr-dog relay fake certificate v1" ++ be_bytes 8 (fa_root_generation a)
  ++ fa_intermediate_seed a ++ be_bytes 8 serial ++ csr_digest csr.

Definition issue (csr : CsrMetadata) (allowlist_generation now : Z)
  : stateful FakeCertificateAuthority EnrollmentError CertificateMetadata := λ a,
  if (allowlist_generation =? 0) || (now =? 0) then (a, Err InvalidMetadata) else
  let serial := fa_next_serial a in
  match u64_checked_add serial 1 with
  | None => (a, Err InvalidMetadata)
  | Some next =>
      ({| fa_root_generation := fa_root_generation a; fa_intermediate_seed := fa_intermediate_seed a;
          fa_next_serial := next |},
       fingerprint ← Fingerprint_from_bytes (sha256 (certificate_preimage a serial csr));
       not_after ← ok_or (u64_checked_add now CERTIFICATE_VALIDITY_SECS) InvalidMetadata;
       Ok {| cm_app_id := csr_app_id csr; cm_fingerprint := fingerprint; cm_serial := serial;
             cm_allowlist_generation := allowlist_generation;
             cm_not_before_epoch_seconds := now; cm_not_after_epoch_seconds := not_after |})
  end.

Record PendingChallenge : Type := {
  pc_core_identity : list byte;
  pc_pairing_id : list byte;
  pc_target_id : list byte;
  pc_app_id : list byte;
  pc_configuration_generation : Z;
  pc_created_at_epoch_seconds : Z;
}.

Record FakeRelayEnrollment : Type := {
  fe_seed : list byte;
  fe_next_counter : Z;
  fe_pending : gmap (list byte) PendingChallenge;
  fe_consumed : gset (list byte);
  fe_authority : FakeCertificateAuthority;
  fe_allowlist : AllowlistRegistry;
}.

Definition FakeRelayEnrollment_new (seed ca_seed : list byte) : eresult FakeRelayEnrollment :=
  if bool_decide (seed = zeros AUTHORITY_BYTES) then Err InvalidChallenge else
  authority ← FakeCertificateAuthority_new 1 ca_seed;
  Ok {| fe_seed := seed; fe_next_counter := 1; fe_pending := ∅; fe_consumed := ∅;
        fe_authority := authority; fe_allowlist := AllowlistRegistry_new |}.

Definition fe_set (counter : Z) (pending : gmap (list byte) PendingChallenge) (consumed : gset (list byte))
    (authority : FakeCertificateAuthority) (allowlist : AllowlistRegistry) (f : FakeRelayEnrollment)
  : FakeRelayEnrollment :=
  {| fe_seed := fe_seed f; fe_next_counter := counter; fe_pending := pending; fe_consumed := consumed;
     fe_authority := authority; fe_allowlist := allowlist |}.

Definition challenge_preimage (f : FakeRelayEnrollment) (counter : Z)
    (core_identity pairing_id target_id app_id : list byte) : list byte :=
  str_lit "herdr-dog relay enrollment challenge v1" ++ fe_seed f ++ be_bytes 8 counter
  ++ core_identity ++ pairing_id ++ target_id ++ app_id.

Definition begin (core_identity pairing_id target_id app_id : list byte) (configuration_generation now : Z)
  : stateful FakeRelayEnrollment EnrollmentError (list byte) := λ f,
  match (pairing_id ← bounded_identity pairing_id; target_id ← bounded_identity target_id;
         if (configuration_generation =? 0) || (now =? 0) then Err InvalidGeneration
         else Ok (pairing_id, target_id)) with
  | Ok (pairing_id, target_id) =>
      let counter := fe_next_counter f in
      match u64_checked_add counter 1 with
      | None => (f, Err InvalidChallenge)
      | Some next =>
          match EnrollmentChallenge_from_bytes
                  (sha256 (challenge_preimage f counter core_identity pairing_id target_id app_id)) with
          | Ok challenge =>
              (fe_set next
                 (<[challenge := {| pc_core_identity := core_identity; pc_pairing_id := pairing_id;
                                    pc_target_id := target_id; pc_app_id := app_id;
                                    pc_configuration_generation := configuration_generation;
                                    pc_created_at_epoch_seconds := now |}]> (fe_pending f))
                 (fe_consumed f) (fe_authority f) (fe_allowlist f) f,
               Ok challenge)
          | Err e => (fe_set next (fe_pending f) (fe_consumed f) (fe_authority f) (fe_allowlist f) f, Err e)
          | Panic => (f, Panic)
          end
      end
  | Err e => (f, Err e)
  | Panic => (f, Panic)
  end.

Inductive EnrollmentOutcome : Type :=
| Issued (certificate : CertificateMetadata) (entry : AllowlistEntry)
| Rejected (e : EnrollmentError).

(** What the authorization must repeat of the pending challenge. *)
Definition authorization_mismatch (pending : PendingChallenge) (authorization : CoreAuthorization)
    (csr : CsrMetadata) (now : Z) : bool :=
  bool_decide (pc_core_identity pending ≠ ca_core_identity authorization)
  || bool_decide (pc_pairing_id pending ≠ ca_pairing_id authorization)
  || bool_decide (pc_target_id pending ≠ ca_target_id authorization)
  || bool_decide (pc_app_id pending ≠ ca_app_id authorization)
  || negb (pc_configuration_generation pending =? ca_configuration_generation authorization)
  || (ca_expires_at_epoch_seconds authorization <? now)
  || bool_decide (ca_csr_digest authorization ≠ csr_digest csr)
  || bool_decide (ca_code_proof authorization = zeros AUTHORITY_BYTES).

(** Neither issuing nor enrolling panics: the two [Panic] branches are never taken. *)
Definition accept (submission : EnrollmentSubmission) (now : Z) (f : FakeRelayEnrollment)
  : FakeRelayEnrollment * EnrollmentOutcome :=
  let authorization := es_authorization submission in
  match fe_pending f !! ca_challenge authorization with
  | None => (f, Rejected InvalidChallenge)
  | Some pending =>
      let remaining := delete (ca_challenge authorization) (fe_pending f) in
      let f1 := fe_set (fe_next_counter f) remaining (fe_consumed f) (fe_authority f) (fe_allowlist f) f in
      if ENROLLMENT_TTL_SECS <? u64_saturating_sub now (pc_created_at_epoch_seconds pending)
      then (f1, Rejected ChallengeExpired) else
      if authorization_mismatch pending authorization (es_csr submission) now
      then (f1, Rejected AuthorizationMismatch) else
      if bool_decide (ca_authorization_id authorization ∈ fe_consumed f)
      then (f1, Rejected AuthorizationUsed) else
      let consumed := {[ca_authorization_id authorization]} ∪ fe_consumed f in
      let '(authority, issued) := issue (es_csr submission) (ar_generation (fe_allowlist f)) now (fe_authority f) in
      match issued with
      | Ok certificate =>
          let '(allowlist, enrolled) := enroll certificate (fe_allowlist f) in
          let f2 := fe_set (fe_next_counter f) remaining consumed authority allowlist f in
          match enrolled with
          | Ok entry => (f2, Issued certificate entry)
          | Err e => (f2, Rejected e)
          | Panic => (f2, Rejected UpdateFailed)
          end
      | Err e => (fe_set (fe_next_counter f) remaining consumed authority (fe_allowlist f) f, Rejected e)
      | Panic => (fe_set (fe_next_counter f) remaining consumed authority (fe_allowlist f) f, Rejected UpdateFailed)
      end
  end.
End Exchange.

(** ** The update lock *)
Inductive UpdateSelector : Type := StableLatest.
Inductive UpdateStatus : Type := Running | Succeeded | Failed | UnknownStatus.

#[export] Instance UpdateSelector_eq_dec : EqDecision UpdateSelector.
Proof. solve_decision. Defined.
#[export] Instance UpdateStatus_eq_dec : EqDecision UpdateStatus.
Proof. solve_decision. Defined.

Record UpdateRequest : Type := {
  ur_request_id : list byte;
  ur_selector : UpdateSelector;
  ur_caller : list byte;
}.

Record FakeUpdateWorker : Type := {
  fw_running : bool;
  fw_next : UpdateStatus;
}.

Definition FakeUpdateWorker_default : FakeUpdateWorker := {| fw_running := false; fw_next := Succeeded |}.
Definition set_next (next : UpdateStatus) (w : FakeUpdateWorker) : FakeUpdateWorker :=
  {| fw_running := fw_running w; fw_next := next |}.

Definition start_at (request : UpdateRequest) (allowlist : AllowlistRegistry) (now : Z)
  : stateful FakeUpdateWorker EnrollmentError UpdateStatus := λ w,
  if bool_decide (ur_selector request ≠ StableLatest) then (w, Err UpdateUnauthorized) else
  match authorize_update_at allowlist (ur_caller request) now with
  | Err e => (w, Err e)
  | Panic => (w, Panic)
  | Ok _ =>
      if fw_running w then (w, Err UpdateBusy) else
      ({| fw_running := true; fw_next := fw_next w |}, Ok Running)
  end.

Definition complete : stateful FakeUpdateWorker EnrollmentError UpdateStatus := λ w,
  if negb (fw_running w) then (w, Err UpdateBusy) else
  ({| fw_running := false; fw_next := fw_next w |}, Ok (fw_next w)).

(** ** Operation sequences *)

(** A call on the allowlist. *)
Inductive allowlist_op : Type :=
| EnrollPending (certificate : CertificateMetadata)
| Enroll (certificate : CertificateMetadata)
| Activate (app_id fingerprint : list byte)
| Revoke (app_id : list byte).

Definition run_allowlist (r : AllowlistRegistry) (op : allowlist_op) : AllowlistRegistry :=
  match op with
  | EnrollPending certificate => (enroll_pending certificate r).1
  | Enroll certificate => (enroll certificate r).1
  | Activate app_id fingerprint => (activate app_id fingerprint r).1
  | Revoke app_id => (revoke app_id r).1
  end.

(** A call on the exchange, and the certificates it issues, by authorization. *)
Inductive exchange_op : Type :=
| Begin (core_identity pairing_id target_id app_id : list byte) (configuration_generation now : Z)
| Accept (submission : EnrollmentSubmission) (now : Z).

Definition run_exchange (sha256 : list byte → list byte)
    (w : FakeRelayEnrollment * list (CoreAuthorization * CertificateMetadata)) (op : exchange_op)
  : FakeRelayEnrollment * list (CoreAuthorization * CertificateMetadata) :=
  let '(f, issued) := w in
  match op with
  | Begin core pairing target app generation now => ((begin sha256 core pairing target app generation now f).1, issued)
  | Accept submission now =>
      match accept sha256 submission now f with
      | (f', Issued certificate _) => (f', (es_authorization submission, certificate) :: issued)
      | (f', Rejected _) => (f', issued)
      end
  end.

(** * Facts *)

(** ** The registry *)
Definition state_rank (s : AllowlistState) : Z :=
  match s with Pending => 0 | Active => 1 | Revoked => 2 end.

Record allowlist_wf (r : AllowlistRegistry) : Prop := {
  aw_generation : 1 ≤ ar_generation r ≤ u64_max;
  aw_entries : ∀ k e, ar_entries r !! k = Some e →
    ae_app_id e = k ∧ 1 ≤ ae_generation e ≤ ar_generation r;
}.

(** An entry as a later registry has it. *)
Definition entry_later (e e' : AllowlistEntry) : Prop :=
  ae_app_id e' = ae_app_id e ∧ ae_fingerprint e' = ae_fingerprint e ∧ ae_role e' = ae_role e
  ∧ ae_not_after_epoch_seconds e' = ae_not_after_epoch_seconds e
  ∧ ae_generation e ≤ ae_generation e' ∧ state_rank (ae_state e) ≤ state_rank (ae_state e').

#[export] Instance entry_later_preorder : PreOrder entry_later.
Proof.
  split; [intros e; split_and!; done|]. intros e1 e2 e3 (? & ? & ? & ? & ? & ?) (? & ? & ? & ? & ? & ?).
  split_and!; first [lia|congruence].
Qed.

(** What every call does to the registry: it keeps the entries in order, and a new entry
    is the one of a certificate the call enrolls. *)
Record allowlist_step (enrolls : list CertificateMetadata) (r r' : AllowlistRegistry) : Prop := {
  as_wf : allowlist_wf r';
  as_generation : ar_generation r ≤ ar_generation r';
  as_later : ∀ k e, ar_entries r !! k = Some e → ∃ e', ar_entries r' !! k = Some e' ∧ entry_later e e';
  as_new : ∀ k e', ar_entries r' !! k = Some e' →
    (∃ e, ar_entries r !! k = Some e ∧ entry_later e e')
    ∨ (∃ c, c ∈ enrolls ∧ cm_app_id c = k ∧ cm_fingerprint c = ae_fingerprint e');
}.

Lemma allowlist_step_refl cs r : allowlist_wf r → allowlist_step cs r r.
Proof. intros Hwf. split; [done|done| |]; intros k e He; [|left]; exists e; by split. Qed.

Lemma allowlist_step_trans cs1 cs2 r1 r2 r3 :
  allowlist_step cs1 r1 r2 → allowlist_step cs2 r2 r3 → allowlist_step (cs1 ++ cs2) r1 r3.
Proof.
  intros [] []. split; [done|lia| |].
  - intros k e (e2 & He2 & ?)%as_later0. destruct (as_later1 _ _ He2) as (e3 & ? & ?).
    exists e3. split; [done|by etrans].
  - intros k e3 He3. destruct (as_new1 _ _ He3) as [(e2 & He2 & H23)|(c & ? & ? & ?)].
    + destruct (as_new0 _ _ He2) as [(e & ? & H12)|(c & ? & ? & Hf)].
      * left. exists e. split; [done|by etrans].
      * right. exists c. rewrite elem_of_app. split_and!; [auto|done|]. destruct H23 as (_ & -> & _). done.
    + right. exists c. rewrite elem_of_app. auto.
Qed.

Lemma enroll_with_state_step c st r :
  allowlist_wf r → allowlist_step [c] r (enroll_with_state c st r).1.
Proof.
  intros Hwf. unfold enroll_with_state. destruct (_ || _) eqn:Hd; [by apply allowlist_step_refl|].
  destruct (u64_checked_add _ 1) as [g|] eqn:Hg; [|by apply allowlist_step_refl].
  apply u64_checked_add_Some in Hg as [-> Hg]. apply orb_false_iff in Hd as [Hnew _].
  apply bool_decide_eq_false, eq_None_not_Some in Hnew. destruct Hwf as [Hgen Hent]. split; simpl; [|lia| |].
  - split; simpl; [lia|]. intros k e [[<- <-]|[_ He]]%lookup_insert_Some; [simpl; split; [done|lia]|].
    destruct (Hent _ _ He). split; [done|lia].
  - intros k e He. exists e. rewrite lookup_insert_ne by congruence. by split.
  - intros k e [[<- <-]|[_ He]]%lookup_insert_Some; [right|left; exists e; by split].
    exists c. simpl. split_and!; [by left|done..].
Qed.

Lemma activate_step app f r : allowlist_wf r → allowlist_step [] r (activate app f r).1.
Proof.
  intros Hwf. unfold activate. destruct (ar_entries r !! app) as [e|] eqn:He; [|by apply allowlist_step_refl].
  destruct (_ || _) eqn:Hd; [by apply allowlist_step_refl|]. apply orb_false_iff in Hd as [Hp _].
  apply bool_decide_eq_false, dec_stable in Hp.
  assert (Hl : entry_later e (set_state Active e)) by (split_and!; simpl; rewrite ?Hp; simpl; lia || done).
  destruct Hwf as [Hgen Hent]. split; simpl; [|lia| |].
  - split; simpl; [done|]. intros k e' [[<- <-]|[_ He']]%lookup_insert_Some; [apply (Hent _ _ He)|by apply Hent].
  - intros k e' He'. destruct (decide (k = app)) as [->|Hne].
    + rewrite lookup_insert_eq. eexists. split; [done|]. congruence.
    + rewrite lookup_insert_ne by done. exists e'. by split.
  - intros k e' [[<- <-]|[_ He']]%lookup_insert_Some; left; [by exists e|exists e'; by split].
Qed.

Lemma revoke_value_later app g e :
  ae_generation e ≤ g → entry_later e (revoke_value app g e).
Proof.
  intros Hg. unfold revoke_value. case_bool_decide; split_and!; simpl; try done; try lia.
  destruct (ae_state e); simpl; lia.
Qed.

Lemma revoke_step app r : allowlist_wf r → allowlist_step [] r (revoke app r).1.
Proof.
  intros Hwf. unfold revoke. destruct (ar_entries r !! app) as [e|] eqn:He; [|by apply allowlist_step_refl].
  case_bool_decide; [by apply allowlist_step_refl|].
  destruct (u64_checked_add _ 1) as [g|] eqn:Hg; [|by apply allowlist_step_refl].
  apply u64_checked_add_Some in Hg as [-> Hg]. destruct Hwf as [Hgen Hent]. split; simpl; [|lia| |].
  - split; simpl; [lia|]. intros k e'. rewrite lookup_fmap, fmap_Some. intros (e0 & He0 & ->).
    destruct (Hent _ _ He0). unfold revoke_value. case_bool_decide; simpl; (split; [done|lia]).
  - intros k e0 He0. rewrite lookup_fmap, He0. eexists. split; [done|]. apply revoke_value_later.
    destruct (Hent _ _ He0). lia.
  - intros k e'. rewrite lookup_fmap, fmap_Some. intros (e0 & He0 & ->). left. exists e0. split; [done|].
    apply revoke_value_later. destruct (Hent _ _ He0). lia.
Qed.

(** The certificates a call tries to enroll. *)
Definition op_enrolls (op : allowlist_op) : list CertificateMetadata :=
  match op with EnrollPending c | Enroll c => [c] | _ => [] end.

Lemma run_allowlist_step r op : allowlist_wf r → allowlist_step (op_enrolls op) r (run_allowlist r op).
Proof.
  intros Hwf. destruct op; simpl; [by apply enroll_with_state_step..|by apply activate_step|by apply revoke_step].
Qed.

Lemma run_allowlist_steps r ops :
  allowlist_wf r → allowlist_step (ops ≫= op_enrolls) r (foldl run_allowlist r ops).
Proof.
  revert r. induction ops as [|op ops IH]; intros r Hwf; simpl; [by apply allowlist_step_refl|].
  pose proof (run_allowlist_step r op Hwf) as Hs. eapply allowlist_step_trans; [exact Hs|]. apply IH, Hs.
Qed.

Lemma new_wf : allowlist_wf AllowlistRegistry_new.
Proof. by split. Qed.

(** A successful revocation. *)
Lemma revoke_Ok app r r' g :
  allowlist_wf r → revoke app r = (r', Ok g) →
  g = ar_generation r + 1 ∧ ar_generation r' = g
  ∧ (∃ e, ar_entries r !! app = Some e ∧ ae_state e ≠ Revoked
       ∧ ar_entries r' !! app = Some (set_state Revoked (set_generation g e)))
  ∧ ∀ k, k ≠ app → ar_entries r' !! k = set_generation g <$> ar_entries r !! k.
Proof.
  intros [_ Hent]. unfold revoke. destruct (ar_entries r !! app) as [e|] eqn:He; [|done].
  case_bool_decide as Hs; [done|]. destruct (u64_checked_add _ 1) as [g'|] eqn:Hg; [|done].
  apply u64_checked_add_Some in Hg as [-> _]. intros [= <- <-]. simpl. split_and!; try done.
  - exists e. split_and!; [done..|]. rewrite lookup_fmap, He. simpl. unfold revoke_value.
    rewrite bool_decide_eq_true_2; [done|]. simpl. by apply Hent.
  - intros k Hk. rewrite lookup_fmap. destruct (ar_entries r !! k) as [e'|] eqn:He'; [|done]. simpl.
    unfold revoke_value. rewrite bool_decide_eq_false_2; [done|]. simpl. destruct (Hent _ _ He'). congruence.
Qed.

(** A fingerprint that no entry admits. *)
Definition inadmissible (fingerprint : list byte) (r : AllowlistRegistry) : Prop :=
  ∀ k e, ar_entries r !! k = Some e → ae_fingerprint e = fingerprint → ae_state e = Revoked.

Lemma inadmissible_refused fingerprint r now :
  inadmissible fingerprint r →
  allows_qrm_at r fingerprint now = false
  ∧ authorize_update_at r fingerprint now = Err UpdateUnauthorized.
Proof.
  intros Hin. assert (Hall : ∀ k e, ar_entries r !! k = Some e →
    bool_decide (ae_fingerprint e = fingerprint) && bool_decide (ae_state e = Active) = false).
  { intros k e He. case_bool_decide as Hf; [|done]. by rewrite (Hin _ _ He Hf). }
  split; [|unfold authorize_update_at; rewrite (proj2 (map_any_false _ _)); [done|]].
  - apply map_any_false. intros k e He. by rewrite (Hall k e He).
  - intros k e He. by rewrite (Hall k e He).
Qed.

(** The revocation of the only entry with a fingerprint. *)
Lemma revoke_inadmissible app r r' g e :
  allowlist_wf r → revoke app r = (r', Ok g) → entry r app = Some e →
  (∀ k e', entry r k = Some e' → ae_fingerprint e' = ae_fingerprint e → k = app) →
  inadmissible (ae_fingerprint e) r'.
Proof.
  intros Hwf Hr He Hsole. pose proof (revoke_Ok _ _ _ _ Hwf Hr) as (_ & _ & (e0 & He0 & _ & He0') & Hrest).
  intros k e' He' Hf. destruct (decide (k = app)) as [->|Hk].
  - rewrite He0' in He'. by injection He' as <-.
  - rewrite (Hrest k Hk) in He'. apply fmap_Some in He' as (e1 & He1 & ->). destruct Hk. by apply (Hsole k e1).
Qed.

Lemma inadmissible_steps fingerprint cs r r' :
  allowlist_step cs r r' → (∀ c, c ∈ cs → cm_fingerprint c ≠ fingerprint) →
  inadmissible fingerprint r → inadmissible fingerprint r'.
Proof.
  intros [_ _ _ Hnew] Hcs Hin k e' He' Hf.
  destruct (Hnew _ _ He') as [(e & He & _ & Hfe & _ & _ & _ & Hr)|(c & Hc & _ & Hfc)].
  - rewrite (Hin _ _ He) in Hr by congruence. destruct (ae_state e'); simpl in Hr; lia || done.
  - exfalso. apply (Hcs c Hc). congruence.
Qed.

Lemma start_at_refused request r now w :
  authorize_update_at r (ur_caller request) now = Err UpdateUnauthorized →
  start_at request r now w = (w, Err UpdateUnauthorized).
Proof. intros Ha. unfold start_at. case_bool_decide; [done|]. by rewrite Ha. Qed.

(** ** The exchange *)
Record exchange_wf (w : FakeRelayEnrollment * list (CoreAuthorization * CertificateMetadata)) : Prop := {
  xw_allowlist : allowlist_wf (fe_allowlist w.1);
  xw_ids : NoDup ((λ p, ca_authorization_id p.1) <$> w.2);
  xw_serials : NoDup ((λ p, cm_serial p.2) <$> w.2);
  xw_issued : ∀ a c, (a, c) ∈ w.2 →
    ca_authorization_id a ∈ fe_consumed w.1 ∧ cm_serial c < fa_next_serial (fe_authority w.1)
    ∧ ∃ e, entry (fe_allowlist w.1) (cm_app_id c) = Some e ∧ ae_fingerprint e = cm_fingerprint c
        ∧ ae_state e = Active ∧ ae_not_after_epoch_seconds e = cm_not_after_epoch_seconds c;
}.

Lemma issue_next sha256 csr g now a :
  fa_next_serial a ≤ fa_next_serial (issue sha256 csr g now a).1.
Proof.
  unfold issue. destruct (_ || _); [done|]. destruct (u64_checked_add _ 1) as [n|] eqn:Hn; [|done].
  apply u64_checked_add_Some in Hn as [-> _]. simpl. lia.
Qed.

Lemma issue_Ok sha256 csr g now a a' c :
  issue sha256 csr g now a = (a', Ok c) →
  fa_next_serial a' = fa_next_serial a + 1 ∧ cm_serial c = fa_next_serial a ∧ cm_app_id c = csr_app_id csr
  ∧ cm_fingerprint c = sha256 (certificate_preimage a (fa_next_serial a) csr)
  ∧ cm_allowlist_generation c = g ∧ cm_not_before_epoch_seconds c = now
  ∧ cm_not_after_epoch_seconds c = now + CERTIFICATE_VALIDITY_SECS.
Proof.
  unfold issue. destruct (_ || _); [done|]. destruct (u64_checked_add _ 1) as [n|] eqn:Hn; [|done].
  apply u64_checked_add_Some in Hn as [-> _]. intros [= <- Hc].
  apply bind_Ok in Hc as (fp & Hfp & Hc). apply bind_Ok in Hc as (na & Hna & [= <-]).
  apply ok_or_Ok, u64_checked_add_Some in Hna as [-> _].
  unfold Fingerprint_from_bytes in Hfp. case_bool_decide; [done|]. apply Ok_inj in Hfp as <-. done.
Qed.

Lemma enroll_Ok c r r' e :
  enroll c r = (r', Ok e) →
  ar_entries r !! cm_app_id c = None ∧ ar_entries r' = <[cm_app_id c := e]> (ar_entries r)
  ∧ ae_fingerprint e = cm_fingerprint c ∧ ae_state e = Active ∧ ae_generation e = ar_generation r + 1
  ∧ ae_not_after_epoch_seconds e = cm_not_after_epoch_seconds c.
Proof.
  unfold enroll, enroll_with_state. destruct (_ || _) eqn:Hd; [done|].
  apply orb_false_iff in Hd as [Hn _]. apply bool_decide_eq_false, eq_None_not_Some in Hn.
  destruct (u64_checked_add _ 1) as [g|] eqn:Hg; [|done]. apply u64_checked_add_Some in Hg as [-> _].
  by intros [= <- <-].
Qed.

(** Whatever the answer, an accepted submission keeps the earlier entries, consumptions and serials. *)
Lemma accept_mono sha256 s now f :
  allowlist_wf (fe_allowlist f) →
  let f' := (accept sha256 s now f).1 in
  allowlist_wf (fe_allowlist f') ∧ fe_consumed f ⊆ fe_consumed f'
  ∧ fa_next_serial (fe_authority f) ≤ fa_next_serial (fe_authority f')
  ∧ ∀ k e, ar_entries (fe_allowlist f) !! k = Some e → ar_entries (fe_allowlist f') !! k = Some e.
Proof.
  intros Hwf. unfold accept. destruct (fe_pending f !! _) as [p|]; [|done].
  destruct (ENROLLMENT_TTL_SECS <? _); [done|]. destruct (authorization_mismatch _ _ _ _); [done|].
  case_bool_decide; [done|].
  pose proof (issue_next sha256 (es_csr s) (ar_generation (fe_allowlist f)) now (fe_authority f)) as Hnext.
  destruct (issue _ _ _ _ _) as [a [c|e|]]; simpl in *; [|split_and!; [done|set_solver|done|done]..].
  pose proof (enroll_with_state_step c Active _ Hwf) as [Hwf' _ _ _].
  destruct (enroll c (fe_allowlist f)) as [al o] eqn:He.
  assert (Hal : al = (enroll_with_state c Active (fe_allowlist f)).1) by (unfold enroll in He; by rewrite He).
  rewrite <-Hal in Hwf'.
  assert (Hent : ∀ k e, ar_entries (fe_allowlist f) !! k = Some e → ar_entries al !! k = Some e).
  { intros k e Hk. rewrite Hal. unfold enroll_with_state. destruct (_ || _) eqn:Hd; [done|].
    apply orb_false_iff in Hd as [Hn _]. apply bool_decide_eq_false, eq_None_not_Some in Hn.
    destruct (u64_checked_add _ 1); [|done]. simpl. rewrite lookup_insert_ne; [done|congruence]. }
  destruct o; simpl; (split_and!; [done|set_solver|done|done]).
Qed.

Lemma accept_Issued sha256 s now f f' c e :
  accept sha256 s now f = (f', Issued c e) →
  let a := es_authorization s in
  ∃ p, fe_pending f !! ca_challenge a = Some p
  ∧ u64_saturating_sub now (pc_created_at_epoch_seconds p) ≤ ENROLLMENT_TTL_SECS
  ∧ authorization_mismatch p a (es_csr s) now = false
  ∧ ca_authorization_id a ∉ fe_consumed f
  ∧ fe_pending f' = delete (ca_challenge a) (fe_pending f)
  ∧ fe_consumed f' = {[ca_authorization_id a]} ∪ fe_consumed f
  ∧ (∃ al, issue sha256 (es_csr s) (ar_generation (fe_allowlist f)) now (fe_authority f) = (al, Ok c)
       ∧ fe_authority f' = al)
  ∧ enroll c (fe_allowlist f) = (fe_allowlist f', Ok e).
Proof.
  unfold accept. destruct (fe_pending f !! _) as [p|] eqn:Hp; [|done].
  destruct (ENROLLMENT_TTL_SECS <? _) eqn:Ht; [done|]. destruct (authorization_mismatch _ _ _ _) eqn:Hm; [done|].
  case_bool_decide as Hc; [done|]. destruct (issue _ _ _ _ _) as [a [c'|e'|]] eqn:Hi; [|done..].
  destruct (enroll c' (fe_allowlist f)) as [al [e0|e0|]] eqn:He; [|done..]. intros [= <- -> ->].
  bool_facts. exists p. simpl. split_and!; try done. by exists a.
Qed.

(** Whatever the answer, the challenge an accepted submission names is gone. *)
Lemma accept_spends sha256 s now f :
  fe_pending (accept sha256 s now f).1 = delete (ca_challenge (es_authorization s)) (fe_pending f).
Proof.
  unfold accept. destruct (fe_pending f !! _) as [p|] eqn:Hp; [|by rewrite delete_id].
  destruct (ENROLLMENT_TTL_SECS <? _); [done|]. destruct (authorization_mismatch _ _ _ _); [done|].
  case_bool_decide; [done|]. destruct (issue _ _ _ _ _) as [a [c|e|]]; [|done..].
  by destruct (enroll c (fe_allowlist f)) as [al [e0|e0|]].
Qed.

Lemma begin_keeps sha256 core pairing target app g now f :
  let f' := (begin sha256 core pairing target app g now f).1 in
  fe_allowlist f' = fe_allowlist f ∧ fe_consumed f' = fe_consumed f ∧ fe_authority f' = fe_authority f.
Proof.
  unfold begin. destruct (bounded_identity pairing ≫= _) as [[p t]|e|]; [|done..].
  destruct (u64_checked_add _ 1); [|done]. by destruct (EnrollmentChallenge_from_bytes _).
Qed.

Lemma run_exchange_wf sha256 w op : exchange_wf w → exchange_wf (run_exchange sha256 w op).
Proof.
  destruct w as [f issued]. intros [Hal Hids Hser Hiss]. simpl in *. destruct op as [core pr tg app g now|s now]; simpl.
  - pose proof (begin_keeps sha256 core pr tg app g now f) as (Ha & Hc & Hau).
    split; simpl; rewrite ?Ha, ?Hc, ?Hau; done.
  - pose proof (accept_mono sha256 s now f Hal) as (Hal' & Hc' & Hs' & He').
    assert (Hold : ∀ a c, (a, c) ∈ issued →
      ca_authorization_id a ∈ fe_consumed (accept sha256 s now f).1
      ∧ cm_serial c < fa_next_serial (fe_authority (accept sha256 s now f).1)
      ∧ ∃ e, entry (fe_allowlist (accept sha256 s now f).1) (cm_app_id c) = Some e ∧ ae_fingerprint e = cm_fingerprint c
        ∧ ae_state e = Active ∧ ae_not_after_epoch_seconds e = cm_not_after_epoch_seconds c).
    { intros a c Hin. destruct (Hiss a c Hin) as (? & ? & e & He & ?). split_and!; [set_solver|lia|].
      exists e. split; [by apply He'|done]. }
    destruct (accept sha256 s now f) as [f' [c e|er]] eqn:Hacc; simpl in *; [|by split].
    apply accept_Issued in Hacc as (p & _ & _ & _ & Hfresh & _ & Hcons & (al & Hi & Hau) & Hen).
    apply issue_Ok in Hi as (Hnext & Hserial & _). apply enroll_Ok in Hen as (_ & Hent & Hfp & Hst & _ & Hna).
    split; simpl; [done| | |].
    + constructor; [|done]. rewrite list_elem_of_fmap. intros ([a0 c0] & Heq & Hin).
      destruct (Hiss _ _ Hin) as [? _]. simpl in Heq. congruence.
    + constructor; [|done]. rewrite list_elem_of_fmap. intros ([a0 c0] & Heq & Hin).
      destruct (Hiss _ _ Hin) as (_ & ? & _). simpl in Heq. lia.
    + intros a0 c0 [[= -> ->]|Hin]%elem_of_cons; [|by apply Hold]. rewrite Hcons, Hau. split_and!; [set_solver|lia|].
      exists e. unfold entry. rewrite Hent, lookup_insert_eq. done.
Qed.

Lemma run_exchange_steps sha256 w ops : exchange_wf w → exchange_wf (foldl (run_exchange sha256) w ops).
Proof. revert w. induction ops as [|op ops IH]; intros w Hw; simpl; [done|]. by apply IH, run_exchange_wf. Qed.

Lemma exchange_new_wf seed ca_seed f : FakeRelayEnrollment_new seed ca_seed = Ok f → exchange_wf (f, []).
Proof.
  unfold FakeRelayEnrollment_new. case_bool_decide; [done|]. intros (a & _ & [= <-])%bind_Ok.
  split; simpl; [apply new_wf|constructor..|]. intros a0 c0 []%elem_of_nil.
Qed.

(** ** Observations *)

(** A second pending entry with the fingerprint of another is activated too: the duplicate
    check looks at active entries only. *)
Definition example_certificate (app : list byte) : CertificateMetadata :=
  {| cm_app_id := app; cm_fingerprint := str_lit "fp"; cm_serial := 1; cm_allowlist_generation := 1;
     cm_not_before_epoch_seconds := 1; cm_not_after_epoch_seconds := 100 |}.

Lemma shared_fingerprint_survives_revocation :
  let r := foldl run_allowlist AllowlistRegistry_new
    [EnrollPending (example_certificate (str_lit "a")); EnrollPending (example_certificate (str_lit "b"));
     Activate (str_lit "a") (str_lit "fp"); Activate (str_lit "b") (str_lit "fp"); Revoke (str_lit "a")] in
  allows_qrm_at r (str_lit "fp") 50 = true.
Proof. by vm_compute. Qed.

(** A persisted entry filed under another name passes the load check, and revoking the name
    it is filed under reports success and leaves it active. *)
Lemma misfiled_entry_survives_revocation :
  let e := {| ae_app_id := str_lit "b"; ae_fingerprint := str_lit "fp"; ae_role := RelayUpdateAdmin;
              ae_state := Active; ae_generation := 1; ae_not_after_epoch_seconds := 100 |} in
  let r := {| ar_generation := 1; ar_entries := {[str_lit "a" := e]} |} in
  validate_persisted r = Ok tt ∧ is_ok (revoke (str_lit "a") r).2 = true
  ∧ allows_qrm_at (revoke (str_lit "a") r).1 (str_lit "fp") 50 = true.
Proof. split_and!; by vm_compute. Qed.

(** Whatever calls follow a revocation, as long as none enrolls the fingerprint anew. *)
Lemma revoked_stays_inadmissible app r r' g e ops :
  allowlist_wf r → revoke app r = (r', Ok g) → entry r app = Some e →
  (∀ k e', entry r k = Some e' → ae_fingerprint e' = ae_fingerprint e → k = app) →
  (∀ c, c ∈ ops ≫= op_enrolls → cm_fingerprint c ≠ ae_fingerprint e) →
  inadmissible (ae_fingerprint e) (foldl run_allowlist r' ops).
Proof.
  intros Hwf Hr He Hsole Hops. pose proof (revoke_step app r Hwf) as [Hwf' _ _ _]. rewrite Hr in Hwf'.
  pose proof (revoke_inadmissible _ _ _ _ _ Hwf Hr He Hsole) as Hin.
  by apply (inadmissible_steps _ _ _ _ (run_allowlist_steps r' ops Hwf') Hops).
Qed.

(** An answer that treats the fingerprint as admitted comes from an active entry. *)
Definition admits (fingerprint : list byte) (request : UpdateRequest) (now : Z) (w : FakeUpdateWorker)
    (r : AllowlistRegistry) : Prop :=
  allows_qrm_at r fingerprint now = true
  ∨ authorize_update_at r fingerprint now ≠ Err UpdateUnauthorized
  ∨ start_at request r now w ≠ (w, Err UpdateUnauthorized).

Lemma admits_active fingerprint request now w r :
  ur_caller request = fingerprint → admits fingerprint request now w r →
  ∃ k e, entry r k = Some e ∧ ae_fingerprint e = fingerprint ∧ ae_state e = Active.
Proof.
  intros Hc Ha.
  assert (Hu : allows_qrm_at r fingerprint now = true ∨ authorize_update_at r fingerprint now ≠ Err UpdateUnauthorized).
  { destruct Ha as [?|[?|Hs]]; [by left|by right|right]. intros Hu. apply Hs, start_at_refused. by rewrite Hc. }
  unfold allows_qrm_at, authorize_update_at in Hu.
  assert (Hany : map_any (λ e, bool_decide (ae_fingerprint e = fingerprint) && bool_decide (ae_state e = Active))
                   (ar_entries r) = true).
  { destruct Hu as [Hq|Hq].
    - apply map_any_true in Hq as (k & e & He & Hq). apply map_any_true. exists k, e.
      split; [done|]. by apply andb_prop in Hq as [Hq _].
    - destruct (map_any _ _) eqn:Hm in Hq; [|done]. apply map_any_true in Hm as (k & e & He & Hm).
      apply map_any_true. exists k, e. split; [done|]. by apply andb_prop in Hm as [[Hm _]%andb_prop _]. }
  apply map_any_true in Hany as (k & e & He & Hk). exists k, e. by bool_facts.
Qed.

(** Whatever follows a revocation: the entry stays revoked, and an active entry with its
    fingerprint is another App's, unrevoked already before it or of a later certificate. *)
Lemma revoked_entry_stays app r r' g e ops :
  allowlist_wf r → revoke app r = (r', Ok g) → entry r app = Some e →
  let r'' := foldl run_allowlist r' ops in
  (∃ e', entry r'' app = Some e' ∧ ae_fingerprint e' = ae_fingerprint e ∧ ae_state e' = Revoked)
  ∧ ∀ k e', entry r'' k = Some e' → ae_fingerprint e' = ae_fingerprint e → ae_state e' = Active →
      k ≠ app
      ∧ ((∃ e1, entry r k = Some e1 ∧ ae_fingerprint e1 = ae_fingerprint e ∧ ae_state e1 ≠ Revoked)
         ∨ ∃ c, c ∈ ops ≫= op_enrolls ∧ cm_app_id c = k ∧ cm_fingerprint c = ae_fingerprint e).
Proof.
  intros Hwf Hr He r''. pose proof (revoke_step app r Hwf) as [Hwf' _ _ _]. rewrite Hr in Hwf'.
  pose proof (run_allowlist_steps r' ops Hwf') as [_ _ Hlater Hnew]. fold r'' in Hlater, Hnew.
  pose proof (revoke_Ok _ _ _ _ Hwf Hr) as (_ & _ & (e0 & He0 & _ & He0') & Hrest).
  assert (e0 = e) as -> by (unfold entry in He; congruence).
  assert (Hrev : ∃ e', entry r'' app = Some e' ∧ ae_fingerprint e' = ae_fingerprint e ∧ ae_state e' = Revoked).
  { destruct (Hlater _ _ He0') as (e' & He' & _ & Hf & _ & _ & _ & Hs). exists e'. split_and!; [done|done|].
    by destruct (ae_state e'); simpl in Hs; try lia. }
  split; [done|]. intros k e' He' Hf Ha.
  assert (Hk : k ≠ app). { intros ->. destruct Hrev as (e1 & He1 & _ & Hs). congruence. }
  split; [done|]. destruct (Hnew _ _ He') as [(e1 & He1 & _ & Hf1 & _ & _ & _ & Hs)|(c & Hc & Hck & Hcf)].
  - left. rewrite (Hrest k Hk) in He1. apply fmap_Some in He1 as (e2 & He2 & ->). simpl in *.
    exists e2. split_and!; [done|congruence|]. intros Hrv. rewrite Hrv, Ha in Hs. simpl in Hs. lia.
  - right. exists c. split_and!; [done|done|congruence].
Qed.

(** * Properties *)

(** C12. Calls on the allowlist, in any number and order, keep it well formed, never lower
    its generation, and never lose or rewrite an entry: the application, fingerprint, role
    and expiry stay, the entry's generation does not fall, and its state only moves from
    pending to active to revoked.  An entry that was not there before is the one of a
    certificate that some call enrolled, and a successful revocation raises the generation
    by exactly one, stamps it on every entry and leaves the states of the others alone. *)
Theorem allowlist_lifecycle r ops :
  allowlist_wf r →
  let r' := foldl run_allowlist r ops in
  allowlist_wf r' ∧ ar_generation r ≤ ar_generation r'
  ∧ (∀ app e, entry r app = Some e → ∃ e', entry r' app = Some e'
       ∧ ae_app_id e' = ae_app_id e ∧ ae_fingerprint e' = ae_fingerprint e ∧ ae_role e' = ae_role e
       ∧ ae_not_after_epoch_seconds e' = ae_not_after_epoch_seconds e
       ∧ ae_generation e ≤ ae_generation e' ∧ state_rank (ae_state e) ≤ state_rank (ae_state e'))
  ∧ (∀ app e', entry r' app = Some e' → entry r app = None →
       ∃ c, c ∈ ops ≫= op_enrolls ∧ cm_app_id c = app ∧ cm_fingerprint c = ae_fingerprint e')
  ∧ (∀ app g, (revoke app r').2 = Ok g →
       g = ar_generation r' + 1 ∧ ar_generation (revoke app r').1 = g
       ∧ ∀ k, entry (revoke app r').1 k =
              (λ e, if bool_decide (k = app) then set_state Revoked (set_generation g e) else set_generation g e)
              <$> entry r' k).
Proof.
  intros Hwf r'. pose proof (run_allowlist_steps r ops Hwf) as [Hwf' Hg Hlater Hnew]. fold r' in Hwf', Hg, Hlater, Hnew.
  split_and!; [done|done|exact Hlater| |].
  - intros app e' He' Hn. destruct (Hnew _ _ He') as [(e & He & _)|Hc]; [|exact Hc].
    unfold entry in Hn. congruence.
  - intros app g Hr. apply run_outcome in Hr. pose proof (revoke_Ok _ _ _ _ Hwf' Hr) as (Hgen & Hg' & (e & He & _ & He2) & Hrest).
    split_and!; [done|done|]. intros k. unfold entry. case_bool_decide as Hk; [subst k; by rewrite He, He2|].
    rewrite (Hrest k Hk). done.
Qed.

Lemma allowlist_lifecycle_witness :
  let r' := foldl run_allowlist AllowlistRegistry_new
    [Enroll (example_certificate (str_lit "a")); Revoke (str_lit "a"); Enroll (example_certificate (str_lit "b"))] in
  allowlist_wf r' ∧ ar_generation r' = 4.
Proof.
  intros r'. split; [|by vm_compute].
  apply (allowlist_lifecycle AllowlistRegistry_new
    [Enroll (example_certificate (str_lit "a")); Revoke (str_lit "a"); Enroll (example_certificate (str_lit "b"))] new_wf).
Defined.

(** C13. Revocation is final.  Whatever calls follow a successful revocation, the entry of
    the revoked App stays, revoked.  If its fingerprint is still admitted to the relay,
    authorized to update or started an update, then another App holds an active entry with
    the same fingerprint, which was there unrevoked before the revocation or was enrolled
    after it.  So when the revoked entry was the only one with its fingerprint and no later
    call enrolls that fingerprint anew, no instant admits it or authorizes it, and the
    update worker refuses it and stays as it was. *)
Theorem revocation_is_final app r r' g e ops now request w :
  allowlist_wf r →
  revoke app r = (r', Ok g) → entry r app = Some e →
  ur_caller request = ae_fingerprint e →
  let r'' := foldl run_allowlist r' ops in
  (∃ e', entry r'' app = Some e' ∧ ae_fingerprint e' = ae_fingerprint e ∧ ae_state e' = Revoked)
  ∧ (admits (ae_fingerprint e) request now w r'' →
     ∃ k e', k ≠ app ∧ entry r'' k = Some e' ∧ ae_fingerprint e' = ae_fingerprint e ∧ ae_state e' = Active
       ∧ ((∃ e1, entry r k = Some e1 ∧ ae_fingerprint e1 = ae_fingerprint e ∧ ae_state e1 ≠ Revoked)
          ∨ ∃ c, c ∈ ops ≫= op_enrolls ∧ cm_app_id c = k ∧ cm_fingerprint c = ae_fingerprint e))
  ∧ ((∀ k e', entry r k = Some e' → ae_fingerprint e' = ae_fingerprint e → k = app) →
     (∀ c, c ∈ ops ≫= op_enrolls → cm_fingerprint c ≠ ae_fingerprint e) →
     allows_qrm_at r'' (ae_fingerprint e) now = false
     ∧ authorize_update_at r'' (ae_fingerprint e) now = Err UpdateUnauthorized
     ∧ start_at request r'' now w = (w, Err UpdateUnauthorized)).
Proof.
  intros Hwf Hr He Hcaller r''.
  pose proof (revoked_entry_stays _ _ _ _ _ ops Hwf Hr He) as [Hstays Hothers]. fold r'' in Hstays, Hothers.
  split_and!; [done| |].
  - intros (k & e' & He' & Hf & Ha)%admits_active; [|done]. destruct (Hothers _ _ He' Hf Ha) as [Hk Hwhy].
    exists k, e'. by split_and!.
  - intros Hsole Hops. pose proof (revoked_stays_inadmissible _ _ _ _ _ ops Hwf Hr He Hsole Hops) as Hin'.
    destruct (inadmissible_refused _ _ now Hin') as [Hq Hu].
    split_and!; [done|done|]. apply start_at_refused. by rewrite Hcaller.
Qed.

Lemma revocation_is_final_witness :
  let r := foldl run_allowlist AllowlistRegistry_new [Enroll (example_certificate (str_lit "a"))] in
  let other := {| cm_app_id := str_lit "b"; cm_fingerprint := str_lit "other"; cm_serial := 2;
                  cm_allowlist_generation := 2; cm_not_before_epoch_seconds := 1; cm_not_after_epoch_seconds := 100 |} in
  let request := {| ur_request_id := []; ur_selector := StableLatest; ur_caller := str_lit "fp" |} in
  let r'' := foldl run_allowlist (revoke (str_lit "a") r).1 [Enroll other] in
  start_at request r'' 50 FakeUpdateWorker_default = (FakeUpdateWorker_default, Err UpdateUnauthorized).
Proof.
  intros r other request r''.
  pose (e := {| ae_app_id := str_lit "a"; ae_fingerprint := str_lit "fp"; ae_role := RelayUpdateAdmin;
                ae_state := Active; ae_generation := 2; ae_not_after_epoch_seconds := 100 |}).
  assert (Hwf : allowlist_wf r)
    by (apply (run_allowlist_steps AllowlistRegistry_new [Enroll (example_certificate (str_lit "a"))]), new_wf).
  assert (Hr : revoke (str_lit "a") r = ((revoke (str_lit "a") r).1, Ok 3)) by (apply run_outcome; by vm_compute).
  assert (He : entry r (str_lit "a") = Some e) by (by vm_compute).
  apply (revocation_is_final (str_lit "a") r (revoke (str_lit "a") r).1 3 e [Enroll other] 50 request
           FakeUpdateWorker_default Hwf Hr He eq_refl).
  - intros k e' He' _. assert (Hent : ar_entries r = <[str_lit "a" := e]> ∅) by (by vm_compute).
    unfold entry in He'. rewrite Hent in He'. apply lookup_insert_Some in He' as [[<- _]|[_ He0]]; [done|].
    by rewrite lookup_empty in He0.
  - intros c [->|[]%elem_of_nil]%elem_of_cons. by vm_compute.
Defined.

(** Enrollment is single use.  From a new relay, whatever challenges are begun and
    submissions accepted, no two certificates are issued for one authorization or under one
    serial, each issued certificate's application is active in the allowlist with its
    fingerprint and expiry, and the allowlist stays well formed.  A submission spends the
    challenge it names whatever the answer, and one that is answered with a certificate
    named a challenge begun at most [ENROLLMENT_TTL_SECS] ago for the same core, pairing,
    target, application and configuration generation, with an unexpired and unused
    authorization over the same certificate request. *)
Lemma enrollment_single_use sha256 seed ca_seed f0 ops :
  FakeRelayEnrollment_new seed ca_seed = Ok f0 →
  let '(f, issued) := foldl (run_exchange sha256) (f0, []) ops in
  NoDup ((λ p, ca_authorization_id p.1) <$> issued) ∧ NoDup ((λ p, cm_serial p.2) <$> issued)
  ∧ allowlist_wf (fe_allowlist f)
  ∧ (∀ a c, (a, c) ∈ issued → ∃ e, entry (fe_allowlist f) (cm_app_id c) = Some e
       ∧ ae_fingerprint e = cm_fingerprint c ∧ ae_state e = Active
       ∧ ae_not_after_epoch_seconds e = cm_not_after_epoch_seconds c)
  ∧ ∀ s now, let a := es_authorization s in
      fe_pending (accept sha256 s now f).1 !! ca_challenge a = None
      ∧ ∀ c e, (accept sha256 s now f).2 = Issued c e →
          ∃ p, fe_pending f !! ca_challenge a = Some p
          ∧ now - pc_created_at_epoch_seconds p ≤ ENROLLMENT_TTL_SECS ∧ now ≤ ca_expires_at_epoch_seconds a
          ∧ pc_core_identity p = ca_core_identity a ∧ pc_pairing_id p = ca_pairing_id a
          ∧ pc_target_id p = ca_target_id a ∧ pc_app_id p = ca_app_id a
          ∧ pc_configuration_generation p = ca_configuration_generation a
          ∧ ca_csr_digest a = csr_digest (es_csr s) ∧ cm_app_id c = csr_app_id (es_csr s)
          ∧ ca_authorization_id a ∉ fe_consumed f
          ∧ cm_not_after_epoch_seconds c = now + CERTIFICATE_VALIDITY_SECS.
Proof.
  intros Hnew. pose proof (run_exchange_steps sha256 _ ops (exchange_new_wf _ _ _ Hnew)) as Hwf.
  destruct (foldl _ _ _) as [f issued]. destruct Hwf as [Hal Hids Hser Hiss]. simpl in *. split_and!; try done.
  - intros a c Hin. by destruct (Hiss _ _ Hin) as (_ & _ & ?).
  - intros s now. split; [rewrite accept_spends; apply lookup_delete_eq|]. intros c e Hacc.
    apply run_outcome in Hacc. apply accept_Issued in Hacc as (p & Hp & Ht & Hm & Hfr & _ & _ & (al & Hi & _) & _).
    apply issue_Ok in Hi as (_ & _ & Happ & _ & _ & _ & Hna). unfold authorization_mismatch in Hm.
    unfold u64_saturating_sub in Ht. exists p. bool_facts. split_and!; try done. lia.
Qed.

Definition example_submission : EnrollmentSubmission :=
  {| es_authorization := {| ca_core_identity := str_lit "core"; ca_authorization_id := str_lit "id";
       ca_pairing_id := str_lit "p"; ca_target_id := str_lit "t"; ca_app_id := str_lit "a";
       ca_challenge := str_lit "digest"; ca_csr_digest := str_lit "csr"; ca_code_proof := str_lit "proof";
       ca_configuration_generation := 1; ca_expires_at_epoch_seconds := 100 |};
     es_csr := {| csr_app_id := str_lit "a"; csr_digest := str_lit "csr"; csr_byte_len := 3 |} |}.

Lemma enrollment_single_use_witness :
  ∃ f0, FakeRelayEnrollment_new (str_lit "seed") (str_lit "ca") = Ok f0 ∧
  let sha256 := λ _ : list byte, str_lit "digest" in
  let ops := [Begin (str_lit "core") (str_lit "p") (str_lit "t") (str_lit "a") 1 10; Accept example_submission 20] in
  length (foldl (run_exchange sha256) (f0, []) ops).2 = 1%nat
  ∧ NoDup ((λ p, cm_serial p.2) <$> (foldl (run_exchange sha256) (f0, []) ops).2).
Proof.
  eexists. split; [reflexivity|]. intros sha256 ops. split; [by vm_compute|].
  match goal with |- NoDup (_ <$> (foldl _ (?f0, []) _).2) =>
    pose proof (enrollment_single_use sha256 (str_lit "seed") (str_lit "ca") f0 ops eq_refl) as H end.
  destruct (foldl _ _ _) as [f issued]. by destruct H as (_ & ? & _).
Defined.
