(* ===== verification/Paths.v ===== *)
(** * Paths (the part of std::path the program uses)

    A [Path] is compared, split and walked through its components, so a path is modelled
    as the list of them; [components] is the parse of the byte string.  A trailing slash
    and interior [.] segments leave no component, as in the standard library. *)
From S2P Require Export Bytes Errors.

Inductive Component : Type :=
| RootDir
| CurDir
| ParentDir
| Normal (name : list byte).

#[export] Instance Component_eq_dec : EqDecision Component.
Proof. solve_decision. Defined.

Definition component_code (c : Component) : option bool + list byte :=
  match c with
  | RootDir => inl None | CurDir => inl (Some true) | ParentDir => inl (Some false)
  | Normal name => inr name
  end.
Definition component_decode (s : option bool + list byte) : Component :=
  match s with
  | inl None => RootDir | inl (Some true) => CurDir | inl (Some false) => ParentDir
  | inr name => Normal name
  end.
#[export] Instance Component_countable : Countable Component.
Proof. apply (inj_countable' component_code component_decode). by intros []. Defined.

Abbreviation path := (list Component).

(** The segments between slashes. *)
Fixpoint split_slash (s : list byte) : list (list byte) :=
  match s with
  | [] => [[]]
  | b :: s' =>
      if bool_decide (b = x2f) then [] :: split_slash s' else
      match split_slash s' with
      | segment :: rest => (b :: segment) :: rest
      | [] => [[b]]
      end
  end.

Definition segment_component (segment : list byte) : option Component :=
  if bool_decide (segment = []) || bool_decide (segment = [x2e]) then None
  else if bool_decide (segment = [x2e; x2e]) then Some ParentDir
  else Some (Normal segment).

(** [Path::components]: a leading [.] of a relative path is kept. *)
Definition components (s : list byte) : path :=
  match s with
  | [] => []
  | b :: _ =>
      if bool_decide (b = x2f) then RootDir :: omap segment_component (split_slash s) else
      (if bool_decide (head (split_slash s) = Some [x2e]) then [CurDir] else [])
      ++ omap segment_component (split_slash s)
  end.

(** [Path::is_absolute], [Path::new("/")], [Path::parent], [Path::file_name] and [Path::join]
    of a single name. *)
Definition is_absolute (p : path) : bool := bool_decide (head p = Some RootDir).
Definition root_path : path := [RootDir].
Definition path_parent (p : path) : option path :=
  match last p with
  | None | Some RootDir => None
  | Some _ => Some (take (length p - 1) p)
  end.
Definition path_file_name (p : path) : option (list byte) :=
  match last p with
  | Some (Normal name) => Some name
  | _ => None
  end.
Definition path_join (p : path) (name : list byte) : path := p ++ [Normal name].

(** [OsStr::to_str]. *)
Definition to_str (name : list byte) : option (list byte) := from_utf8 name.

(** [validate_absolute_path] of config.rs. *)
Definition validate_absolute_path (field : string) (p : path) : relay_result unit :=
  if negb (is_absolute p) || bool_decide (p = root_path)
  then Err (InvalidConfiguration field "must be an absolute non-root path")
  else Ok tt.

(** * Facts *)
Example components_interior_dot :
  components (str_lit "/a/./b//c/") = [RootDir; Normal (str_lit "a"); Normal (str_lit "b"); Normal (str_lit "c")].
Proof. by vm_compute. Qed.

(** The components of an absolute path never hold a [CurDir]. *)
Lemma components_no_CurDir s : head s = Some x2f → CurDir ∉ components s.
Proof.
  intros Hh. destruct s as [|b s]; [done|]. injection Hh as ->. unfold components.
  rewrite bool_decide_eq_true_2 by done. rewrite elem_of_cons, list_elem_of_omap.
  intros [?|(seg & _ & Hs)]; [done|]. unfold segment_component in Hs. repeat case_match; done.
Qed.

Lemma path_parent_snoc p name : path_parent (p ++ [Normal name]) = Some p.
Proof.
  unfold path_parent. rewrite last_snoc, length_app. simpl.
  rewrite Nat.add_sub, take_app_length. done.
Qed.

Lemma path_file_name_Some p name : path_file_name p = Some name → ∃ q, p = q ++ [Normal name] ∧ path_parent p = Some q.
Proof.
  unfold path_file_name. destruct (last p) as [c|] eqn:Hl; [|done]. destruct c; try done. intros [= ->].
  apply last_Some in Hl as [q ->]. exists q. split; [done|apply path_parent_snoc].
Qed.

Lemma validate_absolute_path_Ok field p :
  validate_absolute_path field p = Ok tt ↔ is_absolute p = true ∧ p ≠ root_path.
Proof.
  unfold validate_absolute_path. destruct (is_absolute p); simpl; [|naive_solver].
  case_bool_decide; naive_solver.
Qed.
