(* ===== verification/Material.v ===== *)
(** * Protected files (src/src/material.rs)

    Reading and replacing the deployment files: the checks of path components, ancestors,
    owner, mode and size, and the atomic replacement through a temporary file.  The file
    system is a map from paths to nodes, as the program's own look-ups see them (a node
    reached through a symbolic link is filed under the path that reaches it).
    [MaterialIo] says which system calls of one call fail. *)
From S2P Require Export Paths.

Definition MAX_PUBLIC_MATERIAL_BYTES : Z := 128 * 1024.
Definition MAX_PUBLIC_PROTECTED_FILE_BYTES : Z := 128 * 1024 * 1024.
Definition MAX_PRIVATE_MATERIAL_BYTES : Z := 64 * 1024.
Definition MAX_ALLOWLIST_BYTES : Z := 256 * 1024.

Inductive ProtectedFileKind : Type := Public | Private | Allowlist.

Definition max_bytes (kind : ProtectedFileKind) : Z :=
  match kind with
  | Public => MAX_PUBLIC_PROTECTED_FILE_BYTES
  | Private => MAX_PRIVATE_MATERIAL_BYTES
  | Allowlist => MAX_ALLOWLIST_BYTES
  end.

(** ** The file system *)
Inductive FileKind : Type := IsFile | IsDir | IsSymlink | IsSocket | IsOther.

#[export] Instance FileKind_eq_dec : EqDecision FileKind.
Proof. solve_decision. Defined.

Record Node : Type := {
  nd_kind : FileKind;
  nd_uid : Z;
  nd_mode : Z;
  nd_dev : Z;
  nd_ino : Z;
  nd_bytes : list byte;
}.

(** [Metadata::len] of a regular file. *)
Definition nd_len (n : Node) : Z := len (nd_bytes n).

Abbreviation FileSystem := (gmap path Node).

(** The failures and the surroundings of the system calls of one call: which look-ups fail
    (with an error other than [NotFound], which the file system decides), what a file read
    delivers of the content it was opened on, and the identity new files get. *)
Record MaterialIo : Type := {
  mi_lstat_fails : path → bool;
  mi_open_fails : bool;
  mi_fstat_fails : bool;
  mi_read : list byte → option (list byte);
  mi_euid : Z;
  mi_umask : Z;
  mi_dev : Z;
  mi_new_ino : Z;
  mi_pid : Z;
  mi_random : Z;
  mi_create_fails : bool;
  mi_written : list byte → list byte;
  mi_write_fails : bool;
  mi_sync_fails : bool;
  mi_chmod_fails : bool;
  mi_rename_fails : bool;
}.

(** [fs::symlink_metadata]. *)
Inductive LstatResult : Type := Found (n : Node) | NotFound | LstatError.
Definition symlink_metadata (io : MaterialIo) (p : path) (fs : FileSystem) : LstatResult :=
  if mi_lstat_fails io p then LstatError else
  match fs !! p with Some n => Found n | None => NotFound end.

(** [symlink_metadata(path).map_err(|_| ConfigurationRead)?]. *)
Definition lstat (io : MaterialIo) (p : path) (fs : FileSystem) : relay_result Node :=
  match symlink_metadata io p fs with Found n => Ok n | _ => Err ConfigurationRead end.

(** ** Checks *)
Definition validate_directory (io : MaterialIo) (p : path) (expected_uid : Z) (fs : FileSystem)
  : relay_result unit :=
  _ ← validate_absolute_path "protected.directory" p;
  metadata ← lstat io p fs;
  if bool_decide (nd_kind metadata ≠ IsDir) || negb (nd_uid metadata =? expected_uid)
     || negb (Z.land (nd_mode metadata) 18 =? 0)
  then Err (InvalidConfiguration "protected.directory" "directory ownership or permissions are unsafe")
  else Ok tt.

Definition validate_file_metadata (metadata : Node) (expected_uid : Z) (kind : ProtectedFileKind)
    (limit : Z) : relay_result unit :=
  if bool_decide (nd_kind metadata ≠ IsFile) || negb (nd_uid metadata =? expected_uid)
     || (nd_len metadata =? 0) || (limit <? nd_len metadata) || (max_bytes kind <? nd_len metadata)
  then Err ConfigurationRead else
  let mode := nd_mode metadata in
  let valid_mode :=
    match kind with
    | Public => (Z.land mode 18 =? 0) && (Z.land mode 256 =? 256)
    | Private | Allowlist => (Z.land mode 63 =? 0) && (Z.land mode 256 =? 256)
    end in
  if negb valid_mode
  then Err (InvalidConfiguration "protected.file" "file ownership or permissions are unsafe")
  else Ok tt.

Definition same_file_identity (expected opened : Node) : bool :=
  (nd_dev expected =? nd_dev opened) && (nd_ino expected =? nd_ino opened)
  && (nd_uid expected =? nd_uid opened) && (nd_mode expected =? nd_mode opened)
  && (nd_len expected =? nd_len opened).

(** The loop over the components: [current] is the path pushed so far. *)
Fixpoint check_components (io : MaterialIo) (fs : FileSystem) (current : path) (rest : path)
  : relay_result unit :=
  match rest with
  | [] => Ok tt
  | Normal name :: rest' =>
      let current := path_join current name in
      let is_final := bool_decide (rest' = []) in
      match symlink_metadata io current fs with
      | Found metadata =>
          let symlink := bool_decide (nd_kind metadata = IsSymlink) in
          if symlink && (is_final || negb (nd_uid metadata =? 0))
          then Err (InvalidConfiguration "protected.file" "path contains an unsafe symlink component") else
          if negb is_final && bool_decide (nd_kind metadata ≠ IsDir) && negb symlink
          then Err ConfigurationRead
          else check_components io fs current rest'
      | NotFound => if is_final then Ok tt else Err ConfigurationRead
      | LstatError => Err ConfigurationRead
      end
  | _ :: rest' => check_components io fs current rest'
  end.

Definition safe_ancestor (metadata : Node) (expected_uid : Z) : bool :=
  if bool_decide (nd_kind metadata = IsSymlink) then nd_uid metadata =? 0 else
  bool_decide (nd_kind metadata = IsDir)
  && ((nd_uid metadata =? expected_uid) || (Z.land (nd_mode metadata) 18 =? 0)
      || negb (Z.land (nd_mode metadata) 512 =? 0)).

(** The walk up from [current]: [rev_current] is its components, the last one first. *)
Fixpoint check_ancestors (io : MaterialIo) (fs : FileSystem) (expected_uid : Z) (rev_current : path)
  : relay_result unit :=
  let current := reverse rev_current in
  if bool_decide (current = root_path) then Ok tt else
  metadata ← lstat io current fs;
  if negb (safe_ancestor metadata expected_uid)
  then Err (InvalidConfiguration "protected.file" "path contains an unsafe ancestor directory") else
  match rev_current with
  | Normal _ :: up | CurDir :: up | ParentDir :: up => check_ancestors io fs expected_uid up
  | _ => Ok tt
  end.

Definition validate_protected_path (io : MaterialIo) (p : path) (expected_uid : Z) (fs : FileSystem)
  : relay_result unit :=
  _ ← validate_absolute_path "protected.file" p;
  if bool_decide (CurDir ∈ p) || bool_decide (ParentDir ∈ p)
  then Err (InvalidConfiguration "protected.file" "path contains dot components") else
  _ ← check_components io fs root_path p;
  immediate_parent ← ok_or (path_parent p) ConfigurationRead;
  _ ← validate_directory io immediate_parent expected_uid fs;
  match path_parent immediate_parent with
  | Some component => check_ancestors io fs expected_uid (reverse component)
  | None => Ok tt
  end.

(** ** Reading *)

(** [fs] is the file system the path is checked in, [fs_open] the one it is opened in.  The
    final component is opened without following a symbolic link. *)
Definition read_protected_file (io : MaterialIo) (p : path) (expected_uid : Z)
    (kind : ProtectedFileKind) (limit : Z) (fs fs_open : FileSystem) : relay_result (list byte) :=
  _ ← validate_protected_path io p expected_uid fs;
  expected_metadata ← lstat io p fs;
  _ ← validate_file_metadata expected_metadata expected_uid kind limit;
  opened_metadata ←
    match fs_open !! p with
    | Some opened =>
        if mi_open_fails io || bool_decide (nd_kind opened = IsSymlink) || mi_fstat_fails io
        then Err ConfigurationRead else Ok opened
    | None => Err ConfigurationRead
    end;
  _ ← validate_file_metadata opened_metadata expected_uid kind limit;
  if negb (same_file_identity expected_metadata opened_metadata) then Err ConfigurationRead else
  bytes ← ok_or (mi_read io (nd_bytes opened_metadata)) ConfigurationRead;
  if negb (len bytes =? nd_len opened_metadata) || (limit <? len bytes) then Err ConfigurationRead else
  Ok bytes.

(** ** Replacing *)
Definition required_mode (kind : ProtectedFileKind) : Z :=
  match kind with Public => 416 | Private | Allowlist => 384 end.

Definition temporary_name (io : MaterialIo) (name : list byte) : list byte :=
  str_lit "." ++ name ++ str_lit ".tmp-" ++ decimal (mi_pid io) ++ str_lit "-" ++ decimal (mi_random io).

Definition new_file (io : MaterialIo) (mode : Z) (bytes : list byte) : Node :=
  {| nd_kind := IsFile; nd_uid := mi_euid io; nd_mode := mode; nd_dev := mi_dev io;
     nd_ino := mi_new_ino io; nd_bytes := bytes |}.

Definition write_protected_file (io : MaterialIo) (p : path) (expected_uid : Z) (bytes : list byte)
    (kind : ProtectedFileKind) (limit : Z) : stateful FileSystem RelayError unit := λ fs,
  match (_ ← validate_absolute_path "protected.file" p;
         if bool_decide (bytes = []) || (limit <? len bytes) then Err ConfigurationRead else
         dir ← ok_or (path_parent p) ConfigurationRead;
         _ ← validate_directory io dir expected_uid fs;
         name ← ok_or (path_file_name p ≫= to_str) ConfigurationRead;
         Ok (dir, name)) with
  | Err e => (fs, Err e)
  | Panic => (fs, Panic)
  | Ok (dir, name) =>
      let temporary := path_join dir (temporary_name io name) in
      if mi_create_fails io || bool_decide (is_Some (fs !! temporary)) then (fs, Err ConfigurationRead) else
      let created_mode := Z.land (required_mode kind) (Z.lnot (mi_umask io)) in
      if mi_write_fails io || mi_sync_fails io
      then (<[temporary := new_file io created_mode (mi_written io bytes)]> fs, Err ConfigurationRead) else
      let fs1 := <[temporary := new_file io created_mode bytes]> fs in
      if mi_chmod_fails io then (fs1, Err ConfigurationRead) else
      let file := new_file io (required_mode kind) bytes in
      let fs2 := <[temporary := file]> fs in
      if mi_rename_fails io || (match fs !! p with Some n => bool_decide (nd_kind n = IsDir) | None => false end)
      then (fs2, Err ConfigurationRead)
      else (delete temporary (<[p := file]> fs2), Ok tt)
  end.

(** ** The current user *)

(** [str::trim] and [str::parse] of an unsigned integer, on scalar values. *)
Fixpoint trim_start (cs : list Z) : list Z :=
  match cs with
  | c :: cs' => if is_whitespace c then trim_start cs' else cs
  | [] => []
  end.
Definition trim (cs : list Z) : list Z := reverse (trim_start (reverse (trim_start cs))).

Fixpoint parse_digits (max acc : Z) (cs : list Z) : option Z :=
  match cs with
  | [] => Some acc
  | c :: cs' =>
      if (48 <=? c) && (c <=? 57) then
        let acc := acc * 10 + (c - 48) in
        if acc <=? max then parse_digits max acc cs' else None
      else None
  end.
Definition parse_unsigned (max : Z) (cs : list Z) : option Z :=
  match cs with
  | [] => None
  | 43 :: [] => None
  | 43 :: cs' => parse_digits max 0 cs'
  | _ => parse_digits max 0 cs
  end.

(** [current_uid]: what [/usr/bin/id -u] printed, when it could be run and succeeded. *)
Definition current_uid (output : option (bool * list byte)) : relay_result Z :=
  '(success, stdout) ← ok_or output ConfigurationRead;
  if negb success then Err ConfigurationRead else
  ok_or (cs ← utf8_chars stdout; parse_unsigned u32_max (trim cs)) ConfigurationRead.

(** [ensure_directory]: [created] is the file system [fs::create_dir_all] leaves, when it
    succeeds. *)
Definition ensure_protected_directory (io : MaterialIo) (p : path) (expected_uid : Z)
    (created : option FileSystem) : relay_result unit :=
  _ ← validate_absolute_path "protected.directory" p;
  fs ← ok_or created ConfigurationRead;
  validate_directory io p expected_uid fs.

(** * Facts *)

(** ** What the checks establish *)

(** A directory only its owner can write. *)
Definition private_directory (expected_uid : Z) (n : Node) : Prop :=
  nd_kind n = IsDir ∧ nd_uid n = expected_uid ∧ Z.land (nd_mode n) 18 = 0.

(** A regular file of bounded size, owned by the expected user, with the mode its kind requires. *)
Definition protected_file (expected_uid : Z) (kind : ProtectedFileKind) (limit : Z) (n : Node) : Prop :=
  nd_kind n = IsFile ∧ nd_uid n = expected_uid ∧ 0 < nd_len n ≤ limit ∧ nd_len n ≤ max_bytes kind
  ∧ Z.land (nd_mode n) 256 = 256
  ∧ Z.land (nd_mode n) (match kind with Public => 18 | _ => 63 end) = 0.

Lemma lstat_Ok io p fs n : lstat io p fs = Ok n ↔ mi_lstat_fails io p = false ∧ fs !! p = Some n.
Proof.
  unfold lstat, symlink_metadata. destruct (mi_lstat_fails io p); [naive_solver|].
  destruct (fs !! p); naive_solver.
Qed.

Lemma validate_directory_Ok io p uid fs :
  validate_directory io p uid fs = Ok tt ↔
  validate_absolute_path "protected.directory" p = Ok tt ∧ mi_lstat_fails io p = false
  ∧ ∃ n, fs !! p = Some n ∧ private_directory uid n.
Proof.
  unfold validate_directory, private_directory. split.
  - intros ([] & Ha & (n & [Hl Hn]%lstat_Ok & H)%bind_Ok)%bind_Ok. destruct (_ || _ || _) eqn:Hc; [done|].
    bool_facts. naive_solver.
  - intros (-> & Hl & n & Hn & Hk & Hu & Hm). simpl. rewrite (proj2 (lstat_Ok io p fs n)) by done. simpl.
    rewrite Hk, Hu, Hm, Z.eqb_refl. done.
Qed.

Lemma validate_file_metadata_Ok n uid kind limit :
  validate_file_metadata n uid kind limit = Ok tt ↔ protected_file uid kind limit n.
Proof.
  unfold validate_file_metadata, protected_file. pose proof (len_nonneg (nd_bytes n)) as Hnn. fold (nd_len n) in Hnn.
  split.
  - destruct (_ || _) eqn:Hc; [done|]. cbv zeta. case_match eqn:Hm; [done|]. intros _. bool_facts.
    destruct kind; bool_facts; split_and!; try done; lia.
  - intros (-> & -> & [? ?] & ? & Hr & Hw). rewrite Z.eqb_refl. simpl.
    destruct (Z.eqb_spec (nd_len n) 0); [lia|]. destruct (Z.ltb_spec limit (nd_len n)); [lia|].
    destruct (Z.ltb_spec (max_bytes kind) (nd_len n)); [lia|]. simpl. by destruct kind; rewrite Hr, Hw.
Qed.

Lemma check_components_Ok io fs cur rest :
  check_components io fs cur rest = Ok tt → Forall (λ c, ∃ name, c = Normal name) rest →
  ∀ i, (0 < i ≤ length rest)%nat →
    match fs !! (cur ++ take i rest) with
    | Some n => (nd_kind n = IsSymlink → nd_uid n = 0 ∧ (i < length rest)%nat)
    | None => i = length rest
    end.
Proof.
  revert cur. induction rest as [|c rest IH]; intros cur Hc Hn i Hi; simpl in *; [lia|].
  apply Forall_cons in Hn as [[name ->] Hn].
  destruct i as [|i]; [lia|]. simpl.
  replace (cur ++ Normal name :: take i rest) with (path_join cur name ++ take i rest)
    by (unfold path_join; by rewrite <-app_assoc).
  unfold symlink_metadata in Hc. destruct (mi_lstat_fails io _); [done|].
  destruct (fs !! path_join cur name) as [n|] eqn:Hj.
  - destruct (bool_decide (nd_kind n = IsSymlink) && _) eqn:Hs; [done|].
    destruct (negb _ && _ && _); [done|]. destruct i as [|i].
    + rewrite app_nil_r, Hj. intros Hk. rewrite bool_decide_eq_true_2 in Hs by done. simpl in Hs. bool_facts.
      split; [done|]. destruct rest; [done|simpl; lia].
    + specialize (IH _ Hc Hn (S i) ltac:(lia)). destruct (fs !! _); [|lia].
      intros Hk. destruct (IH Hk). split; [done|lia].
  - case_bool_decide as Hr; [|done]. subst rest. simpl in Hi. destruct i; [|lia]. simpl. by rewrite app_nil_r, Hj.
Qed.

(** The path check only depends on the nodes above the file, and on the file not being a
    symbolic link. *)
Lemma check_components_agree io fs fs' bound cur rest :
  (∀ q, (length q < bound)%nat → fs' !! q = fs !! q) →
  (length cur + length rest = bound)%nat → Forall (λ c, ∃ name, c = Normal name) rest →
  (∀ n, fs' !! (cur ++ rest) = Some n → nd_kind n ≠ IsSymlink) →
  check_components io fs cur rest = Ok tt → check_components io fs' cur rest = Ok tt.
Proof.
  intros Hag. revert cur. induction rest as [|c rest IH]; intros cur Hlen Hn Hfin Hc; simpl in *; [done|].
  apply Forall_cons in Hn as [[name ->] Hn].
  unfold symlink_metadata in *. destruct (mi_lstat_fails io _); [done|].
  assert (Hcat : path_join cur name ++ rest = cur ++ Normal name :: rest) by (unfold path_join; by rewrite <-app_assoc).
  assert (Hl : length (path_join cur name) = S (length cur)) by (unfold path_join; rewrite length_app; simpl; lia).
  destruct rest as [|c' rest].
  - simpl in *. destruct (fs' !! path_join cur name) as [n|] eqn:Hj; [|done].
    rewrite bool_decide_eq_false_2; [done|]. by apply Hfin.
  - rewrite (Hag (path_join cur name)) by (simpl in *; lia).
    destruct (fs !! path_join cur name) as [n|] eqn:Hj; [|done].
    destruct (_ && _); [done|]. destruct (_ && _); [done|].
    apply IH; [simpl in *; lia|done| |done]. by rewrite Hcat.
Qed.

Lemma lstat_agree io fs fs' q : fs' !! q = fs !! q → lstat io q fs' = lstat io q fs.
Proof. intros Hq. unfold lstat, symlink_metadata. by rewrite Hq. Qed.

Lemma check_ancestors_agree io fs fs' uid rev_current bound :
  (∀ q, (length q < bound)%nat → fs' !! q = fs !! q) → (length rev_current < bound)%nat →
  check_ancestors io fs' uid rev_current = check_ancestors io fs uid rev_current.
Proof.
  intros Hag. induction rev_current as [|c up IH]; intros Hl; cbn [check_ancestors]; cbv zeta;
    case_bool_decide; try done; rewrite (lstat_agree io fs fs') by (apply Hag; rewrite length_reverse; done);
    destruct (lstat io _ fs) as [n|e|]; try done; cbn [mbind outcome_bind]; destruct (negb _); try done.
  simpl in Hl. destruct c; try done; apply IH; lia.
Qed.

Lemma path_parent_length p q : path_parent p = Some q → S (length q) = length p.
Proof.
  unfold path_parent. destruct (last p) as [c|] eqn:Hl; [|done]. apply last_Some in Hl as [p' ->].
  rewrite length_app. simpl. replace (length p' + 1 - 1)%nat with (length p') by lia.
  destruct c; intros [= <-]; rewrite take_app_length; lia.
Qed.

(** A path as [components] parses it: at most its first component is the root. *)
Definition parsed (p : path) : Prop := RootDir ∉ tail p.

Lemma components_parsed s : parsed (components s).
Proof.
  assert (Hs : ∀ l : list (list byte), RootDir ∉ omap segment_component l).
  { intros l. rewrite list_elem_of_omap. intros (seg & _ & Hseg). unfold segment_component in Hseg.
    repeat case_match; done. }
  unfold parsed, components. destruct s as [|b s]; [apply not_elem_of_nil|].
  case_bool_decide; [apply Hs|]. intros Hin. apply (Hs (split_slash (b :: s))).
  case_bool_decide; simpl in Hin; [done|]. destruct (omap _ _); [done|]. simpl in Hin. by right.
Qed.

(** The path check, once it has passed. *)
Lemma validate_protected_path_Ok io p uid fs :
  validate_protected_path io p uid fs = Ok tt → parsed p →
  ∃ rest dir n,
    p = RootDir :: rest ∧ Forall (λ c, ∃ name, c = Normal name) rest ∧ check_components io fs root_path rest = Ok tt
    ∧ path_parent p = Some dir ∧ validate_directory io dir uid fs = Ok tt
    ∧ fs !! dir = Some n ∧ private_directory uid n
    ∧ (∀ up, path_parent dir = Some up → check_ancestors io fs uid (reverse up) = Ok tt)
    ∧ ∀ f, fs !! p = Some f → nd_kind f ≠ IsSymlink.
Proof.
  unfold validate_protected_path. intros ([] & [Ha Hr]%validate_absolute_path_Ok & H)%bind_Ok Hp.
  destruct (_ || _) eqn:Hd; [done|]. bool_facts.
  apply bind_Ok in H as ([] & Hc & H). apply bind_Ok in H as (dir & Hdir%ok_or_Ok & H).
  apply bind_Ok in H as ([] & Hv & H). unfold is_absolute in Ha. bool_facts.
  destruct p as [|c rest]; [done|]. injection Ha as ->. simpl in Hc.
  assert (Hn : Forall (λ c, ∃ name, c = Normal name) rest).
  { apply Forall_forall. intros c Hin. destruct c; [|set_solver..|by eexists]. by destruct Hp. }
  pose proof (proj1 (validate_directory_Ok _ _ _ _) Hv) as (_ & _ & n & Hnd & Hpriv).
  exists rest, dir, n. split_and!; try done.
  - intros up Hup. by rewrite Hup in H.
  - intros f Hf Hk. pose proof (check_components_Ok io fs root_path rest Hc Hn (length rest)) as Hi.
    destruct rest as [|c rest]; [done|]. rewrite firstn_all in Hi. simpl in Hi. rewrite Hf in Hi.
    destruct (Hi ltac:(lia) Hk). lia.
Qed.

Lemma validate_protected_path_agree io p uid fs fs' :
  parsed p → (∀ q, (length q < length p)%nat → fs' !! q = fs !! q) →
  (∀ n, fs' !! p = Some n → nd_kind n ≠ IsSymlink) →
  validate_protected_path io p uid fs = Ok tt → validate_protected_path io p uid fs' = Ok tt.
Proof.
  intros Hp Hag Hfin Hv. pose proof (validate_protected_path_Ok _ _ _ _ Hv Hp)
    as (rest & dir & n & -> & Hn & Hc & Hdir & Hvd & Hnd & Hpriv & Hup & _).
  pose proof (path_parent_length _ _ Hdir) as Hlen. unfold validate_protected_path in *.
  apply bind_Ok in Hv as ([] & -> & Hv). cbn [mbind outcome_bind] in *. destruct (_ || _); [done|].
  cbn [check_components]. rewrite (check_components_agree io fs fs' (length (RootDir :: rest)) root_path rest) by done.
  cbn [mbind outcome_bind]. rewrite Hdir. cbn [ok_or mbind outcome_bind].
  rewrite (proj2 (validate_directory_Ok io dir uid fs')).
  - cbn [mbind outcome_bind]. destruct (path_parent dir) as [up|] eqn:Hpu; [|done].
    rewrite (check_ancestors_agree io fs fs' uid (reverse up) (length (RootDir :: rest)) Hag).
    + by apply Hup.
    + rewrite length_reverse. apply path_parent_length in Hpu. lia.
  - apply validate_directory_Ok in Hvd as (? & ? & _). split_and!; [done|done|]. exists n. rewrite Hag by lia. done.
Qed.

(** ** Reading and replacing *)
Lemma read_protected_file_Ok io p uid kind limit fs fs_open bytes :
  read_protected_file io p uid kind limit fs fs_open = Ok bytes →
  validate_protected_path io p uid fs = Ok tt
  ∧ ∃ n o, fs !! p = Some n ∧ fs_open !! p = Some o
    ∧ protected_file uid kind limit n ∧ protected_file uid kind limit o
    ∧ nd_dev o = nd_dev n ∧ nd_ino o = nd_ino n ∧ nd_mode o = nd_mode n
    ∧ mi_read io (nd_bytes o) = Some bytes ∧ len bytes = nd_len o.
Proof.
  unfold read_protected_file. intros ([] & Hv & (n & [_ Hn]%lstat_Ok & H)%bind_Ok)%bind_Ok. split; [done|].
  apply bind_Ok in H as ([] & Hf%validate_file_metadata_Ok & H). apply bind_Ok in H as (o & Ho & H).
  apply bind_Ok in H as ([] & Hfo%validate_file_metadata_Ok & H).
  destruct (negb (same_file_identity n o)) eqn:Hs; [done|]. apply bind_Ok in H as (bs & Hb%ok_or_Ok & H).
  destruct (_ || _) eqn:Hl; [done|]. apply Ok_inj in H as ->. unfold same_file_identity in Hs. bool_facts.
  destruct (fs_open !! p) as [o'|] eqn:Hop; [|done]. destruct (_ || _ || _); [done|]. apply Ok_inj in Ho as ->.
  exists n, o. split_and!; try done; congruence.
Qed.

(** A replacement either leaves the file as it was, or puts a new one there and changes
    nothing else. *)
Lemma write_protected_file_spec io p uid bytes kind limit fs fs' r :
  write_protected_file io p uid bytes kind limit fs = (fs', r) →
  (∀ q, (length q < length p)%nat → fs' !! q = fs !! q)
  ∧ match r with
    | Ok _ => fs' = <[p := new_file io (required_mode kind) bytes]> fs ∧ bytes ≠ [] ∧ len bytes ≤ limit
    | Err _ => fs' !! p = fs !! p
    | Panic => False
    end.
Proof.
  unfold write_protected_file. destruct (validate_absolute_path _ p ≫= _) as [[dir name]|e|] eqn:Hpre;
    [|intros [= <- <-]; done|].
  2: { exfalso. revert Hpre. unfold validate_absolute_path, validate_directory, lstat, validate_absolute_path.
       unfold mbind, outcome_bind, ok_or. intros H. repeat (case_match; simplify_eq). }
  apply bind_Ok in Hpre as ([] & _ & Hpre). destruct (bool_decide (bytes = []) || _) eqn:Hb; [done|].
  apply bind_Ok in Hpre as (d & Hd%ok_or_Ok & Hpre). apply bind_Ok in Hpre as ([] & _ & Hpre).
  apply bind_Ok in Hpre as (nm & Hnm%ok_or_Ok & Hpre). apply Ok_inj in Hpre as [= -> ->].
  apply bind_Some in Hnm as (nm & Hfn & Hstr). apply path_file_name_Some in Hfn as (q & -> & Hq).
  rewrite Hd in Hq. injection Hq as <-. unfold to_str in Hstr. apply from_utf8_Some in Hstr as [-> _].
  set (tmp := path_join dir (temporary_name io nm)).
  assert (Htl : length tmp = length (dir ++ [Normal nm])) by (unfold tmp, path_join; by rewrite !length_app).
  assert (Hne : tmp ≠ dir ++ [Normal nm]).
  { unfold tmp, path_join. intros [= H%(f_equal (length (A := byte)))]%app_inv_head.
    unfold temporary_name in H. rewrite !length_app in H. simpl in H. lia. }
  assert (Hshort : ∀ q f, (length q < length (dir ++ [Normal nm]))%nat → (<[tmp := f]> fs) !! q = fs !! q).
  { intros q f Hlt. rewrite lookup_insert_ne; [done|]. intros <-. lia. }
  cbv zeta. destruct (mi_create_fails io || _) eqn:Hc; [by intros [= <- <-]|].
  apply orb_false_iff in Hc as [_ Hc]. apply bool_decide_eq_false, eq_None_not_Some in Hc. fold tmp in Hc |- *.
  destruct (mi_write_fails io || _);
    [intros [= <- <-]; split; [intros ? Hlt; by apply Hshort|by rewrite lookup_insert_ne]|].
  destruct (mi_chmod_fails io);
    [intros [= <- <-]; split; [intros ? Hlt; by apply Hshort|by rewrite lookup_insert_ne]|].
  destruct (mi_rename_fails io || _);
    [intros [= <- <-]; split; [intros ? Hlt; by apply Hshort|by rewrite lookup_insert_ne]|].
  intros [= <- <-]. bool_facts.
  assert (Heq : delete tmp (<[dir ++ [Normal nm] := new_file io (required_mode kind) bytes]>
      (<[tmp := new_file io (required_mode kind) bytes]> fs))
      = <[dir ++ [Normal nm] := new_file io (required_mode kind) bytes]> fs).
  { rewrite delete_insert_ne, delete_insert_id by done. done. }
  rewrite Heq. split; [|done].
  intros q' Hlt. rewrite lookup_insert_ne; [done|]. intros <-. lia.
Qed.

(** System calls that do not fail, of a process of the given user. *)
Definition sound_io (uid : Z) : MaterialIo :=
  {| mi_lstat_fails := λ _, false; mi_open_fails := false; mi_fstat_fails := false; mi_read := Some;
     mi_euid := uid; mi_umask := 18; mi_dev := 1; mi_new_ino := 7; mi_pid := 100; mi_random := 9;
     mi_create_fails := false; mi_written := id; mi_write_fails := false; mi_sync_fails := false;
     mi_chmod_fails := false; mi_rename_fails := false |}.

Definition reads_faithfully (io : MaterialIo) : Prop :=
  (∀ q, mi_lstat_fails io q = false) ∧ mi_open_fails io = false ∧ mi_fstat_fails io = false ∧ mi_read io = Some.

Lemma validate_protected_path_io io io' p uid fs :
  (∀ q, mi_lstat_fails io' q = false) →
  validate_protected_path io p uid fs = Ok tt → validate_protected_path io' p uid fs = Ok tt.
Proof.
  intros Hf. assert (Hsm : ∀ q n, symlink_metadata io q fs = Found n → symlink_metadata io' q fs = Found n).
  { intros q n. unfold symlink_metadata. rewrite Hf. by destruct (mi_lstat_fails io q). }
  assert (Hnf : ∀ q, symlink_metadata io q fs = NotFound → symlink_metadata io' q fs = NotFound).
  { intros q. unfold symlink_metadata. rewrite Hf. by destruct (mi_lstat_fails io q). }
  assert (Hls : ∀ q n, lstat io q fs = Ok n → lstat io' q fs = Ok n).
  { intros q n. rewrite !lstat_Ok, Hf. naive_solver. }
  assert (Hcc : ∀ rest cur, check_components io fs cur rest = Ok tt → check_components io' fs cur rest = Ok tt).
  { induction rest as [|c rest IH]; intros cur; simpl; [done|]. destruct c; try apply IH.
    destruct (symlink_metadata io _ fs) as [n| |] eqn:Hs; [rewrite (Hsm _ _ Hs)|rewrite (Hnf _ Hs); done|done].
    destruct (_ && _); [done|]. destruct (_ && _); [done|]. apply IH. }
  assert (Hca : ∀ rc, check_ancestors io fs uid rc = Ok tt → check_ancestors io' fs uid rc = Ok tt).
  { induction rc as [|c rc IH]; cbn [check_ancestors]; case_bool_decide; try done;
      intros (n & Hn & Hnext)%bind_Ok; revert Hnext; rewrite (Hls _ _ Hn); cbn [mbind outcome_bind]; destruct (negb _); try done.
    by destruct c; try apply IH. }
  unfold validate_protected_path. intros ([] & -> & Hv0)%bind_Ok. revert Hv0. cbn [mbind outcome_bind]. destruct (_ || _); [done|]. intros H.
  apply bind_Ok in H as ([] & Hc & H). rewrite (Hcc _ _ Hc). cbn [mbind outcome_bind].
  apply bind_Ok in H as (d & -> & H). cbn [mbind outcome_bind]. apply bind_Ok in H as ([] & Hv & H).
  assert (Hv' : validate_directory io' d uid fs = Ok tt).
  { apply validate_directory_Ok. rewrite Hf. apply validate_directory_Ok in Hv as (? & _ & ?). done. }
  rewrite Hv'. cbn [mbind outcome_bind]. destruct (path_parent d); [by apply Hca|done].
Qed.

(** What was written is what is read. *)
Lemma read_after_write io io' p uid kind limit bytes fs fs' :
  parsed p → reads_faithfully io' → mi_euid io = uid → (len bytes ≤ limit → len bytes ≤ max_bytes kind) →
  validate_protected_path io' p uid fs = Ok tt →
  write_protected_file io p uid bytes kind limit fs = (fs', Ok tt) →
  read_protected_file io' p uid kind limit fs' fs' = Ok bytes.
Proof.
  intros Hp (Hl & Ho & Hst & Hrd) Hu Hlim Hv Hw. apply write_protected_file_spec in Hw as (Hag & -> & Hne & Hlen).
  set (n := new_file io (required_mode kind) bytes).
  assert (Hpf : protected_file uid kind limit n).
  { unfold protected_file, n, nd_len. simpl. assert (len bytes ≠ 0) by (by rewrite len_nil_iff).
    pose proof (len_nonneg bytes). specialize (Hlim Hlen). split_and!; try done; try lia; by destruct kind. }
  unfold read_protected_file.
  rewrite (validate_protected_path_agree io' p uid fs (<[p := n]> fs)); [|done|done| |].
  2: { intros m Hm. rewrite lookup_insert_eq in Hm. by injection Hm as <-. }
  2: { done. }
  cbn [mbind outcome_bind]. rewrite (proj2 (lstat_Ok io' p (<[p := n]> fs) n)) by (by rewrite lookup_insert_eq).
  cbn [mbind outcome_bind]. rewrite (proj2 (validate_file_metadata_Ok n uid kind limit)) by done.
  cbn [mbind outcome_bind]. rewrite lookup_insert_eq, Ho, Hst. cbn [nd_kind n new_file orb].
  cbn [mbind outcome_bind]. rewrite bool_decide_eq_false_2 by done. cbn [mbind outcome_bind orb].
  rewrite (proj2 (validate_file_metadata_Ok n uid kind limit)) by done. cbn [mbind outcome_bind].
  unfold same_file_identity. rewrite !Z.eqb_refl. simpl. rewrite Hrd. simpl. unfold nd_len. simpl.
  rewrite Z.eqb_refl. simpl. destruct (Z.ltb_spec limit (len bytes)); [lia|done].
Qed.

(** ** No check panics *)
Lemma validate_directory_returns io p uid fs : returns (validate_directory io p uid fs).
Proof.
  unfold validate_directory, validate_absolute_path, lstat. apply bind_returns; [by case_match|]. intros [] _.
  apply bind_returns; [by case_match|]. intros n _. by case_match.
Qed.

Lemma validate_protected_path_returns io p uid fs : returns (validate_protected_path io p uid fs).
Proof.
  assert (Hcc : ∀ rest cur, returns (check_components io fs cur rest)).
  { induction rest as [|c rest IH]; intros cur; simpl; [done|]. destruct c; try apply IH.
    destruct (symlink_metadata _ _ _); [|by case_match|done]. destruct (_ && _); [done|].
    by destruct (_ && _). }
  assert (Hca : ∀ rc, returns (check_ancestors io fs uid rc)).
  { induction rc as [|c rc IH]; cbn [check_ancestors]; case_bool_decide; try done;
      (apply bind_returns; [unfold lstat; by case_match|]); intros n _; destruct (negb _); try done.
    by destruct c. }
  unfold validate_protected_path. apply bind_returns; [unfold validate_absolute_path; by case_match|]. intros [] _.
  destruct (_ || _); [done|]. apply bind_returns; [done|]. intros [] _. apply bind_returns; [apply ok_or_returns|].
  intros d _. apply bind_returns; [apply validate_directory_returns|]. intros [] _. by case_match.
Qed.

(** Reading depends on the nodes above the file and the file only. *)
Lemma read_protected_file_agree io p uid kind limit fs fs' bytes :
  parsed p → (∀ q, (length q < length p)%nat → fs' !! q = fs !! q) → fs' !! p = fs !! p →
  read_protected_file io p uid kind limit fs' fs' = Ok bytes →
  read_protected_file io p uid kind limit fs fs = Ok bytes.
Proof.
  intros Hp Hag Hpp Hr. pose proof (read_protected_file_Ok _ _ _ _ _ _ _ _ Hr) as (Hv & n & _ & Hn & _ & Hf & _).
  revert Hr. unfold read_protected_file. rewrite Hv, (lstat_agree io fs fs' p Hpp), Hpp.
  rewrite (validate_protected_path_agree io p uid fs' fs); [done|done|..|done].
  - intros q Hq. symmetry. by apply Hag.
  - intros m Hm. rewrite Hpp, Hm in Hn. injection Hn as ->. destruct Hf as (-> & _). done.
Qed.

Lemma current_uid_returns output : returns (current_uid output).
Proof.
  unfold current_uid. destruct output as [[[] out]|]; [|done|done]. cbn [ok_or mbind outcome_bind negb]. apply ok_or_returns.
Qed.

Lemma read_protected_file_returns io p uid kind limit fs fs' :
  returns (read_protected_file io p uid kind limit fs fs').
Proof.
  unfold read_protected_file. apply bind_returns; [apply validate_protected_path_returns|]. intros [] _.
  assert (Hf : ∀ n, returns (validate_file_metadata n uid kind limit)).
  { intros n. unfold validate_file_metadata. cbv zeta. case_match; [done|]. by case_match. }
  apply bind_returns; [unfold lstat; by case_match|]. intros n _. apply bind_returns; [apply Hf|]. intros [] _.
  apply bind_returns; [case_match; [by case_match|done]|]. intros o _. apply bind_returns; [apply Hf|]. intros [] _.
  case_match; [done|]. apply bind_returns; [apply ok_or_returns|]. intros bs _. by case_match.
Qed.
