(* ===== verification/Socket.v ===== *)
(** * Herdr's Unix socket (src/src/socket.rs)

    [UnixSocketConnector]: the checks of a socket path and the comparison of the socket's
    identity before and after the connection.  Anyone may change the file system between two
    system calls, so a look-up is answered by [sees n path], what the [n]th one finds there or
    the kind of error it ends in. *)
From S2P Require Export Material.

Record UnixSocketIdentity : Type := {
  ui_device : Z;
  ui_inode : Z;
  ui_owner_uid : Z;
  ui_mode : Z;
  ui_parent_device : Z;
  ui_parent_inode : Z;
  ui_parent_owner_uid : Z;
  ui_parent_mode : Z;
}.

#[export] Instance UnixSocketIdentity_eq_dec : EqDecision UnixSocketIdentity.
Proof. solve_decision. Defined.

Record UnixSocketConnector : Type := {
  us_path : path;
  us_expected_uid : Z;
}.

Definition UnixSocketConnector_new (p : path) (expected_uid : Z) : relay_result UnixSocketConnector :=
  _ ← validate_absolute_path "relay.herdr_socket" p;
  Ok {| us_path := p; us_expected_uid := expected_uid |}.

Definition identity_from_metadata (metadata parent_metadata : Node) : UnixSocketIdentity :=
  {| ui_device := nd_dev metadata; ui_inode := nd_ino metadata; ui_owner_uid := nd_uid metadata;
     ui_mode := Z.land (nd_mode metadata) 511;
     ui_parent_device := nd_dev parent_metadata; ui_parent_inode := nd_ino parent_metadata;
     ui_parent_owner_uid := nd_uid parent_metadata; ui_parent_mode := Z.land (nd_mode parent_metadata) 511 |}.

Section Socket.
Context (sees : nat → path → Node + string).

(** The number of look-ups so far is the state. *)
Abbreviation looking := (stateful nat RelayError).

(** [fs::symlink_metadata(path).map_err(|error| RelayError::io(operation, error))?]. *)
Definition look (operation : string) (p : path) : looking Node := λ n,
  (S n, match sees n p with inl metadata => Ok metadata | inr kind => Err (Io operation kind) end).

(** The loop of [validate_path_components]: [rev_current] is the components of the current
    path, the last one first. *)
Fixpoint check_components_up (rev_current : path) : looking unit :=
  (let current := reverse rev_current in
   let! metadata := look "checking Herdr socket path" current in
   if bool_decide (nd_kind metadata = IsSymlink)
   then st_err (SocketIdentity "checking Herdr socket path" "socket path contains a symlink component") else
   if bool_decide (current = root_path) then st_ret tt else
   match rev_current with
   | [] | RootDir :: _ => st_ret tt
   | _ :: up => check_components_up up
   end)%relay.

Definition validate_path_components (c : UnixSocketConnector) : looking unit :=
  match path_parent (us_path c) with
  | None => st_ret tt
  | Some parent => check_components_up (reverse parent)
  end.

Definition validate_owner_and_mode (c : UnixSocketConnector) (metadata : Node) (operation : string) (socket : bool)
  : relay_result unit :=
  if negb (nd_uid metadata =? us_expected_uid c)
  then Err (SocketIdentity operation "owner UID does not match the configured owner") else
  let mode := nd_mode metadata in
  let insecure :=
    if socket then negb (Z.land mode 63 =? 0) || negb (Z.land mode 384 =? 384)
    else negb (Z.land mode 18 =? 0) || negb (Z.land mode 448 =? 448) in
  if insecure
  then Err (SocketIdentity operation "permissions are broader than the private socket policy")
  else Ok tt.

Definition validate_parent_directory (c : UnixSocketConnector) : looking Node :=
  (let! parent := st_lift (ok_or (path_parent (us_path c))
                     (SocketIdentity "checking Herdr socket parent" "socket path has no parent directory")) in
   let! metadata := look "checking Herdr socket parent" parent in
   if bool_decide (nd_kind metadata = IsSymlink) || bool_decide (nd_kind metadata ≠ IsDir)
   then st_err (SocketIdentity "checking Herdr socket parent" "socket parent is not a real directory") else
   do! st_lift (validate_owner_and_mode c metadata "checking Herdr socket parent" false);
   st_ret metadata)%relay.

Definition UnixSocketConnector_validate (c : UnixSocketConnector) : looking UnixSocketIdentity :=
  (do! validate_path_components c;
   let! parent_metadata := validate_parent_directory c in
   let! metadata := look "checking Herdr Unix socket" (us_path c) in
   if bool_decide (nd_kind metadata ≠ IsSocket)
   then st_err (SocketIdentity "checking Herdr Unix socket" "configured path is not a Unix socket") else
   do! st_lift (validate_owner_and_mode c metadata "checking Herdr Unix socket" true);
   st_ret (identity_from_metadata metadata parent_metadata))%relay.

Definition ensure_identity (c : UnixSocketConnector) (expected : UnixSocketIdentity) : looking unit :=
  (let! actual := UnixSocketConnector_validate c in
   if bool_decide (actual ≠ expected)
   then st_err (SocketIdentity "checking Herdr Unix socket" "socket identity changed")
   else st_ret tt)%relay.

(** [connection] is what the connection attempt gives: a stream or the kind of its error. *)
Definition connect_checked {Stream} (c : UnixSocketConnector) (expected : UnixSocketIdentity) (connection : Stream + string)
  : looking Stream :=
  (do! ensure_identity c expected;
   let! stream := st_lift match connection with
                          | inl stream => Ok stream
                          | inr kind => Err (Io "connecting to Herdr Unix socket" kind)
                          end in
   do! ensure_identity c expected;
   st_ret stream)%relay.

Definition connect {Stream} (c : UnixSocketConnector) (connection : Stream + string) : looking Stream :=
  (let! expected := UnixSocketConnector_validate c in
   connect_checked c expected connection)%relay.
End Socket.

(** * Facts *)

(** What a validation establishes: [metadata] is the socket and [parent] its directory, as the
    look-ups from number [n] on, up to number [m], saw them. *)
Record private_socket (sees : nat → path → Node + string) (c : UnixSocketConnector) (n m : nat)
    (identity : UnixSocketIdentity) : Prop := {
  ps_le : (n ≤ m)%nat;
  ps_ancestors : ∀ dir rest, us_path c = dir ++ rest → dir ≠ [] → rest ≠ [] →
    ∃ k node, (n ≤ k < m)%nat ∧ sees k dir = inl node ∧ nd_kind node ≠ IsSymlink;
  ps_nodes : ∃ parent dir metadata k k', (n ≤ k < k')%nat ∧ (k' < m)%nat
    ∧ path_parent (us_path c) = Some dir
    ∧ sees k dir = inl parent ∧ sees k' (us_path c) = inl metadata
    ∧ nd_kind parent = IsDir ∧ nd_uid parent = us_expected_uid c
    ∧ Z.land (nd_mode parent) 18 = 0 ∧ Z.land (nd_mode parent) 448 = 448
    ∧ nd_kind metadata = IsSocket ∧ nd_uid metadata = us_expected_uid c
    ∧ Z.land (nd_mode metadata) 63 = 0 ∧ Z.land (nd_mode metadata) 384 = 384
    ∧ identity = identity_from_metadata metadata parent;
}.

Section Facts.
Context (sees : nat → path → Node + string).

Lemma prefix_snoc_cases {A} (l k : list A) x : k `prefix_of` l ++ [x] → k = l ++ [x] ∨ k `prefix_of` l.
Proof.
  intros [rest Hk]. destruct rest as [|y rest _] using rev_ind; [left; by rewrite app_nil_r in Hk|right].
  rewrite app_assoc in Hk. apply app_inj_tail in Hk as [-> _]. by exists rest.
Qed.

Lemma look_Ok operation p n m node :
  look sees operation p n = (m, Ok node) → m = S n ∧ sees n p = inl node.
Proof. unfold look. destruct (sees n p); [by intros [= <- <-]|done]. Qed.

Lemma check_components_up_Ok rev_current n m :
  RootDir ∉ tail (reverse rev_current) → check_components_up sees rev_current n = (m, Ok tt) →
  (n < m)%nat ∧ ∀ dir, dir `prefix_of` reverse rev_current → dir ≠ [] →
    ∃ k node, (n ≤ k < m)%nat ∧ sees k dir = inl node ∧ nd_kind node ≠ IsSymlink.
Proof.
  revert n. induction rev_current as [|c up IH]; intros n Hroot; cbn [check_components_up]; unfold st_bind.
  - destruct (look _ _ _ n) as [n1 [node|e|]] eqn:Hl; [|done..]. apply look_Ok in Hl as [-> Hl].
    case_bool_decide; [done|]. rewrite bool_decide_eq_false_2 by done. intros [= <-]. split; [lia|].
    intros dir [rest ?]. by destruct dir.
  - destruct (look _ _ _ n) as [n1 [node|e|]] eqn:Hl; [|done..]. apply look_Ok in Hl as [-> Hl].
    case_bool_decide as Hs; [done|].
    assert (Hhere : ∀ m', (n < m')%nat →
      ∃ k node, (n ≤ k < m')%nat ∧ sees k (reverse (c :: up)) = inl node ∧ nd_kind node ≠ IsSymlink).
    { intros m' Hm. exists n, node. split_and!; [lia..|done|done]. }
    rewrite reverse_cons in *. case_bool_decide as Hr.
    + intros [= <-]. split; [lia|]. intros dir Hd Hne. rewrite Hr in *.
      assert (dir = root_path) as ->; [|apply Hhere; lia].
      destruct Hd as [rest Hd]. destruct dir as [|d [|]]; [done|by injection Hd as <- _|done].
    + intros Hrun. assert (Hc : c ≠ RootDir).
      { intros ->. destruct (reverse up) as [|d l] eqn:Hu; [by apply Hr|]. apply Hroot. simpl. set_solver. }
      assert (Hrec : check_components_up sees up (S n) = (m, Ok tt)) by (destruct c; done).
      apply IH in Hrec as [Hlt Hup]; [|destruct (reverse up) as [|d l]; simpl in *; set_solver].
      split; [lia|]. intros dir Hd Hne. apply prefix_snoc_cases in Hd as [->|Hd]; [apply Hhere; lia|].
      destruct (Hup dir Hd Hne) as (k & node' & ? & ? & ?). exists k, node'. split_and!; [lia..|done|done].
Qed.

Lemma path_parent_Some p dir : path_parent p = Some dir → ∃ c, c ≠ RootDir ∧ p = dir ++ [c].
Proof.
  unfold path_parent. destruct p as [|c p _] using rev_ind; [done|]. rewrite last_snoc, length_app.
  cbn [length]. rewrite Nat.add_sub, take_app_length.
  destruct c; [done|..]; intros [= <-]; eexists; (split; [|done]); done.
Qed.

Lemma validate_owner_and_mode_Ok c metadata operation socket :
  validate_owner_and_mode c metadata operation socket = Ok tt →
  nd_uid metadata = us_expected_uid c
  ∧ if socket then Z.land (nd_mode metadata) 63 = 0 ∧ Z.land (nd_mode metadata) 384 = 384
    else Z.land (nd_mode metadata) 18 = 0 ∧ Z.land (nd_mode metadata) 448 = 448.
Proof.
  unfold validate_owner_and_mode. destruct (_ =? us_expected_uid c) eqn:Hu; [|done]. cbn [negb].
  apply Z.eqb_eq in Hu. destruct socket; (destruct (_ || _) eqn:Hm; [done|]); intros _; (split; [done|]);
    bool_facts; done.
Qed.

(** A validation that succeeds has seen a private socket. *)
Lemma validate_private c n m identity :
  RootDir ∉ tail (us_path c) →
  UnixSocketConnector_validate sees c n = (m, Ok identity) → private_socket sees c n m identity.
Proof.
  intros Hroot. unfold UnixSocketConnector_validate, validate_path_components, validate_parent_directory, st_bind, st_lift.
  destruct (path_parent (us_path c)) as [dir|] eqn:Hp; [|done].
  pose proof (path_parent_Some _ _ Hp) as (last & _ & Hpath).
  destruct (check_components_up _ _ n) as [n1 [[]|e|]] eqn:Hup; [|done..].
  apply check_components_up_Ok in Hup as [Hlt Hup];
    [|rewrite reverse_involutive; rewrite Hpath in Hroot; destruct dir; simpl in *; set_solver].
  rewrite reverse_involutive in Hup. cbn [ok_or].
  destruct (look _ _ dir n1) as [n2 [parent|e|]] eqn:Hl; [|done..]. apply look_Ok in Hl as [-> Hl].
  destruct (_ || _) eqn:Hk; [done|]. apply orb_false_iff in Hk as [_ Hk%bool_decide_eq_false]. apply dec_stable in Hk.
  destruct (validate_owner_and_mode c parent _ false) as [[]|e|] eqn:Ho; [|done..].
  apply validate_owner_and_mode_Ok in Ho as (Hou & Hom1 & Hom2). cbn [st_ret].
  destruct (look _ _ (us_path c) (S n1)) as [n3 [metadata|e|]] eqn:Hl2; [|done..]. apply look_Ok in Hl2 as [-> Hl2].
  case_bool_decide as Hsk; [done|].
  destruct (validate_owner_and_mode c metadata _ true) as [[]|e|] eqn:Hm; [|done..].
  apply validate_owner_and_mode_Ok in Hm as (Hmu & Hmm1 & Hmm2). intros [= <- <-]. split; [lia| |].
  - intros d rest Hd Hne Hrest. destruct (Hup d) as (k & node & ? & ? & ?); [|done|].
    + destruct rest as [|x rest _] using rev_ind; [done|]. exists rest.
      rewrite Hpath, app_assoc in Hd. by apply app_inj_tail in Hd as [-> _].
    + exists k, node. split_and!; [lia..|done|done].
  - exists parent, dir, metadata, n1, (S n1). split_and!; try done; lia.
Qed.

Lemma check_components_up_returns rev_current n : returns (check_components_up sees rev_current n).2.
Proof.
  revert n. induction rev_current as [|c up IH]; intros n; cbn [check_components_up]; unfold st_bind, look;
    (destruct (sees _ _); [|done]); (case_bool_decide; [done|]); (case_bool_decide; [done|]); [done|].
  destruct c; (done || apply IH).
Qed.

Lemma validate_returns c n : returns (UnixSocketConnector_validate sees c n).2.
Proof.
  unfold UnixSocketConnector_validate, validate_path_components, validate_parent_directory, st_bind, st_lift.
  assert (Hv : ∀ metadata op s, returns (validate_owner_and_mode c metadata op s)).
  { intros. unfold validate_owner_and_mode. by repeat case_match. }
  destruct (path_parent (us_path c)) as [dir|]; [|done].
  pose proof (check_components_up_returns (reverse dir) n). destruct (check_components_up _ _ n) as [n1 [[]|e|]]; [|done..].
  cbn [ok_or]. unfold look at 1. destruct (sees n1 dir) as [parent|]; [|done]. destruct (_ || _); [done|].
  pose proof (Hv parent ("checking Herdr socket parent" : string) false). destruct (validate_owner_and_mode c parent _ false); [|done..].
  cbn [st_ret]. unfold look. destruct (sees (S n1) (us_path c)) as [metadata|]; [|done]. case_bool_decide; [done|].
  pose proof (Hv metadata ("checking Herdr Unix socket" : string) true). by destruct (validate_owner_and_mode c metadata _ true).
Qed.
End Facts.

(** * Properties *)

(** C24. A connection to Herdr's socket is only used when the socket was private before and
    after it was made: whatever is renamed, replaced or re-linked between any two look-ups, a
    successful [connect] has validated the path three times, each time without a symbolic link
    among its directories, with a directory and a socket of the expected owner that no one
    else can enter or write, and each time found one and the same socket in one and the same
    directory.  No call panics. *)
Theorem connect_same_private_socket {Stream} sees c (connection : Stream + string) n :
  RootDir ∉ tail (us_path c) →
  returns (connect sees c connection n).2
  ∧ ∀ m stream, connect sees c connection n = (m, Ok stream) →
      connection = inl stream
      ∧ ∃ identity n1 n2, private_socket sees c n n1 identity ∧ private_socket sees c n1 n2 identity
          ∧ private_socket sees c n2 m identity.
Proof.
  intros Hroot. unfold connect, connect_checked, ensure_identity, st_bind, st_lift.
  pose proof (validate_returns sees c n). destruct (UnixSocketConnector_validate sees c n) as [n1 [identity|e|]] eqn:E1; [|done..].
  pose proof (validate_returns sees c n1). destruct (UnixSocketConnector_validate sees c n1) as [n2 [id2|e|]] eqn:E2; [|done..].
  case_bool_decide as He2; [done|]. rewrite He2 in *. cbn [st_ret].
  destruct connection as [s|kind]; [|done].
  pose proof (validate_returns sees c n2). destruct (UnixSocketConnector_validate sees c n2) as [n3 [id3|e|]] eqn:E3; [|done..].
  case_bool_decide as He3; [done|]. rewrite He3 in *. split; [done|]. intros m stream [= <- <-].
  split; [done|]. exists identity, n1, n2. split_and!; by apply validate_private.
Qed.

Definition example_connector : UnixSocketConnector :=
  {| us_path := components (str_lit "/run/herdr/herdr.sock"); us_expected_uid := 501 |}.
Definition example_node (kind : FileKind) (mode : Z) : Node :=
  {| nd_kind := kind; nd_uid := 501; nd_mode := mode; nd_dev := 1; nd_ino := 7; nd_bytes := [] |}.
Definition example_sees (n : nat) (p : path) : Node + string :=
  inl (if bool_decide (p = us_path example_connector) then example_node IsSocket 384 else example_node IsDir 448).

Lemma connect_same_private_socket_witness :
  connect example_sees example_connector (inl 5) 0%nat = (15%nat, Ok 5)
  ∧ ∃ identity n1 n2, private_socket example_sees example_connector 0%nat n1 identity
      ∧ private_socket example_sees example_connector n1 n2 identity
      ∧ private_socket example_sees example_connector n2 15%nat identity.
Proof.
  assert (Hrun : connect example_sees example_connector (inl 5) 0%nat = (15%nat, Ok 5)) by (vm_compute; reflexivity).
  split; [exact Hrun|].
  refine (proj2 (proj2 (connect_same_private_socket example_sees example_connector (inl 5) 0%nat _) 15%nat 5 Hrun)).
  apply (bool_decide_unpack _). vm_compute. exact I.
Defined.
