(* ===== verification/ProtectedStore.v ===== *)
(** * Values kept in one protected file

    What the persistent allowlist (src/src/allowlist.rs) and the issuance results
    (src/src/issuance.rs) share: a value in memory and in one protected JSON file, changed
    in transactions under a sidecar lock.  [parse] and [print] are the decoding and the
    encoding of the value, with the checks of each store.  The advisory lock excludes its
    other holders for the length of an operation; whether another process holds it is part
    of the surroundings. *)
From S2P Require Export Material.

Record Stored (R : Type) : Type := {
  st_path : path;
  st_expected_uid : Z;
  st_value : R;
}.
Arguments st_path {R} _.
Arguments st_expected_uid {R} _.
Arguments st_value {R} _.

Definition set_value {R} (value : R) (s : Stored R) : Stored R :=
  {| st_path := st_path s; st_expected_uid := st_expected_uid s; st_value := value |}.

(** The system calls of one operation: those that validate the path and open the lock file,
    whether another process holds the lock, those that look for and read the file, and those
    that replace it. *)
Record StoreIo : Type := {
  si_lock_io : MaterialIo;
  si_lock_open_fails : bool;
  si_lock_held : bool;
  si_exists_fails : bool;
  si_load_io : MaterialIo;
  si_persist_io : MaterialIo;
}.

Definition lock_name (name : list byte) : list byte := str_lit "." ++ name ++ str_lit ".lock".

Section Store.
Context {R : Type}.
Context (print : R → relay_result (list byte)).
Context (parse : list byte → relay_result R).
Context (limit : Z).

Abbreviation storing := (stateful (Stored R * FileSystem)).

(** The sidecar is created when it is absent, and its lock taken without waiting. *)
Definition lock_sidecar (io : StoreIo) : storing RelayError unit := λ '(a, fs),
  match (_ ← validate_protected_path (si_lock_io io) (st_path a) (st_expected_uid a) fs;
         dir ← ok_or (path_parent (st_path a)) ConfigurationRead;
         name ← ok_or (path_file_name (st_path a) ≫= to_str) ConfigurationRead;
         Ok (path_join dir (lock_name name))) with
  | Err e => ((a, fs), Err e)
  | Panic => ((a, fs), Panic)
  | Ok lock_path =>
      match fs !! lock_path with
      | Some n =>
          if si_lock_open_fails io || bool_decide (nd_kind n = IsDir) || si_lock_held io
          then ((a, fs), Err ConfigurationRead) else ((a, fs), Ok tt)
      | None =>
          if si_lock_open_fails io then ((a, fs), Err ConfigurationRead) else
          let created := new_file (si_lock_io io) (Z.land 384 (Z.lnot (mi_umask (si_lock_io io)))) [] in
          ((a, <[lock_path := created]> fs), if si_lock_held io then Err ConfigurationRead else Ok tt)
      end
  end.

Definition load_value (io : MaterialIo) (a : Stored R) (fs : FileSystem) : relay_result R :=
  bytes ← read_protected_file io (st_path a) (st_expected_uid a) Allowlist limit fs fs;
  parse bytes.

Definition save_value (io : MaterialIo) (value : R) : storing RelayError unit := λ '(a, fs),
  match print value with
  | Err e => ((a, fs), Err e)
  | Panic => ((a, fs), Panic)
  | Ok bytes =>
      let '(fs', r) := write_protected_file io (st_path a) (st_expected_uid a) bytes Allowlist limit fs in
      ((a, fs'), r)
  end.

Definition install (value : R) {E} : storing E unit :=
  λ '(a, fs), ((set_value value a, fs), Ok tt).

Definition loading (io : MaterialIo) : storing RelayError R :=
  λ '(a, fs), ((a, fs), load_value io a fs).

(** Opening: an existing file is loaded, an absent one created from [initial]. *)
Definition open_store (io : StoreIo) (p : path) (expected_uid : Z) (initial : R) (fs : FileSystem)
  : FileSystem * relay_result (Stored R) :=
  match validate_protected_path (si_load_io io) p expected_uid fs with
  | Err e => (fs, Err e)
  | Panic => (fs, Panic)
  | Ok _ =>
      let store := {| st_path := p; st_expected_uid := expected_uid; st_value := initial |} in
      let body : storing RelayError unit :=
        (do! lock_sidecar io;
         let! s := st_get in
         if negb (si_exists_fails io) && bool_decide (is_Some (s.2 !! p))
         then let! value := loading (si_load_io io) in install value
         else do! save_value (si_persist_io io) initial; install initial)%relay in
      match body (store, fs) with
      | ((a, fs'), Ok _) => (fs', Ok a)
      | ((_, fs'), Err e) => (fs', Err e)
      | ((_, fs'), Panic) => (fs', Panic)
      end
  end.

(** What a step on the loaded value asks for besides its answer: nothing, to keep a value in
    memory, or to replace the file and then keep the value. *)
Inductive Effect : Type :=
| Untouched
| Installed (value : R)
| Saved (value : R).

(** An error of the file as an error of the caller. *)
Definition mapping {E A} (emb : RelayError → E) (m : storing RelayError A) : storing E A :=
  λ s, let '(s', r) := m s in (s', map_err emb r).

(** One transaction: take the lock, load the file, run the step, then replace file and memory
    as the step asks. *)
Definition transact {E A} (emb : RelayError → E) (io : StoreIo) (step : R → outcome E (Effect * A))
  : storing E A :=
  (do! mapping emb (lock_sidecar io);
   let! loaded := mapping emb (loading (si_load_io io)) in
   let! stepped := st_lift (step loaded) in
   do! match stepped.1 with
       | Untouched => st_ret tt
       | Installed value => install value
       | Saved value => do! mapping emb (save_value (si_persist_io io) value); install value
       end;
   st_ret stepped.2)%relay.
End Store.
#[global] Arguments save_value : simpl never.
#[global] Arguments lock_sidecar : simpl never.
Arguments Untouched {R}.
Arguments Installed {R} value.
Arguments Saved {R} value.

(** * Facts *)

(** ** The lock *)
Lemma lock_path_ne (dir : path) nm : path_join dir (lock_name nm) ≠ dir ++ [Normal nm].
Proof.
  unfold path_join. intros [= H%(f_equal (length (A := byte)))]%app_inv_head.
  unfold lock_name in H. rewrite !length_app in H. simpl in H. lia.
Qed.

(** Where the lock file is. *)
Definition lock_path_of (p : path) : option path :=
  dir ← path_parent p; name ← path_file_name p ≫= to_str; Some (path_join dir (lock_name name)).

Lemma lock_path_of_Some p l :
  lock_path_of p = Some l → length l = length p ∧ l ≠ p.
Proof.
  unfold lock_path_of. intros (dir & Hd & (nm & (nm' & Hfn & Hs)%bind_Some & [= <-])%bind_Some)%bind_Some.
  apply path_file_name_Some in Hfn as (q & -> & Hq). rewrite Hd in Hq. injection Hq as <-.
  unfold to_str in Hs. apply from_utf8_Some in Hs as [-> _].
  split; [unfold path_join; by rewrite !length_app|apply lock_path_ne].
Qed.

(** System calls that do not fail, and a lock nobody else holds. *)
Definition undisturbed (io : StoreIo) : Prop :=
  reads_faithfully (si_lock_io io) ∧ reads_faithfully (si_load_io io)
  ∧ si_lock_open_fails io = false ∧ si_lock_held io = false.

Section Facts.
Context {R : Type}.
Context (print : R → relay_result (list byte)).
Context (parse : list byte → relay_result R).
Context (limit : Z).

Lemma lock_sidecar_spec io (a : Stored R) fs s' r :
  lock_sidecar io (a, fs) = (s', r) →
  s'.1 = a ∧ (∀ q, (length q < length (st_path a))%nat → s'.2 !! q = fs !! q)
  ∧ s'.2 !! st_path a = fs !! st_path a
  ∧ match r with
    | Ok _ => validate_protected_path (si_lock_io io) (st_path a) (st_expected_uid a) fs = Ok tt
              ∧ ∃ l n, lock_path_of (st_path a) = Some l ∧ s'.2 !! l = Some n ∧ nd_kind n ≠ IsDir
    | Err _ => True
    | Panic => False
    end.
Proof.
  unfold lock_sidecar. destruct (validate_protected_path _ _ _ _) as [[]|e|] eqn:Hv; [|by intros [= <- <-]|].
  2: { by destruct (validate_protected_path_returns (si_lock_io io) (st_path a) (st_expected_uid a) fs). }
  cbn [mbind outcome_bind]. destruct (path_parent (st_path a)) as [dir|] eqn:Hd; [|by intros [= <- <-]].
  cbn [ok_or mbind outcome_bind]. destruct (path_file_name (st_path a) ≫= to_str) as [nm|] eqn:Hn; [|by intros [= <- <-]].
  cbn [ok_or mbind outcome_bind]. set (l := path_join dir (lock_name nm)).
  assert (Hl : lock_path_of (st_path a) = Some l) by (unfold lock_path_of; by rewrite Hd; simpl; rewrite Hn).
  pose proof (lock_path_of_Some _ _ Hl) as [Hlen Hne].
  destruct (fs !! l) as [n|] eqn:Hfl.
  - destruct (_ || _) eqn:Hc; intros [= <- <-]; (split_and!; try done). exists l, n. bool_facts. done.
  - destruct (si_lock_open_fails io); [by intros [= <- <-]|]. intros [= <- <-]. simpl.
    split_and!; [done|intros q Hq; rewrite lookup_insert_ne; [done|intros <-; lia]|by rewrite lookup_insert_ne|].
    destruct (si_lock_held io); [done|]. split; [done|]. eexists l, _. by rewrite lookup_insert_eq.
Qed.

(** ** Loading and saving *)
Lemma load_value_agree io (a : Stored R) fs fs' value :
  parsed (st_path a) → (∀ q, (length q < length (st_path a))%nat → fs' !! q = fs !! q) →
  fs' !! st_path a = fs !! st_path a →
  load_value parse limit io a fs' = Ok value → load_value parse limit io a fs = Ok value.
Proof.
  intros Hp Hag Hpp. unfold load_value. intros (bytes & Hr & H)%bind_Ok.
  by rewrite (read_protected_file_agree _ _ _ _ _ fs fs' bytes Hp Hag Hpp Hr).
Qed.

Lemma load_value_file io (a : Stored R) fs value :
  load_value parse limit io a fs = Ok value →
  validate_protected_path io (st_path a) (st_expected_uid a) fs = Ok tt
  ∧ ∃ file bytes, fs !! st_path a = Some file ∧ protected_file (st_expected_uid a) Allowlist limit file
    ∧ parse bytes = Ok value.
Proof.
  unfold load_value. intros (bytes & Hr & Hp)%bind_Ok. apply read_protected_file_Ok in Hr as (? & n & o & Hn & _ & Hf & _).
  eauto 10.
Qed.

Lemma load_value_returns io (a : Stored R) fs :
  (∀ bytes, returns (parse bytes)) → returns (load_value parse limit io a fs).
Proof. intros Hp. apply bind_returns; [apply read_protected_file_returns|]. intros bytes _. apply Hp. Qed.

Lemma load_value_io io (a b : Stored R) fs :
  st_path b = st_path a → st_expected_uid b = st_expected_uid a →
  load_value parse limit io b fs = load_value parse limit io a fs.
Proof. intros Hb Hu. unfold load_value. by rewrite Hb, Hu. Qed.

Lemma save_value_spec io (a : Stored R) fs s' r value :
  (∀ v, returns (print v)) →
  save_value print limit io value (a, fs) = (s', r) →
  s'.1 = a ∧ match r with
             | Ok _ => ∀ q, q ≠ st_path a → s'.2 !! q = fs !! q
             | Err _ => s'.2 !! st_path a = fs !! st_path a
             | Panic => False
             end.
Proof.
  intros Hpr. unfold save_value. destruct (print value) eqn:Hv; [|by intros [= <- <-]|by destruct (Hpr value)].
  destruct (write_protected_file _ _ _ _ _ _ _) as [fs' w] eqn:Hw. intros [= <- <-].
  apply write_protected_file_spec in Hw as [_ Hw]. split; [done|]. destruct w; try done.
  destruct Hw as (Hfs & _). intros q Hq. simpl. rewrite Hfs. by rewrite lookup_insert_ne.
Qed.

(** A value that was saved is loaded back. *)
Lemma load_after_save io io' (a : Stored R) fs s' value bytes :
  parsed (st_path a) → reads_faithfully io' → mi_euid io = st_expected_uid a → limit ≤ MAX_ALLOWLIST_BYTES →
  validate_protected_path io' (st_path a) (st_expected_uid a) fs = Ok tt →
  print value = Ok bytes → parse bytes = Ok value →
  save_value print limit io value (a, fs) = (s', Ok tt) →
  load_value parse limit io' a s'.2 = Ok value.
Proof.
  intros Hp Hio Hu Hlim Hv Hpr Hpa. unfold save_value. rewrite Hpr.
  destruct (write_protected_file _ _ _ _ _ _ _) as [fs' w] eqn:Hw. intros [= <- ->]. simpl. unfold load_value.
  rewrite (read_after_write io io' (st_path a) (st_expected_uid a) Allowlist limit bytes fs fs'); try done.
  unfold max_bytes. lia.
Qed.

(** Taking a free lock. *)
Lemma lock_undisturbed io (a : Stored R) fs value l n :
  undisturbed io → lock_path_of (st_path a) = Some l → fs !! l = Some n → nd_kind n ≠ IsDir →
  load_value parse limit (si_load_io io) a fs = Ok value →
  lock_sidecar io (a, fs) = ((a, fs), Ok tt).
Proof.
  intros (Hlk & Hld & Ho & Hh) Hl Hn Hk Hload. unfold lock_sidecar.
  pose proof (load_value_file _ _ _ _ Hload) as [Hv _].
  rewrite (validate_protected_path_io _ (si_lock_io io) _ _ _ (proj1 Hlk) Hv). cbn [mbind outcome_bind].
  unfold lock_path_of in Hl. apply bind_Some in Hl as (dir & -> & (nm & -> & [= <-])%bind_Some).
  cbn [ok_or mbind outcome_bind]. by rewrite Hn, Ho, Hh, bool_decide_eq_false_2.
Qed.

(** What a step saves of what was loaded is parsed back from its encoding. *)
Definition saves_parse {E A} (loads : R → Prop) (step : R → outcome E (Effect * A)) : Prop :=
  ∀ loaded value x encoded,
    loads loaded → step loaded = Ok (Saved value, x) → print value = Ok encoded → parse encoded = Ok value.

(** The transaction, by its outcome: an error leaves memory and file as they were; a success
    ran the step on the content of the file, and a saved value is what every store on that
    file loads next. *)
Lemma transact_spec {E A} (emb : RelayError → E) io (step : R → outcome E (Effect * A)) a fs s' r :
  (∀ bytes, returns (parse bytes)) → (∀ v, returns (print v)) → (∀ v, returns (step v)) →
  parsed (st_path a) → mi_euid (si_persist_io io) = st_expected_uid a → limit ≤ MAX_ALLOWLIST_BYTES →
  saves_parse (λ v, load_value parse limit (si_load_io io) a fs = Ok v) step →
  transact print parse limit emb io step (a, fs) = (s', r) →
  match r with
  | Ok x => ∃ loaded eff,
      load_value parse limit (si_load_io io) a fs = Ok loaded ∧ step loaded = Ok (eff, x)
      ∧ match eff with
        | Untouched => s'.1 = a ∧ s'.2 !! st_path a = fs !! st_path a
        | Installed v => s'.1 = set_value v a ∧ s'.2 !! st_path a = fs !! st_path a
        | Saved v => s'.1 = set_value v a
            ∧ ∀ b io', st_path b = st_path a → st_expected_uid b = st_expected_uid a → undisturbed io' →
                lock_sidecar io' (b, s'.2) = ((b, s'.2), Ok tt)
                ∧ load_value parse limit (si_load_io io') b s'.2 = Ok v
        end
  | Err e => s'.1 = a ∧ s'.2 !! st_path a = fs !! st_path a
      ∧ ((∃ e0, e = emb e0)
         ∨ ∃ loaded, load_value parse limit (si_load_io io) a fs = Ok loaded ∧ step loaded = Err e)
  | Panic => False
  end.
Proof.
  intros Hparse Hprint Hstep Hp Heuid Hlim Hsave. unfold transact, st_bind, mapping, st_lift, st_ret.
  destruct (lock_sidecar io (a, fs)) as [[a1 fs1] lk] eqn:Hlk.
  apply lock_sidecar_spec in Hlk as (Ha1 & Hag & Hpp & Hlk). simpl in Ha1, Hag, Hpp, Hlk. subst a1.
  destruct lk as [[]|e|]; [|intros [= <- <-]; simpl; eauto|done]. destruct Hlk as (_ & l & n & Hl & Hn & Hk).
  simpl. destruct (load_value parse limit (si_load_io io) a fs1) as [loaded|e|] eqn:Hload;
    [|intros [= <- <-]; simpl; eauto|by destruct (load_value_returns (si_load_io io) a fs1 Hparse)].
  pose proof (load_value_agree _ _ _ _ _ Hp Hag Hpp Hload) as Hload0.
  pose proof (load_value_file _ _ _ _ Hload) as (Hv & _). simpl.
  destruct (step loaded) as [[eff x]|e|] eqn:Hx; [|intros [= <- <-]; simpl; eauto 8|by destruct (Hstep loaded)].
  destruct eff as [|v|v]; simpl.
  1-2: intros [= <- <-]; simpl; eexists loaded, _; done.
  destruct (save_value print limit (si_persist_io io) v (a, fs1)) as [[a2 fs2] ps] eqn:Hps.
  pose proof (save_value_spec _ _ _ _ _ _ Hprint Hps) as [Ha2 Hspec]. simpl in Ha2, Hspec. subst a2.
  destruct ps as [[]|e|]; simpl; [|intros [= <- <-]; simpl; rewrite <-Hpp; eauto|done].
  intros [= <- <-]. exists loaded, (Saved v). split_and!; try done. simpl.
  intros b io' Hb Hbu Hio'. pose proof (lock_path_of_Some _ _ Hl) as [_ Hne].
  assert (Hld : load_value parse limit (si_load_io io') b fs2 = Ok v).
  { rewrite (load_value_io (si_load_io io') a b) by done. destruct Hio' as (_ & Hrd & _).
    pose proof Hps as Hps0. unfold save_value in Hps0. destruct (print v) as [encoded|e|] eqn:Hpv; [|done..]. clear Hps0.
    apply (load_after_save (si_persist_io io) (si_load_io io') a fs1 (a, fs2) v encoded); try done.
    - apply (validate_protected_path_io (si_load_io io)); [apply Hrd|done].
    - by eapply Hsave. }
  split; [|done]. apply (lock_undisturbed io' b fs2 v l n); try done; [by rewrite Hb|by rewrite <-Hn; apply Hspec].
Qed.
End Facts.

