(* ===== verification/Allowlist.v ===== *)
(** * The persistent allowlist (src/src/allowlist.rs)

    [PersistentAllowlist]: the registry of Enrollment.v kept in memory and in one protected
    JSON file, every change a transaction (ProtectedStore.v) that applies the registry
    operation to what the file holds.  The JSON crate is a pair of parameters. *)
From S2P Require Export ProtectedStore Enrollment.

Definition PersistentAllowlist : Type := Stored AllowlistRegistry.

Section Persistent.
Context (to_vec : AllowlistRegistry → option (list byte)).
Context (from_slice : list byte → option AllowlistRegistry).

Abbreviation persistent := (stateful (PersistentAllowlist * FileSystem)).

Definition lock_file (io : StoreIo) : persistent RelayError unit := lock_sidecar io.

(** [load_registry] and [persist_registry], by what they do to the bytes of the file. *)
Definition parse_registry (bytes : list byte) : relay_result AllowlistRegistry :=
  registry ← ok_or (from_slice bytes) ConfigurationRead;
  _ ← map_err (λ _, ConfigurationRead) (validate_persisted registry);
  Ok registry.
Definition print_registry (registry : AllowlistRegistry) : relay_result (list byte) :=
  ok_or (to_vec registry) ConfigurationRead.

Definition load_registry (io : MaterialIo) (a : PersistentAllowlist) (fs : FileSystem)
  : relay_result AllowlistRegistry := load_value parse_registry MAX_ALLOWLIST_BYTES io a fs.
Definition persist_registry (io : MaterialIo) (registry : AllowlistRegistry)
  : persistent RelayError unit := save_value print_registry MAX_ALLOWLIST_BYTES io registry.

Definition PersistentAllowlist_open (io : StoreIo) (p : path) (expected_uid : Z) (fs : FileSystem)
  : FileSystem * relay_result PersistentAllowlist :=
  open_store print_registry parse_registry MAX_ALLOWLIST_BYTES io p expected_uid AllowlistRegistry_new fs.

Definition PersistentAllowlist_generation (a : PersistentAllowlist) : Z := ar_generation (st_value a).
Definition PersistentAllowlist_allows_qrm_at (a : PersistentAllowlist) (fingerprint : list byte) (now : Z) : bool :=
  allows_qrm_at (st_value a) fingerprint now.
Definition PersistentAllowlist_authorize_update_at (a : PersistentAllowlist) (fingerprint : list byte) (now : Z)
  : eresult unit :=
  authorize_update_at (st_value a) fingerprint now.
Definition PersistentAllowlist_entry (a : PersistentAllowlist) (app_id : list byte) : option AllowlistEntry :=
  entry (st_value a) app_id.

Definition PersistentAllowlist_replace (io : StoreIo) (registry : AllowlistRegistry)
  : persistent RelayError unit :=
  (do! st_lift (map_err (λ _, ConfigurationRead) (validate_persisted registry));
   do! lock_file io;
   do! persist_registry (si_persist_io io) registry;
   install registry)%relay.

(** The transaction the four changing calls share: [f] is applied to the registry loaded
    from the file, and what it leaves is persisted and then installed. *)
Definition changing {A} (f : allowing A) (loaded : AllowlistRegistry) : eresult (Effect * A) :=
  let '(next, answer) := f loaded in (λ x, (Saved next, x)) <$> answer.
Definition transaction {A} (io : StoreIo) (f : allowing A) : persistent EnrollmentError A :=
  transact print_registry parse_registry MAX_ALLOWLIST_BYTES (λ _, AllowlistPersistence) io (changing f).

Definition PersistentAllowlist_enroll_pending (io : StoreIo) (certificate : CertificateMetadata)
  : persistent EnrollmentError AllowlistEntry := transaction io (enroll_pending certificate).
Definition PersistentAllowlist_activate (io : StoreIo) (app_id fingerprint : list byte)
  : persistent EnrollmentError AllowlistEntry := transaction io (activate app_id fingerprint).
Definition PersistentAllowlist_enroll (io : StoreIo) (certificate : CertificateMetadata)
  : persistent EnrollmentError AllowlistEntry := transaction io (enroll certificate).
Definition PersistentAllowlist_revoke (io : StoreIo) (app_id : list byte)
  : persistent EnrollmentError Z := transaction io (revoke app_id).

Definition PersistentAllowlist_reload (io : StoreIo) : persistent RelayError unit :=
  (do! lock_file io;
   let! registry := (λ '(a, fs), ((a, fs), load_registry (si_load_io io) a fs)) in
   install registry)%relay.
End Persistent.

(** * Facts *)

(** ** Calls *)

(** A changing call, in memory and on the file. *)
Definition allowlist_answer : Type := AllowlistEntry + Z.

Definition answering {S A B} (g : A → B) (m : stateful S EnrollmentError A) : stateful S EnrollmentError B :=
  λ s, let '(s', r) := m s in (s', g <$> r).

Definition memory_call (op : allowlist_op) : allowing allowlist_answer :=
  match op with
  | EnrollPending certificate => answering inl (enroll_pending certificate)
  | Enroll certificate => answering inl (enroll certificate)
  | Activate app_id fingerprint => answering inl (activate app_id fingerprint)
  | Revoke app_id => answering inr (revoke app_id)
  end.

Definition persistent_call (to_vec : AllowlistRegistry → option (list byte))
    (from_slice : list byte → option AllowlistRegistry) (io : StoreIo) (op : allowlist_op)
  : stateful (PersistentAllowlist * FileSystem) EnrollmentError allowlist_answer :=
  match op with
  | EnrollPending certificate => answering inl (PersistentAllowlist_enroll_pending to_vec from_slice io certificate)
  | Enroll certificate => answering inl (PersistentAllowlist_enroll to_vec from_slice io certificate)
  | Activate app_id fingerprint =>
      answering inl (PersistentAllowlist_activate to_vec from_slice io app_id fingerprint)
  | Revoke app_id => answering inr (PersistentAllowlist_revoke to_vec from_slice io app_id)
  end.

Lemma memory_call_run op r : (memory_call op r).1 = run_allowlist r op.
Proof. destruct op; simpl; unfold answering; by case_match. Qed.

Lemma answering_transaction {A B} (to_vec : AllowlistRegistry → option (list byte)) from_slice io (g : A → B) (f : allowing A) s :
  answering g (transaction to_vec from_slice io f) s = transaction to_vec from_slice io (answering g f) s.
Proof.
  unfold answering, transaction, transact, changing, st_bind, st_lift, st_ret, mapping.
  destruct (lock_sidecar io s) as [s1 [[]|e|]]; simpl; try done.
  destruct (loading _ _ _ s1) as [s2 [loaded|e|]]; simpl; try done.
  destruct (f loaded) as [next [x|e|]]; simpl; try done.
  destruct (save_value _ _ _ _ s2) as [s3 [[]|e|]]; simpl; try done. by destruct s3.
Qed.

Lemma persistent_call_transaction to_vec from_slice io op s :
  persistent_call to_vec from_slice io op s = transaction to_vec from_slice io (memory_call op) s.
Proof. destruct op; apply answering_transaction. Qed.

(** ** What is loaded and saved *)

(** What a registry needs for the file that holds it to load. *)
Definition persistable (r : AllowlistRegistry) : Prop := validate_persisted r = Ok tt.

Lemma persistable_iff r :
  persistable r ↔ ar_generation r ≠ 0
    ∧ ∀ k e, ar_entries r !! k = Some e → ae_generation e ≠ 0 ∧ ae_not_after_epoch_seconds e ≠ 0.
Proof.
  unfold persistable, validate_persisted. split.
  - destruct (_ || _) eqn:Hc; [done|]. bool_facts. intros _. split; [done|]. intros k e He.
    rewrite map_any_false in *. match goal with H : ∀ _ _, _ |- _ => specialize (H k e He) end. bool_facts. done.
  - intros [Hg He]. rewrite (proj2 (map_any_false _ _)); [by rewrite (proj2 (Z.eqb_neq _ _) Hg)|].
    intros k e Hk. destruct (He k e Hk). apply orb_false_iff. by rewrite !Z.eqb_neq.
Qed.

Definition op_valid (op : allowlist_op) : Prop :=
  match op with
  | EnrollPending c | Enroll c => cm_not_after_epoch_seconds c ≠ 0
  | _ => True
  end.

Lemma run_allowlist_persistable op r :
  op_valid op → is_u64 (ar_generation r) → persistable r → persistable (run_allowlist r op).
Proof.
  intros Hop Hu. rewrite !persistable_iff. intros [Hg He].
  assert (Hen : ∀ c st, cm_not_after_epoch_seconds c ≠ 0 →
    ar_generation (enroll_with_state c st r).1 ≠ 0
    ∧ ∀ k e, ar_entries (enroll_with_state c st r).1 !! k = Some e → ae_generation e ≠ 0 ∧ ae_not_after_epoch_seconds e ≠ 0).
  { intros c st Hc. unfold enroll_with_state. destruct (_ || _); [done|].
    destruct (u64_checked_add _ 1) as [g|] eqn:Hgg; [|done]. apply u64_checked_add_Some in Hgg as [-> _].
    unfold is_u64 in Hu. simpl. split; [lia|]. intros k e [[_ <-]|[_ ?]]%lookup_insert_Some; [simpl; split; lia|eauto]. }
  destruct op; simpl in *; [by apply Hen..| |].
  - unfold activate. destruct (ar_entries r !! app_id) as [e|] eqn:Hx; [|done]. destruct (_ || _); [done|]. simpl.
    split; [done|]. intros k e' [[<- <-]|[_ ?]]%lookup_insert_Some; [apply (He _ _ Hx)|eauto].
  - unfold revoke. destruct (ar_entries r !! app_id) as [e|] eqn:Hx; [|done]. case_bool_decide; [done|].
    destruct (u64_checked_add _ 1) as [g|] eqn:Hgg; [|done]. apply u64_checked_add_Some in Hgg as [-> _].
    unfold is_u64 in Hu. simpl. split; [lia|]. intros k e'. rewrite lookup_fmap, fmap_Some. intros (e0 & He0 & ->).
    destruct (He _ _ He0). unfold revoke_value. case_bool_decide; simpl; (split; [lia|done]).
Qed.

Lemma memory_call_returns op r : returns (memory_call op r).2.
Proof.
  destruct op; unfold returns; simpl; unfold answering, enroll_pending, enroll, enroll_with_state, activate, revoke;
    repeat case_match; simplify_eq/=; done.
Qed.

Section Facts.
Context (to_vec : AllowlistRegistry → option (list byte)).
Context (from_slice : list byte → option AllowlistRegistry).

(** serde: what is written is read back, and a [u64] field holds a [u64]. *)
Context (json_roundtrip : ∀ r bytes, to_vec r = Some bytes → from_slice bytes = Some r).
Context (json_u64 : ∀ r bytes, from_slice bytes = Some r → is_u64 (ar_generation r)).

Lemma parse_registry_Ok bytes r :
  parse_registry from_slice bytes = Ok r ↔ from_slice bytes = Some r ∧ persistable r.
Proof.
  unfold parse_registry, persistable. split.
  - by intros (r' & Hs%ok_or_Ok & ([] & Hv%map_err_Ok & [= ->])%bind_Ok)%bind_Ok.
  - by intros [-> Hv]; simpl; rewrite Hv.
Qed.

Lemma parse_registry_returns bytes : returns (parse_registry from_slice bytes).
Proof.
  apply bind_returns; [apply ok_or_returns|]. intros registry _. apply bind_returns; [|done].
  apply map_err_returns. unfold validate_persisted. by destruct (_ || _).
Qed.

Lemma changing_Ok {A} (f : allowing A) loaded eff x :
  changing f loaded = Ok (eff, x) ↔ eff = Saved (f loaded).1 ∧ (f loaded).2 = Ok x.
Proof. unfold changing. destruct (f loaded) as [next [y|e|]]; simpl; naive_solver. Qed.

Lemma changing_Err {A} (f : allowing A) loaded e : changing f loaded = Err e ↔ (f loaded).2 = Err e.
Proof. unfold changing. destruct (f loaded) as [next [y|e'|]]; simpl; naive_solver. Qed.

Lemma changing_saves_parse op :
  op_valid op →
  saves_parse (print_registry to_vec) (parse_registry from_slice)
    (λ v, ∃ bytes, parse_registry from_slice bytes = Ok v) (changing (memory_call op)).
Proof.
  intros Hop loaded value x encoded [bytes [Hs Hper]%parse_registry_Ok] [[= ->] _]%changing_Ok Henc%ok_or_Ok.
  apply parse_registry_Ok. split; [by apply json_roundtrip|]. rewrite memory_call_run.
  apply run_allowlist_persistable; [done| |done]. by eapply json_u64.
Qed.
End Facts.

(** * Properties *)

(** C14. The persistent allowlist refines the in-memory registry, and every failure leaves it
    as it was.  A changing call that answers [Ok] read an owner-only file, its answer and the
    new registry are those of the registry operation on what that file held, and any store on
    the same file, of this or another process, gets that new registry when it reloads.  A
    call that answers with an error, wherever the path check, the lock, the read, the
    operation or the replacement failed, leaves the memory and the file unchanged, and its
    error is that of the operation or [AllowlistPersistence].  No call panics. *)
Theorem persistent_allowlist_refines to_vec from_slice op io a fs a' fs' r :
  (∀ reg bytes, to_vec reg = Some bytes → from_slice bytes = Some reg) →
  (∀ reg bytes, from_slice bytes = Some reg → is_u64 (ar_generation reg)) →
  parsed (st_path a) → mi_euid (si_persist_io io) = st_expected_uid a → op_valid op →
  persistent_call to_vec from_slice io op (a, fs) = ((a', fs'), r) →
  match r with
  | Ok x => ∃ loaded file,
      load_registry from_slice (si_load_io io) a fs = Ok loaded
      ∧ fs !! st_path a = Some file
      ∧ protected_file (st_expected_uid a) Allowlist MAX_ALLOWLIST_BYTES file
      ∧ (memory_call op loaded).2 = Ok x ∧ a' = set_value (run_allowlist loaded op) a
      ∧ ∀ b io', st_path b = st_path a → st_expected_uid b = st_expected_uid a → undisturbed io' →
          PersistentAllowlist_reload from_slice io' (b, fs')
          = ((set_value (run_allowlist loaded op) b, fs'), Ok tt)
  | Err e => a' = a ∧ fs' !! st_path a = fs !! st_path a
      ∧ (e = AllowlistPersistence
         ∨ ∃ loaded, load_registry from_slice (si_load_io io) a fs = Ok loaded ∧ (memory_call op loaded).2 = Err e)
  | Panic => False
  end.
Proof.
  intros Hjson Hu64 Hp Heuid Hop. rewrite persistent_call_transaction. intros Hc.
  apply transact_spec in Hc; [|apply parse_registry_returns|intros; apply ok_or_returns| |done..|].
  2: { intros v. unfold changing. pose proof (memory_call_returns op v). by destruct (memory_call op v) as [? []]. }
  2: { intros loaded v x enc (_ & _ & bytes & _ & _ & Hb)%load_value_file. by eapply changing_saves_parse; eauto. }
  destruct r as [x|e|]; simpl in Hc; [|..|done].
  - destruct Hc as (loaded & eff & Hload & [-> Hx]%changing_Ok & -> & Hnext).
    pose proof (load_value_file _ _ _ _ _ _ Hload) as (_ & file & bytes & Hfile & Hprot & _).
    exists loaded, file. rewrite memory_call_run in *. split_and!; try done.
    intros b io' Hb Hbu Hio'. destruct (Hnext b io' Hb Hbu Hio') as [Hlock Hl].
    unfold PersistentAllowlist_reload, st_bind, lock_file, load_registry. by rewrite Hlock, Hl.
  - destruct Hc as (-> & -> & He). split_and!; [done..|]. destruct He as [[_ ->]|(loaded & ? & He%changing_Err)]; eauto.
Qed.

#[export] Instance AllowlistEntry_eq_dec : EqDecision AllowlistEntry.
Proof. solve_decision. Defined.
#[export] Instance AllowlistRegistry_eq_dec : EqDecision AllowlistRegistry.
Proof. solve_decision. Defined.

(** A small instance: a directory [/d] with the file [/d/a], and a codec of two registries. *)
Definition example_old : AllowlistRegistry := AllowlistRegistry_new.
Definition example_new : AllowlistRegistry := run_allowlist example_old (Enroll (example_certificate (str_lit "a"))).
Definition example_to_vec (r : AllowlistRegistry) : option (list byte) :=
  if bool_decide (r = example_old) then Some (str_lit "old")
  else if bool_decide (r = example_new) then Some (str_lit "new") else None.
Definition example_from_slice (bytes : list byte) : option AllowlistRegistry :=
  if bool_decide (bytes = str_lit "old") then Some example_old
  else if bool_decide (bytes = str_lit "new") then Some example_new else None.

Definition example_dir : path := components (str_lit "/d").
Definition example_path : path := components (str_lit "/d/a").
Definition example_fs : FileSystem :=
  {[ example_dir := {| nd_kind := IsDir; nd_uid := 5; nd_mode := 448; nd_dev := 1; nd_ino := 2; nd_bytes := [] |};
     example_path := {| nd_kind := IsFile; nd_uid := 5; nd_mode := 384; nd_dev := 1; nd_ino := 3;
                        nd_bytes := str_lit "old" |} ]}.
Definition example_io : StoreIo :=
  {| si_lock_io := sound_io 5; si_lock_open_fails := false; si_lock_held := false; si_exists_fails := false;
     si_load_io := sound_io 5; si_persist_io := sound_io 5 |}.
Definition example_store : PersistentAllowlist :=
  {| st_path := example_path; st_expected_uid := 5; st_value := AllowlistRegistry_new |}.

Lemma example_json_roundtrip r bytes : example_to_vec r = Some bytes → example_from_slice bytes = Some r.
Proof.
  unfold example_to_vec. case_bool_decide as H1; [intros [= <-]; subst r; by vm_compute|].
  case_bool_decide as H2; [|done]. intros [= <-]. subst r. by vm_compute.
Qed.

Lemma example_json_u64 r bytes : example_from_slice bytes = Some r → is_u64 (ar_generation r).
Proof.
  unfold example_from_slice. case_bool_decide; [by intros [= <-]|]. case_bool_decide; [by intros [= <-]|done].
Qed.

Lemma persistent_allowlist_refines_witness :
  let call := persistent_call example_to_vec example_from_slice example_io
                (Enroll (example_certificate (str_lit "a"))) (example_store, example_fs) in
  is_ok call.2 = true
  ∧ PersistentAllowlist_reload example_from_slice example_io (example_store, call.1.2)
    = ((set_value example_new example_store, call.1.2), Ok tt).
Proof.
  intros call. assert (Hr : ∃ x, call.2 = Ok x) by (eexists; by vm_compute). destruct Hr as [x Hx].
  assert (Hc : call = ((call.1.1, call.1.2), Ok x)) by (rewrite <-Hx, <-surjective_pairing; apply surjective_pairing).
  split; [by rewrite Hx|].
  pose proof (persistent_allowlist_refines example_to_vec example_from_slice
    (Enroll (example_certificate (str_lit "a"))) example_io example_store example_fs call.1.1 call.1.2 (Ok x)
    example_json_roundtrip example_json_u64 (components_parsed _) eq_refl ltac:(done) Hc)
    as (loaded & file & Hl & _ & _ & _ & _ & Hreload).
  assert (loaded = example_old) as ->.
  { assert (H : load_registry example_from_slice (si_load_io example_io) example_store example_fs = Ok example_old)
      by (by vm_compute). rewrite H in Hl. by apply Ok_inj in Hl as <-. }
  apply Hreload; [done|done|]. repeat split.
Defined.

(** Observation: [Path::exists] is false when the look-up fails, and then an existing
    allowlist is replaced by an empty one. *)
Lemma stat_failure_resets_allowlist :
  let fs := <[example_path := {| nd_kind := IsFile; nd_uid := 5; nd_mode := 384; nd_dev := 1; nd_ino := 3;
                                 nd_bytes := str_lit "new" |}]> example_fs in
  let io := {| si_lock_io := sound_io 5; si_lock_open_fails := false; si_lock_held := false;
               si_exists_fails := true; si_load_io := sound_io 5; si_persist_io := sound_io 5 |} in
  let opened := PersistentAllowlist_open example_to_vec example_from_slice io example_path 5 fs in
  is_ok opened.2 = true ∧ nd_bytes <$> (opened.1 !! example_path) = Some (str_lit "old").
Proof. split; by vm_compute. Qed.
