(* ===== verification/Issuance.v ===== *)
(** * Issuance results (src/src/issuance.rs)

    [PersistentIssuanceResults]: the outcome of each enrollment, kept for a day so that a
    lost response can be asked for again.  One record per binding of an authorization to a
    certificate request, pending until it is issued or rejected.  Built on the transactions
    of ProtectedStore.v; the JSON crate is a pair of parameters. *)
From S2P Require Export ProtectedStore Enrollment.

Definition ISSUANCE_RESULT_TTL_SECS : Z := 24 * 60 * 60.
Definition MAX_ISSUANCE_RESULT_RECORDS : Z := 256.
Definition MAX_ISSUANCE_RESULT_BYTES : Z := MAX_ALLOWLIST_BYTES.
Definition MAX_ISSUANCE_CHAIN_BYTES : Z := 48 * 1024.
Definition MAX_AUTHORIZATION_TTL_SECS : Z := 300.
Definition ISSUANCE_RESULT_STORE_VERSION : Z := 1.

Record IssuanceResultKey : Type := {
  ik_authorization_id : list byte;
  ik_csr_digest : list byte;
}.

#[export] Instance IssuanceResultKey_eq_dec : EqDecision IssuanceResultKey.
Proof. solve_decision. Defined.

Definition IssuanceResultKey_new (authorization_id csr_digest : list byte) : relay_result IssuanceResultKey :=
  if bool_decide (authorization_id = zeros 16) || bool_decide (csr_digest = zeros 32)
  then Err (QuicProtocol "issuance binding is empty")
  else Ok {| ik_authorization_id := authorization_id; ik_csr_digest := csr_digest |}.

Inductive IssuanceResultStatus : Type := ResultPending | ResultIssued | ResultRejected.

#[export] Instance IssuanceResultStatus_eq_dec : EqDecision IssuanceResultStatus.
Proof. solve_decision. Defined.

Record IssuanceResultRecord : Type := {
  ir_key : IssuanceResultKey;
  ir_app_id : list byte;
  ir_status : IssuanceResultStatus;
  ir_authorization_expires_at : Z;
  ir_retained_until : Z;
  ir_certificate_chain : list (list byte);
  ir_fingerprint : option (list byte);
  ir_configuration_generation : option Z;
  ir_allowlist_generation : option Z;
  ir_not_after : option Z;
  ir_rejection_code : option Z;
}.

#[export] Instance IssuanceResultRecord_eq_dec : EqDecision IssuanceResultRecord.
Proof. solve_decision. Defined.

Inductive IssuanceBeginResult : Type :=
| Created (record : IssuanceResultRecord)
| Existing (record : IssuanceResultRecord).

Record PersistedIssuanceResults : Type := {
  pi_version : Z;
  pi_records : list IssuanceResultRecord;
}.

(** ** Checks *)
Definition prune_records (records : list IssuanceResultRecord) (now : Z) : list IssuanceResultRecord * bool :=
  let kept := filter (λ r, now < ir_retained_until r) records in
  (kept, negb (len records =? len kept)).

Fixpoint chain_total (total : Z) (chain : list (list byte)) : relay_result Z :=
  match chain with
  | [] => Ok total
  | certificate :: chain' =>
      if bool_decide (certificate = []) then Err (QuicProtocol "issued certificate is empty") else
      total ← ok_or (u64_checked_add total (len certificate)) ResourceLimit;
      chain_total total chain'
  end.

Definition validate_chain (chain : list (list byte)) : relay_result unit :=
  if bool_decide (chain = []) then Err (QuicProtocol "issued certificate chain is empty") else
  total ← chain_total 0 chain;
  if MAX_ISSUANCE_CHAIN_BYTES <? total then Err ResourceLimit else Ok tt.

Definition record_fields_refused (record : IssuanceResultRecord) : bool :=
  bool_decide (ik_authorization_id (ir_key record) = zeros 16)
  || bool_decide (ik_csr_digest (ir_key record) = zeros 32)
  || is_err (AppId_new (ir_app_id record))
  || bool_decide (ir_configuration_generation record = Some 0)
  || (ir_authorization_expires_at record =? 0)
  || (ir_retained_until record =? 0).

Definition validate_record_status (record : IssuanceResultRecord) : relay_result unit :=
  match ir_status record with
  | ResultPending =>
      if bool_decide (is_Some (ir_rejection_code record)) then Err ConfigurationRead else
      if bool_decide (ir_certificate_chain record ≠ []) then validate_chain (ir_certificate_chain record) else Ok tt
  | ResultIssued =>
      _ ← validate_chain (ir_certificate_chain record);
      if bool_decide (ir_fingerprint record = None) || bool_decide (ir_configuration_generation record = None)
         || bool_decide (ir_allowlist_generation record = None) || bool_decide (ir_not_after record = None)
         || bool_decide (is_Some (ir_rejection_code record))
      then Err ConfigurationRead else Ok tt
  | ResultRejected =>
      if bool_decide (ir_certificate_chain record ≠ []) || bool_decide (is_Some (ir_fingerprint record))
         || bool_decide (is_Some (ir_allowlist_generation record)) || bool_decide (is_Some (ir_not_after record))
         || bool_decide (ir_rejection_code record = None) || bool_decide (ir_rejection_code record = Some 0)
      then Err ConfigurationRead else Ok tt
  end.

(** The loop over the records; [keys] are those already seen. *)
Fixpoint validate_each (keys : list IssuanceResultKey) (records : list IssuanceResultRecord) : relay_result unit :=
  match records with
  | [] => Ok tt
  | record :: records' =>
      if bool_decide (ir_key record ∈ keys) || record_fields_refused record then Err ConfigurationRead else
      _ ← validate_record_status record;
      validate_each (ir_key record :: keys) records'
  end.

Definition validate_records (persisted : PersistedIssuanceResults) : relay_result unit :=
  if negb (pi_version persisted =? ISSUANCE_RESULT_STORE_VERSION)
     || (MAX_ISSUANCE_RESULT_RECORDS <? len (pi_records persisted))
  then Err ConfigurationRead
  else validate_each [] (pi_records persisted).

(** ** Steps on the loaded records *)
Abbreviation Records := (list IssuanceResultRecord).
Abbreviation record_step A := (Records → relay_result (Effect (R := Records) * A)).

Definition has_key (key : IssuanceResultKey) (record : IssuanceResultRecord) : bool :=
  bool_decide (ir_key record = key).
Definition find_key (key : IssuanceResultKey) (records : Records) : option IssuanceResultRecord :=
  List.find (has_key key) records.

(** Writing through the reference [iter_mut().find(..)] gives: the first match is replaced. *)
Fixpoint update_first (p : IssuanceResultRecord → bool) (new : IssuanceResultRecord) (records : Records) : Records :=
  match records with
  | [] => []
  | record :: records' => if p record then new :: records' else record :: update_first p new records'
  end.

(** [if changed { persist }; self.records = records]. *)
Definition pruned_effect (pruned : Records * bool) : Effect (R := Records) :=
  if pruned.2 then Saved pruned.1 else Installed pruned.1.

Definition find_step (key : IssuanceResultKey) (now : Z) : record_step (option IssuanceResultRecord) := λ loaded,
  let pruned := prune_records loaded now in
  Ok (pruned_effect pruned, find_key key pruned.1).

Definition find_by_authorization_id_step (authorization_id : list byte) (now : Z)
  : record_step (option IssuanceResultRecord) := λ loaded,
  let pruned := prune_records loaded now in
  Ok (pruned_effect pruned,
      List.find (λ r, bool_decide (ik_authorization_id (ir_key r) = authorization_id)) pruned.1).

Definition pending_record (key : IssuanceResultKey) (app_id : list byte)
    (configuration_generation expires_at retained_until : Z) : IssuanceResultRecord :=
  {| ir_key := key; ir_app_id := app_id; ir_status := ResultPending;
     ir_authorization_expires_at := expires_at; ir_retained_until := retained_until;
     ir_certificate_chain := []; ir_fingerprint := None;
     ir_configuration_generation := Some configuration_generation; ir_allowlist_generation := None;
     ir_not_after := None; ir_rejection_code := None |}.

Definition begin_pending_step (key : IssuanceResultKey) (app_id : list byte)
    (configuration_generation expires_at retained_until now : Z) : record_step IssuanceBeginResult := λ loaded,
  let pruned := prune_records loaded now in
  let records := pruned.1 in
  match find_key key records with
  | Some existing =>
      if bool_decide (ir_app_id existing ≠ app_id)
      then Err (QuicProtocol "issuance binding App identity mismatch") else
      if bool_decide (ir_configuration_generation existing ≠ Some configuration_generation)
      then Err (QuicProtocol "issuance binding configuration generation mismatch") else
      Ok (pruned_effect pruned, Existing existing)
  | None =>
      if existsb (λ r, bool_decide (ik_authorization_id (ir_key r) = ik_authorization_id key)) records
      then Err (QuicProtocol "issuance authorization was bound to another CSR") else
      if MAX_ISSUANCE_RESULT_RECORDS <=? len records then Err ResourceLimit else
      let record := pending_record key app_id configuration_generation expires_at retained_until in
      Ok (Saved (records ++ [record]), Created record)
  end.

(** The metadata of an issued certificate. *)
Definition same_certificate (record : IssuanceResultRecord) (chain : list (list byte)) (fingerprint : list byte)
    (allowlist_generation not_after : Z) : bool :=
  bool_decide (ir_certificate_chain record = chain) && bool_decide (ir_fingerprint record = Some fingerprint)
  && bool_decide (ir_allowlist_generation record = Some allowlist_generation)
  && bool_decide (ir_not_after record = Some not_after).

Definition with_certificate (status : IssuanceResultStatus) (retained_until : Z) (chain : list (list byte))
    (fingerprint : list byte) (allowlist_generation not_after : Z) (record : IssuanceResultRecord)
  : IssuanceResultRecord :=
  {| ir_key := ir_key record; ir_app_id := ir_app_id record; ir_status := status;
     ir_authorization_expires_at := ir_authorization_expires_at record; ir_retained_until := retained_until;
     ir_certificate_chain := chain; ir_fingerprint := Some fingerprint;
     ir_configuration_generation := ir_configuration_generation record;
     ir_allowlist_generation := Some allowlist_generation; ir_not_after := Some not_after;
     ir_rejection_code := None |}.

Definition attach_certificate_step (key : IssuanceResultKey) (chain : list (list byte)) (fingerprint : list byte)
    (allowlist_generation not_after now : Z) : record_step IssuanceResultRecord := λ loaded,
  let records := (prune_records loaded now).1 in
  record ← ok_or (find_key key records) ConfigurationRead;
  if bool_decide (ir_status record = ResultRejected)
  then Err (QuicProtocol "issuance result is terminally rejected") else
  if bool_decide (ir_certificate_chain record ≠ []) then
    if same_certificate record chain fingerprint allowlist_generation not_after
    then Ok (Untouched, record) else Err (QuicProtocol "issuance candidate was already attached")
  else
    let result := with_certificate (ir_status record) (ir_retained_until record) chain fingerprint
                    allowlist_generation not_after record in
    Ok (Saved (update_first (has_key key) result records), result).

Definition mark_issued_step (key : IssuanceResultKey) (chain : list (list byte)) (fingerprint : list byte)
    (allowlist_generation not_after now : Z) : record_step IssuanceResultRecord := λ loaded,
  let records := (prune_records loaded now).1 in
  record ← ok_or (find_key key records) ConfigurationRead;
  if bool_decide (ir_status record = ResultRejected)
  then Err (QuicProtocol "issuance result is terminally rejected") else
  if bool_decide (ir_status record = ResultIssued) then
    if same_certificate record chain fingerprint allowlist_generation not_after
    then Ok (Untouched, record) else Err (QuicProtocol "issuance result was already finalized")
  else
    retained_until ← ok_or (u64_checked_add now ISSUANCE_RESULT_TTL_SECS)
                       (QuicProtocol "issuance retention overflows");
    let result := with_certificate ResultIssued retained_until chain fingerprint
                    allowlist_generation not_after record in
    Ok (Saved (update_first (has_key key) result records), result).

Definition with_rejection (code retained_until : Z) (record : IssuanceResultRecord) : IssuanceResultRecord :=
  {| ir_key := ir_key record; ir_app_id := ir_app_id record; ir_status := ResultRejected;
     ir_authorization_expires_at := ir_authorization_expires_at record; ir_retained_until := retained_until;
     ir_certificate_chain := []; ir_fingerprint := None;
     ir_configuration_generation := ir_configuration_generation record; ir_allowlist_generation := None;
     ir_not_after := None; ir_rejection_code := Some code |}.

Definition mark_rejected_step (key : IssuanceResultKey) (code now : Z) : record_step IssuanceResultRecord := λ loaded,
  let records := (prune_records loaded now).1 in
  record ← ok_or (find_key key records) ConfigurationRead;
  match ir_status record with
  | ResultIssued => Ok (Untouched, record)
  | ResultRejected =>
      if bool_decide (ir_rejection_code record = Some code) then Ok (Untouched, record)
      else Err (QuicProtocol "issuance result has another rejection code")
  | ResultPending =>
      retained_until ← ok_or (u64_checked_add now ISSUANCE_RESULT_TTL_SECS)
                         (QuicProtocol "issuance retention overflows");
      let result := with_rejection code retained_until record in
      Ok (Saved (update_first (has_key key) result records), result)
  end.

(** ** The store *)
Definition PersistentIssuanceResults : Type := Stored Records.

Section Persistent.
Context (to_vec : PersistedIssuanceResults → option (list byte)).
Context (from_slice : list byte → option PersistedIssuanceResults).

Abbreviation issuing := (stateful (PersistentIssuanceResults * FileSystem) RelayError).

(** [load_records] and [persist_records], by what they do to the bytes of the file. *)
Definition parse_records (bytes : list byte) : relay_result Records :=
  persisted ← ok_or (from_slice bytes) ConfigurationRead;
  _ ← validate_records persisted;
  Ok (pi_records persisted).
Definition print_records (records : Records) : relay_result (list byte) :=
  if MAX_ISSUANCE_RESULT_RECORDS <? len records then Err ResourceLimit else
  ok_or (to_vec {| pi_version := ISSUANCE_RESULT_STORE_VERSION; pi_records := records |}) ConfigurationRead.

Definition stepping {A} (io : StoreIo) (step : record_step A) : issuing A :=
  transact print_records parse_records MAX_ISSUANCE_RESULT_BYTES id io step.

Definition PersistentIssuanceResults_open (io : StoreIo) (p : path) (expected_uid : Z) (fs : FileSystem)
  : FileSystem * relay_result PersistentIssuanceResults :=
  open_store print_records parse_records MAX_ISSUANCE_RESULT_BYTES io p expected_uid [] fs.

Definition find (io : StoreIo) (key : IssuanceResultKey) (now : Z) : issuing (option IssuanceResultRecord) :=
  stepping io (find_step key now).
Definition find_by_authorization_id (io : StoreIo) (authorization_id : list byte) (now : Z)
  : issuing (option IssuanceResultRecord) := stepping io (find_by_authorization_id_step authorization_id now).
Definition reconcile (io : StoreIo) (key : IssuanceResultKey) (now : Z) : issuing (option IssuanceResultRecord) :=
  stepping io (find_step key now).

(** What [begin_pending] checks before it takes the lock; it gives the retention bound. *)
Definition begin_pending_checks (app_id : list byte) (configuration_generation expires_at now : Z)
  : relay_result Z :=
  _ ← map_err (λ _, QuicProtocol "issuance App identity is invalid") (AppId_new app_id);
  if configuration_generation =? 0
  then Err (QuicProtocol "issuance configuration generation is empty") else
  if (expires_at <=? now) || (MAX_AUTHORIZATION_TTL_SECS <? expires_at - now)
  then Err (QuicProtocol "issuance authorization is expired") else
  ok_or (u64_checked_add expires_at ISSUANCE_RESULT_TTL_SECS) (QuicProtocol "issuance retention overflows").

Definition begin_pending (io : StoreIo) (key : IssuanceResultKey) (app_id : list byte)
    (configuration_generation expires_at now : Z) : issuing IssuanceBeginResult :=
  (let! retained_until := st_lift (begin_pending_checks app_id configuration_generation expires_at now) in
   stepping io (begin_pending_step key app_id configuration_generation expires_at retained_until now))%relay.

Definition issued_checks (chain : list (list byte)) (fingerprint : list byte) (allowlist_generation not_after : Z)
  : relay_result unit :=
  if bool_decide (fingerprint = zeros 32) || (allowlist_generation =? 0) || (not_after =? 0)
  then Err (QuicProtocol "issued metadata is invalid") else validate_chain chain.

Definition attach_certificate (io : StoreIo) (key : IssuanceResultKey) (chain : list (list byte))
    (fingerprint : list byte) (allowlist_generation not_after now : Z) : issuing IssuanceResultRecord :=
  (do! st_lift (issued_checks chain fingerprint allowlist_generation not_after);
   stepping io (attach_certificate_step key chain fingerprint allowlist_generation not_after now))%relay.

Definition mark_issued (io : StoreIo) (key : IssuanceResultKey) (chain : list (list byte))
    (fingerprint : list byte) (allowlist_generation not_after now : Z) : issuing IssuanceResultRecord :=
  (do! st_lift (issued_checks chain fingerprint allowlist_generation not_after);
   stepping io (mark_issued_step key chain fingerprint allowlist_generation not_after now))%relay.

Definition mark_rejected (io : StoreIo) (key : IssuanceResultKey) (code now : Z) : issuing IssuanceResultRecord :=
  (do! st_lift (if code =? 0 then Err (QuicProtocol "issuance rejection code is empty") else Ok tt);
   stepping io (mark_rejected_step key code now))%relay.
End Persistent.

(** ** Operation sequences *)
Inductive issuance_op : Type :=
| FindOp (key : IssuanceResultKey) (now : Z)
| FindByIdOp (authorization_id : list byte) (now : Z)
| BeginOp (key : IssuanceResultKey) (app_id : list byte) (configuration_generation expires_at now : Z)
| AttachOp (key : IssuanceResultKey) (chain : list (list byte)) (fingerprint : list byte)
    (allowlist_generation not_after now : Z)
| IssueOp (key : IssuanceResultKey) (chain : list (list byte)) (fingerprint : list byte)
    (allowlist_generation not_after now : Z)
| RejectOp (key : IssuanceResultKey) (code now : Z).

(** What the file holds after a step: a step that does not save leaves it. *)
Definition after_step {A} (m : relay_result (Effect (R := Records) * A)) (records : Records) : Records :=
  match m with Ok (Saved v, _) => v | _ => records end.

Definition op_step (op : issuance_op) (rs : Records) : Records :=
  match op with
  | FindOp key now => after_step (find_step key now rs) rs
  | FindByIdOp id now => after_step (find_by_authorization_id_step id now rs) rs
  | BeginOp key app generation expires_at now =>
      after_step (retained ← begin_pending_checks app generation expires_at now;
                  begin_pending_step key app generation expires_at retained now rs) rs
  | AttachOp key chain fingerprint ag na now =>
      after_step (_ ← issued_checks chain fingerprint ag na; attach_certificate_step key chain fingerprint ag na now rs) rs
  | IssueOp key chain fingerprint ag na now =>
      after_step (_ ← issued_checks chain fingerprint ag na; mark_issued_step key chain fingerprint ag na now rs) rs
  | RejectOp key code now => if code =? 0 then rs else after_step (mark_rejected_step key code now rs) rs
  end.

Definition op_now (op : issuance_op) : Z :=
  match op with
  | FindOp _ now | FindByIdOp _ now | BeginOp _ _ _ _ now | AttachOp _ _ _ _ _ now
  | IssueOp _ _ _ _ _ now | RejectOp _ _ now => now
  end.

(** * Facts *)

(** ** The records *)
Definition record_valid (r : IssuanceResultRecord) : Prop :=
  record_fields_refused r = false ∧ validate_record_status r = Ok tt.

Lemma validate_each_Ok keys rs :
  validate_each keys rs = Ok tt ↔
  NoDup (ir_key <$> rs) ∧ (∀ r, r ∈ rs → ir_key r ∉ keys) ∧ Forall record_valid rs.
Proof.
  revert keys. induction rs as [|r rs IH]; intros keys; simpl.
  - split; [|done]. intros _. split_and!; [constructor|set_solver|constructor].
  - rewrite NoDup_cons, Forall_cons, list_elem_of_fmap. unfold record_valid at 1. split.
    + destruct (_ || _) eqn:Hc; [done|]. intros ([] & Hs & Hrest)%bind_Ok. bool_facts.
      apply IH in Hrest as (Hnd & Hk & Hv). split_and!; try done.
      * intros (r' & Heq & Hin). apply (Hk r' Hin). rewrite <-Heq. by left.
      * intros r' [->|Hin]%elem_of_cons; [done|]. intros Hin'. apply (Hk r' Hin). by right.
    + intros ([Hni Hnd] & Hk & [Hf Hs] & Hv). rewrite Hf, Hs, bool_decide_eq_false_2 by (apply Hk; by left). simpl.
      apply IH. split_and!; try done. intros r' Hin [Heq|Hin']%elem_of_cons; [|by apply (Hk r'); [right|]].
      apply Hni. eauto.
Qed.

(** A set of records the store can hold: it loads, no authorization is bound twice, and each
    record names its configuration generation (files written before that field do not). *)
Record records_wf (rs : Records) : Prop := {
  rw_len : len rs ≤ MAX_ISSUANCE_RESULT_RECORDS;
  rw_keys : NoDup (ir_key <$> rs);
  rw_ids : NoDup ((λ r, ik_authorization_id (ir_key r)) <$> rs);
  rw_valid : Forall record_valid rs;
  rw_generations : Forall (λ r, ir_configuration_generation r ≠ None) rs;
}.

Lemma records_wf_nil : records_wf [].
Proof. split; by try constructor. Qed.

Lemma records_wf_loads rs :
  records_wf rs → validate_records {| pi_version := ISSUANCE_RESULT_STORE_VERSION; pi_records := rs |} = Ok tt.
Proof.
  intros [Hl Hk _ Hv _]. unfold validate_records. simpl. destruct (Z.ltb_spec MAX_ISSUANCE_RESULT_RECORDS (len rs)); [lia|].
  apply validate_each_Ok. split_and!; try done. intros r _. apply not_elem_of_nil.
Qed.

Lemma sublist_len {A} (l l' : list A) : sublist l l' → len l ≤ len l'.
Proof. intros H%sublist_length. unfold len. lia. Qed.

Lemma sublist_Forall {A} (P : A → Prop) l l' : sublist l l' → Forall P l' → Forall P l.
Proof.
  rewrite !Forall_forall. intros Hs%sublist_submseteq Hall x Hx. apply Hall. by eapply elem_of_submseteq.
Qed.

Lemma records_wf_sublist rs rs' : sublist rs rs' → records_wf rs' → records_wf rs.
Proof.
  intros Hs [Hl Hk Hi Hv Hg]. split.
  - pose proof (sublist_len _ _ Hs). lia.
  - by eapply sublist_NoDup; [|by apply fmap_sublist].
  - by eapply sublist_NoDup; [|by apply fmap_sublist].
  - by eapply sublist_Forall.
  - by eapply sublist_Forall.
Qed.

Lemma prune_sublist rs now : sublist (prune_records rs now).1 rs.
Proof. apply sublist_filter. Qed.

Lemma elem_of_prune r rs now : r ∈ (prune_records rs now).1 ↔ r ∈ rs ∧ now < ir_retained_until r.
Proof. unfold prune_records. simpl. rewrite list_elem_of_filter. tauto. Qed.

Lemma prune_wf rs now : records_wf rs → records_wf (prune_records rs now).1.
Proof. apply records_wf_sublist, prune_sublist. Qed.

Lemma find_key_Some key rs r : find_key key rs = Some r → r ∈ rs ∧ ir_key r = key.
Proof.
  intros [Hin Hk]%List.find_some. apply list_elem_of_In in Hin. unfold has_key in Hk. by bool_facts.
Qed.

Lemma find_key_None key rs : find_key key rs = None → key ∉ ir_key <$> rs.
Proof.
  intros Hf. rewrite list_elem_of_fmap. intros (r & -> & Hin).
  pose proof (List.find_none _ _ Hf r ltac:(by apply list_elem_of_In)) as Hk. unfold has_key in Hk. by bool_facts.
Qed.

Lemma find_key_unique rs r : NoDup (ir_key <$> rs) → r ∈ rs → find_key (ir_key r) rs = Some r.
Proof.
  induction rs as [|r0 rs IH]; intros Hnd Hin; [by apply elem_of_nil in Hin|].
  simpl in Hnd. apply NoDup_cons in Hnd as [Hni Hnd]. unfold find_key. simpl. unfold has_key at 1.
  apply elem_of_cons in Hin as [->|Hin]; [by rewrite bool_decide_eq_true_2|].
  rewrite bool_decide_eq_false_2; [by apply IH|]. intros Heq. apply Hni. rewrite Heq.
  apply list_elem_of_fmap. by exists r.
Qed.

Lemma update_first_fmap {B} (g : IssuanceResultRecord → B) key old new rs :
  find_key key rs = Some old → g new = g old → g <$> update_first (has_key key) new rs = g <$> rs.
Proof.
  intros Hf Hg. revert Hf. unfold find_key. induction rs as [|r rs IH]; simpl; [done|].
  destruct (has_key key r); simpl; [intros [= ->]; by rewrite Hg|]. intros Hf. f_equal. by apply IH.
Qed.

Lemma elem_of_update_first p new rs r : r ∈ update_first p new rs → r = new ∨ r ∈ rs.
Proof.
  induction rs as [|r0 rs IH]; simpl; [by intros ?%elem_of_nil|]. destruct (p r0).
  - intros [->|Hin]%elem_of_cons; [by left|right; by right].
  - intros [->|Hin]%elem_of_cons; [right; by left|]. destruct (IH Hin); [by left|right; by right].
Qed.

Lemma elem_of_update_first_other key new rs r :
  r ∈ rs → ir_key r ≠ key → r ∈ update_first (has_key key) new rs.
Proof.
  intros Hin Hk. induction rs as [|r0 rs IH]; simpl; [done|]. apply elem_of_cons in Hin as [->|Hin].
  - unfold has_key. rewrite bool_decide_eq_false_2 by done. by left.
  - destruct (has_key key r0); right; [done|by apply IH].
Qed.

Lemma elem_of_update_first_new key new rs old :
  find_key key rs = Some old → new ∈ update_first (has_key key) new rs.
Proof.
  unfold find_key. induction rs as [|r rs IH]; simpl; [done|]. destruct (has_key key r); intros Hf; [by left|].
  right. by apply IH.
Qed.

(** Rewriting one record in place keeps the set well formed. *)
Lemma update_wf key old new rs :
  records_wf rs → find_key key rs = Some old → ir_key new = ir_key old →
  ir_configuration_generation new = ir_configuration_generation old → record_valid new →
  records_wf (update_first (has_key key) new rs).
Proof.
  intros [Hl Hk Hi Hv Hg] Hf Hkey Hcg Hval. split.
  - unfold len in *. rewrite <-(length_fmap ir_key). rewrite (update_first_fmap ir_key key old) by done.
    by rewrite length_fmap.
  - by rewrite (update_first_fmap ir_key key old).
  - rewrite (update_first_fmap _ key old); [done..|]. by rewrite Hkey.
  - apply Forall_forall. intros r [->|Hin]%elem_of_update_first; [done|]. by rewrite Forall_forall in Hv; apply Hv.
  - rewrite Forall_forall in Hg. apply Forall_forall. intros r [->|Hin]%elem_of_update_first; [|by apply Hg].
    rewrite Hcg. apply Hg. by apply find_key_Some in Hf as [? _].
Qed.

(** ** Steps *)

#[local] Arguments prune_records : simpl never.

(** Inputs as the program makes them: a key built by [IssuanceResultKey::new], and times that
    are unsigned. *)
Definition op_input (op : issuance_op) : Prop :=
  0 ≤ op_now op
  ∧ match op with
    | BeginOp key _ _ _ _ => ik_authorization_id key ≠ zeros 16 ∧ ik_csr_digest key ≠ zeros 32
    | _ => True
    end.

Lemma record_valid_status r :
  record_valid r →
  match ir_status r with
  | ResultPending => ir_rejection_code r = None
  | ResultIssued => ir_certificate_chain r ≠ [] ∧ ir_fingerprint r ≠ None
  | ResultRejected => ir_certificate_chain r = [] ∧ ir_rejection_code r ≠ None ∧ ir_rejection_code r ≠ Some 0
  end.
Proof.
  intros [_ Hs]. unfold validate_record_status in Hs. destruct (ir_status r).
  - case_bool_decide as H; [done|]. by apply eq_None_not_Some.
  - apply bind_Ok in Hs as ([] & Hc & Hs). destruct (_ || _) eqn:Hb; [done|]. bool_facts. split; [|done].
    intros He. unfold validate_chain in Hc. by rewrite He in Hc.
  - destruct (_ || _) eqn:Hb; [done|]. bool_facts. done.
Qed.

Lemma with_certificate_valid status retained chain fingerprint ag na r :
  record_valid r → ir_configuration_generation r ≠ None → status ≠ ResultRejected → retained ≠ 0 →
  issued_checks chain fingerprint ag na = Ok tt →
  record_valid (with_certificate status retained chain fingerprint ag na r).
Proof.
  intros [Hf _] Hg Hst Hret. unfold issued_checks. destruct (_ || _); [done|]. intros Hc. split.
  - unfold record_fields_refused in *. simpl. apply orb_false_iff in Hf as [Hf _]. rewrite Hf. simpl.
    by apply Z.eqb_neq.
  - unfold validate_record_status. simpl. destruct status; [|by rewrite Hc; simpl; rewrite bool_decide_eq_false_2|done].
    by destruct (bool_decide _).
Qed.

Lemma with_rejection_valid code retained r :
  record_valid r → code ≠ 0 → retained ≠ 0 → record_valid (with_rejection code retained r).
Proof.
  intros [Hf _] Hc Hret. split.
  - unfold record_fields_refused in *. simpl. apply orb_false_iff in Hf as [Hf _]. rewrite Hf. simpl.
    by apply Z.eqb_neq.
  - unfold validate_record_status. simpl. rewrite bool_decide_eq_false_2; [done|congruence].
Qed.

Lemma begin_pending_checks_Ok app cg exp now retained :
  begin_pending_checks app cg exp now = Ok retained →
  is_err (AppId_new app) = false ∧ cg ≠ 0 ∧ now < exp ≤ now + MAX_AUTHORIZATION_TTL_SECS
  ∧ retained = exp + ISSUANCE_RESULT_TTL_SECS.
Proof.
  unfold begin_pending_checks. intros (x & Ha%map_err_Ok & H)%bind_Ok. rewrite Ha.
  destruct (Z.eqb_spec cg 0); [done|]. destruct (_ || _) eqn:Hb; [done|].
  apply ok_or_Ok, u64_checked_add_Some in H as [-> _]. bool_facts. split_and!; (done || lia).
Qed.

Lemma step_wf op rs : op_input op → records_wf rs → records_wf (op_step op rs).
Proof.
  intros [Hnow Hin] Hwf. assert (Hpr : records_wf (prune_records rs (op_now op)).1) by by apply prune_wf.
  destruct op as [key now|id now|key app cg exp now|key chain fp ag na now|key chain fp ag na now|key code now];
    simpl in *.
  - unfold pruned_effect. by destruct (prune_records rs now).2.
  - unfold pruned_effect. by destruct (prune_records rs now).2.
  - destruct (begin_pending_checks app cg exp now) as [ret|e|] eqn:Hb; [|done..].
    apply begin_pending_checks_Ok in Hb as (Happ & Hcg & Hexp & ->). simpl. unfold begin_pending_step.
    destruct (find_key key _) as [ex|] eqn:Hf.
    + case_bool_decide; [done|]. case_bool_decide; [done|]. unfold pruned_effect. by destruct (prune_records rs now).2.
    + destruct (existsb _ _) eqn:He; [done|]. destruct (MAX_ISSUANCE_RESULT_RECORDS <=? _) eqn:Hl; [done|]. simpl.
      destruct Hpr as [? Hk Hi Hv Hg]. bool_facts. apply find_key_None in Hf. split.
      * unfold len, prune_records in *. rewrite length_app. simpl in *. lia.
      * rewrite fmap_app. apply NoDup_app. split_and!; [done| |apply NoDup_singleton].
        intros k Hkin ->%list_elem_of_singleton. done.
      * rewrite fmap_app. apply NoDup_app. split_and!; [done| |apply NoDup_singleton].
        intros i (r & -> & Hr)%list_elem_of_fmap Heq%list_elem_of_singleton. simpl in Heq.
        rewrite <-not_true_iff_false, existsb_exists in He. apply He. exists r.
        rewrite <-list_elem_of_In, bool_decide_eq_true. done.
      * apply Forall_app. split; [done|]. apply Forall_singleton. split; [|done].
        unfold record_fields_refused. simpl. rewrite Happ, !bool_decide_eq_false_2 by (naive_solver || congruence). simpl.
        apply orb_false_iff. rewrite !Z.eqb_neq. unfold ISSUANCE_RESULT_TTL_SECS. lia.
      * apply Forall_app. split; [done|]. by apply Forall_singleton.
  - destruct (issued_checks chain fp ag na) as [[]|e|] eqn:Hc; [|done..]. simpl. unfold attach_certificate_step.
    destruct (find_key key _) as [old|] eqn:Hf; [|done]. simpl. case_bool_decide as Hr; [done|].
    case_bool_decide; [by destruct (same_certificate _ _ _ _ _)|]. simpl.
    destruct (find_key_Some _ _ _ Hf) as [Hold <-]. pose proof (rw_valid _ Hpr) as Hv. pose proof (rw_generations _ Hpr) as Hg.
    rewrite Forall_forall in Hv, Hg. apply (update_wf _ old); try done.
    apply with_certificate_valid; [by apply Hv|by apply Hg|done| |done].
    destruct (Hv _ Hold) as [Hfr _]. unfold record_fields_refused in Hfr. by bool_facts.
  - destruct (issued_checks chain fp ag na) as [[]|e|] eqn:Hc; [|done..]. simpl. unfold mark_issued_step.
    destruct (find_key key _) as [old|] eqn:Hf; [|done]. simpl. case_bool_decide as Hr; [done|].
    case_bool_decide; [by destruct (same_certificate _ _ _ _ _)|].
    destruct (u64_checked_add _ _) as [ret|] eqn:Hret; [|done]. apply u64_checked_add_Some in Hret as [-> _]. simpl.
    destruct (find_key_Some _ _ _ Hf) as [Hold <-]. pose proof (rw_valid _ Hpr) as Hv. pose proof (rw_generations _ Hpr) as Hg.
    rewrite Forall_forall in Hv, Hg. apply (update_wf _ old); try done.
    apply with_certificate_valid; [by apply Hv|by apply Hg|done| |done]. unfold ISSUANCE_RESULT_TTL_SECS. lia.
  - destruct (Z.eqb_spec code 0); [done|]. unfold mark_rejected_step.
    destruct (find_key key _) as [old|] eqn:Hf; [|done]. simpl. destruct (ir_status old) eqn:Hst; [|done|by case_bool_decide].
    destruct (u64_checked_add _ _) as [ret|] eqn:Hret; [|done]. apply u64_checked_add_Some in Hret as [-> _]. simpl.
    destruct (find_key_Some _ _ _ Hf) as [Hold <-]. pose proof (rw_valid _ Hpr) as Hv.
    rewrite Forall_forall in Hv. apply (update_wf _ old); try done.
    apply with_rejection_valid; [by apply Hv|done|]. unfold ISSUANCE_RESULT_TTL_SECS. lia.
Qed.

(** A decided record stays, unchanged, until its retention ends. *)
Lemma step_keeps_final op rs r :
  NoDup (ir_key <$> rs) → r ∈ rs → ir_status r ≠ ResultPending → record_valid r → op_now op < ir_retained_until r →
  r ∈ op_step op rs.
Proof.
  intros Hnd Hin Hst Hval Hnow.
  assert (Hp : r ∈ (prune_records rs (op_now op)).1) by (by apply elem_of_prune).
  assert (Hndp : NoDup (ir_key <$> (prune_records rs (op_now op)).1))
    by (eapply sublist_NoDup; [exact Hnd|apply fmap_sublist, prune_sublist]).
  destruct op as [key now|id now|key app cg exp now|key chain fp ag na now|key chain fp ag na now|key code now];
    simpl op_now in *; cbn [op_step].
  - unfold find_step, pruned_effect. cbv zeta. destruct (prune_records rs now).2; [exact Hp|exact Hin].
  - unfold find_by_authorization_id_step, pruned_effect. cbv zeta. destruct (prune_records rs now).2; [exact Hp|exact Hin].
  - destruct (begin_pending_checks app cg exp now) as [ret|e|]; [|done..]. simpl. unfold begin_pending_step.
    destruct (find_key key _) as [ex|].
    + case_bool_decide; [done|]. case_bool_decide; [done|]. unfold pruned_effect. destruct (prune_records rs now).2; [exact Hp|exact Hin].
    + destruct (existsb _ _); [done|]. destruct (_ <=? _); [done|]. cbn [after_step]. apply elem_of_app. by left.
  - destruct (issued_checks chain fp ag na) as [[]|e|]; [|done..]. cbn [mbind outcome_bind]. unfold attach_certificate_step.
    destruct (find_key key _) as [old|] eqn:Hf; [|done]. cbn [ok_or mbind outcome_bind].
    case_bool_decide as Hr; [done|]. case_bool_decide as Hc; [by destruct (same_certificate _ _ _ _ _)|]. cbn [after_step].
    apply elem_of_update_first_other; [done|]. intros Hk.
    rewrite <-Hk, (find_key_unique _ _ Hndp Hp) in Hf. injection Hf as <-.
    pose proof (record_valid_status _ Hval) as Hs. destruct (ir_status r); [done| |done]. naive_solver.
  - destruct (issued_checks chain fp ag na) as [[]|e|]; [|done..]. cbn [mbind outcome_bind]. unfold mark_issued_step.
    destruct (find_key key _) as [old|] eqn:Hf; [|done]. cbn [ok_or mbind outcome_bind].
    case_bool_decide as Hr; [done|]. case_bool_decide as Hc; [by destruct (same_certificate _ _ _ _ _)|].
    destruct (u64_checked_add _ _); [|done]. cbn [ok_or mbind outcome_bind after_step].
    apply elem_of_update_first_other; [done|]. intros Hk.
    rewrite <-Hk, (find_key_unique _ _ Hndp Hp) in Hf. injection Hf as <-. by destruct (ir_status r).
  - destruct (code =? 0); [done|]. unfold mark_rejected_step.
    destruct (find_key key _) as [old|] eqn:Hf; [|done]. cbn [ok_or mbind outcome_bind].
    destruct (ir_status old) eqn:Hso; [|done|by case_bool_decide].
    destruct (u64_checked_add _ _); [|done]. cbn [ok_or mbind outcome_bind after_step].
    apply elem_of_update_first_other; [done|]. intros Hk.
    rewrite <-Hk, (find_key_unique _ _ Hndp Hp) in Hf. injection Hf as <-. congruence.
Qed.

Lemma steps_wf ops rs : Forall op_input ops → records_wf rs → records_wf (foldl (flip op_step) rs ops).
Proof.
  revert rs. induction ops as [|op ops IH]; intros rs Hin Hwf; [done|].
  apply Forall_cons in Hin as [Hop Hin]. simpl. apply IH; [done|]. by apply step_wf.
Qed.

Lemma steps_keep_final ops rs r :
  Forall op_input ops → records_wf rs → r ∈ rs → ir_status r ≠ ResultPending →
  Forall (λ op, op_now op < ir_retained_until r) ops → r ∈ foldl (flip op_step) rs ops.
Proof.
  revert rs. induction ops as [|op ops IH]; intros rs Hops Hwf Hin Hst Hnow; [done|].
  apply Forall_cons in Hops as [Hop Hops]. apply Forall_cons in Hnow as [Hno Hnow]. simpl.
  apply IH; [done|by apply step_wf| |done|done]. destruct Hwf as [_ Hk _ Hv _]. rewrite Forall_forall in Hv.
  by apply step_keeps_final; [| | |apply Hv|].
Qed.

(** ** Calls on the store *)
Definition forgetting {S E A} (m : stateful S E A) : stateful S E unit :=
  λ s, let '(s', r) := m s in (s', (λ _, tt) <$> r).

Definition issuance_call (to_vec : PersistedIssuanceResults → option (list byte))
    (from_slice : list byte → option PersistedIssuanceResults) (io : StoreIo) (op : issuance_op)
  : stateful (PersistentIssuanceResults * FileSystem) RelayError unit :=
  match op with
  | FindOp key now => forgetting (find to_vec from_slice io key now)
  | FindByIdOp id now => forgetting (find_by_authorization_id to_vec from_slice io id now)
  | BeginOp key app cg exp now => forgetting (begin_pending to_vec from_slice io key app cg exp now)
  | AttachOp key chain fp ag na now => forgetting (attach_certificate to_vec from_slice io key chain fp ag na now)
  | IssueOp key chain fp ag na now => forgetting (mark_issued to_vec from_slice io key chain fp ag na now)
  | RejectOp key code now => forgetting (mark_rejected to_vec from_slice io key code now)
  end.

(** The step of a call, its checks before the lock included. *)
Definition call_step (op : issuance_op) (rs : Records) : relay_result (Effect (R := Records) * unit) :=
  let quiet {A} (m : relay_result (Effect (R := Records) * A)) := (λ p, (p.1, tt)) <$> m in
  match op with
  | FindOp key now => quiet (find_step key now rs)
  | FindByIdOp id now => quiet (find_by_authorization_id_step id now rs)
  | BeginOp key app cg exp now =>
      quiet (retained ← begin_pending_checks app cg exp now; begin_pending_step key app cg exp retained now rs)
  | AttachOp key chain fp ag na now =>
      quiet (_ ← issued_checks chain fp ag na; attach_certificate_step key chain fp ag na now rs)
  | IssueOp key chain fp ag na now =>
      quiet (_ ← issued_checks chain fp ag na; mark_issued_step key chain fp ag na now rs)
  | RejectOp key code now =>
      quiet (_ ← (if code =? 0 then Err (QuicProtocol "issuance rejection code is empty") else Ok tt);
             mark_rejected_step key code now rs)
  end.

Lemma after_quiet {A} (m : relay_result (Effect (R := Records) * A)) rs :
  after_step ((λ p, (p.1, tt)) <$> m) rs = after_step m rs.
Proof. by destruct m as [[[] ?]|e|]. Qed.

Lemma call_step_op op rs : after_step (call_step op rs) rs = op_step op rs.
Proof.
  destruct op; cbn [call_step op_step]; rewrite after_quiet; try done. by destruct (code =? 0).
Qed.

Lemma validate_chain_returns chain : returns (validate_chain chain).
Proof.
  assert (Ht : ∀ total, returns (chain_total total chain)).
  { induction chain as [|c chain IH]; intros total; simpl; [done|]. case_bool_decide; [done|].
    apply bind_returns; [apply ok_or_returns|]. intros t _. apply IH. }
  unfold validate_chain. case_bool_decide; [done|]. apply bind_returns; [apply Ht|]. intros t _. by case_match.
Qed.

Lemma call_step_returns op rs : returns (call_step op rs).
Proof.
  destruct op; cbn [call_step]; apply fmap_returns; try done.
  - apply bind_returns.
    + unfold begin_pending_checks. apply bind_returns; [apply map_err_returns; unfold AppId_new; by case_match|].
      intros _ _. case_match; [done|]. case_match; [done|]. apply ok_or_returns.
    + intros ret _. unfold begin_pending_step. cbv zeta. destruct (find_key _ _); repeat (case_match; try done).
  - apply bind_returns; [unfold issued_checks; case_match; [done|apply validate_chain_returns]|]. intros _ _.
    unfold attach_certificate_step. apply bind_returns; [apply ok_or_returns|]. intros r _. by repeat case_match.
  - apply bind_returns; [unfold issued_checks; case_match; [done|apply validate_chain_returns]|]. intros _ _.
    unfold mark_issued_step. apply bind_returns; [apply ok_or_returns|]. intros r _. case_match; [done|].
    case_match; [by case_match|]. apply bind_returns; [apply ok_or_returns|done].
  - apply bind_returns; [by case_match|]. intros _ _. unfold mark_rejected_step.
    apply bind_returns; [apply ok_or_returns|]. intros r _. case_match; [|done|by case_match].
    apply bind_returns; [apply ok_or_returns|done].
Qed.

(** A call is its checks, then the transaction of its step. *)
Lemma forgetting_stepping {A} to_vec from_slice io (step : record_step A) s :
  forgetting (stepping to_vec from_slice io step) s
  = stepping to_vec from_slice io (λ rs, (λ p, (p.1, tt)) <$> step rs) s.
Proof.
  unfold forgetting, stepping, transact, st_bind, st_lift, st_ret, mapping.
  destruct (lock_sidecar io s) as [s1 [[]|e|]]; simpl; try done.
  destruct (loading _ _ _ s1) as [s2 [loaded|e|]]; simpl; try done.
  destruct (step loaded) as [[[|v|v] x]|e|]; simpl; try done.
  - by destruct s2.
  - destruct (save_value _ _ _ _ s2) as [s3 [[]|e|]]; simpl; try done. by destruct s3.
Qed.

Lemma forgetting_checked {A B} to_vec from_slice io (checks : relay_result B) (step : B → record_step A) s :
  forgetting (st_bind (st_lift checks) (λ b, stepping to_vec from_slice io (step b))) s
  = match checks with
    | Ok b => stepping to_vec from_slice io (λ rs, (λ p, (p.1, tt)) <$> step b rs) s
    | Err e => (s, Err e)
    | Panic => (s, Panic)
    end.
Proof. destruct checks; [apply (forgetting_stepping to_vec from_slice io)|done..]. Qed.

Lemma checks_returns_begin app cg exp now : returns (begin_pending_checks app cg exp now).
Proof.
  unfold begin_pending_checks. apply bind_returns; [apply map_err_returns; unfold AppId_new; by case_match|].
  intros _ _. case_match; [done|]. case_match; [done|]. apply ok_or_returns.
Qed.

Lemma checks_returns_issued chain fp ag na : returns (issued_checks chain fp ag na).
Proof. unfold issued_checks. case_match; [done|apply validate_chain_returns]. Qed.

Lemma issuance_call_spec to_vec from_slice io op s s' r :
  issuance_call to_vec from_slice io op s = (s', r) →
  stepping to_vec from_slice io (call_step op) s = (s', r)
  ∨ s' = s ∧ ∃ e, r = Err e ∧ ∀ rs, call_step op rs = Err e.
Proof.
  destruct op as [key now|id now|key app cg exp now|key chain fp ag na now|key chain fp ag na now|key code now];
    cbn [issuance_call]; unfold find, find_by_authorization_id, begin_pending, attach_certificate, mark_issued,
      mark_rejected; unfold call_step; try (rewrite forgetting_stepping; by left);
    rewrite (forgetting_checked to_vec from_slice io).
  - pose proof (checks_returns_begin app cg exp now).
    destruct (begin_pending_checks app cg exp now); [by left|intros [= <- <-]; eauto|done].
  - pose proof (checks_returns_issued chain fp ag na).
    destruct (issued_checks chain fp ag na); [by left|intros [= <- <-]; eauto|done].
  - pose proof (checks_returns_issued chain fp ag na).
    destruct (issued_checks chain fp ag na); [by left|intros [= <- <-]; eauto|done].
  - destruct (code =? 0); [intros [= <- <-]; eauto|by left].
Qed.

Lemma NoDup_fmap_elem {A B} (f : A → B) l x y : NoDup (f <$> l) → x ∈ l → y ∈ l → f x = f y → x = y.
Proof.
  induction l as [|z l IH]; intros Hnd Hx Hy Hf; [by apply elem_of_nil in Hx|]. simpl in Hnd.
  apply NoDup_cons in Hnd as [Hni Hnd].
  apply elem_of_cons in Hx as [->|Hx], Hy as [->|Hy]; [done|..|by apply IH]; exfalso; apply Hni, list_elem_of_fmap; eauto.
Qed.

Lemma validate_each_returns keys rs : returns (validate_each keys rs).
Proof.
  revert keys. induction rs as [|r rs IH]; intros keys; simpl; [done|]. case_match; [done|].
  apply bind_returns; [|intros _ _; apply IH]. unfold validate_record_status. destruct (ir_status r).
  - case_match; [done|]. case_match; [apply validate_chain_returns|done].
  - apply bind_returns; [apply validate_chain_returns|]. intros _ _. by case_match.
  - by case_match.
Qed.

Lemma parse_records_returns from_slice bytes : returns (parse_records from_slice bytes).
Proof.
  unfold parse_records. apply bind_returns; [apply ok_or_returns|]. intros p _. apply bind_returns; [|done].
  unfold validate_records. case_match; [done|apply validate_each_returns].
Qed.

(** Observation: a pending record from before the configuration generation was recorded loads,
    but once it is marked issued the file it is saved in does not load any more. *)
Definition legacy_record : IssuanceResultRecord :=
  {| ir_key := {| ik_authorization_id := str_lit "authorization"; ik_csr_digest := str_lit "csr" |};
     ir_app_id := str_lit "app"; ir_status := ResultPending; ir_authorization_expires_at := 200;
     ir_retained_until := 90000; ir_certificate_chain := []; ir_fingerprint := None;
     ir_configuration_generation := None; ir_allowlist_generation := None; ir_not_after := None;
     ir_rejection_code := None |}.

Lemma legacy_record_issued_unloadable :
  let load rs := validate_records {| pi_version := ISSUANCE_RESULT_STORE_VERSION; pi_records := rs |} in
  load [legacy_record] = Ok tt
  ∧ match mark_issued_step (ir_key legacy_record) [str_lit "cert"] (str_lit "fp") 2 5000 100 [legacy_record] with
    | Ok (Saved saved, _) => load saved = Err ConfigurationRead
    | _ => False
    end.
Proof. split; by vm_compute. Qed.

(** Observation: the certificate that is finally issued need not be the candidate attached before. *)
Lemma issued_differs_from_candidate :
  let candidate := with_certificate ResultPending 90000 [str_lit "first"] (str_lit "fp1") 2 5000 legacy_record in
  is_ok (mark_issued_step (ir_key legacy_record) [str_lit "second"] (str_lit "fp2") 3 6000 100 [candidate]) = true.
Proof. by vm_compute. Qed.

(** * Properties *)

(** C15. A decided enrollment is final and recoverable.  A call that fails, at the path
    check, the lock, the read, the step or the replacement, leaves memory and file as they
    were; one that succeeds ran its step on what the file holds, and what it saved is what
    any store on the file loads next.  From there on, whatever calls follow, a record that
    was issued or rejected is found under its key, unchanged, until its retention ends, it
    is the only record of its authorization, and the records stay a set that loads.
    The file the call finds is one this store could have written ([records_wf]: no more
    records than the maximum, one record per authorization, each naming its configuration
    generation): an empty store is, and every call keeps it.  A file from before the
    configuration generation was recorded need not be, and for it the statement does not
    hold ([legacy_record_issued_unloadable]).  The process runs as the user the store
    expects, a key that is begun was made by [IssuanceResultKey::new], and the JSON it prints
    reads back. *)
Theorem issuance_results_final to_vec from_slice io op a fs s' r :
  (∀ p bytes, to_vec p = Some bytes → from_slice bytes = Some p) →
  parsed (st_path a) → mi_euid (si_persist_io io) = st_expected_uid a → op_input op →
  let load io a fs := load_value (parse_records from_slice) MAX_ISSUANCE_RESULT_BYTES io a fs in
  (∀ loaded, load (si_load_io io) a fs = Ok loaded → records_wf loaded) →
  issuance_call to_vec from_slice io op (a, fs) = (s', r) →
  records_wf []
  ∧ match r with
  | Ok _ => ∃ loaded,
      load (si_load_io io) a fs = Ok loaded ∧ is_ok (call_step op loaded) = true
      ∧ records_wf (op_step op loaded)
      ∧ (s'.2 !! st_path a = fs !! st_path a ∧ op_step op loaded = loaded
         ∨ ∀ b io', st_path b = st_path a → st_expected_uid b = st_expected_uid a → undisturbed io' →
             load (si_load_io io') b s'.2 = Ok (op_step op loaded))
      ∧ ∀ ops record, Forall op_input ops → record ∈ op_step op loaded → ir_status record ≠ ResultPending →
          Forall (λ o, op_now o < ir_retained_until record) ops →
          let later := foldl (flip op_step) (op_step op loaded) ops in
          records_wf later ∧ find_key (ir_key record) later = Some record
          ∧ ∀ other, other ∈ later →
              ik_authorization_id (ir_key other) = ik_authorization_id (ir_key record) → other = record
  | Err _ => s'.1 = a ∧ s'.2 !! st_path a = fs !! st_path a
  | Panic => False
  end.
Proof.
  intros Hjson Hp Heuid Hop load Hwf Hcall. split; [apply records_wf_nil|].
  apply issuance_call_spec in Hcall as [Hc|(-> & e & -> & _)]; [|done].
  apply transact_spec in Hc; [|apply parse_records_returns| |apply call_step_returns|done|done|done|].
  2: { intros v. unfold print_records. case_match; [done|apply ok_or_returns]. }
  2: { intros loaded v x encoded Hl Hs Henc. unfold print_records in Henc. destruct (_ <? _); [done|].
       apply ok_or_Ok, Hjson in Henc. unfold parse_records. rewrite Henc. cbn [ok_or mbind outcome_bind].
       rewrite records_wf_loads; [done|]. pose proof (step_wf op loaded Hop (Hwf _ Hl)) as Hsw.
       by rewrite <-call_step_op, Hs in Hsw. }
  destruct r as [[]|e|]; [|by destruct Hc as (? & ? & _)|done].
  destruct Hc as (loaded & eff & Hl & Hs & Heff). exists loaded.
  pose proof (step_wf op loaded Hop (Hwf _ Hl)) as Hsw. split_and!; [done|by rewrite Hs|done| |].
  - rewrite <-call_step_op, Hs. destruct eff as [|v|v]; simpl.
    + left. by destruct Heff.
    + left. by destruct Heff.
    + right. intros b io' Hb Hu Hio'. by destruct Heff as [_ Hn]; destruct (Hn b io' Hb Hu Hio').
  - intros ops record Hops Hin Hst Hnow later. pose proof (steps_wf ops _ Hops Hsw) as Hlw. fold later in Hlw.
    pose proof (steps_keep_final ops _ record Hops Hsw Hin Hst Hnow) as Hlin. fold later in Hlin.
    split_and!; [done|by apply find_key_unique; [apply Hlw|]|].
    intros other Hoin Hid. by apply (NoDup_fmap_elem _ _ _ _ (rw_ids _ Hlw) Hoin Hlin).
Qed.

(** A small instance: the file holds no records, and one binding is begun. *)
Definition begun_record : IssuanceResultRecord :=
  pending_record (ir_key legacy_record) (str_lit "app") 1 200 (200 + ISSUANCE_RESULT_TTL_SECS).
Definition issued_record : IssuanceResultRecord :=
  with_certificate ResultIssued (150 + ISSUANCE_RESULT_TTL_SECS) [str_lit "cert"] (str_lit "fp") 2 5000 begun_record.

#[export] Instance PersistedIssuanceResults_eq_dec : EqDecision PersistedIssuanceResults.
Proof. solve_decision. Defined.

Definition persisted_of (rs : Records) : PersistedIssuanceResults :=
  {| pi_version := ISSUANCE_RESULT_STORE_VERSION; pi_records := rs |}.
Definition issuance_to_vec (p : PersistedIssuanceResults) : option (list byte) :=
  if bool_decide (p = persisted_of [begun_record]) then Some (str_lit "begun")
  else if bool_decide (p = persisted_of [issued_record]) then Some (str_lit "issued") else None.
Definition issuance_from_slice (bytes : list byte) : option PersistedIssuanceResults :=
  if bool_decide (bytes = str_lit "begun") then Some (persisted_of [begun_record])
  else if bool_decide (bytes = str_lit "issued") then Some (persisted_of [issued_record]) else None.

Definition issuance_dir : path := components (str_lit "/d").
Definition issuance_path : path := components (str_lit "/d/i").
Definition issuance_fs : FileSystem :=
  {[ issuance_dir := {| nd_kind := IsDir; nd_uid := 5; nd_mode := 448; nd_dev := 1; nd_ino := 2; nd_bytes := [] |};
     issuance_path := {| nd_kind := IsFile; nd_uid := 5; nd_mode := 384; nd_dev := 1; nd_ino := 3;
                         nd_bytes := str_lit "begun" |} ]}.
Definition issuance_io : StoreIo :=
  {| si_lock_io := sound_io 5; si_lock_open_fails := false; si_lock_held := false; si_exists_fails := false;
     si_load_io := sound_io 5; si_persist_io := sound_io 5 |}.
Definition issuance_store : PersistentIssuanceResults :=
  {| st_path := issuance_path; st_expected_uid := 5; st_value := [] |}.
Definition issuance_example_op : issuance_op :=
  IssueOp (ir_key legacy_record) [str_lit "cert"] (str_lit "fp") 2 5000 150.

Lemma issuance_results_final_witness :
  let call := issuance_call issuance_to_vec issuance_from_slice issuance_io issuance_example_op
                (issuance_store, issuance_fs) in
  call.2 = Ok tt
  ∧ ∀ ops, Forall op_input ops → Forall (λ o, op_now o < 150 + ISSUANCE_RESULT_TTL_SECS) ops →
      find_key (ir_key issued_record) (foldl (flip op_step) [issued_record] ops) = Some issued_record.
Proof.
  intros call. assert (Hr : call.2 = Ok tt) by (by vm_compute). split; [done|]. intros ops Hops Hnow.
  assert (Hload : load_value (parse_records issuance_from_slice) MAX_ISSUANCE_RESULT_BYTES
    (si_load_io issuance_io) issuance_store issuance_fs = Ok [begun_record]) by (by vm_compute).
  assert (Hstep : op_step issuance_example_op [begun_record] = [issued_record]) by (by vm_compute).
  pose proof (issuance_results_final issuance_to_vec issuance_from_slice issuance_io issuance_example_op
    issuance_store issuance_fs call.1 (Ok tt)) as H.
  destruct H as (_ & loaded & Hl & _ & _ & _ & Hfinal).
  - intros p bytes. unfold issuance_to_vec. case_bool_decide; [intros [= <-]; subst p; by vm_compute|].
    case_bool_decide; [|done]. intros [= <-]. subst p. by vm_compute.
  - apply components_parsed.
  - done.
  - split; [by vm_compute|done].
  - intros loaded Hl. rewrite Hload in Hl. apply Ok_inj in Hl as <-.
    split; [by vm_compute|apply NoDup_singleton|apply NoDup_singleton|by apply Forall_singleton|by apply Forall_singleton].
  - by rewrite <-Hr, <-surjective_pairing.
  - rewrite Hload in Hl. apply Ok_inj in Hl as <-. rewrite Hstep in Hfinal.
    destruct (Hfinal ops issued_record Hops ltac:(by left) ltac:(done) Hnow) as (_ & Hf & _). exact Hf.
Defined.
