(* ===== verification/JsonFrames.v ===== *)
(** * Frames with a JSON payload

    The bootstrap, enrollment and reconciliation protocols share one frame layout: a magic,
    a version, a kind byte, a 32-bit payload length and the payload, which serde_json writes
    and reads.  This file has the reference codec of that layout, its laws and its stream
    reader; BootstrapWire.v, EnrollmentV3Wire.v and EnrollmentWire.v have the codecs of the
    protocols as the source writes them, proved equal to the reference. *)
From S2P Require Export StreamReader.

Record Frame (K : Type) : Type := {
  fr_kind : K;
  fr_payload : list byte;
}.
Arguments fr_kind {K} _.
Arguments fr_payload {K} _.
Arguments Build_Frame {K} _ _.

(** The numeric tags of a protocol's frame kinds. *)
Class FrameKind (E K : Type) : Type := {
  kind_as_u8 : K → Z;
  kind_try_from : Z → outcome E K;
}.

Class LawfulKind (E K : Type) `{FrameKind E K} : Prop := {
  kind_byte : ∀ k, kind_try_from (byte_val (byte_of_Z (kind_as_u8 k))) = Ok k;
  kind_inv : ∀ b k, kind_try_from (byte_val b) = Ok k → b = byte_of_Z (kind_as_u8 k);
  kind_returns : ∀ z, returns (kind_try_from z);
}.

Section Reference.
Context {E K : Type} `{FrameKind E K}.
Context (magic : list byte) (version : Z) (invalid_frame frame_too_large : E).

Definition frame_encode (max_payload : Z) (f : Frame K) : outcome E (list byte) :=
  if max_payload <? len (fr_payload f) then Err frame_too_large else
  Ok (magic ++ be_bytes 2 version ++ [byte_of_Z (kind_as_u8 (fr_kind f))]
      ++ be_bytes 4 (len (fr_payload f)) ++ fr_payload f).

Definition frame_decode (max_payload : Z) (bytes : list byte) : outcome E (Frame K) :=
  if len bytes <? 11 then Err invalid_frame else
  m ← slice bytes 0 4;
  v ← index_u16 bytes 4;
  if bool_decide (m ≠ magic) || negb (v =? version) then Err invalid_frame else
  tag ← index bytes 6;
  kind ← kind_try_from (byte_val tag);
  payload_len ← index_u32 bytes 7;
  if max_payload <? payload_len then Err frame_too_large else
  if negb (len bytes =? 11 + payload_len) then Err invalid_frame else
  payload ← slice_from bytes 11;
  Ok {| fr_kind := kind; fr_payload := payload |}.

(** The length of the rest, from the header. *)
Definition frame_size (max_payload : Z) (header : list byte) : outcome E nat :=
  payload_len ← index_u32 header 7;
  if max_payload <? payload_len then Err frame_too_large else Ok (Z.to_nat payload_len).

Definition frame_valid (max_payload : Z) (f : Frame K) : Prop := len (fr_payload f) ≤ max_payload.
End Reference.

(** [json] and [parse_json]: serde_json is the pair of parameters. *)
Section Json.
Context {E K T : Type} `{EqDecision K}.
Context (to_vec : T → option (list byte)) (from_slice : list byte → option T).

Definition frame_json (invalid_frame frame_too_large : E) (max_payload : Z) (kind : K) (value : T)
  : outcome E (Frame K) :=
  payload ← ok_or (to_vec value) invalid_frame;
  if max_payload <? len payload then Err frame_too_large else
  Ok {| fr_kind := kind; fr_payload := payload |}.

Definition frame_parse_json (invalid_frame invalid_order : E) (frame : Frame K) (expected : K) : outcome E T :=
  if bool_decide (fr_kind frame ≠ expected) then Err invalid_order else
  ok_or (from_slice (fr_payload frame)) invalid_frame.

(** A value that was put in a frame is parsed out of it. *)
Lemma frame_json_parse (invalid_frame frame_too_large invalid_order : E) max_payload kind value frame :
  (∀ v bytes, to_vec v = Some bytes → from_slice bytes = Some v) →
  frame_json invalid_frame frame_too_large max_payload kind value = Ok frame →
  frame_parse_json invalid_frame invalid_order frame kind = Ok value ∧ len (fr_payload frame) ≤ max_payload.
Proof.
  intros Hjson. unfold frame_json. intros (payload & Hp%ok_or_Ok & H)%bind_Ok.
  destruct (Z.ltb_spec max_payload (len payload)); [done|]. apply Ok_inj in H as <-.
  unfold frame_parse_json. simpl. rewrite bool_decide_eq_false_2 by tauto. by rewrite (Hjson _ _ Hp).
Qed.
End Json.

(** * Facts *)
Lemma lawful_codec_decode {E A} (valid : A → Prop) (encode : A → outcome E (list byte)) decode1 decode2 :
  (∀ bs, decode2 bs = decode1 bs) → lawful_codec valid encode decode1 → lawful_codec valid encode decode2.
Proof.
  intros Heq (H1 & H2 & H3). split; [|split].
  - intros a (bs & He & Hd)%H1. exists bs. by rewrite Heq.
  - intros bs a. rewrite Heq. apply H2.
  - intros bs. rewrite Heq. apply H3.
Qed.

Ltac unfold_widths ::= unfold is_u16, is_u32, is_u64, u16_max, u32_max, u64_max, frame_valid in *.

Section Laws.
Context {E K : Type} `{LawfulKind E K}.
Context (magic : list byte) (version : Z) (invalid_frame frame_too_large : E) (max_payload : Z).
Context (magic_length : length magic = 4%nat) (version_u16 : is_u16 version).
Context (max_u32 : 0 ≤ max_payload ≤ u32_max).

Local Abbreviation encode := (frame_encode (K := K) magic version frame_too_large max_payload).
Local Abbreviation decode := (frame_decode (K := K) magic version invalid_frame frame_too_large max_payload).

Lemma frame_roundtrip f : frame_valid max_payload f → ∃ bs, encode f = Ok bs ∧ decode bs = Ok f.
Proof.
  intros Hp. unfold frame_encode. rewrite (proj2 (Z.ltb_ge _ _) Hp). eexists. split; [done|].
  pose proof (len_nonneg (fr_payload f)) as Hnn.
  assert (Hlu : is_u32 (len (fr_payload f))) by len_solve.
  unfold frame_decode. apply if_false_step; [apply Z.ltb_ge; len_solve|].
  eapply bind_step; [slice_solve|]. cbn beta.
  eapply bind_step; [apply index_u16_Ok; split; [exact version_u16|slice_solve]|]. cbn beta.
  apply if_false_step; [apply orb_false_iff; split; [by apply bool_decide_eq_false_2; tauto|by rewrite Z.eqb_refl]|].
  eapply bind_step; [apply index_slice; slice_solve|]. cbn beta.
  eapply bind_step; [apply kind_byte|]. cbn beta.
  eapply bind_step; [apply index_u32_Ok; split; [exact Hlu|slice_solve]|]. cbn beta.
  apply if_false_step; [by apply Z.ltb_ge|].
  apply if_false_step; [apply negb_false_iff, Z.eqb_eq; len_solve|].
  eapply bind_step; [unfold slice_from; slice_solve|]. cbn beta. by destruct f.
Qed.

Lemma frame_canonical bs f : decode bs = Ok f → frame_valid max_payload f ∧ encode f = Ok bs.
Proof.
  unfold frame_decode. intros Hd. decode_inv Hd. bool_facts. injection Hd as <-.
  reads_to_slices. join_slices bs. subst. unfold frame_encode. simpl fr_payload. simpl fr_kind.
  assert (Hlen : len v4 = v3) by len_solve.
  split; [unfold frame_valid; simpl; lia|]. rewrite Hlen. apply if_false_step; [by apply Z.ltb_ge|].
  by rewrite <-(kind_inv _ _ Hr2).
Qed.

Lemma frame_decode_returns bs : returns (decode bs).
Proof. unfold frame_decode. no_panic. apply kind_returns. Qed.

Lemma frame_lawful : lawful_codec (frame_valid max_payload) encode decode.
Proof. split; [apply frame_roundtrip|split; [apply frame_canonical|apply frame_decode_returns]]. Qed.

Lemma frame_size_encoded f bs :
  frame_valid max_payload f → encode f = Ok bs →
  (11 ≤ length bs)%nat ∧ frame_size frame_too_large max_payload (take 11 bs) = Ok (length bs - 11)%nat.
Proof.
  intros Hp. unfold frame_encode. rewrite (proj2 (Z.ltb_ge _ _) Hp). intros [= <-].
  pose proof (len_nonneg (fr_payload f)) as Hnn.
  assert (Hlu : is_u32 (len (fr_payload f))) by len_solve.
  split; [len_solve|]. unfold frame_size.
  set (header := magic ++ be_bytes 2 version ++ [byte_of_Z (kind_as_u8 (fr_kind f))] ++ be_bytes 4 (len (fr_payload f))).
  match goal with |- context [take 11 ?l] =>
    replace l with (header ++ fr_payload f) by (unfold header; by rewrite <-!app_assoc) end.
  rewrite take_app_length' by (unfold header; len_solve). unfold header.
  eapply bind_step; [apply index_u32_Ok; split; [exact Hlu|slice_solve]|]. cbn beta.
  apply if_false_step; [by apply Z.ltb_ge|]. f_equal. len_solve.
Qed.

(** The reader of a lawful decoder of the format. *)
Lemma frame_read_lawful decode' :
  lawful_codec (frame_valid max_payload) encode decode' →
  frame_reader (frame_valid max_payload) encode
    (two_part_read 11 invalid_frame invalid_frame (frame_size frame_too_large max_payload) decode')
    (11 + Z.to_nat max_payload).
Proof.
  intros (Hr & Hc & Hn).
  pose (codec := {| wire_valid := frame_valid max_payload; wire_encode := encode; wire_decode := decode' |}
        : WireCodec E (Frame K)).
  assert (law : @LawfulCodec E (Frame K) codec) by (split; [apply Hr|apply Hc|apply Hn]).
  eapply (frame_reader_ext _ _ (two_part_read 11 invalid_frame invalid_frame
            (frame_size frame_too_large max_payload) (λ bs, map_err id (decode' bs)))).
  { intros stream. unfold two_part_read, st_bind, st_lift. repeat case_match; by rewrite ?map_err_id. }
  apply (two_part_frame_reader (A := Frame K) (WC := codec) (LC := law)
           11 (11 + Z.to_nat max_payload) invalid_frame invalid_frame (frame_size frame_too_large max_payload) id).
  - apply frame_size_encoded.
  - intros header n Hl. unfold frame_size. intros Hs. decode_inv Hs. bool_facts. injection Hs as <-.
    reads_to_slices. len_solve.
  - intros header Hl. unfold frame_size. no_panic.
  - lia.
Qed.

(** A decoder that only refuses more, by a bound every encoding meets, is lawful too. *)
Lemma frame_bounded_lawful (bound : Z) (e : E) :
  11 + max_payload ≤ bound →
  lawful_codec (frame_valid max_payload) encode (λ bs, if bound <? len bs then Err e else decode bs).
Proof.
  intros Hb. split; [|split].
  - intros f Hv. pose proof (frame_roundtrip f Hv) as (bs & He & Hd). exists bs. split; [done|].
    rewrite (proj2 (Z.ltb_ge _ _)); [done|]. revert He. unfold frame_encode, frame_valid in *.
    rewrite (proj2 (Z.ltb_ge _ _) Hv). intros [= <-]. pose proof (len_nonneg (fr_payload f)). len_solve.
  - intros bs f. destruct (_ <? _); [done|]. apply frame_canonical.
  - intros bs. destruct (_ <? _); [done|]. apply frame_decode_returns.
Qed.

(** The codec and the reader of a protocol, from their equations with the reference. *)
Lemma frame_protocol_lawful encode' decode' (read' : stateful (list byte) E (Frame K)) :
  (∀ f, encode' f = encode f) →
  (∀ bs, decode' bs = decode bs)
    ∨ (∃ bound e, 11 + max_payload ≤ bound ∧ ∀ bs, decode' bs = if bound <? len bs then Err e else decode bs) →
  (∀ stream, read' stream
     = two_part_read 11 invalid_frame invalid_frame (frame_size frame_too_large max_payload) decode' stream) →
  lawful_codec (frame_valid max_payload) encode' decode'
  ∧ frame_reader (frame_valid max_payload) encode' read' (11 + Z.to_nat max_payload).
Proof.
  intros He Hd Hread.
  assert (Hl : lawful_codec (frame_valid max_payload) encode decode').
  { destruct Hd as [Hd|(bound & e & Hb & Hd)].
    - by eapply lawful_codec_decode, frame_lawful.
    - by eapply lawful_codec_decode, (frame_bounded_lawful bound e). }
  split; [by apply (lawful_codec_encode _ encode)|].
  apply (frame_reader_encode _ encode); [done|]. eapply frame_reader_ext; [intros stream; symmetry; apply Hread|].
  by apply frame_read_lawful.
Qed.
End Laws.

(** Two formats whose magic or version differ never accept the same bytes. *)
Lemma frame_decode_prefix {E K} `{FrameKind E K} magic version (e1 e2 : E) max bs f :
  frame_decode (K := K) magic version e1 e2 max bs = Ok f →
  take 4 bs = magic ∧ take 2 (drop 4 bs) = be_bytes 2 version.
Proof.
  unfold frame_decode. intros Hd. decode_inv Hd. bool_facts. reads_to_slices.
  repeat match goal with Hs : slice _ _ _ = Ok _ |- _ => apply slice_Ok in Hs as [_ Hs] end. subst. done.
Qed.
