(* ===== verification/FieldCodec.v ===== *)
(** * Text fields of the bootstrap and enrollment payloads

    The helpers src/src/bootstrap_wire.rs and src/src/enrollment_v3_wire.rs both have: base64url
    and lowercase hex fields of an exact width, bounded base64 fields, six-digit codes and
    certificate chains.  The two errors they give are parameters, and so is the base64 engine
    (a third-party crate). *)
From S2P Require Export Codec.

(** [u8::is_ascii_hexdigit]. *)
Definition is_ascii_hexdigit (b : byte) : bool :=
  is_ascii_digit b || ((97 <=? byte_val b) && (byte_val b <=? 102)) || ((65 <=? byte_val b) && (byte_val b <=? 70)).

(** ** Hexadecimal *)
Definition hex_digit (nibble : Z) : byte :=
  default x00 (str_lit "0123456789abcdef" !! Z.to_nat nibble).

Definition encode_hex (bytes : list byte) : list byte :=
  bytes ≫= λ b, [hex_digit (Z.shiftr (byte_val b) 4); hex_digit (Z.land (byte_val b) 15)].

Section Fields.
Context {E : Type} (invalid_field frame_too_large : E).
Context (base64_encode : list byte → list byte) (base64_decode : list byte → option (list byte)).

Definition hex_nibble (b : byte) : outcome E Z :=
  if is_ascii_digit b then Ok (byte_val b - 48)
  else if (97 <=? byte_val b) && (byte_val b <=? 102) then Ok (byte_val b - 97 + 10)
  else Err invalid_field.

(** The loop over the pairs of digits. *)
Fixpoint decode_pairs (digits : list byte) : outcome E (list byte) :=
  match digits with
  | high :: low :: rest =>
      high ← hex_nibble high;
      low ← hex_nibble low;
      output ← decode_pairs rest;
      Ok (byte_of_Z (Z.lor (Z.shiftl high 4) low) :: output)
  | _ => Ok []
  end.

Definition decode_hex_exact (n : nat) (value : list byte) : outcome E (list byte) :=
  if negb (len value =? Z.of_nat n * 2) || negb (forallb is_ascii_hexdigit value) then Err invalid_field else
  if existsb is_ascii_uppercase value then Err invalid_field else
  output ← decode_pairs value;
  if bool_decide (output = zeros n) then Err invalid_field else Ok output.

(** ** Base64 *)
Definition encode_base64 (bytes : list byte) : list byte := base64_encode bytes.

Definition decode_base64_exact (n : nat) (value : list byte) : outcome E (list byte) :=
  bytes ← ok_or (base64_decode value) invalid_field;
  if negb (len bytes =? Z.of_nat n) || bool_decide (encode_base64 bytes ≠ value) then Err invalid_field else
  if bool_decide (bytes = zeros n) then Err invalid_field else Ok bytes.

Definition decode_base64_bounded (value : list byte) (max_bytes : Z) : outcome E (list byte) :=
  bytes ← ok_or (base64_decode value) invalid_field;
  if bool_decide (bytes = []) || (max_bytes <? len bytes) || bool_decide (encode_base64 bytes ≠ value)
  then Err (if max_bytes <? len bytes then frame_too_large else invalid_field)
  else Ok bytes.

(** ** Codes and chains *)
Definition validate_code (value : list byte) : outcome E unit :=
  if negb (len value =? 6) || negb (forallb is_ascii_digit value) then Err invalid_field else Ok tt.

(** The loops over a chain: [total] is the size so far. *)
Fixpoint encode_certificates (max_certificate max_chain : Z) (total : Z) (values : list (list byte))
  : outcome E (list (list byte)) :=
  match values with
  | [] => Ok []
  | value :: values' =>
      if bool_decide (value = []) || (max_certificate <? len value)
      then Err (if max_certificate <? len value then frame_too_large else invalid_field) else
      total ← ok_or (u64_checked_add total (len value)) frame_too_large;
      if max_chain <? total then Err frame_too_large else
      output ← encode_certificates max_certificate max_chain total values';
      Ok (encode_base64 value :: output)
  end.

Fixpoint decode_certificates (max_chain : Z) (total : Z) (values : list (list byte))
  : outcome E (list (list byte)) :=
  match values with
  | [] => Ok []
  | value :: values' =>
      certificate ← decode_base64_bounded value max_chain;
      total ← ok_or (u64_checked_add total (len certificate)) frame_too_large;
      if max_chain <? total then Err frame_too_large else
      output ← decode_certificates max_chain total values';
      Ok (certificate :: output)
  end.

Definition encode_certificate_chain (max_certificates max_certificate max_chain : Z) (values : list (list byte))
  : outcome E (list (list byte)) :=
  if bool_decide (values = []) || (max_certificates <? len values) then Err invalid_field
  else encode_certificates max_certificate max_chain 0 values.

Definition decode_certificate_chain (max_certificates max_chain : Z) (values : list (list byte))
  : outcome E (list (list byte)) :=
  if bool_decide (values = []) || (max_certificates <? len values) then Err invalid_field
  else decode_certificates max_chain 0 values.
End Fields.

(** * Facts *)

(** ** What the fields can hold *)
Definition exact_field (n : nat) (bytes : list byte) : Prop := length bytes = n ∧ bytes ≠ zeros n.
Definition bounded_field (max_bytes : Z) (bytes : list byte) : Prop := bytes ≠ [] ∧ len bytes ≤ max_bytes.
Definition chain_field (max_certificates max_chain : Z) (values : list (list byte)) : Prop :=
  values ≠ [] ∧ len values ≤ max_certificates ∧ Forall (λ v, v ≠ []) values
  ∧ len (concat values) ≤ max_chain.

Section Facts.
Context {E : Type} (invalid_field frame_too_large : E).
Context (base64_encode : list byte → list byte) (base64_decode : list byte → option (list byte)).
Context (base64_roundtrip : ∀ bytes, base64_decode (base64_encode bytes) = Some bytes).

Lemma decode_base64_exact_iff n value bytes :
  decode_base64_exact invalid_field base64_encode base64_decode n value = Ok bytes ↔
  exact_field n bytes ∧ value = base64_encode bytes.
Proof.
  unfold decode_base64_exact, exact_field, encode_base64. split.
  - intros (bs & Hb%ok_or_Ok & H)%bind_Ok. destruct (_ || _) eqn:Hc; [done|]. case_bool_decide; [done|].
    apply Ok_inj in H as ->. bool_facts. unfold len in *. split_and!; (done || lia).
  - intros [[Hl Hz] ->]. rewrite base64_roundtrip. cbn [ok_or mbind outcome_bind].
    unfold len. rewrite Hl, Z.eqb_refl, bool_decide_eq_false_2 by tauto. simpl. by rewrite bool_decide_eq_false_2.
Qed.

Lemma decode_base64_bounded_iff max value bytes :
  decode_base64_bounded invalid_field frame_too_large base64_encode base64_decode value max = Ok bytes ↔
  bounded_field max bytes ∧ value = base64_encode bytes.
Proof.
  unfold decode_base64_bounded, bounded_field, encode_base64. split.
  - intros (bs & Hb%ok_or_Ok & H)%bind_Ok. destruct (_ || _) eqn:Hc; [done|].
    apply Ok_inj in H as ->. bool_facts. done.
  - intros [[Hn Hl] ->]. rewrite base64_roundtrip. cbn [ok_or mbind outcome_bind].
    rewrite !bool_decide_eq_false_2 by tauto. by rewrite (proj2 (Z.ltb_ge _ _) Hl).
Qed.

(** ** Hexadecimal *)
Lemma hex_nibble_digit v : 0 ≤ v < 16 → hex_nibble invalid_field (hex_digit v) = Ok v.
Proof.
  intros Hv. assert (Hall : ∀ k, (k < 16)%nat → hex_nibble invalid_field (hex_digit (Z.of_nat k)) = Ok (Z.of_nat k)).
  { intros k Hk. do 16 (destruct k as [|k]; [done|]). exfalso. clear -Hk. lia. }
  rewrite <-(Z2Nat.id v) by lia. apply Hall. lia.
Qed.

Lemma hex_nibble_Ok b v : hex_nibble invalid_field b = Ok v → 0 ≤ v < 16 ∧ b = hex_digit v.
Proof.
  destruct b; intros H; vm_compute in H; first [discriminate H | injection H as <-; split; [lia|by vm_compute]].
Qed.

Lemma hex_digit_class v : 0 ≤ v < 16 →
  is_ascii_hexdigit (hex_digit v) = true ∧ is_ascii_uppercase (hex_digit v) = false.
Proof.
  intros Hv. assert (Hall : ∀ k, (k < 16)%nat → is_ascii_hexdigit (hex_digit (Z.of_nat k)) = true
    ∧ is_ascii_uppercase (hex_digit (Z.of_nat k)) = false).
  { intros k Hk. do 16 (destruct k as [|k]; [done|]). exfalso. clear -Hk. lia. }
  rewrite <-(Z2Nat.id v) by lia. apply Hall. lia.
Qed.

Lemma nibbles_of_byte b :
  0 ≤ Z.shiftr (byte_val b) 4 < 16 ∧ 0 ≤ Z.land (byte_val b) 15 < 16
  ∧ byte_of_Z (Z.lor (Z.shiftl (Z.shiftr (byte_val b) 4) 4) (Z.land (byte_val b) 15)) = b.
Proof. destruct b; vm_compute; repeat split; congruence. Qed.

Lemma byte_of_nibbles v w : 0 ≤ v < 16 → 0 ≤ w < 16 →
  let b := byte_of_Z (Z.lor (Z.shiftl v 4) w) in
  Z.shiftr (byte_val b) 4 = v ∧ Z.land (byte_val b) 15 = w.
Proof.
  intros Hv Hw. assert (Hall : ∀ i j, (i < 16)%nat → (j < 16)%nat →
    let b := byte_of_Z (Z.lor (Z.shiftl (Z.of_nat i) 4) (Z.of_nat j)) in
    Z.shiftr (byte_val b) 4 = Z.of_nat i ∧ Z.land (byte_val b) 15 = Z.of_nat j).
  { intros i j Hi Hj. do 16 (destruct i as [|i]; [do 16 (destruct j as [|j]; [by vm_compute|]); exfalso; clear -Hj; lia|]). exfalso. clear -Hi. lia. }
  rewrite <-(Z2Nat.id v), <-(Z2Nat.id w) by lia. apply Hall; lia.
Qed.

Lemma length_encode_hex bytes : length (encode_hex bytes) = (length bytes * 2)%nat.
Proof. induction bytes as [|b bytes IH]; [done|]. simpl. do 2 f_equal. exact IH. Qed.

Lemma decode_pairs_encode bytes : decode_pairs invalid_field (encode_hex bytes) = Ok bytes.
Proof.
  induction bytes as [|b bytes IH]; [done|]. destruct (nibbles_of_byte b) as (Hh & Hl & Hb).
  change (encode_hex (b :: bytes)) with (hex_digit (Z.shiftr (byte_val b) 4) :: hex_digit (Z.land (byte_val b) 15) :: encode_hex bytes).
  cbn [decode_pairs]. rewrite !hex_nibble_digit by done. cbn [mbind outcome_bind]. rewrite IH. cbn [mbind outcome_bind].
  by rewrite Hb.
Qed.

Lemma decode_pairs_Ok k value bytes :
  length value = (k * 2)%nat → decode_pairs invalid_field value = Ok bytes → length bytes = k ∧ encode_hex bytes = value.
Proof.
  revert value bytes. induction k as [|k IH]; intros value bytes Hl Hd.
  - destruct value; [|done]. apply Ok_inj in Hd as <-. done.
  - destruct value as [|h [|l value]]; try (simpl in Hl; lia). cbn [decode_pairs] in Hd.
    apply bind_Ok in Hd as (v & [Hv ->]%hex_nibble_Ok & Hd). apply bind_Ok in Hd as (w & [Hw ->]%hex_nibble_Ok & Hd).
    apply bind_Ok in Hd as (out & Hout & Hd). apply Ok_inj in Hd as <-. simpl in Hl.
    destruct (IH value out ltac:(lia) Hout) as [<- <-]. split; [done|].
    destruct (byte_of_nibbles v w Hv Hw) as [Hb1 Hb2].
    change (encode_hex (byte_of_Z (Z.lor (Z.shiftl v 4) w) :: out))
      with (hex_digit (Z.shiftr (byte_val (byte_of_Z (Z.lor (Z.shiftl v 4) w))) 4)
            :: hex_digit (Z.land (byte_val (byte_of_Z (Z.lor (Z.shiftl v 4) w))) 15) :: encode_hex out).
    by rewrite Hb1, Hb2.
Qed.

Lemma encode_hex_class bytes :
  forallb is_ascii_hexdigit (encode_hex bytes) = true ∧ existsb is_ascii_uppercase (encode_hex bytes) = false.
Proof.
  induction bytes as [|b bytes [IH1 IH2]]; [done|]. destruct (nibbles_of_byte b) as (Hh & Hl & _).
  change (encode_hex (b :: bytes)) with (hex_digit (Z.shiftr (byte_val b) 4) :: hex_digit (Z.land (byte_val b) 15) :: encode_hex bytes).
  cbn [forallb existsb]. destruct (hex_digit_class _ Hh) as [-> ->], (hex_digit_class _ Hl) as [-> ->]. done.
Qed.

Lemma decode_hex_exact_iff n value bytes :
  decode_hex_exact invalid_field n value = Ok bytes ↔ exact_field n bytes ∧ value = encode_hex bytes.
Proof.
  unfold decode_hex_exact, exact_field. split.
  - destruct (_ || _) eqn:Hc; [done|]. destruct (existsb _ _); [done|]. intros (out & Hout & H)%bind_Ok.
    case_bool_decide; [done|]. apply Ok_inj in H as ->. bool_facts. unfold len in *.
    destruct (decode_pairs_Ok n value bytes ltac:(lia) Hout) as [? ?]. done.
  - intros [[Hl Hz] ->]. destruct (encode_hex_class bytes) as [-> ->]. rewrite decode_pairs_encode.
    unfold len. rewrite length_encode_hex, Hl. replace (Z.of_nat (n * 2) =? Z.of_nat n * 2) with true
      by (symmetry; apply Z.eqb_eq; lia). cbn. by rewrite bool_decide_eq_false_2.
Qed.
End Facts.

(** ** Chains *)
Section Chains.
Context {E : Type} (invalid_field frame_too_large : E).
Context (base64_encode : list byte → list byte) (base64_decode : list byte → option (list byte)).
Context (base64_roundtrip : ∀ bytes, base64_decode (base64_encode bytes) = Some bytes).
Context (max_chain : Z) (max_u64 : max_chain ≤ u64_max).

Lemma len_concat_cons (v : list byte) vs : len (concat (v :: vs)) = len v + len (concat vs).
Proof. unfold len. simpl. rewrite length_app. lia. Qed.

Lemma decode_certificates_iff total values chain :
  0 ≤ total ≤ max_chain →
  decode_certificates invalid_field frame_too_large base64_encode base64_decode max_chain total values = Ok chain ↔
  Forall (λ v, v ≠ []) chain ∧ total + len (concat chain) ≤ max_chain ∧ values = base64_encode <$> chain.
Proof.
  revert total chain. induction values as [|value values IH]; intros total chain Ht; cbn [decode_certificates].
  - split; [intros [= <-]; split_and!; [constructor|unfold len; simpl; lia|done]|].
    intros (_ & _ & Hc). destruct chain; [done|discriminate].
  - split.
    + intros (cert & [[Hne Hlen] ->]%decode_base64_bounded_iff & H)%bind_Ok; [|done].
      apply bind_Ok in H as (t & [-> _]%ok_or_Ok%u64_checked_add_Some & H).
      destruct (Z.ltb_spec max_chain (total + len cert)); [done|]. apply bind_Ok in H as (out & Hout & H).
      apply Ok_inj in H as <-. pose proof (len_nonneg cert).
      apply IH in Hout as (Hf & Hl & ->); [|lia]. rewrite len_concat_cons. split_and!; [by constructor|lia|done].
    + intros (Hf & Hl & Hv). destruct chain as [|cert chain]; [done|]. injection Hv as -> ->.
      apply Forall_cons in Hf as [Hne Hf]. rewrite len_concat_cons in Hl.
      pose proof (len_nonneg cert). pose proof (len_nonneg (concat chain)).
      eapply bind_step; [apply decode_base64_bounded_iff; [done|split; [split; [done|lia]|done]]|]. cbn beta.
      eapply bind_step; [apply ok_or_Ok, u64_checked_add_Some; split; [done|lia]|]. cbn beta.
      rewrite (proj2 (Z.ltb_ge _ _)) by lia. eapply bind_step; [apply IH; [lia|split_and!; [done|lia|done]]|]. done.
Qed.

Lemma encode_certificates_Ok max_certificate total chain :
  0 ≤ total → max_chain ≤ max_certificate → Forall (λ v, v ≠ []) chain → total + len (concat chain) ≤ max_chain →
  encode_certificates invalid_field frame_too_large base64_encode max_certificate max_chain total chain
  = Ok (base64_encode <$> chain).
Proof.
  revert total. induction chain as [|cert chain IH]; intros total Ht Hmax Hf Hl; [done|].
  apply Forall_cons in Hf as [Hne Hf]. rewrite len_concat_cons in Hl.
  pose proof (len_nonneg cert). pose proof (len_nonneg (concat chain)). cbn [encode_certificates].
  rewrite bool_decide_eq_false_2, (proj2 (Z.ltb_ge _ _)) by (done || lia). cbn [orb].
  eapply bind_step; [apply ok_or_Ok, u64_checked_add_Some; split; [done|lia]|]. cbn beta.
  rewrite (proj2 (Z.ltb_ge _ _)) by lia. by rewrite IH by (done || lia).
Qed.

Lemma encode_certificates_inv max_certificate total chain out :
  0 ≤ total ≤ max_chain →
  encode_certificates invalid_field frame_too_large base64_encode max_certificate max_chain total chain = Ok out →
  Forall (λ v, v ≠ []) chain ∧ total + len (concat chain) ≤ max_chain ∧ out = base64_encode <$> chain.
Proof.
  revert total out. induction chain as [|cert chain IH]; intros total out Ht; cbn [encode_certificates].
  - intros [= <-]. split_and!; [constructor|unfold len; simpl; lia|done].
  - destruct (_ || _) eqn:Hc; [done|]. intros (t & [-> _]%ok_or_Ok%u64_checked_add_Some & H)%bind_Ok.
    destruct (Z.ltb_spec max_chain (total + len cert)); [done|]. apply bind_Ok in H as (o & Ho & H).
    apply Ok_inj in H as <-. pose proof (len_nonneg cert). bool_facts.
    apply IH in Ho as (Hf & Hl & ->); [|lia]. rewrite len_concat_cons. split_and!; [by constructor|lia|done].
Qed.

Lemma decode_certificate_chain_iff max_certificates values chain :
  0 ≤ max_chain →
  decode_certificate_chain invalid_field frame_too_large base64_encode base64_decode max_certificates max_chain values
    = Ok chain ↔ chain_field max_certificates max_chain chain ∧ values = base64_encode <$> chain.
Proof.
  intros Hm. unfold decode_certificate_chain, chain_field. split.
  - destruct (_ || _) eqn:Hc; [done|]. intros (Hf & Hl & ->)%decode_certificates_iff; [|lia]. bool_facts.
    unfold len in *. rewrite length_fmap in *. split_and!; [by intros ->|lia|done|lia|done].
  - intros [(Hne & Hlen & Hf & Hl) ->]. rewrite bool_decide_eq_false_2 by (by intros ?%fmap_nil_inv).
    unfold len at 1. rewrite length_fmap. fold (len chain). rewrite (proj2 (Z.ltb_ge _ _)) by done. simpl.
    apply decode_certificates_iff; [lia|]. split_and!; [done|lia|done].
Qed.

Lemma encode_certificate_chain_iff max_certificates max_certificate chain out :
  0 ≤ max_chain ≤ max_certificate →
  encode_certificate_chain invalid_field frame_too_large base64_encode max_certificates max_certificate max_chain chain
    = Ok out ↔ chain_field max_certificates max_chain chain ∧ out = base64_encode <$> chain.
Proof.
  intros Hm. unfold encode_certificate_chain, chain_field. split.
  - destruct (_ || _) eqn:Hc; [done|]. intros (Hf & Hl & ->)%encode_certificates_inv; [|lia]. bool_facts.
    split_and!; [done|lia|done|lia|done].
  - intros [(Hne & Hlen & Hf & Hl) ->]. rewrite bool_decide_eq_false_2, (proj2 (Z.ltb_ge _ _)) by done. simpl.
    apply encode_certificates_Ok; [lia|lia|done|lia].
Qed.

End Chains.

(** ** Stepping through the decoders

    Read the fields of a successful run, and solve the field steps of a run that has to be
    shown; [rt] is the round trip of the base64 engine. *)
Ltac read_fields rt :=
  repeat match goal with
  | H : decode_base64_exact _ _ _ _ _ = Ok _ |- _ => apply (decode_base64_exact_iff _ _ _ rt) in H as [[? ?] ?]
  | H : decode_base64_bounded _ _ _ _ _ _ = Ok _ |- _ => apply (decode_base64_bounded_iff _ _ _ _ rt) in H as [[? ?] ?]
  | H : decode_hex_exact _ _ _ = Ok _ |- _ => apply decode_hex_exact_iff in H as [[? ?] ?]
  | H : decode_certificate_chain _ _ _ _ _ _ _ = Ok _ |- _ =>
      apply (decode_certificate_chain_iff _ _ _ _ rt) in H as [? ?]; [|by vm_compute|by vm_compute]
  | H : encode_certificate_chain _ _ _ _ _ _ _ = Ok _ |- _ =>
      apply encode_certificate_chain_iff in H as [? ?]; [|by vm_compute|by vm_compute]
  end.

Ltac field_solve rt :=
  first [ assumption | done
        | apply (decode_base64_exact_iff _ _ _ rt), and_comm; split; [reflexivity|by split]
        | apply (decode_base64_bounded_iff _ _ _ _ rt), and_comm; split; [reflexivity|by split]
        | apply decode_hex_exact_iff, and_comm; split; [reflexivity|by split]
        | apply (decode_certificate_chain_iff _ _ _ _ rt); [by vm_compute|by vm_compute|done]
        | apply encode_certificate_chain_iff; [by vm_compute|by vm_compute|done] ].

Ltac field_tests :=
  repeat first
  [ apply orb_false_iff; split
  | apply bool_decide_eq_false_2; congruence
  | apply Z.eqb_neq; assumption
  | apply Z.ltb_ge; assumption
  | reflexivity ].

Ltac field_step rt :=
  first [ eapply bind_step; [field_solve rt|]; cbn beta | apply if_false_step; [solve [field_tests]|] ].
