(* ===== verification/BootstrapWire.v ===== *)
(** * HDB1 bootstrap frames and payloads (src/src/bootstrap_wire.rs)

    The frame codec, its stream reader and the JSON payloads with their text fields.  JSON
    and base64 are parameters. *)
From S2P Require Export JsonFrames FieldCodec.

Definition HDB1_MAGIC : list byte := str_lit "HDB1".
Definition HDB1_VERSION : Z := 1.
Definition HDB1_HEADER_BYTES : Z := 11.
Definition HDB1_MAX_FRAME_BYTES : Z := 64 * 1024.
Definition HDB1_MAX_PAYLOAD_BYTES : Z := HDB1_MAX_FRAME_BYTES - HDB1_HEADER_BYTES.
Definition HDB1_MAX_CSR_BYTES : Z := 16 * 1024.
Definition HDB1_DIGEST_BYTES : nat := 32.
Definition HDB1_ID_BYTES : nat := 32.
Definition HDB1_REQUEST_ID_BYTES : nat := 16.
Definition HDB1_MAX_SESSION_BYTES : Z := 64.
Definition HDB1_MAX_CHAIN_BYTES : Z := 46 * 1024.
Definition HDB1_MAX_CHAIN_CERTIFICATES : Z := 8.

Inductive Hdb1Kind : Type :=
| Hdb1Start | Hdb1Challenge | Hdb1Submit | Hdb1CoreIssued | Hdb1Reconcile | Hdb1Result | Hdb1Rejected.

#[export] Instance Hdb1Kind_eq_dec : EqDecision Hdb1Kind.
Proof. solve_decision. Defined.

Inductive Hdb1Error : Type :=
| Hdb1InvalidFrame | Hdb1FrameTooLarge | Hdb1InvalidOrder | Hdb1InvalidField.

Abbreviation bresult := (outcome Hdb1Error).

(** [kind as u8]. *)
Definition Hdb1Kind_as_u8 (kind : Hdb1Kind) : Z :=
  match kind with
  | Hdb1Start => 1 | Hdb1Challenge => 2 | Hdb1Submit => 3 | Hdb1CoreIssued => 4
  | Hdb1Reconcile => 5 | Hdb1Result => 6 | Hdb1Rejected => 7
  end.

Definition Hdb1Kind_try_from (value : Z) : bresult Hdb1Kind :=
  match value with
  | 1 => Ok Hdb1Start
  | 2 => Ok Hdb1Challenge
  | 3 => Ok Hdb1Submit
  | 4 => Ok Hdb1CoreIssued
  | 5 => Ok Hdb1Reconcile
  | 6 => Ok Hdb1Result
  | 7 => Ok Hdb1Rejected
  | _ => Err Hdb1InvalidFrame
  end.

#[export] Instance Hdb1Kind_kind : FrameKind Hdb1Error Hdb1Kind :=
  {| kind_as_u8 := Hdb1Kind_as_u8; kind_try_from := Hdb1Kind_try_from |}.

Definition Hdb1Frame : Type := Frame Hdb1Kind.

Definition Hdb1Frame_encode (f : Hdb1Frame) : bresult (list byte) :=
  if HDB1_MAX_PAYLOAD_BYTES <? len (fr_payload f) then Err Hdb1FrameTooLarge else
  Ok (HDB1_MAGIC ++ be_bytes 2 HDB1_VERSION ++ [byte_of_Z (Hdb1Kind_as_u8 (fr_kind f))]
      ++ be_bytes 4 (len (fr_payload f)) ++ fr_payload f).

Definition Hdb1Frame_decode (bytes : list byte) : bresult Hdb1Frame :=
  if (len bytes <? HDB1_HEADER_BYTES) || (HDB1_MAX_FRAME_BYTES <? len bytes)
  then Err (if HDB1_MAX_FRAME_BYTES <? len bytes then Hdb1FrameTooLarge else Hdb1InvalidFrame) else
  magic ← slice bytes 0 4;
  version ← index_u16 bytes 4;
  if bool_decide (magic ≠ HDB1_MAGIC) || negb (version =? HDB1_VERSION) then Err Hdb1InvalidFrame else
  tag ← index bytes 6;
  kind ← Hdb1Kind_try_from (byte_val tag);
  payload_len ← index_u32 bytes 7;
  if HDB1_MAX_PAYLOAD_BYTES <? payload_len then Err Hdb1FrameTooLarge else
  if negb (len bytes =? HDB1_HEADER_BYTES + payload_len) then Err Hdb1InvalidFrame else
  payload ← slice_from bytes 11;
  Ok {| fr_kind := kind; fr_payload := payload |}.

(** [read_frame]. *)
Definition Hdb1_read_frame : stateful (list byte) Hdb1Error Hdb1Frame :=
  (let! header := read_exact 11 Hdb1InvalidFrame in
   let! payload_len := st_lift (index_u32 header 7) in
   if HDB1_MAX_PAYLOAD_BYTES <? payload_len then st_err Hdb1FrameTooLarge else
   let! payload := read_exact (Z.to_nat payload_len) Hdb1InvalidFrame in
   st_lift (Hdb1Frame_decode (header ++ payload)))%relay.

(** [Hdb1Frame::json] and [parse_json]. *)
Definition Hdb1Frame_json {T} (to_vec : T → option (list byte)) (kind : Hdb1Kind) (value : T) : bresult Hdb1Frame :=
  frame_json to_vec Hdb1InvalidFrame Hdb1FrameTooLarge HDB1_MAX_PAYLOAD_BYTES kind value.
Definition Hdb1Frame_parse_json {T} (from_slice : list byte → option T) (frame : Hdb1Frame) (expected : Hdb1Kind)
  : bresult T :=
  frame_parse_json from_slice Hdb1InvalidFrame Hdb1InvalidOrder frame expected.

(** ** Payloads *)

(** [is_valid_hdb1_session]. *)
Definition is_valid_hdb1_session (value : list byte) : bool :=
  bool_decide (value ≠ []) && (len value <=? HDB1_MAX_SESSION_BYTES) && bool_decide (value ≠ str_lit ".")
  && bool_decide (value ≠ str_lit "..")
  && forallb (λ b, is_ascii_alphanumeric b || bool_decide (b ∈ [x2e; x5f; x2d])) value.

Definition Hdb1_validate_session (value : list byte) : bresult unit :=
  if is_valid_hdb1_session value then Ok tt else Err Hdb1InvalidField.

Inductive Hdb1ChallengeStatus : Type := Hdb1AwaitingCode.
Inductive Hdb1CoreState : Type := Hdb1BootstrapPending.
Inductive Hdb1ResultStatus : Type := Hdb1ResultPending | Hdb1ResultIssued | Hdb1ResultRejected.

Record Hdb1StartPayload : Type := {
  bs_request_id : list byte;
  bs_core_csr : list byte;
  bs_app_csr_digest : list byte;
  bs_normalized_session : list byte;
  bs_core_binding_digest : list byte;
  bs_configuration_generation : Z;
}.
Record Hdb1ChallengePayload : Type := {
  bc_bootstrap_id : list byte;
  bc_challenge : list byte;
  bc_expires_at_epoch_seconds : Z;
  bc_status : Hdb1ChallengeStatus;
}.
Record Hdb1SubmitPayload : Type := {
  bu_bootstrap_id : list byte;
  bu_challenge : list byte;
  bu_code : list byte;
}.
Record Hdb1CoreIssuedPayload : Type := {
  bi_approval_id : list byte;
  bi_core_identity : list byte;
  bi_certificate_chain : list (list byte);
  bi_not_after_epoch_seconds : Z;
  bi_state : Hdb1CoreState;
}.
Record Hdb1ReconcilePayload : Type := {
  br_approval_id : list byte;
  br_core_binding_digest : list byte;
  br_normalized_session : list byte;
}.
Record Hdb1ResultPayload : Type := {
  bt_approval_id : list byte;
  bt_status : Hdb1ResultStatus;
  bt_core_identity : option (list byte);
  bt_certificate_chain : option (list (list byte));
  bt_not_after_epoch_seconds : option Z;
  bt_rejection_code : option Z;
}.

Section Payloads.
Context (base64_encode : list byte → list byte) (base64_decode : list byte → option (list byte)).

Local Abbreviation Hdb1_base64_exact :=
  (decode_base64_exact Hdb1InvalidField base64_encode base64_decode).
Local Abbreviation Hdb1_base64_bounded :=
  (decode_base64_bounded Hdb1InvalidField Hdb1FrameTooLarge base64_encode base64_decode).
Local Abbreviation Hdb1_hex_exact := (decode_hex_exact Hdb1InvalidField).
Local Abbreviation Hdb1_validate_code := (validate_code Hdb1InvalidField).
Local Abbreviation Hdb1_encode_certificate_chain :=
  (encode_certificate_chain Hdb1InvalidField Hdb1FrameTooLarge base64_encode
    HDB1_MAX_CHAIN_CERTIFICATES HDB1_MAX_CHAIN_BYTES HDB1_MAX_CHAIN_BYTES).
Local Abbreviation Hdb1_decode_certificate_chain :=
  (decode_certificate_chain Hdb1InvalidField Hdb1FrameTooLarge base64_encode base64_decode
    HDB1_MAX_CHAIN_CERTIFICATES HDB1_MAX_CHAIN_BYTES).

Definition Hdb1StartPayload_new (request_id core_csr app_csr_digest normalized_session core_binding_digest : list byte)
    (configuration_generation : Z) : bresult Hdb1StartPayload :=
  _ ← Hdb1_validate_session normalized_session;
  if bool_decide (request_id = zeros HDB1_REQUEST_ID_BYTES) || bool_decide (core_csr = [])
     || (HDB1_MAX_CSR_BYTES <? len core_csr) || bool_decide (app_csr_digest = zeros HDB1_DIGEST_BYTES)
     || bool_decide (core_binding_digest = zeros HDB1_DIGEST_BYTES) || (configuration_generation =? 0)
  then Err Hdb1InvalidField else
  Ok {| bs_request_id := base64_encode request_id; bs_core_csr := base64_encode core_csr;
        bs_app_csr_digest := encode_hex app_csr_digest; bs_normalized_session := normalized_session;
        bs_core_binding_digest := encode_hex core_binding_digest;
        bs_configuration_generation := configuration_generation |}.

Definition Hdb1StartPayload_decode_fields (p : Hdb1StartPayload)
  : bresult (list byte * list byte * list byte * list byte * list byte * Z) :=
  request_id ← Hdb1_base64_exact HDB1_REQUEST_ID_BYTES (bs_request_id p);
  core_csr ← Hdb1_base64_bounded (bs_core_csr p) HDB1_MAX_CSR_BYTES;
  app_csr_digest ← Hdb1_hex_exact HDB1_DIGEST_BYTES (bs_app_csr_digest p);
  core_binding_digest ← Hdb1_hex_exact HDB1_DIGEST_BYTES (bs_core_binding_digest p);
  if bs_configuration_generation p =? 0 then Err Hdb1InvalidField else
  _ ← Hdb1_validate_session (bs_normalized_session p);
  Ok (request_id, core_csr, app_csr_digest, bs_normalized_session p, core_binding_digest,
      bs_configuration_generation p).

Definition Hdb1ChallengePayload_new (bootstrap_id challenge : list byte) (expires_at : Z)
  : bresult Hdb1ChallengePayload :=
  if bool_decide (bootstrap_id = zeros HDB1_ID_BYTES) || bool_decide (challenge = zeros HDB1_DIGEST_BYTES)
     || (expires_at =? 0)
  then Err Hdb1InvalidField else
  Ok {| bc_bootstrap_id := base64_encode bootstrap_id; bc_challenge := base64_encode challenge;
        bc_expires_at_epoch_seconds := expires_at; bc_status := Hdb1AwaitingCode |}.

Definition Hdb1ChallengePayload_decode_fields (p : Hdb1ChallengePayload) : bresult (list byte * list byte * Z) :=
  bootstrap_id ← Hdb1_base64_exact HDB1_ID_BYTES (bc_bootstrap_id p);
  challenge ← Hdb1_base64_exact HDB1_DIGEST_BYTES (bc_challenge p);
  if bc_expires_at_epoch_seconds p =? 0 then Err Hdb1InvalidField else
  Ok (bootstrap_id, challenge, bc_expires_at_epoch_seconds p).

Definition Hdb1SubmitPayload_new (bootstrap_id challenge code : list byte) : bresult Hdb1SubmitPayload :=
  _ ← Hdb1_validate_code code;
  if bool_decide (bootstrap_id = zeros HDB1_ID_BYTES) || bool_decide (challenge = zeros HDB1_DIGEST_BYTES)
  then Err Hdb1InvalidField else
  Ok {| bu_bootstrap_id := base64_encode bootstrap_id; bu_challenge := base64_encode challenge; bu_code := code |}.

Definition Hdb1SubmitPayload_decode_fields (p : Hdb1SubmitPayload) : bresult (list byte * list byte * list byte) :=
  bootstrap_id ← Hdb1_base64_exact HDB1_ID_BYTES (bu_bootstrap_id p);
  challenge ← Hdb1_base64_exact HDB1_DIGEST_BYTES (bu_challenge p);
  _ ← Hdb1_validate_code (bu_code p);
  Ok (bootstrap_id, challenge, bu_code p).

Definition Hdb1CoreIssuedPayload_decode_fields (p : Hdb1CoreIssuedPayload)
  : bresult (list byte * list byte * list (list byte) * Z) :=
  approval_id ← Hdb1_base64_exact HDB1_ID_BYTES (bi_approval_id p);
  core_identity ← Hdb1_hex_exact HDB1_DIGEST_BYTES (bi_core_identity p);
  certificate_chain ← Hdb1_decode_certificate_chain (bi_certificate_chain p);
  if bi_not_after_epoch_seconds p =? 0 then Err Hdb1InvalidField else
  Ok (approval_id, core_identity, certificate_chain, bi_not_after_epoch_seconds p).

Definition Hdb1CoreIssuedPayload_new (approval_id core_identity : list byte) (certificate_chain : list (list byte))
    (not_after : Z) : bresult Hdb1CoreIssuedPayload :=
  if bool_decide (approval_id = zeros HDB1_ID_BYTES) || bool_decide (core_identity = zeros HDB1_DIGEST_BYTES)
     || (not_after =? 0)
  then Err Hdb1InvalidField else
  encoded ← Hdb1_encode_certificate_chain certificate_chain;
  let payload :=
    {| bi_approval_id := base64_encode approval_id; bi_core_identity := encode_hex core_identity;
       bi_certificate_chain := encoded; bi_not_after_epoch_seconds := not_after;
       bi_state := Hdb1BootstrapPending |} in
  (λ _, payload) <$> Hdb1CoreIssuedPayload_decode_fields payload.

Definition Hdb1ReconcilePayload_new (approval_id core_binding_digest normalized_session : list byte)
  : bresult Hdb1ReconcilePayload :=
  _ ← Hdb1_validate_session normalized_session;
  if bool_decide (approval_id = zeros HDB1_ID_BYTES) || bool_decide (core_binding_digest = zeros HDB1_DIGEST_BYTES)
  then Err Hdb1InvalidField else
  Ok {| br_approval_id := base64_encode approval_id; br_core_binding_digest := encode_hex core_binding_digest;
        br_normalized_session := normalized_session |}.

Definition Hdb1ReconcilePayload_decode_fields (p : Hdb1ReconcilePayload) : bresult (list byte * list byte * list byte) :=
  approval_id ← Hdb1_base64_exact HDB1_ID_BYTES (br_approval_id p);
  core_binding_digest ← Hdb1_hex_exact HDB1_DIGEST_BYTES (br_core_binding_digest p);
  _ ← Hdb1_validate_session (br_normalized_session p);
  Ok (approval_id, core_binding_digest, br_normalized_session p).

(** ** Recovery results *)
Definition Hdb1ResultPayload_validate (p : Hdb1ResultPayload) : bresult unit :=
  _ ← Hdb1_base64_exact HDB1_ID_BYTES (bt_approval_id p);
  match bt_status p with
  | Hdb1ResultPending =>
      if bool_decide (is_Some (bt_core_identity p)) || bool_decide (is_Some (bt_certificate_chain p))
         || bool_decide (is_Some (bt_not_after_epoch_seconds p)) || bool_decide (is_Some (bt_rejection_code p))
      then Err Hdb1InvalidField else Ok tt
  | Hdb1ResultIssued =>
      core_identity ← ok_or (bt_core_identity p) Hdb1InvalidField;
      _ ← Hdb1_hex_exact HDB1_DIGEST_BYTES core_identity;
      chain ← ok_or (bt_certificate_chain p) Hdb1InvalidField;
      _ ← Hdb1_decode_certificate_chain chain;
      if (default 0 (bt_not_after_epoch_seconds p) =? 0) || bool_decide (is_Some (bt_rejection_code p))
      then Err Hdb1InvalidField else Ok tt
  | Hdb1ResultRejected =>
      if (default 0 (bt_rejection_code p) =? 0) || bool_decide (is_Some (bt_core_identity p))
         || bool_decide (is_Some (bt_certificate_chain p)) || bool_decide (is_Some (bt_not_after_epoch_seconds p))
      then Err Hdb1InvalidField else Ok tt
  end.

(** [Option::map(f).transpose()]. *)
Definition transpose {A B} (f : A → bresult B) (o : option A) : bresult (option B) :=
  match o with
  | None => Ok None
  | Some a => Some <$> f a
  end.

Definition Hdb1ResultPayload_decode_fields (p : Hdb1ResultPayload)
  : bresult (list byte * Hdb1ResultStatus * option (list byte) * option (list (list byte)) * option Z * option Z) :=
  _ ← Hdb1ResultPayload_validate p;
  approval_id ← Hdb1_base64_exact HDB1_ID_BYTES (bt_approval_id p);
  core_identity ← transpose (Hdb1_hex_exact HDB1_DIGEST_BYTES) (bt_core_identity p);
  certificate_chain ← transpose Hdb1_decode_certificate_chain (bt_certificate_chain p);
  Ok (approval_id, bt_status p, core_identity, certificate_chain, bt_not_after_epoch_seconds p, bt_rejection_code p).

Definition Hdb1ResultPayload_new_pending (approval_id : list byte) : bresult Hdb1ResultPayload :=
  if bool_decide (approval_id = zeros HDB1_ID_BYTES) then Err Hdb1InvalidField else
  Ok {| bt_approval_id := base64_encode approval_id; bt_status := Hdb1ResultPending; bt_core_identity := None;
        bt_certificate_chain := None; bt_not_after_epoch_seconds := None; bt_rejection_code := None |}.

Definition Hdb1ResultPayload_new_issued (approval_id core_identity : list byte) (certificate_chain : list (list byte))
    (not_after : Z) : bresult Hdb1ResultPayload :=
  if bool_decide (approval_id = zeros HDB1_ID_BYTES) || bool_decide (core_identity = zeros HDB1_DIGEST_BYTES)
     || (not_after =? 0)
  then Err Hdb1InvalidField else
  encoded ← Hdb1_encode_certificate_chain certificate_chain;
  let payload :=
    {| bt_approval_id := base64_encode approval_id; bt_status := Hdb1ResultIssued;
       bt_core_identity := Some (encode_hex core_identity); bt_certificate_chain := Some encoded;
       bt_not_after_epoch_seconds := Some not_after; bt_rejection_code := None |} in
  (λ _, payload) <$> Hdb1ResultPayload_validate payload.

Definition Hdb1ResultPayload_new_rejected (approval_id : list byte) (rejection_code : Z) : bresult Hdb1ResultPayload :=
  if bool_decide (approval_id = zeros HDB1_ID_BYTES) || (rejection_code =? 0) then Err Hdb1InvalidField else
  Ok {| bt_approval_id := base64_encode approval_id; bt_status := Hdb1ResultRejected; bt_core_identity := None;
        bt_certificate_chain := None; bt_not_after_epoch_seconds := None; bt_rejection_code := Some rejection_code |}.
End Payloads.

(** [Hdb1RejectedPayload::new] and [validate]. *)
Definition Hdb1RejectedPayload_new (code : Z) : bresult Z := if code =? 0 then Err Hdb1InvalidField else Ok code.
Definition Hdb1RejectedPayload_validate (code : Z) : bresult unit := if code =? 0 then Err Hdb1InvalidField else Ok tt.

(** * Facts *)

(** ** Frames *)
#[export] Instance Hdb1Kind_lawful : LawfulKind Hdb1Error Hdb1Kind.
Proof.
  split.
  - by intros [].
  - intros b k. destruct b; simpl; intros [= <-]; done.
  - intros z. simpl. unfold returns, Hdb1Kind_try_from. by repeat case_match.
Qed.

Lemma HDB1_MAX_u32 : 0 ≤ HDB1_MAX_PAYLOAD_BYTES ≤ u32_max.
Proof. by vm_compute. Qed.

(** The codec as written is the reference codec, behind a bound on the whole frame. *)
Lemma Hdb1Frame_encode_reference f :
  Hdb1Frame_encode f = frame_encode HDB1_MAGIC HDB1_VERSION Hdb1FrameTooLarge HDB1_MAX_PAYLOAD_BYTES f.
Proof. done. Qed.

Lemma Hdb1Frame_decode_reference bs :
  Hdb1Frame_decode bs =
    if HDB1_MAX_FRAME_BYTES <? len bs then Err Hdb1FrameTooLarge
    else frame_decode HDB1_MAGIC HDB1_VERSION Hdb1InvalidFrame Hdb1FrameTooLarge HDB1_MAX_PAYLOAD_BYTES bs.
Proof.
  unfold Hdb1Frame_decode, frame_decode. destruct (Z.ltb_spec HDB1_MAX_FRAME_BYTES (len bs)).
  - by rewrite orb_true_r.
  - by rewrite orb_false_r.
Qed.

Lemma Hdb1_read_frame_reference stream :
  Hdb1_read_frame stream = two_part_read 11 Hdb1InvalidFrame Hdb1InvalidFrame
    (frame_size Hdb1FrameTooLarge HDB1_MAX_PAYLOAD_BYTES) Hdb1Frame_decode stream.
Proof.
  unfold Hdb1_read_frame, two_part_read, frame_size, st_bind, st_lift, st_err.
  destruct (read_exact 11 _ stream) as [rest [header|e|]]; [|done..].
  destruct (index_u32 header 7) as [n|e|]; [|done..]. cbn [mbind outcome_bind]. by destruct (_ <? _).
Qed.

Lemma Hdb1_protocol_lawful :
  lawful_codec (frame_valid HDB1_MAX_PAYLOAD_BYTES) Hdb1Frame_encode Hdb1Frame_decode
  ∧ frame_reader (frame_valid HDB1_MAX_PAYLOAD_BYTES) Hdb1Frame_encode Hdb1_read_frame
      (11 + Z.to_nat HDB1_MAX_PAYLOAD_BYTES).
Proof.
  eapply (frame_protocol_lawful (K := Hdb1Kind) HDB1_MAGIC HDB1_VERSION Hdb1InvalidFrame Hdb1FrameTooLarge).
  - done.
  - by vm_compute.
  - apply HDB1_MAX_u32.
  - apply Hdb1Frame_encode_reference.
  - right. exists HDB1_MAX_FRAME_BYTES, Hdb1FrameTooLarge. split; [by vm_compute|apply Hdb1Frame_decode_reference].
  - apply Hdb1_read_frame_reference.
Qed.

(** ** Payloads *)
Section PayloadFacts.
Context (base64_encode : list byte → list byte) (base64_decode : list byte → option (list byte)).
Context (base64_roundtrip : ∀ bytes, base64_decode (base64_encode bytes) = Some bytes).

Lemma Hdb1_start_iff p request_id core_csr app_csr_digest session core_binding_digest generation :
  Hdb1StartPayload_decode_fields base64_encode base64_decode p
    = Ok (request_id, core_csr, app_csr_digest, session, core_binding_digest, generation) ↔
  (length request_id = HDB1_REQUEST_ID_BYTES ∧ length app_csr_digest = HDB1_DIGEST_BYTES
   ∧ length core_binding_digest = HDB1_DIGEST_BYTES)
  ∧ Hdb1StartPayload_new base64_encode request_id core_csr app_csr_digest session core_binding_digest generation = Ok p.
Proof.
  unfold Hdb1StartPayload_decode_fields, Hdb1StartPayload_new. split.
  - intros H. decode_inv H. injection H as -> -> -> <- -> <-. destruct v3. read_fields base64_roundtrip. bool_facts.
    destruct p; simpl in *; subst. split; [done|]. repeat field_step base64_roundtrip. done.
  - intros [(Hl1 & Hl2 & Hl3) H]. decode_inv H. injection H as <-. destruct v. bool_facts. simpl. repeat field_step base64_roundtrip. done.
Qed.

Lemma Hdb1_challenge_iff p bootstrap_id challenge expires_at :
  Hdb1ChallengePayload_decode_fields base64_encode base64_decode p = Ok (bootstrap_id, challenge, expires_at) ↔
  (length bootstrap_id = HDB1_ID_BYTES ∧ length challenge = HDB1_DIGEST_BYTES)
  ∧ Hdb1ChallengePayload_new base64_encode bootstrap_id challenge expires_at = Ok p.
Proof.
  unfold Hdb1ChallengePayload_decode_fields, Hdb1ChallengePayload_new. split.
  - intros H. decode_inv H. injection H as -> -> <-. read_fields base64_roundtrip. bool_facts.
    destruct p as [? ? ? []]; simpl in *; subst. split; [done|]. repeat field_step base64_roundtrip. done.
  - intros [(Hl1 & Hl2) H]. decode_inv H. injection H as <-. bool_facts. simpl. repeat field_step base64_roundtrip. done.
Qed.

Lemma Hdb1_submit_iff p bootstrap_id challenge code :
  Hdb1SubmitPayload_decode_fields base64_encode base64_decode p = Ok (bootstrap_id, challenge, code) ↔
  (length bootstrap_id = HDB1_ID_BYTES ∧ length challenge = HDB1_DIGEST_BYTES)
  ∧ Hdb1SubmitPayload_new base64_encode bootstrap_id challenge code = Ok p.
Proof.
  unfold Hdb1SubmitPayload_decode_fields, Hdb1SubmitPayload_new. split.
  - intros H. decode_inv H. injection H as -> -> <-. destruct v1. read_fields base64_roundtrip. bool_facts.
    destruct p; simpl in *; subst. split; [done|]. repeat field_step base64_roundtrip. done.
  - intros [(Hl1 & Hl2) H]. decode_inv H. injection H as <-. destruct v. bool_facts. simpl. repeat field_step base64_roundtrip. done.
Qed.

Lemma Hdb1_reconcile_iff p approval_id core_binding_digest session :
  Hdb1ReconcilePayload_decode_fields base64_encode base64_decode p = Ok (approval_id, core_binding_digest, session) ↔
  (length approval_id = HDB1_ID_BYTES ∧ length core_binding_digest = HDB1_DIGEST_BYTES)
  ∧ Hdb1ReconcilePayload_new base64_encode approval_id core_binding_digest session = Ok p.
Proof.
  unfold Hdb1ReconcilePayload_decode_fields, Hdb1ReconcilePayload_new. split.
  - intros H. decode_inv H. injection H as -> -> <-. destruct v1. read_fields base64_roundtrip. bool_facts.
    destruct p; simpl in *; subst. split; [done|]. repeat field_step base64_roundtrip. done.
  - intros [(Hl1 & Hl2) H]. decode_inv H. injection H as <-. destruct v. bool_facts. simpl. repeat field_step base64_roundtrip. done.
Qed.

Lemma Hdb1_core_issued_iff p approval_id core_identity chain not_after :
  Hdb1CoreIssuedPayload_decode_fields base64_encode base64_decode p = Ok (approval_id, core_identity, chain, not_after) ↔
  (length approval_id = HDB1_ID_BYTES ∧ length core_identity = HDB1_DIGEST_BYTES)
  ∧ Hdb1CoreIssuedPayload_new base64_encode base64_decode approval_id core_identity chain not_after = Ok p.
Proof.
  unfold Hdb1CoreIssuedPayload_new. split.
  - intros H0. pose proof H0 as H. unfold Hdb1CoreIssuedPayload_decode_fields in H. decode_inv H.
    injection H as -> -> -> <-. read_fields base64_roundtrip. bool_facts.
    destruct p as [? ? ? ? []]; simpl in *; subst. split; [done|]. repeat field_step base64_roundtrip. done.
  - intros [(Hl1 & Hl2) H]. decode_inv H. cbv zeta in H. apply fmap_Ok in H as (fields & Hd & Hp). read_fields base64_roundtrip. bool_facts. subst p. subst.
    unfold Hdb1CoreIssuedPayload_decode_fields. simpl. repeat field_step base64_roundtrip. done.
Qed.

Lemma Hdb1_result_iff p approval_id status core_identity chain not_after code :
  Hdb1ResultPayload_decode_fields base64_encode base64_decode p
    = Ok (approval_id, status, core_identity, chain, not_after, code) ↔
  length approval_id = HDB1_ID_BYTES ∧
  match status with
  | Hdb1ResultPending =>
      core_identity = None ∧ chain = None ∧ not_after = None ∧ code = None
      ∧ Hdb1ResultPayload_new_pending base64_encode approval_id = Ok p
  | Hdb1ResultIssued => ∃ identity certificates expiry,
      core_identity = Some identity ∧ chain = Some certificates ∧ not_after = Some expiry ∧ code = None
      ∧ length identity = HDB1_DIGEST_BYTES
      ∧ Hdb1ResultPayload_new_issued base64_encode base64_decode approval_id identity certificates expiry = Ok p
  | Hdb1ResultRejected => ∃ c,
      core_identity = None ∧ chain = None ∧ not_after = None ∧ code = Some c
      ∧ Hdb1ResultPayload_new_rejected base64_encode approval_id c = Ok p
  end.
Proof.
  unfold Hdb1ResultPayload_decode_fields. split.
  - intros ([] & Hv & H)%bind_Ok. decode_inv H. injection H as -> <- -> -> <- <-. pose proof Hv as Hv0.
    destruct p as [pa ps pc pch pn pr]. unfold Hdb1ResultPayload_validate in Hv. simpl in *. read_fields base64_roundtrip. subst pa.
    split; [done|]. decode_inv Hv. destruct ps.
    + decode_inv Hv. bool_facts. rewrite <-!eq_None_not_Some in *. subst. simpl in *. simplify_eq/=.
      split_and!; try done. unfold Hdb1ResultPayload_new_pending. by rewrite bool_decide_eq_false_2.
    + decode_inv Hv. bool_facts. destruct pc as [ci|], pch as [ch|]; simplify_eq/=. rewrite <-!eq_None_not_Some in *. subst.
      rewrite Hr3 in Hr0. rewrite Hr5 in Hr1. cbn in Hr0, Hr1. injection Hr0 as <-. injection Hr1 as <-.
      destruct pn as [expiry|]; [|done]. exists v1, v3, expiry. simpl in *. read_fields base64_roundtrip. subst. split_and!; try done.
      unfold Hdb1ResultPayload_new_issued. repeat field_step base64_roundtrip. done.
    + decode_inv Hv. bool_facts. rewrite <-!eq_None_not_Some in *. subst. simpl in *. simplify_eq/=.
      destruct pr as [c|]; [|done]. exists c. split_and!; try done.
      unfold Hdb1ResultPayload_new_rejected. repeat field_step base64_roundtrip. done.
  - intros [Hl H]. destruct status.
    + destruct H as (-> & -> & -> & -> & H). unfold Hdb1ResultPayload_new_pending in H. decode_inv H. bool_facts.
      injection H as <-. unfold Hdb1ResultPayload_validate. simpl.
      assert (Hid : decode_base64_exact Hdb1InvalidField base64_encode base64_decode HDB1_ID_BYTES (base64_encode approval_id) = Ok approval_id)
        by field_solve base64_roundtrip.
      rewrite Hid. cbn. rewrite ?bool_decide_eq_false_2 by congruence. try rewrite (proj2 (Z.eqb_neq _ _)) by done. done.
    + destruct H as (identity & certificates & expiry & -> & -> & -> & -> & Hi & H).
      unfold Hdb1ResultPayload_new_issued in H. decode_inv H. cbv zeta in H.
      apply fmap_Ok in H as ([] & Hv & Hp). subst p. read_fields base64_roundtrip. bool_facts. subst.
      rewrite Hv. cbn [mbind outcome_bind]. simpl. repeat field_step base64_roundtrip.
      eapply bind_step; [apply fmap_Ok; eexists; split; [field_solve base64_roundtrip|done]|]. cbn beta.
      eapply bind_step; [apply fmap_Ok; eexists; split; [field_solve base64_roundtrip|done]|]. cbn beta. done.
    + destruct H as (c & -> & -> & -> & -> & H). unfold Hdb1ResultPayload_new_rejected in H. decode_inv H. bool_facts.
      injection H as <-. unfold Hdb1ResultPayload_validate. simpl.
      assert (Hid : decode_base64_exact Hdb1InvalidField base64_encode base64_decode HDB1_ID_BYTES (base64_encode approval_id) = Ok approval_id)
        by field_solve base64_roundtrip.
      rewrite Hid. cbn. rewrite ?bool_decide_eq_false_2 by congruence. try rewrite (proj2 (Z.eqb_neq _ _)) by done. done.
Qed.
End PayloadFacts.
