(* ===== verification/EnrollmentV3Wire.v ===== *)
(** * HDE3 enrollment frames and payloads (src/src/enrollment_v3_wire.rs)

    The frame codec, its stream reader and the JSON payloads of the Core enrollment protocol.
    JSON, base64 and SHA-256 are parameters. *)
From S2P Require Export JsonFrames FieldCodec.

Definition HDE3_MAGIC : list byte := str_lit "HDE3".
Definition HDE3_VERSION : Z := 3.
Definition HDE3_HEADER_BYTES : Z := 11.
Definition HDE3_MAX_FRAME_BYTES : Z := 64 * 1024.
Definition HDE3_MAX_PAYLOAD_BYTES : Z := HDE3_MAX_FRAME_BYTES - HDE3_HEADER_BYTES.
Definition HDE3_MAX_CSR_BYTES : Z := 16 * 1024.
Definition HDE3_DIGEST_BYTES : nat := 32.
Definition HDE3_ID_BYTES : nat := 32.
Definition HDE3_MAX_SESSION_BYTES : Z := 64.
Definition HDE3_MAX_CHAIN_BYTES : Z := 46 * 1024.
Definition HDE3_MAX_CHAIN_CERTIFICATES : Z := 8.

Inductive Hde3Kind : Type :=
| Hde3FirstAppSubmit | Hde3ApprovalStart | Hde3ApprovalChallenge | Hde3ApprovalSubmit | Hde3ConfirmPersisted
| Hde3Reconcile | Hde3Renew | Hde3Result | Hde3Rejected.

#[export] Instance Hde3Kind_eq_dec : EqDecision Hde3Kind.
Proof. solve_decision. Defined.

Inductive Hde3Error : Type :=
| Hde3InvalidFrame | Hde3FrameTooLarge | Hde3InvalidOrder | Hde3InvalidField.

Abbreviation eresult := (outcome Hde3Error).

(** [kind as u8]. *)
Definition Hde3Kind_as_u8 (kind : Hde3Kind) : Z :=
  match kind with
  | Hde3FirstAppSubmit => 1 | Hde3ApprovalStart => 2 | Hde3ApprovalChallenge => 3 | Hde3ApprovalSubmit => 4
  | Hde3ConfirmPersisted => 5 | Hde3Reconcile => 6 | Hde3Renew => 7 | Hde3Result => 8 | Hde3Rejected => 9
  end.

Definition Hde3Kind_try_from (value : Z) : eresult Hde3Kind :=
  match value with
  | 1 => Ok Hde3FirstAppSubmit
  | 2 => Ok Hde3ApprovalStart
  | 3 => Ok Hde3ApprovalChallenge
  | 4 => Ok Hde3ApprovalSubmit
  | 5 => Ok Hde3ConfirmPersisted
  | 6 => Ok Hde3Reconcile
  | 7 => Ok Hde3Renew
  | 8 => Ok Hde3Result
  | 9 => Ok Hde3Rejected
  | _ => Err Hde3InvalidFrame
  end.

#[export] Instance Hde3Kind_kind : FrameKind Hde3Error Hde3Kind :=
  {| kind_as_u8 := Hde3Kind_as_u8; kind_try_from := Hde3Kind_try_from |}.

Definition Hde3Frame : Type := Frame Hde3Kind.

Definition Hde3Frame_encode (f : Hde3Frame) : eresult (list byte) :=
  if HDE3_MAX_PAYLOAD_BYTES <? len (fr_payload f) then Err Hde3FrameTooLarge else
  Ok (HDE3_MAGIC ++ be_bytes 2 HDE3_VERSION ++ [byte_of_Z (Hde3Kind_as_u8 (fr_kind f))]
      ++ be_bytes 4 (len (fr_payload f)) ++ fr_payload f).

Definition Hde3Frame_decode (bytes : list byte) : eresult Hde3Frame :=
  if (len bytes <? HDE3_HEADER_BYTES) || (HDE3_MAX_FRAME_BYTES <? len bytes)
  then Err (if HDE3_MAX_FRAME_BYTES <? len bytes then Hde3FrameTooLarge else Hde3InvalidFrame) else
  magic ← slice bytes 0 4;
  version ← index_u16 bytes 4;
  if bool_decide (magic ≠ HDE3_MAGIC) || negb (version =? HDE3_VERSION) then Err Hde3InvalidFrame else
  tag ← index bytes 6;
  kind ← Hde3Kind_try_from (byte_val tag);
  payload_len ← index_u32 bytes 7;
  if HDE3_MAX_PAYLOAD_BYTES <? payload_len then Err Hde3FrameTooLarge else
  if negb (len bytes =? HDE3_HEADER_BYTES + payload_len) then Err Hde3InvalidFrame else
  payload ← slice_from bytes 11;
  Ok {| fr_kind := kind; fr_payload := payload |}.

(** [read_frame]. *)
Definition Hde3_read_frame : stateful (list byte) Hde3Error Hde3Frame :=
  (let! header := read_exact 11 Hde3InvalidFrame in
   let! payload_len := st_lift (index_u32 header 7) in
   if HDE3_MAX_PAYLOAD_BYTES <? payload_len then st_err Hde3FrameTooLarge else
   let! payload := read_exact (Z.to_nat payload_len) Hde3InvalidFrame in
   st_lift (Hde3Frame_decode (header ++ payload)))%relay.

(** [Hde3Frame::json] and [parse_json]. *)
Definition Hde3Frame_json {T} (to_vec : T → option (list byte)) (kind : Hde3Kind) (value : T) : eresult Hde3Frame :=
  frame_json to_vec Hde3InvalidFrame Hde3FrameTooLarge HDE3_MAX_PAYLOAD_BYTES kind value.
Definition Hde3Frame_parse_json {T} (from_slice : list byte → option T) (frame : Hde3Frame) (expected : Hde3Kind)
  : eresult T :=
  frame_parse_json from_slice Hde3InvalidFrame Hde3InvalidOrder frame expected.

(** ** Payloads *)
Definition Hde3_validate_session (value : list byte) : eresult unit :=
  if bool_decide (value = []) || (HDE3_MAX_SESSION_BYTES <? len value) || bool_decide (value = str_lit ".")
     || bool_decide (value = str_lit "..")
     || negb (forallb (λ b, is_ascii_alphanumeric b || bool_decide (b ∈ [x2e; x5f; x2d])) value)
  then Err Hde3InvalidField else Ok tt.

Record Hde3FirstAppSubmitPayload : Type := {
  hf_approval_id : list byte;
  hf_app_csr : list byte;
  hf_app_csr_digest : list byte;
}.
Record Hde3ApprovalStartPayload : Type := {
  hs_app_csr_digest : list byte;
  hs_normalized_session : list byte;
  hs_core_binding_digest : list byte;
  hs_configuration_generation : Z;
}.
Record Hde3ApprovalChallengePayload : Type := {
  hc_approval_id : list byte;
  hc_challenge : list byte;
  hc_expires_at_epoch_seconds : Z;
}.
Record Hde3ApprovalSubmitPayload : Type := {
  hu_approval_id : list byte;
  hu_challenge : list byte;
  hu_code : list byte;
  hu_app_csr : list byte;
  hu_app_csr_digest : list byte;
}.
Record Hde3ConfirmPersistedPayload : Type := {
  hp_approval_id : list byte;
  hp_app_identity : list byte;
  hp_issued_certificate_fingerprint : list byte;
  hp_issued_certificate_chain_digest : list byte;
  hp_configuration_generation : Z;
}.
Record Hde3ReconcilePayload : Type := {
  hr_approval_id : list byte;
  hr_app_csr_digest : list byte;
  hr_normalized_session : list byte;
  hr_core_binding_digest : list byte;
  hr_configuration_generation : Z;
}.
Record Hde3RenewPayload : Type := {
  hn_existing_app_identity : list byte;
  hn_app_csr : list byte;
  hn_app_csr_digest : list byte;
  hn_normalized_session : list byte;
  hn_core_binding_digest : list byte;
  hn_configuration_generation : Z;
}.

Inductive Hde3ResultStatus : Type := Hde3Pending | Hde3Issued | Hde3Active | Hde3ResultRejected.

#[export] Instance Hde3ResultStatus_eq_dec : EqDecision Hde3ResultStatus.
Proof. solve_decision. Defined.

Record Hde3ResultPayload : Type := {
  ht_approval_id : list byte;
  ht_status : Hde3ResultStatus;
  ht_app_identity : option (list byte);
  ht_certificate_chain : option (list (list byte));
  ht_certificate_fingerprint : option (list byte);
  ht_certificate_chain_digest : option (list byte);
  ht_not_after_epoch_seconds : option Z;
  ht_configuration_generation : option Z;
  ht_rejection_code : option Z;
}.

(** [Hde3IssuedInput] and [Hde3IssuedFields], which have the same fields. *)
Record Hde3IssuedFields : Type := {
  hi_approval_id : list byte;
  hi_app_identity : list byte;
  hi_certificate_chain : list (list byte);
  hi_certificate_fingerprint : list byte;
  hi_certificate_chain_digest : list byte;
  hi_not_after_epoch_seconds : Z;
  hi_configuration_generation : Z;
  hi_active : bool;
}.

Section Payloads.
Context (base64_encode : list byte → list byte) (base64_decode : list byte → option (list byte)).
Context (sha256 : list byte → list byte).

Local Abbreviation base64_exact := (decode_base64_exact Hde3InvalidField base64_encode base64_decode).
Local Abbreviation base64_bounded := (decode_base64_bounded Hde3InvalidField Hde3FrameTooLarge base64_encode base64_decode).
Local Abbreviation hex_exact := (decode_hex_exact Hde3InvalidField).
Local Abbreviation Hde3_decode_certificate_chain :=
  (decode_certificate_chain Hde3InvalidField Hde3FrameTooLarge base64_encode base64_decode
     HDE3_MAX_CHAIN_CERTIFICATES HDE3_MAX_CHAIN_BYTES).

(** [encode_certificate_chain]: unlike HDB1, only the total is bounded. *)
Fixpoint Hde3_encode_certificates (total : Z) (values : list (list byte)) : eresult (list (list byte)) :=
  match values with
  | [] => Ok []
  | value :: values' =>
      if bool_decide (value = []) then Err Hde3InvalidField else
      total ← ok_or (u64_checked_add total (len value)) Hde3FrameTooLarge;
      if HDE3_MAX_CHAIN_BYTES <? total then Err Hde3FrameTooLarge else
      output ← Hde3_encode_certificates total values';
      Ok (base64_encode value :: output)
  end.

Definition Hde3_encode_certificate_chain (values : list (list byte)) : eresult (list (list byte)) :=
  if bool_decide (values = []) || (HDE3_MAX_CHAIN_CERTIFICATES <? len values) then Err Hde3InvalidField
  else Hde3_encode_certificates 0 values.

Definition Hde3_validate_csr_digest (csr expected : list byte) : eresult unit :=
  if bool_decide (sha256 csr = expected) then Ok tt else Err Hde3InvalidField.

Definition Hde3FirstAppSubmitPayload_decode_fields (p : Hde3FirstAppSubmitPayload)
  : eresult (list byte * list byte * list byte) :=
  approval_id ← base64_exact HDE3_ID_BYTES (hf_approval_id p);
  app_csr ← base64_bounded (hf_app_csr p) HDE3_MAX_CSR_BYTES;
  app_csr_digest ← hex_exact HDE3_DIGEST_BYTES (hf_app_csr_digest p);
  _ ← Hde3_validate_csr_digest app_csr app_csr_digest;
  Ok (approval_id, app_csr, app_csr_digest).

Definition Hde3ApprovalStartPayload_validate (p : Hde3ApprovalStartPayload) : eresult unit :=
  _ ← hex_exact HDE3_DIGEST_BYTES (hs_app_csr_digest p);
  _ ← hex_exact HDE3_DIGEST_BYTES (hs_core_binding_digest p);
  _ ← Hde3_validate_session (hs_normalized_session p);
  if hs_configuration_generation p =? 0 then Err Hde3InvalidField else Ok tt.

Definition Hde3ApprovalChallengePayload_new (approval_id challenge : list byte) (expires_at : Z)
  : eresult Hde3ApprovalChallengePayload :=
  if bool_decide (approval_id = zeros HDE3_ID_BYTES) || bool_decide (challenge = zeros HDE3_DIGEST_BYTES)
     || (expires_at =? 0)
  then Err Hde3InvalidField else
  Ok {| hc_approval_id := base64_encode approval_id; hc_challenge := base64_encode challenge;
        hc_expires_at_epoch_seconds := expires_at |}.

Definition Hde3ApprovalChallengePayload_decode_fields (p : Hde3ApprovalChallengePayload)
  : eresult (list byte * list byte * Z) :=
  approval_id ← base64_exact HDE3_ID_BYTES (hc_approval_id p);
  challenge ← base64_exact HDE3_DIGEST_BYTES (hc_challenge p);
  if hc_expires_at_epoch_seconds p =? 0 then Err Hde3InvalidField else
  Ok (approval_id, challenge, hc_expires_at_epoch_seconds p).

Definition Hde3ApprovalSubmitPayload_decode_fields (p : Hde3ApprovalSubmitPayload)
  : eresult (list byte * list byte * list byte * list byte * list byte) :=
  approval_id ← base64_exact HDE3_ID_BYTES (hu_approval_id p);
  challenge ← base64_exact HDE3_DIGEST_BYTES (hu_challenge p);
  _ ← validate_code Hde3InvalidField (hu_code p);
  app_csr ← base64_bounded (hu_app_csr p) HDE3_MAX_CSR_BYTES;
  app_csr_digest ← hex_exact HDE3_DIGEST_BYTES (hu_app_csr_digest p);
  _ ← Hde3_validate_csr_digest app_csr app_csr_digest;
  Ok (approval_id, challenge, hu_code p, app_csr, app_csr_digest).

Definition Hde3ConfirmPersistedPayload_validate (p : Hde3ConfirmPersistedPayload) : eresult unit :=
  _ ← base64_exact HDE3_ID_BYTES (hp_approval_id p);
  _ ← hex_exact HDE3_DIGEST_BYTES (hp_app_identity p);
  _ ← hex_exact HDE3_DIGEST_BYTES (hp_issued_certificate_fingerprint p);
  _ ← hex_exact HDE3_DIGEST_BYTES (hp_issued_certificate_chain_digest p);
  if hp_configuration_generation p =? 0 then Err Hde3InvalidField else Ok tt.

Definition Hde3ReconcilePayload_validate (p : Hde3ReconcilePayload) : eresult unit :=
  _ ← base64_exact HDE3_ID_BYTES (hr_approval_id p);
  _ ← hex_exact HDE3_DIGEST_BYTES (hr_app_csr_digest p);
  _ ← hex_exact HDE3_DIGEST_BYTES (hr_core_binding_digest p);
  _ ← Hde3_validate_session (hr_normalized_session p);
  if hr_configuration_generation p =? 0 then Err Hde3InvalidField else Ok tt.

Definition Hde3RenewPayload_validate (p : Hde3RenewPayload) : eresult unit :=
  _ ← hex_exact HDE3_DIGEST_BYTES (hn_existing_app_identity p);
  csr ← base64_bounded (hn_app_csr p) HDE3_MAX_CSR_BYTES;
  csr_digest ← hex_exact HDE3_DIGEST_BYTES (hn_app_csr_digest p);
  _ ← Hde3_validate_csr_digest csr csr_digest;
  _ ← hex_exact HDE3_DIGEST_BYTES (hn_core_binding_digest p);
  _ ← Hde3_validate_session (hn_normalized_session p);
  if hn_configuration_generation p =? 0 then Err Hde3InvalidField else Ok tt.

(** ** Results *)
Definition Hde3ResultPayload_new_pending (approval_id : list byte) : eresult Hde3ResultPayload :=
  if bool_decide (approval_id = zeros HDE3_ID_BYTES) then Err Hde3InvalidField else
  Ok {| ht_approval_id := base64_encode approval_id; ht_status := Hde3Pending; ht_app_identity := None;
        ht_certificate_chain := None; ht_certificate_fingerprint := None; ht_certificate_chain_digest := None;
        ht_not_after_epoch_seconds := None; ht_configuration_generation := None; ht_rejection_code := None |}.

Definition Hde3ResultPayload_new_issued (input : Hde3IssuedFields) : eresult Hde3ResultPayload :=
  if bool_decide (hi_approval_id input = zeros HDE3_ID_BYTES)
     || bool_decide (hi_app_identity input = zeros HDE3_DIGEST_BYTES)
     || bool_decide (hi_certificate_fingerprint input = zeros HDE3_DIGEST_BYTES)
     || bool_decide (hi_certificate_chain_digest input = zeros HDE3_DIGEST_BYTES)
     || (hi_not_after_epoch_seconds input =? 0) || (hi_configuration_generation input =? 0)
  then Err Hde3InvalidField else
  encoded_chain ← Hde3_encode_certificate_chain (hi_certificate_chain input);
  Ok {| ht_approval_id := base64_encode (hi_approval_id input);
        ht_status := if hi_active input then Hde3Active else Hde3Issued;
        ht_app_identity := Some (encode_hex (hi_app_identity input));
        ht_certificate_chain := Some encoded_chain;
        ht_certificate_fingerprint := Some (encode_hex (hi_certificate_fingerprint input));
        ht_certificate_chain_digest := Some (encode_hex (hi_certificate_chain_digest input));
        ht_not_after_epoch_seconds := Some (hi_not_after_epoch_seconds input);
        ht_configuration_generation := Some (hi_configuration_generation input);
        ht_rejection_code := None |}.

Definition Hde3ResultPayload_new_rejected (approval_id : list byte) (rejection_code : Z) : eresult Hde3ResultPayload :=
  if bool_decide (approval_id = zeros HDE3_ID_BYTES) || (rejection_code =? 0) then Err Hde3InvalidField else
  Ok {| ht_approval_id := base64_encode approval_id; ht_status := Hde3ResultRejected; ht_app_identity := None;
        ht_certificate_chain := None; ht_certificate_fingerprint := None; ht_certificate_chain_digest := None;
        ht_not_after_epoch_seconds := None; ht_configuration_generation := None;
        ht_rejection_code := Some rejection_code |}.

Definition Hde3ResultPayload_validate (p : Hde3ResultPayload) : eresult unit :=
  _ ← base64_exact HDE3_ID_BYTES (ht_approval_id p);
  match ht_status p with
  | Hde3Pending =>
      if bool_decide (is_Some (ht_app_identity p)) || bool_decide (is_Some (ht_certificate_chain p))
         || bool_decide (is_Some (ht_certificate_fingerprint p)) || bool_decide (is_Some (ht_certificate_chain_digest p))
         || bool_decide (is_Some (ht_not_after_epoch_seconds p))
         || bool_decide (is_Some (ht_configuration_generation p)) || bool_decide (is_Some (ht_rejection_code p))
      then Err Hde3InvalidField else Ok tt
  | Hde3Issued | Hde3Active =>
      app_identity ← ok_or (ht_app_identity p) Hde3InvalidField;
      _ ← hex_exact HDE3_DIGEST_BYTES app_identity;
      fingerprint ← ok_or (ht_certificate_fingerprint p) Hde3InvalidField;
      _ ← hex_exact HDE3_DIGEST_BYTES fingerprint;
      chain_digest ← ok_or (ht_certificate_chain_digest p) Hde3InvalidField;
      _ ← hex_exact HDE3_DIGEST_BYTES chain_digest;
      chain ← ok_or (ht_certificate_chain p) Hde3InvalidField;
      _ ← Hde3_decode_certificate_chain chain;
      if (default 0 (ht_not_after_epoch_seconds p) =? 0) || (default 0 (ht_configuration_generation p) =? 0)
         || bool_decide (is_Some (ht_rejection_code p))
      then Err Hde3InvalidField else Ok tt
  | Hde3ResultRejected =>
      if (default 0 (ht_rejection_code p) =? 0)
         || bool_decide (is_Some (ht_app_identity p)) || bool_decide (is_Some (ht_certificate_chain p))
         || bool_decide (is_Some (ht_certificate_fingerprint p)) || bool_decide (is_Some (ht_certificate_chain_digest p))
         || bool_decide (is_Some (ht_not_after_epoch_seconds p)) || bool_decide (is_Some (ht_configuration_generation p))
      then Err Hde3InvalidField else Ok tt
  end.

Definition Hde3ResultPayload_decode_issued_fields (p : Hde3ResultPayload) : eresult (option Hde3IssuedFields) :=
  _ ← Hde3ResultPayload_validate p;
  approval_id ← base64_exact HDE3_ID_BYTES (ht_approval_id p);
  match ht_status p with
  | Hde3Pending | Hde3ResultRejected => Ok None
  | Hde3Issued | Hde3Active =>
      app_identity ← ok_or (ht_app_identity p) Hde3InvalidField;
      app_identity ← hex_exact HDE3_DIGEST_BYTES app_identity;
      chain ← ok_or (ht_certificate_chain p) Hde3InvalidField;
      certificate_chain ← Hde3_decode_certificate_chain chain;
      fingerprint ← ok_or (ht_certificate_fingerprint p) Hde3InvalidField;
      certificate_fingerprint ← hex_exact HDE3_DIGEST_BYTES fingerprint;
      chain_digest ← ok_or (ht_certificate_chain_digest p) Hde3InvalidField;
      certificate_chain_digest ← hex_exact HDE3_DIGEST_BYTES chain_digest;
      not_after ← ok_or (ht_not_after_epoch_seconds p) Hde3InvalidField;
      generation ← ok_or (ht_configuration_generation p) Hde3InvalidField;
      Ok (Some {| hi_approval_id := approval_id; hi_app_identity := app_identity;
                  hi_certificate_chain := certificate_chain; hi_certificate_fingerprint := certificate_fingerprint;
                  hi_certificate_chain_digest := certificate_chain_digest; hi_not_after_epoch_seconds := not_after;
                  hi_configuration_generation := generation; hi_active := bool_decide (ht_status p = Hde3Active) |})
  end.
End Payloads.

(** [Hde3RejectedPayload::new] and [validate]. *)
Definition Hde3RejectedPayload_new (code : Z) : eresult Z := if code =? 0 then Err Hde3InvalidField else Ok code.
Definition Hde3RejectedPayload_validate (code : Z) : eresult unit := if code =? 0 then Err Hde3InvalidField else Ok tt.

(** * Facts *)

(** ** Frames *)
#[export] Instance Hde3Kind_lawful : LawfulKind Hde3Error Hde3Kind.
Proof.
  split.
  - by intros [].
  - intros b k. destruct b; simpl; intros [= <-]; done.
  - intros z. simpl. unfold returns, Hde3Kind_try_from. by repeat case_match.
Qed.

Lemma HDE3_MAX_u32 : 0 ≤ HDE3_MAX_PAYLOAD_BYTES ≤ u32_max.
Proof. by vm_compute. Qed.

(** The codec as written is the reference codec, behind a bound on the whole frame. *)
Lemma Hde3Frame_encode_reference f :
  Hde3Frame_encode f = frame_encode HDE3_MAGIC HDE3_VERSION Hde3FrameTooLarge HDE3_MAX_PAYLOAD_BYTES f.
Proof. done. Qed.

Lemma Hde3Frame_decode_reference bs :
  Hde3Frame_decode bs =
    if HDE3_MAX_FRAME_BYTES <? len bs then Err Hde3FrameTooLarge
    else frame_decode HDE3_MAGIC HDE3_VERSION Hde3InvalidFrame Hde3FrameTooLarge HDE3_MAX_PAYLOAD_BYTES bs.
Proof.
  unfold Hde3Frame_decode, frame_decode. destruct (Z.ltb_spec HDE3_MAX_FRAME_BYTES (len bs)).
  - by rewrite orb_true_r.
  - by rewrite orb_false_r.
Qed.

Lemma Hde3_read_frame_reference stream :
  Hde3_read_frame stream = two_part_read 11 Hde3InvalidFrame Hde3InvalidFrame
    (frame_size Hde3FrameTooLarge HDE3_MAX_PAYLOAD_BYTES) Hde3Frame_decode stream.
Proof.
  unfold Hde3_read_frame, two_part_read, frame_size, st_bind, st_lift, st_err.
  destruct (read_exact 11 _ stream) as [rest [header|e|]]; [|done..].
  destruct (index_u32 header 7) as [n|e|]; [|done..]. cbn [mbind outcome_bind]. by destruct (_ <? _).
Qed.

Lemma Hde3_protocol_lawful :
  lawful_codec (frame_valid HDE3_MAX_PAYLOAD_BYTES) Hde3Frame_encode Hde3Frame_decode
  ∧ frame_reader (frame_valid HDE3_MAX_PAYLOAD_BYTES) Hde3Frame_encode Hde3_read_frame
      (11 + Z.to_nat HDE3_MAX_PAYLOAD_BYTES).
Proof.
  eapply (frame_protocol_lawful (K := Hde3Kind) HDE3_MAGIC HDE3_VERSION Hde3InvalidFrame Hde3FrameTooLarge).
  - done.
  - by vm_compute.
  - apply HDE3_MAX_u32.
  - apply Hde3Frame_encode_reference.
  - right. exists HDE3_MAX_FRAME_BYTES, Hde3FrameTooLarge. split; [by vm_compute|apply Hde3Frame_decode_reference].
  - apply Hde3_read_frame_reference.
Qed.


(** ** Payloads *)
Lemma Hde3_encode_certificates_generic base64_encode total values :
  0 ≤ total →
  Hde3_encode_certificates base64_encode total values
  = encode_certificates Hde3InvalidField Hde3FrameTooLarge base64_encode u64_max HDE3_MAX_CHAIN_BYTES total values.
Proof.
  revert total. induction values as [|value values IH]; intros total Ht; [done|].
  cbn [Hde3_encode_certificates encode_certificates]. pose proof (len_nonneg value) as Hn.
  destruct (bool_decide (value = [])) eqn:Hv; cbn [orb].
  - apply bool_decide_eq_true in Hv as ->. done.
  - destruct (Z.ltb_spec u64_max (len value)).
    + unfold u64_checked_add. rewrite (proj2 (Z.leb_gt _ _)) by lia. done.
    + destruct (u64_checked_add total (len value)) as [t|] eqn:Hadd; [|done]. cbn [ok_or mbind outcome_bind].
      apply u64_checked_add_Some in Hadd as [-> _]. destruct (_ <? _); [done|]. by rewrite IH by lia.
Qed.

Lemma Hde3_encode_certificate_chain_generic base64_encode values :
  Hde3_encode_certificate_chain base64_encode values
  = encode_certificate_chain Hde3InvalidField Hde3FrameTooLarge base64_encode HDE3_MAX_CHAIN_CERTIFICATES u64_max
      HDE3_MAX_CHAIN_BYTES values.
Proof.
  unfold Hde3_encode_certificate_chain, encode_certificate_chain. destruct (_ || _); [done|].
  by apply Hde3_encode_certificates_generic.
Qed.

Section PayloadFacts.
Context (base64_encode : list byte → list byte) (base64_decode : list byte → option (list byte)).
Context (base64_roundtrip : ∀ bytes, base64_decode (base64_encode bytes) = Some bytes).
Context (sha256 : list byte → list byte).

Lemma Hde3_challenge_iff p approval_id challenge expires_at :
  Hde3ApprovalChallengePayload_decode_fields base64_encode base64_decode p = Ok (approval_id, challenge, expires_at) ↔
  (length approval_id = HDE3_ID_BYTES ∧ length challenge = HDE3_DIGEST_BYTES)
  ∧ Hde3ApprovalChallengePayload_new base64_encode approval_id challenge expires_at = Ok p.
Proof.
  unfold Hde3ApprovalChallengePayload_decode_fields, Hde3ApprovalChallengePayload_new. split.
  - intros H. decode_inv H. injection H as -> -> <-. read_fields base64_roundtrip. bool_facts.
    destruct p; simpl in *; subst. split; [done|]. repeat field_step base64_roundtrip. done.
  - intros [(Hl1 & Hl2) H]. decode_inv H. injection H as <-. bool_facts. simpl.
    repeat field_step base64_roundtrip. done.
Qed.

(** An accepted submission is bound to the CSR it carries. *)
Lemma Hde3_submit_bound p approval_id challenge code app_csr digest :
  Hde3ApprovalSubmitPayload_decode_fields base64_encode base64_decode sha256 p
    = Ok (approval_id, challenge, code, app_csr, digest) →
  sha256 app_csr = digest ∧ len app_csr ≤ HDE3_MAX_CSR_BYTES ∧ hu_app_csr p = base64_encode app_csr
  ∧ hu_app_csr_digest p = encode_hex digest.
Proof.
  unfold Hde3ApprovalSubmitPayload_decode_fields, Hde3_validate_csr_digest. intros H. decode_inv H.
  read_fields base64_roundtrip. case_bool_decide; [|done]. by simplify_eq.
Qed.

(** ** Results *)
Definition Hde3IssuedFields_typed (f : Hde3IssuedFields) : Prop :=
  length (hi_approval_id f) = HDE3_ID_BYTES ∧ length (hi_app_identity f) = HDE3_DIGEST_BYTES
  ∧ length (hi_certificate_fingerprint f) = HDE3_DIGEST_BYTES
  ∧ length (hi_certificate_chain_digest f) = HDE3_DIGEST_BYTES.

Lemma Hde3_issued_validate f p :
  Hde3IssuedFields_typed f → Hde3ResultPayload_new_issued base64_encode f = Ok p →
  Hde3ResultPayload_validate base64_encode base64_decode p = Ok tt
  ∧ Hde3ResultPayload_decode_issued_fields base64_encode base64_decode p = Ok (Some f).
Proof.
  intros (H1 & H2 & H3 & H4). unfold Hde3ResultPayload_new_issued. rewrite Hde3_encode_certificate_chain_generic.
  intros H. decode_inv H. injection H as <-. read_fields base64_roundtrip. bool_facts. subst.
  destruct f as [? ? ? ? ? ? ? active]. simpl in *.
  assert (Hv : ∀ q, q = {| ht_approval_id := base64_encode hi_approval_id0;
    ht_status := if active then Hde3Active else Hde3Issued; ht_app_identity := Some (encode_hex hi_app_identity0);
    ht_certificate_chain := Some (base64_encode <$> hi_certificate_chain0);
    ht_certificate_fingerprint := Some (encode_hex hi_certificate_fingerprint0);
    ht_certificate_chain_digest := Some (encode_hex hi_certificate_chain_digest0);
    ht_not_after_epoch_seconds := Some hi_not_after_epoch_seconds0;
    ht_configuration_generation := Some hi_configuration_generation0; ht_rejection_code := None |} →
    Hde3ResultPayload_validate base64_encode base64_decode q = Ok tt).
  { intros q ->. unfold Hde3ResultPayload_validate. cbn [ht_approval_id ht_status]. field_step base64_roundtrip.
    destruct active; cbn; repeat field_step base64_roundtrip; done. }
  rewrite (Hv _ eq_refl). split; [done|]. unfold Hde3ResultPayload_decode_issued_fields.
  rewrite (Hv _ eq_refl). cbn [mbind outcome_bind ht_approval_id ht_status]. field_step base64_roundtrip.
  destruct active; cbn; repeat field_step base64_roundtrip; done.
Qed.

Lemma Hde3_decode_issued p f :
  Hde3ResultPayload_decode_issued_fields base64_encode base64_decode p = Ok (Some f) →
  Hde3IssuedFields_typed f ∧ Hde3ResultPayload_new_issued base64_encode f = Ok p.
Proof.
  unfold Hde3ResultPayload_decode_issued_fields. intros ([] & Hv & H)%bind_Ok.
  unfold Hde3ResultPayload_validate in Hv.
  destruct p as [pa ps pi pch pf pd pn pg pr]. simpl in *. apply bind_Ok in H as (approval & Hid & H). apply bind_Ok in Hv as (approval0 & _ & Hv).
  assert (Hs : ps = Hde3Issued ∨ ps = Hde3Active) by (destruct ps; [discriminate|auto|auto|discriminate]).
  assert (∃ identity fingerprint digest chain expiry generation,
    pi = Some identity ∧ pf = Some fingerprint ∧ pd = Some digest ∧ pch = Some chain ∧ pn = Some expiry
    ∧ pg = Some generation ∧ pr = None ∧ expiry ≠ 0 ∧ generation ≠ 0)
    as (identity & fingerprint & digest & chain & expiry & generation & -> & -> & -> & -> & -> & -> & -> & He & Hg).
  { destruct Hs as [-> | ->]; decode_inv Hv; decode_inv H; bool_facts;
      repeat match goal with
      | Hn : ¬ is_Some _ |- _ => apply eq_None_not_Some in Hn
      | Hn : ok_or _ _ = Ok _ |- _ => apply ok_or_Ok in Hn
      end; subst; simpl in *; eauto 20. }
  clear Hv. destruct Hs as [-> | ->]; decode_inv H; simplify_eq/=; read_fields base64_roundtrip; subst;
    (split; [done|]); unfold Hde3ResultPayload_new_issued;
    cbn [hi_approval_id hi_app_identity hi_certificate_chain hi_certificate_fingerprint hi_certificate_chain_digest
         hi_not_after_epoch_seconds hi_configuration_generation hi_active]; rewrite Hde3_encode_certificate_chain_generic;
    repeat field_step base64_roundtrip; done.
Qed.

Lemma Hde3_validate_status p :
  Hde3ResultPayload_validate base64_encode base64_decode p = Ok tt ↔
  (∃ approval_id, length approval_id = HDE3_ID_BYTES ∧ Hde3ResultPayload_new_pending base64_encode approval_id = Ok p)
  ∨ (∃ f, Hde3IssuedFields_typed f ∧ Hde3ResultPayload_new_issued base64_encode f = Ok p)
  ∨ (∃ approval_id code, length approval_id = HDE3_ID_BYTES
       ∧ Hde3ResultPayload_new_rejected base64_encode approval_id code = Ok p).
Proof.
  split.
  - intros Hv. assert (Hd : ∀ f, Hde3ResultPayload_decode_issued_fields base64_encode base64_decode p = Ok (Some f) →
      ∃ f, Hde3IssuedFields_typed f ∧ Hde3ResultPayload_new_issued base64_encode f = Ok p).
    { intros f Hf%Hde3_decode_issued. by exists f. }
    unfold Hde3ResultPayload_decode_issued_fields in Hd. rewrite Hv in Hd. cbn [mbind outcome_bind] in Hd.
    unfold Hde3ResultPayload_validate in Hv.
    destruct p as [pa ps pi pch pf pd pn pg pr]. simpl in *. decode_inv Hv. destruct ps.
    + left. exists v. decode_inv Hv. bool_facts. read_fields base64_roundtrip. split; [done|].
      unfold Hde3ResultPayload_new_pending. field_step base64_roundtrip.
      repeat match goal with Hn : ¬ is_Some _ |- _ => apply eq_None_not_Some in Hn end. by subst.
    + right; left. decode_inv Hv. bool_facts. simplify_eq/=. destruct pn, pg; try done.
      eapply Hd. repeat (eapply bind_step; [eassumption || reflexivity|]; cbn beta). done.
    + right; left. decode_inv Hv. bool_facts. simplify_eq/=. destruct pn, pg; try done.
      eapply Hd. repeat (eapply bind_step; [eassumption || reflexivity|]; cbn beta). done.
    + right; right. decode_inv Hv. bool_facts. destruct pr as [c|]; [|done]. exists v, c.
      read_fields base64_roundtrip. split; [done|].
      unfold Hde3ResultPayload_new_rejected. field_step base64_roundtrip.
      repeat match goal with Hn : ¬ is_Some _ |- _ => apply eq_None_not_Some in Hn end. by subst.
  - intros [(approval_id & Hl & H)|[(f & Ht & H)|(approval_id & c & Hl & H)]].
    + unfold Hde3ResultPayload_new_pending in H. decode_inv H. injection H as <-. bool_facts.
      unfold Hde3ResultPayload_validate. cbn. field_step base64_roundtrip. done.
    + by apply (Hde3_issued_validate f).
    + unfold Hde3ResultPayload_new_rejected in H. decode_inv H. injection H as <-. bool_facts.
      unfold Hde3ResultPayload_validate. cbn. repeat field_step base64_roundtrip. done.
Qed.
End PayloadFacts.
