(* ===== verification/EnrollmentWire.v ===== *)
(** * HDE1 enrollment and reconciliation frames
      (src/src/enrollment_wire.rs, src/src/reconciliation_wire.rs)

    Two versions of one frame format: the enrollment frames (version 1) and the
    reconciliation frames (version 2), both with a payload bound the caller gives, and the
    contract of a reconciliation result. *)
From S2P Require Export JsonFrames.
From S2P Require Import Enrollment.

(** ** Enrollment frames *)
Definition ENROLLMENT_MAGIC : list byte := str_lit "HDE1".
Definition ENROLLMENT_VERSION : Z := 1.
Definition ENROLLMENT_HEADER_BYTES : Z := 11.

Inductive EnrollmentFrameKind : Type :=
| EnrollmentChallenge | EnrollmentSubmit | EnrollmentIssued | EnrollmentRejected.

#[export] Instance EnrollmentFrameKind_eq_dec : EqDecision EnrollmentFrameKind.
Proof. solve_decision. Defined.

Inductive EnrollmentWireError : Type :=
| EwInvalidFrame | EwFrameTooLarge | EwInvalidOrder | EwAuthorizationRejected | EwPersistenceFailed | EwResourceLimit.

(** [From<EnrollmentError>]. *)
Definition EnrollmentWireError_from (error : EnrollmentError) : EnrollmentWireError :=
  match error with
  | AllowlistPersistence => EwPersistenceFailed
  | UpdateBusy => EwResourceLimit
  | _ => EwAuthorizationRejected
  end.

(** [kind as u8]. *)
Definition EnrollmentFrameKind_as_u8 (kind : EnrollmentFrameKind) : Z :=
  match kind with
  | EnrollmentChallenge => 1 | EnrollmentSubmit => 2 | EnrollmentIssued => 3 | EnrollmentRejected => 4
  end.

Definition EnrollmentFrameKind_try_from (value : Z) : outcome EnrollmentWireError EnrollmentFrameKind :=
  match value with
  | 1 => Ok EnrollmentChallenge
  | 2 => Ok EnrollmentSubmit
  | 3 => Ok EnrollmentIssued
  | 4 => Ok EnrollmentRejected
  | _ => Err EwInvalidFrame
  end.

#[export] Instance EnrollmentFrameKind_kind : FrameKind EnrollmentWireError EnrollmentFrameKind :=
  {| kind_as_u8 := EnrollmentFrameKind_as_u8; kind_try_from := EnrollmentFrameKind_try_from |}.

Definition EnrollmentFrame : Type := Frame EnrollmentFrameKind.

Definition EnrollmentFrame_encode (max_bytes : Z) (f : EnrollmentFrame) : outcome EnrollmentWireError (list byte) :=
  if (max_bytes <? len (fr_payload f)) || (u32_max <? len (fr_payload f)) then Err EwFrameTooLarge else
  Ok (ENROLLMENT_MAGIC ++ be_bytes 2 ENROLLMENT_VERSION ++ [byte_of_Z (EnrollmentFrameKind_as_u8 (fr_kind f))]
      ++ be_bytes 4 (len (fr_payload f)) ++ fr_payload f).

Definition EnrollmentFrame_decode (max_bytes : Z) (bytes : list byte) : outcome EnrollmentWireError EnrollmentFrame :=
  if len bytes <? ENROLLMENT_HEADER_BYTES then Err EwInvalidFrame else
  magic ← slice bytes 0 4;
  version ← index_u16 bytes 4;
  if bool_decide (magic ≠ ENROLLMENT_MAGIC) || negb (version =? ENROLLMENT_VERSION) then Err EwInvalidFrame else
  tag ← index bytes 6;
  kind ← EnrollmentFrameKind_try_from (byte_val tag);
  payload_len ← index_u32 bytes 7;
  if (max_bytes <? payload_len) || negb (len bytes =? ENROLLMENT_HEADER_BYTES + payload_len)
  then Err (if max_bytes <? payload_len then EwFrameTooLarge else EwInvalidFrame) else
  payload ← slice_from bytes 11;
  Ok {| fr_kind := kind; fr_payload := payload |}.

(** [read_frame]. *)
Definition Enrollment_read_frame (max_bytes : Z) : stateful (list byte) EnrollmentWireError EnrollmentFrame :=
  (let! header := read_exact 11 EwInvalidFrame in
   let! payload_len := st_lift (index_u32 header 7) in
   if max_bytes <? payload_len then st_err EwFrameTooLarge else
   let! payload := read_exact (Z.to_nat payload_len) EwInvalidFrame in
   st_lift (EnrollmentFrame_decode max_bytes (header ++ payload)))%relay.

(** [EnrollmentFrame::json] and [parse_json]. *)
Definition EnrollmentFrame_json {T} (to_vec : T → option (list byte)) (kind : EnrollmentFrameKind) (value : T)
    (max_bytes : Z) : outcome EnrollmentWireError EnrollmentFrame :=
  frame_json to_vec EwInvalidFrame EwFrameTooLarge max_bytes kind value.
Definition EnrollmentFrame_parse_json {T} (from_slice : list byte → option T) (frame : EnrollmentFrame)
    (expected : EnrollmentFrameKind) : outcome EnrollmentWireError T :=
  frame_parse_json from_slice EwInvalidFrame EwInvalidOrder frame expected.

(** ** Reconciliation frames *)
Definition RECONCILIATION_MAGIC : list byte := str_lit "HDE1".
Definition RECONCILIATION_VERSION : Z := 2.
Definition RECONCILIATION_HEADER_BYTES : Z := 11.
Definition MAX_RECONCILIATION_CHAIN_BYTES : Z := 48 * 1024.

Inductive ReconciliationFrameKind : Type := ReconciliationReconcile | ReconciliationResult.

#[export] Instance ReconciliationFrameKind_eq_dec : EqDecision ReconciliationFrameKind.
Proof. solve_decision. Defined.

Inductive ReconciliationWireError : Type :=
| RwInvalidFrame | RwFrameTooLarge | RwInvalidOrder | RwInvalidResult.

(** [kind as u8]. *)
Definition ReconciliationFrameKind_as_u8 (kind : ReconciliationFrameKind) : Z :=
  match kind with
  | ReconciliationReconcile => 5 | ReconciliationResult => 6
  end.

Definition ReconciliationFrameKind_try_from (value : Z) : outcome ReconciliationWireError ReconciliationFrameKind :=
  match value with
  | 5 => Ok ReconciliationReconcile
  | 6 => Ok ReconciliationResult
  | _ => Err RwInvalidFrame
  end.

#[export] Instance ReconciliationFrameKind_kind : FrameKind ReconciliationWireError ReconciliationFrameKind :=
  {| kind_as_u8 := ReconciliationFrameKind_as_u8; kind_try_from := ReconciliationFrameKind_try_from |}.

Definition ReconciliationFrame : Type := Frame ReconciliationFrameKind.

Definition ReconciliationFrame_encode (max_bytes : Z) (f : ReconciliationFrame)
  : outcome ReconciliationWireError (list byte) :=
  if (max_bytes <? len (fr_payload f)) || (u32_max <? len (fr_payload f)) then Err RwFrameTooLarge else
  Ok (RECONCILIATION_MAGIC ++ be_bytes 2 RECONCILIATION_VERSION
      ++ [byte_of_Z (ReconciliationFrameKind_as_u8 (fr_kind f))]
      ++ be_bytes 4 (len (fr_payload f)) ++ fr_payload f).

(** The source tests the length, the magic and the version in one condition; the later tests
    run only when the earlier ones pass. *)
Definition ReconciliationFrame_decode (max_bytes : Z) (bytes : list byte)
  : outcome ReconciliationWireError ReconciliationFrame :=
  if len bytes <? RECONCILIATION_HEADER_BYTES then Err RwInvalidFrame else
  magic ← slice bytes 0 4;
  version ← index_u16 bytes 4;
  if bool_decide (magic ≠ RECONCILIATION_MAGIC) || negb (version =? RECONCILIATION_VERSION)
  then Err RwInvalidFrame else
  tag ← index bytes 6;
  kind ← ReconciliationFrameKind_try_from (byte_val tag);
  payload_len ← index_u32 bytes 7;
  if (max_bytes <? payload_len) || negb (len bytes =? RECONCILIATION_HEADER_BYTES + payload_len)
  then Err (if max_bytes <? payload_len then RwFrameTooLarge else RwInvalidFrame) else
  payload ← slice_from bytes 11;
  Ok {| fr_kind := kind; fr_payload := payload |}.

(** [read_frame]. *)
Definition Reconciliation_read_frame (max_bytes : Z)
  : stateful (list byte) ReconciliationWireError ReconciliationFrame :=
  (let! header := read_exact 11 RwInvalidFrame in
   let! payload_len := st_lift (index_u32 header 7) in
   if max_bytes <? payload_len then st_err RwFrameTooLarge else
   let! payload := read_exact (Z.to_nat payload_len) RwInvalidFrame in
   st_lift (ReconciliationFrame_decode max_bytes (header ++ payload)))%relay.

(** [ReconciliationFrame::json] and [parse_json]. *)
Definition ReconciliationFrame_json {T} (to_vec : T → option (list byte)) (kind : ReconciliationFrameKind) (value : T)
    (max_bytes : Z) : outcome ReconciliationWireError ReconciliationFrame :=
  frame_json to_vec RwInvalidFrame RwFrameTooLarge max_bytes kind value.
Definition ReconciliationFrame_parse_json {T} (from_slice : list byte → option T) (frame : ReconciliationFrame)
    (expected : ReconciliationFrameKind) : outcome ReconciliationWireError T :=
  frame_parse_json from_slice RwInvalidFrame RwInvalidOrder frame expected.

(** ** Reconciliation results *)
Inductive ReconciliationStatus : Type := RsPending | RsIssued | RsRejected.

Record ReconciliationResultPayload : Type := {
  rr_status : ReconciliationStatus;
  rr_certificate_chain : list (list byte);
  rr_fingerprint : option (list byte);
  rr_allowlist_generation : option Z;
  rr_not_after_epoch_seconds : option Z;
  rr_rejection_code : option Z;
}.

(** The [try_fold] over the chain. *)
Fixpoint chain_total (total : Z) (chain : list (list byte)) : option Z :=
  match chain with
  | [] => Some total
  | certificate :: chain' => t ← u64_checked_add total (len certificate); chain_total t chain'
  end.

Definition is_some_and {A} (f : A → bool) (o : option A) : bool :=
  match o with
  | Some a => f a
  | None => false
  end.

Definition ReconciliationResultPayload_validate (p : ReconciliationResultPayload)
  : outcome ReconciliationWireError unit :=
  total ← ok_or (chain_total 0 (rr_certificate_chain p)) RwFrameTooLarge;
  if (MAX_RECONCILIATION_CHAIN_BYTES <? total)
     || existsb (λ certificate, bool_decide (certificate = [])) (rr_certificate_chain p)
  then Err RwFrameTooLarge else
  let valid :=
    match rr_status p with
    | RsPending =>
        bool_decide (rr_certificate_chain p = []) && bool_decide (rr_fingerprint p = None)
        && bool_decide (rr_allowlist_generation p = None) && bool_decide (rr_not_after_epoch_seconds p = None)
        && bool_decide (rr_rejection_code p = None)
    | RsIssued =>
        bool_decide (rr_certificate_chain p ≠ [])
        && is_some_and (λ fingerprint, bool_decide (fingerprint ≠ zeros 32)) (rr_fingerprint p)
        && is_some_and (λ generation, 0 <? generation) (rr_allowlist_generation p)
        && is_some_and (λ expiry, 0 <? expiry) (rr_not_after_epoch_seconds p)
        && bool_decide (rr_rejection_code p = None)
    | RsRejected =>
        bool_decide (rr_certificate_chain p = []) && bool_decide (rr_fingerprint p = None)
        && bool_decide (rr_allowlist_generation p = None) && bool_decide (rr_not_after_epoch_seconds p = None)
        && is_some_and (λ code, 0 <? code) (rr_rejection_code p)
    end in
  if valid then Ok tt else Err RwInvalidResult.

(** * Facts *)

(** The bound of the caller and the bound of the length field together. *)
Lemma ltb_min max n : (Z.min max u32_max <? n) = (max <? n) || (u32_max <? n).
Proof. destruct (Z.ltb_spec max n), (Z.ltb_spec u32_max n); simpl; (apply Z.ltb_lt || apply Z.ltb_ge); lia. Qed.

Lemma ltb_min_u32 max n : is_u32 n → (Z.min max u32_max <? n) = (max <? n).
Proof. intros Hn. rewrite ltb_min, (proj2 (Z.ltb_ge u32_max n)) by (unfold_widths; lia). by rewrite orb_false_r. Qed.

(** Step through two decoders that agree up to the test of the payload length. *)
Local Ltac bounded_steps bs :=
  destruct (_ <? _); [done|];
  destruct (slice bs 0 4) as [m|e|]; [|done..]; cbn [mbind outcome_bind];
  destruct (index_u16 bs 4) as [v|e|]; [|done..]; cbn [mbind outcome_bind];
  destruct (_ || _); [done|];
  destruct (index bs 6) as [t|e|]; [|done..]; cbn [mbind outcome_bind kind_try_from EnrollmentFrameKind_kind ReconciliationFrameKind_kind];
  match goal with |- (_ ← ?kd; _) = _ => destruct kd as [k|e|]; [|done..] end; cbn [mbind outcome_bind];
  destruct (index_u32 bs 7) as [n|e|] eqn:Hn; [|done..]; cbn [mbind outcome_bind];
  apply index_u32_Ok in Hn as [Hn _]; rewrite ltb_min_u32 by done;
  destruct (_ <? _); [done|]; cbn [orb]; reflexivity.

(** ** Enrollment frames *)
#[export] Instance EnrollmentFrameKind_lawful : LawfulKind EnrollmentWireError EnrollmentFrameKind.
Proof.
  split.
  - by intros [].
  - intros b k. destruct b; simpl; intros [= <-]; done.
  - intros z. simpl. unfold returns, EnrollmentFrameKind_try_from. by repeat case_match.
Qed.

Lemma EnrollmentFrame_encode_reference max_bytes f :
  0 ≤ max_bytes →
  EnrollmentFrame_encode max_bytes f = frame_encode ENROLLMENT_MAGIC ENROLLMENT_VERSION EwFrameTooLarge (Z.min max_bytes u32_max) f.
Proof. intros Hm. unfold EnrollmentFrame_encode, frame_encode. by rewrite ltb_min. Qed.

Lemma EnrollmentFrame_decode_reference max_bytes bs :
  0 ≤ max_bytes →
  EnrollmentFrame_decode max_bytes bs
  = frame_decode ENROLLMENT_MAGIC ENROLLMENT_VERSION EwInvalidFrame EwFrameTooLarge (Z.min max_bytes u32_max) bs.
Proof.
  intros Hm. unfold EnrollmentFrame_decode, frame_decode. bounded_steps bs.
Qed.

Lemma Enrollment_read_frame_reference max_bytes stream :
  0 ≤ max_bytes →
  Enrollment_read_frame max_bytes stream = two_part_read 11 EwInvalidFrame EwInvalidFrame
    (frame_size EwFrameTooLarge (Z.min max_bytes u32_max)) (EnrollmentFrame_decode max_bytes) stream.
Proof.
  intros Hm. unfold Enrollment_read_frame, two_part_read, frame_size, st_bind, st_lift, st_err.
  destruct (read_exact 11 _ stream) as [rest [header|e|]]; [|done..].
  destruct (index_u32 header 7) as [n|e|] eqn:Hn; [|done..]. cbn [mbind outcome_bind].
  apply index_u32_Ok in Hn as [Hn _]. rewrite ltb_min_u32 by done. by destruct (_ <? _).
Qed.

Lemma Enrollment_protocol_lawful max_bytes :
  0 ≤ max_bytes →
  lawful_codec (frame_valid (Z.min max_bytes u32_max)) (EnrollmentFrame_encode max_bytes) (EnrollmentFrame_decode max_bytes)
  ∧ frame_reader (frame_valid (Z.min max_bytes u32_max)) (EnrollmentFrame_encode max_bytes) (Enrollment_read_frame max_bytes)
      (11 + Z.to_nat (Z.min max_bytes u32_max)).
Proof.
  intros Hm. eapply (frame_protocol_lawful (K := EnrollmentFrameKind) ENROLLMENT_MAGIC ENROLLMENT_VERSION EwInvalidFrame EwFrameTooLarge).
  - done.
  - by vm_compute.
  - unfold_widths. lia.
  - intros f. by apply EnrollmentFrame_encode_reference.
  - left. intros bs. by apply EnrollmentFrame_decode_reference.
  - intros stream. by apply Enrollment_read_frame_reference.
Qed.

(** ** Reconciliation frames *)
#[export] Instance ReconciliationFrameKind_lawful : LawfulKind ReconciliationWireError ReconciliationFrameKind.
Proof.
  split.
  - by intros [].
  - intros b k. destruct b; simpl; intros [= <-]; done.
  - intros z. simpl. unfold returns, ReconciliationFrameKind_try_from. by repeat case_match.
Qed.

Lemma ReconciliationFrame_encode_reference max_bytes f :
  0 ≤ max_bytes →
  ReconciliationFrame_encode max_bytes f = frame_encode RECONCILIATION_MAGIC RECONCILIATION_VERSION RwFrameTooLarge (Z.min max_bytes u32_max) f.
Proof. intros Hm. unfold ReconciliationFrame_encode, frame_encode. by rewrite ltb_min. Qed.

Lemma ReconciliationFrame_decode_reference max_bytes bs :
  0 ≤ max_bytes →
  ReconciliationFrame_decode max_bytes bs
  = frame_decode RECONCILIATION_MAGIC RECONCILIATION_VERSION RwInvalidFrame RwFrameTooLarge (Z.min max_bytes u32_max) bs.
Proof.
  intros Hm. unfold ReconciliationFrame_decode, frame_decode. bounded_steps bs.
Qed.

Lemma Reconciliation_read_frame_reference max_bytes stream :
  0 ≤ max_bytes →
  Reconciliation_read_frame max_bytes stream = two_part_read 11 RwInvalidFrame RwInvalidFrame
    (frame_size RwFrameTooLarge (Z.min max_bytes u32_max)) (ReconciliationFrame_decode max_bytes) stream.
Proof.
  intros Hm. unfold Reconciliation_read_frame, two_part_read, frame_size, st_bind, st_lift, st_err.
  destruct (read_exact 11 _ stream) as [rest [header|e|]]; [|done..].
  destruct (index_u32 header 7) as [n|e|] eqn:Hn; [|done..]. cbn [mbind outcome_bind].
  apply index_u32_Ok in Hn as [Hn _]. rewrite ltb_min_u32 by done. by destruct (_ <? _).
Qed.

Lemma Reconciliation_protocol_lawful max_bytes :
  0 ≤ max_bytes →
  lawful_codec (frame_valid (Z.min max_bytes u32_max)) (ReconciliationFrame_encode max_bytes) (ReconciliationFrame_decode max_bytes)
  ∧ frame_reader (frame_valid (Z.min max_bytes u32_max)) (ReconciliationFrame_encode max_bytes) (Reconciliation_read_frame max_bytes)
      (11 + Z.to_nat (Z.min max_bytes u32_max)).
Proof.
  intros Hm. eapply (frame_protocol_lawful (K := ReconciliationFrameKind) RECONCILIATION_MAGIC RECONCILIATION_VERSION RwInvalidFrame RwFrameTooLarge).
  - done.
  - by vm_compute.
  - unfold_widths. lia.
  - intros f. by apply ReconciliationFrame_encode_reference.
  - left. intros bs. by apply ReconciliationFrame_decode_reference.
  - intros stream. by apply Reconciliation_read_frame_reference.
Qed.

(** ** Reconciliation results *)
Lemma chain_total_Some total chain t :
  0 ≤ total ≤ u64_max → chain_total total chain = Some t ↔ t = total + len (concat chain) ∧ t ≤ u64_max.
Proof.
  revert total. induction chain as [|c chain IH]; intros total Ht; cbn [chain_total].
  - unfold len. simpl. rewrite Z.add_0_r. split; [intros [= <-]; lia|by intros [-> _]].
  - assert (len (concat (c :: chain)) = len c + len (concat chain)) as ->
      by (unfold len; cbn [concat]; rewrite length_app; lia).
    pose proof (len_nonneg c). pose proof (len_nonneg (concat chain)). unfold u64_checked_add.
    destruct (Z.leb_spec (total + len c) u64_max); cbn [mbind option_bind].
    + rewrite IH by lia. by rewrite Z.add_assoc.
    + split; [done|]. lia.
Qed.

(** What the fields of a result may be, by its status. *)
Definition result_contract (p : ReconciliationResultPayload) : Prop :=
  Forall (λ c, c ≠ []) (rr_certificate_chain p)
  ∧ len (concat (rr_certificate_chain p)) ≤ MAX_RECONCILIATION_CHAIN_BYTES
  ∧ match rr_status p with
    | RsPending =>
        rr_certificate_chain p = [] ∧ rr_fingerprint p = None ∧ rr_allowlist_generation p = None
        ∧ rr_not_after_epoch_seconds p = None ∧ rr_rejection_code p = None
    | RsIssued =>
        rr_certificate_chain p ≠ [] ∧ rr_rejection_code p = None
        ∧ ∃ fingerprint generation expiry, rr_fingerprint p = Some fingerprint ∧ fingerprint ≠ zeros 32
          ∧ rr_allowlist_generation p = Some generation ∧ 0 < generation
          ∧ rr_not_after_epoch_seconds p = Some expiry ∧ 0 < expiry
    | RsRejected =>
        rr_certificate_chain p = [] ∧ rr_fingerprint p = None ∧ rr_allowlist_generation p = None
        ∧ rr_not_after_epoch_seconds p = None ∧ ∃ code, rr_rejection_code p = Some code ∧ 0 < code
    end.

Lemma is_some_and_true {A} (f : A → bool) o : is_some_and f o = true ↔ ∃ a, o = Some a ∧ f a = true.
Proof. destruct o; simpl; naive_solver. Qed.

Lemma existsb_empty (chain : list (list byte)) :
  existsb (λ c, bool_decide (c = [])) chain = false ↔ Forall (λ c, c ≠ []) chain.
Proof.
  induction chain as [|c chain IH]; simpl; [by split|].
  rewrite orb_false_iff, bool_decide_eq_false, Forall_cons. by rewrite IH.
Qed.

Lemma reconciliation_validate_iff p :
  ReconciliationResultPayload_validate p = Ok tt ↔ result_contract p.
Proof.
  unfold ReconciliationResultPayload_validate, result_contract.
  pose proof (len_nonneg (concat (rr_certificate_chain p))) as Hn.
  split.
  - intros (total & Ht%ok_or_Ok & H)%bind_Ok. apply chain_total_Some in Ht as [-> Ht]; [|unfold_widths; lia].
    destruct (_ || _) eqn:Hc; [done|]. bool_facts.
    split_and!; [by apply existsb_empty|lia|]. cbv zeta in H.
    destruct (rr_status p); [destruct (_ && _) eqn:Hv in H|destruct (_ && _) eqn:Hv in H|destruct (_ && _) eqn:Hv in H];
      try done; rewrite ?andb_true_iff, ?is_some_and_true, ?bool_decide_eq_true in Hv; [tauto| |];
      setoid_rewrite Z.ltb_lt in Hv; [setoid_rewrite bool_decide_eq_true in Hv|]; naive_solver.
  - intros (Hf & Hl & H). eapply bind_step.
    { apply ok_or_Ok, chain_total_Some; [unfold_widths; lia|]. split; [done|].
      revert Hl. unfold MAX_RECONCILIATION_CHAIN_BYTES. unfold_widths. lia. }
    cbn beta.     rewrite (proj2 (Z.ltb_ge _ _)) by lia. rewrite (proj2 (existsb_empty _) Hf). cbn [orb]. cbv zeta.
    match goal with |- (if ?b then _ else _) = _ => assert (b = true) as ->; [|done] end.
    destruct (rr_status p); rewrite ?andb_true_iff, ?is_some_and_true, ?bool_decide_eq_true; [tauto| |];
      setoid_rewrite Z.ltb_lt; [setoid_rewrite bool_decide_eq_true|]; naive_solver.
Qed.
