(* ===== verification/WireProtocols.v ===== *)
(** * The JSON protocols together

    The four protocols that share the frame layout of JsonFrames.v (HDB1 bootstrap, HDE3
    enrollment, HDE1 enrollment and HDE1 reconciliation): their codecs against the reference,
    that no byte string is a frame of two of them, and what their payload decoders accept. *)
From S2P Require Export BootstrapWire EnrollmentV3Wire EnrollmentWire.

Inductive Protocol : Type := Hdb1Protocol | Hde3Protocol | EnrollmentProtocol | ReconciliationProtocol.

(** Whether a protocol takes the bytes for a frame, at the bounds of the configuration. *)
Definition accepts (max_bytes : Z) (p : Protocol) (bytes : list byte) : bool :=
  match p with
  | Hdb1Protocol => match Hdb1Frame_decode bytes with Ok _ => true | _ => false end
  | Hde3Protocol => match Hde3Frame_decode bytes with Ok _ => true | _ => false end
  | EnrollmentProtocol => match EnrollmentFrame_decode max_bytes bytes with Ok _ => true | _ => false end
  | ReconciliationProtocol => match ReconciliationFrame_decode max_bytes bytes with Ok _ => true | _ => false end
  end.

Definition protocol_prefix (p : Protocol) : list byte :=
  match p with
  | Hdb1Protocol => HDB1_MAGIC ++ be_bytes 2 HDB1_VERSION
  | Hde3Protocol => HDE3_MAGIC ++ be_bytes 2 HDE3_VERSION
  | EnrollmentProtocol => ENROLLMENT_MAGIC ++ be_bytes 2 ENROLLMENT_VERSION
  | ReconciliationProtocol => RECONCILIATION_MAGIC ++ be_bytes 2 RECONCILIATION_VERSION
  end.

(** * Facts *)
Lemma take_prefix (bytes magic version : list byte) :
  take 4 bytes = magic ∧ take 2 (drop 4 bytes) = version → take 6 bytes = magic ++ version.
Proof. intros [<- <-]. by rewrite (take_take_drop bytes 4 2). Qed.

Lemma accepts_prefix max_bytes p bytes :
  0 ≤ max_bytes → accepts max_bytes p bytes = true → take 6 bytes = protocol_prefix p.
Proof.
  intros Hm. destruct p; cbn [accepts protocol_prefix].
  - rewrite Hdb1Frame_decode_reference. destruct (_ <? _); [done|].
    destruct (frame_decode _ _ _ _ _ _) eqn:Hd; [|done..]. intros _. exact (take_prefix _ _ _ (frame_decode_prefix _ _ _ _ _ _ _ Hd)).
  - rewrite Hde3Frame_decode_reference. destruct (_ <? _); [done|].
    destruct (frame_decode _ _ _ _ _ _) eqn:Hd; [|done..]. intros _. exact (take_prefix _ _ _ (frame_decode_prefix _ _ _ _ _ _ _ Hd)).
  - rewrite EnrollmentFrame_decode_reference by done.
    destruct (frame_decode _ _ _ _ _ _) eqn:Hd; [|done..]. intros _. exact (take_prefix _ _ _ (frame_decode_prefix _ _ _ _ _ _ _ Hd)).
  - rewrite ReconciliationFrame_decode_reference by done.
    destruct (frame_decode _ _ _ _ _ _) eqn:Hd; [|done..]. intros _. exact (take_prefix _ _ _ (frame_decode_prefix _ _ _ _ _ _ _ Hd)).
Qed.

Lemma protocol_prefix_inj p1 p2 : protocol_prefix p1 = protocol_prefix p2 → p1 = p2.
Proof. by destruct p1, p2. Qed.

(** A JSON layer with one value, for the witnesses. *)
Definition unit_to_vec (_ : unit) : option (list byte) := Some (str_lit "null").

(** * Properties *)

(** C16. The four frame codecs are one codec.  Each decoder returns what the reference decoder
    of the shared layout returns, errors and their order included (HDB1 and HDE3 refuse an
    oversized buffer before that), each is a bijection between the frames within its payload
    bound and its encodings and never panics, and each stream reader is exact: it takes the
    bytes of one frame and no more, whatever follows, succeeds on nothing else, never panics,
    and consumes no more than the largest frame.  No byte string is a frame of two protocols. *)
Theorem protocol_frames_reference max_bytes :
  0 ≤ max_bytes →
  ((∀ bs, Hdb1Frame_decode bs
      = if HDB1_MAX_FRAME_BYTES <? len bs then Err Hdb1FrameTooLarge
        else frame_decode HDB1_MAGIC HDB1_VERSION Hdb1InvalidFrame Hdb1FrameTooLarge HDB1_MAX_PAYLOAD_BYTES bs)
   ∧ (∀ bs, Hde3Frame_decode bs
      = if HDE3_MAX_FRAME_BYTES <? len bs then Err Hde3FrameTooLarge
        else frame_decode HDE3_MAGIC HDE3_VERSION Hde3InvalidFrame Hde3FrameTooLarge HDE3_MAX_PAYLOAD_BYTES bs)
   ∧ (∀ bs, EnrollmentFrame_decode max_bytes bs
      = frame_decode ENROLLMENT_MAGIC ENROLLMENT_VERSION EwInvalidFrame EwFrameTooLarge (Z.min max_bytes u32_max) bs)
   ∧ (∀ bs, ReconciliationFrame_decode max_bytes bs
      = frame_decode RECONCILIATION_MAGIC RECONCILIATION_VERSION RwInvalidFrame RwFrameTooLarge
          (Z.min max_bytes u32_max) bs))
  ∧ (lawful_codec (frame_valid HDB1_MAX_PAYLOAD_BYTES) Hdb1Frame_encode Hdb1Frame_decode
     ∧ lawful_codec (frame_valid HDE3_MAX_PAYLOAD_BYTES) Hde3Frame_encode Hde3Frame_decode
     ∧ lawful_codec (frame_valid (Z.min max_bytes u32_max)) (EnrollmentFrame_encode max_bytes)
         (EnrollmentFrame_decode max_bytes)
     ∧ lawful_codec (frame_valid (Z.min max_bytes u32_max)) (ReconciliationFrame_encode max_bytes)
         (ReconciliationFrame_decode max_bytes))
  ∧ (frame_reader (frame_valid HDB1_MAX_PAYLOAD_BYTES) Hdb1Frame_encode Hdb1_read_frame
       (11 + Z.to_nat HDB1_MAX_PAYLOAD_BYTES)
     ∧ frame_reader (frame_valid HDE3_MAX_PAYLOAD_BYTES) Hde3Frame_encode Hde3_read_frame
       (11 + Z.to_nat HDE3_MAX_PAYLOAD_BYTES)
     ∧ frame_reader (frame_valid (Z.min max_bytes u32_max)) (EnrollmentFrame_encode max_bytes)
         (Enrollment_read_frame max_bytes) (11 + Z.to_nat (Z.min max_bytes u32_max))
     ∧ frame_reader (frame_valid (Z.min max_bytes u32_max)) (ReconciliationFrame_encode max_bytes)
         (Reconciliation_read_frame max_bytes) (11 + Z.to_nat (Z.min max_bytes u32_max)))
  ∧ (∀ p1 p2 bs, accepts max_bytes p1 bs = true → accepts max_bytes p2 bs = true → p1 = p2).
Proof.
  intros Hm.
  destruct Hdb1_protocol_lawful as [Hb Hbr], Hde3_protocol_lawful as [He Her],
    (Enrollment_protocol_lawful max_bytes Hm) as [Hw Hwr], (Reconciliation_protocol_lawful max_bytes Hm) as [Hr Hrr].
  split; [|split; [exact (conj Hb (conj He (conj Hw Hr)))|split; [exact (conj Hbr (conj Her (conj Hwr Hrr)))|]]].
  - split_and!; intros bs; [apply Hdb1Frame_decode_reference|apply Hde3Frame_decode_reference|
      by apply EnrollmentFrame_decode_reference|by apply ReconciliationFrame_decode_reference].
  - intros p1 p2 bs H1%accepts_prefix H2%accepts_prefix; [|done..]. apply protocol_prefix_inj. congruence.
Qed.

Lemma protocol_frames_reference_witness :
  0 ≤ 65536 ∧ (∀ p1 p2 bs, accepts 65536 p1 bs = true → accepts 65536 p2 bs = true → p1 = p2)
  ∧ (frame ← Hdb1Frame_json unit_to_vec Hdb1Result tt; Hdb1Frame_encode frame)
    = Ok (str_lit "HDB1" ++ [x00; x01; x06; x00; x00; x00; x04] ++ str_lit "null")
  ∧ accepts 65536 Hdb1Protocol (str_lit "HDB1" ++ [x00; x01; x06; x00; x00; x00; x04] ++ str_lit "null") = true
  ∧ accepts 65536 Hde3Protocol (str_lit "HDB1" ++ [x00; x01; x06; x00; x00; x00; x04] ++ str_lit "null") = false.
Proof.
  split; [done|]. split; [|by vm_compute].
  apply (protocol_frames_reference 65536); done.
Defined.

(** C17. The payload decoders accept exactly what the constructors build.  For the HDB1
    start, challenge, submit, core-issued, reconcile and result payloads and for the HDE3
    challenge and issued results: [decode_fields] yields the fields iff they have the widths
    of the protocol and the constructor, given them, yields that payload; an HDE3 result is
    valid iff one of its three constructors yields it; and an accepted HDE3 submission
    carries a CSR within its bound whose SHA-256 is the digest declared.  A reconciliation
    result is valid iff its fields are those of its status and its chain is within its bound. *)
Theorem payload_fields_roundtrip (base64_encode : list byte → list byte)
    (base64_decode : list byte → option (list byte)) (sha256 : list byte → list byte) :
  (∀ bytes, base64_decode (base64_encode bytes) = Some bytes) →
  ((∀ p request_id csr app_digest session core_digest generation,
      Hdb1StartPayload_decode_fields base64_encode base64_decode p
        = Ok (request_id, csr, app_digest, session, core_digest, generation) ↔
      (length request_id = HDB1_REQUEST_ID_BYTES ∧ length app_digest = HDB1_DIGEST_BYTES
       ∧ length core_digest = HDB1_DIGEST_BYTES)
      ∧ Hdb1StartPayload_new base64_encode request_id csr app_digest session core_digest generation = Ok p)
   ∧ (∀ p id challenge expires_at,
      Hdb1ChallengePayload_decode_fields base64_encode base64_decode p = Ok (id, challenge, expires_at) ↔
      (length id = HDB1_ID_BYTES ∧ length challenge = HDB1_DIGEST_BYTES)
      ∧ Hdb1ChallengePayload_new base64_encode id challenge expires_at = Ok p)
   ∧ (∀ p id challenge code,
      Hdb1SubmitPayload_decode_fields base64_encode base64_decode p = Ok (id, challenge, code) ↔
      (length id = HDB1_ID_BYTES ∧ length challenge = HDB1_DIGEST_BYTES)
      ∧ Hdb1SubmitPayload_new base64_encode id challenge code = Ok p)
   ∧ (∀ p id digest session,
      Hdb1ReconcilePayload_decode_fields base64_encode base64_decode p = Ok (id, digest, session) ↔
      (length id = HDB1_ID_BYTES ∧ length digest = HDB1_DIGEST_BYTES)
      ∧ Hdb1ReconcilePayload_new base64_encode id digest session = Ok p)
   ∧ (∀ p id identity chain not_after,
      Hdb1CoreIssuedPayload_decode_fields base64_encode base64_decode p = Ok (id, identity, chain, not_after) ↔
      (length id = HDB1_ID_BYTES ∧ length identity = HDB1_DIGEST_BYTES)
      ∧ Hdb1CoreIssuedPayload_new base64_encode base64_decode id identity chain not_after = Ok p))
  ∧ (∀ p id status identity chain not_after code,
      Hdb1ResultPayload_decode_fields base64_encode base64_decode p = Ok (id, status, identity, chain, not_after, code) ↔
      length id = HDB1_ID_BYTES ∧
      match status with
      | Hdb1ResultPending =>
          identity = None ∧ chain = None ∧ not_after = None ∧ code = None
          ∧ Hdb1ResultPayload_new_pending base64_encode id = Ok p
      | Hdb1ResultIssued => ∃ i c e,
          identity = Some i ∧ chain = Some c ∧ not_after = Some e ∧ code = None ∧ length i = HDB1_DIGEST_BYTES
          ∧ Hdb1ResultPayload_new_issued base64_encode base64_decode id i c e = Ok p
      | Hdb1ResultRejected => ∃ c,
          identity = None ∧ chain = None ∧ not_after = None ∧ code = Some c
          ∧ Hdb1ResultPayload_new_rejected base64_encode id c = Ok p
      end)
  ∧ ((∀ p id challenge expires_at,
      Hde3ApprovalChallengePayload_decode_fields base64_encode base64_decode p = Ok (id, challenge, expires_at) ↔
      (length id = HDE3_ID_BYTES ∧ length challenge = HDE3_DIGEST_BYTES)
      ∧ Hde3ApprovalChallengePayload_new base64_encode id challenge expires_at = Ok p)
   ∧ (∀ p f,
      Hde3ResultPayload_decode_issued_fields base64_encode base64_decode p = Ok (Some f) ↔
      Hde3IssuedFields_typed f ∧ Hde3ResultPayload_new_issued base64_encode f = Ok p)
   ∧ (∀ p,
      Hde3ResultPayload_validate base64_encode base64_decode p = Ok tt ↔
      (∃ id, length id = HDE3_ID_BYTES ∧ Hde3ResultPayload_new_pending base64_encode id = Ok p)
      ∨ (∃ f, Hde3IssuedFields_typed f ∧ Hde3ResultPayload_new_issued base64_encode f = Ok p)
      ∨ (∃ id code, length id = HDE3_ID_BYTES ∧ Hde3ResultPayload_new_rejected base64_encode id code = Ok p))
   ∧ (∀ p id challenge code csr digest,
      Hde3ApprovalSubmitPayload_decode_fields base64_encode base64_decode sha256 p
        = Ok (id, challenge, code, csr, digest) →
      sha256 csr = digest ∧ len csr ≤ HDE3_MAX_CSR_BYTES ∧ hu_app_csr p = base64_encode csr
      ∧ hu_app_csr_digest p = encode_hex digest))
  ∧ (∀ p, ReconciliationResultPayload_validate p = Ok tt ↔ result_contract p).
Proof.
  intros Hb. split; [split_and!; intros|split; [intros|split; [split_and!; intros|apply reconciliation_validate_iff]]].
  - by apply Hdb1_start_iff.
  - by apply Hdb1_challenge_iff.
  - by apply Hdb1_submit_iff.
  - by apply Hdb1_reconcile_iff.
  - by apply Hdb1_core_issued_iff.
  - by apply Hdb1_result_iff.
  - by apply Hde3_challenge_iff.
  - split; [by apply Hde3_decode_issued|intros [Ht H]; by eapply Hde3_issued_validate].
  - by apply Hde3_validate_status.
  - by eapply Hde3_submit_bound.
Qed.

Lemma payload_fields_roundtrip_witness :
  (∀ bytes : list byte, Some bytes = Some bytes)
  ∧ Hdb1ChallengePayload_decode_fields id Some
      {| bc_bootstrap_id := replicate 32 x01; bc_challenge := replicate 32 x02; bc_expires_at_epoch_seconds := 9;
         bc_status := Hdb1AwaitingCode |} = Ok (replicate 32 x01, replicate 32 x02, 9)
  ∧ Hde3ResultPayload_decode_issued_fields id Some
      {| ht_approval_id := replicate 32 x01; ht_status := Hde3Active; ht_app_identity := Some (encode_hex (replicate 32 x02));
         ht_certificate_chain := Some [[x30]]; ht_certificate_fingerprint := Some (encode_hex (replicate 32 x03));
         ht_certificate_chain_digest := Some (encode_hex (replicate 32 x04)); ht_not_after_epoch_seconds := Some 5;
         ht_configuration_generation := Some 1; ht_rejection_code := None |}
    = Ok (Some {| hi_approval_id := replicate 32 x01; hi_app_identity := replicate 32 x02;
                  hi_certificate_chain := [[x30]]; hi_certificate_fingerprint := replicate 32 x03;
                  hi_certificate_chain_digest := replicate 32 x04; hi_not_after_epoch_seconds := 5;
                  hi_configuration_generation := 1; hi_active := true |}).
Proof.
  split; [done|]. destruct (payload_fields_roundtrip id Some id (λ _, eq_refl)) as ((_ & Hc & _) & _ & (_ & Hi & _) & _).
  split.
  - apply Hc. split; [by vm_compute|by vm_compute].
  - apply Hi. split; [by vm_compute|by vm_compute].
Defined.
