(* ===== verification/Herdr.v ===== *)
(** * The Herdr workspace client (src/src/bootstrap_runtime.rs, HerdrWorkspaceClient)

    The three requests the relay sends to Herdr and how it reads the answers.  A request is
    one connection: what happens on it (whether it can be made, encoded and written, and the
    bytes that come back before a timeout or the end of the stream) is decided by the
    surroundings, as a function of the request.  serde_json is a parameter: a type of values
    with the accessors the code uses. *)
From S2P Require Export Paths BootstrapWire.

Definition HERDR_RESPONSE_MAX_BYTES : Z := 64 * 1024.
Definition WORKSPACE_ID_MAX_BYTES : Z := 128.
Definition WORKSPACE_TITLE_MAX_BYTES : Z := 256.

Inductive BootstrapRuntimeError : Type :=
| BrInvalidField
| BrAuthorityMismatch
| BrWorkspaceUnavailable
| BrCapacityExhausted
| BrPeerRateLimited
| BrAlreadyActive
| BrExpired
| BrCodeMismatch
| BrCodeRateLimited
| BrNotFound
| BrPersistenceFailed.

#[export] Instance BootstrapRuntimeError_eq_dec : EqDecision BootstrapRuntimeError.
Proof. solve_decision. Defined.

Abbreviation brresult := (outcome BootstrapRuntimeError).

(** [is_valid_session] of src/src/bootstrap_runtime.rs. *)
Definition is_valid_session (value : list byte) : bool :=
  bool_decide (value ≠ []) && (len value <=? HDB1_MAX_SESSION_BYTES) && bool_decide (value ≠ str_lit ".")
  && bool_decide (value ≠ str_lit "..")
  && forallb (λ b, is_ascii_alphanumeric b || bool_decide (b ∈ [x2e; x5f; x2d])) value.

(** [read_json_line]: [bytes] is the line so far, the stream what can still be read of it. *)
Fixpoint read_json_line (bytes stream : list byte) : brresult (list byte) :=
  match stream with
  | [] => Err BrWorkspaceUnavailable
  | b :: stream' =>
      if bool_decide (b = x0a) then Ok bytes else
      if HERDR_RESPONSE_MAX_BYTES <=? len bytes then Err BrCapacityExhausted else
      if bool_decide (b = x0d) then Err BrInvalidField else
      read_json_line (bytes ++ [b]) stream'
  end.

(** The allowlisted methods with their parameters. *)
Inductive HerdrRequest : Type :=
| WorkspaceCreate (cwd label : list byte)
| WorkspaceGet (workspace_id : list byte)
| WorkspaceClose (workspace_id : list byte).

#[export] Instance HerdrRequest_eq_dec : EqDecision HerdrRequest.
Proof. solve_decision. Defined.

(** One connection. *)
Record HerdrCall : Type := {
  hc_connected : bool;
  hc_encoded : bool;
  hc_written : bool;
  hc_stream : list byte;
}.

(** [socket_accepted]: whether [UnixSocketConnector::new] takes the socket path. *)
Record HerdrWorkspaceClient : Type := {
  hw_verification_cwd : list byte;
  hw_normalized_session : list byte;
}.

Definition HerdrWorkspaceClient_new (socket_accepted : bool) (verification_cwd normalized_session : list byte)
  : brresult HerdrWorkspaceClient :=
  if negb (is_valid_session normalized_session) || bool_decide (verification_cwd = [])
     || (1024 <? len verification_cwd) || negb (is_absolute (components verification_cwd))
     || bool_decide (x0a ∈ verification_cwd) || bool_decide (x0d ∈ verification_cwd)
  then Err BrInvalidField else
  if negb socket_accepted then Err BrWorkspaceUnavailable else
  Ok {| hw_verification_cwd := verification_cwd; hw_normalized_session := normalized_session |}.

Definition herdr_request_id (random : Z) : list byte := str_lit "herdr-dog-bootstrap-" ++ decimal random.

Section Client.
Context {Value : Type} (from_slice : list byte → option Value).
Context (get : Value → list byte → option Value) (as_str : Value → option (list byte)) (is_object : Value → bool).

(** [value.get(key).and_then(Value::as_str)]. *)
Definition get_str (value : Value) (key : list byte) : option (list byte) := v ← get value key; as_str v.

(** [value.get("workspace").and_then(Value::as_object)]. *)
Definition get_workspace (value : Value) : option Value :=
  w ← get value (str_lit "workspace"); if is_object w then Some w else None.

(** [request]: from the connection to the result member of the answer. *)
Definition herdr_answer (request_id : list byte) (call : HerdrCall) : brresult Value :=
  if negb (hc_connected call) then Err BrWorkspaceUnavailable else
  if negb (hc_encoded call) then Err BrInvalidField else
  if negb (hc_written call) then Err BrWorkspaceUnavailable else
  bytes ← read_json_line [] (hc_stream call);
  response ← ok_or (from_slice bytes) BrWorkspaceUnavailable;
  if bool_decide (get_str response (str_lit "id") ≠ Some request_id) then Err BrWorkspaceUnavailable else
  match get response (str_lit "error") with
  | Some error =>
      if bool_decide (get_str error (str_lit "code") = Some (str_lit "workspace_not_found"))
      then Err BrNotFound else Err BrWorkspaceUnavailable
  | None => ok_or (get response (str_lit "result")) BrWorkspaceUnavailable
  end.

(** The surroundings: the [n]th request since the start gets the [n]th random number and
    connection. *)
Context (random : nat → Z) (call : nat → list byte → HerdrRequest → HerdrCall).
Context (client : HerdrWorkspaceClient).

(** The requests sent so far, the last one first, with what they were answered. *)
Abbreviation herdr := (stateful (list (HerdrRequest * brresult Value)) BootstrapRuntimeError).

Definition request (r : HerdrRequest) : herdr Value := λ log,
  let request_id := herdr_request_id (random (length log)) in
  let a := herdr_answer request_id (call (length log) request_id r) in
  ((r, a) :: log, a).

(** [close]. *)
Definition herdr_close (workspace_id : list byte) : herdr unit :=
  if bool_decide (workspace_id = []) || (WORKSPACE_ID_MAX_BYTES <? len workspace_id) then st_err BrInvalidField else
  λ log, match request (WorkspaceClose workspace_id) log with
         | (log', Ok value) =>
             (log', if bool_decide (get_str value (str_lit "type") = Some (str_lit "ok"))
                    then Ok tt else Err BrWorkspaceUnavailable)
         | (log', Err BrNotFound) => (log', Ok tt)
         | (log', Err e) => (log', Err e)
         | (log', Panic) => (log', Panic)
         end.

(** Whether the fresh [workspace.get] shows the workspace with its title. *)
Definition readback_verified (readback : brresult Value) (workspace_id title : list byte) : bool :=
  match readback with
  | Ok value =>
      bool_decide ((w ← get_workspace value; get_str w (str_lit "workspace_id")) = Some workspace_id)
      && bool_decide ((w ← get_workspace value; get_str w (str_lit "label")) = Some title)
  | _ => false
  end.

Definition create_and_verify (title : list byte) : herdr (list byte) :=
  if bool_decide (title = []) || (WORKSPACE_TITLE_MAX_BYTES <? len title) then st_err BrInvalidField else
  (let! result := request (WorkspaceCreate (hw_verification_cwd client) title) in
   let! workspace := st_lift (ok_or (get_workspace result) BrWorkspaceUnavailable) in
   let! workspace_id :=
     st_lift (ok_or (id ← get_str workspace (str_lit "workspace_id");
                     if bool_decide (id = []) || (WORKSPACE_ID_MAX_BYTES <? len id) then None else Some id)
                    BrWorkspaceUnavailable) in
   λ log, let '(log', readback) := request (WorkspaceGet workspace_id) log in
          if readback_verified readback workspace_id title then (log', Ok workspace_id)
          else ((herdr_close workspace_id log').1, Err BrWorkspaceUnavailable))%relay.
End Client.

(** * Facts *)

(** ** Answers *)
Lemma read_json_line_returns bytes stream : returns (read_json_line bytes stream).
Proof. revert bytes. induction stream as [|b stream IH]; intros bytes; simpl; [done|]. by repeat case_match. Qed.

(** What is read is the line before the first newline, when it is short enough and has no
    carriage return. *)
Lemma read_json_line_Ok bytes stream line :
  read_json_line bytes stream = Ok line ↔
  ∃ taken rest, line = bytes ++ taken ∧ stream = taken ++ x0a :: rest ∧ x0a ∉ taken ∧ x0d ∉ taken
    ∧ (taken = [] ∨ len line ≤ HERDR_RESPONSE_MAX_BYTES).
Proof.
  revert bytes. induction stream as [|b stream IH]; intros bytes; simpl.
  - split; [done|]. intros (taken & rest & _ & H & _). by destruct taken.
  - case_bool_decide as Hb; [subst b|].
    + split.
      * intros [= <-]. exists [], stream. rewrite app_nil_r. split_and!; [done|done|by intros ?%elem_of_nil|by intros ?%elem_of_nil|by left].
      * intros (taken & rest & -> & Hs & Hn & _). destruct taken as [|c taken]; [by rewrite app_nil_r|].
        injection Hs as <- _. destruct Hn. by left.
    + destruct (Z.leb_spec HERDR_RESPONSE_MAX_BYTES (len bytes)) as [Hm|Hm].
      * split; [done|]. intros (taken & rest & -> & Hs & _ & _ & [->|Hl]); [by injection Hs|].
        destruct taken as [|c taken]; [by injection Hs|]. exfalso. unfold len in *. rewrite length_app in Hl. simpl in Hl. lia.
      * case_bool_decide as Hr; [subst b|].
        -- split; [done|]. intros (taken & rest & _ & Hs & _ & Hn & _). destruct taken as [|c taken]; [done|].
           injection Hs as <- _. destruct Hn. by left.
        -- rewrite IH. split.
           ++ intros (taken & rest & -> & -> & Hn & Hn' & Hl). exists (b :: taken), rest.
              rewrite <-app_assoc. split_and!; [done|done|by intros [?|?]%elem_of_cons|by intros [?|?]%elem_of_cons|].
              right. destruct Hl as [->|Hl]; [|by rewrite <-app_assoc in Hl]. unfold len in *. rewrite length_app. simpl. lia.
           ++ intros (taken & rest & -> & Hs & Hn & Hn' & Hl). destruct taken as [|c taken]; [by injection Hs|].
              injection Hs as <- ->. rewrite not_elem_of_cons in Hn, Hn'. exists taken, rest. rewrite <-app_assoc.
              split_and!; [done|done|tauto|tauto|]. destruct Hl as [?|Hl]; [done|by right].
Qed.

(** ** Client calls *)
Section ClientFacts.
Context {Value : Type} (from_slice : list byte → option Value).
Context (get : Value → list byte → option Value) (as_str : Value → option (list byte)) (is_object : Value → bool).
Context (random : nat → Z) (call : nat → list byte → HerdrRequest → HerdrCall) (client : HerdrWorkspaceClient).

Lemma herdr_answer_returns request_id c : returns (herdr_answer from_slice get as_str request_id c).
Proof.
  unfold herdr_answer. repeat (case_match; try done). apply bind_returns; [apply read_json_line_returns|].
  intros bytes _. apply bind_returns; [apply ok_or_returns|]. intros response _.
  repeat (case_match; try done). apply ok_or_returns.
Qed.

Lemma herdr_close_returns workspace_id log :
  returns (herdr_close from_slice get as_str random call workspace_id log).2.
Proof.
  unfold herdr_close, request, st_err. destruct (_ || _); [done|]. cbv zeta.
  destruct (herdr_answer _ _ _ _ _) as [v|e|] eqn:Ha; [by destruct (bool_decide _)|by destruct e|].
  by destruct (herdr_answer_returns (herdr_request_id (random (length log)))
    (call (length log) (herdr_request_id (random (length log))) (WorkspaceClose workspace_id))).
Qed.

(** A created workspace: Herdr answered the creation with this identifier and title, and
    the fresh look showed them again. *)
Lemma create_and_verify_spec title log log' r :
  create_and_verify from_slice get as_str is_object random call client title log = (log', r) →
  returns r ∧ ∀ id, r = Ok id → id ≠ [] ∧ len id ≤ WORKSPACE_ID_MAX_BYTES
    ∧ ∃ created shown, log' = (WorkspaceGet id, Ok shown) :: (WorkspaceCreate (hw_verification_cwd client) title, Ok created) :: log
        ∧ readback_verified get as_str is_object (Ok shown) id title = true.
Proof.
  unfold create_and_verify, st_err. destruct (_ || _); [by intros [= <- <-]|].
  unfold st_bind, st_lift, request. cbv zeta.
  destruct (herdr_answer _ _ _ _ (call _ _ (WorkspaceCreate _ _))) as [created|e|] eqn:Hc;
    [|by intros [= <- <-]|by destruct (herdr_answer_returns (herdr_request_id (random (length log)))
       (call (length log) (herdr_request_id (random (length log))) (WorkspaceCreate (hw_verification_cwd client) title)))].
  destruct (get_workspace _ _ created) as [workspace|]; [|by intros [= <- <-]]. cbn [ok_or].
  destruct (get_str _ _ workspace _) as [id|]; cbn [mbind option_bind ok_or]; [|by intros [= <- <-]].
  destruct (bool_decide (id = []) || _) eqn:Hid; cbn [ok_or]; [by intros [= <- <-]|].
  destruct (herdr_answer _ _ _ _ (call _ _ (WorkspaceGet id))) as [shown|e|]; cbn [readback_verified];
    [|by intros [= _ <-]..].
  destruct (bool_decide _ && _) eqn:Hv; intros [= <- <-]; [|done]. bool_facts.
  split; [done|]. intros id' [= <-]. split_and!; [done|done|]. exists created, shown. split; [done|].
  unfold readback_verified. by rewrite !bool_decide_eq_true_2.
Qed.
End ClientFacts.
