(* ===== verification/BootstrapState.v ===== *)
(** * The bootstrap state and its file (src/src/bootstrap_runtime.rs, BootstrapStateStore)

    The attempts and approvals the bootstrap runtime keeps, the records a protected JSON file
    keeps of them, and the writing and reading of that file.  serde_json is a parameter. *)
From S2P Require Export Material Herdr ProtectedStore.

Definition MAX_APPROVALS : Z := 256.
Definition BOOTSTRAP_FILE_LIMIT : Z := 256 * 1024.

Record CoreIssuedMaterial : Type := {
  cm_approval_id : list byte;
  cm_core_identity : list byte;
  cm_certificate_chain : list (list byte);
  cm_not_after_epoch_seconds : Z;
}.

Record BootstrapAttempt : Type := {
  ba_peer_ip : list byte;
  ba_approval_id : list byte;
  ba_challenge : list byte;
  ba_code : list byte;
  ba_core_csr : list byte;
  ba_app_csr_digest : list byte;
  ba_core_binding_digest : list byte;
  ba_normalized_session : list byte;
  ba_configuration_generation : Z;
  ba_workspace_id : list byte;
  ba_expires_at_epoch_seconds : Z;
  ba_hard_expires_at_epoch_seconds : Z;
  ba_failed_codes : Z;
}.

Record CoreApproval : Type := {
  ca_core_identity : list byte;
  ca_app_csr_digest : list byte;
  ca_core_binding_digest : list byte;
  ca_normalized_session : list byte;
  ca_configuration_generation : Z;
  ca_confirmed : bool;
  ca_recovery_expires_at_epoch_seconds : Z;
  ca_issued : CoreIssuedMaterial;
}.

Record AppApproval : Type := {
  aa_core_identity : list byte;
  aa_app_csr_digest : list byte;
  aa_core_binding_digest : list byte;
  aa_normalized_session : list byte;
  aa_configuration_generation : Z;
  aa_challenge : list byte;
  aa_code : list byte;
  aa_workspace_id : list byte;
  aa_expires_at_epoch_seconds : Z;
  aa_failed_codes : Z;
}.

(** An [IpAddr] is its octets. *)
Record BootstrapState : Type := {
  bs_attempts : gmap (list byte) BootstrapAttempt;
  bs_core_approvals : gmap (list byte) CoreApproval;
  bs_app_approvals : gmap (list byte) AppApproval;
  bs_active_sessions : gset (list byte);
  bs_peer_starts : gmap (list byte) (list Z);
  bs_orphaned_workspaces : list (list byte * list byte);
}.

Definition BootstrapState_default : BootstrapState :=
  {| bs_attempts := ∅; bs_core_approvals := ∅; bs_app_approvals := ∅; bs_active_sessions := ∅;
     bs_peer_starts := ∅; bs_orphaned_workspaces := [] |}.

Definition put_attempts a (s : BootstrapState) : BootstrapState :=
  {| bs_attempts := a; bs_core_approvals := bs_core_approvals s; bs_app_approvals := bs_app_approvals s;
     bs_active_sessions := bs_active_sessions s; bs_peer_starts := bs_peer_starts s;
     bs_orphaned_workspaces := bs_orphaned_workspaces s |}.
Definition put_core_approvals a (s : BootstrapState) : BootstrapState :=
  {| bs_attempts := bs_attempts s; bs_core_approvals := a; bs_app_approvals := bs_app_approvals s;
     bs_active_sessions := bs_active_sessions s; bs_peer_starts := bs_peer_starts s;
     bs_orphaned_workspaces := bs_orphaned_workspaces s |}.
Definition put_app_approvals a (s : BootstrapState) : BootstrapState :=
  {| bs_attempts := bs_attempts s; bs_core_approvals := bs_core_approvals s; bs_app_approvals := a;
     bs_active_sessions := bs_active_sessions s; bs_peer_starts := bs_peer_starts s;
     bs_orphaned_workspaces := bs_orphaned_workspaces s |}.
Definition put_active_sessions a (s : BootstrapState) : BootstrapState :=
  {| bs_attempts := bs_attempts s; bs_core_approvals := bs_core_approvals s; bs_app_approvals := bs_app_approvals s;
     bs_active_sessions := a; bs_peer_starts := bs_peer_starts s;
     bs_orphaned_workspaces := bs_orphaned_workspaces s |}.
Definition put_peer_starts a (s : BootstrapState) : BootstrapState :=
  {| bs_attempts := bs_attempts s; bs_core_approvals := bs_core_approvals s; bs_app_approvals := bs_app_approvals s;
     bs_active_sessions := bs_active_sessions s; bs_peer_starts := a;
     bs_orphaned_workspaces := bs_orphaned_workspaces s |}.
Definition put_orphaned_workspaces a (s : BootstrapState) : BootstrapState :=
  {| bs_attempts := bs_attempts s; bs_core_approvals := bs_core_approvals s; bs_app_approvals := bs_app_approvals s;
     bs_active_sessions := bs_active_sessions s; bs_peer_starts := bs_peer_starts s;
     bs_orphaned_workspaces := a |}.

(** ** The file *)
Inductive PersistedBootstrapKind : Type := PendingBootstrap | PendingApp | CoreIssued.

Record PersistedBootstrapRecord : Type := {
  pb_kind : PersistedBootstrapKind;
  pb_approval_id : list byte;
  pb_bootstrap_id : option (list byte);
  pb_core_identity : option (list byte);
  pb_app_csr_digest : list byte;
  pb_core_binding_digest : list byte;
  pb_normalized_session : list byte;
  pb_configuration_generation : Z;
  pb_confirmed : bool;
  pb_workspace_id : option (list byte);
  pb_expires_at_epoch_seconds : Z;
  pb_hard_expires_at_epoch_seconds : option Z;
  pb_certificate_chain : option (list (list byte));
  pb_not_after_epoch_seconds : option Z;
}.

(** [PersistedBootstrapFile]. *)
Abbreviation records := (list PersistedBootstrapRecord).

Definition valid_workspace_id (id : option (list byte)) : bool :=
  match id with
  | Some id => bool_decide (id ≠ []) && (len id <=? WORKSPACE_ID_MAX_BYTES)
  | None => false
  end.

Definition valid_persisted_record (r : PersistedBootstrapRecord) : bool :=
  bool_decide (pb_approval_id r ≠ zeros 32) && bool_decide (pb_app_csr_digest r ≠ zeros 32)
  && bool_decide (pb_core_binding_digest r ≠ zeros 32) && is_valid_session (pb_normalized_session r)
  && negb (pb_configuration_generation r =? 0)
  && match pb_kind r with
     | PendingBootstrap =>
         bool_decide (is_Some (pb_bootstrap_id r)) && valid_workspace_id (pb_workspace_id r)
         && bool_decide (is_Some (pb_hard_expires_at_epoch_seconds r)) && bool_decide (pb_certificate_chain r = None)
     | PendingApp =>
         bool_decide (is_Some (pb_core_identity r)) && valid_workspace_id (pb_workspace_id r)
         && bool_decide (pb_certificate_chain r = None)
     | CoreIssued =>
         bool_decide (is_Some (pb_core_identity r)) && bool_decide (pb_workspace_id r = None)
         && match pb_certificate_chain r with
            | Some chain => bool_decide (chain ≠ []) && (len chain <=? 8) && (len (concat chain) <=? 46 * 1024)
            | None => false
            end
         && match pb_not_after_epoch_seconds r with Some value => negb (value =? 0) | None => false end
         && (if pb_confirmed r then pb_expires_at_epoch_seconds r =? 0 else negb (pb_expires_at_epoch_seconds r =? 0))
     end.

Definition pending_bootstrap_record (bootstrap_id : list byte) (a : BootstrapAttempt) : PersistedBootstrapRecord :=
  {| pb_kind := PendingBootstrap; pb_approval_id := ba_approval_id a; pb_bootstrap_id := Some bootstrap_id;
     pb_core_identity := None; pb_app_csr_digest := ba_app_csr_digest a;
     pb_core_binding_digest := ba_core_binding_digest a; pb_normalized_session := ba_normalized_session a;
     pb_configuration_generation := ba_configuration_generation a; pb_confirmed := false;
     pb_workspace_id := Some (ba_workspace_id a); pb_expires_at_epoch_seconds := ba_expires_at_epoch_seconds a;
     pb_hard_expires_at_epoch_seconds := Some (ba_hard_expires_at_epoch_seconds a);
     pb_certificate_chain := None; pb_not_after_epoch_seconds := None |}.

Definition pending_app_record (approval_id : list byte) (a : AppApproval) : PersistedBootstrapRecord :=
  {| pb_kind := PendingApp; pb_approval_id := approval_id; pb_bootstrap_id := None;
     pb_core_identity := Some (aa_core_identity a); pb_app_csr_digest := aa_app_csr_digest a;
     pb_core_binding_digest := aa_core_binding_digest a; pb_normalized_session := aa_normalized_session a;
     pb_configuration_generation := aa_configuration_generation a; pb_confirmed := false;
     pb_workspace_id := Some (aa_workspace_id a); pb_expires_at_epoch_seconds := aa_expires_at_epoch_seconds a;
     pb_hard_expires_at_epoch_seconds := None; pb_certificate_chain := None; pb_not_after_epoch_seconds := None |}.

Definition core_issued_record (a : CoreApproval) : PersistedBootstrapRecord :=
  {| pb_kind := CoreIssued; pb_approval_id := cm_approval_id (ca_issued a); pb_bootstrap_id := None;
     pb_core_identity := Some (ca_core_identity a); pb_app_csr_digest := ca_app_csr_digest a;
     pb_core_binding_digest := ca_core_binding_digest a; pb_normalized_session := ca_normalized_session a;
     pb_configuration_generation := ca_configuration_generation a; pb_confirmed := ca_confirmed a;
     pb_workspace_id := None; pb_expires_at_epoch_seconds := ca_recovery_expires_at_epoch_seconds a;
     pb_hard_expires_at_epoch_seconds := None;
     pb_certificate_chain := Some (cm_certificate_chain (ca_issued a));
     pb_not_after_epoch_seconds := Some (cm_not_after_epoch_seconds (ca_issued a)) |}.

(** The projection that is written, in the order of the maps. *)
Definition state_records (s : BootstrapState) : records :=
  ((λ kv, pending_bootstrap_record kv.1 kv.2) <$> btree_entries be_val (bs_attempts s))
  ++ ((λ kv, pending_app_record kv.1 kv.2) <$> btree_entries be_val (bs_app_approvals s))
  ++ ((λ kv, core_issued_record kv.2) <$> btree_entries be_val (bs_core_approvals s)).

(** The system calls of one write: those of [write_protected_file], the lock, and the removal. *)
Record PersistIo : Type := {
  pi_material : MaterialIo;
  pi_lock_open_fails : bool;
  pi_lock_held : bool;
  pi_exists_fails : bool;
  pi_remove_fails : bool;
}.

Section Store.
Context (to_vec : records → option (list byte)) (from_slice : list byte → option records).
Context (store_path : path) (expected_uid : Z).

(** [BootstrapStateStore::open]. *)
Definition store_open (io : MaterialIo) (fs : FileSystem) : relay_result unit :=
  validate_protected_path io store_path expected_uid fs.

(** [load]. *)
Definition store_load (io : PersistIo) (fs : FileSystem) : relay_result records :=
  if pi_exists_fails io || bool_decide (fs !! store_path = None) then Ok [] else
  bytes ← read_protected_file (pi_material io) store_path expected_uid Private BOOTSTRAP_FILE_LIMIT fs fs;
  file ← ok_or (from_slice bytes) ConfigurationRead;
  if (MAX_APPROVALS <? len file) || existsb (λ r, negb (valid_persisted_record r)) file
  then Err ConfigurationRead else Ok file.

(** [lock_file]. *)
Definition store_lock (io : PersistIo) : stateful FileSystem RelayError unit := λ fs,
  match (dir ← ok_or (path_parent store_path) ConfigurationRead;
         name ← ok_or (path_file_name store_path ≫= to_str) ConfigurationRead;
         Ok (path_join dir (lock_name name))) with
  | Err e => (fs, Err e)
  | Panic => (fs, Panic)
  | Ok lock_path =>
      if pi_lock_open_fails io then (fs, Err ConfigurationRead) else
      match fs !! lock_path with
      | Some n =>
          (fs, if bool_decide (nd_kind n = IsDir) || pi_lock_held io then Err ConfigurationRead else Ok tt)
      | None =>
          (<[lock_path := new_file (pi_material io) (Z.land 384 (Z.lnot (mi_umask (pi_material io)))) []]> fs,
           if pi_lock_held io then Err ConfigurationRead else Ok tt)
      end
  end.

(** [persist]. *)
Definition store_persist (io : PersistIo) (s : BootstrapState) : stateful FileSystem RelayError unit :=
  (do! store_lock io;
   if MAX_APPROVALS <? len (state_records s) then st_err ResourceLimit else
   let! bytes := st_lift (ok_or (to_vec (state_records s)) ConfigurationRead) in
   if BOOTSTRAP_FILE_LIMIT <? len bytes then st_err ResourceLimit else
   if bool_decide (bs_attempts s = ∅) && bool_decide (bs_app_approvals s = ∅) && bool_decide (bs_core_approvals s = ∅)
   then λ fs,
     if pi_exists_fails io then (fs, Ok tt) else
     match fs !! store_path with
     | None => (fs, Ok tt)
     | Some n =>
         if pi_remove_fails io || bool_decide (nd_kind n = IsDir) then (fs, Err ConfigurationRead)
         else (delete store_path fs, Ok tt)
     end
   else write_protected_file (pi_material io) store_path expected_uid bytes Private BOOTSTRAP_FILE_LIMIT)%relay.

(** [restore], one record at a time. *)
Definition restore_record (s : BootstrapState) (r : PersistedBootstrapRecord) : relay_result BootstrapState :=
  match pb_kind r with
  | CoreIssued =>
      match pb_core_identity r, pb_certificate_chain r, pb_not_after_epoch_seconds r with
      | Some core_identity, Some chain, Some not_after =>
          let issued := {| cm_approval_id := pb_approval_id r; cm_core_identity := core_identity;
                           cm_certificate_chain := chain; cm_not_after_epoch_seconds := not_after |} in
          Ok (put_core_approvals
                (<[pb_approval_id r :=
                     {| ca_core_identity := core_identity; ca_app_csr_digest := pb_app_csr_digest r;
                        ca_core_binding_digest := pb_core_binding_digest r;
                        ca_normalized_session := pb_normalized_session r;
                        ca_configuration_generation := pb_configuration_generation r;
                        ca_confirmed := pb_confirmed r;
                        ca_recovery_expires_at_epoch_seconds := pb_expires_at_epoch_seconds r;
                        ca_issued := issued |}]> (bs_core_approvals s)) s)
      | _, _, _ => Err ConfigurationRead
      end
  | PendingBootstrap | PendingApp =>
      workspace_id ← ok_or (pb_workspace_id r) ConfigurationRead;
      Ok (put_orphaned_workspaces (bs_orphaned_workspaces s ++ [(pb_normalized_session r, workspace_id)]) s)
  end.

Fixpoint restore_records (s : BootstrapState) (rs : records) : relay_result BootstrapState :=
  match rs with
  | [] => Ok s
  | r :: rs' => s' ← restore_record s r; restore_records s' rs'
  end.

Definition store_restore (io : PersistIo) (fs : FileSystem) (s : BootstrapState) : relay_result BootstrapState :=
  file ← store_load io fs;
  restore_records s file.
End Store.

(** * Facts *)

(** ** The records of a state *)
Definition state_empty (s : BootstrapState) : Prop :=
  bs_attempts s = ∅ ∧ bs_app_approvals s = ∅ ∧ bs_core_approvals s = ∅.

Lemma btree_entries_empty {A} : btree_entries (K := list byte) (A := A) be_val ∅ = [].
Proof. unfold btree_entries. by rewrite map_to_list_empty. Qed.

Lemma state_records_empty s : state_empty s → state_records s = [].
Proof. intros (Ha & Hb & Hc). unfold state_records. by rewrite Ha, Hb, Hc, !btree_entries_empty. Qed.

(** The records say no more than the three maps. *)
Lemma state_records_proper s s' :
  bs_attempts s' = bs_attempts s → bs_app_approvals s' = bs_app_approvals s →
  bs_core_approvals s' = bs_core_approvals s → state_records s' = state_records s.
Proof. unfold state_records. by intros -> -> ->. Qed.

(** Every core approval is filed under its own identifier. *)
Definition approvals_keyed (s : BootstrapState) : Prop :=
  ∀ id a, bs_core_approvals s !! id = Some a → cm_approval_id (ca_issued a) = id
    ∧ cm_core_identity (ca_issued a) = ca_core_identity a.

(** What a restart makes of the records of a state: the core approvals as they were, and the
    workspaces of what was pending, to be closed. *)
Definition pending_workspaces (s : BootstrapState) : list (list byte * list byte) :=
  ((λ kv, (ba_normalized_session kv.2, ba_workspace_id kv.2)) <$> btree_entries be_val (bs_attempts s))
  ++ ((λ kv, (aa_normalized_session kv.2, aa_workspace_id kv.2)) <$> btree_entries be_val (bs_app_approvals s)).

Definition restarted (s : BootstrapState) : BootstrapState :=
  put_orphaned_workspaces (pending_workspaces s) (put_core_approvals (bs_core_approvals s) BootstrapState_default).

Lemma restore_records_app s rs rs' :
  restore_records s (rs ++ rs') = (s' ← restore_records s rs; restore_records s' rs').
Proof.
  revert s. induction rs as [|r rs IH]; intros s; simpl; [done|].
  destruct (restore_record s r); simpl; [apply IH|done|done].
Qed.

Lemma restore_pending_bootstrap l s :
  restore_records s ((λ kv : list byte * BootstrapAttempt, pending_bootstrap_record kv.1 kv.2) <$> l)
  = Ok (put_orphaned_workspaces
          (bs_orphaned_workspaces s ++ ((λ kv, (ba_normalized_session kv.2, ba_workspace_id kv.2)) <$> l)) s).
Proof.
  revert s. induction l as [|kv l IH]; intros s; simpl; [by rewrite app_nil_r; destruct s|].
  rewrite IH. simpl. by rewrite <-app_assoc.
Qed.

Lemma restore_pending_app l s :
  restore_records s ((λ kv : list byte * AppApproval, pending_app_record kv.1 kv.2) <$> l)
  = Ok (put_orphaned_workspaces
          (bs_orphaned_workspaces s ++ ((λ kv, (aa_normalized_session kv.2, aa_workspace_id kv.2)) <$> l)) s).
Proof.
  revert s. induction l as [|kv l IH]; intros s; simpl; [by rewrite app_nil_r; destruct s|].
  rewrite IH. simpl. by rewrite <-app_assoc.
Qed.

Lemma restore_core_issued l s :
  Forall (λ kv : list byte * CoreApproval, cm_approval_id (ca_issued kv.2) = kv.1
                 ∧ cm_core_identity (ca_issued kv.2) = ca_core_identity kv.2) l →
  NoDup l.*1 → (∀ kv, kv ∈ l → bs_core_approvals s !! kv.1 = None) →
  restore_records s ((λ kv, core_issued_record kv.2) <$> l)
  = Ok (put_core_approvals (list_to_map l ∪ bs_core_approvals s) s).
Proof.
  revert s. induction l as [|[id a] l IH]; intros s Hl Hnd Hfresh; simpl.
  - by rewrite map_empty_union; destruct s.
  - apply Forall_cons in Hl as [[Hid Hci] Hl]. simpl in *. apply NoDup_cons in Hnd as [Hnin Hnd].
    rewrite Hid. rewrite IH; [|done|done|].
    + simpl. f_equal. unfold put_core_approvals. simpl. f_equal.
      replace (Build_CoreApproval _ _ _ _ _ _ _ _) with a by (destruct a as [? ? ? ? ? ? ? []]; simpl in *; by subst).
      apply map_eq. intros k. rewrite !lookup_union. destruct (decide (k = id)) as [->|Hne].
      * rewrite (not_elem_of_list_to_map_1 l) by done. rewrite !lookup_insert_eq.
        by destruct (bs_core_approvals s !! id).
      * rewrite !lookup_insert_ne by done. done.
    + intros kv Hkv. simpl. rewrite lookup_insert_ne; [apply Hfresh; by right|].
      intros ->. apply Hnin. apply list_elem_of_fmap. by exists kv.
Qed.

Lemma btree_entries_to_map {A} (m : gmap (list byte) A) : list_to_map (btree_entries be_val m) = m.
Proof.
  apply map_eq. intros k. destruct (m !! k) as [a|] eqn:Hk.
  - apply elem_of_list_to_map_1; [apply btree_entries_NoDup|by apply elem_of_btree_entries].
  - apply not_elem_of_list_to_map_1. intros ([k' a] & -> & Hin)%list_elem_of_fmap.
    apply elem_of_btree_entries in Hin. simpl in Hk. congruence.
Qed.

(** Restoring the records of a state gives the state after a restart. *)
Lemma restore_state_records s :
  approvals_keyed s → restore_records BootstrapState_default (state_records s) = Ok (restarted s).
Proof.
  intros Hk. unfold state_records. rewrite restore_records_app, restore_pending_bootstrap. cbn [mbind outcome_bind].
  rewrite restore_records_app, restore_pending_app. cbn [mbind outcome_bind].
  rewrite restore_core_issued.
  - simpl. rewrite map_union_empty, btree_entries_to_map. done.
  - apply Forall_forall. intros [id a] Hin%elem_of_btree_entries. by apply Hk.
  - apply btree_entries_NoDup.
  - intros kv _. apply lookup_empty.
Qed.

(** ** Writing and reading the file *)
Section StoreFacts.
Context (to_vec : records → option (list byte)) (from_slice : list byte → option records).
Context (store_path : path) (expected_uid : Z).
Context (path_parsed : parsed store_path).

Definition path_checked (fs : FileSystem) : Prop :=
  ∀ io, reads_faithfully io → validate_protected_path io store_path expected_uid fs = Ok tt.

(** The file holds the records of [s], for every later start. *)
Definition file_holds (fs : FileSystem) (s : BootstrapState) : Prop :=
  ∀ io, reads_faithfully (pi_material io) → pi_exists_fails io = false →
    store_load from_slice store_path expected_uid io fs = Ok (state_records s).

Lemma path_checked_agree fs fs' :
  (∀ q, (length q < length store_path)%nat → fs' !! q = fs !! q) →
  (∀ n, fs' !! store_path = Some n → fs !! store_path = Some n ∨ nd_kind n ≠ IsSymlink) →
  path_checked fs → path_checked fs'.
Proof.
  intros Hag Hfin Hc io Hio. apply (validate_protected_path_agree io store_path expected_uid fs); [done|done| |by apply Hc].
  intros n [Hn|?]%Hfin; [|done].
  pose proof (validate_protected_path_Ok _ _ _ _ (Hc io Hio) path_parsed) as (? & ? & ? & _ & _ & _ & _ & _ & _ & _ & _ & Hs).
  by apply Hs.
Qed.

Lemma store_lock_spec io fs fs' r :
  store_lock store_path io fs = (fs', r) →
  (∀ q, (length q < length store_path)%nat → fs' !! q = fs !! q) ∧ fs' !! store_path = fs !! store_path
  ∧ returns r.
Proof.
  unfold store_lock. destruct (path_parent store_path) as [dir|] eqn:Hd; [|by intros [= <- <-]].
  cbn [ok_or mbind outcome_bind]. destruct (path_file_name store_path ≫= to_str) as [nm|] eqn:Hn; [|by intros [= <- <-]].
  cbn [ok_or mbind outcome_bind]. set (l := path_join dir (lock_name nm)).
  assert (Hl : lock_path_of store_path = Some l) by (unfold lock_path_of; by rewrite Hd; simpl; rewrite Hn).
  apply lock_path_of_Some in Hl as [Hlen Hne].
  destruct (pi_lock_open_fails io); [by intros [= <- <-]|]. destruct (fs !! l) as [n|] eqn:Hf.
  - intros [= <- <-]. split_and!; [done|done|by destruct (_ || _)].
  - intros [= <- <-]. split_and!; [intros q Hq; rewrite lookup_insert_ne; [done|intros <-; lia]|
      by rewrite lookup_insert_ne|by destruct (pi_lock_held io)].
Qed.

Lemma store_persist_returns io s fs : returns (store_persist to_vec store_path expected_uid io s fs).2.
Proof.
  unfold store_persist, st_bind, st_lift, st_err. destruct (store_lock store_path io fs) as [fs1 lk] eqn:Hlk.
  apply store_lock_spec in Hlk as (_ & _ & Hret). destruct lk as [[]|e|]; [|done..]. destruct (_ <? _); [done|].
  destruct (to_vec _); [|done]. simpl. destruct (_ <? _); [done|]. case_match.
  - destruct (pi_exists_fails _); [done|]. destruct (fs1 !! _); [|done]. by destruct (_ || _).
  - destruct (write_protected_file _ _ _ _ _ _ _) as [fs2 r] eqn:Hw.
    apply write_protected_file_spec in Hw as [_ Hr]. by destruct r.
Qed.

Lemma store_persist_checked io s fs fs' r :
  store_persist to_vec store_path expected_uid io s fs = (fs', r) → path_checked fs → path_checked fs'.
Proof.
  unfold store_persist, st_bind, st_lift, st_err. destruct (store_lock store_path io fs) as [fs1 lk] eqn:Hlk.
  apply store_lock_spec in Hlk as (Hag & Heq & Hret). intros H Hpc0.
  assert (Hpc : path_checked fs1).
  { revert Hpc0. apply path_checked_agree; [done|]. intros n. rewrite Heq. by left. }
  destruct lk as [[]|e|]; [|by injection H as <- <-|done]. destruct (_ <? _); [by injection H as <- <-|].
  destruct (to_vec (state_records s)) as [bytes|]; [|by injection H as <- <-]. simpl in H.
  destruct (_ <? _); [by injection H as <- <-|]. case_match.
  - destruct (pi_exists_fails io); [by injection H as <- <-|].
    destruct (fs1 !! store_path) as [n|]; [|by injection H as <- <-].
    destruct (_ || _); injection H as <- <-; [done|]. revert Hpc. apply path_checked_agree.
    + intros q Hq. rewrite lookup_delete_ne; [done|]. intros <-. lia.
    + intros m. by rewrite lookup_delete_eq.
  - apply write_protected_file_spec in H as [Hag' Hr]. revert Hpc. apply path_checked_agree; [done|].
    intros n. destruct r as [[]|e|]; [|rewrite Hr; by left|done]. destruct Hr as (-> & _). rewrite lookup_insert_eq.
    intros [= <-]. by right.
Qed.

(** After a successful write the file holds the state: it is read back when it is within
    what a private file may have. *)
Lemma store_persist_holds io s fs fs' :
  (∀ rs bytes, to_vec rs = Some bytes → from_slice bytes = Some rs) →
  (∀ bytes, to_vec (state_records s) = Some bytes → len bytes ≤ MAX_PRIVATE_MATERIAL_BYTES) →
  Forall (λ r, valid_persisted_record r = true) (state_records s) →
  path_checked fs → mi_euid (pi_material io) = expected_uid → pi_exists_fails io = false →
  store_persist to_vec store_path expected_uid io s fs = (fs', Ok tt) → file_holds fs' s.
Proof.
  intros Hjson Hsize Hvalid Hc Hu He. unfold store_persist, st_bind, st_lift, st_err.
  destruct (store_lock store_path io fs) as [fs1 lk] eqn:Hlk. apply store_lock_spec in Hlk as (Hag & Heq & Hret).
  assert (Hpc : path_checked fs1).
  { revert Hc. apply path_checked_agree; [done|]. intros n. rewrite Heq. by left. }
  destruct lk as [[]|e|]; [|done..]. destruct (Z.ltb_spec MAX_APPROVALS (len (state_records s))) as [|Hmax]; [done|].
  destruct (to_vec (state_records s)) as [bytes|] eqn:Hb; [|done]. simpl. specialize (Hsize _ eq_refl).
  destruct (_ <? _); [done|]. intros H io' Hio' He'. unfold store_load. rewrite He'. cbn [orb]. case_match eqn:Hemp.
  - bool_facts. rewrite state_records_empty by done. rewrite He in H.
    destruct (fs1 !! store_path) as [n|] eqn:Hn.
    + destruct (_ || _); [done|]. injection H as <-. by rewrite lookup_delete_eq.
    + injection H as <-. by rewrite Hn.
  - pose proof (write_protected_file_spec _ _ _ _ _ _ _ _ _ H) as (_ & Hfs & Hne & Hlen).
    rewrite bool_decide_eq_false_2 by (subst fs'; by rewrite lookup_insert_eq).
    rewrite (read_after_write (pi_material io) (pi_material io') store_path expected_uid Private BOOTSTRAP_FILE_LIMIT
               bytes fs1 fs'); [|done|done|done|done|by apply Hpc|done].
    cbn [mbind outcome_bind]. rewrite (Hjson _ _ Hb). cbn [ok_or mbind outcome_bind].
    rewrite (proj2 (Z.ltb_ge _ _)) by done. cbn [orb].
    assert (existsb (λ r, negb (valid_persisted_record r)) (state_records s) = false) as ->; [|done].
    revert Hvalid. clear. induction (state_records s) as [|r rs IH]; simpl; [done|].
    intros [-> H]%Forall_cons. simpl. by apply IH.
Qed.

(** A start on a file that holds [s] begins with [restarted s]. *)
Lemma store_restore_holds io fs s :
  approvals_keyed s → reads_faithfully (pi_material io) → pi_exists_fails io = false → file_holds fs s →
  store_restore from_slice store_path expected_uid io fs BootstrapState_default = Ok (restarted s).
Proof.
  intros Hk Hio He Hf. unfold store_restore. rewrite (Hf io Hio He). cbn [mbind outcome_bind].
  by apply restore_state_records.
Qed.

(** A state file larger than what [read_protected_file] takes for a private file is written
    all the same, and no later start can read it. *)
Lemma oversized_state_unreadable io io' s fs fs' bytes :
  ¬ state_empty s → to_vec (state_records s) = Some bytes → MAX_PRIVATE_MATERIAL_BYTES < len bytes →
  pi_exists_fails io' = false →
  store_persist to_vec store_path expected_uid io s fs = (fs', Ok tt) →
  ∃ e, store_load from_slice store_path expected_uid io' fs' = Err e.
Proof.
  intros Hne Hb Hbig He. unfold store_persist, st_bind, st_lift, st_err.
  destruct (store_lock store_path io fs) as [fs1 [[]|e|]]; [|done..]. destruct (_ <? _); [done|]. rewrite Hb. simpl.
  destruct (_ <? _); [done|]. case_match eqn:Hemp; [bool_facts; by destruct Hne|].
  intros H. pose proof (write_protected_file_spec _ _ _ _ _ _ _ _ _ H) as (_ & Hfs & _).
  unfold store_load. rewrite He. rewrite bool_decide_eq_false_2 by (subst fs'; by rewrite lookup_insert_eq).
  cbn [orb]. destruct (read_protected_file _ _ _ _ _ _ _) as [b|e|] eqn:Hr; [|by exists e|].
  - apply read_protected_file_Ok in Hr as (_ & n & _ & Hn & _ & (_ & _ & _ & Hl & _) & _).
    subst fs'. rewrite lookup_insert_eq in Hn. injection Hn as <-. unfold nd_len in Hl. simpl in Hl. lia.
  - by destruct (read_protected_file_returns (pi_material io') store_path expected_uid Private BOOTSTRAP_FILE_LIMIT fs' fs').
Qed.
End StoreFacts.
