(* ===== verification/BootstrapRuntime.v ===== *)
(** * The bootstrap runtime (src/src/bootstrap_runtime.rs, BootstrapRuntime)

    The production bootstrap: Core starts an attempt, the relay shows a code in a hidden
    Herdr workspace, the code submitted through Core buys one Core certificate, and the Core
    approval is confirmed by its first App and authorises later ones.  Every operation holds
    the state lock from its first use of the state to its end, so operations are atomic with
    respect to each other.  The clock, the random source, Herdr, the file system's failures
    and the certificate issuance (src/src/pki.rs) are the surroundings. *)
From S2P Require Import PairingVerifier EnrollmentV3Wire.
From S2P Require Export BootstrapState.

Definition MAX_ACTIVE_BOOTSTRAPS : Z := 8.
Definition MAX_PEER_STARTS : Z := 3.
Definition PEER_START_WINDOW_SECS : Z := 15 * 60.
Definition BOOTSTRAP_CODE_TTL_SECS : Z := 300.
Definition BOOTSTRAP_HARD_LIFETIME_SECS : Z := 330.
Definition CORE_APPROVAL_RECOVERY_TTL_SECS : Z := 24 * 60 * 60.
Definition MAX_CODE_FAILURES : Z := 5.

Record BootstrapChallenge : Type := {
  bg_id : list byte;
  bg_challenge : list byte;
  bg_expires_at_epoch_seconds : Z;
}.

Record AppApprovalContext : Type := {
  ac_approval_id : list byte;
  ac_core_identity : list byte;
  ac_app_csr : list byte;
  ac_app_csr_digest : list byte;
  ac_core_binding_digest : list byte;
  ac_normalized_session : list byte;
  ac_configuration_generation : Z;
}.

(** ** Pure parts *)

(** [reap_expired_core_approvals]. *)
Definition approval_expired (now : Z) (a : CoreApproval) : bool :=
  negb (ca_confirmed a) && negb (ca_recovery_expires_at_epoch_seconds a =? 0)
  && (ca_recovery_expires_at_epoch_seconds a <? now).
Definition reap_expired_core_approvals (s : BootstrapState) (now : Z) : BootstrapState * bool :=
  (put_core_approvals (filter (λ kv, approval_expired now kv.2 = false) (bs_core_approvals s)) s,
   map_any (approval_expired now) (bs_core_approvals s)).

(** [reap_expired_state]: the loops over the expired attempts and App approvals. *)
Definition reap_attempt (acc : BootstrapState * list (list byte * list byte)) (kv : list byte * BootstrapAttempt)
  : BootstrapState * list (list byte * list byte) :=
  let '(s, workspaces) := acc in
  (put_active_sessions (bs_active_sessions s ∖ {[ba_normalized_session kv.2]})
     (put_attempts (delete kv.1 (bs_attempts s)) s),
   workspaces ++ [(ba_normalized_session kv.2, ba_workspace_id kv.2)]).
Definition reap_approval (acc : BootstrapState * list (list byte * list byte)) (kv : list byte * AppApproval)
  : BootstrapState * list (list byte * list byte) :=
  let '(s, workspaces) := acc in
  (put_active_sessions (bs_active_sessions s ∖ {[aa_normalized_session kv.2]})
     (put_app_approvals (delete kv.1 (bs_app_approvals s)) s),
   workspaces ++ [(aa_normalized_session kv.2, aa_workspace_id kv.2)]).
Definition reap_expired_state (s : BootstrapState) (now : Z) : BootstrapState * list (list byte * list byte) :=
  let expired_attempts :=
    filter (λ kv, ba_hard_expires_at_epoch_seconds kv.2 < now) (btree_entries be_val (bs_attempts s)) in
  let acc := fold_left reap_attempt expired_attempts (s, []) in
  let expired_approvals :=
    filter (λ kv, aa_expires_at_epoch_seconds kv.2 < now) (btree_entries be_val (bs_app_approvals s)) in
  fold_left reap_approval expired_approvals acc.

(** [mint_id], from the random source: the first draw that is not zero and not in use. *)
Definition id_in_use (s : BootstrapState) (value : list byte) : bool :=
  bool_decide (value = zeros 32) || bool_decide (is_Some (bs_attempts s !! value))
  || bool_decide (is_Some (bs_core_approvals s !! value)) || bool_decide (is_Some (bs_app_approvals s !! value)).
Fixpoint mint_id (s : BootstrapState) (draws : list (list byte)) : option (list byte) :=
  match draws with
  | [] => None
  | value :: draws => if id_in_use s value then mint_id s draws else Some value
  end.

(** [parse_code]. *)
Definition parse_code (value : list byte) : brresult (list byte) :=
  if negb (len value =? 6) || negb (forallb is_ascii_digit value) then Err BrInvalidField else Ok value.

(** [verification_title]: [expiry] is the formatted local time of an instant, when there is one. *)
Definition verification_title (expiry : Z → option (list byte)) (code : list byte) (expires_at : Z)
  : brresult (list byte) :=
  if i64_max <? expires_at then Err BrInvalidField else
  text ← ok_or (expiry expires_at) BrInvalidField;
  Ok (code ++ str_lit " (expires " ++ text ++ str_lit ") - herdr-dog verification").

(** The pruning and the test of [peer_starts] in [start]. *)
Definition prune_starts (now : Z) (starts : gmap (list byte) (list Z)) : gmap (list byte) (list Z) :=
  omap (λ history, let kept := filter (λ t, u64_saturating_sub now t < PEER_START_WINDOW_SECS) history in
                   if bool_decide (kept = []) then None else Some kept) starts.

(** ** The surroundings *)
Record Issued : Type := {
  is_app_identity : list byte;
  is_certificate_chain : list (list byte);
  is_not_after_epoch_seconds : Z;
}.

(** What one operation meets: the clock, the draws of its [mint_id] and [random_code] loops,
    the outcome of the issuance, and the writes of the state file ([bi_store n] is the [n]th). *)
Record BootstrapIo : Type := {
  bi_now : option Z;
  bi_bootstrap_ids : list (list byte);
  bi_approval_ids : list (list byte);
  bi_challenges : list (list byte);
  bi_samples : list Z;
  bi_issue : list byte → option Issued;
  bi_store : nat → PersistIo;
}.

(** The shared state, the file system, and what Herdr was asked so far. *)
Record World (Value : Type) : Type := {
  wd_state : BootstrapState;
  wd_fs : FileSystem;
  wd_writes : nat;
  wd_log : list (HerdrRequest * brresult Value);
}.
Arguments wd_state {Value} _.
Arguments wd_fs {Value} _.
Arguments wd_writes {Value} _.
Arguments wd_log {Value} _.
Arguments Build_World {Value} _ _ _ _.

(** The fixed part of a [BootstrapRuntime]. *)
Record RuntimeConfig : Type := {
  rc_client : HerdrWorkspaceClient;
  rc_store_path : path;
  rc_expected_uid : Z;
}.

Section Runtime.
Context {Value : Type} (json_from_slice : list byte → option Value).
Context (get : Value → list byte → option Value) (as_str : Value → option (list byte)) (is_object : Value → bool).
Context (to_vec : records → option (list byte)) (from_slice : list byte → option records).
Context (base64_encode : list byte → list byte) (base64_decode : list byte → option (list byte)).
Context (sha256 : list byte → list byte) (expiry : Z → option (list byte)).
Context (random : nat → Z) (call : nat → list byte → HerdrRequest → HerdrCall).
Context (rt : RuntimeConfig).

Abbreviation running := (stateful (World Value) BootstrapRuntimeError).

Definition modify_state (f : BootstrapState → BootstrapState) : running unit :=
  λ w, (Build_World (f (wd_state w)) (wd_fs w) (wd_writes w) (wd_log w), Ok tt).
Definition get_state : running BootstrapState := λ w, (w, Ok (wd_state w)).

(** A call of the Herdr client. *)
Definition ask {A} (m : stateful (list (HerdrRequest * brresult Value)) BootstrapRuntimeError A) : running A :=
  λ w, let '(log, r) := m (wd_log w) in (Build_World (wd_state w) (wd_fs w) (wd_writes w) log, r).
Definition workspace_close (workspace_id : list byte) : running unit :=
  ask (herdr_close json_from_slice get as_str random call workspace_id).
Definition workspace_create (title : list byte) : running (list byte) :=
  ask (create_and_verify json_from_slice get as_str is_object random call (rc_client rt) title).

(** [self.store.persist(&state)], with any failure as [PersistenceFailed]. *)
Definition persist (io : BootstrapIo) : running unit := λ w,
  let '(fs, r) := store_persist to_vec (rc_store_path rt) (rc_expected_uid rt)
                    (bi_store io (wd_writes w)) (wd_state w) (wd_fs w) in
  (Build_World (wd_state w) fs (S (wd_writes w)) (wd_log w), map_err (λ _, BrPersistenceFailed) r).

(** [if let Err(_) = m]: the state is kept, the outcome handed on. *)
Definition attempt {A} (m : running A) : running bool := λ w, let '(w', r) := m w in (w', Ok (is_ok r)).

Definition clock (io : BootstrapIo) : running Z := st_lift (ok_or (bi_now io) BrWorkspaceUnavailable).

(** A loop over the random source: it has no end when no draw is taken, which is a value of
    the surroundings the model does not let return. *)
Definition drawn {A} (o : option A) : running A := st_lift (match o with Some a => Ok a | None => Panic end).

(** ** Housekeeping

    What [start], [reconcile] and [start_app_approval] do first: forget what expired, and
    close the workspaces that are left of it or of an earlier run. *)
Fixpoint close_all (workspaces todo : list (list byte * list byte)) : running unit :=
  match todo with
  | [] => st_ret tt
  | (_, workspace_id) :: todo =>
      (let! closed := attempt (workspace_close workspace_id) in
       if closed then close_all workspaces todo
       else do! modify_state (put_orphaned_workspaces workspaces); st_err BrWorkspaceUnavailable)%relay
  end.

Definition housekeeping (io : BootstrapIo) (now : Z) : running unit :=
  (let! s := get_state in
   let '(s, core_approvals_expired) := reap_expired_core_approvals s now in
   let orphaned := bs_orphaned_workspaces s in
   let '(s, reaped) := reap_expired_state (put_orphaned_workspaces [] s) now in
   let workspaces := orphaned ++ reaped in
   do! modify_state (λ _, s);
   do! close_all workspaces workspaces;
   if bool_decide (workspaces ≠ []) || core_approvals_expired then persist io else st_ret tt)%relay.

(** ** Bootstrap *)
Definition start (io : BootstrapIo) (peer_ip : list byte) (payload : Hdb1StartPayload) : running BootstrapChallenge :=
  (let! fields := st_lift (map_err (λ _, BrInvalidField)
                     (Hdb1StartPayload_decode_fields base64_encode base64_decode payload)) in
   let '(_, core_csr, app_csr_digest, normalized_session, core_binding_digest, configuration_generation) := fields in
   if bool_decide (normalized_session ≠ hw_normalized_session (rc_client rt)) || (HDB1_MAX_CSR_BYTES <? len core_csr)
      || bool_decide (app_csr_digest = zeros HDB1_DIGEST_BYTES) || bool_decide (core_binding_digest = zeros HDB1_DIGEST_BYTES)
      || (configuration_generation =? 0)
   then st_err BrAuthorityMismatch else
   let! now := clock io in
   do! housekeeping io now;
   let! s := get_state in
   if (MAX_ACTIVE_BOOTSTRAPS <=? map_len (bs_attempts s))
      || (MAX_APPROVALS <=? map_len (bs_core_approvals s) + map_len (bs_app_approvals s))
   then st_err BrCapacityExhausted else
   if bool_decide (normalized_session ∈ bs_active_sessions s) then st_err BrAlreadyActive else
   do! modify_state (λ s, put_peer_starts (prune_starts now (bs_peer_starts s)) s);
   let! s := get_state in
   let peer_history := default [] (bs_peer_starts s !! peer_ip) in
   if MAX_PEER_STARTS <=? len peer_history
   then do! modify_state (λ s, put_peer_starts (<[peer_ip := peer_history]> (bs_peer_starts s)) s);
        st_err BrPeerRateLimited
   else
   do! modify_state (λ s, put_peer_starts (<[peer_ip := peer_history ++ [now]]> (bs_peer_starts s)) s);
   let! bootstrap_id := drawn (mint_id s (bi_bootstrap_ids io)) in
   let! approval_id := drawn (mint_id s (bi_approval_ids io)) in
   let! challenge := drawn (mint_id s (bi_challenges io)) in
   let! code := drawn (random_code (bi_samples io)) in
   let! expires_at := st_lift (ok_or (u64_checked_add now BOOTSTRAP_CODE_TTL_SECS) BrInvalidField) in
   let! hard_expires_at := st_lift (ok_or (u64_checked_add now BOOTSTRAP_HARD_LIFETIME_SECS) BrInvalidField) in
   let! title := st_lift (verification_title expiry code expires_at) in
   let! workspace_id := workspace_create title in
   do! modify_state (λ s,
         put_attempts
           (<[bootstrap_id :=
                {| ba_peer_ip := peer_ip; ba_approval_id := approval_id; ba_challenge := challenge; ba_code := code;
                   ba_core_csr := core_csr; ba_app_csr_digest := app_csr_digest;
                   ba_core_binding_digest := core_binding_digest; ba_normalized_session := normalized_session;
                   ba_configuration_generation := configuration_generation; ba_workspace_id := workspace_id;
                   ba_expires_at_epoch_seconds := expires_at; ba_hard_expires_at_epoch_seconds := hard_expires_at;
                   ba_failed_codes := 0 |}]> (bs_attempts s))
           (put_active_sessions ({[normalized_session]} ∪ bs_active_sessions s) s));
   let! persisted := attempt (persist io) in
   if persisted
   then st_ret {| bg_id := bootstrap_id; bg_challenge := challenge; bg_expires_at_epoch_seconds := expires_at |}
   else
   do! modify_state (λ s,
         put_attempts (delete bootstrap_id (bs_attempts s))
           (put_active_sessions (bs_active_sessions s ∖ {[normalized_session]}) s));
   let! closed := attempt (workspace_close workspace_id) in
   st_err BrPersistenceFailed)%relay.

Definition abort (io : BootstrapIo) (bootstrap_id : list byte) : running unit :=
  (let! s := get_state in
   match bs_attempts s !! bootstrap_id with
   | None => st_ret tt
   | Some a =>
       do! modify_state (λ s,
             put_active_sessions (bs_active_sessions s ∖ {[ba_normalized_session a]})
               (put_attempts (delete bootstrap_id (bs_attempts s)) s));
       let! closed := attempt (workspace_close (ba_workspace_id a)) in
       do! (if closed then st_ret tt
            else modify_state (λ s, put_orphaned_workspaces
                   (bs_orphaned_workspaces s ++ [(ba_normalized_session a, ba_workspace_id a)]) s));
       do! persist io;
       if closed then st_ret tt else st_err BrWorkspaceUnavailable
   end)%relay.

(** The end of an attempt in [submit]: its workspace is closed first. *)
Definition end_attempt (bootstrap_id : list byte) (a : BootstrapAttempt) : running unit :=
  (let! closed := attempt (workspace_close (ba_workspace_id a)) in
   if negb closed then st_err BrWorkspaceUnavailable else
   modify_state (λ s, put_attempts (delete bootstrap_id (bs_attempts s))
     (put_active_sessions (bs_active_sessions s ∖ {[ba_normalized_session a]}) s)))%relay.

Definition fail_attempt (a : BootstrapAttempt) : BootstrapAttempt :=
  {| ba_peer_ip := ba_peer_ip a; ba_approval_id := ba_approval_id a; ba_challenge := ba_challenge a;
     ba_code := ba_code a; ba_core_csr := ba_core_csr a; ba_app_csr_digest := ba_app_csr_digest a;
     ba_core_binding_digest := ba_core_binding_digest a; ba_normalized_session := ba_normalized_session a;
     ba_configuration_generation := ba_configuration_generation a; ba_workspace_id := ba_workspace_id a;
     ba_expires_at_epoch_seconds := ba_expires_at_epoch_seconds a;
     ba_hard_expires_at_epoch_seconds := ba_hard_expires_at_epoch_seconds a;
     ba_failed_codes := u8_saturating_add (ba_failed_codes a) 1 |}.

Definition submit (io : BootstrapIo) (peer_ip bootstrap_id challenge code : list byte) : running CoreIssuedMaterial :=
  (let! supplied := st_lift (parse_code code) in
   let! now := clock io in
   let! s := get_state in
   let! a := st_lift (ok_or (bs_attempts s !! bootstrap_id) BrNotFound) in
   if bool_decide (ba_peer_ip a ≠ peer_ip) || bool_decide (ba_challenge a ≠ challenge)
   then st_err BrAuthorityMismatch else
   if (ba_expires_at_epoch_seconds a <? now) || (ba_hard_expires_at_epoch_seconds a <? now)
   then do! end_attempt bootstrap_id a; do! persist io; st_err BrExpired else
   if negb (constant_time_equal (ba_code a) supplied)
   then
     let failed := fail_attempt a in
     do! modify_state (λ s, put_attempts (<[bootstrap_id := failed]> (bs_attempts s)) s);
     if MAX_CODE_FAILURES <=? ba_failed_codes failed
     then do! end_attempt bootstrap_id failed; do! persist io; st_err BrCodeRateLimited
     else do! persist io; st_err BrCodeMismatch
   else
   do! end_attempt bootstrap_id a;
   let! issued := st_lift (ok_or (bi_issue io (ba_core_csr a)) BrPersistenceFailed) in
   let! recovery_expires_at := st_lift (ok_or (u64_checked_add now CORE_APPROVAL_RECOVERY_TTL_SECS) BrInvalidField) in
   let material :=
     {| cm_approval_id := ba_approval_id a; cm_core_identity := is_app_identity issued;
        cm_certificate_chain := is_certificate_chain issued;
        cm_not_after_epoch_seconds := is_not_after_epoch_seconds issued |} in
   do! modify_state (λ s, put_core_approvals
         (<[ba_approval_id a :=
              {| ca_core_identity := is_app_identity issued; ca_app_csr_digest := ba_app_csr_digest a;
                 ca_core_binding_digest := ba_core_binding_digest a; ca_normalized_session := ba_normalized_session a;
                 ca_configuration_generation := ba_configuration_generation a; ca_confirmed := false;
                 ca_recovery_expires_at_epoch_seconds := recovery_expires_at; ca_issued := material |}]>
           (bs_core_approvals s)) s);
   do! persist io;
   st_ret material)%relay.

Definition reconcile (io : BootstrapIo) (approval_id core_binding_digest normalized_session : list byte)
  : running CoreIssuedMaterial :=
  (let! now := clock io in
   do! housekeeping io now;
   let! s := get_state in
   let! a := st_lift (ok_or (bs_core_approvals s !! approval_id) BrNotFound) in
   if bool_decide (ca_core_binding_digest a ≠ core_binding_digest)
      || bool_decide (ca_normalized_session a ≠ normalized_session)
   then st_err BrAuthorityMismatch else st_ret (ca_issued a))%relay.

(** ** First App *)

(** The expiry test of [authorize_first_app] and [confirm_first_app]. *)
Definition expire_approval (io : BootstrapIo) (now : Z) (approval_id : list byte) : running unit :=
  (let! s := get_state in
   if match bs_core_approvals s !! approval_id with
      | Some a => negb (ca_confirmed a) && (ca_recovery_expires_at_epoch_seconds a <? now)
      | None => false
      end
   then do! modify_state (λ s, put_core_approvals (delete approval_id (bs_core_approvals s)) s);
        do! persist io; st_err BrExpired
   else st_ret tt)%relay.

Definition authorize_first_app (io : BootstrapIo) (core_identity approval_id app_csr_digest : list byte) : running Z :=
  (let! now := clock io in
   do! expire_approval io now approval_id;
   let! s := get_state in
   let! a := st_lift (ok_or (bs_core_approvals s !! approval_id) BrNotFound) in
   if ca_confirmed a || bool_decide (ca_core_identity a ≠ core_identity)
      || bool_decide (ca_app_csr_digest a ≠ app_csr_digest)
   then st_err BrAuthorityMismatch else st_ret (ca_configuration_generation a))%relay.

Definition confirm_approval (a : CoreApproval) : CoreApproval :=
  {| ca_core_identity := ca_core_identity a; ca_app_csr_digest := ca_app_csr_digest a;
     ca_core_binding_digest := ca_core_binding_digest a; ca_normalized_session := ca_normalized_session a;
     ca_configuration_generation := ca_configuration_generation a; ca_confirmed := true;
     ca_recovery_expires_at_epoch_seconds := 0; ca_issued := ca_issued a |}.

Definition confirm_first_app (io : BootstrapIo) (core_identity approval_id app_csr_digest : list byte)
    (configuration_generation : Z) : running unit :=
  (let! now := clock io in
   do! expire_approval io now approval_id;
   let! s := get_state in
   let! a := st_lift (ok_or (bs_core_approvals s !! approval_id) BrNotFound) in
   if bool_decide (ca_core_identity a ≠ core_identity) || bool_decide (ca_app_csr_digest a ≠ app_csr_digest)
      || negb (ca_configuration_generation a =? configuration_generation)
   then st_err BrAuthorityMismatch else
   if ca_confirmed a then st_ret tt else
   do! modify_state (λ s, put_core_approvals (<[approval_id := confirm_approval a]> (bs_core_approvals s)) s);
   persist io)%relay.

(** ** Later Apps *)
Definition core_approved (s : BootstrapState) (core_identity core_binding_digest normalized_session : list byte)
    (configuration_generation : Z) : bool :=
  map_any (λ a, bool_decide (ca_core_identity a = core_identity)
                && bool_decide (ca_core_binding_digest a = core_binding_digest)
                && bool_decide (ca_normalized_session a = normalized_session)
                && (ca_configuration_generation a =? configuration_generation) && ca_confirmed a)
          (bs_core_approvals s).

Definition start_app_approval (io : BootstrapIo) (core_identity app_csr_digest core_binding_digest normalized_session : list byte)
    (configuration_generation : Z) : running BootstrapChallenge :=
  (if negb (is_valid_session normalized_session) || bool_decide (normalized_session ≠ hw_normalized_session (rc_client rt))
      || bool_decide (app_csr_digest = zeros HDB1_DIGEST_BYTES) || bool_decide (core_binding_digest = zeros HDB1_DIGEST_BYTES)
      || (configuration_generation =? 0)
   then st_err BrInvalidField else
   let! now := clock io in
   do! housekeeping io now;
   let! s := get_state in
   if negb (core_approved s core_identity core_binding_digest normalized_session configuration_generation)
   then st_err BrAuthorityMismatch else
   if bool_decide (normalized_session ∈ bs_active_sessions s) then st_err BrAlreadyActive else
   if MAX_APPROVALS <=? map_len (bs_app_approvals s) then st_err BrCapacityExhausted else
   let! approval_id := drawn (mint_id s (bi_approval_ids io)) in
   let! challenge := drawn (mint_id s (bi_challenges io)) in
   let! code := drawn (random_code (bi_samples io)) in
   let! expires_at := st_lift (ok_or (u64_checked_add now BOOTSTRAP_CODE_TTL_SECS) BrInvalidField) in
   let! title := st_lift (verification_title expiry code expires_at) in
   let! workspace_id := workspace_create title in
   do! modify_state (λ s,
         put_app_approvals
           (<[approval_id :=
                {| aa_core_identity := core_identity; aa_app_csr_digest := app_csr_digest;
                   aa_core_binding_digest := core_binding_digest; aa_normalized_session := normalized_session;
                   aa_configuration_generation := configuration_generation; aa_challenge := challenge;
                   aa_code := code; aa_workspace_id := workspace_id; aa_expires_at_epoch_seconds := expires_at;
                   aa_failed_codes := 0 |}]> (bs_app_approvals s))
           (put_active_sessions ({[normalized_session]} ∪ bs_active_sessions s) s));
   let! persisted := attempt (persist io) in
   if persisted
   then st_ret {| bg_id := approval_id; bg_challenge := challenge; bg_expires_at_epoch_seconds := expires_at |}
   else
   do! modify_state (λ s,
         put_app_approvals (delete approval_id (bs_app_approvals s))
           (put_active_sessions (bs_active_sessions s ∖ {[normalized_session]}) s));
   let! closed := attempt (workspace_close workspace_id) in
   st_err BrPersistenceFailed)%relay.

Definition end_approval (approval_id : list byte) (a : AppApproval) : running unit :=
  (let! closed := attempt (workspace_close (aa_workspace_id a)) in
   if negb closed then st_err BrWorkspaceUnavailable else
   modify_state (λ s, put_app_approvals (delete approval_id (bs_app_approvals s))
     (put_active_sessions (bs_active_sessions s ∖ {[aa_normalized_session a]}) s)))%relay.

Definition fail_approval (a : AppApproval) : AppApproval :=
  {| aa_core_identity := aa_core_identity a; aa_app_csr_digest := aa_app_csr_digest a;
     aa_core_binding_digest := aa_core_binding_digest a; aa_normalized_session := aa_normalized_session a;
     aa_configuration_generation := aa_configuration_generation a; aa_challenge := aa_challenge a;
     aa_code := aa_code a; aa_workspace_id := aa_workspace_id a;
     aa_expires_at_epoch_seconds := aa_expires_at_epoch_seconds a;
     aa_failed_codes := u8_saturating_add (aa_failed_codes a) 1 |}.

Definition submit_app_approval (io : BootstrapIo) (core_identity approval_id challenge code app_csr app_csr_digest : list byte)
  : running AppApprovalContext :=
  (if bool_decide (app_csr = []) || (HDE3_MAX_CSR_BYTES <? len app_csr) || bool_decide (sha256 app_csr ≠ app_csr_digest)
   then st_err BrInvalidField else
   let! supplied := st_lift (parse_code code) in
   let! now := clock io in
   let! s := get_state in
   let! a := st_lift (ok_or (bs_app_approvals s !! approval_id) BrNotFound) in
   if bool_decide (aa_core_identity a ≠ core_identity) || bool_decide (aa_challenge a ≠ challenge)
      || bool_decide (aa_app_csr_digest a ≠ app_csr_digest)
   then st_err BrAuthorityMismatch else
   if aa_expires_at_epoch_seconds a <? now
   then do! end_approval approval_id a; do! persist io; st_err BrExpired else
   if negb (constant_time_equal (aa_code a) supplied)
   then
     let failed := fail_approval a in
     do! modify_state (λ s, put_app_approvals (<[approval_id := failed]> (bs_app_approvals s)) s);
     if MAX_CODE_FAILURES <=? aa_failed_codes failed
     then do! end_approval approval_id failed; do! persist io; st_err BrCodeRateLimited
     else do! persist io; st_err BrCodeMismatch
   else
   do! end_approval approval_id a;
   do! persist io;
   st_ret {| ac_approval_id := approval_id; ac_core_identity := aa_core_identity a; ac_app_csr := app_csr;
             ac_app_csr_digest := app_csr_digest; ac_core_binding_digest := aa_core_binding_digest a;
             ac_normalized_session := aa_normalized_session a;
             ac_configuration_generation := aa_configuration_generation a |})%relay.

(** ** Calls *)
Inductive BootstrapOp : Type :=
| OpStart (peer_ip : list byte) (payload : Hdb1StartPayload)
| OpAbort (bootstrap_id : list byte)
| OpSubmit (peer_ip bootstrap_id challenge code : list byte)
| OpReconcile (approval_id core_binding_digest normalized_session : list byte)
| OpAuthorizeFirstApp (core_identity approval_id app_csr_digest : list byte)
| OpConfirmFirstApp (core_identity approval_id app_csr_digest : list byte) (configuration_generation : Z)
| OpStartApp (core_identity app_csr_digest core_binding_digest normalized_session : list byte) (configuration_generation : Z)
| OpSubmitApp (core_identity approval_id challenge code app_csr app_csr_digest : list byte).

Inductive BootstrapAnswer : Type :=
| Challenged (challenge : BootstrapChallenge)
| IssuedCore (material : CoreIssuedMaterial)
| Authorized (configuration_generation : Z)
| ApprovedApp (context : AppApprovalContext)
| Done.

Definition answering {A} (f : A → BootstrapAnswer) (m : running A) : running BootstrapAnswer :=
  (let! a := m in st_ret (f a))%relay.

Definition run_op (io : BootstrapIo) (op : BootstrapOp) : running BootstrapAnswer :=
  match op with
  | OpStart peer_ip payload => answering Challenged (start io peer_ip payload)
  | OpAbort bootstrap_id => answering (λ _, Done) (abort io bootstrap_id)
  | OpSubmit peer_ip bootstrap_id challenge code => answering IssuedCore (submit io peer_ip bootstrap_id challenge code)
  | OpReconcile approval_id core_binding_digest normalized_session =>
      answering IssuedCore (reconcile io approval_id core_binding_digest normalized_session)
  | OpAuthorizeFirstApp core_identity approval_id app_csr_digest =>
      answering Authorized (authorize_first_app io core_identity approval_id app_csr_digest)
  | OpConfirmFirstApp core_identity approval_id app_csr_digest configuration_generation =>
      answering (λ _, Done) (confirm_first_app io core_identity approval_id app_csr_digest configuration_generation)
  | OpStartApp core_identity app_csr_digest core_binding_digest normalized_session configuration_generation =>
      answering Challenged
        (start_app_approval io core_identity app_csr_digest core_binding_digest normalized_session configuration_generation)
  | OpSubmitApp core_identity approval_id challenge code app_csr app_csr_digest =>
      answering ApprovedApp (submit_app_approval io core_identity approval_id challenge code app_csr app_csr_digest)
  end.

(** Calls one after the other, in the order in which they take the lock. *)
Fixpoint run_ops (calls : list (BootstrapIo * BootstrapOp)) (w : World Value)
  : World Value * list (brresult BootstrapAnswer) :=
  match calls with
  | [] => (w, [])
  | (io, op) :: calls =>
      let '(w1, answer) := run_op io op w in
      let '(w2, answers) := run_ops calls w1 in (w2, answer :: answers)
  end.
End Runtime.

(** [BootstrapRuntime::new]: [enabled], the paths and the session are those of the
    configuration, [socket_accepted] whether the connector takes the socket path. *)
Definition runtime_new (from_slice : list byte → option records) (enabled socket_accepted : bool)
    (verification_cwd session : list byte) (state_path : path) (expected_uid : Z) (open_io : MaterialIo) (io : PersistIo)
    (fs : FileSystem) : relay_result (RuntimeConfig * BootstrapState) :=
  if negb enabled
  then Err (InvalidConfiguration "enrollment.enabled" "bootstrap requires enrollment to be enabled") else
  client ← map_err (λ _, InvalidConfiguration "enrollment.bootstrap_verification_cwd"
                           "bootstrap workspace configuration is invalid")
             (HerdrWorkspaceClient_new socket_accepted verification_cwd session);
  _ ← store_open state_path expected_uid open_io fs;
  state ← store_restore from_slice state_path expected_uid io fs BootstrapState_default;
  Ok ({| rc_client := client; rc_store_path := state_path; rc_expected_uid := expected_uid |}, state).

(** * Facts *)

(** ** Pure parts *)
Lemma parse_code_Ok value code : parse_code value = Ok code ↔ code = value ∧ length value = 6%nat ∧ forallb is_ascii_digit value = true.
Proof.
  unfold parse_code, len. split.
  - destruct (_ || _) eqn:Hc; [done|]. intros [= <-]. bool_facts. split_and!; [done|lia|done].
  - intros (-> & Hl & Hd). by rewrite Hl, Hd.
Qed.

Lemma mint_id_Some s draws value :
  mint_id s draws = Some value → value ∈ draws ∧ value ≠ zeros 32 ∧ bs_attempts s !! value = None
    ∧ bs_core_approvals s !! value = None ∧ bs_app_approvals s !! value = None.
Proof.
  induction draws as [|d draws IH]; simpl; [done|]. destruct (id_in_use s d) eqn:Hu.
  - intros (? & ?)%IH. split; [by right|done].
  - intros [= <-]. unfold id_in_use in Hu. bool_facts. rewrite <-!eq_None_not_Some in *. split; [by left|done].
Qed.

(** The loop returns: among more distinct draws than there are identifiers in use, one is free. *)
Lemma mint_id_terminates s draws :
  NoDup draws → 1 + map_len (bs_attempts s) + map_len (bs_core_approvals s) + map_len (bs_app_approvals s) < len draws →
  ∃ value, mint_id s draws = Some value.
Proof.
  intros Hnd Hlen.
  set (used := zeros 32 :: (map_to_list (bs_attempts s)).*1 ++ (map_to_list (bs_core_approvals s)).*1
                 ++ (map_to_list (bs_app_approvals s)).*1).
  assert (Hn : mint_id s draws = None → draws ⊆ used).
  { clear. induction draws as [|d draws IH]; simpl; [intros _; apply list_subseteq_nil|].
    destruct (id_in_use s d) eqn:Hu; [|done]. intros Hm%IH. intros x [->|Hx]%elem_of_cons; [|by apply Hm].
    unfold id_in_use in Hu. unfold used. rewrite elem_of_cons, !elem_of_app, !list_elem_of_fmap.
    rewrite !orb_true_iff, !bool_decide_eq_true in Hu.
    destruct Hu as [[[->|[a Ha]]|[a Ha]]|[a Ha]]; [by left|right; left|right; right; left|right; right; right];
      exists (d, a); (split; [done|by apply elem_of_map_to_list]). }
  destruct (mint_id s draws) as [value|]; [by exists value|]. exfalso.
  pose proof (submseteq_length _ _ (NoDup_submseteq _ _ Hnd (Hn eq_refl))) as Hle. unfold used in Hle.
  simpl in Hle. rewrite !length_app, !length_fmap, !length_map_to_list in Hle. unfold len, map_len in Hlen. lia.
Qed.

Lemma prune_starts_lookup now starts ip h :
  prune_starts now starts !! ip = Some h → ∃ h0, starts !! ip = Some h0 ∧ h ≠ [] ∧ sublist h h0.
Proof.
  unfold prune_starts. rewrite lookup_omap. intros (h0 & Hh0 & H)%bind_Some. cbv zeta in H.
  case_bool_decide; [done|]. injection H as <-. exists h0. split_and!; [done|done|apply sublist_filter].
Qed.

(** ** Running *)
Section RunFacts.
Context {Value : Type} (json_from_slice : list byte → option Value).
Context (get : Value → list byte → option Value) (as_str : Value → option (list byte)) (is_object : Value → bool).
Context (to_vec : records → option (list byte)).
Context (random : nat → Z) (call : nat → list byte → HerdrRequest → HerdrCall).
Context (rt : RuntimeConfig).

Lemma wp_drawn {A} (o : option A) (Q : brresult A → World Value → Prop) w :
  (∀ a, o = Some a → Q (Ok a) w) → (o = None → Q Panic w) → wp (drawn o) Q w.
Proof. intros Hs Hn. unfold wp, drawn, st_lift. destruct o; auto. Qed.
Lemma wp_clock io (Q : brresult Z → World Value → Prop) w :
  (∀ now, bi_now io = Some now → Q (Ok now) w) → Q (Err BrWorkspaceUnavailable) w → wp (clock io) Q w.
Proof. intros Hs Hn. unfold wp, clock, st_lift. destruct (bi_now io); simpl; auto. Qed.
Lemma wp_get (Q : brresult BootstrapState → World Value → Prop) w : Q (Ok (wd_state w)) w → wp get_state Q w.
Proof. done. Qed.
Lemma wp_modify f (Q : brresult unit → World Value → Prop) w :
  Q (Ok tt) (Build_World (f (wd_state w)) (wd_fs w) (wd_writes w) (wd_log w)) → wp (modify_state f) Q w.
Proof. done. Qed.
Lemma wp_attempt {A} (m : stateful (World Value) BootstrapRuntimeError A) (Q : brresult bool → World Value → Prop) w :
  wp m (λ r w', Q (Ok (is_ok r)) w') w → wp (attempt m) Q w.
Proof. unfold wp, attempt. by destruct (m w). Qed.

(** A write never changes the state in memory. *)
Lemma wp_persist io (Q : brresult unit → World Value → Prop) w :
  (∀ fs r, store_persist to_vec (rc_store_path rt) (rc_expected_uid rt) (bi_store io (wd_writes w)) (wd_state w) (wd_fs w)
             = (fs, r) → returns r →
           Q (map_err (λ _, BrPersistenceFailed) r) (Build_World (wd_state w) fs (S (wd_writes w)) (wd_log w))) →
  wp (persist to_vec rt io) Q w.
Proof.
  intros H. unfold wp, persist. destruct (store_persist _ _ _ _ _ _) as [fs r] eqn:Hp.
  apply H; [done|]. pose proof (store_persist_returns to_vec (rc_store_path rt) (rc_expected_uid rt)
    (bi_store io (wd_writes w)) (wd_state w) (wd_fs w)) as Hr. by rewrite Hp in Hr.
Qed.

Lemma wp_close workspace_id (Q : brresult unit → World Value → Prop) w :
  (∀ log r, returns r → Q r (Build_World (wd_state w) (wd_fs w) (wd_writes w) log)) →
  wp (workspace_close json_from_slice get as_str random call workspace_id) Q w.
Proof.
  intros H. unfold wp, workspace_close, ask. pose proof (herdr_close_returns json_from_slice get as_str random call workspace_id (wd_log w)) as Hr.
  destruct (herdr_close _ _ _ _ _ _ _). by apply H.
Qed.

Lemma wp_create title (Q : brresult (list byte) → World Value → Prop) w :
  (∀ log r, returns r → (∀ id, r = Ok id → id ≠ [] ∧ len id ≤ WORKSPACE_ID_MAX_BYTES) →
     Q r (Build_World (wd_state w) (wd_fs w) (wd_writes w) log)) →
  wp (workspace_create json_from_slice get as_str is_object random call rt title) Q w.
Proof.
  intros H. unfold wp, workspace_create, ask. destruct (create_and_verify _ _ _ _ _ _ _ _ _) as [log r] eqn:Hc.
  apply create_and_verify_spec in Hc as [Hr Hid]. apply H; [done|]. intros id Hok. destruct (Hid id Hok) as (? & ? & _). done.
Qed.
End RunFacts.

(** ** The invariant

    At most one verification is under way, for the configured session, and everything kept
    would be accepted by a restart. *)
Section Invariant.
Context (session : list byte).

Definition attempt_ok (id : list byte) (a : BootstrapAttempt) : Prop :=
  ba_normalized_session a = session ∧ length (ba_code a) = 6%nat
  ∧ valid_persisted_record (pending_bootstrap_record id a) = true.
Definition app_ok (id : list byte) (a : AppApproval) : Prop :=
  aa_normalized_session a = session ∧ length (aa_code a) = 6%nat
  ∧ valid_persisted_record (pending_app_record id a) = true.

Inductive live (s : BootstrapState) : Prop :=
| live_none : bs_attempts s = ∅ → bs_app_approvals s = ∅ → bs_active_sessions s = ∅ → live s
| live_attempt id a :
    bs_attempts s = {[id := a]} → bs_app_approvals s = ∅ → bs_active_sessions s = {[session]} → attempt_ok id a → live s
| live_app id a :
    bs_attempts s = ∅ → bs_app_approvals s = {[id := a]} → bs_active_sessions s = {[session]} → app_ok id a → live s.

Definition core_ok (id : list byte) (a : CoreApproval) : Prop :=
  cm_approval_id (ca_issued a) = id ∧ cm_core_identity (ca_issued a) = ca_core_identity a
  ∧ valid_persisted_record (core_issued_record a) = true.

Record runtime_inv (s : BootstrapState) : Prop := {
  ri_live : live s;
  ri_core : ∀ id a, bs_core_approvals s !! id = Some a → core_ok id a;
  ri_bound : map_len (bs_core_approvals s) + map_len (bs_attempts s) ≤ MAX_APPROVALS;
  ri_starts : ∀ ip h, bs_peer_starts s !! ip = Some h → h ≠ [] ∧ len h ≤ MAX_PEER_STARTS;
}.

Lemma runtime_inv_proper s s' :
  runtime_inv s → bs_attempts s' = bs_attempts s → bs_core_approvals s' = bs_core_approvals s →
  bs_app_approvals s' = bs_app_approvals s → bs_active_sessions s' = bs_active_sessions s →
  (∀ ip h, bs_peer_starts s' !! ip = Some h → h ≠ [] ∧ len h ≤ MAX_PEER_STARTS) → runtime_inv s'.
Proof.
  intros [Hl Hc Hb Hs] Ha Hca Hap Hac Hps. split; rewrite ?Ha, ?Hca; try done.
  destruct Hl; [apply live_none|eapply live_attempt|eapply live_app]; try done; congruence.
Qed.

Lemma runtime_inv_orphans s o : runtime_inv s → runtime_inv (put_orphaned_workspaces o s).
Proof. intros Hi. eapply runtime_inv_proper; try done. apply Hi. Qed.

Lemma runtime_inv_starts s st :
  runtime_inv s → (∀ ip h, st !! ip = Some h → h ≠ [] ∧ len h ≤ MAX_PEER_STARTS) → runtime_inv (put_peer_starts st s).
Proof. intros Hi Hs. by eapply runtime_inv_proper. Qed.

(** A subset of the core approvals will do. *)
Lemma runtime_inv_core_subset s c :
  runtime_inv s → c ⊆ bs_core_approvals s → runtime_inv (put_core_approvals c s).
Proof.
  intros [Hl Hc Hb Hs] Hsub. split; simpl; try done.
  - destruct Hl; [by apply live_none|by eapply live_attempt|by eapply live_app].
  - intros id a Hid. apply Hc. by eapply lookup_weaken.
  - apply map_len_mono in Hsub. lia.
Qed.

(** The attempt or approval that is under way is the only one. *)
Lemma live_attempt_eq s id a :
  live s → bs_attempts s !! id = Some a →
  bs_attempts s = {[id := a]} ∧ bs_app_approvals s = ∅ ∧ bs_active_sessions s = {[session]} ∧ attempt_ok id a.
Proof.
  intros [Ha ? ?|id' a' Ha Hb Hc Hok|id' a' Ha Hb Hc Hok]; rewrite Ha; [by rewrite lookup_empty| |by rewrite lookup_empty].
  intros [<- <-]%lookup_singleton_Some. done.
Qed.
Lemma live_app_eq s id a :
  live s → bs_app_approvals s !! id = Some a →
  bs_attempts s = ∅ ∧ bs_app_approvals s = {[id := a]} ∧ bs_active_sessions s = {[session]} ∧ app_ok id a.
Proof.
  intros [Ha Hb ?|id' a' Ha Hb Hc Hok|id' a' Ha Hb Hc Hok]; rewrite Hb; [by rewrite lookup_empty|by rewrite lookup_empty|].
  intros [<- <-]%lookup_singleton_Some. done.
Qed.

Lemma live_idle s : live s → session ∉ bs_active_sessions s →
  bs_attempts s = ∅ ∧ bs_app_approvals s = ∅ ∧ bs_active_sessions s = ∅.
Proof. intros [?|?? _ _ -> _|?? _ _ -> _]; set_solver. Qed.

(** Taking the attempt out, and putting one in. *)
Lemma runtime_inv_end_attempt s id a :
  runtime_inv s → bs_attempts s !! id = Some a →
  runtime_inv (put_attempts (delete id (bs_attempts s))
                 (put_active_sessions (bs_active_sessions s ∖ {[ba_normalized_session a]}) s)).
Proof.
  intros [Hl Hc Hb Hs] Hid. destruct (live_attempt_eq s id a Hl Hid) as (Ha & Hap & Hac & (Hse & _)).
  split; simpl; try done.
  - apply live_none; simpl; [by rewrite Ha, delete_singleton_eq|done|rewrite Hac, Hse; set_solver].
  - pose proof (map_len_delete_le (bs_attempts s) id). lia.
Qed.

Lemma runtime_inv_end_app s id a :
  runtime_inv s → bs_app_approvals s !! id = Some a →
  runtime_inv (put_app_approvals (delete id (bs_app_approvals s))
                 (put_active_sessions (bs_active_sessions s ∖ {[aa_normalized_session a]}) s)).
Proof.
  intros [Hl Hc Hb Hs] Hid. destruct (live_app_eq s id a Hl Hid) as (Ha & Hap & Hac & (Hse & _)).
  split; simpl; try done.
  apply live_none; simpl; [done|by rewrite Hap, delete_singleton_eq|rewrite Hac, Hse; set_solver].
Qed.

Lemma runtime_inv_update_attempt s id a a' :
  runtime_inv s → bs_attempts s !! id = Some a → attempt_ok id a' →
  runtime_inv (put_attempts (<[id := a']> (bs_attempts s)) s).
Proof.
  intros [Hl Hc Hb Hs] Hid Hok. destruct (live_attempt_eq s id a Hl Hid) as (Ha & Hap & Hac & _).
  split; simpl; try done.
  - apply (live_attempt _ id a'); simpl; try done. by rewrite Ha, insert_singleton_eq.
  - rewrite map_len_insert_eq by eauto. done.
Qed.

Lemma runtime_inv_update_app s id a a' :
  runtime_inv s → bs_app_approvals s !! id = Some a → app_ok id a' →
  runtime_inv (put_app_approvals (<[id := a']> (bs_app_approvals s)) s).
Proof.
  intros [Hl Hc Hb Hs] Hid Hok. destruct (live_app_eq s id a Hl Hid) as (Ha & Hap & Hac & _).
  split; simpl; try done.
  apply (live_app _ id a'); simpl; try done. by rewrite Hap, insert_singleton_eq.
Qed.

Lemma runtime_inv_begin_attempt s id a :
  runtime_inv s → session ∉ bs_active_sessions s → map_len (bs_core_approvals s) < MAX_APPROVALS → attempt_ok id a →
  runtime_inv (put_attempts (<[id := a]> (bs_attempts s))
                 (put_active_sessions ({[session]} ∪ bs_active_sessions s) s)).
Proof.
  intros [Hl Hc Hb Hs] Hno Hlt Hok. destruct (live_idle s Hl Hno) as (Ha & Hap & Hac).
  split; simpl; try done.
  - apply (live_attempt _ id a); simpl; [by rewrite Ha, insert_empty|done|rewrite Hac; set_solver|done].
  - rewrite Ha, insert_empty. unfold map_len at 2. rewrite map_size_singleton. lia.
Qed.

Lemma runtime_inv_begin_app s id a :
  runtime_inv s → session ∉ bs_active_sessions s → app_ok id a →
  runtime_inv (put_app_approvals (<[id := a]> (bs_app_approvals s))
                 (put_active_sessions ({[session]} ∪ bs_active_sessions s) s)).
Proof.
  intros [Hl Hc Hb Hs] Hno Hok. destruct (live_idle s Hl Hno) as (Ha & Hap & Hac).
  split; simpl; try done.
  apply (live_app _ id a); simpl; [done|by rewrite Hap, insert_empty|rewrite Hac; set_solver|done].
Qed.

Lemma runtime_inv_insert_core s id a :
  runtime_inv s → map_len (bs_core_approvals s) + map_len (bs_attempts s) < MAX_APPROVALS → core_ok id a →
  runtime_inv (put_core_approvals (<[id := a]> (bs_core_approvals s)) s).
Proof.
  intros [Hl Hc Hb Hs] Hlt Hok. split; simpl; try done.
  - destruct Hl; [by apply live_none|by eapply live_attempt|by eapply live_app].
  - intros k x [[<- <-]|[Hne Hk]]%lookup_insert_Some; [done|by apply Hc].
  - pose proof (map_len_insert_le (bs_core_approvals s) id a). lia.
Qed.

Lemma runtime_inv_update_core s id a a' :
  runtime_inv s → bs_core_approvals s !! id = Some a → core_ok id a' →
  runtime_inv (put_core_approvals (<[id := a']> (bs_core_approvals s)) s).
Proof.
  intros [Hl Hc Hb Hs] Hid Hok. split; simpl; try done.
  - destruct Hl; [by apply live_none|by eapply live_attempt|by eapply live_app].
  - intros k x [[<- <-]|[Hne Hk]]%lookup_insert_Some; [done|by apply Hc].
  - rewrite map_len_insert_eq by eauto. done.
Qed.

(** ** Reaping *)
Lemma btree_entries_singleton {A} (id : list byte) (a : A) : btree_entries be_val {[id := a]} = [(id, a)].
Proof. unfold btree_entries. by rewrite map_to_list_singleton. Qed.

Lemma runtime_inv_reap s now : runtime_inv s → runtime_inv (reap_expired_state s now).1.
Proof.
  intros Hi. pose proof (ri_live _ Hi) as Hl. unfold reap_expired_state.
  destruct Hl as [Ha Hb _|id a Ha Hb _ Hok|id a Ha Hb _ Hok]; rewrite Ha, Hb, ?btree_entries_empty, ?btree_entries_singleton.
  - done.
  - rewrite filter_cons. case_decide; simpl; [|done]. eapply runtime_inv_proper;
      [apply (runtime_inv_end_attempt s id a); [done|by rewrite Ha, lookup_singleton_eq]|done..|]. apply Hi.
  - rewrite filter_cons. case_decide; simpl; [|done]. eapply runtime_inv_proper;
      [apply (runtime_inv_end_app s id a); [done|by rewrite Hb, lookup_singleton_eq]|done..|]. apply Hi.
Qed.

Lemma runtime_inv_reap_core s now : runtime_inv s → runtime_inv (reap_expired_core_approvals s now).1.
Proof. intros Hi. apply runtime_inv_core_subset; [done|]. apply map_filter_subseteq. Qed.

(** What expires is what is taken out. *)
Lemma reap_expired_state_core s now :
  bs_core_approvals (reap_expired_state s now).1 = bs_core_approvals s
  ∧ bs_peer_starts (reap_expired_state s now).1 = bs_peer_starts s.
Proof.
  unfold reap_expired_state. generalize (filter (λ kv, aa_expires_at_epoch_seconds kv.2 < now) (btree_entries be_val (bs_app_approvals s))).
  generalize (filter (λ kv, ba_hard_expires_at_epoch_seconds kv.2 < now) (btree_entries be_val (bs_attempts s))).
  intros l1 l2.
  assert (H1 : ∀ acc, bs_core_approvals (fold_left reap_attempt l1 acc).1 = bs_core_approvals acc.1
    ∧ bs_peer_starts (fold_left reap_attempt l1 acc).1 = bs_peer_starts acc.1).
  { induction l1 as [|kv l1 IH]; intros [s0 ws]; simpl; [done|]. by destruct (IH (reap_attempt (s0, ws) kv)). }
  assert (H2 : ∀ acc, bs_core_approvals (fold_left reap_approval l2 acc).1 = bs_core_approvals acc.1
    ∧ bs_peer_starts (fold_left reap_approval l2 acc).1 = bs_peer_starts acc.1).
  { clear H1. induction l2 as [|kv l2 IH]; intros [s0 ws]; simpl; [done|]. by destruct (IH (reap_approval (s0, ws) kv)). }
  destruct (H2 (fold_left reap_attempt l1 (s, []))) as [-> ->]. apply H1.
Qed.
End Invariant.

(** ** Running the operations *)
Ltac wp_step :=
  lazymatch goal with
  | |- wp (st_bind _ _) _ _ => apply wp_bind
  | |- wp (st_ret _) _ _ => apply wp_ret
  | |- wp (st_err _) _ _ => apply wp_err
  | |- wp (st_lift _) _ _ =>
      let v := fresh "v" in let e := fresh "e" in let Hv := fresh "Hv" in
      apply wp_cases; [intros v Hv|intros e Hv|intros Hv]
  | |- wp (clock _) _ _ => let v := fresh "now" in let Hv := fresh "Hnow" in apply wp_clock; [intros v Hv|]
  | |- wp (drawn _) _ _ => let v := fresh "v" in let Hv := fresh "Hv" in apply wp_drawn; [intros v Hv|intros Hv]
  | |- wp get_state _ _ => apply wp_get
  | |- wp (modify_state _) _ _ => apply wp_modify; cbn [wd_state wd_fs wd_writes wd_log]
  | |- wp (attempt _) _ _ => apply wp_attempt
  | |- wp (persist _ _ _) _ _ =>
      let fs := fresh "fs" in let r := fresh "r" in let Hp := fresh "Hp" in let Hr := fresh "Hret" in
      apply wp_persist; intros fs r Hp Hr; cbn [wd_state wd_fs wd_writes wd_log] in *; destruct r as [[]|?|]; [| |done]
  | |- wp (workspace_close _ _ _ _ _ _) _ _ =>
      let log := fresh "log" in let r := fresh "r" in let Hr := fresh "Hret" in
      apply wp_close; intros log r Hr; cbn [wd_state wd_fs wd_writes wd_log]; destruct r as [[]|?|]; [| |done]
  | |- wp (workspace_create _ _ _ _ _ _ _ _) _ _ =>
      let log := fresh "log" in let r := fresh "r" in let Hr := fresh "Hret" in let Hid := fresh "Hid" in
      apply wp_create; intros log r Hr Hid; cbn [wd_state wd_fs wd_writes wd_log]; destruct r as [?|?|]; [| |done]
  | |- wp (if ?c then _ else _) _ _ => let Hc := fresh "Hc" in destruct c eqn:Hc; try discriminate Hc
  | |- wp (match ?o with Some _ => _ | None => _ end) _ _ => let Ho := fresh "Ho" in destruct o eqn:Ho
  end; cbn [map_err is_ok ok_or].

Section Operations.
Context {Value : Type} (json_from_slice : list byte → option Value).
Context (get : Value → list byte → option Value) (as_str : Value → option (list byte)) (is_object : Value → bool).
Context (to_vec : records → option (list byte)).
Context (base64_encode : list byte → list byte) (base64_decode : list byte → option (list byte)).
Context (sha256 : list byte → list byte) (expiry : Z → option (list byte)).
Context (random : nat → Z) (call : nat → list byte → HerdrRequest → HerdrCall).
Context (rt : RuntimeConfig).

Local Abbreviation World := (World Value).

Lemma wp_close_all workspaces todo (Q : brresult unit → World → Prop) w :
  (∀ log, Q (Ok tt) (Build_World (wd_state w) (wd_fs w) (wd_writes w) log)) →
  (∀ log, Q (Err BrWorkspaceUnavailable)
     (Build_World (put_orphaned_workspaces workspaces (wd_state w)) (wd_fs w) (wd_writes w) log)) →
  wp (close_all json_from_slice get as_str random call workspaces todo) Q w.
Proof.
  revert w. induction todo as [|[session id] todo IH]; intros w Hok Herr; cbn [close_all].
  - wp_step. destruct w. apply Hok.
  - do 3 wp_step.
    + apply IH; cbn [wd_state wd_fs wd_writes]; done.
    + repeat wp_step. apply Herr.
Qed.

(** The state after the expired was forgotten, and the workspaces to close. *)
Definition swept (s : BootstrapState) (now : Z) : BootstrapState * list (list byte * list byte) :=
  let s1 := (reap_expired_core_approvals s now).1 in
  let '(s2, reaped) := reap_expired_state (put_orphaned_workspaces [] s1) now in
  (s2, bs_orphaned_workspaces s1 ++ reaped).

Lemma wp_housekeeping io now (Q : brresult unit → World → Prop) w :
  (∀ log, Q (Err BrWorkspaceUnavailable)
     (Build_World (put_orphaned_workspaces (swept (wd_state w) now).2 (swept (wd_state w) now).1)
        (wd_fs w) (wd_writes w) log)) →
  (∀ log, (swept (wd_state w) now).2 = [] → (reap_expired_core_approvals (wd_state w) now).2 = false →
     Q (Ok tt) (Build_World (swept (wd_state w) now).1 (wd_fs w) (wd_writes w) log)) →
  (∀ log fs r, store_persist to_vec (rc_store_path rt) (rc_expected_uid rt) (bi_store io (wd_writes w))
                 (swept (wd_state w) now).1 (wd_fs w) = (fs, r) → returns r →
     Q (map_err (λ _, BrPersistenceFailed) r) (Build_World (swept (wd_state w) now).1 fs (S (wd_writes w)) log)) →
  wp (housekeeping json_from_slice get as_str to_vec random call rt io now) Q w.
Proof.
  unfold swept, housekeeping. intros Herr Hok Hpers. do 2 wp_step.
  destruct (reap_expired_core_approvals (wd_state w) now) as [s1 expired]. simpl in Herr, Hok, Hpers.
  destruct (reap_expired_state (put_orphaned_workspaces [] s1) now) as [s2 reaped]. simpl in Herr, Hok, Hpers.
  do 3 wp_step. apply wp_close_all; cbn [wd_state wd_fs wd_writes]; [|done].
  intros log. wp_step; [|wp_step].
  - apply wp_persist. cbn [wd_state wd_fs wd_writes wd_log]. intros fs r Hp Hr. by eapply Hpers.
  - bool_facts. by apply Hok.
Qed.

(** What an operation needs of its surroundings: a clock that shows a [u64], and issued
    certificates within the bounds of the records. *)
Definition io_ok (io : BootstrapIo) : Prop :=
  (∀ now, bi_now io = Some now → is_u64 now)
  ∧ ∀ csr i, bi_issue io csr = Some i →
      is_certificate_chain i ≠ [] ∧ len (is_certificate_chain i) ≤ 8
      ∧ len (concat (is_certificate_chain i)) ≤ 46 * 1024 ∧ is_not_after_epoch_seconds i ≠ 0.

Local Abbreviation session := (hw_normalized_session (rc_client rt)).
Context (session_valid : is_valid_session session = true).
Local Abbreviation inv w := (runtime_inv session (wd_state w)).

Lemma swept_inv s now : runtime_inv session s → runtime_inv session (swept s now).1.
Proof.
  intros Hi. unfold swept.
  pose proof (runtime_inv_reap session (put_orphaned_workspaces [] (reap_expired_core_approvals s now).1) now) as H.
  destruct (reap_expired_state _ _) as [s2 reaped]. apply H.
  by apply runtime_inv_orphans, runtime_inv_reap_core.
Qed.

Lemma housekeeping_inv io now w :
  inv w → wp (housekeeping json_from_slice get as_str to_vec random call rt io now) (λ _ w', inv w') w.
Proof.
  intros Hi%(λ s, swept_inv s now). apply wp_housekeeping; intros; cbn [wd_state]; [by apply runtime_inv_orphans|done..].
Qed.

Lemma end_attempt_inv id a w :
  inv w → bs_attempts (wd_state w) !! id = Some a →
  wp (end_attempt json_from_slice get as_str random call id a)
    (λ r w', inv w' ∧ (r = Ok tt → wd_state w' = put_attempts (delete id (bs_attempts (wd_state w)))
       (put_active_sessions (bs_active_sessions (wd_state w) ∖ {[ba_normalized_session a]}) (wd_state w)))) w.
Proof.
  intros Hi Ha. unfold end_attempt. repeat wp_step; cbn [wd_state]; (split; [|done]); [|done].
  by apply runtime_inv_end_attempt.
Qed.

Lemma end_approval_inv id a w :
  inv w → bs_app_approvals (wd_state w) !! id = Some a →
  wp (end_approval json_from_slice get as_str random call id a)
    (λ r w', inv w') w.
Proof.
  intros Hi Ha. unfold end_approval. repeat wp_step; cbn [wd_state]; [|done].
  by apply runtime_inv_end_app.
Qed.

Lemma random_code_ok samples code : random_code samples = Some code → length code = 6%nat.
Proof. apply random_code_length. Qed.

Lemma valid_workspace_id_intro id : id ≠ [] → len id ≤ WORKSPACE_ID_MAX_BYTES → valid_workspace_id (Some id) = true.
Proof.
  intros Hne Hl. unfold valid_workspace_id. rewrite bool_decide_eq_true_2 by done. by apply Z.leb_le in Hl as ->.
Qed.

(** The histories after a start was counted. *)
Lemma starts_inv_pruned now starts ip h :
  (∀ ip h, starts !! ip = Some h → h ≠ [] ∧ len h ≤ MAX_PEER_STARTS) →
  prune_starts now starts !! ip = Some h → h ≠ [] ∧ len h ≤ MAX_PEER_STARTS.
Proof.
  intros Hs (h0 & Hh0 & Hne & Hsub)%prune_starts_lookup. split; [done|].
  apply Hs in Hh0 as [_ Hl]. apply sublist_length in Hsub. unfold len in *. lia.
Qed.

Lemma start_inv io peer_ip payload w :
  inv w → wp (start json_from_slice get as_str is_object to_vec base64_encode base64_decode expiry random call rt
                 io peer_ip payload) (λ _ w', inv w') w.
Proof.
  intros Hi. unfold start. do 2 wp_step; [|done..].
  destruct v as [[[[[request_id core_csr] app_digest] nsession] binding] generation].
  wp_step; [by wp_step|]. do 2 wp_step; [|done]. wp_step.
  eapply wp_conseq; [apply housekeeping_inv, Hi|]. clear w Hi. intros r w Hi. cbn beta in Hi. destruct r as [[]|e|]; [|done..].
  do 3 wp_step; [by wp_step|]. wp_step; [by wp_step|]. do 4 wp_step. cbn [wd_state bs_peer_starts put_peer_starts].
  set (pruned := prune_starts now (bs_peer_starts (wd_state w))).
  assert (Hpr : ∀ ip h, pruned !! ip = Some h → h ≠ [] ∧ len h ≤ MAX_PEER_STARTS).
  { intros ip h. apply starts_inv_pruned, Hi. }
  bool_facts.
  wp_step.
  { do 3 wp_step. cbn [wd_state]. bool_facts. apply runtime_inv_starts; [by apply runtime_inv_starts|]. simpl.
    intros ip h [[<- <-]|[_ Hk]]%lookup_insert_Some; [|by eapply Hpr]. destruct (pruned !! peer_ip) eqn:Hk; [by eapply Hpr|done]. }
  do 2 wp_step. set (history := default [] (pruned !! peer_ip)) in *. bool_facts.
  set (s1 := put_peer_starts (<[peer_ip := _]> _) _). assert (Hi1 : runtime_inv session s1).
  { apply runtime_inv_starts; [by apply runtime_inv_starts|]. simpl.
    intros ip h [[<- <-]|[_ Hk]]%lookup_insert_Some; [|by eapply Hpr]. split; [by destruct history|].
    unfold len in *. rewrite length_app. simpl. lia. }
  assert (Hact : session ∉ bs_active_sessions s1) by (simpl; congruence).
  assert (Hcnt : map_len (bs_core_approvals s1) < MAX_APPROVALS).
  { simpl. pose proof (map_len_nonneg (bs_app_approvals (wd_state w))). lia. }
  wp_step. apply wp_drawn; [intros bootstrap_id _|done]. wp_step. apply wp_drawn; [intros approval_id Hid|done].
  wp_step. apply wp_drawn; [intros challenge _|done]. wp_step. apply wp_drawn; [intros code Hcode|done].
  do 2 wp_step; [|done..]. do 2 wp_step; [|done..]. do 2 wp_step; [|done..]. do 2 wp_step; [|done].
  apply mint_id_Some in Hid as (_ & Hz & _). destruct (Hid0 _ eq_refl) as [Hwne Hwl].
  do 2 wp_step. fold s1. set (att := Build_BootstrapAttempt _ _ _ _ _ _ _ _ _ _ _ _ _).
  assert (Hs2 : runtime_inv session (put_attempts (<[bootstrap_id := att]> (bs_attempts s1))
                  (put_active_sessions ({[nsession]} ∪ bs_active_sessions s1) s1))).
  { subst nsession. apply runtime_inv_begin_attempt; try done. split_and!; [done|by apply random_code_ok in Hcode|].
    unfold valid_persisted_record. cbn. rewrite !bool_decide_eq_true_2, session_valid by done.
    rewrite (proj2 (Z.eqb_neq generation 0)) by done. cbn. 
    by apply Z.leb_le in Hwl as ->. }
  pose proof (runtime_inv_end_attempt session _ bootstrap_id att Hs2 (lookup_insert_eq _ _ _)) as Hs3.
  do 3 wp_step; [by repeat wp_step|]. by repeat wp_step.
Qed.

Lemma abort_inv io bootstrap_id w :
  inv w → wp (abort json_from_slice get as_str to_vec random call rt io bootstrap_id) (λ _ w', inv w') w.
Proof.
  intros Hi. unfold abort. do 2 wp_step. wp_step; [|by wp_step]. pose proof (runtime_inv_end_attempt session _ _ _ Hi Ho) as Hi'.
  do 2 wp_step. do 3 wp_step.
  - repeat wp_step; done.
  - repeat wp_step; by apply runtime_inv_orphans.
Qed.

Lemma fail_attempt_ok id a : attempt_ok session id a → attempt_ok session id (fail_attempt a).
Proof. done. Qed.
Lemma fail_approval_ok id a : app_ok session id a → app_ok session id (fail_approval a).
Proof. done. Qed.

(** The record of an approval that was bought by an attempt. *)
Lemma core_ok_issued id a i now expires :
  attempt_ok session id a → is_u64 now → u64_checked_add now CORE_APPROVAL_RECOVERY_TTL_SECS = Some expires →
  is_certificate_chain i ≠ [] → len (is_certificate_chain i) ≤ 8 → len (concat (is_certificate_chain i)) ≤ 46 * 1024 →
  is_not_after_epoch_seconds i ≠ 0 →
  core_ok (ba_approval_id a)
    {| ca_core_identity := is_app_identity i; ca_app_csr_digest := ba_app_csr_digest a;
       ca_core_binding_digest := ba_core_binding_digest a; ca_normalized_session := ba_normalized_session a;
       ca_configuration_generation := ba_configuration_generation a; ca_confirmed := false;
       ca_recovery_expires_at_epoch_seconds := expires;
       ca_issued := {| cm_approval_id := ba_approval_id a; cm_core_identity := is_app_identity i;
                       cm_certificate_chain := is_certificate_chain i;
                       cm_not_after_epoch_seconds := is_not_after_epoch_seconds i |} |}.
Proof.
  intros (_ & _ & Hv) Hnow [-> _]%u64_checked_add_Some H1 H2 H3 H4. split_and!; [done|done|].
  revert Hv. unfold valid_persisted_record. simpl. intros Hv. bool_facts.
  rewrite !bool_decide_eq_true_2 by done.
  repeat match goal with H : is_valid_session _ = true |- _ => rewrite H end.
  apply Z.leb_le in H2 as ->. apply Z.leb_le in H3 as ->.
  rewrite !(proj2 (Z.eqb_neq _ _)); [done|..]; try done.
  unfold CORE_APPROVAL_RECOVERY_TTL_SECS. unfold is_u64 in Hnow. lia.
Qed.

Lemma submit_inv io peer_ip bootstrap_id challenge code w :
  io_ok io → inv w →
  wp (submit json_from_slice get as_str to_vec random call rt io peer_ip bootstrap_id challenge code) (λ _ w', inv w') w.
Proof.
  intros [Hclock Hissue] Hi. unfold submit. do 2 wp_step; [|done..]. do 2 wp_step; [|done]. do 4 wp_step; [|done..].
  apply ok_or_Ok in Hv0. wp_step; [by wp_step|]. destruct (live_attempt_eq session _ _ _ (ri_live _ _ Hi) Hv0) as (Ha & _ & _ & Hok).
  wp_step.
  { wp_step. eapply wp_conseq; [by apply end_attempt_inv|]. intros r w' [Hi' _]. destruct r; [|done..]. by repeat wp_step. }
  wp_step.
  { pose proof (runtime_inv_update_attempt session _ _ _ (fail_attempt v0) Hi Hv0 (fail_attempt_ok _ _ Hok)) as Hi'.
    do 2 wp_step. wp_step; [|by repeat wp_step]. wp_step.
    eapply wp_conseq; [apply end_attempt_inv; [exact Hi'|apply lookup_insert_eq]|].
    intros r w' [Hi'' _]. destruct r; [|done..]. by repeat wp_step. }
  wp_step. eapply wp_conseq; [by apply end_attempt_inv|]. intros r w' [Hi' Hw]. destruct r as [[]|e|]; [|done..].
  specialize (Hw eq_refl). do 2 wp_step; [|done..]. apply ok_or_Ok in Hv1. destruct (Hissue _ _ Hv1) as (? & ? & ? & ?).
  do 2 wp_step; [|done..]. apply ok_or_Ok in Hv2. do 2 wp_step.
  assert (Hi3 : runtime_inv session (put_core_approvals (<[ba_approval_id v0 := {| ca_core_identity := is_app_identity v1;
       ca_app_csr_digest := ba_app_csr_digest v0;
       ca_core_binding_digest := ba_core_binding_digest v0; ca_normalized_session := ba_normalized_session v0;
       ca_configuration_generation := ba_configuration_generation v0; ca_confirmed := false;
       ca_recovery_expires_at_epoch_seconds := v2;
       ca_issued := {| cm_approval_id := ba_approval_id v0; cm_core_identity := is_app_identity v1;
                       cm_certificate_chain := is_certificate_chain v1;
                       cm_not_after_epoch_seconds := is_not_after_epoch_seconds v1 |} |}]> (bs_core_approvals (wd_state w')))
       (wd_state w'))).
  { apply runtime_inv_insert_core; [done| |by eapply core_ok_issued; eauto].
    rewrite Hw. simpl. pose proof (ri_bound _ _ Hi). rewrite map_len_delete_Some by eauto. lia. }
  repeat wp_step; done.
Qed.

Lemma reconcile_inv io approval_id binding nsession w :
  inv w →
  wp (reconcile json_from_slice get as_str to_vec random call rt io approval_id binding nsession) (λ _ w', inv w') w.
Proof.
  intros Hi. unfold reconcile. do 2 wp_step; [|done]. wp_step. eapply wp_conseq; [apply housekeeping_inv, Hi|].
  intros r w' Hi'. cbn beta in Hi'. destruct r as [[]|e|]; [|done..]. do 4 wp_step; [|done..]. by wp_step; wp_step.
Qed.

Lemma expire_approval_inv io now approval_id (w : World) :
  inv w → wp (expire_approval to_vec rt io now approval_id) (λ r w', inv w' ∧ (r = Ok tt → w' = w)) w.
Proof.
  intros Hi. unfold expire_approval. do 2 wp_step. wp_step; [|by wp_step]. do 2 wp_step.
  pose proof (runtime_inv_core_subset session _ (delete approval_id (bs_core_approvals (wd_state w))) Hi (delete_subseteq _ _)).
  repeat wp_step; done.
Qed.

Lemma authorize_inv io core_identity approval_id digest (w : World) :
  inv w → wp (authorize_first_app to_vec rt io core_identity approval_id digest) (λ _ w', inv w') w.
Proof.
  intros Hi. unfold authorize_first_app. do 2 wp_step; [|done]. wp_step. eapply wp_conseq; [apply expire_approval_inv, Hi|].
  intros r w' [Hi' _]. destruct r as [[]|e|]; [|done..]. do 4 wp_step; [|done..]. by wp_step; wp_step.
Qed.

Lemma confirm_approval_ok id a : core_ok id a → core_ok id (confirm_approval a).
Proof.
  intros (Hk & Hc & Hv). split_and!; [done|done|]. revert Hv. unfold valid_persisted_record. simpl.
  intros Hv. bool_facts. rewrite !andb_true_iff. rewrite !bool_decide_eq_true_2 by done.
  repeat match goal with H : ?x = true |- context [?x] => rewrite H end.
  rewrite !(proj2 (Z.eqb_neq _ _)) by done. split_and!; first [done|by apply Z.leb_le].
Qed.

Lemma confirm_inv io core_identity approval_id digest generation (w : World) :
  inv w → wp (confirm_first_app to_vec rt io core_identity approval_id digest generation) (λ _ w', inv w') w.
Proof.
  intros Hi. unfold confirm_first_app. do 2 wp_step; [|done]. wp_step. eapply wp_conseq; [apply expire_approval_inv, Hi|].
  intros r w' [Hi' _]. destruct r as [[]|e|]; [|done..]. do 4 wp_step; [|done..]. apply ok_or_Ok in Hv.
  wp_step; [by wp_step|]. wp_step; [by wp_step|]. do 2 wp_step.
  pose proof (runtime_inv_update_core session _ _ _ (confirm_approval v) Hi' Hv (confirm_approval_ok _ _ (ri_core _ _ Hi' _ _ Hv))).
  repeat wp_step; done.
Qed.

Lemma start_app_inv io core_identity digest binding nsession generation w :
  inv w →
  wp (start_app_approval json_from_slice get as_str is_object to_vec expiry random call rt
        io core_identity digest binding nsession generation) (λ _ w', inv w') w.
Proof.
  intros Hi. unfold start_app_approval. wp_step; [by wp_step|]. do 2 wp_step; [|done]. wp_step.
  eapply wp_conseq; [apply housekeeping_inv, Hi|]. clear w Hi. intros r w Hi. cbn beta in Hi. destruct r as [[]|e|]; [|done..].
  do 3 wp_step; [by wp_step|]. wp_step; [by wp_step|]. wp_step; [by wp_step|]. bool_facts.
  wp_step. apply wp_drawn; [intros approval_id Hid|done].
  wp_step. apply wp_drawn; [intros challenge _|done]. wp_step. apply wp_drawn; [intros code Hcode|done].
  do 2 wp_step; [|done..]. do 2 wp_step; [|done..]. do 2 wp_step; [|done].
  apply mint_id_Some in Hid as (_ & Hz & _). destruct (Hid0 _ eq_refl) as [Hwne Hwl].
  do 2 wp_step. set (app := Build_AppApproval _ _ _ _ _ _ _ _ _ _).
  assert (Hs2 : runtime_inv session (put_app_approvals (<[approval_id := app]> (bs_app_approvals (wd_state w)))
                  (put_active_sessions ({[nsession]} ∪ bs_active_sessions (wd_state w)) (wd_state w)))).
  { subst nsession. apply runtime_inv_begin_app; try done. split_and!; [done|by apply random_code_ok in Hcode|].
    unfold valid_persisted_record. cbn. rewrite !bool_decide_eq_true_2, session_valid by done.
    rewrite (proj2 (Z.eqb_neq generation 0)) by done. cbn. by apply Z.leb_le in Hwl as ->. }
  pose proof (runtime_inv_end_app session _ approval_id app Hs2 (lookup_insert_eq _ _ _)) as Hs3.
  do 3 wp_step; [by repeat wp_step|]. by repeat wp_step.
Qed.

Lemma submit_app_inv io core_identity approval_id challenge code csr digest w :
  inv w →
  wp (submit_app_approval json_from_slice get as_str to_vec sha256 random call rt
        io core_identity approval_id challenge code csr digest) (λ _ w', inv w') w.
Proof.
  intros Hi. unfold submit_app_approval. wp_step; [by wp_step|]. do 2 wp_step; [|done..]. do 2 wp_step; [|done].
  do 4 wp_step; [|done..]. apply ok_or_Ok in Hv0. wp_step; [by wp_step|].
  destruct (live_app_eq session _ _ _ (ri_live _ _ Hi) Hv0) as (_ & Ha & _ & Hok).
  wp_step.
  { wp_step. eapply wp_conseq; [by apply end_approval_inv|]. intros r w' Hi'. cbn beta in Hi'. destruct r; [|done..]. by repeat wp_step. }
  wp_step.
  { pose proof (runtime_inv_update_app session _ _ _ (fail_approval v0) Hi Hv0 (fail_approval_ok _ _ Hok)) as Hi'.
    do 2 wp_step. wp_step; [|by repeat wp_step]. wp_step.
    eapply wp_conseq; [apply end_approval_inv; [exact Hi'|apply lookup_insert_eq]|].
    intros r w' Hi''. cbn beta in Hi''. destruct r; [|done..]. by repeat wp_step. }
  wp_step. eapply wp_conseq; [by apply end_approval_inv|]. intros r w' Hi'. cbn beta in Hi'. destruct r as [[]|e|]; [|done..].
  by repeat wp_step.
Qed.
End Operations.

(** ** From the start *)
Section FromStart.
Context (session : list byte).

Lemma restore_record_inv s r s' :
  valid_persisted_record r = true → restore_record s r = Ok s' →
  bs_attempts s = ∅ → bs_app_approvals s = ∅ → bs_active_sessions s = ∅ → bs_peer_starts s = ∅ →
  (∀ id a, bs_core_approvals s !! id = Some a → core_ok id a) →
  bs_attempts s' = ∅ ∧ bs_app_approvals s' = ∅ ∧ bs_active_sessions s' = ∅ ∧ bs_peer_starts s' = ∅
  ∧ (∀ id a, bs_core_approvals s' !! id = Some a → core_ok id a)
  ∧ map_len (bs_core_approvals s') ≤ map_len (bs_core_approvals s) + 1.
Proof.
  intros Hv H Ha Hb Hc Hp Hcore. unfold restore_record in H. destruct (pb_kind r) eqn:Hk.
  1-2: apply bind_Ok in H as (ws & _ & H); apply Ok_inj in H as <-; simpl; split_and!; try done; lia.
  destruct (pb_core_identity r) as [ci|] eqn:Hci; [|done]. destruct (pb_certificate_chain r) as [ch|] eqn:Hch; [|done].
  destruct (pb_not_after_epoch_seconds r) as [na|] eqn:Hna; [|done]. apply Ok_inj in H as <-. simpl.
  split_and!; try done; [|apply map_len_insert_le].
  intros id a [[<- <-]|[_ Hid]]%lookup_insert_Some; [|by apply Hcore]. split_and!; [done|done|].
  revert Hv. unfold valid_persisted_record. simpl. rewrite Hk, Hci, Hch, Hna. intros Hv. bool_facts.
  rewrite !andb_true_iff. split_and!; rewrite ?bool_decide_eq_true, ?negb_true_iff, ?Z.eqb_neq, ?Z.leb_le; try done.
Qed.

Lemma restore_records_inv rs s s' :
  Forall (λ r, valid_persisted_record r = true) rs → restore_records s rs = Ok s' →
  bs_attempts s = ∅ → bs_app_approvals s = ∅ → bs_active_sessions s = ∅ → bs_peer_starts s = ∅ →
  (∀ id a, bs_core_approvals s !! id = Some a → core_ok id a) →
  map_len (bs_core_approvals s) + len rs ≤ MAX_APPROVALS → runtime_inv session s'.
Proof.
  revert s. induction rs as [|r rs IH]; intros s Hv H Ha Hb Hc Hp Hcore Hlen; simpl in H.
  - apply Ok_inj in H as <-. split; [by apply live_none|done| |].
    + rewrite Ha. unfold len in Hlen. simpl in Hlen. unfold map_len at 2. rewrite map_size_empty. lia.
    + intros ip h. by rewrite Hp, lookup_empty.
  - apply Forall_cons in Hv as [Hr Hv]. apply bind_Ok in H as (s1 & H1 & H).
    destruct (restore_record_inv s r s1) as (? & ? & ? & ? & ? & ?); try done.
    apply (IH s1); try done. unfold len in *. simpl in Hlen. lia.
Qed.

Lemma existsb_negb_false {A} (f : A → bool) l : existsb (λ x, negb (f x)) l = false → Forall (λ x, f x = true) l.
Proof. induction l as [|x l IH]; simpl; [done|]. intros [Hx%negb_false_iff Hl]%orb_false_iff. constructor; auto. Qed.

Lemma runtime_new_inv from_slice enabled accepted cwd path uid open_io io fs rt s :
  runtime_new from_slice enabled accepted cwd session path uid open_io io fs = Ok (rt, s) →
  runtime_inv session s ∧ hw_normalized_session (rc_client rt) = session ∧ is_valid_session session = true
  ∧ rc_store_path rt = path ∧ rc_expected_uid rt = uid
  ∧ validate_protected_path open_io path uid fs = Ok tt.
Proof.
  unfold runtime_new. destruct enabled; [|done]. cbn [negb].
  intros (client & Hcl%map_err_Ok & ([] & Ho & (st & Hst & H)%bind_Ok)%bind_Ok)%bind_Ok. apply Ok_inj in H as [= <- <-]. simpl.
  unfold HerdrWorkspaceClient_new in Hcl. destruct (_ || _) eqn:Hc; [done|]. destruct (negb accepted); [done|].
  apply Ok_inj in Hcl as <-. bool_facts. split_and!; try done.
  unfold store_restore in Hst. apply bind_Ok in Hst as (file & Hl & Hr).
  assert (Hf : Forall (λ r, valid_persisted_record r = true) file ∧ len file ≤ MAX_APPROVALS).
  { revert Hl. unfold store_load. destruct (_ || _); [by intros [= <-]|]. intros (bytes & _ & Hb)%bind_Ok.
    apply bind_Ok in Hb as (f & _ & Hb). destruct (_ || _) eqn:Hc; [done|]. apply Ok_inj in Hb as ->. bool_facts.
    split; [by apply existsb_negb_false|done]. }
  destruct Hf as [Hf Hlen]. eapply restore_records_inv; [exact Hf|exact Hr|done..].
Qed.
End FromStart.
