(* ===== verification/BootstrapAuthority.v ===== *)
(** * What the bootstrap runtime guarantees

    The properties of BootstrapRuntime.v: the invariant of its state over any calls, where
    core approvals come from, what a restart recovers, and that every call returns. *)
From S2P Require Import PairingVerifier.
From S2P Require Export BootstrapRuntime.

(** * Facts *)

(** ** What sweeping takes away *)
Definition shrinks (s s' : BootstrapState) : Prop :=
  bs_core_approvals s' ⊆ bs_core_approvals s ∧ bs_attempts s' ⊆ bs_attempts s
  ∧ bs_app_approvals s' ⊆ bs_app_approvals s.

#[export] Instance shrinks_po : PreOrder shrinks.
Proof.
  split; [by repeat split|]. intros s1 s2 s3 (? & ? & ?) (? & ? & ?). split_and!; by etrans.
Qed.

Lemma reap_expired_state_shrinks s now : shrinks s (reap_expired_state s now).1.
Proof.
  unfold reap_expired_state.
  generalize (filter (λ kv, aa_expires_at_epoch_seconds kv.2 < now) (btree_entries be_val (bs_app_approvals s))).
  generalize (filter (λ kv, ba_hard_expires_at_epoch_seconds kv.2 < now) (btree_entries be_val (bs_attempts s))).
  intros l1 l2.
  assert (H1 : ∀ acc, shrinks acc.1 (fold_left reap_attempt l1 acc).1).
  { induction l1 as [|kv l1 IH]; intros [s0 ws]; simpl; [done|]. etrans; [|apply IH]. split_and!; simpl; try done. apply delete_subseteq. }
  assert (H2 : ∀ acc, shrinks acc.1 (fold_left reap_approval l2 acc).1).
  { clear H1. induction l2 as [|kv l2 IH]; intros [s0 ws]; simpl; [done|]. etrans; [|apply IH].
    split_and!; simpl; try done. apply delete_subseteq. }
  etrans; [apply (H1 (s, []))|apply H2].
Qed.

Lemma swept_shrinks s now : shrinks s (swept s now).1.
Proof.
  unfold swept. pose proof (reap_expired_state_shrinks (put_orphaned_workspaces [] (reap_expired_core_approvals s now).1) now) as H.
  destruct (reap_expired_state _ _) as [s2 reaped]. etrans; [|exact H]. split_and!; simpl; try done. apply map_filter_subseteq.
Qed.

Section Steps.
Context {Value : Type} (json_from_slice : list byte → option Value).
Context (get : Value → list byte → option Value) (as_str : Value → option (list byte)) (is_object : Value → bool).
Context (to_vec : records → option (list byte)).
Context (base64_encode : list byte → list byte) (base64_decode : list byte → option (list byte)).
Context (sha256 : list byte → list byte) (expiry : Z → option (list byte)).
Context (random : nat → Z) (call : nat → list byte → HerdrRequest → HerdrCall).
Context (rt : RuntimeConfig).

Local Abbreviation World := (World Value).
Local Abbreviation run io op :=
  (run_op json_from_slice get as_str is_object to_vec base64_encode base64_decode sha256 expiry random call rt io op).

(** ** Where the entries of the maps come from *)

(** A core approval that is new in [s'] is one [P] admits, an attempt one [R] admits. *)
Definition evolves (P : list byte → CoreApproval → Prop) (R : list byte → BootstrapAttempt → Prop)
    (s s' : BootstrapState) : Prop :=
  (∀ id a, bs_core_approvals s' !! id = Some a → bs_core_approvals s !! id = Some a ∨ P id a)
  ∧ (∀ id a, bs_attempts s' !! id = Some a →
       (∃ a0, bs_attempts s !! id = Some a0 ∧ (a = a0 ∨ a = fail_attempt a0)) ∨ R id a).

Lemma shrinks_evolves P R s s' : shrinks s s' → evolves P R s s'.
Proof.
  intros (Hc & Ha & _). split; intros id a H; left; [by eapply lookup_weaken|].
  exists a. split; [by eapply lookup_weaken|by left].
Qed.

Lemma evolves_trans P R s1 s2 s3 :
  shrinks s1 s2 → evolves P R s2 s3 → evolves P R s1 s3.
Proof.
  intros (Hc & Ha & _) [H1 H2]. split; intros id a H.
  - destruct (H1 _ _ H); [left; by eapply lookup_weaken|by right].
  - destruct (H2 _ _ H) as [(a0 & H0 & Heq)|]; [left; exists a0; split; [by eapply lookup_weaken|done]|by right].
Qed.

Lemma wp_housekeeping_shrinks io now (w : World) (Q : brresult unit → World → Prop) :
  (∀ r w', shrinks (wd_state w) (wd_state w') → Q r w') →
  wp (housekeeping json_from_slice get as_str to_vec random call rt io now) Q w.
Proof.
  intros H. pose proof (swept_shrinks (wd_state w) now) as Hs.
  apply wp_housekeeping; intros; apply H; simpl; try done.
Qed.

(** What a call admits. *)
Definition admits_core (io : BootstrapIo) (op : BootstrapOp) (s : BootstrapState) (id : list byte) (a : CoreApproval) : Prop :=
  match op with
  | OpSubmit peer_ip bootstrap_id challenge code => ∃ att now i,
      bs_attempts s !! bootstrap_id = Some att ∧ ba_peer_ip att = peer_ip ∧ ba_challenge att = challenge
      ∧ ba_code att = code
      ∧ bi_now io = Some now ∧ now ≤ ba_expires_at_epoch_seconds att ∧ now ≤ ba_hard_expires_at_epoch_seconds att
      ∧ bi_issue io (ba_core_csr att) = Some i ∧ id = ba_approval_id att
      ∧ ca_core_identity a = is_app_identity i ∧ ca_app_csr_digest a = ba_app_csr_digest att
      ∧ ca_core_binding_digest a = ba_core_binding_digest att ∧ ca_configuration_generation a = ba_configuration_generation att
      ∧ ca_normalized_session a = ba_normalized_session att
      ∧ ca_confirmed a = false ∧ ca_recovery_expires_at_epoch_seconds a = now + CORE_APPROVAL_RECOVERY_TTL_SECS
  | OpConfirmFirstApp core_identity approval_id app_csr_digest generation => ∃ a0 now,
      approval_id = id ∧ bs_core_approvals s !! id = Some a0 ∧ a = confirm_approval a0
      ∧ bi_now io = Some now ∧ now ≤ ca_recovery_expires_at_epoch_seconds a0
      ∧ ca_core_identity a0 = core_identity ∧ ca_app_csr_digest a0 = app_csr_digest
      ∧ ca_configuration_generation a0 = generation
  | _ => False
  end.

Definition admits_attempt (io : BootstrapIo) (op : BootstrapOp) (r : brresult BootstrapAnswer) (id : list byte)
    (a : BootstrapAttempt) : Prop :=
  match op with
  | OpStart peer_ip payload => ∃ c request_id now,
      r = Ok (Challenged c) ∧ bg_id c = id ∧ bg_challenge c = ba_challenge a
      ∧ Hdb1StartPayload_decode_fields base64_encode base64_decode payload
        = Ok (request_id, ba_core_csr a, ba_app_csr_digest a, ba_normalized_session a, ba_core_binding_digest a,
              ba_configuration_generation a)
      ∧ ba_peer_ip a = peer_ip ∧ random_code (bi_samples io) = Some (ba_code a)
      ∧ bi_now io = Some now ∧ ba_expires_at_epoch_seconds a = now + BOOTSTRAP_CODE_TTL_SECS
  | _ => False
  end.

(** The code of every attempt is six digits. *)
Definition codes_ok (s : BootstrapState) : Prop :=
  ∀ id a, bs_attempts s !! id = Some a → length (ba_code a) = 6%nat.

Local Ltac lookups :=
  repeat match goal with
  | H : <[_ := _]> _ !! _ = Some _ |- _ => apply lookup_insert_Some in H as [[? ?]|[? H]]
  | H : delete _ _ !! _ = Some _ |- _ => apply lookup_delete_Some in H as [? H]
  end; subst.
Local Ltac unchanged :=
  split; simpl; intros ? ? ?; lookups; eauto.

Lemma end_attempt_evolves P R id a (w : World) (Q : brresult unit → World → Prop) s0 :
  evolves P R s0 (wd_state w) →
  (∀ r w', evolves P R s0 (wd_state w') → (r = Ok tt → wd_state w' = put_attempts (delete id (bs_attempts (wd_state w)))
       (put_active_sessions (bs_active_sessions (wd_state w) ∖ {[ba_normalized_session a]}) (wd_state w))) → Q r w') →
  wp (end_attempt json_from_slice get as_str random call id a) Q w.
Proof.
  intros [Hc Ha] H. unfold end_attempt. repeat wp_step; apply H; try done. cbn [wd_state]. split; [done|].
  simpl. intros k x Hk. lookups. by apply Ha.
Qed.

Lemma submit_evolves io peer_ip bootstrap_id challenge code (w : World) :
  codes_ok (wd_state w) →
  wp (submit json_from_slice get as_str to_vec random call rt io peer_ip bootstrap_id challenge code)
    (λ _ w', evolves (admits_core io (OpSubmit peer_ip bootstrap_id challenge code) (wd_state w)) (λ _ _, False)
               (wd_state w) (wd_state w')) w.
Proof.
  intros Hcodes. set (P := admits_core _ _ _). pose proof (shrinks_evolves P (λ _ _, False) (wd_state w) (wd_state w) ltac:(done)) as Hrefl.
  unfold submit. do 2 wp_step; [|done..]. apply parse_code_Ok in Hv as (-> & Hcl & _).
  do 2 wp_step; [|done]. do 4 wp_step; [|done..]. apply ok_or_Ok in Hv.
  wp_step; [by wp_step|]. wp_step.
  { wp_step. apply (end_attempt_evolves P (λ _ _, False) _ _ _ _ (wd_state w)); [done|]. intros r w' He _. destruct r as [[]|e|]; [|done..]. by repeat wp_step. }
  bool_facts. wp_step.
  { do 2 wp_step. 
    assert (Hf : evolves P (λ _ _, False) (wd_state w)
      (put_attempts (<[bootstrap_id := fail_attempt v]> (bs_attempts (wd_state w))) (wd_state w))).
    { unchanged. }
    wp_step; [|by repeat wp_step]. wp_step. apply (end_attempt_evolves P (λ _ _, False) _ _ _ _ (wd_state w)); [done|].
    intros r w' He _. destruct r as [[]|e|]; [|done..]. by repeat wp_step. }
  bool_facts. wp_step. apply (end_attempt_evolves P (λ _ _, False) _ _ _ _ (wd_state w)); [done|].
  intros r w' He Hw. destruct r as [[]|e|]; [|done..]. specialize (Hw eq_refl).
  do 2 wp_step; [|done..]. apply ok_or_Ok in Hv0. do 2 wp_step; [|done..]. apply ok_or_Ok, u64_checked_add_Some in Hv1 as [-> _].
  do 2 wp_step. set (s2 := put_core_approvals _ _).
  assert (He2 : evolves P (λ _ _, False) (wd_state w) s2).
  { destruct He as [He1 He2]. split; [|done]. simpl. intros id a [[<- <-]|[_ Hid]]%lookup_insert_Some; [|by apply He1].
    right. exists v, now, v0. simpl.
    assert (ba_code v = code) as <- by (apply constant_time_equal_true; [by rewrite (Hcodes _ _ Hv)|done]).
    split_and!; done. }
  by repeat wp_step.
Qed.

Lemma start_evolves io peer_ip payload (w : World) :
  wp (start json_from_slice get as_str is_object to_vec base64_encode base64_decode expiry random call rt io peer_ip payload)
    (λ r w', evolves (λ _ _, False) (admits_attempt io (OpStart peer_ip payload) (Challenged <$> r)) (wd_state w) (wd_state w')) w.
Proof.
  assert (Hrefl : ∀ s R, evolves (λ _ _, False) R s s) by (intros s R; by apply shrinks_evolves).
  unfold start. do 2 wp_step; [|apply Hrefl..].
  destruct v as [[[[[request_id core_csr] app_digest] nsession] binding] generation]. apply map_err_Ok in Hv.
  wp_step; [by wp_step|]. do 2 wp_step; [|apply Hrefl]. wp_step. apply wp_housekeeping_shrinks. intros r w1 Hsh.
  destruct r as [[]|e|]; [|by apply shrinks_evolves..].
  assert (Hbase : ∀ R st, evolves (λ _ _, False) R (wd_state w) (put_peer_starts st (put_peer_starts st (wd_state w1)))).
  { intros R st. by apply shrinks_evolves. }
  do 3 wp_step; [by wp_step; apply shrinks_evolves|]. wp_step; [by wp_step; apply shrinks_evolves|]. do 4 wp_step.
  wp_step; [by do 3 wp_step; apply shrinks_evolves|]. do 2 wp_step.
  set (s1 := put_peer_starts (<[peer_ip := _]> _) _).
  assert (Hs1 : shrinks (wd_state w) s1) by done. clearbody s1.
  wp_step. apply wp_drawn; [intros bootstrap_id _|by intros; apply shrinks_evolves].
  wp_step. apply wp_drawn; [intros approval_id _|by intros; apply shrinks_evolves].
  wp_step. apply wp_drawn; [intros challenge _|by intros; apply shrinks_evolves].
  wp_step. apply wp_drawn; [intros code Hcode|by intros; apply shrinks_evolves].
  do 2 wp_step; [|by apply shrinks_evolves..]. apply ok_or_Ok, u64_checked_add_Some in Hv0 as [-> _].
  do 2 wp_step; [|by apply shrinks_evolves..]. do 2 wp_step; [|by apply shrinks_evolves..].
  do 2 wp_step; [|by apply shrinks_evolves..]. do 2 wp_step. set (att := Build_BootstrapAttempt _ _ _ _ _ _ _ _ _ _ _ _ _).
  do 3 wp_step; wp_step.
  - apply (evolves_trans _ _ _ s1); [done|]. split; simpl; [by left|].
    intros id a' [[<- <-]|[_ Hold]]%lookup_insert_Some; [right|left; eauto].
    eexists _, request_id, now. simpl. split_and!; try done.
  - wp_step. assert (He : evolves (λ _ _, False) (admits_attempt io (OpStart peer_ip payload) (Err BrPersistenceFailed)) (wd_state w)
      (put_attempts (delete bootstrap_id (<[bootstrap_id := att]> (bs_attempts s1)))
         (put_active_sessions (({[nsession]} ∪ bs_active_sessions s1) ∖ {[nsession]})
            (put_attempts (<[bootstrap_id := att]> (bs_attempts s1)) (put_active_sessions ({[nsession]} ∪ bs_active_sessions s1) s1))))).
    { apply (evolves_trans _ _ _ s1); [done|]. split; simpl; [by left|].
      intros id a' [Hne Hold]%lookup_delete_Some. rewrite lookup_insert_ne in Hold by done. left. eauto. }
    by repeat wp_step.
Qed.

Lemma abort_evolves io bootstrap_id P R (w : World) :
  wp (abort json_from_slice get as_str to_vec random call rt io bootstrap_id)
    (λ _ w', evolves P R (wd_state w) (wd_state w')) w.
Proof.
  unfold abort. do 2 wp_step. wp_step; [|by wp_step; apply shrinks_evolves].
  do 2 wp_step. repeat wp_step; apply shrinks_evolves; split_and!; simpl; try done; apply delete_subseteq.
Qed.

Lemma reconcile_evolves io approval_id binding nsession P R (w : World) :
  wp (reconcile json_from_slice get as_str to_vec random call rt io approval_id binding nsession)
    (λ _ w', evolves P R (wd_state w) (wd_state w')) w.
Proof.
  unfold reconcile. do 2 wp_step; [|by apply shrinks_evolves]. wp_step. apply wp_housekeeping_shrinks.
  intros r w' Hsh. destruct r as [[]|e|]; [|by apply shrinks_evolves..]. repeat wp_step; by apply shrinks_evolves.
Qed.

(** What is not expired is left as it was. *)
Lemma wp_expire_approval io now approval_id (w : World) (Q : brresult unit → World → Prop) :
  (∀ r w', r ≠ Ok tt → shrinks (wd_state w) (wd_state w') → Q r w') →
  ((∀ a, bs_core_approvals (wd_state w) !! approval_id = Some a →
      ca_confirmed a = true ∨ now ≤ ca_recovery_expires_at_epoch_seconds a) → Q (Ok tt) w) →
  wp (expire_approval to_vec rt io now approval_id) Q w.
Proof.
  intros Hex Hok. unfold expire_approval. do 2 wp_step. wp_step.
  - do 2 wp_step. repeat wp_step; apply Hex; try done; split_and!; simpl; try done; apply delete_subseteq.
  - wp_step. apply Hok. intros a Ha. rewrite Ha in Hc. destruct (ca_confirmed a); [by left|]. right. simpl in Hc. by bool_facts.
Qed.

Lemma authorize_evolves io core_identity approval_id digest P R (w : World) :
  wp (authorize_first_app to_vec rt io core_identity approval_id digest)
    (λ r w', evolves P R (wd_state w) (wd_state w')
       ∧ ∀ g, r = Ok g → ∃ a now, bs_core_approvals (wd_state w) !! approval_id = Some a ∧ bi_now io = Some now
           ∧ ca_confirmed a = false ∧ now ≤ ca_recovery_expires_at_epoch_seconds a ∧ ca_core_identity a = core_identity
           ∧ ca_app_csr_digest a = digest ∧ ca_configuration_generation a = g) w.
Proof.
  unfold authorize_first_app. do 2 wp_step; [|by split; [apply shrinks_evolves|]]. wp_step. apply wp_expire_approval.
  - intros r w' Hne Hsh. destruct r as [[]|e|]; [done| |]; (split; [by apply shrinks_evolves|done]).
  - intros Hlive. do 4 wp_step; [|by split; [apply shrinks_evolves|]..]. apply ok_or_Ok in Hv.
    wp_step; [by wp_step; split; [apply shrinks_evolves|]|]. wp_step. split; [by apply shrinks_evolves|].
    intros g [= <-]. bool_facts. exists v, now. destruct (Hlive _ Hv) as [?|?]; [congruence|]. split_and!; done.
Qed.

Lemma confirm_evolves io core_identity approval_id digest generation R (w : World) :
  wp (confirm_first_app to_vec rt io core_identity approval_id digest generation)
    (λ _ w', evolves (admits_core io (OpConfirmFirstApp core_identity approval_id digest generation) (wd_state w)) R
               (wd_state w) (wd_state w')) w.
Proof.
  unfold confirm_first_app. do 2 wp_step; [|by apply shrinks_evolves]. wp_step. apply wp_expire_approval.
  - intros r w' Hne Hsh. destruct r as [[]|e|]; [done| |]; by apply shrinks_evolves.
  - intros Hlive. do 4 wp_step; [|by apply shrinks_evolves..]. apply ok_or_Ok in Hv.
    wp_step; [by wp_step; apply shrinks_evolves|]. wp_step; [by wp_step; apply shrinks_evolves|]. bool_facts. do 2 wp_step.
    assert (He : evolves (admits_core io (OpConfirmFirstApp core_identity approval_id digest generation) (wd_state w)) R
      (wd_state w) (put_core_approvals (<[approval_id := confirm_approval v]> (bs_core_approvals (wd_state w))) (wd_state w))).
    { split; simpl; [|by left; eauto]. intros id a [[<- <-]|[_ Hid]]%lookup_insert_Some; [|by left].
      right. exists v, now. destruct (Hlive _ Hv); [congruence|]. split_and!; done. }
    by repeat wp_step.
Qed.

Lemma start_app_evolves io core_identity digest binding nsession generation P R (w : World) :
  wp (start_app_approval json_from_slice get as_str is_object to_vec expiry random call rt
        io core_identity digest binding nsession generation)
    (λ _ w', evolves P R (wd_state w) (wd_state w')) w.
Proof.
  unfold start_app_approval. wp_step; [by wp_step; apply shrinks_evolves|]. do 2 wp_step; [|by apply shrinks_evolves].
  wp_step. apply wp_housekeeping_shrinks. intros r w1 Hsh. destruct r as [[]|e|]; [|by apply shrinks_evolves..].
  repeat wp_step; first
    [ done | by apply shrinks_evolves
    | apply (evolves_trans _ _ _ (wd_state w1)); [done|split; simpl; eauto] ].
Qed.

Lemma submit_app_evolves io core_identity approval_id challenge code csr digest P R (w : World) :
  wp (submit_app_approval json_from_slice get as_str to_vec sha256 random call rt
        io core_identity approval_id challenge code csr digest)
    (λ _ w', evolves P R (wd_state w) (wd_state w')) w.
Proof.
  unfold submit_app_approval, end_approval.
  repeat wp_step; try (by apply shrinks_evolves); (split; simpl; eauto).
Qed.

(** A later App is approved for the code of its own approval, which is used up by it. *)
Lemma submit_app_Ok io core_identity approval_id challenge code csr digest (w : World) :
  wp (submit_app_approval json_from_slice get as_str to_vec sha256 random call rt
        io core_identity approval_id challenge code csr digest)
    (λ r w', ∀ ctx, r = Ok ctx → ∃ a now,
       bs_app_approvals (wd_state w) !! approval_id = Some a ∧ bi_now io = Some now
       ∧ now ≤ aa_expires_at_epoch_seconds a ∧ aa_core_identity a = core_identity ∧ aa_challenge a = challenge
       ∧ aa_app_csr_digest a = digest ∧ sha256 csr = digest ∧ constant_time_equal (aa_code a) code = true
       ∧ length code = 6%nat
       ∧ ctx = {| ac_approval_id := approval_id; ac_core_identity := core_identity; ac_app_csr := csr;
                  ac_app_csr_digest := digest; ac_core_binding_digest := aa_core_binding_digest a;
                  ac_normalized_session := aa_normalized_session a;
                  ac_configuration_generation := aa_configuration_generation a |}
       ∧ bs_app_approvals (wd_state w') !! approval_id = None) w.
Proof.
  unfold submit_app_approval, end_approval. repeat wp_step; try (by intros ctx [=]).
  apply ok_or_Ok in Hv0. apply parse_code_Ok in Hv as (-> & Hl & _). bool_facts. intros ctx [= <-].
  exists v0, now. split_and!; try done; [congruence|]. simpl. apply lookup_delete_eq.
Qed.

Lemma run_op_evolves io op (w w' : World) r :
  codes_ok (wd_state w) → run io op w = (w', r) →
  evolves (admits_core io op (wd_state w)) (admits_attempt io op r) (wd_state w) (wd_state w').
Proof.
  intros Hcodes.
  assert (Hwp : wp (run io op) (λ r w', evolves (admits_core io op (wd_state w)) (admits_attempt io op r) (wd_state w) (wd_state w')) w).
  { destruct op; cbn [run_op]; unfold answering; apply wp_bind.
    - eapply wp_conseq; [apply start_evolves|]. intros [a|e|] w1 H; exact H.
    - eapply wp_conseq; [apply abort_evolves with (P := λ _ _, False) (R := λ _ _, False)|]. intros [a|e|] w1 H; exact H.
    - eapply wp_conseq; [by apply submit_evolves|]. intros [a|e|] w1 H; exact H.
    - eapply wp_conseq; [apply reconcile_evolves with (P := λ _ _, False) (R := λ _ _, False)|]. intros [a|e|] w1 H; exact H.
    - eapply wp_conseq; [apply authorize_evolves with (P := λ _ _, False) (R := λ _ _, False)|]. intros [a|e|] w1 [H _]; exact H.
    - eapply wp_conseq; [apply confirm_evolves with (R := λ _ _, False)|]. intros [a|e|] w1 H; exact H.
    - eapply wp_conseq; [apply start_app_evolves with (P := λ _ _, False) (R := λ _ _, False)|]. intros [a|e|] w1 H; exact H.
    - eapply wp_conseq; [apply submit_app_evolves with (P := λ _ _, False) (R := λ _ _, False)|]. intros [a|e|] w1 H; exact H. }
  unfold wp in Hwp. intros Hrun. by rewrite Hrun in Hwp.
Qed.

Lemma run_op_inv io op (w : World) :
  is_valid_session (hw_normalized_session (rc_client rt)) = true → io_ok io →
  runtime_inv (hw_normalized_session (rc_client rt)) (wd_state w) →
  runtime_inv (hw_normalized_session (rc_client rt)) (wd_state (run io op w).1).
Proof.
  intros Hs Hio Hi.
  assert (Hwp : wp (run io op) (λ _ w', runtime_inv (hw_normalized_session (rc_client rt)) (wd_state w')) w).
  { destruct op; cbn [run_op]; unfold answering; apply wp_bind.
    - eapply wp_conseq; [by apply start_inv|]. by intros [a|e|] w1.
    - eapply wp_conseq; [by apply abort_inv|]. by intros [a|e|] w1.
    - eapply wp_conseq; [by apply submit_inv|]. by intros [a|e|] w1.
    - eapply wp_conseq; [by apply reconcile_inv|]. by intros [a|e|] w1.
    - eapply wp_conseq; [by apply authorize_inv|]. by intros [a|e|] w1.
    - eapply wp_conseq; [by apply confirm_inv|]. by intros [a|e|] w1.
    - eapply wp_conseq; [by apply start_app_inv|]. by intros [a|e|] w1.
    - eapply wp_conseq; [by apply submit_app_inv|]. by intros [a|e|] w1. }
  unfold wp in Hwp. by destruct (run io op w).
Qed.

(** ** Histories *)
Abbreviation history := (list (BootstrapIo * BootstrapOp * brresult BootstrapAnswer)).

(** The start that an attempt comes from. *)
Definition started (H : history) (id : list byte) (a : BootstrapAttempt) : Prop :=
  ∃ io op r, (io, op, r) ∈ H ∧ admits_attempt io op r id a.

(** The start and, after it, the submission of its code that a core approval comes from. *)
Definition bought (H : history) (id : list byte) (a : CoreApproval) : Prop :=
  ∃ H1 H2 io0 peer_ip payload c request_id csr session code t0 io1 r1 i t1,
    H = H1 ++ (io1, OpSubmit peer_ip (bg_id c) (bg_challenge c) code, r1) :: H2
    ∧ (io0, OpStart peer_ip payload, Ok (Challenged c)) ∈ H1
    ∧ Hdb1StartPayload_decode_fields base64_encode base64_decode payload
      = Ok (request_id, csr, ca_app_csr_digest a, session, ca_core_binding_digest a, ca_configuration_generation a)
    ∧ random_code (bi_samples io0) = Some code
    ∧ bi_now io0 = Some t0 ∧ bi_now io1 = Some t1 ∧ t1 ≤ t0 + BOOTSTRAP_CODE_TTL_SECS
    ∧ bi_issue io1 csr = Some i ∧ ca_core_identity a = is_app_identity i.

Definition confirmed_by (H : history) (id : list byte) (a : CoreApproval) : Prop :=
  ca_confirmed a = true →
  ∃ io r, (io, OpConfirmFirstApp (ca_core_identity a) id (ca_app_csr_digest a) (ca_configuration_generation a), r) ∈ H.

(** Where everything in a state comes from: the state [s0] of the start, or the history. *)
Definition accounted (s0 : BootstrapState) (H : history) (s : BootstrapState) : Prop :=
  (∀ id a, bs_attempts s !! id = Some a → started H id a)
  ∧ (∀ id a, bs_core_approvals s !! id = Some a →
       (bought H id a ∧ confirmed_by H id a)
       ∨ ∃ a0, bs_core_approvals s0 !! id = Some a0
           ∧ (a = a0 ∨ a = confirm_approval a0 ∧ confirmed_by H id a)).

Lemma started_mono H H' id a : started H id a → started (H ++ H') id a.
Proof. intros (io & op & r & Hin & Ha). exists io, op, r. split; [apply elem_of_app; by left|done]. Qed.
Lemma bought_mono H H' id a : bought H id a → bought (H ++ H') id a.
Proof.
  intros (H1 & H2 & io0 & p & pl & c & rid & csr & se & code & t0 & io1 & r1 & i & t1 & -> & Hrest).
  exists H1, (H2 ++ H'), io0, p, pl, c, rid, csr, se, code, t0, io1, r1, i, t1. split; [by rewrite <-app_assoc|done].
Qed.
Lemma confirmed_by_mono H H' id a : confirmed_by H id a → confirmed_by (H ++ H') id a.
Proof. intros Hc Ht. destruct (Hc Ht) as (io & r & Hin). exists io, r. apply elem_of_app. by left. Qed.

(** One call keeps the account. *)
Lemma accounted_step s0 H io op (w w' : World) r :
  codes_ok (wd_state w) → run io op w = (w', r) → accounted s0 H (wd_state w) →
  accounted s0 (H ++ [(io, op, r)]) (wd_state w').
Proof.
  intros Hcodes Hrun [Hatt Hcore]. destruct (run_op_evolves io op w w' r Hcodes Hrun) as [Hec Hea]. split.
  - intros id a Hid. destruct (Hea _ _ Hid) as [(a0 & H0 & Heq)|Hadm].
    + destruct (Hatt _ _ H0) as (io0 & op0 & r0 & Hin & Hadm). exists io0, op0, r0.
      split; [apply elem_of_app; by left|]. by destruct Heq as [->| ->], op0.
    + exists io, op, r. split; [apply elem_of_app; right; by left|done].
  - intros id a Hid. destruct (Hec _ _ Hid) as [H0|Hadm].
    + destruct (Hcore _ _ H0) as [[Hb Hc]|(a0 & Ha0 & [->|[-> Hc]])].
      * left. split; [by apply bought_mono|by apply confirmed_by_mono].
      * right. exists a0. split; [done|by left].
      * right. exists a0. split; [done|right; split; [done|by apply confirmed_by_mono]].
    + destruct op; try done; simpl in Hadm.
      * destruct Hadm as (att & now & i & Hatt0 & Hpeer & Hch & Hcode & Hnow & Hexp & _ & Hi & -> & Hci & Hdg & Hbd & Hgen & Hse & Hcf & _).
        destruct (Hatt _ _ Hatt0) as (io0 & op0 & r0 & Hin & Hst). destruct op0; try done; simpl in Hst.
        destruct Hst as (c & rid & t0 & -> & Hcid & Hcch & Hdec & Hp0 & Hrc & Ht0 & He0).
        left. split; [|intros Ht; by rewrite Ht in Hcf].
        exists H, [], io0, peer_ip, payload, c, rid, (ba_core_csr att), (ba_normalized_session att), code, t0, io, r, i, now.
        rewrite Hcid, Hcch, Hch, Hdg, Hbd, Hgen. rewrite <-Hpeer, Hp0 in *. split_and!; try done; try congruence; try lia.
      * destruct Hadm as (a0 & now & -> & H0 & -> & _ & _ & Hci & Hdg & Hgen).
        assert (Hcf : confirmed_by (H ++ [(io, OpConfirmFirstApp core_identity id app_csr_digest configuration_generation, r)])
                        id (confirm_approval a0)).
        { intros _. exists io, r. simpl. rewrite Hci, Hdg, Hgen. apply elem_of_app. right. by left. }
        destruct (Hcore _ _ H0) as [[Hb Hc]|(a1 & Ha1 & Heq)].
        -- left. split; [|done]. apply bought_mono. exact Hb.
        -- right. exists a1. split; [done|]. right. split; [|done]. by destruct Heq as [->|[-> _]].
Qed.

Lemma runtime_inv_codes session s : runtime_inv session s → codes_ok s.
Proof. intros Hi id a Hid. by destruct (live_attempt_eq _ _ _ _ (ri_live _ _ Hi) Hid) as (_ & _ & _ & (_ & ? & _)). Qed.

Local Abbreviation runs calls w :=
  (run_ops json_from_slice get as_str is_object to_vec base64_encode base64_decode sha256 expiry random call rt calls w).

Lemma run_ops_inv calls (w : World) :
  is_valid_session (hw_normalized_session (rc_client rt)) = true → Forall (λ c, io_ok c.1) calls →
  runtime_inv (hw_normalized_session (rc_client rt)) (wd_state w) →
  runtime_inv (hw_normalized_session (rc_client rt)) (wd_state (runs calls w).1).
Proof.
  intros Hs. revert w. induction calls as [|[io op] calls IH]; intros w Hio Hi; cbn [run_ops]; [done|].
  apply Forall_cons in Hio as [Hio Hall]. pose proof (run_op_inv io op w Hs Hio Hi) as Hi1.
  destruct (run io op w) as [w1 a]. specialize (IH w1 Hall Hi1). by destruct (runs calls w1).
Qed.

Lemma run_ops_accounted s0 H calls (w w' : World) answers :
  is_valid_session (hw_normalized_session (rc_client rt)) = true → Forall (λ c, io_ok c.1) calls →
  runtime_inv (hw_normalized_session (rc_client rt)) (wd_state w) →
  runs calls w = (w', answers) → accounted s0 H (wd_state w) → accounted s0 (H ++ zip calls answers) (wd_state w').
Proof.
  intros Hs. revert H w answers. induction calls as [|[io op] calls IH]; intros H w answers Hio Hi Hrun Hacc; cbn [run_ops] in Hrun.
  - injection Hrun as <- <-. by rewrite app_nil_r.
  - apply Forall_cons in Hio as [Hio Hall]. pose proof (run_op_inv io op w Hs Hio Hi) as Hi1.
    destruct (run io op w) as [w1 a] eqn:Hop. destruct (runs calls w1) as [w2 as_] eqn:Hrest. injection Hrun as <- <-.
    pose proof (accounted_step s0 H io op w w1 a (runtime_inv_codes _ _ Hi) Hop Hacc) as Hacc1.
    specialize (IH _ w1 as_ Hall Hi1 Hrest Hacc1). simpl. by rewrite <-app_assoc in IH.
Qed.
End Steps.

(** ** A small instance for the witnesses

    A Herdr that answers every request with one JSON object; a value is what the accessors
    can see of it, and the "parser" splits the line at two bars into the request id, the
    workspace id and the label. *)
Inductive ExampleValue : Type :=
| ExString (s : list byte)
| ExObject (fields : list (list byte * ExampleValue)).

Fixpoint split_bar (s : list byte) : list (list byte) :=
  match s with
  | [] => [[]]
  | b :: s' =>
      if bool_decide (b = x7c) then [] :: split_bar s' else
      match split_bar s' with
      | part :: rest => (b :: part) :: rest
      | [] => [[b]]
      end
  end.

Definition ex_from_slice (bytes : list byte) : option ExampleValue :=
  match split_bar bytes with
  | [id; workspace_id; label] =>
      Some (ExObject
        [(str_lit "id", ExString id);
         (str_lit "result", ExObject
            [(str_lit "type", ExString (str_lit "ok"));
             (str_lit "workspace", ExObject
                [(str_lit "workspace_id", ExString workspace_id); (str_lit "label", ExString label)])])])
  | _ => None
  end.
Definition ex_get (v : ExampleValue) (key : list byte) : option ExampleValue :=
  match v with
  | ExString _ => None
  | ExObject fields => snd <$> List.find (λ kv, bool_decide (kv.1 = key)) fields
  end.
Definition ex_as_str (v : ExampleValue) : option (list byte) :=
  match v with ExString s => Some s | ExObject _ => None end.
Definition ex_is_object (v : ExampleValue) : bool := match v with ExObject _ => true | ExString _ => false end.

Definition ex_code : list byte := str_lit "100000".
Definition ex_expiry (_ : Z) : option (list byte) := Some (str_lit "noon").
Definition ex_label : list byte := str_lit "100000 (expires noon) - herdr-dog verification".
Definition ex_call (_ : nat) (request_id : list byte) (_ : HerdrRequest) : HerdrCall :=
  {| hc_connected := true; hc_encoded := true; hc_written := true;
     hc_stream := request_id ++ str_lit "|w1|" ++ ex_label ++ [x0a] |}.

Definition ex_session : list byte := str_lit "default".
Definition ex_dir : path := components (str_lit "/d").
Definition ex_path : path := components (str_lit "/d/b.json").
Definition ex_fs : FileSystem :=
  {[ ex_dir := {| nd_kind := IsDir; nd_uid := 5; nd_mode := 448; nd_dev := 1; nd_ino := 2; nd_bytes := [] |} ]}.
Definition ex_persist_io : PersistIo :=
  {| pi_material := sound_io 5; pi_lock_open_fails := false; pi_lock_held := false; pi_exists_fails := false;
     pi_remove_fails := false |}.
Definition ex_issue (_ : list byte) : option Issued :=
  Some {| is_app_identity := replicate 32 x09; is_certificate_chain := [[x30]]; is_not_after_epoch_seconds := 5000 |}.
Definition ex_io (now : Z) : BootstrapIo :=
  {| bi_now := Some now; bi_bootstrap_ids := [replicate 32 x01]; bi_approval_ids := [replicate 32 x02];
     bi_challenges := [replicate 32 x03]; bi_samples := [0]; bi_issue := ex_issue; bi_store := λ _, ex_persist_io |}.

Definition ex_payload : Hdb1StartPayload :=
  {| bs_request_id := replicate 16 x07; bs_core_csr := [x30; x31]; bs_app_csr_digest := encode_hex (replicate 32 x05);
     bs_normalized_session := ex_session; bs_core_binding_digest := encode_hex (replicate 32 x06);
     bs_configuration_generation := 1 |}.
Definition ex_peer : list byte := [x7f; x00; x00; x01].

(** A start, a wrong code, the right code, and the first App of the Core. *)
Definition ex_calls : list (BootstrapIo * BootstrapOp) :=
  [(ex_io 1000, OpStart ex_peer ex_payload);
   (ex_io 1010, OpSubmit ex_peer (replicate 32 x01) (replicate 32 x03) (str_lit "123456"));
   (ex_io 1020, OpSubmit ex_peer (replicate 32 x01) (replicate 32 x03) ex_code);
   (ex_io 1030, OpAuthorizeFirstApp (replicate 32 x09) (replicate 32 x02) (replicate 32 x05));
   (ex_io 1040, OpConfirmFirstApp (replicate 32 x09) (replicate 32 x02) (replicate 32 x05) 1)].

Definition ex_to_vec (_ : records) : option (list byte) := Some (str_lit "records").
Definition ex_records_from_slice (_ : list byte) : option records := None.

Definition ex_rt : RuntimeConfig :=
  {| rc_client := {| hw_verification_cwd := str_lit "/tmp"; hw_normalized_session := ex_session |};
     rc_store_path := ex_path; rc_expected_uid := 5 |}.

Definition ex_run (calls : list (BootstrapIo * BootstrapOp)) (s : BootstrapState) (fs : FileSystem)
  : World ExampleValue * list (brresult BootstrapAnswer) :=
  run_ops ex_from_slice ex_get ex_as_str ex_is_object ex_to_vec id Some (λ _, replicate 32 x05) ex_expiry
    (λ _, 7) ex_call ex_rt calls (Build_World s fs 0 []).

(** ** The file after a call *)
Lemma forall_btree_entries {A B} (P : B → Prop) (f : list byte → A → B) (m : gmap (list byte) A) :
  (∀ k a, m !! k = Some a → P (f k a)) → Forall P ((λ kv, f kv.1 kv.2) <$> btree_entries be_val m).
Proof.
  intros Hm. apply Forall_fmap, Forall_forall. intros [k a] Hin%elem_of_btree_entries. by apply Hm.
Qed.

Lemma runtime_inv_records session s :
  runtime_inv session s → Forall (λ r, valid_persisted_record r = true) (state_records s) ∧ approvals_keyed s.
Proof.
  intros Hi. split.
  - unfold state_records. apply Forall_app. split; [|apply Forall_app; split].
    + apply forall_btree_entries. intros k a Hk. by destruct (live_attempt_eq _ _ _ _ (ri_live _ _ Hi) Hk) as (_ & _ & _ & (_ & _ & ?)).
    + apply forall_btree_entries. intros k a Hk. by destruct (live_app_eq _ _ _ _ (ri_live _ _ Hi) Hk) as (_ & _ & _ & (_ & _ & ?)).
    + apply (forall_btree_entries _ (λ _ a, core_issued_record a)). intros k a Hk. apply (ri_core _ _ Hi _ _ Hk).
  - intros id a Hid. destruct (ri_core _ _ Hi _ _ Hid) as (? & ? & _). done.
Qed.

(** Nothing to close and nothing expired: nothing is swept. *)
Lemma swept_nothing s now :
  (swept s now).2 = [] → (reap_expired_core_approvals s now).2 = false →
  state_records (swept s now).1 = state_records s.
Proof.
  unfold swept, reap_expired_core_approvals. cbn [fst snd].
  destruct (reap_expired_state _ _) as [s2 reaped] eqn:Hr. simpl. intros [_ ->]%app_nil Hexp.
  assert (Hcore : filter (λ kv, approval_expired now kv.2 = false) (bs_core_approvals s) = bs_core_approvals s).
  { apply map_filter_id. intros k a Hk. simpl. by eapply (proj1 (map_any_false _ _) Hexp). }
  rewrite Hcore in Hr. unfold reap_expired_state in Hr. simpl in Hr.
  assert (Hlen2 : ∀ l acc, (length acc.2 + length l ≤ length (fold_left reap_approval l acc).2)%nat).
  { induction l as [|kv l IH]; intros [a b]; simpl; [lia|]. specialize (IH (reap_approval (a, b) kv)). simpl in IH.
    rewrite length_app in IH. simpl in IH. lia. }
  assert (Hlen1' : ∀ l acc, (length acc.2 + length l ≤ length (fold_left reap_attempt l acc).2)%nat).
  { clear Hlen2. induction l as [|kv l IH]; intros [a b]; simpl; [lia|]. specialize (IH (reap_attempt (a, b) kv)). simpl in IH.
    rewrite length_app in IH. simpl in IH. lia. }
  set (l1 := filter _ (btree_entries be_val (bs_attempts s))) in Hr.
  set (l2 := filter _ (btree_entries be_val (bs_app_approvals s))) in Hr.
  pose proof (Hlen2 l2 (fold_left reap_attempt l1 (put_orphaned_workspaces [] (put_core_approvals (bs_core_approvals s) s), []))) as H2.
  pose proof (Hlen1' l1 (put_orphaned_workspaces [] (put_core_approvals (bs_core_approvals s) s), [])) as H1.
  simpl in H1. rewrite Hr in H2. simpl in H2. destruct l1; [|simpl in *; lia]. destruct l2; [|simpl in *; lia].
  simpl in Hr. injection Hr as <-. done.
Qed.

Section Durable.
Context {Value : Type} (json_from_slice : list byte → option Value).
Context (get : Value → list byte → option Value) (as_str : Value → option (list byte)) (is_object : Value → bool).
Context (to_vec : records → option (list byte)) (from_slice : list byte → option records).
Context (base64_encode : list byte → list byte) (base64_decode : list byte → option (list byte)).
Context (sha256 : list byte → list byte) (expiry : Z → option (list byte)).
Context (random : nat → Z) (call : nat → list byte → HerdrRequest → HerdrCall).
Context (rt : RuntimeConfig).
Context (json : ∀ rs bytes, to_vec rs = Some bytes → from_slice bytes = Some rs).
Context (path_parsed : parsed (rc_store_path rt)).

Local Abbreviation World := (World Value).
Local Abbreviation checked fs := (path_checked (rc_store_path rt) (rc_expected_uid rt) fs).

(** The encoded records are within what a private file may have. *)
Definition fits (s : BootstrapState) : Prop :=
  ∀ bytes, to_vec (state_records s) = Some bytes → len bytes ≤ MAX_PRIVATE_MATERIAL_BYTES.

(** Writes by the expected user, whose look-ups of the file do not fail. *)
Definition writes_ok (io : BootstrapIo) : Prop :=
  ∀ n, mi_euid (pi_material (bi_store io n)) = rc_expected_uid rt ∧ pi_exists_fails (bi_store io n) = false.

(** When it matters, the file holds the state. *)
Definition stored (w : World) : Prop :=
  Forall (λ r, valid_persisted_record r = true) (state_records (wd_state w)) → fits (wd_state w) →
  file_holds from_slice (rc_store_path rt) (rc_expected_uid rt) (wd_fs w) (wd_state w).

Lemma stored_after io (w : World) fs :
  writes_ok io → checked (wd_fs w) →
  store_persist to_vec (rc_store_path rt) (rc_expected_uid rt) (bi_store io (wd_writes w)) (wd_state w) (wd_fs w) = (fs, Ok tt) →
  ∀ n log, stored (Build_World (wd_state w) fs n log).
Proof.
  intros Hw Hc Hp n log Hv Hf. destruct (Hw (wd_writes w)) as [Hu He]. cbn [wd_state wd_fs] in *.
  by eapply store_persist_holds.
Qed.

Lemma stored_proper s s' fs n n' log log' :
  state_records s' = state_records s → stored (Build_World s fs n log) → stored (Build_World s' fs n' log').
Proof. intros Hr Hs. unfold stored, fits, file_holds in *. cbn [wd_state wd_fs] in *. by rewrite Hr. Qed.

Lemma wp_housekeeping_stored io now (w : World) (Q : brresult unit → World → Prop) :
  writes_ok io → checked (wd_fs w) → stored w →
  (∀ r w', checked (wd_fs w') → (r = Ok tt → stored w') → Q r w') →
  wp (housekeeping json_from_slice get as_str to_vec random call rt io now) Q w.
Proof.
  intros Hw Hc Hs H. apply wp_housekeeping.
  - intros log. by apply H.
  - intros log He1 He2. apply H; [done|]. intros _. destruct w as [s fs n log0].
    eapply stored_proper; [|exact Hs]. by apply swept_nothing.
  - intros log fs r Hp Hr. apply H.
    + cbn [wd_fs]. by eapply store_persist_checked.
    + intros Hok. destruct r as [[]|e|]; [|done..].
      exact (stored_after io (Build_World (swept (wd_state w) now).1 (wd_fs w) (wd_writes w) log) fs Hw Hc Hp _ _).
Qed.

Local Ltac checked_fs :=
  cbn [wd_fs];
  first [ assumption
        | match goal with
          | Hp : store_persist _ _ _ _ _ _ = (?fs, _) |- path_checked _ _ ?fs =>
              eapply store_persist_checked; [exact path_parsed|exact Hp|]; checked_fs
          end ].

(** The end of a run: an error, a write, or nothing changed. *)
Local Ltac stored_end :=
  cbn [wd_state wd_fs wd_writes wd_log];
  split; [checked_fs|];
  first [ by intros ? [=]
        | intros ? _;
          match goal with
          | Hw : writes_ok ?io, Hp : store_persist _ _ _ (bi_store ?io ?n) ?s ?fs0 = (?fs, Ok tt)
              |- stored (Build_World ?s ?fs _ ?log) =>
              refine (stored_after io (Build_World s fs0 n log) fs Hw _ Hp _ _); checked_fs
          | Hs : stored ?w |- _ => destruct w; exact Hs
          end ].

Definition ends {A} (r : brresult A) (w' : World) : Prop := checked (wd_fs w') ∧ ∀ a, r = Ok a → stored w'.

Lemma start_stored io peer_ip payload (w : World) :
  writes_ok io → checked (wd_fs w) → stored w →
  wp (start json_from_slice get as_str is_object to_vec base64_encode base64_decode expiry random call rt io peer_ip payload) ends w.
Proof.
  intros Hw Hc Hs. unfold start, ends. do 2 wp_step; [|stored_end..].
  destruct v as [[[[[request_id core_csr] app_digest] nsession] binding] generation].
  wp_step; [wp_step; stored_end|]. do 2 wp_step; [|stored_end]. wp_step. apply wp_housekeeping_stored; [done..|].
  clear Hc Hs w. intros r w Hc Hs. destruct r as [[]|e|]; [|stored_end..]. specialize (Hs eq_refl).
  repeat wp_step; stored_end.
Qed.

Lemma abort_stored io bootstrap_id (w : World) :
  writes_ok io → checked (wd_fs w) → stored w →
  wp (abort json_from_slice get as_str to_vec random call rt io bootstrap_id) ends w.
Proof. intros Hw Hc Hs. unfold abort, ends. repeat wp_step; stored_end. Qed.

Lemma submit_stored io peer_ip bootstrap_id challenge code (w : World) :
  writes_ok io → checked (wd_fs w) → stored w →
  wp (submit json_from_slice get as_str to_vec random call rt io peer_ip bootstrap_id challenge code) ends w.
Proof. intros Hw Hc Hs. unfold submit, end_attempt, ends. repeat wp_step; stored_end. Qed.

Lemma reconcile_stored io approval_id binding nsession (w : World) :
  writes_ok io → checked (wd_fs w) → stored w →
  wp (reconcile json_from_slice get as_str to_vec random call rt io approval_id binding nsession) ends w.
Proof.
  intros Hw Hc Hs. unfold reconcile, ends. do 2 wp_step; [|stored_end]. wp_step. apply wp_housekeeping_stored; [done..|].
  clear Hc Hs w. intros r w Hc Hs. destruct r as [[]|e|]; [|stored_end..]. specialize (Hs eq_refl).
  repeat wp_step; stored_end.
Qed.

Lemma authorize_stored io core_identity approval_id digest (w : World) :
  writes_ok io → checked (wd_fs w) → stored w →
  wp (authorize_first_app to_vec rt io core_identity approval_id digest) ends w.
Proof. intros Hw Hc Hs. unfold authorize_first_app, expire_approval, ends. repeat wp_step; stored_end. Qed.

Lemma confirm_stored io core_identity approval_id digest generation (w : World) :
  writes_ok io → checked (wd_fs w) → stored w →
  wp (confirm_first_app to_vec rt io core_identity approval_id digest generation) ends w.
Proof. intros Hw Hc Hs. unfold confirm_first_app, expire_approval, ends. repeat wp_step; stored_end. Qed.

Lemma start_app_stored io core_identity digest binding nsession generation (w : World) :
  writes_ok io → checked (wd_fs w) → stored w →
  wp (start_app_approval json_from_slice get as_str is_object to_vec expiry random call rt
        io core_identity digest binding nsession generation) ends w.
Proof.
  intros Hw Hc Hs. unfold start_app_approval, ends. wp_step; [wp_step; stored_end|]. do 2 wp_step; [|stored_end]. wp_step.
  apply wp_housekeeping_stored; [done..|].
  clear Hc Hs w. intros r w Hc Hs. destruct r as [[]|e|]; [|stored_end..]. specialize (Hs eq_refl).
  repeat wp_step; stored_end.
Qed.

Lemma submit_app_stored io core_identity approval_id challenge code csr digest (w : World) :
  writes_ok io → checked (wd_fs w) → stored w →
  wp (submit_app_approval json_from_slice get as_str to_vec sha256 random call rt
        io core_identity approval_id challenge code csr digest) ends w.
Proof. intros Hw Hc Hs. unfold submit_app_approval, end_approval, ends. repeat wp_step; stored_end. Qed.

Lemma run_op_stored io op (w w' : World) r :
  writes_ok io → checked (wd_fs w) → stored w →
  run_op json_from_slice get as_str is_object to_vec base64_encode base64_decode sha256 expiry random call rt io op w = (w', r) →
  checked (wd_fs w') ∧ ∀ a, r = Ok a → stored w'.
Proof.
  intros Hw Hc Hs.
  assert (Hwp : wp (run_op json_from_slice get as_str is_object to_vec base64_encode base64_decode sha256 expiry random call rt io op) ends w).
  { destruct op; cbn [run_op]; unfold answering; apply wp_bind.
    - eapply wp_conseq; [by apply start_stored|]. intros [a|e|] w1 [H1 H2]; (split; [exact H1|]); try done; intros ? _; eauto.
    - eapply wp_conseq; [by apply abort_stored|]. intros [a|e|] w1 [H1 H2]; (split; [exact H1|]); try done; intros ? _; eauto.
    - eapply wp_conseq; [by apply submit_stored|]. intros [a|e|] w1 [H1 H2]; (split; [exact H1|]); try done; intros ? _; eauto.
    - eapply wp_conseq; [by apply reconcile_stored|]. intros [a|e|] w1 [H1 H2]; (split; [exact H1|]); try done; intros ? _; eauto.
    - eapply wp_conseq; [by apply authorize_stored|]. intros [a|e|] w1 [H1 H2]; (split; [exact H1|]); try done; intros ? _; eauto.
    - eapply wp_conseq; [by apply confirm_stored|]. intros [a|e|] w1 [H1 H2]; (split; [exact H1|]); try done; intros ? _; eauto.
    - eapply wp_conseq; [by apply start_app_stored|]. intros [a|e|] w1 [H1 H2]; (split; [exact H1|]); try done; intros ? _; eauto.
    - eapply wp_conseq; [by apply submit_app_stored|]. intros [a|e|] w1 [H1 H2]; (split; [exact H1|]); try done; intros ? _; eauto. }
  unfold wp in Hwp. intros Hrun. by rewrite Hrun in Hwp.
Qed.
End Durable.

(** ** Every call returns *)

(** Enough distinct draws, and a sample that is taken. *)
Definition draws_enough (io : BootstrapIo) : Prop :=
  (∀ l, l ∈ [bi_bootstrap_ids io; bi_approval_ids io; bi_challenges io] → NoDup l ∧ MAX_APPROVALS + 3 ≤ len l)
  ∧ random_code (bi_samples io) ≠ None.

Lemma decode_pairs_returns {E} (e : E) digits : returns (decode_pairs e digits).
Proof.
  assert (H : ∀ n digits, (length digits ≤ n)%nat → returns (decode_pairs e digits)); [|by eapply H].
  clear digits. intros n. induction n as [|n IH]; intros [|a [|b digits]] Hl; simpl in *; try done; [lia|].
  assert (Hn : ∀ x, returns (hex_nibble e x)) by (intros x; unfold hex_nibble; no_panic).
  apply bind_returns; [apply Hn|intros h _]. apply bind_returns; [apply Hn|intros l _].
  apply bind_returns; [apply IH; lia|]. by intros.
Qed.

Lemma start_fields_return base64_encode base64_decode p :
  returns (Hdb1StartPayload_decode_fields base64_encode base64_decode p).
Proof.
  assert (Hok : ∀ A (o : option A) (e : Hdb1Error), returns (ok_or o e)) by (by intros A []).
  unfold Hdb1StartPayload_decode_fields, decode_base64_exact, decode_base64_bounded, decode_hex_exact, Hdb1_validate_session.
  no_panic; auto using decode_pairs_returns.
Qed.

Lemma runtime_inv_draws session s draws :
  runtime_inv session s → NoDup draws → MAX_APPROVALS + 3 ≤ len draws → mint_id s draws ≠ None.
Proof.
  intros Hi Hnd Hl. destruct (mint_id_terminates s draws) as [v ->]; [done| |done].
  pose proof (ri_bound _ _ Hi). enough (map_len (bs_app_approvals s) ≤ 1) by lia. unfold map_len.
  destruct (ri_live _ _ Hi) as [_ -> _|?? _ -> _ _|?? _ -> _ _]; rewrite ?map_size_empty, ?map_size_singleton; lia.
Qed.

Lemma mint_id_starts st s draws : mint_id (put_peer_starts st s) draws = mint_id s draws.
Proof. induction draws as [|d draws IH]; simpl; [done|]. by rewrite IH. Qed.

Lemma verification_title_returns expiry code t : returns (verification_title expiry code t).
Proof. unfold verification_title. destruct (_ <? _); [done|]. by destruct (expiry t). Qed.

Section Returning.
Context {Value : Type} (json_from_slice : list byte → option Value).
Context (get : Value → list byte → option Value) (as_str : Value → option (list byte)) (is_object : Value → bool).
Context (to_vec : records → option (list byte)).
Context (base64_encode : list byte → list byte) (base64_decode : list byte → option (list byte)).
Context (sha256 : list byte → list byte) (expiry : Z → option (list byte)).
Context (random : nat → Z) (call : nat → list byte → HerdrRequest → HerdrCall).
Context (rt : RuntimeConfig).

Local Abbreviation World := (World Value).
Local Abbreviation session := (hw_normalized_session (rc_client rt)).
Local Abbreviation run io op :=
  (run_op json_from_slice get as_str is_object to_vec base64_encode base64_decode sha256 expiry random call rt io op).

Lemma housekeeping_returns io now (w : World) :
  runtime_inv session (wd_state w) →
  wp (housekeeping json_from_slice get as_str to_vec random call rt io now)
    (λ r w', returns r ∧ runtime_inv session (wd_state w')) w.
Proof.
  intros Hi%(swept_inv rt _ now). apply wp_housekeeping; cbn [wd_state].
  - intros log. split; [done|by apply runtime_inv_orphans].
  - done.
  - intros log fs r _ Hr. split; [by destruct r|done].
Qed.

(** No step of a call panics but a loop over the random source without enough draws. *)
Local Ltac fields_panic :=
  match goal with
  | H : parse_code ?c = Panic |- _ => unfold parse_code in H; destruct (_ || _) in H; discriminate H
  | H : ok_or ?o _ = Panic |- _ => destruct o; discriminate H
  | H : verification_title ?x ?c ?t = Panic |- _ => by destruct (verification_title_returns x c t)
  | H : map_err _ (Hdb1StartPayload_decode_fields ?e ?d ?p) = Panic |- _ =>
      destruct (Hdb1StartPayload_decode_fields e d p) eqn:?; try discriminate H; by destruct (start_fields_return e d p)
  end.
Local Ltac returning := repeat wp_step; try done; try fields_panic.

Lemma start_returns io peer_ip payload (w : World) :
  draws_enough io → runtime_inv session (wd_state w) →
  wp (start json_from_slice get as_str is_object to_vec base64_encode base64_decode expiry random call rt io peer_ip payload)
    (λ r _, returns r) w.
Proof.
  intros [Hd Hs] Hi. unfold start. do 2 wp_step; [|done|fields_panic].
  destruct v as [[[[[request_id core_csr] app_digest] nsession] binding] generation].
  wp_step; [by wp_step|]. do 2 wp_step; [|done]. wp_step. eapply wp_conseq; [by apply housekeeping_returns|].
  clear w Hi. intros r w [Hr Hi]. destruct r as [[]|e|]; [|done..].
  assert (Hm : ∀ st l, l ∈ [bi_bootstrap_ids io; bi_approval_ids io; bi_challenges io] →
    mint_id (put_peer_starts st (wd_state w)) l ≠ None).
  { intros st l Hl. destruct (Hd l Hl) as [Hnd Hle]. rewrite mint_id_starts. by eapply runtime_inv_draws. }
  returning; exfalso; match goal with
  | H : random_code _ = None |- _ => done
  | H : mint_id _ _ = None |- _ => revert H; apply Hm; set_solver
  end.
Qed.
Lemma start_app_returns io core_identity digest binding nsession generation (w : World) :
  draws_enough io → runtime_inv session (wd_state w) →
  wp (start_app_approval json_from_slice get as_str is_object to_vec expiry random call rt
        io core_identity digest binding nsession generation) (λ r _, returns r) w.
Proof.
  intros [Hd Hs] Hi. unfold start_app_approval. wp_step; [by wp_step|]. do 2 wp_step; [|done]. wp_step.
  eapply wp_conseq; [by apply housekeeping_returns|].
  clear w Hi. intros r w [Hr Hi]. destruct r as [[]|e|]; [|done..].
  assert (Hm : ∀ l, l ∈ [bi_bootstrap_ids io; bi_approval_ids io; bi_challenges io] → mint_id (wd_state w) l ≠ None).
  { intros l Hl. destruct (Hd l Hl) as [Hnd Hle]. by eapply runtime_inv_draws. }
  returning; exfalso; match goal with
  | H : random_code _ = None |- _ => done
  | H : mint_id _ _ = None |- _ => revert H; apply Hm; set_solver
  end.
Qed.

Lemma run_op_returns io op (w : World) :
  draws_enough io → runtime_inv session (wd_state w) → returns (run io op w).2.
Proof.
  intros Hd Hi.
  assert (Hwp : wp (run io op) (λ r _, returns r) w).
  { destruct op; cbn [run_op]; unfold answering; apply wp_bind.
    - eapply wp_conseq; [by apply start_returns|]. by intros [a|e|] w1.
    - eapply (wp_conseq _ (λ r _, returns r)); [unfold abort; returning|]. by intros [a|e|] w1.
    - eapply (wp_conseq _ (λ r _, returns r)); [unfold submit, end_attempt; returning|]. by intros [a|e|] w1.
    - eapply (wp_conseq _ (λ r _, returns r)); [|by intros [a|e|] w1]. unfold reconcile. do 2 wp_step; [|done].
      wp_step. eapply wp_conseq; [by apply housekeeping_returns|]. intros [[]|e|] w1 [Hr Hi1]; returning.
    - eapply (wp_conseq _ (λ r _, returns r)); [unfold authorize_first_app, expire_approval; returning|]. by intros [a|e|] w1.
    - eapply (wp_conseq _ (λ r _, returns r)); [unfold confirm_first_app, expire_approval; returning|]. by intros [a|e|] w1.
    - eapply wp_conseq; [by apply start_app_returns|]. by intros [a|e|] w1.
    - eapply (wp_conseq _ (λ r _, returns r)); [unfold submit_app_approval, end_approval; returning|]. by intros [a|e|] w1. }
  unfold wp in Hwp. by destruct (run io op w).
Qed.
End Returning.

(** ** What an answer says *)
Section Answers.
Context {Value : Type} (json_from_slice : list byte → option Value).
Context (get : Value → list byte → option Value) (as_str : Value → option (list byte)) (is_object : Value → bool).
Context (to_vec : records → option (list byte)).
Context (base64_encode : list byte → list byte) (base64_decode : list byte → option (list byte)).
Context (sha256 : list byte → list byte) (expiry : Z → option (list byte)).
Context (random : nat → Z) (call : nat → list byte → HerdrRequest → HerdrCall).
Context (rt : RuntimeConfig).

Local Abbreviation World := (World Value).
Local Abbreviation run io op :=
  (run_op json_from_slice get as_str is_object to_vec base64_encode base64_decode sha256 expiry random call rt io op).

(** An App is challenged only for a Core that a first App confirmed. *)
Lemma start_app_Ok io core_identity digest binding nsession generation (w : World) :
  wp (start_app_approval json_from_slice get as_str is_object to_vec expiry random call rt
        io core_identity digest binding nsession generation)
    (λ r w', ∀ c, r = Ok c →
       (∃ id a, bs_core_approvals (wd_state w) !! id = Some a ∧ ca_confirmed a = true
          ∧ ca_core_identity a = core_identity ∧ ca_core_binding_digest a = binding
          ∧ ca_normalized_session a = nsession ∧ ca_configuration_generation a = generation)
       ∧ ∃ a, bs_app_approvals (wd_state w') !! bg_id c = Some a ∧ aa_core_identity a = core_identity
          ∧ aa_app_csr_digest a = digest ∧ aa_challenge a = bg_challenge c
          ∧ random_code (bi_samples io) = Some (aa_code a)) w.
Proof.
  unfold start_app_approval. wp_step; [by wp_step|]. do 2 wp_step; [|done]. wp_step.
  apply wp_housekeeping_shrinks. intros r w1 Hsh. destruct r as [[]|e|]; [|done..].
  repeat wp_step; try (by intros ? [=]). intros c [= <-]. split.
  - bool_facts. match goal with H : core_approved _ _ _ _ _ = true |- _ => rename H into Hca end.
    unfold core_approved in Hca. apply map_any_true in Hca as (cid & ap & Hcid & Hap). bool_facts.
    exists cid, ap. split; [by eapply lookup_weaken; [|apply Hsh]|done].
  - simpl. eexists. rewrite lookup_insert_eq. done.
Qed.

(** The first App is authorised by an approval that is not confirmed and not expired, a later
    one by the code of its own approval, which is used up. *)
Definition answer_accounted (io : BootstrapIo) (op : BootstrapOp) (s s' : BootstrapState) (answer : BootstrapAnswer) : Prop :=
  match op, answer with
  | OpAuthorizeFirstApp core_identity approval_id digest, Authorized g => ∃ a now,
      bs_core_approvals s !! approval_id = Some a ∧ bi_now io = Some now ∧ ca_confirmed a = false
      ∧ now ≤ ca_recovery_expires_at_epoch_seconds a ∧ ca_core_identity a = core_identity
      ∧ ca_app_csr_digest a = digest ∧ ca_configuration_generation a = g
  | OpStartApp core_identity digest binding nsession generation, Challenged c =>
      (∃ id a, bs_core_approvals s !! id = Some a ∧ ca_confirmed a = true
          ∧ ca_core_identity a = core_identity ∧ ca_core_binding_digest a = binding
          ∧ ca_normalized_session a = nsession ∧ ca_configuration_generation a = generation)
      ∧ ∃ a, bs_app_approvals s' !! bg_id c = Some a ∧ aa_core_identity a = core_identity
          ∧ aa_app_csr_digest a = digest ∧ aa_challenge a = bg_challenge c
          ∧ random_code (bi_samples io) = Some (aa_code a)
  | OpSubmitApp core_identity approval_id challenge code csr digest, ApprovedApp ctx => ∃ a now,
      bs_app_approvals s !! approval_id = Some a ∧ bi_now io = Some now
      ∧ now ≤ aa_expires_at_epoch_seconds a ∧ aa_core_identity a = core_identity ∧ aa_challenge a = challenge
      ∧ aa_app_csr_digest a = digest ∧ sha256 csr = digest ∧ code = aa_code a
      ∧ ac_app_csr ctx = csr ∧ ac_core_identity ctx = core_identity ∧ ac_approval_id ctx = approval_id
      ∧ ac_app_csr_digest ctx = digest
      ∧ ac_core_binding_digest ctx = aa_core_binding_digest a
      ∧ bs_app_approvals s' !! approval_id = None
  | _, _ => True
  end.

Lemma run_op_answer session io op (w w' : World) answer :
  runtime_inv session (wd_state w) → run io op w = (w', Ok answer) →
  answer_accounted io op (wd_state w) (wd_state w') answer.
Proof.
  intros Hi. destruct op; try done; cbn [run_op]; unfold answering, st_bind.
  - pose proof (authorize_evolves to_vec rt io core_identity approval_id app_csr_digest (λ _ _, False) (λ _ _, False) w) as H.
    unfold wp in H. destruct (authorize_first_app _ _ _ _ _ _ w) as [w1 [g|e|]]; [|done..]. intros [= <- <-]. by apply H.
  - pose proof (start_app_Ok io core_identity app_csr_digest core_binding_digest normalized_session configuration_generation w) as H.
    unfold wp in H. destruct (start_app_approval _ _ _ _ _ _ _ _ _ _ _ _ _ _ _ w) as [w1 [c|e|]]; [|done..].
    intros [= <- <-]. by apply H.
  - pose proof (submit_app_Ok json_from_slice get as_str to_vec sha256 random call rt io core_identity approval_id challenge
      code app_csr app_csr_digest w) as H.
    unfold wp in H. destruct (submit_app_approval _ _ _ _ _ _ _ _ _ _ _ _ _ _ _ w) as [w1 [c|e|]]; [|done..].
    intros [= <- <-]. destruct (H _ eq_refl) as (a & now & Ha & Hnow & Hexp & Hci & Hch & Hdg & Hsha & Hcode & Hlen & -> & Hgone).
    exists a, now. split_and!; try done. symmetry. apply constant_time_equal_true; [|done].
    destruct (live_app_eq session _ _ _ (ri_live _ _ Hi) Ha) as (_ & _ & _ & (_ & ? & _)). congruence.
Qed.
End Answers.

(** A submitted code that is wrong, when the workspace cannot be closed: the attempt stays,
    with its count beyond the limit, and the right code still buys the approval.  *)
Definition ex_att (failed : Z) : BootstrapAttempt :=
  {| ba_peer_ip := ex_peer; ba_approval_id := replicate 32 x02; ba_challenge := replicate 32 x03; ba_code := ex_code;
     ba_core_csr := [x30; x31]; ba_app_csr_digest := replicate 32 x05; ba_core_binding_digest := replicate 32 x06;
     ba_normalized_session := ex_session; ba_configuration_generation := 1; ba_workspace_id := str_lit "w1";
     ba_expires_at_epoch_seconds := 1300; ba_hard_expires_at_epoch_seconds := 1330; ba_failed_codes := failed |}.
Definition ex_attempted : BootstrapState :=
  put_attempts {[replicate 32 x01 := ex_att 5]} (put_active_sessions {[ex_session]} BootstrapState_default).

Lemma code_limit_needs_close :
  let '(w1, a1) := run_ops ex_from_slice ex_get ex_as_str ex_is_object ex_to_vec id Some (λ _, replicate 32 x05) ex_expiry
    (λ _, 7) (λ _ _ _, {| hc_connected := false; hc_encoded := true; hc_written := true; hc_stream := [] |}) ex_rt
    [(ex_io 1010, OpSubmit ex_peer (replicate 32 x01) (replicate 32 x03) (str_lit "123456"))]
    (Build_World ex_attempted ex_fs 0 []) in
  ∃ a m, a1 = [Err BrWorkspaceUnavailable]
  ∧ bs_attempts (wd_state w1) !! replicate 32 x01 = Some a ∧ MAX_CODE_FAILURES < ba_failed_codes a
  ∧ (ex_run [(ex_io 1020, OpSubmit ex_peer (replicate 32 x01) (replicate 32 x03) ex_code)]
       (wd_state w1) (wd_fs w1)).2 = [Ok (IssuedCore m)].
Proof. eexists (ex_att 6), _. split_and!; by vm_compute. Qed.

(** ** Restarts *)
Lemma run_ops_stored {Value} json_from_slice get as_str is_object to_vec from_slice base64_encode base64_decode sha256
    expiry random call rt calls (w w' : World Value) answers :
  (∀ rs bytes, to_vec rs = Some bytes → from_slice bytes = Some rs) → parsed (rc_store_path rt) →
  Forall (λ c, writes_ok rt c.1) calls → path_checked (rc_store_path rt) (rc_expected_uid rt) (wd_fs w) →
  stored to_vec from_slice rt w →
  run_ops json_from_slice get as_str is_object to_vec base64_encode base64_decode sha256 expiry random call rt calls w
    = (w', answers) →
  Forall (λ a, is_ok a = true) answers →
  path_checked (rc_store_path rt) (rc_expected_uid rt) (wd_fs w') ∧ stored to_vec from_slice rt w'.
Proof.
  intros Hj Hp. revert w answers. induction calls as [|[io op] calls IH]; intros w answers Hw Hc Hs Hrun Hok; cbn [run_ops] in Hrun.
  { by injection Hrun as <- <-. }
  apply Forall_cons in Hw as [Hio Hw]. destruct (run_op _ _ _ _ _ _ _ _ _ _ _ _ io op w) as [w1 a] eqn:Hop.
  destruct (run_ops _ _ _ _ _ _ _ _ _ _ _ _ calls w1) as [w2 as_] eqn:Hrest. injection Hrun as <- <-.
  apply Forall_cons in Hok as [Ha Hok]. destruct a as [a|e|]; try done.
  destruct (run_op_stored json_from_slice get as_str is_object to_vec from_slice base64_encode base64_decode sha256 expiry
    random call rt Hj Hp io op w w1 (Ok a) Hio Hc Hs Hop) as [Hc1 Hs1].
  apply (IH w1 as_); [done|done|by eapply Hs1|done|done].
Qed.

#[export] Instance PersistedBootstrapKind_eq_dec : EqDecision PersistedBootstrapKind.
Proof. solve_decision. Defined.
#[export] Instance PersistedBootstrapRecord_eq_dec : EqDecision PersistedBootstrapRecord.
Proof. solve_decision. Defined.

(** A known JSON writer for the states of an example: what it writes for each is its number. *)
Definition ex_good_calls : list (BootstrapIo * BootstrapOp) :=
  [(ex_io 1000, OpStart ex_peer ex_payload);
   (ex_io 1020, OpSubmit ex_peer (replicate 32 x01) (replicate 32 x03) ex_code);
   (ex_io 1030, OpAuthorizeFirstApp (replicate 32 x09) (replicate 32 x02) (replicate 32 x05));
   (ex_io 1040, OpConfirmFirstApp (replicate 32 x09) (replicate 32 x02) (replicate 32 x05) 1)].
Definition ex_records (k : nat) : records :=
  state_records (wd_state (ex_run (take k ex_good_calls) BootstrapState_default ex_fs).1).
Definition ex_table_to_vec (rs : records) : option (list byte) :=
  if bool_decide (rs = []) then Some (str_lit "[]")
  else if bool_decide (rs = ex_records 1) then Some (str_lit "1")
  else if bool_decide (rs = ex_records 2) then Some (str_lit "2")
  else if bool_decide (rs = ex_records 4) then Some (str_lit "4") else None.
Definition ex_table_from_slice (bytes : list byte) : option records :=
  if bool_decide (bytes = str_lit "[]") then Some []
  else if bool_decide (bytes = str_lit "1") then Some (ex_records 1)
  else if bool_decide (bytes = str_lit "2") then Some (ex_records 2)
  else if bool_decide (bytes = str_lit "4") then Some (ex_records 4) else None.
Lemma ex_table_roundtrip rs bytes : ex_table_to_vec rs = Some bytes → ex_table_from_slice bytes = Some rs.
Proof.
  unfold ex_table_to_vec. repeat (case_bool_decide; [intros [= <-]; subst rs; by vm_compute|]). done.
Qed.
Lemma ex_table_short rs bytes : ex_table_to_vec rs = Some bytes → len bytes ≤ 2.
Proof. unfold ex_table_to_vec. repeat (case_bool_decide; [intros [= <-]; by vm_compute|]). done. Qed.

Definition ex_table_run (calls : list (BootstrapIo * BootstrapOp)) : World ExampleValue * list (brresult BootstrapAnswer) :=
  run_ops ex_from_slice ex_get ex_as_str ex_is_object ex_table_to_vec id Some (λ _, replicate 32 x05) ex_expiry
    (λ _, 7) ex_call ex_rt calls (Build_World BootstrapState_default ex_fs 0 []).

(** A runtime is opened with nothing under way. *)
Lemma restore_records_idle rs s s' :
  restore_records s rs = Ok s' → bs_attempts s = ∅ → bs_attempts s' = ∅.
Proof.
  revert s. induction rs as [|r rs IH]; intros s H Ha; simpl in H; [by apply Ok_inj in H as <-|].
  apply bind_Ok in H as (s1 & H1 & H). apply (IH s1 H). revert H1. unfold restore_record.
  destruct (pb_kind r).
  1-2: intros (ws & _ & Hs)%bind_Ok; by apply Ok_inj in Hs as <-.
  destruct (pb_core_identity r), (pb_certificate_chain r), (pb_not_after_epoch_seconds r); try done.
  by intros Hs%Ok_inj; subst s1.
Qed.

Lemma runtime_new_idle from_slice enabled accepted cwd session path uid open_io io fs rt s :
  runtime_new from_slice enabled accepted cwd session path uid open_io io fs = Ok (rt, s) → bs_attempts s = ∅.
Proof.
  unfold runtime_new. destruct (negb enabled); [done|].
  intros (client & _ & ([] & _ & (st & Hst & H)%bind_Ok)%bind_Ok)%bind_Ok. apply Ok_inj in H as [= <- <-].
  unfold store_restore in Hst. apply bind_Ok in Hst as (file & _ & Hr). by eapply restore_records_idle.
Qed.

(** What was opened once is opened again on any file that restores. *)
Lemma runtime_new_again from_slice enabled accepted cwd session path uid open_io io fs rt s open_io' io' fs' s' :
  runtime_new from_slice enabled accepted cwd session path uid open_io io fs = Ok (rt, s) →
  validate_protected_path open_io' path uid fs' = Ok tt →
  store_restore from_slice path uid io' fs' BootstrapState_default = Ok s' →
  runtime_new from_slice enabled accepted cwd session path uid open_io' io' fs' = Ok (rt, s').
Proof.
  unfold runtime_new, store_open. destruct (negb enabled); [done|].
  intros (client & -> & ([] & _ & (st & _ & H)%bind_Ok)%bind_Ok)%bind_Ok Hv Hs. apply Ok_inj in H as [= <- _].
  cbn [mbind outcome_bind]. rewrite Hv. cbn [mbind outcome_bind]. by rewrite Hs.
Qed.

(** *** Where the approvals of later Apps come from *)
Section Approvals.
Context {Value : Type} (json_from_slice : list byte → option Value).
Context (get : Value → list byte → option Value) (as_str : Value → option (list byte)) (is_object : Value → bool).
Context (to_vec : records → option (list byte)).
Context (base64_encode : list byte → list byte) (base64_decode : list byte → option (list byte)).
Context (sha256 : list byte → list byte) (expiry : Z → option (list byte)).
Context (random : nat → Z) (call : nat → list byte → HerdrRequest → HerdrCall).
Context (rt : RuntimeConfig).

Local Abbreviation World := (World Value).
Local Abbreviation run io op :=
  (run_op json_from_slice get as_str is_object to_vec base64_encode base64_decode sha256 expiry random call rt io op).

Definition approvals_evolve (T : list byte → AppApproval → Prop) (s s' : BootstrapState) : Prop :=
  ∀ id a, bs_app_approvals s' !! id = Some a →
    (∃ a0, bs_app_approvals s !! id = Some a0 ∧ (a = a0 ∨ a = fail_approval a0)) ∨ T id a.

Lemma shrinks_approvals T s s' : shrinks s s' → approvals_evolve T s s'.
Proof. intros (_ & _ & Ha) id a H. left. exists a. split; [by eapply lookup_weaken|by left]. Qed.
Lemma approvals_evolve_same T s s' s1 :
  approvals_evolve T s s1 → bs_app_approvals s' ⊆ bs_app_approvals s1 → approvals_evolve T s s'.
Proof. intros H Hsub id a Ha. apply H. by eapply lookup_weaken. Qed.

Lemma approvals_kept T s s' : approvals_evolve (λ _ _, False) s s' → approvals_evolve T s s'.
Proof. intros H id a [Hold|[]]%H. by left. Qed.

Definition admits_approval (io : BootstrapIo) (op : BootstrapOp) (r : brresult BootstrapAnswer) (s : BootstrapState)
    (id : list byte) (a : AppApproval) : Prop :=
  match op with
  | OpStartApp core_identity digest binding nsession generation => ∃ c cid core,
      r = Ok (Challenged c) ∧ bg_id c = id ∧ bg_challenge c = aa_challenge a ∧ aa_core_identity a = core_identity
      ∧ random_code (bi_samples io) = Some (aa_code a)
      ∧ bs_core_approvals s !! cid = Some core ∧ ca_core_identity core = core_identity
  | _ => False
  end.

Lemma start_app_approvals io core_identity digest binding nsession generation (w : World) :
  wp (start_app_approval json_from_slice get as_str is_object to_vec expiry random call rt
        io core_identity digest binding nsession generation)
    (λ r w', approvals_evolve (admits_approval io (OpStartApp core_identity digest binding nsession generation)
               (Challenged <$> r) (wd_state w)) (wd_state w) (wd_state w')) w.
Proof.
  unfold start_app_approval. wp_step; [by wp_step; apply shrinks_approvals|]. do 2 wp_step; [|by apply shrinks_approvals].
  wp_step. apply wp_housekeeping_shrinks. intros r w1 Hsh. destruct r as [[]|e|]; [|by apply shrinks_approvals..].
  assert (Hold : ∀ T s, bs_app_approvals s ⊆ bs_app_approvals (wd_state w1) → approvals_evolve T (wd_state w) s).
  { intros T s Hsub. apply (approvals_evolve_same _ _ _ (wd_state w1)); [by apply shrinks_approvals|done]. }
  repeat wp_step; try (by apply Hold).
  - intros id ap Ha. cbn [wd_state] in Ha. simpl in Ha. apply lookup_insert_Some in Ha as [[<- <-]|[_ Ha]]; [right|by apply (Hold _ (wd_state w1))].
    bool_facts. match goal with H : core_approved _ _ _ _ _ = true |- _ => rename H into Hca end.
    unfold core_approved in Hca. apply map_any_true in Hca as (cid & core & Hcid & Hcore). bool_facts.
    eexists _, cid, core. simpl. split_and!; try done. by eapply lookup_weaken; [|apply Hsh].
  - apply Hold. simpl. rewrite delete_insert_eq. apply delete_subseteq.
  - apply Hold. simpl. rewrite delete_insert_eq. apply delete_subseteq.
Qed.

Lemma submit_app_approvals T io core_identity approval_id challenge code csr digest (w : World) :
  wp (submit_app_approval json_from_slice get as_str to_vec sha256 random call rt
        io core_identity approval_id challenge code csr digest)
    (λ _ w', approvals_evolve T (wd_state w) (wd_state w')) w.
Proof.
  unfold submit_app_approval, end_approval.
  repeat wp_step; try (by apply shrinks_approvals); intros id ap; simpl; intros Ha;
    repeat match goal with
    | H : delete _ _ !! _ = Some _ |- _ => apply lookup_delete_Some in H as [_ H]
    | H : <[_ := _]> _ !! _ = Some _ |- _ => apply lookup_insert_Some in H as [[<- <-]|[_ H]]
    | H : ok_or _ _ = Ok _ |- _ => apply ok_or_Ok in H
    end; left; eauto.
Qed.

(** The other calls make no approvals. *)
Local Ltac keeps_approvals :=
  first [ by apply shrinks_approvals
        | eapply approvals_evolve_same; [by eapply shrinks_approvals|simpl; done] ].
Local Ltac run_through :=
  repeat first
    [ wp_step
    | apply wp_housekeeping_shrinks; intros [[]|?|] ? ?
    | apply wp_expire_approval; [intros [[]|?|] ? ? ?|intros _] ];
  try keeps_approvals.

Lemma start_approvals T io peer_ip payload (w : World) :
  wp (start json_from_slice get as_str is_object to_vec base64_encode base64_decode expiry random call rt io peer_ip payload)
    (λ _ w', approvals_evolve T (wd_state w) (wd_state w')) w.
Proof.
  unfold start. wp_step. wp_step; [|keeps_approvals..]. destruct v as [[[[[request_id core_csr] app_digest] nsession] binding] generation].
  run_through.
Qed.
Lemma abort_approvals T io bootstrap_id (w : World) :
  wp (abort json_from_slice get as_str to_vec random call rt io bootstrap_id)
    (λ _ w', approvals_evolve T (wd_state w) (wd_state w')) w.
Proof. unfold abort. run_through. Qed.
Lemma submit_approvals T io peer_ip bootstrap_id challenge code (w : World) :
  wp (submit json_from_slice get as_str to_vec random call rt io peer_ip bootstrap_id challenge code)
    (λ _ w', approvals_evolve T (wd_state w) (wd_state w')) w.
Proof. unfold submit, end_attempt. run_through. Qed.
Lemma reconcile_approvals T io approval_id binding nsession (w : World) :
  wp (reconcile json_from_slice get as_str to_vec random call rt io approval_id binding nsession)
    (λ _ w', approvals_evolve T (wd_state w) (wd_state w')) w.
Proof. unfold reconcile. run_through. Qed.
Lemma authorize_approvals T io core_identity approval_id digest (w : World) :
  wp (authorize_first_app to_vec rt io core_identity approval_id digest)
    (λ _ w', approvals_evolve T (wd_state w) (wd_state w')) w.
Proof. unfold authorize_first_app. run_through. Qed.
Lemma confirm_approvals T io core_identity approval_id digest generation (w : World) :
  wp (confirm_first_app to_vec rt io core_identity approval_id digest generation)
    (λ _ w', approvals_evolve T (wd_state w) (wd_state w')) w.
Proof. unfold confirm_first_app. run_through. Qed.

Lemma run_op_approvals io op (w : World) :
  wp (run io op) (λ r w', approvals_evolve (admits_approval io op r (wd_state w)) (wd_state w) (wd_state w')) w.
Proof.
  assert (Hans : ∀ A (f : A → BootstrapAnswer) m,
    wp m (λ r w', approvals_evolve (admits_approval io op (f <$> r) (wd_state w)) (wd_state w) (wd_state w')) w →
    wp (answering f m) (λ r w', approvals_evolve (admits_approval io op r (wd_state w)) (wd_state w) (wd_state w')) w).
  { intros A f m H. apply wp_bind. eapply wp_conseq; [exact H|]. by intros [a|e|] w'. }
  destruct op; apply Hans.
  - eapply wp_conseq; [apply (start_approvals (λ _ _, False))|]. intros r w' H. by apply (approvals_kept _ _ _ H).
  - eapply wp_conseq; [apply (abort_approvals (λ _ _, False))|]. intros r w' H. by apply (approvals_kept _ _ _ H).
  - eapply wp_conseq; [apply (submit_approvals (λ _ _, False))|]. intros r w' H. by apply (approvals_kept _ _ _ H).
  - eapply wp_conseq; [apply (reconcile_approvals (λ _ _, False))|]. intros r w' H. by apply (approvals_kept _ _ _ H).
  - eapply wp_conseq; [apply (authorize_approvals (λ _ _, False))|]. intros r w' H. by apply (approvals_kept _ _ _ H).
  - eapply wp_conseq; [apply (confirm_approvals (λ _ _, False))|]. intros r w' H. by apply (approvals_kept _ _ _ H).
  - apply start_app_approvals.
  - eapply wp_conseq; [apply (submit_app_approvals (λ _ _, False))|]. intros r w' H. by apply (approvals_kept _ _ _ H).
Qed.
End Approvals.

(** * Properties *)

(** C18. Whatever calls are made on a bootstrap runtime that was opened, with a clock and an
    issuance within their ranges, at most one verification is under way (an attempt or an App
    approval, and the session is marked active exactly then), everything kept would be
    accepted by the state file's own validation at a restart, the core approvals with the
    attempts stay within the 256 of the file, and no peer has more than three starts counted. *)
Theorem bootstrap_invariant {Value} json_from_slice get as_str is_object to_vec from_slice
    base64_encode base64_decode sha256 expiry random call
    enabled accepted cwd session path uid open_io io fs rt s0 calls (w : World Value) :
  runtime_new from_slice enabled accepted cwd session path uid open_io io fs = Ok (rt, s0) →
  Forall (λ c, io_ok c.1) calls → wd_state w = s0 →
  runtime_inv session
    (wd_state (run_ops json_from_slice get as_str is_object to_vec base64_encode base64_decode sha256 expiry random call
                 rt calls w).1).
Proof.
  intros (Hi & Hse & Hv & _)%runtime_new_inv Hio Hw. rewrite <-Hse in *. apply run_ops_inv; [done|done|by rewrite Hw].
Qed.

Lemma ex_io_ok now : is_u64 now → io_ok (ex_io now).
Proof.
  intros Hn. split; [by intros ? [= <-]|]. intros csr i [= <-]. simpl. split_and!; [done|by vm_compute|by vm_compute|done].
Qed.
Lemma ex_calls_ok : Forall (λ c, io_ok c.1) ex_calls.
Proof. repeat apply Forall_cons_2; try apply Forall_nil_2; by apply ex_io_ok. Qed.
Definition ex_opened : relay_result (RuntimeConfig * BootstrapState) :=
  runtime_new ex_records_from_slice true true (str_lit "/tmp") ex_session ex_path 5 (sound_io 5) ex_persist_io ex_fs.
Lemma ex_opened_Ok : ex_opened = Ok (ex_rt, BootstrapState_default).
Proof. by vm_compute. Qed.

Lemma bootstrap_invariant_witness :
  runtime_inv ex_session (wd_state (ex_run ex_calls BootstrapState_default ex_fs).1)
  ∧ map_len (bs_core_approvals (wd_state (ex_run ex_calls BootstrapState_default ex_fs).1)) = 1.
Proof.
  split; [|by vm_compute].
  exact (bootstrap_invariant ex_from_slice ex_get ex_as_str ex_is_object ex_to_vec ex_records_from_slice id Some
           (λ _, replicate 32 x05) ex_expiry (λ _, 7) ex_call true true (str_lit "/tmp") ex_session ex_path 5 (sound_io 5)
           ex_persist_io ex_fs ex_rt BootstrapState_default ex_calls (Build_World BootstrapState_default ex_fs 0 [])
           ex_opened_Ok ex_calls_ok eq_refl).
Defined.

(** C19. Every Core approval a runtime has, after any calls since it was opened, either was in
    its state file or was bought by the submission, within 300 seconds and from the peer of the
    start, of the very code and challenge that a start with the approval's digests and
    generation drew, the certificate being issued on that start's request; if it is confirmed,
    the file said so or a confirmation named its identity, digest and generation.  And the
    next answer is accounted for as well: a first App is authorised only by an unconfirmed,
    unexpired approval of its Core and digest, a later App is challenged only for a confirmed
    Core, and approved only for the code of its own unexpired approval, which is then gone. *)
Theorem bootstrap_authority {Value} json_from_slice get as_str is_object to_vec from_slice
    base64_encode base64_decode sha256 expiry random call
    enabled accepted cwd session path uid open_io io fs rt s0 calls answers (w w' : World Value) :
  runtime_new from_slice enabled accepted cwd session path uid open_io io fs = Ok (rt, s0) →
  Forall (λ c, io_ok c.1) calls → wd_state w = s0 →
  run_ops json_from_slice get as_str is_object to_vec base64_encode base64_decode sha256 expiry random call rt calls w
    = (w', answers) →
  (∀ id a, bs_core_approvals (wd_state w') !! id = Some a →
     (bought base64_encode base64_decode (zip calls answers) id a ∧ confirmed_by (zip calls answers) id a)
     ∨ ∃ a0, bs_core_approvals s0 !! id = Some a0
         ∧ (a = a0 ∨ a = confirm_approval a0 ∧ confirmed_by (zip calls answers) id a))
  ∧ ∀ io1 op w1 answer,
      run_op json_from_slice get as_str is_object to_vec base64_encode base64_decode sha256 expiry random call rt io1 op w'
        = (w1, Ok answer) →
      answer_accounted sha256 io1 op (wd_state w') (wd_state w1) answer.
Proof.
  intros Hnew Hio Hw Hrun. pose proof (runtime_new_idle _ _ _ _ _ _ _ _ _ _ _ _ Hnew) as Hidle.
  destruct (runtime_new_inv _ _ _ _ _ _ _ _ _ _ _ _ Hnew) as (Hi & Hse & Hv & _). rewrite <-Hse, <-Hw in *. split.
  - apply (run_ops_accounted json_from_slice get as_str is_object to_vec base64_encode base64_decode sha256 expiry
      random call rt (wd_state w) [] calls w w' answers); try done. split; [|eauto].
    intros id a. by rewrite Hidle, lookup_empty.
  - intros io1 op w1 answer. eapply run_op_answer.
    pose proof (run_ops_inv json_from_slice get as_str is_object to_vec base64_encode base64_decode sha256 expiry random
      call rt calls w Hv Hio Hi) as H. rewrite Hrun in H. exact H.
Qed.

Lemma bootstrap_authority_witness :
  let run := ex_run (take 4 ex_calls) BootstrapState_default ex_fs in
  (∃ a, bs_core_approvals (wd_state run.1) !! replicate 32 x02 = Some a
     ∧ bought id Some (zip (take 4 ex_calls) run.2) (replicate 32 x02) a)
  ∧ answer_accounted (λ _, replicate 32 x05) (ex_io 1030)
      (OpAuthorizeFirstApp (replicate 32 x09) (replicate 32 x02) (replicate 32 x05)) (wd_state run.1)
      (wd_state run.1) (Authorized 1).
Proof.
  intros run.
  destruct (bootstrap_authority ex_from_slice ex_get ex_as_str ex_is_object ex_to_vec ex_records_from_slice id Some
           (λ _, replicate 32 x05) ex_expiry (λ _, 7) ex_call true true (str_lit "/tmp") ex_session ex_path 5 (sound_io 5)
           ex_persist_io ex_fs ex_rt BootstrapState_default (take 4 ex_calls) run.2
           (Build_World BootstrapState_default ex_fs 0 []) run.1) as [Hcore Hans].
  - exact ex_opened_Ok.
  - apply Forall_take, ex_calls_ok.
  - done.
  - apply surjective_pairing.
  - split.
    + assert (Ha : ∃ a, bs_core_approvals (wd_state run.1) !! replicate 32 x02 = Some a) by (eexists; by vm_compute).
      destruct Ha as [a Ha]. exists a. split; [done|]. destruct (Hcore _ _ Ha) as [[Hb _]|(a0 & H0 & _)]; [done|].
      discriminate H0.
    + apply (Hans (ex_io 1030) (OpAuthorizeFirstApp (replicate 32 x09) (replicate 32 x02) (replicate 32 x05)) run.1).
      by vm_compute.
Defined.

(** C20. Restarts.  While every call is answered [Ok] and the encoding of the state is within
    the 64 KiB that a private file is read with, the state file keeps up with the state:
    whenever a runtime opened on a file that holds its state has answered any calls, a later
    opening, whose system calls succeed, begins with the same core approvals, nothing under
    way, and the workspaces of what was under way noted to be closed.  The size is not
    checked when the file is written: a longer state is answered [Ok] too, and no later
    opening reads it ([oversized_state_unreadable]).  Further: every write is by the expected
    user and its look-up of the file works, and the JSON reader reads back what the JSON
    writer writes. *)
Theorem bootstrap_restart {Value} json_from_slice get as_str is_object to_vec from_slice
    base64_encode base64_decode sha256 expiry random call
    enabled accepted cwd session path uid open_io io fs rt s0 calls answers (w' : World Value) :
  (∀ rs bytes, to_vec rs = Some bytes → from_slice bytes = Some rs) → parsed path →
  runtime_new from_slice enabled accepted cwd session path uid open_io io fs = Ok (rt, s0) →
  file_holds from_slice path uid fs s0 →
  Forall (λ c, io_ok c.1 ∧ writes_ok rt c.1) calls →
  run_ops json_from_slice get as_str is_object to_vec base64_encode base64_decode sha256 expiry random call rt calls
    (Build_World s0 fs 0 []) = (w', answers) →
  Forall (λ a, is_ok a = true) answers → fits to_vec (wd_state w') →
  ∀ open_io' io', reads_faithfully open_io' → reads_faithfully (pi_material io') → pi_exists_fails io' = false →
    runtime_new from_slice enabled accepted cwd session path uid open_io' io' (wd_fs w') = Ok (rt, restarted (wd_state w')).
Proof.
  intros Hj Hp Hnew Hf Hio Hrun Hok Hfit open_io' io' Ho Hio' He.
  destruct (runtime_new_inv _ _ _ _ _ _ _ _ _ _ _ _ Hnew) as (Hi & Hse & Hv & Hpath & Huid & Hval).
  apply Forall_and in Hio as [Hio Hw]. subst path uid session.
  assert (Hi' : runtime_inv (hw_normalized_session (rc_client rt)) (wd_state w')).
  { pose proof (run_ops_inv json_from_slice get as_str is_object to_vec base64_encode base64_decode sha256 expiry random
      call rt calls (Build_World s0 fs 0 []) Hv Hio Hi) as H. by rewrite Hrun in H. }
  destruct (runtime_inv_records _ _ Hi') as [Hvalid Hkeyed].
  destruct (run_ops_stored json_from_slice get as_str is_object to_vec from_slice base64_encode base64_decode sha256
    expiry random call rt calls (Build_World s0 fs 0 []) w' answers) as [Hc Hs]; try done.
  { intros io1 (Hl & _). by eapply validate_protected_path_io. }
  { intros _ _. exact Hf. }
  eapply runtime_new_again; [exact Hnew|by apply Hc|]. apply store_restore_holds; try done. by apply Hs.
Qed.

Lemma bootstrap_restart_witness :
  let run := ex_table_run ex_good_calls in
  runtime_new ex_table_from_slice true true (str_lit "/tmp") ex_session ex_path 5 (sound_io 5) ex_persist_io (wd_fs run.1)
  = Ok (ex_rt, restarted (wd_state run.1))
  ∧ map_len (bs_core_approvals (restarted (wd_state run.1))) = 1.
Proof.
  intros run. split; [|by vm_compute].
  apply (bootstrap_restart ex_from_slice ex_get ex_as_str ex_is_object ex_table_to_vec ex_table_from_slice id Some
           (λ _, replicate 32 x05) ex_expiry (λ _, 7) ex_call true true (str_lit "/tmp") ex_session ex_path 5 (sound_io 5)
           ex_persist_io ex_fs ex_rt BootstrapState_default ex_good_calls run.2 run.1).
  - exact ex_table_roundtrip.
  - apply components_parsed.
  - by vm_compute.
  - intros io _ He. unfold store_load. rewrite He. rewrite bool_decide_eq_true_2 by (by vm_compute). by vm_compute.
  - repeat apply Forall_cons_2; try apply Forall_nil_2; (split; [by apply ex_io_ok|by repeat split]).
  - apply surjective_pairing.
  - rewrite Forall_forall. intros a Ha. apply list_elem_of_In in Ha. revert a Ha. apply List.forallb_forall. by vm_compute.
  - intros bytes Hb%ex_table_short. unfold MAX_PRIVATE_MATERIAL_BYTES. lia.
  - by repeat split.
  - by repeat split.
  - done.
Defined.

(** C21. Every call on a bootstrap runtime returns, whatever Herdr, the file system and the
    certificate issuance do, and whatever was called before: the loops over the random source
    end as soon as it gives 259 distinct draws and a sample that is taken, since never more
    than 258 identifiers are zero or in use. *)
Theorem bootstrap_calls_return {Value} json_from_slice get as_str is_object to_vec from_slice
    base64_encode base64_decode sha256 expiry random call
    enabled accepted cwd session path uid open_io io fs rt s0 calls io1 op (w : World Value) :
  runtime_new from_slice enabled accepted cwd session path uid open_io io fs = Ok (rt, s0) →
  Forall (λ c, io_ok c.1) calls → wd_state w = s0 → draws_enough io1 →
  returns (run_op json_from_slice get as_str is_object to_vec base64_encode base64_decode sha256 expiry random call rt io1 op
             (run_ops json_from_slice get as_str is_object to_vec base64_encode base64_decode sha256 expiry random call
                rt calls w).1).2.
Proof.
  intros (Hi & Hse & Hv & _)%runtime_new_inv Hio Hw Hd. rewrite <-Hse, <-Hw in *. apply run_op_returns; [done|].
  by apply run_ops_inv.
Qed.

(** 259 draws, a number each. *)
Definition ex_draws : list (list byte) :=
  (λ n : nat, let z := Z.of_nat n in [byte_of_Z (z / 256); byte_of_Z (z mod 256)] ++ replicate 30 x01) <$> seq 0 259.
Definition ex_drawn_io (now : Z) : BootstrapIo :=
  {| bi_now := Some now; bi_bootstrap_ids := ex_draws; bi_approval_ids := ex_draws;
     bi_challenges := ex_draws; bi_samples := [0]; bi_issue := ex_issue; bi_store := λ _, ex_persist_io |}.
Lemma ex_draws_enough now : draws_enough (ex_drawn_io now).
Proof.
  split; [|by vm_compute]. intros l Hl. assert (l = ex_draws) as -> by (simpl in Hl; set_solver).
  split; [|by vm_compute]. by apply (bool_decide_eq_true (NoDup ex_draws)); vm_compute.
Qed.

Lemma bootstrap_calls_return_witness :
  returns (run_op ex_from_slice ex_get ex_as_str ex_is_object ex_to_vec id Some (λ _, replicate 32 x05) ex_expiry
             (λ _, 7) ex_call ex_rt (ex_drawn_io 2000) (OpStart ex_peer ex_payload)
             (ex_run ex_calls BootstrapState_default ex_fs).1).2.
Proof.
  exact (bootstrap_calls_return ex_from_slice ex_get ex_as_str ex_is_object ex_to_vec ex_records_from_slice id Some
           (λ _, replicate 32 x05) ex_expiry (λ _, 7) ex_call true true (str_lit "/tmp") ex_session ex_path 5 (sound_io 5)
           ex_persist_io ex_fs ex_rt BootstrapState_default ex_calls (ex_drawn_io 2000) (OpStart ex_peer ex_payload)
           (Build_World BootstrapState_default ex_fs 0 []) ex_opened_Ok ex_calls_ok eq_refl (ex_draws_enough 2000)).
Defined.
