(* ===== verification/UpdateArchive.v ===== *)
(** * Release archives (src/src/updater.rs, and the update section of src/src/config.rs)

    The update policy, release versions, the checksum manifest and the validation of the
    archive.  Text is handled as its scalar values.  gzip and tar (third-party crates) and
    SHA-256 are parameters. *)
From S2P Require Export Material FieldCodec.

(** ** The policy *)
Definition QRM_MAX_UPDATE_ARCHIVE_BYTES : Z := 64 * 1024 * 1024.
Definition QRM_MAX_UPDATE_EXTRACTED_BYTES : Z := 128 * 1024 * 1024.
Definition QRM_MAX_UPDATE_ENTRIES : Z := 32.
Definition QRM_MAX_UPDATE_COMPRESSION_RATIO : Z := 100.
Definition STABLE_REPOSITORY : list byte := str_lit "mithyer/herdr-dog-relay".
Definition STABLE_CHANNEL : list byte := str_lit "stable-latest".
Definition EXPECTED_BINARY_NAME : list byte := str_lit "herdogrelay".
Definition MAX_VERSION_OUTPUT_BYTES : Z := 128.

Record UpdateConfig : Type := {
  uc_enabled : bool;
  uc_repository : list byte;
  uc_channel : list byte;
  uc_staging_directory : path;
  uc_max_archive_bytes : Z;
  uc_max_extracted_bytes : Z;
  uc_max_entries : Z;
  uc_max_compression_ratio : Z;
}.

Definition UpdateConfig_default : UpdateConfig :=
  {| uc_enabled := false; uc_repository := STABLE_REPOSITORY; uc_channel := STABLE_CHANNEL;
     uc_staging_directory := []; uc_max_archive_bytes := QRM_MAX_UPDATE_ARCHIVE_BYTES;
     uc_max_extracted_bytes := QRM_MAX_UPDATE_EXTRACTED_BYTES; uc_max_entries := QRM_MAX_UPDATE_ENTRIES;
     uc_max_compression_ratio := QRM_MAX_UPDATE_COMPRESSION_RATIO |}.

Definition UpdateConfig_validate (c : UpdateConfig) : relay_result unit :=
  if negb (uc_enabled c) then Ok tt else
  if bool_decide (uc_repository c ≠ STABLE_REPOSITORY) || bool_decide (uc_channel c ≠ STABLE_CHANNEL)
  then Err (InvalidConfiguration "update.repository" "only the fixed stable-latest source is supported") else
  _ ← validate_absolute_path "update.staging_directory" (uc_staging_directory c);
  if (uc_max_archive_bytes c =? 0) || (QRM_MAX_UPDATE_ARCHIVE_BYTES <? uc_max_archive_bytes c)
     || (uc_max_extracted_bytes c =? 0) || (QRM_MAX_UPDATE_EXTRACTED_BYTES <? uc_max_extracted_bytes c)
     || (uc_max_entries c =? 0) || (QRM_MAX_UPDATE_ENTRIES <? uc_max_entries c)
     || (uc_max_compression_ratio c =? 0) || (QRM_MAX_UPDATE_COMPRESSION_RATIO <? uc_max_compression_ratio c)
  then Err (InvalidConfiguration "update.max_archive_bytes" "updater limits exceed the fixed QRM bounds")
  else Ok tt.

(** ** Text *)
Definition char_lit (s : string) : list Z := byte_val <$> str_lit s.

Fixpoint split_on (sep : Z → bool) (cs : list Z) : list (list Z) :=
  match cs with
  | [] => [[]]
  | c :: cs' =>
      if sep c then [] :: split_on sep cs' else
      match split_on sep cs' with
      | part :: rest => (c :: part) :: rest
      | [] => [[c]]
      end
  end.

(** [str::split_whitespace] and [str::lines]. *)
Definition split_whitespace (cs : list Z) : list (list Z) := filter (λ part, part ≠ []) (split_on is_whitespace cs).
Definition strip_last (c : Z) (cs : list Z) : list Z :=
  if bool_decide (last cs = Some c) then take (length cs - 1) cs else cs.
Definition str_lines (cs : list Z) : list (list Z) :=
  let parts := split_on (λ c, c =? 10) cs in
  strip_last 13 <$> (if bool_decide (last parts = Some []) then take (length parts - 1) parts else parts).

Fixpoint trim_start_matches (c : Z) (cs : list Z) : list Z :=
  match cs with
  | x :: cs' => if x =? c then trim_start_matches c cs' else cs
  | [] => []
  end.

Fixpoint strip_prefix (prefix cs : list Z) : option (list Z) :=
  match prefix, cs with
  | [], _ => Some cs
  | p :: prefix', c :: cs' => if p =? c then strip_prefix prefix' cs' else None
  | _ :: _, [] => None
  end.

Definition to_ascii_lowercase (c : Z) : Z := if (65 <=? c) && (c <=? 90) then c + 32 else c.
Definition is_hex_char (c : Z) : bool :=
  ((48 <=? c) && (c <=? 57)) || ((97 <=? c) && (c <=? 102)) || ((65 <=? c) && (c <=? 70)).

(** ** Versions *)
Record ReleaseVersion : Type := {
  rv_major : Z;
  rv_minor : Z;
  rv_patch : Z;
}.

(** The derived order. *)
Definition version_lt (a b : ReleaseVersion) : bool :=
  (rv_major a <? rv_major b)
  || ((rv_major a =? rv_major b)
      && ((rv_minor a <? rv_minor b) || ((rv_minor a =? rv_minor b) && (rv_patch a <? rv_patch b)))).

Definition ReleaseVersion_parse (value : list Z) : option ReleaseVersion :=
  match split_on (λ c, c =? 46) value with
  | [major; minor; patch] =>
      major ← parse_unsigned u64_max major;
      minor ← parse_unsigned u64_max minor;
      patch ← parse_unsigned u64_max patch;
      Some {| rv_major := major; rv_minor := minor; rv_patch := patch |}
  | _ => None
  end.

Definition parse_version_output (output : list byte) : option ReleaseVersion :=
  if MAX_VERSION_OUTPUT_BYTES <=? len output then None else
  text ← utf8_chars output;
  version ← strip_prefix (char_lit "herdogrelay ") (trim text);
  ReleaseVersion_parse version.

(** [env!("CARGO_PKG_VERSION")]. *)
Definition CARGO_PKG_VERSION : list Z := char_lit "0.1.1".

Record FixedSourceUpdater : Type := {
  fu_config : UpdateConfig;
  fu_current_version : ReleaseVersion;
}.

Definition FixedSourceUpdater_new (config : UpdateConfig) : relay_result FixedSourceUpdater :=
  _ ← UpdateConfig_validate config;
  if negb (uc_enabled config)
  then Err (Update "initializing updater" "stable-latest updater is disabled") else
  current_version ← ok_or (ReleaseVersion_parse CARGO_PKG_VERSION)
                      (Update "initializing updater" "current Relay version is invalid");
  Ok {| fu_config := config; fu_current_version := current_version |}.

Definition validate_staged_version (u : FixedSourceUpdater) (output : list byte) : relay_result unit :=
  staged_version ← ok_or (parse_version_output output)
                     (Update "checking staged Relay version" "staged executable version output is invalid");
  if negb (version_lt (fu_current_version u) staged_version)
  then Err (Update "checking staged Relay version" "staged executable version is not newer")
  else Ok tt.

(** ** Names and sources *)
Definition archive_name (os arch : list byte) : relay_result (list byte) :=
  if negb (bool_decide (os = str_lit "macos") || bool_decide (os = str_lit "linux"))
  then Err (Update "selecting release asset" "unsupported release operating system") else
  if (bool_decide (os = str_lit "macos")
      && (bool_decide (arch = str_lit "arm64") || bool_decide (arch = str_lit "x86_64")))
     || (bool_decide (os = str_lit "linux") && bool_decide (arch = str_lit "x86_64"))
  then Ok (EXPECTED_BINARY_NAME ++ str_lit "-" ++ os ++ str_lit "-" ++ arch ++ str_lit ".tar.gz")
  else Err (Update "selecting release asset" "unsupported release architecture").

Definition archive_url (u : FixedSourceUpdater) (os arch : list byte) : relay_result (list byte) :=
  archive ← archive_name os arch;
  Ok (str_lit "https://github.com/" ++ uc_repository (fu_config u) ++ str_lit "/releases/latest/download/" ++ archive).
Definition checksums_url (u : FixedSourceUpdater) : list byte :=
  str_lit "https://github.com/" ++ uc_repository (fu_config u) ++ str_lit "/releases/latest/download/checksums.txt".

(** ** The checksum manifest *)

(** The closure of [verify_checksum]'s [find_map], and the search. *)
Definition manifest_line (archive_name : list Z) (line : list Z) : option (list Z) :=
  match split_whitespace line with
  | digest :: name :: _ => if bool_decide (trim_start_matches 42 name = archive_name) then Some digest else None
  | _ => None
  end.
Fixpoint find_map {A B} (f : A → option B) (l : list A) : option B :=
  match l with
  | [] => None
  | x :: l' => match f x with Some y => Some y | None => find_map f l' end
  end.

Definition expected_checksum (archive_name manifest : list Z) : relay_result (list Z) :=
  expected ← ok_or (find_map (manifest_line archive_name) (str_lines manifest))
               (Update "checking archive checksum" "archive is missing from checksum manifest");
  let expected := to_ascii_lowercase <$> expected in
  if negb (len expected =? 64) || negb (forallb is_hex_char expected)
  then Err (Update "checking archive checksum" "checksum manifest entry is invalid")
  else Ok expected.

(** ** Archive entries *)

(** What the tar reader shows of an entry: its path, whether it is a regular file, the size
    its header gives, and the data [io::copy] delivers. *)
Record ArchiveEntry : Type := {
  ae_path : option (list byte);
  ae_regular : bool;
  ae_size : option Z;
  ae_data : option (list byte);
}.

Definition binary_path : path := [Normal EXPECTED_BINARY_NAME].

Definition validate_archive_path (p : path) : relay_result unit :=
  match p with
  | [Normal name] =>
      if bool_decide (name = EXPECTED_BINARY_NAME) then Ok tt
      else Err (Update "validating archive path" "archive path is absolute, nested, or traversing")
  | _ => Err (Update "validating archive path" "archive path is absolute, nested, or traversing")
  end.

Definition u64_saturating_mul (a b : Z) : Z := Z.min u64_max (a * b).

Abbreviation invalid_archive reason := (Update "validating update archive" reason).

(** One turn of the loop of [validate_archive], and the loop over its entries. *)
Definition validate_entry (c : UpdateConfig) (compressed_size entries extracted_bytes : Z) (entry : option ArchiveEntry)
  : relay_result (Z * Z) :=
  entry ← ok_or entry (invalid_archive "tar entry is invalid");
  entries ← ok_or (u64_checked_add entries 1) (invalid_archive "tar entry count overflow");
  if uc_max_entries c <? entries then Err (invalid_archive "archive has too many entries") else
  entry_path ← ok_or (ae_path entry) (invalid_archive "tar path is invalid");
  _ ← validate_archive_path (components entry_path);
  if negb (ae_regular entry) then Err (invalid_archive "archive contains a non-regular entry") else
  if bool_decide (components entry_path ≠ binary_path)
  then Err (invalid_archive "archive contains an unexpected file") else
  entry_size ← ok_or (ae_size entry) (invalid_archive "tar entry size is invalid");
  extracted_bytes ← ok_or (u64_checked_add extracted_bytes entry_size) (invalid_archive "extracted size overflow");
  if (uc_max_extracted_bytes c <? extracted_bytes)
     || (u64_saturating_mul compressed_size (uc_max_compression_ratio c) <? extracted_bytes)
  then Err (invalid_archive "archive expansion exceeds the configured bound")
  else Ok (entries, extracted_bytes).

Fixpoint validate_entries (c : UpdateConfig) (compressed_size entries extracted_bytes : Z)
    (todo : list (option ArchiveEntry)) : relay_result (Z * Z) :=
  match todo with
  | [] => Ok (entries, extracted_bytes)
  | entry :: todo =>
      '(entries, extracted_bytes) ← validate_entry c compressed_size entries extracted_bytes entry;
      validate_entries c compressed_size entries extracted_bytes todo
  end.

Definition validate_index (c : UpdateConfig) (compressed_size : Z) (index : option (list (option ArchiveEntry)))
  : relay_result unit :=
  todo ← ok_or index (invalid_archive "tar index is invalid");
  '(entries, extracted_bytes) ← validate_entries c compressed_size 0 0 todo;
  if negb (entries =? 1) || (extracted_bytes =? 0)
  then Err (invalid_archive "archive does not contain exactly one executable")
  else Ok tt.

(** ** The executable's header *)
Inductive Platform : Type := MacOs | Linux | OtherPlatform.

Definition native_header (platform : Platform) (header : list byte) : bool :=
  match platform with
  | MacOs => bool_decide (header ∈
      [[xfe; xed; xfa; xce]; [xfe; xed; xfa; xcf]; [xce; xfa; xed; xfe]; [xcf; xfa; xed; xfe];
       [xca; xfe; xba; xbe]; [xca; xfe; xba; xbf]; [xbe; xba; xfe; xca]; [xbf; xba; xfe; xca]])
  | Linux => bool_decide (header = [x7f; x45; x4c; x46])
  | OtherPlatform => false
  end.

(** * Facts *)
Example version_examples :
  ReleaseVersion_parse (char_lit "1.2.3") = Some {| rv_major := 1; rv_minor := 2; rv_patch := 3 |}
  ∧ ReleaseVersion_parse (char_lit "1.2") = None ∧ ReleaseVersion_parse (char_lit "1.2.3.4") = None
  ∧ parse_version_output (str_lit "herdogrelay 0.2.0" ++ [x0a]) = Some {| rv_major := 0; rv_minor := 2; rv_patch := 0 |}.
Proof. split_and!; by vm_compute. Qed.

Lemma version_lt_irrefl v : version_lt v v = false.
Proof. unfold version_lt. by rewrite !Z.ltb_irrefl, !Z.eqb_refl. Qed.

Lemma version_lt_trans a b c : version_lt a b = true → version_lt b c = true → version_lt a c = true.
Proof.
  unfold version_lt. rewrite !orb_true_iff, !andb_true_iff, !orb_true_iff, !andb_true_iff, !Z.ltb_lt, !Z.eqb_eq. lia.
Qed.

Lemma version_lt_total a b : version_lt a b = true ∨ a = b ∨ version_lt b a = true.
Proof.
  unfold version_lt. rewrite !orb_true_iff, !andb_true_iff, !orb_true_iff, !andb_true_iff, !Z.ltb_lt, !Z.eqb_eq.
  destruct a as [a1 a2 a3], b as [b1 b2 b3]; simpl.
  destruct (Z.lt_trichotomy a1 b1) as [?|[->|?]]; [lia| |lia].
  destruct (Z.lt_trichotomy a2 b2) as [?|[->|?]]; [lia| |lia].
  destruct (Z.lt_trichotomy a3 b3) as [?|[->|?]]; [lia| |lia]. right; by left.
Qed.

Lemma validate_archive_path_Ok p : validate_archive_path p = Ok tt ↔ p = binary_path.
Proof.
  unfold validate_archive_path, binary_path. split; [|by intros ->].
  destruct p as [|[| | |name] [|]]; try done. case_bool_decide; [by subst|done].
Qed.

Lemma validate_entry_Ok c compressed n total entry n' total' :
  validate_entry c compressed n total entry = Ok (n', total') →
  ∃ e p size, entry = Some e ∧ ae_path e = Some p ∧ components p = binary_path ∧ ae_regular e = true
    ∧ ae_size e = Some size ∧ n' = n + 1 ∧ n' ≤ uc_max_entries c ∧ total' = total + size
    ∧ total' ≤ uc_max_extracted_bytes c ∧ total' ≤ compressed * uc_max_compression_ratio c.
Proof.
  unfold validate_entry. intros (e & ->%ok_or_Ok & H)%bind_Ok.
  apply bind_Ok in H as (n1 & Hn%ok_or_Ok & H). apply u64_checked_add_Some in Hn as [-> _].
  destruct (_ <? _) eqn:Hmax; [done|]. apply bind_Ok in H as (p & Hp%ok_or_Ok & H).
  apply bind_Ok in H as ([] & Hpath%validate_archive_path_Ok & H). destruct (ae_regular e) eqn:Hr; [|done]. simpl in H.
  case_bool_decide; [done|]. apply bind_Ok in H as (size & Hs%ok_or_Ok & H).
  apply bind_Ok in H as (t1 & Ht%ok_or_Ok & H). apply u64_checked_add_Some in Ht as [-> _].
  destruct (_ || _) eqn:Hb; [done|]. apply Ok_inj in H as [= <- <-]. bool_facts.
  exists e, p, size. unfold u64_saturating_mul in *. split_and!; try done; lia.
Qed.

Lemma validate_entries_count c compressed n total todo n' total' :
  validate_entries c compressed n total todo = Ok (n', total') → n' = n + len todo.
Proof.
  revert n total. induction todo as [|e todo IH]; intros n total H; simpl in H.
  - apply Ok_inj in H as [= -> ->]. unfold len. simpl. lia.
  - apply bind_Ok in H as ([n1 t1] & Hv & H). apply validate_entry_Ok in Hv as (? & ? & ? & _ & _ & _ & _ & _ & -> & _).
    rewrite (IH _ _ H). unfold len. simpl. lia.
Qed.

(** A valid index is one regular entry, the executable, of a size within the bounds. *)
Lemma validate_index_Ok c compressed index :
  validate_index c compressed index = Ok tt →
  ∃ e p size, index = Some [Some e] ∧ ae_path e = Some p ∧ components p = binary_path ∧ ae_regular e = true
    ∧ ae_size e = Some size ∧ size ≠ 0 ∧ size ≤ uc_max_extracted_bytes c
    ∧ size ≤ compressed * uc_max_compression_ratio c.
Proof.
  unfold validate_index. intros (todo & ->%ok_or_Ok & ([n t] & Hv & H)%bind_Ok)%bind_Ok.
  destruct (_ || _) eqn:Hc; [done|]. bool_facts. pose proof (validate_entries_count _ _ _ _ _ _ _ Hv) as Hn.
  destruct todo as [|entry [|entry' todo]]; unfold len in Hn; simpl in Hn; try lia.
  simpl in Hv. apply bind_Ok in Hv as ([n1 t1] & Hv1 & Hv2). apply Ok_inj in Hv2 as [= -> ->].
  apply validate_entry_Ok in Hv1 as (e & p & size & -> & Hp & Hc & Hr & Hs & _ & _ & -> & Hb1 & Hb2).
  exists e, p, size. split_and!; try done; lia.
Qed.

(** No check panics. *)
Lemma validate_archive_path_returns p : returns (validate_archive_path p).
Proof. unfold validate_archive_path. repeat case_match; done. Qed.

Lemma validate_entries_returns c compressed n total todo : returns (validate_entries c compressed n total todo).
Proof.
  revert n total. induction todo as [|entry todo IH]; intros n total; simpl; [done|].
  apply bind_returns; [|intros [n' t'] _; apply IH]. unfold validate_entry.
  no_panic; auto using ok_or_returns, validate_archive_path_returns.
Qed.

Lemma validate_index_returns c compressed index : returns (validate_index c compressed index).
Proof.
  unfold validate_index. apply bind_returns; [apply ok_or_returns|]. intros todo _.
  apply bind_returns; [apply validate_entries_returns|]. intros [n t] _. by destruct (_ || _).
Qed.

Lemma expected_checksum_returns name manifest : returns (expected_checksum name manifest).
Proof. unfold expected_checksum. no_panic; apply ok_or_returns. Qed.

Lemma UpdateConfig_validate_returns c : returns (UpdateConfig_validate c).
Proof. unfold UpdateConfig_validate, validate_absolute_path. no_panic. Qed.
Lemma FixedSourceUpdater_new_returns c : returns (FixedSourceUpdater_new c).
Proof. unfold FixedSourceUpdater_new. no_panic; auto using UpdateConfig_validate_returns, ok_or_returns. Qed.
Lemma validate_staged_version_returns u output : returns (validate_staged_version u output).
Proof. unfold validate_staged_version. no_panic; apply ok_or_returns. Qed.
Lemma archive_name_returns os arch : returns (archive_name os arch).
Proof. unfold archive_name. no_panic. Qed.
