(* ===== verification/Config.v ===== *)
(** * Configuration (src/src/config.rs)

    The two configuration files: [IrohRuntimeConfig] of the iroh relay, with its translation
    into an endpoint configuration, and [RelayConfig] of the QRM server and the local control
    commands (its [update] section is in UpdateArchive.v).  A file is what the TOML crate makes
    of it: a table in which a field may be absent; the defaults are those of the serde
    attributes.  Parsing and printing socket addresses is a pair of parameters. *)
From S2P Require Import SessionRegistry IrohRelay Herdr.
From S2P Require Export Socket UpdateArchive.

(** ** The iroh relay *)
Inductive IrohRelayProvider : Type := OfficialPublic | OfficialManaged | SelfHosted.

#[export] Instance IrohRelayProvider_eq_dec : EqDecision IrohRelayProvider.
Proof. solve_decision. Defined.

Record IrohPairingConfig : Type := {
  ip_socket_path : path;
  ip_expected_uid : Z;
  ip_session : list byte;
  ip_verification_cwd : list byte;
}.

Record IrohRuntimeConfig : Type := {
  ih_bind_address : list byte;
  ih_provider : IrohRelayProvider;
  ih_relay_urls : list (list byte);
  ih_api_secret_ref : option (list byte);
  ih_access_token_ref : option (list byte);
  ih_max_connections : Z;
  ih_max_sessions_per_connection : Z;
  ih_control_timeout_secs : Z;
  ih_relay_generation : Z;
  ih_development_recovery_directory : option path;
  ih_pairing : option IrohPairingConfig;
}.

(** The [iroh] table of the file. *)
Record IrohRuntimeFile : Type := {
  if_bind_address : option (list byte);
  if_provider : option IrohRelayProvider;
  if_relay_urls : option (list (list byte));
  if_api_secret_ref : option (list byte);
  if_access_token_ref : option (list byte);
  if_max_connections : option Z;
  if_max_sessions_per_connection : option Z;
  if_control_timeout_secs : option Z;
  if_relay_generation : option Z;
  if_development_recovery_directory : option path;
  if_pairing : option IrohPairingConfig;
}.

Definition default_iroh_bind_address : list byte := str_lit "127.0.0.1:18743".
Definition default_iroh_provider : IrohRelayProvider := OfficialPublic.
Definition default_iroh_max_connections : Z := 64.
Definition default_iroh_max_sessions : Z := 64.
Definition default_iroh_control_timeout_secs : Z := 5.
Definition default_iroh_generation : Z := 1.

Definition IrohRuntimeFile_iroh (f : IrohRuntimeFile) : IrohRuntimeConfig :=
  {| ih_bind_address := default default_iroh_bind_address (if_bind_address f);
     ih_provider := default default_iroh_provider (if_provider f);
     ih_relay_urls := default [] (if_relay_urls f);
     ih_api_secret_ref := if_api_secret_ref f;
     ih_access_token_ref := if_access_token_ref f;
     ih_max_connections := default default_iroh_max_connections (if_max_connections f);
     ih_max_sessions_per_connection := default default_iroh_max_sessions (if_max_sessions_per_connection f);
     ih_control_timeout_secs := default default_iroh_control_timeout_secs (if_control_timeout_secs f);
     ih_relay_generation := default default_iroh_generation (if_relay_generation f);
     ih_development_recovery_directory := if_development_recovery_directory f;
     ih_pairing := if_pairing f |}.

(** [str::is_ascii], and the test the references and the URLs share. *)
Definition is_ascii (s : list byte) : bool := forallb (λ b, byte_val b <? 128) s.
Definition unbounded_reference (max : Z) (s : list byte) : bool :=
  bool_decide (s = []) || (max <? len s) || negb (is_ascii s) || any_char is_whitespace s.
Definition session_byte (b : byte) : bool := is_ascii_alphanumeric b || bool_decide (b ∈ [x2e; x5f; x2d]).

Definition refuse {A} (field reason : string) : relay_result A := Err (InvalidConfiguration field reason).

(** The last test of [validate]. *)
Definition validate_pairing (p : IrohPairingConfig) : relay_result unit :=
  if negb (is_absolute (ip_socket_path p)) then refuse "iroh.pairing.socket_path" "must be absolute" else
  if negb (is_absolute (components (ip_verification_cwd p))) then refuse "iroh.pairing.verification_cwd" "must be absolute" else
  if bool_decide (ip_session p = []) || (64 <? len (ip_session p)) || bool_decide (ip_session p = str_lit ".")
     || bool_decide (ip_session p = str_lit "..")
  then refuse "iroh.pairing.session" "must be a bounded normalized session" else
  if negb (forallb session_byte (ip_session p))
  then refuse "iroh.pairing.session" "contains unsupported characters" else Ok tt.

(** [match self.provider]. *)
Definition validate_provider (c : IrohRuntimeConfig) : relay_result unit :=
  match ih_provider c with
  | OfficialPublic =>
      if bool_decide (ih_relay_urls c ≠ []) || bool_decide (is_Some (ih_api_secret_ref c))
         || bool_decide (is_Some (ih_access_token_ref c))
      then refuse "iroh.provider" "official_public does not accept URL or credential fields" else Ok tt
  | OfficialManaged =>
      if bool_decide (ih_relay_urls c = []) || bool_decide (ih_api_secret_ref c = None)
         || bool_decide (is_Some (ih_access_token_ref c))
      then refuse "iroh.provider" "official_managed requires relay URLs and api_secret_ref only" else Ok tt
  | SelfHosted =>
      if bool_decide (ih_relay_urls c = []) || bool_decide (is_Some (ih_api_secret_ref c))
      then refuse "iroh.provider" "self_hosted requires relay URLs and forbids api_secret_ref" else Ok tt
  end.

(** What [SocketAddr] and [IpAddr] are, with [str::parse] and [to_string], and what the iroh
    crate reads in a relay URL: its text, scheme and host. *)
Section Addresses.
Context {IpAddr : Type}.
Context (parse_socket_addr : list byte → option (IpAddr * Z)) (socket_addr_to_string : IpAddr * Z → list byte).
Context (parse_ip : list byte → option IpAddr).
Context (relay_url_from_str : list byte → option (list byte * list byte * option (list byte))).

Definition IrohRuntimeConfig_validate (c : IrohRuntimeConfig) : relay_result unit :=
  if bool_decide (¬ is_Some (parse_socket_addr (ih_bind_address c)))
  then refuse "iroh.bind_address" "must be a socket address" else
  if ih_relay_generation c =? 0 then refuse "iroh.relay_generation" "must be nonzero" else
  if (ih_max_connections c =? 0) || (64 <? ih_max_connections c)
  then refuse "iroh.max_connections" "must be between 1 and 64" else
  if (ih_max_sessions_per_connection c =? 0) || (64 <? ih_max_sessions_per_connection c)
  then refuse "iroh.max_sessions_per_connection" "must be between 1 and 64" else
  if (ih_control_timeout_secs c =? 0) || (30 <? ih_control_timeout_secs c)
  then refuse "iroh.control_timeout_secs" "must be between 1 and 30 seconds" else
  if 4 <? len (ih_relay_urls c) then refuse "iroh.relay_urls" "must contain at most four URLs" else
  if existsb (unbounded_reference 512) (ih_relay_urls c)
  then refuse "iroh.relay_urls" "must contain bounded non-whitespace ASCII URLs" else
  if match ih_api_secret_ref c with Some value => unbounded_reference 128 value | None => false end
  then refuse "iroh.api_secret_ref" "must be a bounded non-whitespace ASCII reference" else
  if match ih_access_token_ref c with Some value => unbounded_reference 128 value | None => false end
  then refuse "iroh.access_token_ref" "must be a bounded non-whitespace ASCII reference" else
  _ ← validate_provider c;
  if match ih_development_recovery_directory c with Some directory => negb (is_absolute directory) | None => false end
  then refuse "iroh.development_recovery_directory" "must be absolute" else
  match ih_pairing c with Some pairing => validate_pairing pairing | None => Ok tt end.

(** [toml_from_str] is [toml::from_str::<IrohRuntimeFile>], [contents] what reading the file
    gives. *)
Definition IrohRuntimeConfig_from_toml_str (toml_from_str : list byte → option IrohRuntimeFile) (contents : list byte)
  : relay_result IrohRuntimeConfig :=
  file ← ok_or (toml_from_str contents) ConfigurationSyntax;
  _ ← IrohRuntimeConfig_validate (IrohRuntimeFile_iroh file);
  Ok (IrohRuntimeFile_iroh file).

Definition IrohRuntimeConfig_from_path (toml_from_str : list byte → option IrohRuntimeFile) (contents : option (list byte))
  : relay_result IrohRuntimeConfig :=
  contents ← ok_or contents ConfigurationRead;
  IrohRuntimeConfig_from_toml_str toml_from_str contents.

Definition set_bind_address (address : list byte) (c : IrohRuntimeConfig) : IrohRuntimeConfig :=
  {| ih_bind_address := address; ih_provider := ih_provider c; ih_relay_urls := ih_relay_urls c;
     ih_api_secret_ref := ih_api_secret_ref c; ih_access_token_ref := ih_access_token_ref c;
     ih_max_connections := ih_max_connections c;
     ih_max_sessions_per_connection := ih_max_sessions_per_connection c;
     ih_control_timeout_secs := ih_control_timeout_secs c; ih_relay_generation := ih_relay_generation c;
     ih_development_recovery_directory := ih_development_recovery_directory c; ih_pairing := ih_pairing c |}.

Definition IrohRuntimeConfig_bind_address (c : IrohRuntimeConfig) : relay_result (IpAddr * Z) :=
  ok_or (parse_socket_addr (ih_bind_address c)) (InvalidConfiguration "iroh.bind_address" "must be a socket address").

Definition with_bind_port (port : Z) (c : IrohRuntimeConfig) : relay_result IrohRuntimeConfig :=
  address ← IrohRuntimeConfig_bind_address c;
  let c := set_bind_address (socket_addr_to_string (address.1, port)) c in
  _ ← IrohRuntimeConfig_validate c;
  Ok c.

(** *** The endpoint configuration

    [IrohRelayConfig] of IrohRelay.v with the parts that are handed on. [St] is the recovery
    store. *)
Record EndpointConfig (St : Type) : Type := {
  en_config : IrohRelayConfig;
  en_bind_addr : option (IpAddr * Z);
  en_socket_connector : option UnixSocketConnector;
  en_authority_store : option St;
}.
#[global] Arguments en_config {St} _.
#[global] Arguments en_bind_addr {St} _.
#[global] Arguments en_socket_connector {St} _.
#[global] Arguments en_authority_store {St} _.

Definition with_relay_urls (urls : list (list byte)) (c : IrohRelayConfig) : endpoint_result IrohRelayConfig :=
  if bool_decide (urls = []) || (4 <? len urls) then Err (InvalidConfigurationField "relay_urls") else
  parsed ← ok_or (mapM relay_url_from_str urls) (InvalidConfigurationField "relay_urls");
  if existsb (λ url, bool_decide (url.1.2 ≠ str_lit "https") || bool_decide (url.2 = None)) parsed
  then Err (InvalidConfigurationField "relay_urls") else
  Ok {| ic_max_connections := ic_max_connections c;
        ic_max_sessions_per_connection := ic_max_sessions_per_connection c;
        ic_control_timeout := ic_control_timeout c; ic_relay_generation := ic_relay_generation c;
        ic_relay_mode := RelayCustom ((λ url, url.1.1) <$> parsed) |}.

(** [RelayError::from]. *)
Definition from_endpoint_error (error : IrohEndpointError) : RelayError :=
  IrohEndpoint
    match error with
    | InvalidConfigurationField _ => "invalid_configuration"
    | Bind => "bind"
    | Shutdown => "shutdown"
    | ProviderUnavailable => "provider_unavailable"
    | AuthorityStorage => "authority_storage"
    end.

(** The three tests of [to_endpoint_config]: the provider, the pairing socket and the recovery
    directory.  [open_store] is [FileAuthorityStore::open], [None] when it fails. *)
Definition with_provider (c : IrohRuntimeConfig) (config : IrohRelayConfig) : relay_result IrohRelayConfig :=
  match ih_provider c with
  | OfficialPublic => Ok config
  | OfficialManaged => Err (IrohEndpoint "provider_unavailable")
  | SelfHosted =>
      if bool_decide (is_Some (ih_access_token_ref c)) then Err (IrohEndpoint "provider_unavailable")
      else map_err from_endpoint_error (with_relay_urls (ih_relay_urls c) config)
  end.

Definition pairing_connector (c : IrohRuntimeConfig) : relay_result (option UnixSocketConnector) :=
  match ih_pairing c with
  | None => Ok None
  | Some pairing =>
      Some <$> map_err (λ _, InvalidConfiguration "iroh.pairing.socket_path"
                               "must be an absolute validated Unix socket path")
                 (UnixSocketConnector_new (ip_socket_path pairing) (ip_expected_uid pairing))
  end.

Definition recovery_store {St} (open_store : path → option St) (c : IrohRuntimeConfig) : relay_result (option St) :=
  match ih_development_recovery_directory c with
  | None => Ok None
  | Some root =>
      Some <$> map_err from_endpoint_error
                 (ok_or (open_store root) (InvalidConfigurationField "development_recovery_dir"))
  end.

Definition to_endpoint_config {St} (open_store : path → option St) (c : IrohRuntimeConfig)
  : relay_result (EndpointConfig St) :=
  config ← map_err from_endpoint_error
             (IrohRelayConfig_new (ih_max_connections c) (ih_max_sessions_per_connection c)
                (ih_control_timeout_secs c * nanos_per_sec));
  address ← IrohRuntimeConfig_bind_address c;
  config ← map_err from_endpoint_error (with_relay_generation config (ih_relay_generation c));
  config ← with_provider c config;
  connector ← pairing_connector c;
  store ← recovery_store open_store c;
  Ok {| en_config := config; en_bind_addr := Some address; en_socket_connector := connector;
        en_authority_store := store |}.

(** [HerdrWorkspacePairingVerifier::from_runtime_config]: the client of the pairing verifier. *)
Definition from_runtime_config (c : IrohPairingConfig) : endpoint_result HerdrWorkspaceClient :=
  verification_cwd ← ok_or (from_utf8 (ip_verification_cwd c))
                       (InvalidConfigurationField "iroh.pairing.verification_cwd");
  map_err (λ _, InvalidConfigurationField "iroh.pairing")
    (HerdrWorkspaceClient_new (is_ok (UnixSocketConnector_new (ip_socket_path c) (ip_expected_uid c)))
       verification_cwd (ip_session c)).

(** ** The QRM server *)
Definition QRM_DEFAULT_PORT : Z := 18743.
Definition QRM_MAX_CONTROL_FRAME_BYTES : Z := 65536.
Definition QRM_BUFFER_BYTES : Z := 65536.
Definition QRM_MAX_CONNECTIONS : Z := 64.
Definition QRM_MAX_SESSIONS_PER_CONNECTION : Z := 64.
Definition QRM_HANDSHAKE_TIMEOUT_SECS : Z := 5.
Definition QRM_IDLE_TIMEOUT_SECS : Z := 900.
Definition QRM_MAX_ENROLLMENT_REQUEST_BYTES : Z := 65536.
Definition QRM_MAX_ENROLLMENT_CSR_BYTES : Z := 16384.
Definition QRM_MAX_ENROLLMENT_HANDSHAKES : Z := 16.
Definition QRM_MAX_ENROLLMENT_CONNECTIONS : Z := 8.
Definition QRM_MAX_ENROLLMENT_LIFETIME_SECS : Z := 330.
Definition QRM_MAX_ENROLLMENT_CHALLENGE_TTL_SECS : Z := 300.

Inductive SecurityMode : Type := Verified | DevelopmentUnverified.

#[export] Instance SecurityMode_eq_dec : EqDecision SecurityMode.
Proof. solve_decision. Defined.

(** [SecurityMode::deserialize], of the string in the file. *)
Definition SecurityMode_deserialize (value : list byte) : option SecurityMode :=
  if bool_decide (value = str_lit "verified") then Some Verified
  else if bool_decide (value = str_lit "development_unverified") then Some DevelopmentUnverified
  else None.

Record ListenerConfig : Type := {
  lc_listen_address : list byte;
  lc_port : Z;
}.

Definition ListenerConfig_socket_addr (c : ListenerConfig) : relay_result (IpAddr * Z) :=
  ip ← ok_or (parse_ip (lc_listen_address c)) (InvalidConfiguration "listener.listen_address" "must be an IP address");
  if lc_port c =? 0 then refuse "listener.port" "must be a non-zero UDP port" else Ok (ip, lc_port c).

Definition default_ca_generation : Z := 1.

Record SecurityConfig : Type := {
  sc_mode : SecurityMode;
  sc_ca_generation : Z;
  sc_server_certificate : path;
  sc_server_private_key : path;
  sc_trusted_client_ca : path;
  sc_trusted_core_enrollment_ca : path;
  sc_core_enrollment_intermediate_certificate : path;
  sc_core_enrollment_intermediate_private_key : path;
  sc_device_intermediate_certificate : path;
  sc_device_intermediate_private_key : path;
  sc_public_root_certificate : path;
}.

Record ResourceLimits : Type := {
  rl_max_connections : Z;
  rl_max_sessions_per_connection : Z;
  rl_max_control_frame_bytes : Z;
  rl_buffer_bytes : Z;
  rl_handshake_timeout_secs : Z;
  rl_idle_timeout_secs : Z;
}.

Definition ResourceLimits_validate (c : ResourceLimits) : relay_result unit :=
  if (rl_max_connections c =? 0) || (QRM_MAX_CONNECTIONS <? rl_max_connections c)
  then refuse "limits.max_connections" "must be between 1 and the QRM connection limit" else
  if (rl_max_sessions_per_connection c =? 0) || (QRM_MAX_SESSIONS_PER_CONNECTION <? rl_max_sessions_per_connection c)
  then refuse "limits.max_sessions_per_connection" "must be between 1 and the QRM session limit" else
  if negb (rl_max_control_frame_bytes c =? QRM_MAX_CONTROL_FRAME_BYTES) || (rl_buffer_bytes c =? 0)
     || (QRM_BUFFER_BYTES <? rl_buffer_bytes c)
  then refuse "limits.max_control_frame_bytes"
         "must equal the fixed QRM control-frame limit and keep buffers within bounds" else
  if (rl_handshake_timeout_secs c =? 0) || (QRM_HANDSHAKE_TIMEOUT_SECS <? rl_handshake_timeout_secs c)
     || (rl_idle_timeout_secs c =? 0) || (QRM_IDLE_TIMEOUT_SECS <? rl_idle_timeout_secs c)
  then refuse "limits.handshake_timeout_secs" "timeouts exceed the QRM bounds" else Ok tt.

Record EnrollmentConfig : Type := {
  ec_enabled : bool;
  ec_allowlist_path : path;
  ec_issuance_result_path : path;
  ec_bootstrap_state_path : path;
  ec_max_handshakes : Z;
  ec_max_connections : Z;
  ec_max_request_bytes : Z;
  ec_max_csr_bytes : Z;
  ec_connection_lifetime_secs : Z;
  ec_challenge_ttl_secs : Z;
  ec_bootstrap_session : list byte;
  ec_bootstrap_verification_cwd : list byte;
}.

Definition default_bootstrap_session : list byte := str_lit "default".
Definition default_bootstrap_verification_cwd : list byte := str_lit "/path/to/herdr-dog/bootstrap-verification".
Definition default_bootstrap_state_path : path := components (str_lit "/path/to/herdr-dog/bootstrap-state.json").

Definition EnrollmentConfig_default : EnrollmentConfig :=
  {| ec_enabled := false; ec_allowlist_path := []; ec_issuance_result_path := [];
     ec_bootstrap_state_path := default_bootstrap_state_path;
     ec_max_handshakes := QRM_MAX_ENROLLMENT_HANDSHAKES; ec_max_connections := QRM_MAX_ENROLLMENT_CONNECTIONS;
     ec_max_request_bytes := QRM_MAX_ENROLLMENT_REQUEST_BYTES; ec_max_csr_bytes := QRM_MAX_ENROLLMENT_CSR_BYTES;
     ec_connection_lifetime_secs := QRM_MAX_ENROLLMENT_LIFETIME_SECS;
     ec_challenge_ttl_secs := QRM_MAX_ENROLLMENT_CHALLENGE_TTL_SECS;
     ec_bootstrap_session := default_bootstrap_session;
     ec_bootstrap_verification_cwd := default_bootstrap_verification_cwd |}.

Definition is_valid_bootstrap_session (value : list byte) : bool :=
  bool_decide (value ≠ []) && (len value <=? 64) && bool_decide (value ≠ str_lit ".")
  && bool_decide (value ≠ str_lit "..") && forallb session_byte value.

Definition EnrollmentConfig_validate (c : EnrollmentConfig) : relay_result unit :=
  if negb (ec_enabled c) then Ok tt else
  _ ← validate_absolute_path "enrollment.allowlist_path" (ec_allowlist_path c);
  _ ← validate_absolute_path "enrollment.issuance_result_path" (ec_issuance_result_path c);
  _ ← validate_absolute_path "enrollment.bootstrap_state_path" (ec_bootstrap_state_path c);
  if (ec_max_handshakes c =? 0) || (QRM_MAX_ENROLLMENT_HANDSHAKES <? ec_max_handshakes c)
  then refuse "enrollment.max_handshakes" "exceeds the fixed enrollment handshake bound" else
  if (ec_max_connections c =? 0) || (QRM_MAX_ENROLLMENT_CONNECTIONS <? ec_max_connections c)
  then refuse "enrollment.max_connections" "exceeds the fixed enrollment connection bound" else
  if negb (ec_max_request_bytes c =? QRM_MAX_ENROLLMENT_REQUEST_BYTES) || (ec_max_csr_bytes c =? 0)
     || (QRM_MAX_ENROLLMENT_CSR_BYTES <? ec_max_csr_bytes c) || (ec_connection_lifetime_secs c =? 0)
     || (QRM_MAX_ENROLLMENT_LIFETIME_SECS <? ec_connection_lifetime_secs c) || (ec_challenge_ttl_secs c =? 0)
     || (QRM_MAX_ENROLLMENT_CHALLENGE_TTL_SECS <? ec_challenge_ttl_secs c)
  then refuse "enrollment.max_request_bytes" "enrollment bounds exceed the fixed QRM limits" else
  if negb (is_valid_bootstrap_session (ec_bootstrap_session c)) || bool_decide (ec_bootstrap_verification_cwd c = [])
     || negb (is_absolute (components (ec_bootstrap_verification_cwd c)))
     || bool_decide (x0a ∈ ec_bootstrap_verification_cwd c) || bool_decide (x0d ∈ ec_bootstrap_verification_cwd c)
  then refuse "enrollment.bootstrap_verification_cwd" "bootstrap workspace configuration is invalid" else Ok tt.

Record RelayConfig : Type := {
  cf_listener : ListenerConfig;
  cf_security : SecurityConfig;
  cf_limits : ResourceLimits;
  cf_enrollment : EnrollmentConfig;
  cf_update : UpdateConfig;
}.

(** The paths of the TLS material, in the order [validate] looks at them. *)
Definition validate_material (s : SecurityConfig) (e : EnrollmentConfig) : relay_result unit :=
  _ ← validate_absolute_path "security.server_certificate" (sc_server_certificate s);
  _ ← validate_absolute_path "security.server_private_key" (sc_server_private_key s);
  _ ← validate_absolute_path "security.trusted_client_ca" (sc_trusted_client_ca s);
  _ ← validate_absolute_path "enrollment.allowlist_path" (ec_allowlist_path e);
  if ec_enabled e
  then
    _ ← validate_absolute_path "security.trusted_core_enrollment_ca" (sc_trusted_core_enrollment_ca s);
    _ ← validate_absolute_path "security.core_enrollment_intermediate_certificate"
          (sc_core_enrollment_intermediate_certificate s);
    _ ← validate_absolute_path "security.core_enrollment_intermediate_private_key"
          (sc_core_enrollment_intermediate_private_key s);
    _ ← validate_absolute_path "security.device_intermediate_certificate" (sc_device_intermediate_certificate s);
    _ ← validate_absolute_path "security.device_intermediate_private_key" (sc_device_intermediate_private_key s);
    validate_absolute_path "security.public_root_certificate" (sc_public_root_certificate s)
  else Ok tt.

Definition RelayConfig_validate (c : RelayConfig) : relay_result unit :=
  _ ← ListenerConfig_socket_addr (cf_listener c);
  _ ← ResourceLimits_validate (cf_limits c);
  _ ← EnrollmentConfig_validate (cf_enrollment c);
  _ ← UpdateConfig_validate (cf_update c);
  if sc_ca_generation (cf_security c) =? 0 then refuse "security.ca_generation" "must be non-zero" else
  if bool_decide (sc_mode (cf_security c) = Verified)
  then validate_material (cf_security c) (cf_enrollment c) else Ok tt.

Definition RelayConfig_from_toml_str (toml_from_str : list byte → option RelayConfig) (input : list byte)
  : relay_result RelayConfig :=
  config ← ok_or (toml_from_str input) ConfigurationSyntax;
  _ ← RelayConfig_validate config;
  Ok config.

Definition RelayConfig_from_path (toml_from_str : list byte → option RelayConfig) (input : option (list byte))
  : relay_result RelayConfig :=
  input ← ok_or input ConfigurationRead;
  RelayConfig_from_toml_str toml_from_str input.

Definition with_port (port : Z) (c : RelayConfig) : relay_result RelayConfig :=
  if port =? 0 then refuse "listener.port" "must be a non-zero UDP port" else
  let c :=
    {| cf_listener := {| lc_listen_address := lc_listen_address (cf_listener c); lc_port := port |};
       cf_security := cf_security c; cf_limits := cf_limits c; cf_enrollment := cf_enrollment c;
       cf_update := cf_update c |} in
  _ ← RelayConfig_validate c;
  Ok c.
End Addresses.

(** * Facts *)
Section Facts.
Context {IpAddr : Type}.
Context (parse_ip : list byte → option IpAddr).

Lemma validate_absolute_path_returns field p : returns (validate_absolute_path field p).
Proof. unfold validate_absolute_path. by destruct (_ || _). Qed.

(** What a validated QRM configuration has, for the components that are built from it. *)
Record limits_valid (l : ResourceLimits) : Prop := {
  lv_connections : 0 < rl_max_connections l ≤ QRM_MAX_CONNECTIONS;
  lv_sessions : 0 < rl_max_sessions_per_connection l ≤ QRM_MAX_SESSIONS_PER_CONNECTION;
  lv_frame : rl_max_control_frame_bytes l = QRM_MAX_CONTROL_FRAME_BYTES;
  lv_buffer : 0 < rl_buffer_bytes l ≤ QRM_BUFFER_BYTES;
  lv_handshake : 0 < rl_handshake_timeout_secs l ≤ QRM_HANDSHAKE_TIMEOUT_SECS;
  lv_idle : 0 < rl_idle_timeout_secs l ≤ QRM_IDLE_TIMEOUT_SECS;
}.

(** serde reads an unsigned integer field as a number that is not negative. *)
Record limits_unsigned (l : ResourceLimits) : Prop := {
  lu_connections : 0 ≤ rl_max_connections l;
  lu_sessions : 0 ≤ rl_max_sessions_per_connection l;
  lu_buffer : 0 ≤ rl_buffer_bytes l;
  lu_handshake : 0 ≤ rl_handshake_timeout_secs l;
  lu_idle : 0 ≤ rl_idle_timeout_secs l;
}.

Lemma ResourceLimits_validate_Ok l :
  limits_unsigned l → ResourceLimits_validate l = Ok tt ↔ limits_valid l.
Proof.
  intros [U1 U2 U3 U4 U5]. unfold ResourceLimits_validate, refuse. split.
  - destruct (_ || _) eqn:H1; [done|]. destruct ((rl_max_sessions_per_connection l =? 0) || _) eqn:H2; [done|].
    destruct (negb _ || _ || _) eqn:H3; [done|]. destruct ((rl_handshake_timeout_secs l =? 0) || _ || _ || _) eqn:H4; [done|].
    intros _. bool_facts. split; lia.
  - intros [C1 C2 C3 C4 C5 C6]. rewrite C3, Z.eqb_refl.
    repeat match goal with
    | |- context [?x =? 0] => rewrite (proj2 (Z.eqb_neq x 0)) by lia
    | |- context [?x <? ?y] => rewrite (proj2 (Z.ltb_ge x y)) by lia
    end. done.
Qed.

Lemma ListenerConfig_socket_addr_Ok c a :
  ListenerConfig_socket_addr parse_ip c = Ok a ↔ parse_ip (lc_listen_address c) = Some a.1 ∧ lc_port c ≠ 0 ∧ a.2 = lc_port c.
Proof.
  unfold ListenerConfig_socket_addr, refuse. destruct (parse_ip _) as [ip|]; simpl; [|naive_solver].
  destruct (Z.eqb_spec (lc_port c) 0); destruct a; simpl; naive_solver.
Qed.

Lemma EnrollmentConfig_validate_Ok c :
  EnrollmentConfig_validate c = Ok tt → ec_enabled c = true →
  is_valid_bootstrap_session (ec_bootstrap_session c) = true ∧ ec_bootstrap_verification_cwd c ≠ []
  ∧ is_absolute (components (ec_bootstrap_verification_cwd c)) = true
  ∧ x0a ∉ ec_bootstrap_verification_cwd c ∧ x0d ∉ ec_bootstrap_verification_cwd c
  ∧ ec_max_handshakes c ≠ 0 ∧ ec_max_handshakes c ≤ QRM_MAX_ENROLLMENT_HANDSHAKES
  ∧ ec_max_connections c ≠ 0 ∧ ec_max_connections c ≤ QRM_MAX_ENROLLMENT_CONNECTIONS
  ∧ ec_challenge_ttl_secs c ≤ QRM_MAX_ENROLLMENT_CHALLENGE_TTL_SECS.
Proof.
  unfold EnrollmentConfig_validate. intros H He. rewrite He in H. cbn [negb] in H.
  apply bind_Ok in H as ([] & _ & H). apply bind_Ok in H as ([] & _ & H). apply bind_Ok in H as ([] & _ & H).
  unfold refuse in H. destruct (_ || _) eqn:H1 in H; [done|]. destruct ((ec_max_connections c =? 0) || _) eqn:H2 in H; [done|].
  destruct (negb (ec_max_request_bytes c =? _) || _ || _ || _ || _ || _ || _) eqn:H3 in H; [done|].
  destruct (negb (is_valid_bootstrap_session _) || _ || _ || _ || _) eqn:H4 in H; [done|]. bool_facts. split_and!; done.
Qed.

Lemma validate_material_returns s e : returns (validate_material s e).
Proof. unfold validate_material. no_panic; auto using validate_absolute_path_returns. Qed.

Lemma RelayConfig_validate_returns c : returns (RelayConfig_validate parse_ip c).
Proof.
  unfold RelayConfig_validate, refuse. apply bind_returns; [unfold ListenerConfig_socket_addr, refuse; destruct (parse_ip _); simpl; [by case_match|done]|].
  intros _ _. apply bind_returns; [unfold ResourceLimits_validate, refuse; by repeat case_match|].
  intros _ _. apply bind_returns; [unfold EnrollmentConfig_validate, refuse; no_panic; auto using validate_absolute_path_returns|].
  intros _ _. apply bind_returns; [apply UpdateConfig_validate_returns|].
  intros _ _. case_match; [done|]. case_bool_decide; [apply validate_material_returns|done].
Qed.
End Facts.

(** ** The iroh relay *)
Section IrohFacts.
Context {IpAddr : Type}.
Context (parse_socket_addr : list byte → option (IpAddr * Z)).
Context (relay_url_from_str : list byte → option (list byte * list byte * option (list byte))).

Lemma validate_provider_returns c : returns (validate_provider c).
Proof. unfold validate_provider, refuse. by repeat case_match. Qed.

Lemma IrohRuntimeConfig_validate_returns c : returns (IrohRuntimeConfig_validate parse_socket_addr c).
Proof.
  unfold IrohRuntimeConfig_validate, refuse. repeat (case_match; try done);
    (apply bind_returns; [apply validate_provider_returns|intros _ _]); unfold validate_pairing, refuse; by repeat case_match.
Qed.

(** What [validate] leaves to rely on. *)
Record iroh_valid (c : IrohRuntimeConfig) : Prop := {
  iv_address : is_Some (parse_socket_addr (ih_bind_address c));
  iv_generation : ih_relay_generation c ≠ 0;
  iv_connections : ih_max_connections c ≠ 0 ∧ ih_max_connections c ≤ 64;
  iv_sessions : ih_max_sessions_per_connection c ≠ 0 ∧ ih_max_sessions_per_connection c ≤ 64;
  iv_timeout : ih_control_timeout_secs c ≠ 0 ∧ ih_control_timeout_secs c ≤ 30;
  iv_urls : len (ih_relay_urls c) ≤ 4 ∧ (ih_provider c = SelfHosted → ih_relay_urls c ≠ []);
  iv_public : ih_provider c = OfficialPublic →
    ih_relay_urls c = [] ∧ ih_api_secret_ref c = None ∧ ih_access_token_ref c = None;
  iv_pairing : ∀ p, ih_pairing c = Some p → validate_pairing p = Ok tt;
}.

Lemma IrohRuntimeConfig_validate_Ok c : IrohRuntimeConfig_validate parse_socket_addr c = Ok tt → iroh_valid c.
Proof.
  unfold IrohRuntimeConfig_validate, refuse. case_bool_decide as Ha; [done|].
  destruct (Z.eqb_spec (ih_relay_generation c) 0); [done|].
  destruct ((ih_max_connections c =? 0) || _) eqn:H1; [done|].
  destruct ((ih_max_sessions_per_connection c =? 0) || _) eqn:H2; [done|].
  destruct ((ih_control_timeout_secs c =? 0) || _) eqn:H3; [done|].
  destruct (Z.ltb_spec 4 (len (ih_relay_urls c))); [done|].
  destruct (existsb _ _); [done|]. destruct (match ih_api_secret_ref c with Some _ => _ | None => _ end); [done|].
  destruct (match ih_access_token_ref c with Some _ => _ | None => _ end); [done|].
  intros ([] & Hp & Hlast)%bind_Ok. destruct (match ih_development_recovery_directory c with Some _ => _ | None => _ end); [done|].
  bool_facts. split; try done.
  - split; [done|]. unfold validate_provider, refuse in Hp. intros Hs Hu. by rewrite Hs, Hu in Hp.
  - unfold validate_provider, refuse in Hp. intros Hs. rewrite Hs in Hp. destruct (_ || _) eqn:Hc in Hp; [done|]. bool_facts.
    split_and!; first [done|by apply eq_None_not_Some|by apply dec_stable].
  - intros p Hpair. by rewrite Hpair in Hlast.
Qed.

(** A URL the relay mode takes. *)
Definition https_url (url : list byte) : Prop :=
  ∃ text host, relay_url_from_str url = Some (text, str_lit "https", Some host).

Lemma with_relay_urls_is_Ok urls c :
  is_ok (with_relay_urls relay_url_from_str urls c) = true ↔ urls ≠ [] ∧ len urls ≤ 4 ∧ Forall https_url urls.
Proof.
  unfold with_relay_urls. destruct (_ || _) eqn:H1.
  { split; [done|]. intros (Hne & Hl & _). apply orb_true_iff in H1 as [Hn%bool_decide_eq_true|Hn%Z.ltb_lt]; [done|lia]. }
  bool_facts. assert (Hm : (∃ parsed, mapM relay_url_from_str urls = Some parsed
      ∧ existsb (λ url, bool_decide (url.1.2 ≠ str_lit "https") || bool_decide (url.2 = None)) parsed = false) ↔ Forall https_url urls).
  { clear. induction urls as [|url urls IH]; simpl.
    - split; [done|]. intros _. by exists [].
    - rewrite Forall_cons, <-IH. unfold https_url. split.
      + intros (parsed & (u & Hu & (ps & Hps & [= <-])%bind_Some)%bind_Some & He). simpl in He. apply orb_false_iff in He as [Hu0 Hps0].
        apply orb_false_iff in Hu0 as [Hs%bool_decide_eq_false Hh%bool_decide_eq_false]. apply dec_stable in Hs.
        split; [|by exists ps]. destruct u as [[text scheme] [host|]]; [|done]. simpl in Hs. subst. by exists text, host.
      + intros [(text & host & Hu) (ps & Hps & Hx)]. exists ((text, str_lit "https", Some host) :: ps). by rewrite Hu, Hps. }
  rewrite <-Hm. destruct (mapM relay_url_from_str urls) as [parsed|]; simpl.
  - destruct (existsb _ parsed) eqn:He; simpl; naive_solver.
  - naive_solver.
Qed.
End IrohFacts.

Section EndpointFacts.
Context {IpAddr : Type}.
Context (parse_socket_addr : list byte → option (IpAddr * Z)).
Context (relay_url_from_str : list byte → option (list byte * list byte * option (list byte))).

(** What the translation still refuses of a validated file: the provider that is not
    available, a self-hosted relay with a token or with URLs the iroh crate does not take, a
    socket at the root and a recovery directory that does not open. *)
Definition provider_available (c : IrohRuntimeConfig) : Prop :=
  ih_provider c ≠ OfficialManaged
  ∧ (ih_provider c = SelfHosted → ih_access_token_ref c = None ∧ Forall (https_url relay_url_from_str) (ih_relay_urls c)).
Definition endpoint_available {St} (open_store : path → option St) (c : IrohRuntimeConfig) : Prop :=
  provider_available c
  ∧ (∀ p, ih_pairing c = Some p → ip_socket_path p ≠ root_path)
  ∧ (∀ root, ih_development_recovery_directory c = Some root → is_Some (open_store root)).

Lemma validate_pairing_Ok p :
  validate_pairing p = Ok tt →
  is_absolute (ip_socket_path p) = true ∧ is_absolute (components (ip_verification_cwd p)) = true
  ∧ is_valid_session (ip_session p) = true.
Proof.
  unfold validate_pairing, refuse. destruct (is_absolute (ip_socket_path p)); [|done]. destruct (is_absolute (components _)); [|done].
  cbn [negb]. destruct (_ || _) eqn:H1; [done|]. destruct (forallb session_byte _) eqn:H2; [|done]. intros _. bool_facts.
  split_and!; [done..|]. unfold is_valid_session. unfold session_byte in H2. rewrite H2, !bool_decide_eq_true_2 by done.
  by rewrite (proj2 (Z.leb_le _ _)).
Qed.

(** The fields of a configuration that stay, whatever the relay mode. *)
Definition with_mode (mode : RelayMode) (generation : Z) (c : IrohRuntimeConfig) : IrohRelayConfig :=
  {| ic_max_connections := ih_max_connections c; ic_max_sessions_per_connection := ih_max_sessions_per_connection c;
     ic_control_timeout := ih_control_timeout_secs c * nanos_per_sec; ic_relay_generation := generation;
     ic_relay_mode := mode |}.

Lemma with_mode_valid mode generation c :
  iroh_valid parse_socket_addr c → 0 ≤ ih_max_connections c → 0 ≤ ih_max_sessions_per_connection c →
  0 ≤ ih_control_timeout_secs c → generation ≠ 0 → IrohRelayConfig_validate (with_mode mode generation c) = Ok tt.
Proof.
  intros [_ _ Hc Hs Ht _ _ _] Uc Us Ut Hgen.
  unfold IrohRelayConfig_validate, MAX_IROH_CONNECTIONS, MAX_SESSION_STREAMS, nanos_per_sec. simpl. unfold nanos_per_sec.
  repeat match goal with
  | |- context [?x =? 0] => rewrite (proj2 (Z.eqb_neq x 0)) by lia
  | |- context [?x <? ?y] => rewrite (proj2 (Z.ltb_ge x y)) by lia
  end. done.
Qed.

Lemma with_relay_urls_mode urls mode generation c config :
  with_relay_urls relay_url_from_str urls (with_mode mode generation c) = Ok config →
  ∃ parsed, mapM relay_url_from_str urls = Some parsed
    ∧ config = with_mode (RelayCustom ((λ url, url.1.1) <$> parsed)) generation c.
Proof.
  unfold with_relay_urls. destruct (_ || _); [done|]. intros (parsed & Hp%ok_or_Ok & Hw)%bind_Ok.
  destruct (existsb _ _); [done|]. apply Ok_inj in Hw as <-. by exists parsed.
Qed.

(** The relay mode of a provider: the one the crate comes with, or the relays at the URLs of
    the file, as the URL parser prints them. *)
Definition provider_mode (default : RelayMode) (c : IrohRuntimeConfig) (mode : RelayMode) : Prop :=
  match ih_provider c with
  | OfficialPublic => mode = default
  | OfficialManaged => False
  | SelfHosted => ∃ parsed, mapM relay_url_from_str (ih_relay_urls c) = Some parsed
                    ∧ mode = RelayCustom ((λ url, url.1.1) <$> parsed)
  end.

Lemma with_provider_spec c mode generation :
  iroh_valid parse_socket_addr c →
  match with_provider relay_url_from_str c (with_mode mode generation c) with
  | Ok config => provider_available c ∧ ∃ mode', provider_mode mode c mode' ∧ config = with_mode mode' generation c
  | Err _ => ¬ provider_available c
  | Panic => False
  end.
Proof.
  intros [_ _ _ _ _ Hu _ _]. unfold with_provider, provider_available, provider_mode. destruct (ih_provider c).
  - split; [done|by eexists].
  - naive_solver.
  - case_bool_decide as Htok.
    { intros [_ Hx]. destruct (Hx eq_refl) as [Hn _]. rewrite Hn in Htok. by destruct Htok. }
    apply eq_None_not_Some in Htok. destruct Hu as [Hl Hne]. specialize (Hne eq_refl).
    pose proof (with_relay_urls_is_Ok relay_url_from_str (ih_relay_urls c) (with_mode mode generation c)) as Hiff.
    destruct (with_relay_urls _ _ _) as [config|e|] eqn:Hw; simpl in Hiff |- *.
    + destruct (proj1 Hiff eq_refl) as (_ & _ & Hall). split; [done|].
      apply with_relay_urls_mode in Hw as (parsed & Hps & ->). eexists. split; [by exists parsed|done].
    + intros [_ Hx]. destruct (Hx eq_refl) as [_ Hall]. by assert (false = true) by (by apply Hiff).
    + unfold with_relay_urls in Hw. destruct (_ || _); [done|]. destruct (mapM _ _); simpl in Hw; [by destruct (existsb _ _)|done].
Qed.

Lemma pairing_connector_spec c :
  iroh_valid parse_socket_addr c →
  match pairing_connector c with
  | Ok connector => (∀ p, ih_pairing c = Some p → ip_socket_path p ≠ root_path)
      ∧ connector = (λ p, {| us_path := ip_socket_path p; us_expected_uid := ip_expected_uid p |}) <$> ih_pairing c
  | Err _ => ¬ (∀ p, ih_pairing c = Some p → ip_socket_path p ≠ root_path)
  | Panic => False
  end.
Proof.
  intros [_ _ _ _ _ _ _ Hpair]. unfold pairing_connector. destruct (ih_pairing c) as [p|]; [|done].
  destruct (validate_pairing_Ok p (Hpair p eq_refl)) as (Habs & _).
  unfold UnixSocketConnector_new, validate_absolute_path. rewrite Habs. simpl. case_bool_decide as Hr; simpl; [naive_solver|].
  split; [|done]. by intros p' [= <-].
Qed.

Lemma recovery_store_spec {St} (open_store : path → option St) c :
  match recovery_store open_store c with
  | Ok store => (∀ root, ih_development_recovery_directory c = Some root → is_Some (open_store root))
      ∧ store = ih_development_recovery_directory c ≫= open_store
  | Err _ => ¬ (∀ root, ih_development_recovery_directory c = Some root → is_Some (open_store root))
  | Panic => False
  end.
Proof.
  unfold recovery_store. destruct (ih_development_recovery_directory c) as [root|]; [|done].
  destruct (open_store root) eqn:Ho; simpl.
  - split; [|done]. intros r [= <-]. by rewrite Ho.
  - intros Hx. destruct (Hx root eq_refl) as [? Hx']. congruence.
Qed.

Lemma to_endpoint_config_spec {St} (open_store : path → option St) c :
  iroh_valid parse_socket_addr c → 0 ≤ ih_max_connections c → 0 ≤ ih_max_sessions_per_connection c →
  0 ≤ ih_control_timeout_secs c →
  match to_endpoint_config parse_socket_addr relay_url_from_str open_store c with
  | Ok e => endpoint_available open_store c
      ∧ (∃ mode, provider_mode (ic_relay_mode IrohRelayConfig_default) c mode
           ∧ en_config e = with_mode mode (ih_relay_generation c) c)
      ∧ en_bind_addr e = parse_socket_addr (ih_bind_address c)
      ∧ en_socket_connector e = (λ p, {| us_path := ip_socket_path p; us_expected_uid := ip_expected_uid p |}) <$> ih_pairing c
      ∧ en_authority_store e = ih_development_recovery_directory c ≫= open_store
  | Err _ => ¬ endpoint_available open_store c
  | Panic => False
  end.
Proof.
  intros Hv Uc Us Ut. pose proof Hv as [[a Ha] Hg _ _ _ _ _ _].
  unfold to_endpoint_config, IrohRelayConfig_new, IrohRuntimeConfig_bind_address.
  pose proof (with_mode_valid (ic_relay_mode IrohRelayConfig_default) (ic_relay_generation IrohRelayConfig_default) c Hv Uc Us Ut ltac:(done)) as Hbase.
  unfold with_mode in Hbase. rewrite Hbase. cbn [mbind outcome_bind map_err]. rewrite Ha. cbn [ok_or mbind outcome_bind].
  unfold with_relay_generation. rewrite (proj2 (Z.eqb_neq _ _) Hg). cbn [map_err mbind outcome_bind].
  pose proof (with_provider_spec c (ic_relay_mode IrohRelayConfig_default) (ih_relay_generation c) Hv) as Hp. unfold with_mode at 1 in Hp.
  simpl. simpl in Hp. unfold endpoint_available.
  destruct (with_provider _ c _) as [config|e|]; [|simpl; tauto|done]. destruct Hp as [Hp Hmode]. cbn [mbind outcome_bind].
  pose proof (pairing_connector_spec c Hv) as Hc. destruct (pairing_connector c) as [connector|e|]; [|simpl; tauto|done].
  destruct Hc as [Hc Hconn]. cbn [mbind outcome_bind].
  pose proof (recovery_store_spec open_store c) as Hs. destruct (recovery_store open_store c) as [store|e|]; [|simpl; tauto|done].
  destruct Hs as [Hs Hstore]. simpl. done.
Qed.
End EndpointFacts.

Lemma SessionRegistry_new_bounded g e m :
  g ≠ 0 → e ≠ 0 → 0 < m ≤ 64 → is_ok (SessionRegistry_new g e m) = true.
Proof.
  intros Hg He Hm. unfold SessionRegistry_new, MAX_SESSION_STREAMS.
  rewrite !(proj2 (Z.eqb_neq _ _)), (proj2 (Z.ltb_ge _ _)) by lia. done.
Qed.

(** * Properties *)

(** C27. A validated iroh configuration starts, unless it asks for something that is not there.
    Its translation into an endpoint configuration never panics and succeeds exactly when the
    provider is available, the self-hosted URLs are https URLs with a host and need no token,
    the pairing socket is not the root and the recovery directory opens.  The result is then
    the configuration the file describes, field by field: its limits and control timeout, its
    generation, the public relays or the relays at its URLs, the address it binds, the
    connector to the pairing socket of its owner exactly when it has a pairing section, and
    the store opened at its recovery directory exactly when it names one.  The endpoint's own
    validation accepts it, and its limits make a session registry for every connection.  The
    client of its pairing section is built unless the socket is the root or the working
    directory is not UTF-8, too long or spans lines. *)
Theorem iroh_configuration_starts {IpAddr St} (parse : list byte → option (IpAddr * Z)) relay_url (open_store : path → option St)
    toml_from_str contents c :
  IrohRuntimeConfig_from_path parse toml_from_str contents = Ok c →
  0 ≤ ih_max_connections c → 0 ≤ ih_max_sessions_per_connection c → 0 ≤ ih_control_timeout_secs c →
  returns (to_endpoint_config parse relay_url open_store c)
  ∧ (is_ok (to_endpoint_config parse relay_url open_store c) = true ↔ endpoint_available relay_url open_store c)
  ∧ (∀ e, to_endpoint_config parse relay_url open_store c = Ok e →
       (∃ mode, provider_mode relay_url RelayDefault c mode
          ∧ en_config e =
            {| ic_max_connections := ih_max_connections c;
               ic_max_sessions_per_connection := ih_max_sessions_per_connection c;
               ic_control_timeout := ih_control_timeout_secs c * nanos_per_sec;
               ic_relay_generation := ih_relay_generation c; ic_relay_mode := mode |})
       ∧ en_bind_addr e = parse (ih_bind_address c) ∧ is_Some (en_bind_addr e)
       ∧ en_socket_connector e
         = (λ p, {| us_path := ip_socket_path p; us_expected_uid := ip_expected_uid p |}) <$> ih_pairing c
       ∧ en_authority_store e = ih_development_recovery_directory c ≫= open_store
       ∧ (is_Some (en_authority_store e) ↔ is_Some (ih_development_recovery_directory c))
       ∧ IrohRelayConfig_validate (en_config e) = Ok tt
       ∧ ∀ epoch, epoch ≠ 0 →
           is_ok (SessionRegistry_new (ic_relay_generation (en_config e)) epoch
                    (ic_max_sessions_per_connection (en_config e))) = true)
  ∧ (∀ p, ih_pairing c = Some p →
       is_ok (from_runtime_config p) = true ↔
       ip_socket_path p ≠ root_path ∧ is_str (ip_verification_cwd p) ∧ len (ip_verification_cwd p) ≤ 1024
       ∧ x0a ∉ ip_verification_cwd p ∧ x0d ∉ ip_verification_cwd p).
Proof.
  unfold IrohRuntimeConfig_from_path, IrohRuntimeConfig_from_toml_str.
  intros (input & _ & (file & _ & ([] & Hval & Hc%Ok_inj)%bind_Ok)%bind_Ok)%bind_Ok Uc Us Ut. rewrite Hc in Hval.
  apply IrohRuntimeConfig_validate_Ok in Hval as Hv.
  pose proof (to_endpoint_config_spec parse relay_url open_store c Hv Uc Us Ut) as Hspec.
  pose proof Hv as [Ha0 Hg Hc0 Hs0 _ _ _ Hpair]. split; [|split; [|split]].
  - by destruct (to_endpoint_config _ _ _ c).
  - destruct (to_endpoint_config _ _ _ c) as [e|e|]; simpl; [|split; [done|tauto]|done]. destruct Hspec as [Ha _]. done.
  - intros e He. rewrite He in Hspec. destruct Hspec as ((_ & _ & Hopen) & (mode & Hmode & Hm) & Hb & Hsk & Hst).
    split_and!; [by exists mode|done|by rewrite Hb|done|done| |rewrite Hm; by apply (with_mode_valid parse)|].
    { rewrite Hst. destruct (ih_development_recovery_directory c) as [root|]; simpl; [|done].
      split; [done|]. intros _. by apply Hopen. }
    rewrite Hm. simpl. intros epoch Hep. apply SessionRegistry_new_bounded; [done|done|lia].
  - intros p Hp. destruct (validate_pairing_Ok p (Hpair p Hp)) as (Habs & Hcwd & Hses).
    unfold from_runtime_config, HerdrWorkspaceClient_new, UnixSocketConnector_new, validate_absolute_path.
    rewrite Habs, Hses. cbn [negb orb].
    destruct (from_utf8 (ip_verification_cwd p)) as [s|] eqn:Hu; simpl.
    + apply from_utf8_Some in Hu as [-> Hstr]. rewrite Hcwd. simpl.
      assert (Hne : ip_verification_cwd p ≠ []) by (intros Hx; by rewrite Hx in Hcwd).
      rewrite (bool_decide_eq_false_2 (ip_verification_cwd p = [])) by done. simpl.
      destruct (Z.ltb_spec 1024 (len (ip_verification_cwd p))); simpl; [split; [done|intros (_ & _ & ? & _); lia]|].
      case_bool_decide; simpl; [naive_solver|]. case_bool_decide; simpl; [naive_solver|].
      case_bool_decide; simpl; naive_solver.
    + split; [done|]. intros (_ & [cs Hcs] & _). unfold from_utf8 in Hu. by rewrite Hcs in Hu.
Qed.

(** C28. A validated QRM configuration keeps every component within its bounds.  [validate]
    never panics; the limits it accepts are exactly those between one and the fixed QRM
    maxima; and a file that passes makes the listener address, a session registry for every
    connection, and the updater when updates are enabled.  A port override keeps all other
    settings, the listen address included, and the validity. *)
Theorem relay_configuration_bounds {IpAddr} (parse_ip : list byte → option IpAddr) c :
  limits_unsigned (cf_limits c) →
  returns (RelayConfig_validate parse_ip c)
  ∧ (ResourceLimits_validate (cf_limits c) = Ok tt ↔ limits_valid (cf_limits c))
  ∧ (RelayConfig_validate parse_ip c = Ok tt →
       limits_valid (cf_limits c)
       ∧ (∃ a, ListenerConfig_socket_addr parse_ip (cf_listener c) = Ok a ∧ a.2 = lc_port (cf_listener c) ∧ a.2 ≠ 0)
       ∧ (∀ g e, g ≠ 0 → e ≠ 0 → is_ok (SessionRegistry_new g e (rl_max_sessions_per_connection (cf_limits c))) = true)
       ∧ (ec_enabled (cf_enrollment c) = true →
            is_valid_session (ec_bootstrap_session (cf_enrollment c)) = true
            ∧ 0 ≠ ec_max_handshakes (cf_enrollment c) ∧ 0 ≠ ec_max_connections (cf_enrollment c))
       ∧ (uc_enabled (cf_update c) = true → is_ok (FixedSourceUpdater_new (cf_update c)) = true)
       ∧ (sc_mode (cf_security c) = Verified → is_absolute (ec_allowlist_path (cf_enrollment c)) = true))
  ∧ (∀ port c', with_port parse_ip port c = Ok c' →
       RelayConfig_validate parse_ip c' = Ok tt ∧ lc_port (cf_listener c') = port ∧ port ≠ 0
       ∧ lc_listen_address (cf_listener c') = lc_listen_address (cf_listener c)
       ∧ cf_security c' = cf_security c ∧ cf_limits c' = cf_limits c
       ∧ cf_enrollment c' = cf_enrollment c ∧ cf_update c' = cf_update c).
Proof.
  intros Hu. split; [apply RelayConfig_validate_returns|]. split; [by apply ResourceLimits_validate_Ok|]. split.
  - unfold RelayConfig_validate. intros (a & Ha & ([] & Hl & ([] & He & ([] & Hup & H)%bind_Ok)%bind_Ok)%bind_Ok)%bind_Ok.
    apply ResourceLimits_validate_Ok in Hl; [|done]. pose proof Hl as [_ Hs _ _ _ _].
    split_and!; try done.
    + exists a. split; [done|]. apply ListenerConfig_socket_addr_Ok in Ha as (_ & ? & ?). split; [done|congruence].
    + intros g e Hg Hee. apply SessionRegistry_new_bounded; done.
    + intros Hen. destruct (EnrollmentConfig_validate_Ok _ He Hen) as (Hses & _ & _ & _ & _ & ? & _ & ? & _).
      split; [|split; congruence]. exact Hses.
    + intros Hen. unfold FixedSourceUpdater_new. rewrite Hup, Hen. done.
    + intros Hm. destruct (_ =? 0) in H; [done|]. rewrite bool_decide_eq_true_2 in H by done.
      unfold validate_material in H. apply bind_Ok in H as ([] & _ & H). apply bind_Ok in H as ([] & _ & H).
      apply bind_Ok in H as ([] & _ & H). apply bind_Ok in H as ([] & H & _). by apply validate_absolute_path_Ok in H as [? _].
  - intros port c'. unfold with_port, refuse. destruct (Z.eqb_spec port 0); [done|]. intros ([] & Hv & <-%Ok_inj)%bind_Ok. done.
Qed.

(** ** Witnesses *)
Definition example_pairing : IrohPairingConfig :=
  {| ip_socket_path := components (str_lit "/run/herdr.sock"); ip_expected_uid := 501; ip_session := str_lit "default";
     ip_verification_cwd := str_lit "/work" |}.
Definition example_file : IrohRuntimeFile :=
  {| if_bind_address := None; if_provider := Some SelfHosted; if_relay_urls := Some [str_lit "https://relay.example"];
     if_api_secret_ref := None; if_access_token_ref := None; if_max_connections := None;
     if_max_sessions_per_connection := Some 8; if_control_timeout_secs := None; if_relay_generation := None;
     if_development_recovery_directory := None; if_pairing := Some example_pairing |}.
Definition example_parse (s : list byte) : option (list byte * Z) :=
  if bool_decide (s = default_iroh_bind_address) then Some (str_lit "127.0.0.1", 18743) else None.
Definition example_url (s : list byte) : option (list byte * list byte * option (list byte)) :=
  Some (s, str_lit "https", Some (str_lit "relay.example")).

Lemma iroh_configuration_starts_witness :
  ∃ e, to_endpoint_config example_parse example_url (λ _, @None unit) (IrohRuntimeFile_iroh example_file) = Ok e
    ∧ IrohRelayConfig_validate (en_config e) = Ok tt ∧ is_ok (from_runtime_config example_pairing) = true.
Proof.
  destruct (iroh_configuration_starts example_parse example_url (λ _, @None unit) (λ _, Some example_file) (Some [])
    (IrohRuntimeFile_iroh example_file) ltac:(vm_compute; reflexivity) ltac:(vm_compute; discriminate)
    ltac:(vm_compute; discriminate) ltac:(vm_compute; discriminate)) as (_ & _ & He & _).
  destruct (to_endpoint_config example_parse example_url (λ _, @None unit) (IrohRuntimeFile_iroh example_file)) as [e|e|] eqn:Hr;
    [|vm_compute in Hr; discriminate|vm_compute in Hr; discriminate].
  exists e. split; [reflexivity|]. split; [destruct (He e eq_refl) as (_ & _ & _ & _ & _ & _ & Hval & _); exact Hval|vm_compute; reflexivity].
Defined.

Definition example_relay_config : RelayConfig :=
  let p := components (str_lit "/etc/herdr/material") in
  {| cf_listener := {| lc_listen_address := str_lit "127.0.0.1"; lc_port := QRM_DEFAULT_PORT |};
     cf_security :=
       {| sc_mode := Verified; sc_ca_generation := default_ca_generation; sc_server_certificate := p; sc_server_private_key := p;
          sc_trusted_client_ca := p; sc_trusted_core_enrollment_ca := p; sc_core_enrollment_intermediate_certificate := p;
          sc_core_enrollment_intermediate_private_key := p; sc_device_intermediate_certificate := p;
          sc_device_intermediate_private_key := p; sc_public_root_certificate := p |};
     cf_limits :=
       {| rl_max_connections := 64; rl_max_sessions_per_connection := 64;
          rl_max_control_frame_bytes := QRM_MAX_CONTROL_FRAME_BYTES; rl_buffer_bytes := QRM_BUFFER_BYTES;
          rl_handshake_timeout_secs := 5; rl_idle_timeout_secs := 900 |};
     cf_enrollment :=
       {| ec_enabled := true; ec_allowlist_path := p; ec_issuance_result_path := p; ec_bootstrap_state_path := p;
          ec_max_handshakes := 16; ec_max_connections := 8; ec_max_request_bytes := QRM_MAX_ENROLLMENT_REQUEST_BYTES;
          ec_max_csr_bytes := 16384; ec_connection_lifetime_secs := 330; ec_challenge_ttl_secs := 300;
          ec_bootstrap_session := default_bootstrap_session;
          ec_bootstrap_verification_cwd := default_bootstrap_verification_cwd |};
     cf_update := UpdateConfig_default |}.

Lemma relay_configuration_bounds_witness :
  RelayConfig_validate Some example_relay_config = Ok tt ∧ limits_valid (cf_limits example_relay_config)
  ∧ is_ok (SessionRegistry_new 1 7 64) = true.
Proof.
  destruct (relay_configuration_bounds Some example_relay_config ltac:(split; vm_compute; discriminate)) as (_ & _ & Hv & _).
  specialize (Hv ltac:(vm_compute; reflexivity)) as (Hl & _ & Hs & _). split; [vm_compute; reflexivity|]. split; [exact Hl|].
  exact (Hs 1 7 ltac:(discriminate) ltac:(discriminate)).
Defined.
