(* ===== verification/Bridge.v ===== *)
(** * The byte bridge (src/src/bridge.rs)

    [run] forwards bytes between the network stream and the Unix stream of a session.  It is
    one task that polls two direction futures, the activity channel and the idle timer: what
    happens next is an event, and an event changes the state when the task is at an await
    point that can take it.  A peer sends, takes and closes as it likes: how many bytes a read
    or a write moves and whether it fails is part of the event.  Instants are nanoseconds. *)
From S2P Require Import IrohRelay.
From S2P Require Export Config.

Record BridgeLimits : Type := {
  bl_buffer_bytes : Z;
  bl_idle_timeout : Z;
}.

Definition BridgeLimits_new (buffer_bytes idle_timeout : Z) : relay_result BridgeLimits :=
  if (buffer_bytes =? 0) || (QRM_BUFFER_BYTES <? buffer_bytes)
  then Err (InvalidConfiguration "limits.buffer_bytes" "must be between 1 and the QRM buffer limit") else
  if (idle_timeout =? 0) || (QRM_IDLE_TIMEOUT_SECS * nanos_per_sec <? idle_timeout)
  then Err (InvalidConfiguration "limits.idle_timeout_secs" "must be between 1 second and the QRM idle limit") else
  Ok {| bl_buffer_bytes := buffer_bytes; bl_idle_timeout := idle_timeout |}.

Definition BridgeLimits_v1 : BridgeLimits :=
  {| bl_buffer_bytes := QRM_BUFFER_BYTES; bl_idle_timeout := QRM_IDLE_TIMEOUT_SECS * nanos_per_sec |}.

Record BridgeOutcome : Type := {
  bo_network_to_unix_bytes : Z;
  bo_unix_to_network_bytes : Z;
}.

(** ** One direction

    The await points of [forward_direction]: [Announcing] is the first [activity_tx.send], on
    the way to the write, [Announced] the second, after it. *)
Inductive DirectionPoint : Type :=
| Reading
| Announcing (chunk : list byte)
| Writing (chunk rest : list byte)
| Announced (chunk : list byte)
| ShuttingDown
| Returned (result : relay_result Z).

(** [dr_taken] and [dr_given] are the bytes read from the one side and written to the other
    so far. *)
Record Direction : Type := {
  dr_point : DirectionPoint;
  dr_copied : Z;
  dr_taken : list byte;
  dr_given : list byte;
}.

Definition Direction_start : Direction :=
  {| dr_point := Reading; dr_copied := 0; dr_taken := []; dr_given := [] |}.

Definition at_point (point : DirectionPoint) (d : Direction) : Direction :=
  {| dr_point := point; dr_copied := dr_copied d; dr_taken := dr_taken d; dr_given := dr_given d |}.

(** What ends a direction's wait: bytes or the end of the reader, an error of a system call,
    bytes the writer takes, a place in the activity channel, the end of the shutdown. *)
Inductive DirectionEvent : Type :=
| ReadBytes (bytes : list byte)
| ReadEnd
| WroteBytes (count : nat)
| ChannelTook
| ShutDone
| CallFailed (kind : string).

Record DirectionLabels : Type := {
  dl_read_operation : string;
  dl_write_operation : string;
}.

Definition forward_step (limits : BridgeLimits) (labels : DirectionLabels) (e : DirectionEvent) (d : Direction)
  : option Direction :=
  match dr_point d, e with
  | Reading, ReadBytes bytes =>
      if bool_decide (bytes = []) || (bl_buffer_bytes limits <? len bytes) then None else
      Some {| dr_point := Announcing bytes; dr_copied := dr_copied d; dr_taken := dr_taken d ++ bytes;
              dr_given := dr_given d |}
  | Reading, ReadEnd => Some (at_point ShuttingDown d)
  | Reading, CallFailed kind => Some (at_point (Returned (Err (Io (dl_read_operation labels) kind))) d)
  | Announcing chunk, ChannelTook => Some (at_point (Writing chunk chunk) d)
  | Writing chunk rest, WroteBytes count =>
      if bool_decide (count = 0%nat) || bool_decide (length rest < count)%nat then None else
      let rest' := drop count rest in
      Some {| dr_point := if bool_decide (rest' = []) then Announced chunk else Writing chunk rest';
              dr_copied := dr_copied d; dr_taken := dr_taken d; dr_given := dr_given d ++ take count rest |}
  | Writing _ _, CallFailed kind => Some (at_point (Returned (Err (Io (dl_write_operation labels) kind))) d)
  | Announced chunk, ChannelTook =>
      Some {| dr_point := Reading; dr_copied := (dr_copied d + len chunk) mod 2 ^ 64; dr_taken := dr_taken d;
              dr_given := dr_given d |}
  | ShuttingDown, ShutDone => Some (at_point (Returned (Ok (dr_copied d))) d)
  | ShuttingDown, CallFailed kind =>
      Some (at_point (Returned (Err (Io "shutting down bridge write half" kind))) d)
  | _, _ => None
  end.

(** ** The select loop *)
Inductive BridgeSide : Type := NetworkToUnix | UnixToNetwork.

#[export] Instance BridgeSide_eq_dec : EqDecision BridgeSide.
Proof. solve_decision. Defined.

Definition side_labels (side : BridgeSide) : DirectionLabels :=
  match side with
  | NetworkToUnix => {| dl_read_operation := "reading network stream"; dl_write_operation := "writing Unix stream" |}
  | UnixToNetwork => {| dl_read_operation := "reading Unix stream"; dl_write_operation := "writing network stream" |}
  end.

(** [br_queued] is the number of messages in the activity channel, which has one place;
    [br_results] says which directions the loop has seen return. *)
Record Bridge : Type := {
  br_network_to_unix : Direction;
  br_unix_to_network : Direction;
  br_network_result : option (relay_result Z);
  br_unix_result : option (relay_result Z);
  br_queued : nat;
  br_now : Z;
  br_idle : Z;
  br_outcome : option (relay_result BridgeOutcome);
}.

Definition Bridge_start (limits : BridgeLimits) (now : Z) : Bridge :=
  {| br_network_to_unix := Direction_start; br_unix_to_network := Direction_start;
     br_network_result := None; br_unix_result := None; br_queued := 0; br_now := now;
     br_idle := now + bl_idle_timeout limits; br_outcome := None |}.

Definition direction (side : BridgeSide) (b : Bridge) : Direction :=
  match side with NetworkToUnix => br_network_to_unix b | UnixToNetwork => br_unix_to_network b end.
Definition side_result (side : BridgeSide) (b : Bridge) : option (relay_result Z) :=
  match side with NetworkToUnix => br_network_result b | UnixToNetwork => br_unix_result b end.

Definition set_direction (side : BridgeSide) (d : Direction) (queued : nat) (b : Bridge) : Bridge :=
  {| br_network_to_unix := match side with NetworkToUnix => d | UnixToNetwork => br_network_to_unix b end;
     br_unix_to_network := match side with NetworkToUnix => br_unix_to_network b | UnixToNetwork => d end;
     br_network_result := br_network_result b; br_unix_result := br_unix_result b;
     br_queued := queued; br_now := br_now b; br_idle := br_idle b; br_outcome := br_outcome b |}.

Definition set_result (side : BridgeSide) (r : relay_result Z) (b : Bridge) : Bridge :=
  {| br_network_to_unix := br_network_to_unix b; br_unix_to_network := br_unix_to_network b;
     br_network_result := match side with NetworkToUnix => Some r | UnixToNetwork => br_network_result b end;
     br_unix_result := match side with NetworkToUnix => br_unix_result b | UnixToNetwork => Some r end;
     br_queued := br_queued b; br_now := br_now b; br_idle := br_idle b; br_outcome := br_outcome b |}.

Definition set_clock (queued : nat) (now idle : Z) (b : Bridge) : Bridge :=
  {| br_network_to_unix := br_network_to_unix b; br_unix_to_network := br_unix_to_network b;
     br_network_result := br_network_result b; br_unix_result := br_unix_result b;
     br_queued := queued; br_now := now; br_idle := idle; br_outcome := br_outcome b |}.

Definition set_outcome (outcome : relay_result BridgeOutcome) (b : Bridge) : Bridge :=
  {| br_network_to_unix := br_network_to_unix b; br_unix_to_network := br_unix_to_network b;
     br_network_result := br_network_result b; br_unix_result := br_unix_result b;
     br_queued := br_queued b; br_now := br_now b; br_idle := br_idle b; br_outcome := Some outcome |}.

(** The tests after the [select!]. *)
Definition settle (b : Bridge) : Bridge :=
  match br_network_result b, br_unix_result b with
  | Some (Err error), _ => set_outcome (Err error) b
  | _, Some (Err error) => set_outcome (Err error) b
  | Some (Ok network_to_unix), Some (Ok unix_to_network) =>
      set_outcome (Ok {| bo_network_to_unix_bytes := network_to_unix;
                         bo_unix_to_network_bytes := unix_to_network |}) b
  | _, _ => b
  end.

(** A direction that waits for a place in the channel gets it when the channel is empty; a
    direction that returns ends the [select!].  [Received]: the branch of the channel, which
    resets the timer; [Idled]: the branch of the timer. *)
Inductive BridgeEvent : Type :=
| Forward (side : BridgeSide) (e : DirectionEvent)
| Received
| Elapsed (nanos : Z)
| Idled.

Definition forwarded (side : BridgeSide) (queued : nat) (b : Bridge) (d : Direction) : Bridge :=
  let b := set_direction side d queued b in
  match dr_point d with
  | Returned result => settle (set_result side result b)
  | _ => b
  end.

Definition bridge_step (limits : BridgeLimits) (e : BridgeEvent) (b : Bridge) : option Bridge :=
  if bool_decide (is_Some (br_outcome b)) then None else
  match e with
  | Forward side ChannelTook =>
      if bool_decide (br_queued b = 0%nat)
      then forwarded side 1 b <$> forward_step limits (side_labels side) ChannelTook (direction side b)
      else None
  | Forward side e => forwarded side (br_queued b) b <$> forward_step limits (side_labels side) e (direction side b)
  | Received =>
      if bool_decide (br_queued b = 0%nat) then None
      else Some (settle (set_clock (br_queued b - 1) (br_now b) (br_now b + bl_idle_timeout limits) b))
  | Elapsed nanos => if nanos <? 0 then None else Some (set_clock (br_queued b) (br_now b + nanos) (br_idle b) b)
  | Idled => if br_now b <? br_idle b then None else Some (set_outcome (Err BridgeIdleTimeout) b)
  end.

Fixpoint run_bridge (limits : BridgeLimits) (es : list BridgeEvent) (b : Bridge) : option Bridge :=
  match es with
  | [] => Some b
  | e :: es => b ← bridge_step limits e b; run_bridge limits es b
  end.

(** ** What runs are made of *)

(** The bytes of a direction that were read and not yet written. *)
Definition in_flight (d : Direction) : list byte :=
  match dr_point d with
  | Announcing chunk => chunk
  | Writing _ rest => rest
  | _ => []
  end.

(** Nothing of the peers: no byte moves, no stream ends. *)
Definition silent (e : BridgeEvent) : bool :=
  match e with
  | Forward _ ChannelTook | Received | Elapsed _ => true
  | _ => false
  end.

(** The time since the activity channel was last read. *)
Fixpoint quiet (since : Z) (es : list BridgeEvent) : Z :=
  match es with
  | [] => since
  | Received :: es => quiet 0 es
  | Elapsed nanos :: es => quiet (since + nanos) es
  | _ :: es => quiet since es
  end.

Definition is_received (e : BridgeEvent) : bool := match e with Received => true | _ => false end.

(** * Facts *)
Section Facts.
Context (limits : BridgeLimits).
Context (buffer_pos : 1 ≤ bl_buffer_bytes limits).

(** The bytes of the current chunk that are written and not yet counted. *)
Definition uncounted (d : Direction) : Z :=
  match dr_point d with
  | Writing chunk rest => len chunk - len rest
  | Announced chunk => len chunk
  | _ => 0
  end.

Definition failed (d : Direction) : bool :=
  match dr_point d with Returned (Ok _) => false | Returned _ => true | _ => false end.

(** One direction: what was written is a prefix of what was read, and unless it failed, the
    rest is in flight, within one buffer, and the count is that of the chunks that were
    written whole. *)
Record direction_ok (d : Direction) : Prop := {
  do_prefix : dr_given d `prefix_of` dr_taken d;
  do_bounded : len (in_flight d) ≤ bl_buffer_bytes limits;
  do_conserved : failed d = false → dr_taken d = dr_given d ++ in_flight d;
  do_count : failed d = false → dr_copied d = (len (dr_given d) - uncounted d) mod 2 ^ 64;
  do_returned : ∀ n, dr_point d = Returned (Ok n) → n = dr_copied d;
}.

Lemma Direction_start_ok : direction_ok Direction_start.
Proof. split; simpl; [done|unfold len; simpl; lia|done|done|done]. Qed.

Lemma forward_step_ok labels e d d' : direction_ok d → forward_step limits labels e d = Some d' → direction_ok d'.
Proof.
  intros [Hpre Hb Hc Hn Hr]. unfold forward_step. unfold in_flight, uncounted, failed in *.
  destruct (dr_point d) as [|chunk|chunk rest|chunk| |r] eqn:Hp, e as [bytes| |count| | |kind]; try done;
    try (specialize (Hc eq_refl); specialize (Hn eq_refl)).
  - destruct (_ || _) eqn:Hg; [done|]. bool_facts. intros [= <-]. rewrite app_nil_r in Hc.
    split; unfold in_flight, uncounted, failed; simpl; try done; [|by rewrite Hc].
    rewrite Hc. by exists bytes.
  - intros [= <-]. split; unfold in_flight, uncounted, failed; simpl; done.
  - intros [= <-]. split; unfold in_flight, uncounted, failed; simpl; done.
  - intros [= <-]. split; unfold in_flight, uncounted, failed; simpl; try done. by rewrite Z.sub_diag.
  - destruct (_ || _) eqn:Hg; [done|]. bool_facts.
    assert (Hl : len (drop count rest) = len rest - Z.of_nat count) by (unfold len; rewrite length_drop; lia).
    assert (Ht : dr_taken d = (dr_given d ++ take count rest) ++ drop count rest)
      by (by rewrite Hc, <-app_assoc, take_drop).
    assert (Hlen : len (dr_given d ++ take count rest) = len (dr_given d) + Z.of_nat count)
      by (unfold len; rewrite length_app, length_take; lia).
    intros [= <-]. case_bool_decide as He; split; unfold in_flight, uncounted, failed; simpl; try done.
    + rewrite Ht. by eexists.
    + unfold len; simpl; lia.
    + intros _. by rewrite Ht, He.
    + intros _. rewrite Hn, Hlen. f_equal. rewrite He in Hl. unfold len in *. simpl in Hl. lia.
    + rewrite Ht. by eexists.
    + lia.
    + intros _. rewrite Hn, Hlen. f_equal. lia.
  - intros [= <-]. split; unfold in_flight, uncounted, failed; simpl; try done. unfold len; simpl; lia.
  - intros [= <-]. split; unfold in_flight, uncounted, failed; simpl; try done.
    intros _. rewrite Hn, Zplus_mod_idemp_l. f_equal. lia.
  - intros [= <-]. split; unfold in_flight, uncounted, failed; simpl; try done. by intros n [= <-].
  - intros [= <-]. split; unfold in_flight, uncounted, failed; simpl; done.
Qed.

(** The bridge: both directions, their results as the loop keeps them, the channel with its
    one place, and the timer. *)
Record bridge_ok (since : Z) (b : Bridge) : Prop := {
  bo_directions : ∀ side, direction_ok (direction side b);
  bo_results : ∀ side r, side_result side b = Some r ↔ dr_point (direction side b) = Returned r;
  bo_queued : (br_queued b ≤ 1)%nat;
  bo_timer : br_now b - (br_idle b - bl_idle_timeout limits) = since;
  bo_since : 0 ≤ since;
  bo_outcome : ∀ o, br_outcome b = Some (Ok o) →
    dr_point (direction NetworkToUnix b) = Returned (Ok (bo_network_to_unix_bytes o))
    ∧ dr_point (direction UnixToNetwork b) = Returned (Ok (bo_unix_to_network_bytes o));
  bo_idled : br_outcome b = Some (Err BridgeIdleTimeout) → br_idle b ≤ br_now b;
}.

Lemma forward_step_error labels e d d' r :
  forward_step limits labels e d = Some d' → dr_point d' = Returned r → r ≠ Err BridgeIdleTimeout ∧ r ≠ Panic.
Proof.
  unfold forward_step. destruct (dr_point d), e; try done; repeat case_match; try done; intros [= <-]; simpl; try done;
    by intros [= <-].
Qed.

(** No result the loop keeps is an idle timeout. *)
Definition results_clean (b : Bridge) : Prop :=
  ∀ side r, side_result side b = Some r → r ≠ Err BridgeIdleTimeout ∧ r ≠ Panic.

Lemma settle_ok since b :
  br_outcome b = None → results_clean b → bridge_ok since b → bridge_ok since (settle b).
Proof.
  intros Ho Hcl [Hd Hr Hq Ht Hs Hout Hid].
  assert (Hset : ∀ o, (∀ x, o = Ok x → dr_point (direction NetworkToUnix b) = Returned (Ok (bo_network_to_unix_bytes x))
             ∧ dr_point (direction UnixToNetwork b) = Returned (Ok (bo_unix_to_network_bytes x))) →
             o ≠ Err BridgeIdleTimeout → bridge_ok since (set_outcome o b)).
  { intros o Hok Hne. split; try done.
    - intros x [= Hx]. by apply Hok.
    - intros [= Hx]. done. }
  pose proof (Hr NetworkToUnix) as HrN. pose proof (Hr UnixToNetwork) as HrU.
  pose proof (Hcl NetworkToUnix) as HcN. pose proof (Hcl UnixToNetwork) as HcU. simpl in HrN, HrU, HcN, HcU.
  unfold settle. destruct (br_network_result b) as [[n|e|]|] eqn:En; destruct (br_unix_result b) as [[u|e'|]|] eqn:Eu;
    try (by split); apply Hset; try done;
    try (by intros [= ->]; destruct (HcN _ eq_refl)); try (by intros [= ->]; destruct (HcU _ eq_refl)).
  intros x [= <-]. simpl. split; [by apply HrN|by apply HrU].
Qed.

Lemma settle_frame b :
  br_queued (settle b) = br_queued b ∧ br_now (settle b) = br_now b ∧ br_idle (settle b) = br_idle b
  ∧ ∀ side, direction side (settle b) = direction side b ∧ side_result side (settle b) = side_result side b.
Proof.
  unfold settle. destruct (br_network_result b) as [[]|]; destruct (br_unix_result b) as [[]|]; split_and!; try done; by intros [].
Qed.

Definition next_since (since : Z) (e : BridgeEvent) : Z := quiet since [e].

Lemma bridge_step_ok since e b b' :
  bridge_ok since b → results_clean b → bridge_step limits e b = Some b' →
  bridge_ok (next_since since e) b' ∧ results_clean b' ∧ br_outcome b = None.
Proof.
  intros Hok Hcl. unfold bridge_step. case_bool_decide as Ho; [done|].
  assert (Hon : br_outcome b = None) by (destruct (br_outcome b); [exfalso; eauto|done]).
  assert (Hfwd : ∀ side de queued d', (queued ≤ 1)%nat → forward_step limits (side_labels side) de (direction side b) = Some d' →
            bridge_ok since (forwarded side queued b d') ∧ results_clean (forwarded side queued b d')).
  { intros side de queued d' Hq Hd. pose proof Hok as [Hdir Hr _ Ht Hs Hout Hid].
    assert (Hnone : side_result side b = None).
    { destruct (side_result side b) as [r|] eqn:Hsr; [|done]. apply Hr in Hsr. unfold forward_step in Hd. by rewrite Hsr in Hd. }
    assert (Hd' : direction_ok d') by (eapply forward_step_ok; [apply Hdir|done]).
    set (b1 := set_direction side d' queued b).
    assert (Hb1 : ∀ s, direction s b1 = (if bool_decide (s = side) then d' else direction s b) ∧ side_result s b1 = side_result s b).
    { intros s. unfold b1. destruct s, side; split; try done. }
    unfold forwarded. fold b1. destruct (dr_point d') as [| | | | |r] eqn:Hp.
    6: { set (b2 := set_result side r b1).
         assert (Hb2 : ∀ s, direction s b2 = direction s b1 ∧ side_result s b2 = (if bool_decide (s = side) then Some r else side_result s b)).
         { intros s. unfold b2, b1. destruct s, side; split; done. }
         destruct (forward_step_error _ _ _ _ _ Hd Hp) as [Hne Hnp].
         assert (Hcl2 : results_clean b2).
         { intros s r' Hs'. destruct (Hb2 s) as [_ Hx]. rewrite Hx in Hs'. case_bool_decide; [by injection Hs' as <-|by eapply Hcl]. }
         split; [apply settle_ok; [done|done|]|].
         - split; try done.
           + intros s. destruct (Hb2 s) as [-> _]. destruct (Hb1 s) as [-> _]. by case_bool_decide.
           + intros s r'. destruct (Hb2 s) as [-> ->]. destruct (Hb1 s) as [-> _]. case_bool_decide; [|apply Hr].
             rewrite Hp. naive_solver.
           + intros o Hx. exfalso. simpl in Hx. congruence.
         - intros s r' Hs'. destruct (settle_frame b2) as (_ & _ & _ & Hf). destruct (Hf s) as [_ Hx]. rewrite Hx in Hs'. by eapply Hcl2. }
    all: (split; [split; try done|intros s r' Hs'; destruct (Hb1 s) as [_ Hx]; rewrite Hx in Hs'; by eapply Hcl]).
    all: try (intros s; destruct (Hb1 s) as [-> _]; by case_bool_decide).
    all: try (intros s r'; destruct (Hb1 s) as [-> ->]; case_bool_decide as Hs0; [subst s; rewrite Hnone, Hp; done|apply Hr]).
    all: intros o Hx; exfalso; simpl in Hx; congruence. }
  destruct e as [side de| |nanos|]; simpl.
  - intros Hstep. assert (Hx : ∃ queued d', (queued ≤ 1)%nat ∧ forward_step limits (side_labels side) de (direction side b) = Some d'
                      ∧ b' = forwarded side queued b d').
    { destruct Hok as [_ _ Hq _ _ _ _]. destruct de; try (apply fmap_Some in Hstep as (d' & Hd & ->); by exists (br_queued b), d').
      case_bool_decide; [|done]. apply fmap_Some in Hstep as (d' & Hd & ->). exists 1%nat, d'. split_and!; [lia|done|done]. }
    destruct Hx as (queued & d' & Hq & Hd & ->). by destruct (Hfwd side de queued d' Hq Hd) as [? ?].
  - case_bool_decide as Hq0; [done|]. intros [= <-]. unfold next_since. simpl.
    assert (Hcl2 : results_clean (set_clock (br_queued b - 1) (br_now b) (br_now b + bl_idle_timeout limits) b))
      by (intros s r' Hs'; apply (Hcl s r'); by destruct s).
    split; [|split; [|done]].
    + apply settle_ok; [done|done|]. destruct Hok as [Hd Hr Hq Ht Hs Hout Hid].
      split; try done; try (by intros []); simpl; try lia; try (intros o Hx; exfalso; congruence); try (intros Hx; exfalso; congruence).
    + intros s r' Hs'. destruct (settle_frame (set_clock (br_queued b - 1) (br_now b) (br_now b + bl_idle_timeout limits) b)) as (_ & _ & _ & Hf).
      destruct (Hf s) as [_ Hx]. rewrite Hx in Hs'. by eapply Hcl2.
  - destruct (Z.ltb_spec nanos 0); [done|]. intros [= <-]. unfold next_since. simpl.
    split; [|split; [|done]].
    + destruct Hok as [Hd Hr Hq Ht Hs Hout Hid]. split; try done; simpl; try lia; try (intros o Hx; exfalso; congruence);
        try (intros Hx; exfalso; congruence).
    + intros s r' Hs'; apply (Hcl s r'); by destruct s.
  - destruct (Z.ltb_spec (br_now b) (br_idle b)); [done|]. intros [= <-]. unfold next_since. simpl.
    split; [|split; [|done]].
    + destruct Hok as [Hd Hr Hq Ht Hs Hout Hid]. split; done.
    + intros s r' Hs'; apply (Hcl s r'); by destruct s.
Qed.

Lemma Bridge_start_ok now : 0 ≤ bl_idle_timeout limits → bridge_ok 0 (Bridge_start limits now) ∧ results_clean (Bridge_start limits now).
Proof.
  intros Ht. split.
  - split; try done; simpl; [by intros []; apply Direction_start_ok|by intros [] r; simpl|lia|lia].
  - by intros [] r.
Qed.

Lemma run_bridge_ok es since b b' :
  bridge_ok since b → results_clean b → run_bridge limits es b = Some b' → bridge_ok (quiet since es) b'.
Proof.
  revert since b. induction es as [|e es IH]; intros since b Hok Hcl; simpl; [by intros [= <-]|].
  intros (b1 & Hstep & Hrun)%bind_Some. destruct (bridge_step_ok _ _ _ _ Hok Hcl Hstep) as (Hok1 & Hcl1 & _).
  specialize (IH _ _ Hok1 Hcl1 Hrun). by destruct e.
Qed.

(** How often the channel can still be read before a peer has to move. *)
Definition waiting (d : Direction) : nat :=
  match dr_point d with Announcing _ | Announced _ => 1 | _ => 0 end.
Definition receipts (b : Bridge) : nat :=
  br_queued b + waiting (br_network_to_unix b) + waiting (br_unix_to_network b).

Lemma settle_receipts b : receipts (settle b) = receipts b.
Proof.
  unfold receipts. destruct (settle_frame b) as (Hq & _ & _ & Hf).
  pose proof (proj1 (Hf NetworkToUnix)) as H1. pose proof (proj1 (Hf UnixToNetwork)) as H2. simpl in H1, H2. by rewrite Hq, H1, H2.
Qed.

Lemma silent_step_receipts e b b' :
  silent e = true → bridge_step limits e b = Some b' →
  receipts b = (receipts b' + if is_received e then 1 else 0)%nat.
Proof.
  unfold bridge_step. intros Hs. case_bool_decide; [done|]. destruct e as [side de| |nanos|]; try done.
  - destruct de; try done. case_bool_decide as Hq; [|done]. intros (d' & Hd & ->)%fmap_Some. simpl. rewrite Nat.add_0_r.
    unfold forward_step in Hd. destruct (dr_point (direction side b)) as [|chunk| |chunk| |] eqn:Hp; try done; injection Hd as <-;
      unfold forwarded; simpl; unfold receipts, set_direction; destruct side; simpl in *; unfold waiting; simpl; rewrite Hp, Hq; lia.
  - case_bool_decide as Hq; [done|]. intros [= <-]. rewrite settle_receipts. unfold receipts. simpl. lia.
  - destruct (nanos <? 0); [done|]. intros [= <-]. simpl. unfold receipts. simpl. lia.
Qed.

Lemma silent_run_receipts es b b' :
  forallb silent es = true → run_bridge limits es b = Some b' →
  receipts b = (receipts b' + length (List.filter is_received es))%nat.
Proof.
  revert b. induction es as [|e es IH]; intros b; simpl; [by intros _ [= <-]|].
  intros [He Hes]%andb_true_iff (b1 & Hstep & Hrun)%bind_Some.
  rewrite (silent_step_receipts _ _ _ He Hstep), (IH _ Hes Hrun). destruct (is_received e); simpl; lia.
Qed.

(** A direction that waits for the channel is not stuck: it can be let in, or the loop can
    make room. *)
Lemma waiting_moves since b side :
  bridge_ok since b → br_outcome b = None → waiting (direction side b) = 1%nat →
  is_Some (bridge_step limits (Forward side ChannelTook) b) ∨ is_Some (bridge_step limits Received b).
Proof.
  intros Hok Ho Hw. unfold bridge_step. rewrite Ho, bool_decide_eq_false_2 by (by intros [? ?]).
  destruct (decide (br_queued b = 0%nat)) as [Hq|Hq].
  - left. rewrite bool_decide_eq_true_2 by done. apply fmap_is_Some. unfold forward_step, waiting in *.
    destruct (dr_point (direction side b)); try done; by eexists.
  - right. rewrite bool_decide_eq_false_2 by done. by eexists.
Qed.
End Facts.

Lemma BridgeLimits_new_Ok n t limits :
  0 ≤ n → 0 ≤ t → BridgeLimits_new n t = Ok limits →
  limits = {| bl_buffer_bytes := n; bl_idle_timeout := t |} ∧ 1 ≤ n ≤ QRM_BUFFER_BYTES ∧ 0 < t.
Proof.
  intros Hn Ht. unfold BridgeLimits_new. destruct (_ || _) eqn:H1; [done|]. destruct ((t =? 0) || _) eqn:H2; [done|].
  intros <-%Ok_inj. bool_facts. split; [done|]. lia.
Qed.

(** * Properties *)

(** C25. The bridge is transparent and bounded.  Whatever the two peers and the scheduler do:
    at any moment what was written to one side is, byte for byte, the beginning of what was
    read from the other, the rest is in flight unless the direction failed, and never exceeds
    one buffer of the configured size, itself at most the fixed limit.  When the bridge
    ends well, both directions have delivered everything they read, and the counts it reports
    are the numbers of those bytes.  When it ends for idleness, the activity channel was not
    read for the configured time. *)
Theorem bridge_transparent n t limits now es b :
  0 ≤ n → 0 ≤ t → BridgeLimits_new n t = Ok limits → run_bridge limits es (Bridge_start limits now) = Some b →
  n ≤ QRM_BUFFER_BYTES
  ∧ (∀ side, let d := direction side b in
       dr_given d `prefix_of` dr_taken d ∧ len (in_flight d) ≤ n
       ∧ (failed d = false → dr_taken d = dr_given d ++ in_flight d))
  ∧ (∀ o, br_outcome b = Some (Ok o) →
       (∀ side, dr_given (direction side b) = dr_taken (direction side b))
       ∧ bo_network_to_unix_bytes o = len (dr_taken (br_network_to_unix b)) mod 2 ^ 64
       ∧ bo_unix_to_network_bytes o = len (dr_taken (br_unix_to_network b)) mod 2 ^ 64)
  ∧ (br_outcome b = Some (Err BridgeIdleTimeout) → t ≤ quiet 0 es).
Proof.
  intros Hn Ht Hnew Hrun. apply BridgeLimits_new_Ok in Hnew as (-> & Hb & Htp); [|done..].
  set (limits := {| bl_buffer_bytes := n; bl_idle_timeout := t |}) in *.
  destruct (Bridge_start_ok limits ltac:(simpl; lia) now ltac:(simpl; lia)) as [H0 Hc0].
  pose proof (run_bridge_ok limits ltac:(simpl; lia) es 0 _ _ H0 Hc0 Hrun) as [Hd Hr Hq Htm Hs Hout Hid].
  split; [lia|]. split; [|split].
  - intros side. destruct (Hd side) as [Hp Hbd Hc _ _]. done.
  - intros o Ho. apply Hout in Ho as [Hn1 Hu1].
    assert (Hfull : ∀ side k, dr_point (direction side b) = Returned (Ok k) →
              dr_given (direction side b) = dr_taken (direction side b)
              ∧ k = len (dr_taken (direction side b)) mod 2 ^ 64).
    { intros side k Hk. destruct (Hd side) as [_ _ Hc Hcount Hret]. unfold failed, in_flight, uncounted in *. rewrite Hk in *.
      specialize (Hc eq_refl). specialize (Hcount eq_refl). rewrite app_nil_r in Hc. rewrite Hc. split; [done|].
      rewrite (Hret k eq_refl), Hcount. by rewrite Z.sub_0_r. }
    destruct (Hfull _ _ Hn1) as [Hg1 Hk1]. destruct (Hfull _ _ Hu1) as [Hg2 Hk2]. split; [by intros []|done].
  - intros Hx%Hid. simpl in Htm. lia.
Qed.

(** C26. A bridge cannot hang.  While it has not ended: a direction that waits for the activity
    channel can go on at once or after the loop makes room; as long as the peers are silent
    (no byte moves, no stream ends) the idle timer is reset at most three times, whatever the
    order of events; and as soon as the configured time has passed since the channel was last
    read, the timer ends the bridge. *)
Theorem bridge_ends n t limits now es b :
  0 ≤ n → 0 ≤ t → BridgeLimits_new n t = Ok limits → run_bridge limits es (Bridge_start limits now) = Some b →
  br_outcome b = None →
  (∀ side, waiting (direction side b) = 1%nat →
     is_Some (bridge_step limits (Forward side ChannelTook) b) ∨ is_Some (bridge_step limits Received b))
  ∧ (∀ silence b', forallb silent silence = true → run_bridge limits silence b = Some b' →
       (length (List.filter is_received silence) ≤ 3)%nat)
  ∧ (t ≤ quiet 0 es → bridge_step limits Idled b = Some (set_outcome (Err BridgeIdleTimeout) b)).
Proof.
  intros Hn Ht Hnew Hrun Ho. apply BridgeLimits_new_Ok in Hnew as (-> & Hb & Htp); [|done..].
  set (limits := {| bl_buffer_bytes := n; bl_idle_timeout := t |}) in *.
  destruct (Bridge_start_ok limits ltac:(simpl; lia) now ltac:(simpl; lia)) as [H0 Hc0].
  pose proof (run_bridge_ok limits ltac:(simpl; lia) es 0 _ _ H0 Hc0 Hrun) as Hok.
  split; [|split].
  - intros side. by apply (waiting_moves limits _ _ _ Hok).
  - intros silence b' Hs Hr. apply silent_run_receipts in Hr; [|done]. destruct Hok as [_ _ Hq _ _ _ _].
    assert (receipts b ≤ 3)%nat; [|lia]. unfold receipts, waiting. repeat case_match; lia.
  - intros Hq. unfold bridge_step. rewrite Ho, bool_decide_eq_false_2 by (by intros [? ?]).
    destruct Hok as [_ _ _ Htm _ _ _]. simpl in Htm. by rewrite (proj2 (Z.ltb_ge _ _)) by lia.
Qed.

Definition example_exchange : list BridgeEvent :=
  [Forward NetworkToUnix (ReadBytes (str_lit "hello")); Forward UnixToNetwork ReadEnd; Forward NetworkToUnix ChannelTook;
   Received; Forward NetworkToUnix (WroteBytes 2); Elapsed 7].
Definition example_end : list BridgeEvent :=
  [Forward NetworkToUnix (WroteBytes 3); Forward NetworkToUnix ChannelTook; Forward NetworkToUnix ReadEnd;
   Forward UnixToNetwork ShutDone; Forward NetworkToUnix ShutDone].

Lemma bridge_transparent_witness :
  ∃ b, run_bridge BridgeLimits_v1 (example_exchange ++ example_end) (Bridge_start BridgeLimits_v1 0) = Some b
    ∧ br_outcome b = Some (Ok {| bo_network_to_unix_bytes := 5; bo_unix_to_network_bytes := 0 |})
    ∧ dr_given (br_network_to_unix b) = dr_taken (br_network_to_unix b)
    ∧ dr_given (br_network_to_unix b) = str_lit "hello".
Proof.
  pose proof (bridge_transparent QRM_BUFFER_BYTES (QRM_IDLE_TIMEOUT_SECS * nanos_per_sec) BridgeLimits_v1 0
    (example_exchange ++ example_end)) as H.
  destruct (run_bridge BridgeLimits_v1 (example_exchange ++ example_end) (Bridge_start BridgeLimits_v1 0)) as [b|] eqn:Hr;
    [|vm_compute in Hr; discriminate].
  specialize (H b ltac:(vm_compute; discriminate) ltac:(vm_compute; discriminate) eq_refl eq_refl) as (_ & _ & Hout & _).
  exists b. split; [reflexivity|]. assert (Hb : br_outcome b = Some (Ok {| bo_network_to_unix_bytes := 5; bo_unix_to_network_bytes := 0 |})
    ∧ dr_given (br_network_to_unix b) = str_lit "hello") by (vm_compute in Hr; injection Hr as <-; split; reflexivity).
  destruct Hb as [Ho Hg]. split; [exact Ho|]. split; [exact (proj1 (Hout _ Ho) NetworkToUnix)|exact Hg].
Defined.

Lemma bridge_ends_witness :
  ∃ b, run_bridge BridgeLimits_v1 (example_exchange ++ [Elapsed (900 * nanos_per_sec)]) (Bridge_start BridgeLimits_v1 0) = Some b
    ∧ bridge_step BridgeLimits_v1 Idled b = Some (set_outcome (Err BridgeIdleTimeout) b).
Proof.
  pose proof (bridge_ends QRM_BUFFER_BYTES (QRM_IDLE_TIMEOUT_SECS * nanos_per_sec) BridgeLimits_v1 0
    (example_exchange ++ [Elapsed (900 * nanos_per_sec)])) as H.
  destruct (run_bridge BridgeLimits_v1 (example_exchange ++ [Elapsed (900 * nanos_per_sec)]) (Bridge_start BridgeLimits_v1 0)) as [b|] eqn:Hr;
    [|vm_compute in Hr; discriminate].
  assert (Hb : br_outcome b = None) by (vm_compute in Hr; injection Hr as <-; reflexivity).
  specialize (H b ltac:(vm_compute; discriminate) ltac:(vm_compute; discriminate) eq_refl eq_refl Hb) as (_ & _ & Hidle).
  exists b. split; [reflexivity|]. apply Hidle. vm_compute. discriminate.
Defined.
