(* ===== verification/QrmStreams.v ===== *)
(** * The session streams of the QRM server (src/src/quic_server.rs, serve_session_stream)

    The stream tasks of one connection share its session registry, the map of the cancel
    senders and the connection itself.  A task runs without interruption from one use of a
    lock, or one other await point, to the next; [QrmTask] has a constructor per such point,
    and a task that is told to stop leaves the points where the code selects on its receiver.
    The bridge of a session is the [Bridge] of src/src/bridge.rs. *)
From S2P Require Import IrohRelay.
From S2P Require Export SessionOwners Bridge.

Inductive QrmTask : Type :=
| ReadingBinding
| BindingUnread
| AuthorityRefused (binding : HdqsBinding) (response : HdqsResponse)
| AuthorityAccepted (binding : HdqsBinding) (response : HdqsResponse)
| ControlRegistered (binding : HdqsBinding) (response : HdqsResponse)
| ConnectingSocket (binding : HdqsBinding) (response : HdqsResponse) (connector : UnixSocketConnector)
| SocketUnreachable (binding : HdqsBinding) (response : HdqsResponse)
| WritingAcceptance (binding : HdqsBinding) (response : HdqsResponse)
| AcceptanceWritten (binding : HdqsBinding)
| Forwarding (binding : HdqsBinding) (bridge : Bridge)
| RemovingControl (binding : HdqsBinding)
| ClosingSession (binding : HdqsBinding).

(** [qs_controls]: the task whose receiver the sender of a handle resolves; [qs_unjoined]: the
    tasks that ended and that the loop has not joined; [qs_closed]: the connection was closed.
    [qs_replies] are the responses written to the streams; [qs_tokens] and [qs_reused] only
    record the tokens drawn and the handles that were given out while a task of an earlier
    session with that handle had not ended. *)
Record QrmSessions : Type := {
  qs_registry : SessionRegistry;
  qs_controls : gmap Z nat;
  qs_tasks : gmap nat QrmTask;
  qs_next : nat;
  qs_unjoined : nat;
  qs_closed : bool;
  qs_replies : list (nat * HdqsResponse);
  qs_tokens : list (list byte);
  qs_reused : list Z;
}.

Definition qs_set_registry (r : SessionRegistry) (s : QrmSessions) : QrmSessions :=
  {| qs_registry := r; qs_controls := qs_controls s; qs_tasks := qs_tasks s; qs_next := qs_next s;
     qs_unjoined := qs_unjoined s; qs_closed := qs_closed s; qs_replies := qs_replies s;
     qs_tokens := qs_tokens s; qs_reused := qs_reused s |}.
Definition qs_set_controls (m : gmap Z nat) (s : QrmSessions) : QrmSessions :=
  {| qs_registry := qs_registry s; qs_controls := m; qs_tasks := qs_tasks s; qs_next := qs_next s;
     qs_unjoined := qs_unjoined s; qs_closed := qs_closed s; qs_replies := qs_replies s;
     qs_tokens := qs_tokens s; qs_reused := qs_reused s |}.
Definition qs_set_tasks (t : gmap nat QrmTask) (unjoined : nat) (s : QrmSessions) : QrmSessions :=
  {| qs_registry := qs_registry s; qs_controls := qs_controls s; qs_tasks := t; qs_next := qs_next s;
     qs_unjoined := unjoined; qs_closed := qs_closed s; qs_replies := qs_replies s;
     qs_tokens := qs_tokens s; qs_reused := qs_reused s |}.
Definition qs_close_connection (s : QrmSessions) : QrmSessions :=
  {| qs_registry := qs_registry s; qs_controls := qs_controls s; qs_tasks := qs_tasks s; qs_next := qs_next s;
     qs_unjoined := qs_unjoined s; qs_closed := true; qs_replies := qs_replies s;
     qs_tokens := qs_tokens s; qs_reused := qs_reused s |}.
Definition qs_reply (id : nat) (response : HdqsResponse) (s : QrmSessions) : QrmSessions :=
  {| qs_registry := qs_registry s; qs_controls := qs_controls s; qs_tasks := qs_tasks s; qs_next := qs_next s;
     qs_unjoined := qs_unjoined s; qs_closed := qs_closed s; qs_replies := qs_replies s ++ [(id, response)];
     qs_tokens := qs_tokens s; qs_reused := qs_reused s |}.
Definition qs_draw (token : list byte) (s : QrmSessions) : QrmSessions :=
  {| qs_registry := qs_registry s; qs_controls := qs_controls s; qs_tasks := qs_tasks s; qs_next := qs_next s;
     qs_unjoined := qs_unjoined s; qs_closed := qs_closed s; qs_replies := qs_replies s;
     qs_tokens := token :: qs_tokens s; qs_reused := qs_reused s |}.
Definition qs_reuse (handles : list Z) (s : QrmSessions) : QrmSessions :=
  {| qs_registry := qs_registry s; qs_controls := qs_controls s; qs_tasks := qs_tasks s; qs_next := qs_next s;
     qs_unjoined := qs_unjoined s; qs_closed := qs_closed s; qs_replies := qs_replies s;
     qs_tokens := qs_tokens s; qs_reused := handles ++ qs_reused s |}.
(** [session_tasks.spawn(..)]. *)
Definition qs_spawn (s : QrmSessions) : QrmSessions :=
  {| qs_registry := qs_registry s; qs_controls := qs_controls s;
     qs_tasks := <[qs_next s := ReadingBinding]> (qs_tasks s); qs_next := S (qs_next s);
     qs_unjoined := qs_unjoined s; qs_closed := qs_closed s; qs_replies := qs_replies s;
     qs_tokens := qs_tokens s; qs_reused := qs_reused s |}.

Definition go_on (id : nat) (t : QrmTask) (s : QrmSessions) : QrmSessions :=
  qs_set_tasks (<[id := t]> (qs_tasks s)) (qs_unjoined s) s.
Definition end_task (id : nat) (s : QrmSessions) : QrmSessions :=
  qs_set_tasks (delete id (qs_tasks s)) (S (qs_unjoined s)) s.
(** A response the peer is sent; whether the write succeeds does not matter to the rest. *)
Definition reply_if (written : bool) (id : nat) (response : HdqsResponse) (s : QrmSessions) : QrmSessions :=
  if written then qs_reply id response s else s.

(** ** The socket of a session

    [xdg] and [home] are the variables XDG_CONFIG_HOME and HOME, when they are set. *)
Definition socket_path (socket_override : option path) (xdg home : option (list byte)) (session : SessionName) : path :=
  match socket_override with
  | Some p => p
  | None =>
      let root :=
        path_join
          match xdg, home with
          | Some dir, _ => components dir
          | None, Some dir => path_join (components dir) (str_lit ".config")
          | None, None => components (str_lit ".")
          end (str_lit "herdr") in
      if bool_decide (session = str_lit "default") then path_join root (str_lit "herdr.sock")
      else path_join (path_join (path_join root (str_lit "sessions")) session) (str_lit "herdr.sock")
  end.

(** What a task finds on the way to the socket: the look-ups, the connection and whether the
    handshake timeout passes first. *)
Record SocketIo : Type := {
  sk_sees : nat → path → Node + string;
  sk_connection : unit + string;
  sk_expires : bool;
}.

Section Streams.
Context (config : RelayConfig) (socket_override : option path) (xdg home : option (list byte)).

Definition session_connector (uid : option Z) (session : SessionName) : relay_result UnixSocketConnector :=
  uid ← ok_or uid ConfigurationRead;
  UnixSocketConnector_new (socket_path socket_override xdg home session) uid.

(** [timeout(self.handshake_timeout(), connector.connect())] gives a stream. *)
Definition socket_connected (io : SocketIo) (connector : UnixSocketConnector) : bool :=
  negb (sk_expires io) && is_ok (connect (sk_sees io) connector (sk_connection io) 0%nat).2.

Definition session_limits : relay_result BridgeLimits :=
  BridgeLimits_new (rl_buffer_bytes (cf_limits config)) (rl_idle_timeout_secs (cf_limits config) * nanos_per_sec).

(** ** From one await point to the next *)

(** The binding was not read: [reject_invalid_stream], and then the connection is closed. *)
Definition stream_unread (id : nat) (written : bool) (s : QrmSessions) : QrmSessions :=
  go_on id BindingUnread
    (reply_if written id (HdqsResponse_rejected InvalidFrame (sr_connection_epoch (qs_registry s))) s).
Definition stream_invalid (id : nat) (s : QrmSessions) : QrmSessions := qs_close_connection (end_task id s).

(** [registry.lock().await.accept_active(&binding)]. *)
Definition stream_accept (id : nat) (binding : HdqsBinding) (now : Z) (s : QrmSessions) : QrmSessions :=
  let '(registry, response) := accept_active (qs_registry s) now binding in
  go_on id (if bool_decide (hr_kind response = Rejected) then AuthorityRefused binding response
            else AuthorityAccepted binding response)
    (qs_set_registry registry s).

(** [reject_session(.., false)]. *)
Definition stream_refuse (id : nat) (binding : HdqsBinding) (response : HdqsResponse) (written : bool) (s : QrmSessions)
  : QrmSessions :=
  end_task id (reply_if written id response (qs_set_registry (close_unbound_if_exact (qs_registry s) binding).1 s)).

(** [session_controls.lock().await.insert(..)]. *)
Definition stream_register (id : nat) (binding : HdqsBinding) (response : HdqsResponse) (s : QrmSessions) : QrmSessions :=
  go_on id (ControlRegistered binding response) (qs_set_controls (<[hb_session_handle binding := id]> (qs_controls s)) s).

(** [active_bound_exact], and then the connector. *)
Definition stream_check (id : nat) (binding : HdqsBinding) (response : HdqsResponse) (now : Z) (uid : option Z)
    (s : QrmSessions) : QrmSessions :=
  if negb (active_bound_exact (qs_registry s) now binding) then go_on id (RemovingControl binding) s else
  match session_connector uid (hb_session binding) with
  | Ok connector => go_on id (ConnectingSocket binding response connector) s
  | _ => go_on id (SocketUnreachable binding response) s
  end.

(** The branch of [timeout(.., connector.connect())], and then the encoding of the acceptance. *)
Definition stream_connect (id : nat) (binding : HdqsBinding) (response : HdqsResponse) (connector : UnixSocketConnector)
    (io : SocketIo) (s : QrmSessions) : QrmSessions :=
  if negb (socket_connected io connector) then go_on id (SocketUnreachable binding response) s else
  match HdqsResponse_encode response with
  | Ok _ => go_on id (WritingAcceptance binding response) s
  | _ => end_task id s
  end.

(** [reject_session(.., true)]. *)
Definition stream_unreachable (id : nat) (binding : HdqsBinding) (response : HdqsResponse) (written : bool)
    (s : QrmSessions) : QrmSessions :=
  go_on id (RemovingControl binding)
    (reply_if written id (HdqsResponse_rejected SocketUnavailable (hr_connection_epoch response))
       (qs_set_registry (close_exact (qs_registry s) binding).1 s)).

(** The branch of [send.write_all(&encoded_accept)]. *)
Definition stream_write (id : nat) (binding : HdqsBinding) (response : HdqsResponse) (written : bool) (s : QrmSessions)
  : QrmSessions :=
  if written then go_on id (AcceptanceWritten binding) (qs_reply id response s)
  else go_on id (RemovingControl binding) s.

(** The second [active_bound_exact], and then the bridge. *)
Definition stream_recheck (id : nat) (binding : HdqsBinding) (now : Z) (s : QrmSessions) : QrmSessions :=
  if negb (active_bound_exact (qs_registry s) now binding) then go_on id (RemovingControl binding) s else
  match session_limits with
  | Ok limits => go_on id (Forwarding binding (Bridge_start limits now)) s
  | _ => end_task id s
  end.

(** [lease_tick]. *)
Definition stream_tick (id : nat) (binding : HdqsBinding) (now : Z) (s : QrmSessions) : QrmSessions :=
  if active_bound_exact (qs_registry s) now binding then s else go_on id (RemovingControl binding) s.

(** [finish_session_control]. *)
Definition stream_remove_control (id : nat) (binding : HdqsBinding) (s : QrmSessions) : QrmSessions :=
  go_on id (ClosingSession binding) (qs_set_controls (delete (hb_session_handle binding) (qs_controls s)) s).
Definition stream_close (id : nat) (binding : HdqsBinding) (s : QrmSessions) : QrmSessions :=
  end_task id (qs_set_registry (close (qs_registry s) (hb_session_handle binding)).1 s).

(** The receiver of task [id] has resolved: its sender was taken out of the map. *)
Definition told_to_stop (s : QrmSessions) (id : nat) (binding : HdqsBinding) : Prop :=
  qs_controls s !! hb_session_handle binding ≠ Some id.

(** The session a task is the owner of, from the acceptance of its authority to its end. *)
Definition task_binding (t : QrmTask) : option HdqsBinding :=
  match t with
  | ReadingBinding | BindingUnread | AuthorityRefused _ _ => None
  | AuthorityAccepted binding _ | ControlRegistered binding _ | ConnectingSocket binding _ _
  | SocketUnreachable binding _ | WritingAcceptance binding _ | AcceptanceWritten binding
  | Forwarding binding _ | RemovingControl binding | ClosingSession binding => Some binding
  end.

(** The points at which a task selects on its receiver. *)
Definition cancellable (t : QrmTask) : option HdqsBinding :=
  match t with
  | ConnectingSocket binding _ _ | WritingAcceptance binding _ | Forwarding binding _ => Some binding
  | _ => None
  end.

Inductive stream_step (id : nat) (s : QrmSessions) : QrmSessions → Prop :=
| task_unread written : qs_tasks s !! id = Some ReadingBinding → stream_step id s (stream_unread id written s)
| task_invalid : qs_tasks s !! id = Some BindingUnread → stream_step id s (stream_invalid id s)
| task_accept binding now :
    qs_tasks s !! id = Some ReadingBinding → HdqsBinding_valid binding →
    stream_step id s (stream_accept id binding now s)
| task_refuse binding response written :
    qs_tasks s !! id = Some (AuthorityRefused binding response) →
    stream_step id s (stream_refuse id binding response written s)
| task_register binding response :
    qs_tasks s !! id = Some (AuthorityAccepted binding response) →
    stream_step id s (stream_register id binding response s)
| task_check binding response now uid :
    qs_tasks s !! id = Some (ControlRegistered binding response) →
    stream_step id s (stream_check id binding response now uid s)
| task_connect binding response connector io :
    qs_tasks s !! id = Some (ConnectingSocket binding response connector) →
    stream_step id s (stream_connect id binding response connector io s)
| task_unreachable binding response written :
    qs_tasks s !! id = Some (SocketUnreachable binding response) →
    stream_step id s (stream_unreachable id binding response written s)
| task_write binding response written :
    qs_tasks s !! id = Some (WritingAcceptance binding response) →
    stream_step id s (stream_write id binding response written s)
| task_recheck binding now :
    qs_tasks s !! id = Some (AcceptanceWritten binding) → stream_step id s (stream_recheck id binding now s)
| task_forward binding bridge limits e bridge' :
    qs_tasks s !! id = Some (Forwarding binding bridge) → session_limits = Ok limits →
    bridge_step limits e bridge = Some bridge' →
    stream_step id s (go_on id (Forwarding binding bridge') s)
| task_bridged binding bridge :
    qs_tasks s !! id = Some (Forwarding binding bridge) → is_Some (br_outcome bridge) →
    stream_step id s (go_on id (RemovingControl binding) s)
| task_tick binding bridge now :
    qs_tasks s !! id = Some (Forwarding binding bridge) → stream_step id s (stream_tick id binding now s)
| task_cancelled t binding :
    qs_tasks s !! id = Some t → cancellable t = Some binding → told_to_stop s id binding →
    stream_step id s (go_on id (RemovingControl binding) s)
| task_remove_control binding :
    qs_tasks s !! id = Some (RemovingControl binding) → stream_step id s (stream_remove_control id binding s)
| task_close binding :
    qs_tasks s !! id = Some (ClosingSession binding) → stream_step id s (stream_close id binding s).
End Streams.

(** * Facts *)

(** The tasks past their first look at the registry. *)
Definition checked_binding (t : QrmTask) : option HdqsBinding :=
  match t with
  | ConnectingSocket binding _ _ | SocketUnreachable binding _ | WritingAcceptance binding _
  | AcceptanceWritten binding | Forwarding binding _ => Some binding
  | _ => None
  end.

(** The responses the tasks carry are acceptances. *)
Definition task_ok (t : QrmTask) : Prop :=
  match t with
  | AuthorityAccepted _ response | ControlRegistered _ response | ConnectingSocket _ response _ =>
      ∃ handle epoch, handle ≠ 0 ∧ response = HdqsResponse_accepted handle epoch
  | _ => True
  end.

Definition session_live (r : SessionRegistry) (b : HdqsBinding) : Prop :=
  ∃ a, sr_active r !! hb_session_handle b = Some a ∧ as_bound a = true ∧ names_exactly b a.

(** A checked task has its session, or was told to stop, or is about to be told. *)
Definition will_stop (pending : Z → Prop) (s : QrmSessions) (id : nat) (b : HdqsBinding) : Prop :=
  session_live (qs_registry s) b ∨ told_to_stop s id b ∨ pending (hb_session_handle b).

Definition owners (s : QrmSessions) : gmap nat HdqsBinding := owners_of task_binding (qs_tasks s).

Record qrm_streams_wf (pending : Z → Prop) (s : QrmSessions) : Prop := {
  qw_owned : sessions_owned (qs_registry s) (owners s) (qs_tokens s) [];
  qw_fresh : ∀ id t, qs_tasks s !! id = Some t → (id < qs_next s)%nat;
  qw_tasks : ∀ id t, qs_tasks s !! id = Some t → task_ok t;
  qw_single : ∀ id1 id2 b1 b2, owners s !! id1 = Some b1 → owners s !! id2 = Some b2 →
    hb_session_handle b1 = hb_session_handle b2 → hb_session_handle b1 ∉ qs_reused s → id1 = id2;
  qw_unbound : ∀ h a id b, sr_active (qs_registry s) !! h = Some a → as_bound a = false → h ∉ qs_reused s →
    owners s !! id = Some b → hb_session_handle b ≠ h;
  qw_stops : ∀ id t b, qs_tasks s !! id = Some t → checked_binding t = Some b →
    hb_session_handle b ∉ qs_reused s → will_stop pending s id b;
}.

Lemma checked_owner t b : checked_binding t = Some b → task_binding t = Some b.
Proof. by destruct t. Qed.

Lemma owners_Some s id t b : qs_tasks s !! id = Some t → task_binding t = Some b → owners s !! id = Some b.
Proof. intros. apply owners_of_Some. eauto. Qed.

Lemma will_stop_mono (pending pending' : Z → Prop) s s' id b :
  (session_live (qs_registry s) b →
     session_live (qs_registry s') b ∨ told_to_stop s' id b ∨ pending' (hb_session_handle b)) →
  (told_to_stop s id b → told_to_stop s' id b) →
  (pending (hb_session_handle b) → told_to_stop s' id b ∨ pending' (hb_session_handle b)) →
  will_stop pending s id b → will_stop pending' s' id b.
Proof. unfold will_stop. tauto. Qed.

(** A registry that lost sessions still has those it did not lose. *)
Lemma session_live_kept r r' b :
  (∀ a, sr_active r !! hb_session_handle b = Some a → as_bound a = true → names_exactly b a →
     sr_active r' !! hb_session_handle b = Some a) →
  session_live r b → session_live r' b.
Proof. intros H (a & Ha & Hb & Hx). exists a. auto. Qed.

(** A task goes on with the session it had. *)
Lemma qrm_wf_go_on pending s id t0 t s' :
  qrm_streams_wf pending s → qs_tasks s !! id = Some t0 →
  qs_tasks s' = <[id := t]> (qs_tasks s) → qs_next s' = qs_next s → qs_tokens s' = qs_tokens s →
  qs_reused s' = qs_reused s →
  task_binding t = task_binding t0 → task_ok t →
  sessions_owned (qs_registry s') (owners s) (qs_tokens s) [] →
  (∀ h a, sr_active (qs_registry s') !! h = Some a → sr_active (qs_registry s) !! h = Some a) →
  (∀ b, checked_binding t = Some b → hb_session_handle b ∉ qs_reused s → will_stop pending s' id b) →
  (∀ id' b, id' ≠ id → owners s !! id' = Some b → hb_session_handle b ∉ qs_reused s →
     will_stop pending s id' b → will_stop pending s' id' b) →
  qrm_streams_wf pending s'.
Proof.
  intros [] Hid Ht Hn Htok Hre Hbind Hok Hso Hact Hself Hothers.
  assert (Ho : owners s' = owners s) by (unfold owners; rewrite Ht; by eapply owners_of_keep).
  split; rewrite ?Ho, ?Hn, ?Htok, ?Hre; try done.
  - intros id' t'. rewrite Ht. intros [[<- _]|[_ H]]%lookup_insert_Some; by eapply qw_fresh0.
  - intros id' t'. rewrite Ht. intros [[<- <-]|[_ H]]%lookup_insert_Some; [done|by eapply qw_tasks0].
  - intros h a id' b H. by apply qw_unbound0, Hact.
  - intros id' t' b. rewrite Ht. intros [[<- <-]|[Hne H]]%lookup_insert_Some Hc Hr; [by apply Hself|].
    apply Hothers; [done| |done|by eapply qw_stops0]. eapply owners_Some; [done|by apply checked_owner].
Qed.

(** A task ends. *)
Lemma qrm_wf_end pending s id s' :
  qrm_streams_wf pending s →
  qs_tasks s' = delete id (qs_tasks s) → qs_next s' = qs_next s → qs_tokens s' = qs_tokens s →
  qs_reused s' = qs_reused s →
  sessions_owned (qs_registry s') (delete id (owners s)) (qs_tokens s) [] →
  (∀ h a, sr_active (qs_registry s') !! h = Some a → sr_active (qs_registry s) !! h = Some a) →
  (∀ id' b, id' ≠ id → owners s !! id' = Some b → hb_session_handle b ∉ qs_reused s →
     will_stop pending s id' b → will_stop pending s' id' b) →
  qrm_streams_wf pending s'.
Proof.
  intros [] Ht Hn Htok Hre Hso Hact Hothers.
  assert (Ho : owners s' = delete id (owners s)) by (unfold owners; rewrite Ht; apply owners_of_delete).
  assert (Hsub : ∀ id' b, delete id (owners s) !! id' = Some b → owners s !! id' = Some b)
    by (by intros id' b [_ ?]%lookup_delete_Some).
  split; rewrite ?Ho, ?Hn, ?Htok, ?Hre; try done; eauto.
  - intros id' t'. rewrite Ht. intros [_ H]%lookup_delete_Some. by eapply qw_fresh0.
  - intros id' t'. rewrite Ht. intros [_ H]%lookup_delete_Some. by eapply qw_tasks0.
  - intros id' t' b. rewrite Ht. intros [Hne H]%lookup_delete_Some Hc Hr.
    apply Hothers; [done| |done|by eapply qw_stops0]. eapply owners_Some; [done|by apply checked_owner].
Qed.

(** A step of one task that leaves the registry and the controls alone. *)
Lemma qrm_wf_move pending s id t0 t s' :
  qrm_streams_wf pending s → qs_tasks s !! id = Some t0 →
  qs_tasks s' = <[id := t]> (qs_tasks s) → qs_next s' = qs_next s → qs_tokens s' = qs_tokens s →
  qs_reused s' = qs_reused s → qs_registry s' = qs_registry s → qs_controls s' = qs_controls s →
  task_binding t = task_binding t0 → task_ok t →
  (∀ b, checked_binding t = Some b → checked_binding t0 = Some b ∨ session_live (qs_registry s) b) →
  qrm_streams_wf pending s'.
Proof.
  intros Hwf Hid Ht Hn Htok Hre Hr Hc Hbind Hok Hself.
  eapply qrm_wf_go_on; try done; rewrite ?Hr; try done; [apply Hwf| |].
  - intros b Hb Hnr. unfold will_stop. rewrite Hr. destruct (Hself b Hb) as [H|H]; [|by left].
    pose proof (qw_stops _ _ Hwf _ _ _ Hid H Hnr) as Hs. unfold will_stop, told_to_stop in *. by rewrite Hc.
  - intros id' b _ _ _. unfold will_stop, told_to_stop. by rewrite Hr, Hc.
Qed.

Lemma owned_delete_idle pending s id t0 :
  qrm_streams_wf pending s → qs_tasks s !! id = Some t0 → task_binding t0 = None →
  delete id (owners s) = owners s.
Proof. intros _ Hid Hb. unfold owners. by eapply owners_of_lazy. Qed.

(** What closing a session does to the other tasks: nothing. *)
Lemma other_session_kept pending s id id' b b' r' :
  qrm_streams_wf pending s → owners s !! id = Some b → owners s !! id' = Some b' → id' ≠ id →
  hb_session_handle b' ∉ qs_reused s →
  (∀ h, h ≠ hb_session_handle b → sr_active r' !! h = sr_active (qs_registry s) !! h) →
  session_live (qs_registry s) b' → session_live r' b'.
Proof.
  intros Hwf Hb Hb' Hne Hr Hact. apply session_live_kept. intros a Ha _ _. rewrite Hact; [done|].
  intros Heq. apply Hne. by eapply (qw_single _ _ Hwf).
Qed.

Lemma close_exact_active r b h : h ≠ hb_session_handle b → sr_active (close_exact r b).1 !! h = sr_active r !! h.
Proof.
  intros Hne. unfold close_exact. destruct (sr_active r !! hb_session_handle b); [|done]. destruct (_ || _); [done|].
  by apply lookup_delete_ne.
Qed.

Lemma close_unbound_spec r b :
  sr_prepared (close_unbound_if_exact r b).1 = sr_prepared r
  ∧ (∀ h a, sr_active (close_unbound_if_exact r b).1 !! h = Some a → sr_active r !! h = Some a)
  ∧ (∀ h a, sr_active r !! h = Some a → as_bound a = true → sr_active (close_unbound_if_exact r b).1 !! h = Some a).
Proof.
  unfold close_unbound_if_exact. destruct (sr_active r !! hb_session_handle b) as [a0|] eqn:Ha0; [|done].
  destruct (as_bound a0) eqn:Hb; simpl; [done|]. destruct (_ || _); simpl; [done|]. split_and!; [done| |].
  - by intros h a [_ ?]%lookup_delete_Some.
  - intros h a Ha Hbd. apply lookup_delete_Some. split; [|done]. intros <-. congruence.
Qed.

Section StreamSteps.
Context (config : RelayConfig) (socket_override : option path) (xdg home : option (list byte)).
Context (limits : BridgeLimits) (limits_ok : session_limits config = Ok limits).

Abbreviation step := (stream_step config socket_override xdg home).

Lemma accept_wf pending s id b now :
  qrm_streams_wf pending s → qs_tasks s !! id = Some ReadingBinding →
  qrm_streams_wf pending (stream_accept id b now s).
Proof.
  intros Hwf Hid. unfold stream_accept.
  pose proof (so_registry _ _ _ _ (qw_owned _ _ Hwf)) as Hreg0.
  pose proof (run_op_wf _ (OpAccept now b) Hreg0) as Hreg. simpl in Hreg.
  destruct (accept_active (qs_registry s) now b) as [r' resp] eqn:Hacc.
  apply accept_active_cases in Hacc as [[Hk ->]|(a & Ha & Hub & Hx & _ & -> & ->)].
  { rewrite bool_decide_eq_true_2 by done. by eapply (qrm_wf_move _ s id). }
  simpl in *. pose proof Hwf as [].
  assert (Hnew : owners s !! id = None).
  { apply eq_None_not_Some. intros [b' (t & ? & ?)%owners_of_Some]. by simplify_eq. }
  set (t := AuthorityAccepted b (HdqsResponse_accepted (as_handle a) (sr_connection_epoch (qs_registry s)))) in *.
  assert (Ho : owners (go_on id t (qs_set_registry (set_active (<[hb_session_handle b := mark_bound a]>
      (sr_active (qs_registry s))) (qs_registry s)) s)) = <[id := b]> (owners s))
    by (unfold owners; simpl; by apply owners_of_insert).
  assert (Hfree : hb_session_handle b ∉ qs_reused s → ∀ id' b', owners s !! id' = Some b' → hb_session_handle b' ≠ hb_session_handle b)
    by eauto.
  split; rewrite ?Ho; simpl.
  - by apply sessions_owned_accept.
  - intros id' t' [[<- _]|[_ H]]%lookup_insert_Some; by eapply qw_fresh0.
  - intros id' t' [[<- <-]|[_ H]]%lookup_insert_Some; [|by eapply qw_tasks0]. eexists _, _. split; [|done].
    destruct (wf_active _ Hreg0 _ _ Ha) as (-> & ? & _). lia.
  - intros id1 id2 b1 b2 [[<- <-]|[N1 H1]]%lookup_insert_Some [[<- <-]|[N2 H2]]%lookup_insert_Some Heq Hr; [done|..|by eapply qw_single0].
    + by destruct (Hfree Hr _ _ H2).
    + rewrite Heq in Hr. by destruct (Hfree Hr _ _ H1).
  - intros h a' id' b' [[<- <-]|[Hne H]]%lookup_insert_Some Hu Hr; [by simpl in Hu|].
    intros [[<- <-]|[_ H']]%lookup_insert_Some; [done|]. by eapply qw_unbound0.
  - intros id' t' b' [[<- <-]|[_ H]]%lookup_insert_Some Hc Hr; [done|].
    eapply will_stop_mono; [| |by right|by eapply qw_stops0]; [|done].
    intros (a' & Ha' & Hb' & Hx'). left. exists a'. split_and!; [|done|done]. simpl.
    rewrite lookup_insert_ne; [done|]. intros Heq. rewrite <-Heq in Ha'. congruence.
Qed.

Lemma refuse_wf pending s id b resp w :
  qrm_streams_wf pending s → qs_tasks s !! id = Some (AuthorityRefused b resp) →
  qrm_streams_wf pending (stream_refuse id b resp w s).
Proof.
  intros Hwf Hid. destruct (close_unbound_spec (qs_registry s) b) as (Hp & Hless & Hkeep).
  pose proof (run_op_wf _ (OpCloseUnbound b) (so_registry _ _ _ _ (qw_owned _ _ Hwf))) as Hreg. simpl in Hreg.
  unfold stream_refuse. eapply (qrm_wf_end _ s id); [done|..]; try by destruct w.
  - rewrite (owned_delete_idle _ _ _ _ Hwf Hid) by done.
    assert (qs_registry (end_task id (reply_if w id resp (qs_set_registry (close_unbound_if_exact (qs_registry s) b).1 s)))
      = (close_unbound_if_exact (qs_registry s) b).1) as -> by (by destruct w).
    eapply sessions_owned_less; [apply Hwf|done|by rewrite Hp|done].
  - intros id' b' _ _ _. apply will_stop_mono; [|by destruct w|by right].
    intros (a & Ha & Hb & Hx). left. exists a. split_and!; [|done..]. apply Hkeep in Ha; [|done]. by destruct w.
Qed.

Lemma register_wf pending s id b resp :
  qrm_streams_wf pending s → qs_tasks s !! id = Some (AuthorityAccepted b resp) →
  qrm_streams_wf pending (stream_register id b resp s).
Proof.
  intros Hwf Hid. eapply (qrm_wf_go_on _ s id); try done; [by apply (qw_tasks _ _ Hwf _ _ Hid)|apply Hwf|].
  intros id' b' Hne _ _. apply will_stop_mono; [by left| |by right].
  unfold told_to_stop. simpl. intros Ht. destruct (decide (hb_session_handle b' = hb_session_handle b)) as [->|].
  - rewrite lookup_insert_eq. congruence.
  - by rewrite lookup_insert_ne.
Qed.

Lemma active_bound_exact_live r now b : active_bound_exact r now b = true → session_live r b.
Proof.
  unfold active_bound_exact. destruct (sr_active r !! hb_session_handle b) as [a|] eqn:Ha; [|done].
  intros H. bool_facts. exists a. unfold names_exactly. naive_solver.
Qed.

Lemma check_wf pending s id b resp now uid :
  qrm_streams_wf pending s → qs_tasks s !! id = Some (ControlRegistered b resp) →
  qrm_streams_wf pending (stream_check socket_override xdg home id b resp now uid s).
Proof.
  intros Hwf Hid. pose proof (qw_tasks _ _ Hwf _ _ Hid) as Hok. unfold stream_check.
  destruct (active_bound_exact _ _ _) eqn:Hx; simpl; [apply active_bound_exact_live in Hx|].
  - destruct (session_connector _ _ _ _ _); eapply (qrm_wf_move _ s id); try done; intros b' [= <-]; by right.
  - by eapply (qrm_wf_move _ s id).
Qed.

Lemma encode_accepted handle epoch : handle ≠ 0 → ∃ bs, HdqsResponse_encode (HdqsResponse_accepted handle epoch) = Ok bs.
Proof. intros H. unfold HdqsResponse_encode. simpl. rewrite (proj2 (Z.eqb_neq _ _) H). simpl. eauto. Qed.

Lemma connect_wf pending s id b resp connector io :
  qrm_streams_wf pending s → qs_tasks s !! id = Some (ConnectingSocket b resp connector) →
  qrm_streams_wf pending (stream_connect id b resp connector io s).
Proof.
  intros Hwf Hid. pose proof (qw_tasks _ _ Hwf _ _ Hid) as (h & e & Hh & ->). unfold stream_connect.
  destruct (socket_connected _ _); simpl.
  - destruct (encode_accepted h e Hh) as [bs ->]. eapply (qrm_wf_move _ s id); try done. intros b' [= <-]. by left.
  - eapply (qrm_wf_move _ s id); try done. intros b' [= <-]. by left.
Qed.

(** A task that stops looks at nothing any more. *)
Lemma stopping_wf pending s id t0 b :
  qrm_streams_wf pending s → qs_tasks s !! id = Some t0 → task_binding t0 = Some b →
  qrm_streams_wf pending (go_on id (RemovingControl b) s).
Proof. intros Hwf Hid Hb. by eapply (qrm_wf_move _ s id). Qed.

Lemma unreachable_wf pending s id b resp w :
  qrm_streams_wf pending s → qs_tasks s !! id = Some (SocketUnreachable b resp) →
  qrm_streams_wf pending (stream_unreachable id b resp w s).
Proof.
  intros Hwf Hid. pose proof (close_exact_spec (qs_registry s) b) as (Hp & Hm & Ha).
  pose proof (run_op_wf _ (OpCloseExact b) (so_registry _ _ _ _ (qw_owned _ _ Hwf))) as Hreg. simpl in Hreg.
  assert (Hown : owners s !! id = Some b) by (by eapply owners_Some).
  unfold stream_unreachable. destruct w; (eapply (qrm_wf_go_on _ s id); [done|exact Hid|..]); simpl; try done.
  all: try (by intros h a [? _]%Ha).
  all: try (eapply sessions_owned_shrink; [apply Hwf|done|done|by rewrite Hp|by intros h a [? _]%Ha|by eauto]).
  all: intros id' b' Hne Hb' Hr; apply will_stop_mono; [|done|by right]; intros Hl; left;
    eapply (other_session_kept _ s id id' b b'); try done; intros h Hh; by apply close_exact_active.
Qed.

Lemma write_wf pending s id b resp w :
  qrm_streams_wf pending s → qs_tasks s !! id = Some (WritingAcceptance b resp) →
  qrm_streams_wf pending (stream_write id b resp w s).
Proof.
  intros Hwf Hid. unfold stream_write. destruct w; [|by eapply stopping_wf].
  eapply (qrm_wf_move _ s id); try done. intros b' [= <-]. by left.
Qed.

Lemma recheck_wf pending s id b now :
  qrm_streams_wf pending s → qs_tasks s !! id = Some (AcceptanceWritten b) →
  qrm_streams_wf pending (stream_recheck config id b now s).
Proof.
  intros Hwf Hid. unfold stream_recheck. rewrite limits_ok. destruct (active_bound_exact _ _ _); simpl; [|by eapply stopping_wf].
  eapply (qrm_wf_move _ s id); try done. intros b' [= <-]. by left.
Qed.

Lemma remove_control_wf pending s id b :
  qrm_streams_wf pending s → qs_tasks s !! id = Some (RemovingControl b) →
  qrm_streams_wf pending (stream_remove_control id b s).
Proof.
  intros Hwf Hid. eapply (qrm_wf_go_on _ s id); try done; [apply Hwf|].
  intros id' b' Hne _ _. apply will_stop_mono; [by left| |by right].
  unfold told_to_stop. simpl. intros Ht H. apply lookup_delete_Some in H as [_ H]. done.
Qed.

Lemma close_wf pending s id b :
  qrm_streams_wf pending s → qs_tasks s !! id = Some (ClosingSession b) →
  qrm_streams_wf pending (stream_close id b s).
Proof.
  intros Hwf Hid. assert (Hown : owners s !! id = Some b) by (by eapply owners_Some).
  pose proof (run_op_wf _ (OpClose (hb_session_handle b)) (so_registry _ _ _ _ (qw_owned _ _ Hwf))) as Hreg. simpl in Hreg.
  eapply (qrm_wf_end _ s id); try done; simpl.
  - eapply sessions_owned_release; [apply Hwf|done|exact Hown|done|].
    intros h a. simpl. intros [Hne H]%lookup_delete_Some. split; [done|]. congruence.
  - intros h a. by intros [_ ?]%lookup_delete_Some.
  - intros id' b' Hne Hb' Hr. apply will_stop_mono; [|done|by right]. intros Hl. left.
    eapply (other_session_kept _ s id id' b b'); try done. intros h Hh. by apply lookup_delete_ne.
Qed.

Lemma stream_step_wf pending id s s' : qrm_streams_wf pending s → step id s s' → qrm_streams_wf pending s'.
Proof.
  intros Hwf Hs. destruct Hs as [w Hid|Hid|b now Hid _|b resp w Hid|b resp Hid|b resp now uid Hid|b resp k io Hid
    |b resp w Hid|b resp w Hid|b now Hid|b br l e br' Hid Hl He|b br Hid Ho|b br now Hid|t b Hid Hc Htold|b Hid|b Hid].
  - destruct w; by eapply (qrm_wf_move _ s id).
  - eapply (qrm_wf_end _ s id); try done.
    rewrite (owned_delete_idle _ _ _ _ Hwf Hid) by done. apply Hwf.
  - by apply accept_wf.
  - by apply refuse_wf.
  - by apply register_wf.
  - by apply check_wf.
  - by apply connect_wf.
  - by apply unreachable_wf.
  - by apply write_wf.
  - by apply recheck_wf.
  - eapply (qrm_wf_move _ s id); try done. intros b' [= <-]. by left.
  - by eapply stopping_wf.
  - unfold stream_tick. destruct (active_bound_exact _ _ _); [done|by eapply stopping_wf].
  - eapply stopping_wf; [done|exact Hid|]. destruct t; simplify_eq/=; done.
  - by apply remove_control_wf.
  - by apply close_wf.
Qed.
End StreamSteps.

(** The loop changes the registry. *)
Lemma qrm_wf_registry (pending pending' : Z → Prop) s s' :
  qrm_streams_wf pending s →
  qs_tasks s' = qs_tasks s → qs_next s' = qs_next s → qs_controls s' = qs_controls s →
  sessions_owned (qs_registry s') (owners s) (qs_tokens s') [] →
  (∀ h, h ∈ qs_reused s → h ∈ qs_reused s') →
  (∀ h a', sr_active (qs_registry s') !! h = Some a' → as_bound a' = false → h ∉ qs_reused s' →
     (∃ a, sr_active (qs_registry s) !! h = Some a ∧ as_bound a = false)
     ∨ ∀ id b, owners s !! id = Some b → hb_session_handle b ≠ h) →
  (∀ b, session_live (qs_registry s) b → session_live (qs_registry s') b ∨ pending' (hb_session_handle b)) →
  (∀ h, pending h → pending' h) →
  qrm_streams_wf pending' s'.
Proof.
  intros [] Ht Hn Hc Hso Hre Hun Hlive Hpend.
  assert (Ho : owners s' = owners s) by (unfold owners; by rewrite Ht).
  split; rewrite ?Ho, ?Ht, ?Hn; try done; eauto 6.
  - intros h a id b Ha Hb Hr Hid. destruct (Hun h a Ha Hb Hr) as [(a0 & Ha0 & Hb0)|Hno]; [|by eapply Hno].
    eapply qw_unbound0; eauto.
  - intros id t b Hid Hch Hr. eapply (will_stop_mono pending pending' s); [| | |eapply qw_stops0; eauto].
    + intros Hl. destruct (Hlive b Hl); [by left|by right; right].
    + unfold told_to_stop. by rewrite Hc.
    + intros Hp. right. by apply Hpend.
Qed.

(** The loop takes a control out of the map. *)
Lemma qrm_wf_cancel (pending pending' : Z → Prop) s h :
  qrm_streams_wf pending s → (∀ h', pending h' → h' = h ∨ pending' h') →
  qrm_streams_wf pending' (qs_set_controls (delete h (qs_controls s)) s).
Proof.
  intros [] Hp. split; try done. intros id t b Hid Hch Hr.
  eapply (will_stop_mono pending pending' s); [by left| | |by eapply qw_stops0]; unfold told_to_stop; simpl.
  - intros Ht Hd. by apply lookup_delete_Some in Hd as [_ ?].
  - intros [->|]%Hp; [left|by right]. by rewrite lookup_delete_eq.
Qed.

(** A handle without a control has nobody to tell. *)
Lemma qrm_wf_absent (pending pending' : Z → Prop) s h :
  qrm_streams_wf pending s → qs_controls s !! h = None → (∀ h', pending h' → h' = h ∨ pending' h') →
  qrm_streams_wf pending' s.
Proof.
  intros [] Hn Hp. split; try done. intros id t b Hid Hch Hr.
  eapply (will_stop_mono pending pending' s); [by left|done| |by eapply qw_stops0]. unfold told_to_stop.
  intros [->|]%Hp; [left|by right]. by rewrite Hn.
Qed.

Lemma qrm_wf_spawn pending s : qrm_streams_wf pending s → qrm_streams_wf pending (qs_spawn s).
Proof.
  intros Hwf. pose proof Hwf as [].
  assert (Hfresh : qs_tasks s !! qs_next s = None).
  { destruct (qs_tasks s !! qs_next s) eqn:H; [|done]. apply qw_fresh0 in H. lia. }
  assert (Ho : owners (qs_spawn s) = owners s).
  { unfold owners. simpl. rewrite owners_of_idle, delete_id; [done| |done].
    apply eq_None_not_Some. intros [b (t & ? & ?)%owners_of_Some]. congruence. }
  split; rewrite ?Ho; simpl; try done.
  - intros id t [[<- _]|[_ H]]%lookup_insert_Some; [lia|]. apply qw_fresh0 in H. lia.
  - intros id t [[<- <-]|[_ H]]%lookup_insert_Some; [done|by eapply qw_tasks0].
  - intros id t b [[<- <-]|[_ H]]%lookup_insert_Some; [done|by eapply qw_stops0].
Qed.

Lemma stream_step_identity config socket_override xdg home id s s' :
  stream_step config socket_override xdg home id s s' →
  registry_identity (qs_registry s') = registry_identity (qs_registry s).
Proof.
  intros Hs. destruct Hs as [w ?|?|b now ? _|b resp w ?|b resp ?|b resp now uid ?|b resp k io ?
    |b resp w ?|b resp w ?|b now ?|b br l e br' ? _ _|b br ? _|b br now ?|t b ? _ _|b ?|b ?]; try done.
  - by destruct w.
  - unfold stream_accept. pose proof (run_op_identity (qs_registry s) (OpAccept now b)) as Hi. simpl in Hi.
    by destruct (accept_active _ _ _) as [r resp].
  - pose proof (run_op_identity (qs_registry s) (OpCloseUnbound b)) as Hi. simpl in Hi. by destruct w.
  - unfold stream_check. destruct (negb _); [done|]. by destruct (session_connector _ _ _ _ _).
  - unfold stream_connect. destruct (negb _); [done|]. by destruct (HdqsResponse_encode _).
  - pose proof (run_op_identity (qs_registry s) (OpCloseExact b)) as Hi. simpl in Hi. by destruct w.
  - by destruct w.
  - unfold stream_recheck. destruct (negb _); [done|]. by destruct (session_limits _).
  - unfold stream_tick. by destruct (active_bound_exact _ _ _).
Qed.

Section Turns.
Context (config : RelayConfig) (socket_override : option path) (xdg home : option (list byte)).

(** ** Told to stop *)

(** Nothing is left of a task and its session. *)
Definition cleaned_up (s : QrmSessions) (id : nat) (b : HdqsBinding) : Prop :=
  qs_tasks s !! id = None ∧ qs_controls s !! hb_session_handle b = None
  ∧ sr_active (qs_registry s) !! hb_session_handle b = None.

Lemma removing_finishes s id b :
  qs_tasks s !! id = Some (RemovingControl b) →
  ∃ s', nsteps (stream_step config socket_override xdg home id) 2 s s' ∧ cleaned_up s' id b.
Proof.
  intros Hid. exists (stream_close id b (stream_remove_control id b s)). split.
  - eapply nsteps_l; [by apply task_remove_control|]. apply nsteps_once, task_close. simpl. by rewrite lookup_insert_eq.
  - split_and!; apply lookup_delete_eq.
Qed.

Lemma removing_next s s1 id b :
  stream_step config socket_override xdg home id s s1 → qs_tasks s1 !! id = Some (RemovingControl b) →
  ∃ s', nsteps (stream_step config socket_override xdg home id) 3 s s' ∧ cleaned_up s' id b.
Proof. intros Hs (s' & Hn & Hd)%removing_finishes. exists s'. split; [by eapply nsteps_l|done]. Qed.

(** Three more turns of its own can end a task that was told to stop, four when it has just
    written its acceptance, and clean up after it. *)
Lemma told_task_finishes limits s id t b :
  session_limits config = Ok limits →
  qs_tasks s !! id = Some t → checked_binding t = Some b → told_to_stop s id b →
  ∃ n s', (n ≤ 4)%nat ∧ (cancellable t = Some b → n = 3%nat)
    ∧ nsteps (stream_step config socket_override xdg home id) n s s' ∧ cleaned_up s' id b.
Proof.
  intros Hlim Hid Hb Ht.
  assert (Hcancel : cancellable t = Some b →
    ∃ s', nsteps (stream_step config socket_override xdg home id) 3 s s' ∧ cleaned_up s' id b).
  { intros Hc. eapply removing_next; [by eapply task_cancelled|]. simpl. by rewrite lookup_insert_eq. }
  assert (Hthree : (∃ s', nsteps (stream_step config socket_override xdg home id) 3 s s' ∧ cleaned_up s' id b) →
    ∃ n s', (n ≤ 4)%nat ∧ (cancellable t = Some b → n = 3%nat)
      ∧ nsteps (stream_step config socket_override xdg home id) n s s' ∧ cleaned_up s' id b).
  { intros (s' & Hn & Hd). exists 3%nat, s'. split_and!; [lia|done|done|done]. }
  destruct t; try done; simpl in Hb; injection Hb as ->; try (by apply Hthree, Hcancel).
  - apply Hthree. eapply removing_next; [by apply (task_unreachable _ _ _ _ _ _ b response false)|].
    simpl. by rewrite lookup_insert_eq.
  - pose proof (task_recheck config socket_override xdg home id s b 0 Hid) as Hre. unfold stream_recheck in Hre.
    destruct (negb _).
    + apply Hthree. eapply removing_next; [exact Hre|]. simpl. by rewrite lookup_insert_eq.
    + rewrite Hlim in Hre. set (s1 := go_on id _ s) in Hre.
      assert (H1 : qs_tasks s1 !! id = Some (Forwarding b (Bridge_start limits 0))) by apply lookup_insert_eq.
      destruct (removing_next s1 (go_on id (RemovingControl b) s1) id b) as (s' & Hn & Hd).
      * by eapply task_cancelled.
      * apply lookup_insert_eq.
      * exists 4%nat, s'. split_and!; [lia|done| |done]. by eapply nsteps_l.
Qed.

(** The turns a task has left once its session is gone, when it is not forwarding. *)
Definition turns_left (t : QrmTask) : option nat :=
  match t with
  | ConnectingSocket _ _ _ => Some 5%nat
  | WritingAcceptance _ _ => Some 4%nat
  | AcceptanceWritten _ | SocketUnreachable _ _ => Some 3%nat
  | RemovingControl _ => Some 2%nat
  | ClosingSession _ => Some 1%nat
  | _ => None
  end.

(** The task has ended, or has at most [n] turns left. *)
Definition leaves (s : QrmSessions) (id : nat) (b : HdqsBinding) (n : nat) : Prop :=
  ¬ session_live (qs_registry s) b
  ∧ (qs_tasks s !! id = None
     ∨ ∃ t m, qs_tasks s !! id = Some t ∧ task_binding t = Some b ∧ turns_left t = Some m ∧ (m ≤ n)%nat).

Lemma leaves_go_on s s' id b n t m :
  ¬ session_live (qs_registry s') b → turns_left t = Some m → (m ≤ n)%nat → task_binding t = Some b →
  s = go_on id t s' → leaves s id b n.
Proof. intros Hl Hm Hn Hb ->. split; [done|]. right. exists t, m. split_and!; try done. apply lookup_insert_eq. Qed.

Ltac go_on_left := eapply leaves_go_on; [| | | |reflexivity]; simpl; try done; lia.

Lemma stream_step_present s s' id :
  stream_step config socket_override xdg home id s s' → is_Some (qs_tasks s !! id).
Proof. destruct 1; eauto. Qed.

Lemma gone_step s s' id b t n :
  qs_tasks s !! id = Some t → task_binding t = Some b → turns_left t = Some n → ¬ session_live (qs_registry s) b →
  stream_step config socket_override xdg home id s s' → leaves s' id b (pred n).
Proof.
  intros Hid Hb Hn Hl Hs.
  assert (Hcl : ¬ session_live (close_exact (qs_registry s) b).1 b).
  { destruct (close_exact_spec (qs_registry s) b) as (_ & _ & Hc).
    intros (a & [Ha _]%Hc & Hbd & Hx). apply Hl. by exists a. }
  destruct Hs; try (match goal with H : qs_tasks s !! id = Some _ |- _ => rewrite H in Hid end; simplify_eq/=).
  - unfold stream_connect. destruct (negb _); [go_on_left|].
    destruct (HdqsResponse_encode response); [go_on_left|..]; (split; [done|]; left; apply lookup_delete_eq).
  - eapply leaves_go_on; [| | | |reflexivity]; try done; by destruct written.
  - unfold stream_write. destruct written; go_on_left.
  - unfold stream_recheck. destruct (active_bound_exact _ _ _) eqn:Hx; [|simpl; go_on_left].
    by apply active_bound_exact_live in Hx.
  - match goal with H : cancellable _ = Some _ |- _ => rename H into Hc end.
    destruct t; try done; simpl in *; simplify_eq; go_on_left.
  - go_on_left.
  - split; [|left; apply lookup_delete_eq]. intros (a & Ha & _). simpl in Ha. by rewrite lookup_delete_eq in Ha.
Qed.

(** A task whose session is gone ends by its own turns, and forwards nothing on the way. *)
Lemma leaves_steps k s s' id b n :
  leaves s id b n → nsteps (stream_step config socket_override xdg home id) k s s' →
  (k ≤ n)%nat ∧ leaves s' id b (n - k).
Proof.
  intros Hl Hn. revert n Hl. induction Hn as [s|k s s1 s' Hs _ IH]; intros n [Hg Ht].
  { split; [lia|]. by rewrite Nat.sub_0_r. }
  destruct Ht as [Hnone|(t & m & Hid & Hb & Hm & Hle)].
  { apply stream_step_present in Hs as [? ?]. congruence. }
  destruct (IH (pred m) (gone_step _ _ _ _ _ _ Hid Hb Hm Hg Hs)) as [Hk [Hg' Hl']].
  assert (0 < m)%nat by (destruct t; simpl in Hm; simplify_eq; lia).
  split; [lia|]. split; [done|]. destruct Hl' as [?|(t' & m' & ? & ? & ? & ?)]; [by left|right].
  exists t', m'. split_and!; try done. lia.
Qed.

(** ** Draining *)

(** Nothing is added: a task, a prepared authority and a session were there before. *)
Record shrinks (s s' : QrmSessions) : Prop := {
  sh_tasks : ∀ id, is_Some (qs_tasks s' !! id) → is_Some (qs_tasks s !! id);
  sh_prepared : ∀ t, is_Some (sr_prepared (qs_registry s') !! t) → is_Some (sr_prepared (qs_registry s) !! t);
  sh_active : ∀ h a', sr_active (qs_registry s') !! h = Some a' →
    ∃ a, sr_active (qs_registry s) !! h = Some a ∧ as_prepared a = as_prepared a';
}.

#[export] Instance shrinks_preorder : PreOrder shrinks.
Proof.
  split.
  - intros s. split; eauto.
  - intros s1 s2 s3 [] []. split; eauto.
    intros h a3 (a2 & H2 & E2)%sh_active1. apply sh_active0 in H2 as (a1 & H1 & E1). exists a1. split; congruence.
Qed.

Lemma shrinks_same s s' :
  qs_registry s' = qs_registry s → (∀ id, is_Some (qs_tasks s' !! id) → is_Some (qs_tasks s !! id)) → shrinks s s'.
Proof. intros Hr Ht. split; rewrite ?Hr; eauto. Qed.

Lemma shrinks_go_on id t0 t s s' :
  shrinks s s' → qs_tasks s' = qs_tasks s → qs_tasks s !! id = Some t0 → shrinks s (go_on id t s').
Proof.
  intros [Ht Hp Ha] Hs Hid. split; [|done..]. intros id'. simpl. rewrite Hs.
  destruct (decide (id' = id)) as [->|]; [by rewrite Hid; eauto|by rewrite lookup_insert_ne].
Qed.

Lemma shrinks_end id s s' : shrinks s s' → qs_tasks s' = qs_tasks s → shrinks s (end_task id s').
Proof.
  intros [Ht Hp Ha] Hs. split; [|done..]. intros id'. simpl. rewrite Hs.
  intros [t [_ Hid]%lookup_delete_Some]. eauto.
Qed.

Lemma shrinks_reply w id response s s' : shrinks s s' → shrinks s (reply_if w id response s').
Proof. intros []. by destruct w; split. Qed.
Lemma reply_tasks w id response s : qs_tasks (reply_if w id response s) = qs_tasks s.
Proof. by destruct w. Qed.

Lemma shrinks_registry r s :
  (∀ t, is_Some (sr_prepared r !! t) → is_Some (sr_prepared (qs_registry s) !! t)) →
  (∀ h a', sr_active r !! h = Some a' → ∃ a, sr_active (qs_registry s) !! h = Some a ∧ as_prepared a = as_prepared a') →
  shrinks s (qs_set_registry r s).
Proof. intros Hp Ha. by split. Qed.

Lemma shrinks_accept now b s : shrinks s (qs_set_registry (accept_active (qs_registry s) now b).1 s).
Proof.
  destruct (accept_active (qs_registry s) now b) as [r resp] eqn:H.
  apply accept_active_cases in H as [[_ ->]|(a & Ha & _ & _ & _ & _ & ->)]; [by apply shrinks_registry; eauto|].
  apply shrinks_registry; [done|]. intros h a'. simpl. intros [[<- <-]|[_ H]]%lookup_insert_Some; [exists a|exists a']; by split.
Qed.

Lemma shrinks_close_exact b s : shrinks s (qs_set_registry (close_exact (qs_registry s) b).1 s).
Proof.
  destruct (close_exact_spec (qs_registry s) b) as (Hp & _ & Ha).
  apply shrinks_registry; [by rewrite Hp|]. intros h a [? _]%Ha. by exists a.
Qed.
Lemma shrinks_close_unbound b s : shrinks s (qs_set_registry (close_unbound_if_exact (qs_registry s) b).1 s).
Proof.
  destruct (close_unbound_spec (qs_registry s) b) as (Hp & Ha & _).
  apply shrinks_registry; [by rewrite Hp|]. intros h a ?%Ha. by exists a.
Qed.
Lemma shrinks_close h s : shrinks s (qs_set_registry (close (qs_registry s) h).1 s).
Proof. apply shrinks_registry; [done|]. intros h' a. simpl. intros [_ ?]%lookup_delete_Some. by exists a. Qed.

Lemma stream_step_shrinks id s s' : stream_step config socket_override xdg home id s s' → shrinks s s'.
Proof.
  intros Hs. destruct Hs as [w Hid|Hid|b now Hid _|b resp w Hid|b resp Hid|b resp now uid Hid|b resp k io Hid
    |b resp w Hid|b resp w Hid|b now Hid|b br l e br' Hid _ _|b br Hid _|b br now Hid|t b Hid _ _|b Hid|b Hid].
  - by eapply shrinks_go_on; [apply shrinks_reply|by rewrite reply_tasks|].
  - apply (shrinks_same s); [done|]. intros id'. simpl. intros [t [_ ?]%lookup_delete_Some]. eauto.
  - unfold stream_accept. pose proof (shrinks_accept now b s) as Ha.
    destruct (accept_active _ _ _) as [r resp]. by eapply shrinks_go_on.
  - apply shrinks_end; [apply shrinks_reply, shrinks_close_unbound|by rewrite reply_tasks].
  - by eapply shrinks_go_on; [by apply shrinks_same|..].
  - unfold stream_check. destruct (negb _); [by eapply shrinks_go_on|].
    destruct (session_connector _ _ _ _ _); by eapply shrinks_go_on.
  - unfold stream_connect. destruct (negb _); [by eapply shrinks_go_on|].
    destruct (HdqsResponse_encode _); [by eapply shrinks_go_on|by apply shrinks_end..].
  - by eapply shrinks_go_on; [apply shrinks_reply, shrinks_close_exact|by rewrite reply_tasks|].
  - unfold stream_write. destruct w; [by eapply shrinks_go_on; [by apply shrinks_same|..]|by eapply shrinks_go_on].
  - unfold stream_recheck. destruct (negb _); [by eapply shrinks_go_on|].
    destruct (session_limits config); [by eapply shrinks_go_on|by apply shrinks_end..].
  - by eapply shrinks_go_on.
  - by eapply shrinks_go_on.
  - unfold stream_tick. destruct (active_bound_exact _ _ _); [done|by eapply shrinks_go_on].
  - by eapply shrinks_go_on.
  - by eapply shrinks_go_on; [by apply shrinks_same|..].
  - apply shrinks_end; [apply shrinks_close|done].
Qed.
End Turns.
