(* ===== verification/Pki.v ===== *)
(** * Certificate issuance (src/src/pki.rs)

    A certificate request is checked, the protected intermediate of the purpose is read and
    validated against the root, and a short-lived client certificate is signed.  The crates
    that parse requests and certificates (x509-parser), read PEM (rustls-pemfile) and sign
    (rcgen) and SHA-256 are parameters; a signature also depends on [pk_entropy].  Times are
    seconds since the Unix epoch. *)
From S2P Require Import FieldCodec.
From S2P Require Export Config Enrollment.

Record IssuedCertificate : Type := {
  ic_certificate_chain : list (list byte);
  ic_fingerprint : list byte;
  ic_app_identity : list byte;
  ic_serial : Z;
  ic_not_before_epoch_seconds : Z;
  ic_not_after_epoch_seconds : Z;
}.

Definition IssuedCertificate_metadata (app_id : list byte) (allowlist_generation : Z) (c : IssuedCertificate)
  : eresult CertificateMetadata :=
  CertificateMetadata_new app_id (ic_fingerprint c) (ic_serial c) allowlist_generation
    (ic_not_before_epoch_seconds c) (ic_not_after_epoch_seconds c).

(** ** The certificate crates *)

(** What the code looks at in a parsed request and in a parsed certificate. *)
Record ParsedCsr : Type := {
  pc_signature_valid : bool;
  pc_spki_raw : list byte;
  pc_common_name : option (list byte);
}.

Record ParsedCertificate : Type := {
  px_valid_at : Z → bool;
  px_basic_constraints_ca : option bool;
  px_key_cert_sign : option bool;
  px_issuer : list byte;
  px_subject : list byte;
  px_spki_raw : list byte;
  px_public_key : list byte;
  px_signed_by : list byte → bool;
}.

Inductive KeyUsage : Type := DigitalSignature.
Inductive ExtendedKeyUsage : Type := ClientAuth.

(** The [CertificateParams] of a leaf. *)
Record LeafParams : Type := {
  lp_common_name : list byte;
  lp_is_ca : bool;
  lp_key_usages : list KeyUsage;
  lp_extended_key_usages : list ExtendedKeyUsage;
  lp_not_before : Z;
  lp_not_after : Z;
}.

(** The system calls, the clock and the randomness of one issuance. *)
Record PkiIo : Type := {
  pk_certificate_io : MaterialIo;
  pk_key_io : MaterialIo;
  pk_root_io : MaterialIo;
  pk_now : Z;
  pk_entropy : nat;
}.

(** [OffsetDateTime] reaches from the year -9999 to the end of 9999; arithmetic beyond panics. *)
Definition offset_date_time (t : Z) : eresult Z :=
  if (-377705116800 <=? t) && (t <=? 253402300799) then Ok t else Panic.

(** [u64::try_from(..unix_timestamp())]. *)
Definition epoch_u64 (t : Z) : eresult Z := if t <? 0 then Err InvalidMetadata else Ok t.

Section Pki.
Context {Key Issuer PublicKey : Type}.
Context (sha256 : list byte → list byte).
Context (csr_from_der : list byte → option ParsedCsr) (parse_certificate : list byte → option ParsedCertificate).
Context (pem_certs : list byte → list (option (list byte))).
Context (key_from_pem : list byte → option Key) (public_key_raw : Key → list byte).
Context (issuer_from_ca_cert_der : list byte → Key → option Issuer).
Context (csr_public_key : list byte → option PublicKey).
Context (signed_by : nat → LeafParams → PublicKey → Issuer → option (list byte)).

Definition app_id_from_csr (csr_bytes : list byte) : eresult (list byte) :=
  parsed_csr ← ok_or (csr_from_der csr_bytes) InvalidCsr;
  if negb (pc_signature_valid parsed_csr) then Err InvalidCsr else
  let identity := sha256 (pc_spki_raw parsed_csr) in
  if bool_decide (identity = zeros 32) then Err InvalidCsr else
  AppId_new (encode_hex identity).

Definition is_valid_ca (now : Z) (certificate : ParsedCertificate) : bool :=
  px_valid_at certificate now && default false (px_basic_constraints_ca certificate)
  && default false (px_key_cert_sign certificate).

Definition validate_device_intermediate_chain (now : Z) (intermediate root : ParsedCertificate) : eresult unit :=
  if negb (is_valid_ca now intermediate) || negb (is_valid_ca now root)
     || bool_decide (px_issuer intermediate ≠ px_subject root)
     || negb (px_signed_by intermediate (px_spki_raw root))
     || bool_decide (px_issuer root ≠ px_subject root)
     || negb (px_signed_by root (px_spki_raw root))
  then Err InvalidMetadata else Ok tt.

Definition first_pem_certificate (bytes : list byte) : eresult (list byte) :=
  first ← ok_or (head (pem_certs bytes)) InvalidMetadata;
  ok_or first InvalidMetadata.

(** [read_protected_file(..).map_err(|_| InvalidMetadata)]. *)
Definition read_material (io : MaterialIo) (p : path) (expected_uid : Z) (kind : ProtectedFileKind) (limit : Z)
    (fs : FileSystem) : eresult (list byte) :=
  map_err (λ _, InvalidMetadata) (read_protected_file io p expected_uid kind limit fs fs).

Definition leaf_params (app_id : list byte) (not_before not_after : Z) : LeafParams :=
  {| lp_common_name := app_id; lp_is_ca := false; lp_key_usages := [DigitalSignature];
     lp_extended_key_usages := [ClientAuth]; lp_not_before := not_before; lp_not_after := not_after |}.

(** The checks of the request; they give the identity of its key. *)
Definition check_csr (app_id csr_bytes : list byte) (allowlist_generation : Z) : eresult (list byte) :=
  _ ← CsrMetadata_from_bytes sha256 app_id csr_bytes;
  if allowlist_generation =? 0 then Err InvalidGeneration else
  parsed_csr ← ok_or (csr_from_der csr_bytes) InvalidCsr;
  if negb (pc_signature_valid parsed_csr) then Err InvalidCsr else
  common_name ← ok_or (pc_common_name parsed_csr) CsrMismatch;
  if bool_decide (common_name ≠ app_id) then Err CsrMismatch else
  let app_identity := sha256 (pc_spki_raw parsed_csr) in
  if bool_decide (app_identity = zeros 32) then Err InvalidCsr else Ok app_identity.

(** The material of the purpose: the issuer and its certificate. *)
Definition load_issuer (io : PkiIo) (config : SecurityConfig) (expected_uid : Z) (certificate_path key_path : path)
    (fs : FileSystem) : eresult (list byte * Issuer) :=
  intermediate_certificate ← read_material (pk_certificate_io io) certificate_path expected_uid Public MAX_PUBLIC_MATERIAL_BYTES fs;
  intermediate_key ← read_material (pk_key_io io) key_path expected_uid Private MAX_PRIVATE_MATERIAL_BYTES fs;
  root_certificate ← read_material (pk_root_io io) (sc_public_root_certificate config) expected_uid Public MAX_PUBLIC_MATERIAL_BYTES fs;
  issuer_certificate ← first_pem_certificate intermediate_certificate;
  root_certificate ← first_pem_certificate root_certificate;
  parsed_intermediate ← ok_or (parse_certificate issuer_certificate) InvalidMetadata;
  parsed_root ← ok_or (parse_certificate root_certificate) InvalidMetadata;
  _ ← validate_device_intermediate_chain (pk_now io) parsed_intermediate parsed_root;
  key_text ← ok_or (from_utf8 intermediate_key) InvalidMetadata;
  issuer_key ← ok_or (key_from_pem key_text) InvalidMetadata;
  if bool_decide (public_key_raw issuer_key ≠ px_public_key parsed_intermediate) then Err InvalidMetadata else
  issuer ← ok_or (issuer_from_ca_cert_der issuer_certificate issuer_key) InvalidMetadata;
  Ok (issuer_certificate, issuer).

Definition issue_certificate_with_intermediate (io : PkiIo) (config : SecurityConfig) (expected_uid : Z)
    (app_id csr_bytes : list byte) (allowlist_generation : Z) (certificate_path key_path : path) (fs : FileSystem)
  : eresult IssuedCertificate :=
  app_identity ← check_csr app_id csr_bytes allowlist_generation;
  issuing ← load_issuer io config expected_uid certificate_path key_path fs;
  let '(issuer_certificate, issuer) := issuing in
  public_key ← ok_or (csr_public_key csr_bytes) InvalidCsr;
  not_before ← offset_date_time (pk_now io - 60);
  not_after ← offset_date_time (pk_now io + 90 * 86400);
  leaf ← ok_or (signed_by (pk_entropy io) (leaf_params app_id not_before not_after) public_key issuer) InvalidMetadata;
  fingerprint ← Fingerprint_from_bytes (sha256 leaf);
  let serial := Z.max (be_val (take 8 fingerprint)) 1 in
  not_before_epoch_seconds ← epoch_u64 not_before;
  not_after_epoch_seconds ← epoch_u64 not_after;
  Ok {| ic_certificate_chain := [leaf; issuer_certificate]; ic_fingerprint := fingerprint;
        ic_app_identity := app_identity; ic_serial := serial;
        ic_not_before_epoch_seconds := not_before_epoch_seconds;
        ic_not_after_epoch_seconds := not_after_epoch_seconds |}.

Definition issue_certificate (io : PkiIo) (config : SecurityConfig) (expected_uid : Z) (app_id csr_bytes : list byte)
    (allowlist_generation : Z) (fs : FileSystem) : eresult IssuedCertificate :=
  derived_app_id ← app_id_from_csr csr_bytes;
  if bool_decide (derived_app_id ≠ app_id) then Err CsrMismatch else
  issue_certificate_with_intermediate io config expected_uid derived_app_id csr_bytes allowlist_generation
    (sc_device_intermediate_certificate config) (sc_device_intermediate_private_key config) fs.

Definition issue_core_certificate (io : PkiIo) (config : SecurityConfig) (expected_uid : Z) (csr_bytes : list byte)
    (fs : FileSystem) : eresult IssuedCertificate :=
  app_id ← app_id_from_csr csr_bytes;
  issue_certificate_with_intermediate io config expected_uid app_id csr_bytes 1
    (sc_core_enrollment_intermediate_certificate config) (sc_core_enrollment_intermediate_private_key config) fs.

(** * Facts *)

(** ** What an issuance establishes *)

(** The request: its signature is valid and its name is the digest of its key. *)
Record csr_accepted (app_id csr_bytes identity : list byte) (csr : ParsedCsr) : Prop := {
  ca_parsed : csr_from_der csr_bytes = Some csr;
  ca_signature : pc_signature_valid csr = true;
  ca_identity : identity = sha256 (pc_spki_raw csr) ∧ identity ≠ zeros 32;
  ca_app_id : app_id = encode_hex identity;
  ca_common_name : pc_common_name csr = Some app_id;
  ca_size : len csr_bytes ≤ MAX_CSR_BYTES;
}.

(** The issuer: the protected files of the purpose, and a chain that is valid now. *)
Record issuer_accepted (io : PkiIo) (config : SecurityConfig) (uid : Z) (certificate_path key_path : path)
    (fs : FileSystem) (der : list byte) (issuer : Issuer) : Prop := {
  ia_material : ∃ certificate key root,
    read_protected_file (pk_certificate_io io) certificate_path uid Public MAX_PUBLIC_MATERIAL_BYTES fs fs = Ok certificate
    ∧ read_protected_file (pk_key_io io) key_path uid Private MAX_PRIVATE_MATERIAL_BYTES fs fs = Ok key
    ∧ read_protected_file (pk_root_io io) (sc_public_root_certificate config) uid Public MAX_PUBLIC_MATERIAL_BYTES fs fs = Ok root
    ∧ head (pem_certs certificate) = Some (Some der)
    ∧ (∃ root_der intermediate root_cert issuer_key,
         head (pem_certs root) = Some (Some root_der)
         ∧ parse_certificate der = Some intermediate ∧ parse_certificate root_der = Some root_cert
         ∧ is_valid_ca (pk_now io) intermediate = true ∧ is_valid_ca (pk_now io) root_cert = true
         ∧ px_issuer intermediate = px_subject root_cert ∧ px_signed_by intermediate (px_spki_raw root_cert) = true
         ∧ px_issuer root_cert = px_subject root_cert ∧ px_signed_by root_cert (px_spki_raw root_cert) = true
         ∧ key_from_pem key = Some issuer_key ∧ public_key_raw issuer_key = px_public_key intermediate
         ∧ issuer_from_ca_cert_der der issuer_key = Some issuer);
}.

Lemma app_id_from_csr_Ok csr_bytes app_id :
  app_id_from_csr csr_bytes = Ok app_id →
  ∃ csr, csr_from_der csr_bytes = Some csr ∧ pc_signature_valid csr = true
    ∧ sha256 (pc_spki_raw csr) ≠ zeros 32 ∧ app_id = encode_hex (sha256 (pc_spki_raw csr)).
Proof.
  unfold app_id_from_csr. intros (csr & Hp%ok_or_Ok & H)%bind_Ok. destruct (pc_signature_valid csr) eqn:Hs; [|done]. simpl in H.
  case_bool_decide; [done|]. unfold AppId_new in H. destruct (identity_refused _); [done|]. apply Ok_inj in H as <-.
  by exists csr.
Qed.

Lemma check_csr_Ok app_id csr_bytes generation identity :
  check_csr app_id csr_bytes generation = Ok identity →
  ∃ csr, csr_from_der csr_bytes = Some csr ∧ pc_signature_valid csr = true ∧ pc_common_name csr = Some app_id
    ∧ identity = sha256 (pc_spki_raw csr) ∧ identity ≠ zeros 32 ∧ len csr_bytes ≤ MAX_CSR_BYTES ∧ generation ≠ 0.
Proof.
  unfold check_csr. intros (m & Hm & H)%bind_Ok. destruct (Z.eqb_spec generation 0); [done|].
  apply bind_Ok in H as (csr & Hp%ok_or_Ok & H). destruct (pc_signature_valid csr) eqn:Hs; [|done]. simpl in H.
  apply bind_Ok in H as (cn & Hcn%ok_or_Ok & H). case_bool_decide as Hne; [done|]. case_bool_decide; [done|]. apply Ok_inj in H as <-.
  unfold CsrMetadata_from_bytes in Hm. destruct (_ || _) eqn:Hsz; [done|]. bool_facts. exists csr. subst cn. done.
Qed.

Lemma load_issuer_Ok io config uid certificate_path key_path fs der issuer :
  load_issuer io config uid certificate_path key_path fs = Ok (der, issuer) →
  issuer_accepted io config uid certificate_path key_path fs der issuer.
Proof.
  unfold load_issuer, read_material, first_pem_certificate.
  intros (certificate & Hc%map_err_Ok & (key & Hk%map_err_Ok & (root & Hr%map_err_Ok & H)%bind_Ok)%bind_Ok)%bind_Ok.
  apply bind_Ok in H as (d & (o & Ho%ok_or_Ok & Hd%ok_or_Ok)%bind_Ok & H). subst o.
  apply bind_Ok in H as (rd & (o & Hro%ok_or_Ok & Hrd%ok_or_Ok)%bind_Ok & H). subst o.
  apply bind_Ok in H as (pint & Hpi%ok_or_Ok & H). apply bind_Ok in H as (proot & Hpr%ok_or_Ok & H).
  apply bind_Ok in H as ([] & Hv & H). unfold validate_device_intermediate_chain in Hv. destruct (_ || _) eqn:Hc0 in Hv; [done|]. bool_facts.
  apply bind_Ok in H as (kt & Hkt%ok_or_Ok & H). apply from_utf8_Some in Hkt as [-> _].
  apply bind_Ok in H as (ik & Hik%ok_or_Ok & H). case_bool_decide as Hpk; [done|].
  apply bind_Ok in H as (iss & Hiss%ok_or_Ok & H). apply Ok_inj in H as [= <- <-].
  split. exists certificate, key, root. split_and!; try done. exists rd, pint, proot, ik. split_and!; done.
Qed.

Lemma issue_with_intermediate_Ok io config uid app_id csr_bytes generation certificate_path key_path fs issued :
  issue_certificate_with_intermediate io config uid app_id csr_bytes generation certificate_path key_path fs = Ok issued →
  app_id_from_csr csr_bytes = Ok app_id →
  (∃ csr, csr_accepted app_id csr_bytes (ic_app_identity issued) csr)
  ∧ (∃ leaf der issuer public_key,
       issuer_accepted io config uid certificate_path key_path fs der issuer
       ∧ csr_public_key csr_bytes = Some public_key
       ∧ signed_by (pk_entropy io) (leaf_params app_id (pk_now io - 60) (pk_now io + 90 * 86400)) public_key issuer = Some leaf
       ∧ ic_certificate_chain issued = [leaf; der] ∧ ic_fingerprint issued = sha256 leaf)
  ∧ ic_fingerprint issued ≠ zeros 32 ∧ 1 ≤ ic_serial issued ∧ generation ≠ 0
  ∧ 0 ≤ ic_not_before_epoch_seconds issued
  ∧ ic_not_before_epoch_seconds issued = pk_now io - 60
  ∧ ic_not_after_epoch_seconds issued = pk_now io + CERTIFICATE_VALIDITY_SECS.
Proof.
  unfold issue_certificate_with_intermediate. intros (identity & Hcsr & H)%bind_Ok (csr' & Hp' & _ & _ & Hid')%app_id_from_csr_Ok.
  apply check_csr_Ok in Hcsr as (csr & Hp & Hs & Hcn & -> & Hnz & Hsz & Hg). assert (csr' = csr) as -> by congruence.
  apply bind_Ok in H as ([der issuer] & Hi%load_issuer_Ok & H). apply bind_Ok in H as (pk & Hpk%ok_or_Ok & H).
  apply bind_Ok in H as (nb & Hnb & H). apply bind_Ok in H as (na & Hna & H).
  unfold offset_date_time in Hnb, Hna. destruct (_ && _) eqn:Hx in Hnb; [|done]. apply Ok_inj in Hnb as <-. clear Hx.
  destruct (_ && _) eqn:Hx in Hna; [|done]. apply Ok_inj in Hna as <-. clear Hx.
  apply bind_Ok in H as (leaf & Hleaf%ok_or_Ok & H). apply bind_Ok in H as (fp & Hfp & H).
  unfold Fingerprint_from_bytes in Hfp. destruct (bool_decide _) eqn:Hz in Hfp; [done|]; apply bool_decide_eq_false in Hz. apply Ok_inj in Hfp as <-.
  apply bind_Ok in H as (t1 & H1 & H). apply bind_Ok in H as (t2 & H2 & H).
  unfold epoch_u64 in H1, H2. destruct (Z.ltb_spec (pk_now io - 60) 0); [done|]. apply Ok_inj in H1 as <-.
  destruct (pk_now io + _ <? 0); [done|]. apply Ok_inj in H2 as <-. apply Ok_inj in H as <-. simpl.
  split; [exists csr; by split|]. split; [by exists leaf, der, issuer, pk|].
  unfold CERTIFICATE_VALIDITY_SECS. split_and!; try done; lia.
Qed.

Lemma app_id_from_csr_returns csr_bytes : returns (app_id_from_csr csr_bytes).
Proof.
  unfold app_id_from_csr, AppId_new. no_panic.
Qed.

Lemma check_csr_returns app_id csr_bytes generation : returns (check_csr app_id csr_bytes generation).
Proof.
  unfold check_csr, CsrMetadata_from_bytes, CsrMetadata_from_digest, CsrDigest_from_bytes. no_panic.
Qed.

Lemma load_issuer_returns io config uid p k fs : returns (load_issuer io config uid p k fs).
Proof.
  unfold load_issuer, read_material, first_pem_certificate, validate_device_intermediate_chain.
  do 3 (apply bind_returns; [apply map_err_returns, read_protected_file_returns|intros ? _]).
  do 2 (apply bind_returns; [apply bind_returns; [apply ok_or_returns|intros; apply ok_or_returns]|intros ? _]).
  do 2 (apply bind_returns; [apply ok_or_returns|intros ? _]). apply bind_returns; [no_panic|intros _ _].
  do 2 (apply bind_returns; [apply ok_or_returns|intros ? _]). no_panic.
Qed.

Lemma issue_with_intermediate_returns io config uid app_id csr_bytes generation p k fs :
  0 ≤ pk_now io ≤ 253392000000 →
  returns (issue_certificate_with_intermediate io config uid app_id csr_bytes generation p k fs).
Proof.
  intros Hnow. unfold issue_certificate_with_intermediate, offset_date_time, Fingerprint_from_bytes, epoch_u64.
  apply bind_returns; [apply check_csr_returns|intros identity _]. apply bind_returns; [apply load_issuer_returns|intros [der issuer] _].
  apply bind_returns; [apply ok_or_returns|intros pk _].
  rewrite !(proj2 (andb_true_iff _ _)) by (split; apply Z.leb_le; lia). cbn [mbind outcome_bind].
  apply bind_returns; [apply ok_or_returns|intros leaf _]. no_panic.
Qed.
End Pki.

(** * Properties *)

(** C39. A certificate is only ever issued for the key that signed the request, by the
    intermediate of its purpose, for clients and for ninety days.  When [issue_certificate]
    succeeds, the request carries a valid signature and its common name is the digest of its
    key and the identity asked for; the issuer and its key came from the protected files
    configured for the device (for [issue_core_certificate]: for Core enrollment), form with
    the public root a chain of certification authorities valid now, and belong together; the
    leaf was signed for the key of the request with client authentication only, and the chain,
    fingerprint, serial and validity reported are those of that leaf, ready for the
    allowlist.  No call panics while the clock is within the years of the date type. *)
Theorem certificates_bound_to_purpose {Key Issuer PublicKey : Type} sha256 csr_from_der parse_certificate pem_certs
    (key_from_pem : list byte → option Key) public_key_raw
    (issuer_from_ca_cert_der : list byte → Key → option Issuer) (csr_public_key : list byte → option PublicKey) signed_by
    io config uid fs :
  0 ≤ pk_now io ≤ 253392000000 →
  let issue := issue_certificate sha256 csr_from_der parse_certificate pem_certs key_from_pem public_key_raw
                 issuer_from_ca_cert_der csr_public_key signed_by io config uid in
  let issue_core := issue_core_certificate sha256 csr_from_der parse_certificate pem_certs key_from_pem public_key_raw
                      issuer_from_ca_cert_der csr_public_key signed_by io config uid in
  let accepted := issuer_accepted parse_certificate pem_certs key_from_pem public_key_raw issuer_from_ca_cert_der io config uid in
  let signed app_id csr der issuer issued := ∃ leaf public_key,
        csr_public_key csr = Some public_key
        ∧ signed_by (pk_entropy io) (leaf_params app_id (pk_now io - 60) (pk_now io + CERTIFICATE_VALIDITY_SECS)) public_key issuer
          = Some leaf
        ∧ ic_certificate_chain issued = [leaf; der] ∧ ic_fingerprint issued = sha256 leaf in
  (∀ app_id csr generation, returns (issue app_id csr generation fs))
  ∧ (∀ csr, returns (issue_core csr fs))
  ∧ (∀ app_id csr generation issued, issue app_id csr generation fs = Ok issued →
       (∃ parsed, csr_accepted sha256 csr_from_der app_id csr (ic_app_identity issued) parsed)
       ∧ (∃ der issuer,
            accepted (sc_device_intermediate_certificate config) (sc_device_intermediate_private_key config) fs der issuer
            ∧ signed app_id csr der issuer issued)
       ∧ ∀ g, g ≠ 0 → 60 < pk_now io →
           IssuedCertificate_metadata app_id g issued
           = Ok {| cm_app_id := app_id; cm_fingerprint := ic_fingerprint issued; cm_serial := ic_serial issued;
                   cm_allowlist_generation := g; cm_not_before_epoch_seconds := pk_now io - 60;
                   cm_not_after_epoch_seconds := pk_now io + CERTIFICATE_VALIDITY_SECS |})
  ∧ (∀ csr issued, issue_core csr fs = Ok issued →
       ∃ app_id,
         (∃ parsed, csr_accepted sha256 csr_from_der app_id csr (ic_app_identity issued) parsed)
         ∧ ∃ der issuer,
             accepted (sc_core_enrollment_intermediate_certificate config)
               (sc_core_enrollment_intermediate_private_key config) fs der issuer
             ∧ signed app_id csr der issuer issued).
Proof.
  intros Hnow issue issue_core accepted signed.
  assert (Hret : ∀ app_id csr generation p k,
    returns (issue_certificate_with_intermediate sha256 csr_from_der parse_certificate pem_certs key_from_pem public_key_raw
      issuer_from_ca_cert_der csr_public_key signed_by io config uid app_id csr generation p k fs)).
  { intros. by apply issue_with_intermediate_returns. }
  split_and!.
  - intros. apply bind_returns; [apply app_id_from_csr_returns|]. intros derived _. case_bool_decide; [done|apply Hret].
  - intros. apply bind_returns; [apply app_id_from_csr_returns|]. intros app_id _. apply Hret.
  - intros app_id csr generation issued (derived & Hd & H)%bind_Ok. case_bool_decide as Hne; [done|]. subst derived.
    destruct (issue_with_intermediate_Ok _ _ _ _ _ _ _ _ _ _ _ _ _ _ _ _ _ _ _ H Hd)
      as (Hcsr & (leaf & der & issuer & pk & Hi & Hpk & Hs & Hch & Hfp) & _ & Hser & _ & Hnn & Hnb & Hna).
    split; [done|]. split; [exists der, issuer; split; [done|]; by exists leaf, pk|].
    intros g Hg H60. unfold IssuedCertificate_metadata, CertificateMetadata_new. rewrite Hnb, Hna.
    unfold CERTIFICATE_VALIDITY_SECS.
    rewrite !(proj2 (Z.eqb_neq _ _)), (proj2 (Z.leb_gt _ _)) by lia. done.
  - intros csr issued (app_id & Hd & H)%bind_Ok. exists app_id.
    destruct (issue_with_intermediate_Ok _ _ _ _ _ _ _ _ _ _ _ _ _ _ _ _ _ _ _ H Hd)
      as (Hcsr & (leaf & der & issuer & pk & Hi & Hpk & Hs & Hch & Hfp) & _).
    split; [done|]. exists der, issuer. split; [done|]. by exists leaf, pk.
Qed.

(** ** Witness *)
Definition example_material (name : string) : path := path_join (components (str_lit "/m")) (str_lit name).
Definition example_material_node (mode : Z) (content : string) : Node :=
  {| nd_kind := IsFile; nd_uid := 5; nd_mode := mode; nd_dev := 1; nd_ino := 9; nd_bytes := str_lit content |}.
Definition example_material_fs : FileSystem :=
  {[ components (str_lit "/m") := {| nd_kind := IsDir; nd_uid := 5; nd_mode := 448; nd_dev := 1; nd_ino := 2; nd_bytes := [] |};
     example_material "intermediate" := example_material_node 420 "intermediate";
     example_material "key" := example_material_node 384 "key";
     example_material "root" := example_material_node 420 "root" ]}.
Definition example_pki_config : SecurityConfig :=
  {| sc_mode := Verified; sc_ca_generation := 1; sc_server_certificate := []; sc_server_private_key := [];
     sc_trusted_client_ca := []; sc_trusted_core_enrollment_ca := []; sc_core_enrollment_intermediate_certificate := [];
     sc_core_enrollment_intermediate_private_key := [];
     sc_device_intermediate_certificate := example_material "intermediate";
     sc_device_intermediate_private_key := example_material "key";
     sc_public_root_certificate := example_material "root" |}.
(** A certificate whose names and key are its own text; both are signed by the root. *)
Definition example_parse_certificate (der : list byte) : option ParsedCertificate :=
  Some {| px_valid_at := λ now, now <? 2000000000; px_basic_constraints_ca := Some true; px_key_cert_sign := Some true;
          px_issuer := str_lit "root"; px_subject := der; px_spki_raw := der; px_public_key := str_lit "key";
          px_signed_by := λ key, bool_decide (key = str_lit "root") |}.
Definition example_digest (bytes : list byte) : list byte := take 32 (bytes ++ repeat x01 32).
Definition example_app : list byte := encode_hex (example_digest (str_lit "app")).
Definition example_csr_from_der (bytes : list byte) : option ParsedCsr :=
  Some {| pc_signature_valid := true; pc_spki_raw := bytes; pc_common_name := Some (encode_hex (example_digest bytes)) |}.
Definition example_pki_io : PkiIo :=
  {| pk_certificate_io := sound_io 5; pk_key_io := sound_io 5; pk_root_io := sound_io 5; pk_now := 1700000000;
     pk_entropy := 0 |}.
Definition example_issue : eresult IssuedCertificate :=
  issue_certificate example_digest example_csr_from_der example_parse_certificate (λ bytes, [Some bytes]) Some id
    (λ der key, Some (der, key)) Some (λ n params key issuer, Some (str_lit "leaf of " ++ key)) example_pki_io
    example_pki_config 5 example_app (str_lit "app") 3 example_material_fs.

Lemma certificates_bound_to_purpose_witness :
  ∃ issued, example_issue = Ok issued
    ∧ ic_certificate_chain issued = [str_lit "leaf of app"; str_lit "intermediate"]
    ∧ IssuedCertificate_metadata example_app 3 issued
      = Ok {| cm_app_id := example_app; cm_fingerprint := ic_fingerprint issued; cm_serial := ic_serial issued;
              cm_allowlist_generation := 3; cm_not_before_epoch_seconds := 1699999940;
              cm_not_after_epoch_seconds := 1707776000 |}.
Proof.
  destruct (certificates_bound_to_purpose example_digest example_csr_from_der example_parse_certificate (λ bytes, [Some bytes])
    Some id (λ der key, Some (der, key)) Some (λ n params key issuer, Some (str_lit "leaf of " ++ key)) example_pki_io
    example_pki_config 5 example_material_fs ltac:(vm_compute; split; discriminate)) as (_ & _ & Hissue & _).
  destruct example_issue as [issued|e|] eqn:Hr; [|vm_compute in Hr; discriminate|vm_compute in Hr; discriminate].
  exists issued. split; [reflexivity|]. split; [vm_compute in Hr; injection Hr as <-; reflexivity|].
  destruct (Hissue example_app (str_lit "app") 3 issued Hr) as (_ & _ & Hm).
  exact (Hm 3 ltac:(discriminate) ltac:(vm_compute; reflexivity)).
Defined.
