(* ===== verification/Tasks.v ===== *)
(** * Interleaved tasks

    The connection handlers of src/src/quic_server.rs run concurrently and meet in the locked
    stores they share.  A [task] is a handler cut at its uses of the shared state: it has
    finished, or it waits for its next uninterrupted use.  A system is a shared state with its
    tasks; a schedule says whose turn it is.  A task that is never scheduled again is one that
    was dropped or aborted. *)
From S2P Require Export Prelude.

Inductive task (S A : Type) : Type :=
| Finished (a : A)
| Await (use : S → S * task S A).
Arguments Finished {S A} a.
Arguments Await {S A} use.

(** ** Fallible tasks

    [serving S L E A]: a handler with a local state [L] (its connection), which no other task
    sees. *)
Definition serving (S L E A : Type) : Type := L → task S (L * outcome E A).

Fixpoint task_bind {S A B} (t : task S A) (f : A → task S B) : task S B :=
  match t with
  | Finished a => f a
  | Await use => Await (λ s, let '(s', t') := use s in (s', task_bind t' f))
  end.

Section Serving.
Context {S L E : Type}.

Definition sv_ret {A} (a : A) : serving S L E A := λ l, Finished (l, Ok a).
Definition sv_err {A} (e : E) : serving S L E A := λ l, Finished (l, Err e).
Definition sv_lift {A} (m : outcome E A) : serving S L E A := λ l, Finished (l, m).
Definition sv_bind {A B} (m : serving S L E A) (f : A → serving S L E B) : serving S L E B := λ l,
  task_bind (m l) (λ '(l', r), match r with
                               | Ok a => f a l'
                               | Err e => Finished (l', Err e)
                               | Panic => Finished (l', Panic)
                               end).
(** A step on the connection alone. *)
Definition locally {A} (m : stateful L E A) : serving S L E A := λ l, Finished (m l).
(** One uninterrupted use of the shared state; its outcome is a value. *)
Definition atomically {A E'} (m : stateful S E' A) : serving S L E (outcome E' A) := λ l,
  Await (λ s, let '(s', r) := m s in (s', Finished (l, Ok r))).
(** A look at the shared state. *)
Definition observing {A} (f : S → A) : serving S L E A := λ l, Await (λ s, (s, Finished (l, Ok (f s)))).
(** The outcome of a handler as a value: [let result = f().await]. *)
Definition caught {A} (m : serving S L E A) : serving S L E (outcome E A) := λ l,
  task_bind (m l) (λ '(l', r), Finished (l', Ok r)).
End Serving.

Declare Scope task_scope.
Delimit Scope task_scope with task.
Notation "'let!' x ':=' m 'in' k" := (sv_bind m (λ x, k))
  (at level 10, x name, m at level 100, k at level 200) : task_scope.
Notation "'do!' m ; k" := (sv_bind m (λ _, k))
  (at level 10, m at level 100, k at level 200) : task_scope.

(** ** Systems *)
Definition run_task {S A} (i : nat) (sys : S * list (task S A)) : S * list (task S A) :=
  match sys.2 !! i with
  | Some (Await use) => let '(s', t') := use sys.1 in (s', <[i := t']> sys.2)
  | _ => sys
  end.

Definition run_schedule {S A} (schedule : list nat) (sys : S * list (task S A)) : S * list (task S A) :=
  fold_left (λ sys i, run_task i sys) schedule sys.

(** The task finishes within [n] turns, whatever the other tasks do with the shared state in
    between, and with a result in [Q]. *)
Fixpoint settles {S A} (n : nat) (Q : A → Prop) (t : task S A) {struct t} : Prop :=
  match t with
  | Finished a => Q a
  | Await use => match n with
                 | O => False
                 | Datatypes.S n' => ∀ s, match use s with (_, t') => settles n' Q t' end
                 end
  end.

(** * Facts *)

(** Induction through the steps of a task. *)
Lemma task_ind' {S A} (P : task S A → Prop) :
  (∀ a, P (Finished a)) → (∀ use, (∀ s, P (use s).2) → P (Await use)) → ∀ t, P t.
Proof.
  intros Hf Ha. fix IH 1. intros [a|use]; [apply Hf|]. apply Ha. intros s.
  destruct (use s) as [s' t']. apply IH.
Qed.

(** ** Safety

    [task_safe P t s]: from any later state with the invariant [I] the task keeps [I], every
    step is one the other tasks can bear ([grows], a preorder), and it finishes with [P]. *)
Section Safety.
Context {S : Type} (I : S → Prop) (grows : S → S → Prop).
Context (grows_refl : ∀ s, grows s s) (grows_trans : ∀ a b c, grows a b → grows b c → grows a c).

Fixpoint task_safe {A} (P : A → S → Prop) (t : task S A) (s0 : S) : Prop :=
  match t with
  | Finished a => P a s0
  | Await use => ∀ s, grows s0 s → I s →
      match use s with (s', t') => I s' ∧ grows s s' ∧ task_safe P t' s' end
  end.

(** A postcondition no other task can break. *)
Definition lasting {A} (P : A → S → Prop) : Prop := ∀ a s s', P a s → grows s s' → P a s'.

Lemma task_safe_conseq {A} (P Q : A → S → Prop) t s :
  (∀ a s, P a s → Q a s) → task_safe P t s → task_safe Q t s.
Proof.
  intros HPQ. revert s. induction t as [a|use IH] using task_ind'; intros s; simpl; [apply HPQ|].
  intros H s1 Hg HI. specialize (H s1 Hg HI). specialize (IH s1). destruct (use s1) as [s' t'].
  destruct H as (H1 & H2 & H3). split_and!; [done|done|]. by apply IH.
Qed.

Lemma task_safe_later {A} (P : A → S → Prop) t s s' :
  lasting P → task_safe P t s → grows s s' → task_safe P t s'.
Proof.
  intros HP. destruct t as [a|use]; simpl; [intros Ha Hg; by eapply HP|].
  intros H Hg s1 Hg1. apply H. by eapply grows_trans.
Qed.

Lemma task_safe_bind {A B} (P : A → S → Prop) (Q : B → S → Prop) t f s :
  task_safe P t s → (∀ a s, P a s → task_safe Q (f a) s) → task_safe Q (task_bind t f) s.
Proof.
  intros Ht Hf. revert s Ht. induction t as [a|use IH] using task_ind'; intros s; simpl; [apply Hf|].
  intros H s1 Hg HI. specialize (H s1 Hg HI). specialize (IH s1). destruct (use s1) as [s' t'].
  destruct H as (H1 & H2 & H3). split_and!; [done|done|]. by apply IH.
Qed.

Lemma task_safe_grows {A} (P : A → S → Prop) t s0 s :
  grows s0 s → task_safe P t s → task_safe (λ a s', P a s' ∧ grows s0 s') t s.
Proof.
  revert s. induction t as [a|use IH] using task_ind'; intros s Hg0; simpl; [done|].
  intros H s1 Hg HI. specialize (H s1 Hg HI). specialize (IH s1). destruct (use s1) as [s' t'].
  destruct H as (H1 & H2 & H3). split_and!; [done|done|]. apply IH; [|done].
  eapply grows_trans; [exact Hg0|]. by eapply grows_trans.
Qed.

Lemma run_task_safe {A} (P : A → S → Prop) i s ts s' ts' :
  lasting P → I s → (∀ t, t ∈ ts → task_safe P t s) → run_task i (s, ts) = (s', ts') →
  I s' ∧ grows s s' ∧ ∀ t, t ∈ ts' → task_safe P t s'.
Proof.
  intros HP HI Hts. unfold run_task. simpl. destruct (ts !! i) as [[a|use]|] eqn:Hi; [intros [= <- <-]; done| |intros [= <- <-]; done].
  pose proof (Hts _ (list_elem_of_lookup_2 _ _ _ Hi)) as Hsafe. simpl in Hsafe. specialize (Hsafe s (grows_refl s) HI).
  destruct (use s) as [s1 t1]. destruct Hsafe as (H1 & H2 & H3). intros [= <- <-]. split_and!; [done|done|].
  intros t (j & Hj)%list_elem_of_lookup_1. apply list_lookup_insert_Some in Hj as [(-> & -> & _)|[_ Hj]]; [done|].
  eapply task_safe_later; [done| |done]. by eapply Hts, list_elem_of_lookup_2.
Qed.

(** Whatever the order of the steps, the invariant holds at the end, and what has finished
    has kept its promise. *)
Lemma run_schedule_safe {A} (P : A → S → Prop) schedule s ts s' ts' :
  lasting P → I s → (∀ t, t ∈ ts → task_safe P t s) → run_schedule schedule (s, ts) = (s', ts') →
  I s' ∧ grows s s' ∧ ∀ t, t ∈ ts' → task_safe P t s'.
Proof.
  intros HP. revert s ts. induction schedule as [|i schedule IH]; intros s ts HI Hts; simpl; [by intros [= <- <-]|].
  destruct (run_task i (s, ts)) as [s1 ts1] eqn:Hr. destruct (run_task_safe P i s ts s1 ts1 HP HI Hts Hr) as (H1 & H2 & H3).
  intros Hrun. destruct (IH s1 ts1 H1 H3 Hrun) as (H4 & H5 & H6). split_and!; [done|by eapply grows_trans|done].
Qed.

(** *** Handlers *)
Context {L E : Type}.

Definition sv_safe {A} (Q : outcome E A → L → S → Prop) (m : serving S L E A) (l : L) (s : S) : Prop :=
  task_safe (λ lr s, Q lr.2 lr.1 s) (m l) s.

Lemma sv_safe_ret {A} (Q : outcome E A → L → S → Prop) a l s : Q (Ok a) l s → sv_safe Q (sv_ret a) l s.
Proof. done. Qed.
Lemma sv_safe_err {A} (Q : outcome E A → L → S → Prop) e l s : Q (Err e) l s → sv_safe Q (sv_err e) l s.
Proof. done. Qed.
Lemma sv_safe_lift {A} (Q : outcome E A → L → S → Prop) m l s : Q m l s → sv_safe Q (sv_lift m) l s.
Proof. done. Qed.
Lemma sv_safe_locally {A} (Q : outcome E A → L → S → Prop) (m : stateful L E A) l s :
  Q (m l).2 (m l).1 s → sv_safe Q (locally m) l s.
Proof. done. Qed.

Lemma sv_safe_bind {A B} (Q : outcome E B → L → S → Prop) (m : serving S L E A) (f : A → serving S L E B) l s :
  sv_safe (λ r l s, match r with
                    | Ok a => sv_safe Q (f a) l s
                    | Err e => Q (Err e) l s
                    | Panic => Q Panic l s
                    end) m l s →
  sv_safe Q (sv_bind m f) l s.
Proof.
  intros Hm. unfold sv_safe, sv_bind. eapply task_safe_bind; [exact Hm|]. intros [l' [a|e|]] s'; simpl; done.
Qed.

Lemma sv_safe_caught {A} (Q : outcome E (outcome E A) → L → S → Prop) (m : serving S L E A) l s :
  sv_safe (λ r l s, Q (Ok r) l s) m l s → sv_safe Q (caught m) l s.
Proof. intros Hm. unfold sv_safe, caught. eapply task_safe_bind; [exact Hm|]. by intros [l' r] s'. Qed.

Lemma sv_safe_conseq {A} (Q Q' : outcome E A → L → S → Prop) (m : serving S L E A) l s :
  (∀ r l s, Q r l s → Q' r l s) → sv_safe Q m l s → sv_safe Q' m l s.
Proof. intros H. apply task_safe_conseq. by intros [l' r] s'; apply H. Qed.

(** One use of the shared state, by its [wp]. *)
Lemma sv_safe_atomically {A E'} (Q : outcome E (outcome E' A) → L → S → Prop) (m : stateful S E' A) l s :
  (∀ s1, grows s s1 → I s1 → wp m (λ r s2, I s2 ∧ grows s1 s2 ∧ Q (Ok r) l s2) s1) → sv_safe Q (atomically m) l s.
Proof.
  intros Hm. unfold sv_safe, atomically. simpl. intros s1 Hg HI. specialize (Hm s1 Hg HI). unfold wp in Hm.
  destruct (m s1) as [s2 r]. destruct Hm as (H1 & H2 & H3). done.
Qed.

Lemma sv_safe_observing {A} (Q : outcome E A → L → S → Prop) (f : S → A) l s :
  (∀ s1, grows s s1 → I s1 → Q (Ok (f s1)) l s1) → sv_safe Q (observing f) l s.
Proof. intros H. unfold sv_safe, observing. simpl. intros s1 Hg HI. split_and!; [done|apply grows_refl|by apply H]. Qed.
End Safety.

(** ** Progress *)
Section Progress.
Context {S : Type}.

Lemma settles_weaken {A} n m (Q Q' : A → Prop) (t : task S A) :
  (n ≤ m)%nat → (∀ a, Q a → Q' a) → settles n Q t → settles m Q' t.
Proof.
  intros Hnm HQ. revert n m Hnm. induction t as [a|use IH] using task_ind'; intros n m Hnm; simpl; [apply HQ|].
  destruct n as [|n]; [done|]. destruct m as [|m]; [lia|]. intros H s. specialize (H s). specialize (IH s).
  destruct (use s) as [s' t']. eapply IH; [|exact H]. lia.
Qed.

Lemma settles_bind {A B} n m (R : A → Prop) (Q : B → Prop) (t : task S A) (f : A → task S B) :
  settles n R t → (∀ a, R a → settles m Q (f a)) → settles (n + m) Q (task_bind t f).
Proof.
  intros Ht Hf. revert n Ht. induction t as [a|use IH] using task_ind'; intros n; simpl.
  - intros Ha. eapply settles_weaken; [|done|by apply Hf]. lia.
  - destruct n as [|n]; [done|]. intros H s. specialize (H s). specialize (IH s n). destruct (use s) as [s' t']. by apply IH.
Qed.

(** The turns a schedule gives to a task. *)
Definition turns (i : nat) (schedule : list nat) : nat := length (List.filter (Nat.eqb i) schedule).

(** A task that needs [n] turns has finished once a schedule has given it [n] turns. *)
Lemma run_schedule_settles {A} schedule i n s (ts : list (task S A)) t Q :
  ts !! i = Some t → settles n Q t → (n ≤ turns i schedule)%nat →
  ∃ a, (run_schedule schedule (s, ts)).2 !! i = Some (Finished a) ∧ Q a.
Proof.
  revert n s ts t. unfold turns. induction schedule as [|j schedule IH]; intros n s ts t Hi Hn Hc; simpl in *.
  - destruct t as [a|use]; [by exists a|]. destruct n; [done|lia].
  - unfold run_task. simpl. destruct (Nat.eqb_spec i j) as [<-|Hij]; simpl in Hc.
    + rewrite Hi. destruct t as [a|use]; [by eapply (IH 0%nat); [..|simpl; lia]|].
      destruct n as [|n]; [done|]. simpl in Hn. specialize (Hn s). destruct (use s) as [s' t'].
      eapply (IH n); [|exact Hn|lia]. apply list_lookup_insert_eq. by eapply lookup_lt_Some.
    + destruct (ts !! j) as [[a|use]|] eqn:Hj; [by eapply IH| |by eapply IH].
      destruct (use s) as [s' t']. eapply IH; [|exact Hn|done]. by rewrite list_lookup_insert_ne.
Qed.

(** *** Handlers

    [ends n P m Q]: from a connection with [P] the handler finishes within [n] turns, and its
    result and its connection then satisfy [Q]. *)
Context {L E : Type}.

Definition ends {A} (n : nat) (P : L → Prop) (m : serving S L E A) (Q : outcome E A → L → Prop) : Prop :=
  ∀ l, P l → settles n (λ lr, Q lr.2 lr.1) (m l).

Lemma ends_lift {A} n (P : L → Prop) (m : outcome E A) (Q : outcome E A → L → Prop) :
  (∀ l, P l → Q m l) → ends n P (sv_lift m) Q.
Proof. by intros H l Hl; apply H. Qed.
Lemma ends_ret {A} n (P : L → Prop) (a : A) (Q : outcome E A → L → Prop) : (∀ l, P l → Q (Ok a) l) → ends n P (sv_ret a) Q.
Proof. apply ends_lift. Qed.
Lemma ends_locally {A} n (P : L → Prop) (m : stateful L E A) (Q : outcome E A → L → Prop) :
  (∀ l, P l → Q (m l).2 (m l).1) → ends n P (locally m) Q.
Proof. by intros H l Hl; apply H. Qed.
Lemma ends_atomically {A E'} (P : L → Prop) (m : stateful S E' A) (Q : outcome E (outcome E' A) → L → Prop) :
  (∀ l r, P l → Q (Ok r) l) → ends 1 P (atomically m) Q.
Proof. intros H l Hl s. simpl. destruct (m s) as [s' r]. by apply H. Qed.
Lemma ends_observing {A} (P : L → Prop) (f : S → A) (Q : outcome E A → L → Prop) :
  (∀ l a, P l → Q (Ok a) l) → ends 1 P (observing f) Q.
Proof. intros H l Hl s. by apply H. Qed.

Lemma ends_weaken {A} n n' (P P' : L → Prop) (m : serving S L E A) (Q Q' : outcome E A → L → Prop) :
  ends n P m Q → (n ≤ n')%nat → (∀ l, P' l → P l) → (∀ r l, Q r l → Q' r l) → ends n' P' m Q'.
Proof.
  intros H Hn HP HQ l Hl. eapply settles_weaken; [done| |apply H, HP, Hl]. intros [l' r]. apply HQ.
Qed.

Lemma ends_bind {A B} n m (P : L → Prop) R Q (h : serving S L E A) (f : A → serving S L E B) :
  ends n P h R → (∀ l e, R (Err e) l → Q (Err e) l) → (∀ l, R Panic l → Q Panic l) →
  (∀ a, ends m (R (Ok a)) (f a) Q) → ends (n + m) P (sv_bind h f) Q.
Proof.
  intros Hh He Hp Hf l Hl. eapply settles_bind; [by apply Hh|]. intros [l' [a|e|]] HR; [by apply Hf|by apply He|by apply Hp].
Qed.

(** What a handler leaves when it stops early. *)
Definition stops {A} (P : L → Prop) (Q : outcome E A → L → Prop) : Prop :=
  ∀ l, P l → (∀ e, Q (Err e) l) ∧ Q Panic l.

Lemma ends_lift_bind {A B} n (P : L → Prop) Q (m : outcome E A) (f : A → serving S L E B) :
  stops P Q → (∀ a, m = Ok a → ends n P (f a) Q) → ends n P (sv_bind (sv_lift m) f) Q.
Proof.
  intros Hs Hf l Hl. unfold sv_bind, sv_lift. simpl. destruct (Hs l Hl) as [He Hp].
  destruct m as [a|e|]; [by apply Hf|by destruct n; apply He|by destruct n; apply Hp].
Qed.
Lemma ends_atomically_bind {A B E'} n (P : L → Prop) Q (m : stateful S E' A) (f : outcome E' A → serving S L E B) :
  (∀ r, ends n P (f r) Q) → ends (1 + n) P (sv_bind (atomically m) f) Q.
Proof. intros Hf l Hl s. simpl. destruct (m s) as [s' r]. by apply Hf. Qed.
Lemma ends_observing_bind {A B} n (P : L → Prop) Q (g : S → A) (f : A → serving S L E B) :
  (∀ a, ends n P (f a) Q) → ends (1 + n) P (sv_bind (observing g) f) Q.
Proof. intros Hf l Hl s. by apply Hf. Qed.

Lemma ends_caught {A} n (P : L → Prop) (m : serving S L E A) (Q : outcome E (outcome E A) → L → Prop) :
  ends n P m (λ r l, Q (Ok r) l) → ends n P (caught m) Q.
Proof.
  intros Hm l Hl. replace n with (n + 0)%nat by lia. eapply settles_bind; [by apply Hm|]. by intros [l' r].
Qed.
End Progress.
