(* ===== verification/Services.v ===== *)
(** * What the enrollment server relies on

    The handlers of src/src/quic_server.rs meet in four components: the bootstrap runtime
    (bootstrap_runtime.rs), the issuance results (issuance.rs), the allowlist (allowlist.rs)
    and the certificate issuer (pki.rs).  Each is an interface here, with the laws the server
    needs, and an instance that proves the laws of the component's own definitions.  The state
    of a store is the object behind its mutex and the file system as far as it is concerned:
    the configured files are different files. *)
From S2P Require Import BootstrapAuthority.
From S2P Require Export Tasks Pki BootstrapRuntime Issuance Allowlist.

(** ** The interfaces *)

(** The bootstrap runtime. *)
Class BootstrapService (W Io : Type) := {
  sb_start : Io → list byte → Hdb1StartPayload → stateful W BootstrapRuntimeError BootstrapChallenge;
  sb_abort : Io → list byte → stateful W BootstrapRuntimeError unit;
  sb_submit : Io → list byte → list byte → list byte → list byte → stateful W BootstrapRuntimeError CoreIssuedMaterial;
  sb_reconcile : Io → list byte → list byte → list byte → stateful W BootstrapRuntimeError CoreIssuedMaterial;
  sb_authorize_first_app : Io → list byte → list byte → list byte → stateful W BootstrapRuntimeError Z;
  sb_confirm_first_app : Io → list byte → list byte → list byte → Z → stateful W BootstrapRuntimeError unit;
  sb_start_app_approval : Io → list byte → list byte → list byte → list byte → Z →
    stateful W BootstrapRuntimeError BootstrapChallenge;
  sb_submit_app_approval : Io → list byte → list byte → list byte → list byte → list byte → list byte →
    stateful W BootstrapRuntimeError AppApprovalContext;
}.

(** The issuance results. *)
Class ResultStore (St Io : Type) := {
  rs_find : Io → IssuanceResultKey → Z → stateful St RelayError (option IssuanceResultRecord);
  rs_find_by_authorization_id : Io → list byte → Z → stateful St RelayError (option IssuanceResultRecord);
  rs_begin_pending : Io → IssuanceResultKey → list byte → Z → Z → Z → stateful St RelayError IssuanceBeginResult;
  rs_attach_certificate : Io → IssuanceResultKey → list (list byte) → list byte → Z → Z → Z →
    stateful St RelayError IssuanceResultRecord;
  rs_mark_issued : Io → IssuanceResultKey → list (list byte) → list byte → Z → Z → Z →
    stateful St RelayError IssuanceResultRecord;
}.

(** The allowlist: what it has in memory, the calls of the server, and a revocation by another
    process on the same file. *)
Class AllowlistStore (St Io : Type) := {
  al_memory : St → AllowlistRegistry;
  al_enroll_pending : Io → CertificateMetadata → stateful St EnrollmentError AllowlistEntry;
  al_activate : Io → list byte → list byte → stateful St EnrollmentError AllowlistEntry;
  al_reload : Io → stateful St RelayError unit;
  al_revoke_elsewhere : Io → Io → list byte → stateful St EnrollmentError Z;
}.

(** The issuer of App certificates. *)
Class CertificateIssuer (Io : Type) := {
  ci_app_id_from_csr : list byte → outcome EnrollmentError (list byte);
  ci_issue_certificate : Io → list byte → list byte → Z → outcome EnrollmentError IssuedCertificate;
}.

(** ** Their laws *)

(** An operation on a file that holds [v] is a step on [v]: what it answers is what the step
    answers, and the file then holds what the step saves; a failure leaves the file. *)
Definition file_after {R} (eff : Effect (R := R)) (v : R) : R := match eff with Saved v' => v' | _ => v end.

Definition steps_as {St R E A} (holds : St → R → Prop) (m : stateful St E A) (step : R → outcome E (Effect (R := R) * A))
  : Prop :=
  ∀ s v, holds s v →
    wp m (λ r s', match r with
                  | Ok x => ∃ eff, step v = Ok (eff, x) ∧ holds s' (file_after eff v)
                  | Err _ => holds s' v
                  | Panic => False
                  end) s.

(** The calls of the runtime as values ([BootstrapOp]). *)
Definition answered_with {W E A B} (f : A → B) (m : stateful W E A) : stateful W E B := λ w,
  let '(w', r) := m w in (w', f <$> r).
Definition sb_call {W Io} `{!BootstrapService W Io} (io : Io) (op : BootstrapOp)
  : stateful W BootstrapRuntimeError BootstrapAnswer :=
  match op with
  | OpStart peer_ip payload => answered_with Challenged (sb_start io peer_ip payload)
  | OpAbort bootstrap_id => answered_with (λ _, Done) (sb_abort io bootstrap_id)
  | OpSubmit peer_ip bootstrap_id challenge code => answered_with IssuedCore (sb_submit io peer_ip bootstrap_id challenge code)
  | OpReconcile approval_id binding session => answered_with IssuedCore (sb_reconcile io approval_id binding session)
  | OpAuthorizeFirstApp core_identity approval_id digest =>
      answered_with Authorized (sb_authorize_first_app io core_identity approval_id digest)
  | OpConfirmFirstApp core_identity approval_id digest generation =>
      answered_with (λ _, Done) (sb_confirm_first_app io core_identity approval_id digest generation)
  | OpStartApp core_identity digest binding session generation =>
      answered_with Challenged (sb_start_app_approval io core_identity digest binding session generation)
  | OpSubmitApp core_identity approval_id challenge code csr digest =>
      answered_with ApprovedApp (sb_submit_app_approval io core_identity approval_id challenge code csr digest)
  end.

(** What a runtime holds: attempts by their identifier, peer, challenge and code, the Cores
    that were approved by their approval, and the approvals of later Apps under way by their
    identifier, Core, challenge and code. *)
Record Holdings : Type := {
  hg_attempt : list byte → list byte → list byte → list byte → Prop;
  hg_core : list byte → list byte → Prop;
  hg_app : list byte → list byte → list byte → list byte → Prop;
}.

(** A call and its answer, from [h] to [h']: only a start makes an attempt, with the code it
    draws, only the code of an attempt buys a Core, only for an approved Core an App's approval
    is started, with the code this draws, and Apps are authorised for their approved Core or
    by the code of their approval. *)
Record accountable (drawn : list byte → Prop) (sha256 : list byte → list byte) (op : BootstrapOp)
    (r : outcome BootstrapRuntimeError BootstrapAnswer) (h h' : Holdings) : Prop := {
  at_attempts id peer challenge code : hg_attempt h' id peer challenge code →
    hg_attempt h id peer challenge code
    ∨ ∃ payload c, op = OpStart peer payload ∧ r = Ok (Challenged c) ∧ bg_id c = id ∧ bg_challenge c = challenge ∧ drawn code;
  at_cores id core_identity : hg_core h' id core_identity →
    hg_core h id core_identity
    ∨ ∃ peer bootstrap_id challenge code, op = OpSubmit peer bootstrap_id challenge code ∧ hg_attempt h bootstrap_id peer challenge code;
  at_apps id core_identity challenge code : hg_app h' id core_identity challenge code →
    hg_app h id core_identity challenge code
    ∨ ∃ digest binding session generation c cid,
        op = OpStartApp core_identity digest binding session generation ∧ r = Ok (Challenged c)
        ∧ bg_id c = id ∧ bg_challenge c = challenge ∧ drawn code ∧ hg_core h cid core_identity;
  at_authorized core_identity approval_id digest generation :
    op = OpAuthorizeFirstApp core_identity approval_id digest → r = Ok (Authorized generation) →
    hg_core h approval_id core_identity;
  at_approved core_identity approval_id challenge code csr digest ctx :
    op = OpSubmitApp core_identity approval_id challenge code csr digest → r = Ok (ApprovedApp ctx) →
    hg_app h approval_id core_identity challenge code
    ∧ ac_approval_id ctx = approval_id ∧ ac_app_csr ctx = csr ∧ ac_app_csr_digest ctx = digest ∧ sha256 csr = digest;
}.

Class LawfulBootstrapService (W Io : Type) `{!BootstrapService W Io} (sha256 : list byte → list byte) := {
  sb_sound : Io → Prop;
  sb_wf : W → Prop;
  sb_draws : Io → list byte → Prop;
  sb_holdings : W → Holdings;
  sb_call_accountable io op w :
    sb_sound io → sb_wf w →
    wp (sb_call io op) (λ r w', sb_wf w' ∧ accountable (sb_draws io) sha256 op r (sb_holdings w) (sb_holdings w')) w;
}.

Class LawfulResultStore (St Io : Type) `{!ResultStore St Io} := {
  rs_holds : St → list IssuanceResultRecord → Prop;
  rs_sound : Io → Prop;
  rs_holds_wf st rs : rs_holds st rs → records_wf rs;
  rs_find_steps io key now : rs_sound io → 0 ≤ now → steps_as rs_holds (rs_find io key now) (find_step key now);
  rs_find_by_id_steps io id now :
    rs_sound io → 0 ≤ now → steps_as rs_holds (rs_find_by_authorization_id io id now) (find_by_authorization_id_step id now);
  rs_begin_steps io key app generation expires_at now :
    rs_sound io → op_input (BeginOp key app generation expires_at now) →
    steps_as rs_holds (rs_begin_pending io key app generation expires_at now)
      (λ rs, retained ← begin_pending_checks app generation expires_at now;
             begin_pending_step key app generation expires_at retained now rs);
  rs_attach_steps io key chain fingerprint generation not_after now :
    rs_sound io → 0 ≤ now →
    steps_as rs_holds (rs_attach_certificate io key chain fingerprint generation not_after now)
      (λ rs, _ ← issued_checks chain fingerprint generation not_after;
             attach_certificate_step key chain fingerprint generation not_after now rs);
  rs_mark_steps io key chain fingerprint generation not_after now :
    rs_sound io → 0 ≤ now →
    steps_as rs_holds (rs_mark_issued io key chain fingerprint generation not_after now)
      (λ rs, _ ← issued_checks chain fingerprint generation not_after;
             mark_issued_step key chain fingerprint generation not_after now rs);
}.

Class LawfulAllowlistStore (St Io : Type) `{!AllowlistStore St Io} := {
  al_holds : St → AllowlistRegistry → Prop;
  al_sound : Io → Prop;
  al_opens : Io → Prop;
  al_enroll_steps io certificate :
    al_sound io → cm_not_after_epoch_seconds certificate ≠ 0 →
    steps_as al_holds (al_enroll_pending io certificate) (changing (enroll_pending certificate));
  al_activate_steps io app_id fingerprint :
    al_sound io → steps_as al_holds (al_activate io app_id fingerprint) (changing (activate app_id fingerprint));
  al_reload_steps io s v :
    al_sound io → al_holds s v →
    wp (al_reload io) (λ r s', al_holds s' v ∧ (r = Ok tt → al_memory s' = v) ∧ r ≠ Panic) s;
  al_revoke_steps io io' app_id s v :
    al_sound io → al_opens io → al_sound io' → al_holds s v →
    wp (al_revoke_elsewhere io io' app_id) (λ r s', ∃ v', al_holds s' v' ∧ (v' = v ∨ v' = (revoke app_id v).1)) s;
}.

Class LawfulCertificateIssuer (Io : Type) `{!CertificateIssuer Io} := {
  ci_issue_Ok io app_id csr generation issued :
    ci_issue_certificate io app_id csr generation = Ok issued →
    ci_app_id_from_csr csr = Ok app_id ∧ 0 ≤ ic_not_before_epoch_seconds issued;
}.

(** * Facts *)

(** ** A value in a protected file *)

(** System calls that read what is there and write as the expected user.  Opening an
    allowlist also needs [al_opens], that the look-up of the file does not fail: a failed one
    counts as no file, and the allowlist there is replaced by an empty one
    ([stat_failure_resets_allowlist]). *)
Definition reads_soundly (io : MaterialIo) : Prop := ∀ bytes read, mi_read io bytes = Some read → read = bytes.

Record sound_io (uid : Z) (io : StoreIo) : Prop := {
  so_euid : mi_euid (si_persist_io io) = uid;
  so_reads : reads_soundly (si_load_io io);
}.

(** The same calls without failures, to see what a file holds. *)
Definition calm (io : MaterialIo) : MaterialIo :=
  {| mi_lstat_fails := λ _, false; mi_open_fails := false; mi_fstat_fails := false; mi_read := Some;
     mi_euid := mi_euid io; mi_umask := mi_umask io; mi_dev := mi_dev io; mi_new_ino := mi_new_ino io;
     mi_pid := mi_pid io; mi_random := mi_random io; mi_create_fails := false; mi_written := id;
     mi_write_fails := false; mi_sync_fails := false; mi_chmod_fails := false; mi_rename_fails := false |}.
Definition calm_store (io : StoreIo) : StoreIo :=
  {| si_lock_io := calm (si_lock_io io); si_lock_open_fails := false; si_lock_held := false; si_exists_fails := false;
     si_load_io := calm (si_load_io io); si_persist_io := calm (si_persist_io io) |}.

Lemma calm_store_undisturbed io : undisturbed (calm_store io).
Proof. done. Qed.

Section Held.
Context {R : Type} (print : R → relay_result (list byte)) (parse : list byte → relay_result R) (limit : Z).
Context (p : path) (uid : Z).
Context (path_parsed : parsed p) (limit_small : limit ≤ MAX_ALLOWLIST_BYTES).
Context (parse_returns : ∀ bytes, returns (parse bytes)) (print_returns : ∀ v, returns (print v)).

(** The store is the one of the path and its file holds the value. *)
Record file_value (s : Stored R * FileSystem) (v : R) : Prop := {
  fv_path : st_path s.1 = p;
  fv_uid : st_expected_uid s.1 = uid;
  fv_file : ∃ file, s.2 !! p = Some file ∧ parse (nd_bytes file) = Ok v;
}.

Lemma load_file_value io s v loaded :
  reads_soundly io → file_value s v → load_value parse limit io s.1 s.2 = Ok loaded → loaded = v.
Proof.
  intros Hio [Hp _ (file & Hf & Hv)]. unfold load_value. intros (bytes & Hr & Hb)%bind_Ok.
  apply read_protected_file_Ok in Hr as (_ & n & o & Hn & Ho & _ & _ & _ & _ & _ & Hread & _).
  rewrite Hp in Ho. apply Hio in Hread as ->. simplify_eq. congruence.
Qed.

Lemma file_value_frame (s s' : Stored R * FileSystem) v :
  st_path s'.1 = st_path s.1 → st_expected_uid s'.1 = st_expected_uid s.1 → s'.2 !! st_path s.1 = s.2 !! st_path s.1 →
  file_value s v → file_value s' v.
Proof. intros H1 H2 H3 [Hp Hu Hf]. rewrite Hp in H3. split; [congruence..|]. by rewrite H3. Qed.

Lemma load_calm io s v :
  st_path s.1 = p → st_expected_uid s.1 = uid → load_value parse limit (calm io) s.1 s.2 = Ok v → file_value s v.
Proof.
  intros Hp Hu. unfold load_value. intros (bytes & Hr & Hb)%bind_Ok. split; [done..|].
  apply read_protected_file_Ok in Hr as (_ & n & o & _ & Ho & _ & _ & _ & _ & _ & Hread & _).
  rewrite Hp in Ho. exists o. split; [done|]. by injection Hread as <-.
Qed.

(** What memory holds after a step. *)
Definition memory_after (eff : Effect (R := R)) (v : R) : R :=
  match eff with Untouched => v | Installed v' | Saved v' => v' end.

Lemma transact_holds {E A} (emb : RelayError → E) io (step : R → outcome E (Effect * A)) s v :
  sound_io uid io → (∀ v, returns (step v)) →
  (∀ w x encoded, step v = Ok (Saved w, x) → print w = Ok encoded → parse encoded = Ok w) →
  file_value s v →
  wp (transact print parse limit emb io step)
    (λ r s', match r with
             | Ok x => ∃ eff, step v = Ok (eff, x) ∧ st_value s'.1 = memory_after eff (st_value s.1)
                 ∧ file_value s' (file_after eff v)
             | Err _ => s'.1 = s.1 ∧ file_value s' v
             | Panic => False
             end) s.
Proof.
  intros [Heuid Hreads] Hret Hsave Hfv. pose proof Hfv as [Hp Hu Hf]. destruct s as [a fs]. simpl in *. unfold wp.
  destruct (transact print parse limit emb io step (a, fs)) as [s' r] eqn:Ht.
  assert (Hloads : ∀ w, load_value parse limit (si_load_io io) a fs = Ok w → w = v)
    by (intros w; apply (load_file_value _ (a, fs)); done).
  apply transact_spec in Ht; try done; [|congruence|congruence|].
  2: { intros loaded w x encoded Hl Hs Henc. rewrite (Hloads _ Hl) in Hs. by eapply Hsave. }
  destruct r as [x|e|]; [|destruct Ht as (H1 & H2 & _)|done].
  - destruct Ht as (loaded & eff & Hl & Hs & He). rewrite (Hloads _ Hl) in Hs. exists eff. split; [done|].
    destruct eff as [|w|w]; simpl in *.
    + destruct He as [H1 H2]. split; [by rewrite H1|]. apply (file_value_frame (a, fs)); simpl; rewrite ?H1; done.
    + destruct He as [H1 H2]. split; [by rewrite H1|]. apply (file_value_frame (a, fs)); simpl; rewrite ?H1; done.
    + destruct He as [H1 Hn]. split; [by rewrite H1|].
      assert (Hpu : st_path s'.1 = st_path a ∧ st_expected_uid s'.1 = st_expected_uid a) by by rewrite H1.
      destruct Hpu as [Hp' Hu']. destruct (Hn s'.1 (calm_store io) Hp' Hu' (calm_store_undisturbed io)) as [_ Hl'].
      apply (load_calm (si_load_io io)); [congruence..|done].
  - split; [done|]. apply (file_value_frame (a, fs)); simpl; rewrite ?H1; done.
Qed.
End Held.

(** ** The issuance results *)
Section IssuanceResults.
Context (to_vec : PersistedIssuanceResults → option (list byte)) (from_slice : list byte → option PersistedIssuanceResults).
Context (json_roundtrip : ∀ v bytes, to_vec v = Some bytes → from_slice bytes = Some v).
Context (p : path) (uid : Z) (path_parsed : parsed p).

Definition issuance_results : ResultStore (PersistentIssuanceResults * FileSystem) StoreIo :=
  {| rs_find := Issuance.find to_vec from_slice;
     rs_find_by_authorization_id := find_by_authorization_id to_vec from_slice;
     rs_begin_pending := begin_pending to_vec from_slice;
     rs_attach_certificate := attach_certificate to_vec from_slice;
     rs_mark_issued := mark_issued to_vec from_slice |}.
#[local] Existing Instance issuance_results.

Definition results_held (s : PersistentIssuanceResults * FileSystem) (rs : list IssuanceResultRecord) : Prop :=
  file_value (parse_records from_slice) p uid s rs ∧ records_wf rs.

Lemma print_parse_records rs bytes :
  records_wf rs → print_records to_vec rs = Ok bytes → parse_records from_slice bytes = Ok rs.
Proof.
  intros Hwf Hp. unfold print_records in Hp. destruct (_ <? _); [done|].
  apply ok_or_Ok, json_roundtrip in Hp. unfold parse_records. rewrite Hp. cbn [ok_or mbind outcome_bind].
  by rewrite records_wf_loads.
Qed.

(** A step that keeps the records well formed is run on the file. *)
Lemma stepping_steps {A} io (step : record_step A) :
  sound_io uid io → (∀ rs, returns (step rs)) →
  (∀ rs eff x, records_wf rs → step rs = Ok (eff, x) → records_wf (file_after eff rs)) →
  steps_as results_held (stepping to_vec from_slice io step) step.
Proof.
  intros Hio Hret Hwf s rs [Hfv Hrs].
  eapply wp_conseq; [apply (transact_holds (print_records to_vec) (parse_records from_slice) MAX_ISSUANCE_RESULT_BYTES p uid)|].
  1-2: done.
  1: apply parse_records_returns.
  1: intros v; unfold print_records; case_match; [done|apply ok_or_returns].
  1-2: done.
  1: intros w x encoded Hs; apply print_parse_records; exact (Hwf _ _ _ Hrs Hs).
  1: exact Hfv.
  intros r s'. destruct r as [x|e|]; [|by intros [_ ?]|done].
  intros (eff & Hs & _ & Hfv'). exists eff. split; [done|]. split; [done|]. by eapply Hwf.
Qed.

Lemma checked_steps {A B} io (checks : relay_result B) (step : B → record_step A) :
  sound_io uid io → returns checks → (∀ b rs, returns (step b rs)) →
  (∀ rs eff x, records_wf rs → (b ← checks; step b rs) = Ok (eff, x) → records_wf (file_after eff rs)) →
  steps_as results_held (st_bind (st_lift checks) (λ b, stepping to_vec from_slice io (step b))) (λ rs, b ← checks; step b rs).
Proof.
  intros Hio Hc Hret Hwf s rs Hs. apply wp_bind, wp_cases; [|done|by intros ->]. intros b ->.
  apply (stepping_steps io (step b)); try done.
Qed.

Lemma file_after_op op rs {A} (m : relay_result (Effect (R := list IssuanceResultRecord) * A)) eff x :
  op_input op → records_wf rs → after_step m rs = op_step op rs → m = Ok (eff, x) → records_wf (file_after eff rs).
Proof. intros Hop Hwf Heq ->. pose proof (step_wf op rs Hop Hwf) as H. rewrite <-Heq in H. by destruct eff. Qed.

Lemma begin_step_returns key app generation expires_at retained now rs :
  returns (begin_pending_step key app generation expires_at retained now rs).
Proof. unfold begin_pending_step. cbv zeta. destruct (find_key _ _); repeat (case_match; try done). Qed.

Lemma attach_step_returns key chain fingerprint generation not_after now rs :
  returns (attach_certificate_step key chain fingerprint generation not_after now rs).
Proof. unfold attach_certificate_step. apply bind_returns; [apply ok_or_returns|]. intros r _. by repeat case_match. Qed.

Lemma mark_step_returns key chain fingerprint generation not_after now rs :
  returns (mark_issued_step key chain fingerprint generation not_after now rs).
Proof.
  unfold mark_issued_step. apply bind_returns; [apply ok_or_returns|]. intros r _. case_match; [done|].
  case_match; [by case_match|]. apply bind_returns; [apply ok_or_returns|done].
Qed.

Definition issuance_results_lawful : LawfulResultStore (PersistentIssuanceResults * FileSystem) StoreIo.
Proof.
  refine {| rs_holds := results_held; rs_sound := sound_io uid |}.
  - by intros st rs [_ ?].
  - intros io key now Hio Hnow. apply stepping_steps; [done|done|]. intros rs eff x Hwf.
    by apply (file_after_op (FindOp key now)).
  - intros io id now Hio Hnow. apply stepping_steps; [done|done|]. intros rs eff x Hwf.
    by apply (file_after_op (FindByIdOp id now)).
  - intros io key app generation expires_at now Hio Hop. apply checked_steps; [done|apply checks_returns_begin| |].
    + intros b rs. apply begin_step_returns.
    + intros rs eff x Hwf. by apply (file_after_op (BeginOp key app generation expires_at now)).
  - intros io key chain fingerprint generation not_after now Hio Hnow.
    apply (checked_steps io _ (λ _, attach_certificate_step key chain fingerprint generation not_after now));
      [done|apply checks_returns_issued| |].
    + intros b rs. apply attach_step_returns.
    + intros rs eff x Hwf. by apply (file_after_op (AttachOp key chain fingerprint generation not_after now)).
  - intros io key chain fingerprint generation not_after now Hio Hnow.
    apply (checked_steps io _ (λ _, mark_issued_step key chain fingerprint generation not_after now));
      [done|apply checks_returns_issued| |].
    + intros b rs. apply mark_step_returns.
    + intros rs eff x Hwf. by apply (file_after_op (IssueOp key chain fingerprint generation not_after now)).
Defined.
End IssuanceResults.

(** ** The allowlist *)
Section AllowlistFile.
Context (to_vec : AllowlistRegistry → option (list byte)) (from_slice : list byte → option AllowlistRegistry).
Context (json_roundtrip : ∀ v bytes, to_vec v = Some bytes → from_slice bytes = Some v).
Context (json_u64 : ∀ v bytes, from_slice bytes = Some v → is_u64 (ar_generation v)).
Context (p : path) (uid : Z) (path_parsed : parsed p).

(** The revoke command of another process: it opens the file and revokes. *)
Definition revoke_elsewhere (io io' : StoreIo) (app_id : list byte)
  : stateful (PersistentAllowlist * FileSystem) EnrollmentError Z := λ '(a, fs),
  match PersistentAllowlist_open to_vec from_slice io (st_path a) (st_expected_uid a) fs with
  | (fs, Ok b) => let '((_, fs), r) := PersistentAllowlist_revoke to_vec from_slice io' app_id (b, fs) in ((a, fs), r)
  | (fs, Err _) => ((a, fs), Err AllowlistPersistence)
  | (fs, Panic) => ((a, fs), Panic)
  end.

Definition allowlist_file : AllowlistStore (PersistentAllowlist * FileSystem) StoreIo :=
  {| al_memory s := st_value s.1;
     al_enroll_pending := PersistentAllowlist_enroll_pending to_vec from_slice;
     al_activate := PersistentAllowlist_activate to_vec from_slice;
     al_reload := PersistentAllowlist_reload from_slice;
     al_revoke_elsewhere := revoke_elsewhere |}.
#[local] Existing Instance allowlist_file.

Definition allowlist_held (s : PersistentAllowlist * FileSystem) (reg : AllowlistRegistry) : Prop :=
  file_value (parse_registry from_slice) p uid s reg.

Lemma held_persistable s reg : allowlist_held s reg → persistable reg ∧ is_u64 (ar_generation reg).
Proof.
  intros [_ _ (file & _ & [Hs Hp]%parse_registry_Ok)]. split; [done|by eapply json_u64].
Qed.

Lemma transaction_steps {A} io (f : allowing A) op g :
  sound_io uid io → op_valid op → (∀ reg, memory_call op reg = answering (A := A) g f reg) →
  steps_as allowlist_held (transaction to_vec from_slice io f) (changing f).
Proof.
  intros Hio Hop Hf s reg Hfv. pose proof (held_persistable _ _ Hfv) as [Hper Hu].
  assert (Hrun : ∀ v, (f v).1 = run_allowlist v op ∧ returns (f v).2).
  { intros v. pose proof (memory_call_run op v) as H1. pose proof (memory_call_returns op v) as H2.
    rewrite Hf in H1, H2. unfold answering in H1, H2. destruct (f v) as [v' r]. simpl in *. split; [done|]. by destruct r. }
  eapply wp_conseq; [apply (transact_holds (print_registry to_vec) (parse_registry from_slice) MAX_ALLOWLIST_BYTES p uid)|].
  1-2: done.
  1: apply parse_registry_returns.
  1: intros v; apply ok_or_returns.
  1: done.
  1: intros v; destruct (Hrun v) as [_ Hr]; unfold changing; destruct (f v) as [v' r]; by destruct r.
  2: exact Hfv.
  1: intros w x encoded [[= ->] _]%changing_Ok Henc%ok_or_Ok; apply parse_registry_Ok; split; [by apply json_roundtrip|];
     destruct (Hrun reg) as [-> _]; by apply run_allowlist_persistable.
  intros r s'. destruct r as [x|e|]; [|by intros [_ ?]|done]. intros (eff & Hs & _ & Hfv'). eauto.
Qed.

Lemma open_held io s reg fs' r :
  si_exists_fails io = false → allowlist_held s reg →
  PersistentAllowlist_open to_vec from_slice io p uid s.2 = (fs', r) →
  fs' !! p = s.2 !! p ∧ match r with Ok b => st_path b = p ∧ st_expected_uid b = uid | Err _ => True | Panic => False end.
Proof.
  intros Hex [_ _ (file & Hf & Hv)]. unfold PersistentAllowlist_open, open_store.
  destruct (validate_protected_path (si_load_io io) p uid s.2) as [[]|e|] eqn:Hvp;
    [|by intros [= <- <-]|by destruct (validate_protected_path_returns (si_load_io io) p uid s.2)].
  unfold st_bind. destruct (lock_sidecar io _) as [[a1 fs1] lk] eqn:Hlk.
  apply lock_sidecar_spec in Hlk as (Ha1 & _ & Hpp & Hlk). simpl in Ha1, Hpp, Hlk. subst a1.
  destruct lk as [[]|e|]; [|by intros [= <- <-]|done]. simpl.
  assert (Hfs1 : is_Some (fs1 !! p)) by (rewrite Hpp; eauto).
  rewrite Hex, bool_decide_eq_true_2 by done. simpl. unfold loading. simpl.
  destruct (load_value _ _ _ _ fs1) as [v|e|] eqn:Hl; simpl.
  - intros [= <- <-]. done.
  - by intros [= <- <-].
  - destruct (load_value_returns (parse_registry from_slice) MAX_ALLOWLIST_BYTES (si_load_io io) {| st_path := p; st_expected_uid := uid; st_value := AllowlistRegistry_new |} fs1);
      [apply parse_registry_returns|done].
Qed.

Definition allowlist_file_lawful : LawfulAllowlistStore (PersistentAllowlist * FileSystem) StoreIo.
Proof.
  refine {| al_holds := allowlist_held; al_sound := sound_io uid; al_opens io := si_exists_fails io = false |}.
  - intros io certificate Hio Hna. by apply (transaction_steps io _ (EnrollPending certificate) inl).
  - intros io app_id fingerprint Hio. by apply (transaction_steps io _ (Activate app_id fingerprint) inl).
  - intros io [a fs] reg [_ Hreads] Hfv. pose proof Hfv as [Hp Hu _]. simpl in Hp, Hu.
    unfold wp. simpl. unfold PersistentAllowlist_reload, st_bind, lock_file.
    destruct (lock_sidecar io (a, fs)) as [[a1 fs1] lk] eqn:Hlk.
    apply lock_sidecar_spec in Hlk as (Ha1 & _ & Hpp & Hlk). simpl in Ha1, Hpp, Hlk. subst a1.
    assert (Hfv1 : allowlist_held (a, fs1) reg) by (by apply (file_value_frame _ _ _ (a, fs))).
    destruct lk as [[]|e|]; [|done|done].
    destruct (load_registry from_slice (si_load_io io) a fs1) as [v|e|] eqn:Hl; simpl; [|done|].
    + apply (load_file_value (parse_registry from_slice) MAX_ALLOWLIST_BYTES p uid path_parsed (si_load_io io) (a, fs1) reg) in Hl as ->; [|done|done]. split_and!; try done.
      by apply (file_value_frame _ _ _ (a, fs1)).
    + destruct (load_value_returns (parse_registry from_slice) MAX_ALLOWLIST_BYTES (si_load_io io) a fs1);
        [apply parse_registry_returns|done].
  - intros io io' app_id [a fs] reg Hio Hex Hio' Hfv. pose proof Hfv as [Hp Hu _]. simpl in Hp, Hu.
    unfold wp. simpl. rewrite Hp, Hu.
    destruct (PersistentAllowlist_open to_vec from_slice io p uid fs) as [fs1 r] eqn:Ho.
    apply (open_held io (a, fs) reg) in Ho as [Hpp Hr]; [|done|done]. simpl in Hpp.
    assert (Hfv1 : allowlist_held (a, fs1) reg) by (apply (file_value_frame _ _ _ (a, fs)); [done|done|simpl; congruence|done]).
    destruct r as [b|e|]; simpl; [|eauto|eauto]. destruct Hr as [Hbp Hbu].
    assert (Hfb : allowlist_held (b, fs1) reg) by (apply (file_value_frame _ _ _ (a, fs1)); [simpl; congruence|simpl; congruence|done|done]).
    pose proof (transaction_steps io' (revoke app_id) (Revoke app_id) inr Hio' I (λ _, eq_refl) (b, fs1) reg Hfb) as Hw.
    unfold wp, PersistentAllowlist_revoke in *. destruct (transaction _ _ io' (revoke app_id) (b, fs1)) as [[b2 fs2] r2].
    assert (Hback : ∀ v, allowlist_held (b2, fs2) v → allowlist_held (a, fs2) v) by (intros v [_ _ H]; by split).
    destruct r2 as [x|e|]; [|by eauto|done].
    destruct Hw as (eff & [-> _]%changing_Ok & Hh). simpl in Hh. eauto.
Defined.
End AllowlistFile.

(** ** The bootstrap runtime *)
Section Bootstrap.
Context {Value : Type} (json_from_slice : list byte → option Value).
Context (get : Value → list byte → option Value) (as_str : Value → option (list byte)) (is_object : Value → bool).
Context (to_vec : BootstrapState.records → option (list byte)).
Context (base64_encode : list byte → list byte) (base64_decode : list byte → option (list byte)).
Context (sha256 : list byte → list byte) (expiry : Z → option (list byte)).
Context (random : nat → Z) (call : nat → list byte → HerdrRequest → HerdrCall).
Context (rt : RuntimeConfig).

Definition bootstrap_runtime : BootstrapService (World Value) BootstrapIo :=
  {| sb_start := start json_from_slice get as_str is_object to_vec base64_encode base64_decode expiry random call rt;
     sb_abort := BootstrapRuntime.abort json_from_slice get as_str to_vec random call rt;
     sb_submit := BootstrapRuntime.submit json_from_slice get as_str to_vec random call rt;
     sb_reconcile := BootstrapRuntime.reconcile json_from_slice get as_str to_vec random call rt;
     sb_authorize_first_app := authorize_first_app to_vec rt;
     sb_confirm_first_app := confirm_first_app to_vec rt;
     sb_start_app_approval := start_app_approval json_from_slice get as_str is_object to_vec expiry random call rt;
     sb_submit_app_approval := submit_app_approval json_from_slice get as_str to_vec sha256 random call rt |}.
#[local] Existing Instance bootstrap_runtime.

Lemma bootstrap_call_run io op (w : World Value) :
  sb_call io op w
  = run_op json_from_slice get as_str is_object to_vec base64_encode base64_decode sha256 expiry random call rt io op w.
Proof.
  assert (H : ∀ A (f : A → BootstrapAnswer) (m : stateful (World Value) BootstrapRuntimeError A),
    answered_with f m w = BootstrapRuntime.answering f m w).
  { intros A f m. unfold answered_with, BootstrapRuntime.answering, st_bind, st_ret. by destruct (m w) as [w' [a|e|]]. }
  destruct op; apply H.
Qed.

Definition bootstrap_holdings (w : World Value) : Holdings :=
  {| hg_attempt id peer challenge code := ∃ a, bs_attempts (wd_state w) !! id = Some a
       ∧ ba_peer_ip a = peer ∧ ba_challenge a = challenge ∧ ba_code a = code;
     hg_core id core_identity := ∃ a, bs_core_approvals (wd_state w) !! id = Some a ∧ BootstrapState.ca_core_identity a = core_identity;
     hg_app id core_identity challenge code := ∃ a, bs_app_approvals (wd_state w) !! id = Some a
       ∧ aa_core_identity a = core_identity ∧ aa_challenge a = challenge ∧ aa_code a = code |}.

Abbreviation session := (hw_normalized_session (rc_client rt)).

Definition bootstrap_runtime_lawful (session_valid : is_valid_session session = true)
  : LawfulBootstrapService (World Value) BootstrapIo sha256.
Proof.
  refine {| sb_sound := io_ok; sb_wf w := runtime_inv session (wd_state w);
            sb_draws io code := PairingVerifier.random_code (bi_samples io) = Some code; sb_holdings := bootstrap_holdings |}.
  intros io op w Hio Hi. unfold wp. rewrite bootstrap_call_run.
  pose proof (run_op_inv json_from_slice get as_str is_object to_vec base64_encode base64_decode sha256 expiry random call rt
    io op w session_valid Hio Hi) as Hi'.
  pose proof (run_op_approvals json_from_slice get as_str is_object to_vec base64_encode base64_decode sha256 expiry random
    call rt io op w) as Happ. unfold wp in Happ.
  destruct (run_op _ _ _ _ _ _ _ _ _ _ _ _ io op w) as [w' r] eqn:Hrun.
  pose proof (run_op_evolves json_from_slice get as_str is_object to_vec base64_encode base64_decode sha256 expiry random
    call rt io op w w' r (runtime_inv_codes _ _ Hi) Hrun) as [Hcore Hatt].
  split; [exact Hi'|]. split; simpl.
  - intros id peer challenge code (a & Ha & <- & <- & <-). destruct (Hatt id a Ha) as [(a0 & H0 & Heq)|Hadm].
    + left. exists a0. by destruct Heq as [->| ->].
    + right. destruct op; try done. destruct Hadm as (c & rid & now & -> & Hc & Hch & _ & <- & Hcode & _). eauto 10.
  - intros id core (a & Ha & <-). destruct (Hcore id a Ha) as [H0|Hadm]; [left; eauto|]. destruct op; try done; simpl in Hadm.
    + right. destruct Hadm as (att & now & i & Hatt0 & <- & <- & <- & _). eauto 10.
    + left. destruct Hadm as (a0 & now & -> & H0 & -> & _). by exists a0.
  - intros id core challenge code (a & Ha & <- & <- & <-). destruct (Happ id a Ha) as [(a0 & H0 & Heq)|Hadm].
    + left. exists a0. by destruct Heq as [->| ->].
    + right. destruct op; try done. destruct Hadm as (c & cid & core & -> & Hid & Hch & <- & Hcode & Hc & Hci).
      exists app_csr_digest, core_binding_digest, normalized_session, configuration_generation, c, cid. eauto 10.
  - intros core ap digest g -> ->. destruct (run_op_answer _ _ _ _ _ _ _ _ _ _ _ _ _ _ _ _ _ _ Hi Hrun) as (a & now & Ha & _ & _ & _ & Hc & _). eauto.
  - intros core ap challenge code csr digest ctx -> ->.
    destruct (run_op_answer _ _ _ _ _ _ _ _ _ _ _ _ _ _ _ _ _ _ Hi Hrun)
      as (a & now & Ha & _ & _ & Hc & Hch & Hd & Hsha & Hcode & H1 & H2 & H3 & H4 & _). split_and!; try done. by exists a.
Defined.
End Bootstrap.

(** ** The certificate issuer *)
Section Issuer.
Context {Key Issuer PublicKey : Type}.
Context (sha256 : list byte → list byte).
Context (csr_from_der : list byte → option ParsedCsr) (parse_certificate : list byte → option ParsedCertificate).
Context (pem_certs : list byte → list (option (list byte))).
Context (key_from_pem : list byte → option Key) (public_key_raw : Key → list byte).
Context (issuer_from_ca_cert_der : list byte → Key → option Issuer).
Context (csr_public_key : list byte → option PublicKey).
Context (signed_by : nat → LeafParams → PublicKey → Issuer → option (list byte)).
Context (config : SecurityConfig) (uid : Z).

(** The protected material is read from the file system as it is at that moment. *)
Definition pki_issuer : CertificateIssuer (PkiIo * FileSystem) :=
  {| ci_app_id_from_csr := app_id_from_csr sha256 csr_from_der;
     ci_issue_certificate := λ io app_id csr generation,
       issue_certificate sha256 csr_from_der parse_certificate pem_certs key_from_pem public_key_raw
         issuer_from_ca_cert_der csr_public_key signed_by io.1 config uid app_id csr generation io.2 |}.
#[local] Existing Instance pki_issuer.

Lemma pki_issuer_lawful : LawfulCertificateIssuer (PkiIo * FileSystem).
Proof.
  split. intros [io fs] app_id csr generation issued. simpl. unfold issue_certificate.
  intros (derived & Hd & H)%bind_Ok. case_bool_decide as Hne; [done|]. subst app_id.
  split; [done|]. unfold issue_certificate_with_intermediate in H.
  apply bind_Ok in H as (identity & _ & H). apply bind_Ok in H as ([der issuer] & _ & H).
  apply bind_Ok in H as (key & _ & H). apply bind_Ok in H as (nb & _ & H). apply bind_Ok in H as (na & _ & H).
  apply bind_Ok in H as (leaf & _ & H). apply bind_Ok in H as (fp & _ & H). apply bind_Ok in H as (nb' & Hnb & H).
  apply bind_Ok in H as (na' & _ & <-%Ok_inj). simpl. unfold epoch_u64 in Hnb.
  destruct (Z.ltb_spec nb 0); [done|]. apply Ok_inj in Hnb as <-. done.
Qed.
End Issuer.


(** ** Stores in memory

    The simplest stores with the laws: a step is run on the value itself. *)
Section InMemory.
Definition in_memory {R E A} (step : R → outcome E (Effect (R := R) * A)) : stateful R E A := λ v,
  match step v with
  | Ok (eff, x) => (file_after eff v, Ok x)
  | Err e => (v, Err e)
  | Panic => (v, Panic)
  end.

Lemma in_memory_steps {R E A} (holds : R → R → Prop) (step : R → outcome E (Effect (R := R) * A)) :
  (∀ s v, holds s v → s = v) → (∀ v, returns (step v)) →
  (∀ v eff x, holds v v → step v = Ok (eff, x) → holds (file_after eff v) (file_after eff v)) →
  steps_as holds (in_memory step) step.
Proof.
  intros Heq Hret Hkeep s v Hv. pose proof (Heq _ _ Hv) as ->. unfold wp, in_memory.
  pose proof (Hret v) as Hr. destruct (step v) as [[eff x]|e|] eqn:Hs; [|done|done].
  exists eff. split; [done|]. by eapply Hkeep.
Qed.

Definition memory_results : ResultStore (list IssuanceResultRecord) unit :=
  {| rs_find _ key now := in_memory (find_step key now);
     rs_find_by_authorization_id _ id now := in_memory (find_by_authorization_id_step id now);
     rs_begin_pending _ key app generation expires_at now :=
       in_memory (λ rs, retained ← begin_pending_checks app generation expires_at now;
                        begin_pending_step key app generation expires_at retained now rs);
     rs_attach_certificate _ key chain fingerprint generation not_after now :=
       in_memory (λ rs, _ ← issued_checks chain fingerprint generation not_after;
                        attach_certificate_step key chain fingerprint generation not_after now rs);
     rs_mark_issued _ key chain fingerprint generation not_after now :=
       in_memory (λ rs, _ ← issued_checks chain fingerprint generation not_after;
                        mark_issued_step key chain fingerprint generation not_after now rs) |}.
#[local] Existing Instance memory_results.

Lemma memory_results_step op {A} (step : record_step A) :
  op_input op → (∀ rs, returns (step rs)) → (∀ rs, after_step (step rs) rs = op_step op rs) →
  steps_as (λ s rs, s = rs ∧ records_wf rs) (in_memory step) step.
Proof.
  intros Hop Hret Heq. apply in_memory_steps; [by intros s v []|done|]. intros rs eff x [_ Hwf] Hs. split; [done|].
  by apply (file_after_op op rs (step rs) eff x).
Qed.

Definition memory_results_lawful : LawfulResultStore (list IssuanceResultRecord) unit.
Proof.
  refine {| rs_holds s rs := s = rs ∧ records_wf rs; rs_sound _ := True |}.
  - by intros st rs [_ ?].
  - intros io key now _ Hnow. by apply (memory_results_step (FindOp key now)).
  - intros io id now _ Hnow. by apply (memory_results_step (FindByIdOp id now)).
  - intros io key app generation expires_at now _ Hop. apply (memory_results_step (BeginOp key app generation expires_at now)); [done| |done].
    intros rs. apply bind_returns; [apply checks_returns_begin|]. intros b _. apply begin_step_returns.
  - intros io key chain fingerprint generation not_after now _ Hnow.
    apply (memory_results_step (AttachOp key chain fingerprint generation not_after now)); [done| |done].
    intros rs. apply bind_returns; [apply checks_returns_issued|]. intros b _. apply attach_step_returns.
  - intros io key chain fingerprint generation not_after now _ Hnow.
    apply (memory_results_step (IssueOp key chain fingerprint generation not_after now)); [done| |done].
    intros rs. apply bind_returns; [apply checks_returns_issued|]. intros b _. apply mark_step_returns.
Defined.

Definition memory_allowlist : AllowlistStore AllowlistRegistry unit :=
  {| al_memory := id;
     al_enroll_pending _ certificate := in_memory (changing (enroll_pending certificate));
     al_activate _ app_id fingerprint := in_memory (changing (activate app_id fingerprint));
     al_reload _ := λ s, (s, Ok tt);
     al_revoke_elsewhere _ _ app_id := in_memory (changing (revoke app_id)) |}.
#[local] Existing Instance memory_allowlist.

Lemma changing_returns {A} (g : allowing A) op embed reg :
  memory_call op reg = answering (A := A) embed g reg → returns (changing g reg).
Proof.
  intros Heq. pose proof (memory_call_returns op reg) as Hr. rewrite Heq in Hr. unfold answering, changing in *.
  destruct (g reg) as [reg' r]. by destruct r.
Qed.

Definition memory_allowlist_lawful : LawfulAllowlistStore AllowlistRegistry unit.
Proof.
  refine {| al_holds s v := s = v; al_sound _ := True; al_opens _ := True |}.
  - intros io c _ Hna. apply in_memory_steps; [done| |done]. intros v. by apply (changing_returns _ (EnrollPending c) inl).
  - intros io app f _. apply in_memory_steps; [done| |done]. intros v. by apply (changing_returns _ (Activate app f) inl).
  - intros io s v _ ->. done.
  - intros io io2 app s v _ _ _ ->. unfold wp. simpl. unfold in_memory.
    destruct (changing (revoke app) v) as [[eff x]|e|] eqn:Hc; [apply changing_Ok in Hc as [-> _]|..]; simpl; eauto.
Defined.
End InMemory.
