(* ===== verification/ServerWorld.v ===== *)
(** * What the connections of the server share (src/src/quic_server.rs)

    The state the enrollment connections meet in: the bootstrap runtime, the issuance results
    and the allowlist, each behind its mutex, and a record of what was done with them.  The
    stream of one connection is its own. *)
From S2P Require Export Services EnrollmentV3Wire.

(** ** Fixed codes *)
Definition HDB1_REJECTION_INVALID_FIELD : Z := 1.
Definition HDB1_REJECTION_RESOURCE_LIMITED : Z := 2.
Definition HDB1_REJECTION_ALREADY_ACTIVE : Z := 3.
Definition HDB1_REJECTION_AUTHORITY_MISMATCH : Z := 4.
Definition HDB1_REJECTION_PERSISTENCE_FAILED : Z := 5.
Definition HDB1_REJECTION_CODE_RATE_LIMITED : Z := 6.
Definition HDB1_REJECTION_EXPIRED : Z := 7.
Definition HDB1_REJECTION_CODE_MISMATCH : Z := 8.

Definition bootstrap_rejection_code (error : BootstrapRuntimeError) : Z :=
  match error with
  | BrInvalidField => HDB1_REJECTION_INVALID_FIELD
  | BrAuthorityMismatch => HDB1_REJECTION_AUTHORITY_MISMATCH
  | BrWorkspaceUnavailable | BrPersistenceFailed => HDB1_REJECTION_PERSISTENCE_FAILED
  | BrCapacityExhausted | BrPeerRateLimited => HDB1_REJECTION_RESOURCE_LIMITED
  | BrAlreadyActive => HDB1_REJECTION_ALREADY_ACTIVE
  | BrExpired => HDB1_REJECTION_EXPIRED
  | BrCodeMismatch => HDB1_REJECTION_CODE_MISMATCH
  | BrCodeRateLimited => HDB1_REJECTION_CODE_RATE_LIMITED
  | BrNotFound => HDB1_REJECTION_AUTHORITY_MISMATCH
  end.

(** ** One connection *)

Inductive AcceptResult : Type := StreamAccepted | AcceptTimedOut | AcceptFailed.
Inductive WriteResult : Type := Written | WriteTimedOut | WriteFailed.

(** The stream of the connection: what the peer will have sent, the frames written, the reads
    and writes so far, and whether the connection was closed after a whole exchange. *)
Record ServerStream : Type := {
  ss_incoming : list byte;
  ss_sent : list (list byte);
  ss_reads : nat;
  ss_writes : nat;
  ss_closed : bool;
}.

Definition ServerStream_start (incoming : list byte) : ServerStream :=
  {| ss_incoming := incoming; ss_sent := []; ss_reads := 0; ss_writes := 0; ss_closed := false |}.

(** ** The shared state

    What the handlers did is recorded in [sw_log]: the approvals they got, the records they
    began, the certificates they signed and recorded, the entries they made and confirmed, and
    the times of their calls on the results. *)
Inductive ServerEvent (BIo : Type) : Type :=
| BootstrapCalled (io : BIo) (op : BootstrapOp) (answer : outcome BootstrapRuntimeError BootstrapAnswer)
| AppApproved (core_identity approval_id csr csr_digest : list byte) (generation : Z)
| StoreCalled (now : Z)
| IssuanceBegun (key : IssuanceResultKey) (now : Z)
| CertificateRecorded (key : IssuanceResultKey) (approval_id csr app_id : list byte) (issued : IssuedCertificate)
| AppEnrolled (approval_id csr app_id : list byte) (issued : IssuedCertificate)
| ResultIssuedFor (key : IssuanceResultKey) (record : IssuanceResultRecord)
| AppConfirmed (core_identity : list byte) (payload : Hde3ConfirmPersistedPayload) (record : IssuanceResultRecord).

#[global] Arguments BootstrapCalled {BIo} _ _ _.
#[global] Arguments AppApproved {BIo} _ _ _ _ _.
#[global] Arguments StoreCalled {BIo} _.
#[global] Arguments IssuanceBegun {BIo} _ _.
#[global] Arguments CertificateRecorded {BIo} _ _ _ _ _.
#[global] Arguments AppEnrolled {BIo} _ _ _ _.
#[global] Arguments ResultIssuedFor {BIo} _ _.
#[global] Arguments AppConfirmed {BIo} _ _ _.

Record ServerWorld (W BIo RS AS : Type) : Type := {
  sw_bootstrap : W;
  sw_results : RS;
  sw_allowlist : AS;
  sw_log : list (ServerEvent BIo);
}.
#[global] Arguments sw_bootstrap {W BIo RS AS} _.
#[global] Arguments sw_results {W BIo RS AS} _.
#[global] Arguments sw_allowlist {W BIo RS AS} _.
#[global] Arguments sw_log {W BIo RS AS} _.

Section Calls.
Context {W BIo RS RIo AS AIo : Type}.
Context `{!BootstrapService W BIo}.

Abbreviation World := (ServerWorld W BIo RS AS).
Abbreviation handling := (serving World ServerStream RelayError).

(** A call on one of the components, with what it adds to the log. *)
Definition on_bootstrap {A} (io : BIo) (op : BootstrapOp) (as_answer : A → BootstrapAnswer)
    (m : stateful W BootstrapRuntimeError A) (events : outcome BootstrapRuntimeError A → list (ServerEvent BIo))
  : stateful World BootstrapRuntimeError A := λ w,
  let '(b, r) := m (sw_bootstrap w) in
  ({| sw_bootstrap := b; sw_results := sw_results w; sw_allowlist := sw_allowlist w;
      sw_log := sw_log w ++ BootstrapCalled io op (as_answer <$> r) :: events r |}, r).

(** The calls of the runtime, each named with its arguments. *)
Definition no_events {A} (r : outcome BootstrapRuntimeError A) : list (ServerEvent BIo) := [].
Definition call_start io peer_ip payload : stateful World _ _ :=
  on_bootstrap io (OpStart peer_ip payload) Challenged (sb_start io peer_ip payload) no_events.
Definition call_abort io bootstrap_id : stateful World _ _ :=
  on_bootstrap io (OpAbort bootstrap_id) (λ _, Done) (sb_abort io bootstrap_id) no_events.
Definition call_submit io peer_ip bootstrap_id challenge code : stateful World _ _ :=
  on_bootstrap io (OpSubmit peer_ip bootstrap_id challenge code) IssuedCore
    (sb_submit io peer_ip bootstrap_id challenge code) no_events.
Definition call_reconcile io approval_id binding session : stateful World _ _ :=
  on_bootstrap io (OpReconcile approval_id binding session) IssuedCore (sb_reconcile io approval_id binding session) no_events.
Definition call_authorize_first_app io core_identity approval_id digest events : stateful World _ _ :=
  on_bootstrap io (OpAuthorizeFirstApp core_identity approval_id digest) Authorized
    (sb_authorize_first_app io core_identity approval_id digest) events.
Definition call_confirm_first_app io core_identity approval_id digest generation : stateful World _ _ :=
  on_bootstrap io (OpConfirmFirstApp core_identity approval_id digest generation) (λ _, Done)
    (sb_confirm_first_app io core_identity approval_id digest generation) no_events.
Definition call_start_app_approval io core_identity digest binding session generation : stateful World _ _ :=
  on_bootstrap io (OpStartApp core_identity digest binding session generation) Challenged
    (sb_start_app_approval io core_identity digest binding session generation) no_events.
Definition call_submit_app_approval io core_identity approval_id challenge code csr digest events : stateful World _ _ :=
  on_bootstrap io (OpSubmitApp core_identity approval_id challenge code csr digest) ApprovedApp
    (sb_submit_app_approval io core_identity approval_id challenge code csr digest) events.

Definition on_results {A E} (now : Z) (m : stateful RS E A) (events : outcome E A → list (ServerEvent BIo)) : stateful World E A := λ w,
  let '(s, r) := m (sw_results w) in
  ({| sw_bootstrap := sw_bootstrap w; sw_results := s; sw_allowlist := sw_allowlist w;
      sw_log := sw_log w ++ StoreCalled now :: events r |}, r).
Definition on_allowlist {A E} (m : stateful AS E A) (events : outcome E A → list (ServerEvent BIo)) : stateful World E A := λ w,
  let '(s, r) := m (sw_allowlist w) in
  ({| sw_bootstrap := sw_bootstrap w; sw_results := sw_results w; sw_allowlist := s; sw_log := sw_log w ++ events r |}, r).
Definition if_ok {E A} (f : A → list (ServerEvent BIo)) (r : outcome E A) : list (ServerEvent BIo) :=
  match r with Ok a => f a | _ => [] end.

(** ** Handlers *)

(** [match r { Ok(a) => .., Err(e) => .. }]. *)
Definition on_outcome {E A B} (r : outcome E A) (ok : A → handling B) (err : E → handling B) : handling B :=
  match r with Ok a => ok a | Err e => err e | Panic => sv_lift Panic end.
(** [let _ = m]. *)
Definition ignored {A} (m : handling A) : handling unit :=
  (let! r := caught m in on_outcome r (λ _, sv_ret tt) (λ _, sv_ret tt))%task.
Definition component (present : bool) (error : RelayError) : handling unit :=
  sv_lift (if present then Ok tt else Err error).

End Calls.
