(* ===== verification/Hdb1Server.v ===== *)
(** * The HDB1 bootstrap of the QRM server (src/src/quic_server.rs)

    One connection of a peer that has no certificate yet: it starts a bootstrap and answers the
    challenge with the code, submits the code of an earlier start, or asks again for the
    certificate of its approval.  The handler is a task whose steps are the calls on the
    bootstrap runtime. *)
From S2P Require Export ServerWorld BootstrapWire.

(** ** What one connection meets *)

(** The parsers and printers serde derives for the payloads. *)
Record Hdb1Json : Type := {
  jb_start : list byte → option Hdb1StartPayload;
  jb_submit : list byte → option Hdb1SubmitPayload;
  jb_reconcile : list byte → option Hdb1ReconcilePayload;
  jb_challenge : Hdb1ChallengePayload → option (list byte);
  jb_core_issued : Hdb1CoreIssuedPayload → option (list byte);
  jb_result : Hdb1ResultPayload → option (list byte);
  jb_rejected : Z → option (list byte);
}.

(** The surroundings of one connection: its peer, whether its permits are free, its stream
    comes and its reads and writes succeed before their deadlines, and the surroundings of its
    calls on the runtime, in the order of the calls. *)
Record Hdb1Io (BIo : Type) : Type := {
  hb_peer_ip : list byte;
  hb_handshake_permit : bool;
  hb_connection_permit : bool;
  hb_accept : AcceptResult;
  hb_read_expires : nat → bool;
  hb_write : nat → WriteResult;
  hb_finish_fails : bool;
  hb_bootstrap : nat → BIo;
}.
#[global] Arguments hb_peer_ip {BIo} _.
#[global] Arguments hb_handshake_permit {BIo} _.
#[global] Arguments hb_connection_permit {BIo} _.
#[global] Arguments hb_accept {BIo} _.
#[global] Arguments hb_read_expires {BIo} _ _.
#[global] Arguments hb_write {BIo} _ _.
#[global] Arguments hb_finish_fails {BIo} _.
#[global] Arguments hb_bootstrap {BIo} _ _.

Section Server.
Context {W BIo RS AS : Type}.
Context `{!BootstrapService W BIo}.
Context (base64_encode : list byte → list byte) (base64_decode : list byte → option (list byte)).
Context (json : Hdb1Json) (bootstrap_present : bool).

Abbreviation World := (ServerWorld W BIo RS AS).
Abbreviation handling := (serving World ServerStream RelayError).
Abbreviation Io := (Hdb1Io BIo).

(** ** Frames *)
Definition write_hdb1_frame (io : Io) (frame : Hdb1Frame) (expired failed : string) : handling unit :=
  locally (λ l,
    let l := {| ss_incoming := ss_incoming l; ss_sent := ss_sent l; ss_reads := ss_reads l;
                ss_writes := S (ss_writes l); ss_closed := ss_closed l |} in
    match Hdb1Frame_encode frame with
    | Err _ => (l, Err (QuicProtocol failed))
    | Panic => (l, Panic)
    | Ok bytes =>
        match hb_write io (ss_writes l) with
        | Written =>
            ({| ss_incoming := ss_incoming l; ss_sent := ss_sent l ++ [bytes]; ss_reads := ss_reads l;
                ss_writes := ss_writes l; ss_closed := ss_closed l |}, Ok tt)
        | WriteTimedOut => (l, Err (QuicHandshake expired))
        | WriteFailed => (l, Err (QuicProtocol failed))
        end
    end).

Definition read_hdb1_frame (io : Io) : handling (option Hdb1Frame) :=
  locally (λ l,
    let '(rest, r) := Hdb1_read_frame (ss_incoming l) in
    let l' := {| ss_incoming := rest; ss_sent := ss_sent l; ss_reads := S (ss_reads l);
                 ss_writes := ss_writes l; ss_closed := ss_closed l |} in
    if hb_read_expires io (ss_reads l) then (l', Ok None) else
    match r with Ok frame => (l', Ok (Some frame)) | Err _ => (l', Ok None) | Panic => (l', Panic) end).

(** [connection.close(..)]. *)
Definition close_connection : handling unit :=
  locally (λ l, ({| ss_incoming := ss_incoming l; ss_sent := ss_sent l; ss_reads := ss_reads l;
                    ss_writes := ss_writes l; ss_closed := true |}, Ok tt)).
Definition finish_send (io : Io) (reason : string) : handling unit :=
  sv_lift (if hb_finish_fails io then Err (QuicProtocol reason) else Ok tt).

Definition rejected_frame (reason : string) (code : Z) : relay_result Hdb1Frame :=
  map_err (λ _, QuicProtocol reason)
    (payload ← Hdb1RejectedPayload_new code; Hdb1Frame_json (jb_rejected json) Hdb1Rejected payload).
Definition hdb1_rejection_frame (code : Z) : relay_result Hdb1Frame := rejected_frame "HDB1 rejection is invalid" code.

Definition send_hdb1_rejection (io : Io) (code : Z) : handling unit :=
  (let! frame := sv_lift (hdb1_rejection_frame code) in
   write_hdb1_frame io frame "HDB1 rejection write timeout" "HDB1 rejection write failed")%task.

(** A connection that is turned away: [let _ = send_hdb1_rejection(..); connection.close(..)]. *)
Definition turn_away (io : Io) (code : Z) : handling unit :=
  (do! ignored (send_hdb1_rejection io code);
   close_connection)%task.

(** ** Submission *)
Definition bootstrap_submit_response (io : Io) (n : nat) (frame : Hdb1Frame) : handling Hdb1Frame :=
  on_outcome (submit ← Hdb1Frame_parse_json (jb_submit json) frame Hdb1Submit;
              Hdb1SubmitPayload_decode_fields base64_encode base64_decode submit)
    (λ '(bootstrap_id, submitted_challenge, code),
      (let! issued := atomically (call_submit (hb_bootstrap io n) (hb_peer_ip io) bootstrap_id submitted_challenge code) in
       on_outcome issued
         (λ issued, sv_lift (map_err (λ _, QuicProtocol "bootstrap issuance response is invalid")
            (payload ← Hdb1CoreIssuedPayload_new base64_encode base64_decode (BootstrapState.cm_approval_id issued) (BootstrapState.cm_core_identity issued)
                         (BootstrapState.cm_certificate_chain issued) (BootstrapState.cm_not_after_epoch_seconds issued);
             Hdb1Frame_json (jb_core_issued json) Hdb1CoreIssued payload)))
         (λ error, sv_lift (rejected_frame "bootstrap rejection encoding failed" (bootstrap_rejection_code error))))%task)
    (λ _, sv_lift (hdb1_rejection_frame 1)).

(** A submission that resumes an earlier start. *)
Definition resume_submission (io : Io) (start : Hdb1Frame) : handling unit :=
  (let! response := bootstrap_submit_response io 0 start in
   do! write_hdb1_frame io response "bootstrap resumed response timeout" "bootstrap resumed response failed";
   do! finish_send io "finishing resumed bootstrap stream";
   close_connection)%task.

(** ** Reconciliation *)
Definition reconcile_response (result : outcome BootstrapRuntimeError CoreIssuedMaterial) : relay_result Hdb1Frame :=
  match result with
  | Ok issued =>
      map_err (λ _, QuicProtocol "bootstrap reconcile result is invalid")
        (payload ← Hdb1ResultPayload_new_issued base64_encode base64_decode (BootstrapState.cm_approval_id issued) (BootstrapState.cm_core_identity issued)
                     (BootstrapState.cm_certificate_chain issued) (BootstrapState.cm_not_after_epoch_seconds issued);
         Hdb1Frame_json (jb_result json) Hdb1Result payload)
  | Err error => rejected_frame "bootstrap reconcile rejection is invalid" (bootstrap_rejection_code error)
  | Panic => Panic
  end.

Definition reconcile_bootstrap (io : Io) (start : Hdb1Frame) : handling unit :=
  on_outcome (payload ← Hdb1Frame_parse_json (jb_reconcile json) start Hdb1Reconcile;
              Hdb1ReconcilePayload_decode_fields base64_encode base64_decode payload)
    (λ '(approval_id, binding_digest, session),
      (let! result := atomically (call_reconcile (hb_bootstrap io 0) approval_id binding_digest session) in
       let! response := sv_lift (reconcile_response result) in
       do! write_hdb1_frame io response "bootstrap reconcile response timeout" "bootstrap reconcile response failed";
       do! finish_send io "finishing bootstrap reconcile stream";
       close_connection)%task)
    (λ _, turn_away io 1).

(** ** Start *)
Definition deliver_challenge (io : Io) (challenge : BootstrapChallenge) : handling unit :=
  (let! frame := sv_lift (map_err (λ _, QuicProtocol "bootstrap challenge encoding failed")
     (payload ← Hdb1ChallengePayload_new base64_encode (bg_id challenge) (bg_challenge challenge)
                  (bg_expires_at_epoch_seconds challenge);
      Hdb1Frame_json (jb_challenge json) Hdb1Challenge payload)) in
   write_hdb1_frame io frame "bootstrap challenge write timeout" "bootstrap challenge write failed")%task.

(** An attempt whose challenge was not delivered is aborted. *)
Definition abandon (io : Io) (challenge : BootstrapChallenge) (error : RelayError) : handling unit :=
  (let! aborted := atomically (call_abort (hb_bootstrap io 1) (bg_id challenge)) in
   do! on_outcome aborted (λ _, sv_ret tt) (λ _, sv_ret tt);
   do! close_connection;
   sv_err error)%task.

Definition start_bootstrap (io : Io) (start : Hdb1Frame) : handling unit :=
  on_outcome (Hdb1Frame_parse_json (jb_start json) start Hdb1Start)
    (λ payload,
      (let! challenge := atomically (call_start (hb_bootstrap io 0) (hb_peer_ip io) payload) in
       on_outcome challenge (λ challenge,
         let! delivered := caught (deliver_challenge io challenge) in
         on_outcome delivered (λ _,
           let! submit := read_hdb1_frame io in
           match submit with
           | None => close_connection
           | Some submit =>
               let! response := bootstrap_submit_response io 1 submit in
               do! write_hdb1_frame io response "bootstrap response write timeout" "bootstrap response write failed";
               do! finish_send io "finishing bootstrap stream";
               close_connection
           end)
           (abandon io challenge))
         (λ error, turn_away io (bootstrap_rejection_code error)))%task)
    (λ _, turn_away io 1).

(** ** The connection *)
Definition serve_bootstrap_connection (io : Io) : handling unit :=
  (do! component bootstrap_present (QuicProtocol "bootstrap runtime is unavailable");
   do! component (hb_handshake_permit io) ResourceLimit;
   do! component (hb_connection_permit io) ResourceLimit;
   do! sv_lift match hb_accept io with
               | StreamAccepted => Ok tt
               | AcceptTimedOut => Err (QuicHandshake "bootstrap stream timeout")
               | AcceptFailed => Err (QuicHandshake "bootstrap stream unavailable")
               end;
   let! start := read_hdb1_frame io in
   match start with
   | None => turn_away io 1
   | Some start =>
       if bool_decide (fr_kind start = Hdb1Submit) then resume_submission io start else
       if bool_decide (fr_kind start = Hdb1Reconcile) then reconcile_bootstrap io start else
       start_bootstrap io start
   end)%task.
End Server.
