(* ===== verification/Hde3Server.v ===== *)
(** * The HDE3 enrollment of the QRM server (src/src/quic_server.rs)

    One connection of a Core: it submits the request of its first App, or starts and buys the
    approval of a later one, gets the certificate, confirms that the App keeps it, or asks
    again for a result.  Each handler is a task whose steps are the uses of the bootstrap
    runtime, the issuance results and the allowlist, each behind its mutex. *)
From S2P Require Export ServerWorld.

Definition decode_hex_digest (value : list byte) : relay_result (list byte) :=
  if negb (len value =? 64) || existsb (λ b, negb (is_ascii_hexdigit b) || is_ascii_uppercase b) value
  then Err (QuicProtocol "HDE3 digest is invalid") else
  output ← decode_pairs (QuicProtocol "HDE3 digest is invalid") value;
  if bool_decide (output = zeros 32) then Err (QuicProtocol "HDE3 digest is empty") else Ok output.

(** ** What one connection meets *)

(** The parsers and printers serde derives for the payloads. *)
Record Hde3Json : Type := {
  js_approval_submit : list byte → option Hde3ApprovalSubmitPayload;
  js_first_app_submit : list byte → option Hde3FirstAppSubmitPayload;
  js_approval_start : list byte → option Hde3ApprovalStartPayload;
  js_confirm_persisted : list byte → option Hde3ConfirmPersistedPayload;
  js_reconcile : list byte → option Hde3ReconcilePayload;
  js_challenge : Hde3ApprovalChallengePayload → option (list byte);
  js_result : Hde3ResultPayload → option (list byte);
  js_rejected : Z → option (list byte);
}.

(** Which of the optional components the server was built with. *)
Record Hde3Components : Type := {
  he_bootstrap : bool;
  he_issuance_results : bool;
  he_allowlist : bool;
}.

(** The surroundings of one connection: whether its permits are free, its stream comes, its
    reads and writes succeed in time, the clock and the user id, and the surroundings of its
    calls on the components, in the order of the calls. *)
Record Hde3Io (BIo RIo AIo CIo : Type) : Type := {
  hx_handshake_permit : bool;
  hx_connection_permit : bool;
  hx_accept : AcceptResult;
  hx_read_expires : nat → bool;
  hx_write : nat → WriteResult;
  hx_finish_fails : bool;
  hx_clock : option Z;
  hx_uid_fails : bool;
  hx_bootstrap : nat → BIo;
  hx_results : nat → RIo;
  hx_allowlist : nat → AIo;
  hx_issue : CIo;
}.
#[global] Arguments hx_handshake_permit {BIo RIo AIo CIo} _.
#[global] Arguments hx_connection_permit {BIo RIo AIo CIo} _.
#[global] Arguments hx_accept {BIo RIo AIo CIo} _.
#[global] Arguments hx_read_expires {BIo RIo AIo CIo} _ _.
#[global] Arguments hx_write {BIo RIo AIo CIo} _ _.
#[global] Arguments hx_finish_fails {BIo RIo AIo CIo} _.
#[global] Arguments hx_clock {BIo RIo AIo CIo} _.
#[global] Arguments hx_uid_fails {BIo RIo AIo CIo} _.
#[global] Arguments hx_bootstrap {BIo RIo AIo CIo} _ _.
#[global] Arguments hx_results {BIo RIo AIo CIo} _ _.
#[global] Arguments hx_allowlist {BIo RIo AIo CIo} _ _.
#[global] Arguments hx_issue {BIo RIo AIo CIo} _.

Section Server.
Context {W BIo RS RIo AS AIo CIo : Type}.
Context `{!BootstrapService W BIo, !ResultStore RS RIo, !AllowlistStore AS AIo, !CertificateIssuer CIo}.
Context (sha256 : list byte → list byte) (parse_certificate : list byte → option ParsedCertificate).
Context (base64_encode : list byte → list byte) (base64_decode : list byte → option (list byte)).
Context (json : Hde3Json) (components : Hde3Components).

Abbreviation World := (ServerWorld W BIo RS AS).
Abbreviation handling := (serving World ServerStream RelayError).
Abbreviation Io := (Hde3Io BIo RIo AIo CIo).

(** ** Derived values *)
Definition hde3_authorization_id (approval_id : list byte) : list byte :=
  let output := take 16 (sha256 (str_lit "herdr-dog-hde3-issuance-id-v1" ++ approval_id)) in
  if bool_decide (output = zeros 16) then x01 :: zeros 15 else output.

(** The [expect] panics when the binding is empty. *)
Definition hde3_issuance_key (approval_id csr_digest : list byte) : relay_result IssuanceResultKey :=
  match IssuanceResultKey_new (hde3_authorization_id approval_id) csr_digest with
  | Ok key => Ok key
  | _ => Panic
  end.

Definition public_chain_digest (chain : list (list byte)) : list byte :=
  sha256 (chain ≫= λ certificate, be_bytes 8 (len certificate) ++ certificate).

Definition certificate_identity_digest (chain : list (list byte)) : option (list byte) :=
  leaf ← head chain;
  certificate ← parse_certificate leaf;
  Some (sha256 (px_spki_raw certificate)).

Definition issuance_record_payload (record : IssuanceResultRecord) (approval_id : list byte)
    (configuration_generation : option Z) (active : bool) : outcome Z Hde3ResultPayload :=
  fingerprint ← ok_or (ir_fingerprint record) 5;
  record_configuration_generation ← ok_or (ir_configuration_generation record) 5;
  if match configuration_generation with
     | Some generation => negb (generation =? record_configuration_generation)
     | None => false
     end then Err 4 else
  not_after ← ok_or (ir_not_after record) 5;
  identity ← ok_or (certificate_identity_digest (ir_certificate_chain record)) 5;
  map_err (λ _, 5)
    (Hde3ResultPayload_new_issued base64_encode
       {| hi_approval_id := approval_id; hi_app_identity := identity;
          hi_certificate_chain := ir_certificate_chain record; hi_certificate_fingerprint := fingerprint;
          hi_certificate_chain_digest := public_chain_digest (ir_certificate_chain record);
          hi_not_after_epoch_seconds := not_after; hi_configuration_generation := record_configuration_generation;
          hi_active := active |}).

(** The answer for a record that exists: [issue_hde3_app] and [reconcile_hde3_record]. *)
Definition record_answer (record : IssuanceResultRecord) (approval_id : list byte) (configuration_generation : option Z)
  : outcome Z Hde3ResultPayload :=
  match ir_status record with
  | ResultIssued => issuance_record_payload record approval_id configuration_generation false
  | ResultRejected =>
      map_err (λ _, 1)
        (Hde3ResultPayload_new_rejected base64_encode approval_id (default 4 (ir_rejection_code record)))
  | ResultPending => map_err (λ _, 1) (Hde3ResultPayload_new_pending base64_encode approval_id)
  end.

(** ** Frames *)
Definition write_frame (io : Io) (frame : Hde3Frame) (expired failed : string) : handling unit :=
  locally (λ l,
    let l := {| ss_incoming := ss_incoming l; ss_sent := ss_sent l; ss_reads := ss_reads l;
                ss_writes := S (ss_writes l); ss_closed := ss_closed l |} in
    match Hde3Frame_encode frame with
    | Err _ => (l, Err (QuicProtocol failed))
    | Panic => (l, Panic)
    | Ok bytes =>
        match hx_write io (ss_writes l) with
        | Written =>
            ({| ss_incoming := ss_incoming l; ss_sent := ss_sent l ++ [bytes]; ss_reads := ss_reads l;
                ss_writes := ss_writes l; ss_closed := ss_closed l |}, Ok tt)
        | WriteTimedOut => (l, Err (QuicHandshake expired))
        | WriteFailed => (l, Err (QuicProtocol failed))
        end
    end).

(** A frame that comes whole within the lifetime of the connection. *)
Definition read_frame (io : Io) : handling (option Hde3Frame) :=
  locally (λ l,
    let '(rest, r) := Hde3_read_frame (ss_incoming l) in
    let l' := {| ss_incoming := rest; ss_sent := ss_sent l; ss_reads := S (ss_reads l);
                 ss_writes := ss_writes l; ss_closed := ss_closed l |} in
    if hx_read_expires io (ss_reads l) then (l', Ok None) else
    match r with Ok frame => (l', Ok (Some frame)) | Err _ => (l', Ok None) | Panic => (l', Panic) end).

Definition send_hde3_rejection (io : Io) (approval_id : option (list byte)) (code : Z) : handling unit :=
  (let! frame := sv_lift
     (map_err (λ _, QuicProtocol "HDE3 rejection is invalid")
        match approval_id with
        | Some approval_id =>
            payload ← Hde3ResultPayload_new_rejected base64_encode approval_id code;
            Hde3Frame_json (js_result json) Hde3Result payload
        | None =>
            payload ← Hde3RejectedPayload_new code;
            Hde3Frame_json (js_rejected json) Hde3Rejected payload
        end) in
   write_frame io frame "HDE3 rejection write timeout" "HDE3 rejection write failed")%task.

Definition send_hde3_result (io : Io) (result : outcome Z Hde3ResultPayload) : handling unit :=
  on_outcome result
    (λ payload, (let! frame := sv_lift (map_err (λ _, QuicProtocol "HDE3 result encoding failed")
                                         (Hde3Frame_json (js_result json) Hde3Result payload)) in
                 write_frame io frame "HDE3 result write timeout" "HDE3 result write failed")%task)
    (λ code, send_hde3_rejection io None code).

(** ** Issuance *)
Definition issue_hde3_app (io : Io) (approval_id app_csr app_csr_digest : list byte) (configuration_generation : Z)
  : handling (outcome Z Hde3ResultPayload) :=
  (let! key := sv_lift (hde3_issuance_key approval_id app_csr_digest) in
   do! component (he_issuance_results components) ConfigurationRead;
   let! now := sv_lift (ok_or (hx_clock io) ConfigurationRead) in
   on_outcome (ci_app_id_from_csr app_csr) (λ app_id,
   let! begun := atomically (on_results now
     (rs_begin_pending (hx_results io 0) key app_id configuration_generation (Z.min u64_max (now + 300)) now)
     (if_ok (λ begun, match begun with Created _ => [IssuanceBegun key now] | Existing _ => [] end))) in
   on_outcome begun (λ begun,
   match begun with
   | Existing record => sv_ret (record_answer record approval_id (Some configuration_generation))
   | Created _ =>
   do! component (he_allowlist components) ConfigurationRead;
   let! generation := observing (λ w, ar_generation (al_memory (sw_allowlist w))) in
   let! next_generation := sv_lift (ok_or (u64_checked_add generation 1) ResourceLimit) in
   do! component (negb (hx_uid_fails io)) ConfigurationRead;
   on_outcome (ci_issue_certificate (hx_issue io) app_id app_csr next_generation) (λ issued,
   let chain := ic_certificate_chain issued in
   let fingerprint := ic_fingerprint issued in
   let not_after := ic_not_after_epoch_seconds issued in
   let! metadata := sv_lift (map_err (λ _, ConfigurationRead) (IssuedCertificate_metadata app_id next_generation issued)) in
   let! attached := atomically (on_results now
     (rs_attach_certificate (hx_results io 1) key chain fingerprint next_generation not_after now)
     (if_ok (λ _, [CertificateRecorded key approval_id app_csr app_id issued]))) in
   do! sv_lift (map_err (λ _, ConfigurationRead) attached);
   let! enrolled := atomically (on_allowlist (al_enroll_pending (hx_allowlist io 0) metadata)
     (if_ok (λ _, [AppEnrolled approval_id app_csr app_id issued]))) in
   on_outcome enrolled (λ entry,
   let! marked := atomically (on_results now
     (rs_mark_issued (hx_results io 2) key chain fingerprint (ae_generation entry) not_after now)
     (if_ok (λ record, [ResultIssuedFor key record]))) in
   on_outcome marked (λ _,
   let! payload := sv_lift (map_err (λ _, ConfigurationRead)
     (Hde3ResultPayload_new_issued base64_encode
        {| hi_approval_id := approval_id; hi_app_identity := ic_app_identity issued;
           hi_certificate_chain := chain; hi_certificate_fingerprint := fingerprint;
           hi_certificate_chain_digest := public_chain_digest chain; hi_not_after_epoch_seconds := not_after;
           hi_configuration_generation := configuration_generation; hi_active := false |})) in
   sv_ret (Ok payload))
   (λ _, sv_ret (Err 5)))
   (λ _, sv_ret (Err 5)))
   (λ _, sv_ret (Err 4))
   end)
   (λ _, sv_ret (Err 5)))
   (λ _, sv_ret (Err 4)))%task.

(** ** Confirmation *)

(** [payload.approval_id()] of the confirmation and the reconciliation payload. *)
Definition decoded_approval_id (value : list byte) (reason : string) : relay_result (list byte) :=
  map_err (λ _, QuicProtocol reason) (decode_base64_exact Hde3InvalidField base64_encode base64_decode HDE3_ID_BYTES value).

(** The identity, fingerprint and chain digest a confirmation names. *)
Definition supplied_digests (payload : Hde3ConfirmPersistedPayload) : relay_result (list byte * list byte * list byte) :=
  app_identity ← decode_hex_digest (hp_app_identity payload);
  fingerprint_bytes ← decode_hex_digest (hp_issued_certificate_fingerprint payload);
  fingerprint ← map_err (λ _, QuicProtocol "HDE3 confirmation fingerprint is invalid") (Fingerprint_from_bytes fingerprint_bytes);
  chain_digest ← decode_hex_digest (hp_issued_certificate_chain_digest payload);
  Ok (app_identity, fingerprint, chain_digest).

(** The record against the confirmation. *)
Definition confirmed_record (record : IssuanceResultRecord) (approval_id : list byte)
    (supplied : list byte * list byte * list byte) (configuration_generation : Z) : outcome Z Hde3ResultPayload :=
  let '(app_identity, fingerprint, chain_digest) := supplied in
  expected_fingerprint ← ok_or (ir_fingerprint record) 5;
  if bool_decide (certificate_identity_digest (ir_certificate_chain record) ≠ Some app_identity)
     || bool_decide (expected_fingerprint ≠ fingerprint)
     || bool_decide (public_chain_digest (ir_certificate_chain record) ≠ chain_digest)
  then Err 4 else
  issuance_record_payload record approval_id (Some configuration_generation) true.

(** What is done with the allowlist under one lock. *)
Definition activate_confirmed (reload_io activate_io : AIo) (app_id fingerprint : list byte)
  : stateful AS RelayError (outcome Z unit) :=
  (do! al_reload reload_io;
   let! allowlist := st_get in
   match entry (al_memory allowlist) app_id with
   | None => st_ret (Err 5)
   | Some entry =>
       if bool_decide (ae_fingerprint entry ≠ fingerprint) then st_ret (Err 4) else
       match ae_state entry with
       | Pending =>
           λ s, let '(s', r) := al_activate activate_io app_id fingerprint s in
                (s', (λ _, Ok tt) <$> map_err (λ _, ConfigurationRead) r)
       | Active => st_ret (Ok tt)
       | Revoked => st_ret (Err 4)
       end
   end)%relay.

Definition confirm_hde3_persisted (io : Io) (payload : Hde3ConfirmPersistedPayload) (core_identity : list byte)
  : handling (outcome Z Hde3ResultPayload) :=
  on_outcome (Hde3ConfirmPersistedPayload_validate base64_encode base64_decode payload) (λ _,
    (let! approval_id := sv_lift (decoded_approval_id (hp_approval_id payload) "HDE3 confirmation approval is invalid") in
     let! supplied := sv_lift (supplied_digests payload) in
     do! component (he_issuance_results components) ConfigurationRead;
     let! now := sv_lift (ok_or (hx_clock io) ConfigurationRead) in
     let! found := atomically (on_results now
       (rs_find_by_authorization_id (hx_results io 0) (hde3_authorization_id approval_id) now) (λ _, [])) in
     let! found := sv_lift found in
     let! record := sv_lift (ok_or found ConfigurationRead) in
     on_outcome (confirmed_record record approval_id supplied (hp_configuration_generation payload)) (λ result,
     let! app_id := sv_lift (map_err (λ _, QuicProtocol "HDE3 confirmation App identity is invalid") (AppId_new (ir_app_id record))) in
     do! component (he_bootstrap components) ConfigurationRead;
     let! confirmed := atomically (call_confirm_first_app (hx_bootstrap io 0)
       core_identity approval_id (ik_csr_digest (ir_key record)) (hp_configuration_generation payload)) in
     if match confirmed with Ok _ | Err BrNotFound => true | _ => false end then
       do! component (he_allowlist components) ConfigurationRead;
       let! activated := atomically (on_allowlist
         (activate_confirmed (hx_allowlist io 0) (hx_allowlist io 1) app_id supplied.1.2)
         (if_ok (if_ok (λ _, [AppConfirmed core_identity payload record])))) in
       let! activated := sv_lift activated in
       sv_ret (_ ← activated; Ok result)
     else on_outcome confirmed (λ _, sv_ret (Err 5)) (λ _, sv_ret (Err 5)))
     (λ code, sv_ret (Err code)))%task)
    (λ _, sv_ret (Err 1)).

(** ** Reconciliation *)
Definition reconcile_hde3_record (io : Io) (approval_id : list byte) (key : IssuanceResultKey)
  : handling (outcome Z Hde3ResultPayload) :=
  (do! component (he_issuance_results components) ConfigurationRead;
   let! now := sv_lift (ok_or (hx_clock io) ConfigurationRead) in
   let! found := atomically (on_results now (rs_find (hx_results io 0) key now) (λ _, [])) in
   let! found := sv_lift found in
   match found with
   | None => sv_ret (Err 4)
   | Some record => sv_ret (record_answer record approval_id None)
   end)%task.

(** ** The connection

    A handler of a frame says whether the exchange goes on to the end of the stream; after an
    early rejection it does not. *)
Definition rejecting (io : Io) (approval_id : option (list byte)) (code : Z) : handling bool :=
  (do! send_hde3_rejection io approval_id code; sv_ret false)%task.

Definition finish_with (io : Io) (handler : handling (outcome Z Hde3ResultPayload)) : handling bool :=
  (let! result := handler in
   do! send_hde3_result io result;
   sv_ret true)%task.

(** An approval is bought with its code: [submit_app_approval], then the issuance. *)
Definition submit_and_issue (io : Io) (n : nat) (core_identity : list byte)
    (fields : list byte * list byte * list byte * list byte * list byte) : handling bool :=
  let '(approval_id, submitted_challenge, code, app_csr, digest) := fields in
  (let! context := atomically (call_submit_app_approval (hx_bootstrap io n)
     core_identity approval_id submitted_challenge code app_csr digest
     (if_ok (λ context, [AppApproved core_identity (ac_approval_id context) (ac_app_csr context)
                           (ac_app_csr_digest context) (ac_configuration_generation context)]))) in
   on_outcome context (λ context,
     finish_with io (issue_hde3_app io (ac_approval_id context) (ac_app_csr context) (ac_app_csr_digest context)
                       (ac_configuration_generation context)))
     (λ error, rejecting io (Some approval_id) (bootstrap_rejection_code error)))%task.

Definition serve_approval_submit (io : Io) (core_identity : list byte) (frame : Hde3Frame) : handling bool :=
  on_outcome (payload ← Hde3Frame_parse_json (js_approval_submit json) frame Hde3ApprovalSubmit;
              Hde3ApprovalSubmitPayload_decode_fields base64_encode base64_decode sha256 payload)
    (submit_and_issue io 0 core_identity) (λ _, rejecting io None 1).

Definition serve_first_app_submit (io : Io) (core_identity : list byte) (frame : Hde3Frame) : handling bool :=
  on_outcome (payload ← Hde3Frame_parse_json (js_first_app_submit json) frame Hde3FirstAppSubmit;
              Hde3FirstAppSubmitPayload_decode_fields base64_encode base64_decode sha256 payload)
    (λ '(approval_id, app_csr, app_csr_digest),
      (let! generation := atomically (call_authorize_first_app (hx_bootstrap io 0) core_identity approval_id app_csr_digest
         (if_ok (λ generation, [AppApproved core_identity approval_id app_csr app_csr_digest generation]))) in
       on_outcome generation (λ generation,
         finish_with io (issue_hde3_app io approval_id app_csr app_csr_digest generation))
         (λ error, rejecting io (Some approval_id) (bootstrap_rejection_code error)))%task)
    (λ _, rejecting io None 1).

(** The second frame of a later App's approval. *)
Definition serve_submission (io : Io) (core_identity : list byte) (challenge : BootstrapChallenge) (submit : Hde3Frame)
  : handling bool :=
  on_outcome (payload ← Hde3Frame_parse_json (js_approval_submit json) submit Hde3ApprovalSubmit;
              Hde3ApprovalSubmitPayload_decode_fields base64_encode base64_decode sha256 payload)
    (λ fields,
      let '(approval_id, submitted_challenge, _, _, _) := fields in
      if bool_decide (approval_id ≠ bg_id challenge) || bool_decide (submitted_challenge ≠ bg_challenge challenge)
      then rejecting io (Some (bg_id challenge)) 4
      else submit_and_issue io 1 core_identity fields)
    (λ _, rejecting io (Some (bg_id challenge)) 1).

Definition serve_approval_start (io : Io) (core_identity : list byte) (frame : Hde3Frame) : handling bool :=
  on_outcome (payload ← Hde3Frame_parse_json (js_approval_start json) frame Hde3ApprovalStart;
              _ ← Hde3ApprovalStartPayload_validate payload;
              Ok payload)
    (λ payload,
      (let! app_csr_digest := sv_lift (map_err (λ _, QuicProtocol "HDE3 approval digest is invalid")
         (decode_hex_exact Hde3InvalidField HDE3_DIGEST_BYTES (hs_app_csr_digest payload))) in
       let! core_binding_digest := sv_lift (decode_hex_digest (hs_core_binding_digest payload)) in
       let! challenge := atomically (call_start_app_approval (hx_bootstrap io 0)
         core_identity app_csr_digest core_binding_digest (hs_normalized_session payload) (hs_configuration_generation payload)) in
       on_outcome challenge (λ challenge,
         let! frame := sv_lift (map_err (λ _, QuicProtocol "HDE3 challenge encoding failed")
           (payload ← Hde3ApprovalChallengePayload_new base64_encode (bg_id challenge) (bg_challenge challenge)
                        (bg_expires_at_epoch_seconds challenge);
            Hde3Frame_json (js_challenge json) Hde3ApprovalChallenge payload)) in
         do! write_frame io frame "HDE3 challenge write timeout" "HDE3 challenge write failed";
         let! submit := read_frame io in
         match submit with
         | None => sv_ret false
         | Some submit => serve_submission io core_identity challenge submit
         end)
         (λ error, rejecting io None (bootstrap_rejection_code error)))%task)
    (λ _, rejecting io None 1).

Definition serve_confirm_persisted (io : Io) (core_identity : list byte) (frame : Hde3Frame) : handling bool :=
  on_outcome (Hde3Frame_parse_json (js_confirm_persisted json) frame Hde3ConfirmPersisted)
    (λ payload, finish_with io (confirm_hde3_persisted io payload core_identity)) (λ _, rejecting io None 1).

Definition serve_reconcile (io : Io) (frame : Hde3Frame) : handling bool :=
  on_outcome (payload ← Hde3Frame_parse_json (js_reconcile json) frame Hde3Reconcile;
              _ ← Hde3ReconcilePayload_validate base64_encode base64_decode payload;
              Ok payload)
    (λ payload,
      (let! approval_id := sv_lift (decoded_approval_id (hr_approval_id payload) "HDE3 reconciliation approval is invalid") in
       let! csr_digest := sv_lift (decode_hex_digest (hr_app_csr_digest payload)) in
       let! key := sv_lift (hde3_issuance_key approval_id csr_digest) in
       finish_with io (reconcile_hde3_record io approval_id key))%task)
    (λ _, rejecting io None 1).

Definition serve_frame (io : Io) (core_identity : list byte) (frame : Hde3Frame) : handling bool :=
  match fr_kind frame with
  | Hde3ApprovalSubmit => serve_approval_submit io core_identity frame
  | Hde3FirstAppSubmit => serve_first_app_submit io core_identity frame
  | Hde3ApprovalStart => serve_approval_start io core_identity frame
  | Hde3ConfirmPersisted => serve_confirm_persisted io core_identity frame
  | Hde3Reconcile => serve_reconcile io frame
  | _ => (do! send_hde3_rejection io None 3; sv_ret true)%task
  end.

(** [send.finish()], the wait for the peer, [connection.close(..)]. *)
Definition finish_stream (io : Io) : handling unit :=
  locally (λ l,
    if hx_finish_fails io then (l, Err (QuicProtocol "finishing HDE3 stream")) else
    ({| ss_incoming := ss_incoming l; ss_sent := ss_sent l; ss_reads := ss_reads l; ss_writes := ss_writes l;
        ss_closed := true |}, Ok tt)).

Definition serve_hde3_connection (io : Io) (core_identity : list byte) : handling unit :=
  (do! component (he_bootstrap components) (QuicProtocol "enrollment authority is unavailable");
   do! component (hx_handshake_permit io) ResourceLimit;
   do! component (hx_connection_permit io) ResourceLimit;
   do! sv_lift match hx_accept io with
               | StreamAccepted => Ok tt
               | AcceptTimedOut => Err (QuicHandshake "HDE3 stream timeout")
               | AcceptFailed => Err (QuicHandshake "HDE3 stream unavailable")
               end;
   let! frame := read_frame io in
   match frame with
   | None => ignored (send_hde3_rejection io None 1)
   | Some frame =>
       let! completed := serve_frame io core_identity frame in
       if completed then finish_stream io else sv_ret tt
   end)%task.
End Server.
