(* ===== verification/QrmConnection.v ===== *)
(** * The control loop of a QRM connection (src/src/quic_server.rs, serve_connection_inner,
    handle_control, cancel_session)

    The loop takes one event at a time: a control frame, a tick of the expiry timer, the start
    or the deadline of a drain, a session stream, a task that ended.  Handling an event runs
    from one use of a lock to the next, and the session streams of [QrmStreams] and the other
    users of the allowlist run in between; [LoopPoint] says where the loop is. *)
From S2P Require Export QrmStreams Services.
From S2P Require Import ServerWorld.

(** [Cancelling handles reply]: [cancel_session] is about to take the first of [handles] out
    of the map, and [reply] is sent at the end; [AwaitingDone]: it waits for the task it told
    to stop.  [Ended]: [serve_connection] has returned. *)
Inductive LoopPoint : Type :=
| Listening
| Allowed (frame : HdqmFrame)
| Sweeping
| Cancelling (handles : list Z) (reply : option HdqmFrame)
| AwaitingDone (handles : list Z) (reply : option HdqmFrame)
| Updating (request_id : list byte)
| Ended (result : relay_result unit).

(** [qc_allowlist] is shared with every other connection and, through its file, with other
    processes. *)
Record QrmConnection (AS : Type) : Type := {
  qc_allowlist : AS;
  qc_sessions : QrmSessions;
  qc_point : LoopPoint;
  qc_draining : bool;
  qc_sent : list HdqmFrame;
}.
#[global] Arguments qc_allowlist {AS} _.
#[global] Arguments qc_sessions {AS} _.
#[global] Arguments qc_point {AS} _.
#[global] Arguments qc_draining {AS} _.
#[global] Arguments qc_sent {AS} _.

Section Setters.
Context {AS : Type}.
Definition qc_set_allowlist (a : AS) (c : QrmConnection AS) : QrmConnection AS :=
  {| qc_allowlist := a; qc_sessions := qc_sessions c; qc_point := qc_point c; qc_draining := qc_draining c;
     qc_sent := qc_sent c |}.
Definition qc_set_sessions (s : QrmSessions) (c : QrmConnection AS) : QrmConnection AS :=
  {| qc_allowlist := qc_allowlist c; qc_sessions := s; qc_point := qc_point c; qc_draining := qc_draining c;
     qc_sent := qc_sent c |}.
Definition qc_set_point (p : LoopPoint) (c : QrmConnection AS) : QrmConnection AS :=
  {| qc_allowlist := qc_allowlist c; qc_sessions := qc_sessions c; qc_point := p; qc_draining := qc_draining c;
     qc_sent := qc_sent c |}.
Definition qc_drain (c : QrmConnection AS) : QrmConnection AS :=
  {| qc_allowlist := qc_allowlist c; qc_sessions := qc_sessions c; qc_point := qc_point c; qc_draining := true;
     qc_sent := qc_sent c |}.
Definition qc_send (frame : HdqmFrame) (c : QrmConnection AS) : QrmConnection AS :=
  {| qc_allowlist := qc_allowlist c; qc_sessions := qc_sessions c; qc_point := qc_point c; qc_draining := qc_draining c;
     qc_sent := qc_sent c ++ [frame] |}.
End Setters.

Definition control_frame (kind : HdqmKind) (request_id payload : list byte) : HdqmFrame :=
  {| hf_kind := kind; hf_request_id := request_id; hf_payload := payload |}.

Definition prepared_ack (prepared : PreparedSession) : SessionPrepareAck :=
  {| spa_session := ps_session prepared; spa_fingerprint := ps_fingerprint prepared;
     spa_configuration_generation := ps_configuration_generation prepared;
     spa_relay_generation := ps_relay_generation prepared; spa_connection_epoch := ps_connection_epoch prepared;
     spa_token := ps_token prepared; spa_token_ttl_secs := ps_token_ttl_secs prepared |}.
Definition opened_ack (active : ActiveSession) : SessionOpenAck :=
  let prepared := as_prepared active in
  {| soa_session_handle := as_handle active; soa_session := ps_session prepared;
     soa_fingerprint := ps_fingerprint prepared;
     soa_configuration_generation := ps_configuration_generation prepared;
     soa_relay_generation := ps_relay_generation prepared; soa_connection_epoch := ps_connection_epoch prepared;
     soa_token := ps_token prepared |}.

(** The handle and the token of entry [index] of a heartbeat. *)
Definition heartbeat_entry (payload : list byte) (index : nat) : Z * list byte :=
  let offset := (1 + index * 34)%nat in
  (be_val (take 2 (drop offset payload)), take 32 (drop (offset + 2) payload)).
Definition heartbeat_entries (payload : list byte) : relay_result (list (Z * list byte)) :=
  match payload with
  | [] => Err (QuicProtocol "HEARTBEAT payload is empty")
  | first :: _ =>
      let count := byte_val first in
      if (64 <? count) || negb (len payload =? 1 + count * 34)
      then Err (QuicProtocol "HEARTBEAT payload is invalid")
      else Ok (heartbeat_entry payload <$> seq 0 (Z.to_nat count))
  end.

(** What the random source and the clocks give while one control frame is handled. *)
Record QrmEnv : Type := {
  qe_fingerprint : list byte;
  qe_token : list byte;
  qe_reap_now : Z;
  qe_now : Z;
  qe_clock : option Z;
}.

Section Loop.
Context {AS AIo : Type} `{!AllowlistStore AS AIo}.
Context (config : RelayConfig) (socket_override : option path) (xdg home : option (list byte)).
(** [self.allowlist] and [peer_fingerprint], when the connection has both. *)
Context (peer : option (list byte)).

Abbreviation controlling := (stateful (QrmConnection AS) RelayError).

Section Handlers.
Local Open Scope relay_scope.

Definition send_control_frame (write : WriteResult) (frame : HdqmFrame) : controlling unit := λ c,
  match HdqmFrame_encode frame with
  | Ok _ =>
      match write with
      | Written => (qc_send frame c, Ok tt)
      | WriteTimedOut => (c, Err (QuicHandshake "control frame write timeout"))
      | WriteFailed => (c, Err (QuicProtocol "writing control frame"))
      end
  | Err _ => (c, Err (QuicProtocol "control frame encode failed"))
  | Panic => (c, Panic)
  end.

Definition on_registry {A} (f : SessionRegistry → SessionRegistry * A) : controlling A := λ c,
  let '(r, a) := f (qs_registry (qc_sessions c)) in
  (qc_set_sessions (qs_set_registry r (qc_sessions c)) c, Ok a).
Definition on_sessions (f : QrmSessions → QrmSessions) : controlling unit := λ c,
  (qc_set_sessions (f (qc_sessions c)) c, Ok tt).
Definition on_store {E A} (m : stateful AS E A) : controlling (outcome E A) := λ c,
  let '(a, r) := m (qc_allowlist c) in (qc_set_allowlist a c, Ok r).

Definition or_fail {E A} (reason : string) (m : outcome E A) : controlling A :=
  st_lift (map_err (λ _, QuicProtocol reason) m).

(** An ERROR_RESPONSE with an HDQS rejection. *)
Definition send_rejection (write : WriteResult) (frame : HdqmFrame) (response : HdqsResponse) (reason : string)
  : controlling LoopPoint :=
  let! payload := or_fail reason (HdqsResponse_encode response) in
  do! send_control_frame write (control_frame ErrorResponse (hf_request_id frame) payload);
  st_ret Listening.

Definition connection_epoch : controlling Z := on_registry (λ r, (r, sr_connection_epoch r)).

(** *** Before the frame is looked at *)
Definition starts_session (kind : HdqmKind) : bool :=
  match kind with SessionPrepare | SessionOpen => true | _ => false end.

(** The reload and the look at the allowlist under one lock. *)
Definition recheck_peer (io : AIo) (clock : option Z) : controlling unit :=
  match peer with
  | None => st_ret tt
  | Some fingerprint =>
      let! reloaded := on_store (al_reload io) in
      do! st_lift reloaded;
      let! c := st_get in
      if allows_qrm (al_memory (qc_allowlist c)) fingerprint clock then st_ret tt else st_err QuicAuthentication
  end.

Definition receive_frame (io : AIo) (clock : option Z) (write : WriteResult) (frame : HdqmFrame)
  : controlling LoopPoint :=
  let! c := st_get in
  if qc_draining c && starts_session (hf_kind frame)
  then
    let! epoch := connection_epoch in
    send_rejection write frame (HdqsResponse_rejected ConnectionClosing epoch) "drain rejection encoding failed"
  else
    do! recheck_peer io clock;
    st_ret (Allowed frame).

(** *** The frames *)
Definition control_prepare (env : QrmEnv) (write : WriteResult) (frame : HdqmFrame) : controlling LoopPoint :=
  let! request := or_fail "SESSION_PREPARE payload invalid" (SessionPrepareRequest_decode (hf_payload frame)) in
  let fingerprint :=
    if bool_decide (spr_expected_fingerprint request = zeros 32)
    then qe_fingerprint env else spr_expected_fingerprint request in
  do! on_sessions (qs_draw (qe_token env));
  let! prepared := on_registry (λ r,
    prepare_at (reap_expired_prepared r (qe_reap_now env)).1 (qe_now env) (spr_session request) fingerprint
      (spr_configuration_generation request) (qe_token env)) in
  let! epoch := connection_epoch in
  match prepared with
  | Err ResourceLimit =>
      send_rejection write frame (HdqsResponse_rejected CapacityExhausted epoch)
        "SESSION_PREPARE capacity error encoding failed"
  | Err SessionAuthority =>
      send_rejection write frame (HdqsResponse_rejected SessionNotFound epoch)
        "SESSION_PREPARE authority error encoding failed"
  | _ =>
      let! prepared := st_lift prepared in
      let! payload := or_fail "SESSION_PREPARE_ACK encoding failed" (SessionPrepareAck_encode (prepared_ack prepared)) in
      do! send_control_frame write (control_frame SessionPrepareAckKind (hf_request_id frame) payload);
      st_ret Listening
  end.

(** A task of an earlier session still has the handle. *)
Definition handle_in_use (handle : Z) (s : QrmSessions) : bool :=
  map_any (λ t, bool_decide (hb_session_handle <$> task_binding t = Some handle)) (qs_tasks s).

Definition control_open (env : QrmEnv) (write : WriteResult) (frame : HdqmFrame) : controlling LoopPoint :=
  let! request := or_fail "SESSION_OPEN payload invalid" (SessionOpenRequest_decode (hf_payload frame)) in
  let! opened := on_registry (λ r, open_request r (qe_now env) request) in
  match opened with
  | (response, None) => send_rejection write frame response "SESSION_OPEN error encoding failed"
  | (_, Some active) =>
      do! on_sessions (λ s, qs_reuse (if handle_in_use (as_handle active) s then [as_handle active] else []) s);
      let! payload := or_fail "SESSION_OPEN_ACK encoding failed" (SessionOpenAck_encode (opened_ack active)) in
      do! send_control_frame write (control_frame SessionOpened (hf_request_id frame) payload);
      st_ret Listening
  end.

Definition control_close (frame : HdqmFrame) : controlling LoopPoint :=
  if negb (len (hf_payload frame) =? 2) then st_err (QuicProtocol "SESSION_CLOSE payload invalid") else
  let handle := be_val (hf_payload frame) in
  let! _ := on_registry (λ r, close r handle) in
  st_ret (Cancelling [handle] (Some (control_frame SessionClosed (hf_request_id frame) []))).

Definition control_heartbeat (env : QrmEnv) (write : WriteResult) (frame : HdqmFrame) : controlling LoopPoint :=
  let! entries := st_lift (heartbeat_entries (hf_payload frame)) in
  let! renewed := on_registry (λ r, renew_batch r entries (qe_now env)) in
  let! epoch := connection_epoch in
  if negb renewed
  then send_rejection write frame (HdqsResponse_rejected TokenMismatch epoch) "HEARTBEAT error encoding failed"
  else
    do! send_control_frame write (control_frame Heartbeat (hf_request_id frame) []);
    st_ret Listening.

Definition STABLE_LATEST_SELECTOR : list byte := str_lit "stable-latest".

(** [reload] and [authorize_update] under one lock. *)
Definition update_authorized (io : AIo) (clock : option Z) : controlling bool :=
  match peer with
  | None => st_ret false
  | Some fingerprint =>
      let! reloaded := on_store (al_reload io) in
      do! st_lift reloaded;
      let! c := st_get in
      st_ret (is_ok (authorize_update (al_memory (qc_allowlist c)) fingerprint clock))
  end.

Definition control_update (io : AIo) (env : QrmEnv) (write : WriteResult) (frame : HdqmFrame) : controlling LoopPoint :=
  if negb (uc_enabled (cf_update config)) then st_err (QuicProtocol "Relay update is disabled") else
  let reject code :=
    do! send_control_frame write (control_frame RelayUpdateRejected (hf_request_id frame) [code]);
    st_ret Listening in
  if bool_decide (hf_payload frame ≠ STABLE_LATEST_SELECTOR) then reject x01 else
  let! authorized := update_authorized io (qe_clock env) in
  if negb authorized then reject x02 else
  do! send_control_frame write (control_frame RelayUpdateAccepted (hf_request_id frame) [x01]);
  st_ret (Updating (hf_request_id frame)).

(** The update task has ended: [None] when it panicked. *)
Definition finish_update (result : option (relay_result unit)) (write : WriteResult) (request_id : list byte)
  : controlling LoopPoint :=
  let! result := st_lift (ok_or result (Update "running stable-latest update" "update worker task failed")) in
  if is_ok result
  then
    do! send_control_frame write (control_frame RelayUpdateStatus request_id [x01]);
    st_ret (Ended (Ok tt))
  else
    do! send_control_frame write (control_frame RelayUpdateStatus request_id [x02]);
    st_ret Listening.

(** [Ended (Ok tt)] stands for [Ok(false)]. *)
Definition process_frame (io : AIo) (env : QrmEnv) (write : WriteResult) (frame : HdqmFrame) : controlling LoopPoint :=
  match hf_kind frame with
  | SessionPrepare => control_prepare env write frame
  | SessionOpen => control_open env write frame
  | SessionClose => control_close frame
  | Heartbeat => control_heartbeat env write frame
  | RelayUpdate => control_update io env write frame
  | GoAway => st_ret (Ended (Ok tt))
  | _ => st_err (QuicProtocol "unexpected control frame kind")
  end.

(** *** The other events *)
Definition go_away : HdqmFrame := control_frame GoAway (zeros 16) [].

Definition begin_drain (write : WriteResult) : controlling LoopPoint :=
  do! send_control_frame write go_away;
  do! st_modify qc_drain;
  st_ret Listening.

Definition expiry_tick (io : AIo) (clock : option Z) : controlling LoopPoint :=
  match peer with
  | None => st_ret Sweeping
  | Some fingerprint =>
      let! reloaded := on_store (al_reload io) in
      let! c := st_get in
      match reloaded with
      | Panic => st_lift Panic
      | _ =>
          st_ret (if is_ok reloaded && allows_qrm (al_memory (qc_allowlist c)) fingerprint clock
                  then Sweeping else Ended (Ok tt))
      end
  end.

Definition sweep (now : Z) : controlling LoopPoint :=
  let! expired := on_registry (λ r, reap_expired_handles r now) in
  st_ret (Cancelling expired None).

(** [cancel_session] takes the sender of the next handle out of the map and resolves it. *)
Definition cancel_next (write : WriteResult) (handles : list Z) (reply : option HdqmFrame) : controlling LoopPoint :=
  match handles with
  | [] =>
      match reply with
      | Some frame => do! send_control_frame write frame; st_ret Listening
      | None => st_ret Listening
      end
  | handle :: handles =>
      let! c := st_get in
      match qs_controls (qc_sessions c) !! handle with
      | None => st_ret (Cancelling handles reply)
      | Some _ =>
          do! on_sessions (λ s, qs_set_controls (delete handle (qs_controls s)) s);
          st_ret (AwaitingDone handles reply)
      end
  end.

(** A task that ended is joined. *)
Definition join_task : controlling LoopPoint :=
  do! on_sessions (λ s, qs_set_tasks (qs_tasks s) (pred (qs_unjoined s)) s);
  let! c := st_get in
  st_ret (if qc_draining c && bool_decide (qs_tasks (qc_sessions c) = ∅) && bool_decide (qs_unjoined (qc_sessions c) = 0%nat)
          then Ended (Ok tt) else Listening).
End Handlers.

(** [session_tasks.abort_all()] and the joins, and the end of [serve_connection], which closes
    the connection when there is an error. *)
Definition end_connection (closed : bool) (result : relay_result unit) (c : QrmConnection AS) : QrmConnection AS :=
  let s := qs_set_tasks ∅ 0 (qc_sessions c) in
  qc_set_point (Ended result)
    (qc_set_sessions (if closed || negb (is_ok result) then qs_close_connection s else s) c).

Definition run_handler (m : controlling LoopPoint) (c : QrmConnection AS) : QrmConnection AS :=
  match m c with
  | (c', Ok (Ended result)) => end_connection true result c'
  | (c', Ok point) => qc_set_point point c'
  | (c', Err error) => end_connection true (Err error) c'
  | (c', Panic) => end_connection true Panic c'
  end.

(** [new_connection]. *)
Definition QuicRelayServer_new_connection (relay_generation connection_epoch : Z) : relay_result SessionRegistry :=
  SessionRegistry_new relay_generation connection_epoch (rl_max_sessions_per_connection (cf_limits config)).

(** The state when the loop starts; [sent] are the frames sent before.  A drain that had begun
    before is the first event of the loop. *)
Definition connection_start (allowlist : AS) (registry : SessionRegistry) (sent : list HdqmFrame) : QrmConnection AS :=
  {| qc_allowlist := allowlist;
     qc_sessions := {| qs_registry := registry; qs_controls := ∅; qs_tasks := ∅; qs_next := 0; qs_unjoined := 0;
                       qs_closed := false; qs_replies := []; qs_tokens := []; qs_reused := [] |};
     qc_point := Listening; qc_draining := false; qc_sent := sent |}.

(** [accept_bi] gives a stream. *)
Definition accept_session_stream (c : QrmConnection AS) : QrmConnection AS := qc_set_sessions (qs_spawn (qc_sessions c)) c.

(** A token is drawn from 32 random bytes: it never is one drawn before.  [loop_elsewhere]: a
    call on the allowlist by another connection, or by another process on its file. *)
Inductive qrm_step (c : QrmConnection AS) : QrmConnection AS → Prop :=
| loop_frame io clock write frame :
    qc_point c = Listening → qrm_step c (run_handler (receive_frame io clock write frame) c)
| loop_process io env write frame :
    qc_point c = Allowed frame → (hf_kind frame = SessionPrepare → qe_token env ∉ qs_tokens (qc_sessions c)) →
    qrm_step c (run_handler (process_frame io env write frame) c)
| loop_cancel write handles reply :
    qc_point c = Cancelling handles reply → qrm_step c (run_handler (cancel_next write handles reply) c)
| loop_done handles reply :
    qc_point c = AwaitingDone handles reply → qrm_step c (qc_set_point (Cancelling handles reply) c)
| loop_updated result write request_id :
    qc_point c = Updating request_id → qrm_step c (run_handler (finish_update result write request_id) c)
| loop_drain write :
    qc_point c = Listening → qc_draining c = false → qrm_step c (run_handler (begin_drain write) c)
| loop_deadline :
    qc_point c = Listening → qc_draining c = true → qrm_step c (end_connection true (Ok tt) c)
| loop_tick io clock :
    qc_point c = Listening → qrm_step c (run_handler (expiry_tick io clock) c)
| loop_sweep now :
    qc_point c = Sweeping → qrm_step c (run_handler (sweep now) c)
| loop_joined :
    qc_point c = Listening → qs_unjoined (qc_sessions c) ≠ 0%nat → qrm_step c (run_handler join_task c)
| loop_reader_closed :
    qc_point c = Listening → qrm_step c (end_connection false (Ok tt) c)
| loop_reader_failed error :
    qc_point c = Listening → qrm_step c (end_connection true (Err error) c)
| loop_stream :
    qc_point c = Listening → qc_draining c = false → qrm_step c (accept_session_stream c)
| loop_stream_failed :
    qc_point c = Listening → qc_draining c = false →
    qrm_step c (end_connection true (Err (QuicProtocol "session stream accept failed")) c)
| loop_task id s :
    stream_step config socket_override xdg home id (qc_sessions c) s → qrm_step c (qc_set_sessions s c)
| loop_elsewhere (a : AS) : qrm_step c (qc_set_allowlist a c).
End Loop.

(** * Facts *)

(** The handles whose tasks are about to be told to stop. *)
Definition pending (p : LoopPoint) (handle : Z) : Prop :=
  match p with
  | Cancelling handles _ | AwaitingDone handles _ => handle ∈ handles
  | _ => False
  end.

Section Facts.
Context {AS AIo : Type} `{!AllowlistStore AS AIo}.
Context (config : RelayConfig) (socket_override : option path) (xdg home : option (list byte)).
Context (peer : option (list byte)).

Abbreviation Connection := (QrmConnection AS).
Abbreviation step := (qrm_step (AIo := AIo) config socket_override xdg home peer).

(** ** Handlers *)

(** Where a handler leaves the loop when it does not fail. *)
Definition leads (m : stateful Connection RelayError LoopPoint) (Q : LoopPoint → Connection → Prop) (c : Connection) : Prop :=
  wp m (λ r c', match r with Ok p => Q p c' | _ => True end) c.

Lemma leads_bind {A} (m : stateful Connection RelayError A) f Q c :
  wp m (λ r c', match r with Ok a => leads (f a) Q c' | _ => True end) c → leads (st_bind m f) Q c.
Proof. intros H. apply wp_bind. eapply wp_conseq; [exact H|]. by intros [a|e|] c'. Qed.

Lemma wp_send write frame (Q : outcome RelayError unit → Connection → Prop) c :
  Q (Ok tt) (qc_send frame c) → (∀ r, r ≠ Ok tt → Q r c) → wp (send_control_frame write frame) Q c.
Proof.
  intros Hok Hfail. unfold wp, send_control_frame.
  destruct (HdqmFrame_encode frame); [destruct write|..]; (apply Hok || by apply Hfail).
Qed.

Lemma leads_send write frame (Q : LoopPoint → Connection → Prop) k c :
  leads k Q (qc_send frame c) → leads (st_bind (send_control_frame write frame) (λ _, k)) Q c.
Proof. intros H. apply leads_bind, wp_send; [done|]. by intros [[]| |] ?. Qed.

Lemma leads_lift {A E'} (reason : string) (m : outcome E' A) f (Q : LoopPoint → Connection → Prop) c :
  (∀ a, m = Ok a → leads (f a) Q c) → leads (st_bind (or_fail reason m) f) Q c.
Proof. intros H. apply leads_bind. unfold wp, or_fail, st_lift. destruct m; simpl; auto. Qed.

Lemma leads_st_lift {A} (m : relay_result A) f (Q : LoopPoint → Connection → Prop) c :
  (∀ a, m = Ok a → leads (f a) Q c) → leads (st_bind (st_lift m) f) Q c.
Proof. intros H. apply leads_bind. unfold wp, st_lift. destruct m; simpl; auto. Qed.

Lemma leads_registry {A} (f : SessionRegistry → SessionRegistry * A) k (Q : LoopPoint → Connection → Prop) c :
  (∀ r a, f (qs_registry (qc_sessions c)) = (r, a) →
     leads (k a) Q (qc_set_sessions (qs_set_registry r (qc_sessions c)) c)) →
  leads (st_bind (on_registry f) k) Q c.
Proof.
  intros H. apply leads_bind. unfold wp, on_registry. destruct (f _) as [r a] eqn:E. by apply H.
Qed.

Lemma leads_sessions f k (Q : LoopPoint → Connection → Prop) c :
  leads k Q (qc_set_sessions (f (qc_sessions c)) c) → leads (st_bind (on_sessions f) (λ _, k)) Q c.
Proof. intros H. by apply leads_bind. Qed.

Lemma leads_epoch k (Q : LoopPoint → Connection → Prop) c :
  leads (k (sr_connection_epoch (qs_registry (qc_sessions c)))) Q c → leads (st_bind connection_epoch k) Q c.
Proof.
  intros H. apply leads_registry. intros r a [= <- <-].
  assert (qc_set_sessions (qs_set_registry (qs_registry (qc_sessions c)) (qc_sessions c)) c = c) as -> by (by destruct c as [? []]).
  done.
Qed.

Lemma leads_ret p (Q : LoopPoint → Connection → Prop) c : Q p c → leads (st_ret p) Q c.
Proof. done. Qed.
Lemma leads_err e (Q : LoopPoint → Connection → Prop) c : leads (st_err e) Q c.
Proof. done. Qed.
Lemma leads_get f (Q : LoopPoint → Connection → Prop) c : leads (f c) Q c → leads (st_bind st_get f) Q c.
Proof. intros H. by apply leads_bind. Qed.

Lemma leads_modify g k (Q : LoopPoint → Connection → Prop) c :
  leads k Q (g c) → leads (st_bind (st_modify g) (λ _, k)) Q c.
Proof. intros H. by apply leads_bind. Qed.

Lemma leads_rejection write frame response reason (Q : LoopPoint → Connection → Prop) c :
  (∀ payload, HdqsResponse_encode response = Ok payload →
     Q Listening (qc_send (control_frame ErrorResponse (hf_request_id frame) payload) c)) →
  leads (send_rejection write frame response reason) Q c.
Proof. intros H. apply leads_lift. intros payload Hp. apply leads_send, leads_ret. by apply H. Qed.

(** A call on the store touches nothing else of the connection. *)
Lemma leads_store {A E'} (m : stateful AS E' A) k (Q : LoopPoint → Connection → Prop) c :
  (∀ a r, m (qc_allowlist c) = (a, r) → leads (k r) Q (qc_set_allowlist a c)) →
  leads (st_bind (on_store m) k) Q c.
Proof. intros H. apply leads_bind. unfold wp, on_store. destruct (m _) as [a r] eqn:E. by apply H. Qed.

(** ** The sessions stay owned *)
Definition sound (p : LoopPoint) (c : Connection) : Prop :=
  (∃ result, p = Ended result) ∨ qrm_streams_wf (pending p) (qc_sessions c).

Definition idle : Z → Prop := λ _, False.

Lemma sound_idle p c : (∀ h, ¬ pending p h) → qrm_streams_wf idle (qc_sessions c) → sound p c.
Proof.
  intros Hp Hwf. right. eapply qrm_wf_registry; [exact Hwf|done|done|done|apply Hwf|done|by eauto|by left|done].
Qed.

Lemma control_prepare_sound env write frame c :
  qe_token env ∉ qs_tokens (qc_sessions c) → qrm_streams_wf idle (qc_sessions c) →
  leads (control_prepare env write frame) sound c.
Proof.
  intros Hfresh Hwf. apply leads_lift. intros q _. apply leads_sessions, leads_registry. intros r res Hp.
  cbn [qc_sessions qc_set_sessions qs_draw qs_registry] in Hp.
  set (fp := if bool_decide _ then _ else _) in Hp.
  pose proof (qw_owned _ _ Hwf) as Hso. pose proof (so_registry _ _ _ _ Hso) as Hreg.
  set (r0 := (reap_expired_prepared (qs_registry (qc_sessions c)) (qe_reap_now env)).1) in *.
  assert (Hless : ∀ t, is_Some (sr_prepared r0 !! t) → is_Some (sr_prepared (qs_registry (qc_sessions c)) !! t)).
  { intros t [x Hx]. simpl in Hx. apply map_lookup_filter_Some in Hx as [Hx _]. eauto. }
  assert (Hr0 : registry_wf r0) by apply (run_op_wf _ (OpReapPrepared (qe_reap_now env)) Hreg).
  apply leads_epoch.
  assert (Hsame : ∀ c', sr_active r = sr_active (qs_registry (qc_sessions c)) →
    sessions_owned r (owners (qc_sessions c)) (qe_token env :: qs_tokens (qc_sessions c)) [] →
    qc_sessions c' = qs_set_registry r (qs_draw (qe_token env) (qc_sessions c)) → sound Listening c').
  { intros c' Ha Hso' Hc. apply sound_idle; [by intros ? []|]. rewrite Hc.
    eapply qrm_wf_registry; [exact Hwf|done|done|done|exact Hso'|done| | |done]; simpl; rewrite ?Ha.
    - intros h a' H Hb _. left. eauto.
    - intros b (a & Hx). left. exists a. by rewrite Ha. }
  assert (Hrefused : ∀ e, res = Err e → r = r0).
  { intros e ->. pose proof (prepare_at_failed r0 (qe_now env) (spr_session q) fp
      (spr_configuration_generation q) (qe_token env) e) as Hf. rewrite Hp in Hf. by apply Hf. }
  assert (Hreject : ∀ response reason, r = r0 →
    leads (send_rejection write frame response reason) sound
      (qc_set_sessions (qs_set_registry r (qs_draw (qe_token env) (qc_sessions c)))
         (qc_set_sessions (qs_draw (qe_token env) (qc_sessions c)) c))).
  { intros response reason ->. apply leads_rejection. intros payload _. apply Hsame; [done| |done].
    apply sessions_owned_draw. by eapply sessions_owned_less. }
  destruct res as [p|e|].
  - simpl. apply leads_st_lift. intros p' [= <-]. apply leads_lift. intros payload _. apply leads_send, leads_ret.
    pose proof (prepare_at_wf _ (qe_now env) (spr_session q) fp (spr_configuration_generation q) (qe_token env) Hr0) as Hw.
    rewrite Hp in Hw. simpl in Hw.
    apply prepare_at_Ok in Hp as (_ & _ & _ & _ & ->). apply Hsame; [done| |done].
    by apply (sessions_owned_prepare (qs_registry (qc_sessions c))).
  - destruct e; try (apply leads_st_lift; by intros ? [=]); apply Hreject; by eapply Hrefused.
  - apply leads_st_lift. by intros ? [=].
Qed.

Lemma handle_in_use_false h s :
  handle_in_use h s = false → ∀ id b, owners s !! id = Some b → hb_session_handle b ≠ h.
Proof.
  unfold handle_in_use. rewrite map_any_false. intros Hno id b (t & Ht & Hb)%owners_of_Some <-.
  specialize (Hno _ _ Ht). apply bool_decide_eq_false in Hno. apply Hno. by rewrite Hb.
Qed.

Lemma control_open_sound env write frame c :
  qrm_streams_wf idle (qc_sessions c) → leads (control_open env write frame) sound c.
Proof.
  intros Hwf. pose proof (qw_owned _ _ Hwf) as Hso. pose proof (so_registry _ _ _ _ Hso) as Hreg.
  apply leads_lift. intros q _. apply leads_registry. intros r [response o] Ho.
  pose proof (open_request_wf _ (qe_now env) q Hreg) as Hr. rewrite Ho in Hr. simpl in Hr.
  apply open_request_cases in Ho; [|done]. destruct o as [a|].
  - destruct Ho as (Hp & _ & Ht & _ & _ & Hnew & Hub & _ & Ha & Hp'). rewrite <-Ht in Hp, Hp'.
    apply leads_sessions, leads_lift. intros payload _. apply leads_send, leads_ret, sound_idle; [by intros ? []|].
    eapply qrm_wf_registry; [exact Hwf|done|done|done| |..]; simpl.
    + by eapply sessions_owned_open.
    + intros h Hh. apply elem_of_app. by right.
    + intros h a'. rewrite Ha. intros [[<- <-]|[_ H]]%lookup_insert_Some Hb Hnr; [right|left; eauto].
      apply (handle_in_use_false _ (qc_sessions c)). unfold handle_in_use in *. simpl in Hnr.
      destruct (map_any _ _); [|done]. exfalso. apply Hnr, elem_of_app. left. by apply list_elem_of_singleton.
    + intros b (a' & Ha' & Hx). left. exists a'. split; [|done]. simpl. rewrite Ha.
      rewrite lookup_insert_ne; [done|]. congruence.
    + done.
  - destruct Ho as (Ha & Hp & _). apply leads_rejection. intros payload _. apply sound_idle; [by intros ? []|].
    eapply qrm_wf_registry; [exact Hwf|done|done|done| |done|..]; simpl; rewrite ?Ha.
    + eapply sessions_owned_less; [exact Hso|done|..].
      * intros t. rewrite Hp. intros [x Hx]. apply lookup_delete_Some in Hx as [_ ?]. eauto.
      * intros h a. by rewrite Ha.
    + intros h a' H Hb _. left. eauto.
    + intros b (a' & Ha' & Hx). left. exists a'. by rewrite Ha.
    + done.
Qed.

(** The loop takes sessions out of the registry and goes on to tell their tasks. *)
Lemma sound_removed r handles reply (c c' : Connection) :
  qrm_streams_wf idle (qc_sessions c) → registry_wf r →
  (∀ t, is_Some (sr_prepared r !! t) → is_Some (sr_prepared (qs_registry (qc_sessions c)) !! t)) →
  (∀ h a, sr_active r !! h = Some a → sr_active (qs_registry (qc_sessions c)) !! h = Some a) →
  (∀ h a, sr_active (qs_registry (qc_sessions c)) !! h = Some a → h ∉ handles → sr_active r !! h = Some a) →
  qc_sessions c' = qs_set_registry r (qc_sessions c) → sound (Cancelling handles reply) c'.
Proof.
  intros Hwf Hreg Hp Hless Hkeep Hc. right. rewrite Hc.
  eapply qrm_wf_registry; [exact Hwf|done|done|done| |done|..]; simpl.
  - eapply sessions_owned_less; [apply Hwf|done..].
  - intros h a' H Hb _. left. eauto.
  - intros b (a & Ha & Hx). destruct (decide (hb_session_handle b ∈ handles)) as [|Hn]; [by right|].
    left. exists a. split; [|done]. by apply Hkeep.
  - done.
Qed.

Lemma control_close_sound frame c :
  qrm_streams_wf idle (qc_sessions c) → leads (control_close frame) sound c.
Proof.
  intros Hwf. unfold control_close. destruct (negb _); [apply leads_err|].
  apply leads_registry. intros r b Hc. unfold close in Hc. injection Hc as Hr Hb. subst r b. apply leads_ret.
  eapply (sound_removed _ _ _ c); [done| | | | |done]; try done.
  - apply (run_op_wf _ (OpClose (be_val (hf_payload frame)))), Hwf.
  - intros h a. simpl. by intros [_ ?]%lookup_delete_Some.
  - intros h a Ha Hn. simpl. apply lookup_delete_Some. set_solver.
Qed.

Lemma control_heartbeat_sound env write frame c :
  qrm_streams_wf idle (qc_sessions c) → leads (control_heartbeat env write frame) sound c.
Proof.
  intros Hwf. pose proof (qw_owned _ _ Hwf) as Hso. pose proof (so_registry _ _ _ _ Hso) as Hreg.
  apply leads_st_lift. intros entries _. apply leads_registry. intros r renewed Hr.
  pose proof (run_op_wf _ (OpRenewBatch entries (qe_now env)) Hreg) as Hw.
  destruct (renew_batch_leases (qs_registry (qc_sessions c)) entries (qe_now env) Hreg) as (Hold & Hkeep & Hp).
  simpl in Hw. rewrite Hr in Hw, Hold, Hkeep, Hp. simpl in Hw, Hold, Hkeep, Hp.
  assert (Hsound : ∀ c', qc_sessions c' = qs_set_registry r (qc_sessions c) → sound Listening c').
  { intros c' Hc. apply sound_idle; [by intros ? []|]. rewrite Hc.
    eapply qrm_wf_registry; [exact Hwf|done|done|done| |done|..]; simpl.
    - by eapply sessions_owned_leases.
    - intros h a' (a & Ha & _ & Hb)%Hold Hu _. left. exists a. split; congruence.
    - intros b (a & (a' & Ha' & He & Hb)%Hkeep & Hbd & Hx). left. exists a'. unfold names_exactly in *. rewrite Hb, He. done.
    - done. }
  apply leads_epoch. destruct (negb renewed).
  - apply leads_rejection. intros payload _. by apply Hsound.
  - apply leads_send, leads_ret. by apply Hsound.
Qed.




(** A frame that leaves the sessions alone. *)
Lemma control_update_sound io env write frame c :
  qrm_streams_wf idle (qc_sessions c) → leads (control_update config peer io env write frame) sound c.
Proof.
  intros Hwf. assert (Hsame : ∀ p c', (∀ h, ¬ pending p h) → qc_sessions c' = qc_sessions c → sound p c').
  { intros p c' Hp Hc. apply sound_idle; [done|]. by rewrite Hc. }
  unfold control_update. destruct (negb _); [apply leads_err|].
  case_bool_decide; [apply leads_send, leads_ret, Hsame; [by intros ? []|done]|].
  apply leads_bind. unfold update_authorized. destruct peer as [fp|].
  - unfold wp, st_bind, on_store. destruct (al_reload io (qc_allowlist c)) as [a reloaded].
    destruct reloaded as [[]|e|]; simpl; [|done..].
    destruct (negb _); apply leads_send, leads_ret, Hsame; (by intros ? []) || done.
  - apply leads_send, leads_ret, Hsame; [by intros ? []|done].
Qed.

Lemma process_frame_sound io env write frame c :
  (hf_kind frame = SessionPrepare → qe_token env ∉ qs_tokens (qc_sessions c)) →
  qrm_streams_wf idle (qc_sessions c) → leads (process_frame config peer io env write frame) sound c.
Proof.
  intros Hfresh Hwf. unfold process_frame.
  destruct (hf_kind frame); try (apply leads_err); try (apply leads_ret; left; by eexists).
  - apply control_prepare_sound; auto.
  - by apply control_open_sound.
  - by apply control_close_sound.
  - by apply control_heartbeat_sound.
  - by apply control_update_sound.
Qed.

Lemma receive_frame_sound io clock write frame c :
  qrm_streams_wf idle (qc_sessions c) → leads (receive_frame peer io clock write frame) sound c.
Proof.
  intros Hwf. assert (Hsame : ∀ p c', (∀ h, ¬ pending p h) → qc_sessions c' = qc_sessions c → sound p c').
  { intros p c' Hp Hc. apply sound_idle; [done|]. by rewrite Hc. }
  apply leads_get. destruct (_ && _).
  { apply leads_epoch, leads_rejection. intros payload _. apply Hsame; [by intros ? []|done]. }
  unfold recheck_peer. destruct peer as [fp|]; [|apply Hsame; [by intros ? []|done]].
  apply leads_bind. unfold wp, st_bind, on_store. destruct (al_reload io (qc_allowlist c)) as [a reloaded].
  destruct reloaded as [[]|e|]; simpl; [|done..]. destruct (allows_qrm _ _ _); simpl; [|done].
  apply leads_ret, Hsame; [by intros ? []|done].
Qed.

Lemma expiry_tick_sound io clock c :
  qrm_streams_wf idle (qc_sessions c) → leads (expiry_tick peer io clock) sound c.
Proof.
  intros Hwf. unfold expiry_tick. destruct peer as [fp|].
  - apply leads_store. intros a r _. apply leads_get. destruct r; [| |done]; apply leads_ret;
      (destruct (_ && _); [apply sound_idle; [by intros ? []|done]|left; by eexists]).
  - apply leads_ret, sound_idle; [by intros ? []|done].
Qed.

Lemma sweep_sound now c : qrm_streams_wf idle (qc_sessions c) → leads (sweep now) sound c.
Proof.
  intros Hwf. apply leads_registry. intros r expired Hr. apply leads_ret.
  destruct (reap_expired_spec (qs_registry (qc_sessions c)) now) as (Hp & Hless & Hkeep).
  pose proof (run_op_wf _ (OpReap now) (so_registry _ _ _ _ (qw_owned _ _ Hwf))) as Hw.
  change (registry_wf (reap_expired_handles (qs_registry (qc_sessions c)) now).1) in Hw.
  rewrite Hr in Hw, Hp, Hless, Hkeep. by eapply (sound_removed r expired None c).
Qed.

Lemma cancel_next_sound write handles reply c :
  qrm_streams_wf (pending (Cancelling handles reply)) (qc_sessions c) →
  leads (cancel_next write handles reply) sound c.
Proof.
  intros Hwf. unfold cancel_next. destruct handles as [|h hs].
  - assert (Hi : qrm_streams_wf idle (qc_sessions c)).
    { eapply qrm_wf_registry; [exact Hwf|done|done|done|apply Hwf|done|by eauto|by left|].
      intros h Hh. simpl in Hh. by apply not_elem_of_nil in Hh. }
    destruct reply; [apply leads_send|]; apply leads_ret, sound_idle; [by intros ? []|exact Hi|by intros ? []|exact Hi].
  - apply leads_get. destruct (qs_controls (qc_sessions c) !! h) as [id|] eqn:Hc.
    + apply leads_sessions, leads_ret. right. eapply qrm_wf_cancel; [exact Hwf|].
      intros h'. simpl. rewrite elem_of_cons. tauto.
    + apply leads_ret. right. eapply qrm_wf_absent; [exact Hwf|exact Hc|].
      intros h'. simpl. rewrite elem_of_cons. tauto.
Qed.

(** ** The registry stays that of the connection *)
Definition identity (c : Connection) : Z * Z * Z := registry_identity (qs_registry (qc_sessions c)).
Definition steady {A} (m : stateful Connection RelayError A) : Prop := ∀ c, identity (m c).1 = identity c.

Lemma steady_bind {A B} (m : stateful Connection RelayError A) (f : A → stateful Connection RelayError B) :
  steady m → (∀ a, steady (f a)) → steady (st_bind m f).
Proof.
  intros Hm Hf c. unfold st_bind. specialize (Hm c). destruct (m c) as [c' [a|e|]]; simpl in *; [|done..].
  by rewrite Hf.
Qed.
Lemma steady_ret {A} (a : A) : steady (st_ret a).
Proof. done. Qed.
Lemma steady_err {A} e : steady (st_err (A := A) e).
Proof. done. Qed.
Lemma steady_lift {A} (m : relay_result A) : steady (st_lift m).
Proof. done. Qed.
Lemma steady_or_fail {E' A} reason (m : outcome E' A) : steady (or_fail reason m).
Proof. done. Qed.
Lemma steady_get : steady st_get.
Proof. done. Qed.
Lemma steady_send write frame : steady (send_control_frame write frame).
Proof. intros c. unfold send_control_frame. by destruct (HdqmFrame_encode frame); [destruct write|..]. Qed.
Lemma steady_store {E' A} (m : stateful AS E' A) : steady (on_store m).
Proof. intros c. unfold on_store. by destruct (m _). Qed.
Lemma steady_registry {A} (f : SessionRegistry → SessionRegistry * A) :
  (∀ r, registry_identity (f r).1 = registry_identity r) → steady (on_registry f).
Proof.
  intros Hf c. unfold on_registry. specialize (Hf (qs_registry (qc_sessions c))). by destruct (f _) as [r a].
Qed.
Lemma steady_sessions f : (∀ s, qs_registry (f s) = qs_registry s) → steady (on_sessions f).
Proof. intros Hf c. unfold on_sessions, identity. simpl. by rewrite Hf. Qed.
Lemma steady_epoch : steady connection_epoch.
Proof. by apply steady_registry. Qed.
#[local] Hint Resolve steady_bind steady_ret steady_err steady_lift steady_or_fail steady_get steady_send steady_store
  steady_epoch : steady.

Lemma steady_rejection write frame response reason : steady (send_rejection write frame response reason).
Proof. unfold send_rejection. auto 10 with steady. Qed.
#[local] Hint Resolve steady_rejection : steady.

(** Splits a handler into its calls. *)
Ltac steady_calls :=
  repeat first
    [ apply steady_bind; [|intros ?] | apply steady_sessions; by intros ? | solve [auto with steady]
    | match goal with |- steady (match ?x with _ => _ end) => destruct x end ].

Lemma receive_frame_steady io clock write frame : steady (receive_frame peer io clock write frame).
Proof. unfold receive_frame, recheck_peer. steady_calls. Qed.

Lemma process_frame_steady io env write frame : steady (process_frame config peer io env write frame).
Proof.
  unfold process_frame, control_prepare, control_open, control_close, control_heartbeat, control_update, update_authorized.
  destruct (hf_kind frame); steady_calls.
  - apply steady_registry. intros r. rewrite <-(run_op_identity r (OpReapPrepared (qe_reap_now env))).
    apply (run_op_identity _ (OpPrepare _ _ _ _ _)).
  - apply steady_registry. intros r. apply (run_op_identity r (OpOpenRequest _ _)).
  - apply steady_registry. intros r. apply (run_op_identity r (OpRenewBatch _ _)).
Qed.

Lemma expiry_tick_steady io clock : steady (expiry_tick peer io clock).
Proof. unfold expiry_tick. steady_calls. Qed.
Lemma sweep_steady now : steady (sweep now).
Proof. unfold sweep. by steady_calls. Qed.
Lemma cancel_next_steady write handles reply : steady (cancel_next write handles reply).
Proof. unfold cancel_next. steady_calls. Qed.
Lemma finish_update_steady result write request_id : steady (finish_update result write request_id).
Proof. unfold finish_update. steady_calls. Qed.
Lemma begin_drain_steady write : steady (begin_drain write).
Proof. unfold begin_drain. by steady_calls. Qed.
Lemma join_task_steady : steady join_task.
Proof. unfold join_task. steady_calls. Qed.
#[local] Hint Resolve receive_frame_steady process_frame_steady expiry_tick_steady sweep_steady cancel_next_steady
  finish_update_steady begin_drain_steady join_task_steady : steady.

(** ** Reachable connections *)

(** Unless the loop has ended, when no task is left. *)
Definition connection_wf (c : Connection) : Prop :=
  match qc_point c with
  | Ended _ => qs_tasks (qc_sessions c) = ∅
  | p => qrm_streams_wf (pending p) (qc_sessions c)
  end.

Lemma connection_wf_idle c :
  connection_wf c → (∀ h, ¬ pending (qc_point c) h) → (∀ r, qc_point c ≠ Ended r) → qrm_streams_wf idle (qc_sessions c).
Proof.
  unfold connection_wf. intros Hwf Hp He.
  destruct (qc_point c) as [| | |hs reply|hs reply| |]; try exact Hwf; try by destruct (He result).
  all: eapply qrm_wf_registry; [exact Hwf|done|done|done|apply Hwf|done|by eauto|by left|intros h Hh; by destruct (Hp h)].
Qed.

Lemma end_connection_wf closed result c : connection_wf (end_connection closed result c) ∧ identity (end_connection closed result c) = identity c.
Proof. unfold connection_wf, end_connection, identity. simpl. by destruct (_ || _). Qed.

Lemma run_handler_wf m c :
  leads m sound c → steady m → connection_wf (run_handler m c) ∧ identity (run_handler m c) = identity c.
Proof.
  unfold leads, wp, run_handler. intros Hm Hs. specialize (Hs c). destruct (m c) as [c' [p|e|]]; simpl in Hs.
  - assert (Hset : (∀ r, p ≠ Ended r) → connection_wf (qc_set_point p c') ∧ identity (qc_set_point p c') = identity c).
    { intros Hp. destruct Hm as [[r Hr]|Hm]; [by destruct (Hp r)|]. split; [|exact Hs].
      unfold connection_wf. simpl. destruct p; try exact Hm. by destruct (Hp result). }
    destruct p; try (by apply Hset). rewrite <-Hs. apply end_connection_wf.
  - rewrite <-Hs. apply end_connection_wf.
  - rewrite <-Hs. apply end_connection_wf.
Qed.

Context (limits : BridgeLimits) (limits_ok : session_limits config = Ok limits).

Lemma qrm_step_wf c c' : connection_wf c → step c c' → connection_wf c' ∧ identity c' = identity c.
Proof.
  intros Hwf Hs.
  assert (Hidle : qc_point c = Listening ∨ qc_point c = Sweeping ∨ (∃ f, qc_point c = Allowed f) ∨ (∃ i, qc_point c = Updating i) →
    qrm_streams_wf idle (qc_sessions c)).
  { intros Hp. apply connection_wf_idle; [done|..]; destruct Hp as [->|[->|[[? ->]|[? ->]]]]; first [by intros ? [] | by intros ?]. }
  destruct Hs as [io k w f Hp|io env w f Hp Hf|w hs reply Hp|hs reply Hp|res w i Hp|w Hp _|Hp _|io k Hp|now Hp|Hp _
    |Hp|e Hp|Hp _|Hp _|id s Hs|a]; try apply end_connection_wf.
  - apply run_handler_wf; [apply receive_frame_sound; auto|auto with steady].
  - apply run_handler_wf; [apply process_frame_sound; eauto 6|auto with steady].
  - apply run_handler_wf; [|auto with steady].
    apply cancel_next_sound. unfold connection_wf in Hwf. by rewrite Hp in Hwf.
  - unfold connection_wf in *. rewrite Hp in Hwf. done.
  - pose proof (Hidle ltac:(eauto 6)) as Hi. apply run_handler_wf; [|auto with steady].
    apply leads_st_lift. intros r _. destruct (is_ok r); apply leads_send, leads_ret; [left; by eexists|].
    by apply sound_idle; [intros ? []|].
  - pose proof (Hidle ltac:(eauto)) as Hi. apply run_handler_wf; [|auto with steady].
    apply leads_send, leads_bind. unfold wp, st_modify. apply leads_ret. by apply sound_idle; [intros ? []|].
  - apply run_handler_wf; [apply expiry_tick_sound; auto|auto with steady].
  - apply run_handler_wf; [apply sweep_sound; auto|auto with steady].
  - pose proof (Hidle ltac:(eauto)) as Hi. apply run_handler_wf; [|auto with steady].
    apply leads_sessions, leads_get, leads_ret. destruct (_ && _ && _); [left; by eexists|].
    apply sound_idle; [by intros ? []|]. by destruct Hi.
  - split; [|done]. unfold connection_wf. simpl. rewrite Hp. apply qrm_wf_spawn. auto.
  - split; [|by apply stream_step_identity in Hs]. unfold connection_wf in *. simpl.
    destruct (qc_point c); try by eapply stream_step_wf.
    exfalso. destruct Hs; rewrite Hwf, lookup_empty in *; done.
  - by split.
Qed.

Lemma qrm_reachable_wf c c' : connection_wf c → rtc step c c' → connection_wf c' ∧ identity c' = identity c.
Proof.
  intros Hwf Hrun. revert Hwf. induction Hrun as [x|x y z Hxy _ IH]; intros Hwf; [done|].
  destruct (qrm_step_wf _ _ Hwf Hxy) as [Hy <-]. by apply IH.
Qed.
End Facts.
