(* ===== verification/QrmSafety.v ===== *)
(** * What a QRM connection promises (src/src/quic_server.rs)

    The promises of the control loop and the session streams in every interleaving: sessions
    and tasks fit together, a session that is closed or runs out stops its task, a peer that
    the allowlist no longer admits is cut off, and a drain admits nothing. *)
From S2P Require Export QrmConnection.
From S2P Require Import IrohRelay ServerWorld.

(** * Facts *)
Section Facts.
Context {AS AIo : Type} `{!AllowlistStore AS AIo}.
Context (config : RelayConfig) (socket_override : option path) (xdg home : option (list byte)).
Context (peer : option (list byte)).

Abbreviation Connection := (QrmConnection AS).
Abbreviation step := (qrm_step (AIo := AIo) config socket_override xdg home peer).

(** ** A peer that may not stay *)
Lemma end_connection_ended closed result (c : Connection) :
  let c' := end_connection closed result c in
  qc_point c' = Ended result ∧ qs_tasks (qc_sessions c') = ∅ ∧ qc_sent c' = qc_sent c
  ∧ qs_closed (qc_sessions c') = closed || negb (is_ok result) || qs_closed (qc_sessions c)
  ∧ qc_allowlist c' = qc_allowlist c.
Proof.
  unfold end_connection. simpl. by destruct (closed || negb (is_ok result)).
Qed.

(** ** Draining *)

(** A handler that adds nothing and does not leave the drain. *)
Definition quiet {A} (m : stateful Connection RelayError A) : Prop := ∀ c,
  shrinks (qc_sessions c) (qc_sessions (m c).1) ∧ (qc_draining c = true → qc_draining (m c).1 = true).

Lemma quiet_bind {A B} (m : stateful Connection RelayError A) (f : A → stateful Connection RelayError B) :
  quiet m → (∀ a, quiet (f a)) → quiet (st_bind m f).
Proof.
  intros Hm Hf c. unfold st_bind. specialize (Hm c). destruct (m c) as [c' [a|e|]]; simpl in *; [|done..].
  destruct Hm as [Hs Hd], (Hf a c') as [Hs' Hd']. split; [by etrans|auto].
Qed.
Lemma quiet_pure {A} (r : relay_result A) : quiet (λ c, (c, r)).
Proof. intros c. by split. Qed.
Lemma quiet_ret {A} (a : A) : quiet (st_ret a).
Proof. apply quiet_pure. Qed.
Lemma quiet_err {A} e : quiet (st_err (A := A) e).
Proof. apply quiet_pure. Qed.
Lemma quiet_lift {A} (m : relay_result A) : quiet (st_lift m).
Proof. apply quiet_pure. Qed.
Lemma quiet_or_fail {E' A} reason (m : outcome E' A) : quiet (or_fail reason m).
Proof. apply quiet_pure. Qed.
Lemma quiet_get : quiet st_get.
Proof. intros c. by split. Qed.
Lemma quiet_drain : quiet (st_modify qc_drain).
Proof. intros c. by split. Qed.
Lemma quiet_send write frame : quiet (send_control_frame write frame).
Proof. intros c. unfold send_control_frame. destruct (HdqmFrame_encode frame); [destruct write|..]; by split. Qed.
Lemma quiet_store {E' A} (m : stateful AS E' A) : quiet (on_store m).
Proof. intros c. unfold on_store. destruct (m _). by split. Qed.
Lemma quiet_registry {A} (f : SessionRegistry → SessionRegistry * A) :
  (∀ s, shrinks s (qs_set_registry (f (qs_registry s)).1 s)) → quiet (on_registry f).
Proof.
  intros Hf c. unfold on_registry. specialize (Hf (qc_sessions c)). destruct (f _) as [r a]. by split.
Qed.
Lemma quiet_sessions f : (∀ s, shrinks s (f s)) → quiet (on_sessions f).
Proof. intros Hf c. by split. Qed.
Lemma quiet_epoch : quiet connection_epoch.
Proof. apply quiet_registry. intros s. by apply shrinks_same. Qed.
#[local] Hint Resolve quiet_bind quiet_ret quiet_err quiet_lift quiet_or_fail quiet_get quiet_drain quiet_send quiet_store
  quiet_epoch : quiet.
Lemma quiet_rejection write frame response reason : quiet (send_rejection write frame response reason).
Proof. unfold send_rejection. auto 10 with quiet. Qed.
#[local] Hint Resolve quiet_rejection : quiet.

Ltac quiet_calls :=
  repeat first
    [ apply quiet_bind; [|intros ?] | solve [auto with quiet]
    | match goal with |- quiet (match ?x with _ => _ end) => destruct x end ].

Lemma receive_frame_quiet io clock write frame : quiet (receive_frame peer io clock write frame).
Proof. unfold receive_frame, recheck_peer. quiet_calls. Qed.

Lemma process_frame_quiet io env write frame :
  starts_session (hf_kind frame) = false → quiet (process_frame config peer io env write frame).
Proof.
  unfold process_frame, control_close, control_heartbeat, control_update, update_authorized.
  destruct (hf_kind frame); intros Hk; try done; quiet_calls.
  - apply quiet_registry. intros s. apply shrinks_close.
  - apply quiet_registry. intros s. unfold renew_batch.
    destruct (existsb _ _); [by apply shrinks_same|]. simpl.
    assert (Hf : ∀ es r, sr_prepared (foldl (λ r e, (renew r e.1 e.2 (qe_now env)).1) r es) = sr_prepared r
      ∧ ∀ h a', sr_active (foldl (λ r e, (renew r e.1 e.2 (qe_now env)).1) r es) !! h = Some a' →
        ∃ a, sr_active r !! h = Some a ∧ as_prepared a = as_prepared a').
    { induction es as [|e es IH]; intros r; simpl; [eauto|]. destruct (IH (renew r e.1 e.2 (qe_now env)).1) as [-> Ha].
      split; [apply renew_prepared|]. intros h a' (a0 & H & <-)%Ha. revert H. unfold renew.
      destruct (sr_active r !! e.1) as [a1|] eqn:H1; [|eauto]. destruct (_ || _); simpl; [eauto|].
      intros [[<- <-]|[_ H]]%lookup_insert_Some; eauto. }
    destruct (Hf a (qs_registry s)) as [Hp Ha]. apply shrinks_registry; [by rewrite Hp|done].
Qed.

Lemma sweep_quiet now : quiet (sweep now).
Proof.
  unfold sweep. quiet_calls. apply quiet_registry. intros s. destruct (reap_expired_spec (qs_registry s) now) as (Hp & Ha & _).
  apply shrinks_registry; [done|]. intros h a ?%Ha. by exists a.
Qed.
Lemma expiry_tick_quiet io clock : quiet (expiry_tick peer io clock).
Proof. unfold expiry_tick. quiet_calls. Qed.
Lemma cancel_next_quiet write handles reply : quiet (cancel_next write handles reply).
Proof. unfold cancel_next. quiet_calls. apply quiet_sessions. intros s. by apply shrinks_same. Qed.
Lemma finish_update_quiet result write request_id : quiet (finish_update result write request_id).
Proof. unfold finish_update. quiet_calls. Qed.
Lemma begin_drain_quiet write : quiet (begin_drain write).
Proof. unfold begin_drain. quiet_calls. Qed.
Lemma join_task_quiet : quiet join_task.
Proof. unfold join_task. quiet_calls. apply quiet_sessions. intros s. by apply shrinks_same. Qed.
#[local] Hint Resolve receive_frame_quiet process_frame_quiet sweep_quiet expiry_tick_quiet cancel_next_quiet
  finish_update_quiet begin_drain_quiet join_task_quiet : quiet.

(** A drain that is under way: no frame that starts a session is on its way to the registry. *)
Definition fenced (c : Connection) : Prop :=
  qc_draining c = true ∧ ∀ frame, qc_point c = Allowed frame → starts_session (hf_kind frame) = false.

Definition no_frame (p : LoopPoint) (c : Connection) : Prop := ∀ frame, p ≠ Allowed frame.

Lemma run_handler_fenced m c :
  quiet m → qc_draining c = true →
  leads m (λ p c', ∀ frame, p = Allowed frame → starts_session (hf_kind frame) = false) c →
  fenced (run_handler m c) ∧ shrinks (qc_sessions c) (qc_sessions (run_handler m c)).
Proof.
  intros Hq Hd Hm. destruct (Hq c) as [Hs Hk]. specialize (Hk Hd). unfold leads, wp, run_handler in *.
  assert (Hend : ∀ c' closed result, qc_draining c' = true → shrinks (qc_sessions c) (qc_sessions c') →
    fenced (end_connection closed result c') ∧ shrinks (qc_sessions c) (qc_sessions (end_connection closed result c'))).
  { intros c' closed result Hd' [] . split; [by split|]. unfold end_connection. simpl.
    destruct (_ || _); split; try done; intros id [t Ht]; simpl in Ht; by rewrite lookup_empty in Ht. }
  destruct (m c) as [c' [p|e|]]; simpl in *; [|by apply Hend..].
  destruct p; try (by apply Hend); (split; [|done]); by split.
Qed.

(** Where the handlers other than [receive_frame] lead: never to a frame. *)
Lemma leads_weaken (m : stateful Connection RelayError LoopPoint) Q Q' c :
  leads m Q c → (∀ p c', Q p c' → Q' p c') → leads m Q' c.
Proof. unfold leads. intros H HQ. eapply wp_conseq; [exact H|]. intros [p|e|] c'; auto. Qed.

Lemma no_frame_fences m c :
  leads m no_frame c → leads m (λ p c', ∀ frame, p = Allowed frame → starts_session (hf_kind frame) = false) c.
Proof. intros H. eapply leads_weaken; [exact H|]. intros p c' Hp frame Heq. by destruct (Hp frame). Qed.

(** One call of a handler after the other, up to where it leads. *)
Ltac no_frame_step :=
  repeat (cbn beta zeta; match goal with
  | |- leads (st_err _) _ _ => apply leads_err
  | |- leads (st_ret (if ?x then _ else _)) _ _ => apply leads_ret; by intros ?; destruct x
  | |- leads (st_ret _) _ _ => apply leads_ret; by intros ?
  | |- leads (send_rejection _ _ _ _) _ _ => apply leads_rejection; by intros ? ? ?
  | |- leads (st_bind (send_control_frame _ _) _) _ _ => apply leads_send
  | |- leads (st_bind connection_epoch _) _ _ => apply leads_epoch
  | |- leads (st_bind st_get _) _ _ => apply leads_get
  | |- leads (st_bind (on_sessions _) _) _ _ => apply leads_sessions
  | |- leads (st_bind (st_modify _) _) _ _ => apply leads_modify
  | |- leads (st_bind (or_fail _ _) _) _ _ => apply leads_lift; intros ? ?
  | |- leads (st_bind (st_lift _) _) _ _ => apply leads_st_lift; intros ? ?
  | |- leads (st_bind (on_registry _) _) _ _ => apply leads_registry; intros ? ? ?
  | |- leads (st_bind (on_store _) _) _ _ => apply leads_store; intros ? ? ?
  | |- leads (match ?x with _ => _ end) _ _ => destruct x
  end).

Lemma update_authorized_cases io clock c :
  (∃ a b, update_authorized peer io clock c = (qc_set_allowlist a c, Ok b))
  ∨ ∃ a e, update_authorized peer io clock c = (qc_set_allowlist a c, e) ∧ ¬ is_ok e.
Proof.
  unfold update_authorized, st_bind, on_store, st_lift, st_get, st_ret. destruct peer as [fp|]; simpl.
  - destruct (al_reload io (qc_allowlist c)) as [a [[]|e|]]; simpl; [left; eauto|right..]; eexists _, _; (split; [done|]); intros [].
  - left. exists (qc_allowlist c), false. by destruct c.
Qed.

Lemma process_frame_leads io env write frame c :
  leads (process_frame config peer io env write frame) no_frame c.
Proof.
  unfold process_frame, control_prepare, control_open, control_close, control_heartbeat, control_update.
  destruct (hf_kind frame); no_frame_step.
  apply leads_bind. destruct (update_authorized_cases io (qe_clock env) c) as [(a & b & Hu)|(a & e & Hu & He)]; unfold wp; rewrite Hu; [|by destruct e].
  no_frame_step.
Qed.

Lemma other_events_lead :
  (∀ io clock c, leads (expiry_tick peer io clock) no_frame c) ∧ (∀ now c, leads (sweep now) no_frame c)
  ∧ (∀ write handles reply c, leads (cancel_next write handles reply) no_frame c)
  ∧ (∀ result write request_id c, leads (finish_update result write request_id) no_frame c)
  ∧ (∀ write c, leads (begin_drain write) no_frame c) ∧ (∀ c, leads join_task no_frame c).
Proof.
  unfold expiry_tick, sweep, cancel_next, finish_update, begin_drain, join_task.
  split_and!; intros; no_frame_step; try done.
Qed.

Lemma receive_frame_fences io clock write frame c :
  qc_draining c = true →
  leads (receive_frame peer io clock write frame) (λ p c', ∀ f, p = Allowed f → starts_session (hf_kind f) = false) c.
Proof.
  intros Hd. apply leads_get. rewrite Hd. simpl. destruct (starts_session (hf_kind frame)) eqn:Hk.
  - apply leads_epoch, leads_rejection. intros payload _ f. done.
  - apply leads_bind. unfold wp. destruct (recheck_peer peer io clock c) as [c' [[]|e|]]; try done.
    apply leads_ret. by intros f [= <-].
Qed.

Lemma qrm_step_fenced c c' :
  fenced c → step c c' → fenced c' ∧ shrinks (qc_sessions c) (qc_sessions c').
Proof.
  intros [Hd Hf] Hs. pose proof other_events_lead as (L1 & L2 & L3 & L4 & L5 & L6).
  assert (Hend : ∀ closed result, fenced (end_connection closed result c)
    ∧ shrinks (qc_sessions c) (qc_sessions (end_connection closed result c))).
  { intros closed result. split; [by split|]. unfold end_connection. simpl.
    destruct (_ || _); split; eauto; intros id [t Ht]; simpl in Ht; by rewrite lookup_empty in Ht. }
  destruct Hs as [io k w f Hp|io env w f Hp _|w hs reply Hp|hs reply Hp|res w i Hp|w Hp Hn|Hp _|io k Hp|now Hp|Hp _
    |Hp|e Hp|Hp Hn|Hp Hn|id s Hs|a]; try apply Hend; try congruence.
  - apply run_handler_fenced; [auto with quiet|done|by apply receive_frame_fences].
  - apply run_handler_fenced; [auto with quiet|done|apply no_frame_fences, process_frame_leads].
  - apply run_handler_fenced; [auto with quiet|done|apply no_frame_fences, L3].
  - split; [by split|done].
  - apply run_handler_fenced; [auto with quiet|done|apply no_frame_fences, L4].
  - apply run_handler_fenced; [auto with quiet|done|apply no_frame_fences, L1].
  - apply run_handler_fenced; [auto with quiet|done|apply no_frame_fences, L2].
  - apply run_handler_fenced; [auto with quiet|done|apply no_frame_fences, L6].
  - split; [by split|]. by apply stream_step_shrinks in Hs.
  - by split.
Qed.

Lemma qrm_run_fenced c c' : fenced c → rtc step c c' → fenced c' ∧ shrinks (qc_sessions c) (qc_sessions c').
Proof.
  intros Hf Hrun. revert Hf. induction Hrun as [x|x y z Hxy _ IH]; intros Hf; [done|].
  destruct (qrm_step_fenced _ _ Hf Hxy) as [Hy Hs], (IH Hy) as [Hz Hs']. split; [done|by etrans].
Qed.
End Facts.

(** ** The limits of a validated configuration *)
Lemma session_limits_validated config :
  ResourceLimits_validate (cf_limits config) = Ok tt → ∃ limits, session_limits config = Ok limits.
Proof.
  unfold ResourceLimits_validate, session_limits, BridgeLimits_new. set (l := cf_limits config).
  intros H.
  do 2 match type of H with (if ?b then _ else _) = _ => destruct b; [done|] end.
  match type of H with (if ?b then _ else _) = _ => destruct b eqn:H3; [done|] end.
  match type of H with (if ?b then _ else _) = _ => destruct b eqn:H4; [done|] end.
  apply orb_false_iff in H3 as [[_ Hb0]%orb_false_iff Hb1]. apply orb_false_iff in H4 as [[_ Hi0]%orb_false_iff Hi1].
  rewrite Hb0, Hb1. simpl. apply Z.eqb_neq in Hi0. apply Z.ltb_ge in Hi1.
  rewrite (proj2 (orb_false_iff _ _)); [by eexists|].
  unfold nanos_per_sec. split; [apply Z.eqb_neq|apply Z.ltb_ge]; lia.
Qed.

Lemma connection_start_wf {AS} config relay_generation connection_epoch registry (allowlist : AS) sent :
  0 ≤ rl_max_sessions_per_connection (cf_limits config) →
  QuicRelayServer_new_connection config relay_generation connection_epoch = Ok registry →
  connection_wf (connection_start allowlist registry sent)
  ∧ registry_identity registry = (relay_generation, connection_epoch, rl_max_sessions_per_connection (cf_limits config)).
Proof.
  unfold QuicRelayServer_new_connection. intros Hm Hr.
  assert (Hid : registry_identity registry = (relay_generation, connection_epoch, rl_max_sessions_per_connection (cf_limits config))).
  { revert Hr. unfold SessionRegistry_new. destruct (_ || _); [done|]. by intros [= <-]. }
  apply sessions_owned_new in Hr as (Hso & _ & Hp & Ha); [|done]. split; [|done].
  unfold connection_wf, connection_start. simpl. split; simpl.
  - unfold owners, owners_of. simpl. by rewrite omap_empty.
  - intros id t. by rewrite lookup_empty.
  - intros id t. by rewrite lookup_empty.
  - intros id1 id2 b1 b2. unfold owners, owners_of. simpl. by rewrite omap_empty, lookup_empty.
  - intros h a id b. by rewrite Ha, lookup_empty.
  - intros id t b. by rewrite lookup_empty.
Qed.

(** ** A session that is closed while its stream connects *)
Section Demo.
#[local] Existing Instance memory_allowlist.

Definition qrm_demo_home : option (list byte) := Some (str_lit "/home/dog").
Definition qrm_demo_peer : option (list byte) := Some (str_lit "fp").
Definition qrm_demo_certificate : CertificateMetadata :=
  {| cm_app_id := str_lit "app"; cm_fingerprint := str_lit "fp"; cm_serial := 1; cm_allowlist_generation := 1;
     cm_not_before_epoch_seconds := 1; cm_not_after_epoch_seconds := 100 |}.
Definition qrm_demo_allowlist : AllowlistRegistry :=
  foldl run_allowlist AllowlistRegistry_new [EnrollPending qrm_demo_certificate; Activate (str_lit "app") (str_lit "fp")].
Definition qrm_demo_registry : SessionRegistry :=
  match QuicRelayServer_new_connection example_relay_config 1 2 with Ok r => r | _ => demo_registry end.

Definition qrm_demo_frame (kind : HdqmKind) (payload : list byte) : HdqmFrame :=
  control_frame kind (replicate 16 x07) payload.
Definition qrm_demo_payload {E} (m : outcome E (list byte)) : list byte := match m with Ok bs => bs | _ => [] end.
Definition qrm_demo_prepare : HdqmFrame :=
  qrm_demo_frame SessionPrepare (qrm_demo_payload (SessionPrepareRequest_encode
    {| spr_session := str_lit "work"; spr_expected_fingerprint := zeros 32; spr_configuration_generation := 4 |})).
Definition qrm_demo_open : HdqmFrame :=
  qrm_demo_frame SessionOpen (qrm_demo_payload (SessionOpenRequest_encode
    {| sor_session := str_lit "work"; sor_fingerprint := replicate 32 x03; sor_configuration_generation := 4;
       sor_relay_generation := 1; sor_connection_epoch := 2; sor_token := replicate 32 x05 |})).
Definition qrm_demo_close : HdqmFrame := qrm_demo_frame SessionClose [x00; x01].
Definition qrm_demo_env (now : Z) : QrmEnv :=
  {| qe_fingerprint := replicate 32 x03; qe_token := replicate 32 x05; qe_reap_now := now; qe_now := now;
     qe_clock := Some 50 |}.

Abbreviation demo_step := (qrm_step (AIo := unit) example_relay_config None None qrm_demo_home qrm_demo_peer).

(** One control frame: the allowlist, then the registry. *)
Definition qrm_demo_control (frame : HdqmFrame) (now : Z) (c : QrmConnection AllowlistRegistry) : QrmConnection AllowlistRegistry :=
  run_handler (process_frame (AIo := unit) example_relay_config qrm_demo_peer tt (qrm_demo_env now) Written frame)
    (run_handler (receive_frame (AIo := unit) qrm_demo_peer tt (Some 50) Written frame) c).

Lemma qrm_demo_control_steps frame now c :
  qc_point c = Listening →
  qc_point (run_handler (receive_frame (AIo := unit) qrm_demo_peer tt (Some 50) Written frame) c) = Allowed frame →
  (hf_kind frame = SessionPrepare → qe_token (qrm_demo_env now)
     ∉ qs_tokens (qc_sessions (run_handler (receive_frame (AIo := unit) qrm_demo_peer tt (Some 50) Written frame) c))) →
  rtc demo_step c (qrm_demo_control frame now c).
Proof.
  intros Hp Ha Hf. eapply rtc_l; [by apply (loop_frame _ _ _ _ _ _ tt (Some 50) Written frame)|].
  by apply rtc_once, loop_process.
Qed.

Definition qrm_demo_task (f : QrmSessions → QrmSessions) (c : QrmConnection AllowlistRegistry) : QrmConnection AllowlistRegistry :=
  qc_set_sessions (f (qc_sessions c)) c.
Definition qrm_demo_accepted : HdqsResponse := HdqsResponse_accepted 1 2.

Definition qrm_demo_start : QrmConnection AllowlistRegistry := connection_start qrm_demo_allowlist qrm_demo_registry [].
Definition qrm_demo_opened := qrm_demo_control qrm_demo_open 1 (qrm_demo_control qrm_demo_prepare 0 qrm_demo_start).
Definition qrm_demo_bound := qrm_demo_task (stream_accept 0 demo_binding 2) (accept_session_stream qrm_demo_opened).
Definition qrm_demo_registered := qrm_demo_task (stream_register 0 demo_binding qrm_demo_accepted) qrm_demo_bound.
Definition qrm_demo_connecting :=
  qrm_demo_task (stream_check None None qrm_demo_home 0 demo_binding qrm_demo_accepted 3 (Some 501)) qrm_demo_registered.
Definition qrm_demo_closed := qrm_demo_control qrm_demo_close 4 qrm_demo_connecting.
Definition qrm_demo_told := run_handler (cancel_next Written [1] (Some (qrm_demo_frame SessionClosed []))) qrm_demo_closed.

Lemma qrm_demo_opened_steps : rtc demo_step qrm_demo_start qrm_demo_opened.
Proof.
  etrans; apply qrm_demo_control_steps.
  1, 2, 4, 5: vm_compute; reflexivity.
  - intros _. vm_compute. by intros []%not_elem_of_nil.
  - discriminate.
Qed.

Lemma qrm_demo_connecting_steps : rtc demo_step qrm_demo_opened qrm_demo_connecting.
Proof.
  eapply rtc_l; [apply loop_stream; vm_compute; reflexivity|].
  eapply rtc_l; [apply (loop_task _ _ _ _ _ _ 0%nat), (task_accept _ _ _ _ _ _ demo_binding 2)|].
  { vm_compute. reflexivity. }
  { by split_and!. }
  eapply rtc_l; [apply (loop_task _ _ _ _ _ _ 0%nat), (task_register _ _ _ _ _ _ demo_binding qrm_demo_accepted)|].
  { vm_compute. reflexivity. }
  apply rtc_once, (loop_task _ _ _ _ _ _ 0%nat), (task_check _ _ _ _ _ _ demo_binding qrm_demo_accepted 3 (Some 501)).
  vm_compute. reflexivity.
Qed.

Lemma qrm_demo_told_steps : rtc demo_step qrm_demo_connecting qrm_demo_told.
Proof.
  etrans.
  - apply (qrm_demo_control_steps qrm_demo_close 4); [vm_compute; reflexivity..|discriminate].
  - apply rtc_once, loop_cancel. vm_compute. reflexivity.
Qed.
End Demo.

(** ** Looking at the allowlist again *)
Lemma tick_refused {AS AIo} `{!AllowlistStore AS AIo, !LawfulAllowlistStore AS AIo} (io : AIo) clock fingerprint v (c : QrmConnection AS) :
  al_sound io → al_holds (qc_allowlist c) v → allows_qrm v fingerprint clock = false →
  ∃ a, run_handler (expiry_tick (Some fingerprint) io clock) c = end_connection true (Ok tt) (qc_set_allowlist a c).
Proof.
  intros Hio Hv Hno. pose proof (al_reload_steps io _ _ Hio Hv) as Hr. unfold wp in Hr.
  unfold run_handler, expiry_tick, st_bind, on_store, st_get, st_ret.
  destruct (al_reload io (qc_allowlist c)) as [a r]. destruct Hr as (_ & Hm & Hp). exists a.
  destruct r as [[]|e|]; [|done|done]. simpl. by rewrite (Hm eq_refl), Hno.
Qed.

Lemma frame_refused {AS AIo} `{!AllowlistStore AS AIo, !LawfulAllowlistStore AS AIo} (io : AIo) clock write frame fingerprint v
    (c : QrmConnection AS) :
  al_sound io → al_holds (qc_allowlist c) v → allows_qrm v fingerprint clock = false →
  qc_draining c && starts_session (hf_kind frame) = false →
  ∃ a e, run_handler (receive_frame (Some fingerprint) io clock write frame) c
         = end_connection true (Err e) (qc_set_allowlist a c).
Proof.
  intros Hio Hv Hno Hd. pose proof (al_reload_steps io _ _ Hio Hv) as Hr. unfold wp in Hr.
  unfold run_handler, receive_frame, recheck_peer, st_bind, on_store, st_get, st_ret, st_lift. rewrite Hd.
  destruct (al_reload io (qc_allowlist c)) as [a r]. destruct Hr as (_ & Hm & Hp). exists a.
  destruct r as [[]|e|]; [|by exists e|done]. simpl. rewrite (Hm eq_refl), Hno. by eexists.
Qed.

Lemma update_refused {AS AIo} `{!AllowlistStore AS AIo, !LawfulAllowlistStore AS AIo} config (io : AIo) env write frame fingerprint v
    (c : QrmConnection AS) :
  al_sound io → al_holds (qc_allowlist c) v → is_ok (authorize_update v fingerprint (qe_clock env)) = false →
  leads (control_update config (Some fingerprint) io env write frame) (λ p _, p = Listening) c.
Proof.
  intros Hio Hv Hno. pose proof (al_reload_steps io _ _ Hio Hv) as Hr. unfold wp in Hr.
  unfold control_update. destruct (negb _); [done|]. cbv zeta. case_bool_decide; [by apply leads_send|].
  apply leads_bind. unfold wp, update_authorized, st_bind, on_store, st_get, st_ret, st_lift.
  destruct (al_reload io (qc_allowlist c)) as [a r]. destruct Hr as (_ & Hm & Hp).
  destruct r as [[]|e|]; [|done|done]. simpl. rewrite (Hm eq_refl), Hno. simpl. by apply leads_send.
Qed.

Lemma sessions_facts pend s max :
  qrm_streams_wf pend s → sr_max_sessions (qs_registry s) = max →
  map_len (sr_active (qs_registry s)) + map_len (sr_prepared (qs_registry s)) ≤ max ≤ MAX_SESSION_STREAMS
  ∧ (∀ id1 id2 t1 t2 b1 b2, qs_tasks s !! id1 = Some t1 → qs_tasks s !! id2 = Some t2 →
       task_binding t1 = Some b1 → task_binding t2 = Some b2 → hb_token b1 = hb_token b2 → id1 = id2)
  ∧ (∀ h a, sr_active (qs_registry s) !! h = Some a → as_bound a = true →
       ∃ id t b, qs_tasks s !! id = Some t ∧ task_binding t = Some b ∧ hb_session_handle b = h ∧ names_exactly b a).
Proof.
  intros Hwf <-. pose proof (qw_owned _ _ Hwf) as Hso. pose proof (so_registry _ _ _ _ Hso) as Hreg.
  pose proof (wf_capacity _ Hreg). pose proof (wf_max _ Hreg). split; [lia|]. split.
  - intros id1 id2 t1 t2 b1 b2 H1 H2 S1 S2. apply (so_once _ _ _ _ Hso); by eapply owners_Some.
  - intros h a Ha Hb. destruct (so_served _ _ _ _ Hso h a Ha Hb) as (b & Hh & Hx & [Hl|(id & (t & Hid & Ht)%owners_of_Some)]).
    + by apply not_elem_of_nil in Hl.
    + by exists id, t, b.
Qed.

(** * Properties *)

(** C32. Whatever the order in which control frames, timers, drains, streams and their tasks
    take their turns, and whatever the allowlist, the sockets and the peer do, until the
    connection ends: no more sessions are prepared and open than the configured maximum, at
    most 64; no session token is served by two tasks; and every session that is bound to a
    stream is served by a task that names it exactly, so that no session is left behind.
    When the connection has ended, no task is left.  The generation and the epoch never
    change. *)
Theorem qrm_sessions_invariant {AS AIo} `{!AllowlistStore AS AIo} config socket_override xdg home peer
    relay_generation connection_epoch registry (allowlist : AS) sent (c : QrmConnection AS) :
  ResourceLimits_validate (cf_limits config) = Ok tt → 0 ≤ rl_max_sessions_per_connection (cf_limits config) →
  QuicRelayServer_new_connection config relay_generation connection_epoch = Ok registry →
  rtc (qrm_step (AIo := AIo) config socket_override xdg home peer) (connection_start allowlist registry sent) c →
  let s := qc_sessions c in let r := qs_registry s in
  registry_identity r = (relay_generation, connection_epoch, rl_max_sessions_per_connection (cf_limits config))
  ∧ match qc_point c with
    | Ended _ => qs_tasks s = ∅
    | _ =>
        map_len (sr_active r) + map_len (sr_prepared r) ≤ rl_max_sessions_per_connection (cf_limits config) ≤ MAX_SESSION_STREAMS
        ∧ (∀ id1 id2 t1 t2 b1 b2, qs_tasks s !! id1 = Some t1 → qs_tasks s !! id2 = Some t2 →
             task_binding t1 = Some b1 → task_binding t2 = Some b2 → hb_token b1 = hb_token b2 → id1 = id2)
        ∧ (∀ h a, sr_active r !! h = Some a → as_bound a = true →
             ∃ id t b, qs_tasks s !! id = Some t ∧ task_binding t = Some b ∧ hb_session_handle b = h ∧ names_exactly b a)
    end.
Proof.
  intros Hl Hm Hr Hrun s r. destruct (session_limits_validated _ Hl) as [limits Hlim].
  destruct (connection_start_wf _ _ _ _ allowlist sent Hm Hr) as [Hwf Hid].
  destruct (qrm_reachable_wf _ _ _ _ _ _ Hlim _ _ Hwf Hrun) as [Hc Hi].
  unfold identity in Hi. simpl in Hi. rewrite Hid in Hi. split; [exact Hi|].
  assert (Hmax : sr_max_sessions r = rl_max_sessions_per_connection (cf_limits config)) by (unfold registry_identity in Hi; by injection Hi).
  unfold connection_wf in Hc. destruct (qc_point c); try exact Hc; by eapply sessions_facts.
Qed.

Lemma qrm_sessions_invariant_witness :
  rtc (qrm_step (AS := AllowlistRegistry) (AIo := unit) (AllowlistStore0 := memory_allowlist) example_relay_config None None
         qrm_demo_home qrm_demo_peer) qrm_demo_start qrm_demo_connecting
  ∧ ∃ id t b, qs_tasks (qc_sessions qrm_demo_connecting) !! id = Some t ∧ task_binding t = Some b
      ∧ hb_session_handle b = 1 ∧ hb_token b = replicate 32 x05.
Proof.
  assert (Hrun : rtc (qrm_step (AS := AllowlistRegistry) (AIo := unit) (AllowlistStore0 := memory_allowlist)
      example_relay_config None None qrm_demo_home qrm_demo_peer) qrm_demo_start qrm_demo_connecting)
    by (etrans; [exact qrm_demo_opened_steps|exact qrm_demo_connecting_steps]).
  split; [exact Hrun|].
  destruct (qrm_sessions_invariant (AllowlistStore0 := memory_allowlist) example_relay_config None None qrm_demo_home qrm_demo_peer
    1 2 qrm_demo_registry qrm_demo_allowlist [] qrm_demo_connecting ltac:(vm_compute; reflexivity) ltac:(discriminate)
    ltac:(vm_compute; reflexivity) Hrun) as [_ H].
  assert (Hp : qc_point qrm_demo_connecting = Listening) by (vm_compute; reflexivity). rewrite Hp in H.
  destruct H as (_ & _ & Hserved).
  assert (Ha : ∃ a, sr_active (qs_registry (qc_sessions qrm_demo_connecting)) !! 1 = Some a ∧ as_bound a = true
    ∧ ps_token (as_prepared a) = replicate 32 x05) by (eexists; split; [vm_compute; reflexivity|split; reflexivity]).
  destruct Ha as (a & Ha & Hb & Ht). destruct (Hserved 1 a Ha Hb) as (id & t & b & Hid & Htb & Hh & Hx).
  exists id, t, b. split; [exact Hid|]. split; [exact Htb|]. split; [exact Hh|]. destruct Hx as [_ Hx]. rewrite <-Hx. exact Ht.
Defined.

(** C33. A session that is closed, or whose lease ran out, does not go on.  In every reachable
    connection, a task that was allowed to reach for its socket still has its session in
    the registry, or it was told to stop, or the loop is about to tell it.  The one exception:
    its handle was given out again while it ran ([qs_reused]), which takes 65535 openings.
    A task that was told can end by three turns of its own from every point at which it waits
    for its receiver, and by at most four from every other, leaving neither a control nor a
    session behind.  And a task whose session is gone cannot go on: a bridge ends at its next
    lease tick, and any other task takes at most five turns of its own, whatever they are,
    has ended after the fifth, and starts no bridge. *)
Theorem qrm_closed_sessions_stop {AS AIo} `{!AllowlistStore AS AIo} config socket_override xdg home peer
    relay_generation connection_epoch registry (allowlist : AS) sent (c : QrmConnection AS) id t b :
  ResourceLimits_validate (cf_limits config) = Ok tt → 0 ≤ rl_max_sessions_per_connection (cf_limits config) →
  QuicRelayServer_new_connection config relay_generation connection_epoch = Ok registry →
  rtc (qrm_step (AIo := AIo) config socket_override xdg home peer) (connection_start allowlist registry sent) c →
  let s := qc_sessions c in
  qs_tasks s !! id = Some t → checked_binding t = Some b →
  (hb_session_handle b ∉ qs_reused s →
     session_live (qs_registry s) b ∨ told_to_stop s id b ∨ pending (qc_point c) (hb_session_handle b))
  ∧ (told_to_stop s id b →
       ∃ n s', (n ≤ 4)%nat ∧ (cancellable t = Some b → n = 3%nat)
         ∧ nsteps (stream_step config socket_override xdg home id) n s s'
         ∧ qs_tasks s' !! id = None ∧ qs_controls s' !! hb_session_handle b = None
         ∧ sr_active (qs_registry s') !! hb_session_handle b = None)
  ∧ (¬ session_live (qs_registry s) b → ∀ now, stream_tick id b now s = go_on id (RemovingControl b) s)
  ∧ (¬ session_live (qs_registry s) b → (∀ bridge, t ≠ Forwarding b bridge) →
       ∀ k s', nsteps (stream_step config socket_override xdg home id) k s s' →
         (k ≤ 5)%nat ∧ (k = 5%nat → qs_tasks s' !! id = None)
         ∧ ∀ bridge, qs_tasks s' !! id ≠ Some (Forwarding b bridge)).
Proof.
  intros Hl Hm Hr Hrun s Hid Hb. destruct (session_limits_validated _ Hl) as [limits Hlim].
  destruct (connection_start_wf _ _ _ _ allowlist sent Hm Hr) as [Hwf _].
  destruct (qrm_reachable_wf _ _ _ _ _ _ Hlim _ _ Hwf Hrun) as [Hc _]. split_and!.
  - intros Hre. unfold connection_wf in Hc. fold s in Hc.
    destruct (qc_point c); try (by eapply (qw_stops _ _ Hc)). by rewrite Hc, lookup_empty in Hid.
  - intros Ht. by eapply told_task_finishes.
  - intros Hn now. unfold stream_tick. destruct (active_bound_exact _ _ _) eqn:Hx; [|done].
    by apply active_bound_exact_live in Hx.
  - intros Hn Hnf k s' Hk.
    assert (Hlv : leaves s id b 5).
    { split; [done|]. right. exists t. destruct t; try done; simpl in Hb; simplify_eq; try (by destruct (Hnf bridge));
        (eexists; split_and!; [done|done|done|lia]). }
    destruct (leaves_steps _ _ _ _ _ _ _ _ _ _ Hlv Hk) as [Hle [_ Hend]]. split_and!; [done| |].
    + intros ->. destruct Hend as [?|(t' & m & _ & _ & Hleft & Hm0)]; [done|].
      destruct t'; simpl in Hleft; simplify_eq; lia.
    + intros bridge Hf. destruct Hend as [?|(t' & m & Hid' & _ & Hleft & _)]; [congruence|].
      rewrite Hf in Hid'. by simplify_eq.
Qed.

Lemma qrm_closed_sessions_stop_witness :
  rtc (qrm_step (AS := AllowlistRegistry) (AIo := unit) (AllowlistStore0 := memory_allowlist) example_relay_config None None
         qrm_demo_home qrm_demo_peer) qrm_demo_start qrm_demo_told
  ∧ sr_active (qs_registry (qc_sessions qrm_demo_told)) !! 1 = None
  ∧ told_to_stop (qc_sessions qrm_demo_told) 0 demo_binding.
Proof.
  assert (Hrun : rtc (qrm_step (AS := AllowlistRegistry) (AIo := unit) (AllowlistStore0 := memory_allowlist)
      example_relay_config None None qrm_demo_home qrm_demo_peer) qrm_demo_start qrm_demo_told)
    by (etrans; [exact qrm_demo_opened_steps|etrans; [exact qrm_demo_connecting_steps|exact qrm_demo_told_steps]]).
  split; [exact Hrun|].
  assert (Hgone : sr_active (qs_registry (qc_sessions qrm_demo_told)) !! 1 = None) by (vm_compute; reflexivity).
  split; [exact Hgone|].
  assert (Ht : ∃ k, qs_tasks (qc_sessions qrm_demo_told) !! 0%nat = Some (ConnectingSocket demo_binding qrm_demo_accepted k))
    by (eexists; vm_compute; reflexivity).
  destruct Ht as [k Ht].
  destruct (qrm_closed_sessions_stop (AllowlistStore0 := memory_allowlist) example_relay_config None None qrm_demo_home qrm_demo_peer
    1 2 qrm_demo_registry qrm_demo_allowlist [] qrm_demo_told 0%nat _ demo_binding ltac:(vm_compute; reflexivity) ltac:(discriminate)
    ltac:(vm_compute; reflexivity) Hrun Ht eq_refl) as [H _].
  assert (Hre : qs_reused (qc_sessions qrm_demo_told) = []) by (vm_compute; reflexivity).
  assert (Hp : qc_point qrm_demo_told = AwaitingDone [] (Some (qrm_demo_frame SessionClosed []))) by (vm_compute; reflexivity).
  rewrite Hre, Hp in H. destruct (H (not_elem_of_nil _)) as [(a & Ha & _)|[Htold|Hpend]].
  - exfalso. change (hb_session_handle demo_binding) with 1 in Ha. congruence.
  - exact Htold.
  - exfalso. exact (not_elem_of_nil _ Hpend).
Defined.

(** C34. A revocation cuts the peer off.  Once the application with the peer's fingerprint is
    revoked, by whatever process, and whatever calls on the allowlist follow short of a new
    enrollment of that fingerprint: the next tick of the expiry timer, and the next control
    frame that the drain does not answer, end the connection: it is closed, every task of
    it is dropped, and nothing more is sent.  A request to update is never accepted.  The
    certificate belongs to that App alone: another App's active entry with the same
    fingerprint keeps the peer in ([shared_fingerprint_survives_revocation]).  A read of the
    allowlist that succeeds returns what the file holds; one that fails ends the connection
    too. *)
Theorem qrm_revoked_peer_cut_off {AS AIo} `{!AllowlistStore AS AIo, !LawfulAllowlistStore AS AIo} config
    app before revoked generation e calls (c : QrmConnection AS) (io : AIo) clock env write frame :
  allowlist_wf before → revoke app before = (revoked, Ok generation) → entry before app = Some e →
  (∀ k e', entry before k = Some e' → ae_fingerprint e' = ae_fingerprint e → k = app) →
  (∀ certificate, certificate ∈ calls ≫= op_enrolls → cm_fingerprint certificate ≠ ae_fingerprint e) →
  al_holds (qc_allowlist c) (foldl run_allowlist revoked calls) → al_sound io →
  let cut_off c' := (∃ result, qc_point c' = Ended result) ∧ qs_tasks (qc_sessions c') = ∅
                    ∧ qs_closed (qc_sessions c') = true ∧ qc_sent c' = qc_sent c in
  cut_off (run_handler (expiry_tick (Some (ae_fingerprint e)) io clock) c)
  ∧ (qc_draining c && starts_session (hf_kind frame) = false →
       cut_off (run_handler (receive_frame (Some (ae_fingerprint e)) io clock write frame) c))
  ∧ (∀ request_id, qc_point (run_handler (control_update config (Some (ae_fingerprint e)) io env write frame) c)
       ≠ Updating request_id).
Proof.
  intros Hwf Hr He Hsole Hcalls Hv Hio cut_off.
  pose proof (revoked_stays_inadmissible _ _ _ _ _ calls Hwf Hr He Hsole Hcalls) as Hin.
  pose proof (λ now, proj1 (inadmissible_refused _ _ now Hin)) as Hq.
  pose proof (λ now, proj2 (inadmissible_refused _ _ now Hin)) as Hu.
  assert (Hcut : ∀ a result, cut_off (end_connection true result (qc_set_allowlist a c))).
  { intros a result. destruct (end_connection_ended true result (qc_set_allowlist a c)) as (H1 & H2 & H3 & H4 & _).
    unfold cut_off. rewrite H1, H2, H3, H4. split_and!; [by eexists|done..]. }
  split_and!.
  - destruct (tick_refused io clock _ _ c Hio Hv (Hq _)) as [a ->]. apply Hcut.
  - intros Hd. destruct (frame_refused io clock write frame _ _ c Hio Hv (Hq _) Hd) as (a & error & ->). apply Hcut.
  - intros request_id. pose proof (update_refused config io env write frame (ae_fingerprint e) _ c Hio Hv) as Hl.
    unfold authorize_update in Hl. rewrite Hu in Hl. specialize (Hl eq_refl).
    unfold leads, wp, run_handler in *. destruct (control_update _ _ _ _ _ _ c) as [c' [p|error|]]; [|done..].
    by subst p.
Qed.

Lemma qrm_revoked_peer_cut_off_witness :
  let revoked := (revoke (str_lit "app") qrm_demo_allowlist).1 in
  let c := qc_set_allowlist revoked qrm_demo_connecting in
  qs_tasks (qc_sessions c) ≠ ∅
  ∧ qs_tasks (qc_sessions (run_handler (expiry_tick (AllowlistStore0 := memory_allowlist) (Some (str_lit "fp")) tt (Some 50)) c)) = ∅.
Proof.
  intros revoked c. split; [vm_compute; discriminate|].
  assert (He : ∃ e, entry qrm_demo_allowlist (str_lit "app") = Some e ∧ ae_fingerprint e = str_lit "fp")
    by (eexists; split; [vm_compute; reflexivity|reflexivity]).
  destruct He as (e & He & Hf).
  assert (Hr : ∃ g, revoke (str_lit "app") qrm_demo_allowlist = (revoked, Ok g)) by (eexists; vm_compute; reflexivity).
  destruct Hr as [g Hr].
  assert (Hsole : ∀ k e', entry qrm_demo_allowlist k = Some e' → ae_fingerprint e' = ae_fingerprint e → k = str_lit "app").
  { intros k e' Hk _. assert (Hm : ar_entries qrm_demo_allowlist = {[str_lit "app" := e]}).
    { unfold entry in He. assert (Hs : ∃ x, ar_entries qrm_demo_allowlist = {[str_lit "app" := x]}) by (eexists; vm_compute; reflexivity).
      destruct Hs as [x Hs]. rewrite Hs, lookup_singleton_eq in He. injection He as ->. exact Hs. }
    unfold entry in Hk. rewrite Hm in Hk. apply lookup_singleton_Some in Hk as [<- _]. reflexivity. }
  pose proof (qrm_revoked_peer_cut_off (LawfulAllowlistStore0 := memory_allowlist_lawful) example_relay_config
    (str_lit "app") qrm_demo_allowlist revoked g e [] c tt (Some 50) (qrm_demo_env 5) Written qrm_demo_open
    (as_wf _ _ _ (run_allowlist_steps AllowlistRegistry_new _ new_wf)) Hr He Hsole) as H.
  destruct (H ltac:(intros x Hx; exfalso; exact (not_elem_of_nil _ Hx)) eq_refl I) as [(_ & Ht & _) _].
  rewrite Hf in Ht. exact Ht.
Defined.

(** C35. A drain admits nothing.  After GOAWAY, in whatever order the rest happens: no stream
    task, no prepared authority and no session is there that was not there before, while
    those that were there go on; and a frame that would prepare or open a session is
    answered, without a look at the allowlist or a change of the registry, with the
    rejection that the connection is closing. *)
Theorem qrm_drain_admits_nothing {AS AIo} `{!AllowlistStore AS AIo} config socket_override xdg home peer
    (c0 c1 c : QrmConnection AS) :
  c1 = run_handler (begin_drain Written) c0 → is_u64 (sr_connection_epoch (qs_registry (qc_sessions c))) →
  rtc (qrm_step (AIo := AIo) config socket_override xdg home peer) c1 c →
  qc_sent c1 = qc_sent c0 ++ [go_away] ∧ qc_sessions c1 = qc_sessions c0
  ∧ qc_draining c = true ∧ shrinks (qc_sessions c1) (qc_sessions c)
  ∧ ∀ (io : AIo) clock frame, starts_session (hf_kind frame) = true →
      ∃ payload, HdqsResponse_decode payload
                 = Ok (HdqsResponse_rejected ConnectionClosing (sr_connection_epoch (qs_registry (qc_sessions c))))
        ∧ run_handler (receive_frame peer io clock Written frame) c
          = qc_set_point Listening (qc_send (control_frame ErrorResponse (hf_request_id frame) payload) c).
Proof.
  intros Hc1 Hepoch Hrun.
  assert (Hf : fenced c1) by (subst c1; by split; [|intros ? [=]]).
  destruct (qrm_run_fenced _ _ _ _ _ _ _ Hf Hrun) as [[Hd _] Hs].
  split; [by subst c1|]. split; [by subst c1|]. split; [done|]. split; [done|].
  intros io clock frame Hk.
  destruct (HdqsResponse_roundtrip (HdqsResponse_rejected ConnectionClosing (sr_connection_epoch (qs_registry (qc_sessions c)))))
    as (payload & He & Hdec).
  { split_and!; try done. by right. }
  exists payload. split; [exact Hdec|].
  unfold run_handler, receive_frame, st_bind, st_get. rewrite Hd, Hk. simpl.
  injection He as <-. by destruct c as [? []].
Qed.

Lemma qrm_drain_admits_nothing_witness :
  let c := run_handler (begin_drain Written) qrm_demo_opened in
  ∃ frame, qc_sent (run_handler (AS := AllowlistRegistry)
      (receive_frame (AIo := unit) (AllowlistStore0 := memory_allowlist) qrm_demo_peer tt (Some 50) Written qrm_demo_prepare) c)
    = qc_sent c ++ [frame] ∧ hf_kind frame = ErrorResponse.
Proof.
  intros c.
  destruct (qrm_drain_admits_nothing (AIo := unit) (AllowlistStore0 := memory_allowlist) example_relay_config None None qrm_demo_home qrm_demo_peer
    qrm_demo_opened c c eq_refl ltac:(vm_compute; split; discriminate) (rtc_refl _ _)) as (_ & _ & _ & _ & H).
  destruct (H tt (Some 50) qrm_demo_prepare eq_refl) as (payload & _ & Heq). rewrite Heq.
  eexists. split; reflexivity.
Defined.
