(* ===== verification/QrmAdmission.v ===== *)
(** * Who gets as far as the control loop (src/src/quic_server.rs)

    From the TLS handshake to the loop of [QrmConnection]: the negotiated protocol, the
    certificate the peer presented, the hello on the control stream, and the readers of
    control frames and bindings.  The chain was verified by rustls; what quinn reports of it,
    the X.509 parser and SHA-256 are parameters. *)
From S2P Require Export QrmSafety Pki.
From S2P Require Import IrohWire StreamReader ServerWorld.

Definition QRM_RELAY_ALPN : list byte := str_lit "herdr-dog-relay-quic/1".
Definition QRM_ENROLLMENT_ALPN : list byte := str_lit "herdr-dog-relay-enroll/1".
Definition QRM_BOOTSTRAP_ALPN : list byte := str_lit "herdr-dog-relay-bootstrap/1".

(** A [Box<dyn Any>] that is asked for one type. *)
Inductive AnyBox (A : Type) : Type := IsType (a : A) | OtherType.
#[global] Arguments IsType {A} _.
#[global] Arguments OtherType {A}.

Definition downcast {A} (box : AnyBox A) (error : RelayError) : relay_result A :=
  match box with IsType a => Ok a | OtherType => Err error end.

(** What the connection knows when its handshake is done: the protocol in its handshake data,
    and the certificates of the peer. *)
Record Handshaken : Type := {
  hs_handshake_data : option (AnyBox (option (list byte)));
  hs_peer_identity : option (AnyBox (list (list byte)));
}.

(** What the system gives when the anchors of Core enrollment are read: the printout of
    [id -u] and the file. *)
Record AnchorIo : Type := {
  an_id_output : option (bool * list byte);
  an_material : MaterialIo;
  an_fs : FileSystem;
  an_fs_open : FileSystem;
}.

(** The handler an admitted connection is given to. *)
Inductive Admission : Type :=
| ServeBootstrap
| ServeEnrollment (core_identity : list byte)
| ServeQrm (peer : option (list byte)).

(** From the admission to the loop: the epoch drawn, the control stream, whether the hello came
    too late, and the write of the acknowledgement, whose encoding cannot fail. *)
Record HelloIo : Type := {
  hi_random : Z;
  hi_accept : AcceptResult;
  hi_incoming : list byte;
  hi_expires : bool;
  hi_write : WriteResult;
}.

(** ** The readers *)
Local Open Scope relay_scope.

Definition read_control_frame : stateful (list byte) RelayError HdqmFrame :=
  let! header := read_exact 27 (QuicProtocol "control frame header read failed") in
  let! payload_len := st_lift (index_u32 header 23) in
  if QRM_MAX_CONTROL_PAYLOAD_BYTES <? payload_len then st_err (QuicProtocol "control frame exceeds bound") else
  let! payload := read_exact (Z.to_nat payload_len) (QuicProtocol "control frame payload read failed") in
  st_lift (map_err (λ _, QuicProtocol "control frame decode failed") (HdqmFrame_decode (header ++ payload))).

Definition read_control_frame_timed (expires : bool) : stateful (list byte) RelayError HdqmFrame :=
  if expires then st_err (QuicHandshake "control frame timeout") else read_control_frame.

(** What [spawn_control_reader] puts into its channel, in order.  Every frame takes 27 bytes or
    more: with fuel for each byte and one round more it always comes to its end. *)
Fixpoint control_reader (fuel : nat) (expires : nat → bool) (stream : list byte) : list (relay_result HdqmFrame) :=
  match fuel with
  | O => []
  | S fuel =>
      let '(rest, result) := read_control_frame_timed (expires 0%nat) stream in
      result :: (if is_ok result then control_reader fuel (λ n, expires (S n)) rest else [])
  end.
Definition spawn_control_reader (expires : nat → bool) (stream : list byte) : list (relay_result HdqmFrame) :=
  control_reader (S (length stream)) expires stream.

Definition read_session_binding : stateful (list byte) RelayError HdqsBinding :=
  let! prefix := read_exact 33 (QuicProtocol "HDQS prefix read failed") in
  let! b32 := st_lift (index prefix 32) in
  let name_len := byte_val b32 in
  if (name_len =? 0) || (QRM_MAX_SESSION_NAME_BYTES <? name_len)
  then st_err (QuicProtocol "HDQS session name length invalid") else
  let! remainder := read_exact (Z.to_nat name_len + 64) (QuicProtocol "HDQS authority read failed") in
  st_lift (map_err (λ _, QuicProtocol "HDQS binding decode failed") (HdqsBinding_decode (prefix ++ remainder))).

Local Close Scope relay_scope.

Section Admission.
Context (config : RelayConfig).
Context (sha256 : list byte → list byte) (parse_certificate : list byte → option ParsedCertificate)
  (pem_certs : list byte → list (option (list byte))).

Definition negotiated_alpn (c : Handshaken) : relay_result (list byte) :=
  data ← ok_or (hs_handshake_data c) (QuicHandshake "QUIC handshake data unavailable");
  protocol ← downcast data (QuicHandshake "QUIC handshake data type is invalid");
  ok_or protocol (QuicHandshake "QUIC ALPN was not negotiated").

(** ** The certificate of the peer *)
Definition peer_certificates (c : Handshaken) : relay_result (list (list byte)) :=
  identity ← ok_or (hs_peer_identity c) QuicAuthentication;
  downcast identity QuicAuthentication.
Definition peer_leaf (c : Handshaken) : relay_result (list byte) :=
  certificates ← peer_certificates c;
  ok_or (head certificates) QuicAuthentication.

Definition peer_certificate_fingerprint (c : Handshaken) : relay_result (list byte) :=
  leaf ← peer_leaf c;
  map_err (λ _, QuicAuthentication) (Fingerprint_from_bytes (sha256 leaf)).

Definition peer_certificate_identity (c : Handshaken) : relay_result (list byte) :=
  leaf ← peer_leaf c;
  certificate ← ok_or (parse_certificate leaf) QuicAuthentication;
  Ok (sha256 (px_spki_raw certificate)).

(** [iter().collect::<Result<Vec<_>, _>>()]. *)
Definition load_certificates_from_bytes (bytes : list byte) : relay_result (list (list byte)) :=
  ok_or (mapM id (pem_certs bytes)) (TlsConfiguration "trusted Core enrollment CA is invalid").

Definition issued_by_anchor (leaf : ParsedCertificate) (anchors : list (list byte)) (issuer : list byte) : bool :=
  match parse_certificate issuer with
  | None => false
  | Some issuer_certificate =>
      if bool_decide (px_issuer leaf ≠ px_subject issuer_certificate)
         || negb (px_signed_by leaf (px_spki_raw issuer_certificate))
      then false
      else existsb (λ anchor, bool_decide (sha256 issuer = sha256 anchor)) anchors
  end.
Definition certificate_chain_matches_anchor (certificates anchors : list (list byte)) : bool :=
  match certificates with
  | [] => false
  | leaf :: issuers =>
      match parse_certificate leaf with
      | None => false
      | Some leaf_certificate => existsb (issued_by_anchor leaf_certificate anchors) issuers
      end
  end.

Definition peer_certificate_matches_anchor (c : Handshaken) (io : AnchorIo) : relay_result bool :=
  uid ← current_uid (an_id_output io);
  anchor_bytes ← read_protected_file (an_material io) (sc_trusted_core_enrollment_ca (cf_security config)) uid
                   Public MAX_PUBLIC_MATERIAL_BYTES (an_fs io) (an_fs_open io);
  anchors ← load_certificates_from_bytes anchor_bytes;
  certificates ← peer_certificates c;
  Ok (certificate_chain_matches_anchor certificates anchors).

(** ** The handler

    [allowlist] is what the allowlist of the server has in memory, when it has one. *)
Definition admit_enrollment (c : Handshaken) (io : AnchorIo) : relay_result Admission :=
  if negb (ec_enabled (cf_enrollment config)) then Err (QuicProtocol "enrollment ALPN is disabled") else
  matches ← peer_certificate_matches_anchor c io;
  if negb matches then Err QuicAuthentication else
  core_identity ← peer_certificate_identity c;
  Ok (ServeEnrollment core_identity).

Definition admit_qrm (peer_fingerprint : option (list byte)) (allowlist : option AllowlistRegistry) (clock : option Z)
  : relay_result Admission :=
  match sc_mode (cf_security config) with
  | Verified =>
      allowlist ← ok_or allowlist QuicAuthentication;
      fingerprint ← ok_or peer_fingerprint QuicAuthentication;
      if negb (allows_qrm allowlist fingerprint clock) then Err QuicAuthentication else Ok (ServeQrm peer_fingerprint)
  | DevelopmentUnverified => Ok (ServeQrm peer_fingerprint)
  end.

Definition admit_connection (c : Handshaken) (io : AnchorIo) (allowlist : option AllowlistRegistry) (clock : option Z)
  : relay_result Admission :=
  protocol ← negotiated_alpn c;
  if bool_decide (protocol = QRM_BOOTSTRAP_ALPN) then
    if negb (ec_enabled (cf_enrollment config)) then Err (QuicProtocol "bootstrap ALPN is disabled") else Ok ServeBootstrap
  else
  peer_fingerprint ← match sc_mode (cf_security config) with
                     | Verified => Some <$> peer_certificate_fingerprint c
                     | DevelopmentUnverified => Ok None
                     end;
  if bool_decide (protocol = QRM_ENROLLMENT_ALPN) then admit_enrollment c io else
  if bool_decide (protocol ≠ QRM_RELAY_ALPN) then Err (QuicProtocol "unsupported QRM ALPN") else
  admit_qrm peer_fingerprint allowlist clock.

(** ** The hello *)
Context (relay_identity : list byte) (relay_generation : Z).

Definition hello_ack (connection_epoch : Z) : DeviceHelloAck :=
  {| dha_relay_identity := relay_identity; dha_ca_generation := sc_ca_generation (cf_security config);
     dha_relay_generation := relay_generation; dha_connection_epoch := connection_epoch |}.

Definition open_control {AS} (io : HelloIo) (allowlist : AS) : relay_result (QrmConnection AS * list byte) :=
  let connection_epoch := Z.max (hi_random io) 1 in
  registry ← QuicRelayServer_new_connection config relay_generation connection_epoch;
  _ ← match hi_accept io with
      | StreamAccepted => Ok tt
      | AcceptTimedOut => Err (QuicHandshake "control stream timeout")
      | AcceptFailed => Err (QuicHandshake "control stream unavailable")
      end;
  let '(incoming, hello) := read_control_frame_timed (hi_expires io) (hi_incoming io) in
  hello ← hello;
  if bool_decide (hf_kind hello ≠ DeviceHello) then Err (QuicProtocol "first control frame is not DEVICE_HELLO") else
  payload ← map_err (λ _, QuicProtocol "control frame encode failed") (DeviceHelloAck_encode (hello_ack connection_epoch));
  let ack := control_frame DeviceHelloAckKind (hf_request_id hello) payload in
  let '(c, sent) := send_control_frame (hi_write io) ack (connection_start allowlist registry []) in
  _ ← sent;
  Ok (c, incoming).
End Admission.

(** * Facts *)

(** ** The readers *)
Definition control_size (header : list byte) : relay_result nat :=
  payload_len ← index_u32 header 23;
  if QRM_MAX_CONTROL_PAYLOAD_BYTES <? payload_len
  then Err (QuicProtocol "control frame exceeds bound") else Ok (Z.to_nat payload_len).
Definition binding_size (prefix : list byte) : relay_result nat :=
  b32 ← index prefix 32;
  if (byte_val b32 =? 0) || (QRM_MAX_SESSION_NAME_BYTES <? byte_val b32)
  then Err (QuicProtocol "HDQS session name length invalid") else Ok (Z.to_nat (byte_val b32) + 64)%nat.

Ltac control_widths :=
  unfold QRM_MAX_CONTROL_PAYLOAD_BYTES, QuicWire.QRM_MAX_CONTROL_FRAME_BYTES, HDQM_HEADER_BYTES, HDP1_MAX_FRAME_BYTES,
    QRM_MAX_SESSION_NAME_BYTES in *.

(** The lengths are those the readers of iroh_endpoint.rs find. *)
Lemma control_size_hdqm header n :
  length header = 27%nat → hdqm_size HDP1_MAX_FRAME_BYTES header = Ok n → control_size header = Ok n.
Proof.
  unfold hdqm_size, control_size. intros Hl (m & _ & H)%bind_Ok. destruct (bool_decide _); [done|].
  apply bind_Ok in H as (l & Hb & H). apply fmap_Ok in Hb as (bs & Hs & ->).
  destruct (_ || _) eqn:Hc in H; [done|]. apply Ok_inj in H as <-. bool_facts.
  unfold get_array in Hs. rewrite Hl in Hs. apply bind_Ok in Hs as (s & Hs & Ha).
  unfold to_array in Ha. case_bool_decide as Hbl; [|done]. apply Ok_inj in Ha as ->.
  assert (Hi : index_u32 (E := RelayError) header 23 = Ok (be_val bs)).
  { apply index_u32_Ok. apply slice_Ok in Hs as [Hr Hs]. split.
    - pose proof (be_val_range bs) as Hv. unfold len in Hv. rewrite Hbl in Hv. change (256 ^ Z.of_nat 4) with 4294967296 in Hv. unfold is_u32, u32_max. lia.
    - apply slice_Ok. split; [lia|]. rewrite be_bytes_be_val by done. exact Hs. }
  rewrite Hi. simpl. rewrite (proj2 (Z.ltb_ge _ _)); [done|].
  control_widths. lia.
Qed.

Lemma binding_size_hdqs prefix n : hdqs_size prefix = Ok n → binding_size prefix = Ok n.
Proof.
  unfold hdqs_size, binding_size. intros (m & _ & H)%bind_Ok. destruct (bool_decide _); [done|].
  apply bind_Ok in H as (b & Hb & H). unfold index in *.
  destruct (prefix !! 32%nat) as [b'|]; [|discriminate]. apply Ok_inj in Hb as ->. simpl. revert H. case_match; [done|]. by intros [= <-].
Qed.

Lemma read_control_frame_two_part stream :
  two_part_read 27 (QuicProtocol "control frame header read failed") (QuicProtocol "control frame payload read failed")
    control_size (λ bs, map_err (λ _, QuicProtocol "control frame decode failed") (wire_decode bs)) stream
  = read_control_frame stream.
Proof.
  unfold read_control_frame, control_size. two_part_unfold.
  destruct (index_u32 a 23) as [n|e|]; simpl; [|done..]. destruct (_ <? n); simpl; [done|]. by two_part_unfold.
Qed.

Lemma read_session_binding_two_part stream :
  two_part_read 33 (QuicProtocol "HDQS prefix read failed") (QuicProtocol "HDQS authority read failed")
    binding_size (λ bs, map_err (λ _, QuicProtocol "HDQS binding decode failed") (wire_decode bs)) stream
  = read_session_binding stream.
Proof.
  unfold read_session_binding, binding_size. two_part_unfold.
  destruct (index a 32) as [n|e|]; simpl; [|done..]. destruct (_ || _); simpl; [done|]. by two_part_unfold.
Qed.

Lemma control_frame_reader :
  frame_reader HdqmFrame_valid HdqmFrame_encode read_control_frame (Z.to_nat QuicWire.QRM_MAX_CONTROL_FRAME_BYTES).
Proof.
  eapply frame_reader_ext; [apply read_control_frame_two_part|].
  apply (two_part_frame_reader (WC := HdqmFrame_codec)).
  - intros f bs Hv He. destruct (hdqm_size_encoded f bs Hv He) as [Hl Hs]. split; [done|].
    apply control_size_hdqm; [rewrite length_take; lia|done].
  - intros header n _ H. unfold control_size in H. apply bind_Ok in H as (l & _ & H).
    destruct (_ <? l) eqn:Hc; [done|]. apply Ok_inj in H as <-. bool_facts. control_widths. lia.
  - intros header Hh. unfold control_size. no_panic.
  - control_widths. lia.
Qed.

Lemma session_binding_reader : frame_reader HdqsBinding_valid HdqsBinding_encode read_session_binding 161.
Proof.
  eapply frame_reader_ext; [apply read_session_binding_two_part|].
  apply (two_part_frame_reader (WC := HdqsBinding_codec)).
  - intros b bs Hv He. destruct (hdqs_size_encoded b bs Hv He) as [Hl Hs]. split; [done|]. by apply binding_size_hdqs.
  - intros header n _ H. unfold binding_size in H. apply bind_Ok in H as (b & _ & H).
    destruct (_ || _) eqn:Hc; [done|]. apply Ok_inj in H as <-. bool_facts. pose proof (byte_val_range b). control_widths. lia.
  - intros header Hh. unfold binding_size. no_panic.
  - lia.
Qed.

Lemma read_timed_Ok expires stream rest frame :
  read_control_frame_timed expires stream = (rest, Ok frame) →
  expires = false ∧ HdqmFrame_valid frame ∧ ∃ bs, HdqmFrame_encode frame = Ok bs ∧ stream = bs ++ rest
  ∧ (27 ≤ length bs)%nat.
Proof.
  unfold read_control_frame_timed. destruct expires; [done|]. intros H. split; [done|].
  destruct control_frame_reader as (_ & Hr & _). destruct (Hr _ _ _ H) as (Hv & bs & He & ->). split; [done|].
  exists bs. split; [done|]. split; [done|]. by apply (hdqm_size_encoded frame).
Qed.

Lemma read_timed_returns expires stream : returns (read_control_frame_timed expires stream).2.
Proof. unfold read_control_frame_timed. destruct expires; [done|]. apply control_frame_reader. Qed.

Lemma control_reader_end fuel expires stream :
  (length stream < fuel)%nat →
  ∃ frames bss rest error, control_reader fuel expires stream = (Ok <$> frames) ++ [Err error]
    ∧ Forall2 (λ f bs, HdqmFrame_encode f = Ok bs) frames bss ∧ Forall HdqmFrame_valid frames ∧ stream = concat bss ++ rest.
Proof.
  revert expires stream. induction fuel as [|fuel IH]; intros expires stream Hl; [lia|]. simpl.
  destruct (read_control_frame_timed (expires 0%nat) stream) as [rest [frame|error|]] eqn:Hr; simpl.
  - apply read_timed_Ok in Hr as (_ & Hv & bs & He & -> & Hbs). rewrite length_app in Hl.
    destruct (IH (λ n, expires (S n)) rest ltac:(lia)) as (frames & bss & rest' & error & -> & H2 & Hvs & ->).
    exists (frame :: frames), (bs :: bss), rest', error. split_and!; [done|by constructor|by constructor|].
    simpl. by rewrite app_assoc.
  - by exists [], [], stream, error.
  - pose proof (read_timed_returns (expires 0%nat) stream) as Hn. by rewrite Hr in Hn.
Qed.

Lemma control_reader_ext f1 f2 e1 e2 stream :
  (∀ n, e1 n = e2 n) → (length stream < f1)%nat → (length stream < f2)%nat →
  control_reader f1 e1 stream = control_reader f2 e2 stream.
Proof.
  revert f2 e1 e2 stream. induction f1 as [|f1 IH]; intros [|f2] e1 e2 stream He H1 H2; [lia..|]. simpl. rewrite (He 0%nat).
  destruct (read_control_frame_timed (e2 0%nat) stream) as [rest [frame|error|]] eqn:Hr; simpl; [|done..].
  apply read_timed_Ok in Hr as (_ & _ & bs & _ & -> & Hbs). rewrite length_app in H1, H2. f_equal. apply IH; [auto|lia..].
Qed.

Lemma control_reader_reads fs bss rest expires :
  Forall HdqmFrame_valid fs → Forall2 (λ f bs, HdqmFrame_encode f = Ok bs) fs bss →
  (∀ n, (n < length fs)%nat → expires n = false) →
  spawn_control_reader expires (concat bss ++ rest)
  = (Ok <$> fs) ++ spawn_control_reader (λ n, expires (length fs + n)%nat) rest.
Proof.
  intros Hv H2. revert expires Hv. induction H2 as [|f bs fs bss He H2 IH]; intros expires Hv Hx.
  - simpl. by apply control_reader_ext; [|simpl; lia..].
  - inversion Hv as [|? ? Hf Hfs]; subst. unfold spawn_control_reader. simpl control_reader at 1. rewrite <-app_assoc.
    assert (Hread : read_control_frame_timed (expires 0%nat) (bs ++ concat bss ++ rest) = (concat bss ++ rest, Ok f)).
    { rewrite (Hx 0%nat) by (simpl; lia). destruct control_frame_reader as (Hr & _). destruct (Hr f Hf) as (bs' & He' & Hb).
      simpl. assert (bs' = bs) as -> by congruence. apply Hb. }
    rewrite Hread. simpl. f_equal. pose proof (proj1 (hdqm_size_encoded f bs Hf He)).
    etrans; [|apply (IH (λ n, expires (S n)) Hfs); intros n Hn; apply Hx; simpl; lia].
    apply control_reader_ext; [done| |lia]. rewrite !length_app. lia.
Qed.

(** ** Admission *)
Section AdmissionFacts.
Context (config : RelayConfig).
Context (sha256 : list byte → list byte) (parse_certificate : list byte → option ParsedCertificate)
  (pem_certs : list byte → list (option (list byte))).

Lemma negotiated_Ok c protocol :
  negotiated_alpn c = Ok protocol → hs_handshake_data c = Some (IsType (Some protocol)).
Proof.
  unfold negotiated_alpn, downcast. intros (d & Hd%ok_or_Ok & (p & Hp & H%ok_or_Ok)%bind_Ok)%bind_Ok.
  destruct d; [|done]. apply Ok_inj in Hp as ->. by subst.
Qed.

Lemma peer_leaf_Ok c leaf :
  peer_leaf c = Ok leaf → ∃ issuers, hs_peer_identity c = Some (IsType (leaf :: issuers)).
Proof.
  unfold peer_leaf, peer_certificates, downcast.
  intros (cs & (d & Hd%ok_or_Ok & H)%bind_Ok & Hh%ok_or_Ok)%bind_Ok. destruct d as [l|]; [|done]. apply Ok_inj in H as ->.
  destruct cs as [|x cs]; [done|]. injection Hh as ->. by exists cs.
Qed.

Lemma fingerprint_Ok c fingerprint :
  peer_certificate_fingerprint sha256 c = Ok fingerprint →
  ∃ leaf issuers, hs_peer_identity c = Some (IsType (leaf :: issuers)) ∧ fingerprint = sha256 leaf ∧ fingerprint ≠ zeros 32.
Proof.
  unfold peer_certificate_fingerprint. intros (leaf & [issuers Hl]%peer_leaf_Ok & H%map_err_Ok)%bind_Ok.
  unfold Fingerprint_from_bytes in H. case_bool_decide as Hz; [done|]. apply Ok_inj in H as <-. eauto.
Qed.

(** The chain leads to an anchor: a certificate of the chain that the leaf names as its issuer,
    with whose key the leaf is signed, and that an anchor has the digest of. *)
Definition leads_to_anchor (leaf : ParsedCertificate) (issuers anchors : list (list byte)) : Prop :=
  ∃ issuer issuer_certificate anchor,
    issuer ∈ issuers ∧ parse_certificate issuer = Some issuer_certificate
    ∧ px_issuer leaf = px_subject issuer_certificate ∧ px_signed_by leaf (px_spki_raw issuer_certificate) = true
    ∧ anchor ∈ anchors ∧ sha256 issuer = sha256 anchor.

Lemma chain_matches_spec leaf issuers anchors :
  certificate_chain_matches_anchor sha256 parse_certificate (leaf :: issuers) anchors = true ↔
  ∃ certificate, parse_certificate leaf = Some certificate ∧ leads_to_anchor certificate issuers anchors.
Proof.
  unfold certificate_chain_matches_anchor, leads_to_anchor. destruct (parse_certificate leaf) as [lc|] eqn:Hl; [|naive_solver].
  rewrite existsb_exists. unfold issued_by_anchor. split.
  - intros (issuer & Hin%list_elem_of_In & H). exists lc. split; [done|].
    destruct (parse_certificate issuer) as [ic|] eqn:Hi; [|done]. destruct (_ || _) eqn:Hc; [done|].
    apply existsb_exists in H as (anchor & Ha%list_elem_of_In & Hd%bool_decide_eq_true). bool_facts.
    exists issuer, ic, anchor. done.
  - intros (? & [= <-] & issuer & ic & anchor & Hin%list_elem_of_In & Hi & Hn & Hs & Ha%list_elem_of_In & Hd).
    exists issuer. split; [done|]. rewrite Hi, Hs, (bool_decide_eq_false_2 (_ ≠ _)) by naive_solver. simpl.
    apply existsb_exists. exists anchor. split; [done|]. by apply bool_decide_eq_true.
Qed.

(** The certificate of a Core that may enroll Apps. *)
Definition enrollment_peer (c : Handshaken) (io : AnchorIo) (core_identity : list byte) : Prop :=
  ∃ leaf issuers certificate uid anchor_bytes anchors,
    hs_peer_identity c = Some (IsType (leaf :: issuers)) ∧ parse_certificate leaf = Some certificate
    ∧ core_identity = sha256 (px_spki_raw certificate)
    ∧ current_uid (an_id_output io) = Ok uid
    ∧ read_protected_file (an_material io) (sc_trusted_core_enrollment_ca (cf_security config)) uid Public
        MAX_PUBLIC_MATERIAL_BYTES (an_fs io) (an_fs_open io) = Ok anchor_bytes
    ∧ mapM id (pem_certs anchor_bytes) = Some anchors ∧ leads_to_anchor certificate issuers anchors.

Lemma admit_enrollment_Ok c io a :
  admit_enrollment config sha256 parse_certificate pem_certs c io = Ok a →
  ∃ core_identity, a = ServeEnrollment core_identity ∧ ec_enabled (cf_enrollment config) = true
    ∧ enrollment_peer c io core_identity.
Proof.
  unfold admit_enrollment, peer_certificate_matches_anchor, peer_certificate_identity, load_certificates_from_bytes.
  destruct (ec_enabled _); [|done]. simpl. intros (m & Hm & H)%bind_Ok. destruct m; [|done]. simpl in H.
  apply bind_Ok in Hm as (uid & Hu & (bs & Hb & (anchors & Ha%ok_or_Ok & Hm)%bind_Ok)%bind_Ok).
  apply bind_Ok in H as (id & Hid & H). apply Ok_inj in H as <-.
  apply bind_Ok in Hid as (leaf & [issuers Hl]%peer_leaf_Ok & Hid). apply bind_Ok in Hid as (cert & Hc%ok_or_Ok & Hid).
  apply Ok_inj in Hid as <-. unfold peer_certificates in Hm. rewrite Hl in Hm. simpl in Hm. apply Ok_inj in Hm.
  apply chain_matches_spec in Hm as (cert' & Hc' & Hlead). assert (cert' = cert) as -> by congruence.
  eexists. split; [done|]. split; [done|]. exists leaf, issuers, cert, uid, bs, anchors. done.
Qed.

Lemma admit_enrollment_returns c io : returns (admit_enrollment config sha256 parse_certificate pem_certs c io).
Proof.
  unfold admit_enrollment, peer_certificate_matches_anchor, peer_certificate_identity, load_certificates_from_bytes,
    peer_leaf, peer_certificates, downcast.
  no_panic; first [apply current_uid_returns|apply read_protected_file_returns|by case_match].
Qed.

(** The entry of the allowlist that admits a certificate. *)
Definition admitting_entry (r : AllowlistRegistry) (fingerprint : list byte) (now : Z) : Prop :=
  ∃ app e, entry r app = Some e ∧ ae_fingerprint e = fingerprint ∧ ae_state e = Active
    ∧ now < ae_not_after_epoch_seconds e.

Lemma allows_qrm_spec r fingerprint clock :
  allows_qrm r fingerprint clock = true ↔ admitting_entry r fingerprint (current_epoch_seconds clock).
Proof.
  unfold allows_qrm, allows_qrm_at, admitting_entry. rewrite map_any_true.
  split; intros (app & e & He & H); exists app, e; [bool_facts; auto|].
  destruct H as (Hf & Hs & Ht). split; [done|]. rewrite Hf, Hs, (proj2 (Z.ltb_lt _ _) Ht). by rewrite !bool_decide_eq_true_2.
Qed.
(** What a decision is founded on. *)
Lemma admit_connection_Ok c io allowlist clock a :
  admit_connection config sha256 parse_certificate pem_certs c io allowlist clock = Ok a →
  ∃ protocol, hs_handshake_data c = Some (IsType (Some protocol)) ∧
    match a with
    | ServeBootstrap => protocol = QRM_BOOTSTRAP_ALPN ∧ ec_enabled (cf_enrollment config) = true
    | ServeEnrollment core_identity =>
        protocol = QRM_ENROLLMENT_ALPN ∧ ec_enabled (cf_enrollment config) = true ∧ enrollment_peer c io core_identity
    | ServeQrm peer =>
        protocol = QRM_RELAY_ALPN ∧
        match sc_mode (cf_security config) with
        | Verified => ∃ leaf issuers registry, hs_peer_identity c = Some (IsType (leaf :: issuers))
            ∧ peer = Some (sha256 leaf) ∧ sha256 leaf ≠ zeros 32 ∧ allowlist = Some registry
            ∧ allows_qrm registry (sha256 leaf) clock = true
        | DevelopmentUnverified => peer = None
        end
    end.
Proof.
  unfold admit_connection. intros (protocol & Hp%negotiated_Ok & H)%bind_Ok. exists protocol. split; [done|].
  case_bool_decide as Hb.
  { destruct (ec_enabled _) eqn:He; [|done]. by apply Ok_inj in H as <-. }
  apply bind_Ok in H as (peer & Hpeer & H). case_bool_decide as He.
  { apply admit_enrollment_Ok in H as (id & -> & Hen & Hid). done. }
  case_bool_decide as Hq; [done|]. unfold admit_qrm in H. destruct (sc_mode _).
  - apply fmap_Ok in Hpeer as (fp & (leaf & issuers & Hl & -> & Hz)%fingerprint_Ok & ->).
    apply bind_Ok in H as (registry & Hr%ok_or_Ok & H). simpl in H. destruct (allows_qrm _ _ _) eqn:Hal; [|done].
    apply Ok_inj in H as <-. split; [done|]. by exists leaf, issuers, registry.
  - apply Ok_inj in Hpeer as <-. by apply Ok_inj in H as <-.
Qed.

Lemma admit_connection_returns c io allowlist clock :
  returns (admit_connection config sha256 parse_certificate pem_certs c io allowlist clock).
Proof.
  unfold admit_connection, admit_qrm, negotiated_alpn, peer_certificate_fingerprint, peer_leaf, peer_certificates, downcast,
    Fingerprint_from_bytes.
  repeat first [no_panic_step|apply admit_enrollment_returns|case_match|apply fmap_returns].
Qed.
End AdmissionFacts.

(** The state of a connection whose hello was answered. *)
Lemma open_control_Ok {AS} config relay_identity relay_generation io (allowlist : AS) c incoming :
  open_control config relay_identity relay_generation io allowlist = Ok (c, incoming) →
  let connection_epoch := Z.max (hi_random io) 1 in
  ∃ hello bs registry payload,
    HdqmFrame_encode hello = Ok bs ∧ hi_incoming io = bs ++ incoming ∧ hf_kind hello = DeviceHello
    ∧ QuicRelayServer_new_connection config relay_generation connection_epoch = Ok registry
    ∧ DeviceHelloAck_encode (hello_ack config relay_identity relay_generation connection_epoch) = Ok payload
    ∧ c = connection_start allowlist registry [control_frame DeviceHelloAckKind (hf_request_id hello) payload].
Proof.
  unfold open_control. cbv zeta. intros (registry & Hreg & ([] & Ha & H)%bind_Ok)%bind_Ok.
  destruct (read_control_frame_timed _ _) as [rest hello] eqn:Hr. apply bind_Ok in H as (h & -> & H).
  apply read_timed_Ok in Hr as (_ & _ & bs & He & Hin & _).
  case_bool_decide as Hk; [done|]. apply bind_Ok in H as (payload & Hp%map_err_Ok & H).
  destruct (send_control_frame _ _ _) as [c' sent] eqn:Hs. apply bind_Ok in H as ([] & -> & H). apply Ok_inj in H as [= <- <-].
  unfold send_control_frame in Hs. destruct (HdqmFrame_encode (control_frame _ _ _)); [|done..].
  destruct (hi_write io); [|done..]. injection Hs as <-.
  exists h, bs, registry, payload. by split_and!.
Qed.

(** * Properties *)

(** The control stream is read frame by frame.  The readers of control frames and of
    session bindings read back what their encoders write and leave what follows; they accept
    nothing else, do not panic, and take at most 65536 (161) bytes.  Whatever the peer
    sends and however late, the control loop is handed the frames that were sent, in order
    and none left out, and at the end exactly one error, after which nothing is read; frames
    that are whole and in time are all delivered. *)
Lemma qrm_control_stream :
  frame_reader HdqmFrame_valid HdqmFrame_encode read_control_frame (Z.to_nat QuicWire.QRM_MAX_CONTROL_FRAME_BYTES)
  ∧ frame_reader HdqsBinding_valid HdqsBinding_encode read_session_binding 161
  ∧ (∀ expires stream, ∃ frames bss rest error,
       spawn_control_reader expires stream = (Ok <$> frames) ++ [Err error]
       ∧ Forall2 (λ f bs, HdqmFrame_encode f = Ok bs) frames bss ∧ Forall HdqmFrame_valid frames
       ∧ stream = concat bss ++ rest)
  ∧ (∀ frames expires, Forall HdqmFrame_valid frames → (∀ n, (n < length frames)%nat → expires n = false) →
       ∃ bss, Forall2 (λ f bs, HdqmFrame_encode f = Ok bs) frames bss
         ∧ ∀ rest, spawn_control_reader expires (concat bss ++ rest)
                   = (Ok <$> frames) ++ spawn_control_reader (λ n, expires (length frames + n)%nat) rest).
Proof.
  split; [apply control_frame_reader|]. split; [apply session_binding_reader|]. split.
  - intros expires stream. apply control_reader_end. lia.
  - intros frames expires Hv Hx.
    destruct (frame_reader_sequence _ _ _ _ frames control_frame_reader Hv) as (bss & H2 & _).
    exists bss. split; [done|]. intros rest. by apply control_reader_reads.
Qed.

(** C36. Nobody reaches a handler without its authority.  A verified server hands a connection
    to the control loop only when the peer presented a certificate whose digest is that of an
    active entry of the allowlist that has not expired, for exactly such a peer it does, and
    a peer without a certificate gets no further than bootstrap; it hands a
    connection to enrollment only when the leaf is signed by the key of a certificate that
    the leaf names as its issuer and that is an anchor of the protected file, and then as the
    Core whose key the leaf has; and to bootstrap and enrollment only when enrollment is
    enabled.  No peer makes the decision panic.  The control loop starts, with a registry of
    the generation and the drawn epoch, once a DEVICE_HELLO was read and acknowledged with
    the identity, the generations and that epoch, and reads on after the hello. *)
Theorem qrm_admission_sound {AS} config sha256 parse_certificate pem_certs c io allowlist clock
    relay_identity relay_generation hello_io (store : AS) k incoming :
  let decision := admit_connection config sha256 parse_certificate pem_certs c io allowlist clock in
  let presented protocol := hs_handshake_data c = Some (IsType (Some protocol)) in
  let enabled := ec_enabled (cf_enrollment config) = true in
  let admitted leaf := ∃ registry, allowlist = Some registry
    ∧ admitting_entry registry (sha256 leaf) (current_epoch_seconds clock) in
  returns decision
  ∧ (∀ a, decision = Ok a →
       match a with
       | ServeBootstrap => presented QRM_BOOTSTRAP_ALPN ∧ enabled
       | ServeEnrollment core_identity =>
           presented QRM_ENROLLMENT_ALPN ∧ enabled
           ∧ enrollment_peer config sha256 parse_certificate pem_certs c io core_identity
       | ServeQrm peer =>
           presented QRM_RELAY_ALPN
           ∧ match sc_mode (cf_security config) with
             | Verified => ∃ leaf issuers, hs_peer_identity c = Some (IsType (leaf :: issuers))
                 ∧ peer = Some (sha256 leaf) ∧ sha256 leaf ≠ zeros 32 ∧ admitted leaf
             | DevelopmentUnverified => peer = None
             end
       end)
  ∧ (∀ leaf issuers, sc_mode (cf_security config) = Verified → presented QRM_RELAY_ALPN →
       hs_peer_identity c = Some (IsType (leaf :: issuers)) → sha256 leaf ≠ zeros 32 → admitted leaf →
       decision = Ok (ServeQrm (Some (sha256 leaf))))
  ∧ (open_control config relay_identity relay_generation hello_io store = Ok (k, incoming) →
     DeviceHelloAck_valid (hello_ack config relay_identity relay_generation (Z.max (hi_random hello_io) 1)) →
     ∃ hello bs registry ack,
       HdqmFrame_encode hello = Ok bs ∧ hi_incoming hello_io = bs ++ incoming ∧ hf_kind hello = DeviceHello
       ∧ k = connection_start store registry [ack]
       ∧ registry_identity registry
         = (relay_generation, Z.max (hi_random hello_io) 1, rl_max_sessions_per_connection (cf_limits config))
       ∧ hf_kind ack = DeviceHelloAckKind ∧ hf_request_id ack = hf_request_id hello
       ∧ DeviceHelloAck_decode (hf_payload ack)
         = Ok (hello_ack config relay_identity relay_generation (Z.max (hi_random hello_io) 1))).
Proof.
  intros decision presented enabled admitted. split_and!.
  - apply admit_connection_returns.
  - intros a Ha. apply admit_connection_Ok in Ha as (protocol & Hp & Ha). destruct a; [naive_solver..|].
    destruct Ha as [-> Ha]. split; [done|]. destruct (sc_mode _); [|done].
    destruct Ha as (leaf & issuers & registry & Hl & -> & Hz & -> & Hal%allows_qrm_spec).
    exists leaf, issuers. split_and!; try done. by exists registry.
  - intros leaf issuers Hm Hp Hl Hz (registry & -> & Hal%allows_qrm_spec). subst decision.
    unfold admit_connection, negotiated_alpn, peer_certificate_fingerprint, peer_leaf, peer_certificates, Fingerprint_from_bytes,
      admit_qrm.
    rewrite Hp, Hl, Hm. simpl. rewrite (bool_decide_eq_false_2 (_ = zeros 32)) by done. simpl. by rewrite Hal.
  - intros (hello & bs & registry & payload & He & Hi & Hk & Hr & Hp & ->)%open_control_Ok Hv.
    destruct (DeviceHelloAck_roundtrip _ Hv) as (payload' & Hp' & Hd). rewrite Hp in Hp'. injection Hp' as <-.
    exists hello, bs, registry, (control_frame DeviceHelloAckKind (hf_request_id hello) payload).
    split_and!; try done. revert Hr. unfold QuicRelayServer_new_connection, SessionRegistry_new.
    destruct (_ || _); [done|]. by intros [= <-].
Qed.

Lemma qrm_control_stream_witness :
  let hello := qrm_demo_frame DeviceHello [] in
  ∃ bs, HdqmFrame_encode hello = Ok bs
    ∧ spawn_control_reader (λ _, false) (bs ++ bs ++ take 10 bs)
      = [Ok hello; Ok hello; Err (QuicProtocol "control frame header read failed")].
Proof.
  intros hello. assert (Hv : Forall HdqmFrame_valid [hello; hello]).
  { repeat constructor; vm_compute; discriminate. }
  destruct qrm_control_stream as (_ & _ & _ & H). destruct (H [hello; hello] (λ _, false) Hv) as (bss & H2 & Hr); [done|].
  inversion H2 as [|? b1 ? l H1 H3]; subst. inversion H3 as [|? b2 ? l' H4 H5]; subst. inversion H5; subst.
  assert (b2 = b1) as -> by congruence. exists b1. split; [exact H1|].
  specialize (Hr (take 10 b1)). simpl in Hr. rewrite app_nil_r, <-app_assoc in Hr. rewrite Hr.
  assert (Hb : b1 = match HdqmFrame_encode hello with Ok b => b | _ => [] end) by (rewrite H1; reflexivity).
  rewrite Hb. vm_compute. reflexivity.
Defined.

Lemma qrm_admission_sound_witness :
  let peer := {| hs_handshake_data := Some (IsType (Some QRM_RELAY_ALPN));
                 hs_peer_identity := Some (IsType [str_lit "fp"; str_lit "ca"]) |} in
  let io := {| an_id_output := None; an_material := Material.sound_io 501; an_fs := ∅; an_fs_open := ∅ |} in
  let hello_io := {| hi_random := 2; hi_accept := StreamAccepted;
                     hi_incoming := qrm_demo_payload (HdqmFrame_encode (qrm_demo_frame DeviceHello []));
                     hi_expires := false; hi_write := Written |} in
  admit_connection example_relay_config id (λ _, None) (λ _, []) peer io (Some qrm_demo_allowlist) (Some 50)
    = Ok (ServeQrm (Some (str_lit "fp")))
  ∧ ∃ k ack, open_control example_relay_config (replicate 32 x07) 1 hello_io qrm_demo_allowlist = Ok (k, [])
      ∧ k = connection_start qrm_demo_allowlist qrm_demo_registry [ack].
Proof.
  intros peer io hello_io.
  assert (Ho : ∃ k, open_control example_relay_config (replicate 32 x07) 1 hello_io qrm_demo_allowlist = Ok (k, []))
    by (eexists; vm_compute; reflexivity).
  destruct Ho as [k Ho].
  destruct (qrm_admission_sound example_relay_config id (λ _, None) (λ _, []) peer io (Some qrm_demo_allowlist) (Some 50)
    (replicate 32 x07) 1 hello_io qrm_demo_allowlist k []) as (_ & _ & Hq & Hh).
  split.
  - apply (Hq (str_lit "fp") [str_lit "ca"] eq_refl eq_refl eq_refl); [discriminate|].
    exists qrm_demo_allowlist. split; [reflexivity|]. apply allows_qrm_spec. vm_compute. reflexivity.
  - destruct (Hh Ho) as (hello & bs & registry & ack & _ & _ & _ & Hk & _).
    { split_and!; vm_compute; first [reflexivity|discriminate|split; discriminate]. }
    exists k, ack. split; [exact Ho|]. rewrite Hk. f_equal.
    assert (Hr : qs_registry (qc_sessions k) = qrm_demo_registry).
    { assert (Hc : (match open_control example_relay_config (replicate 32 x07) 1 hello_io qrm_demo_allowlist with
                    | Ok (k, _) => qs_registry (qc_sessions k) | _ => qrm_demo_registry end) = qrm_demo_registry)
        by (vm_compute; reflexivity).
      rewrite Ho in Hc. exact Hc. }
    rewrite Hk in Hr. exact Hr.
Defined.
