(* ===== verification/QrmStartup.v ===== *)
(** * The start of the QUIC server (src/src/quic_server.rs, bind and build_server_config)

    The TLS material is read through the protected-file boundary, the TLS and transport
    policy is put together, the endpoint is bound, and the stores are opened.  rustls, quinn
    and rustls-pemfile are parameters: what they refuse is in [TlsCrates]. *)
From S2P Require Export QrmAdmission.

(** ** The policy of the endpoint *)
Inductive ClientAuth : Type :=
| NoClientAuth
| OptionalClientAuth (roots : list (list byte))
| RequiredClientAuth (roots : list (list byte)).

Record ServerTls (Key : Type) : Type := {
  tl_certificates : list (list byte);
  tl_key : Key;
  tl_client_auth : ClientAuth;
  tl_alpn_protocols : list (list byte);
  tl_max_idle_timeout_secs : Z;
  tl_keep_alive_interval_secs : Z;
  tl_max_concurrent_bidi_streams : Z;
}.
#[global] Arguments tl_certificates {Key} _.
#[global] Arguments tl_key {Key} _.
#[global] Arguments tl_client_auth {Key} _.
#[global] Arguments tl_alpn_protocols {Key} _.
#[global] Arguments tl_max_idle_timeout_secs {Key} _.
#[global] Arguments tl_keep_alive_interval_secs {Key} _.
#[global] Arguments tl_max_concurrent_bidi_streams {Key} _.

(** What the crates accept: TLS 1.3, a certificate as a trust root, the roots of a client
    verifier, a chain with its key, the TLS configuration for QUIC, a transport configuration
    nobody else owns, an idle timeout, and a stream limit. *)
Record TlsCrates (Key : Type) : Type := {
  tc_tls13 : bool;
  tc_root : list byte → bool;
  tc_verifier : list (list byte) → bool → bool;
  tc_single_cert : list (list byte) → Key → bool;
  tc_quic : bool;
  tc_transport_owned : bool;
  tc_idle_timeout : Z → bool;
  tc_stream_limit : Z → bool;
}.
#[global] Arguments tc_tls13 {Key} _.
#[global] Arguments tc_root {Key} _ _.
#[global] Arguments tc_verifier {Key} _ _ _.
#[global] Arguments tc_single_cert {Key} _ _ _.
#[global] Arguments tc_quic {Key} _.
#[global] Arguments tc_transport_owned {Key} _.
#[global] Arguments tc_idle_timeout {Key} _ _.
#[global] Arguments tc_stream_limit {Key} _ _.

(** The five reads of TLS material, each with the printout of [id -u] and its system calls. *)
Inductive LoadSite : Type := ServerChain | ServerKey | ClientRoots | EnrollmentRoots | IdentityChain.
Record LoadIo : Type := {
  ld_id_output : option (bool * list byte);
  ld_material : MaterialIo;
}.

(** [si_bind]: the error of the operating system, when the UDP socket cannot be bound. *)
Record StartIo : Type := {
  si_load : LoadSite → LoadIo;
  si_bind : option string;
  si_id_output : option (bool * list byte);
  si_allowlist : StoreIo;
  si_results : StoreIo;
  si_socket_accepted : bool;
  si_state_open : MaterialIo;
  si_state : PersistIo;
}.

(** ** The server *)
Inductive Permit : Type :=
| Connections | PreAuthHandshakes
| BootstrapHandshakes | BootstrapConnections
| EnrollmentHandshakes | EnrollmentConnections.

#[export] Instance Permit_eq_dec : EqDecision Permit.
Proof. solve_decision. Defined.

(** [qr_permits]: the permits every semaphore was made with. *)
Record QuicRelayServer (Key : Type) : Type := {
  qr_config : RelayConfig;
  qr_relay_generation : Z;
  qr_relay_identity : list byte;
  qr_ca_generation : Z;
  qr_endpoint : option (ServerTls Key);
  qr_permits : Permit → Z;
  qr_issuance_results : option PersistentIssuanceResults;
  qr_allowlist : option PersistentAllowlist;
  qr_bootstrap : option (RuntimeConfig * BootstrapState);
  qr_socket_override : option path;
}.
#[global] Arguments qr_config {Key} _.
#[global] Arguments qr_relay_generation {Key} _.
#[global] Arguments qr_relay_identity {Key} _.
#[global] Arguments qr_ca_generation {Key} _.
#[global] Arguments qr_endpoint {Key} _.
#[global] Arguments qr_permits {Key} _ _.
#[global] Arguments qr_issuance_results {Key} _.
#[global] Arguments qr_allowlist {Key} _.
#[global] Arguments qr_bootstrap {Key} _.
#[global] Arguments qr_socket_override {Key} _.

(** [usize::saturating_add] at 64 bits. *)
Definition usize_saturating_add (a b : Z) : Z := Z.min u64_max (a + b).

Definition new_permits (config : RelayConfig) (p : Permit) : Z :=
  match p with
  | Connections => rl_max_connections (cf_limits config)
  | PreAuthHandshakes =>
      usize_saturating_add (rl_max_connections (cf_limits config)) (ec_max_handshakes (cf_enrollment config))
  | BootstrapHandshakes | EnrollmentHandshakes => ec_max_handshakes (cf_enrollment config)
  | BootstrapConnections | EnrollmentConnections => ec_max_connections (cf_enrollment config)
  end.

Section Startup.
Context {Key IpAddr : Type}.
Context (parse_ip : list byte → option IpAddr) (sha256 : list byte → list byte).
Context (pem_certs : list byte → list (option (list byte))) (pem_private_key : list byte → option (option Key)).
Context (crates : TlsCrates Key).
Context (allowlist_to_vec : AllowlistRegistry → option (list byte)) (allowlist_from_slice : list byte → option AllowlistRegistry).
Context (results_to_vec : PersistedIssuanceResults → option (list byte))
  (results_from_slice : list byte → option PersistedIssuanceResults).
Context (state_from_slice : list byte → option (list PersistedBootstrapRecord)).

(** ** The material *)
Definition read_tls_file (io : LoadIo) (p : path) (kind : ProtectedFileKind) (limit : Z) (reason : string) (fs : FileSystem)
  : relay_result (list byte) :=
  uid ← current_uid (ld_id_output io);
  map_err (λ _, TlsConfiguration reason) (read_protected_file (ld_material io) p uid kind limit fs fs).

Definition load_certificates (io : LoadIo) (p : path) (fs : FileSystem) : relay_result (list (list byte)) :=
  bytes ← read_tls_file io p Public MAX_PUBLIC_MATERIAL_BYTES "certificate material is unsafe" fs;
  ok_or (mapM id (pem_certs bytes)) (TlsConfiguration "certificate PEM is invalid").

Definition load_private_key (io : LoadIo) (p : path) (fs : FileSystem) : relay_result Key :=
  bytes ← read_tls_file io p Private MAX_PRIVATE_MATERIAL_BYTES "private-key material is unsafe" fs;
  key ← ok_or (pem_private_key bytes) (TlsConfiguration "private-key PEM is invalid");
  ok_or key (TlsConfiguration "private-key PEM is empty").

Fixpoint add_roots (reason : string) (certificates roots : list (list byte)) : relay_result (list (list byte)) :=
  match certificates with
  | [] => Ok roots
  | certificate :: certificates =>
      if tc_root crates certificate then add_roots reason certificates (roots ++ [certificate])
      else Err (TlsConfiguration reason)
  end.

Definition load_client_roots (io : LoadIo) (p : path) (fs : FileSystem) : relay_result (list (list byte)) :=
  certificates ← load_certificates io p fs;
  roots ← add_roots "trusted client CA is invalid" certificates [];
  if bool_decide (roots = []) then Err (TlsConfiguration "trusted client CA is empty") else Ok roots.

Definition load_relay_identity (io : LoadIo) (config : RelayConfig) (fs : FileSystem) : relay_result (list byte) :=
  certificates ← load_certificates io (sc_server_certificate (cf_security config)) fs;
  certificate ← ok_or (head certificates) (TlsConfiguration "server certificate chain is empty");
  Ok (sha256 certificate).

(** ** The policy *)
Definition client_auth (io : LoadSite → LoadIo) (config : RelayConfig) (certs : list (list byte)) (key : Key) (fs : FileSystem)
  : relay_result ClientAuth :=
  let security := cf_security config in
  let enabled := ec_enabled (cf_enrollment config) in
  match sc_mode security with
  | Verified =>
      roots ← load_client_roots (io ClientRoots) (sc_trusted_client_ca security) fs;
      roots ← (if enabled
               then
                 anchors ← load_certificates (io EnrollmentRoots) (sc_trusted_core_enrollment_ca security) fs;
                 add_roots "trusted Core enrollment CA is invalid" anchors roots
               else Ok roots);
      if negb (tc_verifier crates roots enabled) then Err (TlsConfiguration "client CA verifier construction failed") else
      if negb (tc_single_cert crates certs key) then Err (TlsConfiguration "server certificate configuration failed") else
      Ok (if enabled then OptionalClientAuth roots else RequiredClientAuth roots)
  | DevelopmentUnverified =>
      if negb (tc_single_cert crates certs key) then Err (TlsConfiguration "development certificate configuration failed") else
      Ok NoClientAuth
  end.

Definition build_server_config (io : LoadSite → LoadIo) (config : RelayConfig) (fs : FileSystem) : relay_result (ServerTls Key) :=
  certs ← load_certificates (io ServerChain) (sc_server_certificate (cf_security config)) fs;
  key ← load_private_key (io ServerKey) (sc_server_private_key (cf_security config)) fs;
  if negb (tc_tls13 crates) then Err (TlsConfiguration "TLS 1.3 provider configuration failed") else
  auth ← client_auth io config certs key fs;
  let alpn := if ec_enabled (cf_enrollment config)
              then [QRM_RELAY_ALPN; QRM_ENROLLMENT_ALPN; QRM_BOOTSTRAP_ALPN] else [QRM_RELAY_ALPN] in
  if negb (tc_quic crates) then Err (TlsConfiguration "QUIC TLS adapter construction failed") else
  if negb (tc_transport_owned crates) then Err (ListenerStartup "QUIC transport configuration is not uniquely owned") else
  let idle := rl_idle_timeout_secs (cf_limits config) in
  if negb (tc_idle_timeout crates idle)
  then Err (InvalidConfiguration "limits.idle_timeout_secs" "idle timeout cannot be represented by QUIC") else
  let streams := rl_max_sessions_per_connection (cf_limits config) + 1 in
  if negb (tc_stream_limit crates streams)
  then Err (InvalidConfiguration "limits.max_sessions_per_connection" "session limit cannot be represented by QUIC") else
  Ok {| tl_certificates := certs; tl_key := key; tl_client_auth := auth; tl_alpn_protocols := alpn;
        tl_max_idle_timeout_secs := idle; tl_keep_alive_interval_secs := Z.max (idle / 3) 1;
        tl_max_concurrent_bidi_streams := streams |}.

(** ** The server object *)
Definition new_inner (config : RelayConfig) (relay_generation : Z) (endpoint : option (ServerTls Key))
    (socket_override : option path) (allowlist : option PersistentAllowlist)
    (issuance_results : option PersistentIssuanceResults) (bootstrap : option (RuntimeConfig * BootstrapState))
    (relay_identity : list byte) : relay_result (QuicRelayServer Key) :=
  if relay_generation =? 0 then Err (ListenerStartup "Relay generation must be non-zero") else
  _ ← RelayConfig_validate parse_ip config;
  Ok {| qr_config := config; qr_relay_generation := relay_generation; qr_relay_identity := relay_identity;
        qr_ca_generation := sc_ca_generation (cf_security config); qr_endpoint := endpoint;
        qr_permits := new_permits config; qr_issuance_results := issuance_results; qr_allowlist := allowlist;
        qr_bootstrap := bootstrap; qr_socket_override := socket_override |}.

(** [QuicRelayServer::new]. *)
Definition QuicRelayServer_new (config : RelayConfig) (relay_generation : Z) : relay_result (QuicRelayServer Key) :=
  new_inner config relay_generation None None None None None (replicate 32 x01).

Definition open_when {A} (condition : bool) (m : stateful FileSystem RelayError A) : stateful FileSystem RelayError (option A) :=
  (if condition then (let! a := m in st_ret (Some a)) else st_ret None)%relay.

(** The stores of a verified server. *)
Definition open_stores (io : StartIo) (config : RelayConfig)
  : stateful FileSystem RelayError
      (option PersistentAllowlist * option PersistentIssuanceResults * option (RuntimeConfig * BootstrapState)) :=
  (let e := cf_enrollment config in
   if bool_decide (sc_mode (cf_security config) ≠ Verified) then st_ret (None, None, None) else
   let! uid := st_lift (current_uid (si_id_output io)) in
   let! allowlist :=
     PersistentAllowlist_open allowlist_to_vec allowlist_from_slice (si_allowlist io) (ec_allowlist_path e) uid in
   let! results :=
     open_when (ec_enabled e)
       (PersistentIssuanceResults_open results_to_vec results_from_slice (si_results io) (ec_issuance_result_path e) uid) in
   let! bootstrap :=
     open_when (ec_enabled e)
       (λ fs, (fs, runtime_new state_from_slice (ec_enabled e) (si_socket_accepted io) (ec_bootstrap_verification_cwd e)
                     (ec_bootstrap_session e) (ec_bootstrap_state_path e) uid (si_state_open io) (si_state io) fs)) in
   st_ret (Some allowlist, results, bootstrap))%relay.

(** [bind_inner_with_socket] without a socket bound before. *)
Definition bind_inner (io : StartIo) (config : RelayConfig) (relay_generation : Z) (socket_override : option path)
  : stateful FileSystem RelayError (QuicRelayServer Key) :=
  (let! _ := st_lift (ListenerConfig_socket_addr parse_ip (cf_listener config)) in
   let! fs := st_get in
   let! tls := st_lift (build_server_config (si_load io) config fs) in
   do! st_lift match si_bind io with
               | Some error => Err (Io "binding QRM UDP listener" error)
               | None => Ok tt
               end;
   let! relay_identity := st_lift (load_relay_identity (si_load io IdentityChain) config fs) in
   let! stores := open_stores io config in
   let '(allowlist, results, bootstrap) := stores in
   st_lift (new_inner config relay_generation (Some tls) socket_override allowlist results bootstrap relay_identity))%relay.

Definition bind (io : StartIo) (config : RelayConfig) (relay_generation : Z)
  : stateful FileSystem RelayError (QuicRelayServer Key) :=
  if bool_decide (sc_mode (cf_security config) ≠ Verified)
  then st_err (InvalidConfiguration "security.mode" "development_unverified is test-only")
  else bind_inner io config relay_generation None.
End Startup.

(** * Facts *)
Section Facts.
Context {Key IpAddr : Type}.
Context (parse_ip : list byte → option IpAddr) (sha256 : list byte → list byte).
Context (pem_certs : list byte → list (option (list byte))) (pem_private_key : list byte → option (option Key)).
Context (crates : TlsCrates Key).

(** A file of certificates, read through the protected boundary. *)
Definition certificates_of (io : LoadIo) (p : path) (fs : FileSystem) (certificates : list (list byte)) : Prop :=
  ∃ uid bytes, current_uid (ld_id_output io) = Ok uid
    ∧ read_protected_file (ld_material io) p uid Public MAX_PUBLIC_MATERIAL_BYTES fs fs = Ok bytes
    ∧ mapM id (pem_certs bytes) = Some certificates.
Definition key_of (io : LoadIo) (p : path) (fs : FileSystem) (key : Key) : Prop :=
  ∃ uid bytes, current_uid (ld_id_output io) = Ok uid
    ∧ read_protected_file (ld_material io) p uid Private MAX_PRIVATE_MATERIAL_BYTES fs fs = Ok bytes
    ∧ pem_private_key bytes = Some (Some key).

Lemma read_tls_file_Ok io p kind limit reason fs bytes :
  read_tls_file io p kind limit reason fs = Ok bytes →
  ∃ uid, current_uid (ld_id_output io) = Ok uid ∧ read_protected_file (ld_material io) p uid kind limit fs fs = Ok bytes.
Proof. unfold read_tls_file. intros (uid & Hu & H%map_err_Ok)%bind_Ok. by exists uid. Qed.

Lemma load_certificates_Ok io p fs certificates :
  load_certificates pem_certs io p fs = Ok certificates → certificates_of io p fs certificates.
Proof.
  unfold load_certificates. intros (bytes & (uid & Hu & Hr)%read_tls_file_Ok & H%ok_or_Ok)%bind_Ok. by exists uid, bytes.
Qed.

Lemma load_private_key_Ok io p fs key : load_private_key pem_private_key io p fs = Ok key → key_of io p fs key.
Proof.
  unfold load_private_key. intros (bytes & (uid & Hu & Hr)%read_tls_file_Ok & (k & Hk%ok_or_Ok & H%ok_or_Ok)%bind_Ok)%bind_Ok.
  subst k. by exists uid, bytes.
Qed.

Lemma add_roots_Ok reason certificates roots roots' :
  add_roots crates reason certificates roots = Ok roots' → roots' = roots ++ certificates.
Proof.
  revert roots. induction certificates as [|c cs IH]; intros roots; simpl; [intros [= <-]; by rewrite app_nil_r|].
  destruct (tc_root crates c); [|done]. intros ->%IH. by rewrite <-app_assoc.
Qed.

Lemma load_client_roots_Ok io p fs roots :
  load_client_roots pem_certs crates io p fs = Ok roots → certificates_of io p fs roots ∧ roots ≠ [].
Proof.
  unfold load_client_roots. intros (cs & Hcs%load_certificates_Ok & (r & Hr%add_roots_Ok & H)%bind_Ok)%bind_Ok. simpl in Hr. subst r.
  case_bool_decide; [done|]. by apply Ok_inj in H as <-.
Qed.

(** The trust of a verified endpoint. *)
Definition trusts (io : LoadSite → LoadIo) (config : RelayConfig) (fs : FileSystem) (auth : ClientAuth) : Prop :=
  ∃ clients, certificates_of (io ClientRoots) (sc_trusted_client_ca (cf_security config)) fs clients ∧ clients ≠ []
    ∧ if ec_enabled (cf_enrollment config)
      then ∃ anchors,
        certificates_of (io EnrollmentRoots) (sc_trusted_core_enrollment_ca (cf_security config)) fs anchors
        ∧ auth = OptionalClientAuth (clients ++ anchors)
      else auth = RequiredClientAuth clients.

Lemma client_auth_Ok io config certs key fs auth :
  sc_mode (cf_security config) = Verified →
  client_auth pem_certs crates io config certs key fs = Ok auth → trusts io config fs auth.
Proof.
  unfold client_auth, trusts. intros ->. cbv zeta. intros (clients & [Hc Hne]%load_client_roots_Ok & H)%bind_Ok. exists clients.
  split; [done|]. split; [done|]. destruct (ec_enabled _).
  - apply bind_Ok in H as (roots & (anchors & Ha%load_certificates_Ok & ->%add_roots_Ok)%bind_Ok & H).
    destruct (negb _); [done|]. destruct (negb _); [done|]. apply Ok_inj in H as <-. by exists anchors.
  - simpl in H. destruct (negb _); [done|]. destruct (negb _); [done|]. by apply Ok_inj in H as <-.
Qed.

Lemma build_server_config_Ok io config fs tls :
  build_server_config pem_certs pem_private_key crates io config fs = Ok tls →
  certificates_of (io ServerChain) (sc_server_certificate (cf_security config)) fs (tl_certificates tls)
  ∧ key_of (io ServerKey) (sc_server_private_key (cf_security config)) fs (tl_key tls)
  ∧ (sc_mode (cf_security config) = Verified → trusts io config fs (tl_client_auth tls))
  ∧ tl_alpn_protocols tls = (if ec_enabled (cf_enrollment config)
                             then [QRM_RELAY_ALPN; QRM_ENROLLMENT_ALPN; QRM_BOOTSTRAP_ALPN] else [QRM_RELAY_ALPN])
  ∧ tl_max_idle_timeout_secs tls = rl_idle_timeout_secs (cf_limits config)
  ∧ tl_max_concurrent_bidi_streams tls = rl_max_sessions_per_connection (cf_limits config) + 1
  ∧ 1 ≤ tl_keep_alive_interval_secs tls.
Proof.
  unfold build_server_config. cbv zeta. intros (certs & Hc%load_certificates_Ok & (key & Hk%load_private_key_Ok & H)%bind_Ok)%bind_Ok.
  destruct (negb _); [done|]. apply bind_Ok in H as (auth & Ha & H).
  do 4 (match type of H with (if ?b then _ else _) = _ => destruct b; [done|] end). apply Ok_inj in H as <-. simpl.
  split_and!; try done; [|lia]. intros Hm. by eapply client_auth_Ok.
Qed.
End Facts.

Lemma st_bind_Ok {S E A B} (m : stateful S E A) (f : A → stateful S E B) s s' b :
  st_bind m f s = (s', Ok b) → ∃ s1 a, m s = (s1, Ok a) ∧ f a s1 = (s', Ok b).
Proof. unfold st_bind. destruct (m s) as [s1 [a|e|]]; [|done..]. intros H. by exists s1, a. Qed.
Lemma st_lift_Ok {S E A} (m : outcome E A) (s s' : S) a : st_lift m s = (s', Ok a) → m = Ok a ∧ s' = s.
Proof. unfold st_lift. by intros [= <- ->]. Qed.

Lemma open_when_Ok {A} (enabled : bool) (m : stateful FileSystem RelayError A) fs fs' r :
  open_when enabled m fs = (fs', Ok r) → is_Some r ↔ enabled = true.
Proof.
  unfold open_when. destruct enabled.
  - intros (fs1 & a & _ & H)%st_bind_Ok. injection H as <- <-. split; [done|by eexists].
  - intros [= <- <-]. split; [by intros []|done].
Qed.

(** What a verified endpoint offers is enough for what is admitted. *)
Lemma admitted_by_policy sha256 parse_certificate pem_certs io config fs auth c anchor_io allowlist clock a :
  sc_mode (cf_security config) = Verified → trusts pem_certs io config fs auth →
  admit_connection config sha256 parse_certificate pem_certs c anchor_io allowlist clock = Ok a →
  (∃ protocol, hs_handshake_data c = Some (IsType (Some protocol))
     ∧ protocol ∈ (if ec_enabled (cf_enrollment config)
                   then [QRM_RELAY_ALPN; QRM_ENROLLMENT_ALPN; QRM_BOOTSTRAP_ALPN] else [QRM_RELAY_ALPN]))
  ∧ (hs_peer_identity c = None → a = ServeBootstrap ∧ ∃ roots, auth = OptionalClientAuth roots).
Proof.
  intros Hm (clients & _ & _ & Ht) (protocol & Hp & Ha)%admit_connection_Ok. destruct a as [|id|peer].
  - destruct Ha as [-> He]. rewrite He in *. destruct Ht as (anchors & _ & ->). split; [|eauto].
    eexists. split; [done|]. by do 2 right; left.
  - destruct Ha as (-> & He & (leaf & issuers & ? & ? & ? & ? & Hl & _)). rewrite He. split; [|by rewrite Hl].
    eexists. split; [done|]. by right; left.
  - destruct Ha as [-> Ha]. rewrite Hm in Ha. destruct Ha as (leaf & issuers & ? & Hl & _). split; [|by rewrite Hl].
    eexists. split; [done|]. destruct (ec_enabled _); by left.
Qed.

Lemma load_relay_identity_Ok sha256 pem_certs io config fs identity :
  load_relay_identity sha256 pem_certs io config fs = Ok identity →
  ∃ certificates leaf, certificates_of pem_certs io (sc_server_certificate (cf_security config)) fs certificates
    ∧ head certificates = Some leaf ∧ identity = sha256 leaf.
Proof.
  unfold load_relay_identity. intros (cs & Hc%load_certificates_Ok & (leaf & Hl%ok_or_Ok & [= <-])%bind_Ok)%bind_Ok.
  by exists cs, leaf.
Qed.

(** * Properties *)

(** C37. What a started server stands for.  [bind] refuses every configuration that is not
    verified, without a look at the file system.  A server it gives has a non-zero generation
    and a configuration that passed every validation; its endpoint serves the certificates and
    the key of the protected files, demands a client certificate under the configured roots,
    and may do without one only when enrollment is enabled, offers enrollment and bootstrap
    only then, and allows each connection its sessions and one control stream; the identity
    it announces is the digest of the first certificate of its chain; it has an allowlist, and
    issuance results and a bootstrap runtime exactly when enrollment is enabled.  Whoever is
    admitted by it was offered the protocol, and a peer without a certificate gets nowhere
    but to bootstrap. *)
Theorem verified_server_policy {Key IpAddr} (parse_ip : list byte → option IpAddr) sha256 pem_certs
    (pem_private_key : list byte → option (option Key)) crates allowlist_to_vec allowlist_from_slice results_to_vec
    results_from_slice state_from_slice parse_certificate io config generation fs :
  let start := bind parse_ip sha256 pem_certs pem_private_key crates allowlist_to_vec allowlist_from_slice results_to_vec
                 results_from_slice state_from_slice io config generation fs in
  let enabled := ec_enabled (cf_enrollment config) in
  let chain := sc_server_certificate (cf_security config) in
  (sc_mode (cf_security config) ≠ Verified →
     start = (fs, Err (InvalidConfiguration "security.mode" "development_unverified is test-only")))
  ∧ ∀ fs' server, start = (fs', Ok server) →
      sc_mode (cf_security config) = Verified ∧ generation ≠ 0 ∧ RelayConfig_validate parse_ip config = Ok tt
      ∧ qr_config server = config ∧ qr_relay_generation server = generation
      ∧ qr_ca_generation server = sc_ca_generation (cf_security config) ∧ qr_permits server = new_permits config
      ∧ (∃ tls, qr_endpoint server = Some tls
           ∧ certificates_of pem_certs (si_load io ServerChain) chain fs (tl_certificates tls)
           ∧ key_of pem_private_key (si_load io ServerKey) (sc_server_private_key (cf_security config)) fs (tl_key tls)
           ∧ trusts pem_certs (si_load io) config fs (tl_client_auth tls)
           ∧ tl_max_concurrent_bidi_streams tls = rl_max_sessions_per_connection (cf_limits config) + 1
           ∧ (∀ c anchor_io allowlist clock a,
                admit_connection config sha256 parse_certificate pem_certs c anchor_io allowlist clock = Ok a →
                (∃ protocol, hs_handshake_data c = Some (IsType (Some protocol)) ∧ protocol ∈ tl_alpn_protocols tls)
                ∧ (hs_peer_identity c = None →
                     a = ServeBootstrap ∧ ∃ roots, tl_client_auth tls = OptionalClientAuth roots)))
      ∧ (∃ certificates leaf, certificates_of pem_certs (si_load io IdentityChain) chain fs certificates
           ∧ head certificates = Some leaf ∧ qr_relay_identity server = sha256 leaf)
      ∧ is_Some (qr_allowlist server)
      ∧ (is_Some (qr_issuance_results server) ↔ enabled = true) ∧ (is_Some (qr_bootstrap server) ↔ enabled = true).
Proof.
  intros start enabled chain. subst start. unfold bind. split; [intros Hm; by rewrite bool_decide_eq_true_2|].
  intros fs' server. case_bool_decide as Hm; [done|]. unfold bind_inner.
  intros (fs1 & a & [_ ->]%st_lift_Ok & H)%st_bind_Ok. apply st_bind_Ok in H as (fs2 & fs2' & [= <- <-] & H).
  apply st_bind_Ok in H as (fs3 & tls & [Htls ->]%st_lift_Ok & H). apply st_bind_Ok in H as (fs4 & [] & [_ ->]%st_lift_Ok & H).
  apply st_bind_Ok in H as (fs5 & identity & [Hid ->]%st_lift_Ok & H).
  apply st_bind_Ok in H as (fs6 & [[allowlist results] bootstrap] & Hst & H). apply st_lift_Ok in H as [H ->].
  unfold new_inner in H. destruct (Z.eqb_spec generation 0); [done|]. apply bind_Ok in H as ([] & Hv & H). apply Ok_inj in H as <-.
  apply build_server_config_Ok in Htls as (Hc & Hk & Ht & Ha & _ & Hb & _). specialize (Ht Hm).
  unfold open_stores in Hst. rewrite bool_decide_eq_false_2 in Hst by (intros Hx; by destruct Hx).
  apply st_bind_Ok in Hst as (fs7 & uid & _ & Hst). apply st_bind_Ok in Hst as (fs8 & al & _ & Hst).
  apply st_bind_Ok in Hst as (fs9 & rs & Hrs%open_when_Ok & Hst). apply st_bind_Ok in Hst as (fs10 & bs & Hbs%open_when_Ok & Hst).
  injection Hst as <- <- <- <-. simpl.
  split_and!; try done.
  - exists tls. split_and!; try done. intros c aio alr clock a' Hal. rewrite Ha. by eapply admitted_by_policy.
  - by apply load_relay_identity_Ok in Hid.
Qed.

Definition startup_config : RelayConfig :=
  let c := example_relay_config in
  {| cf_listener := cf_listener c;
     cf_security :=
       {| sc_mode := Verified; sc_ca_generation := default_ca_generation; sc_server_certificate := example_path;
          sc_server_private_key := example_path; sc_trusted_client_ca := example_path;
          sc_trusted_core_enrollment_ca := example_path; sc_core_enrollment_intermediate_certificate := example_path;
          sc_core_enrollment_intermediate_private_key := example_path; sc_device_intermediate_certificate := example_path;
          sc_device_intermediate_private_key := example_path; sc_public_root_certificate := example_path |};
     cf_limits := cf_limits c;
     cf_enrollment :=
       {| ec_enabled := false; ec_allowlist_path := example_path; ec_issuance_result_path := example_path;
          ec_bootstrap_state_path := example_path; ec_max_handshakes := 16; ec_max_connections := 8;
          ec_max_request_bytes := 1; ec_max_csr_bytes := 1; ec_connection_lifetime_secs := 1; ec_challenge_ttl_secs := 1;
          ec_bootstrap_session := default_bootstrap_session;
          ec_bootstrap_verification_cwd := default_bootstrap_verification_cwd |};
     cf_update := cf_update c |}.
Definition startup_io : StartIo :=
  let five := Some (true, str_lit "5") in
  {| si_load := λ _, {| ld_id_output := five; ld_material := Material.sound_io 5 |}; si_bind := None; si_id_output := five;
     si_allowlist := example_io; si_results := example_io; si_socket_accepted := true; si_state_open := Material.sound_io 5;
     si_state := {| pi_material := Material.sound_io 5; pi_lock_open_fails := false; pi_lock_held := false;
                    pi_exists_fails := false; pi_remove_fails := false |} |}.
Definition startup_crates : TlsCrates unit :=
  {| tc_tls13 := true; tc_root := λ _, true; tc_verifier := λ _ _, true; tc_single_cert := λ _ _, true; tc_quic := true;
     tc_transport_owned := true; tc_idle_timeout := λ _, true; tc_stream_limit := λ _, true |}.

Definition startup_result : FileSystem * relay_result (QuicRelayServer unit) :=
  bind Some id (λ bytes, [Some bytes]) (λ _, Some (Some tt)) startup_crates example_to_vec example_from_slice
    (λ _, None) (λ _, None) (λ _, None) startup_io startup_config 1 example_fs.

Lemma verified_server_policy_witness :
  ∃ fs' server tls, startup_result = (fs', Ok server)
    ∧ qr_endpoint server = Some tls ∧ tl_client_auth tls = RequiredClientAuth [str_lit "old"]
    ∧ qr_relay_identity server = str_lit "old" ∧ is_Some (qr_allowlist server).
Proof.
  assert (Hs : ∃ fs' server, startup_result = (fs', Ok server)).
  { assert (Hok : is_ok startup_result.2 = true) by (vm_compute; reflexivity).
    destruct startup_result as [fs' [server|e|]]; [exists fs', server; reflexivity|discriminate Hok|discriminate Hok]. }
  destruct Hs as (fs' & server & Hs).
  assert (Hc : match startup_result.2 with
               | Ok server => (tl_client_auth <$> qr_endpoint server, qr_relay_identity server)
               | _ => (None, []) end = (Some (RequiredClientAuth [str_lit "old"]), str_lit "old")) by (vm_compute; reflexivity).
  rewrite Hs in Hc. injection Hc as Ha Hid.
  destruct (verified_server_policy Some id (λ bytes, [Some bytes]) (λ _, Some (Some tt)) startup_crates example_to_vec
    example_from_slice (λ _, None) (λ _, None) (λ _, None) (λ _, None) startup_io startup_config 1 example_fs) as [_ H].
  destruct (H fs' server Hs) as (_ & _ & _ & _ & _ & _ & _ & (tls & Htls & _) & _ & Hal & _).
  exists fs', server, tls. split; [exact Hs|]. split; [exact Htls|].
  change ((λ x, tl_client_auth <$> x) (qr_endpoint server) = Some (RequiredClientAuth [str_lit "old"])) in Ha.
  rewrite Htls in Ha. split; [injection Ha as Ha; exact Ha|]. split; [exact Hid|exact Hal].
Defined.
