(* ===== verification/QrmServer.v ===== *)
(** * The accept loop of the QUIC server (src/src/quic_server.rs, serve_until)

    Every incoming connection is a task with the semaphore permits it holds: one for its
    handshake, then one for a QRM connection, or the two of its enrollment handler.  The loop,
    the tasks and the shutdown interleave.  What a task does once it serves is the subject of
    [QrmConnection], [Hdb1Server] and [Hde3Server]; here it serves until it ends. *)
From S2P Require Export QrmStartup.

(** [Spawned]: before its first look at the drain; [Admitting]: the handshake is done, and
    [serve_connection] decides. *)
Inductive TaskStage : Type :=
| Spawned
| Handshaking
| Admitting (c : Handshaken)
| Serving (c : Handshaken) (a : Admission).

Record ServerTask : Type := {
  tk_stage : TaskStage;
  tk_permits : list Permit;
}.

Inductive ServePoint : Type := Accepting | Draining | Stopped.

(** [sv_unjoined]: the tasks that ended and were not joined. *)
Record ServeState : Type := {
  sv_point : ServePoint;
  sv_drain : bool;
  sv_available : Permit → Z;
  sv_tasks : gmap nat ServerTask;
  sv_next : nat;
  sv_unjoined : nat;
}.

Definition sv_set_available (f : Permit → Z) (s : ServeState) : ServeState :=
  {| sv_point := sv_point s; sv_drain := sv_drain s; sv_available := f; sv_tasks := sv_tasks s; sv_next := sv_next s;
     sv_unjoined := sv_unjoined s |}.
Definition sv_set_tasks (tasks : gmap nat ServerTask) (s : ServeState) : ServeState :=
  {| sv_point := sv_point s; sv_drain := sv_drain s; sv_available := sv_available s; sv_tasks := tasks; sv_next := sv_next s;
     sv_unjoined := sv_unjoined s |}.
Definition sv_set_unjoined (n : nat) (s : ServeState) : ServeState :=
  {| sv_point := sv_point s; sv_drain := sv_drain s; sv_available := sv_available s; sv_tasks := sv_tasks s; sv_next := sv_next s;
     sv_unjoined := n |}.
Definition sv_set_next (n : nat) (s : ServeState) : ServeState :=
  {| sv_point := sv_point s; sv_drain := sv_drain s; sv_available := sv_available s; sv_tasks := sv_tasks s; sv_next := n;
     sv_unjoined := sv_unjoined s |}.
Definition sv_set_point (point : ServePoint) (drain : bool) (s : ServeState) : ServeState :=
  {| sv_point := point; sv_drain := drain; sv_available := sv_available s; sv_tasks := sv_tasks s; sv_next := sv_next s;
     sv_unjoined := sv_unjoined s |}.

(** ** Permits *)
Definition permit_count (p : Permit) (permits : list Permit) : Z := len (filter (p =.) permits).

Definition try_acquire (p : Permit) (available : Permit → Z) : option (Permit → Z) :=
  if 0 <? available p then Some (λ q, available q - permit_count q [p]) else None.
Definition drop_permits (permits : list Permit) (available : Permit → Z) : Permit → Z :=
  λ q, available q + permit_count q permits.

(** One permit after the other; when one is not to be had, those before it are dropped again. *)
Fixpoint try_acquire_all (permits : list Permit) (available : Permit → Z) : option (Permit → Z) :=
  match permits with
  | [] => Some available
  | p :: permits => available ← try_acquire p available; try_acquire_all permits available
  end.

(** ** The loop *)
Definition serve_start (permits : Permit → Z) : ServeState :=
  {| sv_point := Accepting; sv_drain := false; sv_available := permits; sv_tasks := ∅; sv_next := 0; sv_unjoined := 0 |}.

(** [endpoint.accept()] gave a connection; it is refused when no handshake permit is left. *)
Definition accept_incoming (s : ServeState) : ServeState :=
  match try_acquire PreAuthHandshakes (sv_available s) with
  | None => s
  | Some available =>
      sv_set_available available
        (sv_set_next (S (sv_next s))
           (sv_set_tasks (<[sv_next s := {| tk_stage := Spawned; tk_permits := [PreAuthHandshakes] |}]> (sv_tasks s)) s))
  end.

Definition begin_shutdown_drain (s : ServeState) : ServeState := sv_set_point Draining true s.

(** [abort_all] and the joins; or the loop returns and its tasks are dropped. *)
Definition stop_serving (s : ServeState) : ServeState :=
  sv_set_point Stopped (sv_drain s)
    (sv_set_available (drop_permits (map_to_list (sv_tasks s) ≫= λ t, tk_permits t.2) (sv_available s))
       (sv_set_unjoined 0 (sv_set_tasks ∅ s))).

Definition join_server_task (s : ServeState) : ServeState := sv_set_unjoined (pred (sv_unjoined s)) s.

(** ** The tasks *)
Definition finish_server_task (id : nat) (t : ServerTask) (s : ServeState) : ServeState :=
  sv_set_available (drop_permits (tk_permits t) (sv_available s))
    (sv_set_unjoined (S (sv_unjoined s)) (sv_set_tasks (delete id (sv_tasks s)) s)).

Definition advance_task (id : nat) (t : ServerTask) (available : Permit → Z) (s : ServeState) : ServeState :=
  sv_set_available available (sv_set_tasks (<[id := t]> (sv_tasks s)) s).

Definition first_poll (id : nat) (t : ServerTask) (s : ServeState) : ServeState :=
  if sv_drain s then finish_server_task id t s
  else advance_task id {| tk_stage := Handshaking; tk_permits := tk_permits t |} (sv_available s) s.

Definition is_pre_auth (c : Handshaken) : bool :=
  match negotiated_alpn c with
  | Ok protocol => bool_decide (protocol = QRM_ENROLLMENT_ALPN) || bool_decide (protocol = QRM_BOOTSTRAP_ALPN)
  | _ => false
  end.

(** The handshake permit is dropped, and a connection that is not for enrollment needs one of
    the connection permits. *)
Definition handshake_done (id : nat) (t : ServerTask) (c : Handshaken) (s : ServeState) : ServeState :=
  let available := drop_permits (tk_permits t) (sv_available s) in
  if is_pre_auth c then advance_task id {| tk_stage := Admitting c; tk_permits := [] |} available s
  else
    match try_acquire Connections available with
    | None => finish_server_task id t s
    | Some available => advance_task id {| tk_stage := Admitting c; tk_permits := [Connections] |} available s
    end.

(** What a handler acquires before anything else. *)
Definition handler_permits (a : Admission) : list Permit :=
  match a with
  | ServeBootstrap => [BootstrapHandshakes; BootstrapConnections]
  | ServeEnrollment _ => [EnrollmentHandshakes; EnrollmentConnections]
  | ServeQrm _ => []
  end.
Definition handler_present (bootstrap_present : bool) (a : Admission) : bool :=
  match a with ServeQrm _ => true | _ => bootstrap_present end.

Definition enter_handler (bootstrap_present : bool) (id : nat) (t : ServerTask) (c : Handshaken)
    (decision : relay_result Admission) (s : ServeState) : ServeState :=
  match decision with
  | Ok a =>
      match (if handler_present bootstrap_present a then try_acquire_all (handler_permits a) (sv_available s) else None) with
      | Some available =>
          advance_task id {| tk_stage := Serving c a; tk_permits := tk_permits t ++ handler_permits a |} available s
      | None => finish_server_task id t s
      end
  | _ => finish_server_task id t s
  end.

(** ** What a task is busy with *)
Definition in_handshake (t : ServerTask) : bool :=
  match tk_stage t with Spawned | Handshaking => true | _ => false end.
Definition serves_qrm (t : ServerTask) : bool := match tk_stage t with Serving _ (ServeQrm _) => true | _ => false end.
Definition serves_bootstrap (t : ServerTask) : bool := match tk_stage t with Serving _ ServeBootstrap => true | _ => false end.
Definition serves_enrollment (t : ServerTask) : bool :=
  match tk_stage t with Serving _ (ServeEnrollment _) => true | _ => false end.

Section Steps.
Context (config : RelayConfig) (bootstrap_present : bool).
Context (sha256 : list byte → list byte) (parse_certificate : list byte → option ParsedCertificate)
  (pem_certs : list byte → list (option (list byte))).

Abbreviation decide_admission := (admit_connection config sha256 parse_certificate pem_certs).

Inductive serve_step (s : ServeState) : ServeState → Prop :=
| serve_incoming : sv_point s = Accepting → serve_step s (accept_incoming s)
| serve_shutdown : sv_point s = Accepting → serve_step s (begin_shutdown_drain s)
| serve_endpoint_closed : sv_point s = Accepting → serve_step s (stop_serving s)
| serve_joined : sv_point s ≠ Stopped → sv_unjoined s ≠ 0%nat → serve_step s (join_server_task s)
| serve_drained : sv_point s = Draining → sv_tasks s = ∅ → sv_unjoined s = 0%nat → serve_step s (stop_serving s)
| serve_deadline : sv_point s = Draining → serve_step s (stop_serving s)
| serve_polled id t :
    sv_tasks s !! id = Some t → tk_stage t = Spawned → serve_step s (first_poll id t s)
| serve_handshake_drained id t :
    sv_tasks s !! id = Some t → tk_stage t = Handshaking → sv_drain s = true → serve_step s (finish_server_task id t s)
| serve_handshake_failed id t :
    sv_tasks s !! id = Some t → tk_stage t = Handshaking → serve_step s (finish_server_task id t s)
| serve_handshake_done id t c :
    sv_tasks s !! id = Some t → tk_stage t = Handshaking → serve_step s (handshake_done id t c s)
| serve_admitted id t c io allowlist clock :
    sv_tasks s !! id = Some t → tk_stage t = Admitting c →
    serve_step s (enter_handler bootstrap_present id t c (decide_admission c io allowlist clock) s)
| serve_ended id t c a :
    sv_tasks s !! id = Some t → tk_stage t = Serving c a → serve_step s (finish_server_task id t s).
End Steps.

(** * Facts *)

(** ** Counting permits *)
Definition held (p : Permit) (tasks : gmap nat ServerTask) : Z :=
  map_fold (λ _ t n, permit_count p (tk_permits t) + n) 0 tasks.

Lemma permit_count_app p l1 l2 : permit_count p (l1 ++ l2) = permit_count p l1 + permit_count p l2.
Proof. unfold permit_count, len. rewrite filter_app, length_app. lia. Qed.
#[export] Instance permit_count_permutation p : Proper ((≡ₚ) ==> eq) (permit_count p).
Proof. intros l1 l2 Hl. unfold permit_count, len. by rewrite Hl. Qed.
Lemma permit_count_nonneg p l : 0 ≤ permit_count p l.
Proof. unfold permit_count, len. lia. Qed.
Lemma permit_count_in p l : p ∈ l → 1 ≤ permit_count p l.
Proof.
  intros Hin. unfold permit_count, len.
  assert (p ∈ filter (p =.) l) as Hf by by apply list_elem_of_filter. destruct (filter _ l); [by apply not_elem_of_nil in Hf|].
  simpl. lia.
Qed.

Lemma held_empty p : held p ∅ = 0.
Proof. apply map_fold_empty. Qed.
Lemma held_insert p tasks id t :
  tasks !! id = None → held p (<[id := t]> tasks) = permit_count p (tk_permits t) + held p tasks.
Proof.
  intros Hn. apply (map_fold_insert_L (λ _ t n, permit_count p (tk_permits t) + n) 0 id t tasks); [|done]. intros. lia.
Qed.
Lemma held_delete p tasks id t :
  tasks !! id = Some t → held p tasks = permit_count p (tk_permits t) + held p (delete id tasks).
Proof. intros Ht. rewrite <-(held_insert p _ id t) by apply lookup_delete_eq. by rewrite insert_delete_id. Qed.
Lemma held_update p tasks id t t' :
  tasks !! id = Some t →
  held p (<[id := t']> tasks) = held p tasks - permit_count p (tk_permits t) + permit_count p (tk_permits t').
Proof.
  intros Ht. rewrite <-insert_delete_eq, held_insert by apply lookup_delete_eq. rewrite (held_delete p tasks id t) by done. lia.
Qed.
Lemma held_concat p tasks : permit_count p (map_to_list tasks ≫= λ t, tk_permits t.2) = held p tasks.
Proof.
  induction tasks as [|id t tasks Hn IH] using map_ind; [by rewrite map_to_list_empty, held_empty|].
  rewrite held_insert, <-IH by done. rewrite map_to_list_insert by done. simpl. by rewrite permit_count_app.
Qed.

(** The tasks that hold a permit are at most as many as the permits held. *)
Lemma holders_bounded p (P : ServerTask → Prop) `{!∀ t, Decision (P t)} tasks :
  (∀ id t, tasks !! id = Some t → P t → p ∈ tk_permits t) →
  map_len (filter (λ kt, P kt.2) tasks) ≤ held p tasks.
Proof.
  induction tasks as [|id t tasks Hn IH] using map_ind; intros HP; [by rewrite map_filter_empty, held_empty|].
  rewrite held_insert by done.
  assert (IH' : map_len (filter (λ kt, P kt.2) tasks) ≤ held p tasks).
  { apply IH. intros id' t' Ht'. apply (HP id'). rewrite lookup_insert_ne; [done|]. intros <-. congruence. }
  pose proof (permit_count_nonneg p (tk_permits t)).
  destruct (decide (P t)) as [Hp|Hp].
  - rewrite map_filter_insert_True by done. rewrite map_len_insert_new by (rewrite map_lookup_filter_None; by left).
    pose proof (permit_count_in p _ (HP id t (lookup_insert_eq _ _ _) Hp)). lia.
  - rewrite map_filter_insert_False by done. rewrite delete_id by done. lia.
Qed.

Lemma permit_count_nil p : permit_count p [] = 0.
Proof. done. Qed.
Lemma permit_count_single p q : permit_count q [p] = if bool_decide (q = p) then 1 else 0.
Proof. unfold permit_count, len. rewrite filter_cons, filter_nil. case_bool_decide; by destruct (decide _). Qed.

Lemma try_acquire_all_Some permits available available' :
  try_acquire_all permits available = Some available' → (∀ q, 0 ≤ available q) →
  ∀ q, available' q = available q - permit_count q permits ∧ 0 ≤ available' q.
Proof.
  revert available. induction permits as [|p permits IH]; intros available H Hn q.
  - injection H as <-. specialize (Hn q). rewrite permit_count_nil. lia.
  - simpl in H. unfold try_acquire in H. destruct (Z.ltb_spec 0 (available p)); [|done]. simpl in H.
    destruct (IH _ H) with (q := q) as [Hq Hq0].
    { intros q'. rewrite permit_count_single. specialize (Hn q'). case_bool_decide; subst; lia. }
    split; [|done]. rewrite Hq. change (p :: permits) with ([p] ++ permits). rewrite permit_count_app. lia.
Qed.

Lemma try_acquire_Some p available available' :
  try_acquire p available = Some available' → (∀ q, 0 ≤ available q) →
  ∀ q, available' q = available q - permit_count q [p] ∧ 0 ≤ available' q.
Proof. intros H. apply (try_acquire_all_Some [p]). simpl. by rewrite H. Qed.

(** ** The invariant *)
Section Invariant.
Context (config : RelayConfig) (bootstrap_present : bool) (permits : Permit → Z).
Context (sha256 : list byte → list byte) (parse_certificate : list byte → option ParsedCertificate)
  (pem_certs : list byte → list (option (list byte))).

Abbreviation step := (serve_step config bootstrap_present sha256 parse_certificate pem_certs).

(** The decision the connection was admitted with. *)
Definition admitted_as (c : Handshaken) (a : Admission) : Prop :=
  ∃ io allowlist clock, admit_connection config sha256 parse_certificate pem_certs c io allowlist clock = Ok a.

Definition connection_permits (c : Handshaken) : list Permit := if is_pre_auth c then [] else [Connections].

Definition server_task_wf (t : ServerTask) : Prop :=
  match tk_stage t with
  | Spawned | Handshaking => tk_permits t = [PreAuthHandshakes]
  | Admitting c => tk_permits t = connection_permits c
  | Serving c a => tk_permits t = connection_permits c ++ handler_permits a ∧ admitted_as c a
  end.

Record serve_wf (s : ServeState) : Prop := {
  vw_permits : ∀ p, 0 ≤ sv_available s p ∧ sv_available s p + held p (sv_tasks s) = permits p;
  vw_tasks : ∀ id t, sv_tasks s !! id = Some t → server_task_wf t;
  vw_fresh : ∀ id t, sv_tasks s !! id = Some t → (id < sv_next s)%nat;
  vw_stopped : sv_point s = Stopped → sv_tasks s = ∅;
}.

Lemma serve_start_wf : (∀ p, 0 ≤ permits p) → serve_wf (serve_start permits).
Proof.
  intros Hp. split; simpl; [|intros ? ?; by rewrite lookup_empty..|done].
  intros p. rewrite held_empty. specialize (Hp p). lia.
Qed.

Lemma finish_server_task_wf s id t : serve_wf s → sv_tasks s !! id = Some t → serve_wf (finish_server_task id t s).
Proof.
  intros [Hp Ht Hf Hs] Hid. split; simpl.
  - intros p. destruct (Hp p) as [H0 H1]. rewrite (held_delete p _ _ _ Hid) in H1. unfold drop_permits.
    pose proof (permit_count_nonneg p (tk_permits t)). lia.
  - intros id' t' [_ H]%lookup_delete_Some. eauto.
  - intros id' t' [_ H]%lookup_delete_Some. eauto.
  - intros Hst. rewrite (Hs Hst). apply delete_empty.
Qed.

Lemma advance_task_wf s id t t' available :
  serve_wf s → sv_tasks s !! id = Some t → server_task_wf t' →
  (∀ p, 0 ≤ available p
        ∧ available p = sv_available s p + permit_count p (tk_permits t) - permit_count p (tk_permits t')) →
  serve_wf (advance_task id t' available s).
Proof.
  intros [Hp Ht Hf Hs] Hid Hwf Ha. split; simpl.
  - intros p. destruct (Ha p), (Hp p). rewrite (held_update _ _ _ _ _ Hid). lia.
  - intros id' t0. rewrite lookup_insert. destruct (decide (id = id')); [by intros [= <-]|apply Ht].
  - intros id' t0. rewrite lookup_insert. destruct (decide (id = id')) as [<-|]; [|apply Hf]. intros _. by eapply Hf.
  - intros Hst. by rewrite (Hs Hst), lookup_empty in Hid.
Qed.

Lemma stop_serving_wf s : serve_wf s → serve_wf (stop_serving s).
Proof.
  intros [Hp _ _ _]. split; simpl; [|intros ? ?; by rewrite lookup_empty..|done].
  intros p. destruct (Hp p). unfold drop_permits. rewrite held_concat, held_empty.
  assert (0 ≤ held p (sv_tasks s)) by (rewrite <-held_concat; apply permit_count_nonneg). lia.
Qed.

Lemma accept_incoming_wf s : sv_point s = Accepting → serve_wf s → serve_wf (accept_incoming s).
Proof.
  intros Hpt Hwf. destruct (Hwf) as [Hp Ht Hf _]. unfold accept_incoming. destruct (try_acquire _ _) as [a|] eqn:Ha; [|done].
  assert (Hn : sv_tasks s !! sv_next s = None) by (apply eq_None_not_Some; intros [t H]; apply Hf in H; lia).
  pose proof (try_acquire_Some _ _ _ Ha (λ q, proj1 (Hp q))) as Haq. split; simpl.
  - intros p. destruct (Haq p) as [H1 H2], (Hp p) as [_ H3]. rewrite held_insert by done. simpl. lia.
  - intros id t. rewrite lookup_insert. destruct (decide (sv_next s = id)); [by intros [= <-]|apply Ht].
  - intros id t. rewrite lookup_insert. destruct (decide (sv_next s = id)); [lia|]. intros H. apply Hf in H. lia.
  - by rewrite Hpt.
Qed.

Lemma first_poll_wf s id t :
  serve_wf s → sv_tasks s !! id = Some t → tk_stage t = Spawned → serve_wf (first_poll id t s).
Proof.
  intros Hwf Hid Hs. unfold first_poll. destruct (sv_drain s); [by apply finish_server_task_wf|].
  pose proof (vw_tasks _ Hwf _ _ Hid) as Ht. unfold server_task_wf in Ht. rewrite Hs in Ht.
  apply (advance_task_wf _ _ t); [done|done|done|]. intros p. destruct (vw_permits _ Hwf p). simpl. lia.
Qed.

Lemma handshake_done_wf s id t c :
  serve_wf s → sv_tasks s !! id = Some t → tk_stage t = Handshaking → serve_wf (handshake_done id t c s).
Proof.
  intros Hwf Hid Hs. unfold handshake_done.
  assert (Hr : ∀ q, 0 ≤ drop_permits (tk_permits t) (sv_available s) q).
  { intros q. unfold drop_permits. destruct (vw_permits _ Hwf q). pose proof (permit_count_nonneg q (tk_permits t)). lia. }
  destruct (is_pre_auth c) eqn:Hpre.
  - apply (advance_task_wf _ _ t); [done|done| |]. { unfold server_task_wf, connection_permits. simpl. by rewrite Hpre. }
    intros p. specialize (Hr p). unfold drop_permits in *. simpl. rewrite permit_count_nil. lia.
  - destruct (try_acquire _ _) as [a|] eqn:Ha; [|by apply finish_server_task_wf].
    pose proof (try_acquire_Some _ _ _ Ha Hr) as Haq.
    apply (advance_task_wf _ _ t); [done|done| |]. { unfold server_task_wf, connection_permits. simpl. by rewrite Hpre. }
    intros p. destruct (Haq p) as [-> H0]. split; [lia|]. unfold drop_permits. simpl. lia.
Qed.

Lemma enter_handler_wf s id t c decision :
  serve_wf s → sv_tasks s !! id = Some t → tk_stage t = Admitting c →
  (∀ a, decision = Ok a → admitted_as c a) → serve_wf (enter_handler bootstrap_present id t c decision s).
Proof.
  intros Hwf Hid Hs Hd. unfold enter_handler. destruct decision as [a|e|]; [|by apply finish_server_task_wf..].
  destruct (handler_present _ a); [|by apply finish_server_task_wf].
  destruct (try_acquire_all _ _) as [av|] eqn:Ha; [|by apply finish_server_task_wf].
  pose proof (try_acquire_all_Some _ _ _ Ha (λ q, proj1 (vw_permits _ Hwf q))) as Haq.
  pose proof (vw_tasks _ Hwf _ _ Hid) as Ht. unfold server_task_wf in Ht. rewrite Hs in Ht.
  apply (advance_task_wf _ _ t); [done|done| |].
  - unfold server_task_wf. simpl. rewrite Ht. auto.
  - intros p. destruct (Haq p) as [-> H0]. split; [done|]. simpl. rewrite permit_count_app. lia.
Qed.

Lemma serve_step_wf s s' : serve_wf s → step s s' → serve_wf s'.
Proof.
  intros Hwf Hstep. destruct Hstep; auto using accept_incoming_wf, stop_serving_wf, finish_server_task_wf, first_poll_wf,
    handshake_done_wf.
  - by destruct Hwf.
  - by destruct Hwf.
  - apply enter_handler_wf; [done..|]. intros a Ha. unfold admitted_as. eauto.
Qed.

Lemma serve_reachable_wf s s' : serve_wf s → rtc step s s' → serve_wf s'.
Proof. intros Hwf. induction 1; eauto using serve_step_wf. Qed.

(** ** After the shutdown *)
Lemma no_new_tasks s s' :
  serve_wf s → sv_point s ≠ Accepting → step s s' →
  sv_point s' ≠ Accepting ∧ ∀ id, is_Some (sv_tasks s' !! id) → is_Some (sv_tasks s !! id).
Proof.
  assert (Hdel : ∀ (m : gmap nat ServerTask) i id, is_Some (delete i m !! id) → is_Some (m !! id)).
  { intros m i id [t [_ H]%lookup_delete_Some]. by exists t. }
  assert (Hins : ∀ (m : gmap nat ServerTask) i t t' id, m !! i = Some t → is_Some (<[i := t']> m !! id) → is_Some (m !! id)).
  { intros m i t t' id Hm [x H]. rewrite lookup_insert in H. destruct (decide (i = id)) as [<-|]; eauto. }
  intros Hwf Hpt Hstep. destruct Hstep; try done; simpl.
  - split; [done|]. intros id. by rewrite lookup_empty, is_Some_alt.
  - split; [done|]. intros id. by rewrite lookup_empty, is_Some_alt.
  - unfold first_poll. destruct (sv_drain s); simpl; (split; [done|]); intros id'; [apply Hdel|by eapply Hins].
  - split; [done|]. intros id'. apply Hdel.
  - split; [done|]. intros id'. apply Hdel.
  - unfold handshake_done. destruct (is_pre_auth c); [|destruct (try_acquire _ _)]; simpl; (split; [done|]); intros id';
      first [apply Hdel|by eapply Hins].
  - unfold enter_handler. destruct (admit_connection _ _ _ _ _ _ _ _) as [a|e|]; simpl; [|split; [done|]; intros id'; apply Hdel..].
    destruct (if handler_present _ _ then _ else _); simpl; (split; [done|]); intros id'; first [apply Hdel|by eapply Hins].
  - split; [done|]. intros id'. apply Hdel.
Qed.

Lemma no_new_tasks_ever s s' :
  serve_wf s → sv_point s ≠ Accepting → rtc step s s' →
  sv_point s' ≠ Accepting ∧ ∀ id, is_Some (sv_tasks s' !! id) → is_Some (sv_tasks s !! id).
Proof.
  intros Hwf Hpt Hrun. induction Hrun as [|s s1 s2 Hstep _ IH]; [done|].
  destruct (no_new_tasks _ _ Hwf Hpt Hstep) as [H1 H2].
  destruct (IH (serve_step_wf _ _ Hwf Hstep) H1) as [H3 H4]. auto.
Qed.

(** ** What a serving task holds *)
Lemma admitted_qrm_connection c peer : admitted_as c (ServeQrm peer) → connection_permits c = [Connections].
Proof.
  intros (io & allowlist & clock & (protocol & Hp & -> & _)%admit_connection_Ok).
  unfold connection_permits, is_pre_auth, negotiated_alpn. by rewrite Hp.
Qed.
End Invariant.

(** * Properties *)

(** C38. The server is never overrun.  Whatever connections come in, fail, are served and end,
    and whenever the shutdown begins: there are no more handshakes, QRM connections,
    bootstrap and enrollment connections at a time than configured, each kind with permits of
    its own, and no permit is ever lost; every connection that is served was admitted as what
    it is served as.  Once the shutdown has begun no connection is added, a connection that
    was not yet looked at is turned away, the server can stop at its deadline whatever the
    connections do, and when it has stopped no connection is left and every permit is back. *)
Theorem server_admission_bounded config bootstrap_present sha256 parse_certificate pem_certs s :
  (∀ p, 0 ≤ new_permits config p) →
  let step := serve_step config bootstrap_present sha256 parse_certificate pem_certs in
  rtc step (serve_start (new_permits config)) s →
  let count P := map_len (filter (λ kt, P kt.2 = true) (sv_tasks s)) in
  (count in_handshake ≤ new_permits config PreAuthHandshakes
   ∧ count serves_qrm ≤ rl_max_connections (cf_limits config)
   ∧ count serves_bootstrap ≤ ec_max_connections (cf_enrollment config)
   ∧ count serves_enrollment ≤ ec_max_connections (cf_enrollment config))
  ∧ (∀ p, 0 ≤ sv_available s p ∧ sv_available s p + held p (sv_tasks s) = new_permits config p)
  ∧ (∀ id t c a, sv_tasks s !! id = Some t → tk_stage t = Serving c a →
       admitted_as config sha256 parse_certificate pem_certs c a)
  ∧ (sv_point s ≠ Accepting → ∀ s', rtc step s s' →
       sv_point s' ≠ Accepting ∧ ∀ id, is_Some (sv_tasks s' !! id) → is_Some (sv_tasks s !! id))
  ∧ (sv_drain s = true → ∀ id t, sv_tasks s !! id = Some t → tk_stage t = Spawned →
       step s (finish_server_task id t s))
  ∧ (sv_point s = Draining → step s (stop_serving s))
  ∧ (sv_point s = Stopped → sv_tasks s = ∅ ∧ ∀ p, sv_available s p = new_permits config p).
Proof.
  intros Hn step Hrun count.
  pose proof (serve_reachable_wf _ bootstrap_present _ _ _ _ _ _ (serve_start_wf config _ sha256 parse_certificate pem_certs Hn) Hrun) as Hwf.
  assert (Hheld : ∀ p P, (∀ t, server_task_wf config sha256 parse_certificate pem_certs t → P t = true → p ∈ tk_permits t) →
    count P ≤ new_permits config p).
  { intros p P HP. destruct (vw_permits _ _ _ _ _ _ Hwf p) as [H0 H1].
    pose proof (holders_bounded p (λ t, P t = true) (sv_tasks s)) as Hb. unfold count. etrans; [apply Hb|lia].
    intros id t Ht. apply HP. by eapply vw_tasks. }
  split_and!.
  - apply Hheld. unfold server_task_wf, in_handshake. intros t Ht. destruct (tk_stage t); try done; rewrite Ht; by left.
  - apply (Hheld Connections). unfold server_task_wf, serves_qrm. intros t Ht. destruct (tk_stage t) as [| |c|c []]; try done.
    destruct Ht as [-> Ha%admitted_qrm_connection]. rewrite Ha. by left.
  - apply (Hheld BootstrapConnections). unfold server_task_wf, serves_bootstrap. intros t Ht.
    destruct (tk_stage t) as [| |c|c []]; try done. destruct Ht as [-> _]. intros _. apply elem_of_app. right. simpl. set_solver.
  - apply (Hheld EnrollmentConnections). unfold server_task_wf, serves_enrollment. intros t Ht.
    destruct (tk_stage t) as [| |c|c []]; try done. destruct Ht as [-> _]. intros _. apply elem_of_app. right. simpl. set_solver.
  - apply Hwf.
  - intros id t c a Hid Hs. pose proof (vw_tasks _ _ _ _ _ _ Hwf _ _ Hid) as Ht. unfold server_task_wf in Ht. rewrite Hs in Ht.
    apply Ht.
  - intros Hpt s' Hrun'. by eapply no_new_tasks_ever.
  - intros Hd id t Hid Hs. pose proof (serve_polled config bootstrap_present sha256 parse_certificate pem_certs s id t Hid Hs) as H.
    unfold first_poll in H. by rewrite Hd in H.
  - apply serve_deadline.
  - intros Hst. pose proof (vw_stopped _ _ _ _ _ _ Hwf Hst) as He. split; [done|]. intros p.
    destruct (vw_permits _ _ _ _ _ _ Hwf p) as [_ H]. rewrite He, held_empty in H. lia.
Qed.

Lemma server_admission_bounded_witness :
  let peer := {| hs_handshake_data := Some (IsType (Some QRM_RELAY_ALPN));
                 hs_peer_identity := Some (IsType [str_lit "fp"; str_lit "ca"]) |} in
  let io := {| an_id_output := None; an_material := Material.sound_io 501; an_fs := ∅; an_fs_open := ∅ |} in
  ∃ s, rtc (serve_step example_relay_config true id (λ _, None) (λ _, [])) (serve_start (new_permits example_relay_config)) s
    ∧ map_len (filter (λ kt, serves_qrm kt.2 = true) (sv_tasks s)) = 1
    ∧ sv_available s Connections = 63 ∧ held Connections (sv_tasks s) = 1.
Proof.
  intros peer io.
  pose (s1 := accept_incoming (serve_start (new_permits example_relay_config))).
  pose (t1 := {| tk_stage := Spawned; tk_permits := [PreAuthHandshakes] |}).
  pose (t2 := {| tk_stage := Handshaking; tk_permits := [PreAuthHandshakes] |}).
  pose (t3 := {| tk_stage := Admitting peer; tk_permits := [Connections] |}).
  pose (s2 := first_poll 0 t1 s1). pose (s3 := handshake_done 0 t2 peer s2).
  pose (decision := admit_connection example_relay_config id (λ _, None) (λ _, []) peer io (Some qrm_demo_allowlist) (Some 50)).
  pose (s4 := enter_handler true 0 t3 peer decision s3).
  assert (Hrun : rtc (serve_step example_relay_config true id (λ _, None) (λ _, [])) (serve_start (new_permits example_relay_config)) s4).
  { eapply rtc_l; [apply serve_incoming; reflexivity|].
    eapply rtc_l; [apply (serve_polled _ _ _ _ _ s1 0%nat t1); vm_compute; reflexivity|].
    eapply rtc_l; [apply (serve_handshake_done _ _ _ _ _ s2 0%nat t2 peer); vm_compute; reflexivity|].
    apply rtc_once. apply (serve_admitted _ _ _ _ _ s3 0%nat t3 peer io (Some qrm_demo_allowlist) (Some 50)); vm_compute; reflexivity. }
  exists s4. split; [exact Hrun|].
  destruct (server_admission_bounded example_relay_config true id (λ _, None) (λ _, []) s4) as (_ & Hp & _);
    [intros []; vm_compute; discriminate|exact Hrun|].
  assert (Hav : sv_available s4 Connections = 63) by (vm_compute; reflexivity).
  split; [vm_compute; reflexivity|]. split; [exact Hav|].
  destruct (Hp Connections) as [_ H]. rewrite Hav in H. change (new_permits example_relay_config Connections) with 64 in H. lia.
Defined.
