(* ===== verification/EnrollmentAuthority.v ===== *)
(** * What the enrollment server keeps

    The connections of Hdb1Server.v and Hde3Server.v run beside each other and beside
    revocations by other processes.  Whatever the schedule, every Core was bought with the code
    of a start, every certificate in the results and every entry of the allowlist is justified
    by an approval of such a Core, entries become active only by an exact confirmation, and no
    key is bound twice while its result is kept; every connection is answered in a bounded
    number of its turns.  The proofs use the components through the laws of Services.v. *)
From S2P Require Export Hdb1Server Hde3Server.

(** ** The server

    What runs beside each other: connections, each of which is a task of its own, and
    revocations by other processes. *)
Inductive ServerParty (BIo RIo AIo CIo : Type) : Type :=
| Hdb1Connection (io : Hdb1Io BIo) (incoming : list byte)
| Hde3Connection (io : Hde3Io BIo RIo AIo CIo) (core_identity incoming : list byte)
| Revocation (open_io revoke_io : AIo) (app_id : list byte).
#[global] Arguments Hdb1Connection {BIo RIo AIo CIo} _ _.
#[global] Arguments Hde3Connection {BIo RIo AIo CIo} _ _ _.
#[global] Arguments Revocation {BIo RIo AIo CIo} _ _ _.

Section Server.
Context {W BIo RS RIo AS AIo CIo : Type}.
Context `{!BootstrapService W BIo, !ResultStore RS RIo, !AllowlistStore AS AIo, !CertificateIssuer CIo}.
Context (sha256 : list byte → list byte) (parse_certificate : list byte → option ParsedCertificate).
Context (base64_encode : list byte → list byte) (base64_decode : list byte → option (list byte)).
Context (hdb1_json : Hdb1Json) (json : Hde3Json) (components : Hde3Components).

Definition server_task (party : ServerParty BIo RIo AIo CIo)
  : task (ServerWorld W BIo RS AS) (ServerStream * relay_result unit) :=
  match party with
  | Hdb1Connection io incoming =>
      serve_bootstrap_connection base64_encode base64_decode hdb1_json (he_bootstrap components) io (ServerStream_start incoming)
  | Hde3Connection io core_identity incoming =>
      serve_hde3_connection sha256 parse_certificate base64_encode base64_decode json components io core_identity
        (ServerStream_start incoming)
  | Revocation open_io revoke_io app_id =>
      ignored (atomically (on_allowlist (al_revoke_elsewhere open_io revoke_io app_id) (λ _, []))) (ServerStream_start [])
  end.
End Server.

(** * Facts *)

(** ** What the log justifies *)
Section Authority.
Context {W BIo RS RIo AS AIo CIo : Type}.
Context `{!BootstrapService W BIo, !ResultStore RS RIo, !AllowlistStore AS AIo, !CertificateIssuer CIo}.
Context (sha256 : list byte → list byte) (parse_certificate : list byte → option ParsedCertificate).
Context (base64_encode : list byte → list byte) (base64_decode : list byte → option (list byte)).
Context `{!LawfulBootstrapService W BIo sha256, !LawfulResultStore RS RIo, !LawfulAllowlistStore AS AIo,
  !LawfulCertificateIssuer CIo}.
Context (held0 : Holdings) (rs0 : list IssuanceResultRecord) (reg0 : AllowlistRegistry).

(** *** Where Cores and approvals come from

    [held0] is what the runtime held at the start. *)
Definition attempt_justified (log : list (ServerEvent BIo)) (id peer challenge code : list byte) : Prop :=
  hg_attempt held0 id peer challenge code
  ∨ ∃ io payload c, BootstrapCalled io (OpStart peer payload) (Ok (Challenged c)) ∈ log
      ∧ bg_id c = id ∧ bg_challenge c = challenge ∧ sb_draws io code.

Definition core_justified (log : list (ServerEvent BIo)) (core_identity : list byte) : Prop :=
  (∃ id, hg_core held0 id core_identity)
  ∨ ∃ io answer peer id challenge code, BootstrapCalled io (OpSubmit peer id challenge code) answer ∈ log
      ∧ attempt_justified log id peer challenge code.

Definition app_justified (log : list (ServerEvent BIo)) (id core_identity challenge code : list byte) : Prop :=
  hg_app held0 id core_identity challenge code
  ∨ core_justified log core_identity
    ∧ ∃ io digest binding session generation c,
        BootstrapCalled io (OpStartApp core_identity digest binding session generation) (Ok (Challenged c)) ∈ log
        ∧ bg_id c = id ∧ bg_challenge c = challenge ∧ sb_draws io code.

(** An App is approved as the first one of its Core, or by the code of its own approval. *)
Definition approval_justified (log : list (ServerEvent BIo)) (core_identity approval_id csr csr_digest : list byte) : Prop :=
  core_justified log core_identity
  ∨ ∃ io answer challenge code,
      BootstrapCalled io (OpSubmitApp core_identity approval_id challenge code csr csr_digest) answer ∈ log
      ∧ app_justified log approval_id core_identity challenge code.

Record holdings_ok (held : Holdings) (log : list (ServerEvent BIo)) : Prop := {
  ho_attempts id peer challenge code : hg_attempt held id peer challenge code → attempt_justified log id peer challenge code;
  ho_cores id core_identity : hg_core held id core_identity → core_justified log core_identity;
  ho_apps id core_identity challenge code :
    hg_app held id core_identity challenge code → app_justified log id core_identity challenge code;
}.
Definition bootstrap_ok (w : W) (log : list (ServerEvent BIo)) : Prop := sb_wf w ∧ holdings_ok (sb_holdings w) log.

(** A certificate was signed for the request of an approved App, under the key of that approval. *)
Definition certificate_justified (log : list (ServerEvent BIo)) (key : IssuanceResultKey) (approval_id csr app_id : list byte)
    (issued : IssuedCertificate) : Prop :=
  ∃ core_identity csr_digest generation io g,
    AppApproved core_identity approval_id csr csr_digest generation ∈ log
    ∧ sha256 csr = csr_digest ∧ hde3_issuance_key sha256 approval_id csr_digest = Ok key
    ∧ ci_app_id_from_csr csr = Ok app_id ∧ ci_issue_certificate io app_id csr g = Ok issued.

(** A confirmation named what the record of its approval holds. *)
Definition confirmation_exact (payload : Hde3ConfirmPersistedPayload) (record : IssuanceResultRecord) : Prop :=
  ∃ approval_id app_identity fingerprint chain_digest,
    decoded_approval_id base64_encode base64_decode (hp_approval_id payload) "HDE3 confirmation approval is invalid" = Ok approval_id
    ∧ supplied_digests payload = Ok (app_identity, fingerprint, chain_digest)
    ∧ ik_authorization_id (ir_key record) = hde3_authorization_id sha256 approval_id
    ∧ ir_fingerprint record = Some fingerprint
    ∧ certificate_identity_digest sha256 parse_certificate (ir_certificate_chain record) = Some app_identity
    ∧ public_chain_digest sha256 (ir_certificate_chain record) = chain_digest
    ∧ ir_configuration_generation record = Some (hp_configuration_generation payload).

(** The certificate of a record was recorded by a handler, or was there at the start. *)
Definition record_justified (log : list (ServerEvent BIo)) (record : IssuanceResultRecord) : Prop :=
  match ir_fingerprint record with
  | None => True
  | Some fingerprint =>
      (∃ r0, r0 ∈ rs0 ∧ ir_key r0 = ir_key record ∧ ir_fingerprint r0 = Some fingerprint)
      ∨ ∃ approval_id csr app_id issued,
          CertificateRecorded (ir_key record) approval_id csr app_id issued ∈ log ∧ ic_fingerprint issued = fingerprint
  end.

Record log_ok (log : list (ServerEvent BIo)) : Prop := {
  lo_approved core_identity approval_id csr csr_digest generation :
    AppApproved core_identity approval_id csr csr_digest generation ∈ log → approval_justified log core_identity approval_id csr csr_digest;
  lo_recorded key approval_id csr app_id issued :
    CertificateRecorded key approval_id csr app_id issued ∈ log → certificate_justified log key approval_id csr app_id issued;
  lo_enrolled approval_id csr app_id issued :
    AppEnrolled approval_id csr app_id issued ∈ log → ∃ key, CertificateRecorded key approval_id csr app_id issued ∈ log;
  lo_confirmed core_identity payload record :
    AppConfirmed core_identity payload record ∈ log → confirmation_exact payload record ∧ record_justified log record;
}.

(** The first binding of a key is the only one for the time its result is kept. *)
Definition begun_once (rs : list IssuanceResultRecord) (log : list (ServerEvent BIo)) : Prop :=
  ∀ key t pre post, log = pre ++ IssuanceBegun key t :: post → (∀ t', IssuanceBegun key t' ∉ pre) →
    (∃ t', StoreCalled t' ∈ post ∧ t + ISSUANCE_RESULT_TTL_SECS ≤ t')
    ∨ (∃ r, r ∈ rs ∧ ir_key r = key ∧ t + ISSUANCE_RESULT_TTL_SECS ≤ ir_retained_until r)
      ∧ ∀ t', IssuanceBegun key t' ∉ post.

Record results_ok (rs : list IssuanceResultRecord) (log : list (ServerEvent BIo)) : Prop := {
  ro_begun : begun_once rs log;
  ro_records : Forall (record_justified log) rs;
}.

Record allowlist_ok (reg : AllowlistRegistry) (log : list (ServerEvent BIo)) : Prop := {
  ao_step : ∃ certificates, allowlist_step certificates reg0 reg
    ∧ ∀ c, c ∈ certificates → ∃ approval_id csr issued,
        AppEnrolled approval_id csr (cm_app_id c) issued ∈ log ∧ cm_fingerprint c = ic_fingerprint issued;
  ao_active app_id e : entry reg app_id = Some e → ae_state e = Active →
    (∃ e0, entry reg0 app_id = Some e0 ∧ ae_state e0 = Active)
    ∨ ∃ core_identity payload record, AppConfirmed core_identity payload record ∈ log
        ∧ ir_app_id record = app_id ∧ ir_fingerprint record = Some (ae_fingerprint e);
}.

Record world_ok (w : ServerWorld W BIo RS AS) : Prop := {
  wo_log : log_ok (sw_log w);
  wo_bootstrap : bootstrap_ok (sw_bootstrap w) (sw_log w);
  wo_results : ∃ rs, rs_holds (sw_results w) rs ∧ results_ok rs (sw_log w);
  wo_allowlist : ∃ reg, al_holds (sw_allowlist w) reg ∧ allowlist_ok reg (sw_log w);
}.

Definition log_grows (w w' : ServerWorld W BIo RS AS) : Prop := sw_log w `prefix_of` sw_log w'.

(** *** A longer log *)
Definition begins (e : ServerEvent BIo) : Prop := match e with IssuanceBegun _ _ => True | _ => False end.

Lemma certificate_justified_app log more key approval_id csr app_id issued :
  certificate_justified log key approval_id csr app_id issued →
  certificate_justified (log ++ more) key approval_id csr app_id issued.
Proof.
  intros (core & digest & g & io & g' & Hin & H). exists core, digest, g, io, g'. split; [set_solver|done].
Qed.

Lemma record_justified_app log more r : record_justified log r → record_justified (log ++ more) r.
Proof.
  unfold record_justified. destruct (ir_fingerprint r) as [f|]; [|done].
  intros [H|(ap & csr & app & issued & Hin & Hf)]; [by left|right]. exists ap, csr, app, issued. split; [set_solver|done].
Qed.

Lemma attempt_justified_app log more id peer challenge code :
  attempt_justified log id peer challenge code → attempt_justified (log ++ more) id peer challenge code.
Proof. intros [H|(io & payload & c & Hin & H)]; [by left|right]. exists io, payload, c. split; [set_solver|done]. Qed.
Lemma core_justified_app log more core_identity : core_justified log core_identity → core_justified (log ++ more) core_identity.
Proof.
  intros [H|(io & r & peer & id & ch & code & Hin & H)]; [by left|right]. exists io, r, peer, id, ch, code.
  split; [set_solver|by apply attempt_justified_app].
Qed.
Lemma app_justified_app log more id core_identity challenge code :
  app_justified log id core_identity challenge code → app_justified (log ++ more) id core_identity challenge code.
Proof.
  intros [H|(Hc & io & d & b & se & g & c & Hin & H)]; [by left|right]. split; [by apply core_justified_app|].
  exists io, d, b, se, g, c. split; [set_solver|done].
Qed.
Lemma approval_justified_app log more core_identity approval_id csr digest :
  approval_justified log core_identity approval_id csr digest → approval_justified (log ++ more) core_identity approval_id csr digest.
Proof.
  intros [H|(io & r & ch & code & Hin & H)]; [left; by apply core_justified_app|right]. exists io, r, ch, code.
  split; [set_solver|by apply app_justified_app].
Qed.
Lemma holdings_ok_more held log more : holdings_ok held log → holdings_ok held (log ++ more).
Proof.
  intros [H1 H2 H3]. split; intros; [by apply attempt_justified_app, H1|by eapply core_justified_app, H2|by apply app_justified_app, H3].
Qed.
Lemma bootstrap_ok_more w log more : bootstrap_ok w log → bootstrap_ok w (log ++ more).
Proof. intros [H1 H2]. split; [done|by apply holdings_ok_more]. Qed.

Lemma log_ok_app log more :
  log_ok log →
  (∀ key approval_id csr app_id issued, CertificateRecorded key approval_id csr app_id issued ∈ more →
     certificate_justified log key approval_id csr app_id issued) →
  (∀ approval_id csr app_id issued, AppEnrolled approval_id csr app_id issued ∈ more →
     ∃ key, CertificateRecorded key approval_id csr app_id issued ∈ log) →
  (∀ core_identity payload record, AppConfirmed core_identity payload record ∈ more →
     confirmation_exact payload record ∧ record_justified log record) →
  (∀ core_identity approval_id csr csr_digest generation, AppApproved core_identity approval_id csr csr_digest generation ∈ more →
     approval_justified (log ++ more) core_identity approval_id csr csr_digest) →
  log_ok (log ++ more).
Proof.
  intros [H0 H1 H2 H3] Hr He Hc Ha. split.
  - intros core ap csr d g [Hin|Hin]%elem_of_app; [by eapply approval_justified_app, H0|by eapply Ha].
  - intros key ap csr app issued [Hin|Hin]%elem_of_app; apply certificate_justified_app; eauto.
  - intros ap csr app issued [Hin|Hin]%elem_of_app.
    + destruct (H2 _ _ _ _ Hin) as [key Hk]. exists key. set_solver.
    + destruct (He _ _ _ _ Hin) as [key Hk]. exists key. set_solver.
  - intros core p r [Hin|Hin]%elem_of_app.
    + destruct (H3 _ _ _ Hin). split; [done|by apply record_justified_app].
    + destruct (Hc _ _ _ Hin). split; [done|by apply record_justified_app].
Qed.

(** An event split off a longer log is in the old part, with a longer rest, or in the new part. *)
Lemma app_split {A} (log more pre post : list A) x :
  log ++ more = pre ++ x :: post →
  (∃ post0, log = pre ++ x :: post0 ∧ post = post0 ++ more)
  ∨ (∃ pre0, more = pre0 ++ x :: post ∧ pre = log ++ pre0).
Proof.
  intros H. apply app_eq_inv in H as [(k & -> & Hk)|(k & -> & Hk)].
  - destruct k as [|y k]; simpl in Hk.
    + right. exists []. rewrite !app_nil_r. split; [symmetry; exact Hk|done].
    + left. injection Hk as <- ->. eauto.
  - right. by exists k.
Qed.

Lemma begun_once_app rs rs' log more :
  begun_once rs log → Forall (λ e, ¬ begins e) more →
  (∀ r t, r ∈ rs → (∃ k, ir_key r = k ∧ IssuanceBegun k t ∈ log) → t + ISSUANCE_RESULT_TTL_SECS ≤ ir_retained_until r →
     (∀ pre post, log = pre ++ IssuanceBegun (ir_key r) t :: post → (∀ t', IssuanceBegun (ir_key r) t' ∉ pre) →
        (∀ t', IssuanceBegun (ir_key r) t' ∉ post) →
     (∃ t', StoreCalled t' ∈ more ∧ t + ISSUANCE_RESULT_TTL_SECS ≤ t')
     ∨ ∃ r', r' ∈ rs' ∧ ir_key r' = ir_key r ∧ t + ISSUANCE_RESULT_TTL_SECS ≤ ir_retained_until r')) →
  begun_once rs' (log ++ more).
Proof.
  intros Hb Hmore Hkeep key t pre post Hlog Hpre. rewrite Forall_forall in Hmore.
  apply app_split in Hlog as [(post0 & Hlog & ->)|(pre0 & Hlog & ->)].
  2: { exfalso. apply (Hmore (IssuanceBegun key t)); [rewrite Hlog; set_solver|done]. }
  destruct (Hb key t pre post0 Hlog Hpre) as [(t' & Hin & Hle)|[(r & Hr & Hk & Hret) Hno]]; [left; exists t'; set_solver|].
  subst key. destruct (Hkeep r t Hr) with (pre := pre) (post := post0) as [(t' & Hin & Hle)|Hr']; try done.
  - eexists. split; [done|]. rewrite Hlog. set_solver.
  - left. exists t'. set_solver.
  - right. split; [done|]. intros t' [Hin|Hin]%elem_of_app; [by eapply Hno|]. by apply (Hmore _ Hin).
Qed.

Lemma begun_once_more rs log more : begun_once rs log → Forall (λ e, ¬ begins e) more → begun_once rs (log ++ more).
Proof. intros Hb Hm. eapply begun_once_app; [done|done|]. intros r t Hr _ Hret pre post _ _ _. right. eauto. Qed.

Lemma results_ok_more rs log more : results_ok rs log → Forall (λ e, ¬ begins e) more → results_ok rs (log ++ more).
Proof.
  intros [Hb Hr] Hm. split; [by apply begun_once_more|]. eapply Forall_impl; [exact Hr|]. intros r. apply record_justified_app.
Qed.

Lemma allowlist_ok_more reg log more : allowlist_ok reg log → allowlist_ok reg (log ++ more).
Proof.
  intros [(cs & Hs & Hc) Ha]. split.
  - exists cs. split; [done|]. intros c (ap & csr & issued & Hin & Hf)%Hc. exists ap, csr, issued. split; [set_solver|done].
  - intros app e He Hact. destruct (Ha _ _ He Hact) as [H|(core & p & r & Hin & H)]; [by left|right].
    exists core, p, r. split; [set_solver|done].
Qed.

(** *** Calls on the results *)

#[local] Arguments prune_records : simpl never.

Lemma results_ok_step rs rs' log now more :
  results_ok rs log → Forall (λ e, ¬ begins e) more →
  (∀ r, r ∈ rs → now < ir_retained_until r → ∃ r', r' ∈ rs' ∧ ir_key r' = ir_key r
     ∧ (ir_retained_until r ≤ ir_retained_until r'
        ∨ ir_retained_until r' = now + ISSUANCE_RESULT_TTL_SECS ∧ IssuanceBegun (ir_key r) now ∈ log)) →
  (∀ r', r' ∈ rs' → record_justified (log ++ StoreCalled now :: more) r') →
  results_ok rs' (log ++ StoreCalled now :: more).
Proof.
  intros [Hb _] Hm Hkeep Hj. split; [|by apply Forall_forall].
  eapply begun_once_app; [done|constructor; [by intros []|done]|]. intros r t Hr _ Hret pre post Hlog Hpre Hpost.
  destruct (decide (now < ir_retained_until r)) as [Hlt|]; [|left; exists now; split; [by left|lia]].
  right. destruct (Hkeep r Hr Hlt) as (r' & Hr' & Hk & Hret'). exists r'. split; [done|]. split; [done|].
  destruct Hret' as [?|[-> Hin]]; [lia|]. rewrite Hlog in Hin.
  apply elem_of_app in Hin as [Hin|Hin]; [by apply Hpre in Hin|].
  apply elem_of_cons in Hin as [[= ->]|Hin]; [done|by apply Hpost in Hin].
Qed.

(** What survives a pruning, with one record written over. *)
Lemma survives_prune r rs now : r ∈ rs → now < ir_retained_until r → r ∈ (prune_records rs now).1.
Proof. intros. by apply elem_of_prune. Qed.

Lemma survives_update r rs key old new :
  find_key key rs = Some old → ir_key new = key → r ∈ rs →
  ∃ r', r' ∈ update_first (has_key key) new rs ∧ ir_key r' = ir_key r ∧ (r' = r ∨ ir_key r = key ∧ r' = new).
Proof.
  intros Hf Hn Hr. destruct (decide (ir_key r = key)) as [Hk|Hk].
  - exists new. split; [by eapply elem_of_update_first_new|]. split; [congruence|by right].
  - exists r. split; [by apply elem_of_update_first_other|]. split; [done|by left].
Qed.

Lemma pruned_file rs now r : r ∈ file_after (pruned_effect (prune_records rs now)) rs → r ∈ rs.
Proof.
  unfold pruned_effect. destruct (prune_records rs now).2; simpl; [|done]. by intros [? _]%elem_of_prune.
Qed.
Lemma pruned_file_keeps rs now r :
  r ∈ rs → now < ir_retained_until r → r ∈ file_after (pruned_effect (prune_records rs now)) rs.
Proof.
  intros Hr Hn. unfold pruned_effect. destruct (prune_records rs now).2; simpl; [by apply elem_of_prune|done].
Qed.

Lemma results_ok_pruned rs log now more :
  results_ok rs log → Forall (λ e, ¬ begins e) more →
  results_ok (file_after (pruned_effect (prune_records rs now)) rs) (log ++ StoreCalled now :: more).
Proof.
  intros Hok Hm. apply (results_ok_step rs); [done|done| |].
  - intros r Hr Hn. exists r. split; [by apply pruned_file_keeps|]. split; [done|by left].
  - intros r Hr%pruned_file. destruct Hok as [_ Hj]. rewrite Forall_forall in Hj. by apply record_justified_app, Hj.
Qed.

(** A record written over one of the same key, with the certificate a handler recorded. *)
Lemma results_ok_updated rs log now more key old new :
  results_ok rs log → Forall (λ e, ¬ begins e) more →
  find_key key (prune_records rs now).1 = Some old → ir_key new = key →
  (ir_retained_until old ≤ ir_retained_until new
   ∨ ir_retained_until new = now + ISSUANCE_RESULT_TTL_SECS ∧ IssuanceBegun key now ∈ log) →
  NoDup (ir_key <$> rs) →
  record_justified (log ++ StoreCalled now :: more) new →
  results_ok (update_first (has_key key) new (prune_records rs now).1) (log ++ StoreCalled now :: more).
Proof.
  intros Hok Hm Hf Hk Hret Hnd Hj. apply (results_ok_step rs); [done|done| |].
  - intros r Hr Hn. destruct (survives_update r _ key old new Hf Hk (survives_prune _ _ _ Hr Hn)) as (r' & Hr' & Hk' & Hor).
    exists r'. split; [done|]. split; [done|]. destruct Hor as [->|[Hrk ->]]; [by left|].
    apply find_key_Some in Hf as [[Ho _]%elem_of_prune Hok']. rewrite (NoDup_fmap_elem ir_key rs r old Hnd Hr Ho) by congruence.
    by rewrite Hok'.
  - intros r [->|Hr]%elem_of_update_first; [done|]. apply elem_of_prune in Hr as [Hr _].
    destruct Hok as [_ Hjs]. rewrite Forall_forall in Hjs. by apply record_justified_app, Hjs.
Qed.

(** The binding of a key that is not there. *)
Lemma results_ok_begun rs log now key app generation expires_at retained :
  results_ok rs log → find_key key (prune_records rs now).1 = None → now + ISSUANCE_RESULT_TTL_SECS ≤ retained →
  results_ok ((prune_records rs now).1 ++ [pending_record key app generation expires_at retained])
    (log ++ [StoreCalled now; IssuanceBegun key now]).
Proof.
  intros Hok Hf Hret. pose proof (find_key_None _ _ Hf) as Hnone. split.
  - intros k t pre post Hlog Hpre.
    change (log ++ [StoreCalled now; IssuanceBegun key now]) with (log ++ [StoreCalled now] ++ [IssuanceBegun key now]) in Hlog.
    rewrite app_assoc in Hlog. apply app_split in Hlog as [(post0 & Hlog & ->)|(pre0 & Hlog & ->)].
    + assert (Hold : begun_once (prune_records rs now).1 (log ++ [StoreCalled now])).
      { eapply begun_once_app; [apply Hok|constructor; [by intros []|done]|]. intros r t' Hr _ Hret' _ _ _ _ _.
        destruct (decide (now < ir_retained_until r)); [|left; exists now; split; [by left|lia]].
        right. exists r. split; [by apply elem_of_prune|done]. }
      destruct (Hold k t pre post0 Hlog Hpre) as [(t' & Hin & Hle)|[(r & Hr & Hk & Hle) Hno]]; [left; exists t'; set_solver|].
      right. split; [exists r; set_solver|]. intros t' [Hin|[= -> ->]%list_elem_of_singleton]%elem_of_app; [by eapply Hno|].
      apply Hnone, list_elem_of_fmap. eauto.
    + destruct pre0 as [|y pre0]; [|by destruct pre0]. injection Hlog as -> -> <-. right. split; [|set_solver].
      eexists. split; [apply elem_of_app; right; by left|done].
  - apply Forall_app. split; [|by constructor]. destruct Hok as [_ Hj]. apply Forall_forall. intros r [Hr _]%elem_of_prune.
    rewrite Forall_forall in Hj. by apply record_justified_app, Hj.
Qed.

(** *** Calls on the allowlist *)
Lemma allowlist_ok_wf reg log : allowlist_ok reg log → allowlist_wf reg.
Proof. by intros [(cs & [] & _) _]. Qed.

Lemma allowlist_ok_enroll reg log c e approval_id csr issued :
  allowlist_ok reg log → (enroll_pending c reg).2 = Ok e → cm_fingerprint c = ic_fingerprint issued →
  allowlist_ok (enroll_pending c reg).1 (log ++ [AppEnrolled approval_id csr (cm_app_id c) issued]).
Proof.
  intros Hok He Hf. pose proof (allowlist_ok_wf _ _ Hok) as Hwf.
  pose proof (allowlist_ok_more reg log [AppEnrolled approval_id csr (cm_app_id c) issued] Hok) as [(cs & Hs & Hc) Ha]. split.
  - exists (cs ++ [c]). split; [eapply allowlist_step_trans; [exact Hs|by apply enroll_with_state_step]|].
    intros c' [Hin|Hin%list_elem_of_singleton]%elem_of_app; [|subst c']; [by apply Hc|]. exists approval_id, csr, issued. split; [set_solver|done].
  - intros app e' He' Hact. unfold enroll_pending, enroll_with_state in He, He'. destruct (_ || _); [done|].
    destruct (u64_checked_add _ 1) as [g|]; [|done]. unfold entry in He'. simpl in He'.
    apply lookup_insert_Some in He' as [[_ <-]|[_ He']]; [done|]. by apply Ha.
Qed.

Lemma allowlist_ok_activate reg log app e core_identity payload record :
  allowlist_ok reg log → entry reg app = Some e → ae_state e = Pending →
  ir_app_id record = app → ir_fingerprint record = Some (ae_fingerprint e) →
  allowlist_ok (activate app (ae_fingerprint e) reg).1 (log ++ [AppConfirmed core_identity payload record]).
Proof.
  intros Hok He Hp Happ Hfp. pose proof (allowlist_ok_wf _ _ Hok) as Hwf.
  pose proof (allowlist_ok_more reg log [AppConfirmed core_identity payload record] Hok) as [(cs & Hs & Hc) Ha]. split.
  - exists (cs ++ []). split; [eapply allowlist_step_trans; [exact Hs|by apply activate_step]|]. by rewrite app_nil_r.
  - intros app' e' He' Hact. unfold entry, activate in *. rewrite He in He'.
    rewrite !bool_decide_eq_false_2 in He' by tauto. simpl in He'.
    apply lookup_insert_Some in He' as [[<- <-]|[_ He']]; [|by apply Ha]. right. simpl.
    exists core_identity, payload, record. split; [set_solver|]. split; [done|]. done.
Qed.

Lemma allowlist_ok_revoke reg log app : allowlist_ok reg log → allowlist_ok (revoke app reg).1 log.
Proof.
  intros Hok. pose proof (allowlist_ok_wf _ _ Hok) as Hwf. destruct Hok as [(cs & Hs & Hc) Ha]. split.
  - exists (cs ++ []). split; [eapply allowlist_step_trans; [exact Hs|by apply revoke_step]|]. by rewrite app_nil_r.
  - intros app' e' He' Hact. unfold entry, revoke in *. destruct (ar_entries reg !! app) as [e|]; [|by apply Ha].
    case_bool_decide; [by apply Ha|]. destruct (u64_checked_add _ 1) as [g|]; [|by apply Ha]. simpl in He'.
    rewrite lookup_fmap, fmap_Some in He'. destruct He' as (e0 & He0 & ->). unfold revoke_value in *.
    case_bool_decide; simpl in *; [done|]. by apply (Ha app' e0).
Qed.

(** *** Handlers that keep the shared state justified *)
Abbreviation World := (ServerWorld W BIo RS AS).
Abbreviation handling := (serving World ServerStream RelayError).
Abbreviation Io := (Hde3Io BIo RIo AIo CIo).

#[export] Instance log_grows_preorder : PreOrder log_grows.
Proof.
  unfold log_grows. split; [intros w; reflexivity|]. intros a b c. apply transitivity.
Qed.

(** A fact of the log that stays. *)
Definition stays (φ : list (ServerEvent BIo) → Prop) : Prop := ∀ log more, φ log → φ (log ++ more).

Lemma stays_grows φ (w w' : World) : stays φ → φ (sw_log w) → log_grows w w' → φ (sw_log w').
Proof. intros Hs Hw [more ->]. by apply Hs. Qed.

(** The handler is safe wherever the log has the fact. *)
Definition knowing (φ : list (ServerEvent BIo) → Prop) {A} (m : handling A) : Prop :=
  ∀ l s, φ (sw_log s) → sv_safe world_ok log_grows (λ _ _ _, True) m l s.

Lemma knowing_weaken (φ φ' : list (ServerEvent BIo) → Prop) {A} (m : handling A) :
  (∀ log, φ log → φ' log) → knowing φ' m → knowing φ m.
Proof. intros H Hm l s Hs. by apply Hm, H. Qed.

Lemma knowing_ret φ {A} (a : A) : knowing φ (sv_ret a).
Proof. done. Qed.
Lemma knowing_lift φ {A} (m : relay_result A) : knowing φ (sv_lift m).
Proof. done. Qed.
Lemma knowing_locally φ {A} (m : stateful ServerStream RelayError A) : knowing φ (locally m).
Proof. done. Qed.

Lemma knowing_bind φ {A B} (m : handling A) (f : A → handling B) :
  stays φ → knowing φ m → (∀ a, knowing φ (f a)) → knowing φ (sv_bind m f).
Proof.
  intros Hst Hm Hf l s Hs. apply sv_safe_bind.
  eapply task_safe_conseq; [|eapply task_safe_grows; [intros a b c; by etrans|done|apply (Hm l s Hs)]].
  intros [l' [a|e|]] s' [_ Hg]; simpl; [|done..]. apply Hf. by eapply stays_grows.
Qed.

Lemma knowing_lift_bind φ {A B} (m : relay_result A) (f : A → handling B) :
  (∀ a, m = Ok a → knowing φ (f a)) → knowing φ (sv_bind (sv_lift m) f).
Proof. intros Hf l s Hs. apply sv_safe_bind, sv_safe_lift. destruct m as [a|e|]; [by apply Hf|done..]. Qed.

Lemma knowing_outcome φ {E A B} (r : outcome E A) (ok : A → handling B) (err : E → handling B) :
  (∀ a, r = Ok a → knowing φ (ok a)) → (∀ e, r = Err e → knowing φ (err e)) → knowing φ (on_outcome r ok err).
Proof. intros Ho He. destruct r; simpl; [by apply Ho|by apply He|done]. Qed.

Lemma knowing_observing φ {A B} (g : World → A) (f : A → handling B) :
  stays φ → (∀ a, knowing φ (f a)) → knowing φ (sv_bind (observing g) f).
Proof.
  intros Hst Hf l s Hs. apply sv_safe_bind, sv_safe_observing; [done|].
  intros s1 Hg _. apply Hf. by eapply stays_grows.
Qed.

Lemma knowing_atomically φ {E' A B} (ψ : outcome E' A → list (ServerEvent BIo) → Prop) (m : stateful World E' A)
    (f : outcome E' A → handling B) :
  stays φ →
  (∀ w, φ (sw_log w) → world_ok w → wp m (λ r w', world_ok w' ∧ log_grows w w' ∧ ψ r (sw_log w')) w) →
  (∀ r, knowing (λ log, φ log ∧ ψ r log) (f r)) → knowing φ (sv_bind (atomically m) f).
Proof.
  intros Hst Hm Hf l s Hs. apply sv_safe_bind, sv_safe_atomically. intros s1 Hg Hok.
  assert (Hs1 : φ (sw_log s1)) by by eapply stays_grows.
  eapply wp_conseq; [by apply Hm|]. intros r s2 (H1 & H2 & H3). split_and!; [done|done|]. apply Hf.
  split; [by eapply stays_grows|done].
Qed.

(** *** The calls as steps of the world *)
Definition io_sound (io : Io) : Prop :=
  (∀ n, rs_sound (hx_results io n)) ∧ (∀ n, al_sound (hx_allowlist io n)) ∧ (∀ n, sb_sound (hx_bootstrap io n))
  ∧ ∀ now, hx_clock io = Some now → 0 ≤ now.

(** What a step on the results gives, besides a justified world. *)
Lemma wp_on_results {A} now (m : stateful RS RelayError A) step (events : relay_result A → list (ServerEvent BIo))
    (ψ : relay_result A → list (ServerEvent BIo) → Prop) (w : World) :
  world_ok w → steps_as rs_holds m step →
  (∀ rs eff x, records_wf rs → results_ok rs (sw_log w) → step rs = Ok (eff, x) →
     results_ok (file_after eff rs) (sw_log w ++ StoreCalled now :: events (Ok x))
     ∧ log_ok (sw_log w ++ StoreCalled now :: events (Ok x))
     ∧ ψ (Ok x) (sw_log w ++ StoreCalled now :: events (Ok x))) →
  (∀ e, events (Err e) = [] ∧ ∀ log, ψ (Err e) log) →
  wp (on_results now m events) (λ r w', world_ok w' ∧ log_grows w w' ∧ ψ r (sw_log w')) w.
Proof.
  intros [Hlog Hboot (rs & Hrs & Hrok) (reg & Hreg & Haok)] Hm Hok Herr.
  pose proof (Hm _ _ Hrs) as Hw. unfold wp, on_results in *. destruct (m (sw_results w)) as [s' [x|e|]]; [| |done].
  - destruct Hw as (eff & Hs & Hh). destruct (Hok rs eff x (rs_holds_wf _ _ Hrs) Hrok Hs) as (H1 & H2 & H3).
    split_and!; [|by eexists|done]. split; simpl; [done|by apply bootstrap_ok_more|eauto|].
    exists reg. split; [done|by apply allowlist_ok_more].
  - destruct (Herr e) as [He Hψ]. rewrite He. split_and!; [|by eexists|apply Hψ]. split; simpl.
    + apply log_ok_app; [done|..]; intros; set_solver.
    + by apply bootstrap_ok_more.
    + exists rs. split; [done|]. apply results_ok_more; [done|]. by constructor; [intros []|].
    + exists reg. split; [done|by apply allowlist_ok_more].
Qed.

(** A call on the runtime: what the runtime then holds is justified by the longer log. *)
Lemma holdings_ok_call io op r held held' log :
  holdings_ok held log → accountable (sb_draws io) sha256 op r held held' → BootstrapCalled io op r ∈ log → holdings_ok held' log.
Proof.
  intros [H1 H2 H3] [Ha Hc Hp _ _] Hin. split.
  - intros id peer ch code [H|(payload & c & -> & -> & Hid & Hch & Hd)]%Ha; [by apply H1|right]. by exists io, payload, c.
  - intros id core [H|(peer & bid & ch & code & -> & H)]%Hc; [by eapply H2|right]. exists io, r, peer, bid, ch, code.
    split; [done|by apply H1].
  - intros id core ch code [H|(d & b & se & g & c & cid & -> & -> & Hid & Hch & Hd & H)]%Hp; [by apply H3|right].
    split; [by eapply H2|]. by exists io, d, b, se, g, c.
Qed.

Lemma authorized_justified io core_identity approval_id csr digest generation held held' log :
  holdings_ok held log →
  accountable (sb_draws io) sha256 (OpAuthorizeFirstApp core_identity approval_id digest) (Ok (Authorized generation)) held held' →
  approval_justified log core_identity approval_id csr digest.
Proof. intros [_ H _] Hacc. left. eapply H. by eapply (at_authorized _ _ _ _ _ _ Hacc). Qed.

Lemma approved_justified io core_identity approval_id challenge code csr digest ctx held held' log :
  holdings_ok held log →
  accountable (sb_draws io) sha256 (OpSubmitApp core_identity approval_id challenge code csr digest) (Ok (ApprovedApp ctx)) held held' →
  BootstrapCalled io (OpSubmitApp core_identity approval_id challenge code csr digest) (Ok (ApprovedApp ctx)) ∈ log →
  approval_justified log core_identity (ac_approval_id ctx) (ac_app_csr ctx) (ac_app_csr_digest ctx).
Proof.
  intros [_ _ H] Hacc Hin. destruct (at_approved _ _ _ _ _ _ Hacc _ _ _ _ _ _ _ eq_refl eq_refl) as (Happ & -> & -> & -> & _).
  right. exists io, (Ok (ApprovedApp ctx)), challenge, code. split; [done|by apply H].
Qed.

Lemma wp_on_bootstrap {A} io op (as_answer : A → BootstrapAnswer) (m : stateful W BootstrapRuntimeError A)
    (events : outcome BootstrapRuntimeError A → list (ServerEvent BIo)) (Q : outcome BootstrapRuntimeError A → Prop) (w : World) :
  sb_sound io → world_ok w → (∀ b, sb_call io op b = answered_with as_answer m b) →
  (∀ r held held' log, holdings_ok held log → accountable (sb_draws io) sha256 op (as_answer <$> r) held held' →
     BootstrapCalled io op (as_answer <$> r) ∈ log →
     Q r ∧ ∀ e, e ∈ events r → match e with
       | AppApproved core_identity approval_id csr digest _ => approval_justified log core_identity approval_id csr digest
       | _ => False end) →
  wp (on_bootstrap io op as_answer m events)
    (λ r w', world_ok w' ∧ log_grows w w' ∧ Q r ∧ ∀ e, e ∈ events r → e ∈ sw_log w') w.
Proof.
  intros Hio [Hlog [Hwf Hheld] (rs & Hrs & Hrok) (reg & Hreg & Haok)] Hcall Hev.
  pose proof (sb_call_accountable io op (sw_bootstrap w) Hio Hwf) as Hm. unfold wp, on_bootstrap in *.
  rewrite Hcall in Hm. unfold answered_with in Hm. destruct (m (sw_bootstrap w)) as [b r]. destruct Hm as [Hwf' Hacc].
  set (more := BootstrapCalled io op (as_answer <$> r) :: events r).
  destruct (Hev r _ _ (sw_log w ++ more) (holdings_ok_more _ _ more Hheld) Hacc) as [HQ Hevents]; [set_solver|].
  assert (Hno : Forall (λ e, ¬ begins e) more).
  { constructor; [by intros []|]. apply Forall_forall. intros e He%Hevents. destruct e; by try intros []. }
  split_and!; [|by eexists|done|intros e He; simpl; set_solver]. split; simpl.
  - apply log_ok_app; [done|..].
    + intros key ap csr app issued [[=]|Hin]%elem_of_cons. destruct (Hevents _ Hin).
    + intros ap csr app issued [[=]|Hin]%elem_of_cons. destruct (Hevents _ Hin).
    + intros core payload record [[=]|Hin]%elem_of_cons. destruct (Hevents _ Hin).
    + intros core ap csr d g [[=]|Hin]%elem_of_cons. exact (Hevents _ Hin).
  - split; [done|]. eapply holdings_ok_call; [by apply holdings_ok_more|exact Hacc|set_solver].
  - exists rs. split; [done|]. by apply results_ok_more.
  - exists reg. split; [done|by apply allowlist_ok_more].
Qed.

(** A call that makes no other event. *)
Lemma wp_silent {A} io op (as_answer : A → BootstrapAnswer) (m : stateful W BootstrapRuntimeError A) (w : World) :
  sb_sound io → world_ok w → (∀ b, sb_call io op b = answered_with as_answer m b) →
  wp (on_bootstrap io op as_answer m no_events) (λ r w', world_ok w' ∧ log_grows w w' ∧ True) w.
Proof.
  intros Hio Hw Hcall. eapply wp_conseq; [apply (wp_on_bootstrap _ _ _ _ _ (λ _, True)); try done|by intros r w' (? & ? & _)].
  intros r h h' log _ _ _. split; [done|]. intros e He. set_solver.
Qed.

Lemma log_ok_calls log now : log_ok log → log_ok (log ++ [StoreCalled now]).
Proof. intros Hlog. apply log_ok_app; [done|..]; intros; set_solver. Qed.

(** A look-up: the record that is found is justified. *)
Lemma results_found rs log now r :
  results_ok rs log → r ∈ (prune_records rs now).1 → record_justified log r.
Proof. intros [_ Hj] [Hr _]%elem_of_prune. rewrite Forall_forall in Hj. by apply Hj. Qed.

Definition found_justified (P : IssuanceResultRecord → Prop) (r : relay_result (option IssuanceResultRecord)) (log : list (ServerEvent BIo))
  : Prop := ∀ record, r = Ok (Some record) → P record ∧ record_justified log record.

Lemma wp_find io n now key (w : World) :
  io_sound io → 0 ≤ now → world_ok w →
  wp (on_results now (rs_find (hx_results io n) key now) (λ _, []))
    (λ r w', world_ok w' ∧ log_grows w w' ∧ found_justified (λ record, ir_key record = key) r (sw_log w')) w.
Proof.
  intros (Hio & _) Hnow Hw. apply (wp_on_results now _ (find_step key now) (λ _, [])); [done|by apply rs_find_steps| |done].
  intros rs eff x _ Hrok Hs. injection Hs as <- <-. simpl. split_and!.
  - apply results_ok_pruned; [done|constructor].
  - apply log_ok_calls, Hw.
  - intros record [= Hf]. apply find_key_Some in Hf as [Hin Hk]. split; [done|].
    apply record_justified_app. by apply (results_found rs _ now).
Qed.

Lemma wp_find_by_id io n now id (w : World) :
  io_sound io → 0 ≤ now → world_ok w →
  wp (on_results now (rs_find_by_authorization_id (hx_results io n) id now) (λ _, []))
    (λ r w', world_ok w' ∧ log_grows w w'
       ∧ found_justified (λ record, ik_authorization_id (ir_key record) = id) r (sw_log w')) w.
Proof.
  intros (Hio & _) Hnow Hw.
  apply (wp_on_results now _ (find_by_authorization_id_step id now) (λ _, [])); [done|by apply rs_find_by_id_steps| |done].
  intros rs eff x _ Hrok Hs. injection Hs as <- <-. simpl. split_and!.
  - apply results_ok_pruned; [done|constructor].
  - apply log_ok_calls, Hw.
  - intros record [= Hf]. apply List.find_some in Hf as [Hin%list_elem_of_In Hk%bool_decide_eq_true].
    split; [done|]. apply record_justified_app. by apply (results_found rs _ now).
Qed.

Lemma wp_begin io n now key app generation expires_at (w : World) :
  io_sound io → op_input (BeginOp key app generation expires_at now) → world_ok w →
  wp (on_results now (rs_begin_pending (hx_results io n) key app generation expires_at now)
       (if_ok (λ begun, match begun with Created _ => [IssuanceBegun key now] | Existing _ => [] end)))
    (λ r w', world_ok w' ∧ log_grows w w' ∧ ∀ record, r = Ok (Created record) → IssuanceBegun key now ∈ sw_log w') w.
Proof.
  intros (Hio & _) Hop Hw.
  eapply (wp_on_results now _ _ _ (λ r log, ∀ record, r = Ok (Created record) → IssuanceBegun key now ∈ log));
    [done|by apply rs_begin_steps| |by intros e; split; [|intros log record]].
  intros rs eff x _ Hrok (retained & Hret & Hs)%bind_Ok. unfold begin_pending_step in Hs. cbv zeta in Hs.
  destruct (find_key key _) as [existing|] eqn:Hf.
  - case_bool_decide; [done|]. case_bool_decide; [done|]. injection Hs as <- <-. simpl. split_and!.
    + apply results_ok_pruned; [done|constructor].
    + apply log_ok_calls, Hw.
    + done.
  - destruct (existsb _ _); [done|]. destruct (_ <=? _); [done|]. injection Hs as <- <-. simpl. split_and!.
    + apply results_ok_begun; [done|done|]. unfold begin_pending_checks in Hret.
      apply bind_Ok in Hret as (_ & _ & Hret). destruct (_ =? 0); [done|]. destruct (_ || _) eqn:Hc; [done|].
      apply ok_or_Ok, u64_checked_add_Some in Hret as [-> _]. bool_facts. lia.
    + apply log_ok_app; [apply Hw|..]; intros; set_solver.
    + intros record _. set_solver.
Qed.

(** The record a handler writes its certificate into. *)
Lemma certificate_written log key approval_id csr app_id issued status retained generation not_after old :
  ir_key old = key → CertificateRecorded key approval_id csr app_id issued ∈ log →
  record_justified log
    (with_certificate status retained (ic_certificate_chain issued) (ic_fingerprint issued) generation not_after old).
Proof.
  intros Hk Hin. right. exists approval_id, csr, app_id, issued. simpl. rewrite Hk. done.
Qed.

Lemma wp_attach io n now key approval_id csr app_id issued generation not_after (w : World) :
  io_sound io → 0 ≤ now → world_ok w → certificate_justified (sw_log w) key approval_id csr app_id issued →
  wp (on_results now
        (rs_attach_certificate (hx_results io n) key (ic_certificate_chain issued) (ic_fingerprint issued) generation not_after now)
        (if_ok (λ _, [CertificateRecorded key approval_id csr app_id issued])))
    (λ r w', world_ok w' ∧ log_grows w w'
       ∧ ∀ record, r = Ok record → CertificateRecorded key approval_id csr app_id issued ∈ sw_log w') w.
Proof.
  intros (Hio & _) Hnow Hw Hj.
  eapply (wp_on_results now _ _ _ (λ r log, ∀ record, r = Ok record → CertificateRecorded key approval_id csr app_id issued ∈ log));
    [done|by apply rs_attach_steps| |by intros e; split; [|intros log record]].
  intros rs eff x Hwf Hrok ([] & _ & Hs)%bind_Ok. simpl. split_and!; [| |intros; set_solver].
  2: { apply log_ok_app; [apply Hw|..]; [|intros; set_solver..].
       intros k ap c app i [[=]|[= -> -> -> -> ->]%list_elem_of_singleton]%elem_of_cons. done. }
  unfold attach_certificate_step in Hs. apply bind_Ok in Hs as (old & Hf%ok_or_Ok & Hs).
  case_bool_decide; [done|]. case_bool_decide as Hc.
  - destruct (same_certificate _ _ _ _ _); [|done]. injection Hs as <- <-. simpl.
    apply results_ok_more; [done|]. repeat (constructor; [by intros []|]). constructor.
  - injection Hs as <- <-. simpl. pose proof (find_key_Some _ _ _ Hf) as [_ Hk].
    apply (results_ok_updated rs _ _ _ _ old); try done.
    + by constructor; [intros []|].
    + by left.
    + apply Hwf.
    + apply (certificate_written _ key approval_id csr app_id); [done|set_solver].
Qed.

Lemma wp_mark io n now key approval_id csr app_id issued generation not_after (w : World) :
  io_sound io → 0 ≤ now → world_ok w → CertificateRecorded key approval_id csr app_id issued ∈ sw_log w →
  IssuanceBegun key now ∈ sw_log w →
  wp (on_results now
        (rs_mark_issued (hx_results io n) key (ic_certificate_chain issued) (ic_fingerprint issued) generation not_after now)
        (if_ok (λ record, [ResultIssuedFor key record])))
    (λ r w', world_ok w' ∧ log_grows w w' ∧ True) w.
Proof.
  intros (Hio & _) Hnow Hw Hj Hbegun.
  eapply (wp_on_results now _ _ _ (λ r log, True)); [done|by apply rs_mark_steps| |done].
  intros rs eff x Hwf Hrok ([] & _ & Hs)%bind_Ok. simpl. split_and!; [| |done].
  2: { apply log_ok_app; [apply Hw|..]; intros; set_solver. }
  unfold mark_issued_step in Hs. apply bind_Ok in Hs as (old & Hf%ok_or_Ok & Hs).
  case_bool_decide; [done|]. case_bool_decide as Hc.
  - destruct (same_certificate _ _ _ _ _); [|done]. injection Hs as <- <-. simpl.
    apply results_ok_more; [done|]. repeat (constructor; [by intros []|]). constructor.
  - apply bind_Ok in Hs as (retained & [-> _]%ok_or_Ok%u64_checked_add_Some & Hs). injection Hs as <- <-. simpl.
    pose proof (find_key_Some _ _ _ Hf) as [_ Hk].
    apply (results_ok_updated rs _ _ _ _ old); try done.
    + by constructor; [intros []|].
    + right. done.
    + apply Hwf.
    + apply (certificate_written _ key approval_id csr app_id); [done|set_solver].
Qed.

(** The same for the allowlist, its memory included. *)
Lemma wp_on_allowlist {A E} (m : stateful AS E A) (events : outcome E A → list (ServerEvent BIo)) (w : World) :
  world_ok w →
  (∀ reg, al_holds (sw_allowlist w) reg → allowlist_ok reg (sw_log w) →
     wp m (λ r s', ∃ reg', al_holds s' reg' ∧ allowlist_ok reg' (sw_log w ++ events r)) (sw_allowlist w)) →
  (∀ r, log_ok (sw_log w ++ events r) ∧ Forall (λ e, ¬ begins e) (events r)) →
  wp (on_allowlist m events) (λ r w', world_ok w' ∧ log_grows w w' ∧ ∀ e, e ∈ events r → e ∈ sw_log w') w.
Proof.
  intros [Hlog Hboot (rs & Hrs & Hrok) (reg & Hreg & Haok)] Hm Hev. specialize (Hm reg Hreg Haok).
  unfold wp, on_allowlist in *. destruct (m (sw_allowlist w)) as [s' r]. destruct (Hev r) as [H1 H2].
  split_and!; [|by eexists|intros e He; simpl; set_solver]. split; simpl; [done|by apply bootstrap_ok_more| |done].
  exists rs. split; [done|]. by apply results_ok_more.
Qed.

Lemma wp_enroll io n key approval_id csr app_id issued generation metadata (w : World) :
  io_sound io → world_ok w → CertificateRecorded key approval_id csr app_id issued ∈ sw_log w →
  0 ≤ ic_not_before_epoch_seconds issued → IssuedCertificate_metadata app_id generation issued = Ok metadata →
  wp (on_allowlist (al_enroll_pending (hx_allowlist io n) metadata) (if_ok (λ _, [AppEnrolled approval_id csr app_id issued])))
    (λ r w', world_ok w' ∧ log_grows w w' ∧ True) w.
Proof.
  intros (_ & Hio & _) Hw Hrec Hnb Hmeta. unfold IssuedCertificate_metadata, CertificateMetadata_new in Hmeta.
  destruct (_ || _) eqn:Hc; [done|]. injection Hmeta as <-. bool_facts.
  eapply wp_conseq; [apply wp_on_allowlist; [done| |]|by intros r w' (? & ? & _)].
  - intros reg Hreg Haok. eapply wp_conseq; [apply (al_enroll_steps (hx_allowlist io n) _ (Hio n)); [simpl; lia|exact Hreg]|].
    intros r s'. destruct r as [e|e|]; [|intros Hh|done].
    + intros (eff & [-> He]%changing_Ok & Hh). eexists. split; [exact Hh|]. simpl. by eapply allowlist_ok_enroll.
    + exists reg. simpl. by rewrite app_nil_r.
  - intros r. destruct r as [e|e|]; simpl; [|by rewrite app_nil_r; split; [apply Hw|]..]. split.
    + apply log_ok_app; [apply Hw|intros; set_solver| |intros; set_solver..].
      intros ap c app i [= -> -> -> ->]%list_elem_of_singleton. by exists key.
    + by constructor; [intros []|].
Qed.

Lemma wp_activate io n n' core_identity payload record app_id fingerprint (w : World) :
  io_sound io → world_ok w → confirmation_exact payload record → record_justified (sw_log w) record →
  ir_app_id record = app_id → ir_fingerprint record = Some fingerprint →
  wp (on_allowlist (activate_confirmed (hx_allowlist io n) (hx_allowlist io n') app_id fingerprint)
        (if_ok (if_ok (λ _, [AppConfirmed core_identity payload record]))))
    (λ r w', world_ok w' ∧ log_grows w w' ∧ True) w.
Proof.
  intros (_ & Hio & _) Hw Hexact Hj Happ Hfp.
  eapply wp_conseq; [apply wp_on_allowlist; [done| |]|by intros r w' (? & ? & _)].
  - intros reg Hreg Haok. unfold activate_confirmed. apply wp_bind.
    assert (Hmore : ∀ evs, allowlist_ok reg (sw_log w ++ evs)) by (intros evs; by apply allowlist_ok_more).
    eapply wp_conseq; [apply (al_reload_steps (hx_allowlist io n) _ reg (Hio n) Hreg)|].
    intros r s1 (Hh & Hmem & Hnp). destruct r as [[]|e|]; [|by eauto|done]. rewrite <-(Hmem eq_refl) in *.
    apply wp_bind. unfold wp at 1, st_get. destruct (entry (al_memory s1) app_id) as [e|] eqn:He; [|by apply wp_ret; eauto].
    case_bool_decide as Hf; [by apply wp_ret; eauto|]. destruct (ae_state e) eqn:Hst; [|by apply wp_ret; eauto..].
    pose proof (al_activate_steps (hx_allowlist io n') app_id fingerprint (Hio n') s1 _ Hh) as Ha. unfold wp in *.
    destruct (al_activate _ _ _ s1) as [s2 [x|er|]]; simpl; [| |done].
    + destruct Ha as (eff & [-> Hx]%changing_Ok & Hh2). eexists. split; [exact Hh2|]. simpl. subst fingerprint.
      by eapply allowlist_ok_activate.
    + eauto.
  - intros r. destruct r as [[[]|c|]|e|]; simpl; try (by rewrite app_nil_r; split; [apply Hw|]). split.
    + apply log_ok_app; [apply Hw|intros; set_solver..| |intros; set_solver].
      by intros core p r [= -> -> ->]%list_elem_of_singleton.
    + by constructor; [intros []|].
Qed.

(** *** The handlers *)
Context (json : Hde3Json) (components : Hde3Components).

Lemma stays_in e : stays (λ log, e ∈ log).
Proof. intros log more Hin. set_solver. Qed.
Lemma stays_and φ ψ : stays φ → stays ψ → stays (λ log, φ log ∧ ψ log).
Proof. intros H1 H2 log more []. split; [by apply H1|by apply H2]. Qed.
Lemma stays_impl (P : Prop) φ : stays φ → stays (λ log, P → φ log).
Proof. intros H log more HP HP'. by apply H, HP. Qed.
Lemma stays_all {A} (φ : A → list (ServerEvent BIo) → Prop) : (∀ a, stays (φ a)) → stays (λ log, ∀ a, φ a log).
Proof. intros H log more Hall a. by apply H. Qed.
Lemma stays_justified r : stays (λ log, record_justified log r).
Proof. intros log more. apply record_justified_app. Qed.
Lemma stays_true (P : Prop) : stays (λ _, P).
Proof. by intros log more. Qed.
#[local] Hint Resolve stays_in stays_and stays_impl stays_all stays_justified stays_true : relay.

(** The parts of a handler that only touch its connection. *)
Lemma knowing_write φ (io : Io) frame expired failed : knowing φ (write_frame io frame expired failed).
Proof. apply knowing_locally. Qed.
Lemma knowing_rejection φ (io : Io) approval_id code : knowing φ (send_hde3_rejection base64_encode json io approval_id code).
Proof. apply knowing_lift_bind. intros frame _. apply knowing_write. Qed.
Lemma knowing_rejecting φ (io : Io) approval_id code : stays φ → knowing φ (rejecting base64_encode json io approval_id code).
Proof. intros Hs. apply knowing_bind; [done|apply knowing_rejection|]. intros _. apply knowing_ret. Qed.
Lemma knowing_result φ (io : Io) result : knowing φ (send_hde3_result base64_encode json io result).
Proof.
  apply knowing_outcome; intros x _; [|apply knowing_rejection]. apply knowing_lift_bind. intros frame _. apply knowing_write.
Qed.
Lemma knowing_finish_with φ (io : Io) handler :
  stays φ → knowing φ handler → knowing φ (finish_with base64_encode json io handler).
Proof.
  intros Hs Hh. apply knowing_bind; [done|done|]. intros result. apply knowing_bind; [done|apply knowing_result|].
  intros _. apply knowing_ret.
Qed.

Lemma hde3_issuance_key_Ok approval_id digest key :
  hde3_issuance_key sha256 approval_id digest = Ok key →
  ik_authorization_id key = hde3_authorization_id sha256 approval_id ∧ ik_csr_digest key = digest
  ∧ ik_authorization_id key ≠ zeros 16 ∧ ik_csr_digest key ≠ zeros 32.
Proof.
  unfold hde3_issuance_key, IssuanceResultKey_new. destruct (_ || _) eqn:Hc; [done|]. intros [= <-]. bool_facts. done.
Qed.

Lemma knowing_issue io core_identity approval_id csr digest generation generation' :
  io_sound io → sha256 csr = digest →
  knowing (λ log, AppApproved core_identity approval_id csr digest generation' ∈ log)
    (issue_hde3_app sha256 parse_certificate base64_encode components io approval_id csr digest generation).
Proof.
  intros Hio Hdigest. pose proof Hio as (_ & _ & Hboot & Hclock). unfold issue_hde3_app.
  apply knowing_lift_bind. intros key Hkey. pose proof (hde3_issuance_key_Ok _ _ _ Hkey) as (_ & _ & Hid & Hcd).
  apply knowing_bind; [auto with relay|apply knowing_lift|intros _].
  apply knowing_lift_bind. intros now Hnow%ok_or_Ok. specialize (Hclock now Hnow).
  apply knowing_outcome; intros app_id Happ; [|apply knowing_ret].
  apply (knowing_atomically _ (λ r log, ∀ record, r = Ok (Created record) → IssuanceBegun key now ∈ log));
    [auto with relay|intros w _ Hw; by apply wp_begin|]. intros begun.
  apply knowing_outcome; intros b Hb; [|apply knowing_ret]. subst begun. destruct b as [record|record]; [|apply knowing_ret].
  eapply (knowing_weaken _ (λ log, AppApproved core_identity approval_id csr digest generation' ∈ log ∧ IssuanceBegun key now ∈ log)).
  { intros log [Happr Hbegun]. split; [done|]. by eapply Hbegun. }
  apply knowing_bind; [auto with relay|apply knowing_lift|intros _].
  apply knowing_observing; [auto with relay|]. intros current.
  apply knowing_lift_bind. intros next _. apply knowing_bind; [auto with relay|apply knowing_lift|intros _].
  apply knowing_outcome; [|intros e _; apply knowing_ret]. intros issued Hissued.
  pose proof (ci_issue_Ok _ _ _ _ _ Hissued) as [_ Hnb].
  apply knowing_lift_bind. intros metadata Hmeta%map_err_Ok.
  apply (knowing_atomically _ (λ r log, ∀ record : IssuanceResultRecord, r = Ok record →
      CertificateRecorded key approval_id csr app_id issued ∈ log));
    [auto with relay|intros w [Happr _] Hw; apply (wp_attach io 1 now key approval_id csr app_id issued); try done|].
  { exists core_identity, digest, generation', (hx_issue io), next. done. }
  intros attached. apply knowing_lift_bind. intros r Hr%map_err_Ok. subst attached.
  eapply (knowing_weaken _ (λ log, IssuanceBegun key now ∈ log ∧ CertificateRecorded key approval_id csr app_id issued ∈ log)).
  { intros log [[_ Hbegun] Hrec]. split; [done|]. by eapply Hrec. }
  apply (knowing_atomically _ (λ _ _, True)); [auto with relay|intros w [_ Hrec] Hw; by eapply wp_enroll|]. intros enrolled.
  apply knowing_outcome; [|intros e _; apply knowing_ret]. intros e _.
  apply (knowing_atomically _ (λ _ _, True)); [auto with relay|intros w [[Hbegun Hrec] _] Hw; by eapply wp_mark|]. intros marked.
  apply knowing_outcome; [|intros er _; apply knowing_ret]. intros marked_record _.
  apply knowing_lift_bind. intros payload _. apply knowing_ret.
Qed.

Lemma confirmed_record_Ok record approval_id app_identity fingerprint chain_digest generation result :
  confirmed_record sha256 parse_certificate base64_encode record approval_id (app_identity, fingerprint, chain_digest) generation = Ok result →
  ir_fingerprint record = Some fingerprint
  ∧ certificate_identity_digest sha256 parse_certificate (ir_certificate_chain record) = Some app_identity
  ∧ public_chain_digest sha256 (ir_certificate_chain record) = chain_digest
  ∧ ir_configuration_generation record = Some generation.
Proof.
  unfold confirmed_record. intros (f & Hf%ok_or_Ok & H)%bind_Ok. destruct (_ || _) eqn:Hc; [done|]. bool_facts.
  unfold issuance_record_payload in H. apply bind_Ok in H as (f' & _ & H). apply bind_Ok in H as (g & Hg%ok_or_Ok & H).
  destruct (Z.eqb_spec generation g); [|done]. subst. done.
Qed.

Lemma knowing_confirm io core_identity payload :
  io_sound io →
  knowing (λ _, True)
    (confirm_hde3_persisted sha256 parse_certificate base64_encode base64_decode components io payload core_identity).
Proof.
  intros Hio. pose proof Hio as (_ & _ & Hboot & Hclock). apply knowing_outcome; [intros [] _|intros e _; apply knowing_ret].
  apply knowing_lift_bind. intros approval_id Happr. apply knowing_lift_bind. intros [[app_identity fingerprint] chain_digest] Hsup.
  apply knowing_bind; [auto with relay|apply knowing_lift|intros _].
  apply knowing_lift_bind. intros now Hnow%ok_or_Ok. specialize (Hclock now Hnow).
  apply (knowing_atomically _ (found_justified (λ record, ik_authorization_id (ir_key record) = hde3_authorization_id sha256 approval_id)));
    [auto with relay|intros w _ Hw; by apply wp_find_by_id|]. intros found.
  apply knowing_lift_bind. intros found' ->. apply knowing_lift_bind. intros record ->%ok_or_Ok.
  apply knowing_outcome; [|intros c _; apply knowing_ret]. intros result Hres.
  apply confirmed_record_Ok in Hres as (Hfp & Hid & Hcd & Hgen).
  apply knowing_lift_bind. intros app_id Happ%map_err_Ok.
  assert (Happid : ir_app_id record = app_id).
  { unfold AppId_new in Happ. destruct (identity_refused _); [done|]. by injection Happ. }
  eapply (knowing_weaken _ (λ log, confirmation_exact payload record ∧ record_justified log record)).
  { intros log [_ Hfound]. destruct (Hfound record eq_refl) as [Hauth Hj]. split; [|done].
    exists approval_id, app_identity, fingerprint, chain_digest. done. }
  apply knowing_bind; [auto with relay|apply knowing_lift|intros _].
  apply (knowing_atomically _ (λ _ _, True)); [auto with relay| |].
  { intros w _ Hw. by apply wp_silent. }
  intros confirmed. destruct (match confirmed with Ok _ | Err BrNotFound => true | _ => false end).
  2: { apply knowing_outcome; intros; apply knowing_ret. }
  apply knowing_bind; [auto with relay|apply knowing_lift|intros _].
  apply (knowing_atomically _ (λ _ _, True)); [auto with relay|intros w [[Hex Hj] _] Hw; by apply wp_activate|].
  intros activated. apply knowing_lift_bind. intros a _. apply knowing_ret.
Qed.

Lemma knowing_reconcile io approval_id key :
  io_sound io →
  knowing (λ _, True) (reconcile_hde3_record sha256 parse_certificate base64_encode components io approval_id key).
Proof.
  intros Hio. pose proof Hio as (_ & _ & Hboot & Hclock). unfold reconcile_hde3_record.
  apply knowing_bind; [auto with relay|apply knowing_lift|intros _].
  apply knowing_lift_bind. intros now Hnow%ok_or_Ok. specialize (Hclock now Hnow).
  apply (knowing_atomically _ (found_justified (λ record, ir_key record = key))); [auto with relay|intros w _ Hw; by apply wp_find|].
  intros found. apply knowing_lift_bind. intros [record|] _; apply knowing_ret.
Qed.

(** *** The connection *)
Abbreviation submit_decode := (Hde3ApprovalSubmitPayload_decode_fields base64_encode base64_decode sha256).

Lemma knowing_submit_and_issue io n core_identity fields :
  io_sound io →
  knowing (λ _, True) (submit_and_issue sha256 parse_certificate base64_encode json components io n core_identity fields).
Proof.
  intros Hio. pose proof Hio as (_ & _ & Hboot & _). destruct fields as [[[[approval_id challenge] code] csr] digest]. unfold submit_and_issue.
  apply (knowing_atomically _ (λ r log, ∀ ctx, r = Ok ctx →
    sha256 (ac_app_csr ctx) = ac_app_csr_digest ctx
    ∧ AppApproved core_identity (ac_approval_id ctx) (ac_app_csr ctx) (ac_app_csr_digest ctx) (ac_configuration_generation ctx) ∈ log));
    [auto with relay| |].
  { intros w _ Hw. eapply wp_conseq.
    - apply (wp_on_bootstrap _ _ _ _ _ (λ r, ∀ ctx, r = Ok ctx → sha256 (ac_app_csr ctx) = ac_app_csr_digest ctx)); [done..|].
      intros r held held' log Hheld Hacc Hin. split.
      + intros ctx ->. by destruct (at_approved _ _ _ _ _ _ Hacc _ _ _ _ _ _ _ eq_refl eq_refl) as (_ & _ & -> & -> & ?).
      + intros e He. destruct r as [ctx|er|]; simpl in He; [|set_solver..]. apply list_elem_of_singleton in He as ->.
        by eapply approved_justified.
    - intros r w' (H1 & H2 & H3 & H4). split_and!; [done|done|]. intros ctx ->. split; [by apply H3|]. apply H4. simpl. by left. }
  intros r. apply knowing_outcome; [|intros e _; apply knowing_rejecting; auto with relay]. intros ctx ->.
  apply knowing_finish_with; [|].
  { apply stays_and; [apply stays_true|]. apply stays_all. intros a. apply stays_impl, stays_and; auto with relay. }
  intros l s [_ Hs]. destruct (Hs ctx eq_refl) as [Hdigest Hin].
  exact (knowing_issue io core_identity _ _ _ _ _ Hio Hdigest l s Hin).
Qed.

Lemma knowing_first_app io core_identity frame :
  io_sound io →
  knowing (λ _, True)
    (serve_first_app_submit sha256 parse_certificate base64_encode base64_decode json components io core_identity frame).
Proof.
  intros Hio. pose proof Hio as (_ & _ & Hboot & _). apply knowing_outcome; [|intros e _; apply knowing_rejecting, stays_true].
  intros [[approval_id csr] digest] Hdec.
  assert (Hdigest : sha256 csr = digest).
  { apply bind_Ok in Hdec as (payload & _ & H). unfold Hde3FirstAppSubmitPayload_decode_fields in H.
    apply bind_Ok in H as (ap & _ & H). apply bind_Ok in H as (c & _ & H). apply bind_Ok in H as (d & _ & H).
    apply bind_Ok in H as ([] & Hv & H). injection H as -> -> ->. unfold Hde3_validate_csr_digest in Hv.
    by case_bool_decide. }
  apply (knowing_atomically _ (λ r log, ∀ g, r = Ok g → AppApproved core_identity approval_id csr digest g ∈ log));
    [auto with relay| |].
  { intros w _ Hw. eapply wp_conseq.
    - apply (wp_on_bootstrap _ _ _ _ _ (λ _, True)); [done..|].
      intros r held held' log Hheld Hacc _. split; [done|]. intros e He.
      destruct r as [g|er|]; simpl in He; [|set_solver..]. apply list_elem_of_singleton in He as ->.
      by eapply authorized_justified.
    - intros r w' (H1 & H2 & _ & H4). split_and!; [done|done|]. intros g ->. apply H4. simpl. by left. }
  intros r. apply knowing_outcome; [|intros e _; apply knowing_rejecting; auto with relay]. intros g ->.
  apply knowing_finish_with; [auto with relay|]. intros l s [_ Hs].
  exact (knowing_issue io core_identity _ _ _ _ _ Hio Hdigest l s (Hs g eq_refl)).
Qed.

Lemma knowing_start io core_identity frame :
  io_sound io →
  knowing (λ _, True)
    (serve_approval_start sha256 parse_certificate base64_encode base64_decode json components io core_identity frame).
Proof.
  intros Hio. pose proof Hio as (_ & _ & Hboot & _). apply knowing_outcome; [|intros e _; apply knowing_rejecting, stays_true]. intros payload _.
  apply knowing_lift_bind. intros digest _. apply knowing_lift_bind. intros binding _.
  apply (knowing_atomically _ (λ _ _, True)); [auto with relay| |].
  { intros w _ Hw. by apply wp_silent. }
  intros r. eapply (knowing_weaken _ (λ _, True)); [done|].
  apply knowing_outcome; [|intros e _; apply knowing_rejecting, stays_true]. intros challenge _.
  apply knowing_lift_bind. intros challenge_frame _. apply knowing_bind; [apply stays_true|apply knowing_write|intros _].
  apply knowing_bind; [apply stays_true|apply knowing_locally|intros [submit|]; [|apply knowing_ret]].
  apply knowing_outcome; [|intros e _; apply knowing_rejecting, stays_true].
  intros [[[[approval_id submitted] code] csr] d] _.
  destruct (_ || _); [apply knowing_rejecting, stays_true|]. by apply knowing_submit_and_issue.
Qed.

Lemma knowing_serve io core_identity :
  io_sound io →
  knowing (λ _, True)
    (serve_hde3_connection sha256 parse_certificate base64_encode base64_decode json components io core_identity).
Proof.
  intros Hio. unfold serve_hde3_connection. do 3 (apply knowing_bind; [apply stays_true|apply knowing_lift|intros _]).
  apply knowing_lift_bind. intros [] _. apply knowing_bind; [apply stays_true|apply knowing_locally|intros [frame|]].
  - apply knowing_bind; [apply stays_true| |intros []; [apply knowing_locally|apply knowing_ret]]. unfold serve_frame.
    assert (Hdefault : knowing (λ _, True) (sv_bind (send_hde3_rejection base64_encode json io None 3) (λ _, sv_ret true))).
    { apply knowing_bind; [apply stays_true|apply knowing_rejection|intros _; apply knowing_ret]. }
    destruct (fr_kind frame); try exact Hdefault.
    + by apply knowing_first_app.
    + by apply knowing_start.
    + apply knowing_outcome; [|intros e _; apply knowing_rejecting, stays_true]. intros fields _. by apply knowing_submit_and_issue.
    + apply knowing_outcome; [|intros e _; apply knowing_rejecting, stays_true]. intros payload _.
      apply knowing_finish_with; [apply stays_true|by apply knowing_confirm].
    + apply knowing_outcome; [|intros e _; apply knowing_rejecting, stays_true]. intros payload _.
      apply knowing_lift_bind. intros approval_id _. apply knowing_lift_bind. intros digest _.
      apply knowing_lift_bind. intros key _. apply knowing_finish_with; [apply stays_true|by apply knowing_reconcile].
  - apply knowing_bind; [apply stays_true| |]. 2: { intros r. apply knowing_outcome; intros; apply knowing_ret. }
    intros l s Hs. apply sv_safe_caught. by apply (knowing_rejection (λ _, True)).
Qed.

(** *** The bootstrap connection *)
Context (hdb1_json : Hdb1Json).

Definition hdb1_sound (io : Hdb1Io BIo) : Prop := ∀ n, sb_sound (hb_bootstrap io n).

(** A step of a handler that has nothing to know and nothing to keep. *)
Lemma knowing_silent {E' A B} (m : stateful World E' A) (f : outcome E' A → handling B) :
  (∀ w, world_ok w → wp m (λ r w', world_ok w' ∧ log_grows w w' ∧ True) w) →
  (∀ r, knowing (λ _, True) (f r)) → knowing (λ _, True) (sv_bind (atomically m) f).
Proof.
  intros Hm Hf. apply (knowing_atomically _ (λ _ _, True)); [apply stays_true|by intros w _; apply Hm|].
  intros r. by eapply knowing_weaken; [|apply Hf].
Qed.
Lemma knowing_seq {A B} (m : handling A) (f : A → handling B) :
  knowing (λ _, True) m → (∀ a, knowing (λ _, True) (f a)) → knowing (λ _, True) (sv_bind m f).
Proof. apply knowing_bind, stays_true. Qed.
Lemma knowing_caught {A} (m : handling A) : knowing (λ _, True) m → knowing (λ _, True) (caught m).
Proof. intros Hm l s Hs. apply sv_safe_caught. eapply sv_safe_conseq; [|by apply Hm]. done. Qed.

Ltac knowing_step := first
  [ apply knowing_ret | apply knowing_lift | apply knowing_locally
  | apply knowing_silent; [intros ? ?; by apply wp_silent|intros ?]
  | apply knowing_seq; [|intros ?]
  | apply knowing_caught
  | apply knowing_outcome; [intros ? _|intros ? _] ].

Lemma knowing_turn_away (io : Hdb1Io BIo) code : knowing (λ _, True) (turn_away hdb1_json io code).
Proof. unfold turn_away, ignored, send_hdb1_rejection. repeat knowing_step. Qed.

Lemma knowing_submit_response (io : Hdb1Io BIo) n frame :
  hdb1_sound io → knowing (λ _, True) (bootstrap_submit_response base64_encode base64_decode hdb1_json io n frame).
Proof.
  intros Hio. apply knowing_outcome; [intros [[id challenge] code] _|intros e _; apply knowing_lift]. repeat knowing_step.
Qed.

Lemma knowing_bootstrap io present :
  hdb1_sound io → knowing (λ _, True) (serve_bootstrap_connection base64_encode base64_decode hdb1_json present io).
Proof.
  intros Hio. unfold serve_bootstrap_connection, component. do 4 (apply knowing_seq; [apply knowing_lift|intros _]).
  apply knowing_seq; [apply knowing_locally|intros [start|]; [|apply knowing_turn_away]].
  destruct (bool_decide _); [|destruct (bool_decide _)].
  - unfold resume_submission, finish_send. apply knowing_seq; [by apply knowing_submit_response|intros response]. repeat knowing_step.
  - apply knowing_outcome; [intros [[approval_id binding] session] _|intros e _; apply knowing_turn_away]. unfold finish_send.
    repeat knowing_step.
  - apply knowing_outcome; [intros payload _|intros e _; apply knowing_turn_away]. unfold deliver_challenge, abandon, finish_send.
    apply knowing_silent; [intros ? ?; by apply wp_silent|intros r].
    apply knowing_outcome; [intros challenge _|intros e _; apply knowing_turn_away].
    apply knowing_seq; [repeat knowing_step|intros delivered].
    apply knowing_outcome; [intros _ _|intros e _; repeat knowing_step].
    apply knowing_seq; [apply knowing_locally|intros [submit|]; [|apply knowing_locally]].
    apply knowing_seq; [by apply knowing_submit_response|intros response]. repeat knowing_step.
Qed.

(** ** The server *)
Definition party_sound (party : ServerParty BIo RIo AIo CIo) : Prop :=
  match party with
  | Hdb1Connection io _ => hdb1_sound io
  | Hde3Connection io _ _ => io_sound io
  | Revocation open_io revoke_io _ => al_sound open_io ∧ al_opens open_io ∧ al_sound revoke_io
  end.

Abbreviation task_of := (server_task sha256 parse_certificate base64_encode base64_decode hdb1_json json components).

Lemma server_task_safe party s :
  party_sound party → task_safe world_ok log_grows (λ _ _, True) (task_of party) s.
Proof.
  intros Hp. destruct party as [io incoming|io core_identity incoming|open_io revoke_io app_id].
  - by apply (knowing_bootstrap io _ Hp).
  - by apply (knowing_serve io core_identity Hp).
  - destruct Hp as (H1 & H2 & H3). apply (sv_safe_bind world_ok log_grows (λ _ _ _, True)). apply sv_safe_caught.
    apply sv_safe_atomically. intros s1 _ Hw. eapply wp_conseq; [apply wp_on_allowlist; [done| |by intros r; rewrite app_nil_r; split; [apply Hw|]]|].
    + intros reg Hreg Haok. eapply wp_conseq; [by apply (al_revoke_steps open_io revoke_io app_id _ reg)|].
      intros r s' (v' & Hh & Hv). exists v'. split; [done|]. rewrite app_nil_r. destruct Hv as [->| ->]; [done|].
      by apply allowlist_ok_revoke.
    + intros [e|e|] w' (? & ? & _); split_and!; done.
Qed.

Lemma world_ok_start w :
  sw_log w = [] → sb_wf (sw_bootstrap w) → held0 = sb_holdings (sw_bootstrap w) →
  rs_holds (sw_results w) rs0 → al_holds (sw_allowlist w) reg0 → allowlist_wf reg0 → world_ok w.
Proof.
  intros Hlog Hb Hheld Hrs Hal Hwf. split; rewrite Hlog.
  - split; intros; set_solver.
  - split; [done|]. rewrite <-Hheld. split; intros; left; [done|eauto|done].
  - exists rs0. split; [done|]. split; [intros key t [|] post; done|]. apply Forall_forall. intros r Hr.
    unfold record_justified. destruct (ir_fingerprint r) eqn:Hf; [left; by exists r|done].
  - exists reg0. split; [done|]. split; [|intros app e He Ha; left; by exists e].
    exists []. split; [by apply allowlist_step_refl|set_solver].
Qed.

Lemma server_keeps_world parties schedule w0 w ts :
  Forall party_sound parties →
  sw_log w0 = [] → sb_wf (sw_bootstrap w0) → held0 = sb_holdings (sw_bootstrap w0) →
  rs_holds (sw_results w0) rs0 → al_holds (sw_allowlist w0) reg0 → allowlist_wf reg0 →
  run_schedule schedule (w0, task_of <$> parties) = (w, ts) → world_ok w.
Proof.
  intros Hp Hlog Hb Hheld Hrs Hal Hwf Hrun. rewrite Forall_forall in Hp.
  apply (run_schedule_safe world_ok log_grows (λ w, reflexivity w) (λ a b c, transitivity (x := a) (y := b) (z := c)) (λ _ _, True)) in Hrun; [by destruct Hrun|done|by apply world_ok_start|].
  intros t (party & -> & Hin)%list_elem_of_fmap. by apply server_task_safe, Hp.
Qed.
End Authority.

(** ** The exchange on a connection

    Before the answer at most a challenge goes out. *)
Definition unanswered (challenge : list byte → Prop) (sent : list (list byte)) : Prop :=
  sent = [] ∨ ∃ c, sent = [c] ∧ challenge c.
Definition answered (challenge answer : list byte → Prop) (sent : list (list byte)) : Prop :=
  ∃ cs a, sent = cs ++ [a] ∧ unanswered challenge cs ∧ answer a.

(** The stages of a connection that was not closed yet. *)
Definition waiting_for (challenge : list byte → Prop) (l : ServerStream) : Prop :=
  unanswered challenge (ss_sent l) ∧ ss_closed l = false.
Definition replied_to (challenge answer : list byte → Prop) (l : ServerStream) : Prop :=
  answered challenge answer (ss_sent l) ∧ ss_closed l = false.
Definition starting (l : ServerStream) : Prop := ss_sent l = [] ∧ ss_closed l = false.

(** *** HDE3 *)
Section Exchanges.
Context {W BIo RS RIo AS AIo CIo : Type}.
Context `{!BootstrapService W BIo, !ResultStore RS RIo, !AllowlistStore AS AIo, !CertificateIssuer CIo}.
Context (sha256 : list byte → list byte) (parse_certificate : list byte → option ParsedCertificate).
Context (base64_encode : list byte → list byte) (base64_decode : list byte → option (list byte)).
Context (json : Hde3Json) (components : Hde3Components).

Abbreviation World := (ServerWorld W BIo RS AS).
Abbreviation handling := (serving World ServerStream RelayError).
Abbreviation Io := (Hde3Io BIo RIo AIo CIo).

Definition is_challenge (bytes : list byte) : Prop :=
  ∃ frame, Hde3Frame_decode bytes = Ok frame ∧ fr_kind frame = Hde3ApprovalChallenge.
Definition is_answer (bytes : list byte) : Prop :=
  ∃ frame, Hde3Frame_decode bytes = Ok frame ∧ (fr_kind frame = Hde3Result ∨ fr_kind frame = Hde3Rejected).

Abbreviation waiting := (waiting_for is_challenge).
Abbreviation replied := (replied_to is_challenge is_answer).

(** A handler that answers, one that leaves the connection alone, and one that serves a frame. *)
Definition answering {A} (r : relay_result A) (l : ServerStream) : Prop :=
  match r with Ok _ => replied l | _ => waiting l end.
Definition quiet {A} (n : nat) (m : handling A) : Prop := ∀ P, ends n P m (λ _ l, P l).
Definition serves (r : relay_result bool) (l : ServerStream) : Prop :=
  match r with Ok true => replied l | Ok false => waiting l ∨ replied l | _ => waiting l end.

Lemma Hde3_encode_decode frame bytes : Hde3Frame_encode frame = Ok bytes → Hde3Frame_decode bytes = Ok frame.
Proof.
  destruct Hde3_protocol_lawful as [(Hround & _) _]. intros He. assert (Hv : frame_valid HDE3_MAX_PAYLOAD_BYTES frame).
  { unfold frame_valid. unfold Hde3Frame_encode in He.
    destruct (Z.ltb_spec HDE3_MAX_PAYLOAD_BYTES (len (fr_payload frame))); [done|lia]. }
  destruct (Hround frame Hv) as (bs & Hbs & Hd).
  assert (bs = bytes) as -> by (apply (Ok_inj (E := Hde3Error)); by rewrite <-Hbs, <-He). exact Hd.
Qed.

Lemma write_frame_spec (io : Io) (frame : Hde3Frame) expired failed (P : ServerStream → Prop) (Q : relay_result unit → ServerStream → Prop) :
  (∀ l l', P l → ss_sent l' = ss_sent l → ss_closed l' = ss_closed l → (∀ e, Q (Err e) l') ∧ Q Panic l') →
  (∀ l l' bytes, P l → Hde3Frame_encode frame = Ok bytes → ss_sent l' = ss_sent l ++ [bytes] → ss_closed l' = ss_closed l → Q (Ok tt) l') →
  ends (S := World) 0 P (write_frame io frame expired failed) Q.
Proof.
  intros Hfail Hok. apply ends_locally. intros l Hl. cbv zeta. destruct (Hde3Frame_encode frame) as [bytes|e|] eqn:He; simpl.
  2-3: by eapply Hfail. destruct (hx_write io _); simpl; [by eapply Hok|by eapply Hfail..].
Qed.

Lemma answer_written (io : Io) (frame : Hde3Frame) expired failed :
  fr_kind frame = Hde3Result ∨ fr_kind frame = Hde3Rejected →
  ends (S := World) 0 waiting (write_frame io frame expired failed) answering.
Proof.
  intros Hk. apply write_frame_spec.
  - intros l l' [H1 H2] Hs Hc. rewrite <-Hs, <-Hc in *. done.
  - intros l l' bytes [H1 H2] He Hs Hc. split; [|congruence]. exists (ss_sent l), bytes. split_and!; [done|done|].
    exists frame. split; [by apply Hde3_encode_decode|done].
Qed.

Lemma Hde3Frame_json_kind {T} (to_vec : T → option (list byte)) kind value frame :
  Hde3Frame_json to_vec kind value = Ok frame → fr_kind frame = kind.
Proof. unfold Hde3Frame_json, frame_json. intros (payload & _ & H)%bind_Ok. destruct (_ <? _); [done|]. by injection H as <-. Qed.

Lemma stops_answering {A} : stops waiting (answering (A := A)).
Proof. done. Qed.
Lemma stops_serves : stops waiting serves.
Proof. done. Qed.
Lemma stops_quiet {A} (P : ServerStream → Prop) : stops P (λ (_ : relay_result A) l, P l).
Proof. done. Qed.
#[local] Hint Resolve stops_answering stops_serves stops_quiet : relay.

Lemma ends_outcome {E A B} n (P : ServerStream → Prop) Q (r : outcome E A) (ok : A → handling B) (err : E → handling B) :
  stops P Q → (∀ a, r = Ok a → ends n P (ok a) Q) → (∀ e, r = Err e → ends n P (err e) Q) → ends n P (on_outcome r ok err) Q.
Proof.
  intros Hs Ho He. destruct r as [a|e|]; simpl; [by apply Ho|by apply He|]. apply ends_lift. intros l Hl. by apply Hs.
Qed.

Lemma rejection_written (io : Io) approval_id code :
  ends (S := World) 0 waiting (send_hde3_rejection base64_encode json io approval_id code) answering.
Proof.
  apply ends_lift_bind; [auto with relay|]. intros frame Hf%map_err_Ok. apply answer_written.
  destruct approval_id; apply bind_Ok in Hf as (payload & _ & Hf); apply Hde3Frame_json_kind in Hf; auto.
Qed.
Lemma rejecting_serves (io : Io) approval_id code n :
  ends (S := World) n waiting (rejecting base64_encode json io approval_id code) serves.
Proof.
  apply (ends_bind 0 n _ answering); [apply rejection_written|done..|]. intros []. apply ends_ret. by right.
Qed.
Lemma result_written (io : Io) result :
  ends (S := World) 0 waiting (send_hde3_result base64_encode json io result) answering.
Proof.
  apply ends_outcome; [auto with relay| |intros code _; apply rejection_written]. intros payload _.
  apply ends_lift_bind; [auto with relay|]. intros frame Hf%map_err_Ok%Hde3Frame_json_kind. apply answer_written. auto.
Qed.
Lemma finish_with_serves (io : Io) n handler :
  quiet n handler → ends n waiting (finish_with base64_encode json io handler) serves.
Proof.
  intros Hh. replace n with (n + (0 + 0))%nat by lia. apply (ends_bind _ _ _ _ _ _ _ (Hh waiting)); [done..|]. intros result.
  apply (ends_bind 0 0 _ answering); [apply result_written|done..|]. intros []. by apply ends_ret.
Qed.

(** The handlers between leave the connection alone. *)
Ltac quiet_step := first
  [ apply ends_ret; done
  | apply ends_lift_bind; [auto with relay|intros ? _]
  | apply ends_atomically_bind; intros ?
  | apply ends_observing_bind; intros ?
  | apply ends_outcome; [auto with relay|intros ? _|intros ? _] ].


Ltac quiet_all := repeat first [quiet_step | case_match].

Lemma issue_quiet (io : Io) approval_id csr digest generation :
  quiet 5 (issue_hde3_app sha256 parse_certificate base64_encode components io approval_id csr digest generation).
Proof. intros P. unfold issue_hde3_app, component. quiet_all. Qed.

Lemma confirm_quiet (io : Io) payload core_identity :
  quiet 3 (confirm_hde3_persisted sha256 parse_certificate base64_encode base64_decode components io payload core_identity).
Proof. intros P. unfold confirm_hde3_persisted, component. quiet_all. Qed.

Lemma reconcile_quiet (io : Io) approval_id key :
  quiet 1 (reconcile_hde3_record sha256 parse_certificate base64_encode components io approval_id key).
Proof. intros P. unfold reconcile_hde3_record, component. quiet_all. Qed.

Lemma submit_serves (io : Io) n core_identity fields :
  ends 6 waiting (submit_and_issue sha256 parse_certificate base64_encode json components io n core_identity fields) serves.
Proof.
  destruct fields as [[[[approval_id challenge] code] csr] digest]. unfold submit_and_issue.
  apply ends_atomically_bind. intros r. apply ends_outcome; [auto with relay|intros ctx _|intros e _; apply rejecting_serves].
  apply finish_with_serves, issue_quiet.
Qed.

Lemma submission_serves (io : Io) core_identity challenge frame :
  ends 6 waiting
    (serve_submission sha256 parse_certificate base64_encode base64_decode json components io core_identity challenge frame) serves.
Proof.
  apply ends_outcome; [auto with relay| |intros e _; apply rejecting_serves].
  intros [[[[approval_id submitted] code] csr] digest] _. destruct (_ || _); [apply rejecting_serves|apply submit_serves].
Qed.

Lemma starting_waiting l : starting l → waiting l.
Proof. intros [H1 H2]. split; [by left|done]. Qed.

Lemma ends_starting {A} n (m : handling A) Q : ends n waiting m Q → ends n starting m Q.
Proof. intros H. eapply ends_weaken; [exact H|done|apply starting_waiting|done]. Qed.

Lemma start_serves (io : Io) core_identity frame :
  ends 7 starting
    (serve_approval_start sha256 parse_certificate base64_encode base64_decode json components io core_identity frame) serves.
Proof.
  assert (Hs : stops starting serves) by (intros l Hl; by split; [intros e|]; apply starting_waiting).
  apply ends_outcome; [done| |intros e _; apply ends_starting, rejecting_serves]. intros payload _.
  do 2 (apply ends_lift_bind; [done|]; intros ? _). apply ends_atomically_bind. intros r.
  apply ends_outcome; [done|intros challenge _|intros e _; apply ends_starting, rejecting_serves].
  apply ends_lift_bind; [done|]. intros challenge_frame Hf%map_err_Ok.
  apply bind_Ok in Hf as (p & _ & Hf%Hde3Frame_json_kind).
  apply (ends_bind 0 6 _ (λ _, waiting)); [|done..|intros _].
  { apply write_frame_spec.
    - intros l l' Hl Hsent Hclosed. destruct (starting_waiting l Hl) as [H1 H2]. unfold waiting. by rewrite Hsent, Hclosed.
    - intros l l' bytes [H1 H2] He%Hde3_encode_decode Hsent Hclosed. split; [|congruence]. right. exists bytes.
      split; [by rewrite Hsent, H1|]. by exists challenge_frame. }
  apply (ends_bind 0 6 _ (λ _, waiting)); [|done..|intros [submit|]].
  { apply ends_locally. intros l Hl. destruct (Hde3_read_frame _) as [rest f]. destruct (hx_read_expires io _); [done|]. by destruct f. }
  - apply submission_serves.
  - apply ends_ret. by left.
Qed.

Lemma frame_serves (io : Io) core_identity frame :
  ends 7 starting
    (serve_frame sha256 parse_certificate base64_encode base64_decode json components io core_identity frame) serves.
Proof.
  assert (Hother : ends (S := World) 7 starting (sv_bind (send_hde3_rejection base64_encode json io None 3) (λ _, sv_ret true)) serves).
  { apply ends_starting, (ends_bind 0 7 _ answering); [apply rejection_written|done..|]. intros []. by apply ends_ret. }
  assert (Hless : ∀ n (m : handling bool), (n ≤ 7)%nat → ends n waiting m serves → ends 7 starting m serves)
    by (intros n m Hn Hm; eapply ends_weaken; [exact Hm|done|apply starting_waiting|done]).
  unfold serve_frame. destruct (fr_kind frame); [|by apply start_serves| | | | |exact Hother..]; [|exact Hother|..].
  - apply (Hless 6%nat); [lia|]. apply ends_outcome; [auto with relay| |intros e _; apply rejecting_serves].
    intros [[approval_id csr] digest] _. apply ends_atomically_bind. intros r.
    apply ends_outcome; [auto with relay|intros g _|intros e _; apply rejecting_serves]. apply finish_with_serves, issue_quiet.
  - apply (Hless 6%nat); [lia|]. apply ends_outcome; [auto with relay| |intros e _; apply rejecting_serves].
    intros fields _. apply submit_serves.
  - apply (Hless 3%nat); [lia|]. apply ends_outcome; [auto with relay| |intros e _; apply rejecting_serves].
    intros payload _. apply finish_with_serves, confirm_quiet.
  - apply (Hless 1%nat); [lia|]. apply ends_outcome; [auto with relay| |intros e _; apply rejecting_serves].
    intros payload _. do 3 (apply ends_lift_bind; [auto with relay|]; intros ? _). apply finish_with_serves, reconcile_quiet.
Qed.

(** How a connection is left. *)
Definition left_over (r : relay_result unit) (l : ServerStream) : Prop :=
  (unanswered is_challenge (ss_sent l) ∨ answered is_challenge is_answer (ss_sent l)) ∧ (ss_closed l = true → answered is_challenge is_answer (ss_sent l) ∧ r = Ok tt).

Lemma serve_ends (io : Io) core_identity :
  ends 7 starting
    (serve_hde3_connection sha256 parse_certificate base64_encode base64_decode json components io core_identity) left_over.
Proof.
  assert (Hw : ∀ r l, waiting l → left_over r l) by (intros r l [H1 H2]; split; [by left|by rewrite H2]).
  assert (Hr : ∀ r l, replied l → left_over r l) by (intros r l [H1 H2]; split; [by right|by rewrite H2]).
  assert (Hs : stops starting left_over) by (intros l Hl%starting_waiting; by split; [intros e|]; apply Hw).
  unfold serve_hde3_connection, component. do 4 (apply ends_lift_bind; [done|]; intros ? _).
  apply (ends_bind 0 7 _ (λ _, starting)); [|by intros; apply Hs..|intros [frame|]].
  { apply ends_locally. intros l Hl. destruct (Hde3_read_frame _) as [rest f]. destruct (hx_read_expires io _); [done|]. by destruct f. }
  - apply (ends_bind 7 0 _ serves); [apply frame_serves|by intros; apply Hw..|]. intros [].
    + apply ends_locally. intros l [H1 H2]. destruct (hx_finish_fails io); [by apply Hr|]. split; [by right|done].
    + apply ends_ret. intros l [?|?]; [by apply Hw|by apply Hr].
  - apply ends_starting, (ends_bind 0 7 _ (λ r l, waiting l ∨ replied l)).
    + apply ends_caught. eapply ends_weaken; [apply rejection_written|done|done|]. intros [x|e|] l; [by right|by left..].
    + intros l e [?|?]; [by apply Hw|by apply Hr].
    + intros l [?|?]; [by apply Hw|by apply Hr].
    + intros r. apply ends_outcome; [intros l [?|?]; split; intros; (by apply Hw) || (by apply Hr)|intros; apply ends_ret..];
        intros l [?|?]; (by apply Hw) || (by apply Hr).
Qed.

End Exchanges.

(** *** HDB1 *)
Section Bootstraps.
Context {W BIo RS AS : Type}.
Context `{!BootstrapService W BIo}.
Context (base64_encode : list byte → list byte) (base64_decode : list byte → option (list byte)).
Context (json : Hdb1Json) (bootstrap_present : bool).

Abbreviation World := (ServerWorld W BIo RS AS).
Abbreviation handling := (serving World ServerStream RelayError).

Definition is_hdb1_challenge (bytes : list byte) : Prop :=
  ∃ frame, Hdb1Frame_decode bytes = Ok frame ∧ fr_kind frame = Hdb1Challenge.
Definition is_hdb1_answer (bytes : list byte) : Prop :=
  ∃ frame, Hdb1Frame_decode bytes = Ok frame ∧ fr_kind frame ∈ [Hdb1CoreIssued; Hdb1Result; Hdb1Rejected].

Abbreviation waiting := (waiting_for is_hdb1_challenge).
Abbreviation replied := (replied_to is_hdb1_challenge is_hdb1_answer).

Section Connection.
Context (io : Hdb1Io BIo) (incoming : list byte).

(** The first frame was read, nothing else happened. *)
Definition opened (l : ServerStream) : Prop :=
  l = {| ss_incoming := (Hdb1_read_frame incoming).1; ss_sent := []; ss_reads := 1; ss_writes := 0; ss_closed := false |}.

(** Why a connection that was served to its end may have no answer: it was turned away, and
    the rejection could not be encoded or the first write did not succeed; or it was
    challenged, and no submission was read in time. *)
Definition rejection_lost (l : ServerStream) : Prop :=
  ss_sent l = []
  ∧ ∃ code, ∀ frame bytes, hdb1_rejection_frame json code = Ok frame → Hdb1Frame_encode frame = Ok bytes → hb_write io 1 ≠ Written.
Definition submission_missing (l : ServerStream) : Prop :=
  (∃ bytes, ss_sent l = [bytes] ∧ is_hdb1_challenge bytes)
  ∧ (hb_read_expires io 1 = true ∨ ∀ frame, (Hdb1_read_frame (Hdb1_read_frame incoming).1).2 ≠ Ok frame).

(** How a connection is left: closed, unless the handler failed, with its answer or one of the
    two reasons for none; and a failure closes it only when nothing was sent. *)
Definition hdb1_left (r : relay_result unit) (l : ServerStream) : Prop :=
  (unanswered is_hdb1_challenge (ss_sent l) ∨ answered is_hdb1_challenge is_hdb1_answer (ss_sent l))
  ∧ (r = Ok tt → ss_closed l = true
       ∧ (answered is_hdb1_challenge is_hdb1_answer (ss_sent l) ∨ rejection_lost l ∨ submission_missing l))
  ∧ (r ≠ Ok tt → ss_closed l = true → ss_sent l = []).

(** A stage at which the connection may be closed without a failure. *)
Definition may_close (l : ServerStream) : Prop :=
  replied l ∨ waiting l ∧ (rejection_lost l ∨ submission_missing l).

Lemma left_open r l : r ≠ Ok tt → waiting l ∨ replied l → hdb1_left r l.
Proof. intros Hr [[H1 H2]|[H1 H2]]; (split; [by (left + right)|]); rewrite H2; by split. Qed.
Lemma opened_waiting l : opened l → waiting l.
Proof. intros ->. split; [by left|done]. Qed.
Lemma stops_left P : (∀ l, P l → waiting l ∨ replied l) → stops P hdb1_left.
Proof. intros HP l Hl. split; [intros e|]; by apply left_open, HP. Qed.

Lemma ends_close n P : (∀ l, P l → may_close l) → ends (S := World) n P close_connection hdb1_left.
Proof.
  intros HP. apply ends_locally. intros l Hl. destruct (HP l Hl) as [[H _]|[[H _] Hwhy]].
  - split; [by right|]. split; [split; [done|by left]|done].
  - split; [by left|]. split; [split; [done|by right]|done].
Qed.

Lemma Hdb1_encode_decode frame bytes : Hdb1Frame_encode frame = Ok bytes → Hdb1Frame_decode bytes = Ok frame.
Proof.
  destruct Hdb1_protocol_lawful as [(Hround & _) _]. intros He. assert (Hv : frame_valid HDB1_MAX_PAYLOAD_BYTES frame).
  { unfold frame_valid. unfold Hdb1Frame_encode in He.
    destruct (Z.ltb_spec HDB1_MAX_PAYLOAD_BYTES (len (fr_payload frame))); [done|lia]. }
  destruct (Hround frame Hv) as (bs & Hbs & Hd).
  assert (bs = bytes) as -> by (apply (Ok_inj (E := Hdb1Error)); by rewrite <-Hbs, <-He). exact Hd.
Qed.

Lemma hdb1_write (frame : Hdb1Frame) expired failed (P : ServerStream → Prop) (Q : relay_result unit → ServerStream → Prop) :
  (∀ l l', P l → ss_sent l' = ss_sent l → ss_closed l' = ss_closed l → (∀ e, Q (Err e) l') ∧ Q Panic l') →
  (∀ l l' bytes, P l → Hdb1Frame_decode bytes = Ok frame → ss_sent l' = ss_sent l ++ [bytes] → ss_closed l' = ss_closed l → Q (Ok tt) l') →
  ends (S := World) 0 P (write_hdb1_frame io frame expired failed) Q.
Proof.
  intros Hfail Hok. apply ends_locally. intros l Hl. cbv zeta. destruct (Hdb1Frame_encode frame) as [bytes|e|] eqn:He; simpl.
  2-3: by eapply Hfail. apply Hdb1_encode_decode in He. destruct (hb_write io _); simpl; [by eapply Hok|by eapply Hfail..].
Qed.

Definition hdb1_answering {A} (r : relay_result A) (l : ServerStream) : Prop :=
  match r with Ok _ => replied l | _ => waiting l end.

Lemma hdb1_answer_written (frame : Hdb1Frame) expired failed :
  fr_kind frame ∈ [Hdb1CoreIssued; Hdb1Result; Hdb1Rejected] →
  ends (S := World) 0 waiting (write_hdb1_frame io frame expired failed) hdb1_answering.
Proof.
  intros Hk. apply hdb1_write.
  - intros l l' [H1 H2] Hs Hc. unfold hdb1_answering, waiting_for. rewrite Hs, Hc. done.
  - intros l l' bytes [H1 H2] Hd Hs Hc. split; [|congruence]. exists (ss_sent l), bytes. split_and!; [done|done|by exists frame].
Qed.

Lemma Hdb1Frame_json_kind {T} (to_vec : T → option (list byte)) kind value frame :
  Hdb1Frame_json to_vec kind value = Ok frame → fr_kind frame = kind.
Proof. unfold Hdb1Frame_json, frame_json. intros (payload & _ & H)%bind_Ok. destruct (_ <? _); [done|]. by injection H as <-. Qed.
Lemma rejected_frame_kind reason code frame :
  rejected_frame json reason code = Ok frame → fr_kind frame ∈ [Hdb1CoreIssued; Hdb1Result; Hdb1Rejected].
Proof. intros Hf%map_err_Ok. apply bind_Ok in Hf as (p & _ & ->%Hdb1Frame_json_kind). set_solver. Qed.

(** The rejection of a connection that nothing was written to yet. *)
Lemma rejection_attempt code :
  ends (S := World) 0 opened (send_hdb1_rejection json io code)
    (λ r l, match r with Ok _ => replied l | _ => waiting l ∧ rejection_lost l end).
Proof.
  apply (ends_bind 0 0 _ (λ r l, opened l ∧ r = hdb1_rejection_frame json code)); [by apply ends_lift| | |].
  - intros l e [Hl He]. split; [by apply opened_waiting|]. rewrite Hl. split; [done|]. exists code. by rewrite <-He.
  - intros l [Hl He]. split; [by apply opened_waiting|]. rewrite Hl. split; [done|]. exists code. by rewrite <-He.
  - intros frame. apply ends_locally. intros l [-> Hf]. simpl.
    assert (Hlost : ∀ l', ss_sent l' = [] → ss_closed l' = false →
      (∀ bytes, Hdb1Frame_encode frame = Ok bytes → hb_write io 1 ≠ Written) → waiting l' ∧ rejection_lost l').
    { intros l' Hs Hc Hw. split; [by split; [left|]|]. split; [done|]. exists code. intros frame' bytes.
      rewrite <-Hf. intros [= <-]. apply Hw. }
    destruct (Hdb1Frame_encode frame) as [bytes|e|] eqn:He; simpl; [|by apply Hlost..].
    destruct (hb_write io 1) eqn:Hw; simpl; [|by apply Hlost..].
    split; [|done]. exists [], bytes. split_and!; [done|by left|]. exists frame. split; [by apply Hdb1_encode_decode|].
    by eapply rejected_frame_kind.
Qed.

Lemma turn_away_ends code n : ends (S := World) n opened (turn_away json io code) hdb1_left.
Proof.
  apply (ends_bind 0 n _ (λ _, may_close)).
  - apply (ends_bind 0 0 _ (λ _, may_close)); [|done..|].
    + apply ends_caught. eapply ends_weaken; [apply rejection_attempt|done|done|].
      intros [x|e|] l H; [by left|right..]; destruct H; by auto.
    + intros r. destruct r as [x|e|]; by apply ends_lift.
  - intros l e H. apply left_open; [done|]. destruct H as [?|[? _]]; auto.
  - intros l H. apply left_open; [done|]. destruct H as [?|[? _]]; auto.
  - intros []. by apply ends_close.
Qed.

(** The response to a submission is made without touching the connection, in one turn. *)
Lemma submit_response_ends n frame (P : ServerStream → Prop) :
  ends (S := World) 1 P (bootstrap_submit_response base64_encode base64_decode json io n frame)
    (λ r l, P l ∧ ∀ response, r = Ok response → fr_kind response ∈ [Hdb1CoreIssued; Hdb1Result; Hdb1Rejected]).
Proof.
  unfold bootstrap_submit_response. destruct (_ ≫= _) as [[[id challenge] code]|e|]; simpl.
  - apply ends_atomically_bind. intros [issued|e|]; simpl; apply ends_lift; intros l Hl; (split; [done|]).
    + intros response Hr%map_err_Ok. apply bind_Ok in Hr as (p & _ & ->%Hdb1Frame_json_kind). set_solver.
    + intros response. apply rejected_frame_kind.
    + done.
  - apply ends_lift. intros l Hl. split; [done|]. intros response. apply rejected_frame_kind.
  - apply ends_lift. done.
Qed.

(** Writing the response, finishing the stream and closing. *)
Lemma finish_ends frame expired failed reason n :
  fr_kind frame ∈ [Hdb1CoreIssued; Hdb1Result; Hdb1Rejected] →
  ends (S := World) n waiting
    (sv_bind (write_hdb1_frame io frame expired failed) (λ _, sv_bind (finish_send io reason) (λ _, close_connection))) hdb1_left.
Proof.
  intros Hk. apply (ends_bind 0 n _ hdb1_answering); [by apply hdb1_answer_written| | |].
  - intros l e H. apply left_open; [done|by left].
  - intros l H. apply left_open; [done|by left].
  - intros []. apply ends_lift_bind; [apply stops_left; by right|]. intros _ _. apply ends_close. by left.
Qed.

Lemma submission_ends k frame expired failed reason :
  ends (S := World) 1 waiting
    (sv_bind (bootstrap_submit_response base64_encode base64_decode json io k frame) (λ response,
       sv_bind (write_hdb1_frame io response expired failed) (λ _, sv_bind (finish_send io reason) (λ _, close_connection)))) hdb1_left.
Proof.
  apply (ends_bind 1 0 _ (λ r l, waiting l ∧ ∀ response, r = Ok response → fr_kind response ∈ [Hdb1CoreIssued; Hdb1Result; Hdb1Rejected])).
  - apply submit_response_ends.
  - intros l e [H _]. apply left_open; [done|by left].
  - intros l [H _]. apply left_open; [done|by left].
  - intros response l [Hl Hk]. by apply finish_ends; [apply Hk|].
Qed.

(** The challenge is delivered, or nothing was sent. *)
Definition challenged (l : ServerStream) : Prop :=
  waiting l ∧ (∃ bytes, ss_sent l = [bytes] ∧ is_hdb1_challenge bytes)
  ∧ ss_incoming l = (Hdb1_read_frame incoming).1 ∧ ss_reads l = 1%nat.

Lemma challenge_delivered challenge :
  ends (S := World) 0 opened (deliver_challenge base64_encode json io challenge)
    (λ r l, match r with Ok _ => challenged l | _ => starting l end).
Proof.
  apply ends_lift_bind; [by intros l ->|]. intros frame Hf%map_err_Ok.
  apply bind_Ok in Hf as (p & _ & Hf%Hdb1Frame_json_kind). apply ends_locally. intros l ->. simpl.
  destruct (Hdb1Frame_encode frame) as [bytes|e|] eqn:He; simpl; [|done..].
  destruct (hb_write io 1); simpl; [|done..]. apply Hdb1_encode_decode in He.
  assert (Hb : is_hdb1_challenge bytes) by (by exists frame).
  split; [split; [right; by exists bytes|done]|]. split; [by exists bytes|done].
Qed.

Lemma submission_read :
  ends (S := World) 0 challenged (read_hdb1_frame io)
    (λ r l, waiting l ∧ (r = Ok None → submission_missing l)).
Proof.
  apply ends_locally. intros l (Hw & Hs & Hin & Hr). cbv zeta. rewrite Hin, Hr.
  destruct (Hdb1_read_frame (Hdb1_read_frame incoming).1) as [rest f] eqn:Hread.
  destruct (hb_read_expires io 1) eqn:Hx; simpl; [split; [exact Hw|]; intros _; split; [exact Hs|by left]|].
  destruct f as [frame|e|]; simpl; (split; [exact Hw|]); try done.
  intros _. split; [done|]. right. by rewrite Hread.
Qed.

Lemma bootstrap_start_ends start :
  ends (S := World) 2 opened (start_bootstrap base64_encode base64_decode json io start) hdb1_left.
Proof.
  assert (Hs : stops opened hdb1_left) by (apply stops_left; intros l Hl; left; by apply opened_waiting).
  assert (Hsent : ∀ r l, r ≠ Ok tt → starting l → hdb1_left r l)
    by (intros r l Hr [H1 H2]; apply left_open; [done|]; left; split; [by left|done]).
  apply ends_outcome; [exact Hs|intros payload _|intros e _; apply turn_away_ends].
  apply ends_atomically_bind. intros r. apply ends_outcome; [exact Hs|intros challenge _|intros e _; apply turn_away_ends].
  apply (ends_bind 0 1 _ (λ r l, match r with Ok (Ok _) => challenged l | _ => starting l end)).
  - apply ends_caught, challenge_delivered.
  - intros l e Hl. by apply Hsent.
  - intros l Hl. by apply Hsent.
  - intros [[]|error|]; simpl; [|apply ends_atomically_bind; intros aborted|by apply ends_lift; intros l Hl; apply Hsent].
    + apply (ends_bind 0 1 _ (λ r l, waiting l ∧ (r = Ok None → submission_missing l))); [apply submission_read|..].
      1-2: intros; apply left_open; [done|left; tauto].
      intros [submit|].
      * eapply ends_weaken; [apply submission_ends|done|by intros l [? _]|done].
      * apply ends_close. intros l [Hw Hm]. right. split; [done|]. right. by apply Hm.
    + apply (ends_bind 0 0 _ (λ _, starting)); [by destruct aborted; apply ends_lift|by intros; apply Hsent..|intros []].
      apply (ends_bind 0 0 _ (λ _ l, ss_sent l = [] ∧ ss_closed l = true)).
      * apply ends_locally. by intros l [H _].
      * intros l e [H1 H2]. split; [left; by left|]. by split.
      * intros l [H1 H2]. split; [left; by left|]. by split.
      * intros []. apply ends_lift. intros l [H1 H2]. split; [left; by left|]. by split.
Qed.

Lemma bootstrap_ends :
  ends (S := World) 2 (λ l, l = ServerStream_start incoming)
    (serve_bootstrap_connection base64_encode base64_decode json bootstrap_present io) hdb1_left.
Proof.
  assert (Hs : stops (λ l, l = ServerStream_start incoming) hdb1_left)
    by (apply stops_left; intros l ->; left; split; [by left|done]).
  assert (Hso : stops opened hdb1_left) by (apply stops_left; intros l Hl; left; by apply opened_waiting).
  unfold serve_bootstrap_connection, component. do 4 (apply ends_lift_bind; [exact Hs|]; intros ? _).
  apply (ends_bind 0 2 _ (λ _, opened)); [|by intros; apply Hso..|intros [start|]; [|apply turn_away_ends]].
  { apply ends_locally. intros l ->. cbv zeta. unfold opened. simpl. destruct (Hdb1_read_frame incoming) as [rest f]. simpl.
    destruct (hb_read_expires io _); [done|]. by destruct f. }
  destruct (bool_decide _); [|destruct (bool_decide _)].
  - eapply ends_weaken; [apply submission_ends|lia|apply opened_waiting|done].
  - apply ends_outcome; [exact Hso| |intros e _; apply turn_away_ends]. intros [[approval_id binding] session] _.
    apply ends_atomically_bind. intros r. apply ends_lift_bind; [exact Hso|]. intros response Hr.
    eapply ends_weaken; [apply finish_ends|done|apply opened_waiting|done].
    destruct r as [issued|e|]; [|by eapply rejected_frame_kind|done].
    apply map_err_Ok, bind_Ok in Hr as (p & _ & ->%Hdb1Frame_json_kind). set_solver.
  - apply bootstrap_start_ends.
Qed.
End Connection.
End Bootstraps.

(** ** The server on its files

    The components the server is started with have the laws, so its runs on the real runtime,
    the two protected files and the intermediate key keep the world. *)
Section Files.
Context {Value Key Issuer PublicKey : Type}.
Context (sha256 : list byte → list byte) (parse_certificate : list byte → option ParsedCertificate).
Context (base64_encode : list byte → list byte) (base64_decode : list byte → option (list byte)).
Context (hdb1_json : Hdb1Json) (json : Hde3Json) (components : Hde3Components).
Context (json_from_slice : list byte → option Value) (get : Value → list byte → option Value)
  (as_str : Value → option (list byte)) (is_object : Value → bool) (state_to_vec : BootstrapState.records → option (list byte))
  (expiry : Z → option (list byte)) (random : nat → Z) (call : nat → list byte → HerdrRequest → HerdrCall) (rt : RuntimeConfig).
Context (csr_from_der : list byte → option ParsedCsr) (pem_certs : list byte → list (option (list byte)))
  (key_from_pem : list byte → option Key) (public_key_raw : Key → list byte)
  (issuer_from_ca_cert_der : list byte → Key → option Issuer) (csr_public_key : list byte → option PublicKey)
  (signed_by : nat → LeafParams → PublicKey → Issuer → option (list byte)) (config : SecurityConfig).
Context (results_to_vec : PersistedIssuanceResults → option (list byte))
  (results_from_slice : list byte → option PersistedIssuanceResults)
  (results_roundtrip : ∀ v bytes, results_to_vec v = Some bytes → results_from_slice bytes = Some v).
Context (registry_to_vec : AllowlistRegistry → option (list byte)) (registry_from_slice : list byte → option AllowlistRegistry)
  (registry_roundtrip : ∀ v bytes, registry_to_vec v = Some bytes → registry_from_slice bytes = Some v)
  (registry_u64 : ∀ v bytes, registry_from_slice bytes = Some v → is_u64 (ar_generation v)).
Context (session_valid : is_valid_session (hw_normalized_session (rc_client rt)) = true).
Context (results_path allowlist_path : path) (uid : Z).
Context (results_path_parsed : parsed results_path) (allowlist_path_parsed : parsed allowlist_path).

#[local] Instance runtime_service : BootstrapService _ _ :=
  bootstrap_runtime json_from_slice get as_str is_object state_to_vec base64_encode base64_decode sha256 expiry random call rt.
#[local] Instance runtime_service_lawful : LawfulBootstrapService _ _ sha256 := 
  bootstrap_runtime_lawful _ _ _ _ _ _ _ _ _ _ _ _ session_valid.
#[local] Instance results_service : ResultStore _ _ := issuance_results results_to_vec results_from_slice.
#[local] Instance results_service_lawful : LawfulResultStore _ _ :=
  issuance_results_lawful results_to_vec results_from_slice results_roundtrip results_path uid results_path_parsed.
#[local] Instance allowlist_service : AllowlistStore _ _ := allowlist_file registry_to_vec registry_from_slice.
#[local] Instance allowlist_service_lawful : LawfulAllowlistStore _ _ :=
  allowlist_file_lawful registry_to_vec registry_from_slice registry_roundtrip registry_u64 allowlist_path uid allowlist_path_parsed.
#[local] Instance issuer_service : CertificateIssuer _ :=
  pki_issuer sha256 csr_from_der parse_certificate pem_certs key_from_pem public_key_raw issuer_from_ca_cert_der
    csr_public_key signed_by config uid.
#[local] Instance issuer_service_lawful : LawfulCertificateIssuer _ := pki_issuer_lawful _ _ _ _ _ _ _ _ _ _ _.

Lemma files_keep_world rs reg parties schedule w0 w ts :
  Forall (party_sound sha256) parties → sw_log w0 = [] → sb_wf (sw_bootstrap w0) →
  results_held results_from_slice results_path uid (sw_results w0) rs →
  allowlist_held registry_from_slice allowlist_path uid (sw_allowlist w0) reg → allowlist_wf reg →
  run_schedule schedule
    (w0, server_task sha256 parse_certificate base64_encode base64_decode hdb1_json json components <$> parties) = (w, ts) →
  world_ok sha256 parse_certificate base64_encode base64_decode (sb_holdings (sw_bootstrap w0)) rs reg w.
Proof. intros ? ? ? ? ? ?. by apply (server_keeps_world sha256 parse_certificate base64_encode base64_decode _ rs reg). Qed.
End Files.

(** * Properties *)

(** ** A server with its stores in memory *)
Module EnrollmentDemo.
Definition digest : list byte := x01 :: zeros 31.
Definition fingerprint : list byte := x02 :: zeros 31.
Definition approval : list byte := x03 :: zeros 31.
Definition core_identity : list byte := x06 :: zeros 31.
Definition app : list byte := str_lit "app".
Definition certificate : IssuedCertificate :=
  {| ic_certificate_chain := [str_lit "leaf"; str_lit "intermediate"]; ic_fingerprint := fingerprint;
     ic_app_identity := digest; ic_serial := 7; ic_not_before_epoch_seconds := 90; ic_not_after_epoch_seconds := 5000 |}.
Definition sha256 (bytes : list byte) : list byte := digest.
Definition parse_certificate (bytes : list byte) : option ParsedCertificate :=
  Some {| px_valid_at := λ _, true; px_basic_constraints_ca := None; px_key_cert_sign := None; px_issuer := [];
          px_subject := []; px_spki_raw := str_lit "key"; px_public_key := str_lit "key"; px_signed_by := λ _, true |}.

(** A runtime with one attempt and one Core. *)
Definition peer : list byte := [x7f; x00; x00; x01].
Definition code : list byte := str_lit "123456".
Definition challenge : BootstrapChallenge :=
  {| bg_id := x04 :: zeros 31; bg_challenge := x05 :: zeros 31; bg_expires_at_epoch_seconds := 400 |}.
Definition material : CoreIssuedMaterial :=
  {| BootstrapState.cm_approval_id := approval; BootstrapState.cm_core_identity := core_identity;
     BootstrapState.cm_certificate_chain := [str_lit "leaf"]; BootstrapState.cm_not_after_epoch_seconds := 5000 |}.
Definition pair_result (ok : bool) (state : bool * bool) : stateful (bool * bool) BootstrapRuntimeError unit := λ s,
  if ok then (state, Ok tt) else (s, Err BrAuthorityMismatch).
#[global] Instance bootstrap : BootstrapService (bool * bool) unit :=
  {| sb_start _ peer_ip _ := st_bind (pair_result (bool_decide (peer_ip = peer)) (true, false)) (λ _, st_ret challenge);
     sb_abort _ _ := st_ret tt;
     sb_submit _ peer_ip id submitted given := λ s,
       st_bind (pair_result (s.1 && bool_decide (peer_ip = peer) && bool_decide (id = bg_id challenge)
                             && bool_decide (submitted = bg_challenge challenge) && bool_decide (given = code)) (false, true))
         (λ _, st_ret material) s;
     sb_reconcile _ _ _ _ := st_err BrNotFound;
     sb_authorize_first_app _ core _ _ := λ s,
       if s.2 && bool_decide (core = core_identity) then (s, Ok 1) else (s, Err BrNotFound);
     sb_confirm_first_app _ _ _ _ _ := st_ret tt;
     sb_start_app_approval _ _ _ _ _ _ := st_err BrNotFound;
     sb_submit_app_approval _ _ _ _ _ _ _ := st_err BrNotFound |}.
Definition holdings (s : bool * bool) : Holdings :=
  {| hg_attempt id peer_ip submitted given := s.1 = true ∧ peer_ip = peer ∧ id = bg_id challenge
       ∧ submitted = bg_challenge challenge ∧ given = code;
     hg_core id core := s.2 = true ∧ core = core_identity;
     hg_app _ _ _ _ := False |}.
Lemma holdings_idle (op : BootstrapOp) (r : outcome BootstrapRuntimeError BootstrapAnswer) s :
  (∀ core ap d g, op = OpAuthorizeFirstApp core ap d → r = Ok (Authorized g) → s.2 = true ∧ core = core_identity) →
  (∀ core ap ch given csr d ctx, op = OpSubmitApp core ap ch given csr d → r ≠ Ok (ApprovedApp ctx)) →
  accountable (λ given, given = code) sha256 op r (holdings s) (holdings s).
Proof. intros Ha Hs. split; [by left..|eauto|]. intros * Hop Hr. by destruct (Hs _ _ _ _ _ _ ctx Hop). Qed.
#[global] Instance bootstrap_lawful : LawfulBootstrapService (bool * bool) unit sha256.
Proof.
  refine {| sb_sound _ := True; sb_wf _ := True; sb_draws _ given := given = code; sb_holdings := holdings |}.
  intros io op [a c] _ _. unfold wp. destruct op; simpl; unfold answered_with, st_bind, pair_result, st_ret, st_err.
  - case_bool_decide as Hp; simpl; (split; [done|]); [|by apply holdings_idle]. subst peer_ip. split; simpl; try done.
    + intros id p ch given (_ & -> & -> & -> & ->). right. by exists payload, challenge.
    + by intros id core [? _].
  - split; [done|]. by apply holdings_idle.
  - destruct (_ && _) eqn:Hc; simpl; (split; [done|]); [|by apply holdings_idle]. bool_facts. split; simpl; try done.
    + by intros id p ch given [? _].
    + intros id core [_ ->]. right. by eexists _, _, _, _.
  - split; [done|]. by apply holdings_idle.
  - destruct (_ && _) eqn:Hc; simpl; (split; [done|]); apply holdings_idle; try done. intros core ap d g [= -> -> ->] _. by bool_facts.
  - split; [done|]. by apply holdings_idle.
  - split; [done|]. by apply holdings_idle.
  - split; [done|]. by apply holdings_idle.
Defined.
#[global] Instance results : ResultStore (list IssuanceResultRecord) unit := memory_results.
#[global] Instance results_lawful : LawfulResultStore (list IssuanceResultRecord) unit := memory_results_lawful.
#[global] Instance allowlist : AllowlistStore AllowlistRegistry unit := memory_allowlist.
#[global] Instance allowlist_lawful : LawfulAllowlistStore AllowlistRegistry unit := memory_allowlist_lawful.
#[global] Instance issuer : CertificateIssuer unit :=
  {| ci_app_id_from_csr _ := Ok app;
     ci_issue_certificate _ app_id _ _ := if bool_decide (app_id = app) then Ok certificate else Err InvalidCsr |}.
#[global] Instance issuer_lawful : LawfulCertificateIssuer unit.
Proof. split. intros io app_id csr g issued. simpl. case_bool_decide; [|done]. intros [= <-]. by subst. Defined.

Definition json : Hde3Json :=
  {| js_approval_submit _ := None;
     js_first_app_submit _ := Some {| hf_approval_id := approval; hf_app_csr := str_lit "csr"; hf_app_csr_digest := encode_hex digest |};
     js_approval_start _ := None;
     js_confirm_persisted _ :=
       Some {| hp_approval_id := approval; hp_app_identity := encode_hex digest;
               hp_issued_certificate_fingerprint := encode_hex fingerprint;
               hp_issued_certificate_chain_digest := encode_hex digest; hp_configuration_generation := 1 |};
     js_reconcile _ := None;
     js_challenge _ := Some (str_lit "challenge");
     js_result _ := Some (str_lit "result");
     js_rejected _ := Some (str_lit "rejected") |}.
Definition components : Hde3Components :=
  {| he_bootstrap := true; he_issuance_results := true; he_allowlist := true |}.
Definition hdb1_json : Hdb1Json :=
  {| jb_start _ := Some {| bs_request_id := []; bs_core_csr := []; bs_app_csr_digest := []; bs_normalized_session := [];
                           bs_core_binding_digest := []; bs_configuration_generation := 1 |};
     jb_submit _ := Some {| bu_bootstrap_id := bg_id challenge; bu_challenge := bg_challenge challenge; bu_code := code |};
     jb_reconcile _ := None;
     jb_challenge _ := Some (str_lit "challenge"); jb_core_issued _ := Some (str_lit "issued");
     jb_result _ := None; jb_rejected _ := Some (str_lit "rejected") |}.
Definition hdb1_io : Hdb1Io unit :=
  {| hb_peer_ip := peer; hb_handshake_permit := true; hb_connection_permit := true; hb_accept := StreamAccepted;
     hb_read_expires _ := false; hb_write _ := Written; hb_finish_fails := false; hb_bootstrap _ := tt |}.
Definition hdb1_incoming (kind : Hdb1Kind) : list byte :=
  match Hdb1Frame_encode {| fr_kind := kind; fr_payload := str_lit "{}" |} with Ok bytes => bytes | _ => [] end.
Definition io : Hde3Io unit unit unit unit :=
  {| hx_handshake_permit := true; hx_connection_permit := true; hx_accept := StreamAccepted;
     hx_read_expires _ := false; hx_write _ := Written; hx_finish_fails := false; hx_clock := Some 100;
     hx_uid_fails := false; hx_bootstrap _ := tt; hx_results _ := tt; hx_allowlist _ := tt; hx_issue := tt |}.
Definition incoming (kind : Hde3Kind) : list byte :=
  match Hde3Frame_encode {| fr_kind := kind; fr_payload := str_lit "{}" |} with Ok bytes => bytes | _ => [] end.
Definition World := ServerWorld (bool * bool) unit (list IssuanceResultRecord) AllowlistRegistry.
Definition world : World :=
  {| sw_bootstrap := (false, false); sw_results := []; sw_allowlist := AllowlistRegistry_new; sw_log := [] |}.
Definition parties : list (ServerParty unit unit unit unit) :=
  [Hdb1Connection hdb1_io (hdb1_incoming Hdb1Start ++ hdb1_incoming Hdb1Submit);
   Hde3Connection io core_identity (incoming Hde3FirstAppSubmit);
   Hde3Connection io core_identity (incoming Hde3ConfirmPersisted);
   Revocation tt tt app].
Definition tasks : list (task World (ServerStream * relay_result unit)) :=
  server_task sha256 parse_certificate id Some hdb1_json json components <$> parties.
(** A Core buys its certificate, its App is enrolled, confirmed, and then revoked. *)
Definition enrolled := run_schedule (replicate 2 0%nat ++ replicate 7 1%nat) (world, tasks).
Definition confirmed := run_schedule (replicate 3 2%nat) enrolled.
Definition revoked := run_schedule [3%nat] confirmed.

Definition state_of (sys : World * list (task World (ServerStream * relay_result unit))) :=
  ae_state <$> entry (sw_allowlist sys.1) app.
Example demo_states : (state_of enrolled, state_of confirmed, state_of revoked) = (Some Pending, Some Active, Some Revoked).
Proof. by vm_compute. Qed.
End EnrollmentDemo.

Section Authority.
Context {W BIo RS RIo AS AIo CIo : Type}.
Context `{!BootstrapService W BIo, !ResultStore RS RIo, !AllowlistStore AS AIo, !CertificateIssuer CIo}.
Context (sha256 : list byte → list byte) (parse_certificate : list byte → option ParsedCertificate).
Context (base64_encode : list byte → list byte) (base64_decode : list byte → option (list byte)).
Context (hdb1_json : Hdb1Json) (json : Hde3Json) (components : Hde3Components).

Abbreviation server_tasks parties :=
  (server_task sha256 parse_certificate base64_encode base64_decode hdb1_json json components <$> parties).

Section Lawful.
Context `{!LawfulBootstrapService W BIo sha256, !LawfulResultStore RS RIo, !LawfulAllowlistStore AS AIo,
  !LawfulCertificateIssuer CIo}.

(** C29. Who may talk to the relay is decided by codes and by exact confirmations alone.
    Whatever connections are served beside each other and beside revocations by other
    processes, whatever they send, whatever fails on the way and in whatever order their steps
    run: no entry of the allowlist is lost or goes back to an earlier state; every entry that
    was not there at the start has the fingerprint of a certificate that was signed for exactly
    the request, with the digest, that was approved for a Core; that Core was held at the start
    or was bought with the code, drawn by the start, of an attempt of the same peer; and a
    later App of it was approved with the code drawn for its own approval.  Every active entry
    was active at the start or was confirmed by a Core that named the identity, the
    fingerprint, the chain digest and the generation of the recorded result, whose certificate
    a handler recorded or the results had at the start.
    The failures excluded ([party_sound]): a read that succeeds returns what the file holds,
    writes are by the expected user, clocks and signed chains are what their types and the
    signer allow, and the look-up of the file by a revoking process that
    opens the allowlist does not fail; when it fails, the existing allowlist is replaced by an
    empty one and every entry is lost ([stat_failure_resets_allowlist]). *)
Theorem enrollment_authority rs0 reg0 parties schedule w0 w ts :
  Forall (party_sound sha256) parties →
  sw_log w0 = [] → sb_wf (sw_bootstrap w0) → rs_holds (sw_results w0) rs0 → al_holds (sw_allowlist w0) reg0 → allowlist_wf reg0 →
  run_schedule schedule (w0, server_tasks parties) = (w, ts) →
  ∃ reg, al_holds (sw_allowlist w) reg
  ∧ (∀ app e0, entry reg0 app = Some e0 → ∃ e, entry reg app = Some e ∧ entry_later e0 e)
  ∧ (∀ app e, entry reg app = Some e →
       (∃ e0, entry reg0 app = Some e0 ∧ entry_later e0 e)
       ∨ ∃ core_identity approval_id csr csr_digest generation io g issued,
           AppApproved core_identity approval_id csr csr_digest generation ∈ sw_log w
           ∧ approval_justified sha256 (sb_holdings (sw_bootstrap w0)) (sw_log w) core_identity approval_id csr csr_digest
           ∧ sha256 csr = csr_digest
           ∧ ci_app_id_from_csr csr = Ok app ∧ ci_issue_certificate io app csr g = Ok issued
           ∧ ae_fingerprint e = ic_fingerprint issued)
  ∧ (∀ app e, entry reg app = Some e → ae_state e = Active →
       (∃ e0, entry reg0 app = Some e0 ∧ ae_state e0 = Active)
       ∨ ∃ core_identity payload record, AppConfirmed core_identity payload record ∈ sw_log w
           ∧ confirmation_exact sha256 parse_certificate base64_encode base64_decode payload record
           ∧ record_justified rs0 (sw_log w) record
           ∧ ir_app_id record = app ∧ ir_fingerprint record = Some (ae_fingerprint e)).
Proof.
  intros Hp Hlog Hb Hrs Hal Hwf Hrun.
  eapply server_keeps_world in Hrun as [[Happr Hrec Henr Hconf] _ _ (reg & Hreg & [(cs & [_ _ Hlater Hnew] & Hcs) Hact])]; [|done..].
  exists reg. split_and!; [done|exact Hlater| |].
  - intros app e [He|(c & Hc & <- & Hf)]%Hnew; [by left|right].
    destruct (Hcs c Hc) as (ap & csr & issued & (key & Hkey)%Henr & Hfp).
    apply Hrec in Hkey as (core & digest & g & io & g' & Hin & Hd & _ & Hid & Hiss).
    exists core, ap, csr, digest, g, io, g', issued. split_and!; [done|by eapply Happr|done|done|done|congruence].
  - intros app e He Ha. destruct (Hact app e He Ha) as [H0|(core & payload & record & Hin & H)]; [by left|right].
    exists core, payload, record. destruct (Hconf _ _ _ Hin). done.
Qed.

(** C30. A certificate request is bound once.  In every run from an empty log: every
    certificate in the results was recorded there by a handler, for a request the runtime
    approved and under the key of that approval and that request, or was there at the start;
    and after the first binding of a key no handler binds it again and its record stays in the
    results, unless some call on the results came at least 24 hours after the binding. *)
Theorem enrollment_key_bound_once rs0 reg0 parties schedule w0 w ts :
  Forall (party_sound sha256) parties →
  sw_log w0 = [] → sb_wf (sw_bootstrap w0) → rs_holds (sw_results w0) rs0 → al_holds (sw_allowlist w0) reg0 → allowlist_wf reg0 →
  run_schedule schedule (w0, server_tasks parties) = (w, ts) →
  ∃ rs, rs_holds (sw_results w) rs
  ∧ (∀ record fingerprint, record ∈ rs → ir_fingerprint record = Some fingerprint →
       (∃ r0, r0 ∈ rs0 ∧ ir_key r0 = ir_key record ∧ ir_fingerprint r0 = Some fingerprint)
       ∨ ∃ approval_id csr app_id issued,
           certificate_justified sha256 (sw_log w) (ir_key record) approval_id csr app_id issued
           ∧ ic_fingerprint issued = fingerprint)
  ∧ ∀ key t before later, sw_log w = before ++ IssuanceBegun key t :: later → (∀ t', IssuanceBegun key t' ∉ before) →
      (∀ t', StoreCalled t' ∈ later → t' < t + ISSUANCE_RESULT_TTL_SECS) →
      (∀ t', IssuanceBegun key t' ∉ later) ∧ ∃ record, record ∈ rs ∧ ir_key record = key.
Proof.
  intros Hp Hlog Hb Hrs Hal Hwf Hrun.
  eapply server_keeps_world in Hrun as [[_ Hrec _ _] _ (rs & Hh & [Hbegun Hj]) _]; [|done..].
  exists rs. split_and!; [done| |].
  - intros record f Hr Hf. rewrite Forall_forall in Hj. pose proof (Hj record Hr) as H. unfold record_justified in H.
    rewrite Hf in H. destruct H as [H|(ap & csr & app & issued & Hin%Hrec & H)]; [by left|right]. by exists ap, csr, app, issued.
  - intros key t before later Heq Hfirst Hnow. destruct (Hbegun key t before later Heq Hfirst) as [(t' & Hin%Hnow & Hle)|[(r & Hr & Hk & _) Hno]];
      [lia|]. split; [done|by exists r].
Qed.
End Lawful.

End Authority.

(** *** Witnesses: the server with its stores in memory enrolls and confirms an App. *)
Lemma demo_sound : Forall (party_sound EnrollmentDemo.sha256) EnrollmentDemo.parties.
Proof.
  assert (Hio : io_sound EnrollmentDemo.sha256 EnrollmentDemo.io) by (split_and!; [done|done|done|by intros now [= <-]]).
  unfold EnrollmentDemo.parties. by repeat apply Forall_cons_2; [..|apply Forall_nil_2].
Qed.
Lemma demo_results : rs_holds (sw_results EnrollmentDemo.world) [].
Proof. split; [done|]. by split; repeat constructor. Qed.
Lemma demo_allowlist_wf : allowlist_wf AllowlistRegistry_new.
Proof. split; [simpl; unfold u64_max; lia|]. intros k e He. simpl in He. by rewrite lookup_empty in He. Qed.
Definition demo_schedule : list nat := (replicate 2 0%nat ++ replicate 7 1%nat) ++ replicate 3 2%nat.
Lemma demo_confirmed :
  run_schedule demo_schedule (EnrollmentDemo.world, EnrollmentDemo.tasks) = (EnrollmentDemo.confirmed.1, EnrollmentDemo.confirmed.2).
Proof. unfold demo_schedule, EnrollmentDemo.confirmed, EnrollmentDemo.enrolled, run_schedule. rewrite fold_left_app. apply surjective_pairing. Qed.
Lemma demo_active :
  ∃ e, entry (sw_allowlist EnrollmentDemo.confirmed.1) EnrollmentDemo.app = Some e ∧ ae_state e = Active.
Proof. eexists. split; vm_compute; reflexivity. Qed.
Definition demo_log : list (ServerEvent unit) := Eval vm_compute in sw_log EnrollmentDemo.confirmed.1.
Lemma demo_log_eq : sw_log EnrollmentDemo.confirmed.1 = demo_log.
Proof. vm_compute. reflexivity. Qed.
Ltac demo_cases Hin :=
  repeat (apply elem_of_cons in Hin as [Hin|Hin]; [first [discriminate Hin|injection Hin as ->; lia]|]);
  destruct (proj1 (elem_of_nil _) Hin).

Lemma enrollment_authority_witness :
  (ae_state <$> entry (sw_allowlist EnrollmentDemo.confirmed.1) EnrollmentDemo.app) = Some Active
  ∧ (∃ core_identity approval_id csr csr_digest generation,
      AppApproved core_identity approval_id csr csr_digest generation ∈ sw_log EnrollmentDemo.confirmed.1)
  ∧ ∃ core_identity payload record, AppConfirmed core_identity payload record ∈ sw_log EnrollmentDemo.confirmed.1
      ∧ ir_app_id record = EnrollmentDemo.app.
Proof.
  split; [by vm_compute|].
  destruct (enrollment_authority EnrollmentDemo.sha256 EnrollmentDemo.parse_certificate id Some EnrollmentDemo.hdb1_json
    EnrollmentDemo.json EnrollmentDemo.components
    [] AllowlistRegistry_new EnrollmentDemo.parties demo_schedule EnrollmentDemo.world
    EnrollmentDemo.confirmed.1 EnrollmentDemo.confirmed.2 demo_sound eq_refl I demo_results eq_refl demo_allowlist_wf demo_confirmed)
    as (reg & Hreg & _ & Hnew & Hact). change (sw_allowlist EnrollmentDemo.confirmed.1 = reg) in Hreg. subst reg.
  destruct demo_active as (e & He & Ha). split.
  - destruct (Hnew _ e He) as [(e0 & H0 & _)|(core & ap & csr & d & g & io & g' & issued & Hin & _)].
    + unfold entry in H0. simpl ar_entries in H0. rewrite lookup_empty in H0. discriminate H0.
    + exists core, ap, csr, d, g. exact Hin.
  - destruct (Hact _ e He Ha) as [(e0 & H0 & _)|(core & p & r & Hin & _ & _ & Hr & _)].
    + unfold entry in H0. simpl ar_entries in H0. rewrite lookup_empty in H0. discriminate H0.
    + exists core, p, r. exact (conj Hin Hr).
Defined.

Lemma enrollment_key_bound_once_witness :
  ∃ rs key, sw_results EnrollmentDemo.confirmed.1 = rs ∧ sw_log EnrollmentDemo.confirmed.1 !! 5%nat = Some (IssuanceBegun key 100)
  ∧ ∃ record, record ∈ rs ∧ ir_key record = key.
Proof.
  destruct (enrollment_key_bound_once EnrollmentDemo.sha256 EnrollmentDemo.parse_certificate id Some EnrollmentDemo.hdb1_json
    EnrollmentDemo.json EnrollmentDemo.components
    [] AllowlistRegistry_new EnrollmentDemo.parties demo_schedule EnrollmentDemo.world
    EnrollmentDemo.confirmed.1 EnrollmentDemo.confirmed.2 demo_sound eq_refl I demo_results eq_refl demo_allowlist_wf demo_confirmed)
    as (rs & [Hrs _] & _ & Hbegun). change (sw_results EnrollmentDemo.confirmed.1 = rs) in Hrs. subst rs.
  rewrite demo_log_eq in *. eexists _, _. split; [reflexivity|]. split; [reflexivity|].
  refine (proj2 (Hbegun _ 100 (take 5 demo_log) (drop 6 demo_log) eq_refl _ _)).
  - intros t' Hin. cbn [take demo_log] in Hin. demo_cases Hin.
  - intros t' Hin. cbn [drop demo_log] in Hin. unfold ISSUANCE_RESULT_TTL_SECS. demo_cases Hin.
Defined.

