(* ===== verification/Updater.v ===== *)
(** * The fixed-source updater (src/src/updater.rs, and [update] of src/src/bin/herdogrelay.rs)

    The steps of one explicit update over a map of nodes: lock, download, checksum,
    extraction, startup probe and replacement with rollback.  [UpdateIo] says which system
    calls fail and what the surroundings do; curl, gzip and tar, SHA-256 and the staged
    executable's own run are parameters. *)
From S2P Require Export UpdateArchive.

(** ** Renaming *)

(** The paths below [a] and those below [b], exchanged. *)
Definition swap_prefix (a b q : path) : path :=
  if decide (a `prefix_of` q) then b ++ drop (length a) q
  else if decide (b `prefix_of` q) then a ++ drop (length b) q else q.

Definition is_dir (n : Node) : bool := bool_decide (nd_kind n = IsDir).

(** [to] may be replaced: nothing, an empty directory by a directory, another node by
    something that is no directory. *)
Definition replaceable (n : Node) (to : path) (fs : FileSystem) : bool :=
  match fs !! to with
  | None => true
  | Some d =>
      if is_dir n
      then is_dir d && bool_decide (map_Forall (λ q _, ¬ (to `prefix_of` q ∧ q ≠ to)) fs)
      else negb (is_dir d)
  end.

Definition moved (from to : path) (fs : FileSystem) : FileSystem :=
  kmap (swap_prefix from to) (filter (λ kv, ¬ to `prefix_of` kv.1) fs).

(** [fs::rename], with what lies below the renamed path. *)
Definition rename (from to : path) (fs : FileSystem) : option FileSystem :=
  match fs !! from with
  | None => None
  | Some n =>
      if bool_decide (from = to) then Some fs else
      if bool_decide (from `prefix_of` to) || bool_decide (to `prefix_of` from) || negb (replaceable n to fs) then None
      else Some (moved from to fs)
  end.

(** [fs::remove_file] and [fs::remove_dir_all]. *)
Definition remove_file (p : path) (fs : FileSystem) : option FileSystem :=
  match fs !! p with
  | Some n => if is_dir n then None else Some (delete p fs)
  | None => None
  end.
Definition remove_dir_all (p : path) (fs : FileSystem) : FileSystem := filter (λ kv, ¬ p `prefix_of` kv.1) fs.

(** [fs::create_dir_all]: the directories on the way that are missing. *)
Definition create_dir (made : Node) (fs : FileSystem) (q : path) : FileSystem :=
  match fs !! q with Some _ => fs | None => <[q := made]> fs end.
Definition create_dir_all (made : Node) (p : path) (fs : FileSystem) : FileSystem :=
  fold_left (create_dir made) ((λ n, take n p) <$> seq 1 (length p)) fs.

(** ** The surroundings *)
Inductive HashSite : Type := HashProbe | HashStaged | HashPrevious | HashInstalled | HashRestored.

(** The system calls of an update that can fail for reasons of their own. *)
Inductive UpdateCall : Type :=
| OpenLock | Download | ReadManifest | OpenArchive | ReadArchive
| StatArchive | OpenIndex | StatStage | RemoveStage | CreateStage | ChmodStage | OpenExtract | CreateBinary | SyncBinary
| StatProbe | ReadHeader
| StatStaged | StatPrevious | BackupRename | BackupSync | InstallRename | StatInstalled | InstallSync
| ExistsBackup | ExistsInstalled | RemoveInstalled | RestoreRename | RestoreSync | StatRestored | ExistsRemoved
| HashStat (site : HashSite) | HashOpen (site : HashSite) | HashRead (site : HashSite).

(** The run of [staged --version] within the probe's five seconds. *)
Inductive ProbeRun : Type :=
| NotStarted
| Exited (success : bool) (stdout : option (list byte))
| TimedOut.

Record UpdateIo : Type := {
  ui_fails : UpdateCall → bool;
  ui_material : MaterialIo;
  ui_id : option (bool * list byte);
  ui_id_again : option (bool * list byte);
  (* what a symbolic link or a special file leads to: nothing, or something and its content *)
  ui_target : path → option (option (list byte));
  ui_lock_held : bool;
  ui_staging_created : FileSystem → option FileSystem;
  ui_partial : list byte;
  ui_pid : Z;
  ui_platform : Platform;
}.

Section Updater.
Context (sha256 : list byte → list byte).
Context (tar_entries : list byte → option (list (option ArchiveEntry))).
Context (curl : list byte → path → Z → FileSystem → option FileSystem).
Context (probe : list byte → ProbeRun).
Context (io : UpdateIo).

Abbreviation updating := (stateful FileSystem RelayError).

Definition reading {A} (f : FileSystem → relay_result A) : updating A := λ fs, (fs, f fs).
Definition changing_fs (call : UpdateCall) (change : FileSystem → option FileSystem) (e : RelayError) : updating unit :=
  λ fs, if ui_fails io call then (fs, Err e) else
        match change fs with Some fs' => (fs', Ok tt) | None => (fs, Err e) end.
Definition succeeds {A} (m : updating A) : updating bool := λ fs, let '(fs', r) := m fs in (fs', Ok (is_ok r)).

(** Opening a path and following it: [None] when there is nothing, [Some None] when what is
    there is no readable file. *)
Definition followed (p : path) (fs : FileSystem) : option (option (list byte)) :=
  match fs !! p with
  | None => None
  | Some n =>
      match nd_kind n with
      | IsFile => Some (Some (nd_bytes n))
      | IsDir => Some None
      | IsSymlink => ui_target io p
      | IsSocket | IsOther => Some (default None (ui_target io p))
      end
  end.

(** [Path::exists]. *)
Definition path_exists (call : UpdateCall) (p : path) (fs : FileSystem) : bool :=
  negb (ui_fails io call) && bool_decide (is_Some (followed p fs)).

(** [File::open] and the read loop. *)
Definition open_and_read (open_call read_call : UpdateCall) (open_error read_error : RelayError) (p : path)
    (fs : FileSystem) : relay_result (list byte) :=
  content ← ok_or (if ui_fails io open_call then None else followed p fs) open_error;
  ok_or (if ui_fails io read_call then None else content) read_error.

Abbreviation hashing reason := (Update "hashing staged executable" reason).
Definition hash_file (site : HashSite) (p : path) (max_bytes : Z) (fs : FileSystem) : relay_result (list byte) :=
  metadata ← ok_or (if ui_fails io (HashStat site) then None else fs !! p)
               (hashing "staged executable metadata is unavailable");
  if max_bytes <? nd_len metadata then Err (hashing "staged executable exceeds the configured bound") else
  bytes ← open_and_read (HashOpen site) (HashRead site) (hashing "staged executable could not be opened")
            (hashing "staged executable could not be read") p fs;
  Ok (sha256 bytes).

(** [symlink_metadata(p).map_err(|_| e)?]. *)
Definition stat_or (call : UpdateCall) (e : RelayError) (p : path) (fs : FileSystem) : relay_result Node :=
  ok_or (if ui_fails io call then None else fs !! p) e.

Definition sync_parent (call : UpdateCall) (p : path) : relay_result unit :=
  _ ← ok_or (path_parent p) (Update "syncing updater replacement" "replacement path has no parent");
  if ui_fails io call
  then Err (Update "syncing updater replacement" "replacement directory could not be synced") else Ok tt.

(** ** Lock and download *)
Definition staging_ready (u : FixedSourceUpdater) (operation : string) : updating unit :=
  (let! uid := st_lift (map_err (λ _, Update operation "current owner UID is unavailable") (current_uid (ui_id io))) in
   λ fs,
     let created := ui_staging_created io fs in
     (default fs created,
      map_err (λ _, Update operation "staging directory is not owner-controlled")
        (ensure_protected_directory (ui_material io) (uc_staging_directory (fu_config u)) uid created)))%relay.

Definition acquire_lock (u : FixedSourceUpdater) : updating unit :=
  (do! staging_ready u "acquiring update lock";
   let lock_path := path_join (uc_staging_directory (fu_config u)) (str_lit ".update.lock") in
   do! changing_fs OpenLock
         (λ fs, match fs !! lock_path with
                | Some n => if is_dir n then None else Some fs
                | None => Some (<[lock_path := new_file (ui_material io)
                                   (Z.land 384 (Z.lnot (mi_umask (ui_material io)))) []]> fs)
                end)
         (Update "acquiring update lock" "update lock could not be opened");
   if ui_lock_held io then st_err (Update "acquiring update lock" "another update is already running") else st_ret tt)%relay.

Definition starts_with (prefix bytes : list byte) : bool := bool_decide (take (length prefix) bytes = prefix).
Definition download_https (url : list byte) (destination : path) (max_bytes : Z) : updating unit :=
  (if negb (starts_with (str_lit "https://github.com/") url) || negb (is_absolute destination)
   then st_err (Update "downloading update artifact" "download source or destination is not allowed") else
   changing_fs Download (curl url destination max_bytes)
     (Update "downloading update artifact" "fixed HTTPS download failed"))%relay.

Definition download_latest (u : FixedSourceUpdater) (os arch : list byte) : updating (path * path) :=
  (let! name := st_lift (archive_name os arch) in
   let archive_path := path_join (uc_staging_directory (fu_config u)) name in
   let checksum_path := path_join (uc_staging_directory (fu_config u)) (str_lit "checksums.txt") in
   do! staging_ready u "creating updater staging directory";
   let! url := st_lift (archive_url u os arch) in
   do! download_https url archive_path (uc_max_archive_bytes (fu_config u));
   do! download_https (checksums_url u) checksum_path (1024 * 1024);
   st_ret (archive_path, checksum_path))%relay.

(** ** Checks of the archive *)
Definition verify_checksum (archive checksums : path) (fs : FileSystem) : relay_result unit :=
  name ← ok_or (path_file_name archive ≫= utf8_chars) (Update "checking archive name" "archive name is invalid");
  manifest ← ok_or (if ui_fails io ReadManifest then None else followed checksums fs ≫= λ content, content ≫= utf8_chars)
               (Update "reading checksum manifest" "checksum manifest could not be read");
  expected ← expected_checksum name manifest;
  bytes ← open_and_read OpenArchive ReadArchive (Update "reading update archive" "archive could not be opened")
            (Update "hashing update archive" "archive could not be read") archive fs;
  if bool_decide (byte_val <$> encode_hex (sha256 bytes) ≠ expected)
  then Err (Update "checking archive checksum" "archive checksum mismatch") else Ok tt.

(** What the tar reader shows of an opened archive; the length of what is no file counts as
    zero, and is refused. *)
Definition archive_index (content : option (list byte)) : option (list (option ArchiveEntry)) :=
  match content with Some bytes => tar_entries bytes | None => Some [None] end.

Definition validate_archive (u : FixedSourceUpdater) (archive : path) (fs : FileSystem) : relay_result unit :=
  content ← ok_or (if ui_fails io StatArchive then None else followed archive fs)
              (invalid_archive "archive metadata could not be read");
  let compressed_size := len (default [] content) in
  if (compressed_size =? 0) || (uc_max_archive_bytes (fu_config u) <? compressed_size)
  then Err (invalid_archive "archive size exceeds the configured bound") else
  if ui_fails io OpenIndex then Err (invalid_archive "archive could not be opened") else
  validate_index (fu_config u) compressed_size (archive_index content).

(** ** Extraction *)
Abbreviation extracting reason := (Update "extracting update archive" reason).
Abbreviation preparing reason := (Update "preparing updater staging" reason).

Definition staged_binary (mode : Z) (bytes : list byte) : Node := new_file (ui_material io) mode bytes.

Definition create_binary (binary : path) (bytes : list byte) (fs : FileSystem) : FileSystem :=
  <[binary := staged_binary (Z.land 448 (Z.lnot (mi_umask (ui_material io)))) bytes]> fs.

Fixpoint extract_entries (binary : path) (todo : list (option ArchiveEntry)) : updating unit :=
  match todo with
  | [] => st_ret tt
  | entry :: todo =>
      (let! e := st_lift (ok_or entry (extracting "tar entry is invalid")) in
       let! entry_path := st_lift (ok_or (ae_path e) (extracting "tar path is invalid")) in
       do! st_lift (validate_archive_path (components entry_path));
       if negb (ae_regular e) || bool_decide (components entry_path ≠ binary_path)
       then st_err (extracting "archive contains an unsafe entry") else
       do! changing_fs CreateBinary
             (λ fs, if bool_decide (is_Some (fs !! binary)) then None else Some (create_binary binary [] fs))
             (extracting "staged executable could not be created");
       match ae_data e with
       | None => do! st_modify (create_binary binary (ui_partial io));
                 st_err (extracting "staged executable could not be written")
       | Some data =>
           do! st_modify (create_binary binary data);
           if ui_fails io SyncBinary then st_err (extracting "staged executable could not be synced")
           else extract_entries binary todo
       end)%relay
  end.

Definition stage_path (u : FixedSourceUpdater) : path :=
  path_join (uc_staging_directory (fu_config u)) (str_lit "stage-" ++ decimal (ui_pid io)).

Definition stage_node (mode : Z) : Node :=
  {| nd_kind := IsDir; nd_uid := mi_euid (ui_material io); nd_mode := mode; nd_dev := mi_dev (ui_material io);
     nd_ino := mi_new_ino (ui_material io); nd_bytes := [] |}.

Definition set_mode (mode : Z) (n : Node) : Node :=
  {| nd_kind := nd_kind n; nd_uid := nd_uid n; nd_mode := mode; nd_dev := nd_dev n; nd_ino := nd_ino n;
     nd_bytes := nd_bytes n |}.

Definition extract_verified (u : FixedSourceUpdater) (archive : path) : updating path :=
  let stage := stage_path u in
  let binary := path_join stage EXPECTED_BINARY_NAME in
  (do! reading (validate_archive u archive);
   let! stage_exists := reading (λ fs, Ok (path_exists StatStage stage fs)) in
   do! (if stage_exists : bool
        then changing_fs RemoveStage (λ fs, match fs !! stage with
                                            | Some n =>
                                                if is_dir n then Some (remove_dir_all stage fs)
                                                else if bool_decide (nd_kind n = IsSymlink) then Some (delete stage fs) else None
                                            | None => None
                                            end)
               (preparing "old staging directory could not be removed")
        else st_ret tt);
   do! changing_fs CreateStage
         (λ fs, match fs !! stage with
                | Some n => if is_dir n then Some fs else None
                | None => Some (create_dir_all (stage_node (Z.land 511 (Z.lnot (mi_umask (ui_material io))))) stage fs)
                end)
         (preparing "staging directory could not be created");
   do! changing_fs ChmodStage (λ fs, match fs !! stage with
                                     | Some n => Some (<[stage := set_mode 448 n]> fs)
                                     | None => None
                                     end)
         (preparing "staging permissions could not be set");
   let! content := reading (λ fs, ok_or (if ui_fails io OpenExtract then None else followed archive fs)
                                   (extracting "archive could not be opened")) in
   let! todo := st_lift (ok_or (archive_index content) (extracting "tar index is invalid")) in
   do! extract_entries binary todo;
   st_ret binary)%relay.

(** ** Startup probe *)
Abbreviation probing reason := (Update "probing staged Relay binary" reason).

Definition validate_native_executable (p : path) (fs : FileSystem) : relay_result unit :=
  content ← ok_or (if ui_fails io ReadHeader then None else followed p fs ≫= λ content, content)
              (probing "staged executable header could not be read");
  if len content <? 4 then Err (probing "staged executable header could not be read") else
  if native_header (ui_platform io) (take 4 content) then Ok tt
  else Err (probing "staged executable is not a supported native binary").

(** The run of the executable, the wait for its end and the read of its output. *)
Definition run_probe (content : list byte) : relay_result (list byte) :=
  match probe content with
  | NotStarted => Err (probing "staged executable could not be started")
  | TimedOut => Err (probing "staged executable startup check timed out")
  | Exited false _ => Err (probing "staged executable startup check failed")
  | Exited true stdout =>
      output ← ok_or stdout (Update "checking staged Relay version" "staged executable output could not be read");
      Ok (take (Z.to_nat MAX_VERSION_OUTPUT_BYTES) output)
  end.

Definition verify_staged_startup (u : FixedSourceUpdater) (staged : path) (fs : FileSystem) : relay_result unit :=
  if negb (is_absolute staged) then Err (probing "staged executable path is not absolute") else
  uid ← map_err (λ _, probing "current owner UID is unavailable") (current_uid (ui_id io));
  metadata ← stat_or StatProbe (probing "staged executable is unavailable") staged fs;
  _ ← map_err (λ _, probing "staged executable ownership or mode is unsafe")
        (validate_file_metadata metadata uid Public (uc_max_extracted_bytes (fu_config u)));
  _ ← validate_native_executable staged fs;
  _ ← hash_file HashProbe staged (uc_max_extracted_bytes (fu_config u)) fs;
  output ← run_probe (nd_bytes metadata);
  validate_staged_version u output.

(** ** Replacement *)
Abbreviation replacing reason := (Update "replacing Relay binary" reason).
Abbreviation rolling_back reason := (Update "rolling back Relay binary" reason).

(** Moving the rollback copy back, and its checks. *)
Definition restore_copy (installed backup : path) (expected_digest : option (list byte)) (max_bytes : Z) : updating unit :=
  (do! changing_fs RestoreRename (rename backup installed) (rolling_back "rollback copy could not be restored");
   do! st_lift (sync_parent RestoreSync installed);
   let! metadata := reading (stat_or StatRestored (rolling_back "restored executable is unavailable") installed) in
   let! uid := st_lift (map_err (λ _, rolling_back "current owner UID is unavailable") (current_uid (ui_id_again io))) in
   do! st_lift (map_err (λ _, rolling_back "restored executable metadata is unsafe")
                  (validate_file_metadata metadata uid Public max_bytes));
   match expected_digest with
   | None => st_ret tt
   | Some expected_digest =>
       let! digest := reading (hash_file HashRestored installed max_bytes) in
       if bool_decide (digest ≠ expected_digest)
       then st_err (rolling_back "restored executable digest does not match the prior binary") else st_ret tt
   end)%relay.

Definition restore_previous_binary (installed backup : path) (had_previous_binary : bool)
    (expected_digest : option (list byte)) (max_bytes : Z) : updating unit :=
  (if had_previous_binary
   then
     let! rollback_copy := reading (λ fs, Ok (path_exists ExistsBackup backup fs)) in
     if negb rollback_copy then st_err (rolling_back "rollback copy is unavailable") else
     let! remaining := reading (λ fs, Ok (path_exists ExistsInstalled installed fs)) in
     do! (if remaining : bool
          then changing_fs RemoveInstalled (remove_file installed) (rolling_back "failed replacement could not be removed")
          else st_ret tt);
     restore_copy installed backup expected_digest max_bytes
   else
     let! remaining := reading (λ fs, Ok (path_exists ExistsInstalled installed fs)) in
     do! (if remaining : bool
          then changing_fs RemoveInstalled (remove_file installed) (rolling_back "failed replacement could not be removed")
          else st_ret tt);
     do! st_lift (sync_parent RestoreSync installed);
     let! remaining := reading (λ fs, Ok (path_exists ExistsRemoved installed fs)) in
     if remaining : bool then st_err (rolling_back "failed replacement remains installed") else st_ret tt)%relay.

Definition rollback_failed : RelayError := replacing "replacement failed and rollback verification failed".

Definition rollback_update_error (installed backup : path) (had_previous_binary : bool)
    (previous_digest : option (list byte)) (max_bytes : Z) (primary_reason : string) : updating unit :=
  (let! restored := succeeds (restore_previous_binary installed backup had_previous_binary previous_digest max_bytes) in
   st_err (if restored : bool then replacing primary_reason else rollback_failed))%relay.

(** From the installation of the staged executable on. *)
Definition install_staged (staged installed : path) (uid max_bytes : Z) (staged_digest : list byte)
    (rollback : string → updating unit) : updating unit :=
  (let! renamed := succeeds (changing_fs InstallRename (rename staged installed) rollback_failed) in
   if negb renamed then rollback ("staged executable could not be installed" : string) else
   let! metadata := reading (λ fs, Ok (if ui_fails io StatInstalled then None else fs !! installed)) in
   match metadata with
   | None => rollback ("installed executable is unavailable" : string)
   | Some installed_metadata =>
       let! digest := reading (λ fs, Ok (_ ← validate_file_metadata installed_metadata uid Public max_bytes;
                                         hash_file HashInstalled installed max_bytes fs)) in
       if negb (match digest with Ok d => bool_decide (d = staged_digest) | _ => false end)
          || negb (is_ok (sync_parent InstallSync installed))
       then rollback ("installed executable failed post-replacement verification" : string) else st_ret tt
   end)%relay.

(** From the hook before the renames on. *)
Definition swap_binary (staged installed backup : path) (pre_rename : FileSystem → FileSystem) (uid max_bytes : Z)
    (staged_digest : list byte) (previous_metadata : option Node) (previous_digest : option (list byte)) : updating unit :=
  (do! st_modify pre_rename;
   let had_previous_binary := bool_decide (is_Some previous_metadata) in
   let rollback := rollback_update_error installed backup had_previous_binary previous_digest max_bytes in
   if had_previous_binary
   then do! changing_fs BackupRename (rename installed backup) (replacing "previous executable could not be backed up");
        if negb (is_ok (sync_parent BackupSync installed))
        then rollback ("previous executable backup could not be synchronized" : string)
        else install_staged staged installed uid max_bytes staged_digest rollback
   else install_staged staged installed uid max_bytes staged_digest rollback)%relay.

Definition replace_binary_with_pre_rename (u : FixedSourceUpdater) (staged installed backup : path)
    (pre_rename : FileSystem → FileSystem) : updating unit :=
  (let max_bytes := uc_max_extracted_bytes (fu_config u) in
   if negb (is_absolute staged) || negb (is_absolute installed) || negb (is_absolute backup)
   then st_err (replacing "update paths must be absolute") else
   let! uid := st_lift (map_err (λ _, replacing "current owner UID is unavailable") (current_uid (ui_id io))) in
   do! reading (λ fs, map_err (λ _, replacing "installed path is not owner-controlled")
                        (validate_protected_path (ui_material io) installed uid fs));
   do! reading (λ fs, map_err (λ _, replacing "backup path is not owner-controlled")
                        (validate_protected_path (ui_material io) backup uid fs));
   let! staged_metadata := reading (stat_or StatStaged (replacing "staged executable is unavailable") staged) in
   do! st_lift (map_err (λ _, replacing "staged executable ownership or mode is unsafe")
                  (validate_file_metadata staged_metadata uid Public max_bytes));
   let! staged_digest := reading (hash_file HashStaged staged max_bytes) in
   let! previous_metadata := reading (λ fs,
         if ui_fails io StatPrevious then Err (replacing "installed executable metadata is unavailable")
         else Ok (fs !! installed)) in
   let! previous_digest :=
     (match previous_metadata with
      | None => st_ret None
      | Some metadata =>
          do! st_lift (validate_file_metadata metadata uid Public max_bytes);
          let! digest := reading (hash_file HashPrevious installed max_bytes) in st_ret (Some digest)
      end) in
   swap_binary staged installed backup pre_rename uid max_bytes staged_digest previous_metadata previous_digest)%relay.

(** Nothing happens before the renames but in the source's tests. *)
Definition replace_binary (u : FixedSourceUpdater) (staged installed backup : path) : updating unit :=
  replace_binary_with_pre_rename u staged installed backup (λ fs, fs).

(** ** The update command *)

(** [Path::with_extension]. *)
Fixpoint find_last_dot (i : nat) (name : list byte) (found : option nat) : option nat :=
  match name with
  | [] => found
  | b :: name => find_last_dot (S i) name (if bool_decide (b = x2e) then Some i else found)
  end.
Definition file_stem (name : list byte) : list byte :=
  match find_last_dot 0 name None with
  | None | Some O => name
  | Some i => take i name
  end.
Definition with_extension (p : path) (extension : list byte) : path :=
  match path_file_name p, path_parent p with
  | Some name, Some dir => path_join dir (file_stem name ++ str_lit "." ++ extension)
  | _, _ => p
  end.

Inductive CliError : Type := CliUsage (message : string) | CliRelay (error : RelayError).

(** [.map_err(CliError::Relay)?]. *)
Definition relay_call {A} (m : updating A) : stateful FileSystem CliError A :=
  λ fs, let '(fs', r) := m fs in (fs', map_err CliRelay r).

(** The names of [std::env::consts] in the names of the release assets. *)
Definition release_os (os : list byte) : outcome CliError (list byte) :=
  if bool_decide (os = str_lit "macos") || bool_decide (os = str_lit "linux") then Ok os
  else Err (CliUsage "unsupported update operating system").
Definition release_arch (arch : list byte) : outcome CliError (list byte) :=
  if bool_decide (arch = str_lit "aarch64") then Ok (str_lit "arm64")
  else if bool_decide (arch = str_lit "x86_64") then Ok (str_lit "x86_64")
  else Err (CliUsage "unsupported update architecture").

(** [update], once the configuration is loaded and its security mode checked; [current_exe] is
    the path of the running executable. *)
Definition update (config : UpdateConfig) (os arch : list byte) (current_exe : option path)
  : stateful FileSystem CliError unit :=
  (let! u := relay_call (st_lift (FixedSourceUpdater_new config)) in
   do! relay_call (acquire_lock u);
   let! os := st_lift (release_os os) in
   let! arch := st_lift (release_arch arch) in
   let! paths := relay_call (download_latest u os arch) in
   do! relay_call (reading (verify_checksum paths.1 paths.2));
   let! staged := relay_call (extract_verified u paths.1) in
   do! relay_call (reading (verify_staged_startup u staged));
   let! installed := st_lift (ok_or current_exe (CliUsage "current executable path is unavailable")) in
   relay_call (replace_binary u staged installed (with_extension installed (str_lit "previous"))))%relay.
End Updater.

(** * Facts *)

(** ** Renaming *)
Definition apart (p q : path) : Prop := ¬ p `prefix_of` q ∧ ¬ q `prefix_of` p.

#[export] Instance apart_dec p q : Decision (apart p q).
Proof. unfold apart. apply _. Defined.

Lemma apart_sym p q : apart p q → apart q p.
Proof. intros [? ?]. by split. Qed.
Lemma apart_ne p q : apart p q → p ≠ q.
Proof. by intros [H _] ->. Qed.

Lemma swap_prefix_involutive a b q : apart a b → swap_prefix a b (swap_prefix a b q) = q.
Proof.
  intros [Hab Hba]. unfold swap_prefix at 2. destruct (decide (a `prefix_of` q)) as [[r ->]|Ha].
  - rewrite drop_app_length. unfold swap_prefix. destruct (decide (a `prefix_of` b ++ r)) as [Hp|_].
    + exfalso. destruct (prefix_weak_total a b (b ++ r)); [done|by apply prefix_app_r|done|done].
    + rewrite decide_True by by apply prefix_app_r. by rewrite drop_app_length.
  - destruct (decide (b `prefix_of` q)) as [[r ->]|Hb].
    + rewrite drop_app_length. unfold swap_prefix. rewrite decide_True by by apply prefix_app_r. by rewrite drop_app_length.
    + unfold swap_prefix. by rewrite decide_False, decide_False by done.
Qed.

Lemma swap_prefix_inj a b : apart a b → Inj (=) (=) (swap_prefix a b).
Proof. intros Hab p q Heq. by rewrite <-(swap_prefix_involutive a b p), Heq, swap_prefix_involutive. Qed.

Lemma swap_prefix_to a b : apart a b → swap_prefix a b b = a.
Proof. intros [Hab _]. unfold swap_prefix. rewrite decide_False, decide_True by done. by rewrite drop_all, app_nil_r. Qed.
Lemma swap_prefix_from a b : swap_prefix a b a = b.
Proof. unfold swap_prefix. rewrite decide_True by done. by rewrite drop_all, app_nil_r. Qed.
Lemma swap_prefix_other a b q : ¬ a `prefix_of` q → ¬ b `prefix_of` q → swap_prefix a b q = q.
Proof. intros Ha Hb. unfold swap_prefix. by rewrite !decide_False. Qed.

Lemma rename_spec from to fs fs' :
  apart from to → rename from to fs = Some fs' →
  fs' !! to = fs !! from ∧ is_Some (fs !! from) ∧ fs' !! from = None
  ∧ ∀ q, ¬ from `prefix_of` q → ¬ to `prefix_of` q → fs' !! q = fs !! q.
Proof.
  intros Hap. pose proof (swap_prefix_inj _ _ Hap). unfold rename.
  destruct (fs !! from) as [n|] eqn:Hf; [|done]. rewrite bool_decide_eq_false_2 by by apply apart_ne.
  destruct (_ || _); [done|]. intros [= <-].
  assert (Hk : ∀ q, moved from to fs !! q = filter (λ kv, ¬ to `prefix_of` kv.1) fs !! swap_prefix from to q).
  { unfold moved. intros q. rewrite <-(swap_prefix_involutive from to q) at 1 by done. by rewrite lookup_kmap. }
  split_and!.
  - rewrite Hk, swap_prefix_to by done. apply map_lookup_filter_Some. split; [done|]. apply Hap.
  - by eexists.
  - rewrite Hk, swap_prefix_from. apply map_lookup_filter_None. right. intros m _ Hn. by apply Hn.
  - intros q Hq1 Hq2. rewrite Hk, swap_prefix_other by done. destruct (fs !! q) as [m|] eqn:Hm.
    + apply map_lookup_filter_Some. by split.
    + apply map_lookup_filter_None. by left.
Qed.

Lemma remove_file_spec p fs fs' : remove_file p fs = Some fs' → fs' = delete p fs ∧ is_Some (fs !! p).
Proof. unfold remove_file. destruct (fs !! p) as [n|]; [|done]. destruct (is_dir n); [done|]. intros [= <-]. eauto. Qed.

(** ** Running the steps *)
Section Steps.
Context (sha256 : list byte → list byte) (io : UpdateIo).

Lemma wp_reading {A} (f : FileSystem → relay_result A) (Q : relay_result A → FileSystem → Prop) fs :
  (∀ a, f fs = Ok a → Q (Ok a) fs) → (∀ e, f fs = Err e → Q (Err e) fs) → (f fs = Panic → Q Panic fs) → wp (reading f) Q fs.
Proof. intros Ho He Hp. unfold wp, reading. destruct (f fs); auto. Qed.
Lemma wp_changing (call : UpdateCall) (change : FileSystem → option FileSystem) (e : RelayError) (Q : relay_result unit → FileSystem → Prop)
    (fs : FileSystem) :
  (∀ fs', change fs = Some fs' → Q (Ok tt) fs') → Q (Err e) fs → wp (changing_fs io call change e) Q fs.
Proof. intros Ho He. unfold wp, changing_fs. destruct (ui_fails io call); [done|]. destruct (change fs); auto. Qed.
Lemma wp_succeeds {A} (m : stateful FileSystem RelayError A) (Q : relay_result bool → FileSystem → Prop) fs :
  wp m (λ r fs', Q (Ok (is_ok r)) fs') fs → wp (succeeds m) Q fs.
Proof. unfold wp, succeeds. by destruct (m fs). Qed.
Lemma wp_st_modify (f : FileSystem → FileSystem) (Q : relay_result unit → FileSystem → Prop) fs :
  Q (Ok tt) (f fs) → wp (st_modify f) Q fs.
Proof. done. Qed.

Lemma sync_parent_returns call p : returns (sync_parent io call p).
Proof. unfold sync_parent. destruct (path_parent p); [|done]. simpl. by destruct (ui_fails io call). Qed.

Lemma hash_file_returns site p max fs : returns (hash_file sha256 io site p max fs).
Proof.
  unfold hash_file, open_and_read. no_panic; apply ok_or_returns.
Qed.

Lemma hash_file_regular site p max fs n d :
  fs !! p = Some n → nd_kind n = IsFile → hash_file sha256 io site p max fs = Ok d → d = sha256 (nd_bytes n).
Proof.
  intros Hn Hk. unfold hash_file, open_and_read, followed. rewrite Hn, Hk.
  intros (m & _ & H)%bind_Ok. destruct (_ <? _); [done|]. apply bind_Ok in H as (bytes & H & Hd).
  apply Ok_inj in Hd as <-. apply bind_Ok in H as (c & Hc & Hb). destruct (ui_fails io (HashOpen site)); [done|].
  apply Ok_inj in Hc as <-. destruct (ui_fails io (HashRead site)); [done|]. by apply Ok_inj in Hb as <-.
Qed.

Lemma validate_file_metadata_returns n uid kind limit : returns (validate_file_metadata n uid kind limit).
Proof. unfold validate_file_metadata. destruct (_ || _); [done|]. cbv zeta. by destruct (negb _). Qed.
Lemma stat_or_returns call e p fs : returns (stat_or io call e p fs).
Proof. apply ok_or_returns. Qed.

Lemma stat_or_Ok call e p fs n : stat_or io call e p fs = Ok n → fs !! p = Some n.
Proof. unfold stat_or. intros H%ok_or_Ok. by destruct (ui_fails io call). Qed.

Lemma path_exists_regular call p fs n : fs !! p = Some n → nd_kind n ≠ IsSymlink → ui_fails io call = false → path_exists io call p fs = true.
Proof.
  intros Hn Hk Hf. unfold path_exists, followed. rewrite Hf, Hn. simpl. apply bool_decide_eq_true.
  destruct (nd_kind n); eauto. done.
Qed.
End Steps.

(** No step panics. *)
Ltac updater_panic :=
  match goal with
  | H : sync_parent ?io ?c ?p = Panic |- _ => by destruct (sync_parent_returns io c p)
  | H : hash_file ?h ?io ?s ?p ?m ?fs = Panic |- _ => by destruct (hash_file_returns h io s p m fs)
  | H : map_err _ ?m = Panic |- _ => destruct m eqn:?; [discriminate H|discriminate H|]; clear H; updater_panic
  | H : current_uid ?o = Panic |- _ => by destruct (current_uid_returns o)
  | H : validate_file_metadata ?n ?u ?k ?l = Panic |- _ => by destruct (validate_file_metadata_returns n u k l)
  | H : validate_protected_path ?i ?p ?u ?fs = Panic |- _ => by destruct (validate_protected_path_returns i p u fs)
  | H : validate_archive_path ?p = Panic |- _ => by destruct (validate_archive_path_returns p)
  | H : expected_checksum ?n ?m = Panic |- _ => by destruct (expected_checksum_returns n m)
  | H : FixedSourceUpdater_new ?c = Panic |- _ => by destruct (FixedSourceUpdater_new_returns c)
  | H : archive_name ?o ?a = Panic |- _ => by destruct (archive_name_returns o a)
  | H : stat_or ?io ?c ?e ?p ?fs = Panic |- _ => by destruct (stat_or_returns io c e p fs)
  | H : ok_or ?o _ = Panic |- _ => destruct o; discriminate H
  | H : (if ?b then _ else _) = Panic |- _ => destruct b; discriminate H
  | H : Ok _ = Panic |- _ => discriminate H
  end.

Ltac up_step :=
  lazymatch goal with
  | |- wp (st_bind _ _) _ _ => apply wp_bind
  | |- wp (st_ret _) _ _ => apply wp_ret
  | |- wp (st_err _) _ _ => apply wp_err
  | |- wp (st_lift _) _ _ =>
      let v := fresh "v" in let e := fresh "e" in let Hv := fresh "Hv" in
      apply wp_cases; [intros v Hv|intros e Hv|intros Hv; try updater_panic]
  | |- wp (reading _) _ _ =>
      let v := fresh "v" in let e := fresh "e" in let Hv := fresh "Hv" in
      apply wp_reading; [intros v Hv|intros e Hv; try discriminate Hv|intros Hv; try updater_panic]
  | |- wp (changing_fs _ _ _ _) _ _ =>
      let fs := fresh "fs" in let Hfs := fresh "Hfs" in
      apply wp_changing; [intros fs Hfs|]
  | |- wp (succeeds _) _ _ => apply wp_succeeds
  | |- wp (st_modify _) _ _ => apply wp_st_modify
  | |- wp (if ?c then _ else _) _ _ => let Hc := fresh "Hc" in destruct c eqn:Hc; try discriminate Hc
  | |- wp (match ?o with Some _ => _ | None => _ end) _ _ => let Ho := fresh "Ho" in destruct o eqn:Ho
  end; cbn [is_ok negb].

(** ** Rollback *)
Section Rollback.
Context (sha256 : list byte → list byte) (io : UpdateIo).

(** The previous executable is at one of its two places. *)
Definition kept (installed backup : path) (prev : Node) (fs : FileSystem) : Prop :=
  fs !! installed = Some prev ∨ fs !! backup = Some prev.

Definition restored (installed : path) (previous : option Node) (fs : FileSystem) : Prop :=
  match previous with
  | Some prev => fs !! installed = Some prev
  | None => path_exists io ExistsRemoved installed fs = false
  end.

(** What a rollback leaves. *)
Definition rollback_post (installed backup : path) (previous : option Node) (r : relay_result unit) (fs : FileSystem) : Prop :=
  returns r ∧ (∀ prev, previous = Some prev → kept installed backup prev fs) ∧ r ≠ Ok tt
  ∧ (∀ e, r = Err e → e ≠ rollback_failed → restored installed previous fs).

(** What it is started in. *)
Definition rollback_pre (backup : path) (previous : option Node) (fs : FileSystem) : Prop :=
  ∀ prev, previous = Some prev → fs !! backup = Some prev.

Lemma restore_spec installed backup previous digest max fs :
  apart installed backup → rollback_pre backup previous fs →
  wp (restore_previous_binary sha256 io installed backup (bool_decide (is_Some previous)) digest max)
    (λ r fs', returns r ∧ (∀ prev, previous = Some prev → kept installed backup prev fs')
       ∧ (r = Ok tt → restored installed previous fs')) fs.
Proof.
  intros Hap Hpre. unfold restore_previous_binary. destruct previous as [prev|].
  - specialize (Hpre prev eq_refl). simpl.
    assert (Hkept : ∀ fs', fs' !! backup = Some prev → ∀ p, Some prev = Some p → kept installed backup p fs').
    { intros fs' Hb p [= <-]. by right. }
    assert (Hmoved : ∀ fs1 fs2, fs1 !! backup = Some prev → rename backup installed fs1 = Some fs2 →
      fs2 !! installed = Some prev ∧ ∀ p, Some prev = Some p → kept installed backup p fs2).
    { intros fs1 fs2 Hb Hr%rename_spec; [|by apply apart_sym]. destruct Hr as (Hi & _ & _ & _). rewrite Hb in Hi.
      split; [done|]. intros p [= <-]. by left. }
    do 3 up_step; [by up_step; split_and!; auto|]. do 3 up_step.
    assert (Hgo : ∀ fs1, fs1 !! backup = Some prev → wp (restore_copy sha256 io installed backup digest max)
      (λ r fs', returns r ∧ (∀ p, Some prev = Some p → kept installed backup p fs') ∧ (r = Ok tt → restored installed (Some prev) fs')) fs1).
    { intros fs1 Hb. unfold restore_copy. up_step; up_step; [|by split_and!; auto]. destruct (Hmoved _ _ Hb Hfs) as [Hi Hk].
      repeat up_step; (split_and!; [done|done|done]). }
    up_step; [up_step|by up_step; apply Hgo].
    + apply Hgo. apply remove_file_spec in Hfs as [-> _]. rewrite lookup_delete_ne by by apply apart_ne. done.
    + by split_and!; auto.
  - simpl. repeat up_step; (split_and!; [done|done|]); try done.
    all: intros _; apply Ok_inj in Hv1; done.
Qed.

Lemma rollback_spec installed backup previous digest max reason fs :
  apart installed backup → rollback_pre backup previous fs → Update "replacing Relay binary" reason ≠ rollback_failed →
  wp (rollback_update_error sha256 io installed backup (bool_decide (is_Some previous)) digest max reason)
    (rollback_post installed backup previous) fs.
Proof.
  intros Hap Hpre Hne. unfold rollback_update_error. do 2 up_step. eapply wp_conseq; [by apply restore_spec|].
  intros r fs' (Hr & Hk & Ho). up_step. split_and!; [by destruct (is_ok r)|done|done|].
  intros e [= <-] He. destruct r as [[]|e'|]; [by apply Ho|done|done].
Qed.
End Rollback.

(** ** Replacement *)
Section Replacement.
Context (sha256 : list byte → list byte) (io : UpdateIo).

(** The outcome of a replacement of [previous] by a file with [digest]. *)
Definition replaced (installed backup : path) (uid max : Z) (digest : list byte) (previous : option Node)
    (r : relay_result unit) (fs : FileSystem) : Prop :=
  returns r ∧ (∀ prev, previous = Some prev → kept installed backup prev fs)
  ∧ (r = Ok tt → (∃ n, fs !! installed = Some n ∧ protected_file uid Public max n ∧ sha256 (nd_bytes n) = digest)
                 ∧ rollback_pre backup previous fs)
  ∧ (∀ e, r = Err e → e ≠ rollback_failed → restored io installed previous fs).

Lemma rollback_replaced installed backup uid max digest previous r fs :
  rollback_post io installed backup previous r fs → replaced installed backup uid max digest previous r fs.
Proof. intros (Hr & Hk & Hn & He). split_and!; [done|done|done|done]. Qed.

(** An error before anything was moved. *)
Lemma unchanged_replaced installed backup uid max digest previous e fs :
  fs !! installed = previous → replaced installed backup uid max digest previous (Err e) fs.
Proof.
  intros <-. split_and!; [done| |done|].
  - intros prev Hprev. by left.
  - intros e' _ _. unfold restored. destruct (fs !! installed) as [prev|] eqn:Hp; [done|].
    unfold path_exists, followed. rewrite Hp. by rewrite bool_decide_eq_false_2, andb_false_r by by intros [? ?].
Qed.

Lemma install_spec staged installed backup uid max digest previous previous_digest fs :
  apart staged installed → apart staged backup → apart installed backup → rollback_pre backup previous fs →
  wp (install_staged sha256 io staged installed uid max digest
        (rollback_update_error sha256 io installed backup (bool_decide (is_Some previous)) previous_digest max))
    (replaced installed backup uid max digest previous) fs.
Proof.
  intros Hsi Hsb Hib Hpre.
  assert (Hroll : ∀ reason fs', rollback_pre backup previous fs' → Update "replacing Relay binary" reason ≠ rollback_failed →
    wp (rollback_update_error sha256 io installed backup (bool_decide (is_Some previous)) previous_digest max reason)
      (replaced installed backup uid max digest previous) fs').
  { intros reason fs' Hp Hne. eapply wp_conseq; [by apply rollback_spec|]. intros r fs''. apply rollback_replaced. }
  unfold install_staged. do 3 up_step; [|by apply Hroll].
  assert (Hpre1 : rollback_pre backup previous fs0).
  { intros prev Hprev. apply rename_spec in Hfs as (_ & _ & _ & Ho); [|done]. rewrite Ho; [by apply Hpre|apply Hsb|apply Hib]. }
  do 2 up_step. apply Ok_inj in Hv. up_step; [|by apply Hroll]. do 2 up_step. apply Ok_inj in Hv0.
  up_step; [by apply Hroll|]. up_step. apply orb_false_iff in Hc as [Hd _]. apply negb_false_iff in Hd.
  assert (Hn : fs0 !! installed = Some n) by (by destruct (ui_fails io StatInstalled)).
  destruct v0 as [d|e|]; [|done..]. apply bool_decide_eq_true in Hd as ->.
  apply bind_Ok in Hv0 as ([] & Hm%validate_file_metadata_Ok & Hh).
  apply (hash_file_regular _ _ _ _ _ _ n) in Hh as ->; [|done|apply Hm].
  split_and!; [done| | |done].
  - intros prev Hprev. right. by apply Hpre1.
  - intros _. split; [by exists n|done].
Qed.

Lemma swap_spec staged installed backup pre_rename uid max digest previous previous_digest fs :
  apart staged installed → apart staged backup → apart installed backup →
  fs !! installed = previous → pre_rename fs !! installed = previous →
  wp (swap_binary sha256 io staged installed backup pre_rename uid max digest previous previous_digest)
    (replaced installed backup uid max digest previous) fs.
Proof.
  intros Hsi Hsb Hib Hprev Hrace. unfold swap_binary. do 2 up_step. cbv zeta. up_step.
  - apply bool_decide_eq_true in Hc. do 2 up_step.
    + assert (Hpre : rollback_pre backup previous fs0).
      { intros prev Hp. apply rename_spec in Hfs as (-> & _); [|done]. congruence. }
      rewrite <-(bool_decide_eq_true_2 (is_Some previous)) by done.
      destruct (sync_parent io BackupSync installed); [by apply install_spec|..];
        (eapply wp_conseq; [by apply rollback_spec|]); intros r fs'; apply rollback_replaced.
    + by apply unchanged_replaced.
  - rewrite <-Hc. apply install_spec; try done. apply bool_decide_eq_false in Hc.
    intros prev Hp. by destruct Hc; exists prev.
Qed.

Lemma replace_spec u staged installed backup pre_rename fs :
  apart staged installed → apart staged backup → apart installed backup →
  pre_rename fs !! installed = fs !! installed →
  wp (replace_binary_with_pre_rename sha256 io u staged installed backup pre_rename)
    (λ r fs', ∃ uid digest,
       replaced installed backup uid (uc_max_extracted_bytes (fu_config u)) digest (fs !! installed) r fs'
       ∧ (r = Ok tt → current_uid (ui_id io) = Ok uid
            ∧ ∃ s, fs !! staged = Some s ∧ protected_file uid Public (uc_max_extracted_bytes (fu_config u)) s
                 ∧ digest = sha256 (nd_bytes s))) fs.
Proof.
  intros Hsi Hsb Hib Hrace. unfold replace_binary_with_pre_rename. set (max := uc_max_extracted_bytes (fu_config u)).
  set (verified := λ uid digest, current_uid (ui_id io) = Ok uid
         ∧ ∃ s, fs !! staged = Some s ∧ protected_file uid Public max s ∧ digest = sha256 (nd_bytes s)).
  assert (Hstop : ∀ e, ∃ uid digest, replaced installed backup uid max digest (fs !! installed) (Err e) fs
                     ∧ ((Err e : relay_result unit) = Ok tt → verified uid digest)).
  { intros e. exists 0, []. split; [|done]. by apply unchanged_replaced. }
  up_step; [by up_step|]. do 2 up_step; [|done]. apply map_err_Ok in Hv.
  do 2 up_step; [|done]. do 2 up_step; [|done]. do 2 up_step; [|done]. apply stat_or_Ok in Hv2.
  do 2 up_step; [|done]. destruct v3. apply map_err_Ok, validate_file_metadata_Ok in Hv3.
  do 2 up_step; [|done]. apply (hash_file_regular _ _ _ _ _ _ v2) in Hv4; [|done|apply Hv3].
  do 2 up_step; [|destruct (ui_fails io StatPrevious); [by injection Hv5 as <-|done]].
  assert (v4 = fs !! installed) as -> by (destruct (ui_fails io StatPrevious); [done|by apply Ok_inj in Hv5]). clear Hv5.
  assert (Hrest : ∀ previous_digest,
    wp (swap_binary sha256 io staged installed backup pre_rename v max v3 (fs !! installed) previous_digest)
      (λ r fs', ∃ uid digest, replaced installed backup uid max digest (fs !! installed) r fs'
         ∧ (r = Ok tt → verified uid digest)) fs).
  { intros previous_digest. eapply wp_conseq; [by apply swap_spec|]. intros r fs' H. exists v, v3. split; [done|].
    intros _. split; [done|]. by exists v2. }
  up_step. up_step; [|up_step; apply Hrest].
  do 2 up_step; [|done]. do 2 up_step; [|done]. up_step. apply Hrest.
Qed.
End Replacement.

(** ** Extraction and the steps before it *)
Lemma apart_below p q r : apart p q → apart (p ++ r) q.
Proof.
  intros [Hpq Hqp]. split; intros H.
  - apply Hpq. etrans; [|exact H]. by apply prefix_app_r.
  - destruct (prefix_weak_total p q (p ++ r)); [by apply prefix_app_r|done|done|done].
Qed.

Lemma apart_siblings d a b : a ≠ b → apart (path_join d a) (path_join d b).
Proof.
  intros Hne. unfold path_join, apart. split; intros H%prefix_app_inv; apply prefix_cons_inv_1 in H; congruence.
Qed.

Section Pipeline.
Context (sha256 : list byte → list byte).
Context (tar_entries : list byte → option (list (option ArchiveEntry))).
Context (curl : list byte → path → Z → FileSystem → option FileSystem).
Context (probe : list byte → ProbeRun).
Context (io : UpdateIo).

(** Nothing changes but at or below [p]. *)
Definition confined (p : path) (fs fs' : FileSystem) : Prop := ∀ q, ¬ p `prefix_of` q → fs' !! q = fs !! q.

Lemma confined_trans p fs1 fs2 fs3 : confined p fs1 fs2 → confined p fs2 fs3 → confined p fs1 fs3.
Proof. intros H1 H2 q Hq. by rewrite H2, H1. Qed.
Lemma confined_insert p q n fs : p `prefix_of` q → confined p fs (<[q := n]> fs).
Proof. intros Hp q' Hq. rewrite lookup_insert_ne; [done|]. by intros ->. Qed.
Lemma confined_weaken p q fs fs' : q `prefix_of` p → confined p fs fs' → confined q fs fs'.
Proof. intros Hqp H q' Hq. apply H. intros Hp. apply Hq. by etrans. Qed.

Lemma remove_dir_all_confined p fs : confined p fs (remove_dir_all p fs).
Proof.
  intros q Hq. unfold remove_dir_all. destruct (fs !! q) as [m|] eqn:Hm.
  - apply map_lookup_filter_Some. by split.
  - apply map_lookup_filter_None. by left.
Qed.

Lemma create_dir_all_below made p fs q : ¬ q `prefix_of` p → create_dir_all made p fs !! q = fs !! q.
Proof.
  intros Hq. unfold create_dir_all.
  assert (H : ∀ l fs, (∀ x, x ∈ l → x ≠ q) → fold_left (create_dir made) l fs !! q = fs !! q).
  { clear. induction l as [|x l IH]; intros fs Hl; simpl; [done|]. rewrite IH by (intros y Hy; apply Hl; by right).
    unfold create_dir. destruct (fs !! x); [done|]. rewrite lookup_insert_ne; [done|]. apply Hl. by left. }
  apply H. intros x (n & -> & _)%list_elem_of_fmap <-. apply Hq. apply prefix_take.
Qed.

Lemma create_dir_all_keeps made p fs q n : fs !! q = Some n → create_dir_all made p fs !! q = Some n.
Proof.
  unfold create_dir_all. revert fs. induction ((λ n, take n p) <$> seq 1 (length p)) as [|x l IH]; intros fs Hq; simpl; [done|].
  apply IH. unfold create_dir. destruct (fs !! x) eqn:Hx; [done|]. rewrite lookup_insert_ne; [done|]. intros ->. congruence.
Qed.

(** The state an extraction leaves elsewhere: what exists outside the stage is as it was, and
    nothing but missing directories on the way to the stage was added. *)
Definition outside_kept (stage : path) (fs fs' : FileSystem) : Prop :=
  ∀ q, ¬ stage `prefix_of` q → fs' !! q = fs !! q ∨ (fs !! q = None ∧ q `prefix_of` stage).

Lemma outside_kept_refl stage fs : outside_kept stage fs fs.
Proof. intros q _. by left. Qed.
Lemma outside_kept_confined stage fs fs1 fs2 : outside_kept stage fs fs1 → confined stage fs1 fs2 → outside_kept stage fs fs2.
Proof. intros H1 H2 q Hq. rewrite H2 by done. by apply H1. Qed.
Lemma outside_kept_apart stage fs fs' q : outside_kept stage fs fs' → apart stage q → fs' !! q = fs !! q.
Proof. intros H [Hq1 Hq2]. destruct (H q Hq1) as [?|[_ ?]]; done. Qed.
Lemma outside_kept_Some stage fs fs' q n : outside_kept stage fs fs' → ¬ stage `prefix_of` q → fs !! q = Some n → fs' !! q = Some n.
Proof. intros H Hq Hn. destruct (H q Hq) as [->|[? _]]; congruence. Qed.

Lemma extract_entries_confined binary stage todo fs :
  stage `prefix_of` binary →
  wp (extract_entries io binary todo) (λ r fs', returns r ∧ confined stage fs fs') fs.
Proof.
  intros Hs. revert fs. assert (Hc : ∀ bytes fs, confined stage fs (create_binary io binary bytes fs)) by (intros; by apply confined_insert).
  induction todo as [|entry todo IH]; intros fs; cbn [extract_entries]; [by up_step|].
  do 2 up_step; [|done]. do 2 up_step; [|done]. do 2 up_step; [|done].
  up_step; [by up_step|]. do 2 up_step; [|done]. case_bool_decide; [done|]. injection Hfs as <-.
  up_step; [|do 3 up_step; split; [done|by eapply confined_trans]]. do 2 up_step.
  up_step; [up_step; split; [done|by eapply confined_trans]|].
  eapply wp_conseq; [apply IH|]. intros r fs' [Hr Hconf]. split; [done|].
  eapply confined_trans; [|exact Hconf]. by eapply confined_trans.
Qed.

(** What an archive that passes holds: one regular entry, the executable. *)
Definition holds_binary (c : UpdateConfig) (bytes : list byte) (e : ArchiveEntry) : Prop :=
  tar_entries bytes = Some [Some e] ∧ (∃ p, ae_path e = Some p ∧ components p = binary_path) ∧ ae_regular e = true
  ∧ 0 < len bytes ≤ uc_max_archive_bytes c
  ∧ ∃ size, ae_size e = Some size ∧ size ≠ 0 ∧ size ≤ uc_max_extracted_bytes c
      ∧ size ≤ len bytes * uc_max_compression_ratio c.

Lemma validate_archive_returns u archive fs : returns (validate_archive tar_entries io u archive fs).
Proof.
  unfold validate_archive. apply bind_returns; [apply ok_or_returns|]. intros content _.
  no_panic. apply validate_index_returns.
Qed.

Lemma validate_archive_Ok u archive fs :
  validate_archive tar_entries io u archive fs = Ok tt →
  ∃ bytes e, followed io archive fs = Some (Some bytes) ∧ holds_binary (fu_config u) bytes e.
Proof.
  unfold validate_archive. intros (content & Hc%ok_or_Ok & H)%bind_Ok. destruct (ui_fails io StatArchive); [done|].
  destruct (_ || _) eqn:Hb; [done|]. bool_facts. destruct (ui_fails io OpenIndex); [done|].
  destruct content as [bytes|]; [|done]. simpl in *.
  apply validate_index_Ok in H as (e & p & size & Ht & Hp & Hcp & Hr & Hs & Hs0 & Hb1 & Hb2).
  exists bytes, e. split; [done|]. pose proof (len_nonneg bytes). split_and!; try done; [by exists p|lia|by exists size].
Qed.

Lemma followed_same p fs fs' : fs' !! p = fs !! p → followed io p fs' = followed io p fs.
Proof. intros H. unfold followed. by rewrite H. Qed.

(** The end of [extract_verified], in its stage. *)
Lemma extract_entries_binary binary e fs :
  wp (extract_entries io binary [Some e])
    (λ r fs', r = Ok tt → ∃ n, fs' !! binary = Some n ∧ nd_kind n = IsFile ∧ ae_data e = Some (nd_bytes n)) fs.
Proof.
  cbn [extract_entries]. do 2 up_step; [|done]. do 2 up_step; [|done]. do 2 up_step; [|done].
  up_step; [by up_step|]. do 2 up_step; [|done]. apply ok_or_Ok in Hv. injection Hv as <-.
  up_step; [|by repeat up_step]. do 2 up_step. up_step; [by up_step|]. up_step. intros _.
  eexists. unfold create_binary. rewrite lookup_insert_eq. done.
Qed.

Lemma extract_spec u archive fs :
  apart (stage_path io u) archive →
  wp (extract_verified tar_entries io u archive)
    (λ r fs', returns r ∧ outside_kept (stage_path io u) fs fs'
       ∧ ∀ binary, r = Ok binary → binary = path_join (stage_path io u) EXPECTED_BINARY_NAME
           ∧ ∃ bytes e n, followed io archive fs = Some (Some bytes) ∧ holds_binary (fu_config u) bytes e
               ∧ fs' !! binary = Some n ∧ nd_kind n = IsFile ∧ ae_data e = Some (nd_bytes n)) fs.
Proof.
  intros Hap. unfold extract_verified. set (stage := stage_path io u) in *.
  set (binary := path_join stage EXPECTED_BINARY_NAME).
  assert (Hstop : ∀ e fs', outside_kept stage fs fs' → returns (Err e : relay_result path) ∧ outside_kept stage fs fs'
    ∧ ∀ b, (Err e : relay_result path) = Ok b → b = binary ∧ ∃ bytes e n, followed io archive fs = Some (Some bytes)
       ∧ holds_binary (fu_config u) bytes e ∧ fs' !! b = Some n ∧ nd_kind n = IsFile ∧ ae_data e = Some (nd_bytes n)).
  { intros e fs' H. split_and!; done. }
  up_step. up_step; [|by apply Hstop, outside_kept_refl|by destruct (validate_archive_returns u archive fs)].
  destruct v. apply validate_archive_Ok in Hv as (bytes & e & Hfol & Hhold). do 2 up_step.
  apply wp_bind. apply (wp_conseq _ (λ r fs', returns r ∧ outside_kept stage fs fs')).
  { destruct v; [|up_step; split; [done|apply outside_kept_refl]].
    up_step; [|split; [done|apply outside_kept_refl]]. split; [done|].
    apply (outside_kept_confined _ _ fs); [apply outside_kept_refl|].
    destruct (fs !! stage) as [n|]; [|done]. destruct (is_dir n); [injection Hfs as <-; apply remove_dir_all_confined|].
    case_bool_decide; [|done]. injection Hfs as <-. intros q Hq. rewrite lookup_delete_ne; [done|]. by intros ->. }
  intros r1 fs1 [Hr1 Hk1]. destruct r1 as [[]|e1|]; [|by apply Hstop|done].
  up_step. up_step; [|by apply Hstop].
  assert (Hk2 : outside_kept stage fs fs0).
  { destruct (fs1 !! stage) as [n|] eqn:Hst; [destruct (is_dir n); [by injection Hfs as <-|done]|]. injection Hfs as <-.
    intros q Hq. destruct (decide (q `prefix_of` stage)) as [Hp|Hp]; [|rewrite create_dir_all_below by done; by apply Hk1].
    destruct (fs !! q) as [n|] eqn:Hn; [|by right]. left. apply create_dir_all_keeps. by eapply outside_kept_Some. }
  up_step. up_step; [|by apply Hstop].
  assert (Hk3 : outside_kept stage fs fs2).
  { destruct (fs0 !! stage) as [n|]; [|done]. injection Hfs0 as <-. eapply outside_kept_confined; [exact Hk2|by apply confined_insert]. }
  do 2 up_step; [|by apply Hstop]. apply ok_or_Ok in Hv0.
  assert (v0 = Some bytes) as ->.
  { destruct (ui_fails io OpenExtract); [done|]. rewrite (followed_same _ fs) in Hv0; [congruence|].
    by eapply outside_kept_apart. }
  do 2 up_step; [|by apply Hstop]. apply ok_or_Ok in Hv1. cbn [archive_index] in Hv1.
  destruct Hhold as (Htar & Hrest). rewrite Htar in Hv1. injection Hv1 as <-.
  up_step. eapply wp_conseq.
  { apply (wp_and _ _ _ _ (extract_entries_confined binary stage [Some e] fs2 ltac:(by apply prefix_app_r))
             (extract_entries_binary binary e fs2)). }
  intros r3 fs3 [[Hr3 Hc3] Hb3]. pose proof (outside_kept_confined _ _ _ _ Hk3 Hc3) as Hk4.
  destruct r3 as [[]|e3|]; [|by apply Hstop|done]. up_step. split_and!; [done|done|].
  intros b [= <-]. split; [done|]. destruct (Hb3 eq_refl) as (n & Hn & Hkind & Hdata). by exists bytes, e, n.
Qed.
End Pipeline.
