(* ===== verification/UpdateSafety.v ===== *)
(** * What an update guarantees

    The properties of Updater.v: the replacement never loses the previous executable, and a
    successful update installs what the fixed release, its checksum manifest and the startup
    probe vouch for. *)
From S2P Require Export Updater.

(** * Facts *)

(** ** The command *)
Section Command.
Context (sha256 : list byte → list byte).
Context (tar_entries : list byte → option (list (option ArchiveEntry))).
Context (curl : list byte → path → Z → FileSystem → option FileSystem).
Context (probe : list byte → ProbeRun).
Context (io : UpdateIo).

(** curl writes its output file and nothing else; [create_dir_all] leaves what there is. *)
Context (curl_output : ∀ url p max fs fs', curl url p max fs = Some fs' → ∀ q, q ≠ p → fs' !! q = fs !! q).
Context (created_keeps : ∀ fs fs', ui_staging_created io fs = Some fs' → fs ⊆ fs').

(** A staged executable that passed the probe. *)
Definition probed (u : FixedSourceUpdater) (n : Node) : Prop :=
  native_header (ui_platform io) (take 4 (nd_bytes n)) = true
  ∧ ∃ output v, probe (nd_bytes n) = Exited true (Some output)
      ∧ parse_version_output (take (Z.to_nat MAX_VERSION_OUTPUT_BYTES) output) = Some v
      ∧ version_lt (fu_current_version u) v = true.

Lemma verify_staged_startup_returns u p fs : returns (verify_staged_startup sha256 probe io u p fs).
Proof.
  unfold verify_staged_startup, validate_native_executable, run_probe.
  no_panic; auto using map_err_returns, current_uid_returns, stat_or_returns, validate_file_metadata_returns,
    ok_or_returns, hash_file_returns, validate_staged_version_returns.
  destruct (probe _) as [|[] ?|]; no_panic; apply ok_or_returns.
Qed.

Lemma verify_staged_startup_Ok u p fs n :
  fs !! p = Some n → nd_kind n = IsFile → verify_staged_startup sha256 probe io u p fs = Ok tt → probed u n.
Proof.
  intros Hn Hk. unfold verify_staged_startup. destruct (negb _); [done|].
  intros (uid & _ & (m & Hm%stat_or_Ok & (_ & _ & ([] & Hh & (d & _ & (out & Hout & Hv)%bind_Ok)%bind_Ok)%bind_Ok)%bind_Ok)%bind_Ok)%bind_Ok.
  assert (m = n) as -> by congruence. split.
  - unfold validate_native_executable, followed in Hh. rewrite Hn, Hk in Hh. apply bind_Ok in Hh as (c & Hc%ok_or_Ok & Hh).
    destruct (ui_fails io ReadHeader); [done|]. injection Hc as <-. destruct (_ <? _); [done|]. by destruct (native_header _ _).
  - unfold run_probe in Hout. destruct (probe (nd_bytes n)) as [|[] stdout|]; try done.
    apply bind_Ok in Hout as (o & ->%ok_or_Ok & Ho). apply Ok_inj in Ho as <-.
    unfold validate_staged_version in Hv. apply bind_Ok in Hv as (v & Hp%ok_or_Ok & Hv). exists o, v.
    split_and!; [done|done|]. by destruct (version_lt _ v).
Qed.

(** The steps before the extraction leave the node at [q] as it was. *)
Lemma staging_ready_keeps u op fs q n :
  fs !! q = Some n → wp (staging_ready io u op) (λ r fs', returns r ∧ fs' !! q = Some n) fs.
Proof.
  intros Hq. unfold staging_ready. do 2 up_step; [|done]. unfold wp. split.
  - apply map_err_returns. unfold ensure_protected_directory, validate_directory, validate_absolute_path, lstat.
    no_panic; try apply ok_or_returns. by destruct (symlink_metadata _ _ _).
  - destruct (ui_staging_created io fs) as [fs'|] eqn:Hc; simpl; [|done].
    eapply lookup_weaken; [done|by eapply created_keeps].
Qed.

Lemma acquire_lock_keeps u fs q n :
  fs !! q = Some n → wp (acquire_lock io u) (λ r fs', returns r ∧ fs' !! q = Some n) fs.
Proof.
  intros Hq. unfold acquire_lock. up_step. eapply wp_conseq; [by apply staging_ready_keeps|].
  intros [[]|e|] fs1 [Hr Hq1]; [|done|done]. up_step. up_step; [|done].
  assert (Hq2 : fs0 !! q = Some n).
  { destruct (fs1 !! path_join _ _) as [m|] eqn:Hm; [destruct (is_dir m); [done|by injection Hfs as <-]|].
    injection Hfs as <-. rewrite lookup_insert_ne; [done|]. intros <-. congruence. }
  up_step; by up_step.
Qed.

(** The state after the download: both files are curl's output for the fixed URLs. *)
Definition downloaded (u : FixedSourceUpdater) (name : list byte) (fs : FileSystem) : Prop :=
  ∃ fs1 fs2,
    curl (str_lit "https://github.com/mithyer/herdr-dog-relay/releases/latest/download/" ++ name)
      (path_join (uc_staging_directory (fu_config u)) name) (uc_max_archive_bytes (fu_config u)) fs1 = Some fs2
    ∧ curl (str_lit "https://github.com/mithyer/herdr-dog-relay/releases/latest/download/checksums.txt")
        (path_join (uc_staging_directory (fu_config u)) (str_lit "checksums.txt")) (1024 * 1024) fs2 = Some fs.

Lemma download_https_keeps (url : list byte) p max fs q n :
  q ≠ p → fs !! q = Some n →
  wp (download_https curl io url p max)
    (λ r fs', returns r ∧ fs' !! q = Some n ∧ (r = Ok tt → curl url p max fs = Some fs')) fs.
Proof.
  intros Hne Hq. unfold download_https. up_step; [by up_step|]. up_step; [|done]. split_and!; [done| |done].
  by rewrite (curl_output _ _ _ _ _ Hfs).
Qed.

Lemma download_latest_keeps u os arch fs q n :
  uc_repository (fu_config u) = STABLE_REPOSITORY → ¬ uc_staging_directory (fu_config u) `prefix_of` q → fs !! q = Some n →
  wp (download_latest curl io u os arch)
    (λ r fs', returns r ∧ fs' !! q = Some n ∧ ∀ paths, r = Ok paths →
       ∃ name, archive_name os arch = Ok name
         ∧ paths = (path_join (uc_staging_directory (fu_config u)) name,
                    path_join (uc_staging_directory (fu_config u)) (str_lit "checksums.txt"))
         ∧ downloaded u name fs') fs.
Proof.
  intros Hrepo Hout Hq. unfold download_latest.
  assert (Hne : ∀ name, q ≠ path_join (uc_staging_directory (fu_config u)) name).
  { intros name ->. apply Hout. by apply prefix_app_r. }
  do 2 up_step; [|done]. up_step. eapply wp_conseq; [by apply staging_ready_keeps|].
  intros [[]|e|] fs1 [Hr Hq1]; [|done|done]. do 2 up_step; [|done|]; [|by unfold archive_url in Hv0; rewrite Hv in Hv0].
  up_step. eapply wp_conseq; [by apply download_https_keeps|]. intros [[]|e|] fs2 (Hr2 & Hq2 & Hc2); [|done|done].
  up_step. eapply wp_conseq; [by apply download_https_keeps|]. intros [[]|e|] fs3 (Hr3 & Hq3 & Hc3); [|done|done].
  up_step. split_and!; [done|done|]. intros paths [= <-]. exists v. split_and!; [done|done|].
  specialize (Hc2 eq_refl). specialize (Hc3 eq_refl). unfold archive_url in Hv0. rewrite Hv in Hv0. apply Ok_inj in Hv0 as <-.
  unfold checksums_url in Hc3. rewrite Hrepo in Hc2, Hc3. by exists fs1, fs2.
Qed.

(** The checksum manifest vouches for the archive. *)
Definition vouched (u : FixedSourceUpdater) (name bytes : list byte) (fs : FileSystem) : Prop :=
  ∃ chars manifest text, utf8_chars name = Some chars
    ∧ followed io (path_join (uc_staging_directory (fu_config u)) (str_lit "checksums.txt")) fs = Some (Some manifest)
    ∧ utf8_chars manifest = Some text
    ∧ expected_checksum chars text = Ok (byte_val <$> encode_hex (sha256 bytes)).

Lemma verify_checksum_returns archive checksums fs : returns (verify_checksum sha256 io archive checksums fs).
Proof.
  unfold verify_checksum, open_and_read. no_panic; auto using ok_or_returns, expected_checksum_returns.
Qed.

Lemma verify_checksum_Ok u name fs bytes :
  followed io (path_join (uc_staging_directory (fu_config u)) name) fs = Some (Some bytes) →
  verify_checksum sha256 io (path_join (uc_staging_directory (fu_config u)) name)
    (path_join (uc_staging_directory (fu_config u)) (str_lit "checksums.txt")) fs = Ok tt →
  vouched u name bytes fs.
Proof.
  intros Hf. unfold verify_checksum, open_and_read. intros (chars & Hc%ok_or_Ok & H)%bind_Ok.
  apply bind_Ok in H as (text & Ht%ok_or_Ok & H). apply bind_Ok in H as (expected & He & H).
  apply bind_Ok in H as (b & Hb & H). case_bool_decide as Hd; [done|]. subst expected.
  apply bind_Ok in Hb as (c & Hco%ok_or_Ok & Hb%ok_or_Ok). rewrite Hf in Hco.
  destruct (ui_fails io OpenArchive); [done|]. injection Hco as <-. destruct (ui_fails io ReadArchive); [done|]. injection Hb as ->.
  destruct (ui_fails io ReadManifest); [done|]. apply bind_Some in Ht as (content & Hm & Ht).
  apply bind_Some in Ht as (manifest & -> & Ht). exists chars, manifest, text. split_and!; [|done|done|done].
  unfold path_join, path_file_name in Hc. rewrite last_snoc in Hc. done.
Qed.

Lemma wp_relay_call {A} (m : stateful FileSystem RelayError A) (Q : outcome CliError A → FileSystem → Prop) fs :
  wp m (λ r fs', Q (map_err CliRelay r) fs') fs → wp (relay_call m) Q fs.
Proof. unfold wp, relay_call. by destruct (m fs). Qed.

Lemma FixedSourceUpdater_new_Ok c u :
  FixedSourceUpdater_new c = Ok u →
  fu_config u = c ∧ uc_repository c = STABLE_REPOSITORY ∧ uc_enabled c = true ∧ is_absolute (uc_staging_directory c) = true.
Proof.
  unfold FixedSourceUpdater_new. intros ([] & Hv & H)%bind_Ok. destruct (uc_enabled c) eqn:He; [|done]. cbn [negb] in H.
  apply bind_Ok in H as (v & _ & H). apply Ok_inj in H as <-. unfold UpdateConfig_validate in Hv. rewrite He in Hv. simpl in Hv.
  destruct (_ || _) eqn:Hr; [done|]. bool_facts. apply bind_Ok in Hv as ([] & [Ha _]%validate_absolute_path_Ok & _). done.
Qed.

Lemma archive_name_Ok os arch name : archive_name os arch = Ok name → ∃ rest, name = EXPECTED_BINARY_NAME ++ str_lit "-" ++ rest.
Proof. unfold archive_name. destruct (negb _); [done|]. destruct (_ || _); [|done]. intros <-%Ok_inj. eauto. Qed.

Lemma stage_apart_archive u name os arch :
  archive_name os arch = Ok name → apart (stage_path io u) (path_join (uc_staging_directory (fu_config u)) name).
Proof.
  intros (rest & ->)%archive_name_Ok. apply apart_siblings. by intros [=].
Qed.

(** What a successful update installed. *)
Definition installed_release (config : UpdateConfig) (installed : path) (fs' : FileSystem) : Prop :=
  ∃ u name fs1 bytes e staged n uid,
    FixedSourceUpdater_new config = Ok u ∧ downloaded u name fs1
    ∧ followed io (path_join (uc_staging_directory config) name) fs1 = Some (Some bytes) ∧ vouched u name bytes fs1
    ∧ holds_binary tar_entries config bytes e ∧ ae_data e = Some (nd_bytes staged) ∧ probed u staged
    ∧ fs' !! installed = Some n ∧ protected_file uid Public (uc_max_extracted_bytes config) n
    ∧ sha256 (nd_bytes n) = sha256 (nd_bytes staged).

Lemma update_spec config os arch exe prev fs :
  let backup := with_extension exe (str_lit "previous") in
  apart (uc_staging_directory config) exe → apart (uc_staging_directory config) backup → apart exe backup →
  fs !! exe = Some prev →
  wp (update sha256 tar_entries curl probe io config os arch (Some exe))
    (λ r fs', returns r ∧ kept exe backup prev fs'
       ∧ (r = Ok tt → installed_release config exe fs' ∧ fs' !! backup = Some prev)) fs.
Proof.
  intros backup Hse Hsb Heb Hprev. unfold update. fold backup.
  assert (Hstop : ∀ e fs', fs' !! exe = Some prev → returns (Err e : outcome CliError unit) ∧ kept exe backup prev fs'
     ∧ ((Err e : outcome CliError unit) = Ok tt → installed_release config exe fs' ∧ fs' !! backup = Some prev)).
  { intros e fs' H. split_and!; [done|by left|done]. }
  up_step. apply wp_relay_call. up_step; [|by apply Hstop]. cbn [map_err].
  destruct (FixedSourceUpdater_new_Ok _ _ Hv) as (<- & Hrepo & _). rename v into u.
  up_step. apply wp_relay_call. eapply wp_conseq; [by apply acquire_lock_keeps|].
  intros [[]|e|] fs1 [Hr1 Hq1]; [|by apply Hstop|done]. cbn [map_err].
  do 2 up_step; [|by apply Hstop|by unfold release_os in Hv0; destruct (_ || _) in Hv0].
  do 2 up_step; [|by apply Hstop|by unfold release_arch in Hv1; repeat case_bool_decide].
  up_step. apply wp_relay_call. eapply wp_conseq; [apply (download_latest_keeps u v v0 fs1 exe prev); [done|apply Hse|done]|].
  intros [paths|e|] fs2 (Hr2 & Hq2 & Hd); [|by apply Hstop|done]. destruct (Hd _ eq_refl) as (name & Hname & -> & Hdl).
  cbn [map_err fst snd]. up_step. apply wp_relay_call. up_step; [|by apply Hstop|by edestruct verify_checksum_returns].
  destruct v1. rename Hv2 into Hsum. cbn [map_err].
  up_step. apply wp_relay_call. eapply wp_conseq; [apply extract_spec; by eapply stage_apart_archive|].
  intros r fs3 (Hr3 & Hk3 & Hb3).
  assert (Hq3 : fs3 !! exe = Some prev).
  { eapply outside_kept_Some; [exact Hk3| |exact Hq2]. by apply (apart_below _ _ [_]). }
  destruct r as [staged|e|]; [|by apply Hstop|done].
  destruct (Hb3 _ eq_refl) as (-> & bytes & e & n & Hfol & Hhold & Hn & Hkind & Hdata).
  cbn [map_err]. up_step. apply wp_relay_call. up_step; [|by apply Hstop|by edestruct verify_staged_startup_returns].
  destruct v1. apply (verify_staged_startup_Ok _ _ _ n) in Hv2; [|done|done].
  cbn [map_err]. do 2 up_step; [|done]. apply ok_or_Ok in Hv3. injection Hv3 as <-. apply wp_relay_call.
  assert (Hbelow : ∀ q, apart (uc_staging_directory (fu_config u)) q →
    apart (path_join (stage_path io u) EXPECTED_BINARY_NAME) q) by (intros q Hq; by do 2 apply apart_below).
  eapply wp_conseq; [apply replace_spec; [by apply Hbelow|by apply Hbelow|done|done]|].
  intros r fs4 (uid & digest & (Hr4 & Hk4 & Ho4 & _) & Hv4). split_and!.
  - by destruct r.
  - by apply Hk4.
  - intros Hok. assert (Hok' : r = Ok tt) by (destruct r as [[]|e'|]; done).
    destruct (Ho4 Hok') as [(n' & Hn' & Hp' & Hd') Hpre]. destruct (Hv4 Hok') as (_ & s & Hs & _ & ->).
    split; [|by apply Hpre]. exists u, name, fs2, bytes, e, n, n', uid.
    assert (s = n) as -> by congruence. split_and!; try done. by apply verify_checksum_Ok.
Qed.
End Command.

(** [Path::with_extension] changes the last component only. *)
Lemma with_extension_cases p extension :
  with_extension p extension = p ∨ apart p (with_extension p extension).
Proof.
  unfold with_extension. destruct (path_file_name p) as [name|] eqn:Hn; [|by left].
  apply path_file_name_Some in Hn as (dir & -> & ->).
  destruct (decide (name = file_stem name ++ str_lit "." ++ extension)) as [<-|Hne]; [by left|right].
  by apply apart_siblings.
Qed.

(** ** A small instance *)
Definition ex_sha256 (bytes : list byte) : list byte := take 32 (bytes ++ zeros 32).
Definition ex_binary : list byte := [x7f; x45; x4c; x46; x31].
Definition ex_archive : list byte := str_lit "archive".
Definition ex_name : list byte := str_lit "herdogrelay-linux-x86_64.tar.gz".
Definition ex_tar_entries (_ : list byte) : option (list (option ArchiveEntry)) :=
  Some [Some {| ae_path := Some EXPECTED_BINARY_NAME; ae_regular := true; ae_size := Some 5; ae_data := Some ex_binary |}].
Definition ex_probe (_ : list byte) : ProbeRun := Exited true (Some (str_lit "herdogrelay 0.2.0" ++ [x0a])).
Definition ex_manifest : list byte := encode_hex (ex_sha256 ex_archive) ++ str_lit "  " ++ ex_name ++ [x0a].
Definition ex_file (mode : Z) (bytes : list byte) : Node :=
  {| nd_kind := IsFile; nd_uid := 5; nd_mode := mode; nd_dev := 1; nd_ino := 9; nd_bytes := bytes |}.
Definition ex_dir_node : Node :=
  {| nd_kind := IsDir; nd_uid := 5; nd_mode := 448; nd_dev := 1; nd_ino := 2; nd_bytes := [] |}.
Definition ex_curl (url : list byte) (p : path) (_ : Z) (fs : FileSystem) : option FileSystem :=
  Some (<[p := ex_file 420 (if bool_decide (drop (length url - 13) url = str_lit "checksums.txt") then ex_manifest else ex_archive)]> fs).
Definition ex_update_io : UpdateIo :=
  {| ui_fails := λ _, false; ui_material := sound_io 5; ui_id := Some (true, str_lit "5"); ui_id_again := Some (true, str_lit "5");
     ui_target := λ _, None; ui_lock_held := false; ui_staging_created := Some; ui_partial := []; ui_pid := 100;
     ui_platform := Linux |}.
Definition ex_config : UpdateConfig :=
  {| uc_enabled := true; uc_repository := STABLE_REPOSITORY; uc_channel := STABLE_CHANNEL;
     uc_staging_directory := components (str_lit "/s"); uc_max_archive_bytes := 1000; uc_max_extracted_bytes := 1000;
     uc_max_entries := 4; uc_max_compression_ratio := 10 |}.
Definition ex_updater : FixedSourceUpdater :=
  {| fu_config := ex_config; fu_current_version := {| rv_major := 0; rv_minor := 1; rv_patch := 1 |} |}.
Definition ex_exe : path := components (str_lit "/d/herdogrelay").
Definition ex_backup : path := components (str_lit "/d/herdogrelay.previous").
Definition ex_staged : path := components (str_lit "/s/herdogrelay").
Definition ex_previous : Node := ex_file 493 (str_lit "old").
Definition ex_update_fs (exe : path) : FileSystem :=
  {[ components (str_lit "/s") := ex_dir_node; components (str_lit "/d") := ex_dir_node; exe := ex_previous;
     ex_staged := ex_file 493 ex_binary ]}.
Definition ex_update (exe : path) : FileSystem * outcome CliError unit :=
  update ex_sha256 ex_tar_entries ex_curl ex_probe ex_update_io ex_config (str_lit "linux") (str_lit "x86_64") (Some exe)
    (ex_update_fs exe).

Example ex_update_Ok : (ex_update ex_exe).2 = Ok tt.
Proof. by vm_compute. Qed.

(** An executable named like its own rollback copy is its own backup: the update succeeds and
    no copy of the previous executable is left. *)
Lemma backup_of_previous_is_lost :
  with_extension ex_backup (str_lit "previous") = ex_backup
  ∧ (ex_update ex_backup).2 = Ok tt
  ∧ map_Forall (λ _ n, nd_bytes n ≠ nd_bytes ex_previous) (ex_update ex_backup).1.
Proof.
  split; [by vm_compute|]. split; [by vm_compute|].
  apply (bool_decide_eq_true (map_Forall (λ _ n, nd_bytes n ≠ nd_bytes ex_previous) (ex_update ex_backup).1)).
  by vm_compute.
Qed.

(** Without a previous executable, a staged file exchanged for a dangling symbolic link is
    installed, and the rollback, which asks [exists], leaves it there and reports success of
    the rollback. *)
Definition ex_link : Node :=
  {| nd_kind := IsSymlink; nd_uid := 5; nd_mode := 511; nd_dev := 1; nd_ino := 8; nd_bytes := str_lit "/nowhere" |}.
Lemma rollback_keeps_dangling_link :
  let run := replace_binary_with_pre_rename ex_sha256 ex_update_io ex_updater ex_staged ex_exe ex_backup
               (λ fs, <[ex_staged := ex_link]> fs) (delete ex_exe (ex_update_fs ex_exe)) in
  run.2 = Err (Update "replacing Relay binary" "installed executable failed post-replacement verification")
  ∧ run.1 !! ex_exe = Some ex_link.
Proof. split; by vm_compute. Qed.

(** * Properties *)

(** C22. Replacing the executable never loses the previous one.  Whatever system calls fail,
    and whatever happens to the staged file and the rest of the file system between its checks
    and the renames, as long as the installed path itself is left alone: the previous
    executable is afterwards at its place or at the rollback path; the replacement never
    panics; when it succeeds, the installed file is a protected file with the SHA-256 digest of
    the staged file that was checked, and the previous executable is the rollback copy; when
    it fails, and does not say that the rollback failed too, the previous executable is back
    in its place, and where there was none there is none that can be found. *)
Theorem replacement_keeps_previous sha256 io u staged installed backup pre_rename fs fs' r :
  apart staged installed → apart staged backup → apart installed backup →
  pre_rename fs !! installed = fs !! installed →
  replace_binary_with_pre_rename sha256 io u staged installed backup pre_rename fs = (fs', r) →
  returns r
  ∧ (∀ prev, fs !! installed = Some prev → fs' !! installed = Some prev ∨ fs' !! backup = Some prev)
  ∧ (r = Ok tt → ∃ uid s n,
       current_uid (ui_id io) = Ok uid
       ∧ fs !! staged = Some s ∧ protected_file uid Public (uc_max_extracted_bytes (fu_config u)) s
       ∧ fs' !! installed = Some n ∧ protected_file uid Public (uc_max_extracted_bytes (fu_config u)) n
       ∧ sha256 (nd_bytes n) = sha256 (nd_bytes s)
       ∧ ∀ prev, fs !! installed = Some prev → fs' !! backup = Some prev)
  ∧ (∀ e, r = Err e → e ≠ rollback_failed →
       match fs !! installed with
       | Some prev => fs' !! installed = Some prev
       | None => path_exists io ExistsRemoved installed fs' = false
       end).
Proof.
  intros Hsi Hsb Hib Hrace Hrun.
  destruct (wp_run _ _ _ _ _ Hrun (replace_spec sha256 io u staged installed backup pre_rename fs Hsi Hsb Hib Hrace))
    as (uid & digest & (Hr & Hk & Ho & He) & Hv).
  split_and!; [done|done| |done].
  intros Hok. destruct (Ho Hok) as [(n & Hn & Hp & Hd) Hb]. destruct (Hv Hok) as (Hu & s & Hs & Hps & ->).
  exists uid, s, n. split_and!; done.
Qed.

Lemma ex_apart :
  apart ex_staged ex_exe ∧ apart ex_staged ex_backup ∧ apart ex_exe ex_backup
  ∧ apart (uc_staging_directory ex_config) ex_exe ∧ apart (uc_staging_directory ex_config) ex_backup.
Proof. split_and!; match goal with |- apart ?p ?q => apply (bool_decide_eq_true (apart p q)) | |- ?P => apply (bool_decide_eq_true P) end; by vm_compute. Qed.

(** A staged file that is exchanged after it was checked: the previous executable is restored. *)
Lemma replacement_keeps_previous_witness :
  let exchanged := replace_binary_with_pre_rename ex_sha256 ex_update_io ex_updater ex_staged ex_exe ex_backup
                     (λ fs, <[ex_staged := ex_file 493 (str_lit "other")]> fs) (ex_update_fs ex_exe) in
  exchanged.1 !! ex_exe = Some ex_previous.
Proof.
  intros exchanged. destruct ex_apart as (H1 & H2 & H3 & _).
  destruct (replacement_keeps_previous ex_sha256 ex_update_io ex_updater ex_staged ex_exe ex_backup
    (λ fs, <[ex_staged := ex_file 493 (str_lit "other")]> fs) (ex_update_fs ex_exe) exchanged.1 exchanged.2 H1 H2 H3)
    as (_ & _ & _ & Hrestored).
  - by vm_compute.
  - apply surjective_pairing.
  - assert (Hr : exchanged.2 = Err (Update "replacing Relay binary" "installed executable failed post-replacement verification"))
      by (by vm_compute).
    specialize (Hrestored _ Hr ltac:(done)).
    assert (Hp : ex_update_fs ex_exe !! ex_exe = Some ex_previous) by (by vm_compute).
    rewrite Hp in Hrestored. exact Hrestored.
Defined.

(** C23. The update command, for an executable that is not itself named [*.previous], so
    that its rollback path is another path (one named so is its own rollback copy, and the
    update loses it: [backup_of_previous_is_lost]), and a staging directory apart from the
    executable and its rollback path.  When curl writes its output file only and
    [create_dir_all] leaves what there is, the command returns whatever fails, the running
    executable is afterwards at its path or at its rollback path, and when the command
    succeeds: the installed file has the SHA-256 digest of the one regular entry
    [herdogrelay] of an archive within the configured bounds, which curl fetched from the
    fixed release URL and whose own digest the release's checksum manifest lists under the
    archive's name; its header is that of a native executable, and the startup probe of it
    reported a newer version than the one that is running. *)
Theorem update_installs_verified_release sha256 tar_entries curl probe io config os arch exe prev fs fs' r :
  (∀ url p max fs fs', curl url p max fs = Some fs' → ∀ q, q ≠ p → fs' !! q = fs !! q) →
  (∀ fs fs', ui_staging_created io fs = Some fs' → fs ⊆ fs') →
  apart (uc_staging_directory config) exe →
  apart (uc_staging_directory config) (with_extension exe (str_lit "previous")) →
  with_extension exe (str_lit "previous") ≠ exe →
  fs !! exe = Some prev →
  update sha256 tar_entries curl probe io config os arch (Some exe) fs = (fs', r) →
  returns r
  ∧ (fs' !! exe = Some prev ∨ fs' !! with_extension exe (str_lit "previous") = Some prev)
  ∧ (r = Ok tt → fs' !! with_extension exe (str_lit "previous") = Some prev
       ∧ installed_release sha256 tar_entries curl probe io config exe fs').
Proof.
  intros Hcurl Hcreated Hse Hsb Hne Hprev Hrun.
  destruct (with_extension_cases exe (str_lit "previous")) as [?|Heb]; [done|].
  destruct (wp_run _ _ _ _ _ Hrun (update_spec sha256 tar_entries curl probe io Hcurl Hcreated config os arch exe prev fs
    Hse Hsb Heb Hprev)) as (Hr & Hk & Ho).
  split_and!; [done|done|]. intros Hok. by destruct (Ho Hok).
Qed.

Lemma update_installs_verified_release_witness :
  (ex_update ex_exe).1 !! ex_backup = Some ex_previous
  ∧ installed_release ex_sha256 ex_tar_entries ex_curl ex_probe ex_update_io ex_config ex_exe (ex_update ex_exe).1.
Proof.
  destruct ex_apart as (_ & _ & _ & H4 & H5).
  assert (Hb : with_extension ex_exe (str_lit "previous") = ex_backup) by (by vm_compute).
  destruct (update_installs_verified_release ex_sha256 ex_tar_entries ex_curl ex_probe ex_update_io ex_config
    (str_lit "linux") (str_lit "x86_64") ex_exe ex_previous (ex_update_fs ex_exe) (ex_update ex_exe).1 (ex_update ex_exe).2)
    as (_ & _ & Hok); rewrite ?Hb; try done.
  - intros url p max fs fs' [= <-] q Hq. by rewrite lookup_insert_ne.
  - by intros fs fs' [= <-].
  - apply (Hok ex_update_Ok).
Defined.
