(* ===== verification/Supervision.v ===== *)
(** * Supervision templates (src/src/supervision.rs)

    The LaunchAgent property list and the systemd user unit, and the escaping of the paths put
    into them.  A path is the byte string it was given as.  Shown: both escapings can be read
    back, and what they produce cannot leave the place it is put in. *)
From S2P Require Export Paths FieldCodec.

(** ** Escaping *)

(** [String::from_utf8_lossy]: every maximal ill-formed part is replaced by U+FFFD. *)
Definition replacement_character : list byte := [xef; xbf; xbd].
Fixpoint to_string_lossy (bs : list byte) : list byte :=
  match bs with
  | [] => []
  | b :: t =>
      let v := byte_val b in
      if v <? 128 then b :: to_string_lossy t
      else if (194 <=? v) && (v <? 224) then
        match t with
        | b1 :: t1 => if is_cont b1 then b :: b1 :: to_string_lossy t1 else replacement_character ++ to_string_lossy t
        | [] => replacement_character
        end
      else if (224 <=? v) && (v <? 240) then
        match t with
        | b1 :: t1 =>
            if second_ok b b1 then
              match t1 with
              | b2 :: t2 =>
                  if is_cont b2 then b :: b1 :: b2 :: to_string_lossy t2
                  else replacement_character ++ to_string_lossy t1
              | [] => replacement_character
              end
            else replacement_character ++ to_string_lossy t
        | [] => replacement_character
        end
      else if (240 <=? v) && (v <? 245) then
        match t with
        | b1 :: t1 =>
            if second_ok b b1 then
              match t1 with
              | b2 :: t2 =>
                  if is_cont b2 then
                    match t2 with
                    | b3 :: t3 =>
                        if is_cont b3 then b :: b1 :: b2 :: b3 :: to_string_lossy t3
                        else replacement_character ++ to_string_lossy t2
                    | [] => replacement_character
                    end
                  else replacement_character ++ to_string_lossy t1
              | [] => replacement_character
              end
            else replacement_character ++ to_string_lossy t
        | [] => replacement_character
        end
      else replacement_character ++ to_string_lossy t
  end.

(** [str::replace] of an ASCII character. *)
Definition replace_char (c : byte) (by_ : list byte) (s : list byte) : list byte :=
  s ≫= λ b, if bool_decide (b = c) then by_ else [b].

Definition escape_xml (p : list byte) : list byte :=
  replace_char x27 (str_lit "&apos;")
    (replace_char x22 (str_lit "&quot;")
       (replace_char x3e (str_lit "&gt;")
          (replace_char x3c (str_lit "&lt;")
             (replace_char x26 (str_lit "&amp;") (to_string_lossy p))))).

Definition systemd_plain (b : byte) : bool := is_ascii_alphanumeric b || bool_decide (b ∈ [x2f; x2e; x5f; x2d]).
Definition escape_systemd (p : list byte) : list byte :=
  p ≫= λ b, if systemd_plain b then [b] else str_lit "\x" ++ encode_hex [b].

(** ** The templates *)
Definition label_byte (b : byte) : bool := is_ascii_alphanumeric b || bool_decide (b ∈ [x2e; x5f; x2d]).
Definition validate_identifier (value : list byte) : relay_result unit :=
  if bool_decide (value = []) || (128 <? len value) || existsb (λ b, negb (label_byte b)) value
  then Err (InvalidConfiguration "supervision.label" "supervisor label is invalid") else Ok tt.

Fixpoint validate_paths (paths : list (list byte)) : relay_result unit :=
  match paths with
  | [] => Ok tt
  | p :: paths => _ ← validate_absolute_path "supervision.path" (components p); validate_paths paths
  end.

(** A template is its fixed text with the values in the gaps. *)
Fixpoint fill (parts values : list (list byte)) : list byte :=
  match parts, values with
  | part :: parts, value :: values => part ++ value ++ fill parts values
  | part :: _, [] => part
  | [], _ => []
  end.

Definition quoted (s : string) : list byte := (λ b, if bool_decide (b = x60) then x22 else b) <$> str_lit s.

(** A quotation mark of the template is written as a backquote. *)
Definition launch_agent_parts : list (list byte) :=
[quoted "<?xml version=`1.0` encoding=`UTF-8`?>
<!DOCTYPE plist PUBLIC `-//Apple//DTD PLIST 1.0//EN` `http://www.apple.com/DTDs/PropertyList-1.0.dtd`>
<plist version=`1.0`><dict>
<key>Label</key><string>";
quoted "</string>
<key>ProgramArguments</key><array><string>";
quoted "</string><string>--config</string><string>";
quoted "</string></array>
<key>RunAtLoad</key><true/>
<key>KeepAlive</key><dict><key>SuccessfulExit</key><false/></dict>
<key>ThrottleInterval</key><integer>30</integer>
<key>Umask</key><integer>63</integer>
<key>StandardOutPath</key><string>";
quoted "</string>
<key>StandardErrorPath</key><string>";
quoted "</string>
</dict></plist>
"].

Definition render_launch_agent (label binary config stdout stderr : list byte) : relay_result (list byte) :=
  _ ← validate_identifier label;
  _ ← validate_paths [binary; config; stdout; stderr];
  Ok (fill launch_agent_parts (label :: (escape_xml <$> [binary; config; stdout; stderr]))).

Definition systemd_parts : list (list byte) :=
[str_lit "[Unit]
Description=Herdr-dog QUIC Relay
After=network-online.target
StartLimitIntervalSec=300
StartLimitBurst=5

[Service]
ExecStart=";
str_lit " --config ";
str_lit "
Restart=on-failure
RestartSec=30s
UMask=0077
NoNewPrivileges=yes

[Install]
WantedBy=default.target
"].

Definition render_systemd_user_unit (binary config : list byte) : relay_result (list byte) :=
  _ ← validate_absolute_path "supervision.binary" (components binary);
  _ ← validate_absolute_path "supervision.config" (components config);
  Ok (fill systemd_parts (escape_systemd <$> [binary; config])).

(** * Facts *)

(** ** Reading the escapings back *)
Definition xml_entity (b : byte) : list byte :=
  match b with
  | x26 => str_lit "&amp;" | x3c => str_lit "&lt;" | x3e => str_lit "&gt;"
  | x22 => str_lit "&quot;" | x27 => str_lit "&apos;" | _ => [b]
  end.

(** What an XML reader makes of the five entities, and systemd of the hexadecimal escapes. *)
Fixpoint unescape_xml (s : list byte) : list byte :=
  match s with
  | x26 :: x61 :: x6d :: x70 :: x3b :: s => x26 :: unescape_xml s
  | x26 :: x6c :: x74 :: x3b :: s => x3c :: unescape_xml s
  | x26 :: x67 :: x74 :: x3b :: s => x3e :: unescape_xml s
  | x26 :: x71 :: x75 :: x6f :: x74 :: x3b :: s => x22 :: unescape_xml s
  | x26 :: x61 :: x70 :: x6f :: x73 :: x3b :: s => x27 :: unescape_xml s
  | b :: s => b :: unescape_xml s
  | [] => []
  end.
Fixpoint unescape_systemd (s : list byte) : list byte :=
  match s with
  | x5c :: x78 :: high :: low :: s =>
      match decode_pairs tt [high; low] with Ok decoded => decoded | _ => [] end ++ unescape_systemd s
  | b :: s => b :: unescape_systemd s
  | [] => []
  end.

Lemma list_bind_bind {A B C} (f : A → list B) (g : B → list C) (s : list A) :
  (s ≫= f) ≫= g = s ≫= (λ a, f a ≫= g).
Proof. induction s as [|a s IH]; [done|]. rewrite !bind_cons, bind_app. by rewrite IH. Qed.

Lemma escape_xml_entities p : escape_xml p = to_string_lossy p ≫= xml_entity.
Proof.
  unfold escape_xml, replace_char. rewrite !list_bind_bind. apply list_bind_ext; [|done].
  intros b. by destruct b.
Qed.

Lemma unescape_xml_escaped s : unescape_xml (s ≫= xml_entity) = s.
Proof.
  induction s as [|b s IH]; [done|]. rewrite bind_cons. rewrite <-IH at 2. by destruct b.
Qed.

Lemma unescape_systemd_escaped p : unescape_systemd (escape_systemd p) = p.
Proof.
  induction p as [|b p IH]; [done|]. unfold escape_systemd in *. rewrite bind_cons. rewrite <-IH at 2. by destruct b.
Qed.

Lemma Forall_bind_bytes (P : byte → Prop) (f : byte → list byte) s :
  (∀ b, Forall P (f b)) → Forall P (s ≫= f).
Proof. intros Hf. apply Forall_bind. by apply Forall_true. Qed.

(** Neither kind of text holds what would end its place. *)
Lemma escape_xml_inert p : Forall (λ b, b ∉ [x3c; x3e; x22; x27]) (escape_xml p).
Proof.
  rewrite escape_xml_entities. apply Forall_bind_bytes. intros b. apply (bool_decide_unpack _). by destruct b.
Qed.
Lemma escape_systemd_inert p : Forall (λ b, systemd_plain b = true ∨ b = x5c) (escape_systemd p).
Proof.
  apply Forall_bind_bytes. intros b.
  assert (H : forallb (λ c, systemd_plain c || bool_decide (c = x5c)) (if systemd_plain b then [b] else str_lit "\x" ++ encode_hex [b]) = true)
    by (by destruct b).
  rewrite forallb_forall in H. apply Forall_forall. intros c Hc%list_elem_of_In. specialize (H c Hc).
  apply orb_true_iff in H as [H|H%bool_decide_eq_true_1]; auto.
Qed.

Lemma to_string_lossy_valid s : is_str s → to_string_lossy s = s.
Proof.
  intros [cs Hcs]. remember (length s) as n eqn:Hn. assert (Hle : (length s ≤ n)%nat) by lia. clear Hn.
  revert s cs Hcs Hle. induction n as [|n IH]; intros s cs Hcs Hle; [destruct s; [done|simpl in Hle; lia]|].
  destruct s as [|b t]; [done|]. cbn [utf8_chars to_string_lossy] in *. simpl in Hle.
  destruct (byte_val b <? 128).
  { apply bind_Some in Hcs as (c & Hc & _). f_equal. eapply IH; [done|lia]. }
  destruct (_ && _).
  { destruct t as [|b1 t1]; [done|]. destruct (is_cont b1); [|done]. apply bind_Some in Hcs as (c & Hc & _).
    do 2 f_equal. simpl in Hle. eapply IH; [done|lia]. }
  destruct (_ && _).
  { destruct t as [|b1 [|b2 t2]]; [done..|]. destruct (second_ok b b1), (is_cont b2); try done.
    apply bind_Some in Hcs as (c & Hc & _). do 3 f_equal. simpl in Hle. eapply IH; [done|lia]. }
  destruct (_ && _); [|done].
  destruct t as [|b1 [|b2 [|b3 t3]]]; [done..|]. destruct (second_ok b b1), (is_cont b2), (is_cont b3); try done.
  apply bind_Some in Hcs as (c & Hc & _). do 4 f_equal. simpl in Hle. eapply IH; [done|lia].
Qed.

(** ** Reading the templates back *)
Lemma separated_inj (c : byte) a a' x y :
  Forall (λ b, b ≠ c) a → Forall (λ b, b ≠ c) a' → a ++ c :: x = a' ++ c :: y → a = a' ∧ x = y.
Proof.
  intros Ha. revert a'. induction Ha as [|b a Hb Ha IH]; intros a' Ha'; destruct Ha' as [|b' a' Hb' Ha']; simpl.
  - by intros [= ->].
  - intros [= <- _]. done.
  - intros [= -> _]. done.
  - intros [= -> [-> ->]%IH]; done.
Qed.

(** Values without the bytes that the parts begin with can be read back. *)
Lemma fill_inj (ends : byte → Prop) part parts vs vs' :
  Forall (λ q, ∃ c t, q = c :: t ∧ ends c) parts → length vs = length parts → length vs' = length parts →
  Forall (Forall (λ b, ¬ ends b)) vs → Forall (Forall (λ b, ¬ ends b)) vs' →
  fill (part :: parts) vs = fill (part :: parts) vs' → vs = vs'.
Proof.
  intros Hp. revert part vs vs'. induction Hp as [|q parts (c & t & -> & Hc) Hp IH]; intros part vs vs' Hl Hl'.
  { by destruct vs, vs'. }
  destruct vs as [|v vs], vs' as [|v' vs']; try done. injection Hl as Hl. injection Hl' as Hl'.
  intros [Hv Hvs]%Forall_cons [Hv' Hvs']%Forall_cons. 
  change (∀ H : part ++ v ++ fill ((c :: t) :: parts) vs = part ++ v' ++ fill ((c :: t) :: parts) vs', v :: vs = v' :: vs').
  intros H%app_inv_head.
  assert (Hf : ∀ ws, fill ((c :: t) :: parts) ws = c :: fill (t :: parts) ws) by (intros ws; by destruct ws).
  assert (Hne : ∀ w, Forall (λ b, ¬ ends b) w → Forall (λ b, b ≠ c) w)
    by (intros w Hw; eapply Forall_impl; [exact Hw|]; by intros b Hb ->).
  rewrite !Hf in H. apply separated_inj in H as [-> H]; [|by apply Hne|by apply Hne]. f_equal. by apply (IH t).
Qed.

Lemma validate_identifier_Ok l : validate_identifier l = Ok tt → l ≠ [] ∧ len l ≤ 128 ∧ Forall (λ b, label_byte b = true) l.
Proof.
  unfold validate_identifier. destruct (_ || _) eqn:Hb; [done|]. intros _. bool_facts. split_and!; [done|lia|].
  apply Forall_forall. intros b Hin. destruct (label_byte b) eqn:Hl; [done|].
  assert (Ht : existsb (λ b, negb (label_byte b)) l = true) by (apply existsb_exists; exists b; rewrite Hl; by split; [apply list_elem_of_In|]).
  congruence.
Qed.

Lemma validate_paths_returns ps : returns (validate_paths ps).
Proof.
  induction ps; [done|]. apply bind_returns; [unfold validate_absolute_path; by destruct (_ || _)|done].
Qed.

Lemma escaped_back (escape unescape : list byte → list byte) ps ps' :
  Forall (λ p, unescape (escape p) = p) ps → Forall (λ p, unescape (escape p) = p) ps' →
  escape <$> ps = escape <$> ps' → ps = ps'.
Proof.
  assert (Hid : ∀ qs, Forall (λ p, unescape (escape p) = p) qs → unescape <$> (escape <$> qs) = qs).
  { intros qs Hq. induction Hq as [|q qs Hq _ IH]; [done|]. rewrite !fmap_cons. by rewrite Hq, IH. }
  intros H1 H2 H. rewrite <-(Hid ps H1), <-(Hid ps' H2). by rewrite H.
Qed.

(** A LaunchAgent is rendered for a label of at most 128 plain bytes and absolute paths; when
    the paths are UTF-8, its text names exactly that label and those paths. *)
Lemma launch_agent_faithful label paths label' paths' text :
  length paths = 4%nat → length paths' = 4%nat → Forall is_str paths → Forall is_str paths' →
  validate_identifier label = Ok tt → validate_identifier label' = Ok tt →
  fill launch_agent_parts (label :: (escape_xml <$> paths)) = text →
  fill launch_agent_parts (label' :: (escape_xml <$> paths')) = text →
  label = label' ∧ paths = paths'.
Proof.
  intros Hl Hl' Hs Hs' (_ & _ & Hlb)%validate_identifier_Ok (_ & _ & Hlb')%validate_identifier_Ok Ht Ht'.
  assert (Hinert : ∀ ps, Forall (Forall (λ b, b ≠ x3c)) (escape_xml <$> ps)).
  { intros ps. apply Forall_fmap, Forall_true. intros p. eapply Forall_impl; [apply escape_xml_inert|]. set_solver. }
  assert (Hlab : ∀ l, Forall (λ b, label_byte b = true) l → Forall (λ b, b ≠ x3c) l).
  { intros l Hf. eapply Forall_impl; [exact Hf|]. by intros b Hb ->. }
  rewrite <-Ht' in Ht. unfold launch_agent_parts in Ht.
  assert (Hlen : ∀ l ps, length ps = 4%nat → length (l :: (escape_xml <$> ps)) = 5%nat)
    by (intros l ps Hp; by rewrite length_cons, length_map, Hp).
  apply (fill_inj (λ b, b = x3c)) in Ht as [= -> Hps]; [|by repeat constructor; do 2 eexists|by apply Hlen|by apply Hlen|by auto|by auto].
  split; [done|]. revert Hps. apply (escaped_back _ unescape_xml).
  1: eapply Forall_impl; [exact Hs|]. 2: eapply Forall_impl; [exact Hs'|].
  all: intros p Hp; simpl; by rewrite escape_xml_entities, unescape_xml_escaped, to_string_lossy_valid.
Qed.

(** [render_launch_agent] returns, and on UTF-8 paths its text names exactly its arguments. *)
Lemma render_launch_agent_faithful :
  (∀ label binary config stdout stderr, returns (render_launch_agent label binary config stdout stderr))
  ∧ ∀ label binary config stdout stderr label' binary' config' stdout' stderr' text,
      Forall is_str [binary; config; stdout; stderr] → Forall is_str [binary'; config'; stdout'; stderr'] →
      render_launch_agent label binary config stdout stderr = Ok text →
      render_launch_agent label' binary' config' stdout' stderr' = Ok text →
      label = label' ∧ [binary; config; stdout; stderr] = [binary'; config'; stdout'; stderr'].
Proof.
  unfold render_launch_agent. split.
  - intros l b c o e. apply bind_returns; [unfold validate_identifier; by destruct (_ || _)|]. intros _ _.
    by apply bind_returns; [apply validate_paths_returns|].
  - intros l b c o e l' b' c' o' e' text Hs Hs' ([] & Hl & (_ & _ & Ht%Ok_inj)%bind_Ok)%bind_Ok
      ([] & Hl' & (_ & _ & Ht'%Ok_inj)%bind_Ok)%bind_Ok.
    exact (launch_agent_faithful l [b; c; o; e] l' [b'; c'; o'; e'] text eq_refl eq_refl Hs Hs' Hl Hl' Ht Ht').
Qed.

(** Observation: of a path that is not UTF-8 the text names another one. *)
Lemma launch_agent_lossy :
  let path b := str_lit "/" ++ [b] in
  render_launch_agent (str_lit "relay") (path xfe) (path x61) (path x61) (path x61)
  = render_launch_agent (str_lit "relay") (path xff) (path x61) (path x61) (path x61)
  ∧ is_ok (render_launch_agent (str_lit "relay") (path xfe) (path x61) (path x61) (path x61)) = true.
Proof. split; by vm_compute. Qed.

(** A unit is rendered for any two absolute paths and names exactly those. *)
Lemma systemd_unit_faithful binary config binary' config' text :
  render_systemd_user_unit binary config = Ok text → render_systemd_user_unit binary' config' = Ok text →
  binary = binary' ∧ config = config'.
Proof.
  unfold render_systemd_user_unit. intros (_ & _ & (_ & _ & <-%Ok_inj)%bind_Ok)%bind_Ok
    (_ & _ & (_ & _ & H%Ok_inj)%bind_Ok)%bind_Ok.
  assert (Hinert : ∀ ps, Forall (Forall (λ b, ¬ (b = x20 ∨ b = x0a))) (escape_systemd <$> ps)).
  { intros ps. apply Forall_fmap, Forall_true. intros p. eapply Forall_impl; [apply escape_systemd_inert|].
    intros b [Hb|Hb] [H1|H1]; by subst. }
  unfold systemd_parts in H.
  apply (fill_inj (λ b, b = x20 ∨ b = x0a)) in H;
    [|repeat constructor; do 2 eexists; split; [reflexivity|auto|reflexivity|auto]|done|done|done|done].
  apply (escaped_back _ unescape_systemd) in H as [= -> ->]; [done| |];
    apply Forall_true; intros p; apply unescape_systemd_escaped.
Qed.
