(* ===== verification/Cli.v ===== *)
(** * The command line (src/src/bin/herdogrelay.rs)

    The commands of the executable: how the arguments are read, and what [run], [update] and
    [revoke] do with the configuration they name.  The command [run] starts the iroh relay up
    to its endpoint (IrohRelay.v, Config.v) and stops it; iroh's part, and the wait for a
    signal in between, is a record of answers.  The update itself is in Updater.v. *)
From S2P Require Import IrohRelay Services.
From S2P Require Export Config Updater.

Inductive CliCommand : Type :=
| CliRun (config_path : path) (port : option Z) (provision_development_identity : bool)
| CliUpdate (config_path : path)
| CliRevoke (config_path : path) (app_id : list byte)
| CliPrintDefaultConfig
| CliHelp
| CliVersion.

Abbreviation cli_result := (outcome CliError).

(** ** Arguments *)
Definition is_arg (names : list (list byte)) (argument : list byte) : bool := bool_decide (argument ∈ names).

Definition unknown_option {A} (option : list byte) : cli_result A :=
  Err (CliUsage (String.append "unknown option: " (String.string_of_list_byte option))).
Definition parse_port (value : list byte) : cli_result Z :=
  parsed ← ok_or (cs ← utf8_chars value; parse_unsigned u16_max cs) (CliUsage "--port must be a valid UDP port");
  if parsed =? 0 then Err (CliUsage "--port must be non-zero") else Ok parsed.

(** The loop of [parse_args]: the options of [run], with the values they are to replace. *)
Record RunOptions : Type := {
  ro_config_path : option path;
  ro_port : option Z;
  ro_provision : bool;
}.
Definition RunOptions_default : RunOptions := {| ro_config_path := None; ro_port := None; ro_provision := false |}.

Fixpoint run_options (arguments : list (list byte)) (o : RunOptions) : cli_result RunOptions :=
  match arguments with
  | [] => Ok o
  | argument :: rest =>
      if is_arg [str_lit "--config"; str_lit "-c"] argument then
        match rest with
        | [] => Err (CliUsage "--config requires a path")
        | value :: rest =>
            run_options rest {| ro_config_path := Some (components value); ro_port := ro_port o;
                                ro_provision := ro_provision o |}
        end
      else if is_arg [str_lit "--port"] argument then
        match rest with
        | [] => Err (CliUsage "--port requires a number")
        | value :: rest =>
            port ← parse_port value;
            run_options rest {| ro_config_path := ro_config_path o; ro_port := Some port;
                                ro_provision := ro_provision o |}
        end
      else if is_arg [str_lit "--provision-development-identity"] argument then
        run_options rest {| ro_config_path := ro_config_path o; ro_port := ro_port o; ro_provision := true |}
      else unknown_option argument
  end.

Definition default_run_config : path := components (str_lit ".config/herdr-dog/iroh-relay.toml").
Definition default_control_config : path := components (str_lit ".config/herdr-dog/relay.toml").

(** The loop of [parse_control_command]. *)
Fixpoint control_options (command : list byte) (arguments : list (list byte)) (config_path : path)
    (app_id : option (list byte)) : cli_result (path * option (list byte)) :=
  match arguments with
  | [] => Ok (config_path, app_id)
  | argument :: rest =>
      if is_arg [str_lit "--config"; str_lit "-c"] argument then
        match rest with
        | [] => Err (CliUsage "--config requires a path")
        | value :: rest => control_options command rest (components value) app_id
        end
      else if is_arg [str_lit "--app-id"] argument && is_arg [str_lit "revoke"] command then
        match rest with
        | [] => Err (CliUsage "--app-id requires a value")
        | value :: rest => control_options command rest config_path (Some value)
        end
      else unknown_option argument
  end.

Definition parse_control_command (arguments : list (list byte)) : cli_result CliCommand :=
  let command := default [] (head arguments) in
  options ← control_options command (tail arguments) default_control_config None;
  if is_arg [str_lit "update"] command && bool_decide (options.2 = None) then Ok (CliUpdate options.1)
  else if is_arg [str_lit "revoke"] command
  then app_id ← ok_or options.2 (CliUsage "revoke requires --app-id"); Ok (CliRevoke options.1 app_id)
  else Err (CliUsage "unsupported local control command").

Definition is_control_command (arguments : list (list byte)) : bool :=
  match arguments with [] => false | command :: _ => is_arg [str_lit "update"; str_lit "revoke"] command end.

Definition parse_args (arguments : list (list byte)) : cli_result CliCommand :=
  if is_control_command arguments then parse_control_command arguments else
  if existsb (is_arg [str_lit "--help"; str_lit "-h"]) arguments then Ok CliHelp else
  if existsb (is_arg [str_lit "--version"; str_lit "-V"]) arguments then Ok CliVersion else
  if existsb (is_arg [str_lit "--print-default-config"]) arguments then Ok CliPrintDefaultConfig else
  let arguments :=
    match arguments with
    | command :: rest => if is_arg [str_lit "run"] command then rest else arguments
    | [] => []
    end in
  o ← run_options arguments RunOptions_default;
  Ok (CliRun (default default_run_config (ro_config_path o)) (ro_port o) (ro_provision o)).

(** ** Commands *)
Definition require_verified_security (config : RelayConfig) : cli_result unit :=
  if bool_decide (sc_mode (cf_security config) ≠ Verified)
  then Err (CliUsage "development_unverified is available only to test harnesses") else Ok tt.

(** What iroh answers to a start: whether it takes the bind address, binds the endpoint, and
    later shuts the router down. *)
Record EndpointIo (IpAddr : Type) : Type := {
  ep_accepts_addr : IpAddr * Z → bool;
  ep_binds : bool;
  ep_shuts_down : bool;
}.
#[global] Arguments ep_accepts_addr {IpAddr} _.
#[global] Arguments ep_binds {IpAddr} _.
#[global] Arguments ep_shuts_down {IpAddr} _.

(** ** The relay *)
Section Relay.
Context {IpAddr St Fl : Type} `{!RevisionStore St Fl}.
Context (parse_socket_addr : list byte → option (IpAddr * Z)) (socket_addr_to_string : IpAddr * Z → list byte).
Context (relay_url_from_str : list byte → option (list byte * list byte * option (list byte))).
Context (iroh_from_toml : list byte → option IrohRuntimeFile) (read_to_string : path → option (list byte)).
Context (pairings_to_vec : list PersistedPairingRelation → option (list byte)).
Context (pairings_from_slice : list byte → option (list PersistedPairingRelation)).
Context (endpoint_id_ok : list byte → bool) (public : list byte → list byte).
Context (identity_to_vec : list byte → list byte → option (list byte)).
Context (identity_from_slice : list byte → option (list byte * list byte)).
Context (open_store : path → option St) (env : BindEnv (St := St) (Fl := Fl)) (ep : EndpointIo IpAddr).

(** [bind] or [provision_development_identity], to the end of [bind_resolved]. *)
Definition bind_endpoint (config : EndpointConfig (IpAddr := IpAddr) St) (provision : bool)
  : option St * endpoint_result (list byte * IrohRelayState (St := St)) :=
  let '(store, started) :=
    if provision
    then provision_development_identity pairings_to_vec pairings_from_slice endpoint_id_ok public identity_to_vec
           identity_from_slice env (en_config config) (en_authority_store config)
    else bind_authority pairings_to_vec pairings_from_slice endpoint_id_ok public identity_to_vec
           identity_from_slice env (en_config config) (en_authority_store config) None in
  (store,
   started ← started;
   _ ← match en_bind_addr config with
       | Some address => if ep_accepts_addr ep address then Ok tt else Err (InvalidConfigurationField "bind_addr")
       | None => Ok tt
       end;
   if ep_binds ep then Ok started else Err Bind).

(** The configuration [run_iroh] starts with, and the client of its pairing verifier, [None]
    for [RejectAllPairing]. *)
Definition run_config (config_path : path) (port : option Z) : cli_result IrohRuntimeConfig :=
  config ← map_err CliRelay (IrohRuntimeConfig_from_path parse_socket_addr iroh_from_toml (read_to_string config_path));
  match port with
  | Some port => map_err CliRelay (with_bind_port parse_socket_addr socket_addr_to_string port config)
  | None => Ok config
  end.
Definition run_verifier (config : IrohRuntimeConfig) : cli_result (option HerdrWorkspaceClient) :=
  match ih_pairing config with
  | Some pairing => Some <$> map_err CliRelay (map_err from_endpoint_error (from_runtime_config pairing))
  | None => Ok None
  end.

Record StartedRelay : Type := {
  sr_config : EndpointConfig (IpAddr := IpAddr) St;
  sr_verifier : option HerdrWorkspaceClient;
  sr_secret_key : list byte;
  sr_state : IrohRelayState (St := St);
}.

(** [run_iroh] up to the wait for a signal: what it leaves of the recovery store, and the relay
    that serves. *)
Definition start_iroh (config_path : path) (port : option Z) (provision : bool) : option St * cli_result StartedRelay :=
  let prepared :=
    config ← run_config config_path port;
    endpoint_config ← map_err CliRelay (to_endpoint_config parse_socket_addr relay_url_from_str open_store config);
    if provision && bool_decide (ih_development_recovery_directory config = None)
    then Err (CliUsage "--provision-development-identity requires development_recovery_directory") else
    verifier ← run_verifier config;
    Ok (endpoint_config, verifier) in
  match prepared with
  | Ok (config, verifier) =>
      let '(store, started) := bind_endpoint config provision in
      (store, '(secret_key, state) ← map_err CliRelay (map_err from_endpoint_error started);
              Ok {| sr_config := config; sr_verifier := verifier; sr_secret_key := secret_key; sr_state := state |})
  | Err e => (None, Err e)
  | Panic => (None, Panic)
  end.

Definition run_iroh (config_path : path) (port : option Z) (provision : bool) : cli_result unit :=
  _ ← (start_iroh config_path port provision).2;
  if ep_shuts_down ep then Ok tt else Err (CliRelay (from_endpoint_error Shutdown)).
End Relay.

(** ** The local control commands and the process *)
Section Control.
Context {IpAddr : Type} (parse_ip : list byte → option IpAddr).
Context (relay_from_toml : list byte → option RelayConfig) (read_to_string : path → option (list byte)).
Context (sha256 : list byte → list byte) (tar_entries : list byte → option (list (option ArchiveEntry))).
Context (curl : list byte → path → Z → FileSystem → option FileSystem) (probe : list byte → ProbeRun).
Context (registry_to_vec : AllowlistRegistry → option (list byte)).
Context (registry_from_slice : list byte → option AllowlistRegistry).
Context (uio : UpdateIo) (os arch : list byte) (current_exe : option path).
Context (open_io revoke_io : StoreIo) (id_output : option (bool * list byte)).

(** The configuration both commands start from. *)
Definition control_config (config_path : path) : cli_result RelayConfig :=
  config ← map_err CliRelay (RelayConfig_from_path parse_ip relay_from_toml (read_to_string config_path));
  _ ← require_verified_security config;
  Ok config.

Definition update_command (config_path : path) : stateful FileSystem CliError unit :=
  (let! config := st_lift (control_config config_path) in
   update sha256 tar_entries curl probe uio (cf_update config) os arch current_exe)%relay.

(** The allowlist of [revoke], opened, changed and dropped. *)
Definition revoke_at (p : path) (uid : Z) (app_id : list byte) : stateful FileSystem CliError Z := λ fs,
  match PersistentAllowlist_open registry_to_vec registry_from_slice open_io p uid fs with
  | (fs, Ok allowlist) =>
      let '((_, fs), generation) :=
        PersistentAllowlist_revoke registry_to_vec registry_from_slice revoke_io app_id (allowlist, fs) in
      (fs, map_err (λ _, CliUsage "allowlist entry could not be revoked") generation)
  | (fs, Err e) => (fs, Err (CliRelay e))
  | (fs, Panic) => (fs, Panic)
  end.
Definition revoke_command (config_path : path) (app_id : list byte) : stateful FileSystem CliError Z :=
  (let! config := st_lift (control_config config_path) in
   let! app_id := st_lift (map_err (λ _, CliUsage "--app-id is invalid") (AppId_new app_id)) in
   let! uid := st_lift (map_err CliRelay (current_uid id_output)) in
   revoke_at (ec_allowlist_path (cf_enrollment config)) uid app_id)%relay.

(** The command the arguments name: what it prints on the standard output.  [run] is
    [run_iroh], whose store is not part of this file system; [default_iroh_config] is the text
    of config/iroh-default.toml and [version] that of Cargo.toml. *)
Context (run : path → option Z → bool → cli_result unit) (default_iroh_config version : list byte).

Definition COMMAND_NAME : list byte := str_lit "herdogrelay".
Definition HELP_TEXT : list byte := str_lit
"herdogrelay - iroh application Relay

Usage:
  herdogrelay [run] [--config PATH] [--port PORT] [--provision-development-identity]
  herdogrelay update --config PATH
  herdogrelay revoke --config PATH --app-id APP_ID
  herdogrelay --print-default-config
  herdogrelay --help
  herdogrelay --version

The run command reads an iroh [iroh] configuration and keeps the endpoint alive until shutdown.
".

Definition execute (command : CliCommand) : stateful FileSystem CliError (list byte) :=
  (match command with
   | CliHelp => st_ret HELP_TEXT
   | CliVersion => st_ret (COMMAND_NAME ++ str_lit " " ++ version ++ [x0a])
   | CliPrintDefaultConfig => st_ret default_iroh_config
   | CliRun config_path port provision => do! st_lift (run config_path port provision); st_ret []
   | CliUpdate config_path => do! update_command config_path; st_ret []
   | CliRevoke config_path app_id => let! _ := revoke_command config_path app_id in st_ret []
   end)%relay.

Definition exit_code {A} (r : cli_result A) : Z := match r with Ok _ => 0 | Err _ => 2 | Panic => 101 end.

Definition main (arguments : list (list byte)) (fs : FileSystem) : FileSystem * Z :=
  let '(fs, result) := st_bind (st_lift (parse_args arguments)) execute fs in (fs, exit_code result).

(** ** The update the QRM server runs for a Core (quic_server.rs) *)
Definition running (reason : string) : RelayError := Errors.Update "running stable-latest update" reason.
Definition perform_stable_latest_update (config : RelayConfig) : stateful FileSystem RelayError unit :=
  (let! u := st_lift (FixedSourceUpdater_new (cf_update config)) in
   do! acquire_lock uio u;
   let! os := st_lift (map_err (λ _, running "unsupported operating system") (release_os os)) in
   let! arch := st_lift (map_err (λ _, running "unsupported architecture") (release_arch arch)) in
   let! paths := download_latest curl uio u os arch in
   do! reading (verify_checksum sha256 uio paths.1 paths.2);
   let! staged := extract_verified tar_entries uio u paths.1 in
   do! reading (verify_staged_startup sha256 probe uio u staged);
   let! installed := st_lift (ok_or current_exe (running "current executable path is unavailable")) in
   replace_binary sha256 uio u staged installed (with_extension installed (str_lit "previous")))%relay.
End Control.

(** * Facts *)

(** ** What the arguments can say *)
(** One option of [run] with its value, as it is written and as it changes the options. *)
Inductive RunOption : Type := ConfigOption (value : list byte) | PortOption (value : list byte) | ProvisionOption.

Definition option_words (o : RunOption) : list (list byte) :=
  match o with
  | ConfigOption value => [str_lit "--config"; value]
  | PortOption value => [str_lit "--port"; value]
  | ProvisionOption => [str_lit "--provision-development-identity"]
  end.
Definition option_set (s : RunOptions) (o : RunOption) : RunOptions :=
  match o with
  | ConfigOption value =>
      {| ro_config_path := Some (components value); ro_port := ro_port s; ro_provision := ro_provision s |}
  | PortOption value =>
      {| ro_config_path := ro_config_path s;
         ro_port := match parse_port value with Ok port => Some port | _ => None end; ro_provision := ro_provision s |}
  | ProvisionOption => {| ro_config_path := ro_config_path s; ro_port := ro_port s; ro_provision := true |}
  end.
Definition option_valid (o : RunOption) : Prop :=
  match o with PortOption value => ∃ port, parse_port value = Ok port | _ => True end.

(** [-c] for [--config]. *)
Definition long_form (argument : list byte) : list byte :=
  if bool_decide (argument = str_lit "-c") then str_lit "--config" else argument.

(** Induction for the loops that take an option with its value. *)
Lemma pairs_ind {A} (P : list A → Prop) :
  P [] → (∀ a, P [a]) → (∀ a v l, P l → P (v :: l) → P (a :: v :: l)) → ∀ l, P l.
Proof.
  intros H0 H1 H2 l. cut (P l ∧ ∀ a, P (a :: l)); [tauto|]. induction l as [|v l [Hl Hc]]; [auto|].
  split; [apply Hc|]. intros a. by apply H2.
Qed.

Lemma is_arg_true names a : is_arg names a = true ↔ a ∈ names.
Proof. unfold is_arg. by rewrite bool_decide_eq_true. Qed.

Lemma run_options_words os s :
  Forall option_valid os → run_options (os ≫= option_words) s = Ok (foldl option_set s os).
Proof.
  intros Hos. revert s. induction Hos as [|o os Ho Hos IH]; intros s; [done|].
  destruct o as [v|v|]; cbn [option_valid] in Ho; [|destruct Ho as [port Hp]|]; rewrite bind_cons; simpl;
    [apply IH|rewrite Hp; simpl; apply IH|apply IH].
Qed.

Lemma run_options_pair a v rest s :
  run_options (a :: v :: rest) s
  = if is_arg [str_lit "--config"; str_lit "-c"] a
    then run_options rest {| ro_config_path := Some (components v); ro_port := ro_port s; ro_provision := ro_provision s |}
    else if is_arg [str_lit "--port"] a
    then port ← parse_port v;
         run_options rest {| ro_config_path := ro_config_path s; ro_port := Some port; ro_provision := ro_provision s |}
    else if is_arg [str_lit "--provision-development-identity"] a
    then run_options (v :: rest) {| ro_config_path := ro_config_path s; ro_port := ro_port s; ro_provision := true |}
    else unknown_option a.
Proof. done. Qed.

Lemma run_options_inv arguments s s' :
  run_options arguments s = Ok s' →
  ∃ os, Forall option_valid os ∧ s' = foldl option_set s os
        ∧ Forall2 (λ a w, a = w ∨ long_form a = w) arguments (os ≫= option_words).
Proof.
  revert s. induction arguments as [|a|a v rest IH IHv] using pairs_ind; intros s.
  - intros [= <-]. by exists [].
  - simpl. destruct (is_arg _ a); [done|]. destruct (is_arg _ a); [done|].
    destruct (is_arg _ a) eqn:Ha; [|done]. intros [= <-]. apply is_arg_true, list_elem_of_singleton in Ha as ->.
    exists [ProvisionOption]. split_and!; [by constructor|done|]. constructor; auto.
  - rewrite run_options_pair. destruct (is_arg _ a) eqn:Ha.
    { intros (os & Hv & -> & Hw)%IH.
      exists (ConfigOption v :: os). split_and!; [by constructor|done|]. rewrite bind_cons. simpl.
      apply is_arg_true in Ha. constructor; [|constructor; [by left|done]].
      set_unfold in Ha; destruct Ha as [->|[->|[]]]; [by left|by right]. }
    clear Ha. destruct (is_arg _ a) eqn:Ha.
    { apply is_arg_true, list_elem_of_singleton in Ha as ->.
      intros (port & Hp & (os & Hv & -> & Hw)%IH)%bind_Ok.
      exists (PortOption v :: os). rewrite bind_cons. simpl. rewrite Hp.
      split_and!; [constructor; [by exists port|done]|done|]. repeat constructor; auto. }
    clear Ha. destruct (is_arg _ a) eqn:Ha; [|done].
    apply is_arg_true, list_elem_of_singleton in Ha as ->. intros (os & Hv & -> & Hw)%IHv.
    exists (ProvisionOption :: os). split_and!; [by constructor|done|]. rewrite bind_cons. constructor; auto.
Qed.

Lemma parse_digits_bounds max acc cs v : 0 ≤ acc ≤ max → parse_digits max acc cs = Some v → 0 ≤ v ≤ max.
Proof.
  revert acc. induction cs as [|c cs IH]; intros acc Ha; simpl; [by intros [= <-]|].
  destruct (_ && _) eqn:Hc; [|done]. bool_facts. destruct (_ <=? max) eqn:Hm; [|done]. apply IH. lia.
Qed.
Lemma parse_unsigned_bounds max cs v : 0 ≤ max → parse_unsigned max cs = Some v → 0 ≤ v ≤ max.
Proof.
  intros Hm. unfold parse_unsigned. intros H.
  repeat (match type of H with context [match ?x with _ => _ end] => destruct x end; try done);
    eapply parse_digits_bounds; try exact H; lia.
Qed.

Lemma parse_port_Ok value port : parse_port value = Ok port → 0 < port ≤ u16_max.
Proof.
  unfold parse_port. intros (p & (cs & _ & Hp)%ok_or_Ok%bind_Some & H)%bind_Ok.
  apply parse_unsigned_bounds in Hp; [|done]. destruct (p =? 0) eqn:Hz; [done|]. apply Ok_inj in H as <-. lia.
Qed.
Lemma parse_port_returns value : returns (parse_port value).
Proof. apply bind_returns; [apply ok_or_returns|]. intros p _. by destruct (p =? 0). Qed.

Lemma run_options_port arguments s s' :
  run_options arguments s = Ok s' → (∀ port, ro_port s = Some port → 0 < port ≤ u16_max) →
  ∀ port, ro_port s' = Some port → 0 < port ≤ u16_max.
Proof.
  intros (os & _ & -> & _)%run_options_inv Hs. revert s Hs. induction os as [|o os IH]; intros s Hs; [exact Hs|].
  apply IH. destruct o as [v|v|]; simpl; [exact Hs| |exact Hs].
  intros port. destruct (parse_port v) eqn:Hp; [|done..]. intros [= <-]. by eapply parse_port_Ok.
Qed.

Lemma control_options_app command arguments cp app cp' app' :
  control_options command arguments cp app = Ok (cp', Some app') →
  app = Some app' ∨ ∃ before after, arguments = before ++ [str_lit "--app-id"; app'] ++ after.
Proof.
  revert cp app. induction arguments as [|a|a v rest IH _] using pairs_ind; intros cp app.
  - intros [= _ ->]. by left.
  - simpl. destruct (is_arg _ a); [done|]. by destruct (_ && _).
  - simpl. destruct (is_arg _ a) eqn:Ha.
    { intros [?|(l1 & l2 & ->)]%IH; [by left|]. right. by exists (a :: v :: l1), l2. }
    destruct (is_arg [str_lit "--app-id"] a && _) eqn:Hb; [|done].
    apply andb_true_iff in Hb as [->%is_arg_true%list_elem_of_singleton _].
    intros [[= ->]|(l1 & l2 & ->)]%IH; right.
    + by exists [], rest.
    + by exists (str_lit "--app-id" :: v :: l1), l2.
Qed.

Lemma control_options_returns command arguments cp app : returns (control_options command arguments cp app).
Proof.
  revert cp app. induction arguments as [|a|a v rest IH _] using pairs_ind; intros cp app; [done|..];
    simpl; (destruct (is_arg _ a); [by try apply IH|]); destruct (_ && _); by try apply IH.
Qed.
Lemma run_options_returns arguments s : returns (run_options arguments s).
Proof.
  revert s. induction arguments as [|a|a v rest IH IHv] using pairs_ind; intros s; [done|..].
  - simpl. by repeat (destruct (is_arg _ a); [done|]).
  - rewrite run_options_pair. destruct (is_arg _ a); [done|]. destruct (is_arg _ a).
    { apply bind_returns; [apply parse_port_returns|]. intros port _. apply IH. }
    by destruct (is_arg _ a).
Qed.

(** Parsing the arguments never panics; a port that is accepted is a port; and an App is
    revoked only when the command is [revoke] and the App is named after [--app-id]. *)
Lemma parse_args_sound :
  (∀ arguments, returns (parse_args arguments))
  ∧ (∀ arguments config_path port provision,
       parse_args arguments = Ok (CliRun config_path (Some port) provision) → 0 < port ≤ u16_max)
  ∧ (∀ arguments config_path app_id,
       parse_args arguments = Ok (CliRevoke config_path app_id) →
       head arguments = Some (str_lit "revoke")
       ∧ ∃ before after, arguments = before ++ [str_lit "--app-id"; app_id] ++ after).
Proof.
  split_and!.
  - intros args. unfold parse_args. destruct (is_control_command args).
    + apply bind_returns; [apply control_options_returns|]. intros o _.
      destruct (_ && _); [done|]. destruct (is_arg _ _); [|done]. by apply bind_returns; [apply ok_or_returns|].
    + repeat (destruct (existsb _ args); [done|]). by apply bind_returns; [apply run_options_returns|].
  - intros args cp port prov. unfold parse_args. destruct (is_control_command args).
    { unfold parse_control_command. intros (o & _ & H)%bind_Ok. destruct (_ && _); [done|]. destruct (is_arg _ _); [|done].
      by apply bind_Ok in H as (a & _ & H). }
    repeat (destruct (existsb _ args); [done|]). intros (o & Ho & [= _ Hp _])%bind_Ok.
    exact (run_options_port _ _ _ Ho ltac:(done) _ Hp).
  - intros args cp app. unfold parse_args. destruct (is_control_command args) eqn:Hc.
    2: { repeat (destruct (existsb _ args); [done|]). by intros (o & _ & H)%bind_Ok. }
    destruct args as [|c args]; [done|]. unfold parse_control_command. cbn [head tail default].
    change (id c) with c.
    intros ([cp' app'] & Ho & H)%bind_Ok.
    match type of H with (if ?b then _ else _) = _ => destruct b in H end; [done|].
    destruct (is_arg [str_lit "revoke"] c) eqn:Hr in H; [|done]. apply is_arg_true, list_elem_of_singleton in Hr as ->.
    apply bind_Ok in H as (a & Ha%ok_or_Ok & [= -> ->]). simpl in Ha. subst app'. split; [done|].
    apply control_options_app in Ho as [?|(l1 & l2 & ->)]; [done|]. by exists (str_lit "revoke" :: l1), l2.
Qed.

(** Words that are answered wherever they stand, even as the value of an option. *)
Definition information_words : list (list byte) :=
  [str_lit "--help"; str_lit "-h"; str_lit "--version"; str_lit "-V"; str_lit "--print-default-config"].

(** Every written form of [run] and [revoke] is read as what it says. *)
Lemma parse_args_complete :
  (∀ os, Forall option_valid os →
     Forall (λ a, a ∉ information_words) (os ≫= option_words) →
     let o := foldl option_set RunOptions_default os in
     parse_args (str_lit "run" :: (os ≫= option_words))
     = Ok (CliRun (default default_run_config (ro_config_path o)) (ro_port o) (ro_provision o)))
  ∧ (∀ config app_id,
       parse_args [str_lit "revoke"; str_lit "--config"; config; str_lit "--app-id"; app_id]
       = Ok (CliRevoke (components config) app_id))
  ∧ (∀ config, parse_args [str_lit "update"; str_lit "--config"; config] = Ok (CliUpdate (components config))).
Proof.
  split_and!; [|done|done]. intros os Hos Hw.
  assert (Hno : ∀ names, names ⊆ information_words →
    is_arg names (str_lit "run") = false → existsb (is_arg names) (str_lit "run" :: (os ≫= option_words)) = false).
  { intros names Hsub Hrun. apply not_true_iff_false. intros (a & Ha & Hn%is_arg_true)%existsb_exists.
    apply list_elem_of_In in Ha. set_unfold in Ha. destruct Ha as [->|Ha]; [by apply is_arg_true in Hn; rewrite Hn in Hrun|].
    rewrite Forall_forall in Hw. apply (Hw a); [|by apply Hsub]. set_solver. }
  unfold parse_args. cbn [is_control_command]. rewrite !Hno by (done || set_solver).
  change (is_arg [str_lit "update"; str_lit "revoke"] (str_lit "run")) with false.
  change (is_arg [str_lit "run"] (str_lit "run")) with true. cbn iota. by rewrite run_options_words.
Qed.

(** ** Revoking an App *)
Section RevokeFacts.
Context (registry_to_vec : AllowlistRegistry → option (list byte)).
Context (registry_from_slice : list byte → option AllowlistRegistry).
Context (json_roundtrip : ∀ v bytes, registry_to_vec v = Some bytes → registry_from_slice bytes = Some v).
Context (json_u64 : ∀ v bytes, registry_from_slice bytes = Some v → is_u64 (ar_generation v)).

(** What the file of an allowlist holds. *)
Definition file_registry (p : path) (fs : FileSystem) (reg : AllowlistRegistry) : Prop :=
  ∃ file, fs !! p = Some file ∧ parse_registry registry_from_slice (nd_bytes file) = Ok reg.

(** Whatever a reload of that file succeeds to read is what it holds. *)
Lemma reload_reads p uid io a fs reg a' fs' :
  parsed p → Services.sound_io uid io → st_path a = p → st_expected_uid a = uid → file_registry p fs reg →
  PersistentAllowlist_reload registry_from_slice io (a, fs) = ((a', fs'), Ok tt) → st_value a' = reg.
Proof.
  intros Hp Hio Ha Hu Hf Hr.
  pose proof (al_reload_steps (LawfulAllowlistStore := allowlist_file_lawful registry_to_vec registry_from_slice
                json_roundtrip json_u64 p uid Hp) io (a, fs) reg Hio) as H.
  specialize (H ltac:(by split)). unfold wp in H. simpl in H. rewrite Hr in H. by destruct H as (_ & H & _); apply H.
Qed.

Lemma revoke_at_spec open_io revoke_io p uid app_id fs reg fs' r :
  parsed p → si_exists_fails open_io = false → Services.sound_io uid revoke_io → file_registry p fs reg →
  revoke_at registry_to_vec registry_from_slice open_io revoke_io p uid app_id fs = (fs', r) →
  match r with
  | Ok g => ∃ reg', revoke app_id reg = (reg', Ok g) ∧ file_registry p fs' reg'
  | Err _ => file_registry p fs' reg
  | Panic => False
  end.
Proof.
  intros Hp Hopen Hrevoke Hf. unfold revoke_at.
  destruct (PersistentAllowlist_open _ _ open_io p uid fs) as [fs1 opened] eqn:Ho.
  assert (Hheld : allowlist_held registry_from_slice p uid
                    ({| st_path := p; st_expected_uid := uid; st_value := AllowlistRegistry_new |}, fs) reg) by (by split).
  apply (open_held registry_to_vec registry_from_slice p uid open_io _ reg fs1 opened Hopen Hheld) in Ho as [Hkeep Ho].
  simpl in Hkeep. assert (Hf1 : file_registry p fs1 reg) by (unfold file_registry; by rewrite Hkeep).
  destruct opened as [a|e|]; [|intros [= <- <-]; exact Hf1|done]. destruct Ho as [Hap Hau].
  pose proof (transaction_steps registry_to_vec registry_from_slice json_roundtrip json_u64 p uid Hp
    revoke_io (revoke app_id) (Revoke app_id) inr Hrevoke I (λ _, eq_refl) (a, fs1) reg ltac:(by split)) as Hw.
  unfold wp, PersistentAllowlist_revoke in *. destruct (transaction _ _ revoke_io _ (a, fs1)) as [[a2 fs2] r2].
  intros [= <- <-]. destruct r2 as [g|e|]; simpl; [|by destruct Hw|done].
  destruct Hw as (eff & [-> Hg]%changing_Ok & [_ _ Hh]). simpl in Hh.
  exists (revoke app_id reg).1. split; [by rewrite <-Hg, <-surjective_pairing|exact Hh].
Qed.
End RevokeFacts.

(** ** The update the server runs *)
Lemma map_err_is_ok {E E' A} (f : E → E') (r : outcome E A) : is_ok (map_err f r) = is_ok r.
Proof. by destruct r. Qed.

(** The update of the server does to the files what the [update] command does, and succeeds
    when it does. *)
Lemma server_update_as_command sha256 tar_entries curl probe uio os arch current_exe config fs :
  let server := perform_stable_latest_update sha256 tar_entries curl probe uio os arch current_exe config fs in
  let command := update sha256 tar_entries curl probe uio (cf_update config) os arch current_exe fs in
  server.1 = command.1 ∧ is_ok server.2 = is_ok command.2.
Proof.
  unfold perform_stable_latest_update, update, st_bind, relay_call, st_lift. simpl.
  destruct (FixedSourceUpdater_new (cf_update config)) as [u|e|]; simpl; [|done..].
  destruct (acquire_lock uio u fs) as [fs1 [[]|e|]]; simpl; [|done..].
  destruct (release_os os) as [o|e|]; simpl; [|done..].
  destruct (release_arch arch) as [a|e|]; simpl; [|done..].
  destruct (download_latest curl uio u o a fs1) as [fs2 [[p1 p2]|e|]]; simpl; [|done..].
  destruct (verify_checksum sha256 uio p1 p2 fs2) as [[]|e|]; simpl; [|done..].
  destruct (extract_verified tar_entries uio u p1 fs2) as [fs3 [staged|e|]]; simpl; [|done..].
  destruct (verify_staged_startup sha256 probe uio u staged fs3) as [[]|e|]; simpl; [|done..].
  destruct current_exe as [installed|]; simpl; [|done].
  destruct (replace_binary _ _ _ _ _ _ _) as [fs4 [[]|e|]]; done.
Qed.

(** ** The revoke command *)
Lemma control_config_spec {IpAddr} (parse_ip : list byte → option IpAddr) from_toml read_to_string cp :
  match control_config parse_ip from_toml read_to_string cp with
  | Ok config => RelayConfig_validate parse_ip config = Ok tt ∧ sc_mode (cf_security config) = Verified
  | Err _ => True
  | Panic => False
  end.
Proof.
  unfold control_config, RelayConfig_from_path, RelayConfig_from_toml_str, require_verified_security.
  destruct (read_to_string cp) as [text|]; [|done]. simpl. destruct (from_toml text) as [config|]; [|done]. simpl.
  destruct (RelayConfig_validate parse_ip config) as [[]|e|] eqn:Hv; simpl; [|done|exact (RelayConfig_validate_returns parse_ip config Hv)].
  case_bool_decide as Hm; simpl; [done|]. split; [done|]. by destruct (sc_mode _).
Qed.

(** The command ends before it opens the allowlist, or is [revoke_at] on the allowlist of a
    valid configuration in verified mode. *)
Lemma revoke_command_cases {IpAddr} (parse_ip : list byte → option IpAddr) from_toml read_to_string to_vec from_slice
    open_io revoke_io id_output cp app_id fs :
  let run := revoke_command parse_ip from_toml read_to_string to_vec from_slice open_io revoke_io id_output cp app_id fs in
  (∃ e, run = (fs, Err e))
  ∨ ∃ config uid,
      control_config parse_ip from_toml read_to_string cp = Ok config ∧ current_uid id_output = Ok uid
      ∧ run = revoke_at to_vec from_slice open_io revoke_io (ec_allowlist_path (cf_enrollment config)) uid app_id fs.
Proof.
  unfold revoke_command, st_bind, st_lift. simpl.
  pose proof (control_config_spec parse_ip from_toml read_to_string cp) as Hc.
  destruct (control_config _ _ _ cp) as [config|e|]; simpl; [|by left; eexists|done].
  unfold AppId_new. destruct (identity_refused app_id); simpl; [by left; eexists|].
  pose proof (current_uid_returns id_output) as Hr.
  destruct (current_uid id_output) as [uid|e|]; simpl; [|by left; eexists|done].
  right. by exists config, uid.
Qed.

(** * Properties *)

(** C40. [revoke] ends with status 0 exactly when the App was revoked in the allowlist file:
    the App had an entry that was not revoked, and what the file holds is the registry with
    that entry revoked.  When no other App has its certificate, no server that reloads the
    file after that, whatever fails, admits the certificate or lets it update; another App's
    active entry with the same fingerprint would still admit it
    ([shared_fingerprint_survives_revocation]).  Otherwise the status is 2 and the file holds
    what it held.  It does nothing unless the configuration is valid and in verified mode.
    The file holds a well formed registry, each entry filed under its own App (an entry filed
    under another name is not reached: [misfiled_entry_survives_revocation]); the look-up of
    the file as it is opened does not fail (when it does, the allowlist is replaced by an
    empty one: [stat_failure_resets_allowlist]); reads that succeed return what the file
    holds, and writes are by the expected user. *)
Theorem revoke_cuts_off {IpAddr : Type} (parse_ip : list byte → option IpAddr)
    relay_from_toml read_to_string sha256 tar_entries curl probe registry_to_vec registry_from_slice
    uio os arch current_exe open_io revoke_io id_output run default_config version :
  (∀ v bytes, registry_to_vec v = Some bytes → registry_from_slice bytes = Some v) →
  (∀ v bytes, registry_from_slice bytes = Some v → is_u64 (ar_generation v)) →
  ∀ arguments config_path app_id fs fs' code,
  parse_args arguments = Ok (CliRevoke config_path app_id) →
  main parse_ip relay_from_toml read_to_string sha256 tar_entries curl probe registry_to_vec registry_from_slice
    uio os arch current_exe open_io revoke_io id_output run default_config version arguments fs = (fs', code) →
  (code = 2 ∧ fs' = fs)
  ∨ ∃ config uid,
      control_config parse_ip relay_from_toml read_to_string config_path = Ok config
      ∧ RelayConfig_validate parse_ip config = Ok tt ∧ sc_mode (cf_security config) = Verified
      ∧ current_uid id_output = Ok uid
      ∧ ∀ reg, let p := ec_allowlist_path (cf_enrollment config) in
          parsed p → si_exists_fails open_io = false → Services.sound_io uid revoke_io →
          file_registry registry_from_slice p fs reg → allowlist_wf reg →
          (code = 2 ∧ file_registry registry_from_slice p fs' reg)
          ∨ (code = 0 ∧ ∃ reg' g e,
              entry reg app_id = Some e ∧ ae_state e ≠ Revoked ∧ revoke app_id reg = (reg', Ok g)
              ∧ file_registry registry_from_slice p fs' reg'
              ∧ ((∀ k e', entry reg k = Some e' → ae_fingerprint e' = ae_fingerprint e → k = app_id) →
                 ∀ io a a' fs'' now,
                   Services.sound_io uid io → st_path a = p → st_expected_uid a = uid →
                   PersistentAllowlist_reload registry_from_slice io (a, fs') = ((a', fs''), Ok tt) →
                   PersistentAllowlist_allows_qrm_at a' (ae_fingerprint e) now = false
                   ∧ PersistentAllowlist_authorize_update_at a' (ae_fingerprint e) now = Err UpdateUnauthorized)).
Proof.
  intros Hjson Hu64 arguments cp app_id fs fs' code Hargs. unfold main, st_bind at 1, st_lift at 1. rewrite Hargs. simpl.
  pose proof (revoke_command_cases parse_ip relay_from_toml read_to_string registry_to_vec registry_from_slice
    open_io revoke_io id_output cp app_id fs) as [[e He]|(config & uid & Hc & Hu & Hrun)]; unfold st_bind.
  { rewrite He. intros [= <- <-]. by left. }
  rewrite Hrun. destruct (revoke_at _ _ _ _ _ _ _ fs) as [fs1 r] eqn:Hat. intros Hmain. right.
  pose proof (control_config_spec parse_ip relay_from_toml read_to_string cp) as Hspec. rewrite Hc in Hspec. destruct Hspec as [Hv Hm].
  exists config, uid. split_and!; [done..|]. set (p := ec_allowlist_path _) in *. intros reg Hp Hopen Hrevoke Hf Hwf.
  apply (revoke_at_spec registry_to_vec registry_from_slice Hjson Hu64 _ _ p uid _ _ reg) in Hat; [|done..].
  destruct r as [g|e|]; injection Hmain as <- <-; [right|by left|done]. destruct Hat as (reg' & Hr & Hf').
  destruct (revoke_Ok _ _ _ _ Hwf Hr) as (_ & _ & (e & He & Hs & _) & _).
  split; [done|]. exists reg', g, e. split_and!; try done. intros Hsole io a a' fs'' now Hio Hap Hau Hreload.
  assert (Ha : st_value a' = reg') by exact (reload_reads _ _ Hjson Hu64 p uid io a fs1 reg' a' fs'' Hp Hio Hap Hau Hf' Hreload).
  unfold PersistentAllowlist_allows_qrm_at, PersistentAllowlist_authorize_update_at. rewrite Ha.
  apply inadmissible_refused. by apply (revoke_inadmissible app_id reg reg' g e).
Qed.

(** An App that is revoked by the command. *)
Module RevokeDemo.
Definition before : AllowlistRegistry := example_new.
Definition after : AllowlistRegistry := (revoke (str_lit "a") example_new).1.
Definition to_vec (r : AllowlistRegistry) : option (list byte) :=
  if bool_decide (r = before) then Some (str_lit "before")
  else if bool_decide (r = after) then Some (str_lit "after") else None.
Definition from_slice (bytes : list byte) : option AllowlistRegistry :=
  if bool_decide (bytes = str_lit "before") then Some before
  else if bool_decide (bytes = str_lit "after") then Some after else None.
Definition fs : FileSystem :=
  <[example_path := {| nd_kind := IsFile; nd_uid := 5; nd_mode := 384; nd_dev := 1; nd_ino := 3;
                       nd_bytes := str_lit "before" |}]> example_fs.
Definition config : RelayConfig :=
  {| cf_listener := cf_listener example_relay_config; cf_security := cf_security example_relay_config;
     cf_limits := cf_limits example_relay_config;
     cf_enrollment :=
       {| ec_enabled := false; ec_allowlist_path := example_path; ec_issuance_result_path := []; ec_bootstrap_state_path := [];
          ec_max_handshakes := 0; ec_max_connections := 0; ec_max_request_bytes := 0; ec_max_csr_bytes := 0;
          ec_connection_lifetime_secs := 0; ec_challenge_ttl_secs := 0; ec_bootstrap_session := [];
          ec_bootstrap_verification_cwd := [] |}; cf_update := UpdateConfig_default |}.
Definition uio : UpdateIo :=
  {| ui_fails := λ _, false; ui_material := Material.sound_io 5; ui_id := None; ui_id_again := None;
     ui_target := λ _, None; ui_lock_held := false; ui_staging_created := Some; ui_partial := []; ui_pid := 1;
     ui_platform := OtherPlatform |}.
Definition arguments : list (list byte) :=
  [str_lit "revoke"; str_lit "--config"; str_lit "/relay.toml"; str_lit "--app-id"; str_lit "a"].
Definition revoke_main (arguments : list (list byte)) : FileSystem * Z :=
  Cli.main Some (λ _, Some config) (λ _, Some []) id (λ _, None) (λ _ _ _ _, None) (λ _, TimedOut) to_vec from_slice
    uio [] [] None example_io example_io (Some (true, str_lit "5")) (λ _ _ _, Ok tt) [] [] arguments fs.

Lemma roundtrip v bytes : to_vec v = Some bytes → from_slice bytes = Some v.
Proof.
  unfold to_vec. case_bool_decide as H1; [intros [= <-]; subst v; by vm_compute|].
  case_bool_decide as H2; [|done]. intros [= <-]. subst v. by vm_compute.
Qed.
Lemma generation v bytes : from_slice bytes = Some v → is_u64 (ar_generation v).
Proof.
  unfold from_slice. case_bool_decide; [by intros [= <-]|]. case_bool_decide; [by intros [= <-]|done].
Qed.
Lemma before_wf : allowlist_wf before.
Proof. apply (run_allowlist_steps AllowlistRegistry_new [Enroll (example_certificate (str_lit "a"))]), new_wf. Qed.
End RevokeDemo.

Lemma revoke_cuts_off_witness :
  (RevokeDemo.revoke_main RevokeDemo.arguments).2 = 0
  ∧ file_registry RevokeDemo.from_slice example_path (RevokeDemo.revoke_main RevokeDemo.arguments).1 RevokeDemo.after.
Proof.
  destruct (revoke_cuts_off Some (λ _, Some RevokeDemo.config) (λ _, Some []) id (λ _, None) (λ _ _ _ _, None)
    (λ _, TimedOut) RevokeDemo.to_vec RevokeDemo.from_slice RevokeDemo.uio [] [] None example_io example_io
    (Some (true, str_lit "5")) (λ _ _ _, Ok tt) [] [] RevokeDemo.roundtrip RevokeDemo.generation
    RevokeDemo.arguments (components (str_lit "/relay.toml")) (str_lit "a") RevokeDemo.fs
    (RevokeDemo.revoke_main RevokeDemo.arguments).1 (RevokeDemo.revoke_main RevokeDemo.arguments).2
    ltac:(vm_compute; reflexivity) ltac:(apply surjective_pairing)) as [[Hc _]|(config & uid & Hconfig & _ & _ & Hu & H)].
  { vm_compute in Hc. discriminate. }
  assert (Hconf : control_config Some (λ _, Some RevokeDemo.config) (λ _, Some []) (components (str_lit "/relay.toml"))
                  = Ok RevokeDemo.config) by (vm_compute; reflexivity).
  rewrite Hconf in Hconfig. injection Hconfig as <-. vm_compute in Hu. injection Hu as <-.
  destruct (H RevokeDemo.before) as [[Hc _]|(Hc & reg' & g & e & _ & _ & Hr & Hf & _)].
  - apply components_parsed.
  - reflexivity.
  - split; [reflexivity|intros bytes read [= <-]; reflexivity].
  - eexists. split; [vm_compute; reflexivity|vm_compute; reflexivity].
  - exact RevokeDemo.before_wf.
  - vm_compute in Hc. discriminate.
  - split; [exact Hc|]. assert (reg' = RevokeDemo.after) as <- by (unfold RevokeDemo.after; change example_new with RevokeDemo.before; rewrite Hr; reflexivity).
    exact Hf.
Defined.
